(* ===== verification/_CoqProject ===== *)
-Q . S2P
Prelude.v
Biterate.v
Bytes.v
Numbers.v
Fault.v
Sel4.v
Sel4Types.v
CRegion.v
Allocator.v
AllocatorTree.v
AllocatorSpec.v
AllocatorProps.v
Dyndl.v
Realize.v
RealizeSpec.v
GicRegisters.v
Distributor.v
DistributorSpec.v
DistributorOps.v
DistributorSafety.v
Gic.v
GicSpec.v
DistributorRuns.v
RingBuffer.v
RingBufferSpec.v
BufferedRingBuffer.v
Runtime.v
Mirage.v
Failure.v
SerialServer.v
SerialServerSpec.v
TimerServer.v
TimerServerSpec.v
Drivers.v
Mutex.v
GenericMutex.v
ResourceServer.v
ResourceServerSpec.v
FiniteSet.v
EventTypes.v
Startup.v
Bitfield.v
EventServer.v
EventServerSpec.v
Rpc.v
FaultMessage.v
Vmm.v
VmmSpec.v
MonitorSafety.v
P9Wire.v
P9Messages.v
P9Path.v
P9Server.v
P9ServerSpec.v
P9Cli.v
DeviceTree.v
DeviceTreeSpec.v
DeviceTreeTyped.v
DeviceTreePrint.v
FdtBindings.v
FdtBindingsSpec.v
HostTool.v
HostToolSpec.v
HostCli.v
LoaderSpec.v
FrameSpec.v
SpecTool.v
SpecToolSpec.v
