(* ===== verification/Prelude.v ===== *)
(** * IceCap: a verification development

    IceCap is a hypervisor on the seL4 microkernel.  An untrusted host and confidential
    realms run as guests; what isolates and serves them is a set of small Rust components:
    a virtual machine monitor per guest with an emulated interrupt controller, a resource server
    that loads realms and places them on cores, an event server that routes events between guests
    and servers, a timer server, a serial server, and the channels between them.  Around them are
    the device trees that describe the machine to guests, and a 9P file server that a guest is
    developed with.  This library models these components as executable functions and proves what makes
    them correct.  Source paths below are relative to [src/src/rust/crates].

    ** Conventions

    A [&mut self] method is a function of type [M S E A := S → outcome E A * S]: it takes the
    state and gives it back with a value, an error ([Result::Err]) or a panic.  A failed
    [assert!], an [unwrap] of nothing, an index out of bounds and a [todo!()] are panics; an
    error keeps the writes made before it.  Machine words are [Z] with their wrap-around
    written out ([word_cast], [word_shl], [u64_add], ...).  A [Vec] is a list, indexed with
    [index], which panics out of range; maps are [gmap], iterated in the order of their keys
    ([btree_iter]).  Code outside the repository (the kernel, [postcard], devices) is a type class
    or an argument, with what is relied on as its laws.  The file below holds this vocabulary,
    weakest preconditions ([wp]), specifications that are partial or total ([mspec]), invariants
    ([preserves], [safe]) with their hint databases, the inversion tactic [ok_inv], and lemmas on
    words and lists.

    ** The parts

    - [Biterate]: [framework/helpers/biterate], iteration over the bits of a word.
    - [Fault], [FaultMessage]: [framework/base/icecap-sel4/src/fault.rs] and [UserContext], decoding
      of guest memory faults and emulation of loads, faults as messages of the kernel, and
      [framework/vmm/psci], the power interface.
    - [Sel4]: [framework/base/icecap-sel4], capability pointers, object blueprints, error codes and
      the wrappers of the kernel's invocations; the kernel is the class [Sel4].  [Sel4Types]: rights,
      attributes of mappings and message tags.
    - [CRegion], [Allocator], [Dyndl], [Realize]: [framework/dyndl], the dynamic loader.  Regions
      of capability slots; the allocator of kernel objects, a tree of untyped memory with an index of
      its free leaves; the description of subsystems and its view; the realizer, which
      creates, fills, initializes and destroys them.  [AllocatorTree], [AllocatorSpec],
      [AllocatorProps] and [RealizeSpec] hold their theorems.
    - [GicRegisters], [Distributor], [Gic]: [framework/vmm/gic], the emulated GICv2.  The
      register map and cells; the distributor with every register write and read; routing of
      interrupts to list registers with an overflow queue.  [DistributorSpec], [DistributorOps],
      [DistributorSafety], [GicSpec] and [DistributorRuns] hold their theorems.
    - [Vmm]: [hypervisor/components/vmm] and [framework/vmm/utils], the virtual machine monitor: its
      callbacks of the interrupt controller, the handling of every message, the start of virtual
      CPUs, and the extensions of the host and of realms; [VmmSpec], [MonitorSafety].
    - [Rpc]: [framework/base/icecap-rpc], requests and answers in message registers.
    - [RingBuffer], [BufferedRingBuffer]: [framework/base/icecap-ring-buffer], shared-memory byte
      and packet channels, and the unbounded queues in front of them; [RingBufferSpec].
    - [Runtime]: what components print and log with ([framework/base/icecap-std/src/fmt.rs],
      [icecap-logger]) and where the heap gets its memory ([icecap-dlmalloc]).
    - [Failure]: [framework/base/icecap-failure], errors with causes, context and backtraces.
    - [Mirage]: [hypervisor/components/mirage], the network interface and the system calls of a
      unikernel; the OCaml runtime is an argument.
    - [SerialServer]: [framework/generic-components/serial-server/core], one serial line for many
      clients, with the device as the class [SerialDevice]; [SerialServerSpec].
    - [TimerServer]: [framework/generic-components/timer-server], one hardware timer shared by
      many clients, with the device as the class [TimerDevice]; [TimerServerSpec].
    - [Drivers]: [framework/drivers/devices], the timers and serial ports, with the registers of a
      device as the class [Mmio]; the timers are instances of [TimerDevice] and the auxiliary UART of
      [SerialDevice], and the PL011, whose output may wait for ever, is a group of functions.
    - [Mutex], [GenericMutex]: [framework/base/icecap-sync/src/mutex.rs], as an interleaving step relation:
      the lock, and the data behind it with its guards.
    - [ResourceServer]: [hypervisor/components/resource-server], the life of realms and their
      placement on cores; the dynamic loader and the kernel are the classes [Realizer] and
      [Platform]; [ResourceServerSpec].
    - [Startup]: which threads the servers start and what they serve, from the functions [main] of the
      resource, event, timer and serial servers.
    - [FiniteSet]: [framework/helpers/finite-set], the numbering of enumerations that a derive
      macro generates, for every enumeration.
    - [EventTypes], [Bitfield], [EventServer]: [hypervisor/components/event-server], the names of
      events, the shared bitfield with its two concurrent sides, and the server with its
      wiring at start; [EventServerSpec].
    - [Bytes], [Numbers]: what the formats below share of the standard library, integers and strings as
      bytes, and the reading of numbers.
    - [P9Wire], [P9Messages]: [framework/9p/crosvm-9p], the wire format of the 9P protocol.  The
      trait [WireFormat] is a class, what its derive macro generates an instance for every list of
      fields, and every message a record; the classes [WireLaws] and [MessageLaws] state what an
      encoding promises.
    - [P9Path], [P9Server]: [framework/9p/crosvm-9p-server], paths as the standard library takes them
      apart, and the server with every request.  The host's file system is the class [Fs], whose
      answers are arbitrary; [P9ServerSpec].  [P9Cli]: the program around it, its addresses, sockets
      and connections.
    - [DeviceTree]: [framework/base/icecap-fdt], flattened device trees, read and written;
      [DeviceTreeSpec], [DeviceTreeTyped].  [DeviceTreePrint]: trees as text.
    - [FdtBindings]: [bindings.rs] of the same crate, [icecap-fdt/bindings], the nodes of devices and
      guests, and [hypervisor/build-tools/hypervisor-fdt-append-devices], the tool that adds them
      to the tree of the host; [FdtBindingsSpec].
    - [HostTool]: [hypervisor/host-tools/icecap-host], with which the host creates, runs and destroys
      realms; the device files of its kernel are the class [HostEnv].  [HostToolSpec] states as the
      class [HostLink] what lies between the tool and the resource server, and composes the tool, the
      server and the loader.  [HostCli]: the commands of the tool.
    - [LoaderSpec]: the dynamic loader behind the resource server.  The server is proved against the classes
      [Realizer] and [RealizerLaws]; here the loader is shown to be an instance of both.  [FrameSpec]: the tool, the
      server and the loader down to the bytes of frames, on a kernel that keeps a record of what was done
      to it ([LogKernel] of [Sel4]) and answers in any way.
    - [SpecTool]: [framework/dyndl/cli/dyndl-serialize-spec], which builds the description of a realm from
      files, the class [Files]; [SpecToolSpec].

    They interact as follows.  A guest's access to the distributor faults; the kernel sends the
    fault to [Vmm], [FaultMessage] and [Fault] decode it and [Gic] performs it, asking its callbacks,
    which [Vmm] implements, to inject or acknowledge interrupts.  A guest's hypercalls go through
    [Vmm] too: those of the power interface start virtual CPUs, those of the host to the resource
    server, which [HostTool] issues, are passed on through [Rpc].  The resource server loads realms with the realizer,
    subscribes to host events at the event server and to timeouts at the timer server, which end
    the turn of a realm on a core.  The event server raises events in the bitfield of a monitor,
    which turns them into interrupts of [Gic].  The serial server reads and writes
    its clients' ring buffers.  The servers run several threads under a mutex, so their
    operations are atomic here ([critical_sections_atomic]); the mutex, the ring buffer and the bitfield, which are themselves
    concurrent, are step relations.

    ** What is shown

    - Interrupt controller.  The state stays well formed for all operations, callbacks and
      sequences of guest accesses; a guest that keeps to the accesses the emulator handles
      ([write_safe] lists them) never panics it; reads of readable registers return words; the
      effect of the enabling, pending, priority, target and acknowledging operations; where an
      interrupt goes (first free list register, overflow queue, or only pending) and that it is not
      lost; what the maintenance interrupt does; the register map is exact.
    - Virtual machine monitor.  Its invariant, for any extension that keeps it, and that both
      extensions do: a well-formed interrupt controller, the configured map of interrupts, and no
      virtual node in two threads; loads from the distributor end to end; [CPU_ON] end to end;
      events become the configured interrupts; requests of the host reach the resource server
      and the answers come back; and a monitor whose guest keeps to what is handled
      ([message_ok]) handles every message and never stops.
    - Dynamic loader.  The memory of kernel objects never overlaps and stays in the memory that was
      given, for the allocator and across realms; the derivation tree is coalesced, so released
      memory is whole again; creation and release are inverse; the space that is reported is exact;
      only measured content is loaded into the frames of a realm; a live realm can be
      destroyed.
    - RPC.  What is sent is received, through registers, slices and proxies.
    - Channels.  The ring buffer refines a pair of FIFO byte streams under every interleaving
      of the two peers; no operation panics; packets are read as they were written; the
      buffered channels keep order.
    - Serial server.  What it writes shows every byte of every client once, in order and in its
      colour; its buffers never fill up; idle timeouts empty them; it takes exactly what its
      clients sent.
    - Timer server.  No sane message makes it panic; a pass over the due timers ends and
      completes, signals and requeues exactly what it should; the device is armed for the
      next deadline.
    - Drivers.  The 64-bit counter of the BCM timer, read in two halves while it runs, is a value
      it had during the read, and a deadline is reported as missed exactly when it was.
    - Mutex.  At most one holder; no lost wake-up: once no further thread asks for the lock, every order
      of steps ends with all waiting threads served (threads that keep asking may overtake one that
      waits); operations under the lock are atomic, which is why those of the servers are functions here.
    - Resource server.  Its two tables and the kernel's affinities agree in every state that is
      reached by messages handled without an error, other than [HackRun] and a second declaration of a
      realm that is under construction, so a core runs at most one virtual node; a turn on a core
      succeeds and leaves no trace.  With the dynamic loader as its realizer, the pointers by which it names the threads of
      realms are all different, so that the same holds of the two together.
    - Host tool.  Creating a realm with chunks and batches of requests is the same as handing the
      server the description and the contents at once; with the loader as the server's realizer, the
      frames of a realm that was created hold the measured content, and nothing else was written; and from a description that the build tool
      wrote, what is loaded is what was in the files.
    - Event server.  The derived numbering is a bijection; no event is lost between the server
      and a client: every order of the steps under way ends with all events handled; as long as events are moved
      to free entries, the wiring is kept, and signals never panic and are delivered.
    - 9P.  Every frame is decoded as it was encoded, and any bytes give a well-typed frame or an
      error; whatever a client sends and the file system answers, every path that is used lies in
      the exported directory (as a path: links inside it are followed by the host); requests are
      answered with their tag and, except for walks, within the negotiated size; a client that
      reads a directory in pages is given every entry once, if each fits into a page.
    - Device trees.  A tree is read back as it was written; reading any bytes ends, and panics only
      where the header points outside the blob; what is read is well formed; the tool adds
      exactly the devices it is given, which can be read back from their nodes, and the tree of a
      guest describes the guest; the text of a value shows its bytes in lines that fit.
    - Start.  Each core of a server is served by one thread; the events that the serial server
      raises for its clients are different and are read as those of the client.
    - Support.  What is printed to a ring buffer keeps its order; the log has exactly the lines of
      the enabled records; the blocks of the heap are disjoint; the chain of causes of an error
      ends, and an error is given one backtrace however often context is added; addresses and numbers
      on command lines are read as they are written; serving a 9P connection ends with its
      bytes and stays in the exported directory; packets of the unikernel keep their order.
    - Errors found.  Some theorems state what the code does where it does not do what it
      means to: an off-by-one in clearing enable bits, panics that a guest or a client can
      provoke (in the distributor, the monitor and the servers), a timer of period zero that
      hangs the server, interrupts stranded in the overflow queue, a notification request lost
      in a race, two events with one number, a capability slot that every realm leaks, a flush
      that publishes nothing, a heap that a failed request uses up, context that hides a backtrace, an
      entry of a directory that is larger than a page and hides those after it.

    ** Fuel

    Loops that are not structural take fuel, chosen so that it never runs out, which is
    proved: [biterate] 64 (a bit per round of a word of at most 64 bits, [biterate_spec]); the
    timer loop a bound on the deadlines passed ([update_timers_spec] gives the result, so the
    fuel is enough); chunks of a fill request the length of the buffer ([fill_chunks_fuel]);
    signals of the event server one more than the number of spaces ([signal_delivers] and
    [event_server_wired] give the result); the loop over lines of the serial server one more than
    the bytes in the buffers ([flush_lines_spec]); the nodes and reserved areas of a device tree one more
    than the bytes of the blob ([dt_read_cases]: the fuel is never the reason to stop); the
    digits of a [usize] 16 and 20, as many as it has at most; the chunks of a description as many as it has
    bytes ([host_creates_realm] says that all are sent); the messages of a 9P connection one more than
    its bytes ([connection_served]); the causes of an error one more than its layers ([chain_ends]); the
    requests of a client that reads a directory one more than its entries ([readdir_pages]).  The
    endless loops of [run_realm_node] and of the 9P program have a number of turns.  The characters of one interrupt of the serial
    line are bounded by an argument of the event, and the theorems hold for every bound.  The
    polling loop of the PL011 may wait for ever when the device never has room; it takes fuel and
    gives nothing when it runs out, and no theorem is about it.

    ** What is not modelled

    The behaviour of devices beyond the laws of the timer; the start code of components beyond what
    builds their state; the bodies of the kernel's invocations; sockets, whose readers and writers are
    lists of bytes here, and the parsing of options; start code, unwinding and thread-local storage
    of the runtime; macros that derive instances of [Fail]; the other build tools and the driver in
    the kernel of the host; the depth of the stack.  The servers'
    models take decoded requests; [Rpc] shows that decoding gives what was sent.  The memory model is sequentially consistent: the acquire and release orderings of
    the mutex and the barriers of the ring buffer are not represented.  A peer of the ring buffer
    does not write more bytes than its 64-bit offsets count.  Exhaustion of the heap is not
    represented.  A vector that is made with a capacity has exactly that capacity, and arithmetic that
    the code does not check wraps around, as in a release build.  Runs of the resource server and of the event server
    are followed up to the first error or panic. *)

From stdpp Require Export base tactics numbers list gmap sorting.

#[global] Arguments Nat.div : simpl never.
#[global] Arguments Nat.modulo : simpl never.

(** ** Results of Rust code

    A Rust function of this code base ends in one of three ways: it returns a
    value, it returns an error through [Result], or it panics (a failed
    [assert!], an [unwrap] on [None], an index out of bounds).  [Panic] ends the
    component, so it carries nothing. *)
Inductive outcome (E A : Type) : Type :=
| Ok (a : A)
| Err (e : E)
| Panic.
Arguments Ok {E A} a.
Arguments Err {E A} e.
Arguments Panic {E A}.

#[global] Instance outcome_ret E : MRet (outcome E) := λ A a, Ok a.
#[global] Instance outcome_bind E : MBind (outcome E) := λ A B f m,
  match m with
  | Ok a => f a
  | Err e => Err e
  | Panic => Panic
  end.

#[global] Instance outcome_fmap E : FMap (outcome E) := λ A B f m,
  match m with
  | Ok a => Ok (f a)
  | Err e => Err e
  | Panic => Panic
  end.

Lemma outcome_bind_ok {E A B} (m : outcome E A) (f : A → outcome E B) b :
  (m ≫= f) = Ok b → ∃ a, m = Ok a ∧ f a = Ok b.
Proof. destruct m; naive_solver. Qed.
Lemma outcome_bind_eq {E A B} (m : outcome E A) (f : A → outcome E B) a : m = Ok a → (m ≫= f) = f a.
Proof. by intros ->. Qed.

(** [x.unwrap()] on an option, and [v[i]] on a vector. *)
Definition unwrap {E A} (o : option A) : outcome E A :=
  match o with Some a => Ok a | None => Panic end.
Definition index {E A} (l : list A) (i : nat) : outcome E A := unwrap (l !! i).

(** Short-circuiting [&&] of two conditions that may panic. *)
Definition and_then {E} (a b : outcome E bool) : outcome E bool :=
  x ← a; if (x : bool) then b else Ok false.

(** ** State passing

    [&mut self] methods are functions of the state that return the new state in
    every case: an [Err] keeps the writes made before it. *)
Definition M (S E A : Type) : Type := S → outcome E A * S.

#[global] Instance M_ret S E : MRet (M S E) := λ A a s, (Ok a, s).
#[global] Instance M_bind S E : MBind (M S E) := λ A B f m s,
  match m s with
  | (Ok a, s') => f a s'
  | (Err e, s') => (Err e, s')
  | (Panic, s') => (Panic, s')
  end.

Definition reads {S E A} (f : S → outcome E A) : M S E A := λ s, (f s, s).
Definition gets {S E A} (f : S → A) : M S E A := λ s, (Ok (f s), s).
Definition modify {S E} (f : S → S) : M S E unit := λ s, (Ok tt, f s).
Definition throw {S E A} (e : E) : M S E A := λ s, (Err e, s).
Definition panic {S E A} : M S E A := λ s, (Panic, s).
Definition lift {S E A} (o : outcome E A) : M S E A := λ s, (o, s).
Definition assert_ {S E} (b : bool) : M S E unit := λ s, (if b then Ok tt else Panic, s).

(** [r.unwrap()] on a [Result]: an error becomes a panic. *)
Definition unwrap_result {S E E' A} (m : M S E A) : M S E' A := λ s,
  match m s with
  | (Ok a, s') => (Ok a, s')
  | (Err _, s') => (Panic, s')
  | (Panic, s') => (Panic, s')
  end.

(** [for x in l { f(x) }]. *)
Fixpoint for_each {S E B} (f : B → M S E unit) (l : list B) : M S E unit :=
  match l with
  | [] => mret tt
  | x :: l' => f x ≫= λ _, for_each f l'
  end.

Lemma bind_eq_ok {S E A B} (m : M S E A) (f : A → M S E B) s a s' :
  m s = (Ok a, s') → (m ≫= f) s = f a s'.
Proof. unfold mbind, M_bind. by intros ->. Qed.

Lemma for_each_app {St Er B} (f : B → M St Er unit) l1 l2 st :
  for_each f (l1 ++ l2) st = (for_each f l1 ≫= λ _, for_each f l2) st.
Proof.
  revert st. induction l1 as [|x l1 IH]; intros st; [done|]. cbn [app for_each]. unfold mbind, M_bind in *.
  destruct (f x st) as [[[]|e|] st']; [|done..]. apply IH.
Qed.

(** ** Inversion of runs that return

    [ok_inv] takes apart every hypothesis that says that a program returned a value. *)
Section ok_inv.
Context {S E : Type}.
Implicit Types (s : S).

Lemma bind_ok_inv {A B} (m : M S E A) (f : A → M S E B) s b s' :
  (m ≫= f) s = (Ok b, s') → ∃ a s1, m s = (Ok a, s1) ∧ f a s1 = (Ok b, s').
Proof. unfold mbind, M_bind. destruct (m s) as [[a|e|] s1]; naive_solver. Qed.
Lemma assert_ok_inv (b : bool) s s' : (assert_ b : M S E unit) s = (Ok tt, s') → b = true ∧ s' = s.
Proof. unfold assert_. destruct b; naive_solver. Qed.
Lemma lift_ok_inv {A} (o : outcome E A) s a s' : (lift o : M S E A) s = (Ok a, s') → o = Ok a ∧ s' = s.
Proof. unfold lift. naive_solver. Qed.
Lemma unwrap_ok_inv {A} (o : option A) a : (unwrap o : outcome E A) = Ok a → o = Some a.
Proof. destruct o; naive_solver. Qed.
Lemma gets_ok_inv {A} (f : S → A) s a s' : (gets f : M S E A) s = (Ok a, s') → a = f s ∧ s' = s.
Proof. unfold gets. naive_solver. Qed.
Lemma reads_ok_inv {A} (f : S → outcome E A) s a s' : reads f s = (Ok a, s') → f s = Ok a ∧ s' = s.
Proof. unfold reads. naive_solver. Qed.
Lemma modify_ok_inv (f : S → S) s s' : (modify f : M S E unit) s = (Ok tt, s') → s' = f s.
Proof. unfold modify. naive_solver. Qed.
Lemma ret_ok_inv {A} (a b : A) s s' : (mret a : M S E A) s = (Ok b, s') → a = b ∧ s' = s.
Proof. unfold mret, M_ret. naive_solver. Qed.
End ok_inv.

Lemma is_none_true {A} (o : option A) : match o with None => true | Some _ => false end = true → o = None.
Proof. by destruct o. Qed.

Ltac ok_inv_step :=
  match goal with
  | H : (_ ≫= _) _ = (Ok _, _) |- _ => apply bind_ok_inv in H as (? & ? & ? & ?); cbv beta in *
  | x : unit |- _ => destruct x
  | H : assert_ _ _ = (Ok _, _) |- _ => apply assert_ok_inv in H as [? ->]
  | H : gets _ _ = (Ok _, _) |- _ => apply gets_ok_inv in H as [-> ->]
  | H : lift _ _ = (Ok _, _) |- _ => apply lift_ok_inv in H as [H ->]
  | H : reads _ _ = (Ok _, _) |- _ => apply reads_ok_inv in H as [H ->]
  | H : index _ _ = Ok _ |- _ => unfold index in H
  | H : unwrap _ = Ok _ |- _ => apply unwrap_ok_inv in H
  | H : modify _ _ = (Ok _, _) |- _ => apply modify_ok_inv in H as ->
  | H : mret _ _ = (Ok _, _) |- _ => apply ret_ok_inv in H as [? ->]
  | H : panic _ = (Ok _, _) |- _ => discriminate H
  | H : match _ with None => true | Some _ => false end = true |- _ => apply is_none_true in H
  end.
Ltac ok_inv := repeat ok_inv_step.

(** ** Weakest preconditions

    [wp m Q R s]: run from [s], [m] does not panic, a value and final state it
    returns satisfy [Q], and an error it returns satisfies [R]. *)
Definition wp {S E A} (m : M S E A) (Q : A → S → Prop) (R : E → S → Prop) (s : S) : Prop :=
  match m s with
  | (Ok a, s') => Q a s'
  | (Err e, s') => R e s'
  | (Panic, _) => False
  end.

Section wp_rules.
Context {S E : Type}.
Implicit Types (s : S) (R : E → S → Prop).

Lemma wp_ret {A} (a : A) (Q : A → S → Prop) R s : Q a s → wp (mret a) Q R s.
Proof. done. Qed.

Lemma wp_bind {A B} (m : M S E A) (f : A → M S E B) Q R s :
  wp m (λ a, wp (f a) Q R) R s → wp (m ≫= f) Q R s.
Proof. unfold wp, mbind, M_bind. destruct (m s) as [[] ?]; done. Qed.

Lemma wp_mono {A} (m : M S E A) (Q Q' : A → S → Prop) (R R' : E → S → Prop) s :
  wp m Q R s → (∀ a s', Q a s' → Q' a s') → (∀ e s', R e s' → R' e s') → wp m Q' R' s.
Proof. unfold wp. destruct (m s) as [[] ?]; naive_solver. Qed.

Lemma wp_reads {A} (f : S → outcome E A) (Q : A → S → Prop) R s a :
  f s = Ok a → Q a s → wp (reads f) Q R s.
Proof. unfold wp, reads. by intros ->. Qed.

Lemma wp_modify (f : S → S) (Q : unit → S → Prop) R s :
  Q tt (f s) → wp (modify f) Q R s.
Proof. done. Qed.

Lemma wp_assert (b : bool) (Q : unit → S → Prop) R s :
  b = true → Q tt s → wp (assert_ b) Q R s.
Proof. by intros ->. Qed.

Lemma wp_unwrap_result {E' A} (m : M S E' A) (Q : A → S → Prop) R s :
  wp m Q (λ _ _, False) s → wp (unwrap_result m) Q R s.
Proof. unfold wp, unwrap_result. destruct (m s) as [[] ?]; done. Qed.

Lemma wp_for_each {B} (f : B → M S E unit) (l : list B) (I : nat → S → Prop) Q R s :
  I 0 s →
  (∀ k x s', l !! k = Some x → I k s' → wp (f x) (λ _, I (Datatypes.S k)) R s') →
  (∀ s', I (length l) s' → Q tt s') →
  wp (for_each f l) Q R s.
Proof.
  revert I s. induction l as [|x l IH]; intros I s HI Hstep HQ; simpl.
  - by apply wp_ret, HQ.
  - apply wp_bind. eapply wp_mono; [by apply (Hstep 0)| |done].
    intros [] s' HI'. apply (IH (λ k, I (Datatypes.S k))); [done| |done].
    intros k y s'' Hy Hk. by apply (Hstep (Datatypes.S k)).
Qed.

Lemma wp_ok {A} (m : M S E A) Q R s a s' : m s = (Ok a, s') → wp m Q R s → Q a s'.
Proof. unfold wp. by intros ->. Qed.
End wp_rules.

(** ** Invariants

    [preserves I m]: [m] keeps [I], whatever it returns (a value, an error or a
    panic). *)
Definition preserves {S E A} (I : S → Prop) (m : M S E A) : Prop := ∀ s, I s → I (m s).2.

Create HintDb preserves discriminated.

Section preserves_rules.
Context {S E : Type} (I : S → Prop).

Lemma preserves_ret {A} (a : A) : preserves I (mret a : M S E A).
Proof. by intros s. Qed.
Lemma preserves_throw {A} (e : E) : preserves I (throw e : M S E A).
Proof. by intros s. Qed.
Lemma preserves_panic {A} : preserves I (panic : M S E A).
Proof. by intros s. Qed.
Lemma preserves_reads {A} (f : S → outcome E A) : preserves I (reads f).
Proof. by intros s. Qed.
Lemma preserves_gets {A} (f : S → A) : preserves I (gets f : M S E A).
Proof. by intros s. Qed.
Lemma preserves_lift {A} (o : outcome E A) : preserves I (lift o : M S E A).
Proof. by intros s. Qed.
Lemma preserves_assert (b : bool) : preserves I (assert_ b : M S E unit).
Proof. by intros s. Qed.
Lemma preserves_modify (f : S → S) : (∀ s, I s → I (f s)) → preserves I (modify f : M S E unit).
Proof. intros Hf s. apply Hf. Qed.

Lemma preserves_bind {A B} (m : M S E A) (f : A → M S E B) :
  preserves I m → (∀ a, preserves I (f a)) → preserves I (m ≫= f).
Proof.
  intros Hm Hf s Hs. specialize (Hm s Hs). unfold mbind, M_bind.
  destruct (m s) as [[a|e|] s']; simpl in *; [by apply Hf|done|done].
Qed.

Lemma preserves_if {A} (b : bool) (m1 m2 : M S E A) :
  (b = true → preserves I m1) → (b = false → preserves I m2) →
  preserves I (if b then m1 else m2).
Proof. destruct b; auto. Qed.

Lemma preserves_unwrap_result {E' A} (m : M S E' A) :
  preserves I m → preserves I (unwrap_result m : M S E A).
Proof.
  intros Hm s Hs. specialize (Hm s Hs). unfold unwrap_result.
  by destruct (m s) as [[a|e|] s'].
Qed.

Lemma preserves_for_each {B} (f : B → M S E unit) (l : list B) :
  (∀ x, x ∈ l → preserves I (f x)) → preserves I (for_each f l).
Proof.
  induction l as [|x l IH]; intros Hf; simpl; [apply preserves_ret|].
  apply preserves_bind; [apply Hf; by constructor|]. intros _.
  apply IH. intros y Hy. apply Hf. by constructor.
Qed.
End preserves_rules.

#[export] Hint Resolve preserves_ret preserves_throw preserves_panic preserves_reads preserves_gets
  preserves_lift preserves_assert preserves_unwrap_result : preserves.
#[export] Hint Extern 1 (preserves _ (_ ≫= _)) => (apply preserves_bind; [|intros ?]) : preserves.
#[export] Hint Extern 1 (preserves _ (if _ then _ else _)) =>
  (apply preserves_if; intros ?) : preserves.

(** ** Panic freedom

    [safe I m]: from a state of [I], [m] does not panic and ends in a state of [I]. *)
Definition safe {S E A} (I : S → Prop) (m : M S E A) : Prop :=
  ∀ s, I s → (m s).1 ≠ Panic ∧ I (m s).2.

Create HintDb safe discriminated.

Section safe_rules.
Context {S E : Type} (I : S → Prop).

Lemma safe_ret {A} (a : A) : safe I (mret a : M S E A).
Proof. by intros s. Qed.
Lemma safe_throw {A} (e : E) : safe I (throw e : M S E A).
Proof. by intros s. Qed.
Lemma safe_gets {A} (f : S → A) : safe I (gets f : M S E A).
Proof. by intros s. Qed.
Lemma safe_lift {A} (o : outcome E A) : o ≠ Panic → safe I (lift o : M S E A).
Proof. by intros Ho s. Qed.
Lemma safe_reads {A} (f : S → outcome E A) :
  (∀ s, I s → f s ≠ Panic) → safe I (reads f : M S E A).
Proof. intros Hf s Hs. split; [by apply Hf|done]. Qed.
Lemma safe_assert (b : bool) : b = true → safe I (assert_ b : M S E unit).
Proof. by intros -> s. Qed.

Lemma safe_bind {A B} (m : M S E A) (f : A → M S E B) :
  safe I m → (∀ a, safe I (f a)) → safe I (m ≫= f).
Proof.
  intros Hm Hf s Hs. destruct (Hm s Hs) as [Hp HI]. unfold mbind, M_bind.
  destruct (m s) as [[a|e|] s']; simpl in *; [by apply Hf|done|done].
Qed.

Lemma safe_bind_gets {A B} (g : S → A) (f : A → M S E B) :
  (∀ s, I s → (f (g s) s).1 ≠ Panic ∧ I (f (g s) s).2) → safe I (gets g ≫= f).
Proof. intros Hf s Hs. by apply Hf. Qed.

Lemma safe_if {A} (b : bool) (m1 m2 : M S E A) :
  (b = true → safe I m1) → (b = false → safe I m2) → safe I (if b then m1 else m2).
Proof. destruct b; auto. Qed.

(** An unwrapped result is safe when it is a value. *)
Lemma safe_unwrap_result {E' A} (m : M S E' A) :
  (∀ s, I s → ∃ a s', m s = (Ok a, s') ∧ I s') → safe I (unwrap_result m : M S E A).
Proof. intros Hm s Hs. destruct (Hm s Hs) as (a & s' & Hr & HI). unfold unwrap_result. by rewrite Hr. Qed.
End safe_rules.

#[export] Hint Resolve safe_ret safe_throw safe_gets : safe.
#[export] Hint Extern 1 (safe _ (_ ≫= _)) => (apply safe_bind; [|intros ?]) : safe.
#[export] Hint Extern 1 (safe _ (if _ then _ else _)) => (apply safe_if; intros ?) : safe.

(** ** Specifications of runs

    [mspec strict m Q s]: when [m] returns a value from [s], it and the final state satisfy
    [Q]; and when [strict], [m] does return a value.  One proof gives partial correctness,
    whatever the environment does, and total correctness, when it cooperates. *)
Definition mspec {S E A} (strict : bool) (m : M S E A) (Q : A → S → Prop) (s : S) : Prop :=
  match m s with
  | (Ok a, s') => Q a s'
  | _ => strict = false
  end.

Section mspec_rules.
Context {S E : Type} (strict : bool).
Implicit Types (s : S).

Lemma mspec_ret {A} (a : A) (Q : A → S → Prop) s : Q a s → mspec strict (mret a : M S E A) Q s.
Proof. done. Qed.
Lemma mspec_bind {A B} (m : M S E A) (f : A → M S E B) (Q : B → S → Prop) s :
  mspec strict m (λ a, mspec strict (f a) Q) s → mspec strict (m ≫= f) Q s.
Proof. unfold mspec, mbind, M_bind. by destruct (m s) as [[] ?]. Qed.
Lemma mspec_mono {A} (m : M S E A) (Q Q' : A → S → Prop) s :
  mspec strict m Q s → (∀ a s', Q a s' → Q' a s') → mspec strict m Q' s.
Proof. unfold mspec. destruct (m s) as [[] ?]; naive_solver. Qed.
Lemma mspec_gets {A} (f : S → A) (Q : A → S → Prop) s : Q (f s) s → mspec strict (gets f : M S E A) Q s.
Proof. done. Qed.
Lemma mspec_modify (f : S → S) (Q : unit → S → Prop) s :
  Q tt (f s) → mspec strict (modify f : M S E unit) Q s.
Proof. done. Qed.
Lemma mspec_assert (b : bool) (Q : unit → S → Prop) s :
  (strict = true → b = true) → (b = true → Q tt s) → mspec strict (assert_ b : M S E unit) Q s.
Proof. unfold mspec, assert_. destruct b, strict; naive_solver. Qed.
Lemma mspec_lift {A} (o : outcome E A) (Q : A → S → Prop) s :
  (strict = true → ∃ a, o = Ok a) → (∀ a, o = Ok a → Q a s) → mspec strict (lift o : M S E A) Q s.
Proof. unfold mspec, lift. destruct o, strict; naive_solver. Qed.
Lemma mspec_reads {A} (f : S → outcome E A) (Q : A → S → Prop) s a :
  f s = Ok a → Q a s → mspec strict (reads f : M S E A) Q s.
Proof. unfold mspec, reads. by intros ->. Qed.
Lemma mspec_panic {A} (Q : A → S → Prop) s : strict = false → mspec strict (panic : M S E A) Q s.
Proof. done. Qed.
Lemma mspec_unwrap_result {E' A} (m : M S E A) (Q : A → S → Prop) s :
  mspec strict m Q s → mspec strict (unwrap_result m : M S E' A) Q s.
Proof. unfold mspec, unwrap_result. by destruct (m s) as [[] ?]. Qed.
Lemma mspec_and {A} (m : M S E A) (Q Q' : A → S → Prop) s :
  mspec strict m Q s → mspec strict m Q' s → mspec strict m (λ a s', Q a s' ∧ Q' a s') s.
Proof. unfold mspec. by destruct (m s) as [[] ?]. Qed.
Lemma mspec_ok {A} (m : M S E A) (Q : A → S → Prop) s a s' :
  mspec strict m Q s → m s = (Ok a, s') → Q a s'.
Proof. unfold mspec. by intros ? Hm; rewrite Hm in *. Qed.
End mspec_rules.

Lemma mspec_run {S E A} (m : M S E A) (Q : A → S → Prop) s :
  mspec true m Q s → ∃ a s', m s = (Ok a, s') ∧ Q a s'.
Proof. unfold mspec. destruct (m s) as [[] ?]; naive_solver. Qed.

(** ** Fixed-width words

    A [w]-bit unsigned word is a [Z] in [[0, 2^w)].  [!x], [x << n] and the
    truncating casts are written with the mask of the width. *)
Definition is_word (w : Z) (z : Z) : Prop := (0 ≤ z < 2 ^ w)%Z.
Definition word_not (w z : Z) : Z := Z.ldiff (Z.ones w) z.
Definition word_shl (w z n : Z) : Z := Z.land (Z.shiftl z n) (Z.ones w).
Definition word_cast (w z : Z) : Z := Z.land z (Z.ones w).

Abbreviation is_u32 := (is_word 32).
Abbreviation is_u64 := (is_word 64).
Abbreviation not32 := (word_not 32).
Abbreviation shl32 := (word_shl 32).

(** [(val >> n) & 1 == 1], the bit test the code writes everywhere. *)
Definition bit_is_set (z n : Z) : bool := Z.eqb (Z.land (Z.shiftr z n) 1) 1.

Create HintDb words discriminated.

Section words.
Implicit Types (w z i n : Z).

Lemma is_word_bits w z :
  (0 ≤ w)%Z → (0 ≤ z)%Z → (∀ i, (w ≤ i)%Z → Z.testbit z i = false) → is_word w z.
Proof. intros Hw Hz Hb. split; [done|]. by apply Z.bounded_iff_bits_nonneg. Qed.

Lemma is_word_testbit w z i : (0 ≤ w)%Z → is_word w z → (w ≤ i)%Z → Z.testbit z i = false.
Proof.
  intros Hw [Hz Hlt]. revert i. by apply Z.bounded_iff_bits_nonneg.
Qed.

Lemma is_word_lor w a b : (0 ≤ w)%Z → is_word w a → is_word w b → is_word w (Z.lor a b).
Proof.
  intros Hw Ha Hb. apply is_word_bits; [done|destruct Ha, Hb; by apply Z.lor_nonneg|].
  intros i Hi. rewrite Z.lor_spec, !(is_word_testbit w) by done. done.
Qed.

Lemma is_word_land_l w a b : (0 ≤ w)%Z → is_word w a → is_word w (Z.land a b).
Proof.
  intros Hw Ha. apply is_word_bits; [done|destruct Ha; apply Z.land_nonneg; by left|].
  intros i Hi. by rewrite Z.land_spec, (is_word_testbit w) by done.
Qed.

Lemma is_word_land_r w a b : (0 ≤ w)%Z → is_word w b → is_word w (Z.land a b).
Proof. rewrite Z.land_comm. apply is_word_land_l. Qed.

Lemma is_word_ones w : (0 ≤ w)%Z → is_word w (Z.ones w).
Proof. intros Hw. rewrite Z.ones_equiv. unfold is_word. lia. Qed.

Lemma is_word_not w z : (0 ≤ w)%Z → is_word w (word_not w z).
Proof.
  intros Hw. unfold word_not. rewrite Z.ldiff_land.
  by apply is_word_land_l, is_word_ones.
Qed.

Lemma is_word_shl w z n : (0 ≤ w)%Z → is_word w (word_shl w z n).
Proof. intros Hw. by apply is_word_land_r, is_word_ones. Qed.

Lemma is_word_cast w z : (0 ≤ w)%Z → is_word w (word_cast w z).
Proof. intros Hw. by apply is_word_land_r, is_word_ones. Qed.
Lemma word_cast_small w z : (0 ≤ w)%Z → is_word w z → word_cast w z = z.
Proof. intros Hw [??]. unfold word_cast. by rewrite Z.land_ones, Z.mod_small. Qed.

Lemma testbit_word_not w z i :
  (0 ≤ w)%Z → (0 ≤ i)%Z → Z.testbit (word_not w z) i = bool_decide (i < w)%Z && negb (Z.testbit z i).
Proof.
  intros Hw Hi. unfold word_not. rewrite Z.ldiff_spec, Z.testbit_ones by done.
  f_equal. case_bool_decide; lia.
Qed.

Lemma testbit_word_shl w z n i :
  (0 ≤ w)%Z → (0 ≤ i)%Z →
  Z.testbit (word_shl w z n) i = bool_decide (i < w)%Z && Z.testbit z (i - n).
Proof.
  intros Hw Hi. unfold word_shl. rewrite Z.land_spec, Z.shiftl_spec, Z.testbit_ones by done.
  rewrite andb_comm. f_equal. case_bool_decide; lia.
Qed.

Lemma bit_is_set_testbit z n : (0 ≤ n)%Z → bit_is_set z n = Z.testbit z n.
Proof.
  intros Hn. unfold bit_is_set.
  replace (Z.land (Z.shiftr z n) 1) with (Z.b2z (Z.testbit z n)); [by destruct (Z.testbit z n)|].
  apply Z.bits_inj'. intros i Hi. rewrite Z.land_spec, Z.shiftr_spec by done.
  destruct (decide (i = 0)%Z) as [->|].
  - rewrite Z.b2z_bit0, andb_true_r. done.
  - assert (1 ≤ i)%Z by lia. rewrite (is_word_testbit 1 (Z.b2z _)); [|lia| |done].
    + rewrite (is_word_testbit 1 1); [by rewrite andb_false_r|lia|done|done].
    + unfold is_word. destruct (Z.testbit z n); simpl; lia.
Qed.
End words.

#[export] Hint Resolve is_word_lor is_word_land_l is_word_not is_word_shl is_word_cast
  is_word_ones : words.
#[export] Hint Extern 1 (0 ≤ _)%Z => lia : words.
#[export] Hint Extern 1 (is_word _ _) => (unfold is_word; lia) : words.

(** ** Lists *)

Section lists.
Context {A : Type}.
Implicit Types (l : list A) (P Q : A → Prop).

Lemma filter_ext_in P Q `{!∀ x, Decision (P x)} `{!∀ x, Decision (Q x)} l :
  (∀ x, x ∈ l → P x ↔ Q x) → filter P l = filter Q l.
Proof.
  induction l as [|x l IH]; intros HPQ; [done|].
  rewrite !filter_cons, IH by (intros; apply HPQ; by constructor).
  destruct (HPQ x ltac:(by constructor)).
  repeat case_decide; tauto || done.
Qed.

Lemma filter_none P `{!∀ x, Decision (P x)} l : (∀ x, x ∈ l → ¬ P x) → filter P l = [].
Proof.
  intros HP. rewrite (filter_ext_in P (λ _, False)); [|naive_solver].
  induction l; [done|]. rewrite filter_cons, decide_False by tauto.
  apply IHl. intros y Hy. apply HP. by constructor.
Qed.

Lemma filter_all P `{!∀ x, Decision (P x)} l : (∀ x, x ∈ l → P x) → filter P l = l.
Proof.
  induction l as [|x l IH]; intros HP; [done|].
  rewrite filter_cons_True, IH; [done|intros y Hy; apply HP; by constructor|apply HP; by constructor].
Qed.
End lists.

(** ** Runs that end *)

(** A relation each of whose steps makes a measure smaller has no infinite run. *)
Lemma measure_sn {A} (R : relation A) (f : A → nat) :
  (∀ x y, R x y → f y < f x) → ∀ x, sn R x.
Proof.
  intros HR x. remember (f x) as n eqn:Hn. revert x Hn. induction (lt_wf n) as [n _ IH]. intros x ->.
  constructor. intros y Hy. by eapply (IH (f y)); [apply HR|].
Qed.

(** A property that every step keeps is kept by every run. *)
Lemma rtc_keeps {A} (R : relation A) (P : A → Prop) x y :
  (∀ a b, R a b → P a → P b) → rtc R x y → P x → P y.
Proof. intros HR. induction 1; eauto. Qed.
