(* ===== verification/Biterate.v ===== *)
(** * Biterate: iteration over the set bits of a word

    Model of [framework/helpers/biterate/src/lib.rs].  [Biterator<T>(T)] holds the
    bits not yet produced; [next] takes the lowest one with [trailing_zeros] and
    clears it with an exclusive or.  The type parameter [T] is an unsigned word
    of some width, so the state is a non-negative [Z].

    The theorems show that the iterator is finite (fuel equal to the width is
    enough), that it produces exactly the positions of the set bits, in
    increasing order, hence without repetition. *)

From S2P Require Import Prelude.

(** [trailing_zeros] of a non-zero word. *)
Fixpoint pos_trailing_zeros (p : positive) : nat :=
  match p with
  | xO p' => S (pos_trailing_zeros p')
  | _ => 0
  end.
Definition trailing_zeros (z : Z) : nat :=
  match z with
  | Zpos p => pos_trailing_zeros p
  | _ => 0
  end.

(** [Biterator::next]: the new iterator state and the item, if any. *)
Definition biterator_next (self : Z) : Z * option nat :=
  if Z.eqb self 0 then (self, None)
  else
    let r := trailing_zeros self in
    (Z.lxor self (Z.shiftl 1 (Z.of_nat r)), Some r).

(** Collecting the iterator with a bound on the number of calls to [next]. *)
Fixpoint biterate_fuel (fuel : nat) (self : Z) : list nat :=
  match fuel with
  | 0 => []
  | S fuel' =>
      match biterator_next self with
      | (_, None) => []
      | (self', Some r) => r :: biterate_fuel fuel' self'
      end
  end.

(** [for i in biterate(set)]: a word of at most 64 bits needs at most 64 items. *)
Definition biterate (set : Z) : list nat := biterate_fuel 64 set.

(** The reference: the positions of the set bits below [w], in order. *)
Definition set_bits (w : nat) (z : Z) : list nat :=
  filter (λ i, Z.testbit z (Z.of_nat i) = true) (seq 0 w).

(** ** The lowest set bit *)

Lemma pos_trailing_zeros_spec (p : positive) :
  Z.testbit (Zpos p) (Z.of_nat (pos_trailing_zeros p)) = true ∧
  ∀ i : nat, i < pos_trailing_zeros p → Z.testbit (Zpos p) (Z.of_nat i) = false.
Proof.
  induction p as [p IH|p IH|]; cbn [pos_trailing_zeros]; [split; [done|lia]| |split; [done|lia]].
  destruct IH as [IH1 IH2].
  rewrite Pos2Z.inj_xO. split.
  - rewrite Nat2Z.inj_succ, Z.testbit_even_succ by lia. done.
  - intros [|i] Hi; [by rewrite Z.testbit_even_0|].
    rewrite Nat2Z.inj_succ, Z.testbit_even_succ by lia. apply IH2. lia.
Qed.

Lemma trailing_zeros_spec (z : Z) :
  (0 < z)%Z →
  Z.testbit z (Z.of_nat (trailing_zeros z)) = true ∧
  ∀ i : nat, i < trailing_zeros z → Z.testbit z (Z.of_nat i) = false.
Proof. destruct z; [lia| |lia]. intros _. apply pos_trailing_zeros_spec. Qed.

Lemma testbit_one (i : Z) : Z.testbit 1 i = bool_decide (i = 0)%Z.
Proof.
  case_bool_decide as Hi; [by subst|].
  destruct (decide (0 ≤ i)%Z); [|apply Z.testbit_neg_r; lia].
  apply (is_word_testbit 1); [lia|done|lia].
Qed.

Lemma testbit_clear_bit (z : Z) (r i : nat) :
  Z.testbit z (Z.of_nat r) = true →
  Z.testbit (Z.lxor z (Z.shiftl 1 (Z.of_nat r))) (Z.of_nat i) =
    Z.testbit z (Z.of_nat i) && negb (bool_decide (i = r)).
Proof.
  intros Hr. rewrite Z.lxor_spec, Z.shiftl_spec, testbit_one by lia.
  destruct (decide (i = r)) as [->|Hne].
  - by rewrite Hr, !bool_decide_true by lia.
  - rewrite !bool_decide_false by lia. by destruct (Z.testbit z _).
Qed.

Lemma is_word_clear_bit (w z : Z) (r : nat) :
  (0 ≤ w)%Z → is_word w z → (Z.of_nat r < w)%Z →
  is_word w (Z.lxor z (Z.shiftl 1 (Z.of_nat r))).
Proof.
  intros Hw Hz Hr. apply is_word_bits; [done| |].
  - destruct Hz. apply Z.lxor_nonneg. split; [|done]. intros _. apply Z.shiftl_nonneg. lia.
  - intros i Hi. rewrite Z.lxor_spec, Z.shiftl_spec, testbit_one by lia.
    by rewrite (is_word_testbit w), bool_decide_false by (done || lia).
Qed.

Lemma set_bit_below (w : nat) (z : Z) (r : nat) :
  is_word (Z.of_nat w) z → Z.testbit z (Z.of_nat r) = true → r < w.
Proof.
  intros Hz Hr. destruct (decide (r < w)) as [|Hge]; [done|].
  rewrite (is_word_testbit (Z.of_nat w)) in Hr by (done || lia). done.
Qed.

(** ** One step of the iterator against the reference *)

Lemma filter_seq_first (P : nat → Prop) `{!∀ i, Decision (P i)} (w r : nat) :
  r < w → P r → (∀ i, i < r → ¬ P i) →
  filter P (seq 0 w) = r :: filter (λ i, P i ∧ i ≠ r) (seq 0 w).
Proof.
  intros Hr HP Hlow.
  assert (Hsplit : seq 0 w = seq 0 r ++ r :: seq (S r) (w - S r)).
  { change (r :: seq (S r) (w - S r)) with (seq (0 + r) (S (w - S r))).
    rewrite <-seq_app. f_equal. lia. }
  rewrite Hsplit, !filter_app, !filter_cons, decide_True by done.
  rewrite (decide_False (P := P r ∧ r ≠ r)) by naive_solver.
  assert (Hnil : ∀ Q : nat → Prop, ∀ HQ : (∀ i, Decision (Q i)),
             (∀ i, Q i → P i) → filter Q (seq 0 r) = []).
  { intros Q HQ HQP. apply filter_none. intros i Hi HQi.
    apply elem_of_seq in Hi. eapply Hlow; [|by apply HQP]. lia. }
  rewrite !Hnil by naive_solver. simpl. f_equal.
  apply filter_ext_in. intros i Hi.
  apply elem_of_seq in Hi. split; [|naive_solver]. intros HPi. split; [done|lia].
Qed.

Lemma biterate_fuel_set_bits (w fuel : nat) (z : Z) :
  is_word (Z.of_nat w) z → length (set_bits w z) ≤ fuel → biterate_fuel fuel z = set_bits w z.
Proof.
  revert z. induction fuel as [|fuel IH]; intros z Hz Hlen; simpl.
  - symmetry. apply length_zero_iff_nil. lia.
  - unfold biterator_next. destruct (Z.eqb_spec z 0) as [->|Hnz].
    { symmetry. apply filter_none. intros i _. by rewrite Z.testbit_0_l. }
    destruct Hz as [Hz0 Hzw].
    destruct (trailing_zeros_spec z) as [Hr Hlow]; [lia|].
    set (r := trailing_zeros z) in *.
    assert (Hrw : r < w) by (eapply set_bit_below; [|done]; done).
    assert (Hstep : set_bits w z = r :: set_bits w (Z.lxor z (Z.shiftl 1 (Z.of_nat r)))).
    { unfold set_bits. rewrite (filter_seq_first _ w r); [|done|done|].
      - f_equal. apply filter_ext_in. intros i _. rewrite testbit_clear_bit by done.
        rewrite andb_true_iff, negb_true_iff, bool_decide_eq_false. done.
      - intros i Hi. by rewrite Hlow. }
    rewrite Hstep in Hlen |- *. simpl in Hlen. f_equal. apply IH; [|lia].
    apply is_word_clear_bit; [lia|done|lia].
Qed.

Lemma length_set_bits (w : nat) (z : Z) : length (set_bits w z) ≤ w.
Proof.
  unfold set_bits. etrans; [apply length_filter|]. by rewrite length_seq.
Qed.

Lemma elem_of_set_bits (w : nat) (z : Z) (i : nat) :
  i ∈ set_bits w z ↔ i < w ∧ Z.testbit z (Z.of_nat i) = true.
Proof. unfold set_bits. rewrite list_elem_of_filter, elem_of_seq. naive_solver lia. Qed.

Lemma set_bits_ordered (w : nat) (z : Z) : StronglySorted lt (set_bits w z).
Proof.
  unfold set_bits. generalize 0. induction w as [|w IH]; intros a; simpl; [constructor|].
  rewrite filter_cons. case_decide; [|done]. constructor; [done|].
  apply Forall_forall. intros i Hi. apply list_elem_of_filter in Hi as [_ Hi].
  apply elem_of_seq in Hi. lia.
Qed.

(** A word of any width up to 64 needs no more than 64 calls. *)
Lemma biterate_eq (w : nat) (z : Z) :
  w ≤ 64 → is_word (Z.of_nat w) z → biterate z = set_bits w z.
Proof.
  intros Hw Hz. apply biterate_fuel_set_bits; [done|].
  pose proof (length_set_bits w z). lia.
Qed.

Lemma elem_of_biterate (w : nat) (z : Z) (i : nat) :
  w ≤ 64 → is_word (Z.of_nat w) z →
  i ∈ biterate z ↔ Z.testbit z (Z.of_nat i) = true.
Proof.
  intros Hw Hz. rewrite (biterate_eq w), elem_of_set_bits by done.
  split; [naive_solver|]. intros Hi. split; [|done]. by eapply set_bit_below.
Qed.

(** Iterating over the bits of a word of any width up to 64 ends, and yields exactly
    the positions of its set bits, in strictly increasing order. *)
Lemma biterate_spec (w : nat) (z : Z) :
  w ≤ 64 → is_word (Z.of_nat w) z →
  StronglySorted lt (biterate z) ∧
  ∀ i, i ∈ biterate z ↔ Z.testbit z (Z.of_nat i) = true.
Proof.
  intros Hw Hz. split.
  - rewrite (biterate_eq w) by done. apply set_bits_ordered.
  - intros i. by apply (elem_of_biterate w).
Qed.

