(* ===== verification/Bytes.v ===== *)
(** * Bytes: strings and integers as bytes

    What the parts that read and write byte formats share of the standard library: integers as
    bytes in big-endian order, strings as bytes with the validity of UTF-8, the order of strings,
    and the printing of numbers.  A byte is a [Z] below 256, a [String] the list of its bytes. *)

From stdpp Require Import strings.
From S2P Require Import Prelude.

Abbreviation byte_ok := (is_word 8).
Abbreviation bytes_ok := (Forall (is_word 8)).

(** ** Literals *)

(** The bytes of a string. *)
Fixpoint bytes_of_string (s : string) : list Z :=
  match s with
  | EmptyString => []
  | String a s' => Z.of_nat (Ascii.nat_of_ascii a) :: bytes_of_string s'
  end.

(** The digits of a number to a base of at most sixteen, least significant last. *)
Definition digit (d : Z) : Z := if (d <? 10)%Z then (48 + d)%Z else (87 + d)%Z.
Fixpoint digits (base : Z) (fuel : nat) (v : Z) (acc : list Z) : list Z :=
  match fuel with
  | 0 => acc
  | S fuel' =>
    let acc := digit (v mod base) :: acc in
    if (v / base =? 0)%Z then acc else digits base fuel' (v / base) acc
  end.
(** [{:x}] and [{}] of a [usize], which has at most sixteen and twenty digits. *)
Definition hex (v : Z) : list Z := digits 16 16 v [].
Definition decimal (v : Z) : list Z := digits 10 20 v [].

(** ** Big-endian integers *)

Fixpoint to_be_bytes (n : nat) (v : Z) : list Z :=
  match n with
  | 0 => []
  | S n' => (Z.shiftr v (8 * Z.of_nat n') mod 256)%Z :: to_be_bytes n' v
  end.
Definition from_be_bytes (l : list Z) : Z := foldl (λ acc b, acc * 256 + b)%Z 0%Z l.

(** ** UTF-8

    [core::str::from_utf8]: the well-formed sequences of one to four bytes. *)
Definition in_range (lo hi b : Z) : bool := ((lo <=? b) && (b <=? hi))%Z.
Definition utf8_cont (b : Z) : bool := in_range 0x80 0xBF b.
Definition utf8_three (b b1 : Z) : bool :=
  (b =? 0xE0)%Z && in_range 0xA0 0xBF b1 || in_range 0xE1 0xEC b && utf8_cont b1
  || (b =? 0xED)%Z && in_range 0x80 0x9F b1 || in_range 0xEE 0xEF b && utf8_cont b1.
Definition utf8_four (b b1 : Z) : bool :=
  (b =? 0xF0)%Z && in_range 0x90 0xBF b1 || in_range 0xF1 0xF3 b && utf8_cont b1
  || (b =? 0xF4)%Z && in_range 0x80 0x8F b1.

Fixpoint utf8_valid (l : list Z) : bool :=
  match l with
  | [] => true
  | b :: l1 =>
    if (b <? 0x80)%Z then utf8_valid l1 else
    match l1 with
    | [] => false
    | b1 :: l2 =>
      if in_range 0xC2 0xDF b then utf8_cont b1 && utf8_valid l2 else
      match l2 with
      | [] => false
      | b2 :: l3 =>
        if utf8_three b b1 then utf8_cont b2 && utf8_valid l3 else
        match l3 with
        | [] => false
        | b3 :: l4 => utf8_four b b1 && utf8_cont b2 && utf8_cont b3 && utf8_valid l4
        end
      end
    end
  end.

(** A [String]. *)
Definition is_string (s : list Z) : Prop := bytes_ok s ∧ utf8_valid s = true.

(** ** The order of strings: lexicographic, by bytes *)
Fixpoint bytes_cmp (a b : list Z) : comparison :=
  match a, b with
  | [], [] => Eq
  | [], _ :: _ => Lt
  | _ :: _, [] => Gt
  | x :: a', y :: b' => match (x ?= y)%Z with Eq => bytes_cmp a' b' | c => c end
  end.
Definition bytes_lt (a b : list Z) : Prop := bytes_cmp a b = Lt.

(** ** Lemmas *)

Lemma bytes_cmp_eq a b : bytes_cmp a b = Eq ↔ a = b.
Proof.
  revert b. induction a as [|x a IH]; intros [|y b]; simpl; try naive_solver.
  destruct (Z.compare_spec x y) as [->|?|?]; rewrite ?IH; split; intros; simplify_eq; try done; lia.
Qed.
Lemma bytes_cmp_antisym a b : bytes_cmp b a = CompOpp (bytes_cmp a b).
Proof.
  revert b. induction a as [|x a IH]; intros [|y b]; simpl; try done.
  rewrite (Z.compare_antisym x y). destruct (x ?= y)%Z; simpl; auto.
Qed.
Lemma bytes_lt_trans a b c : bytes_lt a b → bytes_lt b c → bytes_lt a c.
Proof.
  unfold bytes_lt. revert b c. induction a as [|x a IH]; intros [|y b] [|z c]; simpl; try done.
  destruct (Z.compare_spec x y) as [->|Hxy|Hxy]; [|intros _|done].
  - destruct (Z.compare_spec y z); [by apply IH|done|done].
  - destruct (Z.compare_spec y z) as [->|Hyz|Hyz]; [|intros _|done].
    + intros _. by rewrite (proj2 (Z.compare_lt_iff x z) Hxy).
    + by rewrite (proj2 (Z.compare_lt_iff x z) ltac:(lia)).
Qed.
Lemma bytes_lt_irrefl a : ¬ bytes_lt a a.
Proof. unfold bytes_lt. by rewrite (proj2 (bytes_cmp_eq a a) eq_refl). Qed.

(** The two ways to write the powers that occur. *)
Lemma pow256 n : (256 ^ Z.of_nat n = 2 ^ (8 * Z.of_nat n))%Z.
Proof. change 256%Z with (2 ^ 8)%Z. rewrite <- Z.pow_mul_r by lia. done. Qed.

Section be_bytes.
Local Open Scope Z_scope.

Lemma length_to_be_bytes n v : length (to_be_bytes n v) = n.
Proof. induction n; simpl; auto. Qed.

Lemma bytes_ok_to_be n v : bytes_ok (to_be_bytes n v).
Proof.
  induction n as [|n IH]; simpl; constructor; [|done].
  unfold is_word. change (2 ^ 8) with 256. apply Z.mod_pos_bound. lia.
Qed.

Lemma foldl_be acc l :
  foldl (λ acc b, acc * 256 + b) acc l = acc * 256 ^ Z.of_nat (length l) + from_be_bytes l.
Proof.
  unfold from_be_bytes. revert acc. induction l as [|b l IH]; intros acc; cbn [foldl length]; [lia|].
  rewrite IH, (IH (0 * 256 + b)), Nat2Z.inj_succ, Z.pow_succ_r by lia. lia.
Qed.

Lemma from_to_be n v : 0 ≤ v → from_be_bytes (to_be_bytes n v) = v mod 256 ^ Z.of_nat n.
Proof.
  intros Hv. induction n as [|n IH]; [by rewrite Z.mod_1_r|]. cbn [to_be_bytes].
  unfold from_be_bytes. cbn [foldl]. rewrite foldl_be, IH, length_to_be_bytes.
  rewrite Z.shiftr_div_pow2, <- pow256, Nat2Z.inj_succ, Z.pow_succ_r by lia.
  rewrite (Z.mul_comm 256), Z.rem_mul_r by (try lia; apply Z.pow_pos_nonneg; lia). lia.
Qed.

Lemma be_word_back n v : is_word (8 * Z.of_nat n) v → from_be_bytes (to_be_bytes n v) = v.
Proof. intros [??]. rewrite from_to_be by done. rewrite pow256, Z.mod_small; done. Qed.

Lemma from_be_range l : bytes_ok l → is_word (8 * Z.of_nat (length l)) (from_be_bytes l).
Proof.
  induction 1 as [|b l Hb _ IH]; [done|]. unfold is_word in *. rewrite <- pow256 in *.
  unfold from_be_bytes. cbn [foldl length]. rewrite foldl_be, Nat2Z.inj_succ, Z.pow_succ_r by lia.
  change (2 ^ 8) with 256 in Hb. nia.
Qed.
End be_bytes.

(** ** Strings *)

Lemma utf8_ascii l : Forall (λ b, (b < 128)%Z) l → utf8_valid l = true.
Proof.
  induction 1 as [|b l Hb _ IH]; [done|]. simpl.
  by rewrite (proj2 (Z.ltb_lt b 128) Hb).
Qed.

Lemma utf8_app a b : utf8_valid a = true → utf8_valid b = true → utf8_valid (a ++ b) = true.
Proof.
  intros Ha Hb. revert a Ha. fix IH 1. intros [|x l1] Ha; [done|]. cbn [utf8_valid app] in *.
  destruct (x <? 128)%Z; [by apply IH|]. destruct l1 as [|x1 l2]; [done|]. cbn [app].
  destruct (in_range 194 223 x); [apply andb_true_iff in Ha as [-> Ha]; by apply IH|].
  destruct l2 as [|x2 l3]; [done|]. cbn [app].
  destruct (utf8_three x x1); [apply andb_true_iff in Ha as [-> Ha]; by apply IH|].
  destruct l3 as [|x3 l4]; [done|]. cbn [app].
  apply andb_true_iff in Ha as [-> Ha]. by apply IH.
Qed.

Definition is_ascii (l : list Z) : Prop := Forall (λ b, 0 ≤ b < 128)%Z l.

Lemma ascii_string l : is_ascii l → is_string l.
Proof.
  intros Hl. split.
  - eapply Forall_impl; [exact Hl|]. intros b Hb. simpl in Hb. unfold is_word. change (2 ^ 8)%Z with 256%Z. lia.
  - apply utf8_ascii. eapply Forall_impl; [exact Hl|]. simpl. lia.
Qed.
Lemma is_string_app a b : is_string a → is_string b → is_string (a ++ b).
Proof. intros [??] [??]. split; [by apply Forall_app|by apply utf8_app]. Qed.

(** ** Digits *)

Definition undigit (c : Z) : Z := if (c <? 58)%Z then (c - 48)%Z else (c - 87)%Z.
Definition undigits (base : Z) (l : list Z) : Z := foldl (λ a c, a * base + undigit c)%Z 0%Z l.

Lemma undigit_digit d : (0 ≤ d < 16)%Z → undigit (digit d) = d ∧ (48 ≤ digit d < 128)%Z.
Proof.
  intros Hd. unfold undigit, digit. destruct (Z.ltb_spec d 10).
  - rewrite (proj2 (Z.ltb_lt (48 + d) 58)) by lia. lia.
  - rewrite (proj2 (Z.ltb_ge (87 + d) 58)) by lia. lia.
Qed.

Section digits.
Context (base : Z).
Hypothesis base_ok : (2 ≤ base ≤ 16)%Z.

Lemma digits_value fuel : ∀ v acc, (0 ≤ v < base ^ Z.of_nat fuel)%Z → (0 < fuel)%nat →
  undigits base (digits base fuel v acc) = foldl (λ a c, a * base + undigit c)%Z v acc.
Proof using base_ok.
  induction fuel as [|fuel IH]; intros v acc Hv Hf; [lia|]. cbn [digits].
  pose proof (Z.mod_pos_bound v base ltac:(lia)) as Hm. pose proof (Z.div_mod v base ltac:(lia)) as Hd.
  rewrite Nat2Z.inj_succ, Z.pow_succ_r in Hv by lia.
  destruct (Z.eqb_spec (v / base) 0) as [Hz|Hz].
  - unfold undigits. cbn [foldl]. rewrite (proj1 (undigit_digit (v mod base) ltac:(lia))).
    rewrite Hz in Hd. f_equal. lia.
  - pose proof (Z.div_pos v base ltac:(lia) ltac:(lia)).
    assert (v / base < base ^ Z.of_nat fuel)%Z by (apply Z.div_lt_upper_bound; lia).
    assert (0 < fuel)%nat by (destruct fuel; [change (base ^ Z.of_nat 0)%Z with 1%Z in *|]; lia).
    rewrite IH by (done || lia). cbn [foldl]. f_equal. rewrite (proj1 (undigit_digit (v mod base) ltac:(lia))). lia.
Qed.
Lemma digits_ascii fuel : ∀ v acc, (0 ≤ v)%Z → Forall (λ c, 48 ≤ c < 128)%Z acc →
  Forall (λ c, 48 ≤ c < 128)%Z (digits base fuel v acc).
Proof using base_ok.
  induction fuel as [|fuel IH]; intros v acc Hv Hacc; cbn [digits]; [done|].
  pose proof (Z.mod_pos_bound v base ltac:(lia)).
  assert (Forall (λ c, 48 ≤ c < 128)%Z (digit (v mod base) :: acc)) by (constructor; [apply undigit_digit; lia|done]).
  case_match; [done|]. apply IH; [apply Z.div_pos; lia|done].
Qed.
End digits.

Lemma decimal_inj v w : (0 ≤ v < 10 ^ 20)%Z → (0 ≤ w < 10 ^ 20)%Z → decimal v = decimal w → v = w.
Proof.
  intros Hv Hw He. apply (f_equal (undigits 10)) in He. unfold decimal in He.
  rewrite !digits_value in He by (done || lia). done.
Qed.
