(* ===== verification/Numbers.v ===== *)
(** * Numbers: reading numbers

    [str::parse] of the integer types of the standard library, which the command line tools read their
    arguments with.  What is read is in the range of the type ([parse_int_range]), and a number in range is
    read as it is printed ([parse_int_decimal]). *)

From S2P Require Import Prelude.
From S2P Require Import Bytes.

Inductive ParseIntError := IntEmpty | IntInvalidDigit | IntPosOverflow | IntNegOverflow.

Definition to_digit (c : Z) : option Z := if ((48 <=? c) && (c <=? 57))%Z then Some (c - 48)%Z else None.
(** The digits after the sign, from the left; [sign] is 1 or -1. *)
Fixpoint parse_digits (min max sign : Z) (s : list Z) (result : Z) : Z + ParseIntError :=
  match s with
  | [] => inl result
  | c :: s' =>
    match to_digit c with
    | None => inr IntInvalidDigit
    | Some d =>
      let result' := (result * 10 + sign * d)%Z in
      if (max <? result')%Z then inr IntPosOverflow
      else if (result' <? min)%Z then inr IntNegOverflow
      else parse_digits min max sign s' result'
    end
  end.
Definition parse_int (min max : Z) (s : list Z) : Z + ParseIntError :=
  match s with
  | [] => inr IntEmpty
  | [43%Z] | [45%Z] => inr IntInvalidDigit
  | 43%Z :: s' => parse_digits min max 1 s' 0
  | 45%Z :: s' => if (min <? 0)%Z then parse_digits min max (-1) s' 0 else inr IntInvalidDigit
  | _ => parse_digits min max 1 s 0
  end.
Definition parse_i32 : list Z → Z + ParseIntError := parse_int (- 2 ^ 31) (2 ^ 31 - 1).
Definition parse_u32 : list Z → Z + ParseIntError := parse_int 0 (2 ^ 32 - 1).
Definition parse_usize : list Z → Z + ParseIntError := parse_int 0 (2 ^ 64 - 1).

Lemma parse_digits_range min max sign s : ∀ result v, (min ≤ result ≤ max)%Z →
  parse_digits min max sign s result = inl v → (min ≤ v ≤ max)%Z.
Proof.
  induction s as [|c s IH]; intros result v Hr; simpl; [by intros [= <-]|].
  destruct (to_digit c) as [d|]; [|done]. destruct (Z.ltb_spec max (result * 10 + sign * d)); [done|].
  destruct (Z.ltb_spec (result * 10 + sign * d) min); [done|]. apply IH. lia.
Qed.
(** What is read is in the range of the type. *)
Lemma parse_int_range min max s v : (min ≤ 0 ≤ max)%Z → parse_int min max s = inl v → (min ≤ v ≤ max)%Z.
Proof.
  intros Hr Hp. assert (∀ sign s', parse_digits min max sign s' 0 = inl v → (min ≤ v ≤ max)%Z) as Hd
    by (intros; by eapply parse_digits_range).
  unfold parse_int in Hp. repeat case_match; try done; by eapply Hd.
Qed.

Lemma to_digit_digit d : (0 ≤ d < 10)%Z → to_digit (digit d) = Some d.
Proof.
  intros Hd. unfold to_digit, digit. destruct (Z.ltb_spec d 10); [|lia].
  destruct (Z.leb_spec 48 (48 + d)); [|lia]. destruct (Z.leb_spec (48 + d) 57); [|lia]. simpl. f_equal. lia.
Qed.
Lemma parse_digits_digits max fuel : ∀ v acc, (0 ≤ v < 10 ^ Z.of_nat fuel)%Z → 0 < fuel → (v ≤ max)%Z →
  parse_digits 0 max 1 (digits 10 fuel v acc) 0 = parse_digits 0 max 1 acc v.
Proof.
  induction fuel as [|fuel IH]; intros v acc Hv Hf Hmax; [lia|]. cbn [digits].
  pose proof (Z.mod_pos_bound v 10 ltac:(lia)) as Hm. pose proof (Z.div_mod v 10 ltac:(lia)) as Hd.
  rewrite Nat2Z.inj_succ, Z.pow_succ_r in Hv by lia.
  assert (∀ w, (w * 10 + v mod 10 = v)%Z → parse_digits 0 max 1 (digit (v mod 10) :: acc) w = parse_digits 0 max 1 acc v) as Hstep.
  { intros w Hw. cbn [parse_digits]. rewrite to_digit_digit by lia. rewrite Z.mul_1_l, Hw.
    destruct (Z.ltb_spec max v); [lia|]. by destruct (Z.ltb_spec v 0); [lia|]. }
  destruct (Z.eqb_spec (v / 10) 0) as [Hz|Hz]; [apply Hstep; lia|].
  pose proof (Z.div_pos v 10 ltac:(lia) ltac:(lia)).
  assert (v / 10 < 10 ^ Z.of_nat fuel)%Z by (apply Z.div_lt_upper_bound; lia).
  assert (0 < fuel) by (destruct fuel; [change (10 ^ Z.of_nat 0)%Z with 1%Z in *|]; lia).
  rewrite IH by lia. apply Hstep. lia.
Qed.
Lemma parse_digits_min min max s : ∀ result, (0 ≤ result)%Z → (min ≤ 0)%Z →
  parse_digits min max 1 s result = parse_digits 0 max 1 s result.
Proof.
  induction s as [|c s IH]; intros result Hr Hm; [done|]. cbn [parse_digits]. unfold to_digit.
  destruct ((48 <=? c) && (c <=? 57))%Z eqn:Hc; [|done]. apply andb_true_iff in Hc as [?%Z.leb_le ?%Z.leb_le].
  destruct (Z.ltb_spec max (result * 10 + 1 * (c - 48))); [done|].
  destruct (Z.ltb_spec (result * 10 + 1 * (c - 48)) min); [lia|].
  destruct (Z.ltb_spec (result * 10 + 1 * (c - 48)) 0); [lia|]. apply IH; lia.
Qed.
Lemma decimal_shape v : (0 ≤ v)%Z → ∃ c s, decimal v = c :: s ∧ (48 ≤ c)%Z.
Proof.
  intros Hv. pose proof (digits_ascii 10 ltac:(lia) 20 v [] Hv (List.Forall_nil _)) as Hf. unfold decimal.
  destruct (digits 10 20 v []) as [|c s] eqn:Hd; [|by apply Forall_cons in Hf as [? _]; exists c, s; split; [|lia]].
  exfalso. assert (∀ fuel w acc, 0 < length (digits 10 fuel w acc) ∨ (fuel = 0 ∧ acc = [])) as Hl.
  { induction fuel as [|fuel IH]; intros w acc; simpl; [destruct acc; simpl; [by right|left; lia]|left].
    case_match; simpl; [lia|]. by destruct (IH (w / 10)%Z (digit (w mod 10) :: acc)) as [|[_ [=]]]. }
  destruct (Hl 20 v []) as [Hlen|[[=] _]]. rewrite Hd in Hlen. simpl in Hlen. lia.
Qed.
(** A number in range is read as it is printed. *)
Lemma parse_int_decimal min max v : (min ≤ 0)%Z → (0 ≤ v ≤ max)%Z → (v < 10 ^ 20)%Z → parse_int min max (decimal v) = inl v.
Proof.
  intros Hmin Hv Hlt. destruct (decimal_shape v ltac:(lia)) as (c & s & Hd & Hc).
  assert (parse_digits min max 1 (decimal v) 0 = inl v) as Hp.
  { rewrite parse_digits_min by lia. unfold decimal. by rewrite parse_digits_digits by (simpl; lia). }
  rewrite Hd in *. unfold parse_int. repeat case_match; subst; try lia; done.
Qed.
