(* ===== verification/Fault.v ===== *)
(** * Fault: decoding of guest memory faults

    Model of the fault half of [framework/base/icecap-sel4]: [VMFault] with its
    syndrome accessors, [VMFaultWidth] and [VMFaultData] ([src/fault.rs]), and the
    part of [UserContext] a fault handler touches ([src/types.rs]).

    [Word] is [u64].  The registers [x0 .. x30] of [seL4_UserContext] are the
    list [gprs], in order; [gpr]/[gpr_mut] panic on any other index, and
    [read_gpr] reads index 31 as the zero register. *)

From S2P Require Import Prelude.

(** ** Access width and data *)

Inductive VMFaultWidth := WByte | WHalfWord | WWord | WDoubleWord.

#[global] Instance VMFaultWidth_eq_dec : EqDecision VMFaultWidth.
Proof. solve_decision. Defined.

Inductive VMFaultData :=
| DByte (v : Z)
| DHalfWord (v : Z)
| DWord (v : Z)
| DDoubleWord (v : Z).

#[global] Instance VMFaultData_eq_dec : EqDecision VMFaultData.
Proof. solve_decision. Defined.

(** [VMFaultWidth::mask]. *)
Definition width_mask (w : VMFaultWidth) : Z :=
  match w with
  | WByte => 0xff
  | WHalfWord => 0xffff
  | WWord => 0xffffffff
  | WDoubleWord => word_not 64 0
  end.

(** [VMFaultWidth::truncate]: mask, then the narrowing cast. *)
Definition truncate (w : VMFaultWidth) (val : Z) : VMFaultData :=
  let val := Z.land val (width_mask w) in
  match w with
  | WByte => DByte (word_cast 8 val)
  | WHalfWord => DHalfWord (word_cast 16 val)
  | WWord => DWord (word_cast 32 val)
  | WDoubleWord => DDoubleWord (word_cast 64 val)
  end.

(** [impl From<VMFaultData> for VMFaultWidth] and [for u64]. *)
Definition data_width (x : VMFaultData) : VMFaultWidth :=
  match x with
  | DByte _ => WByte
  | DHalfWord _ => WHalfWord
  | DWord _ => WWord
  | DDoubleWord _ => WDoubleWord
  end.
Definition data_u64 (x : VMFaultData) : Z :=
  match x with
  | DByte raw | DHalfWord raw | DWord raw | DDoubleWord raw => raw
  end.

(** [VMFaultData::set]: the register value after the data is merged in. *)
Definition data_set (x : VMFaultData) (old_val : Z) : Z :=
  Z.lor (Z.land old_val (word_not 64 (width_mask (data_width x)))) (data_u64 x).

(** ** User context *)

Record UserContext := {
  pc : Z;
  sp : Z;
  spsr : Z;
  gprs : list Z;
}.

Definition gpr {E} (ctx : UserContext) (ix : Z) : outcome E Z :=
  if bool_decide (0 ≤ ix ≤ 30)%Z then index (gprs ctx) (Z.to_nat ix) else Panic.

Definition read_gpr {E} (ctx : UserContext) (ix : Z) : outcome E Z :=
  if Z.eqb ix 31 then Ok 0%Z else gpr ctx ix.

Definition set_gpr {E} (ctx : UserContext) (ix v : Z) : outcome E UserContext :=
  if bool_decide (0 ≤ ix ≤ 30)%Z then
    _ ← index (E := E) (gprs ctx) (Z.to_nat ix);
    Ok {| pc := pc ctx; sp := sp ctx; spsr := spsr ctx; gprs := <[Z.to_nat ix := v]> (gprs ctx) |}
  else Panic.

(** [UserContext::advance], with [u64] wrap-around. *)
Definition advance (ctx : UserContext) : UserContext :=
  {| pc := word_cast 64 (pc ctx + 4); sp := sp ctx; spsr := spsr ctx; gprs := gprs ctx |}.

(** ** The fault *)

Record VMFault := {
  ip : Z;
  addr : Z;
  prefetch_fault : Z;
  fsr : Z;
}.

Definition is_prefetch (f : VMFault) : bool := negb (Z.eqb (prefetch_fault f) 0).

Definition HSR_SYNDROME_VALID : Z := Z.shiftl 1 24.
Definition SRT_MASK : Z := 0x1f.

Definition is_valid (f : VMFault) : bool :=
  negb (Z.eqb (Z.land (fsr f) HSR_SYNDROME_VALID) 0).

Definition valid_hsr {E} (f : VMFault) : outcome E Z :=
  if is_valid f then Ok (fsr f) else Panic.

Definition width {E} (f : VMFault) : outcome E VMFaultWidth :=
  hsr ← valid_hsr f;
  match Z.land (Z.shiftr hsr 22) 0x3 with
  | 0%Z => Ok WByte
  | 1%Z => Ok WHalfWord
  | 2%Z => Ok WWord
  | 3%Z => Ok WDoubleWord
  | _ => Panic
  end.

Definition is_aligned {E} (f : VMFault) : outcome E bool :=
  w ← width f;
  let mask :=
    match w with WByte => 0x0 | WHalfWord => 0x1 | WWord => 0x3 | WDoubleWord => 0x7 end%Z in
  Ok (Z.eqb (Z.land (addr f) mask) 0).

Definition is_write {E} (f : VMFault) : outcome E bool :=
  hsr ← valid_hsr f;
  Ok (negb (Z.eqb (Z.land hsr (Z.shiftl 1 6)) 0)).

Definition is_read {E} (f : VMFault) : outcome E bool :=
  w ← is_write f; Ok (negb w).

Definition gpr_index {E} (f : VMFault) : outcome E Z :=
  hsr ← valid_hsr f; Ok (Z.land (Z.shiftr hsr 16) SRT_MASK).

(** [VMFault::data]: the value the faulting store wanted to write. *)
Definition data {E} (f : VMFault) (ctx : UserContext) : outcome E VMFaultData :=
  b ← is_write f;
  if (b : bool) then
    w ← width f; ix ← gpr_index f; v ← read_gpr ctx ix; Ok (truncate w v)
  else Panic.

(** [VMFault::emulate_read]: merge [val] into the destination register. *)
Definition emulate_read {E} (f : VMFault) (ctx : UserContext) (val : VMFaultData) :
    outcome E UserContext :=
  b ← is_read f;
  if (b : bool) then
    w ← width f;
    if decide (w = data_width val) then
      ix ← gpr_index f; old ← gpr ctx ix; set_gpr ctx ix (data_set val old)
    else Panic
  else Panic.

(** [VCPUFault::is_wf]. *)
Definition is_wf (hsr : Z) : bool := Z.eqb (Z.shiftr hsr 26) 1.

(** ** Lemmas *)

Definition width_bits (w : VMFaultWidth) : Z :=
  match w with WByte => 8 | WHalfWord => 16 | WWord => 32 | WDoubleWord => 64 end.

Lemma width_mask_ones w : width_mask w = Z.ones (width_bits w).
Proof. by destruct w. Qed.

Lemma width_bits_pos w : (0 ≤ width_bits w ≤ 64)%Z.
Proof. destruct w; simpl; lia. Qed.

Lemma data_width_truncate w v : data_width (truncate w v) = w.
Proof. by destruct w. Qed.

Lemma data_u64_truncate w v : data_u64 (truncate w v) = Z.land v (Z.ones (width_bits w)).
Proof.
  destruct w; simpl; unfold word_cast; rewrite <-Z.land_assoc; f_equal; by vm_compute.
Qed.

Lemma testbit_data_set x old i :
  (0 ≤ i)%Z → is_word (width_bits (data_width x)) (data_u64 x) →
  Z.testbit (data_set x old) i =
    (if bool_decide (i < width_bits (data_width x))%Z then Z.testbit (data_u64 x) i
     else bool_decide (i < 64)%Z && Z.testbit old i).
Proof.
  intros Hi Hx. pose proof (width_bits_pos (data_width x)). unfold data_set.
  rewrite Z.lor_spec, Z.land_spec, testbit_word_not by lia.
  rewrite width_mask_ones, Z.testbit_ones by lia.
  destruct (bool_decide_reflect (i < width_bits (data_width x))%Z) as [Hlt|Hlt].
  - replace ((0 <=? i) && (i <? width_bits (data_width x)))%Z with true by lia.
    by rewrite andb_false_r, andb_false_r.
  - rewrite (is_word_testbit (width_bits (data_width x)) (data_u64 x)) by (done || lia).
    replace ((0 <=? i) && (i <? width_bits (data_width x)))%Z with false by lia.
    rewrite andb_true_r, orb_false_r. apply andb_comm.
Qed.

Lemma truncate_is_word w v : is_word (width_bits w) (data_u64 (truncate w v)).
Proof.
  rewrite data_u64_truncate. pose proof (width_bits_pos w).
  apply is_word_land_r, is_word_ones; lia.
Qed.

Lemma truncate_ext w a b :
  Z.land a (width_mask w) = Z.land b (width_mask w) → truncate w a = truncate w b.
Proof. intros Heq. unfold truncate. by rewrite Heq. Qed.

Lemma truncate_data_set w v old :
  truncate w (data_set (truncate w v) old) = truncate w v.
Proof.
  assert (Heq : Z.land (data_set (truncate w v) old) (width_mask w) = Z.land v (width_mask w)).
  { apply Z.bits_inj'. intros i Hi. rewrite !Z.land_spec, testbit_data_set; [|done|].
    - rewrite data_width_truncate, data_u64_truncate, width_mask_ones, Z.land_spec,
        Z.testbit_ones by (pose proof (width_bits_pos w); lia).
      case_bool_decide.
      + by rewrite <-andb_assoc, andb_diag.
      + replace ((0 <=? i) && (i <? width_bits w))%Z with false by lia.
        by rewrite !andb_false_r.
    - rewrite data_width_truncate. apply truncate_is_word. }
  by apply truncate_ext.
Qed.

Lemma gpr_insert {E} ctx (ix v : Z) ctx' :
  set_gpr (E := E) ctx ix v = Ok ctx' →
  gpr (E := E) ctx' ix = Ok v ∧ pc ctx' = pc ctx ∧ sp ctx' = sp ctx ∧ spsr ctx' = spsr ctx ∧
  ∀ j : Z, j ≠ ix → gpr (E := E) ctx' j = gpr ctx j.
Proof.
  unfold set_gpr, gpr, index, unwrap. case_bool_decide as Hix; [|done].
  destruct (gprs ctx !! Z.to_nat ix) as [old|] eqn:Hold; [|done].
  intros [= <-]. simpl. apply lookup_lt_Some in Hold as Hlt. split_and!; try done.
  - by rewrite list_lookup_insert_eq.
  - intros j Hj. case_bool_decide; [|done]. rewrite list_lookup_insert_ne by lia. done.
Qed.

(** Emulating a load.  For a load fault of width [w] whose destination is
    [x0]..[x30], [emulate_read] of the [w]-wide value [v] succeeds; the destination
    register then holds [v] in its low [w] bits (reading it back at width [w] gives
    [v]) and its old bits above; every other register, [pc], [sp] and [spsr] are
    unchanged. *)
Lemma emulate_read_merges {E} (f : VMFault) (ctx : UserContext) (w : VMFaultWidth) (v ix old : Z)
    (Hrd : is_read (E := E) f = Ok true) (Hw : width (E := E) f = Ok w)
    (Hix : gpr_index (E := E) f = Ok ix) (Hold : gpr (E := E) ctx ix = Ok old)
    (Hu64 : is_u64 old) :
  ∃ ctx' new, emulate_read (E := E) f ctx (truncate w v) = Ok ctx' ∧
    gpr (E := E) ctx' ix = Ok new ∧ truncate w new = truncate w v ∧
    (∀ i, (width_bits w ≤ i)%Z → Z.testbit new i = Z.testbit old i) ∧
    (∀ j, j ≠ ix → gpr (E := E) ctx' j = gpr ctx j) ∧
    pc ctx' = pc ctx ∧ sp ctx' = sp ctx ∧ spsr ctx' = spsr ctx.
Proof.
  unfold emulate_read. rewrite Hrd, Hw, Hix. simpl.
  rewrite data_width_truncate, decide_True by done. rewrite Hold. simpl.
  assert (∃ ctx', set_gpr (E := E) ctx ix (data_set (truncate w v) old) = Ok ctx') as [ctx' Hset].
  { unfold set_gpr, gpr in *. case_bool_decide; [|done]. rewrite Hold. by eexists. }
  destruct (gpr_insert _ _ _ _ Hset) as (Hnew & Hpc & Hsp & Hspsr & Hother).
  eexists ctx', _. split_and!; try done.
  - apply truncate_data_set.
  - intros i Hi. pose proof (width_bits_pos w).
    rewrite testbit_data_set, data_width_truncate, bool_decide_false; [|lia|lia|].
    + case_bool_decide; [done|]. by rewrite (is_word_testbit 64 old) by (done || lia).
    + rewrite data_width_truncate. apply truncate_is_word.
Qed.

(** A store of the zero register is decoded (its data is 0), while a load into
    the zero register makes [emulate_read] panic: [read_gpr] has a case for index
    31 that [gpr_mut] lacks. *)
Lemma zero_register_asymmetry {E} (f : VMFault) (ctx : UserContext) (w : VMFaultWidth)
    (Hw : width (E := E) f = Ok w) (Hix : gpr_index (E := E) f = Ok 31%Z) :
  (is_write (E := E) f = Ok true → data (E := E) f ctx = Ok (truncate w 0)) ∧
  (is_read (E := E) f = Ok true → ∀ v, emulate_read (E := E) f ctx (truncate w v) = Panic).
Proof.
  split; intros Hrw.
  - unfold data. by rewrite Hrw, Hw, Hix.
  - intros v. unfold emulate_read. rewrite Hrw, Hw, Hix. simpl.
    by rewrite data_width_truncate, decide_True.
Qed.
