(* ===== verification/Sel4.v ===== *)
(** * Sel4: capability pointers and kernel invocations

    Model of [framework/base/icecap-sel4]: capability pointers and object blueprints
    ([src/cspace.rs]), frames ([src/vspace.rs]), error codes ([src/error.rs]), rights and
    attributes ([src/types.rs]) and the wrappers around the invocations of the kernel
    ([src/invoke.rs]).

    The newtypes over [CPtr] ([Untyped], [CNode], [TCB], ...) are words, since all the code
    does is to wrap and unwrap them.  What the wrappers call ([sys::seL4_*]) is the kernel:
    a state [K] with [syscall], and the constants of its headers. *)

From S2P Require Import Prelude.
From S2P Require Import Fault.

(** ** [error.rs] *)
Inductive Error :=
| InvalidArgument
| InvalidCapability
| IllegalOperation
| RangeError
| AlignmentError
| FailedLookup
| TruncatedMessage
| DeleteFirst
| RevokeFirst
| NotEnoughMemory.

#[global] Instance Error_eq_dec : EqDecision Error.
Proof. solve_decision. Defined.

Definition errors : list Error :=
  [InvalidArgument; InvalidCapability; IllegalOperation; RangeError; AlignmentError;
   FailedLookup; TruncatedMessage; DeleteFirst; RevokeFirst; NotEnoughMemory].

(** ** [cspace.rs] *)
Abbreviation CPtr := Z (only parsing).
Abbreviation Slot := nat (only parsing).

Record CPtrWithDepth := { cptr : CPtr; depth : nat }.
Definition WORD_SIZE : nat := 64.
Definition deep (c : CPtr) : CPtrWithDepth := {| cptr := c; depth := WORD_SIZE |}.

Record RelativeCPtr := { root : CPtr; path : CPtrWithDepth }.

(** [CNode::relative] of a capability and of a pointer with its depth. *)
Definition relative (cnode t : CPtr) : RelativeCPtr := {| root := cnode; path := deep t |}.
Definition relative_path (cnode : CPtr) (t : CPtrWithDepth) : RelativeCPtr :=
  {| root := cnode; path := t |}.
Definition relative_cptr (cnode c : CPtr) (d : nat) : RelativeCPtr :=
  relative_path cnode {| cptr := c; depth := d |}.

Definition local_cptr {E} (c : CPtrWithDepth) : outcome E CPtr :=
  if decide (depth c = 64) then Ok (cptr c) else Panic.
Definition local_cptr_hack (c : CPtrWithDepth) : CPtr :=
  word_shl 64 (cptr c) (64 - Z.of_nat (depth c)).

Inductive ObjectType :=
| TyUntyped | TyEndpoint | TyNotification | TyCNode | TyTCB | TyVCPU
| TySmallPage | TyLargePage | TyHugePage | TyPT | TyPD | TyPUD | TyPGD.

Inductive ObjectBlueprint :=
| BpUntyped (size_bits : nat)
| BpEndpoint
| BpNotification
| BpCNode (size_bits : nat)
| BpTCB
| BpVCPU
| BpSmallPage
| BpLargePage
| BpHugePage
| BpPT
| BpPD
| BpPUD
| BpPGD.

#[global] Instance ObjectBlueprint_eq_dec : EqDecision ObjectBlueprint.
Proof. solve_decision. Defined.

Definition ty (b : ObjectBlueprint) : ObjectType :=
  match b with
  | BpUntyped _ => TyUntyped
  | BpEndpoint => TyEndpoint
  | BpNotification => TyNotification
  | BpCNode _ => TyCNode
  | BpTCB => TyTCB
  | BpVCPU => TyVCPU
  | BpSmallPage => TySmallPage
  | BpLargePage => TyLargePage
  | BpHugePage => TyHugePage
  | BpPT => TyPT
  | BpPD => TyPD
  | BpPUD => TyPUD
  | BpPGD => TyPGD
  end.

Definition raw_size_bits (b : ObjectBlueprint) : option nat :=
  match b with
  | BpUntyped size_bits => Some size_bits
  | BpCNode size_bits => Some size_bits
  | _ => None
  end.

(** ** [vspace.rs] *)
Inductive FrameSize := Small | Large | Huge.

Definition frame_blueprint (s : FrameSize) : ObjectBlueprint :=
  match s with Small => BpSmallPage | Large => BpLargePage | Huge => BpHugePage end.
Definition frame_bits (s : FrameSize) : nat :=
  match s with Small => 12 | Large => 21 | Huge => 30 end.
Definition frame_bytes (s : FrameSize) : nat := 2 ^ frame_bits s.

(** ** [types.rs]: rights and attributes of mappings *)
Record CapRights := { grant_reply : bool; grant : bool; read : bool; write : bool }.
Definition cap_rights (grant_reply grant read write : bool) : CapRights :=
  {| grant_reply := grant_reply; grant := grant; read := read; write := write |}.
Definition read_write : CapRights := cap_rights false false true true.
Definition all_rights : CapRights := cap_rights true true true true.

Abbreviation VMAttributes := Z (only parsing).

(** ** The kernel

    The functions of [sys] that the wrappers call, with their arguments. *)
Inductive Syscall :=
| Untyped_Retype (service type size_bits root node_index node_depth node_offset num_objects : Z)
| TCB_WriteRegisters (service : CPtr) (resume_target : bool) (flags count : Z) (regs : UserContext)
| TCB_Resume (service : CPtr)
| TCB_Suspend (service : CPtr)
| TCB_Configure (service : CPtr) (fault_ep cspace_root cspace_root_data vspace_root
    vspace_root_data buffer buffer_frame : Z)
| TCB_SetSchedParams (service authority mcp priority : Z)
| TCB_SetAffinity (service affinity : Z)
| TCB_SetTLSBase (service tls_base : Z)
| TCB_BindNotification (service notification : Z)
| VCPU_SetTCB (service tcb : Z)
| VCPU_WriteRegs (service field value : Z)
| VCPU_AckVPPI (service irq : Z)
| VCPU_InjectIRQ (service virq priority group index : Z)
| Page_Map (service vspace vaddr : Z) (rights : CapRights) (attrs : VMAttributes)
| Page_Unmap (service : CPtr)
| PageUpperDirectory_Map (service vspace vaddr : Z) (attrs : VMAttributes)
| PageDirectory_Map (service vspace vaddr : Z) (attrs : VMAttributes)
| PageTable_Map (service vspace vaddr : Z) (attrs : VMAttributes)
| IRQHandler_Ack (service : CPtr)
| IRQHandler_SetNotification (service notification : Z)
| IRQHandler_Clear (service : CPtr)
| ASIDPool_Assign (service vspace : Z)
| CNode_Revoke (root index depth : Z)
| CNode_Delete (root index depth : Z)
| CNode_Copy (root dest_index dest_depth src_root src_index src_depth : Z) (rights : CapRights)
| CNode_Mint (root dest_index dest_depth src_root src_index src_depth : Z) (rights : CapRights)
    (badge : Z)
| CNode_Mutate (root dest_index dest_depth src_root src_index src_depth badge : Z)
| CNode_SaveCaller (root index depth : Z).

(** The headers: the sizes of objects, the numbers of object types and errors, and the
    words that the inline functions of [libsel4] build, and the words of a context. *)
Class Sel4Sys := {
  seL4_SlotBits : nat;
  seL4_EndpointBits : nat;
  seL4_NotificationBits : nat;
  seL4_TCBBits : nat;
  seL4_VCPUBits : nat;
  seL4_PageBits : nat;
  seL4_LargePageBits : nat;
  seL4_HugePageBits : nat;
  seL4_PageTableBits : nat;
  seL4_PageDirBits : nat;
  seL4_PUDBits : nat;
  seL4_PGDBits : nat;
  object_type_raw : ObjectType → Z;
  seL4_NoError : Z;
  seL4_NumErrors : Z;
  error_raw : Error → Z;
  seL4_CNode_CapData_new : Z → Z → Z;
  seL4_ARM_PageCacheable : VMAttributes;
  seL4_ARM_Default_VMAttributes : VMAttributes;
  user_context_words : Z;
}.

Class Sel4 (K : Type) := {
  sel4_sys :: Sel4Sys;
  syscall : Syscall → K → Z * K;
}.

Section sys.
Context `{!Sel4Sys}.

Definition physical_size_bits (b : ObjectBlueprint) : nat :=
  match b with
  | BpUntyped size_bits => size_bits
  | BpEndpoint => seL4_EndpointBits
  | BpNotification => seL4_NotificationBits
  | BpCNode size_bits => seL4_SlotBits + size_bits
  | BpTCB => seL4_TCBBits
  | BpVCPU => seL4_VCPUBits
  | BpSmallPage => seL4_PageBits
  | BpLargePage => seL4_LargePageBits
  | BpHugePage => seL4_HugePageBits
  | BpPT => seL4_PageTableBits
  | BpPD => seL4_PageDirBits
  | BpPUD => seL4_PUDBits
  | BpPGD => seL4_PGDBits
  end.

(** [Error::from_ret]: [transmute] of a number that is no error is undefined, here a panic. *)
Definition from_ret (ret : Z) : outcome Error (option Error) :=
  if decide (ret = seL4_NoError) then Ok None
  else if decide (ret < seL4_NumErrors)%Z then
    match filter (λ e, error_raw e = ret) errors with
    | e :: _ => Ok (Some e)
    | [] => Panic
    end
  else Panic.

Definition wrap (ret : Z) : outcome Error unit :=
  o ← from_ret ret; match o with None => Ok tt | Some err => Err err end.
End sys.

(** ** [invoke.rs] *)
Section invoke.
Context {K : Type} `{!Sel4 K}.

Definition invoke (c : Syscall) : M K Error unit := λ k,
  let '(ret, k') := syscall c k in (wrap ret, k').

(** [depth as u8]. *)
Definition depth_u8 (p : CPtrWithDepth) : Z := word_cast 8 (Z.of_nat (depth p)).

Definition retype (self : CPtr) (blueprint : ObjectBlueprint) (dst : RelativeCPtr)
    (dst_offset num_objects : Z) : M K Error unit :=
  invoke (Untyped_Retype self (object_type_raw (ty blueprint))
    (Z.of_nat (default 0 (raw_size_bits blueprint))) (root dst) (cptr (path dst))
    (Z.of_nat (depth (path dst))) dst_offset num_objects).

Definition write_registers (self : CPtr) (resume : bool) (count : Z) (regs : UserContext) :
    M K Error unit :=
  invoke (TCB_WriteRegisters self resume 0 count regs).
Definition write_all_registers (self : CPtr) (resume : bool) (regs : UserContext) : M K Error unit :=
  write_registers self resume user_context_words regs.
Definition tcb_resume (self : CPtr) : M K Error unit := invoke (TCB_Resume self).
Definition tcb_suspend (self : CPtr) : M K Error unit := invoke (TCB_Suspend self).
Definition configure (self fault_ep cspace_root cspace_root_data vspace_root ipc_buffer
    ipc_buffer_frame : Z) : M K Error unit :=
  invoke (TCB_Configure self fault_ep cspace_root cspace_root_data vspace_root 0 ipc_buffer
    ipc_buffer_frame).
Definition set_sched_params (self authority mcp priority : Z) : M K Error unit :=
  invoke (TCB_SetSchedParams self authority mcp priority).
Definition set_affinity (self affinity : Z) : M K Error unit :=
  invoke (TCB_SetAffinity self affinity).
Definition set_tls_base (self tls_base : Z) : M K Error unit :=
  invoke (TCB_SetTLSBase self tls_base).
Definition bind_notification (self notification : CPtr) : M K Error unit :=
  invoke (TCB_BindNotification self notification).

Definition set_tcb (self tcb : CPtr) : M K Error unit := invoke (VCPU_SetTCB self tcb).
Definition write_regs (self field value : Z) : M K Error unit :=
  invoke (VCPU_WriteRegs self field value).
Definition ack_vppi (self irq : Z) : M K Error unit := invoke (VCPU_AckVPPI self irq).
Definition vcpu_inject_irq (self virq priority group index : Z) : M K Error unit :=
  invoke (VCPU_InjectIRQ self virq priority group index).

Definition frame_map (self pgd vaddr : Z) (rights : CapRights) (attrs : VMAttributes) :
    M K Error unit :=
  invoke (Page_Map self pgd vaddr rights attrs).
Definition frame_unmap (self : CPtr) : M K Error unit := invoke (Page_Unmap self).
Definition pud_map (self vspace vaddr : Z) (attrs : VMAttributes) : M K Error unit :=
  invoke (PageUpperDirectory_Map self vspace vaddr attrs).
Definition pd_map (self vspace vaddr : Z) (attrs : VMAttributes) : M K Error unit :=
  invoke (PageDirectory_Map self vspace vaddr attrs).
Definition pt_map (self vspace vaddr : Z) (attrs : VMAttributes) : M K Error unit :=
  invoke (PageTable_Map self vspace vaddr attrs).

Definition irq_ack (self : CPtr) : M K Error unit := invoke (IRQHandler_Ack self).
Definition irq_set_notification (self notification : CPtr) : M K Error unit :=
  invoke (IRQHandler_SetNotification self notification).
Definition irq_clear (self : CPtr) : M K Error unit := invoke (IRQHandler_Clear self).
Definition asid_assign (self pd : CPtr) : M K Error unit := invoke (ASIDPool_Assign self pd).

Definition revoke (self : RelativeCPtr) : M K Error unit :=
  invoke (CNode_Revoke (root self) (cptr (path self)) (depth_u8 (path self))).
Definition cap_delete (self : RelativeCPtr) : M K Error unit :=
  invoke (CNode_Delete (root self) (cptr (path self)) (depth_u8 (path self))).
Definition cap_copy (self src : RelativeCPtr) (rights : CapRights) : M K Error unit :=
  invoke (CNode_Copy (root self) (cptr (path self)) (depth_u8 (path self))
    (root src) (cptr (path src)) (depth_u8 (path src)) rights).
Definition cap_mint (self src : RelativeCPtr) (rights : CapRights) (badge : Z) : M K Error unit :=
  invoke (CNode_Mint (root self) (cptr (path self)) (depth_u8 (path self))
    (root src) (cptr (path src)) (depth_u8 (path src)) rights badge).
Definition cap_mutate (self src : RelativeCPtr) (badge : Z) : M K Error unit :=
  invoke (CNode_Mutate (root self) (cptr (path self)) (depth_u8 (path self))
    (root src) (cptr (path src)) (depth_u8 (path src)) badge).
Definition save_caller (self : RelativeCPtr) : M K Error unit :=
  invoke (CNode_SaveCaller (root self) (cptr (path self)) (depth_u8 (path self))).

(** A kernel that accepts every invocation: the premise of the theorems that say that an
    operation succeeds. *)
Definition accepts : Prop := ∀ c k, ∃ k', syscall c k = (seL4_NoError, k').

Lemma invoke_accepts c k : accepts → ∃ k', invoke c k = (Ok tt, k').
Proof.
  intros Ha. destruct (Ha c k) as [k' Hc]. exists k'. unfold invoke. rewrite Hc.
  unfold wrap, from_ret. by rewrite decide_True.
Qed.
End invoke.

(** ** A kernel that keeps a record

    What a program has done to such a kernel so far: the invocations with their answers, and the
    bytes that were written to mapped frames.  The answers are any function of the past. *)
Module LogKernel.
Inductive KernelOp :=
| Called (c : Syscall) (ret : Z)
| Wrote (vaddr : Z) (offset : nat) (bytes : list Z).
Definition kernel : Type := list KernelOp.

Definition answering (headers : Sel4Sys) (answer : kernel → Syscall → Z) : Sel4 kernel :=
  {| sel4_sys := headers; syscall c k := (answer k c, k ++ [Called c (answer k c)]) |}.

(** *** What the frames hold

    The record says what is in the frames: a frame that was mapped into [space], the address space of the
    program, is what the program writes to at that address, until it is unmapped.  A frame is named by the
    capability that it was mapped with; memory at an address where the record has mapped nothing is
    named by the address. *)
Definition place : Type := CPtr + Z.
Record memory := {
  mapped : gmap Z CPtr;
  bytes_at : place → nat → Z;
}.
Definition memory_new : memory := {| mapped := ∅; bytes_at _ _ := 0%Z |}.

Definition seen_at (m : memory) (vaddr : Z) : place :=
  match mapped m !! vaddr with Some frame => inl frame | None => inr vaddr end.
Definition store_bytes (x : place) (offset : nat) (bs : list Z) (at_ : place → nat → Z) : place → nat → Z :=
  λ x' b, if decide (x' = x ∧ offset ≤ b ∧ b < offset + length bs) then default 0%Z (bs !! (b - offset))
          else at_ x' b.

Section memory.
Context `{!Sel4Sys} (space : CPtr).

Definition record_op (m : memory) (op : KernelOp) : memory :=
  match op with
  | Called (Page_Map frame vspace vaddr _ _) ret =>
    if decide (vspace = space ∧ ret = seL4_NoError)
    then {| mapped := <[vaddr := frame]> (mapped m); bytes_at := bytes_at m |} else m
  | Called (Page_Unmap frame) ret =>
    if decide (ret = seL4_NoError)
    then {| mapped := base.filter (λ p : Z * CPtr, p.2 ≠ frame) (mapped m); bytes_at := bytes_at m |} else m
  | Called _ _ => m
  | Wrote vaddr offset bs =>
    {| mapped := mapped m; bytes_at := store_bytes (seen_at m vaddr) offset bs (bytes_at m) |}
  end.
Definition memory_of (k : kernel) : memory := foldl record_op memory_new k.

(** The bytes that the program sees at an address. *)
Definition seen_bytes (vaddr : Z) (offset n : nat) (k : kernel) : list Z :=
  (λ b, bytes_at (memory_of k) (seen_at (memory_of k) vaddr) (offset + b)) <$> seq 0 n.

Lemma memory_of_app k ops : memory_of (k ++ ops) = foldl record_op (memory_of k) ops.
Proof. apply foldl_app. Qed.

Lemma read_back vaddr offset bs k : seen_bytes vaddr offset (length bs) (k ++ [Wrote vaddr offset bs]) = bs.
Proof.
  unfold seen_bytes. rewrite memory_of_app. cbn [foldl record_op]. set (m := memory_of k).
  change (seen_at {| mapped := mapped m; bytes_at := ?f |} vaddr) with (seen_at m vaddr). cbn [bytes_at].
  apply list_eq. intros i. rewrite list_lookup_fmap. destruct (decide (i < length bs)) as [Hi|Hi].
  - rewrite lookup_seq_lt by done. simpl. unfold store_bytes. rewrite decide_True by (split_and!; [done|lia|lia]).
    replace (offset + i - offset) with i by lia. destruct (lookup_lt_is_Some_2 _ _ Hi) as [x Hx]. by rewrite Hx.
  - rewrite lookup_seq_ge by lia. simpl. by rewrite lookup_ge_None_2 by lia.
Qed.

(** An invocation does not write. *)
Definition is_call (op : KernelOp) : Prop := match op with Called _ _ => True | Wrote _ _ _ => False end.
Lemma calls_write_nothing m ops : Forall is_call ops → bytes_at (foldl record_op m ops) = bytes_at m.
Proof.
  intros Hall. revert m. induction Hall as [|op ops Hop _ IH]; intros m; [done|]. cbn [foldl]. rewrite IH.
  destruct op as [c r|]; [|done]. destruct c; cbn [record_op]; try case_decide; done.
Qed.

(** A frame is mapped, written to and unmapped. *)
Lemma fill_writes m frame vaddr rights attrs offset bs :
  bytes_at (foldl record_op m [Called (Page_Map frame space vaddr rights attrs) seL4_NoError;
      Wrote vaddr offset bs; Called (Page_Unmap frame) seL4_NoError])
  = store_bytes (inl frame) offset bs (bytes_at m).
Proof.
  cbn [foldl record_op]. rewrite !decide_True by done. cbn [bytes_at]. unfold seen_at. cbn [mapped].
  by rewrite lookup_insert_eq.
Qed.
End memory.

(** *** The instance that closed examples use: it accepts everything, with the sizes of seL4 on AArch64. *)

Definition sys : Sel4Sys := {|
  seL4_SlotBits := 5;
  seL4_EndpointBits := 4;
  seL4_NotificationBits := 5;
  seL4_TCBBits := 11;
  seL4_VCPUBits := 12;
  seL4_PageBits := 12;
  seL4_LargePageBits := 21;
  seL4_HugePageBits := 30;
  seL4_PageTableBits := 12;
  seL4_PageDirBits := 12;
  seL4_PUDBits := 12;
  seL4_PGDBits := 12;
  object_type_raw t :=
    match t with
    | TyUntyped => 0 | TyTCB => 1 | TyEndpoint => 2 | TyNotification => 3 | TyCNode => 4
    | TyHugePage => 5 | TyPUD => 6 | TyPGD => 7 | TySmallPage => 8 | TyLargePage => 9
    | TyPT => 10 | TyPD => 11 | TyVCPU => 12
    end%Z;
  seL4_NoError := 0%Z;
  seL4_NumErrors := 11%Z;
  error_raw e :=
    match e with
    | InvalidArgument => 1 | InvalidCapability => 2 | IllegalOperation => 3 | RangeError => 4
    | AlignmentError => 5 | FailedLookup => 6 | TruncatedMessage => 7 | DeleteFirst => 8
    | RevokeFirst => 9 | NotEnoughMemory => 10
    end%Z;
  seL4_CNode_CapData_new guard guard_size := Z.lor (Z.shiftl guard 6) guard_size;
  seL4_ARM_PageCacheable := 1%Z;
  seL4_ARM_Default_VMAttributes := 3%Z;
  user_context_words := 36%Z;
|}.

#[export] Instance sel4 : Sel4 kernel := answering sys (λ _ _, 0%Z).

Lemma accepts_log : accepts (K := kernel).
Proof. intros c k. by eexists. Qed.
End LogKernel.
