(* ===== verification/Sel4Types.v ===== *)
(** * Sel4Types: rights, attributes and message tags

    The rest of [framework/base/icecap-sel4/src/types.rs] and what belongs to it in [cspace.rs]: the
    named sets of rights, the attributes of mappings as sets of bits, message tags, the data of
    capabilities to CNodes, and the registers of virtual CPUs.  The layouts and numbers come from the kernel's bindings,
    which are the class [Sel4Layout].

    The named rights are the sets that their names say ([rights_sets]); attributes behave as sets
    ([has_or], [has_not], [has_and]); tags carry what they were made with ([message_info_fields]). *)

From S2P Require Import Prelude.
From S2P Require Import Sel4.

(** ** [CapRights] *)
Definition can_read : CapRights := cap_rights false false true false.
Definition can_write : CapRights := cap_rights false false false true.
Definition can_grant : CapRights := cap_rights false true false false.
Definition can_grant_reply : CapRights := cap_rights true false false false.
Definition no_write : CapRights := cap_rights true true true false.
Definition no_read : CapRights := cap_rights true true false true.
Definition no_rights : CapRights := cap_rights false false false false.

(** The rights that two sets have together, and inclusion. *)
Definition rights_union (a b : CapRights) : CapRights :=
  cap_rights (grant_reply a || grant_reply b) (grant a || grant b) (read a || read b) (write a || write b).
Definition rights_le (a b : CapRights) : Prop := rights_union a b = b.

Lemma rights_sets :
  rights_union can_read can_write = read_write ∧
  rights_union no_write can_write = all_rights ∧ ¬ rights_le can_write no_write ∧
  rights_union no_read can_read = all_rights ∧ ¬ rights_le can_read no_read ∧
  ∀ r, rights_le no_rights r ∧ rights_le r all_rights ∧ (write r = false ↔ rights_le r no_write).
Proof.
  split_and!; try done. intros [[] [] [] []]; split_and!; by vm_compute.
Qed.

(** ** The kernel's layouts *)
Class Sel4Layout := {
  MessageInfo_raw : Type;
  seL4_MessageInfo_new : Z → Z → Z → Z → MessageInfo_raw;
  seL4_MessageInfo_get_label : MessageInfo_raw → Z;
  seL4_MessageInfo_get_length : MessageInfo_raw → Z;
  seL4_CNode_CapData_new : Z → Z → Z;
  seL4_ARM_PageCacheable : Z;
  seL4_ARM_ParityEnabled : Z;
  seL4_ARM_ExecuteNever : Z;
  seL4_ARM_Default_VMAttributes : Z;
}.

Section layout.
Context `{!Sel4Layout}.

(** ** [MessageInfo] *)
Definition message_info_new (label caps_unwrapped extra_caps length : Z) : MessageInfo_raw :=
  seL4_MessageInfo_new label caps_unwrapped extra_caps length.
Definition message_info_empty : MessageInfo_raw := message_info_new 0 0 0 0.
Definition message_info_label (m : MessageInfo_raw) : Z := seL4_MessageInfo_get_label m.
Definition message_info_length (m : MessageInfo_raw) : Z := seL4_MessageInfo_get_length m.

(** ** [CNodeCapData] *)
Definition cnode_cap_data_new (guard guard_size : Z) : Z := seL4_CNode_CapData_new guard guard_size.
Definition cnode_cap_data_skip (guard_size : Z) : Z := cnode_cap_data_new 0 guard_size.

(** ** [VMAttributes]: a [u32] *)
Definition VMATTRIBUTES_NONE : Z := 0.
Definition PAGE_CACHEABLE : Z := seL4_ARM_PageCacheable.
Definition PARITY_ENABLED : Z := seL4_ARM_ParityEnabled.
Definition EXECUTE_NEVER : Z := seL4_ARM_ExecuteNever.
Definition vmattributes_default : Z := seL4_ARM_Default_VMAttributes.
End layout.

Definition attr_has (self rhs : Z) : bool := negb (Z.land self rhs =? 0)%Z.
Definition attr_not (self : Z) : Z := word_not 32 self.
Definition attr_or (self rhs : Z) : Z := Z.lor self rhs.
Definition attr_and (self rhs : Z) : Z := Z.land self rhs.

Lemma attr_has_false a b : attr_has a b = false ↔ Z.land a b = 0%Z.
Proof. unfold attr_has. rewrite negb_false_iff. apply Z.eqb_eq. Qed.
Lemma has_or a b c : attr_has (attr_or a b) c = attr_has a c || attr_has b c.
Proof.
  unfold attr_or. apply eq_true_iff_eq. rewrite orb_true_iff, <-!not_false_iff_true, !attr_has_false.
  rewrite Z.land_lor_distr_l. split.
  - intros Hn. destruct (decide (Z.land a c = 0%Z)) as [Ha|]; [|by left]. right. intros Hb. apply Hn. by rewrite Ha, Hb.
  - intros Hab Hz. apply Z.lor_eq_0_iff in Hz as [? ?]. by destruct Hab.
Qed.
(** Of a set and its complement, exactly one has an attribute that is a single bit. *)
Lemma has_not a i : (0 ≤ i < 32)%Z → attr_has (attr_not a) (2 ^ i) = negb (attr_has a (2 ^ i)).
Proof.
  intros Hi. assert (∀ x, attr_has x (2 ^ i) = Z.testbit x i) as Hbit.
  { intros x. apply eq_true_iff_eq. rewrite <-!not_false_iff_true. apply not_iff_compat. rewrite attr_has_false. split.
    - intros Hz. apply (f_equal (λ z, Z.testbit z i)) in Hz. rewrite Z.land_spec, Z.pow2_bits_true, andb_true_r, Z.bits_0 in Hz by lia. done.
    - intros Hb. apply Z.bits_inj'. intros j Hj. rewrite Z.land_spec, Z.bits_0. destruct (decide (i = j)) as [->|Hne]; [by rewrite Hb|].
      rewrite Z.pow2_bits_false by lia. apply andb_false_r. }
  rewrite !Hbit. unfold attr_not. rewrite testbit_word_not by lia. rewrite bool_decide_eq_true_2 by lia. done.
Qed.
Lemma has_and a b c : attr_has (attr_and a b) c = true → attr_has a c = true ∧ attr_has b c = true.
Proof.
  unfold attr_and. rewrite <-!not_false_iff_true, !attr_has_false. intros Hn. split; intros Hz; apply Hn.
  - by rewrite <-Z.land_assoc, (Z.land_comm b c), Z.land_assoc, Hz.
  - by rewrite <-Z.land_assoc, Hz, Z.land_0_r.
Qed.

(** Layouts that keep the label and the length of a message. *)
Class Sel4LayoutLaws `{!Sel4Layout} : Prop := {
  message_label l c e n : is_word 52 l → is_word 3 c → is_word 2 e → is_word 7 n → seL4_MessageInfo_get_label (seL4_MessageInfo_new l c e n) = l;
  message_length l c e n : is_word 52 l → is_word 3 c → is_word 2 e → is_word 7 n → seL4_MessageInfo_get_length (seL4_MessageInfo_new l c e n) = n;
}.
Lemma message_info_fields `{!Sel4Layout, !Sel4LayoutLaws} l c e n : is_word 52 l → is_word 3 c → is_word 2 e → is_word 7 n →
  message_info_label (message_info_new l c e n) = l ∧ message_info_length (message_info_new l c e n) = n ∧
  message_info_label message_info_empty = 0%Z ∧ message_info_length message_info_empty = 0%Z.
Proof.
  intros Hl Hc He Hn. unfold message_info_label, message_info_length, message_info_empty, message_info_new.
  rewrite !message_label, !message_length by (done || (split; done)). done.
Qed.

(** A layout that satisfies the laws: the fields of a tag packed as on 64-bit machines. *)
#[local] Instance packed_layout : Sel4Layout := {|
  MessageInfo_raw := Z;
  seL4_MessageInfo_new l c e n := l * 2 ^ 12 + c * 2 ^ 9 + e * 2 ^ 7 + n;
  seL4_MessageInfo_get_label m := m / 2 ^ 12;
  seL4_MessageInfo_get_length m := m mod 2 ^ 7;
  seL4_CNode_CapData_new guard guard_size := guard * 2 ^ 6 + guard_size;
  seL4_ARM_PageCacheable := 1;
  seL4_ARM_ParityEnabled := 2;
  seL4_ARM_ExecuteNever := 4;
  seL4_ARM_Default_VMAttributes := 3;
|}%Z.
#[local] Instance packed_laws : Sel4LayoutLaws.
Proof.
  split; unfold is_word; intros l c e n Hl Hc He Hn; simpl.
  - symmetry. apply (Z.div_unique _ _ _ (c * 2 ^ 9 + e * 2 ^ 7 + n)); lia.
  - symmetry. apply (Z.mod_unique _ _ (l * 2 ^ 5 + c * 2 ^ 2 + e)); lia.
Qed.
Example packed_tag : message_info_label (message_info_new 5 0 0 3) = 5%Z ∧ message_info_length (message_info_new 5 0 0 3) = 3%Z.
Proof. done. Qed.

(** ** Capability pointers ([cspace.rs]) *)
Definition NULL : Z := 0.
Definition relative_self (cnode : Z) : RelativeCPtr := relative cnode cnode.
Section cspace.
Context {K : Type} `{!Sel4 K}.
Definition cnode_save_caller (cnode ep : Z) : M K Error unit := save_caller (relative cnode ep).
End cspace.
