(* ===== verification/CRegion.v ===== *)
(** * CRegion: the slots of a capability node

    Model of [framework/dyndl/realize/src/cregion]: the set of slots ([set.rs]) and a region
    of the capability space with its root, guard and radix ([mod.rs]).  A [BTreeMap] is a
    finite map, iterated in the order of its keys ([btree_iter]).

    [alloc] gives the least unused slot of a region, and [free] gives it back: the invariant
    [cregion_ok] says that the map knows exactly the slots below [2^radix]. *)

From S2P Require Import Prelude.
From S2P Require Import Sel4.

(** ** Iteration over a [BTreeMap] *)
Section btree.
Context {A : Type}.
Implicit Types (m : gmap nat A).

Definition key_le : relation (nat * A) := λ p q, p.1 ≤ q.1.
#[global] Instance key_le_dec : RelDecision key_le.
Proof. intros p q. unfold key_le. apply _. Defined.
#[global] Instance key_le_trans : Transitive key_le.
Proof. intros p q r. unfold key_le. lia. Qed.
#[global] Instance key_le_total : Total key_le.
Proof. intros p q. unfold key_le. lia. Qed.

Definition btree_iter m : list (nat * A) := merge_sort key_le (map_to_list m).

Lemma elem_of_btree_iter m k x : (k, x) ∈ btree_iter m ↔ m !! k = Some x.
Proof. unfold btree_iter. by rewrite merge_sort_Permutation, elem_of_map_to_list. Qed.
Lemma btree_iter_sorted m : StronglySorted key_le (btree_iter m).
Proof. apply (StronglySorted_merge_sort key_le). Qed.
Lemma btree_iter_keys m : NoDup (btree_iter m).*1.
Proof. unfold btree_iter. rewrite merge_sort_Permutation. apply NoDup_fst_map_to_list. Qed.
End btree.

(** ** [set.rs] *)
Record Set_ := { elements : gmap nat bool }.

Definition set_new : Set_ := {| elements := ∅ |}.

(** [deposit] of the keys [key .. key + n]. *)
Fixpoint deposit {E} (key n : nat) (s : Set_) : outcome E Set_ :=
  match n with
  | 0 => Ok s
  | S n' =>
    match elements s !! key with
    | Some false => Panic
    | _ => deposit (S key) n' {| elements := <[key := false]> (elements s) |}
    end
  end.

(** The search of [withdraw]: the first run of [n] unused entries, as its first and last key. *)
Fixpoint find_run (n : nat) (entries : list (nat * bool)) (num_found low : nat)
    (building_range : bool) : option (nat * nat) :=
  match entries with
  | [] => None
  | (key, used) :: rest =>
    if negb used then
      let low := if negb building_range then key else low in
      let num_found := S num_found in
      if decide (num_found = n) then Some (low, key) else find_run n rest num_found low true
    else find_run n rest 0 0 false
  end.

(** Marking the keys [key .. key + n] as used. *)
Fixpoint mark_used {E} (key n : nat) (s : Set_) : outcome E Set_ :=
  match n with
  | 0 => Ok s
  | S n' =>
    match elements s !! key with
    | Some true => Panic
    | _ => mark_used (S key) n' {| elements := <[key := true]> (elements s) |}
    end
  end.

Definition withdraw {E} (n : nat) (s : Set_) : outcome E (option (nat * nat) * Set_) :=
  match find_run n (btree_iter (elements s)) 0 0 false with
  | Some (low, high) =>
    s' ← mark_used low (high + 1 - low) s;
    Ok (Some (low, high + 1), s')
  | None => Ok (None, s)
  end.

(** ** [mod.rs] *)
Record CRegion := {
  cr_root : RelativeCPtr;
  guard : Z;
  guard_size : Z;
  radix : nat;
  set : Set_;
}.

Definition with_set (c : CRegion) (s : Set_) : CRegion :=
  {| cr_root := cr_root c; guard := guard c; guard_size := guard_size c; radix := radix c;
     set := s |}.

Definition cregion_new {E} (r : RelativeCPtr) (g gs : Z) (rx : nat) : outcome E CRegion :=
  s ← deposit 0 (2 ^ rx) set_new;
  Ok {| cr_root := r; guard := g; guard_size := gs; radix := rx; set := s |}.

Definition alloc {E} (c : CRegion) : outcome E (option Slot * CRegion) :=
  '(o, s) ← withdraw 1 (set c);
  match o with
  | Some (start, _) => Ok (Some start, with_set c s)
  | None => Ok (None, with_set c s)
  end.

Definition free {E} (slot : Slot) (c : CRegion) : outcome E CRegion :=
  s ← deposit slot 1 (set c);
  Ok (with_set c s).

Definition cptr_with_depth (c : CRegion) (slot : Slot) : CPtrWithDepth :=
  let p := cptr (path (cr_root c)) in
  let p := Z.lor (word_shl 64 p (guard_size c)) (guard c) in
  let p := Z.lor (word_shl 64 p (Z.of_nat (radix c))) (Z.of_nat slot) in
  {| cptr := p; depth := depth (path (cr_root c)) + Z.to_nat (guard_size c) + radix c |}.

Definition context (c : CRegion) : CPtr := root (cr_root c).

Definition cr_relative_cptr (c : CRegion) (slot : Slot) : RelativeCPtr :=
  {| root := context c; path := cptr_with_depth c slot |}.

(** ** The invariant and what the operations do *)
Definition slot_used (c : CRegion) (slot : Slot) : Prop := elements (set c) !! slot = Some true.
Definition slot_free (c : CRegion) (slot : Slot) : Prop := elements (set c) !! slot = Some false.

Definition cregion_ok (c : CRegion) : Prop :=
  ∀ slot, slot < 2 ^ radix c ↔ is_Some (elements (set c) !! slot).

(** The region with one slot marked. *)
Definition mark (slot : Slot) (b : bool) (c : CRegion) : CRegion :=
  with_set c {| elements := <[slot := b]> (elements (set c)) |}.

(** The number of slots left. *)
Definition slots_left (c : CRegion) : nat :=
  length (filter (λ p : nat * bool, p.2 = false) (map_to_list (elements (set c)))).

Section set_lemmas.
Context {E : Type}.
Implicit Types (l : list (nat * bool)).

Lemma find_run_one l low :
  match find_run 1 l 0 low false with
  | Some (lo, hi) => lo = hi ∧ (lo, false) ∈ l ∧ (StronglySorted key_le l → ∀ k, (k, false) ∈ l → lo ≤ k)
  | None => ∀ k, (k, false) ∉ l
  end.
Proof.
  revert low. induction l as [|[k u] l IH]; intros low; simpl; [intros k; apply not_elem_of_nil|].
  destruct u; simpl.
  - specialize (IH 0). destruct (find_run 1 l 0 0 false) as [[lo hi]|].
    + destruct IH as (-> & Hin & Hmin). split_and!; [done|by constructor|].
      intros Hs k'. rewrite elem_of_cons. inversion_clear Hs. naive_solver.
    + intros k'. rewrite elem_of_cons. naive_solver.
  - split_and!; [done|by constructor|].
    intros Hs k'. rewrite elem_of_cons. inversion_clear Hs as [|??? Hall]. intros [[= ->]|Hin]; [done|].
    rewrite Forall_forall in Hall. apply (Hall _ Hin).
Qed.

(** [alloc] gives the least unused slot, or nothing when all slots are used. *)
Lemma alloc_cases (c : CRegion) :
  (∃ slot, alloc (E := E) c = Ok (Some slot, mark slot true c) ∧ slot_free c slot ∧
     ∀ slot', slot_free c slot' → slot ≤ slot') ∨
  (alloc (E := E) c = Ok (None, c) ∧ ∀ slot, ¬ slot_free c slot).
Proof.
  unfold alloc, withdraw. pose proof (find_run_one (btree_iter (elements (set c))) 0) as Hrun.
  destruct (find_run _ _ _ _ _) as [[lo hi]|]; [left|right].
  - destruct Hrun as (<- & Hin & Hmin). rewrite elem_of_btree_iter in Hin. exists lo.
    replace (lo + 1 - lo) with 1 by lia. simpl. rewrite Hin. split_and!; [done|done|].
    intros slot' Hs. apply Hmin; [apply btree_iter_sorted|by rewrite elem_of_btree_iter].
  - split; [by destruct c|]. intros slot Hs. apply (Hrun slot). by rewrite elem_of_btree_iter.
Qed.

Lemma free_used (c : CRegion) slot : slot_used c slot → free (E := E) slot c = Ok (mark slot false c).
Proof. unfold slot_used, free. simpl. by intros ->. Qed.

Lemma mark_mark slot b b' c : mark slot b (mark slot b' c) = mark slot b c.
Proof. unfold mark, with_set. simpl. by rewrite insert_insert_eq. Qed.

Lemma mark_comm s t b b' c : s ≠ t → mark s b (mark t b' c) = mark t b' (mark s b c).
Proof. intros. unfold mark, with_set. simpl. by rewrite insert_insert_ne by done. Qed.

Lemma mark_id slot b c : elements (set c) !! slot = Some b → mark slot b c = c.
Proof.
  intros Hb. unfold mark, with_set. rewrite insert_id by done.
  by destruct c as [? ? ? ? []].
Qed.

Lemma mark_ok slot b c : cregion_ok c → is_Some (elements (set c) !! slot) → cregion_ok (mark slot b c).
Proof.
  intros Hc Hs k. rewrite (Hc k). unfold mark. simpl.
  destruct (decide (k = slot)) as [->|]; [by rewrite lookup_insert_eq|by rewrite lookup_insert_ne].
Qed.

Lemma mark_lookup slot b c k :
  elements (set (mark slot b c)) !! k = if decide (k = slot) then Some b else elements (set c) !! k.
Proof.
  unfold mark. simpl. case_decide as Hk; [subst; by rewrite lookup_insert_eq|by rewrite lookup_insert_ne].
Qed.

Lemma slots_left_mark c slot :
  slot_free c slot → slots_left c = S (slots_left (mark slot true c)).
Proof.
  unfold slot_free, slots_left, mark. simpl. intros Hs.
  rewrite <-(insert_id (elements (set c)) slot false) at 1 by done.
  rewrite <-(insert_delete_eq (elements (set c)) slot false).
  rewrite <-(insert_delete_eq (elements (set c)) slot true).
  by rewrite !map_to_list_insert, !filter_cons by apply lookup_delete_eq.
Qed.

Lemma slots_left_pos c : 0 < slots_left c → ∃ slot, slot_free c slot.
Proof.
  unfold slots_left, slot_free. intros Hl.
  destruct (filter _ _) as [|[k b] l] eqn:Hf; [simpl in Hl; lia|].
  assert ((k, b) ∈ (k, b) :: l) as Hin by constructor. rewrite <-Hf in Hin.
  apply list_elem_of_filter in Hin as [Hb Hin]. simpl in Hb. subst.
  exists k. by apply elem_of_map_to_list.
Qed.

Lemma alloc_left c : 0 < slots_left c → ∃ slot,
  alloc (E := E) c = Ok (Some slot, mark slot true c) ∧ slot_free c slot ∧
  slots_left c = S (slots_left (mark slot true c)).
Proof.
  intros Hl. destruct (slots_left_pos c Hl) as [s Hs].
  destruct (alloc_cases c) as [(slot & Ha & Hf & _)|[_ Hno]]; [|by destruct (Hno s)].
  exists slot. by rewrite <-slots_left_mark.
Qed.

Lemma deposit_fresh key n s :
  (∀ k, key ≤ k < key + n → elements s !! k = None) →
  ∃ s', deposit (E := E) key n s = Ok s' ∧
    ∀ k, elements s' !! k = if decide (key ≤ k < key + n) then Some false else elements s !! k.
Proof.
  revert key s. induction n as [|n IH]; intros key s Hn; simpl.
  - eexists. split; [done|]. intros k. by rewrite decide_False by lia.
  - rewrite (Hn key) by lia.
    destruct (IH (S key) {| elements := <[key:=false]> (elements s) |}) as (s' & Hd & Hs').
    { intros k Hk. simpl. rewrite lookup_insert_ne by lia. apply Hn. lia. }
    exists s'. split; [done|]. intros k. rewrite Hs'. simpl.
    destruct (decide (k = key)) as [->|].
    + rewrite decide_False, decide_True by lia. by rewrite lookup_insert_eq.
    + rewrite lookup_insert_ne by done. repeat case_decide; done || lia.
Qed.

Lemma cregion_new_ok r g gs rx :
  ∃ c, cregion_new (E := E) r g gs rx = Ok c ∧ cr_root c = r ∧ guard_size c = gs ∧ radix c = rx ∧
    cregion_ok c ∧ ∀ k, k < 2 ^ rx → slot_free c k.
Proof.
  unfold cregion_new. destruct (deposit_fresh 0 (2 ^ rx) set_new) as (s & -> & Hs); [done|].
  eexists. split_and!; [done|done|done|done| |].
  - intros k. simpl. rewrite Hs. case_decide; simpl; [split; [by eexists|lia]|].
    split; [lia|]. by intros [? [=]].
  - intros k Hk. unfold slot_free. simpl. rewrite Hs. by rewrite decide_True by lia.
Qed.
End set_lemmas.

(** Where a region lies; only its slots change. *)
Definition shape (c : CRegion) : RelativeCPtr * Z * Z * nat := (cr_root c, guard c, guard_size c, radix c).
Lemma shape_mark slot b c : shape (mark slot b c) = shape c.
Proof. done. Qed.
Lemma alloc_shape {E} c o c' : alloc (E := E) c = Ok (o, c') → shape c' = shape c.
Proof.
  unfold alloc. destruct (withdraw 1 (set c)) as [[r s]| |]; simpl; [|done..].
  by destruct r as [[]|]; intros [= _ <-].
Qed.
Lemma free_shape {E} slot c c' : free (E := E) slot c = Ok c' → shape c' = shape c.
Proof. unfold free. destruct (deposit slot 1 (set c)); simpl; [|done..]. by intros [= <-]. Qed.
Lemma cr_relative_cptr_shape c c' slot : shape c' = shape c → cr_relative_cptr c' slot = cr_relative_cptr c slot.
Proof.
  unfold shape, cr_relative_cptr, context, cptr_with_depth. intros Hs. injection Hs as -> -> -> ->. done.
Qed.
Lemma cregion_new_fields {E} r g gs rx c :
  cregion_new (E := E) r g gs rx = Ok c → shape c = (r, g, gs, rx).
Proof. unfold cregion_new. destruct (deposit _ _ _); simpl; [|done..]. by intros [= <-]. Qed.

#[global] Opaque mark.
