(* ===== verification/Allocator.v ===== *)
(** * Allocator: kernel objects from untyped memory

    Model of [framework/dyndl/realize/src/allocator]: the capability derivation tree and the
    index of its free leaves ([node.rs]), and the allocator with its builder ([mod.rs]).

    The allocator is a buddy allocator.  A node of the tree stands for an aligned block of
    physical memory: the root for all of it, the children of a node for its halves.  Nodes
    above the blocks that the system was given are inaccessible; a given block is a built-in
    node, and splitting it makes managed nodes, whose capabilities lie in slots of the
    allocator's own region.  A node that was retyped into an object is consumed.

    An operation is a program over the allocator and the kernel.  A [&mut Node] that
    [get_node_mut] returns is read with [get_node_mut] and written with [put_node]. *)

From S2P Require Import Prelude.
From S2P Require Import Sel4.
From S2P Require Import CRegion.

Record UntypedId := { paddr : Z; size_bits : nat }.

#[global] Instance UntypedId_eq_dec : EqDecision UntypedId.
Proof. solve_decision. Defined.

Record ElaboratedUntyped := { eu_cptr : CPtr; untyped_id : UntypedId }.

(** ** [node.rs]: nodes *)
Inductive AccessibleNodeType :=
| BuiltIn (local_cptr : CPtr)
| Managed (slot : Slot).

Inductive NodeType :=
| Inaccessible
| Accessible (consumed : bool) (accessible_node_type : AccessibleNodeType).

Inductive Node := mkNode (node_type : NodeType) (left right : option Node).

Definition node_type (n : Node) : NodeType := let 'mkNode t _ _ := n in t.
Definition node_left (n : Node) : option Node := let 'mkNode _ l _ := n in l.
Definition node_right (n : Node) : option Node := let 'mkNode _ _ r := n in r.

Definition node_new : Node := mkNode Inaccessible None None.

Definition is_accessible (n : Node) : bool :=
  match node_type n with Accessible _ _ => true | _ => false end.

Definition get_accessible_node_type {E} (n : Node) : outcome E AccessibleNodeType :=
  match node_type n with Inaccessible => Panic | Accessible _ a => Ok a end.

Definition is_managed (n : Node) : bool :=
  match node_type n with Accessible _ (Managed _) => true | _ => false end.

Definition get_slot {E} (n : Node) : outcome E Slot :=
  if is_managed n then
    a ← get_accessible_node_type n;
    match a with Managed slot => Ok slot | BuiltIn _ => Panic end
  else Panic.

Definition is_consumed (n : Node) : bool :=
  match node_type n with Accessible consumed _ => consumed | _ => false end.

Definition set_consumed {E} (b : bool) (n : Node) : outcome E Node :=
  match n with
  | mkNode (Accessible _ a) l r => Ok (mkNode (Accessible b a) l r)
  | _ => Panic
  end.

Definition is_none {A} (o : option A) : bool := match o with None => true | Some _ => false end.

Definition is_deletable (n : Node) : bool :=
  is_accessible n && negb (is_consumed n) && is_none (node_left n) && is_none (node_right n).

Definition node_local_cptr {E} (c : CRegion) (n : Node) : outcome E CPtr :=
  a ← get_accessible_node_type n;
  match a with
  | BuiltIn local_cptr => Ok local_cptr
  | Managed slot => Ok (local_cptr_hack (cptr_with_depth c slot))
  end.

Definition node_relative_cptr {E} (c : CRegion) (n : Node) : outcome E RelativeCPtr :=
  a ← get_accessible_node_type n;
  match a with
  | BuiltIn local_cptr => Ok (relative (context c) local_cptr)
  | Managed slot => Ok (cr_relative_cptr c slot)
  end.

Definition MAX_ADDR : Z := 0xFFFFFFFFFFFFFFFF.

(** The first address of the right half. *)
Definition half_addr (low high : Z) : Z := word_cast 64 (low + Z.shiftr (high - low) 1 + 1).

(** The descent of [get_node] and [get_node_mut]. *)
Fixpoint descend {E} (node : Node) (d : nat) (low high : Z) (id : UntypedId) : outcome E Node :=
  if decide (size_bits id < d) then
    let half := half_addr low high in
    let 'mkNode _ l r := node in
    if decide (paddr id < half)%Z then
      match l with Some l' => descend l' (d - 1) low (half - 1) id | None => Panic end
    else
      match r with Some r' => descend r' (d - 1) half high id | None => Panic end
  else if decide (d = size_bits id) then Ok node else Panic.

Definition get_node {E} (root_node : Node) (id : UntypedId) : outcome E Node :=
  if decide (0 ≤ paddr id ≤ MAX_ADDR)%Z then descend root_node 64 0 MAX_ADDR id else Panic.

Definition get_node_mut {E} (root_node : Node) (id : UntypedId) : outcome E Node :=
  get_node root_node id.

(** The tree after a write of [new] through the reference that the same descent returns. *)
Fixpoint put_node (node : Node) (d : nat) (low high : Z) (id : UntypedId) (new : Node) : Node :=
  if decide (size_bits id < d) then
    let half := half_addr low high in
    let 'mkNode t l r := node in
    if decide (paddr id < half)%Z then
      mkNode t (match l with Some l' => Some (put_node l' (d - 1) low (half - 1) id new) | None => None end) r
    else
      mkNode t l (match r with Some r' => Some (put_node r' (d - 1) half high id new) | None => None end)
  else new.

(** ** [node.rs]: the free leaves, by size *)
Record LeafNodes := { leaf_nodes : gmap nat (list UntypedId) }.

Definition leaf_new : LeafNodes := {| leaf_nodes := ∅ |}.

Definition add_leaf (id : UntypedId) (l : LeafNodes) : LeafNodes :=
  {| leaf_nodes :=
       match leaf_nodes l !! size_bits id with
       | Some untyped_ids => <[size_bits id := untyped_ids ++ [id]]> (leaf_nodes l)
       | None => <[size_bits id := [id]]> (leaf_nodes l)
       end |}.

(** [Vec::pop]. *)
Definition pop {A} (v : list A) : option (A * list A) :=
  match last v with Some x => Some (x, take (length v - 1) v) | None => None end.

(** The last block of a size, with the entry removed when it was the only one. *)
Definition pop_leaf {E} (size : nat) (l : LeafNodes) : outcome E (UntypedId * LeafNodes) :=
  untyped_ids ← unwrap (leaf_nodes l !! size);
  '(id, rest) ← unwrap (pop untyped_ids);
  Ok (id, {| leaf_nodes := if decide (length rest = 0) then delete size (leaf_nodes l)
                           else <[size := rest]> (leaf_nodes l) |}).

Definition next_smallest_size (size : nat) (l : LeafNodes) : nat :=
  match filter (λ k, size < k) (btree_iter (leaf_nodes l)).*1 with
  | k :: _ => k
  | [] => 0
  end.

Definition get_leaf {E} (size : nat) (l : LeafNodes) : outcome E (UntypedId * LeafNodes) :=
  match leaf_nodes l !! size with
  | Some _ => pop_leaf size l
  | None =>
    let next := next_smallest_size size l in
    if decide (next ≠ 0) then pop_leaf next l else Panic
  end.

(** The first element at the address, removed. *)
Fixpoint remove_first (addr : Z) (v : list UntypedId) : list UntypedId :=
  match v with
  | [] => []
  | id :: rest => if decide (paddr id = addr) then rest else id :: remove_first addr rest
  end.

Definition remove_leaf {E} (id : UntypedId) (l : LeafNodes) : outcome E LeafNodes :=
  match leaf_nodes l !! size_bits id with
  | Some untyped_ids =>
    let rest := remove_first (paddr id) untyped_ids in
    Ok {| leaf_nodes := if decide (length rest = 0) then delete (size_bits id) (leaf_nodes l)
                        else <[size_bits id := rest]> (leaf_nodes l) |}
  | None => Panic
  end.

Definition consumable_space (l : LeafNodes) : Z :=
  map_fold (λ size untyped_ids acc,
    word_cast 64 (acc + word_shl 64 1 (Z.of_nat size) * Z.of_nat (length untyped_ids)))
    0%Z (leaf_nodes l).

(** ** [mod.rs]: the builder *)
Record AllocatorBuilder := {
  b_cregion : CRegion;
  b_fragmentation_threshold_size_bits : nat;
  b_untyped : list ElaboratedUntyped;
}.

Record Allocator := {
  cregion : CRegion;
  fragmentation_threshold_size_bits : nat;
  cap_derivation_tree : Node;
  leaves : LeafNodes;
}.

Definition builder_new (c : CRegion) : AllocatorBuilder :=
  {| b_cregion := c; b_fragmentation_threshold_size_bits := 0; b_untyped := [] |}.

Definition add_untyped (u : ElaboratedUntyped) (b : AllocatorBuilder) : AllocatorBuilder :=
  {| b_cregion := b_cregion b;
     b_fragmentation_threshold_size_bits := b_fragmentation_threshold_size_bits b;
     b_untyped := b_untyped b ++ [u] |}.

Definition set_fragmentation_threshold_size_bits (n : nat) (b : AllocatorBuilder) :
    AllocatorBuilder :=
  {| b_cregion := b_cregion b; b_fragmentation_threshold_size_bits := n;
     b_untyped := b_untyped b |}.

(** The loop of [build] for one block: the nodes on the way are made when they are missing,
    and the node at the end becomes a built-in.  It recurses on the depth, which the loop
    counts down. *)
Fixpoint place {E} (d : nat) (node : Node) (low high : Z) (id : UntypedId) (c : CPtr) :
    outcome E Node :=
  if decide (size_bits id < d) then
    match d with
    | 0 => Panic
    | S d' =>
      let half := half_addr low high in
      let 'mkNode t l r := node in
      if decide (paddr id < half)%Z then
        l' ← place d' (default node_new l) low (half - 1) id c;
        Ok (mkNode t (Some l') r)
      else
        r' ← place d' (default node_new r) half high id c;
        Ok (mkNode t l (Some r'))
    end
  else if decide (d = size_bits id) then Ok (mkNode (Accessible false (BuiltIn c)) None None)
  else Panic.

Definition build_step {E} (a : Allocator) (u : ElaboratedUntyped) : outcome E Allocator :=
  let id := untyped_id u in
  if decide (paddr id = 0%Z ∧ size_bits id = 64) then Panic
  else if decide (0 ≤ paddr id ≤ MAX_ADDR)%Z then
    tree ← place 64 (cap_derivation_tree a) 0 MAX_ADDR id (eu_cptr u);
    Ok {| cregion := cregion a;
          fragmentation_threshold_size_bits := fragmentation_threshold_size_bits a;
          cap_derivation_tree := tree; leaves := add_leaf id (leaves a) |}
  else Panic.

Fixpoint build_steps {E} (us : list ElaboratedUntyped) (a : Allocator) : outcome E Allocator :=
  match us with
  | [] => Ok a
  | u :: us' => a' ← build_step a u; build_steps us' a'
  end.

Definition build {E} (b : AllocatorBuilder) : outcome E Allocator :=
  build_steps (b_untyped b)
    {| cregion := b_cregion b;
       fragmentation_threshold_size_bits := b_fragmentation_threshold_size_bits b;
       cap_derivation_tree := node_new; leaves := leaf_new |}.

(** ** [mod.rs]: the allocator *)

(** The sum in [peek_space], from the index [size]. *)
Fixpoint required_space (size : nat) (count_by_size_bits : list nat) (acc : Z) : Z :=
  match count_by_size_bits with
  | [] => acc
  | count :: rest =>
    required_space (S size) rest
      (word_cast 64 (acc + word_shl 64 1 (Z.of_nat size) * Z.of_nat count))
  end.

Definition peek_space (count_by_size_bits : list nat) (a : Allocator) : bool :=
  bool_decide (required_space 0 count_by_size_bits 0 ≤ consumable_space (leaves a))%Z.

Definition with_cregion (a : Allocator) (c : CRegion) : Allocator :=
  {| cregion := c; fragmentation_threshold_size_bits := fragmentation_threshold_size_bits a;
     cap_derivation_tree := cap_derivation_tree a; leaves := leaves a |}.
Definition with_tree (a : Allocator) (n : Node) : Allocator :=
  {| cregion := cregion a;
     fragmentation_threshold_size_bits := fragmentation_threshold_size_bits a;
     cap_derivation_tree := n; leaves := leaves a |}.
Definition with_leaves (a : Allocator) (l : LeafNodes) : Allocator :=
  {| cregion := cregion a;
     fragmentation_threshold_size_bits := fragmentation_threshold_size_bits a;
     cap_derivation_tree := cap_derivation_tree a; leaves := l |}.

Section allocator.
Context {K : Type} `{!Sel4 K}.
Abbreviation A := (M (Allocator * K) Error).

Definition kernel_op {X} (m : M K Error X) : A X := λ s,
  let '(r, k) := m s.2 in (r, (s.1, k)).
Definition get {X} (f : Allocator → X) : A X := gets (λ s, f s.1).
Definition put (f : Allocator → Allocator) : A unit := modify (λ s, (f s.1, s.2)).

(** [self.cregion.alloc().unwrap()] and [self.cregion.free(slot)]. *)
Definition alloc_slot : A Slot :=
  c ← get cregion;
  '(o, c') ← lift (alloc c);
  put (λ a, with_cregion a c') ;;
  lift (unwrap o).
Definition free_slot (slot : Slot) : A unit :=
  c ← get cregion;
  c' ← lift (free slot c);
  put (λ a, with_cregion a c').

Definition take_leaf (id : UntypedId) : A unit :=
  l ← get leaves;
  l' ← lift (remove_leaf id l);
  put (λ a, with_leaves a l').
Definition give_leaf (id : UntypedId) : A unit :=
  put (λ a, with_leaves a (add_leaf id (leaves a))).

Definition write_node (id : UntypedId) (new : Node) : A unit :=
  put (λ a, with_tree a (put_node (cap_derivation_tree a) 64 0 MAX_ADDR id new)).

Definition split_untyped (id : UntypedId) : A (UntypedId * UntypedId) :=
  let new_size_bits := size_bits id - 1 in
  let blueprint := BpUntyped new_size_bits in
  left_slot ← alloc_slot;
  right_slot ← alloc_slot;
  node ← reads (λ s, get_node_mut (cap_derivation_tree s.1) id);
  assert_ (negb (is_consumed node)) ;;
  c ← get cregion;
  local_cptr ← lift (node_local_cptr c node);
  unwrap_result (kernel_op (retype local_cptr blueprint (cr_root c) (Z.of_nat left_slot) 1)) ;;
  unwrap_result (kernel_op (retype local_cptr blueprint (cr_root c) (Z.of_nat right_slot) 1)) ;;
  write_node id (mkNode (node_type node)
    (Some (mkNode (Accessible false (Managed left_slot)) None None))
    (Some (mkNode (Accessible false (Managed right_slot)) None None))) ;;
  let left_child := {| paddr := paddr id; size_bits := new_size_bits |} in
  give_leaf left_child ;;
  let right_child := {| paddr := word_cast 64 (paddr id + word_shl 64 1 (Z.of_nat new_size_bits));
                        size_bits := new_size_bits |} in
  give_leaf right_child ;;
  mret (left_child, right_child).

(** The loop of [create_object]: down the right side of the tree, [n] times. *)
Fixpoint split_down (n : nat) (id : UntypedId) : A UntypedId :=
  match n with
  | 0 => mret id
  | S n' =>
    children ← split_untyped id;
    take_leaf (snd children) ;;
    split_down n' (snd children)
  end.

Definition create_object (destination_cnode : RelativeCPtr) (slot : Slot)
    (blueprint : ObjectBlueprint) : A UntypedId :=
  let phys_size_bits := physical_size_bits blueprint in
  l ← get leaves;
  idl ← lift (get_leaf phys_size_bits l);
  put (λ a, with_leaves a (snd idl)) ;;
  id ← split_down (size_bits (fst idl) - phys_size_bits) (fst idl);
  node ← reads (λ s, get_node_mut (cap_derivation_tree s.1) id);
  node' ← lift (set_consumed true node);
  write_node id node' ;;
  c ← get cregion;
  local_cptr ← lift (node_local_cptr c node');
  unwrap_result (kernel_op (retype local_cptr blueprint destination_cnode (Z.of_nat slot) 1)) ;;
  mret id.

Definition create_cnode (rx : nat) : A (CRegion * UntypedId * Slot) :=
  realm_slot ← alloc_slot;
  c ← get cregion;
  let realm_cnode := cr_relative_cptr c realm_slot in
  let guard := 0%Z in
  let guard_size := word_cast 64 (64 - Z.of_nat (depth (path realm_cnode)) - Z.of_nat rx) in
  realm_cregion ← lift (cregion_new realm_cnode guard guard_size rx);
  let blueprint := BpCNode rx in
  let destination_cnode := cr_root c in
  temp_slot ← alloc_slot;
  c ← get cregion;
  let temp_rel_cptr := cr_relative_cptr c temp_slot in
  untyped_id ← create_object destination_cnode temp_slot blueprint;
  kernel_op (cap_mutate (cr_root realm_cregion) temp_rel_cptr
    (seL4_CNode_CapData_new guard guard_size)) ;;
  kernel_op (cap_delete temp_rel_cptr) ;;
  free_slot temp_slot ;;
  mret (realm_cregion, untyped_id, realm_slot).

(** [create_objects], which also gives back the region of the realm. *)
Fixpoint create_objects (realm_cregion : CRegion) (blueprints : list ObjectBlueprint) :
    A (CRegion * list Slot * list UntypedId) :=
  match blueprints with
  | [] => mret (realm_cregion, [], [])
  | blueprint :: rest =>
    oc ← lift (alloc realm_cregion);
    slot ← lift (unwrap (fst oc));
    id ← create_object (cr_root (snd oc)) slot blueprint;
    '(c', slots, ids) ← create_objects (snd oc) rest;
    mret (c', slot :: slots, id :: ids)
  end.

(** A child that is cleaned up: its slot is freed and its block leaves the index. *)
Definition clean_child (child : option Node) (id : UntypedId) : A unit :=
  match child with
  | None => mret tt
  | Some n =>
    slot ← lift (get_slot n);
    free_slot slot ;;
    take_leaf id
  end.

(** The part of [revoke_and_free_helper] after the recursive call: a node whose children are
    free takes their place. *)
Definition merge_children (node : Node) (low high : Z) (depth_from_root : nat) : A Node :=
  let 'mkNode t l r := node in
  if is_accessible node &&
     (match l with None => true | Some n => is_deletable n end) &&
     (match r with None => true | Some n => is_deletable n end)
  then
    clean_child l {| paddr := low; size_bits := 64 - (depth_from_root + 1) |} ;;
    clean_child r {| paddr := half_addr low high; size_bits := 64 - (depth_from_root + 1) |} ;;
    let node' := mkNode t None None in
    c ← get cregion;
    p ← lift (node_relative_cptr c node');
    kernel_op (revoke p) ;;
    give_leaf {| paddr := low; size_bits := 64 - depth_from_root |} ;;
    mret node'
  else mret node.

(** The node is a [&mut] of a copy of the tree, so the new node is the result. *)
Fixpoint revoke_and_free_helper (node : Node) (low high : Z) (depth_from_root : nat)
    (id : UntypedId) : A Node :=
  if decide (depth_from_root + size_bits id = 64) then
    assert_ (is_accessible node) ;;
    assert_ (is_consumed node) ;;
    assert_ (is_none (node_left node) && is_none (node_right node)) ;;
    assert_ (bool_decide (low = paddr id)) ;;
    c ← get cregion;
    p ← lift (node_relative_cptr c node);
    kernel_op (revoke p) ;;
    node' ← lift (set_consumed false node);
    give_leaf id ;;
    mret node'
  else
    assert_ (bool_decide (low ≤ paddr id ≤ high)%Z) ;;
    let half := half_addr low high in
    let 'mkNode t l r := node in
    node' ←
      (if decide (paddr id < half)%Z then
         match l with
         | Some l' =>
           l'' ← revoke_and_free_helper l' low (half - 1) (depth_from_root + 1) id;
           mret (mkNode t (Some l'') r)
         | None => panic
         end
       else
         match r with
         | Some r' =>
           r'' ← revoke_and_free_helper r' half high (depth_from_root + 1) id;
           mret (mkNode t l (Some r''))
         | None => panic
         end);
    merge_children node' low high depth_from_root.

Definition revoke_and_free (id : UntypedId) : A unit :=
  node ← get cap_derivation_tree;
  node' ← revoke_and_free_helper node 0 MAX_ADDR 0 id;
  put (λ a, with_tree a node').
End allocator.
