(* ===== verification/AllocatorTree.v ===== *)
(** * AllocatorTree: the derivation tree and the index of free leaves

    Facts about the data of [Allocator]: the index of leaves as a bag of blocks, the shape of
    a tree ([node_ok]), the blocks at its leaves ([tree_leaves]) with their geometry, and paths
    into it, as contexts with a hole ([plug]). *)

From S2P Require Import Prelude.
From S2P Require Import Sel4.
From S2P Require Import CRegion.
From S2P Require Import Allocator.

(** ** The index of free leaves *)
Definition leaf_list (l : LeafNodes) : list UntypedId := mjoin (map_to_list (leaf_nodes l)).*2.

Definition leaves_ok (l : LeafNodes) : Prop :=
  ∀ k ids, leaf_nodes l !! k = Some ids → ids ≠ [] ∧ Forall (λ id, size_bits id = k) ids.

Section leaf_nodes.
Context {E : Type}.
Implicit Types (l : LeafNodes) (m : gmap nat (list UntypedId)) (id : UntypedId).

Lemma leaf_list_insert m k ids :
  m !! k = None → leaf_list {| leaf_nodes := <[k := ids]> m |} ≡ₚ ids ++ leaf_list {| leaf_nodes := m |}.
Proof. intros Hk. unfold leaf_list. simpl. by rewrite (map_to_list_insert m k ids Hk). Qed.

Lemma leaf_list_split m k ids :
  m !! k = Some ids →
  leaf_list {| leaf_nodes := m |} ≡ₚ ids ++ leaf_list {| leaf_nodes := delete k m |}.
Proof.
  intros Hk. rewrite <-(insert_id m k ids) at 1 by done.
  rewrite <-(insert_delete_eq m k ids). by rewrite leaf_list_insert by apply lookup_delete_eq.
Qed.

Lemma leaf_list_update m k ids :
  leaf_list {| leaf_nodes := <[k := ids]> m |} ≡ₚ ids ++ leaf_list {| leaf_nodes := delete k m |}.
Proof. rewrite <-(insert_delete_eq m k ids). by rewrite leaf_list_insert by apply lookup_delete_eq. Qed.

Lemma elem_of_leaf_list l id :
  leaves_ok l → id ∈ leaf_list l ↔ ∃ ids, leaf_nodes l !! size_bits id = Some ids ∧ id ∈ ids.
Proof.
  intros Hl. unfold leaf_list. rewrite list_elem_of_join. split.
  - intros (ids & Hid & Hin). apply list_elem_of_fmap in Hin as ([k ids'] & -> & Hin).
    rewrite elem_of_map_to_list in Hin. simpl in *. exists ids'.
    destruct (Hl _ _ Hin) as [_ Hall]. rewrite Forall_forall in Hall.
    by rewrite (Hall id) by done.
  - intros (ids & Hk & Hid). exists ids. split; [done|]. apply list_elem_of_fmap.
    exists (size_bits id, ids). by rewrite elem_of_map_to_list.
Qed.

Lemma add_leaf_list id l : leaf_list (add_leaf id l) ≡ₚ id :: leaf_list l.
Proof.
  unfold add_leaf. destruct l as [m]. simpl. destruct (m !! size_bits id) as [ids|] eqn:Hk.
  - rewrite leaf_list_update, (leaf_list_split m _ ids) by done.
    rewrite <-app_assoc. simpl. by rewrite <-Permutation_middle.
  - by rewrite leaf_list_insert.
Qed.

Lemma add_leaf_ok id l : leaves_ok l → leaves_ok (add_leaf id l).
Proof.
  intros Hl k ids. unfold add_leaf. simpl.
  destruct (leaf_nodes l !! size_bits id) as [ids'|] eqn:Hk;
    rewrite lookup_insert_Some; intros [[<- <-]|[_ Hi]]; try by apply Hl.
  - split; [by destruct ids'|]. apply Forall_app. split; [by eapply Hl|by constructor].
  - split; [done|by constructor].
Qed.

(** Replacing the entry of a size by a shorter one. *)
Lemma shrink_entry m k id ids rest :
  m !! k = Some ids → ids ≡ₚ id :: rest →
  leaf_list {| leaf_nodes := m |} ≡ₚ
    id :: leaf_list {| leaf_nodes := if decide (length rest = 0) then delete k m else <[k := rest]> m |}.
Proof.
  intros Hk Hp. rewrite (leaf_list_split m k ids) by done. rewrite Hp. simpl. f_equiv.
  case_decide as Hr; [by apply length_zero_iff_nil in Hr; subst|]. by rewrite leaf_list_update.
Qed.

Lemma shrink_entry_ok m k id ids rest :
  leaves_ok {| leaf_nodes := m |} → m !! k = Some ids → ids ≡ₚ id :: rest →
  leaves_ok {| leaf_nodes := if decide (length rest = 0) then delete k m else <[k := rest]> m |}.
Proof.
  intros Hl Hk Hp k' ids'. simpl. case_decide as Hr.
  - rewrite lookup_delete_Some. intros [_ ?]. by apply Hl.
  - rewrite lookup_insert_Some. intros [[<- <-]|[_ ?]]; [|by apply Hl].
    split; [by intros ->|]. destruct (Hl _ _ Hk) as [_ Hall]. rewrite Hp in Hall. by inversion Hall.
Qed.

Lemma pop_spec {X} (v : list X) : v ≠ [] → ∃ x rest, pop v = Some (x, rest) ∧ v = rest ++ [x].
Proof.
  intros Hv. destruct (exists_last Hv) as (rest & x & ->). exists x, rest. split; [|done].
  unfold pop. rewrite last_snoc, length_app. simpl.
  rewrite take_app_le by lia. by rewrite take_ge by lia.
Qed.

Lemma pop_leaf_spec k l ids :
  leaves_ok l → leaf_nodes l !! k = Some ids → ∃ id l',
  pop_leaf (E := E) k l = Ok (id, l') ∧ size_bits id = k ∧ leaf_list l ≡ₚ id :: leaf_list l' ∧ leaves_ok l'.
Proof.
  intros Hl Hk. destruct (Hl _ _ Hk) as [Hne Hall].
  destruct (pop_spec ids Hne) as (id & rest & Hp & Happ).
  assert (ids ≡ₚ id :: rest) as Hperm by (rewrite Happ; by rewrite Permutation_app_comm).
  unfold pop_leaf. rewrite Hk. simpl. rewrite Hp. simpl. do 2 eexists. split_and!; [done| | |].
  - rewrite Hperm in Hall. by inversion Hall.
  - destruct l as [m]. by eapply shrink_entry.
  - destruct l as [m]. by eapply shrink_entry_ok.
Qed.

Lemma next_smallest_size_spec size l :
  (next_smallest_size size l = 0 ∧ ∀ k, size < k → leaf_nodes l !! k = None) ∨
  (size < next_smallest_size size l ∧ is_Some (leaf_nodes l !! next_smallest_size size l) ∧
   ∀ k, size < k → is_Some (leaf_nodes l !! k) → next_smallest_size size l ≤ k).
Proof.
  unfold next_smallest_size.
  assert (∀ k, k ∈ (btree_iter (leaf_nodes l)).*1 ↔ is_Some (leaf_nodes l !! k)) as Hkeys.
  { intros k. rewrite list_elem_of_fmap. split.
    - intros ([k' x] & -> & Hin). apply elem_of_btree_iter in Hin. by eexists.
    - intros [x Hx]. exists (k, x). by rewrite elem_of_btree_iter. }
  assert (StronglySorted le (btree_iter (leaf_nodes l)).*1) as Hs.
  { clear Hkeys. assert (Hsort := btree_iter_sorted (leaf_nodes l)). revert Hsort.
    induction (btree_iter (leaf_nodes l)) as [|p ps IH]; intros Hsort; [constructor|].
    inversion_clear Hsort. simpl. constructor; [by apply IH|].
    apply Forall_fmap. eapply Forall_impl; [done|]. done. }
  assert (StronglySorted le (filter (λ k, size < k) (btree_iter (leaf_nodes l)).*1)) as Hf.
  { clear Hkeys. induction Hs as [|k ks Hks IH Hall]; [constructor|].
    rewrite filter_cons. case_decide; [|done]. constructor; [done|].
    apply Forall_forall. intros k' [_ Hin]%list_elem_of_filter.
    rewrite Forall_forall in Hall. by apply Hall. }
  destruct (filter _ _) as [|k ks] eqn:Hfilter.
  - left. split; [done|]. intros k Hk. destruct (leaf_nodes l !! k) eqn:Hl; [|done].
    assert (k ∈ filter (λ k, size < k) (btree_iter (leaf_nodes l)).*1) as Hin.
    { apply list_elem_of_filter. split; [done|]. rewrite Hkeys. by eexists. }
    rewrite Hfilter in Hin. by apply elem_of_nil in Hin.
  - right. assert (k ∈ k :: ks) as Hin by constructor. rewrite <-Hfilter in Hin.
    apply list_elem_of_filter in Hin as [Hlt Hin]. rewrite Hkeys in Hin. split_and!; [done|done|].
    intros k' Hk' Hin'. rewrite <-Hkeys in Hin'.
    assert (k' ∈ k :: ks) as Hmem by (rewrite <-Hfilter; by apply list_elem_of_filter).
    inversion_clear Hf as [|?? _ Hall]. apply elem_of_cons in Hmem as [->|Hmem]; [done|].
    rewrite Forall_forall in Hall. by apply Hall.
Qed.

(** [get_leaf] takes out a block that fits best: of the size asked for if there is one, or
    else of the least larger size. *)
Lemma get_leaf_cases size l :
  leaves_ok l →
  (∃ id l', get_leaf (E := E) size l = Ok (id, l') ∧ size ≤ size_bits id ∧
     leaf_list l ≡ₚ id :: leaf_list l' ∧ leaves_ok l' ∧
     ∀ id', id' ∈ leaf_list l → size ≤ size_bits id' → size_bits id ≤ size_bits id') ∨
  (get_leaf (E := E) size l = Panic ∧ ∀ id, id ∈ leaf_list l → size_bits id < size).
Proof.
  intros Hl. unfold get_leaf. destruct (leaf_nodes l !! size) as [ids|] eqn:Hk.
  - left. destruct (pop_leaf_spec size l ids) as (id & l' & Hp & Hsz & Hperm & Hok); [done|done|].
    exists id, l'. split_and!; [done|lia|done|done|]. intros. lia.
  - destruct (next_smallest_size_spec size l) as [[Hz Hnone]|(Hlt & [ids Hids] & Hmin)].
    + right. rewrite Hz. split; [done|]. intros id Hid.
      apply elem_of_leaf_list in Hid as (ids & Hids & _); [|done].
      destruct (decide (size_bits id < size)); [done|].
      destruct (decide (size_bits id = size)) as [Heq|]; [by rewrite Heq, Hk in Hids|].
      rewrite Hnone in Hids by lia. done.
    + left. rewrite decide_True by lia.
      destruct (pop_leaf_spec _ l ids Hl Hids) as (id & l' & Hp & Hsz & Hperm & Hok).
      exists id, l'. split_and!; [done|lia|done|done|]. intros id' Hid' Hge. rewrite Hsz.
      apply elem_of_leaf_list in Hid' as (ids' & Hids' & _); [|done].
      apply Hmin; [|by eexists]. destruct (decide (size_bits id' = size)) as [Heq|]; [|lia].
      by rewrite Heq, Hk in Hids'.
Qed.

Lemma remove_first_perm id ids :
  id ∈ ids → Forall (λ id', size_bits id' = size_bits id) ids →
  ids ≡ₚ id :: remove_first (paddr id) ids.
Proof.
  induction ids as [|id' ids IH]; intros Hin Hall; [by apply elem_of_nil in Hin|]. simpl.
  inversion_clear Hall as [|?? Hsz Hall']. case_decide as Ha.
  - replace id' with id; [done|]. destruct id, id'. simpl in *. by subst.
  - apply elem_of_cons in Hin as [->|Hin]; [done|].
    rewrite (IH Hin Hall') at 1. apply Permutation_swap.
Qed.

Lemma remove_leaf_spec id l :
  leaves_ok l → id ∈ leaf_list l → ∃ l',
  remove_leaf (E := E) id l = Ok l' ∧ leaf_list l ≡ₚ id :: leaf_list l' ∧ leaves_ok l'.
Proof.
  intros Hl Hin. apply elem_of_leaf_list in Hin as (ids & Hk & Hin); [|done].
  unfold remove_leaf. rewrite Hk. eexists. split; [done|].
  destruct (Hl _ _ Hk) as [_ Hall]. pose proof (remove_first_perm id ids Hin Hall).
  destruct l as [m]. split; [by eapply shrink_entry|by eapply shrink_entry_ok].
Qed.
End leaf_nodes.

(** ** The shape of trees *)

(** The bytes of a block. *)
Definition bytes (d : nat) : Z := 2 ^ Z.of_nat d.

Lemma bytes_pos d : (0 < bytes d)%Z.
Proof. unfold bytes. lia. Qed.
Lemma bytes_S d : bytes (S d) = (2 * bytes d)%Z.
Proof. unfold bytes. rewrite Nat2Z.inj_succ. by rewrite Z.pow_succ_r by lia. Qed.
Lemma bytes_le d d' : d ≤ d' → (bytes d ≤ bytes d')%Z.
Proof. intros. unfold bytes. apply Z.pow_le_mono_r; lia. Qed.
Lemma bytes_64 : bytes 64 = (2 ^ 64)%Z.
Proof. done. Qed.

(** The halves of a block are as [half_addr] computes them. *)
Lemma half_addr_block d low :
  (0 ≤ low)%Z → (low + bytes (S d) ≤ 2 ^ 64)%Z →
  half_addr low (low + bytes (S d) - 1) = (low + bytes d)%Z.
Proof.
  intros Hl Hh. pose proof (bytes_pos d). rewrite bytes_S in *. unfold half_addr, word_cast.
  replace (low + 2 * bytes d - 1 - low)%Z with (2 * (bytes d - 1) + 1)%Z by lia.
  rewrite Z.shiftr_div_pow2 by lia. change (2 ^ 1)%Z with 2%Z.
  replace ((2 * (bytes d - 1) + 1) / 2)%Z with (bytes d - 1)%Z
    by (apply (Z.div_unique_pos _ _ _ 1); lia).
  rewrite Z.land_ones, Z.mod_small by lia. lia.
Qed.

Definition opt_list {A B} (f : A → list B) (o : option A) : list B :=
  match o with Some x => f x | None => [] end.

(** The blocks at the accessible leaves of a tree for [2^d] bytes from [low], and whether
    they are consumed. *)
Fixpoint tree_leaves (n : Node) (d : nat) (low : Z) : list (UntypedId * bool) :=
  let 'mkNode t l r := n in
  match t, l, r with
  | Accessible c _, None, None => [({| paddr := low; size_bits := d |}, c)]
  | _, _, _ =>
    (match l with Some l' => tree_leaves l' (d - 1) low | None => [] end) ++
    (match r with Some r' => tree_leaves r' (d - 1) (low + bytes (d - 1))%Z | None => [] end)
  end.

(** The slots of the managed nodes. *)
Definition type_slots (t : NodeType) : list Slot :=
  match t with Accessible _ (Managed s) => [s] | _ => [] end.
Fixpoint tree_slots (n : Node) : list Slot :=
  let 'mkNode t l r := n in
  type_slots t ++
  (match l with Some l' => tree_slots l' | None => [] end) ++
  (match r with Some r' => tree_slots r' | None => [] end).

Definition kind (managed : bool) (a : AccessibleNodeType) : Prop :=
  match a with Managed _ => managed = true | BuiltIn _ => managed = false end.

(** A well-formed tree of height at most [d]: built-in nodes are found below inaccessible
    ones and managed nodes below built-in ones, a consumed node has no children, and a node
    that is split has two. *)
Inductive node_ok : bool → nat → Node → Prop :=
| ok_inaccessible d l r :
    (∀ n, l = Some n → node_ok false d n) → (∀ n, r = Some n → node_ok false d n) →
    node_ok false (S d) (mkNode Inaccessible l r)
| ok_leaf m d c a : kind m a → node_ok m d (mkNode (Accessible c a) None None)
| ok_split m d a l r :
    kind m a → node_ok true d l → node_ok true d r →
    node_ok m (S d) (mkNode (Accessible false a) (Some l) (Some r)).

(** Two children that [merge_children] would merge. *)
Definition opt_deletable (o : option Node) : bool :=
  match o with None => true | Some n => is_deletable n end.
Definition mergeable (l r : option Node) : bool := opt_deletable l && opt_deletable r.

(** No accessible node has two free halves. *)
Fixpoint coalesced (n : Node) : Prop :=
  let 'mkNode t l r := n in
  (is_accessible n = true → mergeable l r = true → l = None ∧ r = None) ∧
  (match l with Some l' => coalesced l' | None => True end) ∧
  (match r with Some r' => coalesced r' | None => True end).

(** ** Geometry: leaves are blocks inside the tree's block, and disjoint *)
Definition disjoint_ids (i j : UntypedId) : Prop :=
  (paddr i + bytes (size_bits i) ≤ paddr j ∨ paddr j + bytes (size_bits j) ≤ paddr i)%Z.

Definition in_block (d : nat) (low : Z) (i : UntypedId) : Prop :=
  size_bits i ≤ d ∧ (low ≤ paddr i)%Z ∧ (paddr i + bytes (size_bits i) ≤ low + bytes d)%Z.

Lemma in_block_left d low i : in_block d low i → in_block (S d) low i.
Proof. intros (? & ? & ?). pose proof (bytes_pos d). unfold in_block. rewrite bytes_S. split_and!; lia. Qed.
Lemma in_block_right d low i : in_block d (low + bytes d)%Z i → in_block (S d) low i.
Proof. intros (? & ? & ?). pose proof (bytes_pos d). unfold in_block. rewrite bytes_S. split_and!; lia. Qed.

Lemma tree_leaves_split d low t l r :
  (t = Inaccessible ∨ is_Some l ∨ is_Some r) →
  tree_leaves (mkNode t l r) (S d) low =
  opt_list (λ n, tree_leaves n d low) l ++ opt_list (λ n, tree_leaves n d (low + bytes d)%Z) r.
Proof.
  intros H. simpl. rewrite !Nat.sub_0_r.
  destruct t, l, r; try done; destruct H as [|[[? ?]|[? ?]]]; done.
Qed.

Lemma tree_leaves_in_block m d low n p :
  node_ok m d n → p ∈ tree_leaves n d low → in_block d low p.1.
Proof.
  intros Hn. revert low p. induction Hn as [d l r Hl IHl Hr IHr|m d c a Ha|m d a l r Ha Hl IHl Hr IHr];
    intros low p; simpl; rewrite ?Nat.sub_0_r, ?elem_of_app, ?list_elem_of_singleton.
  - intros [Hp|Hp].
    + destruct l as [l|]; [|by apply elem_of_nil in Hp]. apply in_block_left. by eapply IHl.
    + destruct r as [r|]; [|by apply elem_of_nil in Hp]. apply in_block_right. by eapply IHr.
  - intros ->. unfold in_block. simpl. split_and!; lia.
  - intros [Hp|Hp]; [apply in_block_left; by eapply IHl|apply in_block_right; by eapply IHr].
Qed.

Definition pairwise_disjoint (ids : list UntypedId) : Prop :=
  ∀ i j p q, ids !! i = Some p → ids !! j = Some q → i ≠ j → disjoint_ids p q.

Lemma pairwise_disjoint_app l1 l2 :
  pairwise_disjoint l1 → pairwise_disjoint l2 →
  (∀ p q, p ∈ l1 → q ∈ l2 → disjoint_ids p q) → pairwise_disjoint (l1 ++ l2).
Proof.
  intros H1 H2 H12 i j p q Hi Hj Hij.
  apply lookup_app_Some in Hi as [Hi|[? Hi]]; apply lookup_app_Some in Hj as [Hj|[? Hj]].
  - by eapply (H1 i j).
  - eapply H12; by eapply list_elem_of_lookup_2.
  - assert (disjoint_ids q p) as [?|?] by (eapply H12; by eapply list_elem_of_lookup_2); [by right|by left].
  - eapply (H2 (i - length l1) (j - length l1)); [done|done|lia].
Qed.

Lemma pairwise_disjoint_l l1 l2 : pairwise_disjoint (l1 ++ l2) → pairwise_disjoint l1.
Proof. intros H i j p q Hi Hj. apply H; by apply lookup_app_l_Some. Qed.

Lemma disjoint_ids_irrefl id : ¬ disjoint_ids id id.
Proof. unfold disjoint_ids. pose proof (bytes_pos (size_bits id)). lia. Qed.

#[global] Instance disjoint_ids_sym : Symmetric disjoint_ids.
Proof. intros i j [?|?]; [by right|by left]. Qed.

Lemma pairwise_disjoint_cons id ids :
  pairwise_disjoint (id :: ids) ↔ (∀ j, j ∈ ids → disjoint_ids id j) ∧ pairwise_disjoint ids.
Proof.
  split.
  - intros H. split.
    + intros j [k Hk]%list_elem_of_lookup. by apply (H 0 (S k)).
    + intros i j p q Hi Hj Hij. apply (H (S i) (S j)); [done|done|lia].
  - intros [Hid H] [|i] [|j] p q Hi Hj Hij; simpl in *; simplify_eq.
    + apply Hid. by eapply list_elem_of_lookup_2.
    + symmetry. apply Hid. by eapply list_elem_of_lookup_2.
    + apply (H i j); [done|done|lia].
Qed.

#[global] Instance pairwise_disjoint_perm : Proper ((≡ₚ) ==> iff) pairwise_disjoint.
Proof.
  assert (∀ l1 l2, l1 ≡ₚ l2 → pairwise_disjoint l1 → pairwise_disjoint l2) as H.
  { intros l1 l2 Hp. induction Hp; [done| | |auto].
    - rewrite !pairwise_disjoint_cons. intros [Hx ?]. split; [|auto]. intros j. rewrite <-Hp. apply Hx.
    - rewrite !pairwise_disjoint_cons. intros (Hy & Hx & ?). split_and!; [| |done].
      + intros j [->|Hj]%elem_of_cons; [symmetry; apply Hy; constructor|by apply Hx].
      + intros j Hj. apply Hy. by constructor. }
  intros l1 l2 Hp. split; apply H; [done|by symmetry].
Qed.

Lemma tree_leaves_disjoint m d low n :
  node_ok m d n → pairwise_disjoint (tree_leaves n d low).*1.
Proof.
  intros Hn. revert low. induction Hn as [d l r Hl IHl Hr IHr|m d c a Ha|m d a l r Ha Hl IHl Hr IHr]; intros low.
  - rewrite tree_leaves_split by by left. rewrite fmap_app. apply pairwise_disjoint_app.
    + destruct l; [by apply IHl|]. by intros [].
    + destruct r; [by apply IHr|]. by intros [].
    + intros p q. rewrite !list_elem_of_fmap. intros (p' & -> & Hp) (q' & -> & Hq).
      destruct l as [l|], r as [r|]; try by apply elem_of_nil in Hp. 2:by apply elem_of_nil in Hq.
      apply (tree_leaves_in_block false) in Hp as (? & ? & ?); [|by apply Hl].
      apply (tree_leaves_in_block false) in Hq as (? & ? & ?); [|by apply Hr]. left. lia.
  - simpl. rewrite pairwise_disjoint_cons. split; [intros j Hj; by apply elem_of_nil in Hj|by intros []].
  - rewrite tree_leaves_split by (right; left; by eexists). simpl. rewrite fmap_app.
    apply pairwise_disjoint_app; [apply IHl|apply IHr|].
    intros p q. rewrite !list_elem_of_fmap. intros (p' & -> & Hp) (q' & -> & Hq).
    apply (tree_leaves_in_block true) in Hp as (? & ? & ?); [|done].
    apply (tree_leaves_in_block true) in Hq as (? & ? & ?); [|done]. left. lia.
Qed.

(** ** Paths: a tree as a context around a node *)
Inductive frame :=
| InLeft (t : NodeType) (r : option Node)
| InRight (t : NodeType) (l : option Node).

Definition fill (f : frame) (x : Node) : Node :=
  match f with InLeft t r => mkNode t (Some x) r | InRight t l => mkNode t l (Some x) end.

(** Innermost frame first. *)
Fixpoint plug (c : list frame) (x : Node) : Node :=
  match c with [] => x | f :: c' => plug c' (fill f x) end.

Lemma plug_app c1 c2 x : plug (c1 ++ c2) x = plug c2 (plug c1 x).
Proof. revert x. by induction c1 as [|f c1 IH]; intros x; [|apply IH]. Qed.

(** The height and the first address of the hole, in a tree of all memory. *)
Definition child_hole (f : frame) (h : nat * Z) : nat * Z :=
  match f with
  | InLeft _ _ => (h.1 - 1, h.2)
  | InRight _ _ => (h.1 - 1, (h.2 + bytes (h.1 - 1))%Z)
  end.
Fixpoint hole (c : list frame) : nat * Z :=
  match c with [] => (64, 0%Z) | f :: c' => child_hole f (hole c') end.

Definition hole_id (c : list frame) : UntypedId := {| paddr := (hole c).2; size_bits := (hole c).1 |}.

Lemma hole_bounds c :
  length c ≤ 64 → (hole c).1 = 64 - length c ∧ (0 ≤ (hole c).2)%Z ∧ ((hole c).2 + bytes (hole c).1 ≤ 2 ^ 64)%Z.
Proof.
  induction c as [|f c IH]; intros Hc; [done|]. simpl in Hc. destruct IH as (Hd & Hl & Hb); [lia|].
  assert ((hole c).1 = S (hole (f :: c)).1) as HS by (destruct f; simpl; lia).
  pose proof (bytes_pos (hole (f :: c)).1). rewrite HS, bytes_S in Hb.
  replace ((hole c).1 - 1) with ((hole (f :: c)).1) in * by lia.
  destruct f; simpl in *; split_and!; lia.
Qed.

(** Inside the hole of a frame, the descent takes the side of the frame. *)
Lemma child_hole_in f c id :
  length (f :: c) ≤ 64 → in_block (hole (f :: c)).1 (hole (f :: c)).2 id →
  in_block (hole c).1 (hole c).2 id ∧ size_bits id < (hole c).1 ∧
  half_addr (hole c).2 ((hole c).2 + bytes (hole c).1 - 1) = ((hole c).2 + bytes ((hole c).1 - 1))%Z ∧
  match f with
  | InLeft _ _ => (paddr id < (hole c).2 + bytes ((hole c).1 - 1))%Z
  | InRight _ _ => ((hole c).2 + bytes ((hole c).1 - 1) ≤ paddr id)%Z
  end.
Proof.
  intros Hlen (Hs & Hl & Hh). simpl in Hlen. cbn [hole] in Hs, Hl, Hh.
  destruct (hole_bounds c) as (Hd & Hlow & Hb); [lia|].
  pose proof (bytes_pos (size_bits id)).
  destruct (hole c) as [d low]. simpl in *. destruct d as [|d]; [lia|].
  replace (S d - 1) with d by lia.
  split_and!.
  - destruct f; simpl in *; replace (d - 0) with d in * by lia;
      [apply in_block_left|apply in_block_right]; done.
  - destruct f; simpl in *; lia.
  - by apply half_addr_block.
  - destruct f; simpl in *; replace (d - 0) with d in * by lia; lia.
Qed.

Lemma child_hole_high f c :
  length (f :: c) ≤ 64 →
  match f with
  | InLeft _ _ => ((hole c).2 + bytes ((hole c).1 - 1) - 1)%Z = ((hole (f :: c)).2 + bytes (hole (f :: c)).1 - 1)%Z
  | InRight _ _ => ((hole c).2 + bytes (hole c).1 - 1)%Z = ((hole (f :: c)).2 + bytes (hole (f :: c)).1 - 1)%Z
  end.
Proof.
  intros Hlen. simpl in Hlen. destruct (hole_bounds c) as (Hd & _ & _); [lia|].
  cbn [hole]. destruct (hole c) as [[|d] low]; simpl in *; [lia|]. rewrite ?Nat.sub_0_r.
  destruct f; simpl; rewrite ?Nat.sub_0_r; [done|]. rewrite bytes_S. lia.
Qed.

Section descend.
Context {E : Type}.
Implicit Types (c : list frame).

Lemma descend_plug c x id :
  length c ≤ 64 → in_block (hole c).1 (hole c).2 id →
  descend (E := E) (plug c x) 64 0 MAX_ADDR id =
  descend x (hole c).1 (hole c).2 ((hole c).2 + bytes (hole c).1 - 1) id.
Proof.
  revert x. induction c as [|f c IH]; intros x Hlen Hid; [done|].
  destruct (child_hole_in f c id) as (Hin & Hlt & Hhalf & Hside); [done|done|].
  pose proof (child_hole_high f c Hlen) as Hhigh. simpl in Hlen.
  simpl plug. rewrite IH by (done || lia).
  destruct f as [t r|t l]; simpl fill; cbn [descend]; rewrite decide_True by done; rewrite Hhalf.
  - rewrite decide_True by done. by rewrite Hhigh.
  - rewrite decide_False by lia. by rewrite Hhigh.
Qed.

Lemma put_node_plug c x id y :
  length c ≤ 64 → in_block (hole c).1 (hole c).2 id →
  put_node (plug c x) 64 0 MAX_ADDR id y =
  plug c (put_node x (hole c).1 (hole c).2 ((hole c).2 + bytes (hole c).1 - 1) id y).
Proof.
  revert x. induction c as [|f c IH]; intros x Hlen Hid; [done|].
  destruct (child_hole_in f c id) as (Hin & Hlt & Hhalf & Hside); [done|done|].
  pose proof (child_hole_high f c Hlen) as Hhigh. simpl in Hlen.
  simpl plug. rewrite IH by (done || lia). f_equal.
  destruct f as [t r|t l]; simpl fill; cbn [put_node]; rewrite decide_True by done; rewrite Hhalf.
  - rewrite decide_True by done. by rewrite Hhigh.
  - rewrite decide_False by lia. by rewrite Hhigh.
Qed.

Lemma hole_id_in c : in_block (hole c).1 (hole c).2 (hole_id c).
Proof. unfold in_block, hole_id. simpl. split_and!; lia. Qed.

Lemma get_node_hole c x : length c ≤ 64 → get_node_mut (E := E) (plug c x) (hole_id c) = Ok x.
Proof.
  intros Hc. unfold get_node_mut, get_node.
  destruct (hole_bounds c Hc) as (Hd & Hl & Hb). pose proof (bytes_pos (hole c).1).
  rewrite decide_True by (unfold MAX_ADDR; simpl; lia).
  rewrite descend_plug by (done || apply hole_id_in).
  destruct x as [t l r]. cbn [descend]. rewrite decide_False by (simpl; lia).
  by rewrite decide_True by done.
Qed.

Lemma put_node_hole c x y : length c ≤ 64 → put_node (plug c x) 64 0 MAX_ADDR (hole_id c) y = plug c y.
Proof.
  intros Hc. rewrite put_node_plug by (done || apply hole_id_in).
  destruct x as [t l r]. cbn [put_node]. by rewrite decide_False by (simpl; lia).
Qed.
End descend.

(** The leaves and slots around a hole. *)
Definition frame_leaves (f : frame) (h : nat * Z) : list (UntypedId * bool) :=
  match f with
  | InLeft _ r => opt_list (λ n, tree_leaves n (h.1 - 1) (h.2 + bytes (h.1 - 1))%Z) r
  | InRight _ l => opt_list (λ n, tree_leaves n (h.1 - 1) h.2) l
  end.
Definition frame_slots (f : frame) : list Slot :=
  match f with
  | InLeft t r => type_slots t ++ opt_list tree_slots r
  | InRight t l => type_slots t ++ opt_list tree_slots l
  end.
Fixpoint ctx_leaves (c : list frame) : list (UntypedId * bool) :=
  match c with [] => [] | f :: c' => frame_leaves f (hole c') ++ ctx_leaves c' end.
Fixpoint ctx_slots (c : list frame) : list Slot :=
  match c with [] => [] | f :: c' => frame_slots f ++ ctx_slots c' end.

Lemma plug_leaves c x :
  tree_leaves (plug c x) 64 0 ≡ₚ tree_leaves x (hole c).1 (hole c).2 ++ ctx_leaves c.
Proof.
  revert x. induction c as [|f c IH]; intros x; simpl; [by rewrite app_nil_r|].
  rewrite IH, app_assoc. f_equiv.
  destruct f as [t r|t l]; simpl; destruct t; try done; destruct l; try done;
    by rewrite Permutation_app_comm.
Qed.

Lemma plug_slots c x : tree_slots (plug c x) ≡ₚ tree_slots x ++ ctx_slots c.
Proof.
  revert x. induction c as [|f c IH]; intros x; simpl; [by rewrite app_nil_r|].
  rewrite IH. destruct f as [t r|t l]; simpl; rewrite !app_assoc; f_equiv.
  - by rewrite (Permutation_app_comm (type_slots t)), <-!app_assoc.
  - rewrite Permutation_app_comm, !app_assoc. done.
Qed.

(** A context of a well-formed tree accepts every node of the kind of its hole. *)
Lemma plug_ok c x :
  length c ≤ 64 → node_ok false 64 (plug c x) →
  ∃ m, node_ok m (hole c).1 x ∧ ∀ y, node_ok m (hole c).1 y → node_ok false 64 (plug c y).
Proof.
  revert x. induction c as [|f c IH]; intros x Hlen Hok; [by exists false|].
  simpl in Hlen. destruct (IH (fill f x)) as (m & Hm & Hy); [lia|done|].
  destruct (hole_bounds c) as (Hd & _ & _); [lia|].
  simpl. destruct (hole c) as [[|d] low]; simpl in *; [lia|]. clear IH Hd. rewrite ?Nat.sub_0_r.
  destruct f as [t r|t l]; inversion Hm; subst; simplify_eq/=; rewrite ?Nat.sub_0_r.
  - exists false. split; [eauto|]. intros y Hoky. apply Hy. constructor; [by intros ? [= <-]|done].
  - exists true. split; [done|]. intros y Hoky. apply Hy. by constructor.
  - exists false. split; [eauto|]. intros y Hoky. apply Hy. constructor; [done|by intros ? [= <-]].
  - exists true. split; [done|]. intros y Hoky. apply Hy. by constructor.
Qed.

Lemma fill_not_deletable f x : is_deletable (fill f x) = false.
Proof. unfold is_deletable. destruct f; simpl; by rewrite ?andb_false_r. Qed.

(** Putting a node that is not free into a coalesced tree keeps it coalesced. *)
Lemma coalesced_plug c x y :
  coalesced (plug c x) → coalesced y → (is_deletable y = true → is_deletable x = true) →
  coalesced (plug c y).
Proof.
  revert x y. induction c as [|f c IH]; intros x y Hx Hy Himp; [done|].
  simpl. apply (IH (fill f x)); [done| |by rewrite fill_not_deletable].
  assert (coalesced (fill f x)) as Hf.
  { clear -Hx. simpl in Hx. revert Hx. generalize (fill f x). clear. induction c as [|g c IH]; [done|].
    intros z Hz. apply IH in Hz. destruct g; simpl in Hz; tauto. }
  destruct f as [t r|t l]; simpl in Hf |- *; destruct Hf as (Hm & Hl & Hr); split_and!; try done.
  - intros Ht Hmrg. apply Hm in Ht as [? ?]; [done|]. unfold mergeable in *. simpl in *.
    apply andb_true_iff in Hmrg as [? ->]. by rewrite Himp.
  - intros Ht Hmrg. apply Hm in Ht as [? ?]; [done|]. unfold mergeable in *. simpl in *.
    apply andb_true_iff in Hmrg as [-> ?]. by rewrite Himp.
Qed.

(** Every leaf is the hole of a context. *)
Lemma leaf_path m d n low id b c :
  node_ok m d n → (id, b) ∈ tree_leaves n d low → hole c = (d, low) → length c + d = 64 →
  ∃ c' a, plug c n = plug c' (mkNode (Accessible b a) None None) ∧ hole_id c' = id ∧ length c' ≤ 64.
Proof.
  intros Hn. revert low c. induction Hn as [d l r Hl IHl Hr IHr|m d c0 a Ha|m d a l r Ha Hl IHl Hr IHr];
    intros low c Hin Hc Hlen.
  - rewrite tree_leaves_split in Hin by by left. apply elem_of_app in Hin as [Hin|Hin].
    + destruct l as [l|]; [|by apply elem_of_nil in Hin].
      apply (IHl l eq_refl low (InLeft Inaccessible r :: c)); simpl; rewrite ?Hc; simpl;
        rewrite ?Nat.sub_0_r; [done|done|lia].
    + destruct r as [r|]; [|by apply elem_of_nil in Hin].
      apply (IHr r eq_refl (low + bytes d)%Z (InRight Inaccessible l :: c)); simpl; rewrite ?Hc; simpl;
        rewrite ?Nat.sub_0_r; [done|done|lia].
  - simpl in Hin. apply list_elem_of_singleton in Hin as [= -> ->]. exists c, a.
    unfold hole_id. rewrite Hc. split_and!; [done|done|lia].
  - rewrite tree_leaves_split in Hin by (right; left; by eexists). apply elem_of_app in Hin as [Hin|Hin].
    + apply (IHl low (InLeft (Accessible false a) (Some r) :: c)); simpl; rewrite ?Hc; simpl;
        rewrite ?Nat.sub_0_r; [done|done|lia].
    + apply (IHr (low + bytes d)%Z (InRight (Accessible false a) (Some l) :: c)); simpl; rewrite ?Hc; simpl;
        rewrite ?Nat.sub_0_r; [done|done|lia].
Qed.
