(* ===== verification/AllocatorSpec.v ===== *)
(** * AllocatorSpec: what the allocator guarantees

    The invariant [wf] of the allocator ties the three structures it keeps together: the
    derivation tree is well formed and coalesced, the index holds exactly the free leaves of
    the tree, and the slots of managed nodes are distinct and in use.  Creation and release of
    objects keep it; blocks in use never overlap; release merges blocks, so that creating
    and releasing an object leaves the allocator as it was. *)

From S2P Require Import Prelude.
From S2P Require Import Sel4.
From S2P Require Import CRegion.
From S2P Require Import Allocator.
From S2P Require Import AllocatorTree.

(** ** The invariant *)
Definition ids_of (b : bool) (ls : list (UntypedId * bool)) : list UntypedId :=
  (filter (λ p, p.2 = b) ls).*1.
Definition free_ids (t : Node) : list UntypedId := ids_of false (tree_leaves t 64 0).
Definition used_ids (t : Node) : list UntypedId := ids_of true (tree_leaves t 64 0).

(** [missing] are the free leaves of [t] that are not in the index. *)
Record inv (missing : list UntypedId) (t : Node) (cr : CRegion) (l : LeafNodes) : Prop := {
  inv_tree : node_ok false 64 t;
  inv_index : free_ids t ≡ₚ missing ++ leaf_list l;
  inv_leaves : leaves_ok l;
  inv_region : cregion_ok cr;
  inv_slots : NoDup (tree_slots t);
  inv_used : ∀ s, s ∈ tree_slots t → slot_used cr s;
}.

Definition wf (a : Allocator) : Prop :=
  inv [] (cap_derivation_tree a) (cregion a) (leaves a) ∧ coalesced (cap_derivation_tree a).

(** ** Leaves and contexts *)
Definition leaf (consumed : bool) (a : AccessibleNodeType) : Node := mkNode (Accessible consumed a) None None.
Definition branch (a : AccessibleNodeType) (l r : Node) : Node :=
  mkNode (Accessible false a) (Some l) (Some r).

#[global] Instance ids_of_proper b : Proper ((≡ₚ) ==> (≡ₚ)) (ids_of b).
Proof. intros l1 l2 Hp. unfold ids_of. by rewrite Hp. Qed.
Lemma ids_of_app b l1 l2 : ids_of b (l1 ++ l2) = ids_of b l1 ++ ids_of b l2.
Proof. unfold ids_of. by rewrite filter_app, fmap_app. Qed.

Lemma ids_plug b c x :
  ids_of b (tree_leaves (plug c x) 64 0) ≡ₚ
  ids_of b (tree_leaves x (hole c).1 (hole c).2) ++ ids_of b (ctx_leaves c).
Proof. by rewrite plug_leaves, ids_of_app. Qed.

Lemma ids_plug_leaf b c b' a :
  ids_of b (tree_leaves (plug c (leaf b' a)) 64 0) ≡ₚ
  (if decide (b' = b) then [hole_id c] else []) ++ ids_of b (ctx_leaves c).
Proof.
  rewrite ids_plug. f_equiv. unfold ids_of, leaf. simpl. rewrite filter_cons. simpl.
  by case_decide.
Qed.

(** The identifiers of the halves of a hole. *)
Definition left_id (c : list frame) : UntypedId :=
  {| paddr := (hole c).2; size_bits := (hole c).1 - 1 |}.
Definition right_id (c : list frame) : UntypedId :=
  {| paddr := (hole c).2 + bytes ((hole c).1 - 1); size_bits := (hole c).1 - 1 |}.

Lemma ids_plug_branch c a s1 s2 :
  0 < (hole c).1 →
  ids_of false (tree_leaves (plug c (branch a (leaf false s1) (leaf false s2))) 64 0) ≡ₚ
    [left_id c; right_id c] ++ ids_of false (ctx_leaves c) ∧
  ids_of true (tree_leaves (plug c (branch a (leaf false s1) (leaf false s2))) 64 0) ≡ₚ
    ids_of true (ctx_leaves c).
Proof. intros Hd. rewrite !ids_plug. split; done. Qed.

(** The built-in blocks of a tree. *)
Definition type_given (t : NodeType) (d : nat) (low : Z) : list UntypedId :=
  match t with Accessible _ (BuiltIn _) => [{| paddr := low; size_bits := d |}] | _ => [] end.
Fixpoint tree_given (n : Node) (d : nat) (low : Z) : list UntypedId :=
  let 'mkNode t l r := n in
  type_given t d low ++
  (match l with Some l' => tree_given l' (d - 1) low | None => [] end) ++
  (match r with Some r' => tree_given r' (d - 1) (low + bytes (d - 1))%Z | None => [] end).
Definition given (t : Node) : list UntypedId := tree_given t 64 0.

Definition frame_given (f : frame) (h : nat * Z) : list UntypedId :=
  match f with
  | InLeft t r => type_given t h.1 h.2 ++ opt_list (λ n, tree_given n (h.1 - 1) (h.2 + bytes (h.1 - 1))%Z) r
  | InRight t l => type_given t h.1 h.2 ++ opt_list (λ n, tree_given n (h.1 - 1) h.2) l
  end.
Fixpoint ctx_given (c : list frame) : list UntypedId :=
  match c with [] => [] | f :: c' => frame_given f (hole c') ++ ctx_given c' end.

Lemma given_plug c x : given (plug c x) ≡ₚ tree_given x (hole c).1 (hole c).2 ++ ctx_given c.
Proof.
  unfold given. revert x. induction c as [|f c IH]; intros x; simpl; [by rewrite app_nil_r|].
  rewrite IH. destruct f as [t r|t l]; simpl; rewrite !app_assoc; f_equiv.
  - by rewrite (Permutation_app_comm (type_given t _ _)), <-!app_assoc.
  - rewrite Permutation_app_comm, !app_assoc. done.
Qed.

Lemma given_leaf c b b' t : given (plug c (leaf b t)) ≡ₚ given (plug c (leaf b' t)).
Proof. rewrite !given_plug. by destruct t. Qed.

Lemma given_branch c b t s1 s2 :
  given (plug c (branch t (leaf false (Managed s1)) (leaf false (Managed s2)))) ≡ₚ given (plug c (leaf b t)).
Proof. rewrite !given_plug. by destruct t. Qed.

(** ** Marking several slots *)
Definition marks (ss : list Slot) (b : bool) (c : CRegion) : CRegion := foldr (λ s, mark s b) c ss.

Lemma marks_lookup ss b c k :
  elements (set (marks ss b c)) !! k = if decide (k ∈ ss) then Some b else elements (set c) !! k.
Proof.
  induction ss as [|s ss IH]; [done|].
  change (marks (s :: ss) b c) with (mark s b (marks ss b c)). rewrite mark_lookup, IH.
  repeat case_decide; set_solver.
Qed.

Lemma marks_eq ss b c :
  marks ss b c = with_set c {| elements := elements (set (marks ss b c)) |}.
Proof. induction ss as [|s ss IH]; simpl; [by destruct c as [? ? ? ? []]|]. by rewrite IH. Qed.

Lemma marks_inverse new old c :
  new ≡ₚ old → Forall (slot_free c) new → marks old false (marks new true c) = c.
Proof.
  intros Hp Hfree. rewrite Forall_forall in Hfree.
  rewrite (marks_eq old), (marks_eq new). destruct c as [r g gs rx [e]]. unfold with_set. simpl.
  f_equal. f_equal. apply map_eq. intros k. rewrite marks_lookup. simpl. rewrite marks_lookup.
  case_decide as Hold; [symmetry; apply Hfree; by rewrite Hp|].
  rewrite decide_False; [done|]. by rewrite Hp.
Qed.

Lemma mark_used_other s b c k : k ≠ s → slot_used c k → slot_used (mark s b c) k.
Proof. unfold slot_used. rewrite mark_lookup. intros. by rewrite decide_False. Qed.
Lemma mark_free_other s b c k : k ≠ s → slot_free c k → slot_free (mark s b c) k.
Proof. unfold slot_free. rewrite mark_lookup. intros. by rewrite decide_False. Qed.
Lemma slot_used_not_free c k : slot_used c k → slot_free c k → False.
Proof. unfold slot_used, slot_free. congruence. Qed.

(** ** The programs' rules *)
Section rules.
Context {K : Type} `{!Sel4 K} (strict : bool).
Abbreviation ST := (Allocator * K)%type.
Implicit Types (s : ST) (a : Allocator) (k : K).

Lemma kernel_op_spec c (Q : unit → ST → Prop) s :
  (strict = true → accepts) → (∀ k', Q tt (s.1, k')) → mspec strict (kernel_op (invoke c)) Q s.
Proof.
  intros Ha HQ. unfold mspec, kernel_op. destruct strict.
  - destruct (invoke_accepts c s.2 (Ha eq_refl)) as [k' ->]. apply HQ.
  - destruct (invoke c s.2) as [[[]|e|] k']; [apply HQ|done|done].
Qed.

Lemma alloc_slot_spec (Q : nat → ST → Prop) a k :
  (strict = true → 0 < slots_left (cregion a)) →
  (∀ s : Slot, slot_free (cregion a) s →
     (0 < slots_left (cregion a) → slots_left (cregion a) = S (slots_left (mark s true (cregion a)))) →
     Q s (with_cregion a (mark s true (cregion a)), k)) →
  mspec strict alloc_slot Q (a, k).
Proof.
  intros Hs HQ. unfold mspec, alloc_slot, get, put.
  unfold mbind, M_bind, gets, lift, modify. simpl.
  destruct (alloc_cases (E := Error) (cregion a)) as [(s & -> & Hf & _)|[-> Hno]]; simpl.
  - apply HQ; [done|]. intros _. by apply slots_left_mark.
  - destruct strict; [|done]. destruct (slots_left_pos (cregion a)) as [s Hf]; [auto|].
    by destruct (Hno s).
Qed.

Lemma free_slot_spec slot (Q : unit → ST → Prop) a k :
  slot_used (cregion a) slot →
  Q tt (with_cregion a (mark slot false (cregion a)), k) →
  mspec strict (free_slot slot) Q (a, k).
Proof.
  intros Hu HQ. unfold mspec, free_slot, get, put.
  unfold mbind, M_bind, gets, lift, modify. simpl. by rewrite (free_used _ _ Hu).
Qed.

Lemma take_leaf_spec id (Q : unit → ST → Prop) a k :
  leaves_ok (leaves a) → id ∈ leaf_list (leaves a) →
  (∀ l, leaf_list (leaves a) ≡ₚ id :: leaf_list l → leaves_ok l → Q tt (with_leaves a l, k)) →
  mspec strict (take_leaf id) Q (a, k).
Proof.
  intros Hok Hin HQ. destruct (remove_leaf_spec (E := Error) id (leaves a) Hok Hin) as (l & Hr & Hp & Hl).
  unfold mspec, take_leaf, get, put.
  unfold mbind, M_bind, gets, lift, modify. simpl. rewrite Hr. by apply HQ.
Qed.

Lemma give_leaf_spec id (Q : unit → ST → Prop) a k :
  Q tt (with_leaves a (add_leaf id (leaves a)), k) → mspec strict (give_leaf id) Q (a, k).
Proof. done. Qed.

Lemma write_node_spec c x y (Q : unit → ST → Prop) a k :
  length c ≤ 64 → cap_derivation_tree a = plug c x →
  Q tt (with_tree a (plug c y), k) → mspec strict (write_node (hole_id c) y) Q (a, k).
Proof. intros Hc Ht HQ. unfold mspec, write_node, put, modify. simpl. by rewrite Ht, put_node_hole. Qed.

Lemma get_node_spec c x (Q : Node → ST → Prop) a k :
  length c ≤ 64 → cap_derivation_tree a = plug c x → Q x (a, k) →
  mspec strict (reads (λ s : ST, get_node_mut (E := Error) (cap_derivation_tree s.1) (hole_id c))) Q (a, k).
Proof. intros Hc Ht HQ. eapply mspec_reads; [|done]. simpl. rewrite Ht. by apply get_node_hole. Qed.
End rules.

#[global] Arguments leaf : simpl never.
#[global] Arguments branch : simpl never.

(** ** Splitting a block *)
Section inv_steps.
Implicit Types (c : list frame) (cr : CRegion) (l : LeafNodes).

Lemma hole_pos c : length c < 64 → 0 < (hole c).1.
Proof. intros Hc. destruct (hole_bounds c) as [-> _]; lia. Qed.

Lemma tree_slots_leaf b t : tree_slots (leaf b t) = type_slots (Accessible b t).
Proof. unfold leaf. simpl. by rewrite app_nil_r. Qed.

Lemma type_slots_consumed b b' t : type_slots (Accessible b t) = type_slots (Accessible b' t).
Proof. by destruct t. Qed.

Lemma tree_slots_branch t s1 s2 :
  tree_slots (branch t (leaf false (Managed s1)) (leaf false (Managed s2))) =
  type_slots (Accessible false t) ++ [s1; s2].
Proof. done. Qed.

Lemma plug_slots_branch c t s1 s2 :
  tree_slots (plug c (branch t (leaf false (Managed s1)) (leaf false (Managed s2)))) ≡ₚ
  s1 :: s2 :: tree_slots (plug c (leaf false t)).
Proof.
  rewrite !plug_slots, tree_slots_branch, tree_slots_leaf.
  rewrite <-app_assoc. simpl. by rewrite !Permutation_middle.
Qed.

Lemma inv_split c t s1 s2 cr l :
  length c < 64 → inv [hole_id c] (plug c (leaf false t)) cr l →
  slot_free cr s1 → slot_free cr s2 → s1 ≠ s2 →
  inv [] (plug c (branch t (leaf false (Managed s1)) (leaf false (Managed s2))))
    (mark s2 true (mark s1 true cr)) (add_leaf (right_id c) (add_leaf (left_id c) l)).
Proof.
  intros Hc [Htree Hidx Hl Hcr Hnd Hu] Hf1 Hf2 Hne. pose proof (hole_pos c Hc) as Hpos.
  pose proof (plug_slots_branch c t s1 s2) as Hslots.
  assert (∀ s, slot_free cr s → s ∉ tree_slots (plug c (leaf false t))) as Hfresh.
  { intros s Hs Hin. eapply slot_used_not_free; [by apply Hu|done]. }
  split.
  - destruct (plug_ok c (leaf false t)) as (m & Hm & Hy); [lia|done|]. apply Hy.
    destruct (hole c).1 as [|d]; [lia|]. inversion Hm; subst. constructor; [done|by constructor..].
  - unfold free_ids. rewrite (proj1 (ids_plug_branch c t (Managed s1) (Managed s2) Hpos)).
    rewrite !add_leaf_list. simpl. rewrite Permutation_swap. do 2 f_equiv.
    revert Hidx. unfold free_ids. rewrite ids_plug_leaf. simpl. apply Permutation_cons_inv.
  - by apply add_leaf_ok, add_leaf_ok.
  - apply mark_ok; [apply mark_ok; [done|by eexists]|]. rewrite mark_lookup.
    case_decide; by eexists.
  - rewrite Hslots. apply NoDup_cons. split; [|apply NoDup_cons; split; [by apply Hfresh|done]].
    apply not_elem_of_cons. split; [done|by apply Hfresh].
  - intros s. rewrite Hslots, !elem_of_cons. unfold slot_used. rewrite !mark_lookup.
    intros [->|[->|Hs]]; repeat case_decide; try done. by apply Hu.
Qed.

Lemma inv_take id missing t cr l l' :
  inv missing t cr l → leaf_list l ≡ₚ id :: leaf_list l' → leaves_ok l' → inv (missing ++ [id]) t cr l'.
Proof.
  intros [Htree Hidx Hl Hcr Hnd Hu] Hp Hl'. split; [done| |done..].
  by rewrite Hidx, Hp, <-app_assoc.
Qed.

(** The free leaf at the hole becomes consumed. *)
Lemma inv_consume c t cr l :
  length c ≤ 64 → inv [hole_id c] (plug c (leaf false t)) cr l → inv [] (plug c (leaf true t)) cr l.
Proof.
  intros Hc [Htree Hidx Hl Hcr Hnd Hu].
  assert (tree_slots (plug c (leaf true t)) ≡ₚ tree_slots (plug c (leaf false t))) as Hslots.
  { by rewrite !plug_slots, !tree_slots_leaf, (type_slots_consumed true false). }
  split; [| |done|done|by rewrite Hslots|intros s; rewrite Hslots; apply Hu].
  - destruct (plug_ok c (leaf false t)) as (m & Hm & Hy); [lia|done|]. apply Hy.
    inversion Hm; subst. by constructor.
  - revert Hidx. unfold free_ids. rewrite !ids_plug_leaf. simpl. apply Permutation_cons_inv.
Qed.

(** The consumed leaf at the hole becomes free. *)
Lemma inv_release c t cr l :
  length c ≤ 64 → inv [] (plug c (leaf true t)) cr l →
  inv [] (plug c (leaf false t)) cr (add_leaf (hole_id c) l).
Proof.
  intros Hc [Htree Hidx Hl Hcr Hnd Hu].
  assert (tree_slots (plug c (leaf true t)) ≡ₚ tree_slots (plug c (leaf false t))) as Hslots.
  { by rewrite !plug_slots, !tree_slots_leaf, (type_slots_consumed true false). }
  split; [| |by apply add_leaf_ok|done|by rewrite <-Hslots|intros s; rewrite <-Hslots; apply Hu].
  - destruct (plug_ok c (leaf true t)) as (m & Hm & Hy); [lia|done|]. apply Hy.
    inversion Hm; subst. by constructor.
  - revert Hidx. unfold free_ids. rewrite !ids_plug_leaf. simpl. intros ->. by rewrite add_leaf_list.
Qed.

(** Two free halves become one free block. *)
Lemma inv_merge c t s1 s2 cr l l1 l2 :
  length c < 64 → inv [] (plug c (branch t (leaf false (Managed s1)) (leaf false (Managed s2)))) cr l →
  leaf_list l ≡ₚ left_id c :: leaf_list l1 → leaf_list l1 ≡ₚ right_id c :: leaf_list l2 → leaves_ok l2 →
  inv [] (plug c (leaf false t)) (mark s2 false (mark s1 false cr)) (add_leaf (hole_id c) l2) ∧
  tree_slots (plug c (branch t (leaf false (Managed s1)) (leaf false (Managed s2)))) ≡ₚ
    [s2; s1] ++ tree_slots (plug c (leaf false t)).
Proof.
  intros Hc [Htree Hidx Hl Hcr Hnd Hu] Hp1 Hp2 Hl2. pose proof (hole_pos c Hc) as Hpos.
  assert (tree_slots (plug c (branch t (leaf false (Managed s1)) (leaf false (Managed s2)))) ≡ₚ
    s2 :: s1 :: tree_slots (plug c (leaf false t))) as Hslots.
  { rewrite Permutation_swap. apply plug_slots_branch. }
  split; [|done]. rewrite Hslots in Hnd. apply NoDup_cons in Hnd as [Hn1 [Hn2 Hnd]%NoDup_cons].
  apply not_elem_of_cons in Hn1 as [Hne Hn1].
  split.
  - destruct (plug_ok c (branch t (leaf false (Managed s1)) (leaf false (Managed s2))))
      as (m & Hm & Hy); [lia|done|]. apply Hy. inversion Hm; subst. by constructor.
  - unfold free_ids. rewrite ids_plug_leaf, add_leaf_list. simpl. f_equiv.
    revert Hidx. unfold free_ids. rewrite (proj1 (ids_plug_branch c t (Managed s1) (Managed s2) Hpos)).
    simpl. rewrite Hp1, Hp2. by intros ?%Permutation_cons_inv%Permutation_cons_inv.
  - by apply add_leaf_ok.
  - assert (slot_used cr s1) as H1 by (apply Hu; rewrite Hslots; set_solver).
    assert (slot_used cr s2) as H2 by (apply Hu; rewrite Hslots; set_solver).
    apply mark_ok; [apply mark_ok; [done|by eexists]|]. rewrite mark_lookup. case_decide; by eexists.
  - done.
  - intros s Hs. apply mark_used_other; [by intros ->|]. apply mark_used_other; [by intros ->|].
    apply Hu. rewrite Hslots. set_solver.
Qed.
End inv_steps.

(** ** Creation *)

(** [splits t F t']: splitting the free leaf of type [t] down the right gives the frames [F]
    around the leaf of type [t']. *)
Inductive splits : AccessibleNodeType → list frame → AccessibleNodeType → Prop :=
| splits_nil t : splits t [] t
| splits_snoc t s1 s2 F t' :
    splits (Managed s2) F t' →
    splits t (F ++ [InRight (Accessible false t) (Some (leaf false (Managed s1)))]) t'.

Lemma coalesced_leaf b t : coalesced (leaf b t).
Proof. by unfold leaf. Qed.

Lemma splits_coalesced t F t' y :
  splits t F t' → coalesced y → is_deletable y = false →
  coalesced (plug F y) ∧ is_deletable (plug F y) = false.
Proof.
  intros Hs Hy Hd. induction Hs as [t|t s1 s2 F t' Hs IH]; [done|].
  rewrite plug_app. destruct IH as [Hc Hdel]. cbn [plug]. split; [|apply fill_not_deletable].
  simpl. split; [|split; [apply coalesced_leaf|done]].
  unfold mergeable. simpl. rewrite Hdel. done.
Qed.

Section create.
Context {K : Type} `{!Sel4 K} (strict : bool) (Hacc : strict = true → accepts).
Implicit Types (c : list frame).

Lemma right_addr c :
  length c < 64 →
  word_cast 64 ((hole c).2 + word_shl 64 1 (Z.of_nat ((hole c).1 - 1))) = paddr (right_id c).
Proof.
  intros Hc. destruct (hole_bounds c) as (Hd & Hl & Hb); [lia|]. simpl.
  unfold word_cast, word_shl. rewrite !Z.land_ones, Z.shiftl_1_l by lia.
  replace (hole c).1 with (S ((hole c).1 - 1)) in Hb by lia. rewrite bytes_S in Hb.
  fold (bytes ((hole c).1 - 1)). pose proof (bytes_pos ((hole c).1 - 1)).
  rewrite (Z.mod_small (bytes _)) by lia. rewrite Z.mod_small by lia. done.
Qed.

Lemma split_untyped_spec c t (a : Allocator) (k : K) :
  length c < 64 → cap_derivation_tree a = plug c (leaf false t) →
  inv [hole_id c] (plug c (leaf false t)) (cregion a) (leaves a) →
  (strict = true → 2 ≤ slots_left (cregion a)) →
  mspec strict (split_untyped (hole_id c)) (λ r s', ∃ s1 s2,
    r = (left_id c, right_id c) ∧
    slot_free (cregion a) s1 ∧ slot_free (cregion a) s2 ∧ s1 ≠ s2 ∧
    s'.1 = {| cregion := marks [s2; s1] true (cregion a);
              fragmentation_threshold_size_bits := fragmentation_threshold_size_bits a;
              cap_derivation_tree := plug c (branch t (leaf false (Managed s1)) (leaf false (Managed s2)));
              leaves := add_leaf (right_id c) (add_leaf (left_id c) (leaves a)) |} ∧
    (2 ≤ slots_left (cregion a) → slots_left (cregion a) = 2 + slots_left (cregion s'.1)) ∧
    inv [] (cap_derivation_tree s'.1) (cregion s'.1) (leaves s'.1)) (a, k).
Proof.
  intros Hc Ht Hinv Hslots. unfold split_untyped.
  apply mspec_bind, alloc_slot_spec; [intros Hs; specialize (Hslots Hs); lia|]. intros s1 Hf1 Hl1.
  apply mspec_bind, alloc_slot_spec; [intros Hs; specialize (Hslots Hs); simpl; lia|]. simpl.
  intros s2 Hf2 Hl2.
  assert (s1 ≠ s2) as Hne.
  { intros ->. unfold slot_free in Hf2. rewrite mark_lookup, decide_True in Hf2 by done. done. }
  assert (slot_free (cregion a) s2) as Hf2'.
  { unfold slot_free in *. by rewrite mark_lookup, decide_False in Hf2 by done. }
  apply mspec_bind. eapply get_node_spec; [lia|by simpl|].
  apply mspec_bind, mspec_assert; [done|]. intros _.
  apply mspec_bind, mspec_gets. apply mspec_bind, mspec_lift; [intros _; by destruct t; eexists|].
  intros lc Hlc.
  apply mspec_bind, mspec_unwrap_result, kernel_op_spec; [done|]. intros k1.
  apply mspec_bind, mspec_unwrap_result, kernel_op_spec; [done|]. intros k2.
  apply mspec_bind. eapply write_node_spec; [lia|by simpl|]. simpl.
  apply mspec_bind, give_leaf_spec, mspec_bind, give_leaf_spec, mspec_ret. simpl.
  exists s1, s2. pose proof (right_addr c Hc) as Haddr.
  replace {| paddr := word_cast 64 _; size_bits := _ |} with (right_id c)
    by (unfold right_id in *; simpl in *; congruence).
  fold (left_id c). split_and!; try done.
  - intros H2. rewrite Hl1 by lia. rewrite Hl2 by lia. done.
  - by apply inv_split.
Qed.

(** What [split_down] and [create_object] do to the structures, in terms of the context of
    the block they start from. *)
Record grown (c : list frame) (t : AccessibleNodeType) (a : Allocator)
    (F : list frame) (t' : AccessibleNodeType) (new : list Slot) (consumed : bool) (a' : Allocator) : Prop := {
  grown_splits : splits t F t';
  grown_tree : cap_derivation_tree a' = plug (F ++ c) (leaf consumed t');
  grown_depth : length (F ++ c) ≤ 64;
  grown_region : cregion a' = marks new true (cregion a);
  grown_free : Forall (slot_free (cregion a)) new;
  grown_given : given (cap_derivation_tree a') ≡ₚ given (plug c (leaf false t));
  grown_slots : tree_slots (cap_derivation_tree a') ≡ₚ new ++ tree_slots (plug c (leaf false t));
  grown_inv :
    inv (if consumed then [] else [hole_id (F ++ c)]) (cap_derivation_tree a') (cregion a') (leaves a');
  grown_frag : fragmentation_threshold_size_bits a' = fragmentation_threshold_size_bits a;
}.

Lemma split_down_spec n c t (a : Allocator) (k : K) :
  length c + n ≤ 64 → cap_derivation_tree a = plug c (leaf false t) →
  inv [hole_id c] (plug c (leaf false t)) (cregion a) (leaves a) →
  (strict = true → 2 * n ≤ slots_left (cregion a)) →
  mspec strict (split_down n (hole_id c)) (λ id s', ∃ F t' new,
    id = hole_id (F ++ c) ∧ length F = n ∧ grown c t a F t' new false s'.1) (a, k).
Proof.
  revert c t a k. induction n as [|n IH]; intros c t a k Hlen Ht Hinv Hslots.
  - simpl. apply mspec_ret. exists [], t, []. simpl. split_and!; [done|done|].
    split; simpl; rewrite ?Ht; try done; [constructor|lia].
  - cbn [split_down]. apply mspec_bind.
    eapply mspec_mono; [apply (split_untyped_spec c t); [lia|done|done|]|].
    { intros Hs. specialize (Hslots Hs). lia. }
    intros r [a1 k1] (s1 & s2 & -> & Hf1 & Hf2 & Hne & Ha1 & Hleft & Hinv1). simpl in *. subst a1.
    apply mspec_bind. apply take_leaf_spec; [by apply Hinv1| |].
    { simpl. rewrite !add_leaf_list. constructor. }
    intros l Hp Hl. simpl in *.
    set (f := InRight (Accessible false t) (Some (leaf false (Managed s1)))).
    assert (hole_id (f :: c) = right_id c) as Hid by done.
    rewrite <-Hid. eapply mspec_mono.
    { apply (IH (f :: c) (Managed s2)); simpl; [lia|done| |].
      - rewrite Hid. by eapply (inv_take _ []).
      - intros Hs. specialize (Hslots Hs). specialize (Hleft ltac:(lia)). simpl. lia. }
    intros id [a2 k2] (F & t' & new & -> & HF & [Hsp Htr Hdep Hreg Hfree Hgv Hsl Hinv2 Hfrag]). simpl in *.
    exists (F ++ [f]), t', (new ++ [s2; s1]). rewrite <-app_assoc. simpl. split_and!.
    + done.
    + rewrite length_app, HF. simpl. lia.
    + split; rewrite <-?app_assoc; simpl; try done.
      * by constructor 2 with s2.
      * rewrite Hreg. unfold marks. by rewrite foldr_app.
      * apply Forall_app. split; [|by repeat constructor].
        eapply Forall_impl; [exact Hfree|]. intros s Hs. unfold slot_free in *.
        rewrite !mark_lookup in Hs. by repeat case_decide.
      * rewrite Hgv. apply given_branch.
      * rewrite Hsl. f_equiv. rewrite Permutation_swap. apply plug_slots_branch.
Qed.

Lemma elem_of_ids b ls id : id ∈ ids_of b ls ↔ (id, b) ∈ ls.
Proof.
  unfold ids_of. rewrite list_elem_of_fmap. split.
  - intros ([id' b'] & -> & [Hb Hin]%list_elem_of_filter). simpl in *. by subst.
  - intros Hin. exists (id, b). split; [done|]. by apply list_elem_of_filter.
Qed.

(** A leaf of a tree is the hole of a context. *)
Lemma ids_path b t id :
  node_ok false 64 t → id ∈ ids_of b (tree_leaves t 64 0) →
  ∃ c ty, t = plug c (leaf b ty) ∧ hole_id c = id ∧ length c ≤ 64.
Proof.
  rewrite elem_of_ids. intros Hok Hin.
  destruct (leaf_path false 64 t 0 id b [] Hok Hin) as (c & ty & Hp & Hid & Hc); [done|done|].
  by exists c, ty.
Qed.

Lemma grown_wf c t a F t' new a' :
  wf a → cap_derivation_tree a = plug c (leaf false t) → grown c t a F t' new true a' → wf a'.
Proof.
  intros [Hinv Hco] Ht [Hsp Htr Hdep Hreg Hfree Hgv Hsl Hinv' Hfrag]. split; [done|].
  rewrite Htr, plug_app. rewrite Ht in Hco.
  destruct (splits_coalesced t F t' (leaf true t')) as [Hc1 Hc2]; [done|apply coalesced_leaf|done|].
  eapply coalesced_plug; [done|done|]. by rewrite Hc2.
Qed.

Lemma grown_used c t a F t' new a' :
  cap_derivation_tree a = plug c (leaf false t) → grown c t a F t' new true a' →
  used_ids (cap_derivation_tree a') ≡ₚ hole_id (F ++ c) :: used_ids (cap_derivation_tree a).
Proof.
  intros Ht [Hsp Htr _ _ _ _ _ _ _]. rewrite Htr, Ht. unfold used_ids. rewrite !ids_plug_leaf. simpl.
  f_equiv. clear Htr Ht. revert c. induction Hsp as [|t s1 s2 F t' Hsp IH]; intros c; [done|].
  rewrite <-app_assoc. rewrite IH. simpl. unfold ids_of, leaf. simpl. done.
Qed.

Lemma splits_in t F t' c :
  splits t F t' → length (F ++ c) ≤ 64 → in_block (hole c).1 (hole c).2 (hole_id (F ++ c)).
Proof.
  intros Hsp. revert c. induction Hsp as [|t s1 s2 F t' Hsp IH]; intros c Hlen; [apply hole_id_in|].
  rewrite <-app_assoc in *. apply IH in Hlen as Hin.
  apply (child_hole_in _ c) in Hin; [tauto|]. rewrite length_app in Hlen. simpl in *. lia.
Qed.

Lemma create_object_spec dst slot bp (a : Allocator) (k : K) :
  wf a →
  (strict = true → ∃ id0, id0 ∈ free_ids (cap_derivation_tree a) ∧
     physical_size_bits bp ≤ size_bits id0 ∧
     2 * (size_bits id0 - physical_size_bits bp) ≤ slots_left (cregion a)) →
  mspec strict (create_object dst slot bp) (λ id s', ∃ c t F t' new,
    cap_derivation_tree a = plug c (leaf false t) ∧ length c ≤ 64 ∧
    id = hole_id (F ++ c) ∧ size_bits id = physical_size_bits bp ∧
    grown c t a F t' new true s'.1) (a, k).
Proof.
  intros [Hinv Hco] Hstrict. unfold create_object.
  pose proof (inv_index _ _ _ _ Hinv) as Hidx. simpl in Hidx.
  apply mspec_bind, mspec_gets. simpl.
  pose proof (get_leaf_cases (E := Error) (physical_size_bits bp) (leaves a) (inv_leaves _ _ _ _ Hinv))
    as [(id & l & Hg & Hsz & Hp & Hl & Hmin)|[Hg Hsmall]].
  2:{ apply mspec_bind, mspec_lift; rewrite Hg; [|done]. intros Hs.
      destruct (Hstrict Hs) as (id0 & Hin & Hle & _). rewrite Hidx in Hin.
      specialize (Hsmall id0 Hin). lia. }
  apply mspec_bind, mspec_lift; rewrite Hg; [by eexists|]. intros ? [= <-].
  apply mspec_bind, mspec_modify. simpl.
  assert (id ∈ free_ids (cap_derivation_tree a)) as Hin by (rewrite Hidx, Hp; constructor).
  destruct (ids_path false _ id (inv_tree _ _ _ _ Hinv) Hin) as (c & t & Ht & <- & Hc).
  destruct (hole_bounds c Hc) as (Hd & _ & _). simpl in Hsz, Hmin.
  apply mspec_bind. eapply mspec_mono.
  { apply (split_down_spec _ c t); simpl; [lia|done| |].
    - rewrite Ht in Hinv. by apply (inv_take _ [] _ _ (leaves a)).
    - intros Hs. destruct (Hstrict Hs) as (id0 & Hin0 & Hle & Hslots).
      rewrite Hidx in Hin0. specialize (Hmin id0 Hin0 Hle). simpl in *. lia. }
  intros id' [a1 k1] (F & t' & new & -> & HF & [Hsp Htr Hdep Hreg Hfree Hgv Hsl Hinv1 Hfrag]). simpl in *.
  apply mspec_bind. eapply get_node_spec; [done|done|].
  apply mspec_bind, mspec_lift; [by eexists|]. intros ? [= <-].
  apply mspec_bind. eapply write_node_spec; [done|done|]. fold (leaf true t').
  apply mspec_bind, mspec_gets. apply mspec_bind, mspec_lift; [intros _; by destruct t'; eexists|].
  intros lc _. apply mspec_bind, mspec_unwrap_result, kernel_op_spec; [done|]. intros k2.
  apply mspec_ret. exists c, t, F, t', new. simpl. split_and!; [done|done|done| |].
  - destruct (hole_bounds (F ++ c) Hdep) as (-> & _ & _). rewrite length_app. lia.
  - split; simpl; try done.
    + rewrite Htr in Hgv. by rewrite (given_leaf _ true false).
    + rewrite Htr, plug_slots, !tree_slots_leaf, (type_slots_consumed false true) in Hsl.
      by rewrite plug_slots, tree_slots_leaf.
    + apply inv_consume; [done|]. by rewrite <-Htr.
Qed.
End create.

(** ** Release *)
Section release.
Context {K : Type} `{!Sel4 K} (strict : bool) (Hacc : strict = true → accepts).
Implicit Types (c : list frame) (s : Allocator * K).

(** The way back up from a node, merging where both halves are free. *)
Fixpoint ascend c (x : Node) : M (Allocator * K) Error Node :=
  match c with
  | [] => mret x
  | f :: c' =>
    n ← merge_children (fill f x) (hole c').2 ((hole c').2 + bytes (hole c').1 - 1) (64 - (hole c').1);
    ascend c' n
  end.

Lemma bind_assoc {X Y Z} (m : M (Allocator * K) Error X) (f : X → M (Allocator * K) Error Y)
    (g : Y → M (Allocator * K) Error Z) s :
  ((m ≫= f) ≫= g) s = (m ≫= λ x, f x ≫= g) s.
Proof. unfold mbind, M_bind. by destruct (m s) as [[] ?]. Qed.

Lemma bind_ext {X Y} (m : M (Allocator * K) Error X) (f g : X → M (Allocator * K) Error Y) s :
  (∀ x s', f x s' = g x s') → (m ≫= f) s = (m ≫= g) s.
Proof. intros H. unfold mbind, M_bind. by destruct (m s) as [[] ?]. Qed.

(** The recursion goes down to the hole of a context, and comes back up. *)
Lemma helper_plug c x id s :
  length c ≤ 64 → in_block (hole c).1 (hole c).2 id →
  revoke_and_free_helper (plug c x) 0 MAX_ADDR 0 id s =
  (x' ← revoke_and_free_helper x (hole c).2 ((hole c).2 + bytes (hole c).1 - 1) (64 - (hole c).1) id;
   ascend c x') s.
Proof.
  revert x s. induction c as [|f c IH]; intros x s Hlen Hid.
  { cbn [plug ascend]. change (hole []) with (64, 0%Z). unfold mbind, M_bind, mret, M_ret. simpl fst. simpl snd.
    change (64 - 64) with 0. change (0 + bytes 64 - 1)%Z with MAX_ADDR.
    by destruct (revoke_and_free_helper x 0 MAX_ADDR 0 id s) as [[] ?]. }
  destruct (child_hole_in f c id) as (Hin & Hlt & Hhalf & Hside); [done|done|].
  pose proof (child_hole_high f c Hlen) as Hhigh.
  destruct (hole_bounds (f :: c) Hlen) as (Hd & _ & _). simpl in Hlen.
  destruct (hole_bounds c) as (Hd' & _ & _); [lia|]. simpl in Hd.
  cbn [plug]. rewrite IH by (done || lia).
  destruct Hin as (Hsz & Hlo & Hhi). pose proof (bytes_pos (size_bits id)).
  assert (64 - (hole c).1 + 1 = 64 - (hole (f :: c)).1) as Hdep by (simpl; lia).
  destruct f as [t r|t l]; cbn [fill revoke_and_free_helper ascend];
    rewrite decide_False by lia; unfold assert_; rewrite bool_decide_eq_true_2 by lia;
    rewrite Hhalf; [rewrite decide_True by done|rewrite decide_False by lia].
  - rewrite Hhigh, Hdep. simpl (hole _).2. cbv beta iota delta [mbind M_bind].
    change (hole (InLeft t r :: c)).2 with ((hole c).2).
    destruct (revoke_and_free_helper x _ _ _ id s) as [[] ?]; reflexivity.
  - rewrite Hhigh, Hdep. cbv beta iota delta [mbind M_bind].
    change (hole (InRight t l :: c)).2 with ((hole c).2 + bytes ((hole c).1 - 1))%Z.
    destruct (revoke_and_free_helper x _ _ _ id s) as [[] ?]; reflexivity.
Qed.

(** Nothing is merged in a coalesced tree. *)
Lemma merge_children_coalesced n low high dep s :
  coalesced n → is_Some (node_left n) ∨ is_Some (node_right n) →
  merge_children n low high dep s = (Ok n, s).
Proof.
  destruct n as [t l r]. intros Hco Hch. unfold merge_children. fold (opt_deletable l). fold (opt_deletable r).
  destruct Hco as [Hm _]. unfold mergeable in Hm.
  destruct (is_accessible (mkNode t l r)); [|done]. simpl.
  destruct (opt_deletable l && opt_deletable r); [|done].
  destruct Hm as [-> ->]; [done|done|]. by destruct Hch as [[? ?]|[? ?]].
Qed.

Lemma coalesced_hole c x : coalesced (plug c x) → coalesced x.
Proof.
  revert x. induction c as [|f c IH]; [done|]. intros x Hx. apply IH in Hx.
  destruct f; simpl in Hx; tauto.
Qed.

Lemma fill_child f x : is_Some (node_left (fill f x)) ∨ is_Some (node_right (fill f x)).
Proof. destruct f; simpl; eauto. Qed.

Lemma ascend_coalesced c x s : coalesced (plug c x) → ascend c x s = (Ok (plug c x), s).
Proof.
  revert x s. induction c as [|f c IH]; intros x s Hco; [done|]. cbn [ascend plug] in *.
  erewrite bind_eq_ok; [by apply IH|]. apply merge_children_coalesced; [by eapply coalesced_hole|].
  apply fill_child.
Qed.

Lemma deletable_leaf m d n : node_ok m d n → is_deletable n = true → ∃ t, n = leaf false t ∧ kind m t.
Proof.
  intros Hn. unfold is_deletable. destruct Hn as [d l r _ _|m d b t Hk|m d t l r Hk _ _]; try done.
  destruct b; [done|]. intros _. by exists t.
Qed.

(** Merging two free halves. *)
Lemma merge_spec c t (s1 s2 : Slot) (a : Allocator) k :
  length c < 64 →
  inv [] (plug c (branch t (leaf false (Managed s1)) (leaf false (Managed s2)))) (cregion a) (leaves a) →
  mspec strict
    (merge_children (branch t (leaf false (Managed s1)) (leaf false (Managed s2)))
      (hole c).2 ((hole c).2 + bytes (hole c).1 - 1) (64 - (hole c).1))
    (λ n s', n = leaf false t ∧ cregion s'.1 = marks [s2; s1] false (cregion a) ∧
       cap_derivation_tree s'.1 = cap_derivation_tree a ∧
       fragmentation_threshold_size_bits s'.1 = fragmentation_threshold_size_bits a ∧
       inv [] (plug c (leaf false t)) (cregion s'.1) (leaves s'.1)) (a, k).
Proof.
  intros Hc Hinv. pose proof (hole_pos c Hc) as Hpos.
  destruct (hole_bounds c) as (Hd & Hl & Hb); [lia|].
  assert (half_addr (hole c).2 ((hole c).2 + bytes (hole c).1 - 1) = paddr (right_id c)) as Hhalf.
  { simpl. replace (hole c).1 with (S ((hole c).1 - 1)) in * by lia. rewrite half_addr_block; [|done|done].
    do 2 f_equal. lia. }
  assert (slot_used (cregion a) s1 ∧ slot_used (cregion a) s2 ∧ s1 ≠ s2) as (Hu1 & Hu2 & Hne).
  { pose proof (plug_slots_branch c t s1 s2) as Hs. split_and!.
    - apply (inv_used _ _ _ _ Hinv). rewrite Hs. set_solver.
    - apply (inv_used _ _ _ _ Hinv). rewrite Hs. set_solver.
    - pose proof (inv_slots _ _ _ _ Hinv) as Hnd. rewrite Hs in Hnd.
      apply NoDup_cons in Hnd as [Hn _]. set_solver. }
  pose proof (inv_index _ _ _ _ Hinv) as Hidx. unfold free_ids in Hidx.
  rewrite (proj1 (ids_plug_branch c t (Managed s1) (Managed s2) Hpos)) in Hidx. simpl in Hidx.
  unfold merge_children, branch. simpl. rewrite Hhalf.
  replace (64 - (64 - (hole c).1 + 1)) with ((hole c).1 - 1) by lia.
  replace (64 - (64 - (hole c).1)) with ((hole c).1) by lia.
  fold (left_id c). fold (hole_id c).
  apply mspec_bind.
  apply mspec_bind, mspec_lift; [by eexists|]. intros ? [= <-].
  apply mspec_bind, free_slot_spec; [done|].
  apply take_leaf_spec; simpl; [apply Hinv|rewrite <-Hidx; constructor|]. intros l1 Hp1 Hok1.
  apply mspec_bind.
  apply mspec_bind, mspec_lift; [by eexists|]. intros ? [= <-].
  apply mspec_bind, free_slot_spec; simpl; [by apply mark_used_other|].
  rewrite Hp1 in Hidx. apply Permutation_cons_inv in Hidx.
  apply take_leaf_spec; simpl; [done|rewrite <-Hidx; constructor|]. intros l2 Hp2 Hok2.
  apply mspec_bind, mspec_gets. apply mspec_bind, mspec_lift; [intros _; by destruct t; eexists|].
  intros p _. apply mspec_bind, kernel_op_spec; [done|]. intros k'.
  apply mspec_bind, give_leaf_spec, mspec_ret. simpl.
  destruct (inv_merge c t s1 s2 (cregion a) (leaves a) l1 l2) as [Hinv' _]; done.
Qed.

(** What the way up does to the structures. *)
Record shrunk (t : Node) (a : Allocator) (t' : Node) (old : list Slot) (a' : Allocator) : Prop := {
  shrunk_inv : inv [] t' (cregion a') (leaves a');
  shrunk_coalesced : coalesced t';
  shrunk_given : given t' ≡ₚ given t;
  shrunk_used : used_ids t' ≡ₚ used_ids t;
  shrunk_region : cregion a' = marks old false (cregion a);
  shrunk_slots : tree_slots t ≡ₚ old ++ tree_slots t';
  shrunk_tree : cap_derivation_tree a' = cap_derivation_tree a;
  shrunk_frag : fragmentation_threshold_size_bits a' = fragmentation_threshold_size_bits a;
}.

Lemma coalesced_fill f x z :
  coalesced (fill f z) → coalesced x →
  (match f with InLeft t r => is_accessible (fill f x) && mergeable (Some x) r
              | InRight t l => is_accessible (fill f x) && mergeable l (Some x) end) = false →
  coalesced (fill f x).
Proof.
  intros Hz Hx Hm. destruct f as [t r|t l]; simpl in *; destruct Hz as (_ & Hl & Hr); split_and!; try done;
    intros Ha Hb; by rewrite Ha, Hb in Hm.
Qed.

Lemma shrunk_refl t a :
  inv [] t (cregion a) (leaves a) → coalesced t → shrunk t a t [] a.
Proof. by split. Qed.

(** The two halves around a free hole, when the other half is free too. *)
Lemma mergeable_branch f c x :
  length (f :: c) ≤ 64 → node_ok false 64 (plug (f :: c) x) →
  (match f with InLeft t r => is_accessible (fill f x) && mergeable (Some x) r
              | InRight t l => is_accessible (fill f x) && mergeable l (Some x) end) = true →
  ∃ t (s1 s2 : Slot), fill f x = branch t (leaf false (Managed s1)) (leaf false (Managed s2)).
Proof.
  intros Hlen Hok Hm. simpl in Hlen. destruct (plug_ok c (fill f x)) as (m & Hf & _); [lia|done|].
  assert (∀ d n, node_ok true d n → is_deletable n = true → ∃ s : Slot, n = leaf false (Managed s)) as Hdel.
  { intros d n Hn Hd. destruct (deletable_leaf true d n Hn Hd) as (t & -> & Hk). destruct t; [done|by eexists]. }
  destruct f as [t r|t l]; simpl in Hf; inversion Hf; subst; simpl in Hm; try done;
    unfold mergeable in Hm; simpl in Hm; apply andb_true_iff in Hm as [Hm1 Hm2];
    repeat match goal with
    | Hn : node_ok true ?d ?n, Hd : is_deletable ?n = true |- _ => apply (Hdel d n Hn) in Hd as [? ->]
    end; by eexists _, _, _.
Qed.

Lemma merge_children_not f x low high dep s :
  (match f with InLeft t r => is_accessible (fill f x) && mergeable (Some x) r
              | InRight t l => is_accessible (fill f x) && mergeable l (Some x) end) = false →
  merge_children (fill f x) low high dep s = (Ok (fill f x), s).
Proof.
  intros Hm. destruct f as [t r|t l]; simpl in *; unfold mergeable in Hm; rewrite andb_assoc in Hm;
    unfold opt_deletable in Hm; simpl in Hm; by rewrite Hm.
Qed.

Lemma ascend_spec c x z (a : Allocator) k :
  length c ≤ 64 → inv [] (plug c x) (cregion a) (leaves a) → coalesced x → coalesced (plug c z) →
  is_deletable x = true →
  mspec strict (ascend c x) (λ n s', ∃ old, shrunk (plug c x) a n old s'.1) (a, k).
Proof.
  revert x z a k. induction c as [|f c IH]; intros x z a k Hlen Hinv Hx Hz Hdel.
  { apply mspec_ret. exists []. by apply shrunk_refl. }
  destruct (match f with InLeft t r => is_accessible (fill f x) && mergeable (Some x) r
              | InRight t l => is_accessible (fill f x) && mergeable l (Some x) end) eqn:Hm.
  - destruct (mergeable_branch f c x) as (t & s1 & s2 & Hf); [done|by apply Hinv|done|].
    cbn [ascend]. apply mspec_bind. cbn [plug] in *. rewrite Hf in *. simpl in Hlen.
    eapply mspec_mono; [by apply merge_spec; [lia|]|].
    intros n [a1 k1] (-> & Hreg & Htr & Hfr & Hinv1). simpl in *.
    eapply mspec_mono; [apply (IH (leaf false t) (fill f z)); [lia|done|apply coalesced_leaf|done|done]|].
    intros n [a2 k2] (old & [Hi Hco Hgv Hus Hrg Hsl Ht2 Hf2]). simpl in *.
    pose proof (hole_pos c ltac:(lia)) as Hpos.
    exists (old ++ [s2; s1]). split; try done.
    + rewrite Hgv. symmetry. apply given_branch.
    + rewrite Hus. unfold used_ids. rewrite ids_plug_leaf. simpl.
      by rewrite (proj2 (ids_plug_branch c t (Managed s1) (Managed s2) Hpos)).
    + rewrite Hrg, Hreg. unfold marks. by rewrite foldr_app.
    + rewrite plug_slots_branch, Hsl. rewrite <-app_assoc. simpl. rewrite Permutation_swap.
      by rewrite !Permutation_middle.
    + by rewrite Ht2.
    + by rewrite Hf2.
  - assert (coalesced (plug (f :: c) x)) as Hco.
    { cbn [plug] in *. apply (coalesced_plug c (fill f z)); [done| |by rewrite fill_not_deletable].
      eapply coalesced_fill; [by eapply coalesced_hole|done|done]. }
    unfold mspec. rewrite ascend_coalesced by done. exists []. by apply shrunk_refl.
Qed.

(** [revoke_and_free] of the block at a hole: the way up from the freed leaf. *)
Lemma revoke_and_free_hole c t (a : Allocator) k (Q : unit → Allocator * K → Prop) :
  length c ≤ 64 → cap_derivation_tree a = plug c (leaf true t) →
  (∀ k', mspec strict (ascend c (leaf false t)) (λ n s', Q tt (with_tree s'.1 n, s'.2))
     (with_leaves a (add_leaf (hole_id c) (leaves a)), k')) →
  mspec strict (revoke_and_free (hole_id c)) Q (a, k).
Proof.
  intros Hc Ht HQ. destruct (hole_bounds c Hc) as (Hd & _ & _).
  unfold revoke_and_free. apply mspec_bind, mspec_gets. simpl. rewrite Ht. apply mspec_bind.
  unfold mspec at 1. rewrite helper_plug by (done || apply hole_id_in).
  apply mspec_bind. unfold leaf at 1. cbn [revoke_and_free_helper].
  rewrite decide_True by (simpl; lia).
  do 3 (apply mspec_bind, mspec_assert; [done|]; intros _).
  apply mspec_bind, mspec_assert; [intros _; by apply bool_decide_eq_true_2|]. intros _.
  apply mspec_bind, mspec_gets. apply mspec_bind, mspec_lift; [intros _; by destruct t; eexists|].
  intros p _. apply mspec_bind, kernel_op_spec; [done|]. intros k'. simpl.
  apply mspec_bind, mspec_lift; [by eexists|]. intros ? [= <-].
  apply mspec_bind, give_leaf_spec, mspec_ret. simpl. fold (leaf false t).
  eapply mspec_mono; [apply HQ|]. intros n s' Hs'. exact Hs'.
Qed.

Lemma revoke_and_free_spec id (a : Allocator) k :
  wf a → id ∈ used_ids (cap_derivation_tree a) →
  mspec strict (revoke_and_free id) (λ _ s', wf s'.1 ∧
    used_ids (cap_derivation_tree a) ≡ₚ id :: used_ids (cap_derivation_tree s'.1) ∧
    given (cap_derivation_tree s'.1) ≡ₚ given (cap_derivation_tree a) ∧
    ∃ old, cregion s'.1 = marks old false (cregion a) ∧
      tree_slots (cap_derivation_tree a) ≡ₚ old ++ tree_slots (cap_derivation_tree s'.1)) (a, k).
Proof.
  intros [Hinv Hco] Hin.
  destruct (ids_path true _ id (inv_tree _ _ _ _ Hinv) Hin) as (c & t & Ht & <- & Hc).
  rewrite Ht in *. apply (revoke_and_free_hole c t); [done|done|]. intros k'.
  eapply mspec_mono.
  { apply (ascend_spec c (leaf false t) (leaf true t)); simpl; [done| |apply coalesced_leaf|done|done].
    by apply inv_release. }
  intros n [a' k2] (old & [Hi Hco' Hgv Hus Hrg Hsl Htr Hfr]). simpl in *. split_and!.
  - by split.
  - rewrite Hus. unfold used_ids. by rewrite !ids_plug_leaf.
  - rewrite Hgv. apply given_leaf.
  - exists old. split; [done|]. rewrite <-Hsl.
    by rewrite !plug_slots, !tree_slots_leaf, (type_slots_consumed true false).
Qed.

(** The way up through the frames of a split merges all of them. *)
Lemma ascend_splits t F t' c (a : Allocator) k (Q : Node → Allocator * K → Prop) :
  splits t F t' → length (F ++ c) ≤ 64 →
  inv [] (plug (F ++ c) (leaf false t')) (cregion a) (leaves a) →
  (∀ a' k', inv [] (plug c (leaf false t)) (cregion a') (leaves a') →
     mspec strict (ascend c (leaf false t)) Q (a', k')) →
  mspec strict (ascend (F ++ c) (leaf false t')) Q (a, k).
Proof.
  intros Hsp. revert c a k. induction Hsp as [t|t s1 s2 F t' Hsp IH]; intros c a k Hlen Hinv HQ.
  { by apply HQ. }
  rewrite <-app_assoc in *. simpl in *. apply IH; [done|done|]. clear a k Hinv. intros a k Hinv.
  assert (length c < 64) by (rewrite length_app in Hlen; simpl in Hlen; lia).
  cbn [ascend fill]. fold (branch t (leaf false (Managed s1)) (leaf false (Managed s2))).
  apply mspec_bind. eapply mspec_mono; [by apply merge_spec|].
  intros n [a1 k1] (-> & _ & _ & _ & Hinv1). by apply HQ.
Qed.

Lemma release_spec c t F t' new (a a1 : Allocator) k :
  wf a → cap_derivation_tree a = plug c (leaf false t) → grown c t a F t' new true a1 →
  mspec strict (revoke_and_free (hole_id (F ++ c)))
    (λ _ s', cap_derivation_tree s'.1 = cap_derivation_tree a) (a1, k).
Proof.
  intros [Hinv Hco] Ht [Hsp Htr Hdep Hreg Hfree Hgv Hsl Hinv1 Hfrag].
  apply (revoke_and_free_hole _ t'); [done|done|]. intros k'.
  apply (ascend_splits t F t' c); [done|done| |].
  - simpl. rewrite Htr in Hinv1. by apply inv_release.
  - intros a' k2 _. unfold mspec. rewrite ascend_coalesced by (by rewrite <-Ht). simpl. done.
Qed.
End release.
