(* ===== verification/AllocatorProps.v ===== *)
(** * AllocatorProps: the allocator over its life

    The builder makes a well-formed allocator from disjoint blocks.  From then on, under any
    sequence of operations and whatever the kernel answers, every state is well formed, the
    blocks in use are disjoint and lie in the blocks that were given, and no space is lost;
    when nothing is in use, the given blocks are whole again. *)

From S2P Require Import Prelude.
From S2P Require Import Sel4.
From S2P Require Import CRegion.
From S2P Require Import Allocator.
From S2P Require Import AllocatorTree.
From S2P Require Import AllocatorSpec.

(** ** The builder *)

(** Trees as [build] makes them: no block is split. *)
Inductive built : nat → Node → Prop :=
| built_inner d l r :
    (∀ n, l = Some n → built d n) → (∀ n, r = Some n → built d n) →
    built (S d) (mkNode Inaccessible l r)
| built_leaf d c : built d (leaf false (BuiltIn c)).

Lemma built_ok d n : built d n → node_ok false d n.
Proof. induction 1; constructor; eauto. done. Qed.

Lemma built_coalesced d n : built d n → coalesced n.
Proof.
  induction 1 as [d l r _ IHl _ IHr|d c]; [|apply coalesced_leaf].
  simpl. split_and!; [done| |]; [destruct l|destruct r]; eauto.
Qed.

Lemma built_slots d n : built d n → tree_slots n = [].
Proof.
  induction 1 as [d l r _ IHl _ IHr|d c]; [|done].
  simpl. destruct l as [l|]; rewrite ?(IHl l) by done; destruct r as [r|]; rewrite ?(IHr r) by done; done.
Qed.

Lemma built_free d low n p : built d n → p ∈ tree_leaves n d low → p.2 = false.
Proof.
  intros Hb. revert low. induction Hb as [d l r _ IHl _ IHr|d c]; intros low.
  - rewrite tree_leaves_split by by left. rewrite elem_of_app. intros [Hp|Hp].
    + destruct l; [by eapply IHl|by apply elem_of_nil in Hp].
    + destruct r; [by eapply IHr|by apply elem_of_nil in Hp].
  - simpl. by intros ->%list_elem_of_singleton.
Qed.

(** A block of a size that divides its address. *)
Definition aligned_at (low : Z) (id : UntypedId) : Prop := ((paddr id - low) mod bytes (size_bits id) = 0)%Z.

Lemma bytes_divide s d : s ≤ d → (bytes d mod bytes s = 0)%Z.
Proof.
  intros Hs. unfold bytes. replace (Z.of_nat d) with (Z.of_nat (d - s) + Z.of_nat s)%Z by lia.
  rewrite Z.pow_add_r by lia. apply Z.mod_mul. lia.
Qed.

Lemma aligned_half d low id :
  size_bits id ≤ d → in_block (S d) low id → aligned_at low id →
  (paddr id < low + bytes d → in_block d low id)%Z ∧
  (low + bytes d ≤ paddr id → in_block d (low + bytes d) id ∧ aligned_at (low + bytes d) id)%Z.
Proof.
  intros Hs (_ & Hlo & Hhi) Hal. rewrite bytes_S in Hhi. pose proof (bytes_pos (size_bits id)).
  pose proof (bytes_divide _ _ Hs) as Hdiv. unfold aligned_at in *.
  apply Z.mod_divide in Hdiv as [q Hq]; [|lia]. apply Z.mod_divide in Hal as [p Hp]; [|lia].
  split.
  - intros Hlt. split_and!; [done|lia|]. assert (p < q)%Z by nia. nia.
  - intros Hge. split; [split_and!; [done|lia|lia]|].
    replace (paddr id - (low + bytes d))%Z with ((p - q) * bytes (size_bits id))%Z by nia.
    apply Z.mod_mul. lia.
Qed.

Lemma in_block_not_disjoint d low id :
  in_block d low id → ¬ disjoint_ids id {| paddr := low; size_bits := d |}.
Proof.
  intros (Hs & Hlo & Hhi). pose proof (bytes_pos (size_bits id)). unfold disjoint_ids. simpl. lia.
Qed.

(** The block of the whole tree, when nothing in the tree overlaps it. *)
Lemma place_here d (o : option Node) low id c :
  size_bits id = d → in_block d low id → (∀ n, o = Some n → built d n) →
  (∀ p, p ∈ opt_list (λ n, tree_leaves n d low) o → disjoint_ids id p.1) →
  tree_leaves (leaf false (BuiltIn c)) d low ≡ₚ (id, false) :: opt_list (λ n, tree_leaves n d low) o.
Proof.
  intros Hd (_ & Hlo & Hhi) Hb Hdis. rewrite Hd in Hhi.
  assert (id = {| paddr := low; size_bits := d |}) as Hid.
  { destruct id; simpl in *; f_equal; [lia|done]. }
  assert (opt_list (λ n, tree_leaves n d low) o = []) as ->; [|by rewrite Hid].
  destruct o as [n|]; [|done]. simpl in *. destruct (tree_leaves n d low) as [|p ps] eqn:Hl; [done|].
  destruct (in_block_not_disjoint d low p.1).
  - eapply tree_leaves_in_block; [apply built_ok; by apply Hb|]. rewrite Hl. constructor.
  - rewrite <-Hid. symmetry. apply Hdis. constructor.
Qed.

Lemma place_spec {E} d (o : option Node) low id c :
  (∀ n, o = Some n → built d n) → in_block d low id → aligned_at low id →
  (0 ≤ low)%Z → (low + bytes d ≤ 2 ^ 64)%Z →
  (∀ p, p ∈ opt_list (λ n, tree_leaves n d low) o → disjoint_ids id p.1) →
  ∃ n', place (E := E) d (default node_new o) low (low + bytes d - 1) id c = Ok n' ∧ built d n' ∧
    tree_leaves n' d low ≡ₚ (id, false) :: opt_list (λ n, tree_leaves n d low) o.
Proof.
  revert o low. induction d as [|d IH]; intros o low Hb Hin Hal Hlow Hhigh Hdis.
  - exists (leaf false (BuiltIn c)). destruct Hin as [Hs0 Hin].
    split_and!; [|constructor|apply place_here; [lia|done|done|done]].
    cbn [place]. by rewrite decide_False, decide_True by lia.
  - destruct (decide (size_bits id = S d)) as [Heq|Hne].
    { exists (leaf false (BuiltIn c)). split_and!; [|constructor|by apply place_here].
      cbn [place]. by rewrite decide_False, decide_True by lia. }
    assert (size_bits id ≤ d) as Hle by (destruct Hin; lia).
    destruct (aligned_half d low id Hle Hin Hal) as [Hleft Hright].
    pose proof (bytes_pos d). rewrite bytes_S in Hhigh.
    assert (∃ l r, default node_new o = mkNode Inaccessible l r ∧
      (∀ n, l = Some n → built d n) ∧ (∀ n, r = Some n → built d n) ∧
      opt_list (λ n, tree_leaves n (S d) low) o =
      opt_list (λ n, tree_leaves n d low) l ++ opt_list (λ n, tree_leaves n d (low + bytes d)%Z) r)
      as (l & r & Ho & Hbl & Hbr & Hlv).
    { destruct o as [n|]; [|by exists None, None]. specialize (Hb n eq_refl).
      inversion Hb as [d' l r Hl Hr|d' c']; subst.
      - exists l, r. split_and!; [done|done|done|]. cbn [opt_list]. by apply tree_leaves_split; left.
      - exfalso. apply (in_block_not_disjoint _ _ _ Hin). apply (Hdis ({| paddr := low; size_bits := S d |}, false)).
        simpl. constructor. }
    rewrite Ho. cbn [place]. rewrite decide_True by lia. rewrite half_addr_block by (rewrite ?bytes_S; lia).
    rewrite Hlv in *. setoid_rewrite elem_of_app in Hdis. case_decide as Hside.
    + destruct (IH l low) as (n' & -> & Hb' & Hl'); [done|by apply Hleft|done|done|lia|eauto|].
      simpl. eexists. split_and!; [done|constructor; [by intros ? [= <-]|done]|].
      rewrite tree_leaves_split by by left. cbn [opt_list]. by rewrite Hl'.
    + destruct Hright as [Hin' Hal']; [lia|].
      destruct (IH r (low + bytes d)%Z) as (n' & Hpl & Hb' & Hl'); [done|done|done|lia|lia|eauto|].
      rewrite bytes_S. replace (low + 2 * bytes d - 1)%Z with (low + bytes d + bytes d - 1)%Z by lia.
      rewrite Hpl. simpl. eexists. split_and!; [done|constructor; [done|by intros ? [= <-]]|].
      rewrite tree_leaves_split by by left. cbn [opt_list]. rewrite Hl'. by rewrite <-Permutation_middle.
Qed.

(** Blocks that a builder may be given: aligned blocks of memory that do not overlap. *)
Definition block_ok (id : UntypedId) : Prop :=
  size_bits id < 64 ∧ (0 ≤ paddr id)%Z ∧ (paddr id + bytes (size_bits id) ≤ 2 ^ 64)%Z ∧ aligned_at 0 id.

Definition builder_blocks (b : AllocatorBuilder) : list UntypedId := untyped_id <$> b_untyped b.

Record builder_ok (b : AllocatorBuilder) : Prop := {
  builder_region : cregion_ok (b_cregion b);
  builder_valid : Forall block_ok (builder_blocks b);
  builder_disjoint : pairwise_disjoint (builder_blocks b);
}.

Record built_ok_alloc (ids : list UntypedId) (a : Allocator) : Prop := {
  ba_tree : built 64 (cap_derivation_tree a);
  ba_leaves : tree_leaves (cap_derivation_tree a) 64 0 ≡ₚ (λ id, (id, false)) <$> ids;
  ba_index : leaf_list (leaves a) ≡ₚ ids;
  ba_ok : leaves_ok (leaves a);
  ba_region : cregion_ok (cregion a);
}.

Lemma build_step_spec {E} ids a u :
  built_ok_alloc ids a → block_ok (untyped_id u) → (∀ i, i ∈ ids → disjoint_ids (untyped_id u) i) →
  ∃ a', build_step (E := E) a u = Ok a' ∧ built_ok_alloc (untyped_id u :: ids) a'.
Proof.
  intros [Htr Hlv Hix Hok Hrg] (Hsz & Hlo & Hhi & Hal) Hdis. unfold build_step.
  pose proof (bytes_pos (size_bits (untyped_id u))).
  rewrite decide_False by lia. rewrite decide_True by (unfold MAX_ADDR; lia).
  destruct (place_spec (E := E) 64 (Some (cap_derivation_tree a)) 0 (untyped_id u) (eu_cptr u))
    as (n' & Hp & Hb & Hl).
  - by intros ? [= <-].
  - split_and!; [lia|lia|]. by rewrite bytes_64.
  - done.
  - done.
  - by rewrite bytes_64.
  - intros p. cbn [opt_list]. rewrite Hlv. intros (i & -> & Hi)%list_elem_of_fmap. by apply Hdis.
  - change (0 + bytes 64 - 1)%Z with MAX_ADDR in Hp.
    change (default node_new (Some (cap_derivation_tree a))) with (cap_derivation_tree a) in Hp.
    unfold mbind, outcome_bind. rewrite Hp. eexists. split; [done|]. split; cbn [cap_derivation_tree leaves cregion].
    + done.
    + rewrite Hl. cbn [opt_list]. by rewrite Hlv.
    + by rewrite add_leaf_list, Hix.
    + by apply add_leaf_ok.
    + done.
Qed.

Lemma build_steps_spec {E} us ids a :
  built_ok_alloc ids a → Forall block_ok (untyped_id <$> us) → pairwise_disjoint ((untyped_id <$> us) ++ ids) →
  ∃ a', build_steps (E := E) us a = Ok a' ∧ built_ok_alloc ((untyped_id <$> us) ++ ids) a'.
Proof.
  revert ids a. induction us as [|u us IH]; intros ids a Ha Hok Hdis; [by exists a|].
  rewrite fmap_cons in Hok, Hdis. apply Forall_cons in Hok as [Hu Hok].
  rewrite <-app_comm_cons, pairwise_disjoint_cons in Hdis. destruct Hdis as [Hdu Hdis].
  destruct (build_step_spec (E := E) ids a u) as (a1 & Hs & Ha1); [done|done| |].
  { intros i Hi. apply Hdu. apply elem_of_app. by right. }
  destruct (IH (untyped_id u :: ids) a1) as (a2 & Hs2 & Ha2); [done|done| |].
  { rewrite <-Permutation_middle, pairwise_disjoint_cons. done. }
  exists a2. cbn [build_steps]. unfold mbind, outcome_bind. rewrite Hs. split; [done|].
  destruct Ha2 as [? Hl Hi ? ?]. rewrite fmap_cons. split; try done.
  - rewrite Hl. apply fmap_Permutation. by rewrite <-Permutation_middle.
  - rewrite Hi. by rewrite <-Permutation_middle.
Qed.

Lemma ids_of_free ids : ids_of false ((λ id, (id, false)) <$> ids) = ids ∧ ids_of true ((λ id, (id, false)) <$> ids) = [].
Proof.
  unfold ids_of. induction ids as [|id ids [IH1 IH2]]; [done|]. 
  rewrite fmap_cons, !filter_cons. rewrite decide_True, decide_False by done.
  split; [by rewrite fmap_cons, IH1|done].
Qed.

Lemma built_given d n low :
  built d n → tree_given n d low ≡ₚ (tree_leaves n d low).*1.
Proof.
  intros Hb. revert low. induction Hb as [d l r _ IHl _ IHr|d c]; intros low; [|done].
  rewrite tree_leaves_split by by left. rewrite fmap_app. simpl. rewrite !Nat.sub_0_r.
  destruct l, r; simpl; rewrite ?IHl, ?IHr by done; done.
Qed.

Lemma build_step_region {E} a0 u a : build_step (E := E) a0 u = Ok a → cregion a = cregion a0.
Proof.
  unfold build_step. generalize (place (E := E) 64 (cap_derivation_tree a0)). intros f.
  case_decide; [done|]. case_decide; [|done].
  by intros (n & _ & [= <-])%outcome_bind_ok.
Qed.

Lemma build_steps_region {E} us a0 a : build_steps (E := E) us a0 = Ok a → cregion a = cregion a0.
Proof.
  revert a0. induction us as [|u us IH]; intros a0; [by intros [= ->]|]. cbn [build_steps].
  intros (a1 & Hs & Hb)%outcome_bind_ok. rewrite (IH a1 Hb). by eapply build_step_region.
Qed.

(** The builder succeeds, and gives a well-formed allocator with all blocks free. *)
Lemma build_spec {E} b :
  builder_ok b → ∃ a, build (E := E) b = Ok a ∧ wf a ∧
    given (cap_derivation_tree a) ≡ₚ builder_blocks b ∧ used_ids (cap_derivation_tree a) = [] ∧
    cregion a = b_cregion b.
Proof.
  intros [Hrg Hval Hdis]. unfold build.
  destruct (build_steps_spec (E := E) (b_untyped b) []
    {| cregion := b_cregion b; fragmentation_threshold_size_bits := b_fragmentation_threshold_size_bits b;
       cap_derivation_tree := node_new; leaves := leaf_new |}) as (a & Hb & [Htr Hlv Hix Hok Hrg']).
  - split; try done. by constructor.
  - done.
  - by rewrite app_nil_r.
  - rewrite app_nil_r in *. exists a. fold (builder_blocks b) in *.
    destruct (ids_of_free (builder_blocks b)) as [Hf Hu].
    assert (used_ids (cap_derivation_tree a) = []) as Hused.
    { unfold used_ids. apply Permutation_nil. symmetry. rewrite Hlv. by rewrite Hu. }
    split_and!; [done|split; [split; try done|]|..].
    + by apply built_ok.
    + unfold free_ids. rewrite Hlv, Hix. by rewrite Hf.
    + rewrite (built_slots 64) by done. constructor.
    + intros s. rewrite (built_slots 64) by done. by intros ?%elem_of_nil.
    + by eapply built_coalesced.
    + unfold given. rewrite built_given by done. rewrite Hlv. rewrite <-list_fmap_compose.
      by rewrite (list_fmap_ext _ id), list_fmap_id by done.
    + done.
    + by rewrite (build_steps_region _ _ _ Hb).
Qed.

(** ** What a well-formed tree says about space *)
Definition space (ids : list UntypedId) : Z := foldr (λ id acc, (bytes (size_bits id) + acc)%Z) 0%Z ids.

Lemma space_app l1 l2 : space (l1 ++ l2) = (space l1 + space l2)%Z.
Proof. induction l1 as [|id l1 IH]; simpl; lia. Qed.
#[global] Instance space_proper : Proper ((≡ₚ) ==> (=)) space.
Proof. intros l1 l2 Hp. induction Hp; simpl; lia. Qed.

Lemma managed_given d n low : node_ok true d n → tree_given n d low = [].
Proof.
  intros Hn. remember true as m eqn:Hm. revert low Hm.
  induction Hn as [d l r _ _ _ _|m d c a Ha|m d a l r Ha _ IHl _ IHr]; intros low Hm; subst; [done| |];
    destruct a; try done. simpl. rewrite !Nat.sub_0_r. by rewrite IHl, IHr.
Qed.

Lemma accessible_given d n low :
  node_ok false d n → is_accessible n = true → tree_given n d low = [{| paddr := low; size_bits := d |}].
Proof.
  intros Hn. inversion Hn as [|m d' c a Ha|m d' a l r Ha Hl Hr]; subst; [done| |]; intros _; destruct a; try done.
  simpl. rewrite !Nat.sub_0_r. by rewrite !managed_given by done.
Qed.

Lemma leaves_space m d n low :
  node_ok m d n → is_accessible n = true → space (tree_leaves n d low).*1 = bytes d.
Proof.
  intros Hn. revert low. induction Hn as [d l r _ _ _ _|m d c a Ha|m d a l r Ha Hl IHl Hr IHr]; intros low Hacc; [done| |].
  - simpl. lia.
  - assert (∀ x, node_ok true d x → is_accessible x = true) as Hx by (by inversion 1).
    rewrite tree_leaves_split by (right; left; by eexists). cbn [opt_list].
    rewrite fmap_app, space_app, IHl, IHr, bytes_S by auto. lia.
Qed.

Lemma given_space d n low : node_ok false d n → space (tree_leaves n d low).*1 = space (tree_given n d low).
Proof.
  intros Hn. remember false as m eqn:Hm. revert low Hm.
  induction Hn as [d l r Hl IHl Hr IHr|m d c a Ha|m d a l r Ha Hl _ Hr _]; intros low Hm; subst.
  - rewrite tree_leaves_split by by left. rewrite fmap_app, space_app. simpl. rewrite !Nat.sub_0_r, space_app.
    destruct l as [l|], r as [r|]; cbn [opt_list]; rewrite ?(IHl l), ?(IHr r) by done; done.
  - rewrite (leaves_space false), accessible_given by (by constructor || done). simpl. lia.
  - rewrite (leaves_space false), accessible_given by (by constructor || done). simpl. lia.
Qed.

Lemma leaf_in_given d n low p :
  node_ok false d n → p ∈ tree_leaves n d low →
  ∃ g, g ∈ tree_given n d low ∧ in_block (size_bits g) (paddr g) p.1.
Proof.
  intros Hn. remember false as m eqn:Hm. revert low Hm.
  induction Hn as [d l r Hl IHl Hr IHr|m d c a Ha|m d a l r Ha Hl _ Hr _]; intros low Hm Hp; subst.
  - rewrite tree_leaves_split in Hp by by left. simpl. rewrite !Nat.sub_0_r.
    apply elem_of_app in Hp as [Hp|Hp].
    + destruct l as [l|]; [|by apply elem_of_nil in Hp]. destruct (IHl l eq_refl low eq_refl Hp) as (g & ? & ?).
      exists g. set_solver.
    + destruct r as [r|]; [|by apply elem_of_nil in Hp]. destruct (IHr r eq_refl _ eq_refl Hp) as (g & ? & ?).
      exists g. set_solver.
  - rewrite accessible_given by (by constructor || done). eexists. split; [constructor|].
    eapply tree_leaves_in_block; [|done]. by constructor.
  - rewrite accessible_given by (by constructor || done). eexists. split; [constructor|].
    eapply tree_leaves_in_block; [|done]. by constructor.
Qed.

(** A coalesced block of which nothing is used is whole. *)
Lemma unused_whole m d n low :
  node_ok m d n → is_accessible n = true → coalesced n → (∀ p, p ∈ tree_leaves n d low → p.2 = false) →
  ∃ t, n = leaf false t.
Proof.
  intros Hn. revert low. induction Hn as [d l r _ _ _ _|m d c a Ha|m d a l r Ha Hl IHl Hr IHr]; intros low Hacc Hco Hun; [done| |].
  - exists a. assert (c = false) as ->; [|done].
    apply (Hun ({| paddr := low; size_bits := d |}, c)). simpl. constructor.
  - rewrite tree_leaves_split in Hun by (right; left; by eexists). cbn [opt_list] in Hun.
    assert (∀ x, node_ok true d x → is_accessible x = true) as Hx by (by inversion 1).
    destruct Hco as (Hm & Hcl & Hcr).
    destruct (IHl low) as [t1 ->]; [auto|done|intros p Hp; apply Hun, elem_of_app; by left|].
    destruct (IHr (low + bytes d)%Z) as [t2 ->]; [auto|done|intros p Hp; apply Hun, elem_of_app; by right|].
    destruct Hm as [? ?]; done.
Qed.

Lemma unused_given d n low :
  node_ok false d n → coalesced n → (∀ p, p ∈ tree_leaves n d low → p.2 = false) →
  (tree_leaves n d low).*1 ≡ₚ tree_given n d low.
Proof.
  intros Hn. remember false as m eqn:Hm. revert low Hm.
  induction Hn as [d l r Hl IHl Hr IHr|m d c a Ha|m d a l r Ha Hl _ Hr _]; intros low Hm Hco Hun; subst.
  - rewrite tree_leaves_split in * by by left. rewrite fmap_app. simpl. rewrite !Nat.sub_0_r.
    destruct Hco as (_ & Hcl & Hcr). f_equiv.
    + destruct l as [l|]; [|done]. apply IHl; [done|done|done|]. intros p Hp. apply Hun, elem_of_app. by left.
    + destruct r as [r|]; [|done]. apply IHr; [done|done|done|]. intros p Hp. apply Hun, elem_of_app. by right.
  - by destruct a.
  - destruct (unused_whole false (S d) (mkNode (Accessible false a) (Some l) (Some r)) low) as [t Ht];
      [by constructor|done|done|done|done].
Qed.

Lemma ids_of_split ls : ls.*1 ≡ₚ ids_of true ls ++ ids_of false ls.
Proof.
  unfold ids_of. induction ls as [|[id b] ls IH]; [done|]. rewrite !filter_cons. destruct b; simpl.
  - by rewrite IH.
  - rewrite <-Permutation_middle. by rewrite IH.
Qed.

(** ** The life of an allocator *)
Section life.
Context {K : Type} `{!Sel4 K}.
Implicit Types (a : Allocator) (s : Allocator * K).

(** [revoke_and_free] returns only for a block that is in use: its assertions check it. *)
Lemma helper_used m d n low id s n' s' :
  node_ok m d n → d ≤ 64 → (0 ≤ low)%Z → (low + bytes d ≤ 2 ^ 64)%Z →
  revoke_and_free_helper n low (low + bytes d - 1) (64 - d) id s = (Ok n', s') →
  (id, true) ∈ tree_leaves n d low.
Proof.
  intros Hn. revert low s n' s'.
  assert (∀ d low n s n' s', d ≤ 64 → 64 - d + size_bits id = 64 →
    revoke_and_free_helper n low (low + bytes d - 1) (64 - d) id s = (Ok n', s') →
    ∃ t, n = leaf true t ∧ id = {| paddr := low; size_bits := d |}) as Hhere.
  { clear. intros d low n s n' s' Hd Hsz Hrun. destruct n as [t l r]. cbn [revoke_and_free_helper] in Hrun.
    rewrite decide_True in Hrun by done. ok_inv.
    destruct t as [|c t]; [done|]. destruct c; [|done]. destruct l, r; try done. exists t. split; [done|].
    match goal with H : bool_decide _ = true |- _ => apply bool_decide_eq_true in H; subst low end.
    destruct id. simpl in *. f_equal. lia. }
  induction Hn as [d l r Hl IHl Hr IHr|m d c a Ha|m d a l r Ha Hl IHl Hr IHr];
    intros low s n' s' Hd Hlo Hhi Hrun.
  - destruct (decide (64 - S d + size_bits id = 64)) as [Hsz|Hsz].
    { by destruct (Hhere (S d) _ _ _ _ _ Hd Hsz Hrun) as (t & ? & _). }
    cbn [revoke_and_free_helper] in Hrun. rewrite decide_False in Hrun by done.
    rewrite half_addr_block in Hrun by done. rewrite tree_leaves_split by by left. rewrite bytes_S in *.
    pose proof (bytes_pos d). replace (64 - S d + 1) with (64 - d) in Hrun by lia.
    ok_inv. case_decide; destruct l as [l|], r as [r|]; ok_inv; try done; apply elem_of_app.
    + left. eapply (IHl l); [done|lia|done|lia|done].
    + left. eapply (IHl l); [done|lia|done|lia|done].
    + right. eapply (IHr r); [done|lia|lia|lia|].
      by replace (low + 2 * bytes d - 1)%Z with (low + bytes d + bytes d - 1)%Z in * by lia.
    + right. eapply (IHr r); [done|lia|lia|lia|].
      by replace (low + 2 * bytes d - 1)%Z with (low + bytes d + bytes d - 1)%Z in * by lia.
  - destruct (decide (64 - d + size_bits id = 64)) as [Hsz|Hsz].
    { destruct (Hhere d _ _ _ _ _ Hd Hsz Hrun) as (t & Ht & ->). unfold leaf in Ht. simplify_eq. simpl. constructor. }
    cbn [revoke_and_free_helper] in Hrun. rewrite decide_False in Hrun by done. ok_inv.
    case_decide; ok_inv.
  - destruct (decide (64 - S d + size_bits id = 64)) as [Hsz|Hsz].
    { by destruct (Hhere (S d) _ _ _ _ _ Hd Hsz Hrun) as (t & ? & _). }
    cbn [revoke_and_free_helper] in Hrun. rewrite decide_False in Hrun by done.
    rewrite half_addr_block in Hrun by done.
    rewrite tree_leaves_split by (right; left; by eexists). cbn [opt_list]. rewrite bytes_S in *.
    pose proof (bytes_pos d). replace (64 - S d + 1) with (64 - d) in Hrun by lia.
    ok_inv. case_decide; ok_inv; apply elem_of_app.
    + left. eapply IHl; [lia|done|lia|done].
    + right. eapply IHr; [lia|lia|lia|].
      by replace (low + 2 * bytes d - 1)%Z with (low + bytes d + bytes d - 1)%Z in * by lia.
Qed.

Lemma revoke_and_free_used a k id s' :
  wf a → revoke_and_free id (a, k) = (Ok tt, s') → id ∈ used_ids (cap_derivation_tree a).
Proof.
  intros [Hinv _] Hrun. unfold revoke_and_free in Hrun. ok_inv. apply elem_of_ids.
  unfold get, gets in *. ok_inv. simplify_eq/=.
  eapply (helper_used false 64 _ 0); [by apply Hinv|done|done|done|].
  by change (0 + bytes 64 - 1)%Z with MAX_ADDR.
Qed.

Lemma wf_mark a sl : wf a → slot_free (cregion a) sl → wf (with_cregion a (mark sl true (cregion a))).
Proof.
  intros [[Ht Hi Hl Hc Hn Hu] Hco] Hf. split; [|done]. split; try done; simpl.
  - apply mark_ok; [done|by eexists].
  - intros s Hs. apply mark_used_other; [|by apply Hu]. intros ->.
    by eapply slot_used_not_free; [apply Hu|].
Qed.

Lemma wf_unmark a sl :
  wf a → slot_used (cregion a) sl → sl ∉ tree_slots (cap_derivation_tree a) →
  wf (with_cregion a (mark sl false (cregion a))).
Proof.
  intros [[Ht Hi Hl Hc Hn Hu] Hco] Hf Hsl. split; [|done]. split; try done; simpl.
  - apply mark_ok; [done|by eexists].
  - intros s Hs. apply mark_used_other; [|by apply Hu]. by intros ->.
Qed.

(** What an operation that creates objects does: [ids] are in use now, the slots of [new]
    are taken, and nothing else changes. *)
Record evolves (a : Allocator) (ids : list UntypedId) (new : list Slot) (a' : Allocator) : Prop := {
  ev_wf : wf a';
  ev_used : used_ids (cap_derivation_tree a') ≡ₚ ids ++ used_ids (cap_derivation_tree a);
  ev_given : given (cap_derivation_tree a') ≡ₚ given (cap_derivation_tree a);
  ev_free : Forall (slot_free (cregion a)) new;
  ev_region : ∀ sl, elements (set (cregion a')) !! sl =
    if decide (sl ∈ new) then Some true else elements (set (cregion a)) !! sl;
  ev_slots : ∀ sl, sl ∈ tree_slots (cap_derivation_tree a') → sl ∈ new ∨ sl ∈ tree_slots (cap_derivation_tree a);
}.

Lemma evolves_refl a : wf a → evolves a [] [] a.
Proof. intros Hwf. split; try done. by right. Qed.

Lemma evolves_trans a1 ids1 new1 a2 ids2 new2 a3 :
  evolves a1 ids1 new1 a2 → evolves a2 ids2 new2 a3 → evolves a1 (ids2 ++ ids1) (new2 ++ new1) a3.
Proof.
  intros [Hw1 Hu1 Hg1 Hf1 Hr1 Hs1] [Hw2 Hu2 Hg2 Hf2 Hr2 Hs2]. split; [done| | | | |].
  - by rewrite Hu2, Hu1, app_assoc.
  - by rewrite Hg2.
  - apply Forall_app. split; [|done]. eapply Forall_impl; [exact Hf2|].
    intros sl. unfold slot_free. rewrite Hr1. by case_decide.
  - intros sl. rewrite Hr2, Hr1. repeat case_decide; set_solver.
  - intros sl Hsl. apply Hs2 in Hsl as [?|Hsl]; [set_solver|]. apply Hs1 in Hsl as [?|?]; set_solver.
Qed.

Lemma grown_evolves c t a F t' new a' :
  wf a → cap_derivation_tree a = plug c (leaf false t) → grown c t a F t' new true a' →
  evolves a [hole_id (F ++ c)] new a'.
Proof.
  intros Hwf Ht Hg. pose proof Hg as [Hsp Htr Hdep Hreg Hfree Hgv Hsl Hinv Hfrag]. split.
  - by eapply grown_wf.
  - by eapply grown_used.
  - by rewrite Hgv, Ht.
  - done.
  - intros sl. by rewrite Hreg, marks_lookup.
  - intros sl. rewrite Hsl, Ht, elem_of_app. done.
Qed.

Section specs.
Context (strict : bool) (Hacc : strict = true → accepts (K := K)).

Lemma create_object_evolves dst slot bp a (k : K) :
  wf a →
  (strict = true → ∃ id0, id0 ∈ free_ids (cap_derivation_tree a) ∧
     physical_size_bits bp ≤ size_bits id0 ∧
     2 * (size_bits id0 - physical_size_bits bp) ≤ slots_left (cregion a)) →
  mspec strict (create_object dst slot bp) (λ id s',
    size_bits id = physical_size_bits bp ∧ ∃ new, evolves a [id] new s'.1) (a, k).
Proof.
  intros Hwf Hs. eapply mspec_mono; [by apply create_object_spec|].
  intros id s' (c & t & F & t' & new & Ht & Hc & -> & Hsz & Hg). split; [done|].
  exists new. by eapply grown_evolves.
Qed.

Lemma create_cnode_spec rx a (k : K) :
  wf a →
  (strict = true → ∃ id0, id0 ∈ free_ids (cap_derivation_tree a) ∧
     physical_size_bits (BpCNode rx) ≤ size_bits id0 ∧
     2 + 2 * (size_bits id0 - physical_size_bits (BpCNode rx)) ≤ slots_left (cregion a)) →
  mspec strict (create_cnode rx) (λ r s', ∃ new,
    size_bits r.1.2 = physical_size_bits (BpCNode rx) ∧ cregion_ok r.1.1 ∧ radix r.1.1 = rx ∧
    (∀ sl, sl < 2 ^ rx → slot_free r.1.1 sl) ∧
    evolves a [r.1.2] (new ++ [r.2]) s'.1 ∧ r.2 ∉ tree_slots (cap_derivation_tree s'.1)) (a, k).
Proof.
  intros Hwf Hs. unfold create_cnode.
  apply mspec_bind, alloc_slot_spec; [intros Ht; destruct (Hs Ht) as (? & _ & _ & ?); lia|].
  intros rs Hrs Hl1. pose proof (wf_mark a rs Hwf Hrs) as Hwf1.
  apply mspec_bind, mspec_gets.
  edestruct (@cregion_new_ok Error) as (cr & Hnew & Hroot & Hgs & Hrx & Hok & Hfree).
  apply mspec_bind, mspec_lift; [by eexists|]. rewrite Hnew. intros ? [= <-].
  apply mspec_bind, alloc_slot_spec; simpl.
  { intros Ht. destruct (Hs Ht) as (? & _ & _ & ?). lia. }
  intros ts Hts Hl2. apply mspec_bind, mspec_gets.
  assert (wf (with_cregion a (mark ts true (mark rs true (cregion a))))) as Hwf2.
  { by apply (wf_mark (with_cregion a (mark rs true (cregion a)))). }
  assert (ts ≠ rs ∧ slot_free (cregion a) ts) as [Hne Hts'].
  { unfold slot_free in *. rewrite mark_lookup in Hts. by case_decide. }
  apply mspec_bind. eapply mspec_mono.
  { apply create_object_evolves; [done|]. intros Ht. destruct (Hs Ht) as (id0 & Hin & Hle & Hsl).
    exists id0. simpl in *. split_and!; [done|done|]. lia. }
  intros id [a1 k1] (Hsz & new & [Hw Hu Hg Hf Hr Hsl]). simpl in *.
  apply mspec_bind, kernel_op_spec; [done|]. intros k2.
  apply mspec_bind, kernel_op_spec; [done|]. intros k3. simpl.
  rewrite Forall_forall in Hf. unfold slot_free in Hf. setoid_rewrite mark_lookup in Hf.
  assert (∀ sl, sl ∈ new → sl ≠ ts ∧ sl ≠ rs ∧ slot_free (cregion a) sl) as Hnew'.
  { intros sl Hin. specialize (Hf sl Hin). rewrite mark_lookup in Hf. by repeat case_decide. }
  assert (∀ sl, sl ∈ tree_slots (cap_derivation_tree a) → slot_used (cregion a) sl) as Hu0 by apply Hwf.
  apply mspec_bind, free_slot_spec.
  { unfold slot_used. rewrite Hr. rewrite !mark_lookup. repeat case_decide; done. }
  apply mspec_ret. simpl. exists new. split_and!; [done|done|done|by rewrite <-Hrx in *|split; simpl|].
  - apply wf_unmark; [done| |].
    + unfold slot_used. rewrite Hr. rewrite !mark_lookup. repeat case_decide; done.
    + intros [Hin|Hin]%Hsl; [by apply Hnew' in Hin as [? _]|]. eapply slot_used_not_free; [by apply Hu0|done].
  - done.
  - done.
  - apply Forall_app. split; [|by repeat constructor]. apply Forall_forall. intros sl Hin. by apply Hnew'.
  - intros sl. rewrite mark_lookup, Hr, !mark_lookup. pose proof (Hnew' sl).
    destruct (decide (sl = ts)) as [->|]; [rewrite decide_False by set_solver; done|].
    destruct (decide (sl ∈ new)); [by rewrite decide_True by set_solver|].
    destruct (decide (sl = rs)) as [->|]; [by rewrite decide_True by set_solver|].
    by rewrite decide_False by set_solver.
  - intros sl [Hin|Hin]%Hsl; set_solver.
  - intros [Hin|Hin]%Hsl; [by apply Hnew' in Hin as (_ & ? & _)|].
    eapply slot_used_not_free; [by apply Hu0|done].
Qed.
End specs.

Lemma create_objects_spec cr bps a (k : K) :
  wf a →
  mspec false (create_objects cr bps) (λ r s', ∃ new,
    Forall2 (λ bp id, size_bits id = physical_size_bits bp) bps r.2 ∧ length r.1.2 = length bps ∧
    evolves a (reverse r.2) new s'.1) (a, k).
Proof.
  revert cr a k. induction bps as [|bp bps IH]; intros cr a k Hwf; cbn [create_objects].
  { apply mspec_ret. exists []. split_and!; [done|done|by apply evolves_refl]. }
  apply mspec_bind, mspec_lift; [done|]. intros [o cr1] _.
  apply mspec_bind, mspec_lift; [done|]. intros slot _. apply mspec_bind.
  eapply mspec_mono; [by apply (create_object_evolves false)|].
  intros id [a1 k1] (Hsz & new1 & Hev1). simpl in *.
  apply mspec_bind. eapply mspec_mono; [apply IH; by apply Hev1|].
  intros [[cr2 slots] ids] [a2 k2] (new2 & HF & Hlen & Hev2). simpl in *.
  apply mspec_ret. simpl. exists (new2 ++ new1). split_and!; [by constructor|by rewrite Hlen|].
  rewrite reverse_cons. by eapply evolves_trans.
Qed.
End life.

(** ** The space that [peek_space] compares *)
Lemma space_same k ids : Forall (λ id, size_bits id = k) ids → space ids = (bytes k * Z.of_nat (length ids))%Z.
Proof. induction 1 as [|id ids Hid _ IH]; cbn [space foldr length]; [lia|]. fold (space ids). rewrite IH, Hid. lia. Qed.

Lemma shl_bytes k : word_shl 64 1 (Z.of_nat k) = (bytes k mod 2 ^ 64)%Z.
Proof. unfold word_shl. rewrite Z.land_ones, Z.shiftl_1_l by lia. done. Qed.

Lemma consumable_space_mod l : leaves_ok l → consumable_space l = (space (leaf_list l) mod 2 ^ 64)%Z.
Proof.
  destruct l as [m]. unfold consumable_space. cbn [leaf_nodes].
  apply (map_fold_weak_ind (λ r m, leaves_ok {| leaf_nodes := m |} →
    r = (space (leaf_list {| leaf_nodes := m |}) mod 2 ^ 64)%Z)); [done|].
  clear m. intros k ids m r Hk IH Hok.
  assert (leaves_ok {| leaf_nodes := m |}) as Hok'.
  { intros k' ids' Hk'. apply Hok. cbn [leaf_nodes] in *. rewrite lookup_insert_ne; [done|congruence]. }
  rewrite IH by done. destruct (Hok k ids) as [_ Hall]; [apply lookup_insert_eq|].
  rewrite leaf_list_insert, space_app, (space_same k ids Hall) by done.
  unfold word_cast. rewrite Z.land_ones, shl_bytes by lia.
  rewrite Zplus_mod_idemp_l, (Z.add_comm _ (_ * _)), <-Zplus_mod_idemp_l, Zmult_mod_idemp_l, Zplus_mod_idemp_l.
  done.
Qed.

(** The space of [counts !! i] blocks of size [size + i] for every [i]. *)
Fixpoint needed (size : nat) (counts : list nat) : Z :=
  match counts with [] => 0 | n :: rest => bytes size * Z.of_nat n + needed (S size) rest end%Z.

Lemma required_space_mod size counts acc :
  (0 ≤ acc < 2 ^ 64)%Z → required_space size counts acc = ((acc + needed size counts) mod 2 ^ 64)%Z.
Proof.
  revert size acc. induction counts as [|n counts IH]; intros size acc Hacc; cbn [required_space needed].
  { rewrite Z.add_0_r. by rewrite Z.mod_small. }
  unfold word_cast. rewrite Z.land_ones by lia.
  rewrite IH by (apply Z.mod_pos_bound; lia). rewrite shl_bytes.
  rewrite Zplus_mod_idemp_l, Z.add_assoc.
  rewrite (Z.add_comm acc), (Z.add_comm acc). rewrite <-!Z.add_assoc.
  by rewrite <-Zplus_mod_idemp_l, Zmult_mod_idemp_l, Zplus_mod_idemp_l.
Qed.

Lemma needed_pos size counts : (0 ≤ needed size counts)%Z.
Proof.
  revert size. induction counts as [|n counts IH]; intros size; cbn [needed]; [done|].
  specialize (IH (S size)). pose proof (bytes_pos size). nia.
Qed.
Lemma space_pos ids : (0 ≤ space ids)%Z.
Proof. induction ids as [|id ids IH]; cbn [space foldr]; [done|]. fold (space ids). pose proof (bytes_pos (size_bits id)). lia. Qed.

Lemma unused_index a :
  wf a → used_ids (cap_derivation_tree a) = [] → leaf_list (leaves a) ≡ₚ given (cap_derivation_tree a).
Proof.
  intros [Hinv Hco] Hu. pose proof (inv_tree _ _ _ _ Hinv) as Hok.
  assert (∀ p, p ∈ tree_leaves (cap_derivation_tree a) 64 0 → p.2 = false) as Hf.
  { intros [id []] Hp; [|done]. apply elem_of_ids in Hp. fold (used_ids (cap_derivation_tree a)) in Hp.
    rewrite Hu in Hp. by apply elem_of_nil in Hp. }
  pose proof (unused_given 64 _ 0 Hok Hco Hf) as Hp. fold (given (cap_derivation_tree a)) in Hp.
  rewrite ids_of_split in Hp. fold (used_ids (cap_derivation_tree a)) in Hp.
  fold (free_ids (cap_derivation_tree a)) in Hp. rewrite Hu in Hp. cbn [app] in Hp.
  by rewrite <-Hp, (inv_index _ _ _ _ Hinv).
Qed.

(** ** Reachable allocators *)
Section reachable.
Context {K : Type} `{!Sel4 K}.

(** The states of an allocator that was built, between calls of its operations that returned;
    the kernel does anything in between. *)
Inductive alloc_reachable (b : AllocatorBuilder) : Allocator * K → Prop :=
| ar_build a k : build (E := Error) b = Ok a → alloc_reachable b (a, k)
| ar_create_cnode s rx r s' :
    alloc_reachable b s → create_cnode rx s = (Ok r, s') → alloc_reachable b s'
| ar_create_objects s cr bps r s' :
    alloc_reachable b s → create_objects cr bps s = (Ok r, s') → alloc_reachable b s'
| ar_revoke_and_free s id s' :
    alloc_reachable b s → revoke_and_free id s = (Ok tt, s') → alloc_reachable b s'
| ar_kernel a k k' : alloc_reachable b (a, k) → alloc_reachable b (a, k').

Lemma alloc_reachable_inv b s :
  builder_ok b → alloc_reachable b s →
  wf s.1 ∧ given (cap_derivation_tree s.1) ≡ₚ builder_blocks b.
Proof.
  intros Hb Hr. induction Hr as [a k Ha|[a k] rx r s' _ [Hwf Hg] Hrun|[a k] cr bps r s' _ [Hwf Hg] Hrun
    |[a k] id s' _ [Hwf Hg] Hrun|]; [| | | |by apply IHHr].
  - destruct (build_spec (E := Error) b Hb) as (a' & Ha' & Hwf & Hg & _). rewrite Ha in Ha'. injection Ha' as <-. by split.
  - assert (false = true → accepts (K := K)) as Hn by done.
    pose proof (create_cnode_spec false Hn rx a k Hwf) as Hs. specialize (Hs ltac:(intros [=])).
    apply (mspec_ok _ _ _ _ _ _ Hs) in Hrun as (new & _ & _ & _ & _ & Hev & _).
    split; [apply Hev|]. by rewrite (ev_given _ _ _ _ Hev).
  - pose proof (create_objects_spec cr bps a k Hwf) as Hs.
    apply (mspec_ok _ _ _ _ _ _ Hs) in Hrun as (new & _ & _ & Hev).
    split; [apply Hev|]. by rewrite (ev_given _ _ _ _ Hev).
  - assert (false = true → accepts (K := K)) as Hn by done.
    pose proof (revoke_and_free_used _ _ _ _ Hwf Hrun) as Hin.
    pose proof (revoke_and_free_spec false Hn id a k Hwf Hin) as Hs.
    apply (mspec_ok _ _ _ _ _ _ Hs) in Hrun as (Hwf' & _ & Hg' & _).
    split; [done|]. by rewrite Hg'.
Qed.

(** A run of the allocator, with the blocks that its operations have returned to their callers and
    that have not been freed since. *)
Inductive alloc_run (b : AllocatorBuilder) : Allocator * K → list UntypedId → Prop :=
| run_build a k : build (E := Error) b = Ok a → alloc_run b (a, k) []
| run_create_cnode s live rx cr id slot s' :
    alloc_run b s live → create_cnode rx s = (Ok (cr, id, slot), s') → alloc_run b s' (id :: live)
| run_create_objects s live cr bps cr' slots ids s' :
    alloc_run b s live → create_objects cr bps s = (Ok (cr', slots, ids), s') → alloc_run b s' (ids ++ live)
| run_revoke_and_free s live id s' :
    alloc_run b s live → revoke_and_free id s = (Ok tt, s') → alloc_run b s' (base.filter (λ i, i ≠ id) live)
| run_kernel a k k' live : alloc_run b (a, k) live → alloc_run b (a, k') live.

Lemma alloc_run_reachable b s live : alloc_run b s live → alloc_reachable b s.
Proof.
  induction 1; [by apply ar_build|by eapply ar_create_cnode|by eapply ar_create_objects
    |by eapply ar_revoke_and_free|by eapply ar_kernel].
Qed.

Lemma reachable_disjoint b s : builder_ok b → alloc_reachable b s →
  pairwise_disjoint (used_ids (cap_derivation_tree s.1) ++ free_ids (cap_derivation_tree s.1)).
Proof.
  intros Hb Hr. destruct (alloc_reachable_inv b s Hb Hr) as [[Hinv _] _].
  unfold used_ids, free_ids. rewrite <-ids_of_split. apply (tree_leaves_disjoint false), Hinv.
Qed.

(** What was returned and not freed is what the tree says is in use. *)
Lemma alloc_run_live b s live : builder_ok b → alloc_run b s live → live ≡ₚ used_ids (cap_derivation_tree s.1).
Proof.
  intros Hb Hr. assert (false = true → accepts (K := K)) as Hn by done.
  induction Hr as [a k Ha|[a k] live rx cr id slot s' Hr IH Hrun|[a k] live cr bps cr' slots ids s' Hr IH Hrun
    |[a k] live id s' Hr IH Hrun|a k k' live Hr IH]; [| | | |done].
  { destruct (build_spec (E := Error) b Hb) as (a' & Ha' & _ & _ & Hu & _). rewrite Ha in Ha'.
    injection Ha' as <-. simpl. by rewrite Hu. }
  all: destruct (alloc_reachable_inv b _ Hb (alloc_run_reachable _ _ _ Hr)) as [Hwf _]; simpl in Hwf, IH.
  - pose proof (create_cnode_spec false Hn rx a k Hwf) as Hs. specialize (Hs ltac:(intros [=])).
    apply (mspec_ok _ _ _ _ _ _ Hs) in Hrun as (new & _ & _ & _ & _ & Hev & _).
    by rewrite (ev_used _ _ _ _ Hev), IH.
  - pose proof (create_objects_spec cr bps a k Hwf) as Hs.
    apply (mspec_ok _ _ _ _ _ _ Hs) in Hrun as (new & _ & _ & Hev). simpl in Hev.
    by rewrite (ev_used _ _ _ _ Hev), IH, reverse_Permutation.
  - pose proof (revoke_and_free_used _ _ _ _ Hwf Hrun) as Hin.
    pose proof (revoke_and_free_spec false Hn id a k Hwf Hin) as Hs.
    apply (mspec_ok _ _ _ _ _ _ Hs) in Hrun as (_ & Hu & _).
    pose proof (reachable_disjoint b _ Hb (alloc_run_reachable _ _ _ Hr)) as Hdis. simpl in Hdis.
    rewrite Hu in Hdis. cbn [app] in Hdis. rewrite pairwise_disjoint_cons in Hdis. destruct Hdis as [Hdis _].
    rewrite IH, Hu, filter_cons_False by naive_solver.
    rewrite filter_all; [done|]. intros i Hi ->. eapply (disjoint_ids_irrefl id), Hdis. set_solver.
Qed.
End reachable.

(** ** Theorems *)
Section theorems.
Context {K : Type} `{!Sel4 K}.



(** [peek_space] is exact about total space.  In every reachable state it answers whether
    the objects asked for fit, by their sizes, in what was given less what is in use, without
    overflow of the 64-bit sums, when the totals themselves are below [2^64]. *)
Lemma peek_space_exact b (s : Allocator * K) counts :
  builder_ok b → alloc_reachable b s →
  (space (builder_blocks b) < 2 ^ 64)%Z → (needed 0 counts < 2 ^ 64)%Z →
  peek_space counts s.1 =
  bool_decide (needed 0 counts ≤ space (builder_blocks b) - space (used_ids (cap_derivation_tree s.1)))%Z.
Proof.
  intros Hb Hr Hsp Hnd. destruct (alloc_reachable_inv b s Hb Hr) as [[Hinv _] Hg].
  pose proof (given_space 64 _ 0 (inv_tree _ _ _ _ Hinv)) as Htot. fold (given (cap_derivation_tree s.1)) in Htot.
  rewrite Hg, ids_of_split, space_app in Htot.
  fold (used_ids (cap_derivation_tree s.1)) in Htot. fold (free_ids (cap_derivation_tree s.1)) in Htot.
  rewrite (inv_index _ _ _ _ Hinv) in Htot. cbn [app] in Htot.
  pose proof (space_pos (used_ids (cap_derivation_tree s.1))).
  pose proof (space_pos (leaf_list (leaves s.1))). pose proof (needed_pos 0 counts).
  unfold peek_space. rewrite consumable_space_mod by apply Hinv. rewrite required_space_mod by lia.
  rewrite !Z.mod_small by lia. apply bool_decide_ext. lia.
Qed.

(** Released memory is whole again.  When no object is in use, the free blocks are exactly
    the blocks that the allocator was given: no fragmentation remains. *)
Lemma unused_allocator_whole b (s : Allocator * K) :
  builder_ok b → alloc_reachable b s → used_ids (cap_derivation_tree s.1) = [] →
  leaf_list (leaves s.1) ≡ₚ builder_blocks b.
Proof.
  intros Hb Hr Hu. destruct (alloc_reachable_inv b s Hb Hr) as [Hwf Hg].
  by rewrite <-Hg, unused_index.
Qed.

(** Creation of an object.  When some free block is at least as large as the object, and
    the allocator has slots for splitting it, [create_object] succeeds on a kernel that accepts
    its invocations: the block it returns has exactly the object's size, lies in a block that
    was free, and is the only block that comes into use; the invariant is kept. *)
Lemma create_object_succeeds dst slot bp (a : Allocator) (k : K) id0 :
  accepts (K := K) → wf a → id0 ∈ free_ids (cap_derivation_tree a) → physical_size_bits bp ≤ size_bits id0 →
  2 * (size_bits id0 - physical_size_bits bp) ≤ slots_left (cregion a) →
  ∃ id a' k', create_object dst slot bp (a, k) = (Ok id, (a', k')) ∧
    size_bits id = physical_size_bits bp ∧ wf a' ∧
    used_ids (cap_derivation_tree a') ≡ₚ id :: used_ids (cap_derivation_tree a) ∧
    ∃ id1, id1 ∈ free_ids (cap_derivation_tree a) ∧ in_block (size_bits id1) (paddr id1) id.
Proof.
  intros Hacc Hwf Hin Hle Hsl.
  pose proof (create_object_spec true (λ _, Hacc) dst slot bp a k Hwf
    (λ _, ex_intro _ id0 (conj Hin (conj Hle Hsl)))) as Hs.
  apply mspec_run in Hs as (id & [a' k'] & Hrun & c & t & F & t' & new & Ht & Hc & -> & Hsz & Hg).
  eexists _, a', k'. split_and!; [done|done|by eapply grown_wf|by eapply grown_used|].
  exists (hole_id c). split.
  - rewrite Ht. unfold free_ids. rewrite ids_plug_leaf. simpl. constructor.
  - eapply splits_in; [by apply Hg|by apply Hg].
Qed.

(** C28: Creation and release are inverse.  An object that was created can be released, and the
    allocator is as before: the same tree, the same slots, and the same free blocks. *)
Theorem create_release_roundtrip dst slot bp (a : Allocator) (k : K) id a1 k1 :
  accepts (K := K) → wf a → create_object dst slot bp (a, k) = (Ok id, (a1, k1)) →
  ∃ a2 k2, revoke_and_free id (a1, k1) = (Ok tt, (a2, k2)) ∧
    cap_derivation_tree a2 = cap_derivation_tree a ∧ cregion a2 = cregion a ∧
    leaf_list (leaves a2) ≡ₚ leaf_list (leaves a).
Proof.
  intros Hacc Hwf Hrun.
  assert (false = true → accepts (K := K)) as Hn by done.
  pose proof (create_object_spec false Hn dst slot bp a k Hwf) as Hs. specialize (Hs ltac:(intros [=])).
  apply (mspec_ok _ _ _ _ _ _ Hs) in Hrun as (c & t & F & t' & new & Ht & Hc & -> & Hsz & Hg). simpl in Hg.
  assert (wf a1) as Hwf1 by by eapply grown_wf.
  assert (hole_id (F ++ c) ∈ used_ids (cap_derivation_tree a1)) as Hin.
  { rewrite (grown_used c t a F t' new a1 Ht Hg). constructor. }
  pose proof (release_spec true (λ _, Hacc) c t F t' new a a1 k1 Hwf Ht Hg) as Htree.
  pose proof (revoke_and_free_spec true (λ _, Hacc) _ a1 k1 Hwf1 Hin) as Hrel.
  pose proof (mspec_and _ _ _ _ _ Htree Hrel) as Hboth.
  apply mspec_run in Hboth as ([] & [a2 k2] & Hrun & Htr & Hwf2 & _ & _ & old & Hreg & Hsl). simpl in *.
  exists a2, k2. split_and!; [done|done| |].
  - rewrite Hreg, (grown_region _ _ _ _ _ _ _ _ Hg). apply marks_inverse; [|by apply Hg].
    rewrite (grown_slots _ _ _ _ _ _ _ _ Hg), <-Ht, Htr in Hsl.
    by apply Permutation_app_inv_r in Hsl.
  - destruct Hwf as [Hi _], Hwf2 as [Hi2 _]. pose proof (inv_index _ _ _ _ Hi2) as H2.
    rewrite Htr, (inv_index _ _ _ _ Hi) in H2. by symmetry.
Qed.

(** Release of an object.  Every block in use can be released on a kernel that accepts the
    invocations: none of the assertions of the walk fails, exactly this block goes out of use,
    and the invariant, with its merging of free halves, is kept. *)
Lemma revoke_and_free_succeeds id (a : Allocator) (k : K) :
  accepts (K := K) → wf a → id ∈ used_ids (cap_derivation_tree a) →
  ∃ a' k', revoke_and_free id (a, k) = (Ok tt, (a', k')) ∧ wf a' ∧
    used_ids (cap_derivation_tree a) ≡ₚ id :: used_ids (cap_derivation_tree a').
Proof.
  intros Hacc Hwf Hin. pose proof (revoke_and_free_spec true (λ _, Hacc) id a k Hwf Hin) as Hs.
  apply mspec_run in Hs as ([] & [a' k'] & Hrun & Hwf' & Hu & _). by exists a', k'.
Qed.

(** The builder.  From aligned, pairwise disjoint blocks below the whole of memory, [build]
    succeeds, and the allocator is well formed, has all of the blocks and none in use. *)
Lemma build_succeeds b :
  builder_ok b → ∃ a, build (E := Error) b = Ok a ∧ wf a ∧
    leaf_list (leaves a) ≡ₚ builder_blocks b ∧ used_ids (cap_derivation_tree a) = [].
Proof.
  intros Hb. destruct (build_spec (E := Error) b Hb) as (a & Ha & Hwf & Hg & Hu & _).
  exists a. split_and!; [done|done| |done]. by rewrite <-Hg, unused_index.
Qed.
End theorems.

(** ** A closed example *)
Definition demo_region : CRegion :=
  match cregion_new (E := Error) (relative 2 2) 0 0 4 with
  | Ok c => c
  | _ => {| cr_root := relative 2 2; guard := 0; guard_size := 0; radix := 0; set := set_new |}
  end.

Definition demo_builder : AllocatorBuilder :=
  add_untyped {| eu_cptr := 8; untyped_id := {| paddr := 0x1000; size_bits := 7 |} |}
    (add_untyped {| eu_cptr := 9; untyped_id := {| paddr := 0x200; size_bits := 9 |} |}
      (builder_new demo_region)).

Lemma demo_builder_ok : builder_ok demo_builder.
Proof.
  split.
  - change (cregion_ok demo_region). unfold demo_region.
    destruct (cregion_new_ok (E := Error) (relative 2 2) 0 0 4) as (c & -> & _ & _ & _ & Hok & _). done.
  - repeat constructor; vm_compute; (done || intros [=]).
  - unfold builder_blocks. cbn. rewrite !pairwise_disjoint_cons. split_and!.
    + intros j Hj. repeat (apply elem_of_cons in Hj as [->|Hj]); [|by apply elem_of_nil in Hj].
      unfold disjoint_ids. cbn. left. vm_compute. done.
    + intros j Hj. by apply elem_of_nil in Hj.
    + intros i j p q Hi. by destruct i.
Qed.

Definition demo_alloc : Allocator :=
  match build (E := Error) demo_builder with
  | Ok a => a
  | _ => {| cregion := demo_region; fragmentation_threshold_size_bits := 0;
            cap_derivation_tree := node_new; leaves := leaf_new |}
  end.

Lemma demo_alloc_wf : wf demo_alloc.
Proof.
  unfold demo_alloc. destruct (build_spec (E := Error) demo_builder demo_builder_ok) as (a & -> & Hwf & _). done.
Qed.

#[local] Existing Instance LogKernel.sel4.

Definition demo_after : outcome Error (CRegion * UntypedId * Slot) * (Allocator * LogKernel.kernel) :=
  create_cnode 2 (demo_alloc, []).

Lemma demo_alloc_reachable : alloc_reachable demo_builder demo_after.2.
Proof.
  eapply (ar_create_cnode demo_builder (demo_alloc, []) 2); [|unfold demo_after; vm_compute; reflexivity].
  constructor. vm_compute. reflexivity.
Qed.


Lemma demo_run : alloc_run demo_builder demo_after.2 [{| paddr := 0x1000; size_bits := 7 |}].
Proof.
  eapply (run_create_cnode demo_builder (demo_alloc, []) [] 2); [|unfold demo_after; vm_compute; reflexivity].
  constructor. vm_compute. reflexivity.
Qed.


Lemma demo_free : {| paddr := 0x200; size_bits := 9 |} ∈ free_ids (cap_derivation_tree demo_alloc).
Proof. apply elem_of_ids. vm_compute. repeat constructor. Qed.

Definition demo_object : outcome Error UntypedId * (Allocator * LogKernel.kernel) :=
  create_object (relative 2 2) 3 (BpUntyped 6) (demo_alloc, []).

Lemma create_release_roundtrip_witness :
  ∃ s', revoke_and_free {| paddr := 0x1040; size_bits := 6 |} demo_object.2 = (Ok tt, s') ∧
    cap_derivation_tree s'.1 = cap_derivation_tree demo_alloc.
Proof.
  destruct (create_release_roundtrip (relative 2 2) 3 (BpUntyped 6) demo_alloc ([] : LogKernel.kernel)
    {| paddr := 0x1040; size_bits := 6 |} demo_object.2.1 demo_object.2.2) as (a2 & k2 & Hrun & Htr & _);
    [apply LogKernel.accepts_log|apply demo_alloc_wf|vm_compute; reflexivity|].
  exists (a2, k2). split; [|exact Htr]. revert Hrun. generalize demo_object.2. intros [? ?] Hrun. exact Hrun.
Defined.

