(* ===== verification/Dyndl.v ===== *)
(** * Dyndl: the dynamic loader of realms

    Model of [framework/dyndl]: the description of a subsystem ([types/src/lib.rs]), the view of
    it that the loader works with ([realize/src/model_view.rs], [realize/src/utils.rs]), the
    initialization of its objects ([realize/src/initialize_subsystem_objects.rs]), the realizer
    ([realize/src/lib.rs]) and its simple clients ([realize/simple/src/lib.rs]).

    A [BTreeMap] is a finite map iterated in the order of its keys.  The hash function and the
    memory that a frame is mapped to are parameters. *)

From stdpp Require Import strings.
From S2P Require Import Prelude.
From S2P Require Import Fault.
From S2P Require Import Sel4.
From S2P Require Import CRegion.
From S2P Require Import Allocator.

(** ** [types] *)
Abbreviation ObjId := nat (only parsing).
Abbreviation Table := (gmap nat) (only parsing).

Record Rights := { r_read : bool; r_write : bool; r_grant : bool; r_grant_reply : bool }.

Record FillEntry := {
  fill_offset : nat;
  fill_length : nat;
  file : string;
  file_offset : nat;
  content_digest : list Z;
}.

(** Capabilities that only name their object are the object. *)
Record CNodeCap := { cnode_obj : ObjId; cnode_guard : Z; cnode_guard_size : Z }.
Record PageCap := { page_obj : ObjId; page_rights : Rights; page_cached : bool }.

Inductive Cap :=
| CapUntyped (obj : ObjId)
| CapEndpoint (obj : ObjId) (badge : Z) (rights : Rights)
| CapNotification (obj : ObjId) (badge : Z) (rights : Rights)
| CapCNode (cap : CNodeCap)
| CapTCB (obj : ObjId)
| CapVCPU (obj : ObjId)
| CapSmallPage (cap : PageCap)
| CapLargePage (cap : PageCap)
| CapPT (obj : ObjId)
| CapPD (obj : ObjId)
| CapPUD (obj : ObjId)
| CapPGD (obj : ObjId).

Inductive PDEntry := PDEntryPT (obj : ObjId) | PDEntryLargePage (cap : PageCap).

Record ObjTCB_ := {
  fault_ep : CPtr;
  cspace : CNodeCap;
  vspace : ObjId;
  ipc_buffer : PageCap;
  ipc_buffer_addr : Z;
  vcpu : option ObjId;
  bound_notification : option ObjId;
  affinity : nat;
  prio : Z;
  max_prio : Z;
  resume : bool;
  tcb_ip : Z;
  tcb_sp : Z;
  tcb_spsr : Z;
  tcb_gprs : list Z;
}.

Inductive Obj :=
| ObjUntyped (size_bits : nat)
| ObjEndpoint
| ObjNotification
| ObjCNode (size_bits : nat) (entries : Table Cap)
| ObjTCB (tcb : ObjTCB_)
| ObjVCPU
| ObjSmallPage (fill : list FillEntry)
| ObjLargePage (fill : list FillEntry)
| ObjPT (entries : Table PageCap)
| ObjPD (entries : Table PDEntry)
| ObjPUD (entries : Table ObjId)
| ObjPGD (entries : Table ObjId).

Inductive ExternObj := ExtEndpoint | ExtNotification | ExtSmallPage | ExtLargePage.
#[global] Instance ExternObj_eq_dec : EqDecision ExternObj.
Proof. solve_decision. Defined.

Inductive AnyObj := Local (o : Obj) | Extern_ (e : ExternObj).
Record TopObj := { object : AnyObj; name : string }.
Record Model := { num_nodes : nat; objects : list TopObj }.

(** The derived conversions [TryFrom<&Obj>] of the kinds that are used. *)
Definition as_PGD (o : Obj) : option (Table ObjId) := match o with ObjPGD e => Some e | _ => None end.
Definition as_PUD (o : Obj) : option (Table ObjId) := match o with ObjPUD e => Some e | _ => None end.
Definition as_PD (o : Obj) : option (Table PDEntry) := match o with ObjPD e => Some e | _ => None end.
Definition as_PT (o : Obj) : option (Table PageCap) := match o with ObjPT e => Some e | _ => None end.
Definition as_CNode (o : Obj) : option (nat * Table Cap) :=
  match o with ObjCNode b e => Some (b, e) | _ => None end.
Definition as_TCB (o : Obj) : option ObjTCB_ := match o with ObjTCB t => Some t | _ => None end.

(** ** [utils.rs] *)
Definition blueprint_of (obj : Obj) : ObjectBlueprint :=
  match obj with
  | ObjUntyped size_bits => BpUntyped size_bits
  | ObjEndpoint => BpEndpoint
  | ObjNotification => BpNotification
  | ObjCNode size_bits _ => BpCNode size_bits
  | ObjTCB _ => BpTCB
  | ObjVCPU => BpVCPU
  | ObjSmallPage _ => BpSmallPage
  | ObjLargePage _ => BpLargePage
  | ObjPT _ => BpPT
  | ObjPD _ => BpPD
  | ObjPUD _ => BpPUD
  | ObjPGD _ => BpPGD
  end.

Definition rights_of (r : Rights) : CapRights :=
  cap_rights (r_grant_reply r) (r_grant r) (r_read r) (r_write r).

(** [64 - leading_zeros(x)]. *)
Definition size_bits_to_contain (x : nat) : nat :=
  match x with 0 => 0 | _ => S (Nat.log2 x) end.

(** ** [model_view.rs] *)
Record ModelView := {
  local_objects : list nat;
  extern_objects : list nat;
  reverse : list nat;
}.

(** The derived order of blueprints: by variant, then by field. *)
Definition blueprint_rank (b : ObjectBlueprint) : nat * nat :=
  match b with
  | BpUntyped s => (0, s) | BpEndpoint => (1, 0) | BpNotification => (2, 0) | BpCNode s => (3, s)
  | BpTCB => (4, 0) | BpVCPU => (5, 0) | BpSmallPage => (6, 0) | BpLargePage => (7, 0)
  | BpHugePage => (8, 0) | BpPT => (9, 0) | BpPD => (10, 0) | BpPUD => (11, 0) | BpPGD => (12, 0)
  end.

Abbreviation key := (nat * (nat * nat))%type (only parsing).
Definition key_lt (a b : key) : bool :=
  (a.1 <? b.1) || ((a.1 =? b.1) && ((a.2.1 <? b.2.1) || ((a.2.1 =? b.2.1) && (a.2.2 <? b.2.2)))).

(** [slice::sort_by_key], a stable sort. *)
Fixpoint insert_by_key (k : nat → key) (x : nat) (l : list nat) : list nat :=
  match l with
  | [] => [x]
  | y :: l' => if key_lt (k x) (k y) then x :: y :: l' else y :: insert_by_key k x l'
  end.
Definition sort_by_key (k : nat → key) (l : list nat) : list nat :=
  foldl (λ acc x, insert_by_key k x acc) [] l.

(** [for (i, j) in view.local_objects.iter().enumerate() { view.reverse[*j] = i; }]. *)
Fixpoint set_reverse (i : nat) (locals rev : list nat) : list nat :=
  match locals with [] => rev | j :: rest => set_reverse (S i) rest (<[j := i]> rev) end.

Section view.
Context `{!Sel4Sys}.

Definition object_key (m : Model) (i : nat) : key :=
  match objects m !! i with
  | Some {| object := Local obj |} =>
    let b := blueprint_of obj in (physical_size_bits b, blueprint_rank b)
  | _ => (0, (0, 0))
  end.

(** One round of the loop of [ModelView::new]. *)
Definition view_step (m : Model) (view : ModelView) (i : nat) (obj : TopObj) : ModelView :=
  let view :=
    match object obj with
    | Local _ =>
      {| local_objects := local_objects view ++ [i]; extern_objects := extern_objects view;
         reverse := reverse view |}
    | Extern_ _ =>
      {| local_objects := local_objects view; extern_objects := extern_objects view ++ [i];
         reverse := <[i := length (extern_objects view)]> (reverse view) |}
    end in
  let locals := sort_by_key (object_key m) (local_objects view) in
  {| local_objects := locals; extern_objects := extern_objects view;
     reverse := set_reverse 0 locals (reverse view) |}.

Fixpoint view_loop (m : Model) (i : nat) (objs : list TopObj) (view : ModelView) : ModelView :=
  match objs with [] => view | obj :: rest => view_loop m (S i) rest (view_step m view i obj) end.

Definition model_view_new (m : Model) : ModelView :=
  view_loop m 0 (objects m)
    {| local_objects := []; extern_objects := []; reverse := replicate (length (objects m)) 0 |}.
End view.
