(* ===== verification/Realize.v ===== *)
(** * Realize: making and destroying subsystems

    Model of the second half of [framework/dyndl/realize]: the initialization of the objects of
    a subsystem ([initialize_subsystem_objects.rs]), the realizer ([lib.rs]), and the functions
    of [realize/simple].  The data they work on is in [Dyndl] and [Allocator].

    Errors of the kernel, failed [ensure!]s and [bail!]s are the three kinds of [Failure].  The
    program state of the realizer is its fields and the kernel; that of the initialization is the
    region of the realm, which it takes slots from, and the kernel. *)

From stdpp Require Import strings.
From S2P Require Import Prelude.
From S2P Require Import Fault.
From S2P Require Import Sel4.
From S2P Require Import CRegion.
From S2P Require Import Allocator.
From S2P Require Import Dyndl.

Inductive Failure := Sel4Failure (e : Error) | EnsureFailure | BailFailure.

Definition map_err {E E' A} (f : E → E') (o : outcome E A) : outcome E' A :=
  match o with Ok a => Ok a | Err e => Err (f e) | Panic => Panic end.

(** A program on a part of the state. *)
Definition zoom {S T E E' A} (err : E → E') (get_part : S → T) (set_part : S → T → S) (m : M T E A) :
    M S E' A := λ s,
  let '(o, t) := m (get_part s) in (map_err err o, set_part s t).

(** The memory that is seen at an address, as [copy_from_slice] writes it and as it is read back, and the
    hash function. *)
Class Platform (K : Type) := {
  write_view : Z → nat → list Z → K → K;
  read_view : Z → nat → nat → K → list Z;
  sha256 : list Z → list Z;
  read_view_write vaddr offset bs k : read_view vaddr offset (length bs) (write_view vaddr offset bs k) = bs;
}.

Record Resources := {
  pgd : CPtr;
  asid_pool : CPtr;
  tcb_authority : CPtr;
  small_page_addr : Z;
  large_page_addr : Z;
}.

Record VirtualCoreTCB := { vc_cap : CPtr; vc_resume : bool }.
Record VirtualCore := { tcbs : list VirtualCoreTCB }.

Section initialize.
Context {K : Type} `{!Sel4 K} `{!Platform K}.

(** ** [SubsystemObjectInitializationResources] *)
Definition fill_frame (res : Resources) (size : FrameSize) (frame : CPtr) (offset : nat)
    (expected_content_digest untrusted_content : list Z) : M K Failure unit :=
  let kernel m := zoom Sel4Failure id (λ _ k, k) m in
  vaddr ← lift (match size with Small => Ok (small_page_addr res) | Large => Ok (large_page_addr res)
                              | Huge => Panic end);
  kernel (frame_map frame (pgd res) vaddr read_write
    (Z.land seL4_ARM_Default_VMAttributes (word_not 32 seL4_ARM_PageCacheable))) ;;
  assert_ (bool_decide (offset + length untrusted_content ≤ frame_bytes size)) ;;
  modify (write_view vaddr offset untrusted_content) ;;
  refined_view ← gets (read_view vaddr offset (length untrusted_content));
  (if bool_decide (sha256 refined_view = expected_content_digest) then mret tt
   else throw EnsureFailure) ;;
  kernel (frame_unmap frame).

(** ** [Initialize] *)
Section with_model.
Context (res : Resources) (m : Model) (caps : list CPtr).
Abbreviation I := (M (CRegion * K) Failure).

Definition kern {X} (p : M K Error X) : I X := zoom Sel4Failure snd (λ s k, (s.1, k)) p.
Definition cap (i : nat) : I CPtr := lift (index caps i).
Definition region_alloc : I Slot :=
  o ← zoom (T := CRegion) Sel4Failure fst (λ s c, (c, s.2)) (λ c,
    match alloc (E := Error) c with
    | Ok (o, c') => (Ok o, c')
    | Err e => (Err e, c)
    | Panic => (Panic, c)
    end);
  lift (unwrap o).

(** [obj]: the local object [i], of the kind that [as_kind] recognizes. *)
Definition obj {X} (as_kind : Obj → option X) (i : nat) : I X :=
  top ← lift (index (objects m) i);
  match object top with
  | Local o => lift (unwrap (as_kind o))
  | Extern_ _ => throw BailFailure
  end.

(** [it_i]: the objects of a kind with their numbers. *)
Definition it_i {X} (as_kind : Obj → option X) : list (nat * X) :=
  omap (λ p : nat * TopObj,
    match object p.2 with Local o => pair p.1 <$> as_kind o | Extern_ _ => None end)
    (imap pair (objects m)).

(** [copy]: a second capability of [c], in a new slot of the region. *)
Definition copy (c : CPtr) : I CPtr :=
  slot ← region_alloc;
  cr ← gets fst;
  kern (cap_copy (cr_relative_cptr cr slot) (relative (context cr) c) all_rights) ;;
  lift (local_cptr (cptr_with_depth cr slot)).

Definition page_attrs (cached : bool) : VMAttributes :=
  Z.land seL4_ARM_Default_VMAttributes
    (word_not 32 (if negb cached then seL4_ARM_PageCacheable else 0)).

Definition vaddr_add (vaddr : Z) (i : nat) (shift : Z) : Z :=
  word_cast 64 (vaddr + word_shl 64 (Z.of_nat i) shift).

(** Mapping of a frame, through a copy of its capability. *)
Definition map_frame (pgd vaddr : Z) (c : PageCap) : I unit :=
  orig_frame ← cap (page_obj c);
  frame ← copy orig_frame;
  kern (frame_map frame pgd vaddr (rights_of (page_rights c)) (page_attrs (page_cached c))).

Definition init_pt (pgd vaddr : Z) (pt_obj : nat) : I unit :=
  entries ← obj as_PT pt_obj;
  pt ← cap pt_obj;
  kern (pt_map pt pgd vaddr seL4_ARM_Default_VMAttributes) ;;
  for_each (λ e : nat * PageCap, map_frame pgd (vaddr_add vaddr e.1 12) e.2) (btree_iter entries).

Definition init_pd (pgd vaddr : Z) (pd_obj : nat) : I unit :=
  entries ← obj as_PD pd_obj;
  pd ← cap pd_obj;
  kern (pd_map pd pgd vaddr seL4_ARM_Default_VMAttributes) ;;
  for_each (λ e : nat * PDEntry,
    let vaddr := vaddr_add vaddr e.1 (9 + 12) in
    match e.2 with
    | PDEntryLargePage c => map_frame pgd vaddr c
    | PDEntryPT o => init_pt pgd vaddr o
    end) (btree_iter entries).

Definition init_pud (pgd vaddr : Z) (pud_obj : nat) : I unit :=
  entries ← obj as_PUD pud_obj;
  pud ← cap pud_obj;
  kern (pud_map pud pgd vaddr seL4_ARM_Default_VMAttributes) ;;
  for_each (λ e : nat * nat, init_pd pgd (vaddr_add vaddr e.1 (9 + 9 + 12)) e.2) (btree_iter entries).

Definition init_vspaces : I unit :=
  for_each (λ p : nat * gmap nat nat,
    pgd ← cap p.1;
    kern (asid_assign (asid_pool res) pgd) ;;
    for_each (λ e : nat * nat, init_pud pgd (word_shl 64 (Z.of_nat e.1) (9 + 9 + 9 + 12)) e.2)
      (btree_iter p.2)) (it_i as_PGD).

(** What a capability of the model becomes: the object, the rights, the badge. *)
Definition cap_parts (c : Cap) : outcome Failure (nat * CapRights * option Z) :=
  match c with
  | CapUntyped o => Ok (o, all_rights, None)
  | CapEndpoint o badge rights => Ok (o, rights_of rights, Some badge)
  | CapNotification o badge rights => Ok (o, rights_of rights, Some badge)
  | CapCNode c =>
    Ok (cnode_obj c, all_rights, Some (seL4_CNode_CapData_new (cnode_guard c) (cnode_guard_size c)))
  | CapTCB o => Ok (o, all_rights, None)
  | CapVCPU o => Ok (o, all_rights, None)
  | CapPGD o => Ok (o, all_rights, None)
  | CapLargePage c => Ok (page_obj c, rights_of (page_rights c), None)
  | _ => Err BailFailure
  end.

Definition init_cap (cnode : CPtr) (size_bits : nat) (e : nat * Cap) : I unit :=
  let dst := relative_path cnode {| cptr := Z.of_nat e.1; depth := size_bits |} in
  '(ptr, rights, badge) ← lift (cap_parts e.2);
  cr ← gets fst;
  c ← cap ptr;
  let src := relative (root (cr_root cr)) c in
  match badge with
  | None => kern (cap_copy dst src rights)
  | Some badge =>
    if decide (badge = 0%Z) then kern (cap_copy dst src rights)
    else kern (cap_mint dst src rights badge)
  end.

Definition init_cspaces : I unit :=
  for_each (λ p : nat * (nat * gmap nat Cap),
    cnode ← cap p.1;
    for_each (init_cap cnode p.2.1) (btree_iter p.2.2)) (it_i as_CNode).

Definition user_context_default : UserContext :=
  {| pc := 0; sp := 0; spsr := 0; gprs := replicate 31 0%Z |}.

Definition init_tcb (tcb : CPtr) (o : ObjTCB_) : I unit :=
  cspace_cap ← cap (cnode_obj (cspace o));
  let cspace_root_data :=
    seL4_CNode_CapData_new (cnode_guard (cspace o)) (cnode_guard_size (cspace o)) in
  vspace_cap ← cap (vspace o);
  ipc_buffer_frame ← cap (page_obj (ipc_buffer o));
  (match vcpu o with
   | Some v => vc ← cap v; kern (set_tcb vc tcb)
   | None => mret tt
   end) ;;
  (match bound_notification o with
   | Some n => nc ← cap n; kern (bind_notification tcb nc)
   | None => mret tt
   end) ;;
  kern (configure tcb (fault_ep o) cspace_cap cspace_root_data vspace_cap (ipc_buffer_addr o)
    ipc_buffer_frame) ;;
  kern (set_sched_params tcb (tcb_authority res) (max_prio o) (prio o)) ;;
  let n := length (tcb_gprs o) in
  (if bool_decide (n ≤ 2) then mret tt else throw EnsureFailure) ;;
  let regs := {| pc := tcb_ip o; sp := tcb_sp o; spsr := tcb_spsr o;
                 gprs := gprs user_context_default |} in
  regs ← (if bool_decide (0 < n) then
            v ← lift (index (tcb_gprs o) 0); lift (set_gpr regs 0 v)
          else mret regs : I UserContext);
  regs ← (if bool_decide (1 < n) then
            v ← lift (index (tcb_gprs o) 1); lift (set_gpr regs 1 v)
          else mret regs : I UserContext);
  kern (write_all_registers tcb false regs).

(** The loop of [initialize] over the threads, which collects them by core. *)
Fixpoint init_tcbs (ts : list (nat * ObjTCB_)) (virtual_cores : list VirtualCore) :
    I (list VirtualCore) :=
  match ts with
  | [] => mret virtual_cores
  | (i, o) :: rest =>
    tcb ← cap i;
    _ ← lift (index (objects m) i);
    init_tcb tcb o ;;
    core ← lift (index virtual_cores (affinity o));
    init_tcbs rest (<[affinity o := {| tcbs := tcbs core ++
      [{| vc_cap := tcb; vc_resume := resume o |}] |}]> virtual_cores)
  end.

Definition initialize (num_nodes : nat) : I (list VirtualCore) :=
  init_vspaces ;;
  init_cspaces ;;
  init_tcbs (it_i as_TCB) (replicate num_nodes {| tcbs := [] |}).
End with_model.
End initialize.

(** ** The realizer *)
Record Extern := { ext_ty : ExternObj; ext_cptr : CPtr }.
Abbreviation Externs := (gmap string Extern) (only parsing).

Record Realizer := {
  initialization_resources : Resources;
  allocator : Allocator;
  externs : Externs;
}.

Record Subsystem := {
  virtual_cores : list VirtualCore;
  cnode_untyped_id : UntypedId;
  object_untyped_ids : list UntypedId;
  sub_externs : Externs;
}.

Record PartialSubsystem := {
  model : Model;
  model_view : ModelView;
  p_cregion : CRegion;
  p_cnode_untyped_id : UntypedId;
  local_object_slots : list Slot;
  local_object_untyped_ids : list UntypedId;
}.

Definition with_allocator (r : Realizer) (a : Allocator) : Realizer :=
  {| initialization_resources := initialization_resources r; allocator := a; externs := externs r |}.
Definition with_externs (r : Realizer) (e : Externs) : Realizer :=
  {| initialization_resources := initialization_resources r; allocator := allocator r; externs := e |}.

(** The pages that [init_vspaces] maps and that take a slot each, of one object. *)
Definition frame_mappings (o : Obj) : nat :=
  match o with
  | ObjPT entries => size entries
  | ObjPD entries =>
    sum_list ((λ e : nat * PDEntry, match e.2 with PDEntryLargePage _ => 1 | PDEntryPT _ => 0 end)
      <$> map_to_list entries)
  | _ => 0
  end.

(** [model.objects[i]] as a local object. *)
Definition local_object {E} (m : Model) (i : nat) : outcome E Obj :=
  top ← index (objects m) i;
  match object top with Local o => Ok o | Extern_ _ => Panic end.

Fixpoint map_outcome {E X Y} (f : X → outcome E Y) (l : list X) : outcome E (list Y) :=
  match l with
  | [] => Ok []
  | x :: l' => y ← f x; ys ← map_outcome f l'; Ok (y :: ys)
  end.

(** [v[i] += 1]. *)
Definition count_at {E} (v : list nat) (i : nat) : outcome E (list nat) :=
  n ← index v i; Ok (<[i := S n]> v).
Fixpoint count_all {E} (sizes : list nat) (v : list nat) : outcome E (list nat) :=
  match sizes with [] => Ok v | i :: rest => v' ← count_at v i; count_all rest v' end.

Section realizer.
Context {K : Type} `{!Sel4 K} `{!Platform K}.
Abbreviation R := (M (Realizer * K) Failure).

Definition alloc_op {X} (p : M (Allocator * K) Error X) : R X :=
  zoom Sel4Failure (λ s, (allocator s.1, s.2)) (λ s t, (with_allocator s.1 t.1, t.2)) p.

Definition destroy (sub : Subsystem) : R unit :=
  alloc_op (revoke_and_free (cnode_untyped_id sub)) ;;
  for_each (λ id, alloc_op (revoke_and_free id)) (object_untyped_ids sub) ;;
  modify (λ s, (with_externs s.1 (sub_externs sub ∪ externs s.1), s.2)).

Definition realize_start (m : Model) : R PartialSubsystem :=
  let view := model_view_new m in
  mappings ← lift (map_outcome (λ i,
    top ← index (objects m) i;
    Ok (match object top with Local o => frame_mappings o | Extern_ _ => 0 end)) (local_objects view));
  let num_frame_mappings := sum_list mappings in
  let cnode_slots_size_bits :=
    size_bits_to_contain (length (local_objects view) + num_frame_mappings) in
  local_object_blueprints ← lift (map_outcome (λ i, blueprint_of <$> local_object m i) (local_objects view));
  untyped_requirements ← lift (
    v ← count_at (replicate 64 0) (physical_size_bits (BpCNode cnode_slots_size_bits));
    count_all (physical_size_bits <$> local_object_blueprints) v);
  enough ← gets (λ s, peek_space untyped_requirements (allocator s.1));
  (if (enough : bool) then mret tt else throw EnsureFailure) ;;
  '(cr, cnode_id, _) ← alloc_op (create_cnode cnode_slots_size_bits);
  '(cr', slots, ids) ← alloc_op (create_objects cr local_object_blueprints);
  mret {| model := m; model_view := model_view_new m; p_cregion := cr';
          p_cnode_untyped_id := cnode_id; local_object_slots := slots;
          local_object_untyped_ids := ids |}.

(** The pointer to the local object [i] of a partial subsystem. *)
Definition object_cptr {E} (p : PartialSubsystem) (i : nat) : outcome E CPtrWithDepth :=
  r ← index (reverse (model_view p)) i;
  slot ← index (local_object_slots p) r;
  Ok (cptr_with_depth (p_cregion p) slot).

Definition realize_continue (p : PartialSubsystem) (obj_id fill_entry_index : nat)
    (untrusted_content : list Z) : R unit :=
  top ← lift (index (objects (model p)) obj_id);
  match object top with
  | Local o =>
    c ← lift (object_cptr p obj_id);
    res ← gets (λ s, initialization_resources s.1);
    let kernel m := zoom id snd (λ s k, (s.1, k)) m in
    match o with
    | ObjSmallPage fill =>
      frame ← lift (local_cptr c);
      entry ← lift (index fill fill_entry_index);
      kernel (fill_frame res Small frame (fill_offset entry) (content_digest entry) untrusted_content)
    | ObjLargePage fill =>
      frame ← lift (local_cptr c);
      entry ← lift (index fill fill_entry_index);
      kernel (fill_frame res Large frame (fill_offset entry) (content_digest entry) untrusted_content)
    | _ => panic
    end
  | Extern_ _ => panic
  end.

(** The externs of a model, taken out of the realizer's: their capabilities, in order, and the
    table of them. *)
Fixpoint take_externs (m : Model) (idxs : list nat) (taken : Externs) : R (Externs * list CPtr) :=
  match idxs with
  | [] => mret (taken, [])
  | i :: rest =>
    top ← lift (index (objects m) i);
    match object top with
    | Extern_ ty =>
      e ← gets (λ s, externs s.1);
      ext ← lift (unwrap (e !! name top));
      modify (λ s, (with_externs s.1 (delete (name top) (externs s.1)), s.2)) ;;
      assert_ (bool_decide (ext_ty ext = ty)) ;;
      '(taken', caps) ← take_externs m rest (<[name top := ext]> taken);
      mret (taken', ext_cptr ext :: caps)
    | Local _ => panic
    end
  end.

Definition realize_finish (p : PartialSubsystem) : R Subsystem :=
  '(taken, extern_caps) ← take_externs (model p) (extern_objects (model_view p)) ∅;
  all_caps ← lift (map_outcome (λ it : nat * TopObj,
    match object it.2 with
    | Local _ => c ← object_cptr p it.1; local_cptr c
    | Extern_ _ => r ← index (reverse (model_view p)) it.1; index extern_caps r
    end) (imap pair (objects (model p))));
  res ← gets (λ s, initialization_resources s.1);
  cores ← zoom id (λ s : Realizer * K, (p_cregion p, s.2)) (λ s t, (s.1, t.2))
    (initialize res (model p) all_caps (num_nodes (model p)));
  mret {| virtual_cores := cores; cnode_untyped_id := p_cnode_untyped_id p;
          object_untyped_ids := local_object_untyped_ids p; sub_externs := taken |}.

(** ** [realize/simple] *)
Record DynamicUntyped := { du_slot : CPtr; du_size_bits : nat; du_paddr : option Z; du_device : bool }.
Record CRegionConfig := {
  rc_root : CPtr; rc_cptr : CPtr; rc_depth : nat;
  rc_guard : Z; rc_guard_size : Z; rc_slots_size_bits : nat;
}.
Record RealizerConfig := {
  c_resources : Resources;
  c_small_page : CPtr;
  c_large_page : CPtr;
  c_allocator_cregion : CRegionConfig;
  c_untyped : list DynamicUntyped;
  c_externs : gmap string (ExternObj * Z);
}.

Fixpoint add_untypeds {E} (us : list DynamicUntyped) (b : AllocatorBuilder) : outcome E AllocatorBuilder :=
  match us with
  | [] => Ok b
  | u :: rest =>
    addr ← unwrap (du_paddr u);
    add_untypeds rest (add_untyped {| eu_cptr := du_slot u;
      untyped_id := {| paddr := addr; size_bits := du_size_bits u |} |} b)
  end.

Definition initialize_simple_realizer_from_config (config : RealizerConfig) : M K Failure Realizer :=
  let kernel m := zoom Sel4Failure id (λ _ k, k) m in
  kernel (frame_unmap (c_small_page config)) ;;
  kernel (frame_unmap (c_large_page config)) ;;
  let rc := c_allocator_cregion config in
  cr ← lift (cregion_new (relative_cptr (rc_root rc) (rc_cptr rc) (rc_depth rc))
    (rc_guard rc) (rc_guard_size rc) (rc_slots_size_bits rc));
  b ← lift (add_untypeds (c_untyped config) (builder_new cr));
  a ← lift (build b);
  mret {| initialization_resources := c_resources config; allocator := a;
          externs := (λ p, {| ext_ty := p.1; ext_cptr := p.2 |}) <$> c_externs config |}.

(** [&fill_blob[offset..next_offset]]. *)
Definition slice {E X} (l : list X) (from to : nat) : outcome E (list X) :=
  if bool_decide (from ≤ to ∧ to ≤ length l) then Ok (take (to - from) (drop from l)) else Panic.

Definition fills_of (t : TopObj) : list FillEntry :=
  match object t with
  | Local (ObjSmallPage fill) => fill
  | Local (ObjLargePage fill) => fill
  | _ => []
  end.

(** The fill entries of a model, with the numbers of their objects and their own. *)
Definition fill_entries (m : Model) : list (nat * nat * FillEntry) :=
  mjoin (imap (λ i t, imap (λ j e, (i, j, e)) (fills_of t)) (objects m)).

Fixpoint fill_loop (p : PartialSubsystem) (es : list (nat * nat * FillEntry)) (fill_blob : list Z)
    (offset : nat) : R unit :=
  match es with
  | [] => mret tt
  | (i, j, entry) :: rest =>
    let next_offset := offset + fill_length entry in
    content ← lift (slice fill_blob offset next_offset);
    realize_continue p i j content ;;
    fill_loop p rest fill_blob next_offset
  end.

Definition fill_frames_simple (p : PartialSubsystem) (fill_blob : list Z) : R unit :=
  fill_loop p (fill_entries (model p)) fill_blob 0.
End realizer.
