(* ===== verification/RealizeSpec.v ===== *)
(** * RealizeSpec: what the dynamic loader guarantees

    The view of a model numbers its objects consistently; a frame is accepted only with the
    content that its digest names; the memory of live subsystems is disjoint, whatever the
    kernel answers; a live subsystem can be destroyed, which gives back its memory and its
    external objects, but not the slot of its capability node. *)

From stdpp Require Import strings.
From S2P Require Import Prelude.
From S2P Require Import Fault.
From S2P Require Import Sel4.
From S2P Require Import CRegion.
From S2P Require Import Allocator.
From S2P Require Import AllocatorTree.
From S2P Require Import AllocatorSpec.
From S2P Require Import AllocatorProps.
From S2P Require Import Dyndl.
From S2P Require Import Realize.

(** ** The view of a model *)
Lemma insert_by_key_perm k x l : insert_by_key k x l ≡ₚ x :: l.
Proof.
  induction l as [|y l IH]; simpl; [done|]. destruct (key_lt _ _); [done|].
  rewrite IH. apply Permutation_swap.
Qed.

Lemma sort_by_key_perm k l : sort_by_key k l ≡ₚ l.
Proof.
  unfold sort_by_key. enough (∀ acc, foldl (λ acc x, insert_by_key k x acc) acc l ≡ₚ acc ++ l) as H
    by apply H.
  induction l as [|x l IH]; intros acc; simpl; [by rewrite app_nil_r|].
  rewrite IH, insert_by_key_perm. apply Permutation_middle.
Qed.

(** The order of the sort: no element is followed by one with a smaller key. *)
Definition key_sorted (k : nat → key) (l : list nat) : Prop :=
  StronglySorted (λ x y, key_lt (k y) (k x) = false) l.

Lemma key_lt_spec a b :
  key_lt a b = true ↔
  a.1 < b.1 ∨ a.1 = b.1 ∧ (a.2.1 < b.2.1 ∨ a.2.1 = b.2.1 ∧ a.2.2 < b.2.2).
Proof.
  unfold key_lt. rewrite orb_true_iff, andb_true_iff, orb_true_iff, andb_true_iff.
  rewrite !Nat.ltb_lt, !Nat.eqb_eq. tauto.
Qed.
Lemma key_lt_false a b :
  key_lt a b = false ↔
  ¬ (a.1 < b.1 ∨ a.1 = b.1 ∧ (a.2.1 < b.2.1 ∨ a.2.1 = b.2.1 ∧ a.2.2 < b.2.2)).
Proof. rewrite <-key_lt_spec. by rewrite not_true_iff_false. Qed.

Lemma insert_by_key_sorted k x l : key_sorted k l → key_sorted k (insert_by_key k x l).
Proof.
  unfold key_sorted. induction 1 as [|y l Hs IH Hall]; simpl; [by repeat constructor|].
  destruct (key_lt (k x) (k y)) eqn:Hlt.
  - constructor; [by constructor|]. apply key_lt_spec in Hlt. constructor; [apply key_lt_false; lia|].
    eapply Forall_impl; [exact Hall|]. intros z Hz. apply key_lt_false in Hz. apply key_lt_false. lia.
  - constructor; [done|]. rewrite insert_by_key_perm. by constructor.
Qed.

Lemma sort_by_key_sorted k l : key_sorted k (sort_by_key k l).
Proof.
  unfold sort_by_key. enough (∀ acc, key_sorted k acc → key_sorted k (foldl (λ acc x, insert_by_key k x acc) acc l)) as H
    by (apply H; constructor).
  induction l as [|x l IH]; intros acc Ha; simpl; [done|]. by apply IH, insert_by_key_sorted.
Qed.

Lemma set_reverse_length i l rev : length (set_reverse i l rev) = length rev.
Proof. revert i rev. induction l as [|j l IH]; intros i rev; simpl; [done|]. by rewrite IH, length_insert. Qed.

Lemma set_reverse_other i l rev k : k ∉ l → set_reverse i l rev !! k = rev !! k.
Proof.
  revert i rev. induction l as [|j l IH]; intros i rev Hk; simpl; [done|].
  rewrite IH by set_solver. rewrite list_lookup_insert_ne; [done|set_solver].
Qed.

Lemma set_reverse_in i l rev n k :
  NoDup l → l !! n = Some k → k < length rev → set_reverse i l rev !! k = Some (i + n).
Proof.
  revert i rev n. induction l as [|j l IH]; intros i rev n Hnd Hn Hk; simpl; [done|].
  apply NoDup_cons in Hnd as [Hj Hnd]. destruct n as [|n]; simpl in Hn.
  - injection Hn as ->. rewrite set_reverse_other by done.
    rewrite list_lookup_insert_eq by done. f_equal. lia.
  - rewrite (IH (S i) _ n); [f_equal; lia|done|done|by rewrite length_insert].
Qed.

Section view.
Context `{!Sel4Sys} (m : Model).

Definition is_local (i : nat) : Prop := ∃ t o, objects m !! i = Some t ∧ object t = Local o.
Definition is_extern (i : nat) : Prop := ∃ t e, objects m !! i = Some t ∧ object t = Extern_ e.

(** The invariant of the loop of [ModelView::new], after the first [n] objects. *)
Record view_inv (n : nat) (v : ModelView) : Prop := {
  vi_len : length (reverse v) = length (objects m);
  vi_local : ∀ i, i ∈ local_objects v ↔ i < n ∧ is_local i;
  vi_extern : ∀ i, i ∈ extern_objects v ↔ i < n ∧ is_extern i;
  vi_nodup : NoDup (local_objects v);
  vi_nodup' : NoDup (extern_objects v);
  vi_sorted : key_sorted (object_key m) (local_objects v);
  vi_rev_local : ∀ i j, local_objects v !! j = Some i → reverse v !! i = Some j;
  vi_rev_extern : ∀ i j, extern_objects v !! j = Some i → reverse v !! i = Some j;
}.

Lemma local_not_extern i : is_local i → is_extern i → False.
Proof. intros (t & o & H1 & H2) (t' & e & H3 & H4). congruence. Qed.

(** Sorting the local objects and recomputing their part of [reverse]. *)
Lemma view_resort n locals exts rev :
  length rev = length (objects m) →
  (∀ i, i ∈ locals ↔ i < n ∧ is_local i) → (∀ i, i ∈ exts ↔ i < n ∧ is_extern i) →
  NoDup locals → NoDup exts → n ≤ length (objects m) →
  (∀ i j, exts !! j = Some i → rev !! i = Some j) →
  view_inv n {| local_objects := sort_by_key (object_key m) locals; extern_objects := exts;
                reverse := set_reverse 0 (sort_by_key (object_key m) locals) rev |}.
Proof.
  intros Hlen Hl He Hn1 Hn2 Hn Hrev.
  assert (NoDup (sort_by_key (object_key m) locals)) as Hn1' by by rewrite sort_by_key_perm.
  split; simpl; try done.
  - by rewrite set_reverse_length.
  - intros i. by rewrite sort_by_key_perm.
  - apply sort_by_key_sorted.
  - intros i j Hj. rewrite (set_reverse_in 0 _ _ j); [done|done|done|].
    apply list_elem_of_lookup_2 in Hj. rewrite sort_by_key_perm, Hl in Hj. lia.
  - intros i j Hj. rewrite set_reverse_other; [by apply Hrev|].
    apply list_elem_of_lookup_2 in Hj. rewrite He in Hj. rewrite sort_by_key_perm, Hl.
    intros [_ Hloc]. destruct Hj as [_ Hex]. exact (local_not_extern i Hloc Hex).
Qed.

Lemma view_step_inv n v t : objects m !! n = Some t → view_inv n v → view_inv (S n) (view_step m v n t).
Proof.
  intros Ht [Hlen Hl He Hn1 Hn2 _ _ Hrev]. pose proof (lookup_lt_Some _ _ _ Ht) as Hlt.
  unfold view_step. destruct (object t) as [o|e] eqn:Ho; apply view_resort; simpl; try done.
  - intros i. rewrite elem_of_app, Hl, list_elem_of_singleton. split.
    + intros [[? ?]| ->]; [split; [lia|done]|]. split; [lia|by exists t, o].
    + intros [? ?]. destruct (decide (i = n)) as [->|]; [by right|left; split; [lia|done]].
  - intros i. rewrite He. split; [intros [? ?]; split; [lia|done]|].
    intros [? Hex]. split; [|done]. destruct (decide (i = n)) as [->|]; [|lia].
    destruct Hex as (t' & e' & H1 & H2). congruence.
  - apply NoDup_app. split_and!; [done| |by apply NoDup_singleton].
    intros i Hi ->%list_elem_of_singleton. apply Hl in Hi. lia.
  - by rewrite length_insert.
  - intros i. rewrite Hl. split; [intros [? ?]; split; [lia|done]|].
    intros [? Hloc]. split; [|done]. destruct (decide (i = n)) as [->|]; [|lia].
    destruct Hloc as (t' & o' & H1 & H2). congruence.
  - intros i. rewrite elem_of_app, He, list_elem_of_singleton. split.
    + intros [[? ?]| ->]; [split; [lia|done]|]. split; [lia|by exists t, e].
    + intros [? ?]. destruct (decide (i = n)) as [->|]; [by right|left; split; [lia|done]].
  - apply NoDup_app. split_and!; [done| |by apply NoDup_singleton].
    intros i Hi ->%list_elem_of_singleton. apply He in Hi. lia.
  - intros i j. rewrite lookup_app_Some. intros [Hj|[Hge Hj]].
    + rewrite list_lookup_insert_ne; [by apply Hrev|]. intros ->.
      apply list_elem_of_lookup_2, He in Hj. lia.
    + apply list_lookup_singleton_Some in Hj as [Hj <-].
      rewrite list_lookup_insert_eq by lia. f_equal. lia.
Qed.

Lemma view_loop_inv n objs v :
  drop n (objects m) = objs → n ≤ length (objects m) → view_inv n v →
  view_inv (length (objects m)) (view_loop m n objs v).
Proof.
  revert n v. induction objs as [|t objs IH]; intros n v Hd Hn Hv; simpl.
  - assert (length (drop n (objects m)) = 0) as Hl by by rewrite Hd.
    rewrite length_drop in Hl. by replace (length (objects m)) with n by lia.
  - assert (objects m !! n = Some t) as Ht by (rewrite <-(Nat.add_0_r n), <-lookup_drop, Hd; done).
    apply IH; [|by apply lookup_lt_Some in Ht|by apply view_step_inv].
    rewrite (drop_S _ t n Ht) in Hd. by simplify_eq.
Qed.

Lemma model_view_inv : view_inv (length (objects m)) (model_view_new m).
Proof.
  apply (view_loop_inv 0); [done|lia|]. split; simpl; try done.
  - by rewrite length_replicate.
  - intros i. split; [by intros ?%elem_of_nil|lia].
  - intros i. split; [by intros ?%elem_of_nil|lia].
  - constructor.
  - constructor.
  - constructor.
Qed.
End view.

(** ** Frames are filled with what their digests name *)
Lemma zoom_ok_inv {S T E E' A} (err : E → E') (g : S → T) (p : S → T → S) (m : M T E A) s a s' :
  zoom err g p m s = (Ok a, s') → ∃ t, m (g s) = (Ok a, t) ∧ s' = p s t.
Proof. unfold zoom. destruct (m (g s)) as [[] t]; naive_solver. Qed.

Lemma zoom_mspec {S T E E' A} strict (err : E → E') (g : S → T) (p : S → T → S) (m : M T E A)
    (Q : A → S → Prop) s :
  mspec strict m (λ a t, Q a (p s t)) (g s) → mspec strict (zoom err g p m) Q s.
Proof. unfold mspec, zoom. by destruct (m (g s)) as [[] t]. Qed.

Ltac run_inv :=
  repeat (ok_inv || match goal with
  | H : zoom _ _ _ _ _ = (Ok _, _) |- _ => apply zoom_ok_inv in H as (? & ? & ->)
  | H : (if bool_decide _ then _ else _) _ = (Ok _, _) |- _ => case_bool_decide
  | H : alloc_op _ _ = (Ok _, _) |- _ => unfold alloc_op in H
  | H : throw _ _ = (Ok _, _) |- _ => discriminate H
  end).

Lemma elem_of_fill_entries m i j e :
  (i, j, e) ∈ fill_entries m → ∃ t, objects m !! i = Some t ∧ fills_of t !! j = Some e.
Proof.
  unfold fill_entries. rewrite list_elem_of_join. intros (l & Hin & Hl).
  apply elem_of_lookup_imap in Hl as (i' & t & -> & Ht).
  apply elem_of_lookup_imap in Hin as (j' & e' & Heq & He). simplify_eq. by exists t.
Qed.

(** The views of a kernel that keeps a record, for a program with the address space [space]. *)
Definition log_platform (headers : Sel4Sys) (space : CPtr) (hash : list Z → list Z) : Platform LogKernel.kernel :=
  {| write_view vaddr offset bs k := k ++ [LogKernel.Wrote vaddr offset bs];
     read_view := LogKernel.seen_bytes space;
     sha256 := hash;
     read_view_write := LogKernel.read_back space |}.

Section digests.
Context {K : Type} `{!Sel4 K} `{!Platform K}.

Lemma fill_frame_checks res size frame offset digest content (k k' : K) :
  fill_frame res size frame offset digest content k = (Ok tt, k') →
  sha256 content = digest ∧ offset + length content ≤ frame_bytes size.
Proof.
  unfold fill_frame. intros Hrun. run_inv. rewrite read_view_write in *.
  repeat match goal with H : bool_decide _ = true |- _ => apply bool_decide_eq_true in H end. done.
Qed.

Lemma realize_continue_checks p i j content (s s' : Realizer * K) :
  realize_continue p i j content s = (Ok tt, s') →
  ∃ t e, objects (model p) !! i = Some t ∧ fills_of t !! j = Some e ∧ sha256 content = content_digest e.
Proof.
  unfold realize_continue. intros Hrun. apply bind_ok_inv in Hrun as (t & s1 & Ht & Hrun).
  apply lift_ok_inv in Ht as [Ht%unwrap_ok_inv ->].
  destruct (object t) as [o|] eqn:Ho; [|done].
  destruct o as [| | | | | |fill|fill| | | |]; run_inv; try done;
    match goal with H : fill_frame _ _ _ _ _ _ _ = _ |- _ => apply fill_frame_checks in H as [? ?] end;
    eexists t, _; unfold fills_of; by rewrite Ho.
Qed.

(** C6: Only the content that was measured is loaded.  When [fill_frames_simple] succeeds, every
    fill entry of the model was given its own slice of the blob, in the order of the model, the
    slice lies in the blob, and the hash of the slice is the digest of the entry. *)
Theorem fill_frames_measured p blob (s s' : Realizer * K) n i j e :
  fill_frames_simple p blob s = (Ok tt, s') → fill_entries (model p) !! n = Some (i, j, e) →
  let offset := sum_list ((λ x : nat * nat * FillEntry, fill_length x.2) <$> take n (fill_entries (model p))) in
  offset + fill_length e ≤ length blob ∧
  sha256 (take (fill_length e) (drop offset blob)) = content_digest e.
Proof.
  unfold fill_frames_simple. intros Hrun Hn.
  assert (∀ es k s0, (∀ x, x ∈ es → x ∈ fill_entries (model p)) →
    fill_loop p es blob k s0 = (Ok tt, s') → ∀ n i j e, es !! n = Some (i, j, e) →
    k + sum_list ((λ x : nat * nat * FillEntry, fill_length x.2) <$> take n es) + fill_length e ≤ length blob ∧
    sha256 (take (fill_length e) (drop (k + sum_list ((λ x : nat * nat * FillEntry, fill_length x.2) <$> take n es)) blob))
      = content_digest e) as Hloop.
  { clear. induction es as [|[[i' j'] e'] es IH]; intros k s0 Hsub Hrun n i j e Hn; [done|].
    cbn [fill_loop] in Hrun. apply bind_ok_inv in Hrun as (content & s1 & Hs & Hrun).
    apply lift_ok_inv in Hs as [Hs ->]. apply bind_ok_inv in Hrun as ([] & s2 & Hc & Hrun).
    unfold slice in Hs. case_bool_decide as Hb; [|done]. injection Hs as <-.
    destruct n as [|n]; simpl in Hn.
    - injection Hn as -> -> ->. apply realize_continue_checks in Hc as (t & e0 & Ht & He0 & Hsha).
      destruct (elem_of_fill_entries (model p) i j e) as (t' & Ht' & He'); [apply Hsub; constructor|].
      simplify_eq. rewrite firstn_O. cbn [fmap list_fmap sum_list]. rewrite Nat.add_0_r.
      rewrite (Nat.add_comm k), Nat.add_sub in Hsha. split; [lia|done].
    - destruct (IH (k + fill_length e') s2) with (n := n) (i := i) (j := j) (e := e) as [H1 H2];
        [intros x Hx; apply Hsub; by constructor|done|done|].
      cbn [take fmap list_fmap sum_list]. rewrite Nat.add_assoc. done. }
  apply (Hloop _ 0 s) with (n := n) (i := i) (j := j); [done|done|done].
Qed.
End digests.

(** ** Slots of the realm's region *)
Lemma slots_left_all c : cregion_ok c → (∀ sl, sl < 2 ^ radix c → slot_free c sl) → slots_left c = 2 ^ radix c.
Proof.
  intros Hok Hf. unfold slots_left.
  assert (filter (λ p : nat * bool, p.2 = false) (map_to_list (elements (set c))) = map_to_list (elements (set c))) as ->.
  { assert (∀ l : list (nat * bool), (∀ p, p ∈ l → p.2 = false) → filter (λ p : nat * bool, p.2 = false) l = l) as H.
    { induction l as [|p l IH]; intros Hp; [done|]. rewrite filter_cons, decide_True by (apply Hp; constructor).
      f_equal. apply IH. intros q Hq. apply Hp. by constructor. }
    apply H. intros [sl b] Hp. apply elem_of_map_to_list in Hp as Hl.
    assert (sl < 2 ^ radix c) as Hlt by (apply Hok; by eexists).
    specialize (Hf sl Hlt). unfold slot_free in Hf. simpl. congruence. }
  rewrite length_map_to_list, <-size_dom.
  assert (dom (elements (set c)) = (set_seq 0 (2 ^ radix c) : gset nat)) as ->.
  { apply set_eq. intros sl. rewrite elem_of_dom, elem_of_set_seq, <-(Hok sl). lia. }
  apply size_set_seq.
Qed.

Section life.
Context {K : Type} `{!Sel4 K} `{!Platform K}.
Implicit Types (r : Realizer) (k : K).

Lemma create_objects_slots cr bps (a : Allocator) k :
  mspec false (create_objects cr bps) (λ res _,
    slots_left cr = length bps + slots_left res.1.1 ∧ length res.1.2 = length bps) (a, k).
Proof.
  revert cr a k. induction bps as [|bp bps IH]; intros cr a k; cbn [create_objects].
  { by apply mspec_ret. }
  apply mspec_bind, mspec_lift; [done|]. intros [o cr1] Ho.
  apply mspec_bind, mspec_lift; [done|]. intros slot Hslot%unwrap_ok_inv. simpl in Hslot. subst o.
  destruct (alloc_cases (E := Error) cr) as [(sl & Ha & Hf & _)|[Ha _]]; rewrite Ha in Ho; simplify_eq.
  apply mspec_bind. unfold mspec at 1.
  destruct (create_object _ _ _ _) as [[id|e|] [a1 k1]]; [|done..].
  apply mspec_bind. eapply mspec_mono; [apply IH|].
  intros [[cr2 slots] ids] s [Hsl Hlen]. simpl in *. apply mspec_ret. simpl.
  rewrite (slots_left_mark cr slot Hf), Hsl, Hlen. done.
Qed.

(** Where the region of a realm lies: under the slot [rs] of the allocator's region. *)
Definition realm_region (c : CRegion) (rs : Slot) (cr : CRegion) : Prop :=
  let root := cr_relative_cptr c rs in
  shape cr = (root, 0%Z, word_cast 64 (64 - Z.of_nat (depth (path root)) - Z.of_nat (radix cr)), radix cr).

Lemma mspec_any {S E A} (m : M S E A) (Q : A → S → Prop) s : (∀ a s', Q a s') → mspec false m Q s.
Proof. intros HQ. unfold mspec. by destruct (m s) as [[] ?]. Qed.

Lemma create_cnode_region rx (a : Allocator) k :
  mspec false (create_cnode rx) (λ res _, realm_region (cregion a) res.2 res.1.1) (a, k).
Proof.
  unfold create_cnode, alloc_slot at 1. do 2 apply mspec_bind. apply mspec_gets.
  apply mspec_bind, mspec_lift; [done|]. intros [o c1] Ho%alloc_shape.
  apply mspec_bind, mspec_modify, mspec_lift; [done|]. intros rs _.
  apply mspec_bind, mspec_gets. cbn [fst snd with_cregion cregion].
  apply mspec_bind, mspec_lift; [done|]. intros cr Hcr%cregion_new_fields.
  do 6 (apply mspec_bind, mspec_any; intros ? ?). apply mspec_ret.
  unfold realm_region. cbn [fst snd] in *. rewrite (cr_relative_cptr_shape _ _ _ Ho) in Hcr.
  assert (radix cr = rx) as -> by by injection Hcr. done.
Qed.

Lemma create_objects_region cr bps (a : Allocator) k :
  mspec false (create_objects cr bps) (λ res _,
    shape res.1.1 = shape cr ∧ NoDup res.1.2 ∧ Forall (slot_free cr) res.1.2) (a, k).
Proof.
  revert cr a k. induction bps as [|bp bps IH]; intros cr a k; cbn [create_objects].
  { apply mspec_ret. simpl. by split_and!; [|constructor|]. }
  apply mspec_bind, mspec_lift; [done|]. intros [o cr1] Ho.
  apply mspec_bind, mspec_lift; [done|]. intros slot Hslot%unwrap_ok_inv. simpl in Hslot. subst o.
  destruct (alloc_cases (E := Error) cr) as [(sl & Ha & Hf & _)|[Ha _]]; rewrite Ha in Ho; simplify_eq.
  apply mspec_bind. unfold mspec at 1.
  destruct (create_object _ _ _ _) as [[id|e|] [a1 k1]]; [|done..].
  apply mspec_bind. eapply mspec_mono; [apply IH|].
  intros [[cr2 slots] ids] s (Hsh & Hnd & Hfree). simpl in *. apply mspec_ret. simpl.
  rewrite shape_mark in Hsh. rewrite Forall_forall in Hfree. unfold slot_free in *. setoid_rewrite mark_lookup in Hfree.
  split_and!; [done| |].
  - constructor; [|done]. intros Hin%Hfree. by rewrite decide_True in Hin.
  - constructor; [done|]. apply Forall_forall. intros x Hx%Hfree. by case_decide.
Qed.

Lemma alloc_op_mspec {X} strict (p : M (Allocator * K) Error X) (Q : X → Realizer * K → Prop) r k :
  mspec strict p (λ x t, Q x (with_allocator r t.1, t.2)) (allocator r, k) →
  mspec strict (alloc_op p) Q (r, k).
Proof. intros H. by apply zoom_mspec. Qed.

Definition partial_ids (p : PartialSubsystem) : list UntypedId :=
  p_cnode_untyped_id p :: local_object_untyped_ids p.
Definition subsystem_ids (sub : Subsystem) : list UntypedId :=
  cnode_untyped_id sub :: object_untyped_ids sub.

Lemma map_outcome_length {E X Y} (f : X → outcome E Y) l ys : map_outcome f l = Ok ys → length ys = length l.
Proof.
  revert ys. induction l as [|x l IH]; intros ys; simpl; [by intros [= <-]|].
  intros (y & _ & (ys' & Hys & [= <-])%outcome_bind_ok)%outcome_bind_ok. simpl. by rewrite (IH ys').
Qed.

Lemma map_outcome_lookup {E X Y} (f : X → outcome E Y) l ys n x :
  map_outcome f l = Ok ys → l !! n = Some x → ∃ y, ys !! n = Some y ∧ f x = Ok y.
Proof.
  revert ys n. induction l as [|x' l IH]; intros ys n; simpl; [done|].
  intros (y & Hy & (ys' & Hys & [= <-])%outcome_bind_ok)%outcome_bind_ok.
  destruct n as [|n]; simpl; [intros [= <-]; by exists y|by apply IH].
Qed.

Lemma size_bits_to_contain_bound x : x < 2 ^ size_bits_to_contain x ∧ 2 ^ size_bits_to_contain x ≤ 2 * x + 1.
Proof.
  destruct x as [|x]; [simpl; lia|]. unfold size_bits_to_contain.
  destruct (Nat.log2_spec (S x)) as [H1 H2]; [lia|]. split; [done|].
  rewrite Nat.pow_succ_r by lia. lia.
Qed.

(** The slots that the frames of a model need besides its objects. *)
Definition model_mappings (m : Model) : nat :=
  sum_list ((λ i, match objects m !! i with Some {| object := Local o |} => frame_mappings o | _ => 0 end)
    <$> local_objects (model_view_new m)).

Lemma mappings_of (m : Model) l ns :
  map_outcome (E := Failure) (λ i, top ← index (objects m) i;
    Ok (match object top with Local o => frame_mappings o | Extern_ _ => 0 end)) l = Ok ns →
  ns = (λ i, match objects m !! i with Some {| object := Local o |} => frame_mappings o | _ => 0 end) <$> l.
Proof.
  revert ns. induction l as [|i l IH]; intros ns; simpl; [by intros [= <-]|].
  intros (n & Hn & (ns' & Hns & [= <-])%outcome_bind_ok)%outcome_bind_ok.
  apply outcome_bind_ok in Hn as (top & Htop & [= <-]). apply unwrap_ok_inv in Htop.
  rewrite (IH ns' Hns), Htop. destruct top as [[] ?]; done.
Qed.

Lemma realize_start_spec m r k :
  wf (allocator r) →
  mspec false (realize_start m) (λ p s', ∃ ids new rs,
    ids ≡ₚ partial_ids p ∧ evolves (allocator r) ids (new ++ [rs]) (allocator s'.1) ∧
    (rs ∉ tree_slots (cap_derivation_tree (allocator s'.1))) ∧
    model p = m ∧ model_view p = model_view_new m ∧
    length (local_object_slots p) = length (local_objects (model_view_new m)) ∧
    model_mappings m < slots_left (p_cregion p) ∧
    initialization_resources s'.1 = initialization_resources r ∧ externs s'.1 = externs r ∧
    realm_region (cregion (allocator r)) rs (p_cregion p) ∧ NoDup (local_object_slots p) ∧
    Forall (λ sl, sl < 2 ^ radix (p_cregion p)) (local_object_slots p)) (r, k).
Proof.
  intros Hwf. unfold realize_start.
  apply mspec_bind, mspec_lift; [done|]. intros ns Hns. apply mappings_of in Hns.
  apply mspec_bind, mspec_lift; [done|]. intros bps Hbps. apply map_outcome_length in Hbps.
  apply mspec_bind, mspec_lift; [done|]. intros req _.
  apply mspec_bind, mspec_gets. apply mspec_bind.
  destruct (peek_space _ _); [|done]. apply mspec_ret.
  apply mspec_bind, alloc_op_mspec.
  eapply mspec_mono; [apply mspec_and; [apply create_cnode_spec; done|apply create_cnode_region]|].
  intros [[cr id] rs] [a1 k1] [(new1 & _ & Hcr & Hrx & Hfree & Hev1 & Hrs1) Hregion]. simpl in *.
  apply mspec_bind, alloc_op_mspec. simpl.
  eapply mspec_mono; [apply mspec_and; [apply mspec_and; [apply create_objects_spec; by apply Hev1|apply create_objects_slots]
    |apply create_objects_region]|].
  intros [[cr2 slots] ids] [a2 k2] [[(new2 & _ & Hlen & Hev2) [Hsl _]] (Hshape & Hnd & Hall)]. simpl in *.
  apply mspec_ret. simpl. assert (radix cr2 = radix cr) as Hrx2 by by injection Hshape.
  pose proof (evolves_trans _ _ _ _ _ _ _ Hev1 Hev2) as Hev. rewrite app_assoc in Hev.
  eexists _, (new2 ++ new1), rs. split_and!.
  2: exact Hev.
  all: (try done).
  - unfold partial_ids. simpl. rewrite reverse_Permutation. by rewrite Permutation_app_comm.
  - intros [Hin|Hin]%(ev_slots _ _ _ _ Hev2); [|done].
    pose proof (ev_free _ _ _ _ Hev2) as Hf. rewrite Forall_forall in Hf. specialize (Hf rs Hin).
    unfold slot_free in Hf. rewrite (ev_region _ _ _ _ Hev1) in Hf.
    by rewrite decide_True in Hf by (apply elem_of_app; right; constructor).
  - by rewrite Hlen.
  - rewrite slots_left_all in Hsl by (done || (by rewrite Hrx)). rewrite Hrx in Hsl.
    unfold model_mappings. rewrite <-Hns.
    pose proof (proj1 (size_bits_to_contain_bound (length (local_objects (model_view_new m)) + sum_list ns))).
    lia.
  - unfold realm_region in *. by rewrite Hshape, Hrx2.
  - eapply Forall_impl; [done|]. intros sl Hsl'. simpl. rewrite Hrx2. apply Hcr. by eexists.
Qed.

(** ** Destruction *)
Section destroy.
Context (strict : bool) (Hacc : strict = true → accepts (K := K)).

(** The allocator after the release of some blocks. *)
Record releases (a : Allocator) (rest : list UntypedId) (a' : Allocator) : Prop := {
  rl_wf : wf a';
  rl_used : used_ids (cap_derivation_tree a') ≡ₚ rest;
  rl_given : given (cap_derivation_tree a') ≡ₚ given (cap_derivation_tree a);
  rl_slots : ∀ sl, sl ∈ tree_slots (cap_derivation_tree a') → sl ∈ tree_slots (cap_derivation_tree a);
  rl_region : ∀ sl, sl ∉ tree_slots (cap_derivation_tree a) →
    elements (set (cregion a')) !! sl = elements (set (cregion a)) !! sl;
}.

Lemma releases_trans a1 rest1 a2 rest2 a3 :
  releases a1 rest1 a2 → releases a2 rest2 a3 → releases a1 rest2 a3.
Proof.
  intros [Hw1 Hu1 Hg1 Hs1 Hr1] [Hw2 Hu2 Hg2 Hs2 Hr2]. split; try done.
  - by rewrite Hg2.
  - intros sl ?. by apply Hs1, Hs2.
  - intros sl Hsl. rewrite Hr2 by (intros ?; by apply Hsl, Hs1). by apply Hr1.
Qed.

Lemma revoke_releases id rest r k :
  wf (allocator r) → used_ids (cap_derivation_tree (allocator r)) ≡ₚ id :: rest →
  mspec strict (alloc_op (revoke_and_free id)) (λ _ s',
    releases (allocator r) rest (allocator s'.1) ∧ externs s'.1 = externs r ∧
    initialization_resources s'.1 = initialization_resources r) (r, k).
Proof.
  intros Hwf Hu. apply alloc_op_mspec. eapply mspec_mono.
  { apply (revoke_and_free_spec strict Hacc id); [done|]. rewrite Hu. constructor. }
  intros [] [a' k'] (Hwf' & Hu' & Hg & old & Hreg & Hsl). simpl in *. split_and!; [|done|done].
  split; try done.
  - rewrite Hu in Hu'. by apply Permutation_cons_inv in Hu'.
  - intros sl. rewrite Hsl, elem_of_app. by right.
  - intros sl Hn. rewrite Hreg, marks_lookup. rewrite decide_False; [done|].
    intros Hin. apply Hn. rewrite Hsl. apply elem_of_app. by left.
Qed.

Lemma revoke_list_releases ids rest r k :
  wf (allocator r) → used_ids (cap_derivation_tree (allocator r)) ≡ₚ ids ++ rest →
  mspec strict (for_each (λ id, alloc_op (revoke_and_free id)) ids) (λ _ s',
    releases (allocator r) rest (allocator s'.1) ∧ externs s'.1 = externs r ∧
    initialization_resources s'.1 = initialization_resources r) (r, k).
Proof.
  revert r k. induction ids as [|id ids IH]; intros r k Hwf Hu; cbn [for_each].
  { apply mspec_ret. by split_and!; [split|..]. }
  apply mspec_bind. eapply mspec_mono; [by apply (revoke_releases id (ids ++ rest))|].
  intros [] [r1 k1] (Hr1 & He1 & Hi1). simpl in *.
  eapply mspec_mono; [apply IH; by apply Hr1|].
  intros [] [r2 k2] (Hr2 & He2 & Hi2). simpl in *. split_and!; [by eapply releases_trans|congruence|congruence].
Qed.

Lemma destroy_spec sub rest r k :
  wf (allocator r) → used_ids (cap_derivation_tree (allocator r)) ≡ₚ subsystem_ids sub ++ rest →
  mspec strict (destroy sub) (λ _ s',
    releases (allocator r) rest (allocator s'.1) ∧ externs s'.1 = sub_externs sub ∪ externs r ∧
    initialization_resources s'.1 = initialization_resources r) (r, k).
Proof.
  intros Hwf Hu. unfold destroy. apply mspec_bind.
  eapply mspec_mono; [by apply (revoke_releases _ (object_untyped_ids sub ++ rest))|].
  intros [] [r1 k1] (Hr1 & He1 & Hi1). simpl in *. apply mspec_bind.
  eapply mspec_mono; [apply (revoke_list_releases _ rest); by apply Hr1|].
  intros [] [r2 k2] (Hr2 & He2 & Hi2). simpl in *. apply mspec_modify. simpl.
  split_and!; [by eapply releases_trans|by rewrite He2, He1|congruence].
Qed.
End destroy.

(** ** Externs *)
Lemma take_externs_spec m idxs taken r k :
  taken ##ₘ externs r →
  mspec false (take_externs m idxs taken) (λ res s',
    res.1 ##ₘ externs s'.1 ∧ res.1 ∪ externs s'.1 = taken ∪ externs r ∧
    allocator s'.1 = allocator r ∧ initialization_resources s'.1 = initialization_resources r) (r, k).
Proof.
  revert taken r k. induction idxs as [|i idxs IH]; intros taken r k Hd; cbn [take_externs].
  { by apply mspec_ret. }
  apply mspec_bind, mspec_lift; [done|]. intros top _. destruct (object top) as [|ty]; [done|].
  apply mspec_bind, mspec_gets. apply mspec_bind, mspec_lift; [done|]. intros ext Hext%unwrap_ok_inv.
  apply mspec_bind, mspec_modify. simpl in *. apply mspec_bind, mspec_assert; [done|]. intros _.
  apply mspec_bind. eapply mspec_mono.
  { apply (IH (<[name top := ext]> taken)). simpl. apply map_disjoint_insert_l. split; [apply lookup_delete_eq|].
    by apply map_disjoint_delete_r. }
  intros [taken' caps] [r' k'] (H1 & H2 & H3 & H4). simpl in *. apply mspec_ret. simpl.
  split_and!; [done| |done|done]. rewrite H2.
  assert (taken !! name top = None) as Hn by by eapply map_disjoint_Some_r.
  rewrite <-insert_union_l, insert_union_r by done. f_equal. by apply insert_delete_id.
Qed.

Lemma realize_finish_spec p r k :
  mspec false (realize_finish p) (λ sub s',
    subsystem_ids sub = partial_ids p ∧ allocator s'.1 = allocator r ∧
    sub_externs sub ##ₘ externs s'.1 ∧ sub_externs sub ∪ externs s'.1 = externs r) (r, k).
Proof.
  unfold realize_finish. apply mspec_bind. eapply mspec_mono; [apply take_externs_spec, map_disjoint_empty_l|].
  intros [taken caps] [r1 k1] (Hd & Hu & Ha & _). simpl in *.
  apply mspec_bind, mspec_lift; [done|]. intros all_caps _.
  apply mspec_bind, mspec_gets. apply mspec_bind, zoom_mspec.
  unfold mspec at 1. destruct (initialize _ _ _ _ _) as [[cores|e|] [cr k2]]; [|done..].
  apply mspec_ret. simpl. split_and!; [done|done|done|]. by rewrite map_empty_union in Hu.
Qed.

Lemma realize_continue_frame p i j content r k :
  mspec false (realize_continue p i j content) (λ _ s', s'.1 = r) (r, k).
Proof.
  unfold realize_continue. apply mspec_bind, mspec_lift; [done|]. intros top _.
  destruct (object top) as [o|]; [|done].
  apply mspec_bind, mspec_lift; [done|]. intros c _. apply mspec_bind, mspec_gets.
  destruct o; try done; (apply mspec_bind, mspec_lift; [done|]; intros ? _);
    (apply mspec_bind, mspec_lift; [done|]; intros ? _); apply zoom_mspec;
    unfold mspec; destruct (fill_frame _ _ _ _ _ _ _) as [[] ?]; done.
Qed.

(** ** Reachable realizers

    [realizer_reachable b live s]: [s] is reached, and [live] are the blocks of the subsystems
    that were started and not destroyed. *)
Inductive realizer_reachable (b : AllocatorBuilder) : list (list UntypedId) → Realizer * K → Prop :=
| rr_new r k : build (E := Failure) b = Ok (allocator r) → realizer_reachable b [] (r, k)
| rr_start live s m p s' :
    realizer_reachable b live s → realize_start m s = (Ok p, s') →
    realizer_reachable b (partial_ids p :: live) s'
| rr_continue live s p i j content s' :
    realizer_reachable b live s → realize_continue p i j content s = (Ok tt, s') →
    realizer_reachable b live s'
| rr_finish live s p sub s' :
    realizer_reachable b live s → realize_finish p s = (Ok sub, s') → realizer_reachable b live s'
| rr_destroy live1 live2 sub s s' :
    realizer_reachable b (live1 ++ subsystem_ids sub :: live2) s → destroy sub s = (Ok tt, s') →
    realizer_reachable b (live1 ++ live2) s'
| rr_kernel live r k k' : realizer_reachable b live (r, k) → realizer_reachable b live (r, k').

Lemma join_middle (l1 l2 : list (list UntypedId)) ids :
  mjoin (l1 ++ ids :: l2) ≡ₚ ids ++ mjoin (l1 ++ l2).
Proof. rewrite <-(Permutation_middle l1 l2 ids). done. Qed.

Lemma realizer_inv b live s :
  builder_ok b → realizer_reachable b live s →
  wf (allocator s.1) ∧ given (cap_derivation_tree (allocator s.1)) ≡ₚ builder_blocks b ∧
  used_ids (cap_derivation_tree (allocator s.1)) ≡ₚ mjoin live.
Proof.
  intros Hb Hr. assert (false = true → accepts (K := K)) as Hn by done.
  induction Hr as [r k Ha|live [r k] m p s' _ (Hwf & Hg & Hu) Hrun|live [r k] p i j content s' _ IH Hrun
    |live [r k] p sub s' _ IH Hrun|live1 live2 sub [r k] s' _ (Hwf & Hg & Hu) Hrun|live r k k' _ IH].
  - destruct (build_spec (E := Failure) b Hb) as (a & Ha' & Hwf & Hg & Hu & _). rewrite Ha in Ha'.
    injection Ha' as <-. split_and!; [done|done|]. cbn [fst]. by rewrite Hu.
  - pose proof (realize_start_spec m r k Hwf) as Hs.
    apply (mspec_ok _ _ _ _ _ _ Hs) in Hrun as (ids & new & rs & Hids & Hev & _). split_and!; [apply Hev| |].
    + by rewrite (ev_given _ _ _ _ Hev).
    + rewrite (ev_used _ _ _ _ Hev), Hids. cbn [fst] in *. by rewrite Hu.
  - pose proof (realize_continue_frame p i j content r k) as Hs.
    apply (mspec_ok _ _ _ _ _ _ Hs) in Hrun. by rewrite Hrun.
  - pose proof (realize_finish_spec p r k) as Hs.
    apply (mspec_ok _ _ _ _ _ _ Hs) in Hrun as (_ & Ha & _). by rewrite Ha.
  - rewrite join_middle in Hu. pose proof (destroy_spec false Hn sub _ r k Hwf Hu) as Hs.
    apply (mspec_ok _ _ _ _ _ _ Hs) in Hrun as (Hrel & _). split_and!; [apply Hrel| |apply Hrel].
    by rewrite (rl_given _ _ _ Hrel).
  - done.
Qed.
End life.

(** ** Theorems *)
Section theorems.
Context {K : Type} `{!Sel4 K} `{!Platform K}.
Implicit Types (s : Realizer * K).

(** C10: Realms do not share memory.  In every state that a realizer reaches from disjoint
    blocks, whatever models it is given and whatever the kernel answers, the blocks of memory of
    all live subsystems, those of one and those of different ones, are pairwise disjoint and lie
    in the memory that the loader was given. *)
Theorem realms_memory_disjoint b live s :
  builder_ok b → realizer_reachable b live s →
  pairwise_disjoint (mjoin live) ∧
  ∀ id, id ∈ mjoin live → ∃ g, g ∈ builder_blocks b ∧ in_block (size_bits g) (paddr g) id.
Proof.
  intros Hb Hr. destruct (realizer_inv b live s Hb Hr) as ([Hinv _] & Hg & Hu).
  pose proof (inv_tree _ _ _ _ Hinv) as Hok. split.
  - rewrite <-Hu. pose proof (tree_leaves_disjoint false 64 0 _ Hok) as Hd. rewrite ids_of_split in Hd.
    intros i j p q Hi Hj Hij. apply (Hd i j p q); [by apply lookup_app_l_Some..|done].
  - intros id Hid. rewrite <-Hu in Hid. apply elem_of_ids in Hid.
    destruct (leaf_in_given 64 _ 0 _ Hok Hid) as (g & Hin & Hbl). exists g. by rewrite <-Hg.
Qed.

(** C33: A live subsystem can be destroyed.  On a kernel that accepts the invocations, [destroy]
    of a live subsystem succeeds: afterwards exactly the memory of the others is in use, and the
    external objects it held are the realizer's again. *)
Theorem destroy_succeeds b live1 live2 sub s :
  accepts (K := K) → builder_ok b → realizer_reachable b (live1 ++ subsystem_ids sub :: live2) s →
  ∃ s', destroy sub s = (Ok tt, s') ∧ wf (allocator s'.1) ∧
    used_ids (cap_derivation_tree (allocator s'.1)) ≡ₚ mjoin (live1 ++ live2) ∧
    externs s'.1 = sub_externs sub ∪ externs s.1.
Proof.
  intros Hacc Hb Hr. destruct (realizer_inv b _ s Hb Hr) as (Hwf & Hg & Hu). destruct s as [r k].
  rewrite join_middle in Hu. pose proof (destroy_spec true (λ _, Hacc) sub _ r k Hwf Hu) as Hs.
  apply mspec_run in Hs as ([] & s' & Hrun & Hrel & He & _). exists s'.
  split_and!; [done|apply Hrel|apply Hrel|done].
Qed.

(** External objects come back.  What [realize_finish] takes out of the realizer's external
    objects is exactly what the subsystem holds, so destroying the subsystem restores them. *)
Lemma externs_roundtrip p sub s s1 s2 :
  realize_finish p s = (Ok sub, s1) → destroy sub s1 = (Ok tt, s2) → externs s2.1 = externs s.1.
Proof.
  intros Hf Hd. destruct s as [r k], s1 as [r1 k1].
  pose proof (realize_finish_spec p r k) as Hs.
  apply (mspec_ok _ _ _ _ _ _ Hs) in Hf as (_ & _ & _ & Hu). simpl in *. rewrite <-Hu.
  assert (∀ ids t t', for_each (λ id, alloc_op (K := K) (revoke_and_free id)) ids t = (Ok tt, t') →
    externs t'.1 = externs t.1) as Hloop.
  { induction ids as [|id ids IH]; intros t t' Hrun; cbn [for_each] in Hrun; run_inv; [done|].
    match goal with H : for_each _ _ _ = _ |- _ => rewrite (IH _ _ H) end. done. }
  unfold destroy in Hd. run_inv. simpl.
  match goal with H : for_each _ _ _ = _ |- _ => rewrite (Hloop _ _ _ H) end. done.
Qed.

(** The node of a realm is large enough.  After [realize_start], the region of the realm has
    a slot for every local object of the model, and more slots left than its page tables have
    frames to map, each of which takes one. *)
Lemma realm_slots_suffice b live m p s s' :
  builder_ok b → realizer_reachable b live s → realize_start m s = (Ok p, s') →
  length (local_object_slots p) = length (local_objects (model_view_new m)) ∧
  model_mappings m < slots_left (p_cregion p).
Proof.
  intros Hb Hr Hrun. destruct (realizer_inv b _ s Hb Hr) as (Hwf & _). destruct s as [r k].
  pose proof (realize_start_spec m r k Hwf) as Hs.
  apply (mspec_ok _ _ _ _ _ _ Hs) in Hrun as (ids & new & rs & _ & _ & _ & _ & _ & Hl & Hsl & _). done.
Qed.

(** Every realm leaks a slot.  The slot of the allocator's region that [create_cnode] takes
    for the node of a realm is free before the realm is made, and still taken after the realm was
    destroyed, although no node of the tree uses it: nothing gives it back. *)
Lemma realm_slot_leaks b live m p sub s s1 s2 :
  builder_ok b → realizer_reachable b live s → realize_start m s = (Ok p, s1) →
  subsystem_ids sub = partial_ids p → destroy sub s1 = (Ok tt, s2) →
  ∃ rs, slot_free (cregion (allocator s.1)) rs ∧ slot_used (cregion (allocator s2.1)) rs ∧
    rs ∉ tree_slots (cap_derivation_tree (allocator s2.1)).
Proof.
  intros Hb Hr Hrun Hids Hd. destruct (realizer_inv b _ s Hb Hr) as (Hwf & _). destruct s as [r k], s1 as [r1 k1].
  pose proof (realize_start_spec m r k Hwf) as Hs.
  apply (mspec_ok _ _ _ _ _ _ Hs) in Hrun as (ids & new & rs & Hp & Hev & Hrs & _). simpl in *.
  assert (false = true → accepts (K := K)) as Hn by done.
  assert (used_ids (cap_derivation_tree (allocator r1)) ≡ₚ
    subsystem_ids sub ++ used_ids (cap_derivation_tree (allocator r))) as Hu.
  { by rewrite (ev_used _ _ _ _ Hev), Hp, Hids. }
  pose proof (destroy_spec false Hn sub _ r1 k1 (ev_wf _ _ _ _ Hev) Hu) as Hs2.
  apply (mspec_ok _ _ _ _ _ _ Hs2) in Hd as (Hrel & _). exists rs. split_and!.
  - pose proof (ev_free _ _ _ _ Hev) as Hf. apply Forall_app in Hf as [_ Hf]. by inversion Hf.
  - unfold slot_used. rewrite (rl_region _ _ _ Hrel) by done. rewrite (ev_region _ _ _ _ Hev).
    by rewrite decide_True by (apply elem_of_app; right; constructor).
  - intros Hin. by apply Hrs, (rl_slots _ _ _ Hrel).
Qed.

(** The two numberings of a model are inverse.  [ModelView] lists the local objects in the
    order of their sizes, and the external ones; [reverse] gives the place of every object in
    its list, so that the capability of an object is found at its own slot. *)
Lemma model_view_inverse `{!Sel4Sys} m i t :
  objects m !! i = Some t →
  ∃ j, reverse (model_view_new m) !! i = Some j ∧
    match object t with
    | Local _ => local_objects (model_view_new m) !! j = Some i
    | Extern_ _ => extern_objects (model_view_new m) !! j = Some i
    end.
Proof.
  intros Ht. destruct (model_view_inv m) as [_ Hl He _ _ _ Hrl Hre].
  pose proof (lookup_lt_Some _ _ _ Ht) as Hlt. destruct (object t) as [o|e] eqn:Ho.
  - assert (i ∈ local_objects (model_view_new m)) as [j Hj]%list_elem_of_lookup
      by (apply Hl; split; [done|by exists t, o]). exists j. split; [by apply Hrl|done].
  - assert (i ∈ extern_objects (model_view_new m)) as [j Hj]%list_elem_of_lookup
      by (apply He; split; [done|by exists t, e]). exists j. split; [by apply Hre|done].
Qed.
End theorems.

(** ** A closed example *)
#[local] Existing Instance LogKernel.sel4.

Module RealizeDemo.
#[global] Instance platform : Platform LogKernel.kernel :=
  log_platform LogKernel.sys 1 (λ content, [Z.of_nat (length content)]).

Definition resources : Resources :=
  {| pgd := 1; asid_pool := 2; tcb_authority := 3; small_page_addr := 0x10000; large_page_addr := 0x200000 |}.

Definition builder : AllocatorBuilder :=
  add_untyped {| eu_cptr := 9; untyped_id := {| paddr := 0x4000; size_bits := 14 |} |}
    (builder_new
      match cregion_new (E := Failure) (relative_cptr 2 5 10) 0 0 6 with
      | Ok c => c
      | _ => {| cr_root := relative 2 2; guard := 0; guard_size := 0; radix := 0; set := set_new |}
      end).

Lemma builder_is_ok : builder_ok builder.
Proof.
  split.
  - cbn [builder add_untyped builder_new b_cregion].
    destruct (cregion_new_ok (E := Failure) (relative_cptr 2 5 10) 0 0 6) as (c & -> & _ & _ & _ & Hok & _). exact Hok.
  - repeat constructor; vm_compute; (done || intros [=]).
  - unfold builder_blocks. cbn. rewrite !pairwise_disjoint_cons. split.
    + intros j Hj. by apply elem_of_nil in Hj.
    + intros i j p q Hi. by destruct i.
Qed.

Definition realizer : Realizer :=
  {| initialization_resources := resources;
     allocator := match build (E := Failure) builder with Ok a => a | _ => demo_alloc end;
     externs := {[ "serial" := {| ext_ty := ExtEndpoint; ext_cptr := 77 |} ]} |}.

(** A frame with one fill entry, an endpoint of its own, and an endpoint of the system. *)
Definition demo_model : Model :=
  {| num_nodes := 1;
     objects :=
       [ {| object := Local (ObjSmallPage [{| fill_offset := 16; fill_length := 3; file := "a";
              file_offset := 0; content_digest := [3%Z] |}]); name := "frame" |};
         {| object := Extern_ ExtEndpoint; name := "serial" |};
         {| object := Local ObjEndpoint; name := "ep" |} ] |}.

Definition start := realize_start demo_model (realizer, [] : LogKernel.kernel).
Definition partial : PartialSubsystem :=
  match start.1 with
  | Ok p => p
  | _ => {| model := demo_model; model_view := model_view_new demo_model;
            p_cregion := cregion demo_alloc; p_cnode_untyped_id := {| paddr := 0; size_bits := 0 |};
            local_object_slots := []; local_object_untyped_ids := [] |}
  end.
Definition filled := fill_frames_simple partial [1; 2; 3; 4]%Z start.2.
Definition finish := realize_finish partial filled.2.
Definition subsystem : Subsystem :=
  match finish.1 with
  | Ok sub => sub
  | _ => {| virtual_cores := []; cnode_untyped_id := {| paddr := 0; size_bits := 0 |};
            object_untyped_ids := []; sub_externs := ∅ |}
  end.

Lemma start_ok : start = (Ok partial, start.2).
Proof. vm_compute. reflexivity. Qed.
Lemma filled_ok : filled = (Ok tt, filled.2).
Proof. vm_compute. reflexivity. Qed.
Lemma finish_ok : finish = (Ok subsystem, finish.2).
Proof. vm_compute. reflexivity. Qed.
Lemma ids_same : subsystem_ids subsystem = partial_ids partial.
Proof. vm_compute. reflexivity. Qed.

Lemma reachable_start : realizer_reachable builder [partial_ids partial] start.2.
Proof.
  apply (rr_start builder [] (realizer, []) demo_model); [constructor; vm_compute; reflexivity|exact start_ok].
Qed.
End RealizeDemo.

Lemma realms_memory_disjoint_witness :
  length (mjoin [partial_ids RealizeDemo.partial]) = 3 ∧
  pairwise_disjoint (mjoin [partial_ids RealizeDemo.partial]).
Proof.
  split; [vm_compute; reflexivity|].
  apply (realms_memory_disjoint RealizeDemo.builder _ RealizeDemo.start.2);
    [apply RealizeDemo.builder_is_ok|apply RealizeDemo.reachable_start].
Defined.

Lemma destroy_succeeds_witness :
  ∃ s', destroy RealizeDemo.subsystem RealizeDemo.start.2 = (Ok tt, s') ∧ wf (allocator s'.1).
Proof.
  destruct (destroy_succeeds RealizeDemo.builder [] [] RealizeDemo.subsystem RealizeDemo.start.2)
    as (s' & Hrun & Hwf & _).
  - apply LogKernel.accepts_log.
  - apply RealizeDemo.builder_is_ok.
  - cbn [app]. rewrite RealizeDemo.ids_same. apply RealizeDemo.reachable_start.
  - exists s'. split; [exact Hrun|exact Hwf].
Defined.

Definition demo_destroyed := destroy RealizeDemo.subsystem RealizeDemo.finish.2.

Definition demo_started_destroyed := destroy RealizeDemo.subsystem RealizeDemo.start.2.

Lemma fill_frames_measured_witness :
  sha256 (take 3 (drop 0 [1; 2; 3; 4]%Z)) = [3%Z].
Proof.
  apply (fill_frames_measured RealizeDemo.partial [1; 2; 3; 4]%Z RealizeDemo.start.2 RealizeDemo.filled.2 0 0 0
    {| fill_offset := 16; fill_length := 3; file := "a"; file_offset := 0; content_digest := [3%Z] |});
    [exact RealizeDemo.filled_ok|vm_compute; reflexivity].
Defined.
