(* ===== verification/GicRegisters.v ===== *)
(** * GicRegisters: the register map of the GIC distributor

    Model of [framework/vmm/gic/src/distributor/register.rs] (the 32-bit register
    cell) and [registers.rs] (the decoding of MMIO offsets into registers).

    A [Register32] is its [u32] value.  The operations that return the previous
    value give the pair (previous value, new register).  An offset is a [Z] (a
    non-negative one in the code, where it is a [usize]); register numbers and byte
    indices, which index vectors, are [nat]. *)

From S2P Require Import Prelude.

(** ** register.rs *)

Abbreviation Register32 := Z.

Definition load (self : Register32) : Z := self.
Definition store (self : Register32) (v : Z) : unit * Register32 := (tt, v).
Definition swap (self : Register32) (v : Z) : Z * Register32 := (self, v).
Definition fetch_and (self : Register32) (v : Z) : Z * Register32 := (self, Z.land self v).
Definition fetch_or (self : Register32) (v : Z) : Z * Register32 := (self, Z.lor self v).
Definition set_byte (self : Register32) (byte_index : nat) (v : Z) : Z * Register32 :=
  let mask := shl32 0xff (Z.of_nat (byte_index * 8)) in
  (self, Z.lor (Z.land self (not32 mask)) (shl32 v (Z.of_nat (byte_index * 8)))).

(** ** registers.rs *)

Abbreviation IRQRegNum := nat.
Abbreviation IRQRegByte := nat.

Inductive GICDistRegWord :=
| GICD_CTLR
| GICD_TYPER
| GICD_IIDR
| GICD_IGROUPRn (n : IRQRegNum)
| GICD_ISENABLERn (n : IRQRegNum)
| GICD_ICENABLERn (n : IRQRegNum)
| GICD_ISPENDRn (n : IRQRegNum)
| GICD_ICPENDRn (n : IRQRegNum)
| GICD_ISACTIVERn (n : IRQRegNum)
| GICD_ICACTIVERn (n : IRQRegNum)
| GICD_IPRIORITYRn (n : IRQRegNum)
| GICD_ITARGETSRn (n : IRQRegNum)
| GICD_ICFGRn (n : IRQRegNum)
| GICD_NSACRn (n : IRQRegNum)
| GICD_SGIR
| GICD_CPENDSGIRn (n : IRQRegNum)
| GICD_SPENDSGIRn (n : IRQRegNum)
| ICCIDRn (n : IRQRegNum)
| ICPIDRn (n : IRQRegNum).

Inductive GICDistRegByte :=
| B_IPRIORITYRn (n : IRQRegNum) (b : IRQRegByte)
| B_ITARGETSRn (n : IRQRegNum) (b : IRQRegByte)
| B_CPENDSGIRn (n : IRQRegNum) (b : IRQRegByte)
| B_SPENDSGIRn (n : IRQRegNum) (b : IRQRegByte).

(** [(offset - base) / 4] and [(offset - base) % 4], with their assertions. *)
Definition calc_reg_num {E} (offset base : Z) : outcome E IRQRegNum :=
  let reg_num := ((offset - base) / 4)%Z in
  if Z.ltb reg_num 256 then Ok (Z.to_nat reg_num) else Panic.
Definition calc_reg_byte_offset {E} (offset base : Z) : outcome E IRQRegByte :=
  let reg_byte := ((offset - base) mod 4)%Z in
  if Z.ltb reg_byte 4 then Ok (Z.to_nat reg_byte) else Panic.

(** The inclusive range pattern [lo..=hi]. *)
Definition in_range (lo hi x : Z) : bool := Z.leb lo x && Z.leb x hi.

(** [GICDistRegWord::from_offset]. *)
Definition word_from_offset {E} (offset : Z) : outcome E GICDistRegWord :=
  if Z.eqb offset 0x000 then Ok GICD_CTLR
  else if Z.eqb offset 0x004 then Ok GICD_TYPER
  else if Z.eqb offset 0x008 then Ok GICD_IIDR
  else if in_range 0x080 0x0FC offset then GICD_IGROUPRn <$> calc_reg_num offset 0x080
  else if in_range 0x100 0x17C offset then GICD_ISENABLERn <$> calc_reg_num offset 0x100
  else if in_range 0x180 0x1FC offset then GICD_ICENABLERn <$> calc_reg_num offset 0x180
  else if in_range 0x200 0x27C offset then GICD_ISPENDRn <$> calc_reg_num offset 0x200
  else if in_range 0x280 0x2FC offset then GICD_ICPENDRn <$> calc_reg_num offset 0x280
  else if in_range 0x300 0x37C offset then GICD_ISACTIVERn <$> calc_reg_num offset 0x300
  else if in_range 0x380 0x3FC offset then GICD_ICACTIVERn <$> calc_reg_num offset 0x380
  else if in_range 0x400 0x7F8 offset then GICD_IPRIORITYRn <$> calc_reg_num offset 0x400
  else if in_range 0x800 0xBF8 offset then GICD_ITARGETSRn <$> calc_reg_num offset 0x800
  else if in_range 0xC00 0xCFC offset then GICD_ICFGRn <$> calc_reg_num offset 0xC00
  else if in_range 0xE00 0xEFC offset then GICD_NSACRn <$> calc_reg_num offset 0xE00
  else if Z.eqb offset 0xF00 then Ok GICD_SGIR
  else if in_range 0xF10 0xF1C offset then GICD_CPENDSGIRn <$> calc_reg_num offset 0xF10
  else if in_range 0xF20 0xF2C offset then GICD_SPENDSGIRn <$> calc_reg_num offset 0xF20
  else if in_range 0xFD0 0xFEC offset then ICPIDRn <$> calc_reg_num offset 0xFD0
  else if in_range 0xFF0 0xFFC offset then ICCIDRn <$> calc_reg_num offset 0xFF0
  else Panic.

(** [GICDistRegByte::from_offset]. *)
Definition byte_from_offset {E} (offset : Z) : outcome E GICDistRegByte :=
  let decode (c : IRQRegNum → IRQRegByte → GICDistRegByte) (base : Z) : outcome E _ :=
    n ← calc_reg_num offset base; b ← calc_reg_byte_offset offset base; Ok (c n b) in
  if in_range 0x400 0x7F8 offset then decode B_IPRIORITYRn 0x400%Z
  else if in_range 0x800 0xBF8 offset then decode B_ITARGETSRn 0x800%Z
  else if in_range 0xF10 0xF1C offset then decode B_CPENDSGIRn 0xF10%Z
  else if in_range 0xF20 0xF2C offset then decode B_SPENDSGIRn 0xF20%Z
  else Panic.

(** ** The register map as the architecture lists it

    [word_offset r] is the offset of register [r]; [reg_count r] says which
    register numbers exist. *)
Definition word_offset (r : GICDistRegWord) : Z :=
  match r with
  | GICD_CTLR => 0x000
  | GICD_TYPER => 0x004
  | GICD_IIDR => 0x008
  | GICD_IGROUPRn n => 0x080 + 4 * Z.of_nat n
  | GICD_ISENABLERn n => 0x100 + 4 * Z.of_nat n
  | GICD_ICENABLERn n => 0x180 + 4 * Z.of_nat n
  | GICD_ISPENDRn n => 0x200 + 4 * Z.of_nat n
  | GICD_ICPENDRn n => 0x280 + 4 * Z.of_nat n
  | GICD_ISACTIVERn n => 0x300 + 4 * Z.of_nat n
  | GICD_ICACTIVERn n => 0x380 + 4 * Z.of_nat n
  | GICD_IPRIORITYRn n => 0x400 + 4 * Z.of_nat n
  | GICD_ITARGETSRn n => 0x800 + 4 * Z.of_nat n
  | GICD_ICFGRn n => 0xC00 + 4 * Z.of_nat n
  | GICD_NSACRn n => 0xE00 + 4 * Z.of_nat n
  | GICD_SGIR => 0xF00
  | GICD_CPENDSGIRn n => 0xF10 + 4 * Z.of_nat n
  | GICD_SPENDSGIRn n => 0xF20 + 4 * Z.of_nat n
  | ICPIDRn n => 0xFD0 + 4 * Z.of_nat n
  | ICCIDRn n => 0xFF0 + 4 * Z.of_nat n
  end%Z.

Definition reg_exists (r : GICDistRegWord) : Prop :=
  match r with
  | GICD_CTLR | GICD_TYPER | GICD_IIDR | GICD_SGIR => True
  | GICD_IGROUPRn n | GICD_ISENABLERn n | GICD_ICENABLERn n | GICD_ISPENDRn n
  | GICD_ICPENDRn n | GICD_ISACTIVERn n | GICD_ICACTIVERn n => n < 32
  | GICD_IPRIORITYRn n | GICD_ITARGETSRn n => n < 255
  | GICD_ICFGRn n | GICD_NSACRn n => n < 64
  | GICD_CPENDSGIRn n | GICD_SPENDSGIRn n | ICCIDRn n => n < 4
  | ICPIDRn n => n < 8
  end.


Lemma calc_reg_num_ok {E} (offset base : Z) :
  (0 ≤ offset - base < 1024)%Z →
  calc_reg_num (E := E) offset base = Ok (Z.to_nat ((offset - base) / 4)).
Proof.
  intros H. unfold calc_reg_num.
  destruct (Z.ltb_spec ((offset - base) / 4) 256); [done|].
  pose proof (Z.div_lt_upper_bound (offset - base) 4 256). lia.
Qed.

Lemma in_range_true lo hi x : (lo ≤ x ≤ hi)%Z → in_range lo hi x = true.
Proof. unfold in_range. lia. Qed.
Lemma in_range_false lo hi x : (x < lo ∨ hi < x)%Z → in_range lo hi x = false.
Proof. unfold in_range. lia. Qed.
Lemma in_range_spec lo hi x : reflect (lo ≤ x ≤ hi)%Z (in_range lo hi x).
Proof. unfold in_range. apply iff_reflect. lia. Qed.

Lemma word_from_offset_offset {E} (r : GICDistRegWord) :
  reg_exists r → word_from_offset (E := E) (word_offset r) = Ok r.
Proof.
  destruct r; cbn [reg_exists]; intros Hn; try done; unfold word_from_offset; cbn [word_offset];
  repeat first [rewrite in_range_false by lia | rewrite in_range_true by lia
               | rewrite (proj2 (Z.eqb_neq _ _)) by lia | done];
  rewrite calc_reg_num_ok by lia; cbn; do 2 f_equal;
  rewrite Z.add_simpl_l, Z.mul_comm, Z.div_mul by lia; lia.
Qed.

Lemma calc_reg_num_sound {E} (offset base hi : Z) (c : IRQRegNum → GICDistRegWord) r :
  (base mod 4 = 0)%Z → (base ≤ offset ≤ hi)%Z → (hi - base < 1024)%Z →
  c <$> calc_reg_num (E := E) offset base = Ok r →
  ∃ n, r = c n ∧ (base + 4 * Z.of_nat n)%Z = (offset - offset mod 4)%Z ∧
    (Z.of_nat n ≤ (hi - base) / 4)%Z.
Proof.
  intros Hb Hoff Hhi. rewrite calc_reg_num_ok by lia. intros [= <-].
  exists (Z.to_nat ((offset - base) / 4)). rewrite Z2Nat.id by (apply Z.div_pos; lia).
  split_and!; [done| |apply Z.div_le_mono; lia].
  apply Z.div_exact in Hb as Hb'; [|lia].
  assert (offset mod 4 = (offset - base) mod 4)%Z as ->.
  { rewrite Hb', Z.mul_comm. rewrite <-(Z.mod_add (offset - _) (base / 4)) by lia. f_equal. lia. }
  pose proof (Z.div_mod (offset - base) 4). lia.
Qed.

Lemma word_from_offset_sound {E} (offset : Z) (r : GICDistRegWord) :
  word_from_offset (E := E) offset = Ok r →
  reg_exists r ∧ word_offset r = (offset - offset mod 4)%Z.
Proof.
  unfold word_from_offset.
  repeat match goal with
  | |- (if Z.eqb ?a ?b then _ else _) = _ → _ =>
      destruct (Z.eqb_spec a b); [intros [= <-]; by subst|]
  | |- (if in_range ?a ?b ?c then _ else _) = _ → _ =>
      destruct (in_range_spec a b c) as [Hr|_];
      [intros (n' & -> & Hn & Hb)%(calc_reg_num_sound _ _ b); [|reflexivity|exact Hr|reflexivity];
       cbn [reg_exists word_offset]; split; [|exact Hn];
       match type of Hb with (_ ≤ ?q)%Z => let v := eval vm_compute in q in change q with v in Hb end;
       clear -Hb; lia|]
  end; done.
Qed.

(** The decoder of word accesses is the register map of the architecture: an aligned
    offset decodes to a register exactly when it is the offset of that register and the
    register exists; every other aligned offset panics. *)
Lemma register_map_exact {E} (offset : Z) (r : GICDistRegWord) :
  (offset mod 4 = 0)%Z →
  word_from_offset (E := E) offset = Ok r ↔ reg_exists r ∧ word_offset r = offset.
Proof.
  intros Hal. split.
  - intros [Hex Hoff]%word_from_offset_sound. split; [done|lia].
  - intros [Hex <-]. by apply word_from_offset_offset.
Qed.

