(* ===== verification/Distributor.v ===== *)
(** * Distributor: the emulated GICv2 distributor

    Model of [framework/vmm/gic/src/distributor/mod.rs] and of the error type of
    [framework/vmm/gic/src/error.rs].

    The record [Distributor] has the fields of the Rust struct, vectors as lists.
    A [&self] method is a function of the record into [outcome]; a [&mut self]
    method is a state-passing computation [DM].  [handle_write] is one definition
    per register (an arm of the Rust [match]) and a dispatcher; [handle_read] is
    likewise split in two halves.  Indexing a vector out of bounds panics, as does
    an [unwrap] on an error.

    [IRQ] and [CPU] are [usize] in the source and [nat] here; register values are
    [u32] words in [Z]. *)

From S2P Require Import Prelude Biterate Fault GicRegisters.

(** ** Data *)

Abbreviation IRQ := nat.
Abbreviation CPU := nat.

Inductive IRQErrorType :=
| InvalidCPU (cpu : CPU)
| InvalidIRQ (irq : IRQ)
| InvalidIrqCpu (irq_cpu : IRQ * CPU)
| InvalidRegisterWrite
| InvalidRegisterRead.

Inductive WriteAction :=
| NoAction
| InjectAndAckIRQs (to_inject to_ack : option (list (IRQ * CPU))).

Record Distributor := {
  num_nodes : nat;
  control : Register32;
  ic_type : Register32;
  dist_ident : Register32;
  irq_group0 : list Register32;
  irq_group : list Register32;
  enable0 : list Register32;
  enable : list Register32;
  pending0 : list Register32;
  pending : list Register32;
  active0 : list Register32;
  active : list Register32;
  priority0 : list (list Register32);
  priority : list Register32;
  targets0 : list (list Register32);
  targets : list Register32;
  config0 : Register32;
  config1 : list Register32;
  config : list Register32;
  sgi_pending : list (list Register32);
  periph_id : list Register32;
  component_id : list Register32;
}.

(** Field updates. *)
Definition with_control (d : Distributor) (v : Register32) : Distributor :=
  {| num_nodes := num_nodes d; control := v; ic_type := ic_type d; dist_ident := dist_ident
     d; irq_group0 := irq_group0 d; irq_group := irq_group d; enable0 := enable0 d; enable
     := enable d; pending0 := pending0 d; pending := pending d; active0 := active0 d; active
     := active d; priority0 := priority0 d; priority := priority d; targets0 := targets0 d;
     targets := targets d; config0 := config0 d; config1 := config1 d; config := config d;
     sgi_pending := sgi_pending d; periph_id := periph_id d; component_id := component_id d |}.
Definition with_ic_type (d : Distributor) (v : Register32) : Distributor :=
  {| num_nodes := num_nodes d; control := control d; ic_type := v; dist_ident := dist_ident
     d; irq_group0 := irq_group0 d; irq_group := irq_group d; enable0 := enable0 d; enable
     := enable d; pending0 := pending0 d; pending := pending d; active0 := active0 d; active
     := active d; priority0 := priority0 d; priority := priority d; targets0 := targets0 d;
     targets := targets d; config0 := config0 d; config1 := config1 d; config := config d;
     sgi_pending := sgi_pending d; periph_id := periph_id d; component_id := component_id d |}.
Definition with_dist_ident (d : Distributor) (v : Register32) : Distributor :=
  {| num_nodes := num_nodes d; control := control d; ic_type := ic_type d; dist_ident := v;
     irq_group0 := irq_group0 d; irq_group := irq_group d; enable0 := enable0 d; enable :=
     enable d; pending0 := pending0 d; pending := pending d; active0 := active0 d; active :=
     active d; priority0 := priority0 d; priority := priority d; targets0 := targets0 d;
     targets := targets d; config0 := config0 d; config1 := config1 d; config := config d;
     sgi_pending := sgi_pending d; periph_id := periph_id d; component_id := component_id d |}.
Definition with_irq_group0 (d : Distributor) (v : list Register32) : Distributor :=
  {| num_nodes := num_nodes d; control := control d; ic_type := ic_type d; dist_ident :=
     dist_ident d; irq_group0 := v; irq_group := irq_group d; enable0 := enable0 d; enable
     := enable d; pending0 := pending0 d; pending := pending d; active0 := active0 d; active
     := active d; priority0 := priority0 d; priority := priority d; targets0 := targets0 d;
     targets := targets d; config0 := config0 d; config1 := config1 d; config := config d;
     sgi_pending := sgi_pending d; periph_id := periph_id d; component_id := component_id d |}.
Definition with_irq_group (d : Distributor) (v : list Register32) : Distributor :=
  {| num_nodes := num_nodes d; control := control d; ic_type := ic_type d; dist_ident :=
     dist_ident d; irq_group0 := irq_group0 d; irq_group := v; enable0 := enable0 d; enable
     := enable d; pending0 := pending0 d; pending := pending d; active0 := active0 d; active
     := active d; priority0 := priority0 d; priority := priority d; targets0 := targets0 d;
     targets := targets d; config0 := config0 d; config1 := config1 d; config := config d;
     sgi_pending := sgi_pending d; periph_id := periph_id d; component_id := component_id d |}.
Definition with_enable0 (d : Distributor) (v : list Register32) : Distributor :=
  {| num_nodes := num_nodes d; control := control d; ic_type := ic_type d; dist_ident :=
     dist_ident d; irq_group0 := irq_group0 d; irq_group := irq_group d; enable0 := v;
     enable := enable d; pending0 := pending0 d; pending := pending d; active0 := active0 d;
     active := active d; priority0 := priority0 d; priority := priority d; targets0 :=
     targets0 d; targets := targets d; config0 := config0 d; config1 := config1 d; config :=
     config d; sgi_pending := sgi_pending d; periph_id := periph_id d; component_id :=
     component_id d |}.
Definition with_enable (d : Distributor) (v : list Register32) : Distributor :=
  {| num_nodes := num_nodes d; control := control d; ic_type := ic_type d; dist_ident :=
     dist_ident d; irq_group0 := irq_group0 d; irq_group := irq_group d; enable0 := enable0
     d; enable := v; pending0 := pending0 d; pending := pending d; active0 := active0 d;
     active := active d; priority0 := priority0 d; priority := priority d; targets0 :=
     targets0 d; targets := targets d; config0 := config0 d; config1 := config1 d; config :=
     config d; sgi_pending := sgi_pending d; periph_id := periph_id d; component_id :=
     component_id d |}.
Definition with_pending0 (d : Distributor) (v : list Register32) : Distributor :=
  {| num_nodes := num_nodes d; control := control d; ic_type := ic_type d; dist_ident :=
     dist_ident d; irq_group0 := irq_group0 d; irq_group := irq_group d; enable0 := enable0
     d; enable := enable d; pending0 := v; pending := pending d; active0 := active0 d;
     active := active d; priority0 := priority0 d; priority := priority d; targets0 :=
     targets0 d; targets := targets d; config0 := config0 d; config1 := config1 d; config :=
     config d; sgi_pending := sgi_pending d; periph_id := periph_id d; component_id :=
     component_id d |}.
Definition with_pending (d : Distributor) (v : list Register32) : Distributor :=
  {| num_nodes := num_nodes d; control := control d; ic_type := ic_type d; dist_ident :=
     dist_ident d; irq_group0 := irq_group0 d; irq_group := irq_group d; enable0 := enable0
     d; enable := enable d; pending0 := pending0 d; pending := v; active0 := active0 d;
     active := active d; priority0 := priority0 d; priority := priority d; targets0 :=
     targets0 d; targets := targets d; config0 := config0 d; config1 := config1 d; config :=
     config d; sgi_pending := sgi_pending d; periph_id := periph_id d; component_id :=
     component_id d |}.
Definition with_active0 (d : Distributor) (v : list Register32) : Distributor :=
  {| num_nodes := num_nodes d; control := control d; ic_type := ic_type d; dist_ident :=
     dist_ident d; irq_group0 := irq_group0 d; irq_group := irq_group d; enable0 := enable0
     d; enable := enable d; pending0 := pending0 d; pending := pending d; active0 := v;
     active := active d; priority0 := priority0 d; priority := priority d; targets0 :=
     targets0 d; targets := targets d; config0 := config0 d; config1 := config1 d; config :=
     config d; sgi_pending := sgi_pending d; periph_id := periph_id d; component_id :=
     component_id d |}.
Definition with_active (d : Distributor) (v : list Register32) : Distributor :=
  {| num_nodes := num_nodes d; control := control d; ic_type := ic_type d; dist_ident :=
     dist_ident d; irq_group0 := irq_group0 d; irq_group := irq_group d; enable0 := enable0
     d; enable := enable d; pending0 := pending0 d; pending := pending d; active0 := active0
     d; active := v; priority0 := priority0 d; priority := priority d; targets0 := targets0
     d; targets := targets d; config0 := config0 d; config1 := config1 d; config := config
     d; sgi_pending := sgi_pending d; periph_id := periph_id d; component_id := component_id
     d |}.
Definition with_priority0 (d : Distributor) (v : list (list Register32)) : Distributor :=
  {| num_nodes := num_nodes d; control := control d; ic_type := ic_type d; dist_ident :=
     dist_ident d; irq_group0 := irq_group0 d; irq_group := irq_group d; enable0 := enable0
     d; enable := enable d; pending0 := pending0 d; pending := pending d; active0 := active0
     d; active := active d; priority0 := v; priority := priority d; targets0 := targets0 d;
     targets := targets d; config0 := config0 d; config1 := config1 d; config := config d;
     sgi_pending := sgi_pending d; periph_id := periph_id d; component_id := component_id d |}.
Definition with_priority (d : Distributor) (v : list Register32) : Distributor :=
  {| num_nodes := num_nodes d; control := control d; ic_type := ic_type d; dist_ident :=
     dist_ident d; irq_group0 := irq_group0 d; irq_group := irq_group d; enable0 := enable0
     d; enable := enable d; pending0 := pending0 d; pending := pending d; active0 := active0
     d; active := active d; priority0 := priority0 d; priority := v; targets0 := targets0 d;
     targets := targets d; config0 := config0 d; config1 := config1 d; config := config d;
     sgi_pending := sgi_pending d; periph_id := periph_id d; component_id := component_id d |}.
Definition with_targets0 (d : Distributor) (v : list (list Register32)) : Distributor :=
  {| num_nodes := num_nodes d; control := control d; ic_type := ic_type d; dist_ident :=
     dist_ident d; irq_group0 := irq_group0 d; irq_group := irq_group d; enable0 := enable0
     d; enable := enable d; pending0 := pending0 d; pending := pending d; active0 := active0
     d; active := active d; priority0 := priority0 d; priority := priority d; targets0 := v;
     targets := targets d; config0 := config0 d; config1 := config1 d; config := config d;
     sgi_pending := sgi_pending d; periph_id := periph_id d; component_id := component_id d |}.
Definition with_targets (d : Distributor) (v : list Register32) : Distributor :=
  {| num_nodes := num_nodes d; control := control d; ic_type := ic_type d; dist_ident :=
     dist_ident d; irq_group0 := irq_group0 d; irq_group := irq_group d; enable0 := enable0
     d; enable := enable d; pending0 := pending0 d; pending := pending d; active0 := active0
     d; active := active d; priority0 := priority0 d; priority := priority d; targets0 :=
     targets0 d; targets := v; config0 := config0 d; config1 := config1 d; config := config
     d; sgi_pending := sgi_pending d; periph_id := periph_id d; component_id := component_id
     d |}.
Definition with_config0 (d : Distributor) (v : Register32) : Distributor :=
  {| num_nodes := num_nodes d; control := control d; ic_type := ic_type d; dist_ident :=
     dist_ident d; irq_group0 := irq_group0 d; irq_group := irq_group d; enable0 := enable0
     d; enable := enable d; pending0 := pending0 d; pending := pending d; active0 := active0
     d; active := active d; priority0 := priority0 d; priority := priority d; targets0 :=
     targets0 d; targets := targets d; config0 := v; config1 := config1 d; config := config
     d; sgi_pending := sgi_pending d; periph_id := periph_id d; component_id := component_id
     d |}.
Definition with_config1 (d : Distributor) (v : list Register32) : Distributor :=
  {| num_nodes := num_nodes d; control := control d; ic_type := ic_type d; dist_ident :=
     dist_ident d; irq_group0 := irq_group0 d; irq_group := irq_group d; enable0 := enable0
     d; enable := enable d; pending0 := pending0 d; pending := pending d; active0 := active0
     d; active := active d; priority0 := priority0 d; priority := priority d; targets0 :=
     targets0 d; targets := targets d; config0 := config0 d; config1 := v; config := config
     d; sgi_pending := sgi_pending d; periph_id := periph_id d; component_id := component_id
     d |}.
Definition with_config (d : Distributor) (v : list Register32) : Distributor :=
  {| num_nodes := num_nodes d; control := control d; ic_type := ic_type d; dist_ident :=
     dist_ident d; irq_group0 := irq_group0 d; irq_group := irq_group d; enable0 := enable0
     d; enable := enable d; pending0 := pending0 d; pending := pending d; active0 := active0
     d; active := active d; priority0 := priority0 d; priority := priority d; targets0 :=
     targets0 d; targets := targets d; config0 := config0 d; config1 := config1 d; config :=
     v; sgi_pending := sgi_pending d; periph_id := periph_id d; component_id := component_id
     d |}.
Definition with_sgi_pending (d : Distributor) (v : list (list Register32)) : Distributor :=
  {| num_nodes := num_nodes d; control := control d; ic_type := ic_type d; dist_ident :=
     dist_ident d; irq_group0 := irq_group0 d; irq_group := irq_group d; enable0 := enable0
     d; enable := enable d; pending0 := pending0 d; pending := pending d; active0 := active0
     d; active := active d; priority0 := priority0 d; priority := priority d; targets0 :=
     targets0 d; targets := targets d; config0 := config0 d; config1 := config1 d; config :=
     config d; sgi_pending := v; periph_id := periph_id d; component_id := component_id d |}.
Definition with_periph_id (d : Distributor) (v : list Register32) : Distributor :=
  {| num_nodes := num_nodes d; control := control d; ic_type := ic_type d; dist_ident :=
     dist_ident d; irq_group0 := irq_group0 d; irq_group := irq_group d; enable0 := enable0
     d; enable := enable d; pending0 := pending0 d; pending := pending d; active0 := active0
     d; active := active d; priority0 := priority0 d; priority := priority d; targets0 :=
     targets0 d; targets := targets d; config0 := config0 d; config1 := config1 d; config :=
     config d; sgi_pending := sgi_pending d; periph_id := v; component_id := component_id d |}.
Definition with_component_id (d : Distributor) (v : list Register32) : Distributor :=
  {| num_nodes := num_nodes d; control := control d; ic_type := ic_type d; dist_ident :=
     dist_ident d; irq_group0 := irq_group0 d; irq_group := irq_group d; enable0 := enable0
     d; enable := enable d; pending0 := pending0 d; pending := pending d; active0 := active0
     d; active := active d; priority0 := priority0 d; priority := priority d; targets0 :=
     targets0 d; targets := targets d; config0 := config0 d; config1 := config1 d; config :=
     config d; sgi_pending := sgi_pending d; periph_id := periph_id d; component_id := v |}.

(** ** Access to a register in a vector *)

Abbreviation DM := (M Distributor IRQErrorType).

(** [&mut self.v[i]], then an operation on the register it names. *)
Definition on_reg {A} (get : Distributor → list Register32)
    (set : Distributor → list Register32 → Distributor) (i : nat)
    (op : Register32 → A * Register32) : DM A := λ d,
  match get d !! i with
  | None => (Panic, d)
  | Some r => let '(a, r') := op r in (Ok a, set d (<[i := r']> (get d)))
  end.

(** [&mut self.v[i][j]]. *)
Definition on_reg2 {A} (get : Distributor → list (list Register32))
    (set : Distributor → list (list Register32) → Distributor) (i j : nat)
    (op : Register32 → A * Register32) : DM A := λ d,
  match get d !! i with
  | None => (Panic, d)
  | Some bank =>
      match bank !! j with
      | None => (Panic, d)
      | Some r => let '(a, r') := op r in (Ok a, set d (<[i := <[j := r']> bank]> (get d)))
      end
  end.

(** [self.control], a single register. *)
Definition on_control {A} (op : Register32 → A * Register32) : DM A := λ d,
  let '(a, r') := op (control d) in (Ok a, with_control d r').

(** ** Construction and reset *)

Definition zeros (n : nat) : list Register32 := replicate n 0%Z.

(** [reset]: the loop that fills one bank of [targets0] for CPU [idx]. *)
Definition reset_target (idx : nat) (target : Register32) : Register32 :=
  fold_left (λ r irq, (fetch_or r (shl32 (shl32 1 (Z.of_nat idx)) (Z.of_nat (irq * 8)))).2)
    (seq 0 4) (store target 0x0).2.

(** [self.v[i].store(c)]. *)
Definition store_at (get : Distributor → list Register32)
    (set : Distributor → list Register32 → Distributor) (i : nat) (c : Z) : DM unit :=
  on_reg get set i (λ r, store r c).

Definition reset : DM unit :=
  modify (λ d, with_ic_type d 0x0000fce7%Z);;
  modify (λ d, with_dist_ident d 0x0200043b%Z);;
  n ← gets num_nodes;
  for_each (λ i, store_at enable0 with_enable0 i 0x0000ffff) (seq 0 n);;
  modify (λ d, with_config0 d 0xaaaaaaaa%Z);;
  for_each (λ i, store_at config1 with_config1 i 0x55540000) (seq 0 n);;
  for_each (λ i, store_at config with_config i 0x55555555) (seq 0 14);;
  modify (λ d, with_targets0 d (imap (λ idx bank, reset_target idx <$> bank) (targets0 d)));;
  modify (λ d, with_targets d ((λ target, (store target 0x01010101).2) <$> targets d));;
  for_each (λ '(i, c), store_at periph_id with_periph_id i c)
    [(4, 0x04%Z); (8, 0x90%Z); (9, 0xb4%Z); (10, 0x2b%Z)];;
  for_each (λ '(i, c), store_at component_id with_component_id i c)
    [(0, 0x0d%Z); (1, 0xf0%Z); (2, 0x05%Z); (3, 0xb1%Z)].

(** The struct literal of [new], before [gic_dist.reset()]. *)
Definition zeroed (num_nodes : nat) : Distributor := {|
  num_nodes := num_nodes;
  control := 0%Z; ic_type := 0%Z; dist_ident := 0%Z;
  irq_group0 := zeros num_nodes; irq_group := zeros 31;
  enable0 := zeros num_nodes; enable := zeros 31;
  pending0 := zeros num_nodes; pending := zeros 31;
  active0 := zeros num_nodes; active := zeros 31;
  priority0 := replicate num_nodes (zeros 8); priority := zeros 247;
  targets0 := replicate num_nodes (zeros 8); targets := zeros 247;
  config0 := 0%Z; config1 := zeros num_nodes; config := zeros 62;
  sgi_pending := replicate num_nodes (zeros 4);
  periph_id := zeros 12; component_id := zeros 4;
|}.

Definition new (num_nodes : nat) : outcome IRQErrorType Distributor :=
  match reset (zeroed num_nodes) with
  | (Ok _, d) => Ok d
  | (Err e, _) => Err e
  | (Panic, _) => Panic
  end.

(** ** Queries *)

Section queries.
Context (d : Distributor).

(** The register that holds the bit of [irq] in a banked bit vector. *)
Definition irq_reg (bank0 bank : list Register32) (irq : IRQ) (cpu : CPU) :
    outcome IRQErrorType Register32 :=
  if irq <? 32 then index bank0 cpu else index bank (irq / 32 - 1).

Definition irq_bit_set (bank0 bank : list Register32) (irq : IRQ) (cpu : CPU) :
    outcome IRQErrorType bool :=
  if num_nodes d <=? cpu then Ok false
  else
    val ← irq_reg bank0 bank irq cpu;
    Ok (bit_is_set (load val) (Z.of_nat (irq mod 32))).

Definition is_gic_enabled : bool := Z.eqb (load (control d)) 1.
Definition is_enabled (irq : IRQ) (cpu : CPU) := irq_bit_set (enable0 d) (enable d) irq cpu.
Definition is_pending (irq : IRQ) (cpu : CPU) := irq_bit_set (pending0 d) (pending d) irq cpu.
Definition is_active (irq : IRQ) (cpu : CPU) := irq_bit_set (active0 d) (active d) irq cpu.

Definition get_spi_targets (irq : IRQ) : outcome IRQErrorType Z :=
  if irq <? 32 then Panic
  else
    reg ← index (targets d) (irq / 4 - 8);
    Ok (Z.land (Z.shiftr (load reg) (Z.of_nat (irq mod 4 * 8))) 0xFF).

Definition is_target (irq : IRQ) (cpu : CPU) : outcome IRQErrorType bool :=
  if num_nodes d <=? cpu then Ok false
  else
    reg ← (if irq <? 32 then bank ← index (targets0 d) cpu; index bank (irq / 4)
           else index (targets d) (irq / 4 - 8));
    let cpus := Z.land (Z.shiftr (load reg) (Z.of_nat (irq mod 4 * 8))) 0xFF in
    Ok (bit_is_set cpus (Z.of_nat cpu)).

Definition get_priority (irq : IRQ) (cpu : CPU) : outcome IRQErrorType Z :=
  if num_nodes d <=? cpu then Err (InvalidCPU cpu)
  else
    let reg_num := irq / 4 in
    reg ← (if reg_num <? 8 then bank ← index (priority0 d) cpu; index bank reg_num
           else index (priority d) (reg_num - 8));
    let mask := shl32 0xFF (Z.of_nat (irq mod 4 * 8)) in
    Ok (Z.shiftr (Z.land (load reg) mask) (Z.of_nat (irq mod 4 * 8))).

Definition should_inject (irq : IRQ) (cpu : CPU) : outcome IRQErrorType bool :=
  and_then (Ok is_gic_enabled)
    (and_then (is_enabled irq cpu)
       (and_then (is_target irq cpu)
          (and_then (is_pending irq cpu) (negb <$> is_active irq cpu)))).

(** The node loop of a sweep: for an SPI, stop at the first hit. *)
Fixpoint sweep_nodes (test : IRQ → CPU → outcome IRQErrorType bool) (irq : IRQ)
    (nodes : list CPU) : outcome IRQErrorType (list (IRQ * CPU)) :=
  match nodes with
  | [] => Ok []
  | node_index :: nodes' =>
      b ← test irq node_index;
      if (b : bool) then
        if 32 <=? irq then Ok [(irq, node_index)]
        else rest ← sweep_nodes test irq nodes'; Ok ((irq, node_index) :: rest)
      else sweep_nodes test irq nodes'
  end.

Fixpoint sweep (test : IRQ → CPU → outcome IRQErrorType bool) (irqs : list IRQ) :
    outcome IRQErrorType (list (IRQ * CPU)) :=
  match irqs with
  | [] => Ok []
  | irq :: irqs' =>
      l ← sweep_nodes test irq (seq 0 (num_nodes d));
      rest ← sweep test irqs'; Ok (l ++ rest)
  end.

(** [!self.should_inject(..) && self.is_enabled(..)]. *)
Definition should_ack (irq : IRQ) (cpu : CPU) : outcome IRQErrorType bool :=
  and_then (negb <$> should_inject irq cpu) (is_enabled irq cpu).

Definition sweep_irqs_to_inject (base_irq : IRQ) (num_irqs : nat) :=
  sweep should_inject (seq base_irq num_irqs).
Definition sweep_irqs_to_ack (base_irq : IRQ) (num_irqs : nat) :=
  sweep should_ack (seq base_irq num_irqs).

Fixpoint targets_among (irq : IRQ) (cpus : list CPU) : outcome IRQErrorType (list CPU) :=
  match cpus with
  | [] => Ok []
  | cpu :: cpus' =>
      b ← is_target irq cpu; rest ← targets_among irq cpus';
      Ok (if (b : bool) then cpu :: rest else rest)
  end.
Definition get_vcpu_targets (irq : IRQ) : outcome IRQErrorType (list CPU) :=
  targets_among irq (seq 0 8).
End queries.

(** ** Pending and active state *)

(** Check the CPU, find the register of [irq], apply [op]. *)
Definition on_irq_reg (get0 : Distributor → list Register32)
    (set0 : Distributor → list Register32 → Distributor)
    (get : Distributor → list Register32) (set : Distributor → list Register32 → Distributor)
    (irq : IRQ) (cpu : CPU) (op : Register32 → Z → Z * Register32) : DM unit :=
  n ← gets num_nodes;
  if n <=? cpu then throw (InvalidCPU cpu)
  else
    let val := shl32 1 (Z.of_nat (irq mod 32)) in
    (if irq <? 32 then on_reg get0 set0 cpu (λ r, op r val)
     else on_reg get set (irq / 32 - 1) (λ r, op r val));;
    mret tt.

Definition clear_pending (irq : IRQ) (cpu : CPU) : DM unit :=
  on_irq_reg pending0 with_pending0 pending with_pending irq cpu (λ r v, fetch_and r (not32 v)).
Definition set_pending (irq : IRQ) (cpu : CPU) : DM unit :=
  on_irq_reg pending0 with_pending0 pending with_pending irq cpu fetch_or.
Definition clear_active (irq : IRQ) (cpu : CPU) : DM unit :=
  on_irq_reg active0 with_active0 active with_active irq cpu (λ r v, fetch_and r (not32 v)).
Definition set_active (irq : IRQ) (cpu : CPU) : DM unit :=
  on_irq_reg active0 with_active0 active with_active irq cpu fetch_or.

(** The bit of source [source_cpu] in the SGI-pending field of [irq]. *)
Definition sgi_bit (irq : IRQ) (source_cpu : CPU) : Z :=
  shl32 1 (Z.of_nat (source_cpu + irq mod 4 * 8)).

Definition set_sgi_pending (irq : IRQ) (source_cpu target_cpu : CPU) : DM unit :=
  n ← gets num_nodes;
  if n <=? source_cpu then throw (InvalidCPU source_cpu)
  else if n <=? target_cpu then throw (InvalidCPU target_cpu)
  else if 16 <? irq then throw (InvalidIRQ irq)
  else
    on_reg2 sgi_pending with_sgi_pending target_cpu (irq / 4)
      (λ r, fetch_or r (sgi_bit irq source_cpu));;
    b ← reads (λ d, is_pending d irq target_cpu);
    if (b : bool) then mret tt else unwrap_result (set_pending irq target_cpu).

Definition clear_sgi_pending (irq : IRQ) (source_cpu target_cpu : CPU) : DM unit :=
  n ← gets num_nodes;
  if n <=? source_cpu then throw (InvalidCPU source_cpu)
  else if n <=? target_cpu then throw (InvalidCPU target_cpu)
  else if 16 <? irq then throw (InvalidIRQ irq)
  else
    prev ← on_reg2 sgi_pending with_sgi_pending target_cpu (irq / 4)
      (λ r, fetch_and r (not32 (sgi_bit irq source_cpu)));
    let still_pending := Z.land prev (not32 (sgi_bit irq source_cpu)) in
    let mask := shl32 0xFF (Z.of_nat (irq mod 4 * 8)) in
    if Z.eqb (Z.land still_pending mask) 0
    then unwrap_result (clear_pending irq target_cpu)
    else mret tt.

Definition ack (irq : IRQ) (node_index : nat) : DM unit :=
  n ← gets num_nodes;
  if n <=? node_index then throw (InvalidCPU node_index)
  else
    (if irq <? 16 then clear_sgi_pending irq 0 node_index else clear_pending irq node_index);;
    clear_active irq node_index.

(** ** Writes *)

(** [if to_inject.len() == 0 && to_ack.len() == 0 { NoAction } else { .. }], after
    the two sweeps of the distributor. *)
Definition inject_and_ack (base_irq : IRQ) (num_irqs : nat) : DM WriteAction :=
  to_inject ← reads (λ d, sweep_irqs_to_inject d base_irq num_irqs);
  to_ack ← reads (λ d, sweep_irqs_to_ack d base_irq num_irqs);
  mret (if (length to_inject =? 0) && (length to_ack =? 0) then NoAction
        else InjectAndAckIRQs (Some to_inject) (Some to_ack)).

Definition inject_only (to_inject : list (IRQ * CPU)) : WriteAction :=
  if length to_inject =? 0 then NoAction else InjectAndAckIRQs (Some to_inject) None.

Definition write_ctlr (val : Z) : DM WriteAction :=
  if Z.eqb val 1 then
    prev ← on_control (λ r, fetch_or r val);
    if Z.eqb prev 0 then inject_and_ack 0 1020 else mret NoAction
  else if Z.eqb val 0 then
    prev ← on_control (λ r, fetch_and r val);
    if Z.eqb prev 1 then mret NoAction else mret NoAction
  else throw InvalidRegisterWrite.

Definition write_igroupr (reg_num node_index : nat) (val : Z) : DM WriteAction :=
  (if reg_num =? 0 then on_reg irq_group0 with_irq_group0 node_index (λ r, store r val)
   else on_reg irq_group with_irq_group (reg_num - 1) (λ r, store r val));;
  mret NoAction.

Definition write_isenabler (reg_num node_index : nat) (val : Z) : DM WriteAction :=
  if Z.eqb val 0 then mret NoAction
  else
    (if reg_num =? 0 then on_reg enable0 with_enable0 node_index (λ r, fetch_or r val)
     else on_reg enable with_enable (reg_num - 1) (λ r, fetch_or r val));;
    inject_and_ack (reg_num * 32) 32.

(** The source indexes [self.enable[reg_num]] here, not [reg_num - 1]. *)
Definition write_icenabler (reg_num node_index : nat) (val : Z) : DM WriteAction :=
  if Z.eqb val 0 then mret NoAction
  else
    (if reg_num =? 0 then on_reg enable0 with_enable0 node_index (λ r, fetch_and r (not32 val))
     else on_reg enable with_enable reg_num (λ r, fetch_and r (not32 val)));;
    mret NoAction.

Definition write_ispendr (reg_num node_index : nat) (val : Z) : DM WriteAction :=
  if Z.eqb val 0 then mret NoAction
  else if (reg_num =? 0) && negb (Z.eqb (Z.land val 0xFFFF) 0) then mret NoAction
  else
    (if reg_num =? 0 then on_reg pending0 with_pending0 node_index (λ r, fetch_or r val)
     else on_reg pending with_pending (reg_num - 1) (λ r, fetch_or r val));;
    to_inject ← reads (λ d, sweep_irqs_to_inject d (reg_num * 32) 32);
    mret (inject_only to_inject).

Definition write_icpendr (reg_num node_index : nat) (val : Z) : DM WriteAction :=
  if Z.eqb val 0 then mret NoAction
  else if (reg_num =? 0) && negb (Z.eqb (Z.land val 0xFFFF) 0) then throw InvalidRegisterWrite
  else
    (if reg_num =? 0 then on_reg pending0 with_pending0 node_index (λ r, fetch_and r (not32 val))
     else on_reg pending with_pending (reg_num - 1) (λ r, fetch_and r (not32 val)));;
    mret NoAction.

Definition write_isactiver (reg_num node_index : nat) (val : Z) : DM WriteAction :=
  if Z.eqb val 0 then mret NoAction
  else
    (if reg_num =? 0 then on_reg active0 with_active0 node_index (λ r, fetch_or r val)
     else on_reg active with_active (reg_num - 1) (λ r, fetch_or r val));;
    mret NoAction.

Definition write_icactiver (reg_num node_index : nat) (val : Z) : DM WriteAction :=
  if Z.eqb val 0 then mret NoAction
  else
    (if reg_num =? 0 then on_reg active0 with_active0 node_index (λ r, fetch_and r (not32 val))
     else on_reg active with_active (reg_num - 1) (λ r, fetch_and r (not32 val)));;
    mret NoAction.

Definition write_ipriorityr (reg_num node_index : nat) (val : Z) : DM WriteAction :=
  (if reg_num <? 8 then on_reg2 priority0 with_priority0 node_index reg_num (λ r, store r val)
   else on_reg priority with_priority (reg_num - 8) (λ r, store r val));;
  mret NoAction.

(** The tail shared by the word and the byte write of [GICD_ITARGETSRn]. *)
Definition retarget (reg_num : nat) (new_cpus : Z) : DM WriteAction :=
  if Z.eqb new_cpus 0 then mret NoAction else inject_and_ack (reg_num * 4) 4.

Definition write_itargetsr (reg_num : nat) (val : Z) : DM WriteAction :=
  if reg_num <? 8 then throw InvalidRegisterWrite
  else
    prev ← on_reg targets with_targets (reg_num - 8) (λ r, swap r val);
    retarget reg_num (Z.land val (not32 prev)).

Definition write_itargetsr_byte (reg_num byte_index : nat) (val : Z) : DM WriteAction :=
  if reg_num <? 8 then throw InvalidRegisterWrite
  else
    prev ← on_reg targets with_targets (reg_num - 8) (λ r, set_byte r byte_index val);
    retarget reg_num (Z.land (shl32 val (Z.of_nat (byte_index * 8))) (not32 prev)).

Definition write_icfgr (reg_num node_index : nat) (val : Z) : DM WriteAction :=
  if reg_num =? 0 then mret NoAction
  else
    (if reg_num =? 1 then on_reg config1 with_config1 node_index (λ r, store r val)
     else on_reg config with_config (reg_num - 2) (λ r, store r val));;
    mret NoAction.

(** One target of an SGI: set it pending (an error is unwrapped), and push it if it
    is to be injected. *)
Fixpoint send_sgi (irq : IRQ) (cpus : list CPU) : DM (list (IRQ * CPU)) :=
  match cpus with
  | [] => mret []
  | cpu :: cpus' =>
      unwrap_result (set_pending irq cpu);;
      b ← reads (λ d, should_inject d irq cpu);
      rest ← send_sgi irq cpus';
      mret (if (b : bool) then (irq, cpu) :: rest else rest)
  end.

Definition write_sgir (node_index : nat) (val : Z) : DM WriteAction :=
  let irq := Z.to_nat (Z.land val 0xFF) in
  let cpu_target_list := Z.land (Z.shiftr val 16) 0xFF in
  let target_list_filter := Z.land (Z.shiftr val 24) 0x3 in
  if Z.eqb target_list_filter 0 then
    to_inject ← send_sgi irq (biterate cpu_target_list); mret (inject_only to_inject)
  else if Z.eqb target_list_filter 1 then
    assert_ (node_index <? 8);;
    let cpu_target_list := Z.lxor 0xFF (shl32 1 (Z.of_nat node_index)) in
    to_inject ← send_sgi irq (biterate cpu_target_list); mret (inject_only to_inject)
  else if Z.eqb target_list_filter 2 then
    to_inject ← send_sgi irq [node_index]; mret (inject_only to_inject)
  else mret NoAction.

(** The mask loop of the SGI-pending registers.  [mask] is carried from one
    iteration to the next, as in the source. *)
Fixpoint sgi_mask_loop (base_irq : IRQ) (act : IRQ → DM unit) (test : Z → bool)
    (irqs : list IRQ) (mask : Z) : DM unit :=
  match irqs with
  | [] => mret tt
  | irq :: irqs' =>
      let mask := shl32 mask (Z.of_nat ((irq - base_irq) * 8)) in
      (if test mask then act irq else mret tt);;
      sgi_mask_loop base_irq act test irqs' mask
  end.

Definition write_cpendsgir (reg_num node_index : nat) (val : Z) : DM WriteAction :=
  if Z.eqb val 0 then mret NoAction
  else
    prev ← on_reg2 sgi_pending with_sgi_pending node_index reg_num (λ r, fetch_and r (not32 val));
    let still_pending := Z.land prev (not32 val) in
    let base_irq := reg_num * 4 in
    sgi_mask_loop base_irq (λ irq, unwrap_result (clear_pending irq node_index))
      (λ mask, Z.eqb (Z.land still_pending mask) 0) (seq base_irq 4) 0xFF;;
    mret NoAction.

Definition write_spendsgir (reg_num node_index : nat) (val : Z) : DM WriteAction :=
  if Z.eqb val 0 then mret NoAction
  else
    prev ← on_reg2 sgi_pending with_sgi_pending node_index reg_num (λ r, fetch_or r val);
    let base_irq := reg_num * 4 in
    let newly_pending := Z.land val (not32 prev) in
    sgi_mask_loop base_irq (λ irq, unwrap_result (set_pending irq node_index))
      (λ mask, negb (Z.eqb (Z.land newly_pending mask) 0)) (seq base_irq 4) 0xFF;;
    to_inject ← reads (λ d, sweep_irqs_to_inject d base_irq 4);
    mret (inject_only to_inject).

Definition write_word (reg : GICDistRegWord) (node_index : nat) (val : Z) : DM WriteAction :=
  match reg with
  | GICD_CTLR => write_ctlr val
  | GICD_IIDR | GICD_TYPER => throw InvalidRegisterWrite
  | GICD_IGROUPRn n => write_igroupr n node_index val
  | GICD_ISENABLERn n => write_isenabler n node_index val
  | GICD_ICENABLERn n => write_icenabler n node_index val
  | GICD_ISPENDRn n => write_ispendr n node_index val
  | GICD_ICPENDRn n => write_icpendr n node_index val
  | GICD_ISACTIVERn n => write_isactiver n node_index val
  | GICD_ICACTIVERn n => write_icactiver n node_index val
  | GICD_IPRIORITYRn n => write_ipriorityr n node_index val
  | GICD_ITARGETSRn n => write_itargetsr n val
  | GICD_ICFGRn n => write_icfgr n node_index val
  | GICD_NSACRn _ => throw InvalidRegisterWrite
  | GICD_SGIR => write_sgir node_index val
  | GICD_CPENDSGIRn n => write_cpendsgir n node_index val
  | GICD_SPENDSGIRn n => write_spendsgir n node_index val
  | ICPIDRn _ | ICCIDRn _ => throw InvalidRegisterWrite
  end.

Definition handle_write (offset : Z) (node_index : nat) (val : VMFaultData) : DM WriteAction :=
  match val with
  | DWord val => reg ← lift (word_from_offset offset); write_word reg node_index val
  | DByte val =>
      reg ← lift (byte_from_offset offset);
      match reg with
      | B_ITARGETSRn reg_num byte_index => write_itargetsr_byte reg_num byte_index val
      | _ => panic
      end
  | _ => panic
  end.

(** ** Reads *)

(** [if reg_num < lim { &self.v0[node_index] } else { &self.v[i] }]. *)
Definition banked_reg (v0 v : list Register32) (reg_num node_index i : nat) :
    outcome IRQErrorType Register32 :=
  if reg_num =? 0 then index v0 node_index else index v i.

Definition banked_reg8 (v0 : list (list Register32)) (v : list Register32)
    (reg_num node_index : nat) : outcome IRQErrorType Register32 :=
  if reg_num <? 8 then bank ← index v0 node_index; index bank reg_num
  else index v (reg_num - 8).

(** The registers up to [GICD_ICACTIVERn].  Like the write, the read of the enable
    registers indexes [self.enable[reg_num]]. *)
Definition read_word_lo (d : Distributor) (reg : GICDistRegWord) (node_index : nat) :
    outcome IRQErrorType Z :=
  match reg with
  | GICD_CTLR => Ok (load (control d))
  | GICD_TYPER => Ok (load (ic_type d))
  | GICD_IIDR => Ok (load (dist_ident d))
  | GICD_IGROUPRn n => load <$> banked_reg (irq_group0 d) (irq_group d) n node_index (n - 1)
  | GICD_ISENABLERn n | GICD_ICENABLERn n =>
      load <$> banked_reg (enable0 d) (enable d) n node_index n
  | GICD_ISPENDRn n | GICD_ICPENDRn n =>
      load <$> banked_reg (pending0 d) (pending d) n node_index (n - 1)
  | GICD_ISACTIVERn n | GICD_ICACTIVERn n =>
      load <$> banked_reg (active0 d) (active d) n node_index (n - 1)
  | _ => Err InvalidRegisterRead
  end.

Definition read_word (d : Distributor) (reg : GICDistRegWord) (node_index : nat) :
    outcome IRQErrorType Z :=
  match reg with
  | GICD_IPRIORITYRn n => load <$> banked_reg8 (priority0 d) (priority d) n node_index
  | GICD_ITARGETSRn n => load <$> banked_reg8 (targets0 d) (targets d) n node_index
  | GICD_ICFGRn n =>
      load <$> (if n =? 0 then Ok (config0 d)
                else if n =? 1 then index (config1 d) node_index
                else index (config d) (n - 2))
  | GICD_NSACRn _ | GICD_SGIR => Err InvalidRegisterRead
  | GICD_CPENDSGIRn n | GICD_SPENDSGIRn n =>
      load <$> (bank ← index (sgi_pending d) node_index; index bank n)
  | ICPIDRn n => load <$> index (periph_id d) n
  | ICCIDRn n => load <$> index (component_id d) n
  | _ => read_word_lo d reg node_index
  end.

(** [ReadAction] has the one constructor [NoAction] and is left out. *)
Definition handle_read (d : Distributor) (offset : Z) (node_index : nat) (w : VMFaultWidth) :
    outcome IRQErrorType VMFaultData :=
  match w with
  | WWord => reg ← word_from_offset offset; DWord <$> read_word d reg node_index
  | _ => Panic
  end.
