(* ===== verification/DistributorSpec.v ===== *)
(** * DistributorSpec: correctness of the emulated distributor

    The invariant of the distributor state and that every operation keeps it, the
    behaviour of each operation in terms of the abstract per-interrupt state
    (enabled, pending, active, targeted), the exact result of the two sweeps, and
    the conditions under which a guest access cannot panic. *)

From S2P Require Import Prelude Biterate Fault GicRegisters Distributor.

(** ** The invariant *)

(** A vector of [n] registers holding 32-bit words; a bank of such vectors. *)
Definition vec_ok (n : nat) (l : list Register32) : Prop := length l = n ∧ Forall is_u32 l.
Definition bank_ok (n m : nat) (l : list (list Register32)) : Prop :=
  length l = n ∧ Forall (vec_ok m) l.

(** GICv2 supports at most eight CPU interfaces: a target field has eight bits. *)
Record wf (d : Distributor) : Prop := {
  wf_nodes : 0 < num_nodes d ≤ 8;
  wf_control : control d = 0%Z ∨ control d = 1%Z;
  wf_irq_group0 : vec_ok (num_nodes d) (irq_group0 d);
  wf_irq_group : vec_ok 31 (irq_group d);
  wf_enable0 : vec_ok (num_nodes d) (enable0 d);
  wf_enable : vec_ok 31 (enable d);
  wf_pending0 : vec_ok (num_nodes d) (pending0 d);
  wf_pending : vec_ok 31 (pending d);
  wf_active0 : vec_ok (num_nodes d) (active0 d);
  wf_active : vec_ok 31 (active d);
  wf_priority0 : bank_ok (num_nodes d) 8 (priority0 d);
  wf_priority : vec_ok 247 (priority d);
  wf_targets0 : bank_ok (num_nodes d) 8 (targets0 d);
  wf_targets : vec_ok 247 (targets d);
  wf_config1 : vec_ok (num_nodes d) (config1 d);
  wf_config : vec_ok 62 (config d);
  wf_sgi_pending : bank_ok (num_nodes d) 4 (sgi_pending d);
  wf_periph_id : vec_ok 12 (periph_id d);
  wf_component_id : vec_ok 4 (component_id d);
  wf_ids : is_u32 (ic_type d) ∧ is_u32 (dist_ident d) ∧ is_u32 (config0 d);
}.

Lemma vec_ok_insert n l i v : vec_ok n l → is_u32 v → vec_ok n (<[i := v]> l).
Proof.
  intros [Hlen Hw] Hv. split; [by rewrite length_insert|]. by apply Forall_insert.
Qed.

Lemma vec_ok_lookup n l i : vec_ok n l → i < n → ∃ r, l !! i = Some r ∧ is_u32 r.
Proof.
  intros [<- Hw] Hi. apply lookup_lt_is_Some_2 in Hi as [r Hr].
  exists r. split; [done|]. by eapply Forall_lookup_1.
Qed.

Lemma vec_ok_word n l i r : vec_ok n l → l !! i = Some r → is_u32 r.
Proof. intros [_ Hw] Hr. by eapply Forall_lookup_1. Qed.

Lemma bank_ok_insert n m l i v : bank_ok n m l → vec_ok m v → bank_ok n m (<[i := v]> l).
Proof.
  intros [Hlen Hw] Hv. split; [by rewrite length_insert|]. by apply Forall_insert.
Qed.

Lemma bank_ok_lookup n m l i : bank_ok n m l → i < n → ∃ v, l !! i = Some v ∧ vec_ok m v.
Proof.
  intros [<- Hw] Hi. apply lookup_lt_is_Some_2 in Hi as [r Hr].
  exists r. split; [done|]. by eapply Forall_lookup_1.
Qed.

Lemma vec_ok_zeros n : vec_ok n (zeros n).
Proof.
  split; [apply length_replicate|]. apply Forall_replicate. unfold is_word. lia.
Qed.

#[export] Hint Resolve vec_ok_insert bank_ok_insert vec_ok_word : words.

(** A register operation keeps words words. *)
Definition op_ok {A} (op : Register32 → A * Register32) : Prop :=
  ∀ r, is_u32 r → is_u32 (op r).2.

Lemma op_ok_store v : is_u32 v → op_ok (λ r, store r v).
Proof. by intros Hv r _. Qed.
Lemma op_ok_swap v : is_u32 v → op_ok (λ r, swap r v).
Proof. by intros Hv r _. Qed.
Lemma op_ok_fetch_or v : is_u32 v → op_ok (λ r, fetch_or r v).
Proof. intros Hv r Hr. simpl. auto with words. Qed.
Lemma op_ok_fetch_and v : op_ok (λ r, fetch_and r v).
Proof. intros r Hr. simpl. auto with words. Qed.
Lemma op_ok_set_byte i v : op_ok (λ r, set_byte r i v).
Proof. intros r Hr. simpl. auto with words. Qed.
#[export] Hint Resolve op_ok_store op_ok_swap op_ok_fetch_or op_ok_fetch_and op_ok_set_byte : words.

(** [wf] is kept when one field is replaced by one of the same shape. *)
Class WfField (n : Distributor → nat) (get : Distributor → list Register32)
    (set : Distributor → list Register32 → Distributor) : Prop := {
  wf_field_get d : wf d → vec_ok (n d) (get d);
  wf_field_set d l : wf d → vec_ok (n d) l → wf (set d l);
}.

Class WfBank (n : Distributor → nat) (m : nat) (get : Distributor → list (list Register32))
    (set : Distributor → list (list Register32) → Distributor) : Prop := {
  wf_bank_get d : wf d → bank_ok (n d) m (get d);
  wf_bank_set d l : wf d → bank_ok (n d) m l → wf (set d l);
}.

Ltac solve_wf_field :=
  split; [by intros d []|]; intros d l [] Hl; constructor; try exact Hl; assumption.

#[global] Instance wf_field_irq_group0 : WfField num_nodes irq_group0 with_irq_group0.
Proof. solve_wf_field. Qed.
#[global] Instance wf_field_irq_group : WfField (λ _, 31) irq_group with_irq_group.
Proof. solve_wf_field. Qed.
#[global] Instance wf_field_enable0 : WfField num_nodes enable0 with_enable0.
Proof. solve_wf_field. Qed.
#[global] Instance wf_field_enable : WfField (λ _, 31) enable with_enable.
Proof. solve_wf_field. Qed.
#[global] Instance wf_field_pending0 : WfField num_nodes pending0 with_pending0.
Proof. solve_wf_field. Qed.
#[global] Instance wf_field_pending : WfField (λ _, 31) pending with_pending.
Proof. solve_wf_field. Qed.
#[global] Instance wf_field_active0 : WfField num_nodes active0 with_active0.
Proof. solve_wf_field. Qed.
#[global] Instance wf_field_active : WfField (λ _, 31) active with_active.
Proof. solve_wf_field. Qed.
#[global] Instance wf_field_priority : WfField (λ _, 247) priority with_priority.
Proof. solve_wf_field. Qed.
#[global] Instance wf_field_targets : WfField (λ _, 247) targets with_targets.
Proof. solve_wf_field. Qed.
#[global] Instance wf_field_config1 : WfField num_nodes config1 with_config1.
Proof. solve_wf_field. Qed.
#[global] Instance wf_field_config : WfField (λ _, 62) config with_config.
Proof. solve_wf_field. Qed.
#[global] Instance wf_field_periph_id : WfField (λ _, 12) periph_id with_periph_id.
Proof. solve_wf_field. Qed.
#[global] Instance wf_field_component_id : WfField (λ _, 4) component_id with_component_id.
Proof. solve_wf_field. Qed.
#[global] Instance wf_bank_priority0 : WfBank num_nodes 8 priority0 with_priority0.
Proof. solve_wf_field. Qed.
#[global] Instance wf_bank_targets0 : WfBank num_nodes 8 targets0 with_targets0.
Proof. solve_wf_field. Qed.
#[global] Instance wf_bank_sgi_pending : WfBank num_nodes 4 sgi_pending with_sgi_pending.
Proof. solve_wf_field. Qed.

(** ** Every operation keeps the invariant *)

Lemma on_reg_preserves_wf `{!WfField n get set} {A} i (op : Register32 → A * Register32) :
  op_ok op → preserves wf (on_reg get set i op).
Proof.
  intros Hop d Hd. unfold on_reg. destruct (get d !! i) as [r|] eqn:Hr; [|done].
  pose proof (wf_field_get _ Hd) as Hget. assert (is_u32 r) as Hw by eauto with words.
  specialize (Hop r Hw). destruct (op r) as [a r']. simpl in *.
  apply wf_field_set; [done|]. by apply vec_ok_insert.
Qed.

Lemma on_reg2_preserves_wf `{!WfBank n m get set} {A} i j (op : Register32 → A * Register32) :
  op_ok op → preserves wf (on_reg2 get set i j op).
Proof.
  intros Hop d Hd. unfold on_reg2. destruct (get d !! i) as [bank|] eqn:Hb; [|done].
  destruct (bank !! j) as [r|] eqn:Hr; [|done].
  pose proof (wf_bank_get _ Hd) as [Hlen Hall].
  assert (Hbank : vec_ok m bank) by (by eapply Forall_lookup_1).
  assert (is_u32 r) as Hw by eauto with words.
  specialize (Hop r Hw). destruct (op r) as [a r']. simpl in *.
  apply wf_bank_set; [done|]. apply bank_ok_insert; [done|]. by apply vec_ok_insert.
Qed.

#[export] Hint Extern 1 (preserves wf (on_reg _ _ _ _)) => apply on_reg_preserves_wf : preserves.
#[export] Hint Extern 1 (preserves wf (on_reg2 _ _ _ _ _)) => apply on_reg2_preserves_wf : preserves.

Lemma on_irq_reg_preserves_wf `{!WfField n0 get0 set0} `{!WfField n1 get1 set1} irq cpu op :
  (∀ v, is_u32 v → op_ok (λ r, op r v)) →
  preserves wf (on_irq_reg get0 set0 get1 set1 irq cpu op).
Proof.
  intros Hop. unfold on_irq_reg. apply preserves_bind; [apply preserves_gets|]. intros nn.
  destruct (_ <=? _); [apply preserves_throw|].
  apply preserves_bind; [|intros; apply preserves_ret].
  destruct (_ <? _); apply on_reg_preserves_wf; apply Hop; auto with words.
Qed.

Lemma clear_pending_preserves_wf irq cpu : preserves wf (clear_pending irq cpu).
Proof. apply on_irq_reg_preserves_wf. auto with words. Qed.
Lemma set_pending_preserves_wf irq cpu : preserves wf (set_pending irq cpu).
Proof. apply on_irq_reg_preserves_wf. auto with words. Qed.
Lemma clear_active_preserves_wf irq cpu : preserves wf (clear_active irq cpu).
Proof. apply on_irq_reg_preserves_wf. auto with words. Qed.
Lemma set_active_preserves_wf irq cpu : preserves wf (set_active irq cpu).
Proof. apply on_irq_reg_preserves_wf. auto with words. Qed.
#[export] Hint Resolve clear_pending_preserves_wf set_pending_preserves_wf
  clear_active_preserves_wf set_active_preserves_wf : preserves.

Ltac solve_preserves := eauto 20 with preserves words.

Lemma clear_sgi_pending_preserves_wf irq s t : preserves wf (clear_sgi_pending irq s t).
Proof. unfold clear_sgi_pending. solve_preserves. Qed.
Lemma set_sgi_pending_preserves_wf irq s t : preserves wf (set_sgi_pending irq s t).
Proof. unfold set_sgi_pending. solve_preserves. Qed.
#[export] Hint Resolve clear_sgi_pending_preserves_wf set_sgi_pending_preserves_wf : preserves.

Lemma ack_preserves_wf irq node : preserves wf (ack irq node).
Proof. unfold ack. solve_preserves. Qed.

Lemma send_sgi_preserves_wf irq cpus : preserves wf (send_sgi irq cpus).
Proof. induction cpus; simpl; solve_preserves. Qed.

Lemma sgi_mask_loop_preserves_wf base act test irqs mask :
  (∀ irq, preserves wf (act irq)) → preserves wf (sgi_mask_loop base act test irqs mask).
Proof. intros Hact. revert mask. induction irqs; intros mask; simpl; solve_preserves. Qed.

Lemma inject_and_ack_preserves_wf base n : preserves wf (inject_and_ack base n).
Proof. unfold inject_and_ack. solve_preserves. Qed.
#[export] Hint Resolve ack_preserves_wf send_sgi_preserves_wf sgi_mask_loop_preserves_wf
  inject_and_ack_preserves_wf : preserves.

Lemma on_control_preserves_wf {A} (op : Register32 → A * Register32) :
  (∀ r, r = 0%Z ∨ r = 1%Z → (op r).2 = 0%Z ∨ (op r).2 = 1%Z) → preserves wf (on_control op).
Proof.
  intros Hop d Hd. unfold on_control. specialize (Hop _ (wf_control _ Hd)).
  destruct (op (control d)) as [a r']. simpl in *. destruct Hd; by constructor.
Qed.

Lemma write_ctlr_preserves_wf val : preserves wf (write_ctlr val).
Proof.
  unfold write_ctlr. destruct (Z.eqb_spec val 1) as [->|]; [|destruct (Z.eqb_spec val 0) as [->|]].
  - apply preserves_bind; [|solve_preserves].
    apply on_control_preserves_wf. intros r [-> | ->]; simpl; auto.
  - apply preserves_bind; [|solve_preserves].
    apply on_control_preserves_wf. intros r [-> | ->]; simpl; auto.
  - apply preserves_throw.
Qed.

Lemma retarget_preserves_wf n v : preserves wf (retarget n v).
Proof. unfold retarget. solve_preserves. Qed.
#[export] Hint Resolve write_ctlr_preserves_wf retarget_preserves_wf : preserves.

Lemma write_word_preserves_wf reg node val : is_u32 val → preserves wf (write_word reg node val).
Proof.
  intros Hval. destruct reg; simpl;
  unfold write_igroupr, write_isenabler, write_icenabler, write_ispendr, write_icpendr,
    write_isactiver, write_icactiver, write_ipriorityr, write_itargetsr, write_icfgr, write_sgir,
    write_cpendsgir, write_spendsgir; solve_preserves.
Qed.

(** The data of a guest store has the width of its constructor. *)
Definition data_ok (x : VMFaultData) : Prop := is_word (width_bits (data_width x)) (data_u64 x).

Lemma handle_write_preserves_wf offset node x : data_ok x → preserves wf (handle_write offset node x).
Proof.
  intros Hx. unfold handle_write. destruct x as [v|v|v|v]; [| |apply preserves_bind|];
  unfold write_itargetsr_byte; try solve_preserves.
  - apply preserves_bind; [solve_preserves|]. intros []; solve_preserves.
  - intros reg. by apply write_word_preserves_wf.
Qed.

Lemma zeroed_wf n : 0 < n ≤ 8 → wf (zeroed n).
Proof.
  intros Hn. constructor; simpl; try apply vec_ok_zeros; auto.
  4: (unfold is_word; split_and!; lia).
  all: split; [apply length_replicate|]; apply Forall_replicate, vec_ok_zeros.
Qed.

Lemma reset_target_word idx r : is_u32 (reset_target idx r).
Proof. unfold reset_target. simpl. eauto 10 with words. Qed.

Lemma vec_ok_fmap n (f : Register32 → Register32) l :
  vec_ok n l → (∀ r, is_u32 (f r)) → vec_ok n (f <$> l).
Proof.
  intros [Hlen _] Hf. split; [by rewrite length_fmap|]. apply Forall_fmap, Forall_true. done.
Qed.

Lemma bank_ok_imap n m (f : nat → list Register32 → list Register32) l :
  bank_ok n m l → (∀ i v, vec_ok m v → vec_ok m (f i v)) → bank_ok n m (imap f l).
Proof.
  intros [Hlen Hall] Hf. split; [by rewrite length_imap|].
  apply Forall_lookup. intros i v Hv. rewrite list_lookup_imap in Hv.
  destruct (l !! i) as [w|] eqn:Hw; [|done]. injection Hv as <-.
  apply Hf. by eapply Forall_lookup_1.
Qed.

Lemma modify_ids_preserves_wf (f : Distributor → Distributor) :
  (∀ d, is_u32 (ic_type d) ∧ is_u32 (dist_ident d) ∧ is_u32 (config0 d) →
        is_u32 (ic_type (f d)) ∧ is_u32 (dist_ident (f d)) ∧ is_u32 (config0 (f d))) →
  (∀ d, f d = {|
    num_nodes := num_nodes d; control := control d; ic_type := ic_type (f d);
    dist_ident := dist_ident (f d); irq_group0 := irq_group0 d; irq_group := irq_group d;
    enable0 := enable0 d; enable := enable d; pending0 := pending0 d; pending := pending d;
    active0 := active0 d; active := active d; priority0 := priority0 d; priority := priority d;
    targets0 := targets0 d; targets := targets d; config0 := config0 (f d); config1 := config1 d;
    config := config d; sgi_pending := sgi_pending d; periph_id := periph_id d;
    component_id := component_id d |}) →
  preserves wf (modify f : DM unit).
Proof.
  intros Hids Hf. apply preserves_modify. intros d Hd. rewrite Hf.
  specialize (Hids d (wf_ids d Hd)). destruct Hd; constructor; simpl; auto.
Qed.

Lemma reset_preserves_wf : preserves wf reset.
Proof.
  unfold reset, store_at.
  repeat match goal with |- preserves wf (_ ≫= _) => apply preserves_bind; [|intros ?] end;
    try (apply preserves_gets);
    try (apply preserves_for_each; first [intros [i c] Hin | intros i _];
         apply on_reg_preserves_wf, op_ok_store).
  all: try (apply modify_ids_preserves_wf; [intros d (?&?&?); simpl; auto with words|done]).
  all: try (unfold is_word; lia).
  - apply preserves_modify. intros d Hd. apply wf_bank_set; [done|].
    apply bank_ok_imap; [exact (wf_targets0 _ Hd)|]. intros i v Hv.
    apply vec_ok_fmap; [done|]. apply reset_target_word.
  - apply preserves_modify. intros d Hd. apply wf_field_set; [done|].
    apply vec_ok_fmap; [exact (wf_targets _ Hd)|]. intros r. simpl. unfold is_word. lia.
  - apply list_elem_of_In in Hin. simpl in Hin. unfold is_word. naive_solver lia.
  - apply list_elem_of_In in Hin. simpl in Hin. unfold is_word. naive_solver lia.
Qed.

(** ** Reachable states *)

(** The calls the GIC makes on its distributor. *)
Inductive dist_op :=
| OpWrite (offset : Z) (node : nat) (x : VMFaultData)
| OpAck (irq : IRQ) (node : nat)
| OpSetPending (irq : IRQ) (cpu : CPU)
| OpSetActive (irq : IRQ) (cpu : CPU).

Definition run_op (o : dist_op) (d : Distributor) : Distributor :=
  match o with
  | OpWrite offset node x => (handle_write offset node x d).2
  | OpAck irq node => (ack irq node d).2
  | OpSetPending irq cpu => (set_pending irq cpu d).2
  | OpSetActive irq cpu => (set_active irq cpu d).2
  end.

Inductive reachable (n : nat) : Distributor → Prop :=
| reach_new d : new n = Ok d → reachable n d
| reach_step d o :
    reachable n d → (∀ off node x, o = OpWrite off node x → data_ok x) →
    reachable n (run_op o d).

Lemma new_wf n d : 0 < n ≤ 8 → new n = Ok d → wf d.
Proof.
  intros Hn. unfold new. pose proof (reset_preserves_wf _ (zeroed_wf n Hn)) as Hwf.
  destruct (reset (zeroed n)) as [[]?]; intros [= <-]. done.
Qed.

Lemma run_op_wf o d : wf d → (∀ off node x, o = OpWrite off node x → data_ok x) → wf (run_op o d).
Proof.
  intros Hd Hx. destruct o; simpl.
  - apply handle_write_preserves_wf; [by eapply Hx|done].
  - by apply ack_preserves_wf.
  - by apply set_pending_preserves_wf.
  - by apply set_active_preserves_wf.
Qed.

(** Every state the distributor can reach, from its construction for 1 to 8 CPUs by
    any sequence of guest stores (of any width, at any offset), acknowledgements and
    injections, is well formed: each register vector keeps its length, every register is
    a 32-bit word and the control register is 0 or 1. *)
Lemma reachable_wf n d : 0 < n ≤ 8 → reachable n d → wf d.
Proof. intros Hn. induction 1; [by eapply new_wf|by apply run_op_wf]. Qed.

(** ** The abstract state of an interrupt *)

(** The register at index [i], 0 out of range. *)
Definition reg_at (l : list Register32) (i : nat) : Z := default 0%Z (l !! i).

Definition reg_bit (bank0 bank : list Register32) (irq : IRQ) (cpu : CPU) : bool :=
  Z.testbit (if irq <? 32 then reg_at bank0 cpu else reg_at bank (irq / 32 - 1))
    (Z.of_nat (irq mod 32)).

Definition cpu_ok (d : Distributor) (cpu : CPU) : bool := cpu <? num_nodes d.

(** [irq] is enabled, pending, active, targeted at [cpu]. *)
Definition enabled (d : Distributor) (irq : IRQ) (cpu : CPU) : bool :=
  cpu_ok d cpu && reg_bit (enable0 d) (enable d) irq cpu.
Definition pends (d : Distributor) (irq : IRQ) (cpu : CPU) : bool :=
  cpu_ok d cpu && reg_bit (pending0 d) (pending d) irq cpu.
Definition acts (d : Distributor) (irq : IRQ) (cpu : CPU) : bool :=
  cpu_ok d cpu && reg_bit (active0 d) (active d) irq cpu.
Definition targeted (d : Distributor) (irq : IRQ) (cpu : CPU) : bool :=
  cpu_ok d cpu &&
  Z.testbit (if irq <? 32 then reg_at (default [] (targets0 d !! cpu)) (irq / 4)
             else reg_at (targets d) (irq / 4 - 8))
    (Z.of_nat (irq mod 4 * 8 + cpu)).

(** The condition under which the hypervisor injects [irq] into [cpu]. *)
Definition injectable (d : Distributor) (irq : IRQ) (cpu : CPU) : bool :=
  is_gic_enabled d && enabled d irq cpu && targeted d irq cpu && pends d irq cpu &&
  negb (acts d irq cpu).

Lemma index_ok {E A} (l : list A) i a : l !! i = Some a → index (E := E) l i = Ok a.
Proof. unfold index. by intros ->. Qed.

Lemma div32_bound irq : irq < 1024 → 32 ≤ irq → irq / 32 - 1 < 31.
Proof. intros H _. pose proof (Nat.Div0.div_lt_upper_bound irq 32 32). lia. Qed.

Lemma irq_bit_set_eq d bank0 bank irq cpu :
  vec_ok (num_nodes d) bank0 → vec_ok 31 bank → irq < 1024 →
  irq_bit_set d bank0 bank irq cpu = Ok (cpu_ok d cpu && reg_bit bank0 bank irq cpu).
Proof.
  intros H0 H1 Hirq. unfold irq_bit_set, irq_reg, cpu_ok, reg_bit, reg_at.
  destruct (Nat.leb_spec (num_nodes d) cpu) as [Hle|Hlt].
  { by rewrite (proj2 (Nat.ltb_ge cpu (num_nodes d))). }
  rewrite (proj2 (Nat.ltb_lt cpu (num_nodes d))) by done.
  destruct (Nat.ltb_spec irq 32) as [Hs|Hs].
  - destruct (vec_ok_lookup _ _ cpu H0 Hlt) as (r & Hr & _).
    rewrite (index_ok _ _ _ Hr), Hr. simpl. by rewrite bit_is_set_testbit by lia.
  - destruct (vec_ok_lookup _ _ _ H1 (div32_bound _ Hirq Hs)) as (r & Hr & _).
    rewrite (index_ok _ _ _ Hr), Hr. simpl. by rewrite bit_is_set_testbit by lia.
Qed.

Lemma is_enabled_eq d irq cpu : wf d → irq < 1024 → is_enabled d irq cpu = Ok (enabled d irq cpu).
Proof. intros Hd. apply irq_bit_set_eq; [apply wf_enable0|apply wf_enable]; done. Qed.
Lemma is_pending_eq d irq cpu : wf d → irq < 1024 → is_pending d irq cpu = Ok (pends d irq cpu).
Proof. intros Hd. apply irq_bit_set_eq; [apply wf_pending0|apply wf_pending]; done. Qed.
Lemma is_active_eq d irq cpu : wf d → irq < 1024 → is_active d irq cpu = Ok (acts d irq cpu).
Proof. intros Hd. apply irq_bit_set_eq; [apply wf_active0|apply wf_active]; done. Qed.

Lemma div4_bound irq : irq < 1020 → 32 ≤ irq → irq / 4 - 8 < 247.
Proof. intros H _. pose proof (Nat.Div0.div_lt_upper_bound irq 4 255). lia. Qed.

Lemma testbit_byte_field (r : Z) (k cpu : nat) :
  cpu < 8 →
  bit_is_set (Z.land (Z.shiftr r (Z.of_nat k)) 0xFF) (Z.of_nat cpu) = Z.testbit r (Z.of_nat (k + cpu)).
Proof.
  intros Hc. rewrite bit_is_set_testbit, Z.land_spec, Z.shiftr_spec by lia.
  change 0xFF%Z with (Z.ones 8). rewrite Z.ones_spec_low by lia.
  rewrite andb_true_r. f_equal. lia.
Qed.

Lemma is_target_eq d irq cpu : wf d → irq < 1020 → is_target d irq cpu = Ok (targeted d irq cpu).
Proof.
  intros Hd Hirq. unfold is_target, targeted, cpu_ok, reg_at.
  pose proof (wf_nodes d Hd) as Hn.
  destruct (Nat.leb_spec (num_nodes d) cpu) as [Hle|Hlt].
  { by rewrite (proj2 (Nat.ltb_ge cpu (num_nodes d))). }
  rewrite (proj2 (Nat.ltb_lt cpu (num_nodes d))) by done.
  destruct (Nat.ltb_spec irq 32) as [Hs|Hs].
  - destruct (bank_ok_lookup _ _ _ cpu (wf_targets0 d Hd) Hlt) as (b & Hb & Hbank).
    assert (irq / 4 < 8) as H8 by (apply Nat.Div0.div_lt_upper_bound; lia).
    destruct (vec_ok_lookup _ _ _ Hbank H8) as (r & Hr & _).
    rewrite (index_ok _ _ _ Hb). cbn. rewrite (index_ok _ _ _ Hr), Hb. cbn.
    rewrite Hr. cbn [default]. apply f_equal, testbit_byte_field. lia.
  - destruct (vec_ok_lookup _ _ _ (wf_targets d Hd) (div4_bound _ Hirq Hs)) as (r & Hr & _).
    rewrite (index_ok _ _ _ Hr), Hr. simpl. by rewrite testbit_byte_field by lia.
Qed.

Lemma should_inject_eq d irq cpu :
  wf d → irq < 1020 → should_inject d irq cpu = Ok (injectable d irq cpu).
Proof.
  intros Hd Hirq. unfold should_inject, injectable, and_then.
  rewrite is_enabled_eq, is_target_eq, is_pending_eq, is_active_eq by (done || lia). simpl.
  by destruct (is_gic_enabled d), (enabled d irq cpu), (targeted d irq cpu), (pends d irq cpu).
Qed.

(** No guest can enable the reserved interrupt numbers 1020..1023: their enable bits
    are the top four of the last register. *)
Definition reserved_clear (d : Distributor) : Prop := (reg_at (enable d) 30 < 2 ^ 28)%Z.

Lemma reserved_not_enabled d irq cpu :
  wf d → reserved_clear d → 1020 ≤ irq < 1024 → enabled d irq cpu = false.
Proof.
  intros Hd Hres Hirq. unfold enabled, reg_bit.
  rewrite (proj2 (Nat.ltb_ge irq 32)) by lia.
  assert (irq / 32 - 1 = 30 ∧ 28 ≤ irq mod 32) as [-> Hmod].
  { pose proof (Nat.div_mod_eq irq 32). pose proof (Nat.mod_upper_bound irq 32). lia. }
  rewrite (is_word_testbit 28 (reg_at (enable d) 30)); [by rewrite andb_false_r|lia| |lia].
  split; [|done]. destruct (vec_ok_lookup _ _ 30 (wf_enable d Hd)) as (r & Hr & Hw); [lia|].
  unfold reg_at. rewrite Hr. apply Hw.
Qed.

Lemma should_inject_eq_reserved d irq cpu :
  wf d → reserved_clear d → irq < 1024 → should_inject d irq cpu = Ok (injectable d irq cpu).
Proof.
  intros Hd Hres Hirq. destruct (decide (irq < 1020)); [by apply should_inject_eq|].
  unfold should_inject, injectable, and_then. rewrite is_enabled_eq by done.
  rewrite reserved_not_enabled by (done || lia). simpl.
  by destruct (is_gic_enabled d).
Qed.

(** ** Sweeps *)

#[local] Arguments Nat.leb : simpl never.

(** [(irq, cpu)] is a hit of a sweep over [irqs]: the test holds there, and for an
    SPI it holds at no lower-numbered CPU. *)
Definition sweep_hit (d : Distributor) (tb : IRQ → CPU → bool) (irqs : list IRQ)
    (irq : IRQ) (cpu : CPU) : Prop :=
  irq ∈ irqs ∧ cpu < num_nodes d ∧ tb irq cpu = true ∧
  (32 ≤ irq → ∀ c, c < cpu → tb irq c = false).

Lemma sweep_nodes_spec test (tb : IRQ → CPU → bool) irq k n :
  (∀ cpu, test irq cpu = Ok (tb irq cpu)) →
  (32 ≤ irq → ∀ c, c < k → tb irq c = false) →
  ∃ l, sweep_nodes test irq (seq k n) = Ok l ∧
    ∀ irq' cpu, (irq', cpu) ∈ l ↔
      irq' = irq ∧ k ≤ cpu < k + n ∧ tb irq cpu = true ∧
      (32 ≤ irq → ∀ c, c < cpu → tb irq c = false).
Proof.
  intros Htest. revert k. induction n as [|n IH]; intros k Hlow; simpl.
  { exists []. split; [done|]. intros. rewrite elem_of_nil. naive_solver lia. }
  rewrite Htest. simpl. destruct (tb irq k) eqn:Hk.
  - destruct (Nat.leb_spec 32 irq) as [Hspi|Hppi].
    + exists [(irq, k)]. split; [done|]. intros irq' cpu. rewrite list_elem_of_singleton.
      split; [intros [= -> ->]; split_and!; [done|lia|lia|done|done]|].
      intros (-> & Hr & Ht & Hfirst). f_equal. destruct (decide (k < cpu)); [|lia].
      rewrite Hfirst in Hk by lia. done.
    + destruct (IH (S k)) as (l & -> & Hl); [lia|]. simpl.
      eexists. split; [done|]. intros irq' cpu. rewrite elem_of_cons, Hl.
      split; [intros [[= -> ->]|(-> & ? & ? & ?)]; split_and!; done || lia|].
      intros (-> & Hr & Ht & _). destruct (decide (cpu = k)) as [->|]; [by left|right].
      split_and!; [done|lia|lia|done|lia].
  - destruct (IH (S k)) as (l & -> & Hl).
    { intros Hspi c Hc. destruct (decide (c = k)) as [->|]; [done|]. apply Hlow; lia. }
    eexists. split; [done|]. intros irq' cpu. rewrite Hl.
    split; [intros (-> & ? & ? & ?); split_and!; done || lia|].
    intros (-> & Hr & Ht & Hfirst). split_and!; try done; [|lia].
    destruct (decide (cpu = k)) as [->|]; [congruence|lia].
Qed.

Lemma sweep_spec d test (tb : IRQ → CPU → bool) irqs :
  (∀ irq cpu, irq ∈ irqs → test irq cpu = Ok (tb irq cpu)) →
  ∃ l, sweep d test irqs = Ok l ∧ ∀ irq cpu, (irq, cpu) ∈ l ↔ sweep_hit d tb irqs irq cpu.
Proof.
  unfold sweep_hit. induction irqs as [|irq irqs IH]; intros Htest; simpl.
  { exists []. split; [done|]. intros irq cpu. rewrite !elem_of_nil. tauto. }
  destruct (sweep_nodes_spec test tb irq 0 (num_nodes d)) as (l1 & -> & Hl1); [|lia|].
  { intros. apply Htest. by constructor. }
  destruct IH as (l2 & -> & Hl2); [intros; apply Htest; by constructor|]. simpl.
  eexists. split; [done|]. intros irq' cpu. rewrite elem_of_app, elem_of_cons, Hl1, Hl2.
  naive_solver lia.
Qed.

(** The test of [sweep_irqs_to_ack]. *)
Definition ackable (d : Distributor) (irq : IRQ) (cpu : CPU) : bool :=
  negb (injectable d irq cpu) && enabled d irq cpu.

Lemma should_ack_eq d irq cpu b :
  wf d → irq < 1024 → should_inject d irq cpu = Ok b → b = injectable d irq cpu →
  should_ack d irq cpu = Ok (ackable d irq cpu).
Proof.
  intros Hd Hirq Hb ->. unfold should_ack, ackable, and_then. rewrite Hb.
  rewrite is_enabled_eq by done. simpl. by destruct (injectable d irq cpu).
Qed.

(** The sweeps never fail below the reserved interrupts, and never fail at all when
    no reserved interrupt is enabled. *)
Lemma sweep_irqs_spec d base n :
  wf d → base + n ≤ 1020 ∨ (base + n ≤ 1024 ∧ reserved_clear d) →
  (∃ l, sweep_irqs_to_inject d base n = Ok l ∧
     ∀ irq cpu, (irq, cpu) ∈ l ↔ sweep_hit d (injectable d) (seq base n) irq cpu) ∧
  (∃ l, sweep_irqs_to_ack d base n = Ok l ∧
     ∀ irq cpu, (irq, cpu) ∈ l ↔ sweep_hit d (ackable d) (seq base n) irq cpu).
Proof.
  intros Hd Hr.
  assert (Hinj : ∀ irq cpu, irq ∈ seq base n → should_inject d irq cpu = Ok (injectable d irq cpu)).
  { intros irq cpu Hin%elem_of_seq. destruct Hr as [Hr|[Hr Hres]].
    - apply should_inject_eq; [done|lia].
    - apply should_inject_eq_reserved; [done|done|lia]. }
  split; apply sweep_spec; [done|].
  intros irq cpu Hin. eapply should_ack_eq; [done| |by apply Hinj|done].
  apply elem_of_seq in Hin. lia.
Qed.
