(* ===== verification/DistributorOps.v ===== *)
(** * DistributorOps: what each operation of the distributor does

    The pending and active state is read through [pends] and [acts], per interrupt
    and CPU; each operation is described by its effect on them and by what it
    leaves alone. *)

From S2P Require Import Prelude Biterate Fault GicRegisters Distributor DistributorSpec.

#[local] Arguments Nat.leb : simpl never.

(** ** One bit of a banked vector *)

(** Two (interrupt, CPU) pairs name the same bit: interrupts below 32 are banked per
    CPU, the others are shared. *)
Definition same_line (irq : IRQ) (cpu : CPU) (irq' : IRQ) (cpu' : CPU) : bool :=
  (irq' =? irq) && ((32 <=? irq) || (cpu' =? cpu)).

(** [op] gives bit [k] the value [b] when passed the word with only bit [k] set, and
    leaves the other bits of the register alone. *)
Definition op_writes (op : Register32 → Z → Z * Register32) (b : bool) : Prop :=
  ∀ (r : Z) (k j : nat), k < 32 → j < 32 →
    Z.testbit (op r (shl32 1 (Z.of_nat k))).2 (Z.of_nat j) =
      (if j =? k then b else Z.testbit r (Z.of_nat j)).

Lemma testbit_single (k j : nat) :
  j < 32 → Z.testbit (shl32 1 (Z.of_nat k)) (Z.of_nat j) = (j =? k).
Proof.
  intros Hj. rewrite testbit_word_shl, testbit_one, bool_decide_true by lia. simpl.
  destruct (Nat.eqb_spec j k); [rewrite bool_decide_true|rewrite bool_decide_false]; lia || done.
Qed.

Lemma fetch_or_writes : op_writes fetch_or true.
Proof.
  intros r k j Hk Hj. simpl. rewrite Z.lor_spec, testbit_single by done.
  destruct (j =? k); [apply orb_true_r|apply orb_false_r].
Qed.

Lemma fetch_and_writes : op_writes (λ r v, fetch_and r (not32 v)) false.
Proof.
  intros r k j Hk Hj. simpl.
  rewrite Z.land_spec, testbit_word_not, testbit_single, bool_decide_true by lia.
  destruct (j =? k); [apply andb_false_r|apply andb_true_r].
Qed.

Lemma irq_split (irq irq' : IRQ) : irq' / 32 = irq / 32 → irq' mod 32 = irq mod 32 → irq' = irq.
Proof. pose proof (Nat.div_mod_eq irq 32). pose proof (Nat.div_mod_eq irq' 32). lia. Qed.

Lemma same_line_spi irq cpu irq' cpu' : 32 ≤ irq → same_line irq cpu irq' cpu' = (irq' =? irq).
Proof.
  intros. unfold same_line. rewrite (proj2 (Nat.leb_le 32 irq)) by done. apply andb_true_r.
Qed.
Lemma same_line_banked irq cpu irq' cpu' :
  irq < 32 → same_line irq cpu irq' cpu' = (irq' =? irq) && (cpu' =? cpu).
Proof. intros. unfold same_line. by rewrite (proj2 (Nat.leb_gt 32 irq)) by done. Qed.

Lemma reg_at_insert l i r j :
  i < length l → reg_at (<[i := r]> l) j = if j =? i then r else reg_at l j.
Proof.
  intros Hi. unfold reg_at. destruct (Nat.eqb_spec j i) as [->|].
  - by rewrite list_lookup_insert_eq.
  - by rewrite list_lookup_insert_ne.
Qed.

Lemma mod32_lt irq : irq mod 32 < 32.
Proof. apply Nat.mod_upper_bound. lia. Qed.

Lemma reg_bit_insert_banked l0 l op b irq cpu irq' cpu' :
  op_writes op b → irq < 32 → cpu < length l0 →
  reg_bit (<[cpu := (op (reg_at l0 cpu) (shl32 1 (Z.of_nat (irq mod 32)))).2]> l0) l irq' cpu' =
    if same_line irq cpu irq' cpu' then b else reg_bit l0 l irq' cpu'.
Proof.
  intros Hop Hirq Hcpu. rewrite same_line_banked by done. unfold reg_bit.
  destruct (Nat.ltb_spec irq' 32) as [Hb|Hb].
  - rewrite reg_at_insert by done. rewrite (Nat.mod_small irq), (Nat.mod_small irq') by done.
    destruct (Nat.eqb_spec cpu' cpu) as [->|]; [|by rewrite andb_false_r].
    rewrite Hop, andb_true_r by done. done.
  - destruct (Nat.eqb_spec irq' irq); [lia|]. done.
Qed.

Lemma reg_bit_insert_spi l0 l op b irq cpu irq' cpu' :
  op_writes op b → 32 ≤ irq → irq / 32 - 1 < length l →
  reg_bit l0 (<[irq / 32 - 1 :=
      (op (reg_at l (irq / 32 - 1)) (shl32 1 (Z.of_nat (irq mod 32)))).2]> l) irq' cpu' =
    if same_line irq cpu irq' cpu' then b else reg_bit l0 l irq' cpu'.
Proof.
  intros Hop Hirq Hlen. rewrite same_line_spi by done. unfold reg_bit.
  pose proof (Nat.div_str_pos irq 32). 
  destruct (Nat.ltb_spec irq' 32) as [Hb|Hb].
  { destruct (Nat.eqb_spec irq' irq); [lia|done]. }
  pose proof (Nat.div_str_pos irq' 32). rewrite reg_at_insert by done.
  destruct (Nat.eqb_spec irq' irq) as [->|Hne].
  - rewrite Nat.eqb_refl, Hop, Nat.eqb_refl by apply mod32_lt. done.
  - destruct (Nat.eqb_spec (irq' / 32 - 1) (irq / 32 - 1)) as [Heq|]; [|done].
    rewrite Hop by apply mod32_lt. rewrite Heq.
    destruct (Nat.eqb_spec (irq' mod 32) (irq mod 32)); [|done].
    destruct Hne. apply irq_split; [lia|done].
Qed.

(** A pair of fields that holds one banked bit vector. *)
Class IrqBank (get0 : Distributor → list Register32)
    (set0 : Distributor → list Register32 → Distributor)
    (get1 : Distributor → list Register32)
    (set1 : Distributor → list Register32 → Distributor) : Prop := {
  bank_wf0 d : wf d → vec_ok (num_nodes d) (get0 d);
  bank_wf1 d : wf d → vec_ok 31 (get1 d);
  bank_get0_set0 d l : get0 (set0 d l) = l;
  bank_get1_set1 d l : get1 (set1 d l) = l;
  bank_get1_set0 d l : get1 (set0 d l) = get1 d;
  bank_get0_set1 d l : get0 (set1 d l) = get0 d;
}.

#[global] Instance irq_bank_pending : IrqBank pending0 with_pending0 pending with_pending.
Proof. split; try done; by intros d []. Qed.
#[global] Instance irq_bank_active : IrqBank active0 with_active0 active with_active.
Proof. split; try done; by intros d []. Qed.

Lemma on_irq_reg_spec `{!IrqBank get0 set0 get1 set1} op b d irq cpu :
  op_writes op b → wf d → irq < 1024 → cpu < num_nodes d →
  ∃ d', on_irq_reg get0 set0 get1 set1 irq cpu op d = (Ok tt, d') ∧
    d' = (if irq <? 32 then set0 d (get0 d') else set1 d (get1 d')) ∧
    ∀ irq' cpu', reg_bit (get0 d') (get1 d') irq' cpu' =
      if same_line irq cpu irq' cpu' then b else reg_bit (get0 d) (get1 d) irq' cpu'.
Proof.
  intros Hop Hd Hirq Hcpu. unfold on_irq_reg, on_reg, mbind, M_bind, gets.
  rewrite (proj2 (Nat.leb_gt (num_nodes d) cpu)) by done.
  destruct (Nat.ltb_spec irq 32) as [Hs|Hs].
  - destruct (bank_wf0 d Hd) as [Hlen Hall].
    destruct (lookup_lt_is_Some_2 (get0 d) cpu) as [r Hr]; [lia|]. rewrite Hr.
    pose proof (reg_bit_insert_banked (get0 d) (get1 d) op b irq cpu) as Hbit.
    unfold reg_at in Hbit at 1. rewrite Hr in Hbit. simpl in Hbit.
    destruct (op r _) as [a r']. simpl in *. eexists. split; [done|].
    rewrite bank_get0_set0, bank_get1_set0. split; [done|]. intros. apply Hbit; [done|done|lia].
  - destruct (bank_wf1 d Hd) as [Hlen Hall]. pose proof (div32_bound irq Hirq Hs).
    destruct (lookup_lt_is_Some_2 (get1 d) (irq / 32 - 1)) as [r Hr]; [lia|]. rewrite Hr.
    pose proof (reg_bit_insert_spi (get0 d) (get1 d) op b irq cpu) as Hbit.
    unfold reg_at in Hbit at 1. rewrite Hr in Hbit. simpl in Hbit.
    destruct (op r _) as [a r']. simpl in *. eexists. split; [done|].
    rewrite bank_get1_set1, bank_get0_set1. split; [done|]. intros. apply Hbit; [done|done|lia].
Qed.

Lemma on_irq_reg_invalid get0 set0 get1 set1 op d irq cpu :
  num_nodes d ≤ cpu → on_irq_reg get0 set0 get1 set1 irq cpu op d = (Err (InvalidCPU cpu), d).
Proof.
  intros H. unfold on_irq_reg, mbind, M_bind, gets.
  by rewrite (proj2 (Nat.leb_le (num_nodes d) cpu)).
Qed.

(** The state apart from the pending bits, and apart from the active bits. *)
Definition same_but_pending (d d' : Distributor) : Prop :=
  with_pending0 (with_pending d []) [] = with_pending0 (with_pending d' []) [].
Definition same_but_active (d d' : Distributor) : Prop :=
  with_active0 (with_active d []) [] = with_active0 (with_active d' []) [].

(** The effect of [set_pending] ([b] true) and [clear_pending] ([b] false). *)
Definition pending_written (b : bool) (irq : IRQ) (cpu : CPU) (d d' : Distributor) : Prop :=
  same_but_pending d d' ∧
  ∀ irq' cpu', pends d' irq' cpu' =
    cpu_ok d cpu' && (if same_line irq cpu irq' cpu' then b else pends d irq' cpu').

Definition active_written (b : bool) (irq : IRQ) (cpu : CPU) (d d' : Distributor) : Prop :=
  same_but_active d d' ∧
  ∀ irq' cpu', acts d' irq' cpu' =
    cpu_ok d cpu' && (if same_line irq cpu irq' cpu' then b else acts d irq' cpu').

Section line_ops.
Context (d : Distributor) (irq : IRQ) (cpu : CPU).
Hypotheses (Hd : wf d) (Hirq : irq < 1024) (Hcpu : cpu < num_nodes d).

Lemma on_pending_spec op b :
  op_writes op b →
  ∃ d', on_irq_reg pending0 with_pending0 pending with_pending irq cpu op d = (Ok tt, d') ∧
    pending_written b irq cpu d d'.
Proof.
  intros Hop. destruct (on_irq_reg_spec (get0 := pending0) op b d irq cpu)
    as (d' & Hrun & Hframe & Hbit); [done..|].
  exists d'. split; [done|].
  assert (same_but_pending d d') as Hsame.
  { unfold same_but_pending. rewrite Hframe. by destruct (irq <? 32). }
  split; [done|]. intros irq' cpu'. unfold pends. rewrite Hbit.
  assert (num_nodes d' = num_nodes d) as Hn by (apply (f_equal num_nodes) in Hsame; done).
  unfold cpu_ok. rewrite Hn. by destruct (same_line _ _ _ _), (cpu' <? num_nodes d).
Qed.

Lemma on_active_spec op b :
  op_writes op b →
  ∃ d', on_irq_reg active0 with_active0 active with_active irq cpu op d = (Ok tt, d') ∧
    active_written b irq cpu d d'.
Proof.
  intros Hop. destruct (on_irq_reg_spec (get0 := active0) op b d irq cpu)
    as (d' & Hrun & Hframe & Hbit); [done..|].
  exists d'. split; [done|].
  assert (same_but_active d d') as Hsame.
  { unfold same_but_active. rewrite Hframe. by destruct (irq <? 32). }
  split; [done|]. intros irq' cpu'. unfold acts. rewrite Hbit.
  assert (num_nodes d' = num_nodes d) as Hn by (apply (f_equal num_nodes) in Hsame; done).
  unfold cpu_ok. rewrite Hn. by destruct (same_line _ _ _ _), (cpu' <? num_nodes d).
Qed.

Lemma set_pending_spec : ∃ d', set_pending irq cpu d = (Ok tt, d') ∧ pending_written true irq cpu d d'.
Proof. apply on_pending_spec, fetch_or_writes. Qed.
Lemma clear_pending_spec :
  ∃ d', clear_pending irq cpu d = (Ok tt, d') ∧ pending_written false irq cpu d d'.
Proof. apply on_pending_spec, fetch_and_writes. Qed.
Lemma set_active_spec : ∃ d', set_active irq cpu d = (Ok tt, d') ∧ active_written true irq cpu d d'.
Proof. apply on_active_spec, fetch_or_writes. Qed.
Lemma clear_active_spec :
  ∃ d', clear_active irq cpu d = (Ok tt, d') ∧ active_written false irq cpu d d'.
Proof. apply on_active_spec, fetch_and_writes. Qed.
End line_ops.

(** What a change of the pending or active bits leaves alone. *)
Lemma same_but_pending_view d d' :
  same_but_pending d d' →
  num_nodes d' = num_nodes d ∧ is_gic_enabled d' = is_gic_enabled d ∧
  enabled d' = enabled d ∧ targeted d' = targeted d ∧ acts d' = acts d ∧
  sgi_pending d' = sgi_pending d.
Proof. destruct d, d'; unfold same_but_pending; simpl. by intros [= <- <- <- <- <- <- <- <- <- <- <- <- <- <- <- <- <- <- <- <-]. Qed.

Lemma same_but_active_view d d' :
  same_but_active d d' →
  num_nodes d' = num_nodes d ∧ is_gic_enabled d' = is_gic_enabled d ∧
  enabled d' = enabled d ∧ targeted d' = targeted d ∧ pends d' = pends d ∧
  sgi_pending d' = sgi_pending d.
Proof. destruct d, d'; unfold same_but_active; simpl. by intros [= <- <- <- <- <- <- <- <- <- <- <- <- <- <- <- <- <- <- <- <-]. Qed.

(** ** Software-generated interrupts *)

(** CPU [src] has sent the pending SGI [irq] to [tgt]. *)
Definition sgi_source (d : Distributor) (irq : IRQ) (src tgt : CPU) : bool :=
  Z.testbit (reg_at (default [] (sgi_pending d !! tgt)) (irq / 4)) (Z.of_nat (src + irq mod 4 * 8)).

(** Some CPU other than [src] has. *)
Definition other_source (d : Distributor) (irq : IRQ) (src tgt : CPU) : bool :=
  existsb (λ s, negb (s =? src) && sgi_source d irq s tgt) (seq 0 8).

Lemma mod4_lt irq : irq mod 4 < 4.
Proof. apply Nat.mod_upper_bound. lia. Qed.

Lemma byte_mask_zero (x : Z) (k : nat) :
  k < 4 →
  Z.eqb (Z.land x (shl32 0xFF (Z.of_nat (k * 8)))) 0 =
    negb (existsb (λ s, Z.testbit x (Z.of_nat (s + k * 8))) (seq 0 8)).
Proof.
  intros Hk. apply eq_true_iff_eq. rewrite Z.eqb_eq, negb_true_iff, <-not_true_iff_false.
  assert (Hmask : ∀ i, (0 ≤ i)%Z → Z.testbit (shl32 0xFF (Z.of_nat (k * 8))) i =
            bool_decide (Z.of_nat (k * 8) ≤ i < Z.of_nat (k * 8) + 8)%Z).
  { intros i Hi. rewrite testbit_word_shl by lia. change 0xFF%Z with (Z.ones 8).
    rewrite Z.testbit_ones by lia. apply eq_true_iff_eq.
    rewrite !andb_true_iff, !bool_decide_eq_true, Z.leb_le, Z.ltb_lt. lia. }
  rewrite existsb_exists. split.
  - intros Hz (s & Hs%in_seq & Ht). apply (f_equal (λ y, Z.testbit y (Z.of_nat (s + k * 8)))) in Hz.
    rewrite Z.land_spec, Hmask, bool_decide_true, Ht, Z.testbit_0_l in Hz by lia. done.
  - intros Hno. apply Z.bits_inj_0. intros i. destruct (decide (0 ≤ i)%Z); [|apply Z.testbit_neg_r; lia].
    rewrite Z.land_spec, Hmask by done. case_bool_decide as Hr; [|apply andb_false_r].
    rewrite andb_true_r. apply not_true_is_false. intros Ht. apply Hno.
    exists (Z.to_nat i - k * 8). split; [apply in_seq; lia|]. rewrite <-Ht. f_equal. lia.
Qed.

Lemma sgi_bit_testbit irq src s :
  src < 8 → s < 8 →
  Z.testbit (sgi_bit irq src) (Z.of_nat (s + irq mod 4 * 8)) = (s =? src).
Proof.
  intros Hsrc Hs. pose proof (mod4_lt irq). unfold sgi_bit. rewrite testbit_single by lia.
  destruct (Nat.eqb_spec s src) as [->|]; [by rewrite Nat.eqb_refl|].
  apply Nat.eqb_neq. lia.
Qed.

Lemma sgi_index irq : irq < 16 → irq / 4 < 4.
Proof. intros. apply Nat.Div0.div_lt_upper_bound. lia. Qed.

(** The register of [irq] in the SGI bank of [tgt]. *)
Lemma sgi_reg d irq tgt :
  wf d → irq < 16 → tgt < num_nodes d →
  ∃ bank r, sgi_pending d !! tgt = Some bank ∧ bank !! (irq / 4) = Some r ∧
    ∀ s, sgi_source d irq s tgt = Z.testbit r (Z.of_nat (s + irq mod 4 * 8)).
Proof.
  intros Hd Hirq Htgt.
  destruct (bank_ok_lookup _ _ _ tgt (wf_sgi_pending d Hd) Htgt) as (bank & Hb & Hbank).
  destruct (vec_ok_lookup _ _ _ Hbank (sgi_index irq Hirq)) as (r & Hr & _).
  exists bank, r. split_and!; [done..|]. intros s. unfold sgi_source, reg_at.
  rewrite Hb. simpl. by rewrite Hr.
Qed.

Lemma clear_sgi_pending_spec d irq src tgt :
  wf d → irq < 16 → src < num_nodes d → tgt < num_nodes d →
  ∃ d1 d', clear_sgi_pending irq src tgt d = (Ok tt, d') ∧
    d1 = with_sgi_pending d (sgi_pending d1) ∧
    (∀ s, s < 8 → sgi_source d1 irq s tgt = negb (s =? src) && sgi_source d irq s tgt) ∧
    (if other_source d irq src tgt then d' = d1 else pending_written false irq tgt d1 d').
Proof.
  intros Hd Hirq Hsrc Htgt. pose proof (wf_nodes d Hd).
  destruct (sgi_reg d irq tgt) as (bank & r & Hb & Hr & Hsgi); [done..|].
  pose proof (on_reg2_preserves_wf (get := sgi_pending) (set := with_sgi_pending) tgt (irq / 4)
    (λ r, fetch_and r (not32 (sgi_bit irq src))) (op_ok_fetch_and _) d Hd) as Hwf.
  assert (Hrun : on_reg2 sgi_pending with_sgi_pending tgt (irq / 4)
    (λ r, fetch_and r (not32 (sgi_bit irq src))) d = (Ok r, with_sgi_pending d
      (<[tgt := <[irq / 4 := Z.land r (not32 (sgi_bit irq src))]> bank]> (sgi_pending d)))).
  { unfold on_reg2. rewrite Hb, Hr. done. }
  rewrite Hrun in Hwf. simpl in Hwf.
  set (d1 := with_sgi_pending d _) in *.
  assert (Hbits : ∀ s, s < 8 → Z.testbit (Z.land r (not32 (sgi_bit irq src)))
            (Z.of_nat (s + irq mod 4 * 8)) = negb (s =? src) && sgi_source d irq s tgt).
  { intros s Hs. pose proof (mod4_lt irq).
    rewrite Z.land_spec, testbit_word_not, bool_decide_true, sgi_bit_testbit, Hsgi by lia.
    apply andb_comm. }
  exists d1. unfold clear_sgi_pending, mbind, M_bind, gets.
  rewrite !(proj2 (Nat.leb_gt (num_nodes d) _)), (proj2 (Nat.ltb_ge 16 irq)) by lia.
  rewrite Hrun. cbn zeta. rewrite byte_mask_zero by apply mod4_lt.
  assert (existsb (λ s, Z.testbit (Z.land r (not32 (sgi_bit irq src)))
           (Z.of_nat (s + irq mod 4 * 8))) (seq 0 8) = other_source d irq src tgt) as ->.
  { unfold other_source. apply eq_true_iff_eq. rewrite !existsb_exists.
    split; intros (s & Hs & Ht); exists s; (split; [done|]); apply in_seq in Hs;
    [rewrite <-Hbits|rewrite Hbits]; done || lia. }
  assert (Hd1 : ∀ s, s < 8 → sgi_source d1 irq s tgt = negb (s =? src) && sgi_source d irq s tgt).
  { intros s Hs. rewrite <-Hbits by done. unfold sgi_source at 1, d1. simpl.
    rewrite list_lookup_insert_eq by (by eapply lookup_lt_Some). simpl.
    rewrite reg_at_insert, Nat.eqb_refl by (by eapply lookup_lt_Some). done. }
  destruct (other_source d irq src tgt); simpl.
  - by exists d1.
  - destruct (clear_pending_spec d1 irq tgt) as (d' & Hrun' & Hw); [done|lia|done|].
    exists d'. split_and!; [|done..]. unfold unwrap_result. by rewrite Hrun'.
Qed.

(** ** Acknowledgement *)

(** Acknowledging [irq] at [cpu] ends it: for an SGI, the pending bit stays only while
    another CPU's request is still to be delivered. *)
Definition ack_keeps_pending (d : Distributor) (irq : IRQ) (cpu : CPU) : bool :=
  (irq <? 16) && other_source d irq 0 cpu.

Lemma ack_run d irq cpu :
  wf d → irq < 1024 → cpu < num_nodes d →
  ∃ d', ack irq cpu d = (Ok tt, d') ∧ wf d' ∧
    (∀ irq' cpu', pends d' irq' cpu' = pends d irq' cpu' &&
       (negb (same_line irq cpu irq' cpu') || ack_keeps_pending d irq cpu)) ∧
    (∀ irq' cpu', acts d' irq' cpu' = acts d irq' cpu' && negb (same_line irq cpu irq' cpu')) ∧
    enabled d' = enabled d ∧ targeted d' = targeted d ∧ is_gic_enabled d' = is_gic_enabled d.
Proof.
  intros Hd Hirq Hcpu. pose proof (wf_nodes d Hd).
  assert (∃ d1, (if irq <? 16 then clear_sgi_pending irq 0 cpu else clear_pending irq cpu) d
                = (Ok tt, d1) ∧ num_nodes d1 = num_nodes d ∧ wf d1 ∧
     (∀ irq' cpu', pends d1 irq' cpu' = pends d irq' cpu' &&
       (negb (same_line irq cpu irq' cpu') || ack_keeps_pending d irq cpu)) ∧ acts d1 = acts d ∧
     enabled d1 = enabled d ∧ targeted d1 = targeted d ∧ is_gic_enabled d1 = is_gic_enabled d)
    as (d1 & Hrun1 & Hn1 & Hwf1 & Hp1 & Ha1 & He1 & Ht1 & Hg1).
  { unfold ack_keeps_pending. destruct (Nat.ltb_spec irq 16) as [Hs|Hs].
    - pose proof (clear_sgi_pending_preserves_wf irq 0 cpu d Hd) as Hwf.
      destruct (clear_sgi_pending_spec d irq 0 cpu) as (d1 & d' & Hrun & Hd1 & _ & Hcase); [done|lia..|].
      exists d'. rewrite Hrun in Hwf. simpl. destruct (other_source d irq 0 cpu).
      + subst d'. split_and!; try (rewrite Hd1; done); [done|done|].
        intros. rewrite Hd1, orb_true_r, andb_true_r. done.
      + destruct Hcase as [Hsame Hp]. apply same_but_pending_view in Hsame as (Hn&Hg&He&Ht&Ha&_).
        rewrite Hn, Hg, He, Ht, Ha. split_and!; try (rewrite Hd1; done); [done|done|].
        intros irq' cpu'. rewrite Hp, orb_false_r, Hd1. unfold pends, cpu_ok. simpl.
        destruct (cpu' <? _), (same_line _ _ _ _); simpl; auto using andb_false_r, andb_true_r.
    - pose proof (clear_pending_preserves_wf irq cpu d Hd) as Hwf.
      destruct (clear_pending_spec d irq cpu) as (d' & Hrun & Hsame & Hp); [done..|].
      exists d'. rewrite Hrun in Hwf. simpl.
      apply same_but_pending_view in Hsame as (Hn&Hg&He&Ht&Ha&_).
      split_and!; try done. intros irq' cpu'. rewrite Hp, orb_false_r. unfold pends, cpu_ok.
      destruct (cpu' <? _), (same_line _ _ _ _); simpl; auto using andb_false_r, andb_true_r. }
  pose proof (clear_active_preserves_wf irq cpu d1 Hwf1) as Hwf2.
  destruct (clear_active_spec d1 irq cpu) as (d' & Hrun & Hsame & Ha); [done|done|lia|].
  rewrite Hrun in Hwf2. exists d'. unfold ack, mbind, M_bind, gets.
  rewrite (proj2 (Nat.leb_gt (num_nodes d) cpu)) by done. rewrite Hrun1, Hrun.
  apply same_but_active_view in Hsame as (Hn&Hg&He&Ht&Hp&_).
  rewrite Hp, He, Ht, Hg. split_and!; try done. intros irq' cpu'.
  rewrite Ha, <-Ha1. unfold acts, cpu_ok. 
  destruct (cpu' <? _), (same_line _ _ _ _); simpl; auto using andb_false_r, andb_true_r.
Qed.

(** [ack] at a valid CPU never fails; it clears the active bit of the interrupt
    line and its pending bit (kept only for an SGI that another CPU also requested),
    and changes the pending and active state of no other line, no enable bit, no
    target and not the distributor's control. *)
Lemma ack_spec d irq cpu :
  wf d → irq < 1024 → cpu < num_nodes d →
  ∃ d', ack irq cpu d = (Ok tt, d') ∧ wf d' ∧
    (∀ irq' cpu', pends d' irq' cpu' = pends d irq' cpu' &&
       (negb (same_line irq cpu irq' cpu') || ack_keeps_pending d irq cpu)) ∧
    (∀ irq' cpu', acts d' irq' cpu' = acts d irq' cpu' && negb (same_line irq cpu irq' cpu')) ∧
    enabled d' = enabled d ∧ targeted d' = targeted d ∧ is_gic_enabled d' = is_gic_enabled d.
Proof. apply ack_run. Qed.

Lemma ack_ok d irq cpu :
  wf d → irq < 1024 → cpu < num_nodes d → ∃ d', ack irq cpu d = (Ok tt, d').
Proof.
  intros Hd Hirq Hcpu. destruct (ack_run d irq cpu Hd Hirq Hcpu) as (d' & Hrun & _). by exists d'.
Qed.

(** ** The number of CPUs is fixed *)

Definition has_nodes (n : nat) (d : Distributor) : Prop := num_nodes d = n.

Section nodes.
Context (n : nat).
Abbreviation nodes := (has_nodes n).

Lemma on_reg_nodes {A} get (set : Distributor → list Register32 → Distributor) i
    (op : Register32 → A * Register32) :
  (∀ d l, num_nodes (set d l) = num_nodes d) → preserves nodes (on_reg get set i op).
Proof.
  intros Hset d Hd. unfold on_reg. destruct (get d !! i) as [r|]; [|done].
  destruct (op r). unfold has_nodes. simpl. by rewrite Hset.
Qed.

Lemma on_reg2_nodes {A} get (set : Distributor → list (list Register32) → Distributor) i j
    (op : Register32 → A * Register32) :
  (∀ d l, num_nodes (set d l) = num_nodes d) → preserves nodes (on_reg2 get set i j op).
Proof.
  intros Hset d Hd. unfold on_reg2. destruct (get d !! i) as [b|]; [|done].
  destruct (b !! j) as [r|]; [|done]. destruct (op r). unfold has_nodes. simpl. by rewrite Hset.
Qed.

Lemma on_control_nodes {A} (op : Register32 → A * Register32) : preserves nodes (on_control op).
Proof. intros d Hd. unfold on_control. by destruct (op _). Qed.
#[local] Hint Resolve on_control_nodes : preserves.
#[local] Hint Extern 1 (preserves nodes (on_reg _ _ _ _)) => (apply on_reg_nodes; done) : preserves.
#[local] Hint Extern 1 (preserves nodes (on_reg2 _ _ _ _ _)) => (apply on_reg2_nodes; done) : preserves.

Ltac solve_nodes := eauto 20 with preserves.

Lemma line_ops_nodes irq cpu :
  preserves nodes (set_pending irq cpu) ∧ preserves nodes (clear_pending irq cpu) ∧
  preserves nodes (set_active irq cpu) ∧ preserves nodes (clear_active irq cpu).
Proof.
  unfold set_pending, clear_pending, set_active, clear_active, on_irq_reg.
  split_and!; (apply preserves_bind; [apply preserves_gets|intros m]);
  (destruct (m <=? cpu); [apply preserves_throw|]);
  (apply preserves_bind; [|intros; apply preserves_ret]);
  (destruct (irq <? 32); apply on_reg_nodes; done).
Qed.

Lemma set_pending_nodes irq cpu : preserves nodes (set_pending irq cpu).
Proof. apply line_ops_nodes. Qed.
Lemma clear_pending_nodes irq cpu : preserves nodes (clear_pending irq cpu).
Proof. apply line_ops_nodes. Qed.
Lemma set_active_nodes irq cpu : preserves nodes (set_active irq cpu).
Proof. apply line_ops_nodes. Qed.
Lemma clear_active_nodes irq cpu : preserves nodes (clear_active irq cpu).
Proof. apply line_ops_nodes. Qed.
#[local] Hint Resolve set_pending_nodes clear_pending_nodes set_active_nodes
  clear_active_nodes : preserves.

Lemma ack_nodes irq node : preserves nodes (ack irq node).
Proof. unfold ack, clear_sgi_pending. solve_nodes. Qed.

Lemma send_sgi_nodes irq cpus : preserves nodes (send_sgi irq cpus).
Proof. induction cpus; simpl; solve_nodes. Qed.
Lemma sgi_mask_loop_nodes base act test irqs mask :
  (∀ irq, preserves nodes (act irq)) → preserves nodes (sgi_mask_loop base act test irqs mask).
Proof. intros Hact. revert mask. induction irqs; intros mask; simpl; solve_nodes. Qed.
#[local] Hint Resolve send_sgi_nodes sgi_mask_loop_nodes : preserves.

Lemma write_word_nodes reg node val : preserves nodes (write_word reg node val).
Proof.
  destruct reg; simpl;
  unfold write_ctlr, write_igroupr, write_isenabler, write_icenabler, write_ispendr, write_icpendr,
    write_isactiver, write_icactiver, write_ipriorityr, write_itargetsr, write_icfgr, write_sgir,
    write_cpendsgir, write_spendsgir, retarget, inject_and_ack; solve_nodes.
Qed.

Lemma handle_write_nodes offset node x : preserves nodes (handle_write offset node x).
Proof.
  unfold handle_write. destruct x; try apply preserves_panic.
  - apply preserves_bind; [apply preserves_lift|]. intros []; try apply preserves_panic.
    unfold write_itargetsr_byte, retarget, inject_and_ack. solve_nodes.
  - apply preserves_bind; [apply preserves_lift|]. intros. apply write_word_nodes.
Qed.
End nodes.
