(* ===== verification/DistributorSafety.v ===== *)
(** * DistributorSafety: when a guest access to the distributor cannot panic

    The emulator panics on accesses the source does not handle.  [write_safe] lists
    exactly the restrictions on a word write, per register; under them, and for every
    read of a word register, no access panics, and the restrictions are stable, so a
    guest that keeps to them never stops the emulator.  The theorems at the end show
    that the restrictions are needed. *)

From S2P Require Import Prelude Biterate Fault GicRegisters Distributor DistributorSpec DistributorOps.

#[local] Arguments Nat.leb : simpl never.

(** ** The restrictions *)

(** The [n] CPUs a word of targets names exist. *)
Definition sgi_targets_ok (n : nat) (val : Z) : Prop :=
  let filter := Z.land (Z.shiftr val 24) 3 in
  (filter = 0%Z → (Z.land (Z.shiftr val 16) 0xFF < 2 ^ Z.of_nat n)%Z) ∧ (filter = 1%Z → n = 8).

Definition write_safe (n : nat) (reg : GICDistRegWord) (val : Z) : Prop :=
  match reg with
  | GICD_ISENABLERn 31 => (val < 2 ^ 28)%Z
  | GICD_ICENABLERn 31 => val = 0%Z
  | GICD_SGIR => sgi_targets_ok n val
  | _ => True
  end.

(** The states considered: well formed, [n] CPUs, no reserved interrupt enabled. *)
Definition safe_state (n : nat) (d : Distributor) : Prop :=
  wf d ∧ reserved_clear d ∧ num_nodes d = n.

(** ** Register accesses *)

Lemma on_reg_safe `{!WfField k get set} {A} n i (op : Register32 → A * Register32) :
  (∀ d l, num_nodes (set d l) = num_nodes d) → (∀ d l, enable (set d l) = enable d) →
  (∀ d, safe_state n d → i < k d) → op_ok op → safe (safe_state n) (on_reg get set i op).
Proof.
  intros Hn He Hi Hop d Hd. pose proof (on_reg_preserves_wf i op Hop d (proj1 Hd)) as Hwf.
  unfold on_reg in *. destruct (vec_ok_lookup _ _ i (wf_field_get _ (proj1 Hd))) as (r & Hr & Hw).
  { by apply Hi. }
  rewrite Hr in *. destruct (op r) as [a r']. simpl in *. split; [done|].
  destruct Hd as (_ & Hres & <-). split_and!; [done| |apply Hn].
  unfold reserved_clear. by rewrite He.
Qed.

Lemma on_reg2_safe `{!WfBank k m get set} {A} n i j (op : Register32 → A * Register32) :
  (∀ d l, num_nodes (set d l) = num_nodes d) → (∀ d l, enable (set d l) = enable d) →
  (∀ d, safe_state n d → i < k d) → j < m → op_ok op →
  safe (safe_state n) (on_reg2 get set i j op).
Proof.
  intros Hn He Hi Hj Hop d Hd. pose proof (on_reg2_preserves_wf i j op Hop d (proj1 Hd)) as Hwf.
  unfold on_reg2 in *.
  destruct (bank_ok_lookup _ _ _ i (wf_bank_get _ (proj1 Hd))) as (b & Hb & Hbank); [by apply Hi|].
  destruct (vec_ok_lookup _ _ j Hbank Hj) as (r & Hr & _).
  rewrite Hb, Hr in *. destruct (op r) as [a r']. simpl in *. split; [done|].
  destruct Hd as (_ & Hres & <-). split_and!; [done| |apply Hn].
  unfold reserved_clear. by rewrite He.
Qed.

(** The enable vector is the one whose writes matter to [reserved_clear]. *)
Lemma on_enable_safe {A} n i (op : Register32 → A * Register32) :
  i < 31 → op_ok op → (i = 30 → ∀ r, is_word 28 r → is_word 28 (op r).2) →
  safe (safe_state n) (on_reg enable with_enable i op).
Proof.
  intros Hi Hop Hres d (Hd & Hr & <-).
  pose proof (on_reg_preserves_wf (get := enable) (set := with_enable) i op Hop d Hd) as Hwf.
  unfold on_reg in *. destruct (vec_ok_lookup _ _ i (wf_enable d Hd) Hi) as (r & Hlook & Hw).
  rewrite Hlook in *. specialize (Hres).
  destruct (op r) as [a r'] eqn:Hopr. simpl in *. split; [done|]. split_and!; [done| |done].
  unfold reserved_clear in *. simpl. rewrite reg_at_insert by (by eapply lookup_lt_Some).
  destruct (Nat.eqb_spec 30 i) as [<-|]; [|done].
  unfold reg_at in Hr. rewrite Hlook in Hr. simpl in Hr.
  specialize (Hres eq_refl r). rewrite Hopr in Hres. apply Hres. split; [apply Hw|done].
Qed.

(** ** Sweeps and SGIs *)

Lemma inject_and_ack_safe n base k : base + k ≤ 1024 → safe (safe_state n) (inject_and_ack base k).
Proof.
  intros Hk. unfold inject_and_ack.
  apply safe_bind; [|intros; apply safe_bind; [|auto with safe]]; apply safe_reads;
  intros d (Hd & Hres & _); destruct (sweep_irqs_spec d base k) as [(l & Hl & _) (l' & Hl' & _)];
  rewrite ?Hl, ?Hl'; auto.
Qed.

Lemma sweep_inject_safe n base k :
  base + k ≤ 1024 → safe (safe_state n) (reads (λ d, sweep_irqs_to_inject d base k)).
Proof.
  intros Hk. apply safe_reads. intros d (Hd & Hres & _).
  destruct (sweep_irqs_spec d base k) as [(l & Hl & _) _]; [done|auto|]. by rewrite Hl.
Qed.

Lemma pending_written_safe n b irq cpu d d' :
  safe_state n d → wf d' → pending_written b irq cpu d d' → safe_state n d'.
Proof.
  intros (_ & Hres & <-) Hwf [Hsame _]. split_and!; [done| |].
  - unfold reserved_clear. apply (f_equal enable) in Hsame. simpl in Hsame. by rewrite <-Hsame.
  - by apply (f_equal num_nodes) in Hsame.
Qed.

Lemma set_pending_safe n irq cpu :
  irq < 1024 → cpu < n → safe (safe_state n) (unwrap_result (set_pending irq cpu) : DM unit).
Proof.
  intros Hirq Hcpu. apply safe_unwrap_result. intros d Hd. pose proof Hd as (Hwf & _ & Hn).
  pose proof (set_pending_preserves_wf irq cpu d Hwf) as Hwf'.
  destruct (set_pending_spec d irq cpu) as (d' & Hrun & Hw); [done|done|lia|].
  rewrite Hrun in Hwf'. exists tt, d'. split; [done|]. by eapply pending_written_safe.
Qed.

Lemma clear_pending_safe n irq cpu :
  irq < 1024 → cpu < n → safe (safe_state n) (unwrap_result (clear_pending irq cpu) : DM unit).
Proof.
  intros Hirq Hcpu. apply safe_unwrap_result. intros d Hd. pose proof Hd as (Hwf & _ & Hn).
  pose proof (clear_pending_preserves_wf irq cpu d Hwf) as Hwf'.
  destruct (clear_pending_spec d irq cpu) as (d' & Hrun & Hw); [done|done|lia|].
  rewrite Hrun in Hwf'. exists tt, d'. split; [done|]. by eapply pending_written_safe.
Qed.

Lemma send_sgi_safe n irq cpus :
  irq < 1020 → Forall (λ cpu, cpu < n) cpus → safe (safe_state n) (send_sgi irq cpus).
Proof.
  intros Hirq. induction 1 as [|cpu cpus Hcpu _ IH]; simpl; [auto with safe|].
  apply safe_bind; [apply set_pending_safe; lia|intros _].
  apply safe_bind; [apply safe_reads|intros b; auto with safe].
  intros d (Hd & _ & _). by rewrite should_inject_eq.
Qed.

Lemma sgi_mask_loop_safe n base act test irqs mask :
  (∀ irq, irq ∈ irqs → safe (safe_state n) (act irq)) →
  safe (safe_state n) (sgi_mask_loop base act test irqs mask).
Proof.
  revert mask. induction irqs as [|irq irqs IH]; intros mask Hact; simpl; [auto with safe|].
  apply safe_bind; [|intros; apply IH; intros; apply Hact; by constructor].
  apply safe_if; [|auto with safe]. intros. apply Hact. by constructor.
Qed.

(** ** Word writes *)

Lemma on_control_safe {A} n (op : Register32 → A * Register32) :
  (∀ r, r = 0%Z ∨ r = 1%Z → (op r).2 = 0%Z ∨ (op r).2 = 1%Z) →
  safe (safe_state n) (on_control op).
Proof.
  intros Hop d (Hd & Hres & <-). pose proof (on_control_preserves_wf op Hop d Hd) as Hwf.
  unfold on_control in *. destruct (op (control d)) as [a r']. simpl in *. by split_and!.
Qed.

Lemma write_ctlr_safe n val : safe (safe_state n) (write_ctlr val).
Proof.
  unfold write_ctlr. destruct (Z.eqb_spec val 1) as [->|]; [|destruct (Z.eqb_spec val 0) as [->|]].
  - apply safe_bind; [apply on_control_safe; intros r [-> | ->]; simpl; auto|].
    intros prev. apply safe_if; intros; [apply inject_and_ack_safe; lia|auto with safe].
  - apply safe_bind; [apply on_control_safe; intros r [-> | ->]; simpl; auto|].
    intros prev. apply safe_if; auto with safe.
  - auto with safe.
Qed.

Ltac node_bound := let Hd := fresh in intros ? Hd; destruct Hd as (_ & _ & Hd); lia.
Ltac on_reg_safe :=
  first [apply on_reg_safe | apply on_reg2_safe]; [done|done|node_bound || (intros; lia)|..];
  auto with words; try lia.

Lemma others_word cpu : cpu < 8 → is_word 8 (Z.lxor 0xFF (shl32 1 (Z.of_nat cpu))).
Proof.
  intros Hcpu. do 8 (destruct cpu as [|cpu]; [by vm_compute; split|]). lia.
Qed.

Lemma retarget_safe n reg_num new_cpus :
  reg_num < 255 → safe (safe_state n) (retarget reg_num new_cpus).
Proof.
  intros Hr. unfold retarget. apply safe_if; intros; [auto with safe|].
  apply inject_and_ack_safe. lia.
Qed.

Section writes.
Context (n node : nat) (val : Z).
Hypotheses (Hnode : node < n) (Hval : is_u32 val).

Lemma write_isenabler_safe reg_num :
  reg_num < 32 → write_safe n (GICD_ISENABLERn reg_num) val →
  safe (safe_state n) (write_isenabler reg_num node val).
Proof.
  intros Hr Hs. unfold write_isenabler. apply safe_if; intros; [auto with safe|].
  apply safe_bind; [|intros; apply inject_and_ack_safe; lia].
  destruct (Nat.eqb_spec reg_num 0); [on_reg_safe|].
  apply on_enable_safe; [lia|auto with words|]. intros Hi r Hw. simpl.
  assert (reg_num = 31) as -> by lia. apply is_word_lor; [lia|done|].
  split; [apply Hval|exact Hs].
Qed.

Lemma write_icenabler_safe reg_num :
  reg_num < 32 → write_safe n (GICD_ICENABLERn reg_num) val →
  safe (safe_state n) (write_icenabler reg_num node val).
Proof.
  intros Hr Hs. unfold write_icenabler. destruct (Z.eqb_spec val 0) as [|Hnz]; [auto with safe|].
  assert (reg_num ≠ 31) by (intros ->; apply Hnz, Hs).
  apply safe_bind; [|auto with safe]. destruct (Nat.eqb_spec reg_num 0); [on_reg_safe|].
  apply on_enable_safe; [lia|auto with words|]. intros Hi r Hw. by apply is_word_land_l.
Qed.

Lemma write_pend_act_safe reg_num :
  reg_num < 32 →
  safe (safe_state n) (write_ispendr reg_num node val) ∧
  safe (safe_state n) (write_icpendr reg_num node val) ∧
  safe (safe_state n) (write_isactiver reg_num node val) ∧
  safe (safe_state n) (write_icactiver reg_num node val).
Proof.
  intros Hr. split_and!;
  unfold write_ispendr, write_icpendr, write_isactiver, write_icactiver;
  repeat (apply safe_if; intros; [auto with safe|]);
  (apply safe_bind; [destruct (Nat.eqb_spec reg_num 0); on_reg_safe|intros; auto with safe]).
  apply safe_bind; [apply sweep_inject_safe; lia|auto with safe].
Qed.

Lemma write_igroupr_safe reg_num :
  reg_num < 32 → safe (safe_state n) (write_igroupr reg_num node val).
Proof.
  intros Hr. unfold write_igroupr. apply safe_bind; [|auto with safe].
  destruct (Nat.eqb_spec reg_num 0); on_reg_safe.
Qed.

Lemma write_ipriorityr_safe reg_num :
  reg_num < 255 → safe (safe_state n) (write_ipriorityr reg_num node val).
Proof.
  intros Hr. unfold write_ipriorityr. apply safe_bind; [|auto with safe].
  destruct (Nat.ltb_spec reg_num 8); on_reg_safe.
Qed.

Lemma write_itargetsr_safe reg_num :
  reg_num < 255 → safe (safe_state n) (write_itargetsr reg_num val).
Proof.
  intros Hr. unfold write_itargetsr. destruct (Nat.ltb_spec reg_num 8); [auto with safe|].
  apply safe_bind; [on_reg_safe|intros; by apply retarget_safe].
Qed.

Lemma write_icfgr_safe reg_num :
  reg_num < 64 → safe (safe_state n) (write_icfgr reg_num node val).
Proof.
  intros Hr. unfold write_icfgr. destruct (Nat.eqb_spec reg_num 0); [auto with safe|].
  apply safe_bind; [|auto with safe]. destruct (Nat.eqb_spec reg_num 1); on_reg_safe.
Qed.

Lemma byte_field_word z : is_word 8 (Z.land z 0xFF).
Proof. change 0xFF%Z with (Z.ones 8). by apply is_word_land_r, is_word_ones. Qed.

Lemma write_sgir_safe :
  n ≤ 8 → write_safe n GICD_SGIR val → safe (safe_state n) (write_sgir node val).
Proof.
  intros Hn [Hf0 Hf1]. unfold write_sgir.
  pose proof (byte_field_word val) as Hirq. unfold is_word in Hirq. simpl in Hirq.
  assert (∀ l, Forall (λ cpu, cpu < n) l → safe (safe_state n)
    (to_inject ← send_sgi (Z.to_nat (Z.land val 255)) l; mret (inject_only to_inject))) as Hsend.
  { intros l Hl. apply safe_bind; [apply send_sgi_safe; [lia|done]|auto with safe]. }
  destruct (Z.eqb_spec (Z.land (Z.shiftr val 24) 3) 0) as [H0|H0].
  { apply Hsend, Forall_forall. intros cpu Hcpu.
    assert (is_word (Z.of_nat n) (Z.land (Z.shiftr val 16) 255)) as Hw.
    { split; [apply byte_field_word|auto]. }
    eapply elem_of_biterate in Hcpu; [|instantiate (1 := n); lia|done]. by eapply set_bit_below. }
  destruct (Z.eqb_spec (Z.land (Z.shiftr val 24) 3) 1) as [H1|H1].
  { apply safe_bind; [apply safe_assert, Nat.ltb_lt; lia|intros _].
    apply Hsend, Forall_forall. rewrite Hf1 in * by done. intros cpu Hcpu.
    pose proof (others_word node ltac:(lia)).
    eapply elem_of_biterate in Hcpu; [|instantiate (1 := 8); lia|done]. by eapply set_bit_below. }
  destruct (Z.eqb_spec (Z.land (Z.shiftr val 24) 3) 2); [|auto with safe].
  apply Hsend. by repeat constructor.
Qed.

Lemma write_sgi_pending_safe reg_num :
  reg_num < 4 →
  safe (safe_state n) (write_cpendsgir reg_num node val) ∧
  safe (safe_state n) (write_spendsgir reg_num node val).
Proof.
  intros Hr. split; unfold write_cpendsgir, write_spendsgir;
  (apply safe_if; intros; [auto with safe|]); (apply safe_bind; [on_reg_safe|intros prev]);
  (apply safe_bind; [apply sgi_mask_loop_safe; intros irq Hin%elem_of_seq|intros _]).
  - apply clear_pending_safe; lia.
  - auto with safe.
  - apply set_pending_safe; lia.
  - apply safe_bind; [apply sweep_inject_safe; lia|auto with safe].
Qed.

Lemma write_word_safe reg :
  n ≤ 8 → reg_exists reg → write_safe n reg val → safe (safe_state n) (write_word reg node val).
Proof.
  intros Hn Hex Hs. destruct reg as [| | |k|k|k|k|k|k|k|k|k|k|k| |k|k|k|k]; simpl in Hex |- *;
  auto using write_ctlr_safe, write_igroupr_safe, write_isenabler_safe, write_icenabler_safe,
    write_ipriorityr_safe, write_itargetsr_safe, write_icfgr_safe, write_sgir_safe with safe;
  first [apply (write_pend_act_safe k); done | apply (write_sgi_pending_safe k); done].
Qed.
End writes.

(** ** Construction *)

(** A record field with its update. *)
Class Field (get : Distributor → list Register32)
    (set : Distributor → list Register32 → Distributor) : Prop := {
  field_get_set d l : get (set d l) = l;
  field_set_set d l l' : set (set d l) l' = set d l';
  field_set_get d : set d (get d) = d;
}.
#[global] Instance field_enable0 : Field enable0 with_enable0.
Proof. by split; intros []. Qed.
#[global] Instance field_config1 : Field config1 with_config1.
Proof. by split; intros []. Qed.
#[global] Instance field_config : Field config with_config.
Proof. by split; intros []. Qed.
#[global] Instance field_periph_id : Field periph_id with_periph_id.
Proof. by split; intros []. Qed.
#[global] Instance field_component_id : Field component_id with_component_id.
Proof. by split; intros []. Qed.

Lemma store_at_eq `{!Field get set} i c d :
  i < length (get d) → store_at get set i c d = (Ok tt, set d (<[i := c]> (get d))).
Proof.
  intros Hi. unfold store_at, on_reg. apply lookup_lt_is_Some_2 in Hi as [r Hr]. by rewrite Hr.
Qed.

(** The loop [for i in 0..n { v[i].store(c) }]. *)
Lemma store_loop_eq `{!Field get set} (k n : nat) c d :
  k + n ≤ length (get d) →
  for_each (λ i, store_at get set i c) (seq k n) d =
    (Ok tt, set d (take k (get d) ++ replicate n c ++ drop (k + n) (get d))).
Proof.
  revert k d. induction n as [|n IH]; intros k d Hk; simpl.
  { rewrite Nat.add_0_r, take_drop, field_set_get. done. }
  unfold mbind, M_bind. rewrite store_at_eq by lia. rewrite IH by (rewrite field_get_set, length_insert; lia).
  rewrite field_get_set, field_set_set. do 2 f_equal.
  rewrite (take_S_r _ _ c), take_insert_ge, <-app_assoc by (lia || by rewrite list_lookup_insert_eq by lia).
  rewrite drop_insert_lt, Nat.add_succ_comm by lia. done.
Qed.

(** The state of a new distributor with [n] CPUs. *)
Definition initial (n : nat) : Distributor := {|
  num_nodes := n;
  control := 0%Z; ic_type := 0x0000fce7%Z; dist_ident := 0x0200043b%Z;
  irq_group0 := zeros n; irq_group := zeros 31;
  enable0 := replicate n 0x0000ffff%Z; enable := zeros 31;
  pending0 := zeros n; pending := zeros 31;
  active0 := zeros n; active := zeros 31;
  priority0 := replicate n (zeros 8); priority := zeros 247;
  targets0 := imap (λ idx bank, reset_target idx <$> bank) (replicate n (zeros 8));
  targets := replicate 247 0x01010101%Z;
  config0 := 0xaaaaaaaa%Z; config1 := replicate n 0x55540000%Z;
  config := replicate 14 0x55555555%Z ++ zeros 48;
  sgi_pending := replicate n (zeros 4);
  periph_id := [0; 0; 0; 0; 0x04; 0; 0; 0; 0x90; 0xb4; 0x2b; 0]%Z;
  component_id := [0x0d; 0xf0; 0x05; 0xb1]%Z;
|}.

Lemma length_zeros n : length (zeros n) = n.
Proof. apply length_replicate. Qed.

Lemma store_list_eq `{!Field get set} (l : list (nat * Z)) d :
  Forall (λ p, p.1 < length (get d)) l →
  for_each (λ '(i, c), store_at get set i c) l d =
    (Ok tt, set d (fold_left (λ v p, <[p.1 := p.2]> v) l (get d))).
Proof.
  revert d. induction l as [|[i c] l IH]; intros d Hl; simpl.
  { by rewrite field_set_get. }
  apply Forall_cons in Hl as [Hi Hl]. unfold mbind, M_bind. rewrite store_at_eq by done.
  rewrite IH; rewrite field_get_set; [by rewrite field_set_set|].
  eapply Forall_impl; [done|]. intros p. by rewrite length_insert.
Qed.

(** Run one statement of [reset] and normalise the state it leaves. *)
Ltac reset_step tac :=
  erewrite bind_eq_ok by tac;
  match goal with
  | |- ?m ?s = _ =>
      let s' := eval cbn -[replicate imap reset_target zeros app take drop]
                  in (ltac:(let s'' := eval unfold with_ic_type, with_dist_ident, with_enable0,
                         with_config0, with_config1, with_config, with_targets0, with_targets,
                         with_periph_id, with_component_id in s in exact s'')) in
      change s with s'
  end; cbv beta.

Lemma new_eq n : new n = Ok (initial n).
Proof.
  unfold new. replace (reset (zeroed n)) with (Ok (E := IRQErrorType) tt, initial n); [done|].
  symmetry. unfold reset, zeroed.
  do 3 (reset_step ltac:(reflexivity)).
  reset_step ltac:(apply store_loop_eq; simpl; by rewrite length_zeros).
  reset_step ltac:(reflexivity).
  reset_step ltac:(apply store_loop_eq; simpl; by rewrite length_zeros).
  reset_step ltac:(apply store_loop_eq; simpl; lia).
  rewrite !drop_ge by (by rewrite length_zeros). rewrite !take_0, !app_nil_l, !app_nil_r.
  do 2 (reset_step ltac:(reflexivity)).
  reset_step ltac:(apply store_list_eq; simpl; repeat constructor; simpl; lia).
  rewrite store_list_eq by (simpl; repeat constructor; simpl; lia). reflexivity.
Qed.

Lemma initial_safe n : 0 < n ≤ 8 → safe_state n (initial n).
Proof. intros Hn. split_and!; [by eapply new_wf, new_eq|done|done]. Qed.

Lemma reg_bit_zeros n m irq cpu : reg_bit (zeros n) (zeros m) irq cpu = false.
Proof.
  assert (∀ k i, reg_at (zeros k) i = 0%Z) as Hz.
  { intros k i. unfold reg_at. destruct (zeros k !! i) as [r|] eqn:Hr; [|done].
    by apply lookup_replicate in Hr as [-> _]. }
  unfold reg_bit. rewrite !Hz. destruct (irq <? 32); apply Z.testbit_0_l.
Qed.

Lemma reset_target_bits cpu k :
  cpu < 8 → k < 4 → Z.testbit (reset_target cpu 0) (Z.of_nat (k * 8 + cpu)) = true.
Proof.
  intros Hc Hk. do 8 (destruct cpu as [|cpu]; [do 4 (destruct k as [|k]; [done|]); lia|]). lia.
Qed.

Lemma spi_target_bits cpu k :
  cpu < 8 → k < 4 → Z.testbit 0x01010101 (Z.of_nat (k * 8 + cpu)) = (cpu =? 0).
Proof.
  intros Hc Hk. do 8 (destruct cpu as [|cpu]; [do 4 (destruct k as [|k]; [done|]); lia|]). lia.
Qed.

Lemma initial_target0 n cpu k :
  cpu < n → k < 8 →
  reg_at (default [] (imap (λ idx bank, reset_target idx <$> bank) (replicate n (zeros 8)) !! cpu)) k =
    reset_target cpu 0.
Proof.
  intros Hc Hk. rewrite list_lookup_imap, lookup_replicate_2 by done.
  do 8 (destruct k as [|k]; [done|]). lia.
Qed.

(** Creating a distributor for [n] CPUs (1 to 8) succeeds; in the new state the
    distributor is off, nothing is pending or active, exactly the sixteen SGIs are
    enabled, SGIs and PPIs target their own CPU and every SPI targets CPU 0. *)
Lemma new_spec n :
  0 < n ≤ 8 →
  ∃ d, new n = Ok d ∧ wf d ∧ is_gic_enabled d = false ∧
    ∀ irq cpu, pends d irq cpu = false ∧ acts d irq cpu = false ∧
      (irq < 1024 → enabled d irq cpu = (cpu <? n) && (irq <? 16)) ∧
      (irq < 1020 → targeted d irq cpu = (cpu <? n) && ((irq <? 32) || (cpu =? 0))).
Proof.
  intros Hn. exists (initial n). rewrite new_eq.
  split_and!; [done|apply initial_safe, Hn|done|]. intros irq cpu.
  unfold pends, acts, enabled, targeted, cpu_ok. cbv [initial pending0 pending active0 active
    enable0 enable targets0 targets num_nodes]. rewrite reg_bit_zeros, andb_false_r.
  split_and!; [done..| |]; intros Hirq; destruct (Nat.ltb_spec cpu n) as [Hc|]; try done; cbn [andb].
  - unfold reg_bit. destruct (Nat.ltb_spec irq 32) as [Hs|Hs].
    + unfold reg_at. rewrite lookup_replicate_2, (Nat.mod_small irq) by done. simpl default.
      change 65535%Z with (Z.ones 16). rewrite Z.testbit_ones by lia.
      destruct (Nat.ltb_spec irq 16); lia.
    + unfold reg_at, zeros. rewrite lookup_replicate_2 by (by apply div32_bound).
      simpl default. rewrite Z.testbit_0_l. symmetry. apply Nat.ltb_ge. lia.
  - destruct (Nat.ltb_spec irq 32) as [Hs|Hs].
    + assert (irq / 4 < 8) by (apply Nat.Div0.div_lt_upper_bound; lia).
      rewrite initial_target0 by done. apply reset_target_bits; [lia|apply mod4_lt].
    + unfold reg_at. rewrite lookup_replicate_2 by (by apply div4_bound). cbv [default from_option id].
      apply spi_target_bits; [lia|apply mod4_lt].
Qed.

(** ** Guests *)

(** A store a guest makes to the distributor page, and the ones that are safe. *)
Record guest_write := { gw_node : nat; gw_offset : Z; gw_data : VMFaultData }.

Definition guest_write_safe (n : nat) (g : guest_write) : Prop :=
  gw_node g < n ∧ data_ok (gw_data g) ∧
  match gw_data g with
  | DWord val => ∃ reg, word_from_offset (E := IRQErrorType) (gw_offset g) = Ok reg ∧ write_safe n reg val
  | DByte _ => (0x800 ≤ gw_offset g ≤ 0xBF8)%Z
  | _ => False
  end.

(** Run the stores in order; the results of all of them. *)
Fixpoint guest_run (l : list guest_write) (d : Distributor) :
    list (outcome IRQErrorType WriteAction) :=
  match l with
  | [] => []
  | g :: l' =>
      let '(r, d') := handle_write (gw_offset g) (gw_node g) (gw_data g) d in r :: guest_run l' d'
  end.

Lemma byte_from_offset_targets {E} (offset : Z) :
  (0x800 ≤ offset ≤ 0xBF8)%Z →
  ∃ k b, byte_from_offset (E := E) offset = Ok (B_ITARGETSRn k b) ∧ k < 255.
Proof.
  intros Hoff. unfold byte_from_offset. rewrite in_range_false, in_range_true by lia.
  rewrite calc_reg_num_ok by lia. simpl. unfold calc_reg_byte_offset.
  destruct (Z.ltb_spec ((offset - 2048) mod 4) 4); [|pose proof (Z.mod_pos_bound (offset - 2048) 4); lia].
  simpl. eexists _, _. split; [done|].
  assert ((offset - 2048) / 4 < 255)%Z by (apply Z.div_lt_upper_bound; lia). lia.
Qed.

Lemma handle_write_safe n g :
  n ≤ 8 → guest_write_safe n g →
  safe (safe_state n) (handle_write (gw_offset g) (gw_node g) (gw_data g)).
Proof.
  intros Hn (Hnode & Hok & Hg). unfold handle_write, data_ok in *.
  destruct (gw_data g) as [v|v|v|v]; simpl in *; [|done| |done].
  - destruct (byte_from_offset_targets (E := IRQErrorType) _ Hg) as (k & b & Hb & Hk).
    rewrite Hb. intros d Hd. revert d Hd.
    change (safe (safe_state n) (write_itargetsr_byte k b v)). unfold write_itargetsr_byte.
    destruct (Nat.ltb_spec k 8); [auto with safe|].
    apply safe_bind; [on_reg_safe|intros; by apply retarget_safe].
  - destruct Hg as (reg & Hreg & Hs). rewrite Hreg.
    intros d Hd. apply write_word_safe; [done..|by eapply word_from_offset_sound|done|done].
Qed.

(** A guest that keeps to the safe stores never panics the emulated distributor:
    from a new distributor with up to eight CPUs, any sequence of word stores to
    existing registers within [write_safe] and of byte stores to the target registers
    returns a value or an error at every step. *)
Lemma guest_writes_never_panic n l d :
  0 < n ≤ 8 → new n = Ok d → Forall (guest_write_safe n) l → Panic ∉ guest_run l d.
Proof.
  intros Hn. rewrite new_eq. intros [= <-]. pose proof (initial_safe n Hn) as Hd. revert Hd.
  generalize (initial n). induction l as [|g l IH]; intros d Hd Hl; simpl; [by apply not_elem_of_nil|].
  apply Forall_cons in Hl as [Hg Hl]. destruct (handle_write_safe n g ltac:(lia) Hg d Hd) as [Hp Hd'].
  destruct (handle_write _ _ _ _) as [r d']. simpl in *.
  apply not_elem_of_cons. split; [congruence|by apply IH].
Qed.

(** ** The restrictions are needed, and the enable registers *)

(** A store of a non-zero word to the last interrupt clear-enable register panics,
    whatever the state: the code indexes the vector with the register number where the
    set-enable registers index it with the number less one. *)
Lemma icenabler31_panics d node val :
  wf d → val ≠ 0%Z → (handle_write 0x1FC node (DWord val) d).1 = Panic.
Proof.
  intros Hd Hv. change (handle_write 0x1FC node (DWord val)) with (write_icenabler 31 node val).
  unfold write_icenabler. rewrite (proj2 (Z.eqb_neq val 0)) by done. simpl.
  unfold on_reg, mbind, M_bind. destruct (wf_enable d Hd) as [Hlen _].
  by rewrite lookup_ge_None_2 by lia.
Qed.

(** The bits of the enable banks after [op] on the register of number [i] of the shared
    bank. *)
Lemma on_enable_eq d i (op : Register32 → Z * Register32) :
  wf d → i < 31 →
  on_reg enable with_enable i op d =
    (Ok (op (reg_at (enable d) i)).1,
     with_enable d (<[i := (op (reg_at (enable d) i)).2]> (enable d))).
Proof.
  intros Hd Hi. unfold on_reg, reg_at.
  destruct (vec_ok_lookup _ _ i (wf_enable d Hd) Hi) as (r & Hr & _). rewrite Hr. simpl.
  by destruct (op r).
Qed.

Lemma enabled_with_enable d i r irq cpu :
  wf d → i < 31 → 32 ≤ irq →
  enabled (with_enable d (<[i := r]> (enable d))) irq cpu =
    cpu_ok d cpu && (if irq / 32 - 1 =? i then Z.testbit r (Z.of_nat (irq mod 32))
                     else enabled d irq cpu).
Proof.
  intros Hd Hi Hirq. destruct (wf_enable d Hd) as [Hlen _].
  unfold enabled, reg_bit, cpu_ok. simpl. rewrite (proj2 (Nat.ltb_ge irq 32)) by done.
  rewrite reg_at_insert by lia. destruct (cpu <? num_nodes d); [|done].
  by destruct (_ =? i).
Qed.

Lemma handle_write_word reg node val d :
  reg_exists reg → handle_write (word_offset reg) node (DWord val) d = write_word reg node val d.
Proof. intros Hex. unfold handle_write. by rewrite word_from_offset_offset. Qed.

(** The action returned after the sweeps of [k] interrupts from [base] in state [d]:
    exactly the interrupts to inject and to acknowledge there. *)
Definition sweep_action (d : Distributor) (base k : nat) (a : WriteAction) : Prop :=
  ∃ li la,
    (∀ irq cpu, (irq, cpu) ∈ li ↔ sweep_hit d (injectable d) (seq base k) irq cpu) ∧
    (∀ irq cpu, (irq, cpu) ∈ la ↔ sweep_hit d (ackable d) (seq base k) irq cpu) ∧
    a = if (length li =? 0) && (length la =? 0) then NoAction
        else InjectAndAckIRQs (Some li) (Some la).

Lemma inject_and_ack_eq d base k :
  wf d → base + k ≤ 1020 ∨ (base + k ≤ 1024 ∧ reserved_clear d) →
  ∃ a, inject_and_ack base k d = (Ok a, d) ∧ sweep_action d base k a.
Proof.
  intros Hd Hk. destruct (sweep_irqs_spec d base k Hd Hk) as [(li & Hi & Hli) (la & Ha & Hla)].
  unfold inject_and_ack, mbind, M_bind, reads. rewrite Hi, Ha.
  eexists. split; [done|]. by exists li, la.
Qed.

(** A non-zero store to a set-enable register of the shared interrupts (numbers 1 to
    30) enables exactly the interrupts of its set bits, at every CPU, keeps all others,
    and returns the interrupts of that register that are now to be injected (enabled,
    pending, not active, targeted; the lowest-numbered CPU each) and those to be
    acknowledged. *)
Lemma isenabler_spec d n node val :
  wf d → 1 ≤ n ≤ 30 → is_u32 val → val ≠ 0%Z →
  ∃ d' a, handle_write (0x100 + 4 * Z.of_nat n) node (DWord val) d = (Ok a, d') ∧ wf d' ∧
    sweep_action d' (n * 32) 32 a ∧
    (∀ irq cpu, 32 ≤ irq → enabled d' irq cpu = cpu_ok d cpu &&
       ((irq / 32 =? n) && Z.testbit val (Z.of_nat (irq mod 32)) || enabled d irq cpu)) ∧
    pends d' = pends d ∧ acts d' = acts d ∧ targeted d' = targeted d ∧
    is_gic_enabled d' = is_gic_enabled d.
Proof.
  intros Hd Hn Hval Hnz.
  change (0x100 + 4 * Z.of_nat n)%Z with (word_offset (GICD_ISENABLERn n)).
  rewrite handle_write_word by (simpl; lia). simpl. unfold write_isenabler.
  rewrite (proj2 (Z.eqb_neq val 0)), (proj2 (Nat.eqb_neq n 0)) by (done || lia).
  unfold mbind, M_bind. rewrite on_enable_eq by (done || lia). simpl.
  set (d1 := with_enable d _).
  assert (Hwf1 : wf d1).
  { apply (wf_field_set (get := enable)); [done|]. apply vec_ok_insert; [apply wf_enable, Hd|].
    destruct (vec_ok_lookup _ _ (n - 1) (wf_enable d Hd)) as (r & Hr & Hw); [lia|].
    apply is_word_lor; [lia| |done]. unfold reg_at. by rewrite Hr. }
  destruct (inject_and_ack_eq d1 (n * 32) 32 Hwf1) as (a & Ha & Hact); [lia|].
  exists d1, a. split_and!; try done. intros irq cpu Hirq. unfold d1.
  rewrite enabled_with_enable by (done || lia). unfold enabled, cpu_ok.
  destruct (cpu <? num_nodes d); [|done]. cbn [andb].
  pose proof (Nat.div_str_pos irq 32). unfold reg_bit. rewrite (proj2 (Nat.ltb_ge irq 32)) by done.
  destruct (Nat.eqb_spec (irq / 32 - 1) (n - 1)) as [Hi|Hi].
  - rewrite (proj2 (Nat.eqb_eq (irq / 32) n)), Hi by lia. by rewrite Z.lor_spec, orb_comm.
  - by rewrite (proj2 (Nat.eqb_neq (irq / 32) n)) by lia.
Qed.

(** A store to a clear-enable register of the shared interrupts (number [n] in 1 to
    30) disables none of the interrupts [32n .. 32n+31] it is documented for; it clears
    the enable bits of the interrupts [32(n+1) .. 32(n+1)+31] instead. *)
Lemma icenabler_clears_next_register d n node val :
  wf d → 1 ≤ n ≤ 30 → is_u32 val → val ≠ 0%Z →
  ∃ d', handle_write (0x180 + 4 * Z.of_nat n) node (DWord val) d = (Ok NoAction, d') ∧
    ∀ irq cpu, 32 ≤ irq →
      (irq / 32 = n → enabled d' irq cpu = enabled d irq cpu) ∧
      (irq / 32 = n + 1 → enabled d' irq cpu =
         enabled d irq cpu && negb (Z.testbit val (Z.of_nat (irq mod 32)))).
Proof.
  intros Hd Hn Hval Hnz.
  change (0x180 + 4 * Z.of_nat n)%Z with (word_offset (GICD_ICENABLERn n)).
  rewrite handle_write_word by (simpl; lia). simpl. unfold write_icenabler.
  rewrite (proj2 (Z.eqb_neq val 0)), (proj2 (Nat.eqb_neq n 0)) by (done || lia).
  unfold mbind, M_bind. rewrite on_enable_eq by (done || lia). simpl.
  eexists. split; [done|]. intros irq cpu Hirq. rewrite enabled_with_enable by (done || lia).
  unfold enabled, cpu_ok. destruct (cpu <? num_nodes d); [|by split; intros]. cbn [andb].
  unfold reg_bit. rewrite (proj2 (Nat.ltb_ge irq 32)) by done. split; intros Hi; rewrite Hi.
  - by rewrite (proj2 (Nat.eqb_neq (n - 1) n)) by lia.
  - replace (n + 1 - 1) with n by lia. pose proof (mod32_lt irq).
    rewrite Nat.eqb_refl, Z.land_spec, testbit_word_not, bool_decide_true by lia. done.
Qed.

Lemma send_sgi_missing_cpu irq cpus d :
  wf d → irq < 1020 → Exists (λ cpu, num_nodes d ≤ cpu) cpus → (send_sgi irq cpus d).1 = Panic.
Proof.
  intros Hd Hirq. revert d Hd. induction cpus as [|cpu cpus IH]; intros d Hd Hex; [by inversion Hex|].
  simpl. unfold mbind, M_bind, unwrap_result. destruct (decide (num_nodes d ≤ cpu)) as [Hc|Hc].
  { unfold set_pending. by rewrite on_irq_reg_invalid. }
  pose proof (set_pending_preserves_wf irq cpu d Hd) as Hwf.
  destruct (set_pending_spec d irq cpu) as (d' & Hrun & Hsame & _); [done|lia..|].
  apply same_but_pending_view in Hsame as (Hn & _). rewrite Hrun in *. unfold reads.
  rewrite should_inject_eq by done. apply Exists_cons in Hex as [|Hex]; [done|].
  specialize (IH d' Hwf). rewrite Hn in IH. specialize (IH Hex).
  by destruct (send_sgi irq cpus d') as [[]].
Qed.

(** A guest with fewer than eight CPUs that sends an SGI to "all but myself" panics
    the emulator: the code takes the seven other CPU interfaces of the architecture as
    the targets and unwraps the error for the first one that does not exist. *)
Lemma sgir_all_but_self_panics d node val :
  wf d → node < num_nodes d < 8 → Z.land (Z.shiftr val 24) 3 = 1%Z →
  (handle_write 0xF00 node (DWord val) d).1 = Panic.
Proof.
  intros Hd Hn Hf. change 0xF00%Z with (word_offset GICD_SGIR).
  rewrite handle_write_word by done. unfold write_word, write_sgir. rewrite Hf.
  cbn [Z.eqb Pos.eqb]. unfold mbind, M_bind, assert_. rewrite (proj2 (Nat.ltb_lt node 8)) by lia.
  pose proof (byte_field_word val) as [Hlo Hhi].
  assert ((send_sgi (Z.to_nat (Z.land val 255))
    (biterate (Z.lxor 255 (shl32 1 (Z.of_nat node)))) d).1 = Panic) as Hp.
  { apply send_sgi_missing_cpu; [done|lia|]. apply Exists_exists. exists (num_nodes d).
    split; [|done]. apply (elem_of_biterate 8); [lia|apply others_word; lia|].
    rewrite Z.lxor_spec, testbit_single by lia. rewrite (proj2 (Nat.eqb_neq (num_nodes d) node)) by lia.
    change 255%Z with (Z.ones 8). by rewrite Z.ones_spec_low by lia. }
  by destruct (send_sgi _ _ d) as [[]].
Qed.

(** ** Reads *)

(** The registers that can be read: not the two that are only written, and not the last
    set-enable and clear-enable registers, whose reads index past the end. *)
Definition readable (reg : GICDistRegWord) : Prop :=
  match reg with
  | GICD_NSACRn _ | GICD_SGIR => False
  | GICD_ISENABLERn n | GICD_ICENABLERn n => n ≠ 31
  | _ => True
  end.

Lemma reg_at_word n l i : vec_ok n l → is_u32 (reg_at l i).
Proof.
  intros Hl. unfold reg_at. destruct (l !! i) eqn:Hi; [by eapply vec_ok_word|by vm_compute].
Qed.
Lemma reg_at_bank_word n m l i j : bank_ok n m l → is_u32 (reg_at (default [] (l !! i)) j).
Proof.
  intros Hl. destruct (l !! i) as [b|] eqn:Hi; [|by vm_compute].
  apply (reg_at_word m). destruct Hl as [_ Hl]. by eapply Forall_lookup_1.
Qed.
#[local] Hint Resolve reg_at_word reg_at_bank_word : core.

Lemma index_safe {E} n l i : vec_ok n l → i < n → index (E := E) l i = Ok (reg_at l i).
Proof.
  intros Hl Hi. destruct (vec_ok_lookup _ _ _ Hl Hi) as (r & Hr & _).
  unfold reg_at. rewrite Hr. by apply index_ok.
Qed.

Lemma bank_index_safe {E} n m l i j :
  bank_ok n m l → i < n → j < m →
  (bank ← index l i; index (E := E) bank j) = Ok (reg_at (default [] (l !! i)) j).
Proof.
  intros Hl Hi Hj. destruct (bank_ok_lookup _ _ _ _ Hl Hi) as (b & Hb & Hbank).
  rewrite (index_ok _ _ _ Hb), Hb. simpl. by eapply index_safe.
Qed.

Lemma banked_reg_eq n v0 m v reg_num node i :
  vec_ok n v0 → vec_ok m v → node < n → (reg_num ≠ 0 → i < m) →
  banked_reg v0 v reg_num node i = Ok (if reg_num =? 0 then reg_at v0 node else reg_at v i).
Proof.
  intros H0 H1 Hn Hi. unfold banked_reg. destruct (Nat.eqb_spec reg_num 0).
  - by eapply index_safe.
  - eapply index_safe; [done|auto].
Qed.

Lemma banked_reg8_eq n v0 m v reg_num node :
  bank_ok n 8 v0 → vec_ok m v → node < n → reg_num < m + 8 →
  banked_reg8 v0 v reg_num node =
    Ok (if reg_num <? 8 then reg_at (default [] (v0 !! node)) reg_num else reg_at v (reg_num - 8)).
Proof.
  intros H0 H1 Hn Hi. unfold banked_reg8. destruct (Nat.ltb_spec reg_num 8).
  - by eapply bank_index_safe.
  - eapply index_safe; [done|lia].
Qed.

Lemma load_ok (o : outcome IRQErrorType Z) w :
  o = Ok w → is_u32 w → ∃ v, DWord <$> (load <$> o) = Ok (DWord v) ∧ is_u32 v.
Proof. intros -> ?. by exists w. Qed.

Lemma icfgr_eq {E} d k node :
  wf d → k < 64 → node < num_nodes d →
  (if k =? 0 then Ok (config0 d) else if k =? 1 then index (config1 d) node
   else index (config d) (k - 2) : outcome E Register32) =
  Ok (if k =? 0 then config0 d
      else if k =? 1 then reg_at (config1 d) node else reg_at (config d) (k - 2)).
Proof.
  intros Hd Hk Hn. destruct (Nat.eqb_spec k 0); [done|].
  destruct (Nat.eqb_spec k 1); eapply index_safe; [apply Hd|lia|apply Hd|lia].
Qed.

(** A word read of a readable register by an existing CPU returns a word. *)
Lemma handle_read_ok d reg node :
  wf d → reg_exists reg → readable reg → node < num_nodes d →
  ∃ v, handle_read d (word_offset reg) node WWord = Ok (DWord v) ∧ is_u32 v.
Proof.
  intros Hd Hex Hr Hn. unfold handle_read.
  rewrite word_from_offset_offset by done. cbn [mbind outcome_bind].
  destruct (wf_ids d Hd) as (? & ? & ?).
  assert (is_u32 (control d)) by (destruct (wf_control d Hd) as [->| ->]; by vm_compute).
  destruct reg as [| | |k|k|k|k|k|k|k|k|k|k|k| |k|k|k|k]; simpl in Hex, Hr |- *;
    try done; try (by eexists); eapply load_ok;
    try first [eapply banked_reg_eq; [apply Hd|apply Hd|done|lia]
      |eapply banked_reg8_eq; [apply Hd|apply Hd|done|lia]
      |eapply bank_index_safe; [apply Hd|done|done]
      |by eapply icfgr_eq
      |eapply index_safe; [apply Hd|lia]];
    repeat case_match; first [done|by eapply reg_at_word, Hd|by eapply reg_at_bank_word, Hd].
Qed.

(** Reading a set-pending or clear-pending register returns the pending bits of its
    thirty-two interrupts as seen by the reading CPU. *)
Lemma read_pending_bits d n node :
  wf d → n < 32 → node < num_nodes d →
  ∃ v, handle_read d (0x200 + 4 * Z.of_nat n) node WWord = Ok (DWord v) ∧
    handle_read d (0x280 + 4 * Z.of_nat n) node WWord = Ok (DWord v) ∧
    ∀ k, k < 32 → Z.testbit v (Z.of_nat k) = pends d (n * 32 + k) node.
Proof.
  intros Hd Hn Hnode.
  change (0x200 + 4 * Z.of_nat n)%Z with (word_offset (GICD_ISPENDRn n)).
  change (0x280 + 4 * Z.of_nat n)%Z with (word_offset (GICD_ICPENDRn n)).
  unfold handle_read. rewrite !word_from_offset_offset by done. simpl.
  erewrite banked_reg_eq; [|apply wf_pending0, Hd|apply wf_pending, Hd|done|lia]. simpl.
  eexists. split_and!; [done..|]. intros k Hk. unfold load, pends, cpu_ok, reg_bit.
  rewrite (proj2 (Nat.ltb_lt node (num_nodes d))) by done.
  replace ((n * 32 + k) / 32) with n by (rewrite Nat.div_add_l, Nat.div_small; lia).
  replace ((n * 32 + k) mod 32) with k
    by (rewrite Nat.add_comm, Nat.Div0.mod_add, Nat.mod_small; lia).
  destruct (Nat.eqb_spec n 0) as [->|].
  - by rewrite (proj2 (Nat.ltb_lt (0 * 32 + k) 32)) by lia.
  - by rewrite (proj2 (Nat.ltb_ge (n * 32 + k) 32)) by lia.
Qed.

(** ** Priorities *)

Lemma on_reg_eq `{!WfField k get set} {A} d i (op : Register32 → A * Register32) :
  wf d → i < k d →
  on_reg get set i op d =
    (Ok (op (reg_at (get d) i)).1, set d (<[i := (op (reg_at (get d) i)).2]> (get d))).
Proof.
  intros Hd Hi. unfold on_reg, reg_at.
  destruct (vec_ok_lookup _ _ i (wf_field_get d Hd) Hi) as (r & Hr & _). rewrite Hr. simpl.
  by destruct (op r).
Qed.

Lemma on_reg2_eq `{!WfBank k m get set} {A} d i j (op : Register32 → A * Register32) :
  wf d → i < k d → j < m →
  ∃ bank r, get d !! i = Some bank ∧ bank !! j = Some r ∧
    on_reg2 get set i j op d = (Ok (op r).1, set d (<[i := <[j := (op r).2]> bank]> (get d))).
Proof.
  intros Hd Hi Hj. unfold on_reg2.
  destruct (bank_ok_lookup _ _ _ i (wf_bank_get d Hd) Hi) as (bank & Hb & Hbank).
  destruct (vec_ok_lookup _ _ j Hbank Hj) as (r & Hr & _).
  exists bank, r. rewrite Hb, Hr. split_and!; [done..|]. by destruct (op r).
Qed.

Lemma shifted_byte (val : Z) (k : nat) :
  k < 4 → is_u32 val →
  Z.shiftr (Z.land val (shl32 0xFF (Z.of_nat (k * 8)))) (Z.of_nat (k * 8)) =
    Z.land (Z.shiftr val (Z.of_nat (k * 8))) 0xFF.
Proof.
  intros Hk Hv. apply Z.bits_inj'. intros i Hi.
  rewrite Z.shiftr_spec, !Z.land_spec, Z.shiftr_spec, testbit_word_shl by lia.
  destruct (decide (i + Z.of_nat (k * 8) < 32)%Z) as [Hlt|Hge].
  - rewrite bool_decide_true, Z.add_simpl_r by done. done.
  - by rewrite (is_word_testbit 32 val) by (done || lia).
Qed.

(** A priority written through [GICD_IPRIORITYRn] is the priority the distributor
    reports: after a word store to register [n] by a CPU, the priority of interrupt
    [4n + k] at that CPU is byte [k] of the word, and a read of the register returns
    the word. *)
Lemma priority_roundtrip d n node val :
  wf d → n < 255 → node < num_nodes d → is_u32 val →
  ∃ d', handle_write (0x400 + 4 * Z.of_nat n) node (DWord val) d = (Ok NoAction, d') ∧
    handle_read d' (0x400 + 4 * Z.of_nat n) node WWord = Ok (DWord val) ∧
    ∀ k, k < 4 → get_priority d' (n * 4 + k) node =
      Ok (Z.land (Z.shiftr val (Z.of_nat (k * 8))) 0xFF).
Proof.
  intros Hd Hn Hnode Hv.
  change (0x400 + 4 * Z.of_nat n)%Z with (word_offset (GICD_IPRIORITYRn n)).
  rewrite handle_write_word by done. unfold write_word, write_ipriorityr, handle_read, get_priority.
  rewrite word_from_offset_offset by done. unfold mbind at 1, M_bind.
  assert (∀ k, k < 4 → (n * 4 + k) / 4 = n ∧ (n * 4 + k) mod 4 = k) as Hdm.
  { intros k Hk. rewrite Nat.div_add_l, Nat.div_small by lia. split; [lia|].
    rewrite Nat.add_comm, Nat.Div0.mod_add, Nat.mod_small; lia. }
  destruct (Nat.ltb_spec n 8) as [H8|H8].
  - destruct (on_reg2_eq (get := priority0) (set := with_priority0) d node n
      (λ r, store r val) Hd Hnode H8) as (bank & r & Hb & Hr & Hrun).
    rewrite Hrun. eexists. split; [done|]. simpl. unfold banked_reg8, index.
    rewrite (proj2 (Nat.ltb_lt n 8)), list_lookup_insert_eq by (done || by eapply lookup_lt_Some).
    simpl. rewrite list_lookup_insert_eq by (by eapply lookup_lt_Some). split; [done|].
    intros k Hk. destruct (Hdm k Hk) as [-> ->]. rewrite (proj2 (Nat.leb_gt (num_nodes d) node)) by done.
    rewrite (proj2 (Nat.ltb_lt n 8)), list_lookup_insert_eq by (done || by eapply lookup_lt_Some).
    simpl. unfold load. by rewrite shifted_byte.
  - rewrite (on_reg_eq (get := priority) (set := with_priority)) by (done || lia).
    destruct (wf_priority d Hd) as [Hlen _]. eexists. split; [done|]. simpl.
    unfold banked_reg8, index.
    rewrite (proj2 (Nat.ltb_ge n 8)), list_lookup_insert_eq by lia. split; [done|].
    intros k Hk. destruct (Hdm k Hk) as [-> ->]. rewrite (proj2 (Nat.leb_gt (num_nodes d) node)) by done.
    rewrite (proj2 (Nat.ltb_ge n 8)), list_lookup_insert_eq by lia. simpl.
    unfold load. by rewrite shifted_byte.
Qed.

