(* ===== verification/Gic.v ===== *)
(** * Gic: interrupt routing between the host, the distributor and the list registers

    Model of [framework/vmm/gic/src/gic.rs].  The GIC owns the distributor and, per
    CPU, a mirror of the four list registers and an overflow queue.  What it asks of
    the virtual machine monitor is the class [GICCallbacks], the trait of the same
    name: state-passing operations on the callback object, which may fail.  Every
    theorem holds for any implementation of the class.

    The callbacks [set_affinity], [set_priority] and [set_enabled] of the trait are
    never called by this component; they are listed in the class for completeness. *)

From S2P Require Import Prelude Biterate Fault GicRegisters Distributor DistributorSpec DistributorOps.

#[local] Arguments Nat.leb : simpl never.

Abbreviation NodeIndex := nat.
Abbreviation NUM_LRS := 4 (only parsing).

Inductive QualifiedIRQ :=
| QualifiedPPI (node : NodeIndex) (irq : IRQ)
| SPI (irq : IRQ).

(** The trait [GICCallbacks]. *)
Class GICCallbacks (T CE : Type) := {
  cb_ack : NodeIndex → QualifiedIRQ → M T CE unit;
  cb_vcpu_inject_irq : NodeIndex → NodeIndex → nat → IRQ → Z → M T CE unit;
  cb_set_affinity : NodeIndex → IRQ → NodeIndex → M T CE unit;
  cb_set_priority : NodeIndex → QualifiedIRQ → Z → M T CE unit;
  cb_set_enabled : NodeIndex → QualifiedIRQ → bool → M T CE unit;
}.

Record LR := { mirror : list (option IRQ); overflow : list IRQ }.

Record GIC (T : Type) := {
  g_num_nodes : nat;
  callbacks : T;
  dist : Distributor;
  lrs : list LR;
}.
Arguments g_num_nodes {T} _.
Arguments callbacks {T} _.
Arguments dist {T} _.
Arguments lrs {T} _.

(** [Fallible]: an error of the distributor or of a callback. *)
Inductive GicError (CE : Type) :=
| EDist (e : IRQErrorType)
| ECallback (e : CE).
Arguments EDist {CE} e.
Arguments ECallback {CE} e.

Definition map_err {E E' A} (f : E → E') (o : outcome E A) : outcome E' A :=
  match o with Ok a => Ok a | Err e => Err (f e) | Panic => Panic end.

(** [for (i, x) in mirror.iter().enumerate() { if let None = x { .. break } }]. *)
Fixpoint find_empty (i : nat) (l : list (option IRQ)) : option nat :=
  match l with
  | [] => None
  | None :: _ => Some i
  | Some _ :: l' => find_empty (S i) l'
  end.

Section gic.
Context {T CE : Type} `{!GICCallbacks T CE}.

Abbreviation GM := (M (GIC T) (GicError CE)).

Definition with_dist (g : GIC T) (d : Distributor) : GIC T :=
  {| g_num_nodes := g_num_nodes g; callbacks := callbacks g; dist := d; lrs := lrs g |}.
Definition with_callbacks (g : GIC T) (c : T) : GIC T :=
  {| g_num_nodes := g_num_nodes g; callbacks := c; dist := dist g; lrs := lrs g |}.
Definition with_lrs (g : GIC T) (l : list LR) : GIC T :=
  {| g_num_nodes := g_num_nodes g; callbacks := callbacks g; dist := dist g; lrs := l |}.

(** [self.dist.m(..)?] and [self.callbacks.m(..)?]. *)
Definition on_dist {A} (m : DM A) : GM A := λ g,
  let '(r, d) := m (dist g) in (map_err EDist r, with_dist g d).
Definition on_callbacks {A} (m : M T CE A) : GM A := λ g,
  let '(r, c) := m (callbacks g) in (map_err ECallback r, with_callbacks g c).

(** [self.lrs[node]], and an update of it. *)
Definition get_lr (node : NodeIndex) : GM LR := reads (λ g, index (lrs g) node).
Definition set_lr (node : NodeIndex) (lr : LR) : GM unit :=
  modify (λ g, with_lrs g (<[node := lr]> (lrs g))).

Definition gic_new (num_nodes : nat) (c : T) : outcome IRQErrorType (GIC T) :=
  d ← new num_nodes;
  Ok {| g_num_nodes := num_nodes; callbacks := c; dist := d;
        lrs := (λ _, {| mirror := replicate NUM_LRS None; overflow := [] |}) <$> seq 0 num_nodes |}.

Definition inject_irq (calling_node target_node : NodeIndex) (idx : nat) (irq : IRQ) : GM unit :=
  priority ← on_dist (reads (λ d, get_priority d irq target_node));
  let priority := Z.shiftr priority 3 in
  on_dist (set_pending irq target_node);;
  b ← on_dist (reads (λ d, should_inject d irq target_node));
  if (b : bool) then
    on_dist (set_active irq target_node);;
    lr ← get_lr target_node;
    (if idx <? length (mirror lr) then
       set_lr target_node {| mirror := <[idx := Some irq]> (mirror lr); overflow := overflow lr |}
     else panic);;
    on_callbacks (cb_vcpu_inject_irq calling_node target_node idx irq priority)
  else mret tt.

Definition irq_in_lrs_overflow (node : NodeIndex) (irq : IRQ) : GM bool :=
  lr ← get_lr node; mret (existsb (Nat.eqb irq) (overflow lr)).

Definition forward_irq (calling_node target_node : NodeIndex) (irq : IRQ) : GM unit :=
  lr ← get_lr target_node;
  match find_empty 0 (mirror lr) with
  | Some idx => inject_irq calling_node target_node idx irq
  | None =>
      b ← irq_in_lrs_overflow target_node irq;
      if (b : bool) then mret tt
      else set_lr target_node {| mirror := mirror lr; overflow := overflow lr ++ [irq] |}
  end.

Definition handle_irq (calling_node : NodeIndex) (irq : QualifiedIRQ) : GM unit :=
  match irq with
  | QualifiedPPI node irq => forward_irq calling_node node irq
  | SPI irq =>
      b ← on_dist (reads (λ d, is_target d irq calling_node));
      if (b : bool) then forward_irq calling_node calling_node irq
      else
        targets ← on_dist (reads (λ d, get_spi_targets d irq));
        match biterate targets with
        | [] => mret tt
        | target_node :: _ => forward_irq calling_node target_node irq
        end
  end.

Definition handle_maintenance (node : NodeIndex) (idx : nat) : GM unit :=
  lr ← get_lr node;
  slot ← reads (λ _, index (mirror lr) idx);
  irq ← reads (λ _, unwrap slot);
  set_lr node {| mirror := <[idx := None]> (mirror lr); overflow := overflow lr |};;
  on_dist (ack irq node);;
  (if (16 <=? irq) && (irq <? 32) then on_callbacks (cb_ack node (QualifiedPPI node irq))
   else on_callbacks (cb_ack node (SPI irq)));;
  lr ← get_lr node;
  match overflow lr with
  | [] => mret tt
  | irq :: rest =>
      set_lr node {| mirror := mirror lr; overflow := rest |};;
      inject_irq node node idx irq
  end.

Definition gic_handle_read (node : NodeIndex) (offset : Z) (width : VMFaultWidth) : GM VMFaultData :=
  on_dist (reads (λ d, handle_read d offset node width)).

(** One entry of [to_ack]. *)
Definition ack_one (calling_node : NodeIndex) (p : IRQ * NodeIndex) : GM unit :=
  let '(irq, target_node) := p in
  on_dist (ack irq target_node);;
  if 16 <=? irq then
    on_callbacks (cb_ack calling_node
      (if irq <? 32 then QualifiedPPI target_node irq else SPI irq))
  else mret tt.

Definition gic_handle_write (calling_node : NodeIndex) (offset : Z) (data : VMFaultData) : GM unit :=
  write_action ← on_dist (handle_write offset calling_node data);
  match write_action with
  | NoAction => mret tt
  | InjectAndAckIRQs to_inject to_ack =>
      for_each (ack_one calling_node) (default [] to_ack);;
      for_each (λ '(irq, target_node), forward_irq calling_node target_node irq)
        (default [] to_inject)
  end.
End gic.
