(* ===== verification/GicSpec.v ===== *)
(** * GicSpec: correctness of interrupt routing

    The invariant of the GIC and that every entry point keeps it for any callbacks;
    where an interrupt goes: into the first free list register, into the overflow
    queue, or nowhere, and to which CPU. *)

From S2P Require Import Prelude Biterate Fault GicRegisters Distributor DistributorSpec DistributorOps.
From S2P Require Import DistributorSafety Gic.

#[local] Arguments Nat.leb : simpl never.

(** ** The invariant *)

(** Four list registers, and no interrupt twice in the overflow queue. *)
Record lr_ok (lr : LR) : Prop := {
  lr_mirror : length (mirror lr) = NUM_LRS;
  lr_overflow : NoDup (overflow lr);
}.

Record gic_wf {T} (g : GIC T) : Prop := {
  gwf_dist : wf (dist g);
  gwf_nodes : num_nodes (dist g) = g_num_nodes g;
  gwf_lrs : length (lrs g) = g_num_nodes g;
  gwf_lr : Forall lr_ok (lrs g);
}.

Section invariant.
Context {T CE : Type} `{!GICCallbacks T CE}.
Abbreviation GM := (M (GIC T) (GicError CE)).

Lemma on_dist_wf {A} (m : DM A) :
  preserves wf m → (∀ n, preserves (has_nodes n) m) → preserves gic_wf (on_dist m : GM A).
Proof.
  intros Hwf Hn g [Hd Hnodes Hlen Hlr]. unfold on_dist.
  specialize (Hwf _ Hd). specialize (Hn _ _ Hnodes). destruct (m (dist g)) as [r d]. by split.
Qed.

Lemma on_callbacks_wf {A} (m : M T CE A) : preserves gic_wf (on_callbacks m : GM A).
Proof. intros g [Hd Hnodes Hlen Hlr]. unfold on_callbacks. destruct (m _). by split. Qed.

Lemma set_lr_wf node lr : lr_ok lr → preserves gic_wf (set_lr node lr : GM unit).
Proof.
  intros Hlr g [Hd Hnodes Hlen Hall]. split; simpl; try done; [by rewrite length_insert|].
  by apply Forall_insert.
Qed.

Lemma on_dist_reads_wf {A} (f : Distributor → outcome IRQErrorType A) :
  preserves gic_wf (on_dist (reads f) : GM A).
Proof. apply on_dist_wf; intros; apply preserves_reads. Qed.

(** After [get_lr] the list register is well formed. *)
Lemma get_lr_wf {A} node (f : LR → GM A) :
  (∀ lr, lr_ok lr → preserves gic_wf (f lr)) → preserves gic_wf (get_lr node ≫= f).
Proof.
  intros Hf g Hg. unfold get_lr, reads, index, mbind, M_bind.
  destruct (lrs g !! node) as [lr|] eqn:Hlr; [|done]. apply Hf; [|done].
  eapply Forall_lookup_1; [apply (gwf_lr g Hg)|done].
Qed.

#[local] Hint Resolve on_dist_reads_wf on_callbacks_wf : preserves.
#[local] Hint Resolve set_pending_preserves_wf set_active_preserves_wf ack_preserves_wf
  set_pending_nodes set_active_nodes ack_nodes handle_write_nodes : preserves.
#[local] Hint Extern 1 (preserves gic_wf (on_dist _)) => (apply on_dist_wf) : preserves.
#[local] Hint Extern 1 (preserves gic_wf (get_lr _ ≫= _)) => (apply get_lr_wf; intros ? ?) : preserves.

Lemma lr_ok_mirror lr i x :
  lr_ok lr → lr_ok {| mirror := <[i := x]> (mirror lr); overflow := overflow lr |}.
Proof. intros [Hm Ho]. split; simpl; [by rewrite length_insert|done]. Qed.

Lemma inject_irq_wf calling target i irq : preserves gic_wf (inject_irq calling target i irq : GM unit).
Proof.
  unfold inject_irq. do 3 (apply preserves_bind; [auto with preserves|intros ?]).
  apply preserves_if; intros; [|auto with preserves].
  apply preserves_bind; [auto with preserves|intros _]. apply get_lr_wf. intros lr Hlr.
  apply preserves_bind; [|auto with preserves].
  apply preserves_if; intros; [|auto with preserves]. by apply set_lr_wf, lr_ok_mirror.
Qed.

Lemma existsb_eqb irq (l : list nat) : existsb (Nat.eqb irq) l = bool_decide (irq ∈ l).
Proof.
  apply eq_true_iff_eq. rewrite existsb_exists, bool_decide_eq_true, list_elem_of_In.
  split; [intros (x & Hx & ->%Nat.eqb_eq); done|]. exists irq. by rewrite Nat.eqb_refl.
Qed.

Lemma forward_irq_wf calling target irq : preserves gic_wf (forward_irq calling target irq : GM unit).
Proof.
  unfold forward_irq. intros g Hg. unfold get_lr, reads, index, mbind at 1, M_bind at 1.
  destruct (lrs g !! target) as [lr|] eqn:Hlr; [|done]. simpl.
  assert (lr_ok lr) as [Hm Ho] by (eapply Forall_lookup_1; [apply (gwf_lr g Hg)|done]).
  destruct (find_empty 0 (mirror lr)); [by apply inject_irq_wf|].
  unfold irq_in_lrs_overflow, get_lr, reads, index, mbind, M_bind. rewrite Hlr. simpl.
  rewrite existsb_eqb. case_bool_decide as Hin; [done|].
  apply set_lr_wf; [|done]. split; simpl; [done|]. apply NoDup_app. split_and!; [done| |].
  - intros x Hx ->%list_elem_of_singleton. done.
  - apply NoDup_singleton.
Qed.
#[local] Hint Resolve inject_irq_wf forward_irq_wf : preserves.

Lemma handle_irq_wf calling q : preserves gic_wf (handle_irq calling q : GM unit).
Proof.
  destruct q; simpl; [auto with preserves|].
  apply preserves_bind; [auto with preserves|intros b]. apply preserves_if; intros; [auto with preserves|].
  apply preserves_bind; [auto with preserves|intros t]. destruct (biterate t); auto with preserves.
Qed.

Lemma handle_maintenance_wf node i : preserves gic_wf (handle_maintenance node i : GM unit).
Proof.
  unfold handle_maintenance. apply get_lr_wf. intros lr Hlr.
  do 2 (apply preserves_bind; [auto with preserves|intros ?]).
  apply preserves_bind; [by apply set_lr_wf, lr_ok_mirror|intros _].
  apply preserves_bind; [auto with preserves|intros _].
  apply preserves_bind; [apply preserves_if; auto with preserves|intros _].
  apply get_lr_wf. intros lr' [Hm Ho]. destruct (overflow lr') as [|irq rest]; [auto with preserves|].
  apply preserves_bind; [|auto with preserves]. apply set_lr_wf. split; [done|].
  by apply NoDup_cons in Ho as [_ ?].
Qed.

Lemma gic_handle_write_wf calling offset x :
  data_ok x → preserves gic_wf (gic_handle_write calling offset x : GM unit).
Proof.
  intros Hx. unfold gic_handle_write.
  apply preserves_bind; [apply on_dist_wf; [by apply handle_write_preserves_wf|auto with preserves]|].
  intros [|li la]; [auto with preserves|]. apply preserves_bind; [|intros _].
  - apply preserves_for_each. intros [irq node] _. simpl.
    apply preserves_bind; [auto with preserves|intros _]. apply preserves_if; auto with preserves.
  - apply preserves_for_each. intros [irq node] _. auto with preserves.
Qed.

Lemma gic_new_wf n (c : T) g : 0 < n ≤ 8 → gic_new n c = Ok g → gic_wf g.
Proof.
  intros Hn. unfold gic_new. rewrite new_eq. cbv [mbind outcome_bind]. intros [= <-].
  split; cbn [dist g_num_nodes lrs].
  - by apply initial_safe.
  - done.
  - by rewrite length_fmap, length_seq.
  - apply Forall_fmap, Forall_true. intros ?. split; [done|constructor].
Qed.

(** ** Reachable states *)

(** What reaches the GIC of a virtual machine: host interrupts, maintenance faults and
    guest accesses to the distributor page. *)
Inductive gic_event :=
| EvIrq (calling : NodeIndex) (q : QualifiedIRQ)
| EvMaintenance (node : NodeIndex) (i : nat)
| EvRead (node : NodeIndex) (offset : Z) (w : VMFaultWidth)
| EvWrite (node : NodeIndex) (offset : Z) (x : VMFaultData).

Definition gic_step (e : gic_event) (g : GIC T) : GIC T :=
  match e with
  | EvIrq calling q => (handle_irq calling q g).2
  | EvMaintenance node i => (handle_maintenance node i g).2
  | EvRead node offset w => ((gic_handle_read node offset w : GM _) g).2
  | EvWrite node offset x => (gic_handle_write node offset x g).2
  end.

Definition event_ok (e : gic_event) : Prop :=
  match e with EvWrite _ _ x => data_ok x | _ => True end.

Inductive gic_reachable (n : nat) : GIC T → Prop :=
| gic_reach_new c g : gic_new n c = Ok g → gic_reachable n g
| gic_reach_step g e : gic_reachable n g → event_ok e → gic_reachable n (gic_step e g).

Lemma gic_step_wf e g : gic_wf g → event_ok e → gic_wf (gic_step e g).
Proof.
  intros Hg He. destruct e; simpl.
  - by apply handle_irq_wf.
  - by apply handle_maintenance_wf.
  - by destruct Hg.
  - by apply gic_handle_write_wf.
Qed.

(** Whatever the callbacks do, and whether events succeed or fail, every reachable
    state of a GIC for 1 to 8 CPUs is well formed: a well-formed distributor for the
    same number of CPUs, four list registers for each CPU, and no interrupt queued
    twice in an overflow queue. *)
Lemma gic_reachable_wf n g : 0 < n ≤ 8 → gic_reachable n g → gic_wf g.
Proof. intros Hn. induction 1; [by eapply gic_new_wf|by apply gic_step_wf]. Qed.
End invariant.

(** Callbacks that record what they are asked, for the examples. *)
Inductive logged :=
| LAck (calling : NodeIndex) (q : QualifiedIRQ)
| LInject (calling target : NodeIndex) (i : nat) (irq : IRQ) (priority : Z).

#[global] Instance log_callbacks : GICCallbacks (list logged) Empty_set := {|
  cb_ack calling q := modify (λ l, l ++ [LAck calling q]);
  cb_vcpu_inject_irq calling target i irq priority :=
    modify (λ l, l ++ [LInject calling target i irq priority]);
  cb_set_affinity _ _ _ := mret tt;
  cb_set_priority _ _ _ := mret tt;
  cb_set_enabled _ _ _ := mret tt;
|}.

(** A GIC with two CPUs, in the state [new] leaves it. *)
Definition gic2 : GIC (list logged) := {|
  g_num_nodes := 2; callbacks := []; dist := initial 2;
  lrs := replicate 2 {| mirror := replicate NUM_LRS None; overflow := [] |} |}.

(** The same, with the distributor on and interrupt 40 enabled. *)
Definition gic2_on : GIC (list logged) :=
  gic_step (EvWrite 0 0x104 (DWord 0x100)) (gic_step (EvWrite 0 0x000 (DWord 1)) gic2).

Lemma gic2_reachable : gic_reachable 2 gic2.
Proof. apply (gic_reach_new 2 []). unfold gic_new. rewrite new_eq. reflexivity. Qed.

(** ** Where an interrupt goes *)

Lemma find_empty_spec k l i :
  find_empty k l = Some i ↔
  k ≤ i ∧ l !! (i - k) = Some None ∧ ∀ j, j < i - k → ∃ irq, l !! j = Some (Some irq).
Proof.
  revert k. induction l as [|[irq|] l IH]; intros k; simpl.
  - split; [done|]. by intros (_ & ? & _).
  - rewrite IH. split.
    + intros (Hk & Hl & Hlow). replace (i - k) with (S (i - S k)) by lia. split_and!; [lia|done|].
      intros [|j] Hj; simpl; [by eexists|]. apply Hlow. lia.
    + intros (Hk & Hl & Hlow). destruct (i - k) as [|m] eqn:Hm; [done|].
      replace (i - S k) with m by lia. split_and!; [lia|done|].
      intros j Hj. apply (Hlow (S j)). lia.
  - split.
    + intros [= ->]. rewrite Nat.sub_diag. split_and!; [lia|done|lia].
    + intros (Hk & Hl & Hlow). destruct (decide (k = i)) as [->|]; [done|].
      destruct (Hlow 0) as [? ?]; [lia|done].
Qed.

Lemma find_empty_lt l i : find_empty 0 l = Some i → i < length l.
Proof.
  intros (_ & Hl & _)%find_empty_spec. rewrite Nat.sub_0_r in Hl. by eapply lookup_lt_Some.
Qed.

(** The distributor would deliver [irq] to [cpu] if it became pending. *)
Definition deliverable (d : Distributor) (irq : IRQ) (cpu : CPU) : bool :=
  is_gic_enabled d && enabled d irq cpu && targeted d irq cpu && negb (acts d irq cpu).

Lemma same_line_refl irq cpu : same_line irq cpu irq cpu = true.
Proof. unfold same_line. by rewrite !Nat.eqb_refl, orb_true_r. Qed.

Lemma injectable_after_pending d d' irq cpu :
  cpu < num_nodes d → pending_written true irq cpu d d' →
  injectable d' irq cpu = deliverable d irq cpu.
Proof.
  intros Hcpu [Hsame Hp]. apply same_but_pending_view in Hsame as (Hn & Hg & He & Ht & Ha & _).
  unfold injectable, deliverable. rewrite Hg, He, Ht, Ha, Hp, same_line_refl.
  unfold cpu_ok. rewrite (proj2 (Nat.ltb_lt cpu (num_nodes d))) by done.
  by rewrite andb_true_r.
Qed.

Lemma get_priority_ok d irq cpu :
  wf d → irq < 1020 → cpu < num_nodes d → ∃ p, get_priority d irq cpu = Ok p.
Proof.
  intros Hd Hirq Hcpu. unfold get_priority.
  rewrite (proj2 (Nat.leb_gt (num_nodes d) cpu)) by done.
  destruct (Nat.ltb_spec (irq / 4) 8) as [H8|H8].
  - rewrite (bank_index_safe (num_nodes d) 8) by (done || apply wf_priority0, Hd). by eexists.
  - assert (irq / 4 - 8 < 247) by (pose proof (Nat.Div0.div_lt_upper_bound irq 4 255); lia).
    rewrite (index_safe 247) by (done || apply wf_priority, Hd). by eexists.
Qed.

Section delivery.
Context {T CE : Type} `{!GICCallbacks T CE}.
Abbreviation GM := (M (GIC T) (GicError CE)).
Implicit Types (g : GIC T).

Lemma on_dist_eq {A} (m : DM A) g r d :
  m (dist g) = (r, d) → (on_dist m : GM A) g = (map_err EDist r, with_dist g d).
Proof. unfold on_dist. by intros ->. Qed.

Lemma on_dist_reads_eq {A} (f : Distributor → outcome IRQErrorType A) g a :
  f (dist g) = Ok a → (on_dist (reads f) : GM A) g = (Ok a, g).
Proof. unfold on_dist, reads. intros ->. by destruct g. Qed.

Lemma get_lr_eq node lr g : lrs g !! node = Some lr → (get_lr node : GM LR) g = (Ok lr, g).
Proof. unfold get_lr, reads, index. by intros ->. Qed.

Lemma overflow_eq node irq lr g :
  lrs g !! node = Some lr →
  (irq_in_lrs_overflow node irq : GM bool) g = (Ok (bool_decide (irq ∈ overflow lr)), g).
Proof.
  intros Hlr. unfold irq_in_lrs_overflow. rewrite (bind_eq_ok _ _ _ _ _ (get_lr_eq node lr g Hlr)).
  by rewrite existsb_eqb.
Qed.

Lemma gic_lr g node : gic_wf g → node < g_num_nodes g → ∃ lr, lrs g !! node = Some lr ∧ lr_ok lr.
Proof.
  intros Hg Hn. destruct (lookup_lt_is_Some_2 (lrs g) node) as [lr Hlr].
  { by rewrite gwf_lrs. }
  exists lr. split; [done|]. eapply Forall_lookup_1; [apply (gwf_lr g Hg)|done].
Qed.

(** The whole of [inject_irq]. *)
Lemma inject_irq_spec g calling target i irq lr :
  gic_wf g → target < g_num_nodes g → irq < 1020 → lrs g !! target = Some lr → i < NUM_LRS →
  ∃ d' p, pending_written true irq target (dist g) d' ∧ get_priority (dist g) irq target = Ok p ∧
    if deliverable (dist g) irq target then
      ∃ d'', active_written true irq target d' d'' ∧
        let '(r, c) := cb_vcpu_inject_irq calling target i irq (Z.shiftr p 3) (callbacks g) in
        (inject_irq calling target i irq : GM unit) g =
          (map_err ECallback r,
           {| g_num_nodes := g_num_nodes g; callbacks := c; dist := d'';
              lrs := <[target := {| mirror := <[i := Some irq]> (mirror lr);
                                    overflow := overflow lr |}]> (lrs g) |})
    else (inject_irq calling target i irq : GM unit) g = (Ok tt, with_dist g d').
Proof.
  intros Hg Ht Hirq Hlr Hi. pose proof (gwf_dist g Hg) as Hd. rewrite <-(gwf_nodes g Hg) in Ht.
  destruct (get_priority_ok (dist g) irq target) as [p Hp]; [done..|].
  pose proof (set_pending_preserves_wf irq target _ Hd) as Hwf.
  destruct (set_pending_spec (dist g) irq target) as (d' & Hrun & Hw); [done|lia|done|].
  rewrite Hrun in Hwf. simpl in Hwf. exists d', p. split_and!; [done..|].
  pose proof (injectable_after_pending _ _ _ _ Ht Hw) as Hinj.
  assert (num_nodes d' = num_nodes (dist g)) as Hn by exact (proj1 (same_but_pending_view _ _ (proj1 Hw))).
  destruct (set_active_spec d' irq target) as (d'' & Hrun'' & Hw''); [done|lia|lia|].
  assert (lr_ok lr) as [Hm _] by (eapply Forall_lookup_1; [apply (gwf_lr g Hg)|done]).
  unfold inject_irq. erewrite bind_eq_ok by (erewrite on_dist_eq by (unfold reads; by rewrite Hp); done).
  erewrite bind_eq_ok by (erewrite on_dist_eq by (simpl; exact Hrun); done).
  erewrite bind_eq_ok by (erewrite on_dist_eq
    by (unfold reads; simpl; rewrite should_inject_eq by done; rewrite Hinj; done); done).
  destruct (deliverable _ _ _); [|done].
  exists d''. split; [done|].
  destruct (cb_vcpu_inject_irq calling target i irq (Z.shiftr p 3) (callbacks g)) as [r c] eqn:Hcb.
  erewrite bind_eq_ok by (erewrite on_dist_eq by (simpl; exact Hrun''); done).
  erewrite bind_eq_ok by (apply get_lr_eq; simpl; exact Hlr).
  rewrite (proj2 (Nat.ltb_lt i _)) by lia. erewrite bind_eq_ok by reflexivity.
  unfold on_callbacks. simpl. by rewrite Hcb.
Qed.

(** C13: routing of an interrupt to a CPU.  If a list register of the CPU is free, the
    interrupt becomes pending and, when the distributor is on and the interrupt is
    enabled, targeted at the CPU and not active, it also becomes active, is written to
    the first free list register and the monitor is told once, with the top five bits
    of its priority; otherwise it only becomes pending.  If no list register is free,
    the interrupt is appended to the overflow queue unless it is already there, and
    nothing else changes. *)
Theorem forward_irq_spec g calling target irq :
  gic_wf g → target < g_num_nodes g → irq < 1020 →
  ∃ lr, lrs g !! target = Some lr ∧
  match find_empty 0 (mirror lr) with
  | Some i =>
      ∃ d' p, pending_written true irq target (dist g) d' ∧ get_priority (dist g) irq target = Ok p ∧
        if deliverable (dist g) irq target then
          ∃ d'', active_written true irq target d' d'' ∧
            let '(r, c) := cb_vcpu_inject_irq calling target i irq (Z.shiftr p 3) (callbacks g) in
            (forward_irq calling target irq : GM unit) g =
              (map_err ECallback r,
               {| g_num_nodes := g_num_nodes g; callbacks := c; dist := d'';
                  lrs := <[target := {| mirror := <[i := Some irq]> (mirror lr);
                                        overflow := overflow lr |}]> (lrs g) |})
        else (forward_irq calling target irq : GM unit) g = (Ok tt, with_dist g d')
  | None =>
      (forward_irq calling target irq : GM unit) g =
        (Ok tt, if bool_decide (irq ∈ overflow lr) then g
                else with_lrs g (<[target := {| mirror := mirror lr;
                                                overflow := overflow lr ++ [irq] |}]> (lrs g)))
  end.
Proof.
  intros Hg Ht Hirq. destruct (gic_lr g target Hg Ht) as (lr & Hlr & Hok).
  exists lr. split; [done|]. unfold forward_irq.
  rewrite (bind_eq_ok _ _ _ _ _ (get_lr_eq target lr g Hlr)).
  destruct (find_empty 0 (mirror lr)) as [i|] eqn:Hi.
  - apply inject_irq_spec; [done..|]. apply find_empty_lt in Hi. rewrite (lr_mirror lr Hok) in Hi. done.
  - rewrite (bind_eq_ok _ _ _ _ _ (overflow_eq target irq lr g Hlr)). by case_bool_decide.
Qed.

(** No interrupt is lost in routing: when [forward_irq] succeeds, the interrupt is
    pending at its CPU in the distributor or waits in the CPU's overflow queue. *)
Lemma forward_irq_not_lost g g' calling target irq :
  gic_wf g → target < g_num_nodes g → irq < 1020 →
  (forward_irq calling target irq : GM unit) g = (Ok tt, g') →
  pends (dist g') irq target = true ∨ ∃ lr, lrs g' !! target = Some lr ∧ irq ∈ overflow lr.
Proof.
  intros Hg Ht Hirq Hrun. pose proof (gwf_nodes g Hg) as Hn.
  destruct (gic_lr g target Hg Ht) as (lr & Hlr & Hok).
  assert (∀ d', pending_written true irq target (dist g) d' → pends d' irq target = true) as Hpend.
  { intros d' [_ Hp]. rewrite Hp, same_line_refl. unfold cpu_ok. rewrite andb_true_r.
    apply Nat.ltb_lt. lia. }
  unfold forward_irq in Hrun. rewrite (bind_eq_ok _ _ _ _ _ (get_lr_eq target lr g Hlr)) in Hrun.
  destruct (find_empty 0 (mirror lr)) as [i|] eqn:Hi.
  - left. apply find_empty_lt in Hi. rewrite (lr_mirror lr Hok) in Hi.
    destruct (inject_irq_spec g calling target i irq lr) as (d' & p & Hw & Hp & Hcase); [done..|].
    destruct (deliverable _ _ _).
    + destruct Hcase as (d'' & [Hsame _] & Hcb). destruct (cb_vcpu_inject_irq _ _ _ _ _ _) as [r c].
      rewrite Hcb in Hrun. injection Hrun as _ <-. simpl.
      apply same_but_active_view in Hsame as (_ & _ & _ & _ & -> & _). auto.
    + rewrite Hcase in Hrun. injection Hrun as <-. simpl. auto.
  - right. rewrite (bind_eq_ok _ _ _ _ _ (overflow_eq target irq lr g Hlr)) in Hrun. case_bool_decide as Hin; injection Hrun as <-.
    + by exists lr.
    + eexists. split; [apply list_lookup_insert_eq; by eapply lookup_lt_Some|].
      simpl. apply elem_of_app. right. by constructor.
Qed.

(** The byte of CPU targets of a shared interrupt, CPUs that do not exist included. *)
Definition target_bit (d : Distributor) (irq : IRQ) (cpu : CPU) : bool :=
  Z.testbit (reg_at (targets d) (irq / 4 - 8)) (Z.of_nat (irq mod 4 * 8 + cpu)).

(** The CPU a shared interrupt from the host is sent to: the one that took it, if it is
    a target, or else the lowest-numbered target. *)
Definition spi_destination (d : Distributor) (irq : IRQ) (calling : NodeIndex) : option NodeIndex :=
  if targeted d irq calling then Some calling
  else head (filter (λ cpu, target_bit d irq cpu = true) (seq 0 8)).

Lemma get_spi_targets_eq d irq :
  wf d → 32 ≤ irq < 1020 →
  ∃ t, get_spi_targets d irq = Ok t ∧
    biterate t = filter (λ cpu, target_bit d irq cpu = true) (seq 0 8).
Proof.
  intros Hd Hirq. unfold get_spi_targets.
  rewrite (proj2 (Nat.ltb_ge irq 32)), (index_safe 247)
    by (lia || apply wf_targets, Hd || apply div4_bound; lia).
  eexists. split; [done|]. rewrite (biterate_eq 8); [|lia|apply byte_field_word].
  apply filter_ext_in. intros cpu Hcpu%elem_of_seq. unfold load, target_bit.
  rewrite <-testbit_byte_field, bit_is_set_testbit by lia. done.
Qed.

Lemma handle_irq_spi_eq g calling irq :
  gic_wf g → 32 ≤ irq < 1020 →
  (handle_irq calling (SPI irq) : GM unit) g =
    match spi_destination (dist g) irq calling with
    | Some target => forward_irq calling target irq g
    | None => (Ok tt, g)
    end.
Proof.
  intros Hg Hirq. pose proof (gwf_dist g Hg) as Hd. unfold handle_irq, spi_destination.
  erewrite bind_eq_ok by (apply on_dist_reads_eq, is_target_eq; [done|lia]).
  destruct (targeted _ _ _); [done|].
  destruct (get_spi_targets_eq (dist g) irq Hd Hirq) as (t & Ht & Hbits).
  erewrite bind_eq_ok by (apply on_dist_reads_eq, Ht). rewrite Hbits. by destruct (filter _ _).
Qed.

(** A shared interrupt from the host goes to exactly one CPU, the one that took it
    if it is a target and else the lowest-numbered target; with no target it is dropped.
    If the destination does not exist (the guest named CPUs it does not have), the
    monitor panics. *)
Lemma handle_irq_spi g calling irq :
  gic_wf g → 32 ≤ irq < 1020 →
  match spi_destination (dist g) irq calling with
  | None => (handle_irq calling (SPI irq) : GM unit) g = (Ok tt, g)
  | Some target =>
      if decide (target < g_num_nodes g)
      then (handle_irq calling (SPI irq) : GM unit) g = forward_irq calling target irq g
      else ((handle_irq calling (SPI irq) : GM unit) g).1 = Panic
  end.
Proof.
  intros Hg Hirq. rewrite handle_irq_spi_eq by done.
  destruct (spi_destination _ _ _) as [target|]; [|done]. case_decide; [done|].
  unfold forward_irq, get_lr, reads, index, mbind, M_bind.
  by rewrite lookup_ge_None_2 by (rewrite (gwf_lrs g Hg); lia).
Qed.

(** The qualified interrupt a maintenance fault acknowledges. *)
Definition qualify (node : NodeIndex) (irq : IRQ) : QualifiedIRQ :=
  if (16 <=? irq) && (irq <? 32) then QualifiedPPI node irq else SPI irq.

(** C27: a maintenance fault on list register [i] of a CPU ends the interrupt held there:
    the register becomes free, the interrupt is acknowledged in the distributor and to
    the monitor, and the oldest interrupt of the overflow queue, if any, is removed from
    it and injected into the same register.  A fault on an empty register panics. *)
Theorem handle_maintenance_spec g node i lr slot c' :
  gic_wf g → node < g_num_nodes g → lrs g !! node = Some lr → mirror lr !! i = Some slot →
  match slot with
  | None => ((handle_maintenance node i : GM unit) g).1 = Panic
  | Some irq =>
      irq < 1020 →
      cb_ack node (qualify node irq) (callbacks g) = (Ok tt, c') →
      ∃ d', ack irq node (dist g) = (Ok tt, d') ∧
        let after rest := {| g_num_nodes := g_num_nodes g; callbacks := c'; dist := d';
          lrs := <[node := {| mirror := <[i := None]> (mirror lr); overflow := rest |}]> (lrs g) |} in
        (handle_maintenance node i : GM unit) g =
          match overflow lr with
          | [] => (Ok tt, after [])
          | next :: rest => inject_irq node node i next (after rest)
          end
  end.
Proof.
  intros Hg Hnode Hlr Hslot. unfold handle_maintenance.
  rewrite (bind_eq_ok _ _ _ _ _ (get_lr_eq node lr g Hlr)).
  erewrite bind_eq_ok by (unfold reads; by rewrite (index_ok _ _ _ Hslot)).
  destruct slot as [irq|]; [|done]. intros Hirq Hcb.
  destruct (ack_ok (dist g) irq node) as [d' Hack].
  { apply Hg. }
  { lia. }
  { by rewrite (gwf_nodes g Hg). }
  exists d'. split; [done|]. do 2 (erewrite bind_eq_ok by reflexivity).
  erewrite bind_eq_ok by (erewrite on_dist_eq by (simpl; exact Hack); done).
  assert (∀ g', callbacks g' = callbacks g →
    (if (16 <=? irq) && (irq <? 32) then on_callbacks (cb_ack node (QualifiedPPI node irq))
     else on_callbacks (cb_ack node (SPI irq)) : GM unit) g' = (Ok tt, with_callbacks g' c')) as Hq.
  { intros g' Hg'. unfold qualify in Hcb. unfold on_callbacks.
    destruct (_ && _); by rewrite Hg', Hcb. }
  erewrite bind_eq_ok by (apply Hq; reflexivity).
  assert (node < length (lrs g)) as Hlt by (by rewrite (gwf_lrs g Hg)).
  erewrite bind_eq_ok by (apply get_lr_eq; simpl; by apply list_lookup_insert_eq).
  simpl. destruct (overflow lr) as [|next rest]; [done|].
  erewrite bind_eq_ok by reflexivity. simpl. unfold with_lrs. simpl.
  by rewrite list_insert_insert_eq.
Qed.
End delivery.

(** ** Examples *)

(** The distributor on, interrupts 40 and 41 enabled, both targeted at CPU 0. *)
Definition dist2_on : Distributor :=
  with_control (with_enable (initial 2) (<[0 := 0x300%Z]> (zeros 31))) 1.

Lemma dist2_on_wf : wf dist2_on.
Proof.
  assert (wf (with_enable (initial 2) (<[0 := 0x300%Z]> (zeros 31)))) as Hwf.
  { apply (wf_field_set (get := enable)); [apply initial_safe; lia|].
    apply vec_ok_insert; [apply vec_ok_zeros|]. unfold is_word. lia. }
  destruct Hwf. by constructor; auto.
Qed.

(** CPU 0 has the given list registers and queue; CPU 1 has nothing. *)
Definition gic2_with (m : list (option IRQ)) (o : list IRQ) : GIC (list logged) := {|
  g_num_nodes := 2; callbacks := []; dist := dist2_on;
  lrs := [{| mirror := m; overflow := o |}; {| mirror := replicate NUM_LRS None; overflow := [] |}] |}.

Lemma gic2_with_wf m o : length m = NUM_LRS → NoDup o → gic_wf (gic2_with m o).
Proof.
  intros Hm Ho. split; [apply dist2_on_wf|done|done|]. repeat constructor; done.
Qed.

Lemma forward_irq_spec_witness :
  gic_wf (gic2_with [Some 50; None; None; None] []) ∧
  ∃ g', forward_irq 0 0 40 (gic2_with [Some 50; None; None; None] []) = (Ok tt, g') ∧
    callbacks g' = [LInject 0 0 1 40 0].
Proof.
  assert (gic_wf (gic2_with [Some 50; None; None; None] [])) as H.
  { apply gic2_with_wf; [reflexivity|constructor]. }
  split; [exact H|].
  destruct (forward_irq_spec _ 0 0 40 H) as (lr & Hlr & Hspec); [simpl; lia|lia|].
  injection Hlr as <-. cbn [mirror find_empty] in Hspec.
  destruct Hspec as (d' & p & _ & Hp & Hspec).
  replace p with 0%Z in * by (vm_compute in Hp; congruence).
  change (deliverable _ _ _) with true in Hspec. destruct Hspec as (d'' & _ & Hrun).
  eexists. split; [exact Hrun|]. reflexivity.
Defined.

Lemma handle_maintenance_spec_witness :
  gic_wf (gic2_with [Some 40; Some 50; Some 51; Some 52] []) ∧
  ∃ g', handle_maintenance 0 0 (gic2_with [Some 40; Some 50; Some 51; Some 52] []) = (Ok tt, g') ∧
    callbacks g' = [LAck 0 (SPI 40)] ∧
    (mirror <$> lrs g' !! 0) = Some [None; Some 50; Some 51; Some 52].
Proof.
  assert (gic_wf (gic2_with [Some 40; Some 50; Some 51; Some 52] [])) as H.
  { apply gic2_with_wf; [reflexivity|constructor]. }
  split; [exact H|].
  destruct (handle_maintenance_spec _ 0 0 _ (Some 40) [LAck 0 (SPI 40)] H ltac:(simpl; lia) eq_refl
    eq_refl ltac:(lia) eq_refl) as (d' & Hack & Hrun).
  eexists. split; [exact Hrun|]. split; reflexivity.
Defined.

(** The overflow queue can strand an interrupt: each maintenance fault takes one entry
    off the queue and drops it (it stays pending in the distributor) when it cannot be
    delivered, so four undeliverable entries use up the faults of the four list registers
    and leave a deliverable one queued with every list register free. *)
Lemma overflow_can_strand :
  let g := gic2_with (Some <$> [50; 51; 52; 53]) [60; 61; 62; 63; 40] in
  gic_wf g ∧ deliverable (dist g) 40 0 = true ∧
  ∃ g', for_each (handle_maintenance 0) [0; 1; 2; 3] g = (Ok tt, g') ∧
    lrs g' !! 0 = Some {| mirror := replicate 4 None; overflow := [40] |} ∧
    deliverable (dist g') 40 0 = true ∧ pends (dist g') 40 0 = false.
Proof.
  split; [|split; [reflexivity|]].
  - apply gic2_with_wf; [reflexivity|]. repeat constructor; set_solver.
  - eexists. split; [vm_compute; reflexivity|]. repeat split; reflexivity.
Qed.
