(* ===== verification/DistributorRuns.v ===== *)
(** * DistributorRuns: accesses to the distributor that are handled

    [DistributorSafety] shows which stores do not panic; a store may still be refused with an error,
    and a shared interrupt may be given to CPUs that do not exist, which panics later, when it
    arrives.  [write_ok] lists the stores that are handled: they return, what they ask to inject
    and acknowledge exists, and the targets of shared interrupts stay those of CPUs that exist
    ([good]). *)

From S2P Require Import Prelude Biterate Fault GicRegisters Distributor DistributorSpec DistributorOps.
From S2P Require Import DistributorSafety Gic GicSpec.

#[local] Arguments Nat.leb : simpl never.

(** ** The invariant *)

(** Every CPU that a register of targets names exists. *)
Definition targets_below (n : nat) (r : Z) : Prop :=
  ∀ k cpu, k < 4 → cpu < 8 → Z.testbit r (Z.of_nat (k * 8 + cpu)) = true → cpu < n.
Definition targets_exist (n : nat) (d : Distributor) : Prop := Forall (targets_below n) (targets d).
Definition good (n : nat) (d : Distributor) : Prop := safe_state n d ∧ targets_exist n d.

(** The stores that are handled. *)
Definition write_ok (n : nat) (reg : GICDistRegWord) (val : Z) : Prop :=
  match reg with
  | GICD_CTLR => val = 0%Z ∨ val = 1%Z
  | GICD_ISENABLERn 31 => (val < 2 ^ 28)%Z
  | GICD_ICENABLERn 31 => val = 0%Z
  | GICD_ICPENDRn 0 => Z.land val 0xFFFF = 0%Z
  | GICD_ITARGETSRn k => 8 ≤ k ∧ targets_below n val
  | GICD_SGIR => sgi_targets_ok n val
  | GICD_TYPER | GICD_IIDR | GICD_NSACRn _ | ICPIDRn _ | ICCIDRn _ => False
  | _ => True
  end.
Definition store_ok (n : nat) (offset : Z) (x : VMFaultData) : Prop :=
  data_ok x ∧
  match x with
  | DWord val => ∃ reg, word_from_offset (E := IRQErrorType) offset = Ok reg ∧ write_ok n reg val
  | DByte val => (0x820 ≤ offset ≤ 0xBF8)%Z ∧ (∀ cpu, cpu < 8 → Z.testbit val (Z.of_nat cpu) = true → cpu < n)
  | _ => False
  end.

Lemma write_ok_safe n reg val : write_ok n reg val → write_safe n reg val.
Proof. destruct reg; try done. Qed.

(** ** Targets *)
Section targets.
Context (n : nat).
Abbreviation TE := (targets_exist n).

Lemma on_reg_targets {A} get (set : Distributor → list Register32 → Distributor) i
    (op : Register32 → A * Register32) :
  (∀ d l, targets (set d l) = targets d) → preserves TE (on_reg get set i op).
Proof.
  intros Hset d Hd. unfold on_reg. destruct (get d !! i) as [r|]; [|done].
  destruct (op r). unfold targets_exist. simpl. by rewrite Hset.
Qed.
Lemma on_reg2_targets {A} get (set : Distributor → list (list Register32) → Distributor) i j
    (op : Register32 → A * Register32) :
  (∀ d l, targets (set d l) = targets d) → preserves TE (on_reg2 get set i j op).
Proof.
  intros Hset d Hd. unfold on_reg2. destruct (get d !! i) as [b|]; [|done].
  destruct (b !! j) as [r|]; [|done]. destruct (op r). unfold targets_exist. simpl. by rewrite Hset.
Qed.
Lemma on_targets {A} i (op : Register32 → A * Register32) :
  (∀ r, targets_below n r → targets_below n (op r).2) → preserves TE (on_reg targets with_targets i op).
Proof.
  intros Hop d Hd. unfold on_reg. destruct (targets d !! i) as [r|] eqn:Hr; [|done].
  pose proof (Forall_lookup_1 _ _ _ _ Hd Hr) as Ht. specialize (Hop r Ht). destruct (op r).
  by apply Forall_insert.
Qed.
Lemma on_control_targets {A} (op : Register32 → A * Register32) : preserves TE (on_control op).
Proof. intros d Hd. unfold on_control. by destruct (op _). Qed.
#[local] Hint Resolve on_control_targets : preserves.
#[local] Hint Extern 1 (preserves TE (on_reg _ _ _ _)) => (apply on_reg_targets; done) : preserves.
#[local] Hint Extern 1 (preserves TE (on_reg2 _ _ _ _ _)) => (apply on_reg2_targets; done) : preserves.
Ltac solve_targets := eauto 20 with preserves.

Lemma line_ops_targets irq cpu :
  preserves TE (set_pending irq cpu) ∧ preserves TE (clear_pending irq cpu) ∧
  preserves TE (set_active irq cpu) ∧ preserves TE (clear_active irq cpu).
Proof.
  unfold set_pending, clear_pending, set_active, clear_active, on_irq_reg.
  split_and!; (apply preserves_bind; [apply preserves_gets|intros m]);
  (destruct (m <=? cpu); [apply preserves_throw|]);
  (apply preserves_bind; [|intros; apply preserves_ret]);
  (destruct (irq <? 32); apply on_reg_targets; done).
Qed.
Lemma set_pending_targets irq cpu : preserves TE (set_pending irq cpu).
Proof. apply line_ops_targets. Qed.
Lemma clear_pending_targets irq cpu : preserves TE (clear_pending irq cpu).
Proof. apply line_ops_targets. Qed.
Lemma set_active_targets irq cpu : preserves TE (set_active irq cpu).
Proof. apply line_ops_targets. Qed.
Lemma clear_active_targets irq cpu : preserves TE (clear_active irq cpu).
Proof. apply line_ops_targets. Qed.
#[local] Hint Resolve set_pending_targets clear_pending_targets set_active_targets clear_active_targets : preserves.

Lemma ack_targets irq node : preserves TE (ack irq node).
Proof. unfold ack, clear_sgi_pending. solve_targets. Qed.
Lemma send_sgi_targets irq cpus : preserves TE (send_sgi irq cpus).
Proof. induction cpus; simpl; solve_targets. Qed.
Lemma sgi_mask_loop_targets base act test irqs mask :
  (∀ irq, preserves TE (act irq)) → preserves TE (sgi_mask_loop base act test irqs mask).
Proof. intros Hact. revert mask. induction irqs; intros mask; simpl; solve_targets. Qed.
#[local] Hint Resolve send_sgi_targets sgi_mask_loop_targets : preserves.

Lemma write_word_targets reg node val : write_ok n reg val → preserves TE (write_word reg node val).
Proof.
  intros Hok. destruct reg; simpl;
  unfold write_ctlr, write_igroupr, write_isenabler, write_icenabler, write_ispendr, write_icpendr,
    write_isactiver, write_icactiver, write_ipriorityr, write_itargetsr, write_icfgr, write_sgir,
    write_cpendsgir, write_spendsgir, retarget, inject_and_ack; try solve_targets.
  apply preserves_if; intros _; [solve_targets|]. apply preserves_bind; [|solve_targets].
  apply on_targets. intros r _. apply Hok.
Qed.

Lemma set_byte_targets r b v : b < 4 → is_word 8 v →
  (∀ cpu, cpu < 8 → Z.testbit v (Z.of_nat cpu) = true → cpu < n) →
  targets_below n r → targets_below n (set_byte r b v).2.
Proof.
  intros Hb Hv Hn Hr k cpu Hk Hcpu. unfold set_byte, not32, shl32. cbn [snd].
  rewrite Z.lor_spec, Z.land_spec, orb_true_iff, andb_true_iff. intros [[Hold _]|Hnew]; [by apply (Hr k)|].
  unfold word_shl in Hnew. rewrite Z.land_spec, andb_true_iff in Hnew. destruct Hnew as [Hnew _].
  rewrite Z.shiftl_spec in Hnew by lia.
  destruct (decide (k = b)) as [->|Hkb].
  - apply Hn; [done|]. by replace (Z.of_nat (b * 8 + cpu) - Z.of_nat (b * 8))%Z with (Z.of_nat cpu) in Hnew by lia.
  - exfalso. destruct (decide (k < b)); [rewrite Z.testbit_neg_r in Hnew by lia; done|].
    rewrite (is_word_testbit 8) in Hnew by (done || lia). done.
Qed.
End targets.

(** ** No errors *)
Definition no_error {S E A} (m : M S E A) : Prop := ∀ s e s', m s ≠ (Err e, s').
Create HintDb no_error discriminated.
Section no_error.
Context {S E : Type}.
Lemma no_error_ret {A} (a : A) : no_error (mret a : M S E A).
Proof. done. Qed.
Lemma no_error_gets {A} (f : S → A) : no_error (gets f : M S E A).
Proof. done. Qed.
Lemma no_error_assert b : no_error (assert_ b : M S E unit).
Proof. unfold assert_. by destruct b. Qed.
Lemma no_error_unwrap {E' A} (m : M S E' A) : no_error (unwrap_result m : M S E A).
Proof. unfold unwrap_result. intros s e s'. by destruct (m s) as [[] ?]. Qed.
Lemma no_error_bind {A B} (m : M S E A) (f : A → M S E B) :
  no_error m → (∀ a, no_error (f a)) → no_error (m ≫= f).
Proof.
  intros Hm Hf s e s'. unfold mbind, M_bind. specialize (Hm s). destruct (m s) as [[a|e1|] s1]; [apply Hf| |done].
  by destruct (Hm e1 s1).
Qed.
Lemma no_error_if {A} (b : bool) (m1 m2 : M S E A) :
  (b = true → no_error m1) → (b = false → no_error m2) → no_error (if b then m1 else m2).
Proof. destruct b; auto. Qed.
Lemma no_error_reads {A} (f : S → outcome E A) : (∀ s e, f s ≠ Err e) → no_error (reads f : M S E A).
Proof. intros Hf s e s' [= H _]. by apply (Hf s e). Qed.
End no_error.
#[export] Hint Resolve no_error_ret no_error_gets no_error_assert no_error_unwrap : no_error.
#[export] Hint Extern 1 (no_error (_ ≫= _)) => (apply no_error_bind; [|intros ?]) : no_error.
#[export] Hint Extern 1 (no_error (if _ then _ else _)) => (apply no_error_if; intros ?) : no_error.

Lemma on_reg_no_error {A} get set i (op : Register32 → A * Register32) : no_error (on_reg get set i op).
Proof. unfold on_reg. intros d e d'. destruct (get d !! i) as [r|]; [by destruct (op r)|done]. Qed.
Lemma on_reg2_no_error {A} get set i j (op : Register32 → A * Register32) : no_error (on_reg2 get set i j op).
Proof.
  unfold on_reg2. intros d e d'. destruct (get d !! i) as [b|]; [|done]. destruct (b !! j) as [r|]; [by destruct (op r)|done].
Qed.
Lemma on_control_no_error {A} (op : Register32 → A * Register32) : no_error (on_control op).
Proof. unfold on_control. intros d e d'. by destruct (op _). Qed.
#[export] Hint Resolve on_reg_no_error on_reg2_no_error on_control_no_error : no_error.

(** Queries index vectors, and have no errors of their own. *)
Definition no_err {E A} (o : outcome E A) : Prop := ∀ e, o ≠ Err e.
Lemma no_err_bind {E A B} (o : outcome E A) (f : A → outcome E B) : no_err o → (∀ a, no_err (f a)) → no_err (o ≫= f).
Proof. intros Ho Hf e. destruct o as [a|e'|]; simpl; [apply Hf|by destruct (Ho e')|done]. Qed.
Lemma no_err_index {E A} (l : list A) i : no_err (index (E := E) l i).
Proof. intros e. unfold index. by destruct (l !! i). Qed.
Lemma no_err_and_then {E} (a b : outcome E bool) : no_err a → no_err b → no_err (and_then a b).
Proof. intros Ha Hb e. unfold and_then. destruct a as [[]|e'|]; [apply Hb|done|by destruct (Ha e')|done]. Qed.

Lemma irq_bit_set_no_err d b0 b irq cpu : no_err (irq_bit_set d b0 b irq cpu).
Proof.
  unfold irq_bit_set, irq_reg. destruct (_ <=? _); [done|]. apply no_err_bind; [|done].
  destruct (_ <? _); apply no_err_index.
Qed.
Lemma is_target_no_err d irq cpu : no_err (is_target d irq cpu).
Proof.
  unfold is_target. destruct (_ <=? _); [done|]. apply no_err_bind; [|done].
  destruct (_ <? _); [apply no_err_bind; [|intros]|]; apply no_err_index.
Qed.
Lemma should_inject_no_err d irq cpu : no_err (should_inject d irq cpu).
Proof.
  unfold should_inject, is_enabled, is_pending, is_active.
  repeat (apply no_err_and_then; [done || apply irq_bit_set_no_err || apply is_target_no_err|]).
  intros e. pose proof (irq_bit_set_no_err d (active0 d) (active d) irq cpu e). by destruct (irq_bit_set _ _ _ _ _).
Qed.
Lemma should_ack_no_err d irq cpu : no_err (should_ack d irq cpu).
Proof.
  apply no_err_and_then; [|apply irq_bit_set_no_err]. intros e. pose proof (should_inject_no_err d irq cpu e).
  by destruct (should_inject _ _ _).
Qed.
Lemma sweep_no_err d test irqs : (∀ irq cpu, no_err (test irq cpu)) → no_err (sweep d test irqs).
Proof.
  intros Ht. induction irqs as [|irq irqs IH]; simpl; [done|].
  apply no_err_bind; [|intros; apply no_err_bind; [apply IH|done]].
  generalize (seq 0 (num_nodes d)). intros l. induction l as [|cpu l IHl]; simpl; [done|].
  apply no_err_bind; [apply Ht|]. intros []; [|done]. destruct (32 <=? irq); [done|]. by apply no_err_bind.
Qed.
Lemma sweep_inject_no_error base k : no_error (reads (λ d, sweep_irqs_to_inject d base k) : DM _).
Proof. apply no_error_reads. intros d. apply sweep_no_err, should_inject_no_err. Qed.
Lemma sweep_ack_no_error base k : no_error (reads (λ d, sweep_irqs_to_ack d base k) : DM _).
Proof. apply no_error_reads. intros d. apply sweep_no_err, should_ack_no_err. Qed.
#[export] Hint Resolve sweep_inject_no_error sweep_ack_no_error : no_error.
Lemma inject_and_ack_no_error base k : no_error (inject_and_ack base k).
Proof. unfold inject_and_ack. eauto 10 with no_error. Qed.
Lemma send_sgi_no_error irq cpus : no_error (send_sgi irq cpus).
Proof.
  induction cpus as [|cpu cpus IH]; simpl; [done|].
  assert (no_error (reads (λ d, should_inject d irq cpu) : DM bool))
    by (apply no_error_reads; intros; apply should_inject_no_err).
  eauto 10 with no_error.
Qed.
Lemma sgi_mask_loop_no_error base act test irqs mask :
  (∀ irq, no_error (act irq)) → no_error (sgi_mask_loop base act test irqs mask).
Proof. intros Ha. revert mask. induction irqs; intros mask; simpl; eauto 10 with no_error. Qed.
#[export] Hint Resolve inject_and_ack_no_error send_sgi_no_error sgi_mask_loop_no_error : no_error.

Lemma write_word_no_error n reg node val : write_ok n reg val → no_error (write_word reg node val).
Proof.
  intros Hok. destruct reg as [| | |k|k|k|k|k|k|k|k|k|k|k| |k|k|k|k]; simpl in *; try done;
  unfold write_igroupr, write_isenabler, write_icenabler, write_ispendr, write_isactiver, write_icactiver,
    write_ipriorityr, write_icfgr, write_sgir, write_cpendsgir, write_spendsgir;
    try (eauto 10 with no_error).
  - unfold write_ctlr. destruct Hok as [-> | ->]; simpl; eauto 10 with no_error.
  - unfold write_icpendr. destruct (Z.eqb_spec val 0); [done|].
    destruct k; simpl; [rewrite Hok; simpl|]; eauto 10 with no_error.
  - unfold write_itargetsr, retarget. rewrite (proj2 (Nat.ltb_ge k 8)) by apply Hok. eauto 10 with no_error.
Qed.

(** ** What is injected and acknowledged exists *)
Definition pair_ok (n : nat) (p : IRQ * CPU) : Prop := p.1 < 1020 ∧ p.2 < n.
Definition action_ok (n : nat) (a : WriteAction) : Prop :=
  match a with
  | NoAction => True
  | InjectAndAckIRQs to_inject to_ack => Forall (pair_ok n) (default [] to_inject) ∧ Forall (pair_ok n) (default [] to_ack)
  end.
Lemma inject_only_ok n l : Forall (pair_ok n) l → action_ok n (inject_only l).
Proof. intros Hl. unfold inject_only. destruct (_ =? _); [done|]. by split; [|constructor]. Qed.

Lemma sweeps_ok n d base k : safe_state n d → base + k ≤ 1024 →
  (∃ l, sweep_irqs_to_inject d base k = Ok l ∧ Forall (pair_ok n) l) ∧
  (∃ l, sweep_irqs_to_ack d base k = Ok l ∧ Forall (pair_ok n) l).
Proof.
  intros (Hd & Hres & Hn) Hk. destruct (sweep_irqs_spec d base k Hd) as [(l1 & H1 & Hl1) (l2 & H2 & Hl2)]; [by auto|].
  assert (∀ irq cpu, irq ∈ seq base k → cpu < num_nodes d → enabled d irq cpu = true → pair_ok n (irq, cpu)) as Hp.
  { intros irq cpu Hirq%elem_of_seq Hcpu He. split; [|simpl; lia]. cbn [fst].
    destruct (decide (irq < 1020)); [done|]. by rewrite reserved_not_enabled in He by (done || lia). }
  split; [exists l1|exists l2]; (split; [done|]); apply Forall_forall; intros [irq cpu] Hin;
    [apply Hl1 in Hin as (? & ? & Ht & _)|apply Hl2 in Hin as (? & ? & Ht & _)]; apply Hp; try done;
    unfold injectable, ackable in Ht; by destruct (enabled d irq cpu); rewrite ?andb_false_r in Ht.
Qed.

Definition acts_ok (n : nat) (m : DM WriteAction) : Prop :=
  ∀ d a d', safe_state n d → m d = (Ok a, d') → action_ok n a.
Lemma acts_ret n a : action_ok n a → acts_ok n (mret a).
Proof. intros Ha d a' d' _ [= <- _]. done. Qed.
Lemma acts_throw n e : acts_ok n (throw e).
Proof. done. Qed.
Lemma acts_bind {A} n (m : DM A) (f : A → DM WriteAction) :
  safe (safe_state n) m → (∀ a, acts_ok n (f a)) → acts_ok n (m ≫= f).
Proof.
  intros Hm Hf d a d' Hd (b & d1 & H1 & H2)%bind_ok_inv. eapply Hf; [|exact H2].
  pose proof (proj2 (Hm d Hd)) as Hs. by rewrite H1 in Hs.
Qed.
Lemma acts_if n (b : bool) m1 m2 : (b = true → acts_ok n m1) → (b = false → acts_ok n m2) → acts_ok n (if b then m1 else m2).
Proof. destruct b; auto. Qed.

Lemma inject_and_ack_gives n base k : base + k ≤ 1024 → acts_ok n (inject_and_ack base k).
Proof.
  intros Hk d a d' Hd Hrun. destruct (sweeps_ok n d base k Hd Hk) as [(l1 & H1 & Hl1) (l2 & H2 & Hl2)].
  unfold inject_and_ack, reads, mbind, M_bind in Hrun. rewrite H1, H2 in Hrun. injection Hrun as <- _.
  destruct (_ && _); [done|]. by split.
Qed.
Lemma sweep_gives n base k : base + k ≤ 1024 →
  acts_ok n (to_inject ← reads (λ d, sweep_irqs_to_inject d base k); mret (inject_only to_inject)).
Proof.
  intros Hk d a d' Hd Hrun. destruct (sweeps_ok n d base k Hd Hk) as [(l1 & H1 & Hl1) _].
  unfold reads, mbind, M_bind in Hrun. rewrite H1 in Hrun. injection Hrun as <- _. by apply inject_only_ok.
Qed.
Lemma send_sgi_pairs n irq cpus d l d' :
  irq < 1020 → Forall (λ cpu, cpu < n) cpus → send_sgi irq cpus d = (Ok l, d') → Forall (pair_ok n) l.
Proof.
  intros Hirq Hc. revert d l d'. induction Hc as [|cpu cpus Hcpu _ IH]; intros d l d'; simpl; [by intros [= <- _]|].
  intros (? & d1 & _ & (b & d2 & _ & (rest & d3 & Hr%IH & [= <- _])%bind_ok_inv)%bind_ok_inv)%bind_ok_inv.
  destruct b; [|done]. by constructor.
Qed.
Lemma send_sgi_gives n irq cpus : irq < 1020 → Forall (λ cpu, cpu < n) cpus →
  acts_ok n (to_inject ← send_sgi irq cpus; mret (inject_only to_inject)).
Proof.
  intros Hirq Hc d a d' _ (l & d1 & Hl & [= <- _])%bind_ok_inv. by eapply inject_only_ok, send_sgi_pairs.
Qed.

(** Writes that ask for nothing. *)
Lemma acts_none {A} n (m : DM A) : acts_ok n (m ≫= λ _, mret NoAction).
Proof. by intros d a d' _ (? & ? & _ & [= <- _])%bind_ok_inv. Qed.
Lemma acts_quiet n : acts_ok n (mret NoAction).
Proof. by apply acts_ret. Qed.

Lemma byte_targets (offset : Z) : (0x820 ≤ offset ≤ 0xBF8)%Z →
  ∃ k b, byte_from_offset (E := IRQErrorType) offset = Ok (B_ITARGETSRn k b) ∧ 8 ≤ k < 255 ∧ b < 4.
Proof.
  intros Hoff. unfold byte_from_offset. rewrite in_range_false, in_range_true by lia. rewrite calc_reg_num_ok by lia.
  simpl. unfold calc_reg_byte_offset. pose proof (Z.mod_pos_bound (offset - 2048) 4 ltac:(lia)).
  rewrite (proj2 (Z.ltb_lt _ _)) by lia. simpl. eexists _, _. split; [done|].
  assert (8 ≤ (offset - 2048) / 4 < 255)%Z by (split; [apply Z.div_le_lower_bound|apply Z.div_lt_upper_bound]; lia). lia.
Qed.

Section stores.
Context (n node : nat).
Hypothesis (Hn : n ≤ 8) (Hnode : node < n).

Lemma write_isenabler_gives k val : k < 32 → is_u32 val → write_ok n (GICD_ISENABLERn k) val →
  acts_ok n (write_isenabler k node val).
Proof using Type*.
  intros Hk Hval Hok. apply acts_if; intros _; [apply acts_quiet|].
  apply acts_bind; [|intros; apply inject_and_ack_gives; lia].
  destruct (Nat.eqb_spec k 0); [on_reg_safe|].
  apply on_enable_safe; [lia|auto with words|]. intros Hi r Hw. assert (k = 31) as -> by lia.
  apply is_word_lor; [lia|done|]. split; [apply Hval|exact Hok].
Qed.
Lemma write_ispendr_gives k val : k < 32 → is_u32 val → acts_ok n (write_ispendr k node val).
Proof using Type*.
  intros Hk Hval. repeat (apply acts_if; intros _; [apply acts_quiet|]).
  apply acts_bind; [destruct (Nat.eqb_spec k 0); on_reg_safe|intros; apply sweep_gives; lia].
Qed.
Lemma retarget_gives k x : k < 255 → acts_ok n (retarget k x).
Proof using Type*. intros Hk. apply acts_if; intros _; [apply acts_quiet|]. apply inject_and_ack_gives. lia. Qed.
Lemma write_itargetsr_gives k val : k < 255 → is_u32 val → acts_ok n (write_itargetsr k val).
Proof using Type*.
  intros Hk Hval. unfold write_itargetsr. destruct (Nat.ltb_spec k 8); [apply acts_throw|].
  apply acts_bind; [on_reg_safe|intros; by apply retarget_gives].
Qed.
Lemma write_itargetsr_byte_gives k b val : k < 255 → is_word 8 val → acts_ok n (write_itargetsr_byte k b val).
Proof using Type*.
  intros Hk Hval. unfold write_itargetsr_byte. destruct (Nat.ltb_spec k 8); [apply acts_throw|].
  apply acts_bind; [on_reg_safe|intros; by apply retarget_gives].
Qed.
Lemma write_sgir_gives val : sgi_targets_ok n val → acts_ok n (write_sgir node val).
Proof using Type*.
  intros [Hf0 Hf1]. unfold write_sgir. pose proof (byte_field_word val) as Hirq. unfold is_word in Hirq. simpl in Hirq.
  destruct (Z.eqb_spec (Z.land (Z.shiftr val 24) 3) 0) as [H0|H0].
  { apply send_sgi_gives; [lia|]. apply Forall_forall. intros cpu Hcpu.
    assert (is_word (Z.of_nat n) (Z.land (Z.shiftr val 16) 255)) as Hw by (split; [apply byte_field_word|auto]).
    eapply elem_of_biterate in Hcpu; [|instantiate (1 := n); lia|done]. by eapply set_bit_below. }
  destruct (Z.eqb_spec (Z.land (Z.shiftr val 24) 3) 1) as [H1|H1].
  { apply acts_bind; [apply safe_assert, Nat.ltb_lt; lia|intros _]. apply send_sgi_gives; [lia|].
    apply Forall_forall. rewrite Hf1 in * by done. intros cpu Hcpu. pose proof (others_word node ltac:(lia)).
    eapply elem_of_biterate in Hcpu; [|instantiate (1 := 8); lia|done]. by eapply set_bit_below. }
  apply acts_if; intros _; [|apply acts_quiet]. apply send_sgi_gives; [lia|]. by repeat constructor.
Qed.
Lemma write_spendsgir_gives k val : k < 4 → is_u32 val → acts_ok n (write_spendsgir k node val).
Proof using Type*.
  intros Hk Hval. apply acts_if; intros _; [apply acts_quiet|]. apply acts_bind; [on_reg_safe|intros prev].
  apply acts_bind; [|intros; apply sweep_gives; lia].
  apply sgi_mask_loop_safe. intros irq Hin%elem_of_seq. apply set_pending_safe; lia.
Qed.
Lemma write_ctlr_gives val : acts_ok n (write_ctlr val).
Proof using Type*.
  unfold write_ctlr. destruct (Z.eqb_spec val 1) as [->|]; [|destruct (Z.eqb_spec val 0) as [->|]].
  - apply acts_bind; [apply on_control_safe; intros r [-> | ->]; simpl; auto|].
    intros prev. apply acts_if; intros; [apply inject_and_ack_gives; lia|apply acts_quiet].
  - apply acts_bind; [apply on_control_safe; intros r [-> | ->]; simpl; auto|].
    intros prev. apply acts_if; intros; apply acts_quiet.
  - apply acts_throw.
Qed.

Lemma write_word_gives reg val : reg_exists reg → is_u32 val → write_ok n reg val → acts_ok n (write_word reg node val).
Proof using Type*.
  intros Hex Hval Hok. destruct reg as [| | |k|k|k|k|k|k|k|k|k|k|k| |k|k|k|k]; simpl in Hex, Hok |- *; try done;
  auto using write_ctlr_gives, write_isenabler_gives, write_ispendr_gives, write_itargetsr_gives, write_sgir_gives,
    write_spendsgir_gives;
  unfold write_igroupr, write_icenabler, write_icpendr, write_isactiver, write_icactiver, write_ipriorityr, write_icfgr,
    write_cpendsgir;
  repeat (apply acts_if; intros _; [apply acts_quiet || apply acts_throw|]); try apply acts_none.
  by intros d a d' _ (? & ? & _ & (? & ? & _ & [= <- _])%bind_ok_inv)%bind_ok_inv.
Qed.

(** A store that is handled. *)
Lemma handle_write_runs offset x d : store_ok n offset x → good n d →
  ∃ a d', handle_write offset node x d = (Ok a, d') ∧ good n d' ∧ action_ok n a.
Proof using Type*.
  intros [Hx Hs] [Hd Ht].
  assert (safe (safe_state n) (handle_write offset node x) ∧ preserves (targets_exist n) (handle_write offset node x) ∧
    no_error (handle_write offset node x) ∧ acts_ok n (handle_write offset node x)) as (Hsafe & Hpres & Herr & Hgives).
  { unfold handle_write. destruct x as [v|v|v|v]; [|done| |done].
    - destruct Hs as [Hoff Hv]. destruct (byte_targets offset Hoff) as (k & b & Hb & [Hk8 Hk] & Hb4).
      rewrite Hb. change (lift (Ok (B_ITARGETSRn k b)) ≫= ?f) with (f (B_ITARGETSRn k b)). cbv iota beta.
      split_and!.
      + unfold write_itargetsr_byte. destruct (Nat.ltb_spec k 8); [auto with safe|].
        apply safe_bind; [on_reg_safe|intros; by apply retarget_safe].
      + unfold write_itargetsr_byte, retarget, inject_and_ack. apply preserves_if; intros _; [eauto with preserves|].
        apply preserves_bind; [apply on_targets; intros r; by apply set_byte_targets|eauto 10 with preserves].
      + unfold write_itargetsr_byte, retarget. rewrite (proj2 (Nat.ltb_ge k 8)) by done. eauto 10 with no_error.
      + by apply write_itargetsr_byte_gives.
    - destruct Hs as (reg & Hreg & Hok). destruct (word_from_offset_sound _ _ Hreg) as [Hex _].
      rewrite Hreg. change (lift (Ok reg) ≫= ?f) with (f reg). cbv beta.
      split_and!; [by apply write_word_safe, write_ok_safe|by apply write_word_targets|by eapply write_word_no_error|by apply write_word_gives]. }
  specialize (Hsafe d Hd). specialize (Hpres d Ht). destruct (handle_write offset node x d) as [[a|e|] d'] eqn:Hrun; cbn [fst snd] in *.
  - exists a, d'. split; [done|]. split; [by split; [apply Hsafe|]|]. by eapply Hgives.
  - by destruct (Herr d e d').
  - by destruct Hsafe.
Qed.
End stores.
