(* ===== verification/RingBuffer.v ===== *)
(** * RingBuffer: the shared-memory byte and packet channels

    Model of [framework/base/icecap-ring-buffer/src/ring_buffer.rs].

    Two peers share, for each direction, a buffer and a control block.  A peer writes
    only its own control block ([write.ctrl], the progress of its reads and of its
    writes) and its own buffer, and reads those of the other peer ([read]); the one
    exception is [status], whose request bits the other peer clears.  A [RingBuffer] is
    one peer's view: the other peer's side, its own side and its private offsets, with
    the kicks it has sent.

    Offsets are [u64] counters of bytes, [Z] here, and additions and subtractions wrap
    (the release profile has no overflow checks).  [debug_assert!] is compiled out and
    left out.  A copy outside the buffer is undefined behaviour in the source and a
    [Panic] here.  The memory barriers have no counterpart: each operation is a step of
    one sequentially consistent machine. *)

From S2P Require Import Prelude.

Abbreviation byte := Z (only parsing).

(** ** Data *)

Record Ctrl := {
  offset_r : Z;
  offset_w : Z;
  status_notify_read : bool;
  status_notify_write : bool;
}.

Record RingBufferSide := {
  size : Z;
  ctrl : Ctrl;
  buf : list byte;
}.

Inductive Kicked := KickRead | KickWrite.

Record RingBuffer := {
  rb_read : RingBufferSide;
  rb_write : RingBufferSide;
  private_offset_r : Z;
  private_offset_w : Z;
  kicks : list Kicked;
}.

Definition u64_add (a b : Z) : Z := ((a + b) mod 2 ^ 64)%Z.
Definition u64_sub (a b : Z) : Z := ((a - b) mod 2 ^ 64)%Z.

(** Field updates. *)
Definition with_ctrl (s : RingBufferSide) (c : Ctrl) : RingBufferSide :=
  {| size := size s; ctrl := c; buf := buf s |}.
Definition with_buf (s : RingBufferSide) (b : list byte) : RingBufferSide :=
  {| size := size s; ctrl := ctrl s; buf := b |}.
Definition with_read (rb : RingBuffer) (s : RingBufferSide) : RingBuffer :=
  {| rb_read := s; rb_write := rb_write rb; private_offset_r := private_offset_r rb;
     private_offset_w := private_offset_w rb; kicks := kicks rb |}.
Definition with_write (rb : RingBuffer) (s : RingBufferSide) : RingBuffer :=
  {| rb_read := rb_read rb; rb_write := s; private_offset_r := private_offset_r rb;
     private_offset_w := private_offset_w rb; kicks := kicks rb |}.
Definition with_offset_r (rb : RingBuffer) (v : Z) : RingBuffer :=
  {| rb_read := rb_read rb; rb_write := rb_write rb; private_offset_r := v;
     private_offset_w := private_offset_w rb; kicks := kicks rb |}.
Definition with_offset_w (rb : RingBuffer) (v : Z) : RingBuffer :=
  {| rb_read := rb_read rb; rb_write := rb_write rb; private_offset_r := private_offset_r rb;
     private_offset_w := v; kicks := kicks rb |}.
Definition with_kick (rb : RingBuffer) (k : Kicked) : RingBuffer :=
  {| rb_read := rb_read rb; rb_write := rb_write rb; private_offset_r := private_offset_r rb;
     private_offset_w := private_offset_w rb; kicks := kicks rb ++ [k] |}.

Definition set_ctrl_offset_r (v : Z) (c : Ctrl) : Ctrl :=
  {| offset_r := v; offset_w := offset_w c; status_notify_read := status_notify_read c;
     status_notify_write := status_notify_write c |}.
Definition set_ctrl_offset_w (v : Z) (c : Ctrl) : Ctrl :=
  {| offset_r := offset_r c; offset_w := v; status_notify_read := status_notify_read c;
     status_notify_write := status_notify_write c |}.
Definition set_notify_read (b : bool) (c : Ctrl) : Ctrl :=
  {| offset_r := offset_r c; offset_w := offset_w c; status_notify_read := b;
     status_notify_write := status_notify_write c |}.
Definition set_notify_write (b : bool) (c : Ctrl) : Ctrl :=
  {| offset_r := offset_r c; offset_w := offset_w c; status_notify_read := status_notify_read c;
     status_notify_write := b |}.

(** ** Memory copies *)

Definition copy_from {E} (b : list byte) (off n : nat) : outcome E (list byte) :=
  if off + n <=? length b then Ok (take n (drop off b)) else Panic.
Definition copy_to {E} (b : list byte) (off : nat) (bs : list byte) : outcome E (list byte) :=
  if off + length bs <=? length b then Ok (list_inserts off bs b) else Panic.

(** ** The byte channel *)

Abbreviation RM := (M RingBuffer Empty_set).

(** [RingBuffer::new]; [resume] continues from the offsets of its own control block. *)
Definition rb_new (read write : RingBufferSide) : RingBuffer :=
  {| rb_read := read; rb_write := write; private_offset_r := 0; private_offset_w := 0; kicks := [] |}.
Definition rb_resume (read write : RingBufferSide) : RingBuffer :=
  {| rb_read := read; rb_write := write; private_offset_r := offset_r (ctrl write);
     private_offset_w := offset_w (ctrl write); kicks := [] |}.

Definition poll_read (rb : RingBuffer) : outcome Empty_set Z :=
  let offset_r := private_offset_r rb in
  let offset_w := offset_w (ctrl (rb_read rb)) in
  if negb (Z.leb offset_r offset_w) then Panic
  else if negb (Z.leb (offset_w - offset_r) (size (rb_read rb))) then Panic
  else Ok (offset_w - offset_r)%Z.

(** [max(0, size - (w - r) - 1)] on [usize]: the subtraction wraps and [max] does
    nothing. *)
Definition poll_write (rb : RingBuffer) : outcome Empty_set Z :=
  let offset_r := offset_r (ctrl (rb_read rb)) in
  let offset_w := private_offset_w rb in
  if negb (Z.leb offset_r offset_w) then Panic
  else if negb (Z.leb (offset_w - offset_r) (size (rb_write rb))) then Panic
  else Ok (Z.max 0 (u64_sub (u64_sub (size (rb_write rb)) (offset_w - offset_r)) 1)).

Definition peek (n : nat) (rb : RingBuffer) : outcome Empty_set (list byte) :=
  let side := rb_read rb in
  if Z.eqb (size side) 0 then Panic
  else
    let offset := (private_offset_r rb mod size side)%Z in
    let n1 := (size side - offset)%Z in
    if Z.leb (Z.of_nat n) n1 then copy_from (buf side) (Z.to_nat offset) n
    else
      l1 ← copy_from (buf side) (Z.to_nat offset) (Z.to_nat n1);
      l2 ← copy_from (buf side) 0 (n - Z.to_nat n1);
      Ok (l1 ++ l2).

Definition skip (n : nat) : RM unit :=
  modify (λ rb, with_offset_r rb (u64_add (private_offset_r rb) (Z.of_nat n))).

Definition read (n : nat) : RM (list byte) :=
  bs ← reads (peek n); skip n;; mret bs.

(** The copy of [write] into the ring. *)
Definition ring_store (size : Z) (b : list byte) (offset_w : Z) (bs : list byte) :
    outcome Empty_set (list byte) :=
  if Z.eqb size 0 then Panic
  else
    let offset := (offset_w mod size)%Z in
    let n1 := (size - offset)%Z in
    if Z.leb (Z.of_nat (length bs)) n1 then copy_to b (Z.to_nat offset) bs
    else
      b1 ← copy_to b (Z.to_nat offset) (take (Z.to_nat n1) bs);
      copy_to b1 0 (drop (Z.to_nat n1) bs).

Definition write (bs : list byte) : RM unit :=
  b ← reads (λ rb, ring_store (size (rb_write rb)) (buf (rb_write rb)) (private_offset_w rb) bs);
  modify (λ rb, with_write rb (with_buf (rb_write rb) b));;
  modify (λ rb, with_offset_w rb (u64_add (private_offset_w rb) (Z.of_nat (length bs)))).

Definition on_own_ctrl (f : Ctrl → Ctrl) : RM unit :=
  modify (λ rb, with_write rb (with_ctrl (rb_write rb) (f (ctrl (rb_write rb))))).
Definition on_peer_ctrl (f : Ctrl → Ctrl) : RM unit :=
  modify (λ rb, with_read rb (with_ctrl (rb_read rb) (f (ctrl (rb_read rb))))).

Definition kick_read : RM unit := modify (λ rb, with_kick rb KickRead).
Definition kick_write : RM unit := modify (λ rb, with_kick rb KickWrite).

Definition notify_read : RM unit :=
  r ← gets private_offset_r;
  on_own_ctrl (set_ctrl_offset_r r);;
  b ← gets (λ rb, status_notify_write (ctrl (rb_read rb)));
  if (b : bool) then on_peer_ctrl (set_notify_write false);; kick_read else mret tt.

Definition notify_write : RM unit :=
  w ← gets private_offset_w;
  on_own_ctrl (set_ctrl_offset_w w);;
  b ← gets (λ rb, status_notify_read (ctrl (rb_read rb)));
  if (b : bool) then on_peer_ctrl (set_notify_read false);; kick_write else mret tt.

Definition enable_notify_read : RM unit := on_own_ctrl (set_notify_read true).
Definition enable_notify_write : RM unit := on_own_ctrl (set_notify_write true).
Definition disable_notify_read : RM unit := on_own_ctrl (set_notify_read false).
Definition disable_notify_write : RM unit := on_own_ctrl (set_notify_write false).

(** ** The packet channel *)

Definition HEADER_SIZE : nat := 4.

(** [(n as u32).to_le_bytes()] and [u32::from_le_bytes]. *)
Definition serialize_header (n : nat) : list byte :=
  let v := word_cast 32 (Z.of_nat n) in
  [v mod 256; (v / 256) mod 256; (v / 65536) mod 256; (v / 16777216) mod 256]%Z.
Definition from_le_bytes (l : list byte) : Z :=
  foldr (λ b acc, b + 256 * acc)%Z 0%Z l.

Definition packet_size (bs : list byte) : nat := HEADER_SIZE + length bs.

(** The second call of [poll_read] may see a larger value; here both see the same
    state. *)
Definition packet_poll (rb : RingBuffer) : outcome Empty_set (option nat) :=
  avail ← poll_read rb;
  if Z.ltb avail (Z.of_nat HEADER_SIZE) then Ok None
  else
    header ← peek HEADER_SIZE rb;
    let n := from_le_bytes header in
    avail ← poll_read rb;
    if Z.gtb n (u64_sub avail (Z.of_nat HEADER_SIZE)) then Ok None else Ok (Some (Z.to_nat n)).

Definition packet_read_into (n : nat) : RM (list byte) :=
  skip HEADER_SIZE;; read n.

Definition packet_read : RM (option (list byte)) :=
  o ← reads packet_poll;
  match o with
  | None => mret None
  | Some n => bs ← packet_read_into n; mret (Some bs)
  end.

Definition packet_write (bs : list byte) : RM bool :=
  avail ← reads poll_write;
  if Z.ltb avail (Z.of_nat (packet_size bs)) then mret false
  else
    write (serialize_header (length bs));;
    write bs;;
    mret true.
