(* ===== verification/RingBufferSpec.v ===== *)
(** * RingBufferSpec: the ring buffer is a pair of FIFO byte streams

    Two peers run the operations of [RingBuffer] on the state they share, in any order;
    the abstract state of a direction is the list of bytes ever written and the list of
    bytes ever read.  The refinement theorem says the second is always a prefix of the
    first, that the polls never fail and that they return what the streams say. *)

From S2P Require Import Prelude RingBuffer.

Local Open Scope Z_scope.

(** ** Copies into and out of the ring *)

(** The position of byte [i] of the stream in a ring of [n] bytes. *)
Definition pos (n i : Z) : nat := Z.to_nat (i mod n).

Lemma copy_from_ok {E} b off n :
  (off + n ≤ length b)%nat →
  ∃ l, copy_from (E := E) b off n = Ok l ∧ length l = n ∧
    ∀ j, (j < n)%nat → l !! j = b !! (off + j)%nat.
Proof.
  intros H. unfold copy_from. rewrite (proj2 (Nat.leb_le _ _) H). eexists. split; [done|].
  split; [rewrite length_take, length_drop; lia|].
  intros j Hj. rewrite lookup_take_lt by done. by rewrite lookup_drop.
Qed.

Lemma copy_to_ok {E} b off bs :
  (off + length bs ≤ length b)%nat →
  copy_to (E := E) b off bs = Ok (list_inserts off bs b).
Proof. intros H. unfold copy_to. by rewrite (proj2 (Nat.leb_le _ _) H). Qed.

Lemma lookup_inserts_inside (b bs : list Z) off j :
  (off + length bs ≤ length b)%nat → (j < length bs)%nat →
  list_inserts off bs b !! (off + j)%nat = bs !! j.
Proof.
  intros Hlen Hj. rewrite list_lookup_inserts by lia. f_equal. lia.
Qed.

Lemma lookup_inserts_outside (b bs : list Z) off k :
  (k < off ∨ off + length bs ≤ k)%nat → list_inserts off bs b !! k = b !! k.
Proof.
  intros [H|H]; [by apply list_lookup_inserts_lt|by apply list_lookup_inserts_ge].
Qed.

Lemma pos_lt n i : 0 < n → (pos n i < Z.to_nat n)%nat.
Proof. intros Hn. unfold pos. pose proof (Z.mod_pos_bound i n Hn). lia. Qed.

(** The two halves of a copy that starts at [off] in a ring of [n] bytes. *)
Lemma pos_low n off j : 0 < n → off mod n + Z.of_nat j < n → pos n (off + Z.of_nat j) = (Z.to_nat (off mod n) + j)%nat.
Proof.
  intros Hn Hj. pose proof (Z.mod_pos_bound off n Hn). unfold pos.
  rewrite <-Z.add_mod_idemp_l by lia. rewrite Z.mod_small by lia. lia.
Qed.

Lemma pos_high n off j :
  0 < n → n ≤ off mod n + Z.of_nat j < 2 * n →
  pos n (off + Z.of_nat j) = (Z.to_nat (off mod n + Z.of_nat j - n))%nat.
Proof.
  intros Hn Hj. unfold pos. rewrite <-Z.add_mod_idemp_l by lia.
  replace (off mod n + Z.of_nat j) with ((off mod n + Z.of_nat j - n) + 1 * n) at 1 by lia.
  rewrite Z.mod_add, Z.mod_small by lia. done.
Qed.

Lemma pos_inj n i j : 0 < n → i ≤ j < i + n → pos n i = pos n j → i = j.
Proof.
  intros Hn Hij Heq. unfold pos in Heq.
  pose proof (Z.mod_pos_bound i n Hn). pose proof (Z.mod_pos_bound j n Hn).
  assert (i mod n = j mod n) as Hm by lia.
  pose proof (Z.div_mod i n ltac:(lia)). pose proof (Z.div_mod j n ltac:(lia)).
  assert (j - i = n * (j / n - i / n)) as Hd by lia.
  assert (j / n - i / n < 1) by (apply (Z.mul_lt_mono_pos_l n); lia).
  assert (-1 < j / n - i / n) by (apply (Z.mul_lt_mono_pos_l n); lia).
  assert (j / n - i / n = 0) as Hz by lia. rewrite Hz in Hd. lia.
Qed.

(** A ring of [n] bytes. *)
Definition ring (n : Z) (b : list Z) : Prop := 0 < n < 2 ^ 64 ∧ length b = Z.to_nat n.

Lemma peek_spec rb n :
  ring (size (rb_read rb)) (buf (rb_read rb)) → Z.of_nat n ≤ size (rb_read rb) →
  ∃ bs, peek n rb = Ok bs ∧ length bs = n ∧
    ∀ j, (j < n)%nat →
      bs !! j = buf (rb_read rb) !! pos (size (rb_read rb)) (private_offset_r rb + Z.of_nat j).
Proof.
  intros [[Hs _] Hlen] Hn. unfold peek. set (N := size _) in *. set (off := private_offset_r rb).
  rewrite (proj2 (Z.eqb_neq N 0)) by lia. pose proof (Z.mod_pos_bound off N Hs).
  destruct (Z.leb_spec (Z.of_nat n) (N - off mod N)) as [Hle|Hgt].
  - destruct (copy_from_ok (E := Empty_set) (buf (rb_read rb)) (Z.to_nat (off mod N)) n)
      as (l & Hl & Hll & Hlj); [lia|].
    exists l. split_and!; [done..|]. intros j Hj. rewrite Hlj, pos_low by lia. done.
  - set (n1 := Z.to_nat (N - off mod N)).
    destruct (copy_from_ok (E := Empty_set) (buf (rb_read rb)) (Z.to_nat (off mod N)) n1)
      as (l1 & Hl1 & Hll1 & Hlj1); [lia|].
    destruct (copy_from_ok (E := Empty_set) (buf (rb_read rb)) 0 (n - n1))
      as (l2 & Hl2 & Hll2 & Hlj2); [lia|].
    rewrite Hl1. simpl. rewrite Hl2. simpl. eexists. split; [done|].
    split; [rewrite length_app; lia|]. intros j Hj.
    destruct (decide (j < n1)%nat).
    + rewrite lookup_app_l, Hlj1, pos_low by lia. done.
    + rewrite lookup_app_r, Hll1, Hlj2, pos_high by lia. f_equal. lia.
Qed.

Lemma ring_store_spec N b off bs :
  ring N b → Z.of_nat (length bs) ≤ N →
  ∃ b', ring_store N b off bs = Ok b' ∧ length b' = length b ∧
    (∀ j, (j < length bs)%nat → b' !! pos N (off + Z.of_nat j) = bs !! j) ∧
    (∀ k, (∀ j, (j < length bs)%nat → pos N (off + Z.of_nat j) ≠ k) → b' !! k = b !! k).
Proof.
  intros [[Hs _] Hlen] Hn. unfold ring_store.
  rewrite (proj2 (Z.eqb_neq N 0)) by lia. pose proof (Z.mod_pos_bound off N Hs).
  destruct (Z.leb_spec (Z.of_nat (length bs)) (N - off mod N)) as [Hle|Hgt].
  - rewrite copy_to_ok by lia. eexists. split; [done|].
    split_and!; [apply length_inserts| |].
    + intros j Hj. rewrite pos_low by lia. apply lookup_inserts_inside; lia.
    + intros k Hk. apply lookup_inserts_outside.
      destruct (decide (k < Z.to_nat (off mod N) ∨ Z.to_nat (off mod N) + length bs ≤ k)%nat); [done|].
      destruct (Hk (k - Z.to_nat (off mod N))%nat); [lia|]. rewrite pos_low by lia. lia.
  - set (n1 := Z.to_nat (N - off mod N)).
    rewrite copy_to_ok by (rewrite length_take; lia). simpl.
    rewrite copy_to_ok by (rewrite length_inserts, length_drop; lia).
    eexists. split; [done|]. split_and!; [by rewrite !length_inserts| |].
    + intros j Hj. destruct (decide (j < n1)%nat) as [Hlt|Hge].
      * rewrite pos_low by lia. rewrite lookup_inserts_outside by (rewrite length_drop; lia).
        rewrite lookup_inserts_inside by (rewrite ?length_take; lia). by apply lookup_take_lt.
      * rewrite pos_high by lia.
        replace (Z.to_nat (off mod N + Z.of_nat j - N)) with (0 + (j - n1))%nat by lia.
        rewrite lookup_inserts_inside by (rewrite ?length_drop, ?length_inserts; lia).
        rewrite lookup_drop. f_equal. lia.
    + intros k Hk. destruct (decide (k < length bs - n1)%nat) as [Hlow|Hlow].
      { destruct (Hk (n1 + k)%nat); [lia|]. rewrite pos_high by lia. lia. }
      rewrite lookup_inserts_outside by (rewrite length_drop; lia).
      apply lookup_inserts_outside. rewrite length_take.
      destruct (decide (k < Z.to_nat (off mod N)
        ∨ Z.to_nat (off mod N) + n1 `min` length bs ≤ k)%nat); [done|].
      destruct (Hk (k - Z.to_nat (off mod N))%nat); [lia|]. rewrite pos_low by lia. lia.
Qed.

(** ** Two peers *)

(** What a peer owns: its side (its buffer and control block), its private offsets and
    the kicks it has sent; and, as ghost state, the bytes it has written and read. *)
Record Peer := {
  p_side : RingBufferSide;
  p_r : Z;
  p_w : Z;
  p_kicks : list Kicked;
  p_sent : list Z;
  p_recvd : list Z;
}.

(** The [RingBuffer] of peer [p] when the other one is [q]. *)
Definition view (p q : Peer) : RingBuffer :=
  {| rb_read := p_side q; rb_write := p_side p; private_offset_r := p_r p;
     private_offset_w := p_w p; kicks := p_kicks p |}.

Inductive rb_op :=
| OpWrite (bs : list Z)
| OpRead (n : nat)
| OpNotifyRead
| OpNotifyWrite
| OpEnableNotifyRead
| OpEnableNotifyWrite
| OpDisableNotifyRead
| OpDisableNotifyWrite.

(** The bytes an operation returns; only [read] returns any. *)
Definition run_rb (o : rb_op) : RM (list Z) :=
  match o with
  | OpWrite bs => write bs;; mret []
  | OpRead n => read n
  | OpNotifyRead => notify_read;; mret []
  | OpNotifyWrite => notify_write;; mret []
  | OpEnableNotifyRead => enable_notify_read;; mret []
  | OpEnableNotifyWrite => enable_notify_write;; mret []
  | OpDisableNotifyRead => disable_notify_read;; mret []
  | OpDisableNotifyWrite => disable_notify_write;; mret []
  end.

(** What the [debug_assert!]s of the source ask of the caller: not to read or write more
    than the polls allow; and fewer than [2^64] bytes in all. *)
Definition op_pre (rb : RingBuffer) (o : rb_op) : Prop :=
  match o with
  | OpWrite bs => (∃ k, poll_write rb = Ok k ∧ Z.of_nat (length bs) ≤ k) ∧
      private_offset_w rb + Z.of_nat (length bs) < 2 ^ 64
  | OpRead n => ∃ k, poll_read rb = Ok k ∧ Z.of_nat n ≤ k
  | _ => True
  end.

Definition op_sent (o : rb_op) : list Z := match o with OpWrite bs => bs | _ => [] end.

(** Peer [p] runs [o] and gets [rb] and the bytes [got]. *)
Definition peer_after (p : Peer) (rb : RingBuffer) (o : rb_op) (got : list Z) : Peer :=
  {| p_side := rb_write rb; p_r := private_offset_r rb; p_w := private_offset_w rb;
     p_kicks := kicks rb; p_sent := p_sent p ++ op_sent o; p_recvd := p_recvd p ++ got |}.
Definition other_after (q : Peer) (rb : RingBuffer) : Peer :=
  {| p_side := rb_read rb; p_r := p_r q; p_w := p_w q; p_kicks := p_kicks q;
     p_sent := p_sent q; p_recvd := p_recvd q |}.

(** A step of either peer, from any state in which its caller respects [op_pre]. *)
Inductive rb_step : Peer * Peer → Peer * Peer → Prop :=
| rb_step_first p q o got rb :
    op_pre (view p q) o → run_rb o (view p q) = (Ok got, rb) →
    rb_step (p, q) (peer_after p rb o got, other_after q rb)
| rb_step_second p q o got rb :
    op_pre (view q p) o → run_rb o (view q p) = (Ok got, rb) →
    rb_step (p, q) (other_after p rb, peer_after q rb o got).

(** Initially everything is zero; the ring of each direction has at least one byte. *)
Definition fresh_ctrl : Ctrl :=
  {| offset_r := 0; offset_w := 0; status_notify_read := false; status_notify_write := false |}.
Definition fresh (n : Z) (b : list Z) : Peer :=
  {| p_side := {| size := n; ctrl := fresh_ctrl; buf := b |}; p_r := 0; p_w := 0; p_kicks := [];
     p_sent := []; p_recvd := [] |}.

Inductive rb_reachable : Peer * Peer → Prop :=
| rb_init n1 b1 n2 b2 : ring n1 b1 → ring n2 b2 → rb_reachable (fresh n1 b1, fresh n2 b2)
| rb_next s s' : rb_reachable s → rb_step s s' → rb_reachable s'.

(** ** The invariant of the direction from [p] to [q] *)

Record stream_inv (p q : Peer) : Prop := {
  si_ring : ring (size (p_side p)) (buf (p_side p));
  si_sent : p_w p = Z.of_nat (length (p_sent p));
  si_small : p_w p < 2 ^ 64;
  si_order : 0 ≤ offset_r (ctrl (p_side q)) ≤ p_r q ∧
             p_r q ≤ offset_w (ctrl (p_side p)) ≤ p_w p;
  si_room : p_w p - offset_r (ctrl (p_side q)) ≤ size (p_side p) - 1;
  si_recvd : p_recvd q = take (Z.to_nat (p_r q)) (p_sent p);
  si_data : ∀ i, p_r q ≤ i < p_w p →
    buf (p_side p) !! pos (size (p_side p)) i = p_sent p !! Z.to_nat i;
}.

Lemma u64_sub_small a b : 0 ≤ b ≤ a → a < 2 ^ 64 → u64_sub a b = a - b.
Proof. intros. unfold u64_sub. apply Z.mod_small. lia. Qed.
Lemma u64_add_small a b : 0 ≤ a → 0 ≤ b → a + b < 2 ^ 64 → u64_add a b = a + b.
Proof. intros. unfold u64_add. apply Z.mod_small. lia. Qed.

(** The polls return what the streams say. *)
Lemma poll_read_eq p q :
  stream_inv p q → poll_read (view q p) = Ok (offset_w (ctrl (p_side p)) - p_r q).
Proof.
  intros []. unfold poll_read. simpl.
  rewrite (proj2 (Z.leb_le (p_r q) (offset_w _))) by lia. simpl.
  rewrite (proj2 (Z.leb_le (offset_w _ - p_r q) (size _))) by lia. done.
Qed.

Lemma poll_write_eq p q :
  stream_inv p q →
  poll_write (view p q) = Ok (size (p_side p) - 1 - (p_w p - offset_r (ctrl (p_side q)))).
Proof.
  intros [[Hs _] ? ? ? ? ? ?]. unfold poll_write. simpl.
  rewrite (proj2 (Z.leb_le (offset_r _) (p_w p))) by lia. simpl.
  rewrite (proj2 (Z.leb_le (p_w p - offset_r _) (size _))) by lia. simpl.
  rewrite (u64_sub_small (size _)), u64_sub_small by lia. f_equal. lia.
Qed.

(** ** Every operation of a peer keeps both directions *)

Definition both_inv (p q : Peer) : Prop := stream_inv p q ∧ stream_inv q p.

(** [o] run by [p] returns, and keeps the invariant. *)
Definition op_good (p q : Peer) (o : rb_op) : Prop :=
  ∃ got rb, run_rb o (view p q) = (Ok got, rb) ∧
    both_inv (peer_after p rb o got) (other_after q rb).

Lemma write_good p q bs : both_inv p q → op_pre (view p q) (OpWrite bs) → op_good p q (OpWrite bs).
Proof.
  intros [Hpq Hqp] [(k & Hk & Hlen) Hsmall]. rewrite (poll_write_eq p q Hpq) in Hk.
  injection Hk as <-. simpl in Hsmall. pose proof Hpq as [Hring Hsent Hw64 [Hr Hw] Hroom Hrec Hdata].
  destruct Hring as [Hs Hbuf].
  destruct (ring_store_spec (size (p_side p)) (buf (p_side p)) (p_w p) bs)
    as (b' & Hst & Hlen' & Hin & Hout); [done|lia|].
  eexists [], _. split.
  { unfold run_rb, write, mbind, M_bind, reads. simpl. rewrite Hst. done. }
  assert (u64_add (p_w p) (Z.of_nat (length bs)) = p_w p + Z.of_nat (length bs)) as Hadd
    by (apply u64_add_small; lia).
  split; [|destruct Hqp; constructor; simpl; rewrite ?app_nil_r; done].
  constructor; simpl; rewrite ?Hadd, ?app_nil_r.
  - split; [done|]. by rewrite Hlen'.
  - rewrite length_app. lia.
  - lia.
  - lia.
  - lia.
  - rewrite take_app_le by lia. done.
  - intros i Hi. destruct (decide (i < p_w p)) as [Hlt|Hge].
    + rewrite Hout.
      { rewrite Hdata, lookup_app_l by lia. done. }
      intros j Hj Heq. symmetry in Heq. apply pos_inj in Heq; lia.
    + replace i with (p_w p + Z.of_nat (Z.to_nat (i - p_w p))) at 1 by lia.
      rewrite Hin, lookup_app_r by lia. f_equal. lia.
Qed.

Lemma read_good p q n : both_inv p q → op_pre (view p q) (OpRead n) → op_good p q (OpRead n).
Proof.
  intros [Hpq Hqp] (k & Hk & Hn). rewrite (poll_read_eq q p Hqp) in Hk. injection Hk as <-.
  pose proof Hqp as [Hring Hsent Hw64 [Hr Hw] Hroom Hrec Hdata].
  destruct (peek_spec (view p q) n) as (bs & Hpeek & Hlen & Hbs); [done|simpl; lia|]. simpl in Hbs.
  eexists bs, _. split.
  { unfold run_rb, read, mbind, M_bind, reads. rewrite Hpeek. done. }
  assert (u64_add (p_r p) (Z.of_nat n) = p_r p + Z.of_nat n) as Hadd by (apply u64_add_small; lia).
  split; [destruct Hpq; constructor; simpl; rewrite ?app_nil_r; done|].
  constructor; simpl; rewrite ?Hadd; try done; try lia.
  - rewrite Hrec. apply list_eq. intros i.
    destruct (decide (i < Z.to_nat (p_r p))%nat) as [Hi|Hi].
    + rewrite lookup_app_l by (rewrite length_take; lia). rewrite !lookup_take_lt by lia. done.
    + rewrite lookup_app_r by (rewrite length_take; lia). rewrite length_take, Nat.min_l by lia.
      destruct (decide (i < Z.to_nat (p_r p + Z.of_nat n))%nat) as [Hi'|Hi'].
      * rewrite Hbs, Hdata, lookup_take_lt by lia. f_equal. lia.
      * rewrite (lookup_ge_None_2 bs), (lookup_ge_None_2 (take _ _)); [done|rewrite length_take; lia|lia].
  - intros i Hi. apply Hdata. lia.
Qed.

Lemma notify_write_good p q : both_inv p q → op_good p q OpNotifyWrite.
Proof.
  intros [Hpq Hqp]. unfold op_good, run_rb, notify_write, mbind, M_bind, gets. simpl.
  destruct (status_notify_read (ctrl (p_side q))) eqn:Hst;
  (eexists [], _; split; [reflexivity|]; split;
   [destruct Hpq|destruct Hqp]; constructor; simpl; rewrite ?app_nil_r; try done; lia).
Qed.

Lemma notify_read_good p q : both_inv p q → op_good p q OpNotifyRead.
Proof.
  intros [Hpq Hqp]. unfold op_good, run_rb, notify_read, mbind, M_bind, gets. simpl.
  destruct (status_notify_write (ctrl (p_side q))) eqn:Hst;
  (eexists [], _; split; [reflexivity|]; split;
   [destruct Hpq|destruct Hqp]; constructor; simpl; rewrite ?app_nil_r; try done; lia).
Qed.

Lemma run_rb_good p q o : both_inv p q → op_pre (view p q) o → op_good p q o.
Proof.
  intros Hinv Hpre. destruct o;
    auto using write_good, read_good, notify_write_good, notify_read_good;
  destruct Hinv as [Hpq Hqp]; eexists [], _; (split; [reflexivity|]; split;
   [destruct Hpq|destruct Hqp]; constructor; simpl; rewrite ?app_nil_r; done).
Qed.

Lemma fresh_inv n1 b1 n2 b2 : ring n1 b1 → ring n2 b2 → stream_inv (fresh n1 b1) (fresh n2 b2).
Proof. intros H1 H2. destruct H1 as [[? ?] ?]. constructor; simpl; try done; lia. Qed.

Lemma rb_step_inv p q p' q' : both_inv p q → rb_step (p, q) (p', q') → both_inv p' q'.
Proof.
  intros Hinv Hstep. inversion Hstep as [p0 q0 o got rb Hpre Hrun|p0 q0 o got rb Hpre Hrun]; subst.
  - destruct (run_rb_good p q o Hinv Hpre) as (got' & rb' & Hrun' & Hgood).
    rewrite Hrun in Hrun'. by injection Hrun' as <- <-.
  - destruct Hinv as [H1 H2].
    destruct (run_rb_good q p o (conj H2 H1) Hpre) as (got' & rb' & Hrun' & [? ?]).
    rewrite Hrun in Hrun'. injection Hrun' as <- <-. by split.
Qed.

Lemma rb_reachable_inv s : rb_reachable s → both_inv s.1 s.2.
Proof.
  induction 1 as [|[p q] [p' q'] _ IH Hstep]; [by split; apply fresh_inv|].
  by eapply rb_step_inv.
Qed.

(** C11: the ring buffer refines a pair of FIFO byte streams: in every state two peers can
    reach by any interleaving of reads, writes, notifications and flag changes that
    respects the polls, the bytes one peer has read are a prefix of the bytes the other
    has written, in order, none lost and none duplicated; and the polls do not panic and
    return the bytes published and not yet read, and the room left, one byte of the ring
    being kept free. *)
Theorem ring_buffer_fifo p q :
  rb_reachable (p, q) →
  p_recvd q `prefix_of` p_sent p ∧ p_recvd p `prefix_of` p_sent q ∧
  length (p_recvd q) = Z.to_nat (p_r q) ∧ length (p_sent p) = Z.to_nat (p_w p) ∧
  poll_read (view q p) = Ok (offset_w (ctrl (p_side p)) - p_r q) ∧
  poll_write (view p q) = Ok (size (p_side p) - 1 - (p_w p - offset_r (ctrl (p_side q)))).
Proof.
  intros [Hpq Hqp]%rb_reachable_inv. simpl in *.
  rewrite (poll_read_eq p q), (poll_write_eq p q) by done. destruct Hpq, Hqp.
  split_and!; try done; try lia.
  - rewrite si_recvd0. eexists. symmetry. apply take_drop.
  - rewrite si_recvd1. eexists. symmetry. apply take_drop.
  - rewrite si_recvd0, length_take. lia.
Qed.

(** No operation of the ring buffer panics or copies outside the buffers: in every
    reachable state each operation that the polls allow returns. *)
Lemma ring_buffer_no_panic p q o :
  rb_reachable (p, q) → op_pre (view p q) o → ∃ got rb, run_rb o (view p q) = (Ok got, rb).
Proof.
  intros Hinv%rb_reachable_inv Hpre.
  destruct (run_rb_good p q o Hinv Hpre) as (got & rb & Hrun & _). by exists got, rb.
Qed.

(** ** Packets *)

(** What the reader finds at or after its position. *)
Lemma peek_stream p q r n :
  stream_inv p q → p_r q ≤ r → r + Z.of_nat n ≤ offset_w (ctrl (p_side p)) →
  peek n (with_offset_r (view q p) r) = Ok (take n (drop (Z.to_nat r) (p_sent p))).
Proof.
  intros [Hring Hsent Hw64 [Hr Hw] Hroom Hrec Hdata] Hle Hn.
  destruct (peek_spec (with_offset_r (view q p) r) n) as (bs & Hpeek & Hlen & Hbs);
    [done|simpl; lia|].
  rewrite Hpeek. simpl in Hbs. f_equal. apply list_eq. intros i.
  destruct (decide (i < n)%nat) as [Hi|Hi].
  - rewrite Hbs, Hdata, lookup_take_lt, lookup_drop by lia. f_equal. lia.
  - rewrite (lookup_ge_None_2 bs), (lookup_ge_None_2 (take _ _)); [done|rewrite length_take; lia|lia].
Qed.

Definition frame (bs : list Z) : list Z := serialize_header (length bs) ++ bs.

Lemma length_frame bs : length (frame bs) = (4 + length bs)%nat.
Proof. unfold frame, serialize_header. by rewrite length_app. Qed.

Lemma header_roundtrip n : Z.of_nat n < 2 ^ 32 → from_le_bytes (serialize_header n) = Z.of_nat n.
Proof.
  intros Hn. unfold from_le_bytes, serialize_header, word_cast.
  rewrite Z.land_ones, (Z.mod_small _ (2 ^ 32)) by lia. simpl foldr.
  set (v := Z.of_nat n) in *. assert (0 ≤ v) by (subst v; lia). clearbody v.
  change (2 ^ 32) with 4294967296 in Hn.
  rewrite Z.mul_0_r, Z.add_0_r.
  rewrite (Z.mod_small (v / 16777216)) by (split; [apply Z.div_pos|apply Z.div_lt_upper_bound]; lia).
  replace (v / 16777216) with (v / 65536 / 256) by (rewrite Z.div_div by lia; done).
  replace (v / 65536) with (v / 256 / 256) by (rewrite Z.div_div by lia; done).
  pose proof (Z.div_mod v 256 ltac:(lia)). pose proof (Z.div_mod (v / 256) 256 ltac:(lia)).
  pose proof (Z.div_mod (v / 256 / 256) 256 ltac:(lia)). lia.
Qed.

(** Reading a packet.  When what the reader has not yet read begins with the frame of a
    packet, [PacketRingBuffer::read] returns exactly that packet and moves past its
    frame if the whole frame is published; if it is not, it returns [None] and changes
    nothing. *)
Lemma packet_read_spec p q bs rest :
  rb_reachable (p, q) → Z.of_nat (length bs) < 2 ^ 32 →
  drop (Z.to_nat (p_r q)) (p_sent p) = frame bs ++ rest →
  if decide (Z.of_nat (length (frame bs)) ≤ offset_w (ctrl (p_side p)) - p_r q)
  then packet_read (view q p) =
    (Ok (Some bs), with_offset_r (view q p) (p_r q + Z.of_nat (length (frame bs))))
  else packet_read (view q p) = (Ok None, view q p).
Proof.
  intros [Hpq Hqp]%rb_reachable_inv Hlen Hdrop. simpl in Hpq, Hqp.
  pose proof (poll_read_eq p q Hpq) as Hpoll. pose proof (length_frame bs) as Hfl.
  unfold packet_read, mbind, M_bind, reads, packet_poll. rewrite Hpoll. cbn [mbind outcome_bind].
  remember (offset_w _ - p_r q) as avail eqn:Hav.
  change (Z.of_nat HEADER_SIZE) with 4. destruct (Z.ltb_spec avail 4) as [H4|H4].
  { rewrite decide_False by lia. done. }
  pose proof (si_order p q Hpq) as [Hr Hw]. pose proof (si_small p q Hpq).
  assert (peek HEADER_SIZE (view q p) = Ok (serialize_header (length bs))) as ->.
  { change (view q p) with (with_offset_r (view q p) (p_r q)).
    rewrite (peek_stream p q) by (done || unfold HEADER_SIZE; lia). by rewrite Hdrop. }
  cbn [mbind outcome_bind]. rewrite header_roundtrip, (u64_sub_small avail) by lia.
  destruct (Z.gtb_spec (Z.of_nat (length bs)) (avail - 4)) as [Hgt|Hle].
  { rewrite decide_False by lia. done. }
  rewrite decide_True, Hfl, Nat2Z.id by lia.
  unfold packet_read_into, skip, read, HEADER_SIZE, mbind, M_bind, reads, modify, mret, M_ret. cbn -[peek Z.of_nat].
  rewrite (u64_add_small (p_r q)) by lia.
  rewrite (peek_stream p q) by (done || lia). unfold skip, modify. cbn -[Z.of_nat].
  rewrite u64_add_small by lia. f_equal.
  - replace (Z.to_nat (p_r q + Z.of_nat 4)) with (Z.to_nat (p_r q) + 4)%nat by lia.
    rewrite <-drop_drop, Hdrop. do 2 f_equal. unfold frame. rewrite <-app_assoc, drop_app_length'.
    2: done. by rewrite take_app_length.
  - unfold with_offset_r. simpl. f_equal. lia.
Qed.

(** A write that fits, as a step. *)
Lemma write_step p q bs :
  rb_reachable (p, q) →
  Z.of_nat (length bs) ≤ size (p_side p) - 1 - (p_w p - offset_r (ctrl (p_side q))) →
  p_w p + Z.of_nat (length bs) < 2 ^ 64 →
  ∃ rb p', write bs (view p q) = (Ok tt, rb) ∧ rb = view p' q ∧ rb_reachable (p', q) ∧
    p_sent p' = p_sent p ++ bs ∧ p_w p' = p_w p + Z.of_nat (length bs) ∧
    size (p_side p') = size (p_side p) ∧ ctrl (p_side p') = ctrl (p_side p).
Proof.
  intros Hreach Hfit Hsmall. pose proof (rb_reachable_inv _ Hreach) as [Hpq _]. simpl in Hpq.
  pose proof Hpq as [Hring Hsent _ ? ? _ _].
  destruct (ring_store_spec (size (p_side p)) (buf (p_side p)) (p_w p) bs)
    as (b' & Hst & _); [done|lia|].
  set (rb := with_offset_w (with_write (view p q) (with_buf (p_side p) b'))
               (u64_add (p_w p) (Z.of_nat (length bs)))).
  assert (Hrun : write bs (view p q) = (Ok tt, rb)).
  { unfold write, mbind, M_bind, reads. simpl. rewrite Hst. done. }
  exists rb, (peer_after p rb (OpWrite bs) []). split_and!; try done.
  - assert (q = other_after q rb) as Hq by (by destruct q).
    eapply rb_next; [done|]. rewrite Hq at 2. apply rb_step_first.
    + split; [|done]. eexists. split; [by apply poll_write_eq|done].
    + unfold run_rb. by rewrite (bind_eq_ok _ _ _ _ _ Hrun).
  - simpl. apply u64_add_small; lia.
Qed.

Lemma packet_write_run p q bs :
  rb_reachable (p, q) → Z.of_nat (length bs) < 2 ^ 32 →
  p_w p + Z.of_nat (length (frame bs)) < 2 ^ 64 →
  if decide (Z.of_nat (length (frame bs)) ≤ size (p_side p) - 1 - (p_w p - offset_r (ctrl (p_side q))))
  then ∃ p', packet_write bs (view p q) = (Ok true, view p' q) ∧ rb_reachable (p', q) ∧
         p_sent p' = p_sent p ++ frame bs ∧ ctrl (p_side p') = ctrl (p_side p)
  else packet_write bs (view p q) = (Ok false, view p q).
Proof.
  intros Hreach Hlen Hsmall. pose proof (rb_reachable_inv _ Hreach) as [Hpq _]. simpl in Hpq.
  pose proof (length_frame bs) as Hfl. unfold packet_write, packet_size, HEADER_SIZE.
  assert (reads poll_write (view p q) = (Ok (size (p_side p) - 1 -
    (p_w p - offset_r (ctrl (p_side q)))), view p q)) as Hpoll.
  { unfold reads. by rewrite (poll_write_eq p q Hpq). }
  rewrite (bind_eq_ok _ _ _ _ _ Hpoll).
  destruct (Z.ltb_spec (size (p_side p) - 1 - (p_w p - offset_r (ctrl (p_side q))))
    (Z.of_nat (4 + length bs))) as [Hlt|Hge].
  { rewrite decide_False by lia. done. }
  rewrite decide_True by lia.
  destruct (write_step p q (serialize_header (length bs))) as (rb1 & p1 & Hw1 & -> & Hr1 & Hs1 & Ho1 & Hz1 & Hc1);
    [done|simpl; lia|simpl; lia|].
  destruct (write_step p1 q bs) as (rb2 & p2 & Hw2 & -> & Hr2 & Hs2 & Ho2 & Hz2 & Hc2);
    [done|simpl in Ho1; lia|simpl in Ho1; lia|].
  rewrite (bind_eq_ok _ _ _ _ _ Hw1), (bind_eq_ok _ _ _ _ _ Hw2).
  exists p2. split_and!; [done|done| |congruence]. rewrite Hs2, Hs1, <-app_assoc. done.
Qed.

(** Writing a packet.  [PacketRingBuffer::write] returns [true] exactly when the frame
    (a four-byte length and the packet) fits in the room left, and then appends the
    frame, whole, to the stream; otherwise it returns [false] and changes nothing. *)
Lemma packet_write_spec p q bs :
  rb_reachable (p, q) → Z.of_nat (length bs) < 2 ^ 32 →
  p_w p + Z.of_nat (length (frame bs)) < 2 ^ 64 →
  if decide (Z.of_nat (length (frame bs)) ≤ size (p_side p) - 1 - (p_w p - offset_r (ctrl (p_side q))))
  then ∃ p', packet_write bs (view p q) = (Ok true, view p' q) ∧ rb_reachable (p', q) ∧
         p_sent p' = p_sent p ++ frame bs ∧ ctrl (p_side p') = ctrl (p_side p)
  else packet_write bs (view p q) = (Ok false, view p q).
Proof. apply packet_write_run. Qed.

(** ** The request bits are not updated atomically

    [status.modify(..)] loads the register and stores it back.  The owner of a control
    block sets its request bits that way and the other peer clears them that way, so the
    two can interleave.  The state has the two bits of the register, and where the owner is
    in [enable_notify_read] and the other peer in the second half of [notify_read]. *)
Inductive owner_pc := OStart | OLoaded (notify_read notify_write : bool) | ODone.
Inductive peer_pc := PTest | PModify | PLoaded (notify_read notify_write : bool) | PKick | PDone.

Record race := {
  st_notify_read : bool;
  st_notify_write : bool;
  owner : owner_pc;
  peer : peer_pc;
  peer_kicks : list Kicked;
}.

Inductive race_step : race → race → Prop :=
| owner_load r w pe k :
    race_step {| st_notify_read := r; st_notify_write := w; owner := OStart; peer := pe; peer_kicks := k |}
      {| st_notify_read := r; st_notify_write := w; owner := OLoaded r w; peer := pe; peer_kicks := k |}
| owner_store r w r0 w0 pe k :
    race_step {| st_notify_read := r; st_notify_write := w; owner := OLoaded r0 w0; peer := pe; peer_kicks := k |}
      {| st_notify_read := true; st_notify_write := w0; owner := ODone; peer := pe; peer_kicks := k |}
| peer_test r w o k :
    race_step {| st_notify_read := r; st_notify_write := w; owner := o; peer := PTest; peer_kicks := k |}
      {| st_notify_read := r; st_notify_write := w; owner := o; peer := (if w then PModify else PDone); peer_kicks := k |}
| peer_load r w o k :
    race_step {| st_notify_read := r; st_notify_write := w; owner := o; peer := PModify; peer_kicks := k |}
      {| st_notify_read := r; st_notify_write := w; owner := o; peer := PLoaded r w; peer_kicks := k |}
| peer_store r w r0 w0 o k :
    race_step {| st_notify_read := r; st_notify_write := w; owner := o; peer := PLoaded r0 w0; peer_kicks := k |}
      {| st_notify_read := r0; st_notify_write := false; owner := o; peer := PKick; peer_kicks := k |}
| peer_kick r w o k :
    race_step {| st_notify_read := r; st_notify_write := w; owner := o; peer := PKick; peer_kicks := k |}
      {| st_notify_read := r; st_notify_write := w; owner := o; peer := PDone; peer_kicks := k ++ [KickRead] |}.

(** A request to be notified can be lost: there is an interleaving of one peer's
    [enable_notify_read] with the other's [notify_read] after which the first has
    finished, the bit it set is clear, and the other has sent no kick for it. *)
Lemma notify_request_lost :
  ∃ s, rtc race_step {| st_notify_read := false; st_notify_write := true; owner := OStart;
                        peer := PTest; peer_kicks := [] |} s ∧
    owner s = ODone ∧ peer s = PDone ∧ st_notify_read s = false ∧ KickWrite ∉ peer_kicks s.
Proof.
  eexists. split.
  - eapply rtc_l; [apply peer_test|]. eapply rtc_l; [apply peer_load|].
    eapply rtc_l; [apply owner_load|]. eapply rtc_l; [apply owner_store|].
    eapply rtc_l; [apply peer_store|]. eapply rtc_l; [apply peer_kick|]. apply rtc_refl.
  - simpl. split_and!; try done. set_solver.
Qed.

(** ** Examples *)

(** Two rings of eight bytes; the first peer writes three bytes and publishes them, the
    second reads two. *)
Definition demo_ring : list Z := replicate 8 0.

Lemma demo_ring_ok : ring 8 demo_ring.
Proof. split; [lia|reflexivity]. Qed.

Lemma ring_buffer_fifo_witness :
  ∃ p q, rb_reachable (p, q) ∧ p_sent p = [7; 8; 9] ∧ p_recvd q = [7; 8] ∧
    p_recvd q `prefix_of` p_sent p ∧ poll_read (view q p) = Ok 1.
Proof.
  eexists _, _.
  match goal with |- ?A ∧ _ => assert A as H end.
  { eapply rb_next; [eapply rb_next; [eapply rb_next; [apply rb_init; apply demo_ring_ok|]|]|].
    - eapply (rb_step_first _ _ (OpWrite [7; 8; 9])).
      + split; [|reflexivity]. eexists. split; [reflexivity|discriminate].
      + reflexivity.
    - eapply (rb_step_first _ _ OpNotifyWrite); [exact I|reflexivity].
    - eapply (rb_step_second _ _ (OpRead 2)); [|reflexivity].
      eexists. split; [reflexivity|discriminate]. }
  split; [exact H|]. split; [reflexivity|]. split; [reflexivity|].
  destruct (ring_buffer_fifo _ _ H) as (H1 & _ & _ & _ & H2 & _). split; [exact H1|exact H2].
Defined.

