(* ===== verification/BufferedRingBuffer.v ===== *)
(** * BufferedRingBuffer: an unbounded transmit queue in front of a ring buffer

    Model of [framework/base/icecap-ring-buffer/src/buffered_ring_buffer.rs]: the byte
    variant and the packet variant.  Both have the same control flow around the attempt to
    put one buffer into the ring ([try_write], [packet_write]); the attempt is a parameter
    [send] of the transmit half, and the class [Sender] says what it promises. *)

From S2P Require Import Prelude RingBuffer RingBufferSpec.

Local Open Scope Z_scope.

(** ** Data and operations *)

Record BufferedRingBuffer := {
  b_rb : RingBuffer;
  b_q : list (list Z);
}.

Abbreviation BM := (M BufferedRingBuffer Empty_set).

Definition on_rb {A} (m : RM A) : BM A := λ b,
  let '(r, rb) := m (b_rb b) in (r, {| b_rb := rb; b_q := b_q b |}).
Definition set_q (q : list (list Z)) : BM unit := modify (λ b, {| b_rb := b_rb b; b_q := q |}).

Definition buffered_new (rb : RingBuffer) : BufferedRingBuffer := {| b_rb := rb; b_q := [] |}.

(** [if self.rb.poll_write() < buf.len() { fail } else { self.rb.write(buf) }]. *)
Definition try_write (bs : list Z) : RM bool :=
  avail ← reads poll_write;
  if Z.ltb avail (Z.of_nat (length bs)) then mret false else write bs;; mret true.

Section transmit.
Context (send : list Z → RM bool).

(** The loop of [flush_tx] on the queue: whether anything was sent, and what is left. *)
Fixpoint flush_loop (q : list (list Z)) : RM (bool * list (list Z)) :=
  match q with
  | [] => mret (false, [])
  | bs :: q' =>
      sent ← send bs;
      if (sent : bool) then '(_, rest) ← flush_loop q'; mret (true, rest)
      else mret (false, q)
  end.

Definition flush_tx : BM bool :=
  q ← gets b_q;
  '(notify, rest) ← on_rb (flush_loop q);
  set_q rest;; mret notify.

Definition tx_callback : BM bool :=
  notify ← flush_tx;
  (if (notify : bool) then on_rb notify_write else mret tt);;
  mret notify.

Definition tx (bs : list Z) : BM bool :=
  notify ← flush_tx;
  q ← gets b_q;
  notify ←
    match q with
    | [] =>
        sent ← on_rb (send bs);
        if (sent : bool) then mret true else set_q (q ++ [bs]);; mret notify
    | _ => set_q (q ++ [bs]);; mret notify
    end;
  (if (notify : bool) then on_rb notify_write else mret tt);;
  mret notify.
End transmit.

(** [BufferedRingBuffer::rx_into] into a buffer of [n] bytes, and [rx]. *)
Definition rx_into (n : nat) : BM (list Z) :=
  avail ← on_rb (reads poll_read);
  let n_real := Z.to_nat (Z.min (Z.of_nat n) avail) in
  if (0 <? n_real)%nat then bs ← on_rb (read n_real); on_rb notify_read;; mret bs
  else mret [].

Definition rx : BM (option (list Z)) :=
  n ← on_rb (reads poll_read);
  if Z.gtb n 0 then bs ← on_rb (read (Z.to_nat n)); on_rb notify_read;; mret (Some bs)
  else mret None.

(** [BufferedPacketRingBuffer::rx]. *)
Definition packet_rx : BM (option (list Z)) :=
  r ← on_rb packet_read;
  match r with
  | Some bs => on_rb notify_read;; mret (Some bs)
  | None => mret None
  end.

(** ** What an attempt to send promises *)

(** [enc bs] is what a successful attempt appends to the stream. *)
Class Sender (send : list Z → RM bool) (enc : list Z → list Z) (ok : list Z → Prop) : Prop :=
  send_spec p q bs :
    rb_reachable (p, q) → ok bs → p_w p + Z.of_nat (length (enc bs)) < 2 ^ 64 →
    send bs (view p q) = (Ok false, view p q) ∨
    ∃ p', send bs (view p q) = (Ok true, view p' q) ∧ rb_reachable (p', q) ∧
      p_sent p' = p_sent p ++ enc bs ∧ ctrl (p_side p') = ctrl (p_side p).

Lemma p_w_sent p q : rb_reachable (p, q) → p_w p = Z.of_nat (length (p_sent p)).
Proof. intros [Hpq _]%rb_reachable_inv. apply (si_sent _ _ Hpq). Qed.

#[global] Instance try_write_sender : Sender try_write (λ bs, bs) (λ _, True).
Proof.
  intros p q bs Hreach _ Hsmall. unfold try_write.
  pose proof (rb_reachable_inv _ Hreach) as [Hpq _]. simpl in Hpq.
  erewrite bind_eq_ok by (unfold reads; by rewrite (poll_write_eq p q Hpq)).
  destruct (Z.ltb_spec (size (p_side p) - 1 - (p_w p - offset_r (ctrl (p_side q))))
    (Z.of_nat (length bs))) as [Hlt|Hge]; [by left|right].
  destruct (write_step p q bs) as (rb & p' & Hw & -> & Hr & Hs & _ & _ & Hc); [done|lia|done|].
  exists p'. by rewrite (bind_eq_ok _ _ _ _ _ Hw).
Qed.

#[global] Instance packet_write_sender :
  Sender packet_write frame (λ bs, Z.of_nat (length bs) < 2 ^ 32).
Proof.
  intros p q bs Hreach Hok Hsmall. pose proof (packet_write_run p q bs Hreach Hok Hsmall) as H.
  case_decide; [right|left]; done.
Qed.

(** ** Transmission keeps the order of the buffers *)

(** What the peer will have received once ring and queue are drained. *)
Definition pending_stream (enc : list Z → list Z) (p : Peer) (qs : list (list Z)) : list Z :=
  p_sent p ++ concat (enc <$> qs).

Lemma notify_write_step p q :
  rb_reachable (p, q) →
  ∃ p' q', notify_write (view p q) = (Ok tt, view p' q') ∧ rb_reachable (p', q') ∧
    p_sent p' = p_sent p ∧ offset_w (ctrl (p_side p')) = p_w p' ∧ p_r q' = p_r q ∧
    p_recvd q' = p_recvd q.
Proof.
  intros Hreach. pose proof (rb_reachable_inv _ Hreach) as Hinv.
  destruct (notify_write_good p q Hinv) as (got & rb & Hrun & _).
  destruct (notify_write (view p q)) as [[[]|e|] rb'] eqn:Hn;
    unfold run_rb, mbind, M_bind in Hrun; rewrite Hn in Hrun; [|done..].
  injection Hrun as <- ->.
  exists (peer_after p rb OpNotifyWrite []), (other_after q rb). split_and!; try done.
  - do 2 f_equal. unfold notify_write, mbind, M_bind, gets in Hn. simpl in Hn.
    by destruct (status_notify_read _); injection Hn as <-.
  - eapply rb_next; [done|]. apply rb_step_first; [done|].
    unfold run_rb, mbind, M_bind. by rewrite Hn.
  - simpl. by rewrite app_nil_r.
  - unfold notify_write, mbind, M_bind, gets in Hn. simpl in Hn.
    by destruct (status_notify_read _); injection Hn as <-.
Qed.

Lemma on_rb_eq {A} (m : RM A) rb q r rb' :
  m rb = (r, rb') → on_rb m {| b_rb := rb; b_q := q |} = (r, {| b_rb := rb'; b_q := q |}).
Proof. unfold on_rb. simpl. by intros ->. Qed.

Lemma length_concat_cons (enc : list Z → list Z) bs qs :
  length (concat (enc <$> bs :: qs)) = (length (enc bs) + length (concat (enc <$> qs)))%nat.
Proof. rewrite fmap_cons. simpl. apply length_app. Qed.

Section transmit_spec.
Context `{!Sender send enc ok}.

Lemma flush_loop_spec p q qs :
  rb_reachable (p, q) → Forall ok qs → p_w p + Z.of_nat (length (concat (enc <$> qs))) < 2 ^ 64 →
  ∃ notify qs' p', flush_loop send qs (view p q) = (Ok (notify, qs'), view p' q) ∧
    rb_reachable (p', q) ∧ pending_stream enc p' qs' = pending_stream enc p qs ∧
    Forall ok qs' ∧ ctrl (p_side p') = ctrl (p_side p) ∧
    (notify = false → p' = p ∧ qs' = qs).
Proof.
  revert p. induction qs as [|bs qs IH]; intros p Hreach Hok Hsmall; simpl flush_loop.
  { by exists false, [], p. }
  rewrite length_concat_cons in Hsmall. apply Forall_cons in Hok as [Hbs Hok].
  destruct (send_spec p q bs Hreach Hbs) as [Hno|(p1 & Hyes & Hr1 & Hs1 & Hc1)]; [lia| |].
  { rewrite (bind_eq_ok _ _ _ _ _ Hno). exists false, (bs :: qs), p. split_and!; try done. by constructor. }
  rewrite (bind_eq_ok _ _ _ _ _ Hyes).
  assert (p_w p1 = p_w p + Z.of_nat (length (enc bs))) as Hw.
  { rewrite (p_w_sent _ _ Hr1), (p_w_sent _ _ Hreach), Hs1, length_app. lia. }
  destruct (IH p1) as (n' & qs' & p2 & Hrun & Hr2 & Hst & Hok' & Hc2 & _); [done|done|lia|].
  rewrite (bind_eq_ok _ _ _ _ _ Hrun). exists true, qs', p2. split_and!; try done.
  - rewrite Hst. unfold pending_stream. rewrite Hs1, fmap_cons. simpl. by rewrite <-app_assoc.
  - congruence.
Qed.

Lemma flush_tx_spec p q qs :
  rb_reachable (p, q) → Forall ok qs → p_w p + Z.of_nat (length (concat (enc <$> qs))) < 2 ^ 64 →
  ∃ notify qs' p', flush_tx send {| b_rb := view p q; b_q := qs |} =
      (Ok notify, {| b_rb := view p' q; b_q := qs' |}) ∧
    rb_reachable (p', q) ∧ pending_stream enc p' qs' = pending_stream enc p qs ∧
    Forall ok qs' ∧ (notify = false → ctrl (p_side p') = ctrl (p_side p) ∧ p_w p' = p_w p).
Proof.
  intros Hreach Hok Hsmall.
  destruct (flush_loop_spec p q qs) as (notify & qs' & p' & Hrun & Hr & Hst & Hok' & Hc & Hno); [done..|].
  exists notify, qs', p'. unfold flush_tx. erewrite bind_eq_ok by reflexivity.
  erewrite bind_eq_ok by (apply on_rb_eq; exact Hrun). split_and!; try done.
  intros Hn. split; [done|]. by destruct (Hno Hn) as [-> _].
Qed.

(** The last part of [tx] and [tx_callback]. *)
Lemma finish_spec (notify : bool) p q qs :
  rb_reachable (p, q) →
  ∃ p' q', ((if notify then on_rb notify_write else mret tt) ≫= λ _, mret notify)
      {| b_rb := view p q; b_q := qs |} = (Ok notify, {| b_rb := view p' q'; b_q := qs |}) ∧
    rb_reachable (p', q') ∧ p_sent p' = p_sent p ∧ p_recvd q' = p_recvd q ∧
    (notify = true → offset_w (ctrl (p_side p')) = p_w p') ∧ (notify = false → p' = p).
Proof.
  intros Hreach. destruct notify.
  - destruct (notify_write_step p q Hreach) as (p' & q' & Hrun & Hr & Hs & Ho & _ & Hrc).
    exists p', q'. erewrite bind_eq_ok by (apply on_rb_eq; exact Hrun). done.
  - by exists p, q.
Qed.

(** Transmission of [bs]: the stream the peer will receive grows by exactly [enc bs], at
    its end, and what was put in the ring is published. *)
Lemma tx_spec p q qs bs :
  rb_reachable (p, q) → Forall ok (qs ++ [bs]) →
  p_w p + Z.of_nat (length (concat (enc <$> qs ++ [bs]))) < 2 ^ 64 →
  ∃ notify p' q' qs', tx send bs {| b_rb := view p q; b_q := qs |} =
      (Ok notify, {| b_rb := view p' q'; b_q := qs' |}) ∧
    rb_reachable (p', q') ∧ p_recvd q' = p_recvd q ∧
    pending_stream enc p' qs' = pending_stream enc p qs ++ enc bs ∧
    (notify = true → offset_w (ctrl (p_side p')) = p_w p').
Proof.
  intros Hreach Hok Hsmall. apply Forall_app in Hok as [Hok Hbs]. apply Forall_cons in Hbs as [Hbs _].
  rewrite fmap_app, concat_app, length_app in Hsmall. simpl in Hsmall. rewrite app_nil_r in Hsmall.
  destruct (flush_tx_spec p q qs) as (notify & qs1 & p1 & Hrun & Hr1 & Hst & Hok1 & _); [done|done|lia|].
  assert (Hpush : ∃ n p' q' qs',
    ((set_q (qs1 ++ [bs]) ≫= λ _, mret notify) ≫= λ n,
       (if (n : bool) then on_rb notify_write else mret tt) ≫= λ _, mret n)
      {| b_rb := view p1 q; b_q := qs1 |} = (Ok n, {| b_rb := view p' q'; b_q := qs' |}) ∧
    rb_reachable (p', q') ∧ p_recvd q' = p_recvd q ∧
    pending_stream enc p' qs' = pending_stream enc p qs ++ enc bs ∧
    (n = true → offset_w (ctrl (p_side p')) = p_w p')).
  { destruct (finish_spec notify p1 q (qs1 ++ [bs]) Hr1) as (p' & q' & Hf & Hr & Hs & Hrc & Ho & _).
    exists notify, p', q', (qs1 ++ [bs]). erewrite bind_eq_ok by reflexivity.
    split_and!; try done. rewrite <-Hst. unfold pending_stream.
    rewrite Hs, fmap_app, concat_app. simpl. by rewrite app_nil_r, app_assoc. }
  unfold tx. rewrite (bind_eq_ok _ _ _ _ _ Hrun). erewrite bind_eq_ok by reflexivity. simpl b_q.
  destruct qs1 as [|b1 qs1]; [|exact Hpush].
  destruct (send_spec p1 q bs Hr1 Hbs) as [Hno|(p2 & Hyes & Hr2 & Hs2 & _)].
  { assert (Z.of_nat (length (p_sent p1)) ≤ Z.of_nat (length (pending_stream enc p qs))).
    { rewrite <-Hst. unfold pending_stream. rewrite length_app. lia. }
    rewrite (p_w_sent _ _ Hr1). unfold pending_stream in *. rewrite length_app in *.
    rewrite (p_w_sent _ _ Hreach) in Hsmall. lia. }
  - unfold mbind at 1, M_bind at 1. unfold mbind at 1, M_bind at 1.
    rewrite (on_rb_eq _ _ _ _ _ Hno). exact Hpush.
  - unfold mbind at 1, M_bind at 1. unfold mbind at 1, M_bind at 1.
    rewrite (on_rb_eq _ _ _ _ _ Hyes).
    destruct (finish_spec true p2 q [] Hr2) as (p' & q' & Hf & Hr & Hs & Hrc & Ho & _).
    exists true, p', q', []. split_and!; try done.
    rewrite <-Hst. unfold pending_stream. simpl. by rewrite !app_nil_r, Hs.
Qed.
End transmit_spec.

(** Transmission through a buffered ring buffer, bytes or packets, keeps the order and
    loses nothing: a call of [tx] on a buffer appends exactly that buffer (its frame, for
    packets) to what the peer will have received once the ring and the queue are drained,
    whether it goes into the ring or the queue; and if the call reports that something was
    sent, everything written to the ring is published. *)
Lemma buffered_tx_in_order :
  (∀ p q qs bs, rb_reachable (p, q) →
     p_w p + Z.of_nat (length (concat (qs ++ [bs]))) < 2 ^ 64 →
     ∃ notify p' q' qs', tx try_write bs {| b_rb := view p q; b_q := qs |} =
         (Ok notify, {| b_rb := view p' q'; b_q := qs' |}) ∧ rb_reachable (p', q') ∧
       p_sent p' ++ concat qs' = p_sent p ++ concat qs ++ bs ∧
       (notify = true → offset_w (ctrl (p_side p')) = p_w p')) ∧
  (∀ p q qs bs, rb_reachable (p, q) → Forall (λ bs, Z.of_nat (length bs) < 2 ^ 32) (qs ++ [bs]) →
     p_w p + Z.of_nat (length (concat (frame <$> qs ++ [bs]))) < 2 ^ 64 →
     ∃ notify p' q' qs', tx packet_write bs {| b_rb := view p q; b_q := qs |} =
         (Ok notify, {| b_rb := view p' q'; b_q := qs' |}) ∧ rb_reachable (p', q') ∧
       p_sent p' ++ concat (frame <$> qs') = p_sent p ++ concat (frame <$> qs) ++ frame bs ∧
       (notify = true → offset_w (ctrl (p_side p')) = p_w p')).
Proof.
  split.
  - intros p q qs bs Hreach Hsmall.
    destruct (tx_spec (send := try_write) p q qs bs) as (n & p' & q' & qs' & Hrun & Hr & _ & Hst & Ho);
      [done|by apply Forall_true|by rewrite list_fmap_id|].
    exists n, p', q', qs'. split_and!; try done. unfold pending_stream in Hst.
    rewrite !list_fmap_id, <-app_assoc in Hst. done.
  - intros p q qs bs Hreach Hok Hsmall.
    destruct (tx_spec (send := packet_write) p q qs bs) as (n & p' & q' & qs' & Hrun & Hr & _ & Hst & Ho);
      [done..|].
    exists n, p', q', qs'. split_and!; try done. unfold pending_stream in Hst.
    rewrite <-app_assoc in Hst. done.
Qed.

Lemma notify_read_step p q :
  rb_reachable (p, q) →
  ∃ p' q', notify_read (view p q) = (Ok tt, view p' q') ∧ rb_reachable (p', q') ∧
    p_recvd p' = p_recvd p ∧ offset_r (ctrl (p_side p')) = p_r p' ∧ p_sent q' = p_sent q ∧
    offset_w (ctrl (p_side q')) = offset_w (ctrl (p_side q)).
Proof.
  intros Hreach. pose proof (rb_reachable_inv _ Hreach) as Hinv.
  destruct (notify_read_good p q Hinv) as (got & rb & Hrun & _).
  destruct (notify_read (view p q)) as [[[]|e|] rb'] eqn:Hn;
    unfold run_rb, mbind, M_bind in Hrun; rewrite Hn in Hrun; [|done..].
  injection Hrun as <- ->.
  exists (peer_after p rb OpNotifyRead []), (other_after q rb). split_and!; try done.
  - do 2 f_equal. unfold notify_read, mbind, M_bind, gets in Hn. simpl in Hn.
    by destruct (status_notify_write _); injection Hn as <-.
  - eapply rb_next; [done|]. apply rb_step_first; [done|].
    unfold run_rb, mbind, M_bind. by rewrite Hn.
  - simpl. by rewrite app_nil_r.
  - unfold notify_read, mbind, M_bind, gets in Hn. simpl in Hn.
    by destruct (status_notify_write _); injection Hn as <-.
  - unfold notify_read, mbind, M_bind, gets in Hn. simpl in Hn.
    by destruct (status_notify_write _); injection Hn as <-.
Qed.

Lemma read_step p q n :
  rb_reachable (p, q) → Z.of_nat n ≤ offset_w (ctrl (p_side q)) - p_r p →
  ∃ bs p', read n (view p q) = (Ok bs, view p' q) ∧ rb_reachable (p', q) ∧
    length bs = n ∧ p_recvd p' = p_recvd p ++ bs.
Proof.
  intros Hreach Hn. pose proof (rb_reachable_inv _ Hreach) as [Hpq Hqp]. simpl in Hpq, Hqp.
  pose proof (peek_stream q p (p_r p) n Hqp) as Hpeek.
  change (with_offset_r (view p q) (p_r p)) with (view p q) in Hpeek.
  pose proof (si_order _ _ Hqp). pose proof (si_sent _ _ Hqp).
  set (bs := take n _) in Hpeek.
  set (rb := with_offset_r (view p q) (u64_add (p_r p) (Z.of_nat n))).
  assert (Hrun : read n (view p q) = (Ok bs, rb)).
  { unfold read. erewrite bind_eq_ok by (unfold reads; rewrite Hpeek by lia; done). done. }
  exists bs, (peer_after p rb (OpRead n) bs). split_and!; try done.
  - assert (q = other_after q rb) as Hq by (by destruct q).
    eapply rb_next; [done|]. rewrite Hq at 2. apply rb_step_first; [|done].
    eexists. split; [by apply poll_read_eq|done].
  - subst bs. rewrite length_take, length_drop. lia.
Qed.

(** [rx] returns everything the peer has published and this side has not yet read, or
    [None] when there is nothing; the bytes are the next ones of the stream, and the room
    they took is given back to the peer. *)
Lemma buffered_rx_spec p q qs :
  rb_reachable (p, q) →
  if decide (offset_w (ctrl (p_side q)) = p_r p)
  then rx {| b_rb := view p q; b_q := qs |} = (Ok None, {| b_rb := view p q; b_q := qs |})
  else ∃ bs p' q', rx {| b_rb := view p q; b_q := qs |} =
         (Ok (Some bs), {| b_rb := view p' q'; b_q := qs |}) ∧ rb_reachable (p', q') ∧
       Z.of_nat (length bs) = offset_w (ctrl (p_side q)) - p_r p ∧
       p_recvd p' = p_recvd p ++ bs ∧ p_recvd p' `prefix_of` p_sent q' ∧
       offset_r (ctrl (p_side p')) = p_r p'.
Proof.
  intros Hreach. pose proof (rb_reachable_inv _ Hreach) as [_ Hqp]. simpl in Hqp.
  unfold rx. erewrite bind_eq_ok by (apply on_rb_eq; unfold reads; by rewrite (poll_read_eq q p Hqp)).
  pose proof (si_order _ _ Hqp).
  destruct (Z.gtb_spec (offset_w (ctrl (p_side q)) - p_r p) 0) as [Hgt|Hle].
  2: { rewrite decide_True by lia. done. }
  rewrite decide_False by lia.
  destruct (read_step p q (Z.to_nat (offset_w (ctrl (p_side q)) - p_r p)) Hreach)
    as (bs & p1 & Hrun & Hr1 & Hlen & Hrec); [lia|].
  erewrite bind_eq_ok by (apply on_rb_eq; exact Hrun).
  destruct (notify_read_step p1 q Hr1) as (p' & q' & Hn & Hr & Hrec' & Ho & Hs & _).
  erewrite bind_eq_ok by (apply on_rb_eq; exact Hn).
  exists bs, p', q'. split_and!; try done; [lia|by rewrite Hrec'|].
  destruct (rb_reachable_inv _ Hr) as [_ Hqp']. simpl in Hqp'.
  rewrite (si_recvd _ _ Hqp'). eexists. symmetry. apply take_drop.
Qed.

