(* ===== verification/Runtime.v ===== *)
(** * Runtime: what components print with, log with and allocate from

    Models of [framework/base/icecap-std/src/fmt.rs] (the printing of a component),
    [framework/base/icecap-logger] (its log) and [framework/base/icecap-dlmalloc] (where the
    heap gets its memory).  A component's output goes to one printer, behind a lock: the
    debug console of the kernel, a buffered ring buffer ([BufferedRingBuffer]), or nowhere.

    Printing to a ring buffer keeps the order and loses nothing ([print_to_ring]); flushing it does
    not publish what it moves ([flush_publishes_nothing]).  The blocks that the heap gets are
    disjoint and inside the heap ([heap_blocks]); a request that fails takes the rest of the heap
    with it ([heap_spent]). *)

From stdpp Require Import strings.
From S2P Require Import Prelude.
From S2P Require Import Bytes.
From S2P Require Import RingBuffer.
From S2P Require Import RingBufferSpec.
From S2P Require Import BufferedRingBuffer.

(** ** Printing *)
Module printing.

(** The implementations of the trait [Print]. *)
Inductive Print :=
| NullPrint
| DebugPrint
| BufferedRingBufferPrint (ring_buffer : BufferedRingBuffer).

(** [GLOBAL_PRINT], and what was written to the debug console. *)
Record Console := { global_print : option Print; debug_out : list Z }.
Abbreviation PM := (M (Print * list Z) Empty_set).
Abbreviation CM := (M Console Empty_set).

Definition DEFAULT_PRINT : Print := DebugPrint.

(** [debug_put_char] for every byte of a string. *)
Fixpoint debug_put_chars (s : list Z) (out : list Z) : list Z :=
  match s with [] => out | c :: s' => debug_put_chars s' (out ++ [c]) end.

Definition write_str (s : list Z) : PM unit := λ st,
  match st.1 with
  | NullPrint => (Ok tt, st)
  | DebugPrint => (Ok tt, (DebugPrint, debug_put_chars s st.2))
  | BufferedRingBufferPrint rb =>
    let '(o, rb') := tx try_write s rb in ((_ ← o; Ok tt), (BufferedRingBufferPrint rb', st.2))
  end.
Definition print_flush : PM unit := λ st,
  match st.1 with
  | BufferedRingBufferPrint rb =>
    let '(o, rb') := flush_tx try_write rb in ((_ ← o; Ok tt), (BufferedRingBufferPrint rb', st.2))
  | _ => (Ok tt, st)
  end.

(** An operation of the global printer, or of the default one, which has no state. *)
Definition with_print (m : PM unit) : CM unit := λ c,
  let '(o, st) := m (default DEFAULT_PRINT (global_print c), debug_out c) in
  (o, {| global_print := match global_print c with Some _ => Some st.1 | None => None end; debug_out := st.2 |}).

Definition set_print (p : Print) : CM unit := modify (λ c, {| global_print := Some p; debug_out := debug_out c |}).
Definition set_print_null : CM unit := set_print NullPrint.
Definition set_print_debug : CM unit := set_print DebugPrint.
Definition flush_print : CM unit := with_print print_flush.

(** [_print]: [fmt::write] writes the pieces of its arguments one after the other. *)
Definition print (pieces : list (list Z)) : CM unit := with_print (for_each write_str pieces).
(** [println!]: the arguments and the end of the line are printed one after the other. *)
Definition println (pieces : list (list Z)) : CM unit :=
  match pieces with [] => print [[10%Z]] | _ => print pieces ;; print [[10%Z]] end.

(** *** What is printed *)
Lemma debug_put_chars_eq s out : debug_put_chars s out = out ++ s.
Proof.
  revert out. induction s as [|c s IH]; intros out; simpl; [by rewrite app_nil_r|]. rewrite IH. by rewrite <-app_assoc.
Qed.

Lemma write_pieces_debug pieces out :
  for_each write_str pieces (DebugPrint, out) = (Ok tt, (DebugPrint, out ++ concat pieces)).
Proof.
  revert out. induction pieces as [|s pieces IH]; intros out; simpl; [by rewrite app_nil_r|].
  erewrite bind_eq_ok by done. rewrite IH, debug_put_chars_eq. by rewrite <-app_assoc.
Qed.

(** Without a printer, and with that of the console, the text goes to the console. *)
Lemma print_to_console pieces c : global_print c = None ∨ global_print c = Some DebugPrint →
  print pieces c = (Ok tt, {| global_print := global_print c; debug_out := debug_out c ++ concat pieces |}).
Proof.
  unfold print, with_print. intros [Hp|Hp]; rewrite Hp; simpl; by rewrite write_pieces_debug.
Qed.
Lemma print_to_nothing pieces c : global_print c = Some NullPrint → print pieces c = (Ok tt, c).
Proof.
  intros Hp. unfold print, with_print. rewrite Hp. simpl.
  assert (∀ out, for_each write_str pieces (NullPrint, out) = (Ok tt, (NullPrint, out))) as ->.
  { induction pieces as [|s pieces IH]; intros out; simpl; [done|]. erewrite bind_eq_ok by done. apply IH. }
  destruct c; simpl in *. by rewrite Hp.
Qed.

(** A console that prints to a ring buffer, of which [p] is this side and [q] the other. *)
Definition ring_print (p q : Peer) (qs : list (list Z)) : Print :=
  BufferedRingBufferPrint {| b_rb := view p q; b_q := qs |}.

Lemma write_pieces_ring pieces p q qs out :
  rb_reachable (p, q) → (p_w p + Z.of_nat (length (concat (qs ++ pieces))) < 2 ^ 64)%Z →
  ∃ p' q' qs', for_each write_str pieces (ring_print p q qs, out) = (Ok tt, (ring_print p' q' qs', out)) ∧
    rb_reachable (p', q') ∧ p_recvd q' = p_recvd q ∧ p_sent p' ++ concat qs' = p_sent p ++ concat qs ++ concat pieces.
Proof.
  revert p q qs. induction pieces as [|s pieces IH]; intros p q qs Hr Hs.
  { exists p, q, qs. split_and!; [done..|]. by rewrite app_nil_r. }
  rewrite cons_middle, app_assoc, concat_app, length_app in Hs.
  destruct (tx_spec (send := try_write) p q qs s) as (n & p1 & q1 & qs1 & Hrun & Hr1 & Hrc & Hst & _);
    [done|by apply Forall_true|rewrite list_fmap_id; lia|].
  unfold pending_stream in Hst. rewrite !list_fmap_id in Hst.
  assert (length (p_sent p1) + length (concat qs1) = length (p_sent p) + length (concat qs) + length s) as Hlen.
  { apply (f_equal length) in Hst. rewrite !length_app in Hst. done. }
  destruct (IH p1 q1 qs1) as (p2 & q2 & qs2 & Hrun2 & Hr2 & Hrc2 & Hst2).
  { done. }
  { rewrite concat_app, length_app in Hs |- *. simpl in Hs. rewrite app_nil_r in Hs.
    rewrite (p_w_sent _ _ Hr1). rewrite (p_w_sent _ _ Hr) in Hs. lia. }
  exists p2, q2, qs2. split_and!; [|done|congruence|].
  - cbn [for_each]. rewrite (bind_eq_ok _ _ _ tt (ring_print p1 q1 qs1, out)); [done|].
    unfold write_str, ring_print. cbn [fst]. by rewrite Hrun.
  - rewrite Hst2. simpl. rewrite !app_assoc. f_equal. by rewrite Hst.
Qed.

(** Printing to a ring buffer appends the pieces, in order, to what the other side will have received
    once ring and queue are drained; nothing of it panics or waits. *)
Lemma print_to_ring pieces c p q qs :
  global_print c = Some (ring_print p q qs) → rb_reachable (p, q) →
  (p_w p + Z.of_nat (length (concat (qs ++ pieces))) < 2 ^ 64)%Z →
  ∃ p' q' qs', print pieces c = (Ok tt, {| global_print := Some (ring_print p' q' qs'); debug_out := debug_out c |}) ∧
    rb_reachable (p', q') ∧ p_recvd q' = p_recvd q ∧ p_sent p' ++ concat qs' = p_sent p ++ concat qs ++ concat pieces.
Proof.
  intros Hp Hr Hs. destruct (write_pieces_ring pieces p q qs (debug_out c) Hr Hs) as (p' & q' & qs' & Hrun & Hrest).
  exists p', q', qs'. split; [|done]. unfold print, with_print. rewrite Hp. simpl. by rewrite Hrun.
Qed.

(** [flush_print] moves what is queued to the ring, as far as there is room, but does not tell the
    other side: the offsets and flags that it sees are unchanged, whatever was moved. *)
Lemma flush_publishes_nothing c p q qs :
  global_print c = Some (ring_print p q qs) → rb_reachable (p, q) →
  (p_w p + Z.of_nat (length (concat qs)) < 2 ^ 64)%Z →
  ∃ p' qs', flush_print c = (Ok tt, {| global_print := Some (ring_print p' q qs'); debug_out := debug_out c |}) ∧
    rb_reachable (p', q) ∧ p_sent p' ++ concat qs' = p_sent p ++ concat qs ∧ ctrl (p_side p') = ctrl (p_side p).
Proof.
  intros Hp Hr Hs.
  destruct (flush_loop_spec (send := try_write) p q qs) as (n & qs' & p' & Hrun & Hr' & Hst & _ & Hc & _);
    [done|by apply Forall_true|by rewrite list_fmap_id|].
  exists p', qs'. unfold pending_stream in Hst. rewrite !list_fmap_id in Hst. split_and!; [|done..].
  unfold flush_print, with_print. rewrite Hp. unfold print_flush, ring_print. simpl. unfold flush_tx.
  erewrite bind_eq_ok by reflexivity. erewrite bind_eq_ok by (apply on_rb_eq; exact Hrun). done.
Qed.
End printing.

(** ** The log *)
Module logging.

(** [log::Level], in the order of the crate. *)
Inductive Level := Error | Warn | Info | Debug | Trace.
Definition level_number (l : Level) : nat :=
  match l with Error => 1 | Warn => 2 | Info => 3 | Debug => 4 | Trace => 5 end.
Definition level_to_string (l : Level) : list Z :=
  bytes_of_string match l with Error => "ERROR" | Warn => "WARN" | Info => "INFO" | Debug => "DEBUG" | Trace => "TRACE" end.

Inductive DisplayMode := Module_ | Line.
Definition display_mode_default : DisplayMode := Module_.

(** [Logger]: [write] and [flush] are operations on the state [W] of where the log goes. *)
Record Logger (W : Type) := {
  level : Level;
  display_mode : DisplayMode;
  write : list Z → W → W;
  flush : W → W;
}.
Arguments level {W} _.
Arguments display_mode {W} _.
Arguments write {W} _ _ _.
Arguments flush {W} _ _.

Definition logger_default {W} : Logger W :=
  {| level := Info; display_mode := display_mode_default; write _ w := w; flush w := w |}.

(** [log::Record]. *)
Record Record_ := {
  r_level : Level;
  target : list Z;
  module_path : option (list Z);
  r_file : option (list Z);
  file_static : option (list Z);
  r_line : option Z;
  args : list Z;
}.

Definition enabled {W} (self : Logger W) (l : Level) : bool := level_number l <=? level_number (level self).

(** [{:<5}]. *)
Definition pad_right (n : nat) (s : list Z) : list Z := s ++ replicate (n - length s) 32%Z.

Definition target_of (record : Record_) : list Z :=
  if 0 <? length (target record) then target record else default [] (module_path record).
Definition format_record (mode : DisplayMode) (record : Record_) : list Z :=
  let level_string := pad_right 5 (level_to_string (r_level record)) in
  let question := bytes_of_string "?" in
  match mode with
  | Module_ => level_string ++ bytes_of_string " [" ++ target_of record ++ bytes_of_string "] " ++ args record
  | Line =>
    let file := default question match r_file record with Some f => Some f | None => file_static record end in
    let line := default question (decimal <$> r_line record) in
    level_string ++ bytes_of_string " [" ++ file ++ bytes_of_string ":" ++ line ++ bytes_of_string "] " ++ args record
  end.

Definition log {W} (self : Logger W) (record : Record_) (w : W) : W :=
  if enabled self (r_level record) then write self (format_record (display_mode self) record) w else w.
Definition log_flush {W} (self : Logger W) (w : W) : W := flush self w.

(** A logger that collects lines: exactly the records that are severe enough are written, a line each, in order. *)
Definition collector (l : Level) (mode : DisplayMode) : Logger (list (list Z)) :=
  {| level := l; display_mode := mode; write s w := w ++ [s]; flush w := w |}.
Lemma log_lines l mode records w :
  foldl (λ w r, log (collector l mode) r w) w records =
    w ++ (format_record mode <$> filter (λ r, level_number (r_level r) ≤ level_number l) records).
Proof.
  revert w. induction records as [|r records IH]; intros w; simpl; [by rewrite app_nil_r|]. rewrite IH.
  unfold log at 1, enabled. simpl. rewrite filter_cons. destruct (Nat.leb_spec (level_number (r_level r)) (level_number l)).
  - rewrite decide_True by done. rewrite fmap_cons. by rewrite <-app_assoc.
  - by rewrite decide_False by lia.
Qed.
(** The column of the level has the same width in every line. *)
Lemma level_column l : length (pad_right 5 (level_to_string l)) = 5.
Proof. by destruct l. Qed.
(** Lines of records with different levels differ. *)
Lemma format_record_level mode r r' : format_record mode r = format_record mode r' → r_level r = r_level r'.
Proof.
  intros Heq. apply (f_equal (take 5)) in Heq. revert Heq. unfold format_record.
  destruct mode; rewrite !take_app_le by (rewrite level_column; lia); by destruct (r_level r), (r_level r').
Qed.
End logging.

(** ** The heap *)
Module heap.
Local Open Scope Z_scope.

(** [icecap_runtime_heap_start] and [icecap_runtime_heap_end]. *)
Record Heap := { heap_start : Z; heap_end : Z }.

(** [IceCapSystemAllocator::alloc]: the address, the size and the flags of a block. *)
Definition alloc (size : Z) : M Heap Empty_set (Z * Z * Z) :=
  addr ← gets heap_start;
  modify (λ h, {| heap_start := u64_add (heap_start h) size; heap_end := heap_end h |}) ;;
  h ← gets (λ h, h);
  if heap_end h <? heap_start h then mret (0, 0, 0) else mret (addr, size, 0).
Definition remap (ptr oldsize newsize : Z) (can_move : bool) : Z := 0.
Definition free_part (ptr oldsize newsize : Z) : bool := false.
Definition free (ptr size : Z) : bool := false.
Definition can_release_part (flags : Z) : bool := false.
Definition allocates_zeros : bool := true.
Definition page_size : Z := 4096.

(** The blocks that a sequence of requests gets. *)
Fixpoint blocks (sizes : list Z) (h : Heap) : list (Z * Z) :=
  match sizes with
  | [] => []
  | size :: rest =>
    let '(o, h') := alloc size h in
    match o with
    | Ok (addr, n, _) => if addr =? 0 then blocks rest h' else (addr, n) :: blocks rest h'
    | _ => []
    end
  end.

Definition sizes_ok (sizes : list Z) (h : Heap) : Prop :=
  Forall (λ n, 0 ≤ n) sizes ∧ heap_start h + foldr Z.add 0 sizes < 2 ^ 64.
Definition heap_ok (h : Heap) : Prop := 0 < heap_start h.

Lemma alloc_eq size h : heap_ok h → 0 ≤ size → heap_start h + size < 2 ^ 64 →
  alloc size h = (Ok (if heap_end h <? heap_start h + size then (0, 0, 0) else (heap_start h, size, 0)),
                  {| heap_start := heap_start h + size; heap_end := heap_end h |}).
Proof.
  unfold heap_ok, alloc, gets, modify, mbind, M_bind. intros Hh Hs Hlt. simpl. unfold u64_add. rewrite Z.mod_small by lia.
  by destruct (_ <? _).
Qed.

Lemma sum_nonneg sizes : Forall (λ n, 0 ≤ n) sizes → 0 ≤ foldr Z.add 0 sizes.
Proof. induction 1; simpl; lia. Qed.

(** Blocks are given in order, one after the other, inside the heap: they are disjoint. *)
Lemma heap_blocks sizes h : heap_ok h → sizes_ok sizes h →
  StronglySorted (λ b b', b.1 + b.2 ≤ b'.1) (blocks sizes h) ∧
  Forall (λ b, heap_start h ≤ b.1 ∧ 0 ≤ b.2 ∧ b.1 + b.2 ≤ heap_end h) (blocks sizes h).
Proof.
  revert h. induction sizes as [|size sizes IH]; intros h Hh [Hs Hlt]; [split; constructor|].
  apply Forall_cons in Hs as [Hsize Hs]. cbn [blocks foldr] in *. pose proof (sum_nonneg _ Hs).
  rewrite alloc_eq by (done || lia). unfold heap_ok in Hh.
  destruct (IH {| heap_start := heap_start h + size; heap_end := heap_end h |}) as [IH1 IH2];
    [unfold heap_ok; simpl; lia|split; [done|simpl; lia]|]. simpl in IH2.
  assert (∀ l, Forall (λ b : Z * Z, heap_start h + size ≤ b.1 ∧ 0 ≤ b.2 ∧ b.1 + b.2 ≤ heap_end h) l →
    Forall (λ b, heap_start h ≤ b.1 ∧ 0 ≤ b.2 ∧ b.1 + b.2 ≤ heap_end h) l) as Hweak.
  { intros l Hl. eapply Forall_impl; [exact Hl|]. intros b Hb. simpl in *. lia. }
  destruct (Z.ltb_spec (heap_end h) (heap_start h + size)); [by split; [|apply Hweak]|].
  destruct (Z.eqb_spec (heap_start h) 0); [lia|]. split.
  - constructor; [done|]. eapply Forall_impl; [exact IH2|]. intros b Hb. simpl in *. lia.
  - constructor; [simpl; lia|]. by apply Hweak.
Qed.

(** The heap moves its start also when it has no room: after a request that fails, every later one
    fails too, however small. *)
Lemma heap_spent size sizes h h' : heap_ok h → sizes_ok (size :: sizes) h →
  alloc size h = (Ok (0, 0, 0), h') → blocks sizes h' = [].
Proof.
  intros Hh [Hs Hlt]. apply Forall_cons in Hs as [Hsize Hs]. cbn [foldr] in Hlt. pose proof (sum_nonneg _ Hs).
  rewrite alloc_eq by (done || lia). unfold heap_ok in Hh. destruct (Z.ltb_spec (heap_end h) (heap_start h + size)) as [Hend|].
  2:{ intros [= He]. lia. }
  intros [= <-].
  assert (∀ start, heap_end h < start → 0 < start → start + foldr Z.add 0 sizes < 2 ^ 64 →
    blocks sizes {| heap_start := start; heap_end := heap_end h |} = []) as Hgen; [|apply Hgen; simpl in *; lia].
  clear Hsize Hlt Hend H. induction Hs as [|n sizes Hn Hs IH]; intros start Hend Hpos Hlt; [done|]. cbn [blocks foldr] in *. pose proof (sum_nonneg _ Hs).
  rewrite alloc_eq by (unfold heap_ok; simpl; lia). simpl. destruct (Z.ltb_spec (heap_end h) (start + n)); [|lia].
  apply IH; lia.
Qed.

(** Requests that fail add up, and wrap around: of two requests of the largest size that an object may
    have the second one gets memory outside of the heap, and the next one memory that is in use. *)
Example heap_rewinds :
  let h := {| heap_start := 0x401000; heap_end := 0x500000 |} in
  blocks [0x1000; 2 ^ 63 - 1; 2 ^ 63 - 1; 0x10] h =
    [(0x401000, 0x1000); (0x402000 + 2 ^ 63 - 1, 2 ^ 63 - 1); (0x401ffe, 0x10)].
Proof. reflexivity. Qed.
End heap.
