(* ===== verification/Mirage.v ===== *)
(** * Mirage: the unikernel component

    Model of [hypervisor/components/mirage/src] and of what it uses of
    [framework/linux-syscall/types] and [framework/mirage/core]: a component that runs an OCaml unikernel,
    gives it a network interface over a packet ring buffer, the time, and the few Linux system
    calls that its libc makes.  Memory is a function from addresses to bytes; the functions of the OCaml
    runtime and the allocation of boxes are arguments.

    Then: a packet that the unikernel sends is appended to what the other side gets, and the rest of the
    call does not disturb the order ([net_tx_in_order]); when polling says that there is a
    packet, receiving gives the next one of the stream ([net_poll_rx]), and without one it
    panics ([net_rx_empty]); text that it writes is printed, byte by byte, as characters
    of Latin-1 ([syscall_write], [syscall_writev]). *)

From stdpp Require Import strings.
From S2P Require Import Prelude.
From S2P Require Import Bytes.
From S2P Require Import RingBuffer.
From S2P Require Import RingBufferSpec.
From S2P Require Import BufferedRingBuffer.
From S2P Require Import Runtime.
Local Open Scope Z_scope.

Definition as_signed (w z : Z) : Z := let z := word_cast w z in if z <? 2 ^ (w - 1) then z else z - 2 ^ w.
Abbreviation Memory := (Z → Z).
(** [slice::from_raw_parts], and [copy_from_slice] into such a slice. *)
Definition mem_slice (mem : Memory) (buf n : Z) : list Z := (λ i, mem (buf + i)) <$> seqZ 0 n.
Definition mem_copy (mem : Memory) (buf : Z) (bs : list Z) : Memory :=
  λ a, default (mem a) (if buf <=? a then bs !! Z.to_nat (a - buf) else None).

(** ** System calls *)
Module syscall.
Import printing.

Definition ENOSYS : Z := 38.
Definition ENOMEM : Z := 12.
Definition SEEK_CUR : Z := 1.
Definition MAP_ANONYMOUS : Z := 0x20.
Definition OCAML_HEAP_SIZE : Z := 2097152.

Inductive Syscall :=
| Lseek (fd offset whence : Z)
| Write (fd buf count : Z)
| Writev (fd iov iovcnt : Z)
| Getuid | Geteuid | Getgid | Getegid
| Brk (addr : Z)
| Mmap (addr length prot flag fd offset : Z).

(** [Syscall::get]; [args i] is the [i]-th argument, a word of which an [i32] is the low half. *)
Definition get (sysnum : Z) (args : nat → Z) : option Syscall :=
  let int i := as_signed 32 (args i) in
  if sysnum =? 62 then Some (Lseek (int 0%nat) (args 1%nat) (int 2%nat))
  else if sysnum =? 64 then Some (Write (int 0%nat) (args 1%nat) (args 2%nat))
  else if sysnum =? 66 then Some (Writev (int 0%nat) (args 1%nat) (int 2%nat))
  else if sysnum =? 174 then Some Getuid
  else if sysnum =? 175 then Some Geteuid
  else if sysnum =? 176 then Some Getgid
  else if sysnum =? 177 then Some Getegid
  else if sysnum =? 214 then Some (Brk (args 0%nat))
  else if sysnum =? 222 then
    Some (Mmap (args 0%nat) (args 1%nat) (int 2%nat) (int 3%nat) (int 4%nat) (args 5%nat))
  else None.

(** [IOVec], as it lies in memory: the address and the length, little-endian words. *)
Record IOVec := { iov_base : Z; iov_len : Z }.
Definition mem_u64 (mem : Memory) (a : Z) : Z := foldr (λ b acc, b + 256 * acc) 0 (mem_slice mem a 8).
Definition iovec_at (mem : Memory) (iov i : Z) : IOVec :=
  {| iov_base := mem_u64 mem (iov + 16 * i); iov_len := mem_u64 mem (iov + 16 * i + 8) |}.

Section handler.
Context {K : Type} (box_new_uninit_slice : Z → K → Z * K) (heap_base : Z).
Record Sys := { console : Console; boxes : K }.
Abbreviation SM := (M Sys Empty_set).
Definition on_console {A} (m : CM A) : SM A := λ s,
  let '(o, c) := m (console s) in (o, {| console := c; boxes := boxes s |}).

(** [print!("{}", c as char)]: the character with this number, in UTF-8. *)
Definition char_utf8 (c : Z) : list Z := if c <? 128 then [c] else [0xC0 + c / 64; 0x80 + c mod 64].
Definition print_char (c : Z) : SM unit := on_console (print [char_utf8 c]).
(** A loop over [0..n], for a signed [n]. *)
Definition write_bytes (mem : Memory) (buf n : Z) : SM unit := for_each print_char (mem_slice mem buf n).

Fixpoint writev_loop (mem : Memory) (iovs : list IOVec) (ret : Z) : SM Z :=
  match iovs with
  | [] => mret ret
  | v :: iovs' =>
    let n := as_signed 64 (iov_len v) in
    write_bytes mem (iov_base v) n ;; writev_loop mem iovs' (as_signed 64 (ret + Z.max 0 n))
  end.

Definition handle_known_syscall (mem : Memory) (sc : Syscall) : SM Z :=
  match sc with
  | Getuid | Geteuid | Getgid | Getegid => mret (- ENOSYS)
  | Brk addr =>
    mret (as_signed 64
      (if addr =? 0 then heap_base
       else if (heap_base <=? addr) && (addr <? heap_base + OCAML_HEAP_SIZE) then addr else 0))
  | Mmap addr length prot flag fd offset =>
    if negb (Z.land flag MAP_ANONYMOUS =? 0) then λ s,
      let '(p, k) := box_new_uninit_slice length (boxes s) in
      (Ok (as_signed 64 p), {| console := console s; boxes := k |})
    else mret (- ENOMEM)
  | Lseek fd offset whence =>
    assert_ (whence =? SEEK_CUR) ;; assert_ (offset =? 0) ;; assert_ ((0 <=? fd) && (fd <=? 2)) ;; mret 0
  | Write fd buf count =>
    assert_ ((fd =? 1) || (fd =? 2)) ;;
    write_bytes mem buf (as_signed 64 count) ;; mret (as_signed 64 count)
  | Writev fd iov iovcnt =>
    assert_ ((fd =? 1) || (fd =? 2)) ;;
    writev_loop mem (iovec_at mem iov <$> seqZ 0 iovcnt) 0
  end.
(** [c_handle_syscall]: an unknown call is an error, which is unwrapped. *)
Definition handle_syscall (mem : Memory) (sysnum : Z) (args : nat → Z) : SM Z :=
  match get sysnum args with Some sc => handle_known_syscall mem sc | None => panic end.

(** *** What is printed *)
Definition prints_debug (s : Sys) : Prop := global_print (console s) = None ∨ global_print (console s) = Some DebugPrint.
Definition printed (s : Sys) (text : list Z) : Sys :=
  {| console := {| global_print := global_print (console s); debug_out := debug_out (console s) ++ text |}; boxes := boxes s |}.

Lemma printed_nil s : printed s [] = s.
Proof. destruct s as [[? ?] ?]. unfold printed. simpl. by rewrite app_nil_r. Qed.
Lemma printed_app s t u : printed (printed s t) u = printed s (t ++ u).
Proof. unfold printed. simpl. by rewrite app_assoc. Qed.
Lemma print_chars_eq cs : ∀ s, prints_debug s → for_each print_char cs s = (Ok tt, printed s (mjoin (char_utf8 <$> cs))).
Proof.
  induction cs as [|c cs IH]; intros s Hs; [by rewrite printed_nil|].
  cbn [for_each]. erewrite bind_eq_ok.
  2:{ unfold print_char, on_console. rewrite (print_to_console _ _ Hs). simpl. rewrite app_nil_r. reflexivity. }
  change {| console := _; boxes := _ |} with (printed s (char_utf8 c)). rewrite IH by done. by rewrite printed_app.
Qed.
Lemma latin1_ascii cs : Forall (λ c, c < 128) cs → mjoin (char_utf8 <$> cs) = cs.
Proof.
  induction 1 as [|c cs Hc _ IH]; [done|]. rewrite fmap_cons. simpl. rewrite IH. unfold char_utf8.
  by rewrite (proj2 (Z.ltb_lt _ _) Hc).
Qed.

(** A write prints its bytes as characters, and reports all of them; ASCII is printed as it is. *)
Lemma syscall_write mem fd buf count s : prints_debug s → fd = 1 ∨ fd = 2 → 0 ≤ count < 2 ^ 63 →
  handle_known_syscall mem (Write fd buf count) s = (Ok count, printed s (mjoin (char_utf8 <$> mem_slice mem buf count))) ∧
  (Forall (λ c, c < 128) (mem_slice mem buf count) →
   handle_known_syscall mem (Write fd buf count) s = (Ok count, printed s (mem_slice mem buf count))).
Proof using Type.
  intros Hs Hfd Hc. cut (handle_known_syscall mem (Write fd buf count) s = (Ok count, printed s (mjoin (char_utf8 <$> mem_slice mem buf count)))).
  { intros ->. split; [done|]. intros Ha. by rewrite latin1_ascii. }
  assert (as_signed 64 count = count) as Hcast.
  { unfold as_signed. rewrite word_cast_small by (unfold is_word; lia). change (64 - 1) with 63. by destruct (Z.ltb_spec count (2 ^ 63)); [|lia]. }
  unfold handle_known_syscall. erewrite bind_eq_ok by (by destruct Hfd; subst). rewrite Hcast. erewrite bind_eq_ok by (by apply print_chars_eq). done.
Qed.

(** A vectored write prints its parts one after the other and reports the sum of their lengths. *)
Lemma writev_loop_eq mem iovs : ∀ s ret, prints_debug s → 0 ≤ ret →
  Forall (λ v, 0 ≤ iov_len v) iovs → ret + foldr Z.add 0 (iov_len <$> iovs) < 2 ^ 63 →
  writev_loop mem iovs ret s = (Ok (ret + foldr Z.add 0 (iov_len <$> iovs)),
    printed s (mjoin (char_utf8 <$> mjoin ((λ v, mem_slice mem (iov_base v) (iov_len v)) <$> iovs)))).
Proof using Type.
  induction iovs as [|v iovs IH]; intros s ret Hs Hr Hl Hlt.
  { simpl. rewrite printed_nil. simpl. by rewrite Z.add_0_r. }
  apply Forall_cons in Hl as [Hv Hl]. rewrite fmap_cons in Hlt. simpl in Hlt.
  assert (0 ≤ foldr Z.add 0 (iov_len <$> iovs)) as Hsum.
  { clear -Hl. induction Hl; csimpl; lia. }
  assert (∀ z, 0 ≤ z < 2 ^ 63 → as_signed 64 z = z) as Hcast.
  { intros z Hz. unfold as_signed. rewrite word_cast_small by (unfold is_word; lia). change (64 - 1) with 63. by destruct (Z.ltb_spec z (2 ^ 63)); [|lia]. }
  cbn [writev_loop]. rewrite (Hcast (iov_len v)) by lia. rewrite Z.max_r by lia. rewrite Hcast by lia.
  erewrite bind_eq_ok by (by apply print_chars_eq). rewrite IH by (done || lia). rewrite printed_app, !fmap_cons. simpl.
  rewrite fmap_app, join_app. f_equal. f_equal. lia.
Qed.
Lemma syscall_writev mem fd iov iovcnt s :
  let iovs := iovec_at mem iov <$> seqZ 0 iovcnt in
  prints_debug s → fd = 1 ∨ fd = 2 → Forall (λ v, 0 ≤ iov_len v) iovs → foldr Z.add 0 (iov_len <$> iovs) < 2 ^ 63 →
  handle_known_syscall mem (Writev fd iov iovcnt) s = (Ok (foldr Z.add 0 (iov_len <$> iovs)),
    printed s (mjoin (char_utf8 <$> mjoin ((λ v, mem_slice mem (iov_base v) (iov_len v)) <$> iovs)))).
Proof using Type.
  intros iovs Hs Hfd Hl Hlt. unfold handle_known_syscall. erewrite bind_eq_ok by (by destruct Hfd; subst).
  fold iovs. by rewrite writev_loop_eq by (done || lia).
Qed.
End handler.
End syscall.

(** ** Time *)
(** [time_hack::time_ns], from the frequency and the value of the counter. *)
Definition time_ns (cntfrq cntvct : Z) : outcome Empty_set Z :=
  if cntfrq =? 0 then Panic else Ok (word_cast 64 (cntvct * 1000000000 ÷ cntfrq)).
(** The intermediate value fits in 128 bits, and the time is right to the nanosecond, for the first
    five hundred years. *)
Lemma time_ns_exact cntfrq cntvct : 0 < cntfrq < 2 ^ 32 → 0 ≤ cntvct < 2 ^ 64 →
  cntvct * 1000000000 < 2 ^ 127 ∧
  (cntvct ÷ cntfrq < 18446744073 → time_ns cntfrq cntvct = Ok (cntvct * 1000000000 / cntfrq)).
Proof.
  intros Hf Hv. split; [lia|]. rewrite Z.quot_div_nonneg by lia. intros Hlt. unfold time_ns.
  destruct (Z.eqb_spec cntfrq 0); [lia|]. rewrite Z.quot_div_nonneg by lia. rewrite word_cast_small; [done|lia|].
  split; [apply Z.div_pos; lia|]. pose proof (Z.mul_succ_div_gt cntvct cntfrq ltac:(lia)).
  apply Z.div_lt_upper_bound; [lia|]. nia.
Qed.

(** ** The network *)
Section net.
(** The OCaml runtime: [costub_alloc] gives the handle and the address of a new buffer. *)
Context {K : Type} (costub_alloc : Z → Memory * K → Z * Z * (Memory * K)).

(** [State]: the notification and the address of the bitfield are kept, and not used. *)
Record State := { event : Z; event_server_bitfield : Z; net_ifaces : list BufferedRingBuffer }.
Record Mirage := { global_state : option State; foreign : Memory * K }.
Abbreviation MM := (M Mirage Empty_set).

Definition on_iface {A} (id : nat) (m : BM A) : MM A := λ g,
  match global_state g with
  | None => (Panic, g)
  | Some s =>
    match net_ifaces s !! id with
    | None => (Panic, g)
    | Some b =>
      let '(o, b') := m b in
      let s' := {| event := event s; event_server_bitfield := event_server_bitfield s; net_ifaces := <[id := b']> (net_ifaces s) |} in
      (o, {| global_state := Some s'; foreign := foreign g |})
    end
  end.

Definition state_callback : MM unit :=
  s ← gets global_state;
  match s with
  | None => panic
  | Some s => for_each (λ id, _ ← on_iface id (tx_callback packet_write); mret tt) (seq 0 (length (net_ifaces s)))
  end.
Definition with_ {A} (f : MM A) : MM A :=
  s ← gets global_state;
  match s with
  | None => panic
  | Some _ => ret ← f; state_callback ;; mret ret
  end.

(** [ocaml::alloc] and the copy into its buffer. *)
Definition ocaml_bytes (bs : list Z) : MM Z := λ g,
  let '(handle, buf, (mem, k)) := costub_alloc (Z.of_nat (length bs)) (foreign g) in
  (Ok handle, {| global_state := global_state g; foreign := (mem_copy mem buf bs, k) |}).

Definition impl_wfe : MM unit := with_ (mret tt).
Definition impl_get_time_ns (cntfrq cntvct : Z) : MM Z := with_ (lift (time_ns cntfrq cntvct)).
Definition impl_set_timeout_ns (ns : Z) : MM unit := with_ (mret tt).
Definition impl_num_net_ifaces : MM nat :=
  with_ (s ← gets global_state; match s with Some s => mret (length (net_ifaces s)) | None => panic end).
Definition impl_net_iface_poll (id : nat) : MM Z :=
  with_ (r ← on_iface id (on_rb (reads packet_poll)); mret (match r with Some _ => 1 | None => 0 end)).
Definition impl_net_iface_tx (id : nat) (buf n : Z) : MM unit :=
  with_ (f ← gets foreign; _ ← on_iface id (tx packet_write (mem_slice f.1 buf n)); mret tt).
Definition net_iface_rx (id : nat) : MM Z :=
  r ← on_iface id packet_rx;
  buf ← lift (unwrap r);
  ocaml_bytes buf.
Definition impl_net_iface_rx (id : nat) : MM Z := with_ (net_iface_rx id).

(** [ocaml::run_main]: the runtime is started and given its argument. *)
Definition run_main (costub_startup : MM unit) (costub_run_main : Z → MM Z) (arg : list Z) : MM Z :=
  costub_startup ;; handle ← ocaml_bytes arg; costub_run_main handle.

(** The state that [main] makes: one interface, over its ring buffer with both notifications on. *)
Definition main_state (ev bitfield : Z) : M RingBuffer Empty_set State :=
  enable_notify_read ;; enable_notify_write ;;
  rb ← gets (λ rb, rb);
  mret {| event := ev; event_server_bitfield := bitfield; net_ifaces := [buffered_new rb] |}.

(** *** Sending *)
Context (ev bitfield : Z).
Definition with_iface (b : BufferedRingBuffer) (f : Memory * K) : Mirage :=
  {| global_state := Some {| event := ev; event_server_bitfield := bitfield; net_ifaces := [b] |}; foreign := f |}.
Definition one_iface (p q : Peer) (qs : list (list Z)) (f : Memory * K) : Mirage :=
  with_iface {| b_rb := view p q; b_q := qs |} f.
Definition net_stream (p : Peer) (qs : list (list Z)) : list Z := pending_stream frame p qs.
Abbreviation short := (λ bs : list Z, Z.of_nat (length bs) < 2 ^ 32).

Lemma callback_keeps p q qs f : rb_reachable (p, q) → Forall short qs →
  p_w p + Z.of_nat (length (concat (frame <$> qs))) < 2 ^ 64 →
  ∃ p' q' qs', state_callback (one_iface p q qs f) = (Ok tt, one_iface p' q' qs' f) ∧
    rb_reachable (p', q') ∧ Forall short qs' ∧ p_recvd q' = p_recvd q ∧ net_stream p' qs' = net_stream p qs.
Proof using Type.
  intros Hr Hok Hlt.
  destruct (flush_tx_spec (send := packet_write) p q qs Hr Hok Hlt) as (notify & qs1 & p1 & Hrun & Hr1 & Hst & Hok1 & _).
  destruct (finish_spec notify p1 q qs1 Hr1) as (p2 & q2 & Hfin & Hr2 & Hs2 & Hrc & _).
  exists p2, q2, qs1. split_and!; [|done|done|done|].
  - unfold state_callback. erewrite bind_eq_ok by reflexivity. simpl. unfold mbind at 1, M_bind at 1.
    erewrite bind_eq_ok; [|unfold on_iface; simpl; unfold tx_callback; rewrite (bind_eq_ok _ _ _ _ _ Hrun), Hfin; reflexivity].
    done.
  - unfold net_stream. rewrite <-Hst. unfold pending_stream. by rewrite Hs2.
Qed.

(** What is queued after a call of [tx] was queued before or is its argument. *)
Lemma flush_loop_rest (P : list Z → Prop) q rb rest n rb' : Forall P q →
  flush_loop packet_write q rb = (Ok (n, rest), rb') → Forall P rest.
Proof using Type.
  revert rb rest n. induction q as [|bs q IH]; intros rb rest n Hq; simpl; [by intros [= <- <- <-]|].
  intros (sent & rb1 & _ & Hrun)%bind_ok_inv. destruct sent; [|injection Hrun as _ <- _; exact Hq].
  apply bind_ok_inv in Hrun as ([n' rest'] & rb2 & Hrun & [= <- <- <-]). apply Forall_cons in Hq as [_ Hq]. by eapply IH.
Qed.
Lemma tx_queue (P : list Z → Prop) bs b n b' : Forall P (b_q b ++ [bs]) → tx packet_write bs b = (Ok n, b') → Forall P (b_q b').
Proof using Type.
  intros [Hq Hbs]%Forall_app. unfold tx. intros (n1 & b1 & Hf & H)%bind_ok_inv.
  assert (Forall P (b_q b1)) as Hb1.
  { apply bind_ok_inv in Hf as (q & b0 & [-> ->]%gets_ok_inv & Hf). apply bind_ok_inv in Hf as ([n2 rest] & b2 & Hl & Hf).
    unfold on_rb in Hl. destruct (flush_loop packet_write (b_q b) (b_rb b)) as [o rb'] eqn:Hloop. injection Hl as -> <-.
    injection Hf as <- <-. simpl. exact (flush_loop_rest P _ _ _ _ _ Hq Hloop). }
  apply bind_ok_inv in H as (q & b2 & [-> ->]%gets_ok_inv & H). apply bind_ok_inv in H as (n3 & b3 & Hsend & H).
  assert (Forall P (b_q b3)) as Hb3.
  { destruct (b_q b1) as [|x xs] eqn:Hq1; [|injection Hsend as <- <-; by apply (Forall_app P (x :: xs) [bs])].
    apply bind_ok_inv in Hsend as (sent & b4 & Hs & Hsend). unfold on_rb in Hs.
    destruct (packet_write bs (b_rb b1)) as [o rb']. injection Hs as -> <-.
    destruct sent; injection Hsend as <- <-; simpl; [by rewrite Hq1|done]. }
  apply bind_ok_inv in H as (u & b4 & Hn & [= <- <-]). destruct n3; [|by injection Hn as _ <-].
  unfold on_rb in Hn. destruct (notify_write (b_rb b3)) as [o rb']. by injection Hn as -> <-.
Qed.

(** A packet that is sent is appended, as a frame, to what the other side gets in the end. *)
Lemma net_tx_in_order p q qs mem k buf n : 
  let bs := mem_slice mem buf n in
  rb_reachable (p, q) → Forall short (qs ++ [bs]) →
  p_w p + Z.of_nat (length (concat (frame <$> qs ++ [bs]))) < 2 ^ 64 →
  ∃ p' q' qs', impl_net_iface_tx 0 buf n (one_iface p q qs (mem, k)) = (Ok tt, one_iface p' q' qs' (mem, k)) ∧
    rb_reachable (p', q') ∧ Forall short qs' ∧ p_recvd q' = p_recvd q ∧ net_stream p' qs' = net_stream p qs ++ frame bs.
Proof using Type.
  intros bs Hr Hok Hlt.
  destruct (tx_spec (send := packet_write) p q qs bs Hr Hok Hlt) as (notify & p1 & q1 & qs1 & Hrun & Hr1 & Hrc1 & Hst1 & _).
  assert (Forall short qs1) as Hok1.
  { apply (f_equal (b_q ∘ snd)) in Hrun as Hq. simpl in Hq. rewrite <-Hq. eapply tx_queue; [|by rewrite Hrun]. done. }
  destruct (callback_keeps p1 q1 qs1 (mem, k)) as (p2 & q2 & qs2 & Hcb & Hr2 & Hok2 & Hrc2 & Hst2); [done|done| |].
  { apply (f_equal length) in Hst1. unfold pending_stream in Hst1. rewrite !length_app in Hst1.
    rewrite fmap_app, concat_app, length_app in Hlt. change (concat (frame <$> [bs])) with (frame bs ++ []) in Hlt. rewrite app_nil_r in Hlt.
    rewrite (p_w_sent _ _ Hr1). rewrite (p_w_sent _ _ Hr) in Hlt. lia. }
  exists p2, q2, qs2. split_and!; [|done|done|congruence|by rewrite Hst2].
  unfold impl_net_iface_tx, with_. erewrite bind_eq_ok by reflexivity. simpl.
  erewrite bind_eq_ok.
  2:{ erewrite bind_eq_ok by reflexivity. erewrite bind_eq_ok; [reflexivity|]. unfold on_iface. simpl. fold bs.
      rewrite Hrun. reflexivity. }
  erewrite bind_eq_ok by exact Hcb. done.
Qed.

(** *** Receiving *)

(** With nothing queued to send, the callback changes nothing. *)
Lemma callback_idle rb f :
  state_callback (with_iface (buffered_new rb) f) = (Ok tt, with_iface (buffered_new rb) f).
Proof using Type. done. Qed.

(** When the next packet has arrived, polling says so and changes nothing, and receiving copies exactly
    that packet into the new buffer of the runtime and moves past it. *)
Lemma net_poll_rx p q bs rest mem k handle buf mem' k' :
  rb_reachable (p, q) → short bs → drop (Z.to_nat (p_r q)) (p_sent p) = frame bs ++ rest →
  Z.of_nat (length (frame bs)) ≤ offset_w (ctrl (p_side p)) - p_r q →
  costub_alloc (Z.of_nat (length bs)) (mem, k) = (handle, buf, (mem', k')) →
  impl_net_iface_poll 0 (one_iface q p [] (mem, k)) = (Ok 1, one_iface q p [] (mem, k)) ∧
  ∃ rb, impl_net_iface_rx 0 (one_iface q p [] (mem, k)) =
    (Ok handle, with_iface (buffered_new rb) (mem_copy mem' buf bs, k')) ∧
    private_offset_r rb = p_r q + Z.of_nat (length (frame bs)).
Proof using Type.
  intros Hr Hlen Hdrop Hav Halloc. pose proof (packet_read_spec p q bs rest Hr Hlen Hdrop) as Hread.
  rewrite decide_True in Hread by done.
  assert (∃ n, packet_poll (view q p) = Ok (Some n)) as [n Hpoll].
  { unfold packet_read in Hread. unfold mbind at 1, M_bind at 1, reads in Hread.
    destruct (packet_poll (view q p)) as [[n|]| |]; [by exists n|done..]. }
  split.
  - unfold impl_net_iface_poll, with_. erewrite bind_eq_ok by reflexivity. simpl.
    rewrite (bind_eq_ok _ _ _ 1 (one_iface q p [] (mem, k))); [by erewrite bind_eq_ok by apply (callback_idle (view q p))|].
    rewrite (bind_eq_ok _ _ _ (Some n) (one_iface q p [] (mem, k))); [done|]. unfold on_iface, on_rb, reads. simpl. by rewrite Hpoll.
  - set (rb1 := with_offset_r _ _) in Hread.
    assert (∃ rb, notify_read rb1 = (Ok tt, rb) ∧ private_offset_r rb = private_offset_r rb1) as (rb & Hn & Hoff).
    { unfold notify_read, mbind, M_bind, gets. simpl. by destruct (status_notify_write _); eexists. }
    exists rb. split; [|by rewrite Hoff].
    unfold impl_net_iface_rx, with_. erewrite bind_eq_ok by reflexivity. simpl.
    rewrite (bind_eq_ok _ _ _ handle (with_iface (buffered_new rb) (mem_copy mem' buf bs, k'))); [by erewrite bind_eq_ok by apply (callback_idle rb)|].
    unfold net_iface_rx. erewrite bind_eq_ok.
    2:{ unfold on_iface, packet_rx. simpl. erewrite bind_eq_ok by (apply on_rb_eq; exact Hread). cbv beta iota.
        erewrite bind_eq_ok by (apply on_rb_eq; exact Hn). reflexivity. }
    erewrite bind_eq_ok by reflexivity. unfold ocaml_bytes. simpl. by rewrite Halloc.
Qed.
(** Without a packet, receiving panics. *)
Lemma net_rx_empty p q f : packet_poll (view p q) = Ok None → (impl_net_iface_rx 0 (one_iface p q [] f)).1 = Panic.
Proof using Type.
  intros Hpoll. unfold impl_net_iface_rx, with_. erewrite bind_eq_ok by reflexivity. simpl.
  unfold net_iface_rx, on_iface, packet_rx, on_rb, packet_read, mbind, M_bind, reads. simpl. by rewrite Hpoll.
Qed.
End net.
