(* ===== verification/Failure.v ===== *)
(** * Failure: errors with causes, context and backtraces

    Model of [framework/base/icecap-failure].  A failure is a value of any type that implements the
    trait [Fail]: of a plain type (by hand, or as the derive macro generates it, with the
    field that is its cause and the one that is its backtrace), a [Context] around another error, or a
    box.  An [Error] is a failure of any type with a backtrace of its own.  The state counts the
    backtraces that were collected: a backtrace is known by its number.

    The causes of a failure end ([chain_ends]) and the last of them is its root cause; context adds
    one link and keeps the rest ([context_chain]); however many layers add context, one backtrace
    is collected, where the error was made ([one_backtrace]). *)

From Stdlib Require Import Wf_nat.
From stdpp Require Import strings.
From S2P Require Import Prelude.
From S2P Require Import Bytes.

(** ** Data *)

(** [Backtrace]: the backtrace, if it was collected. *)
Record Backtrace := { internal : option nat }.

(** [TypeId]: of a plain type, of the [Context] of one, of a box. *)
Inductive TypeId := TPlain (n : nat) | TContext (n : nat) | TBox.
#[global] Instance TypeId_eq_dec : EqDecision TypeId.
Proof. solve_decision. Defined.

(** [Inner<F>]: a failure with the backtrace that was collected for it. *)
Record Inner (F : Type) := mkError { inner_backtrace : Backtrace; inner_failure : F }.
Arguments mkError {F} _ _.
Arguments inner_backtrace {F} _.
Arguments inner_failure {F} _.

Inductive Fail_ :=
| Plain (ty : nat) (name : option string) (text : list Z) (cause : option Fail_) (backtrace : option Backtrace)
| Context_ (ty : nat) (context : list Z) (failure : Backtrace + Inner Fail_)
| Boxed (f : Fail_).
Definition Error : Type := Inner Fail_.

Definition as_fail (e : Error) : Fail_ := inner_failure e.

(** ** The trait [Fail] *)
Fixpoint fail_name (f : Fail_) : option string :=
  match f with
  | Plain _ name _ _ _ => name
  | Context_ _ _ (inl _) => None
  | Context_ _ _ (inr (mkError _ f')) => fail_name f'
  | Boxed _ => None
  end.
Fixpoint fail_cause (f : Fail_) : option Fail_ :=
  match f with
  | Plain _ _ _ cause _ => cause
  | Context_ _ _ (inl _) => None
  | Context_ _ _ (inr (mkError _ f')) => Some f'
  | Boxed f' => fail_cause f'
  end.
Fixpoint fail_backtrace (f : Fail_) : option Backtrace :=
  match f with
  | Plain _ _ _ _ b => b
  | Context_ _ _ (inl b) => Some b
  | Context_ _ _ (inr (mkError b f')) => Some (default b (fail_backtrace f'))
  | Boxed f' => fail_backtrace f'
  end.
Fixpoint fail_display (f : Fail_) : list Z :=
  match f with Plain _ _ text _ _ => text | Context_ _ context _ => context | Boxed f' => fail_display f' end.
Definition type_id (f : Fail_) : TypeId :=
  match f with Plain ty _ _ _ _ => TPlain ty | Context_ ty _ _ => TContext ty | Boxed _ => TBox end.

Definition downcast_ref (ty : TypeId) (f : Fail_) : option Fail_ := if decide (type_id f = ty) then Some f else None.

(** The iterator [Causes], and the loop of [find_root_cause]; a failure has fewer causes than it has
    layers. *)
Record Causes := { fail : option Fail_ }.
Definition causes_next (c : Causes) : option Fail_ * Causes :=
  match fail c with
  | Some f => (Some f, {| fail := fail_cause f |})
  | None => (None, c)
  end.
Definition iter_causes (f : Fail_) : Causes := {| fail := fail_cause f |}.
Definition iter_chain (f : Fail_) : Causes := {| fail := Some f |}.
Fixpoint collect (fuel : nat) (c : Causes) : option (list Fail_) :=
  match fuel with
  | 0 => None
  | S fuel' => let '(o, c') := causes_next c in
    match o with Some f => l ← collect fuel' c'; Some (f :: l) | None => Some [] end
  end.
Fixpoint find_root_cause_loop (fuel : nat) (f : Fail_) : option Fail_ :=
  match fuel with
  | 0 => None
  | S fuel' => match fail_cause f with Some c => find_root_cause_loop fuel' c | None => Some f end
  end.
Fixpoint layers (f : Fail_) : nat :=
  match f with
  | Plain _ _ _ (Some c) _ => S (layers c)
  | Plain _ _ _ None _ => 1
  | Context_ _ _ (inl _) => 1
  | Context_ _ _ (inr (mkError _ f')) => S (layers f')
  | Boxed f' => S (layers f')
  end.
Definition find_root_cause (f : Fail_) : option Fail_ := find_root_cause_loop (S (layers f)) f.
Definition chain (f : Fail_) : option (list Fail_) := collect (S (S (layers f))) (iter_chain f).

(** ** [Error], [Context] and [ResultExt] *)

(** [is_backtrace_enabled], which the build decides, is an argument. *)
Section collecting.
Context (is_backtrace_enabled : bool).
Abbreviation F := (M nat Empty_set).

Definition Backtrace_new : F Backtrace :=
  if is_backtrace_enabled then
    n ← gets (λ n, n); modify S ;; mret {| internal := Some n |}
  else mret {| internal := None |}.
Definition Backtrace_none : Backtrace := {| internal := None |}.
Definition is_empty (b : Backtrace) : bool := match internal b with None => true | Some _ => false end.

Definition error_from (failure : Fail_) : F Error :=
  b ← match fail_backtrace failure with None => Backtrace_new | Some _ => mret Backtrace_none end;
  mret (mkError b failure).
Definition error_name (e : Error) : option string := fail_name (as_fail e).
Definition error_backtrace (e : Error) : Backtrace := default (inner_backtrace e) (fail_backtrace (as_fail e)).
Definition downcast (ty : TypeId) (e : Error) : Fail_ + Error :=
  if decide (type_id (as_fail e) = ty) then inl (as_fail e) else inr e.

Definition Context_new (ty : nat) (context : list Z) : F Fail_ := b ← Backtrace_new; mret (Context_ ty context (inl b)).
Definition with_err (ty : nat) (context : list Z) (e : Error) : Fail_ := Context_ ty context (inr e).
Definition context_map (ty : nat) (op : list Z → list Z) (f : Fail_) : Fail_ :=
  match f with Context_ _ context failure => Context_ ty (op context) failure | _ => f end.
(** [Fail::context] and [Error::context]. *)
Definition fail_context (ty : nat) (context : list Z) (f : Fail_) : F Fail_ :=
  e ← error_from f; mret (with_err ty context e).
Definition error_context (ty : nat) (context : list Z) (e : Error) : Fail_ := with_err ty context e.

(** [ResultExt] for a result with a failure, and with an [Error]. *)
Definition result_with_context {T} (ty : nat) (f : Fail_ → list Z) (r : T + Fail_) : F (T + Fail_) :=
  match r with inl x => mret (inl x) | inr e => c ← fail_context ty (f e) e; mret (inr c) end.
Definition result_context {T} (ty : nat) (context : list Z) : T + Fail_ → F (T + Fail_) :=
  result_with_context ty (λ _, context).
Definition error_result_with_context {T} (ty : nat) (f : Error → list Z) (r : T + Error) : T + Fail_ :=
  match r with inl x => inl x | inr e => inr (error_context ty (f e) e) end.

(** [ErrorMessage], and the macros [bail!] and [ensure!]. *)
Definition err_msg (ty : nat) (msg : list Z) : Fail_ := Plain ty (Some "icecap_failure::ErrorMessage") msg None None.
Definition err_msg_as_error (ty : nat) (msg : list Z) : F Error := error_from (err_msg ty msg).
Definition bail {T} (ty : nat) (msg : list Z) : F (T + Error) := e ← err_msg_as_error ty msg; mret (inr e).
Definition ensure (ty : nat) (cond : bool) (msg : list Z) : F (unit + Error) := if cond then mret (inl tt) else bail ty msg.

(** [Display for Error]; [serialize] gives the text of a backtrace. *)
Definition error_display (serialize : nat → list Z) (e : Error) : list Z :=
  fail_display (as_fail e) ++
  match internal (inner_backtrace e) with
  | Some b => [10%Z] ++ bytes_of_string "stack backtrace for error:" ++ [10; 10; 32; 32; 32; 32]%Z ++ serialize b ++ [10%Z]
  | None => []
  end.

(** ** Causes *)
Lemma cause_layers f c : fail_cause f = Some c → layers c < layers f.
Proof.
  revert c. induction f as [f IH] using (induction_ltof1 _ layers). unfold ltof in IH. intros c.
  destruct f as [ty name text [c'|] b|ty ctx [b|[b f']]|f']; simpl; try done; try (intros [= ->]; lia).
  intros Hc. assert (layers c < layers f') by (apply IH; [simpl; lia|done]). lia.
Qed.

Lemma collect_eq f : ∀ fuel, S (layers f) < fuel →
  ∃ l r, collect fuel (iter_chain f) = Some (f :: l) ∧ last (f :: l) = Some r ∧
    collect (pred fuel) (iter_causes f) = Some l ∧ find_root_cause_loop fuel f = Some r ∧ fail_cause r = None.
Proof.
  induction f as [f IH] using (induction_ltof1 _ layers). unfold ltof in IH.
  intros [|fuel] Hfuel; [lia|]. cbn [collect causes_next iter_chain fail pred find_root_cause_loop].
  destruct (fail_cause f) as [c|] eqn:Hc.
  - pose proof (cause_layers f c Hc) as Hl. destruct (IH c Hl fuel) as (l & r & H1 & H2 & H3 & H4 & H5); [lia|].
    exists (c :: l), r. unfold iter_chain, iter_causes in *. rewrite Hc, H1. by split_and!.
  - exists [], f. destruct fuel as [|fuel]; [lia|]. unfold iter_causes. rewrite Hc. by split_and!.
Qed.

(** The chain of causes of a failure ends; it starts with the failure and ends with its root cause, which has
    no cause, and [iter_causes] is the rest of it. *)
Lemma chain_ends f : ∃ l r, chain f = Some (f :: l) ∧ collect (S (layers f)) (iter_causes f) = Some l ∧
  last (f :: l) = Some r ∧ find_root_cause f = Some r ∧ fail_cause r = None.
Proof.
  destruct (collect_eq f (S (S (layers f)))) as (l & r & H1 & H2 & H3 & H4 & H5); [lia|].
  exists l, r. split_and!; try done. unfold find_root_cause.
  assert (∀ f fuel fuel' r, find_root_cause_loop fuel f = Some r → layers f < fuel' → find_root_cause_loop fuel' f = Some r) as Hmono.
  { clear. induction f as [f IH] using (induction_ltof1 _ layers). unfold ltof in IH.
    intros [|fuel] [|fuel'] r; cbn [find_root_cause_loop]; try done; [lia|].
    destruct (fail_cause f) as [c|] eqn:Hc; [|done]. pose proof (cause_layers f c Hc). intros. eapply IH; [lia|done|lia]. }
  by eapply Hmono; [|lia].
Qed.

(** Context is a new first link: the rest of the chain, and the root cause, are those of the failure. *)
Lemma context_chain ty ctx f n : ∃ b n', fail_context ty ctx f n = (Ok (Context_ ty ctx (inr (mkError b f))), n') ∧
  chain (Context_ ty ctx (inr (mkError b f))) = (λ l, Context_ ty ctx (inr (mkError b f)) :: l) <$> chain f ∧
  find_root_cause (Context_ ty ctx (inr (mkError b f))) = find_root_cause f.
Proof.
  assert (∃ b n', error_from f n = (Ok (mkError b f), n')) as (b & n' & He).
  { unfold error_from, Backtrace_new. destruct (fail_backtrace f), is_backtrace_enabled; by eexists _, _. }
  exists b, n'. split_and!; [|done|done]. unfold fail_context. by rewrite (bind_eq_ok _ _ _ _ _ He).
Qed.

(** ** Backtraces *)

(** Layers that add context, each of which makes an [Error] of it. *)
Fixpoint add_layers (ctxs : list (nat * list Z)) (e : Error) : F Error :=
  match ctxs with
  | [] => mret e
  | (ty, ctx) :: rest => e' ← error_from (error_context ty ctx e); add_layers rest e'
  end.

(** A failure without a backtrace gets one when it becomes an [Error], and every layer of context
    reports that one and collects none. *)
Lemma one_backtrace f ctxs n : is_backtrace_enabled = true → fail_backtrace f = None →
  ∃ e e', error_from f n = (Ok e, S n) ∧ add_layers ctxs e (S n) = (Ok e', S n) ∧
    error_backtrace e = {| internal := Some n |} ∧ error_backtrace e' = {| internal := Some n |}.
Proof.
  intros Hen Hf. exists (mkError {| internal := Some n |} f).
  assert (∀ ctxs e m, ∃ e', add_layers ctxs e m = (Ok e', m) ∧ error_backtrace e' = error_backtrace e) as Hl.
  { clear. induction ctxs as [|[ty ctx] ctxs IH]; intros e m; [by exists e|]. cbn [add_layers].
    destruct e as [b f]. unfold error_from, error_context, with_err. cbn [fail_backtrace].
    erewrite bind_eq_ok by done. destruct (IH (mkError Backtrace_none (Context_ ty ctx (inr (mkError b f)))) m) as (e' & Hr & Hb).
    exists e'. split; [exact Hr|]. rewrite Hb. done. }
  destruct (Hl ctxs (mkError {| internal := Some n |} f) (S n)) as (e' & Hr & Hb). exists e'.
  assert (error_backtrace (mkError {| internal := Some n |} f) = {| internal := Some n |}) as Hb0
    by (unfold error_backtrace; simpl; by rewrite Hf).
  split_and!; [|done|done|by rewrite Hb].
  unfold error_from, Backtrace_new. rewrite Hf, Hen. done.
Qed.

(** The text of an [Error] has the backtrace of its own only: with context around it, the backtrace that
    [error_backtrace] still gives is not printed. *)
Lemma context_hides_backtrace serialize f ty ctx n : is_backtrace_enabled = true → fail_backtrace f = None →
  ∃ e e', error_from f n = (Ok e, S n) ∧ error_from (error_context ty ctx e) (S n) = (Ok e', S n) ∧
    error_backtrace e' = {| internal := Some n |} ∧ error_display serialize e' = ctx.
Proof.
  intros Hen Hf. eexists _, _. split; [unfold error_from, Backtrace_new; rewrite Hf, Hen; done|]. split; [done|].
  unfold error_backtrace, error_display. simpl. rewrite Hf. split; [done|]. apply app_nil_r.
Qed.

(** ** Downcasts *)
Lemma downcast_roundtrip f n : ∃ e n', error_from f n = (Ok e, n') ∧ downcast (type_id f) e = inl f ∧
  ∀ ty, ty ≠ type_id f → downcast ty e = inr e ∧ downcast_ref ty (as_fail e) = None.
Proof.
  assert (∃ b n', error_from f n = (Ok (mkError b f), n')) as (b & n' & He).
  { unfold error_from, Backtrace_new. destruct (fail_backtrace f), is_backtrace_enabled; by eexists _, _. }
  exists (mkError b f), n'. split; [done|]. unfold downcast, downcast_ref. simpl. rewrite decide_True by done. split; [done|].
  intros ty Hty. by rewrite !decide_False by congruence.
Qed.
End collecting.
