(* ===== verification/SerialServer.v ===== *)
(** * SerialServer: one serial line for many clients

    Model of [framework/generic-components/serial-server/core]: the server that writes the output
    of its clients to a serial device, a colour for each, and gives the input to one of them.
    The device is the class [SerialDevice], the trait of the same name; a client's channel is a
    buffered ring buffer.  An event is handled as one step; the peers of the channels and the device
    change their part of the state between events.

    The loop that flushes lines until there is none takes fuel, one more than the number of bytes
    in the buffers: every round but the last takes a byte ([flush_lines_spec]). *)

From stdpp Require Import strings pretty.
From S2P Require Import Prelude.
From S2P Require Import Bytes.
From S2P Require Import RingBuffer.
From S2P Require Import RingBufferSpec.
From S2P Require Import BufferedRingBuffer.

Class SerialDevice (D : Type) := {
  put_char : Z → D → D;
  get_char : D → option Z * D;
  dev_handle_interrupt : D → D;
}.

(** ** [color.rs] *)
Inductive BaseColor := Black | Red | Green | Yellow | Blue | Magenta | Cyan | White.
Inductive Style := Normal | Bold.
Inductive Color := MkColor (base : BaseColor) (style : Style).

Definition base_color_number (b : BaseColor) : N :=
  match b with
  | Black => 0 | Red => 1 | Green => 2 | Yellow => 3
  | Blue => 4 | Magenta => 5 | Cyan => 6 | White => 7
  end.

Definition COLORS : list Color :=
  [MkColor Red Normal; MkColor Green Normal; MkColor Blue Normal; MkColor Magenta Normal;
   MkColor Yellow Normal; MkColor Cyan Normal; MkColor Red Bold; MkColor Green Bold;
   MkColor Blue Bold; MkColor Magenta Bold; MkColor Yellow Bold; MkColor Cyan Bold].

(** The character [ESC]. *)
Definition ESC : Z := 0x1B.

Definition color_bytes (c : Color) : list Z :=
  let 'MkColor base style := c in
  ESC :: bytes_of_string ("[3" +:+ pretty (base_color_number base))
    ++ (match style with Bold => bytes_of_string ";1" | Normal => [] end)
    ++ bytes_of_string "m".
Definition clear_bytes : list Z := ESC :: bytes_of_string "[0m".

(** ** [server.rs] *)
Abbreviation ClientId := nat.

Record SerialClient := {
  driver : BufferedRingBuffer;
  buffer : list Z;
  color : Color;
}.

Inductive InputState := Start | NewLine | Escape.

Record SerialServer (D : Type) := {
  clients : list SerialClient;
  active_input_client : option ClientId;
  last_output_client : option ClientId;
  output_since_last_timeout : bool;
  input_state : InputState;
  dev : D;
}.
Arguments clients {D} _.
Arguments active_input_client {D} _.
Arguments last_output_client {D} _.
Arguments output_since_last_timeout {D} _.
Arguments input_state {D} _.
Arguments dev {D} _.

Definition ESCAPE : Z := 64. (* '@' *)
Definition LF : Z := 10.
Definition CR : Z := 13.
Definition MAX_NUM_CLIENTS : nat := length COLORS.
Definition BUFFER_LIMIT : nat := 0x1000.

Section server.
Context {D : Type} `{!SerialDevice D}.
Abbreviation S := (SerialServer D).
Abbreviation SM := (M (SerialServer D) Empty_set).

(** Assignments to fields. *)
Definition set_clients (l : list SerialClient) : SM unit := modify (λ s,
  {| clients := l; active_input_client := active_input_client s; last_output_client := last_output_client s;
     output_since_last_timeout := output_since_last_timeout s; input_state := input_state s; dev := dev s |}).
Definition set_active_client (o : option ClientId) : SM unit := modify (λ s,
  {| clients := clients s; active_input_client := o; last_output_client := last_output_client s;
     output_since_last_timeout := output_since_last_timeout s; input_state := input_state s; dev := dev s |}).
Definition set_last (o : option ClientId) : SM unit := modify (λ s,
  {| clients := clients s; active_input_client := active_input_client s; last_output_client := o;
     output_since_last_timeout := output_since_last_timeout s; input_state := input_state s; dev := dev s |}).
Definition set_output (b : bool) : SM unit := modify (λ s,
  {| clients := clients s; active_input_client := active_input_client s;
     last_output_client := last_output_client s;
     output_since_last_timeout := b; input_state := input_state s; dev := dev s |}).
Definition set_input_state (i : InputState) : SM unit := modify (λ s,
  {| clients := clients s; active_input_client := active_input_client s;
     last_output_client := last_output_client s;
     output_since_last_timeout := output_since_last_timeout s; input_state := i; dev := dev s |}).
Definition set_dev (d : D) : SM unit := modify (λ s,
  {| clients := clients s; active_input_client := active_input_client s;
     last_output_client := last_output_client s;
     output_since_last_timeout := output_since_last_timeout s; input_state := input_state s; dev := d |}).

(** [self.clients[i]], an update of its buffer, and an operation of its driver. *)
Definition client (i : ClientId) : SM SerialClient := reads (λ s, index (clients s) i).
Definition set_buffer (i : ClientId) (c : SerialClient) (b : list Z) : SM unit :=
  l ← gets clients; set_clients (<[i := {| driver := driver c; buffer := b; color := color c |}]> l).
Definition on_driver {A} (i : ClientId) (m : BM A) : SM A :=
  c ← client i;
  let '(o, d) := m (driver c) in
  l ← gets clients;
  set_clients (<[i := {| driver := d; buffer := buffer c; color := color c |}]> l) ;;
  lift o.

(** Output of bytes, and [out!] of a string. *)
Definition put_all (bs : list Z) (d : D) : D := foldl (λ d c, put_char c d) d bs.
Definition put_bytes (bs : list Z) : SM unit := d ← gets dev; set_dev (put_all bs d).
Definition out (s : string) : SM unit := put_bytes (bytes_of_string s).

Fixpoint mk_clients (i : nat) (l : list RingBuffer) : outcome Empty_set (list SerialClient) :=
  match l with
  | [] => Ok []
  | rb :: l' =>
    col ← index COLORS i;
    rest ← mk_clients (Datatypes.S i) l';
    Ok ({| driver := buffered_new rb; buffer := []; color := col |} :: rest)
  end.

Definition serial_new (dev : D) (rbs : list RingBuffer) : outcome Empty_set (SerialServer D) :=
  if bool_decide (length rbs ≤ MAX_NUM_CLIENTS) then
    cs ← mk_clients 0 rbs;
    Ok {| clients := cs; active_input_client := match cs with [] => None | _ => Some 0 end;
          last_output_client := None; output_since_last_timeout := false; input_state := Start;
          dev := dev |}
  else Panic.

Definition set_output_client (i : ClientId) : SM unit :=
  last ← gets last_output_client;
  if decide (last = Some i) then mret tt
  else
    set_last (Some i) ;;
    c ← client i;
    put_bytes (color_bytes (color c)).

Definition clear_output_client : SM unit :=
  last ← gets last_output_client;
  match last with
  | Some _ => set_last None ;; put_bytes clear_bytes
  | None => mret tt
  end.

Definition flush (i : ClientId) : SM unit :=
  c ← client i;
  match buffer c with
  | [] => mret tt
  | _ =>
    set_output_client i ;;
    put_bytes (buffer c) ;;
    set_buffer i c [] ;;
    set_output true
  end.

Definition flush_line (i : ClientId) : SM bool :=
  c ← client i;
  match list_find (λ b, b = LF) (buffer c) with
  | None => mret false
  | Some (n, _) =>
    set_output_client i ;;
    put_bytes (take (n + 1) (buffer c)) ;;
    set_buffer i c (drop (n + 1) (buffer c)) ;;
    set_output true ;;
    mret true
  end.

(** [for i in 0..self.clients.len() { if self.flush_line(i) { .. } }]: whether some line was
    flushed; and the loop around it, until none was. *)
Fixpoint flush_round (l : list ClientId) : SM bool :=
  match l with
  | [] => mret false
  | i :: l' => b ← flush_line i; b' ← flush_round l'; mret (b || b')
  end.
Fixpoint flush_lines (fuel : nat) : SM bool :=
  match fuel with
  | 0 => mret false
  | Datatypes.S fuel' =>
    n ← gets (λ s, length (clients s));
    flushed ← flush_round (seq 0 n);
    if (flushed : bool) then _ ← flush_lines fuel'; mret true else mret false
  end.
Definition lines_fuel (s : S) : nat := Datatypes.S (sum_list (length ∘ buffer <$> clients s)).
Definition flush_all_lines : SM bool := fuel ← gets lines_fuel; flush_lines fuel.
Definition flush_all : SM unit := n ← gets (λ s, length (clients s)); for_each flush (seq 0 n).

Definition handle_timeout : SM unit :=
  b ← gets output_since_last_timeout;
  if (b : bool) then set_output false
  else
    flushed_outer ← flush_all_lines;
    if (flushed_outer : bool) then mret tt else flush_all.

Definition any_else (i : ClientId) (s : S) : bool :=
  existsb (λ p, negb (p.1 =? i) && negb (bool_decide (buffer p.2 = []))) (imap pair (clients s)).

Definition handle_client_char (i : ClientId) (b : Z) : SM unit :=
  c ← client i;
  set_buffer i c (buffer c ++ [b]) ;;
  c ← client i;
  if decide (length (buffer c) = BUFFER_LIMIT) then
    flush i ;;
    last ← gets last_output_client;
    (match last with Some j => flush_line j ;; mret tt | None => mret tt end) ;;
    flush_all_lines ;;
    c ← client i;
    (if decide (length (buffer c) = BUFFER_LIMIT) then flush_all else mret tt) ;;
    set_output_client i
  else
    a ← gets (any_else i);
    last ← gets last_output_client;
    if (bool_decide (b = LF) || (bool_decide (last = Some i) && negb a) : bool) then flush i else mret tt.

(** [handle_rx]: as many bytes as there were at first; [buf] is the one-byte buffer. *)
Fixpoint rx_loop (i : ClientId) (n : nat) (buf : Z) : SM unit :=
  match n with
  | 0 => mret tt
  | Datatypes.S n' =>
    bs ← on_driver i (rx_into 1);
    let buf := match bs with b :: _ => b | [] => buf end in
    handle_client_char i buf ;;
    rx_loop i n' buf
  end.
Definition handle_rx (i : ClientId) : SM unit :=
  n ← on_driver i (on_rb (reads poll_read));
  rx_loop i (Z.to_nat n) 0%Z ;;
  on_driver i (on_rb enable_notify_read).
Definition handle_tx (i : ClientId) : SM unit :=
  on_driver i (tx_callback try_write) ;;
  on_driver i (on_rb enable_notify_write).

Definition forward (b : Z) : SM unit :=
  a ← gets active_input_client;
  match a with
  | Some i => _ ← on_driver i (tx try_write [b]); mret tt
  | None => mret tt
  end.

Definition set_input_client (i : ClientId) : SM unit :=
  clear_output_client ;;
  out ("Switching input to " +:+ pretty (N.of_nat i)) ;;
  put_bytes [LF] ;;
  set_active_client (Some i).

(** The lines of the help text; the escape character is printed as a number. *)
Definition help (n : nat) : list Z :=
  bytes_of_string "--- SerialServer help ---" ++ [LF]
  ++ bytes_of_string ("Escape char: " +:+ pretty (Z.to_N ESCAPE)) ++ [LF]
  ++ bytes_of_string ("0 - " +:+ pretty (Z.to_N (u64_sub (Z.of_nat n) 1)) +:+ " switches input to that client") ++ [LF]
  ++ bytes_of_string "?      shows this help" ++ [LF].

Definition raw (b : Z) : InputState := if decide (b = CR ∨ b = LF) then NewLine else Start.

Definition handle_char (b : Z) : SM unit :=
  st ← gets input_state;
  st' ← (match st with
         | Start => forward b ;; mret (raw b)
         | NewLine => if decide (b = ESCAPE) then mret Escape else forward b ;; mret (raw b)
         | Escape =>
           if decide (b = ESCAPE) then forward b ;; mret Start
           else if decide (b = 63%Z) then  (* '?' *)
             clear_output_client ;;
             n ← gets (λ s, length (clients s));
             put_bytes (help n) ;;
             mret NewLine
           else
             n ← gets (λ s, length (clients s));
             let client_id := u64_sub b 48 in  (* '0' *)
             if decide (client_id < Z.of_nat n)%Z then set_input_client (Z.to_nat client_id) ;; mret NewLine
             else forward ESCAPE ;; forward b ;; mret Start
         end : SM InputState);
  set_input_state st'.

(** ** Events *)
Inductive SerialEvent := Interrupt | Timeout | Con (client_id : ClientId).

Fixpoint input_loop (fuel : nat) : SM unit :=
  match fuel with
  | 0 => mret tt
  | Datatypes.S fuel' =>
    d ← gets dev;
    let '(o, d') := get_char d in
    set_dev d' ;;
    match o with
    | Some b => handle_char b ;; input_loop fuel'
    | None => mret tt
    end
  end.

(** One round of the loop of [run]; [fuel] bounds the characters an interrupt brings. *)
Definition handle_serial_event (fuel : nat) (e : SerialEvent) : SM unit :=
  match e with
  | Interrupt => d ← gets dev; set_dev (dev_handle_interrupt d) ;; input_loop fuel
  | Timeout => handle_timeout
  | Con i => handle_rx i ;; handle_tx i
  end.

(** What [run] does first. *)
Definition run_init : SM unit :=
  n ← gets (λ s, length (clients s));
  for_each (λ i,
    on_driver i (on_rb enable_notify_read) ;;
    on_driver i (on_rb enable_notify_write) ;;
    handle_rx i ;;
    handle_tx i) (seq 0 n).
End server.
