(* ===== verification/SerialServerSpec.v ===== *)
(** * SerialServerSpec: the serial server shows each client's output, whole and in its colour

    What the server has written is a sequence of client bytes, colours and its own text
    ([output]).  Every byte of a client is written while its colour is set, the server's text while
    none is, and the bytes of a client written so far, followed by those in its buffer, are
    exactly the bytes received from it, in order.  Buffers never fill up, the loops over lines end,
    and an idle timeout leaves no line, or nothing at all, in the buffers. *)

From stdpp Require Import strings pretty.
From S2P Require Import Prelude.
From S2P Require Import Bytes.
From S2P Require Import RingBuffer.
From S2P Require Import RingBufferSpec.
From S2P Require Import BufferedRingBuffer.
From S2P Require Import SerialServer.

(** A device, as what was written to it. *)
Class SerialDeviceLaws (D : Type) `{!SerialDevice D} := {
  written : D → list Z;
  written_put c d : written (put_char c d) = written d ++ [c];
  written_get d : written (get_char d).2 = written d;
  written_interrupt d : written (dev_handle_interrupt d) = written d;
}.

(** ** Output *)

Inductive output :=
| OByte (i : ClientId) (b : Z)
| OColor (i : ClientId)
| OClear
| OText (bs : list Z).

Definition render_one (cols : list Color) (o : output) : list Z :=
  match o with
  | OByte _ b => [b]
  | OColor i => from_option color_bytes [] (cols !! i)
  | OClear => clear_bytes
  | OText bs => bs
  end.
Definition render (cols : list Color) (os : list output) : list Z := mjoin (render_one cols <$> os).

(** The colour after some output, if every byte of a client is written in its colour and the
    server's text in none. *)
Fixpoint coloured (cur : option ClientId) (os : list output) : option (option ClientId) :=
  match os with
  | [] => Some cur
  | OByte i _ :: os' => if decide (cur = Some i) then coloured cur os' else None
  | OColor i :: os' => coloured (Some i) os'
  | OClear :: os' => coloured None os'
  | OText _ :: os' => if decide (cur = None) then coloured cur os' else None
  end.

(** The bytes of a client. *)
Definition byte_of (i : ClientId) (o : output) : option Z :=
  match o with OByte j b => if decide (j = i) then Some b else None | _ => None end.
Definition displayed (i : ClientId) (os : list output) : list Z := omap (byte_of i) os.

Lemma render_app cols o1 o2 : render cols (o1 ++ o2) = render cols o1 ++ render cols o2.
Proof. unfold render. by rewrite fmap_app, join_app. Qed.
Lemma render_single cols o : render cols [o] = render_one cols o.
Proof. apply app_nil_r. Qed.
Lemma displayed_app i o1 o2 : displayed i (o1 ++ o2) = displayed i o1 ++ displayed i o2.
Proof. apply omap_app. Qed.
Lemma coloured_app cur o1 o2 mid : coloured cur o1 = Some mid → coloured cur (o1 ++ o2) = coloured mid o2.
Proof.
  revert cur. induction o1 as [|[] o1 IH]; intros cur; simpl; try (by intros [= ->]); try by eauto.
  - case_decide; [by apply IH|done].
  - case_decide; [by apply IH|done].
Qed.

(** The bytes of one client, in its colour. *)
Definition bytes_output (i : ClientId) (bs : list Z) : list output := OByte i <$> bs.

Lemma render_bytes cols i bs : render cols (bytes_output i bs) = bs.
Proof.
  induction bs as [|b bs IH]; [done|].
  change (b :: render cols (bytes_output i bs) = b :: bs). by rewrite IH.
Qed.
Lemma coloured_bytes i bs : coloured (Some i) (bytes_output i bs) = Some (Some i).
Proof. induction bs as [|b bs IH]; simpl; [done|]. by rewrite decide_True. Qed.
Lemma displayed_bytes i j bs : displayed j (bytes_output i bs) = if decide (i = j) then bs else [].
Proof.
  induction bs as [|b bs IH]; [by case_decide|].
  change (displayed j (bytes_output i (b :: bs))) with
    (match (if decide (i = j) then Some b else None) with
     | Some y => y :: displayed j (bytes_output i bs) | None => displayed j (bytes_output i bs) end).
  rewrite IH. by case_decide.
Qed.

(** Taking [n] bytes one by one, as [handle_rx] does. *)
Fixpoint drain (n : nat) (b0 : Z) : BM (list Z) :=
  match n with
  | 0 => mret []
  | Datatypes.S n' =>
    bs ← rx_into 1;
    let b := match bs with b :: _ => b | [] => b0 end in
    rest ← drain n' b;
    mret (b :: rest)
  end.

Section spec.
Context {D : Type} `{!SerialDevice D} `{!SerialDeviceLaws D}.
Abbreviation S := (SerialServer D).
Abbreviation SM := (M (SerialServer D) Empty_set).

Definition buf (s : S) (i : ClientId) : list Z := from_option buffer [] (clients s !! i).
Definition colors (s : S) : list Color := color <$> clients s.

(** The last client that wrote is a client. *)
Definition last_ok (s : S) : Prop := ∀ i, last_output_client s = Some i → i < length (clients s).
(** From [s] to [s'] the server received [rcv i] from client [i]: what it wrote, with what is
    left in the buffers, is what was in the buffers and what was received. *)
Definition delivers (rcv : ClientId → list Z) (s s' : S) : Prop :=
  colors s' = colors s ∧ (last_ok s → last_ok s') ∧ ∃ os,
    written (dev s') = written (dev s) ++ render (colors s) os ∧
    coloured (last_output_client s) os = Some (last_output_client s') ∧
    ∀ i, buf s i ++ rcv i = displayed i os ++ buf s' i.

Definition nothing : ClientId → list Z := λ _, [].
Definition only (i : ClientId) (bs : list Z) : ClientId → list Z := λ j, if decide (i = j) then bs else [].

Lemma delivers_refl s : delivers nothing s s.
Proof.
  split; [done|]. split; [done|]. exists []. split_and!; [by rewrite app_nil_r|done|].
  intros i. by rewrite app_nil_r.
Qed.

Lemma delivers_trans r1 r2 r s s1 s2 :
  delivers r1 s s1 → delivers r2 s1 s2 → (∀ i, r i = r1 i ++ r2 i) → delivers r s s2.
Proof.
  intros (Hc1 & Hl1 & o1 & Hw1 & Hcol1 & Hb1) (Hc2 & Hl2 & o2 & Hw2 & Hcol2 & Hb2) Hr.
  split; [by rewrite Hc2|]. split; [by auto|]. exists (o1 ++ o2). split_and!.
  - by rewrite Hw2, Hw1, Hc1, render_app, app_assoc.
  - by rewrite (coloured_app _ _ _ _ Hcol1).
  - intros i. rewrite Hr, app_assoc, Hb1, <-app_assoc, Hb2, displayed_app. by rewrite app_assoc.
Qed.
Lemma delivers_nothing s s1 s2 : delivers nothing s s1 → delivers nothing s1 s2 → delivers nothing s s2.
Proof. intros H1 H2. by eapply delivers_trans. Qed.

Lemma colors_length s s' : colors s' = colors s → length (clients s') = length (clients s).
Proof. intros E. apply (f_equal length) in E. unfold colors in E. by rewrite !length_fmap in E. Qed.

(** A change of state that nobody sees. *)
Lemma delivers_silent s s' :
  written (dev s') = written (dev s) → colors s' = colors s → (∀ i, buf s' i = buf s i) →
  last_output_client s' = last_output_client s → delivers nothing s s'.
Proof.
  intros Hw Hc Hb Hl. split; [done|].
  split; [unfold last_ok; by rewrite Hl, (colors_length _ _ Hc)|]. exists []. split_and!; [by rewrite app_nil_r|by rewrite Hl|].
  intros i. by rewrite app_nil_r, Hb.
Qed.

Lemma delivers_suffix s s' i : delivers nothing s s' → length (buf s' i) ≤ length (buf s i).
Proof.
  intros (_ & _ & os & _ & _ & Hb). specialize (Hb i). rewrite app_nil_r in Hb. rewrite Hb, length_app. lia.
Qed.

Lemma written_put_all bs d : written (put_all bs d) = written d ++ bs.
Proof.
  unfold put_all. revert d. induction bs as [|b bs IH]; intros d; simpl; [by rewrite app_nil_r|].
  by rewrite IH, written_put, <-app_assoc.
Qed.

(** ** Flushing *)

(** The operations that do not use the channels. *)
Record shows (rcv : ClientId → list Z) (s s' : S) : Prop := {
  sh_delivers : delivers rcv s s';
  sh_drivers : driver <$> clients s' = driver <$> clients s;
}.

Lemma shows_trans r1 r2 r s s1 s2 :
  shows r1 s s1 → shows r2 s1 s2 → (∀ i, r i = r1 i ++ r2 i) → shows r s s2.
Proof. intros [H1 E1] [H2 E2] Hr. split; [by eapply delivers_trans|congruence]. Qed.
Lemma shows_nothing s s1 s2 : shows nothing s s1 → shows nothing s1 s2 → shows nothing s s2.
Proof. intros H1 H2. by eapply shows_trans. Qed.
Lemma shows_refl s : shows nothing s s.
Proof. split; [apply delivers_refl|done]. Qed.
Lemma shows_length r s s' : shows r s s' → length (clients s') = length (clients s).
Proof. intros [_ E]. apply (f_equal length) in E. by rewrite !length_fmap in E. Qed.

Lemma set_output_client_spec i s c :
  clients s !! i = Some c →
  ∃ s', set_output_client i s = (Ok tt, s') ∧ shows nothing s s' ∧ last_output_client s' = Some i ∧
    clients s' = clients s.
Proof.
  intros Hc. unfold set_output_client. erewrite bind_eq_ok by done.
  case_decide as Hl; [exists s; split_and!; [done|apply shows_refl|done|done]|].
  unfold client, reads, index, put_bytes, set_dev, set_last, modify, gets, mbind, M_bind. simpl. rewrite Hc. simpl.
  eexists. split; [done|]. split_and!; try done. split; [|done]. split; [done|].
  split; [intros _ j [= <-]; simpl; by eapply lookup_lt_Some|]. exists [OColor i]. split_and!; simpl; try done.
  - rewrite written_put_all. unfold render, colors. simpl. rewrite app_nil_r, list_lookup_fmap, Hc. done.
  - intros j. by rewrite app_nil_r.
Qed.

(** Writing the first [n] bytes of the buffer of a client. *)
Definition cut (i : ClientId) (c : SerialClient) (n : nat) (s : S) : S :=
  {| clients := <[i := {| driver := driver c; buffer := drop n (buffer c); color := color c |}]> (clients s);
     active_input_client := active_input_client s; last_output_client := last_output_client s;
     output_since_last_timeout := true; input_state := input_state s;
     dev := put_all (take n (buffer c)) (dev s) |}.

Lemma cut_shows i c n s :
  clients s !! i = Some c → last_output_client s = Some i →
  shows nothing s (cut i c n s) ∧ buf (cut i c n s) i = drop n (buffer c) ∧
  ∀ j, j ≠ i → buf (cut i c n s) j = buf s j.
Proof.
  intros Hc Hl. assert (i < length (clients s)) by by eapply lookup_lt_Some.
  assert (Hi : buf (cut i c n s) i = drop n (buffer c)) by (unfold buf; simpl; by rewrite list_lookup_insert_eq).
  assert (Hj : ∀ j, j ≠ i → buf (cut i c n s) j = buf s j).
  { intros j Hj. unfold buf. simpl. by rewrite list_lookup_insert_ne by done. }
  split_and!; try done. split.
  - split; [unfold colors; simpl; rewrite list_fmap_insert; by apply list_insert_id; rewrite list_lookup_fmap, Hc|].
    split; [unfold last_ok; simpl; by rewrite length_insert|]. exists (bytes_output i (take n (buffer c))). split_and!.
    + simpl. by rewrite written_put_all, render_bytes.
    + simpl. rewrite Hl. apply coloured_bytes.
    + intros j. rewrite displayed_bytes, app_nil_r. case_decide as Heq; [subst j|by rewrite Hj].
      rewrite Hi, take_drop. unfold buf. by rewrite Hc.
  - simpl. rewrite list_fmap_insert. apply list_insert_id. by rewrite list_lookup_fmap, Hc.
Qed.

(** The common end of [flush] and [flush_line]. *)
Lemma write_out_eq i c n s :
  clients s !! i = Some c →
  ∃ s1, set_output_client i s = (Ok tt, s1) ∧ clients s1 = clients s ∧ last_output_client s1 = Some i ∧
    shows nothing s (cut i c n s1) ∧
    buf (cut i c n s1) i = drop n (buffer c) ∧ (∀ j, j ≠ i → buf (cut i c n s1) j = buf s j) ∧
    (put_bytes (take n (buffer c)) ;; set_buffer i c (drop n (buffer c)) ;; set_output true) s1 =
      (Ok tt, cut i c n s1).
Proof.
  intros Hc. destruct (set_output_client_spec i s c Hc) as (s1 & H1 & Hs1 & Hl & Hcl).
  exists s1. assert (clients s1 !! i = Some c) as Hc1 by by rewrite Hcl.
  destruct (cut_shows i c n s1 Hc1 Hl) as (Hs2 & Hi & Hj). split_and!; try done.
  - by eapply shows_nothing.
  - intros j Hne. rewrite Hj by done. unfold buf. by rewrite Hcl.
Qed.

Lemma flush_spec i s :
  i < length (clients s) →
  ∃ s', flush i s = (Ok tt, s') ∧ shows nothing s s' ∧ buf s' i = [] ∧ ∀ j, j ≠ i → buf s' j = buf s j.
Proof.
  intros [c Hc]%lookup_lt_is_Some_2. unfold flush, client.
  erewrite bind_eq_ok; [|by unfold reads, index; rewrite Hc].
  destruct (write_out_eq i c (length (buffer c)) s Hc) as (s1 & H1 & Hcl & Hl & Hs & Hi & Hj & Hrun).
  destruct (buffer c) as [|b bs] eqn:Hb.
  { exists s. split_and!; [done|apply shows_refl| |done]. unfold buf. by rewrite Hc. }
  rewrite drop_all in Hi, Hrun. rewrite firstn_all in Hrun.
  exists (cut i c (length (b :: bs)) s1). split_and!; try done. by rewrite (bind_eq_ok _ _ _ _ _ H1).
Qed.

Lemma flush_line_spec i s :
  i < length (clients s) →
  ∃ b s', flush_line i s = (Ok b, s') ∧ shows nothing s s' ∧
    (∀ j, length (buf s' j) ≤ length (buf s j)) ∧
    if (b : bool) then length (buf s' i) < length (buf s i) else s' = s ∧ LF ∉ buf s i.
Proof.
  intros [c Hc]%lookup_lt_is_Some_2. unfold flush_line, client.
  erewrite bind_eq_ok; [|by unfold reads, index; rewrite Hc].
  assert (Hbuf : buf s i = buffer c) by (unfold buf; by rewrite Hc).
  destruct (list_find (λ b, b = LF) (buffer c)) as [[n b]|] eqn:Hf.
  - apply list_find_Some in Hf as (Hn & -> & _).
    destruct (write_out_eq i c (n + 1) s Hc) as (s1 & H1 & Hcl & Hl & Hs & Hi & Hj & Hrun).
    exists true, (cut i c (n + 1) s1). split_and!; try done.
    + rewrite (bind_eq_ok _ _ _ _ _ H1). unfold mbind, M_bind in *. by simplify_eq.
    + intros j. apply delivers_suffix, Hs.
    + rewrite Hi, Hbuf, length_drop. apply lookup_lt_Some in Hn. lia.
  - exists false, s. split_and!; try done; [apply shows_refl|]. rewrite Hbuf.
    apply list_find_None in Hf. intros Hin. by eapply (Forall_forall _ _) in Hf.
Qed.

(** ** The loops over lines *)

Definition total (s : S) : nat := sum_list (length ∘ buffer <$> clients s).

Lemma sum_list_pointwise {A} (f : A → nat) (l l' : list A) :
  length l = length l' → (∀ i x y, l !! i = Some x → l' !! i = Some y → f y ≤ f x) →
  sum_list (f <$> l') ≤ sum_list (f <$> l) ∧
  (∀ i x y, l !! i = Some x → l' !! i = Some y → f y < f x → sum_list (f <$> l') < sum_list (f <$> l)).
Proof.
  revert l'. induction l as [|x l IH]; intros [|y l'] Hlen Hle; simplify_eq/=; [done|].
  destruct (IH l' Hlen) as [IH1 IH2]; [intros i; apply (Hle (Datatypes.S i))|].
  specialize (Hle 0 x y eq_refl eq_refl) as H0. split; [lia|].
  intros [|i] x' y' Hx Hy Hlt; simplify_eq/=; [lia|]. specialize (IH2 i x' y' Hx Hy Hlt). lia.
Qed.

Lemma buf_lookup s i c : clients s !! i = Some c → buf s i = buffer c.
Proof. intros Hc. unfold buf. by rewrite Hc. Qed.

Lemma total_le s s' :
  length (clients s') = length (clients s) → (∀ j, length (buf s' j) ≤ length (buf s j)) →
  total s' ≤ total s ∧ ∀ i, length (buf s' i) < length (buf s i) → total s' < total s.
Proof.
  intros Hlen Hle.
  destruct (sum_list_pointwise (length ∘ buffer) (clients s) (clients s')) as [H1 H2]; [done| |].
  { intros i x y Hx Hy. specialize (Hle i). by rewrite (buf_lookup _ _ _ Hx), (buf_lookup _ _ _ Hy) in Hle. }
  split; [done|]. intros i Hi. destruct (clients s !! i) as [x|] eqn:Hx.
  - destruct (lookup_lt_is_Some_2 (clients s') i) as [y Hy]; [rewrite Hlen; by eapply lookup_lt_Some|].
    apply (H2 i x y Hx Hy). by rewrite (buf_lookup _ _ _ Hx), (buf_lookup _ _ _ Hy) in Hi.
  - unfold buf in Hi at 2. rewrite Hx in Hi. simpl in Hi. lia.
Qed.

Lemma flush_round_spec l s :
  Forall (λ i, i < length (clients s)) l →
  ∃ b s', flush_round l s = (Ok b, s') ∧ shows nothing s s' ∧
    if (b : bool) then total s' < total s else s' = s ∧ ∀ i, i ∈ l → LF ∉ buf s i.
Proof.
  revert s. induction l as [|i l IH]; intros s Hl.
  { exists false, s. split_and!; [done|apply shows_refl|done|]. intros i Hi. by apply elem_of_nil in Hi. }
  inversion Hl as [|? ? Hi Hl']; subst. cbn [flush_round].
  destruct (flush_line_spec i s Hi) as (b & s1 & H1 & Hs1 & Hle1 & Hb).
  pose proof (shows_length _ _ _ Hs1) as Hlen1. rewrite (bind_eq_ok _ _ _ _ _ H1).
  destruct (total_le s s1 Hlen1 Hle1) as [Ht1 Ht1'].
  destruct (IH s1) as (b' & s2 & H2 & Hs2 & Hb'); [by rewrite Hlen1|].
  rewrite (bind_eq_ok _ _ _ _ _ H2). exists (b || b'), s2. split; [done|].
  split; [by eapply shows_nothing|]. destruct b, b'; simpl.
  - apply Ht1' in Hb. lia.
  - destruct Hb' as [-> _]. by apply Ht1' in Hb.
  - lia.
  - destruct Hb as [-> Hb], Hb' as [-> Hb']. split; [done|].
    intros j [->|Hj]%elem_of_cons; [done|by apply Hb'].
Qed.

Lemma buf_outside s i : length (clients s) ≤ i → buf s i = [].
Proof. intros Hi. unfold buf. by rewrite lookup_ge_None_2. Qed.

(** The fuel is enough: the loop ends, with no line left. *)
Lemma flush_lines_spec fuel s :
  total s < fuel →
  ∃ b s', flush_lines fuel s = (Ok b, s') ∧ shows nothing s s' ∧ (∀ i, LF ∉ buf s' i) ∧
    (b = false → s' = s).
Proof.
  revert s. induction fuel as [|fuel IH]; intros s Hfuel; [lia|]. cbn [flush_lines].
  erewrite bind_eq_ok by done.
  destruct (flush_round_spec (seq 0 (length (clients s))) s) as (b & s1 & H1 & Hs1 & Hb).
  { apply Forall_forall. intros i Hi%elem_of_seq. lia. }
  rewrite (bind_eq_ok _ _ _ _ _ H1). destruct b.
  - destruct (IH s1) as (b2 & s2 & H2 & Hs2 & Hno & _); [lia|]. rewrite (bind_eq_ok _ _ _ _ _ H2).
    exists true, s2. split_and!; try done. by eapply shows_nothing.
  - destruct Hb as [-> Hno]. exists false, s. split_and!; try done. intros i.
    destruct (decide (i < length (clients s))) as [Hi|Hi]; [apply Hno, elem_of_seq; lia|].
    rewrite buf_outside by lia. apply not_elem_of_nil.
Qed.

Lemma flush_all_lines_spec s :
  ∃ b s', flush_all_lines s = (Ok b, s') ∧ shows nothing s s' ∧ (∀ i, LF ∉ buf s' i) ∧ (b = false → s' = s).
Proof.
  unfold flush_all_lines. erewrite bind_eq_ok by done. apply flush_lines_spec. unfold total, lines_fuel. lia.
Qed.

Lemma flush_each_spec l s :
  Forall (λ i, i < length (clients s)) l →
  ∃ s', for_each flush l s = (Ok tt, s') ∧ shows nothing s s' ∧ ∀ i, i ∈ l ∨ buf s i = [] → buf s' i = [].
Proof.
  revert s. induction l as [|i l IH]; intros s Hl.
  { exists s. split_and!; [done|apply shows_refl|]. intros i [Hi|?]; [by apply elem_of_nil in Hi|done]. }
  inversion Hl as [|? ? Hi Hl']; subst. cbn [for_each].
  destruct (flush_spec i s Hi) as (s1 & H1 & Hs1 & Hi1 & Hj1).
  destruct (IH s1) as (s2 & H2 & Hs2 & He); [by rewrite (shows_length _ _ _ Hs1)|].
  rewrite (bind_eq_ok _ _ _ _ _ H1). exists s2. split; [done|]. split; [by eapply shows_nothing|].
  intros j Hj. apply He. destruct (decide (j = i)) as [->|Hne]; [by right|].
  destruct Hj as [[->|Hj]%elem_of_cons|Hj]; [done|by left|right]. by rewrite Hj1.
Qed.

Lemma flush_all_spec s :
  ∃ s', flush_all s = (Ok tt, s') ∧ shows nothing s s' ∧ ∀ i, buf s' i = [].
Proof.
  unfold flush_all. erewrite bind_eq_ok by done.
  destruct (flush_each_spec (seq 0 (length (clients s))) s) as (s' & H & Hs & He).
  { apply Forall_forall. intros i Hi%elem_of_seq. lia. }
  exists s'. split_and!; try done. intros i. apply He.
  destruct (decide (i < length (clients s))) as [Hi|Hi]; [left; apply elem_of_seq; lia|right].
  apply buf_outside. lia.
Qed.

(** With no line in the buffers, a round flushes nothing. *)
Lemma flush_round_no_lines l s s' : (∀ i, LF ∉ buf s i) → flush_round l s = (Ok true, s') → False.
Proof.
  intros Hno. revert s'. induction l as [|i l IH]; intros s'; [done|]. cbn [flush_round].
  intros (b & s1 & Hb & H)%bind_ok_inv. revert Hb. unfold flush_line, client.
  intros (c & s0 & Hc & Hb)%bind_ok_inv.
  apply reads_ok_inv in Hc as [Hc ->]. apply unwrap_ok_inv in Hc.
  rewrite (proj2 (list_find_None _ _)) in Hb.
  - injection Hb as <- <-. apply bind_ok_inv in H as (b' & s2 & H2 & [Hx ->]%ret_ok_inv).
    simpl in Hx. subst b'. by eapply IH.
  - apply Forall_forall. intros x Hx ->. apply (Hno i). by rewrite (buf_lookup _ _ _ Hc).
Qed.

(** ** Timeouts and client bytes *)

Lemma set_output_shows b s s' : set_output b s = (Ok tt, s') → shows nothing s s'.
Proof. intros [= <-]. split; [|done]. by apply delivers_silent. Qed.

Lemma handle_timeout_spec s :
  ∃ s', handle_timeout s = (Ok tt, s') ∧ shows nothing s s' ∧
    (output_since_last_timeout s = false →
      (∀ i, LF ∉ buf s' i) ∧ ((∀ i, LF ∉ buf s i) → ∀ i, buf s' i = [])).
Proof.
  unfold handle_timeout. erewrite bind_eq_ok by done.
  destruct (output_since_last_timeout s) eqn:Ho.
  { eexists. split; [done|]. split; [by eapply set_output_shows|done]. }
  destruct (flush_all_lines_spec s) as (b & s1 & H1 & Hs1 & Hno & Hb). rewrite (bind_eq_ok _ _ _ _ _ H1).
  destruct (flush_all_spec s1) as (s2 & H2 & Hs2 & He). destruct b.
  - (* some line was flushed, so there was one *)
    exists s1. split_and!; try done. intros _. split; [done|]. intros Hnone. exfalso.
    revert H1. unfold flush_all_lines. erewrite bind_eq_ok by done. unfold lines_fuel. cbn [flush_lines].
    erewrite bind_eq_ok by done.
    destruct (flush_round_spec (seq 0 (length (clients s))) s) as (b' & s1' & H1' & Hs1' & Hb').
    { apply Forall_forall. intros i Hi%elem_of_seq. lia. }
    rewrite (bind_eq_ok _ _ _ _ _ H1'). destruct b'; [|done]. intros _.
    by apply (flush_round_no_lines (seq 0 (length (clients s))) s) in H1'.
  - exists s2. split_and!; [done|by eapply shows_nothing|]. intros _. split; [|done].
    intros i. rewrite He. apply not_elem_of_nil.
Qed.

(** The state after a byte was put in a buffer. *)
Definition pushed (i : ClientId) (c : SerialClient) (b : Z) (s : S) : S :=
  {| clients := <[i := {| driver := driver c; buffer := buffer c ++ [b]; color := color c |}]> (clients s);
     active_input_client := active_input_client s; last_output_client := last_output_client s;
     output_since_last_timeout := output_since_last_timeout s; input_state := input_state s; dev := dev s |}.

Lemma pushed_shows i c b s :
  clients s !! i = Some c →
  shows (only i [b]) s (pushed i c b s) ∧ buf (pushed i c b s) i = buf s i ++ [b].
Proof.
  intros Hc. assert (i < length (clients s)) by by eapply lookup_lt_Some.
  assert (Hi : buf (pushed i c b s) i = buf s i ++ [b]).
  { unfold buf. simpl. by rewrite list_lookup_insert_eq, Hc by done. }
  split; [|done]. split.
  - split; [unfold colors; simpl; rewrite list_fmap_insert; by apply list_insert_id; rewrite list_lookup_fmap, Hc|].
    split; [unfold last_ok; simpl; by rewrite length_insert|].
    exists []. split_and!; [by rewrite app_nil_r|done|]. intros j. unfold only. simpl.
    case_decide; [by subst|]. rewrite app_nil_r. unfold buf. simpl. by rewrite list_lookup_insert_ne.
  - simpl. rewrite list_fmap_insert. apply list_insert_id. by rewrite list_lookup_fmap, Hc.
Qed.

(** An empty buffer stays empty when nothing is received. *)
Lemma shows_empty s s' i : shows nothing s s' → buf s i = [] → buf s' i = [].
Proof.
  intros Hs He. apply length_zero_iff_nil. pose proof (delivers_suffix _ _ i (sh_delivers _ _ _ Hs)) as H.
  rewrite He in H. simpl in H. lia.
Qed.

(** What the full buffer of a client causes. *)
Lemma full_buffer_spec i s :
  i < length (clients s) → last_ok s →
  ∃ s', (flush i ;;
    last ← gets last_output_client;
    (match last with Some j => flush_line j ;; mret tt | None => mret tt end) ;;
    flush_all_lines ;;
    c ← client i;
    (if decide (length (buffer c) = BUFFER_LIMIT) then flush_all else mret tt) ;;
    set_output_client i) s = (Ok tt, s') ∧ shows nothing s s' ∧ buf s' i = [].
Proof.
  intros Hi Hlast. destruct (flush_spec i s Hi) as (s1 & H1 & Hs1 & He1 & _).
  pose proof (shows_length _ _ _ Hs1) as L1. rewrite (bind_eq_ok _ _ _ _ _ H1). erewrite bind_eq_ok by done.
  assert (∃ s2, (match last_output_client s1 with Some j => flush_line j ;; mret tt | None => mret tt end : SM unit) s1
    = (Ok tt, s2) ∧ shows nothing s1 s2) as (s2 & H2 & Hs2).
  { destruct (last_output_client s1) as [j|] eqn:Hl; [|exists s1; split; [done|apply shows_refl]].
    destruct (decide (j < length (clients s1))) as [Hj|Hj].
    - destruct (flush_line_spec j s1 Hj) as (b & s2 & H2 & Hs2 & _). exists s2.
      by rewrite (bind_eq_ok _ _ _ _ _ H2).
    - apply (sh_delivers _ _ _ Hs1) in Hl; [lia|done]. }
  pose proof (shows_length _ _ _ Hs2) as L2. rewrite (bind_eq_ok _ _ _ _ _ H2).
  destruct (flush_all_lines_spec s2) as (b & s3 & H3 & Hs3 & _). pose proof (shows_length _ _ _ Hs3) as L3.
  rewrite (bind_eq_ok _ _ _ _ _ H3).
  assert (shows nothing s s3) as Hs by (eapply shows_nothing; [|done]; by eapply shows_nothing).
  assert (buf s3 i = []) as He3 by (eapply shows_empty; [exact Hs3|]; by eapply shows_empty).
  destruct (lookup_lt_is_Some_2 (clients s3) i) as [c Hc]; [lia|].
  unfold client. erewrite bind_eq_ok; [|by unfold reads, index; rewrite Hc].
  rewrite (buf_lookup _ _ _ Hc) in He3. rewrite decide_False by (by rewrite He3).
  erewrite bind_eq_ok by done.
  destruct (set_output_client_spec i s3 c Hc) as (s4 & H4 & Hs4 & _).
  exists s4. split_and!; [done|by eapply shows_nothing|]. eapply shows_empty; [done|].
  by rewrite (buf_lookup _ _ _ Hc).
Qed.

(** Every buffer has room. *)
Definition serial_wf (s : S) : Prop := (∀ i, length (buf s i) < BUFFER_LIMIT) ∧ last_ok s.

Lemma serial_wf_nothing s s' : delivers nothing s s' → serial_wf s → serial_wf s'.
Proof.
  intros Hs [Hb Hl]. split; [|by apply Hs]. intros i.
  pose proof (delivers_suffix _ _ i Hs). specialize (Hb i). lia.
Qed.

Lemma handle_client_char_spec i b s :
  serial_wf s → i < length (clients s) →
  ∃ s', handle_client_char i b s = (Ok tt, s') ∧ shows (only i [b]) s s' ∧ serial_wf s'.
Proof.
  intros [Hb Hl] Hi. destruct (lookup_lt_is_Some_2 _ _ Hi) as [c Hc].
  destruct (pushed_shows i c b s Hc) as [Hp Hpi]. set (s1 := pushed i c b s) in *.
  assert (Hothers : ∀ j, j ≠ i → buf s1 j = buf s j).
  { intros j Hj. unfold s1, buf. simpl. by rewrite list_lookup_insert_ne by done. }
  assert (∀ s', shows nothing s1 s' → shows (only i [b]) s s') as Hthen.
  { intros s' Hs'. eapply shows_trans; [exact Hp|exact Hs'|]. intros j. by rewrite app_nil_r. }
  assert (last_ok s1) as Hl1 by by apply Hp.
  unfold handle_client_char, client. erewrite bind_eq_ok; [|by unfold reads, index; rewrite Hc].
  rewrite (bind_eq_ok _ _ _ tt s1) by done.
  destruct (lookup_lt_is_Some_2 (clients s1) i) as [c1 Hc1]; [by rewrite (shows_length _ _ _ Hp)|].
  erewrite bind_eq_ok; [|by unfold reads, index; rewrite Hc1].
  rewrite <-(buf_lookup _ _ _ Hc1), Hpi. specialize (Hb i) as Hbi.
  assert (∀ s', shows nothing s1 s' → (length (buf s' i) < BUFFER_LIMIT) → serial_wf s') as Hwf.
  { intros s' Hs' Hlt. split; [|by apply Hs']. intros j. destruct (decide (j = i)) as [->|Hj]; [done|].
    pose proof (delivers_suffix _ _ j (sh_delivers _ _ _ Hs')) as H. rewrite Hothers in H by done.
    specialize (Hb j). lia. }
  case_decide as Hlim.
  - destruct (full_buffer_spec i s1) as (s' & Hrun & Hs' & He); [by rewrite (shows_length _ _ _ Hp)|done|].
    exists s'. split_and!; [done|by apply Hthen|]. apply Hwf; [done|]. rewrite He. unfold BUFFER_LIMIT. simpl. lia.
  - assert (length (buf s1 i) < BUFFER_LIMIT) as Hlt.
    { rewrite Hpi, length_app in *. simpl in *. lia. }
    do 2 (erewrite bind_eq_ok by done). destruct (_ || _).
    + destruct (flush_spec i s1) as (s' & Hrun & Hs' & He & _); [by rewrite (shows_length _ _ _ Hp)|].
      exists s'. split_and!; [done|by apply Hthen|]. apply Hwf; [done|]. rewrite He. unfold BUFFER_LIMIT. simpl. lia.
    + exists s1. split_and!; [done|done|]. by apply Hwf; [apply shows_refl|].
Qed.

(** ** The channels *)

Lemma on_driver_ok {A} i (m : BM A) s a s' :
  on_driver i m s = (Ok a, s') →
  ∃ c d, clients s !! i = Some c ∧ m (driver c) = (Ok a, d) ∧
    clients s' = <[i := {| driver := d; buffer := buffer c; color := color c |}]> (clients s) ∧
    delivers nothing s s'.
Proof.
  unfold on_driver, client. intros (c & s0 & Hc & H)%bind_ok_inv.
  apply reads_ok_inv in Hc as [Hc ->]. apply unwrap_ok_inv in Hc.
  destruct (m (driver c)) as [o d] eqn:Hm.
  apply bind_ok_inv in H as (l & s1 & [-> ->]%gets_ok_inv & H).
  apply bind_ok_inv in H as ([] & s1 & ->%modify_ok_inv & [-> ->]%lift_ok_inv).
  exists c, d. split_and!; try done. apply delivers_silent; simpl; try done.
  - unfold colors. simpl. rewrite list_fmap_insert. apply list_insert_id. by rewrite list_lookup_fmap, Hc.
  - intros j. unfold buf. simpl. destruct (decide (j = i)) as [->|Hj].
    + rewrite list_lookup_insert_eq by (by eapply lookup_lt_Some). by rewrite Hc.
    + by rewrite list_lookup_insert_ne.
Qed.

(** The driver of a client. *)
Definition driver_of (s : S) (i : ClientId) : option BufferedRingBuffer := driver <$> clients s !! i.

Lemma rx_loop_ok i n b0 s s' d :
  serial_wf s → driver_of s i = Some d → rx_loop i n b0 s = (Ok tt, s') →
  ∃ bs d', drain n b0 d = (Ok bs, d') ∧ delivers (only i bs) s s' ∧ serial_wf s' ∧ driver_of s' i = Some d'.
Proof.
  revert b0 s d. induction n as [|n IH]; intros b0 s d Hwf Hd.
  { intros [_ ->]%ret_ok_inv. exists [], d. split_and!; try done.
    eapply delivers_trans; [apply delivers_refl|apply delivers_refl|]. intros j. unfold only. by case_decide. }
  cbn [rx_loop drain]. intros (bs & s1 & H1 & H)%bind_ok_inv.
  apply on_driver_ok in H1 as (c & d1 & Hc & Hrx & Hcl & Hs1). unfold driver_of in Hd. rewrite Hc in Hd.
  injection Hd as <-. set (b := match bs with b :: _ => b | [] => b0 end) in *.
  assert (i < length (clients s1)) as Hi.
  { rewrite Hcl, length_insert. by eapply lookup_lt_Some. }
  destruct (handle_client_char_spec i b s1) as (s2 & H2 & Hs2 & Hwf2); [by eapply serial_wf_nothing|done|].
  rewrite (bind_eq_ok _ _ _ _ _ H2) in H.
  destruct (IH b s2 d1) as (bs' & d' & Hdr & Hs' & Hwf' & Hd'); [done| |done|].
  { unfold driver_of. rewrite <-list_lookup_fmap, (sh_drivers _ _ _ Hs2), list_lookup_fmap, Hcl.
    rewrite list_lookup_insert_eq by (by eapply lookup_lt_Some). done. }
  exists (b :: bs'), d'. split_and!; try done.
  - rewrite (bind_eq_ok _ _ _ _ _ Hrx). fold b. by rewrite (bind_eq_ok _ _ _ _ _ Hdr).
  - eapply delivers_trans; [exact Hs1| |by intros j; rewrite app_nil_l].
    eapply delivers_trans; [apply Hs2|exact Hs'|]. intros j. unfold only. by case_decide.
Qed.

Lemma on_driver_eq {A} i (m : BM A) (s : S) c a d :
  clients s !! i = Some c → m (driver c) = (Ok a, d) → ∃ s', on_driver i m s = (Ok a, s').
Proof.
  intros Hc Hm. unfold on_driver, client. erewrite bind_eq_ok; [|by unfold reads, index; rewrite Hc].
  rewrite Hm. by eexists.
Qed.

Lemma driver_client s i d : driver_of s i = Some d → ∃ c, clients s !! i = Some c ∧ driver c = d.
Proof. unfold driver_of. intros (c & Hc & ->)%fmap_Some. by exists c. Qed.

(** As long as the channel gives bytes, the loop goes on. *)
Lemma rx_loop_run i n b0 s d bs d' :
  serial_wf s → driver_of s i = Some d → drain n b0 d = (Ok bs, d') → ∃ s', rx_loop i n b0 s = (Ok tt, s').
Proof.
  revert b0 s d bs d'. induction n as [|n IH]; intros b0 s d bs d' Hwf Hd Hdr; [by eexists|].
  cbn [rx_loop]. apply driver_client in Hd as (c & Hc & <-). cbn [drain] in Hdr.
  apply bind_ok_inv in Hdr as (l & d1 & Hrx & Hdr). cbv zeta in Hdr.
  apply bind_ok_inv in Hdr as (rest & d2 & Hdr & _).
  destruct (on_driver_eq i _ s c _ _ Hc Hrx) as [s1 H1]. rewrite (bind_eq_ok _ _ _ _ _ H1).
  apply on_driver_ok in H1 as (c' & d1' & Hc' & Hrx' & Hcl & Hs1). simplify_eq. rewrite Hrx in Hrx'.
  injection Hrx' as <-.
  assert (i < length (clients s1)) as Hi by (rewrite Hcl, length_insert; by eapply lookup_lt_Some).
  set (b := match l with b :: _ => b | [] => b0 end) in *. cbv zeta.
  destruct (handle_client_char_spec i b s1) as (s2 & H2 & Hs2 & Hwf2); [by eapply serial_wf_nothing|done|].
  rewrite (bind_eq_ok _ _ _ _ _ H2). eapply (IH b s2 d1 rest d2); [done| |done].
  unfold driver_of. rewrite <-list_lookup_fmap, (sh_drivers _ _ _ Hs2), list_lookup_fmap, Hcl.
  by rewrite list_lookup_insert_eq by (by eapply lookup_lt_Some).
Qed.

(** The bytes that [handle_rx] takes from a channel. *)
Definition handle_rx_bytes (d : BufferedRingBuffer) : list Z :=
  match (n ← on_rb (reads poll_read); drain (Z.to_nat n) 0%Z) d with (Ok bs, _) => bs | _ => [] end.
Definition received (e : SerialEvent) (s : S) : ClientId → list Z :=
  match e with
  | Con i => only i (from_option handle_rx_bytes [] (driver_of s i))
  | _ => nothing
  end.

Lemma handle_rx_ok i s s' :
  serial_wf s → handle_rx i s = (Ok tt, s') → delivers (received (Con i) s) s s' ∧ serial_wf s'.
Proof.
  intros Hwf. unfold handle_rx. intros (n & s1 & H1 & H)%bind_ok_inv.
  apply on_driver_ok in H1 as (c & d & Hc & Hp & Hcl & Hs1).
  apply bind_ok_inv in H as ([] & s2 & H2 & H3).
  destruct (rx_loop_ok i (Z.to_nat n) 0%Z s1 s2 d) as (bs & d' & Hdr & Hs2 & Hwf2 & _); try done.
  { by eapply serial_wf_nothing. }
  { unfold driver_of. rewrite Hcl, list_lookup_insert_eq by (by eapply lookup_lt_Some). done. }
  apply on_driver_ok in H3 as (c' & d'' & _ & _ & _ & Hs3). split; [|by eapply serial_wf_nothing].
  eapply delivers_trans; [exact Hs1| |by intros j; rewrite app_nil_l].
  eapply delivers_trans; [exact Hs2|exact Hs3|]. intros j. rewrite app_nil_r.
  unfold received, driver_of. rewrite Hc. simpl. unfold handle_rx_bytes.
  by rewrite (bind_eq_ok _ _ _ _ _ Hp), Hdr.
Qed.

(** ** Input *)

Lemma forward_ok b s s' : forward b s = (Ok tt, s') → delivers nothing s s'.
Proof.
  unfold forward. intros (a & s1 & [-> ->]%gets_ok_inv & H)%bind_ok_inv.
  destruct (active_input_client s); [|apply ret_ok_inv in H as [_ ->]; apply delivers_refl].
  apply bind_ok_inv in H as (x & s2 & (c & d & _ & _ & _ & Hs)%on_driver_ok & [_ ->]%ret_ok_inv). done.
Qed.

Lemma clear_output_client_spec s :
  ∃ s', clear_output_client s = (Ok tt, s') ∧ delivers nothing s s' ∧ last_output_client s' = None ∧
    clients s' = clients s.
Proof.
  unfold clear_output_client. erewrite bind_eq_ok by done.
  destruct (last_output_client s) as [i|] eqn:Hl; [|exists s; split_and!; try done; apply delivers_refl].
  unfold set_last, put_bytes, set_dev, modify, gets, mbind, M_bind. cbv beta iota. eexists. split; [done|]. split_and!; try done. split; [done|]. split; [by intros _ j [=]|].
  exists [OClear]. cbn [dev]. rewrite written_put_all. split_and!; [by rewrite render_single|done|].
  intros j. by rewrite app_nil_r.
Qed.

Lemma put_text_spec bs s :
  last_output_client s = None →
  ∃ s', put_bytes bs s = (Ok tt, s') ∧ delivers nothing s s' ∧ last_output_client s' = None ∧ clients s' = clients s.
Proof.
  intros Hl. unfold put_bytes, set_dev, modify, gets, mbind, M_bind. simpl. eexists. split; [done|].
  split_and!; try done. split; [done|]. split; [done|]. exists [OText bs]. cbn [dev last_output_client]. rewrite written_put_all, Hl. split_and!; [by rewrite render_single|done|].
  intros j. by rewrite app_nil_r.
Qed.

Lemma set_input_client_ok i s s' : set_input_client i s = (Ok tt, s') → delivers nothing s s'.
Proof.
  unfold set_input_client, out. destruct (clear_output_client_spec s) as (s1 & H1 & Hs1 & Hl1 & _).
  rewrite (bind_eq_ok _ _ _ _ _ H1).
  destruct (put_text_spec (bytes_of_string ("Switching input to " +:+ pretty (N.of_nat i))) s1 Hl1)
    as (s2 & H2 & Hs2 & Hl2 & _). rewrite (bind_eq_ok _ _ _ _ _ H2).
  destruct (put_text_spec [LF] s2 Hl2) as (s3 & H3 & Hs3 & Hl3 & _). rewrite (bind_eq_ok _ _ _ _ _ H3).
  intros [= <-]. eapply delivers_nothing; [|by apply (delivers_silent s3)].
  eapply delivers_nothing; [|done]. by eapply delivers_nothing.
Qed.

Lemma handle_char_ok b s s' : handle_char b s = (Ok tt, s') → delivers nothing s s'.
Proof.
  unfold handle_char. intros (st & s0 & [-> ->]%gets_ok_inv & (st' & s1 & H & [= <-])%bind_ok_inv)%bind_ok_inv.
  assert (delivers nothing s s1) as Hs1; [|eapply delivers_nothing; [exact Hs1|by apply delivers_silent]].
  revert H. destruct (input_state s).
  - intros ([] & s2 & H2%forward_ok & [_ ->]%ret_ok_inv)%bind_ok_inv. done.
  - case_decide; [by intros [_ ->]%ret_ok_inv; apply delivers_refl|].
    intros ([] & s2 & H2%forward_ok & [_ ->]%ret_ok_inv)%bind_ok_inv. done.
  - case_decide; [by intros ([] & s2 & H2%forward_ok & [_ ->]%ret_ok_inv)%bind_ok_inv|].
    case_decide.
    + destruct (clear_output_client_spec s) as (s2 & H2 & Hs2 & Hl2 & _).
      rewrite (bind_eq_ok _ _ _ _ _ H2). erewrite bind_eq_ok by done.
      destruct (put_text_spec (help (length (clients s2))) s2 Hl2) as (s3 & H3 & Hs3 & _).
      rewrite (bind_eq_ok _ _ _ _ _ H3). intros [_ ->]%ret_ok_inv. by eapply delivers_nothing.
    + erewrite bind_eq_ok by done. cbv zeta. case_decide.
      * intros ([] & s2 & H2%set_input_client_ok & [_ ->]%ret_ok_inv)%bind_ok_inv. done.
      * intros ([] & s2 & H2%forward_ok & ([] & s3 & H3%forward_ok & [_ ->]%ret_ok_inv)%bind_ok_inv)%bind_ok_inv.
        by eapply delivers_nothing.
Qed.

Lemma set_dev_ok d s : written d = written (dev s) → delivers nothing s (set_dev d s).2.
Proof. intros Hd. by apply delivers_silent. Qed.

Lemma input_loop_ok fuel s s' : input_loop fuel s = (Ok tt, s') → delivers nothing s s'.
Proof.
  revert s. induction fuel as [|fuel IH]; intros s; cbn [input_loop].
  { intros [_ ->]%ret_ok_inv. apply delivers_refl. }
  erewrite bind_eq_ok by done. destruct (get_char (dev s)) as [o d] eqn:Hg.
  intros ([] & s1 & [= <-] & H)%bind_ok_inv.
  assert (delivers nothing s (set_dev d s).2) as Hs.
  { apply set_dev_ok. pose proof (written_get (dev s)) as Hw. by rewrite Hg in Hw. }
  eapply delivers_nothing; [exact Hs|]. destruct o; [|apply ret_ok_inv in H as [_ ->]; apply delivers_refl].
  apply bind_ok_inv in H as ([] & s2 & H2%handle_char_ok & H3%IH). by eapply delivers_nothing.
Qed.

(** ** Runs of the server *)

Lemma handle_tx_ok i s s' : handle_tx i s = (Ok tt, s') → delivers nothing s s'.
Proof.
  unfold handle_tx. intros (x & s1 & (? & ? & _ & _ & _ & H1)%on_driver_ok & (? & ? & _ & _ & _ & H2)%on_driver_ok)%bind_ok_inv.
  by eapply delivers_nothing.
Qed.

Lemma handle_serial_event_ok fuel e s s' :
  serial_wf s → handle_serial_event fuel e s = (Ok tt, s') → delivers (received e s) s s' ∧ serial_wf s'.
Proof.
  intros Hwf. destruct e as [| |i]; cbn [handle_serial_event].
  - erewrite bind_eq_ok by done. intros ([] & s1 & [= <-] & H%input_loop_ok)%bind_ok_inv.
    assert (delivers nothing s s') as Hs.
    { eapply delivers_nothing; [|exact H]. apply set_dev_ok, written_interrupt. }
    split; [done|by eapply serial_wf_nothing].
  - intros H. destruct (handle_timeout_spec s) as (s1 & H1 & Hs & _). rewrite H1 in H. injection H as <-.
    split; [apply Hs|]. eapply serial_wf_nothing; [apply Hs|done].
  - intros ([] & s1 & H1 & H2%handle_tx_ok)%bind_ok_inv.
    destruct (handle_rx_ok i s s1 Hwf H1) as [Hs1 Hwf1]. split; [|by eapply serial_wf_nothing].
    eapply delivers_trans; [exact Hs1|exact H2|]. intros j. by rewrite app_nil_r.
Qed.

(** Between events, the peers change their channels and the device its input. *)
Record environment (s s' : S) : Prop := {
  en_clients : ((λ c, (buffer c, color c)) <$> clients s') = ((λ c, (buffer c, color c)) <$> clients s);
  en_last : last_output_client s' = last_output_client s;
  en_written : written (dev s') = written (dev s);
}.

Lemma environment_ok s s' : environment s s' → delivers nothing s s'.
Proof.
  intros [Hc Hl Hw]. apply delivers_silent; try done.
  - apply (f_equal (fmap snd)) in Hc. by rewrite <-!list_fmap_compose in Hc.
  - intros i. apply (f_equal (lookup i)) in Hc. rewrite !list_lookup_fmap in Hc. unfold buf.
    destruct (clients s' !! i), (clients s !! i); by simplify_eq/=.
Qed.

(** The states that a server reaches, with what it received from each client. *)
Inductive serial_reachable (s0 : S) : S → (ClientId → list Z) → Prop :=
| serial_start : serial_reachable s0 s0 nothing
| serial_event s rcv fuel e s' :
    serial_reachable s0 s rcv → handle_serial_event fuel e s = (Ok tt, s') →
    serial_reachable s0 s' (λ i, rcv i ++ received e s i)
| serial_environment s rcv s' :
    serial_reachable s0 s rcv → environment s s' → serial_reachable s0 s' rcv.

Lemma serial_reachable_ok s0 s rcv :
  serial_wf s0 → serial_reachable s0 s rcv → delivers rcv s0 s ∧ serial_wf s.
Proof.
  intros H0. induction 1 as [|s rcv fuel e s' _ [IH Hwf] He|s rcv s' _ [IH Hwf] He%environment_ok].
  - split; [apply delivers_refl|done].
  - destruct (handle_serial_event_ok fuel e s s' Hwf He) as [Hs Hwf']. split; [|done].
    by eapply delivers_trans.
  - split; [|by eapply serial_wf_nothing]. eapply delivers_trans; [exact IH|exact He|].
    intros i. by rewrite app_nil_r.
Qed.

Lemma serial_new_ok d rbs s :
  serial_new d rbs = Ok s → serial_wf s ∧ dev s = d ∧ last_output_client s = None ∧ (∀ i, buf s i = []).
Proof.
  unfold serial_new. case_bool_decide; [|done].
  assert (∀ l i cs, mk_clients i l = Ok cs → ∀ c, c ∈ cs → buffer c = []) as Hmk.
  { induction l as [|rb l IH]; intros i cs; simpl.
    - intros [= <-] c Hc. by apply elem_of_nil in Hc.
    - destruct (index COLORS i) as [col| |]; simpl; try done.
      destruct (mk_clients _ l) as [rest| |] eqn:Hr; simpl; try done. intros [= <-] c [->|Hc]%elem_of_cons; [done|].
      by eapply IH. }
  destruct (mk_clients 0 rbs) as [cs| |] eqn:Hcs; simpl; try done. intros [= <-].
  assert (∀ i, from_option buffer [] (cs !! i) = []) as Hb.
  { intros i. destruct (cs !! i) eqn:Hi; [|done]. simpl. eapply Hmk; [done|]. by eapply list_elem_of_lookup_2. }
  split_and!; try done. split; [|done]. intros i. unfold buf. simpl. rewrite Hb. unfold BUFFER_LIMIT. simpl. lia.
Qed.

(** C16: the serial server shows what its clients write, whole, in order and in their colours.
    After any sequence of events and of changes by the peers and the device, what was written to
    the device is a sequence of client bytes, colours and texts of the server in which every
    byte of a client comes while that client's colour is set and every text while none is;
    the bytes of a client that were written, followed by those in its buffer, are exactly the
    bytes received from it; and no buffer is full. *)
Theorem serial_output_faithful (d : D) rbs s0 s rcv :
  serial_new d rbs = Ok s0 → serial_reachable s0 s rcv →
  ∃ os, written (dev s) = written d ++ render (colors s) os ∧
    coloured None os = Some (last_output_client s) ∧
    (∀ i, rcv i = displayed i os ++ buf s i) ∧ (∀ i, length (buf s i) < BUFFER_LIMIT).
Proof.
  intros Hnew Hr. destruct (serial_new_ok d rbs s0 Hnew) as (Hwf & Hd & Hl & Hb).
  destruct (serial_reachable_ok s0 s rcv Hwf Hr) as [(Hc & _ & os & Hw & Hcol & Hbuf) [Hlim _]].
  exists os. rewrite Hd in Hw. rewrite Hl in Hcol. rewrite Hc. split_and!; try done.
  intros i. specialize (Hbuf i). by rewrite Hb in Hbuf.
Qed.

(** Nothing stays in the buffers.  A timeout is always handled; when nothing was written since
    the one before, every complete line is written, and when there was none, everything is. *)
Lemma timeout_flushes (s : S) :
  ∃ s', handle_serial_event 0 Timeout s = (Ok tt, s') ∧ delivers nothing s s' ∧
    (output_since_last_timeout s = false →
      (∀ i, LF ∉ buf s' i) ∧ ((∀ i, LF ∉ buf s i) → ∀ i, buf s' i = [])).
Proof. destruct (handle_timeout_spec s) as (s' & H & Hs & Hf). exists s'. split_and!; [done|apply Hs|done]. Qed.
End spec.

(** ** What is received is what the peer sent *)

Lemma p_r_recvd p q : rb_reachable (p, q) → p_r p = Z.of_nat (length (p_recvd p)).
Proof.
  intros [_ Hqp]%rb_reachable_inv. simpl in Hqp. pose proof (si_order _ _ Hqp). pose proof (si_sent _ _ Hqp).
  rewrite (si_recvd _ _ Hqp), length_take. lia.
Qed.

Lemma rx_one p q qs :
  rb_reachable (p, q) → (0 < offset_w (ctrl (p_side q)) - p_r p)%Z →
  ∃ b p' q', rx_into 1 {| b_rb := view p q; b_q := qs |} = (Ok [b], {| b_rb := view p' q'; b_q := qs |}) ∧
    rb_reachable (p', q') ∧ p_recvd p' = p_recvd p ++ [b] ∧
    offset_w (ctrl (p_side q')) = offset_w (ctrl (p_side q)) ∧ p_sent q' = p_sent q.
Proof.
  intros Hreach Hpos. pose proof (rb_reachable_inv _ Hreach) as [_ Hqp]. simpl in Hqp.
  unfold rx_into. erewrite bind_eq_ok by (apply on_rb_eq; unfold reads; by rewrite (poll_read_eq q p Hqp)).
  cbv zeta. rewrite Z.min_l by lia. change (Z.to_nat (Z.of_nat 1)) with 1. cbn [Nat.ltb Nat.leb].
  destruct (read_step p q 1 Hreach) as (bs & p1 & Hrun & Hr1 & Hlen & Hrec); [lia|].
  erewrite bind_eq_ok by (apply on_rb_eq; exact Hrun).
  destruct (notify_read_step p1 q Hr1) as (p' & q' & Hn & Hr & Hrec' & _ & Hs & Hw).
  erewrite bind_eq_ok by (apply on_rb_eq; exact Hn).
  destruct bs as [|b [|]]; [done| |done]. exists b, p', q'.
  split_and!; [done|done|by rewrite Hrec'|done|done].
Qed.

Lemma drain_stream n b0 p q qs :
  rb_reachable (p, q) → (Z.of_nat n ≤ offset_w (ctrl (p_side q)) - p_r p)%Z →
  ∃ bs p' q', drain n b0 {| b_rb := view p q; b_q := qs |} = (Ok bs, {| b_rb := view p' q'; b_q := qs |}) ∧
    rb_reachable (p', q') ∧ length bs = n ∧ p_recvd p' = p_recvd p ++ bs ∧
    p_sent q' = p_sent q.
Proof.
  revert b0 p q. induction n as [|n IH]; intros b0 p q Hreach Hle.
  { exists [], p, q. by rewrite app_nil_r. }
  cbn [drain]. destruct (rx_one p q qs Hreach) as (b & p1 & q1 & H1 & Hr1 & Hrec1 & Hw1 & Hs1); [lia|].
  rewrite (bind_eq_ok _ _ _ _ _ H1). cbv zeta iota.
  destruct (IH b p1 q1 Hr1) as (bs & p' & q' & H2 & Hr' & Hlen & Hrec' & Hs').
  { rewrite Hw1, (p_r_recvd p1 q1 Hr1), Hrec1, length_app. rewrite (p_r_recvd p q Hreach) in Hle. simpl. lia. }
  rewrite (bind_eq_ok _ _ _ _ _ H2). exists (b :: bs), p', q'. split_and!; [done|done|by simpl; rewrite Hlen| |].
  - by rewrite Hrec', Hrec1, <-app_assoc.
  - by rewrite Hs'.
Qed.

Section receive.
Context {D : Type} `{!SerialDevice D} `{!SerialDeviceLaws D}.

(** The server receives what its clients send.  Handling a client's channel succeeds and
    takes every byte that the client has published and the server has not taken yet; these are the
    next bytes of the client's stream, and they are shown or kept in the client's buffer. *)
Lemma serial_receives_stream (s : SerialServer D) i p q qs :
  serial_wf s → driver_of s i = Some {| b_rb := view p q; b_q := qs |} → rb_reachable (p, q) →
  ∃ bs s', handle_rx i s = (Ok tt, s') ∧ delivers (only i bs) s s' ∧
    Z.of_nat (length bs) = (offset_w (ctrl (p_side q)) - p_r p)%Z ∧ (p_recvd p ++ bs) `prefix_of` p_sent q.
Proof.
  intros Hwf Hd Hreach. pose proof (rb_reachable_inv _ Hreach) as [_ Hqp]. simpl in Hqp.
  pose proof (si_order _ _ Hqp). destruct (driver_client s i _ Hd) as (c & Hc & Hdc).
  set (n := (offset_w (ctrl (p_side q)) - p_r p)%Z) in *.
  assert (Hpoll : on_rb (reads poll_read) (driver c) = (Ok n, driver c)).
  { rewrite Hdc. apply on_rb_eq. unfold reads. by rewrite (poll_read_eq q p Hqp). }
  destruct (drain_stream (Z.to_nat n) 0%Z p q qs Hreach) as (bs & p' & q' & Hrun & Hr' & Hlen & Hrec & Hs); [lia|].
  destruct (on_driver_eq i _ s c _ _ Hc Hpoll) as [s1 H1].
  pose proof (on_driver_ok _ _ _ _ _ H1) as (c' & d' & Hc' & Hp' & Hcl & Hs1). simplify_eq. rewrite Hpoll in Hp'.
  injection Hp' as <-.
  assert (Hd1 : driver_of s1 i = Some (driver c)).
  { unfold driver_of. by rewrite Hcl, list_lookup_insert_eq by (by eapply lookup_lt_Some). }
  rewrite <-Hdc in Hrun. assert (serial_wf s1) as Hwf1 by by eapply serial_wf_nothing.
  destruct (rx_loop_run i (Z.to_nat n) 0%Z s1 (driver c) bs _ Hwf1 Hd1 Hrun) as [s2 H2].
  destruct (rx_loop_ok i (Z.to_nat n) 0%Z s1 s2 (driver c) Hwf1 Hd1 H2) as (bs' & d2 & Hdr & Hs2 & _ & Hd2).
  apply driver_client in Hd2 as (c2 & Hc2 & Hdc2).
  destruct (on_driver_eq i (on_rb enable_notify_read) s2 c2 tt _ Hc2 eq_refl) as [s3 H3].
  assert (Hall : handle_rx i s = (Ok tt, s3)).
  { unfold handle_rx. rewrite (bind_eq_ok _ _ _ _ _ H1). by rewrite (bind_eq_ok _ _ _ _ _ H2). }
  exists bs, s3. split; [done|]. destruct (handle_rx_ok i s s3 Hwf Hall) as [Hdel _].
  unfold received in Hdel. rewrite Hd in Hdel. simpl in Hdel. unfold handle_rx_bytes in Hdel.
  rewrite <-Hdc, (bind_eq_ok _ _ _ _ _ Hpoll), Hrun in Hdel. split; [done|]. split; [lia|].
  rewrite <-Hrec, <-Hs. destruct (rb_reachable_inv _ Hr') as [_ Hqp']. simpl in Hqp'.
  rewrite (si_recvd _ _ Hqp'). eexists. symmetry. apply take_drop.
Qed.
End receive.

(** ** A closed example *)
Module SerialDemo.
(** Input to come and output so far. *)
Definition device : Type := list Z * list Z.
#[export] Instance demo_device : SerialDevice device := {|
  put_char c d := (d.1, d.2 ++ [c]);
  get_char d := match d.1 with [] => (None, d) | c :: l => (Some c, (l, d.2)) end;
  dev_handle_interrupt d := d;
|}.
#[export] Instance demo_device_laws : SerialDeviceLaws device.
Proof. refine {| written d := d.2 |}; [done| |done]. intros [[|c l] o]; done. Defined.

(** A channel whose other side has written three bytes, the last a line feed. *)
Definition server_side : Peer := fresh 8 demo_ring.
Definition run_client (o : rb_op) (pq : Peer * Peer) : Peer * Peer :=
  match run_rb o (view pq.2 pq.1) with
  | (Ok got, rb) => (other_after pq.1 rb, peer_after pq.2 rb o got)
  | _ => pq
  end.
Definition sent : Peer * Peer :=
  run_client OpNotifyWrite (run_client (OpWrite [72; 105; 10]%Z) (server_side, server_side)).
Definition channel : BufferedRingBuffer := {| b_rb := view sent.1 sent.2; b_q := [] |}.

Definition start (d : BufferedRingBuffer) : SerialServer device :=
  {| clients := [{| driver := d; buffer := []; color := MkColor Red Normal |}];
     active_input_client := Some 0; last_output_client := None; output_since_last_timeout := false;
     input_state := Start; dev := ([], []) |}.
Definition quiet : RingBuffer := view server_side server_side.
End SerialDemo.
#[local] Existing Instances SerialDemo.demo_device SerialDemo.demo_device_laws.

Lemma sent_reachable : rb_reachable SerialDemo.sent.
Proof.
  eapply rb_next; [eapply rb_next; [apply rb_init; apply demo_ring_ok|]|].
  - eapply (rb_step_second _ _ (OpWrite [72; 105; 10]%Z)).
    + split; [|reflexivity]. eexists. split; [reflexivity|discriminate].
    + reflexivity.
  - eapply (rb_step_second _ _ OpNotifyWrite); [exact I|reflexivity].
Qed.

(** The line is shown in red. *)
Lemma serial_output_faithful_witness :
  let s := (handle_serial_event 0 (Con 0) (SerialDemo.start SerialDemo.channel)).2 in
  ∃ os, written (dev s) = [] ++ render (colors s) os ∧ displayed 0 os ++ buf s 0 = [72; 105; 10]%Z.
Proof.
  intros s.
  assert (serial_reachable (SerialDemo.start (buffered_new SerialDemo.quiet)) s
    (λ i, nothing i ++ received (Con 0) (SerialDemo.start SerialDemo.channel) i)) as Hr.
  { eapply (serial_event _ (SerialDemo.start SerialDemo.channel) nothing 0 (Con 0)).
    - eapply serial_environment; [apply serial_start|]. split; reflexivity.
    - vm_compute. reflexivity. }
  destruct (serial_output_faithful ([], []) [SerialDemo.quiet] (SerialDemo.start (buffered_new SerialDemo.quiet)) s _
    eq_refl Hr) as (os & Hw & _ & Hb & _).
  exists os. split; [exact Hw|]. etransitivity; [symmetry; exact (Hb 0)|]. vm_compute. reflexivity.
Defined.

