(* ===== verification/TimerServer.v ===== *)
(** * TimerServer: multiplexing one hardware timer among clients

    Model of [framework/generic-components/timer-server/src/server.rs] and of the request
    dispatch of [main.rs].

    The device is the class [TimerDevice], the trait of [drivers/interfaces]: reading the
    count may give a new value each time, so it is state passing, too.  Signals to clients
    are a log.  [Tick] and [Nanosecond] are [i64], [Z] here with wrap-around written out.
    [BTreeMap] and [BTreeSet] are finite maps and sets.  The two loops of the source, over
    the due timers and of [update] through [update_device], take fuel; running out of it is
    the error [OutOfFuel], which the source does not have. *)

From S2P Require Import Prelude.

Local Open Scope Z_scope.

Abbreviation ClientId := nat.
Abbreviation TimerId := Z (only parsing).
Abbreviation Tick := Z (only parsing).
Abbreviation Nanosecond := Z (only parsing).

Definition NS_IN_S : Z := 1000000000.

(** [x as i64]. *)
Definition as_i64 (z : Z) : Z := (z + 2 ^ 63) mod 2 ^ 64 - 2 ^ 63.
(** [x as u64]. *)
Definition as_u64 (z : Z) : Z := z mod 2 ^ 64.

Record Timer := {
  client : ClientId;
  timer : TimerId;
  compare : Tick;
  period : option Tick;
}.

(** ** [Vec::binary_search] with the order of [Timer], by [compare] *)

(** The loop of the standard library: [left], [right] and the size between them. *)
Fixpoint binary_search_loop (fuel : nat) (l : list Timer) (key : Tick) (left right : nat) : nat + nat :=
  match fuel with
  | O => inr left
  | S fuel =>
      if (left <? right)%nat then
        let mid := (left + (right - left) / 2)%nat in
        match l !! mid with
        | None => inr left
        | Some t =>
            match compare t ?= key with
            | Lt => binary_search_loop fuel l key (mid + 1)%nat right
            | Gt => binary_search_loop fuel l key left mid
            | Eq => inl mid
            end
        end
      else inr left
  end.

(** [inl]: found there; [inr]: where to insert.  Each turn halves the range. *)
Definition binary_search (l : list Timer) (key : Tick) : nat + nat :=
  binary_search_loop (S (length l)) l key 0 (length l).

Definition timers_insert (l : list Timer) (t : Timer) : list Timer :=
  let pos := match binary_search l (compare t) with inl p => p | inr p => p end in
  take pos l ++ t :: drop pos l.

(** [Timers::compare]. *)
Definition timers_compare (l : list Timer) : option Tick := compare <$> head l.

(** ** The device *)

Class TimerDevice (D : Type) := {
  get_freq : D → Z;
  set_enable : bool → D → D;
  get_count : D → Z * D;
  set_compare : Z → D → bool * D;
  clear_interrupt : D → D;
}.

(** ** The server *)

Record Server (D : Type) := {
  clients : nat;
  signals : list ClientId;
  timers_per_client : TimerId;
  completed : gmap ClientId (gset Z);
  outstanding : list Timer;
  device : D;
  freq : Z;
}.
Arguments clients {D} _.
Arguments signals {D} _.
Arguments timers_per_client {D} _.
Arguments completed {D} _.
Arguments outstanding {D} _.
Arguments device {D} _.
Arguments freq {D} _.

Inductive TimerError := TimerErr | OutOfFuel.

Section server.
Context {D : Type} `{!TimerDevice D}.

Abbreviation SM := (M (Server D) TimerError).

Definition with_signals (s : Server D) (v : list ClientId) : Server D :=
  {| clients := clients s; signals := v; timers_per_client := timers_per_client s;
     completed := completed s; outstanding := outstanding s; device := device s; freq := freq s |}.
Definition with_completed (s : Server D) (v : gmap ClientId (gset Z)) : Server D :=
  {| clients := clients s; signals := signals s; timers_per_client := timers_per_client s;
     completed := v; outstanding := outstanding s; device := device s; freq := freq s |}.
Definition with_outstanding (s : Server D) (v : list Timer) : Server D :=
  {| clients := clients s; signals := signals s; timers_per_client := timers_per_client s;
     completed := completed s; outstanding := v; device := device s; freq := freq s |}.
Definition with_device (s : Server D) (v : D) : Server D :=
  {| clients := clients s; signals := signals s; timers_per_client := timers_per_client s;
     completed := completed s; outstanding := outstanding s; device := v; freq := freq s |}.

(** [Server::new]; [n] is the number of clients. *)
Definition server_new (n : nat) (timers_per_client : TimerId) (d : D) : outcome TimerError (Server D) :=
  if negb (n <=? 64)%nat then Panic
  else if negb (Z.leb timers_per_client 64) then Panic
  else Ok {| clients := n; signals := []; timers_per_client := timers_per_client;
             completed := list_to_map ((λ c, (c, ∅)) <$> seq 0 n);
             outstanding := []; device := d; freq := get_freq d |}.

(** The products are of [i128], which hold them; the quotients truncate; a zero
    frequency divides by zero. *)
Definition ns_to_tick (s : Server D) (ns : Nanosecond) : Tick := as_i64 (Z.quot (ns * freq s) NS_IN_S).
Definition tick_to_ns (s : Server D) (tick : Tick) : outcome TimerError Nanosecond :=
  if Z.eqb (freq s) 0 then Panic else Ok (as_i64 (Z.quot (tick * NS_IN_S) (freq s))).

Definition signal (c : ClientId) : SM unit :=
  n ← gets clients;
  if (c <? n)%nat then modify (λ s, with_signals s (signals s ++ [c])) else panic.

Definition now_tick : SM Tick := λ s,
  let '(c, d) := get_count (device s) in (Ok (as_i64 c), with_device s d).

Definition now_ns : SM Nanosecond :=
  t ← now_tick; reads (λ s, tick_to_ns s t).

(** [self.completed.get_mut(&cid).unwrap()], then an operation on the set. *)
Definition on_completed (c : ClientId) (f : gset Z → gset Z) : SM unit :=
  m ← gets completed;
  match m !! c with
  | None => panic
  | Some x => modify (λ s, with_completed s (<[c := f x]> m))
  end.

(** One turn of the loop of [update_timers], on the first timer [t]. *)
Definition expire (t : Timer) (rest : list Timer) : SM unit :=
  modify (λ s, with_outstanding s rest);;
  on_completed (client t) (λ x, {[timer t]} ∪ x);;
  (match period t with
   | None => mret tt
   | Some p =>
       let t' := {| client := client t; timer := timer t; compare := as_i64 (compare t + p);
                    period := Some p |} in
       modify (λ s, with_outstanding s (timers_insert (outstanding s) t'))
   end);;
  signal (client t).

Fixpoint update_loop (fuel : nat) (count : Tick) : SM unit :=
  l ← gets outstanding;
  match l with
  | [] => mret tt
  | t :: rest =>
      if Z.leb (compare t) count then
        match fuel with
        | O => throw OutOfFuel
        | S fuel => expire t rest;; update_loop fuel count
        end
      else mret tt
  end.

(** The number of turns timer [t] takes until [count]. *)
Definition expiries (count : Tick) (t : Timer) : nat :=
  if Z.leb (compare t) count then
    match period t with
    | None => 1
    | Some p => S (Z.to_nat ((count - compare t) / p))
    end
  else 0.

Definition update_timers (count : Tick) : SM unit :=
  l ← gets outstanding; update_loop (sum_list (expiries count <$> l)) count.

Fixpoint update (fuel : nat) (count : Tick) : SM unit :=
  match fuel with
  | O => throw OutOfFuel
  | S fuel =>
      update_timers count;;
      l ← gets outstanding;
      match timers_compare l with
      | Some t =>
          ok ← (λ s, let '(b, d) := set_compare (as_u64 t) (device s) in (Ok b, with_device s d));
          if (ok : bool) then modify (λ s, with_device s (set_enable true (device s)))
          else now ← now_tick; update fuel now
      | None => modify (λ s, with_device s (set_enable false (device s)))
      end
  end.

Definition handle_interrupt (fuel : nat) : SM unit :=
  modify (λ s, with_device s (clear_interrupt (device s)));;
  now ← now_tick; update fuel now.

Definition guard_tid (tid : TimerId) : SM unit :=
  n ← gets timers_per_client;
  if Z.gtb tid n then throw TimerErr else mret tt.

Definition is_timer (cid : ClientId) (tid : TimerId) (t : Timer) : bool :=
  (client t =? cid)%nat && Z.eqb (timer t) tid.

(** [drain_filter] removes the matching timers one by one. *)
Definition remove_timer (cid : ClientId) (tid : TimerId) : SM unit :=
  l ← gets outstanding;
  modify (λ s, with_outstanding s (base.filter (λ t, is_timer cid tid t = false) l));;
  for_each (λ _, on_completed cid (λ x, x ∖ {[tid]}))
    (base.filter (λ t, is_timer cid tid t = true) l).

Definition set_timer (t : Timer) : SM unit :=
  remove_timer (client t) (timer t);;
  modify (λ s, with_outstanding s (timers_insert (outstanding s) t)).

Definition oneshot_relative (fuel : nat) (cid : ClientId) (tid : TimerId) (ns : Nanosecond) : SM unit :=
  guard_tid tid;;
  now ← now_tick;
  ticks ← gets (λ s, ns_to_tick s ns);
  set_timer {| client := cid; timer := tid; compare := as_i64 (now + ticks); period := None |};;
  update fuel now.

Definition oneshot_absolute (fuel : nat) (cid : ClientId) (tid : TimerId) (ns : Nanosecond) : SM unit :=
  guard_tid tid;;
  now ← now_tick;
  ticks ← gets (λ s, ns_to_tick s ns);
  set_timer {| client := cid; timer := tid; compare := ticks; period := None |};;
  update fuel now.

Definition periodic (fuel : nat) (cid : ClientId) (tid : TimerId) (ns : Nanosecond) : SM unit :=
  guard_tid tid;;
  now ← now_tick;
  p ← gets (λ s, ns_to_tick s ns);
  set_timer {| client := cid; timer := tid; compare := as_i64 (now + p); period := Some p |};;
  update fuel now.

Definition stop (cid : ClientId) (tid : TimerId) : SM unit :=
  guard_tid tid;; remove_timer cid tid.

(** [1 << tid] on a [u64]: the shift amount is taken modulo 64. *)
Definition completed_mask (x : gset Z) : Z :=
  set_fold (λ tid mask, Z.lor mask (word_shl 64 1 (tid mod 64))) 0 x.

Definition take_completed (cid : ClientId) : SM Z :=
  m ← gets completed;
  match m !! cid with
  | None => panic
  | Some x =>
      modify (λ s, with_completed s (<[cid := ∅]> m));; mret (completed_mask x)
  end.

Definition time (cid : ClientId) : SM Nanosecond := now_ns.

(** ** Requests *)

Inductive Request :=
| ReqCompleted
| ReqPeriodic (tid : TimerId) (ns : Z)
| ReqOneshotAbsolute (tid : TimerId) (ns : Z)
| ReqOneshotRelative (tid : TimerId) (ns : Z)
| ReqStop (tid : TimerId)
| ReqTime.

Definition INTERRUPT_BADGE : Z := 1.
Definition CLIENT_BADGE_START : Z := INTERRUPT_BADGE + 1.

(** One turn of [run]: the reply is [None] for an interrupt and for a unit result, [Some]
    of the time for [Time], and [Err TimerErr] the error value sent back to the client. *)
Definition serve (fuel : nat) (badge : Z) (r : Request) : SM (option Z) :=
  if Z.eqb badge INTERRUPT_BADGE then handle_interrupt fuel;; mret None
  else
    let cid := Z.to_nat (as_u64 (badge - CLIENT_BADGE_START)) in
    match r with
    | ReqCompleted => panic
    | ReqPeriodic tid ns => periodic fuel cid tid (as_i64 ns);; mret None
    | ReqOneshotAbsolute tid ns => oneshot_absolute fuel cid tid (as_i64 ns);; mret None
    | ReqOneshotRelative tid ns => oneshot_relative fuel cid tid (as_i64 ns);; mret None
    | ReqStop tid => stop cid tid;; mret None
    | ReqTime => t ← time cid; mret (Some (as_u64 t))
    end.
End server.
