(* ===== verification/TimerServerSpec.v ===== *)
(** * TimerServerSpec: correctness of the timer server

    The queue of timers stays sorted with one entry per client and timer; a pass over the
    due timers ends, completes and signals exactly the due ones and moves each periodic
    timer to its first deadline after the current count; a timer of period zero makes it
    loop forever. *)

From S2P Require Import Prelude TimerServer.

Local Open Scope Z_scope.

(** ** The sorted queue *)

Definition timer_le (a b : Timer) : Prop := compare a ≤ compare b.

Definition sorted (l : list Timer) : Prop := StronglySorted timer_le l.

Lemma sorted_lookup l i j a b :
  sorted l → (i ≤ j)%nat → l !! i = Some a → l !! j = Some b → compare a ≤ compare b.
Proof.
  unfold sorted. intros Hs. revert i j. induction Hs as [|t l Hs IH Hall]; intros i j Hij Ha Hb; [done|].
  destruct i as [|i], j as [|j]; simpl in *; simplify_eq; [done| |lia|].
  - by eapply Forall_lookup_1 in Hall.
  - eapply (IH i j); [lia|done..].
Qed.

(** [p] splits [l] at [key]. *)
Definition splits (l : list Timer) (key : Z) (p : nat) : Prop :=
  (p ≤ length l)%nat ∧
  (∀ i t, (i < p)%nat → l !! i = Some t → compare t ≤ key) ∧
  (∀ i t, (p ≤ i)%nat → l !! i = Some t → key ≤ compare t).

Lemma binary_search_loop_spec fuel l key left right :
  sorted l → (right - left < fuel)%nat → (left ≤ right ≤ length l)%nat →
  (∀ i t, (i < left)%nat → l !! i = Some t → compare t ≤ key) →
  (∀ i t, (right ≤ i)%nat → l !! i = Some t → key ≤ compare t) →
  splits l key (match binary_search_loop fuel l key left right with inl p => p | inr p => p end).
Proof.
  intros Hs. revert left right. induction fuel as [|fuel IH]; intros left right Hf Hr Hlo Hhi; [lia|].
  simpl. destruct (Nat.ltb_spec left right) as [Hlt|Hge].
  2: { split_and!; [lia|done|]. intros i t Hi. apply Hhi. lia. }
  pose proof (Nat.div_lt (right - left) 2 ltac:(lia) ltac:(lia)) as Hdiv.
  set (mid := (left + (right - left) / 2)%nat) in *.
  destruct (lookup_lt_is_Some_2 l mid) as [t Ht]; [lia|]. rewrite Ht.
  destruct (Z.compare_spec (compare t) key) as [Heq|Hlt'|Hgt].
  - split_and!; [lia| |].
    + intros i u Hi Hu. rewrite <-Heq. eapply (sorted_lookup l i mid); [done|lia|done..].
    + intros i u Hi Hu. rewrite <-Heq. eapply (sorted_lookup l mid i); [done|lia|done..].
  - apply IH; [lia|lia| |done]. intros i u Hi Hu.
    pose proof (sorted_lookup l i mid u t Hs ltac:(lia) Hu Ht). lia.
  - apply IH; [lia|lia|done|]. intros i u Hi Hu.
    pose proof (sorted_lookup l mid i t u Hs ltac:(lia) Ht Hu). lia.
Qed.

Lemma binary_search_spec l key :
  sorted l → splits l key (match binary_search l key with inl p => p | inr p => p end).
Proof.
  intros Hs. apply binary_search_loop_spec; [done|lia|lia|lia|].
  intros i t Hi Ht. apply lookup_lt_Some in Ht. lia.
Qed.

Lemma timers_insert_perm l t : timers_insert l t ≡ₚ t :: l.
Proof.
  unfold timers_insert. rewrite <-Permutation_middle. by rewrite take_drop.
Qed.

Lemma timers_insert_sorted l t : sorted l → sorted (timers_insert l t).
Proof.
  intros Hs. unfold timers_insert.
  destruct (binary_search_spec l (compare t) Hs) as (Hp & Hlo & Hhi).
  set (p := match _ with inl p => p | inr p => p end) in *. clearbody p.
  assert (sorted (take p l) ∧ sorted (drop p l)) as [Ht Hd].
  { unfold sorted in *. rewrite <-(take_drop p l) in Hs. apply StronglySorted_app in Hs. tauto. }
  apply StronglySorted_app_2; [|done|].
  - intros a b Ha Hb. apply list_elem_of_lookup in Ha as [i Hi].
    apply lookup_take_Some in Hi as [Hi Hip]. unfold timer_le.
    apply elem_of_cons in Hb as [->|Hb]; [by eapply Hlo|].
    apply list_elem_of_lookup in Hb as [j Hj]. rewrite lookup_drop in Hj.
    pose proof (Hlo _ _ Hip Hi). pose proof (Hhi (p + j)%nat b ltac:(lia) Hj). lia.
  - constructor; [done|]. apply Forall_forall. intros b Hb.
    apply list_elem_of_lookup in Hb as [j Hj]. rewrite lookup_drop in Hj.
    apply (Hhi (p + j)%nat); [lia|done].
Qed.

(** ** The invariant *)

Definition key (t : Timer) : ClientId * Z := (client t, timer t).

(** A timer of a known client, with a positive period if it has one, and numbers that
    leave room for one more period. *)
Definition timer_ok (n : nat) (t : Timer) : Prop :=
  (client t < n)%nat ∧ - 2 ^ 63 ≤ compare t < 2 ^ 63 ∧
  match period t with None => True | Some p => 0 < p < 2 ^ 62 end.

Record server_ok {D} (s : Server D) : Prop := {
  so_sorted : sorted (outstanding s);
  so_timers : Forall (timer_ok (clients s)) (outstanding s);
  so_keys : NoDup (key <$> outstanding s);
  so_completed : ∀ c, (c < clients s)%nat → is_Some (completed s !! c);
}.

Lemma as_i64_small z : - 2 ^ 63 ≤ z < 2 ^ 63 → as_i64 z = z.
Proof. intros H. unfold as_i64. rewrite Z.mod_small by lia. lia. Qed.

(** ** A pass over the due timers *)

(** Timer [t] after the pass at [count]: gone if it is a due one-shot timer, at its first
    deadline after [count] if it is a due periodic one. *)
Definition next (count : Z) (t : Timer) : option Timer :=
  if Z.leb (compare t) count then
    match period t with
    | None => None
    | Some p =>
        Some {| client := client t; timer := timer t;
                compare := compare t + p * ((count - compare t) / p + 1); period := Some p |}
    end
  else Some t.

Definition due (count : Z) (l : list Timer) (c : ClientId) (tid : Z) : Prop :=
  ∃ t, t ∈ l ∧ compare t ≤ count ∧ client t = c ∧ timer t = tid.

(** The timer after one turn. *)
Definition bump (t : Timer) (p : Z) : Timer :=
  {| client := client t; timer := timer t; compare := as_i64 (compare t + p); period := Some p |}.

Section bump.
Context (n : nat) (count : Z) (t : Timer) (p : Z).
Hypotheses (Ht : timer_ok n t) (Hp : period t = Some p) (Hdue : compare t ≤ count) (Hc : count < 2 ^ 62).

Lemma bump_compare : compare (bump t p) = compare t + p.
Proof. destruct Ht as (_ & Hb & Hper). rewrite Hp in Hper. simpl. apply as_i64_small. lia. Qed.

Lemma bump_ok : timer_ok n (bump t p).
Proof.
  pose proof bump_compare as Hbc. destruct Ht as (Hn & Hb & Hper). rewrite Hp in Hper.
  split_and!; [done|rewrite Hbc; lia|rewrite Hbc; lia|simpl; lia..].
Qed.

Lemma bump_quot : (count - compare (bump t p)) / p = (count - compare t) / p - 1.
Proof.
  destruct Ht as (_ & _ & Hper). rewrite Hp in Hper. rewrite bump_compare.
  replace (count - (compare t + p)) with ((count - compare t) + (-1) * p) by lia.
  rewrite Z.div_add by lia. lia.
Qed.

Lemma bump_next : next count (bump t p) = next count t.
Proof.
  pose proof bump_quot as Hq. destruct Ht as (_ & _ & Hper). rewrite Hp in Hper. unfold next.
  rewrite (proj2 (Z.leb_le (compare t) count) Hdue), Hp. cbn [period bump client timer].
  destruct (Z.leb_spec (compare (bump t p)) count) as [Hle|Hgt].
  - rewrite Hq, bump_compare. do 2 f_equal. ring.
  - rewrite bump_compare in Hgt. rewrite (Z.div_small (count - compare t)) by lia.
    pose proof bump_compare as Hbc. unfold bump in *. simpl in Hbc. do 2 f_equal. lia.
Qed.

Lemma bump_expiries : expiries count t = S (expiries count (bump t p)).
Proof.
  pose proof bump_quot as Hq. destruct Ht as (_ & _ & Hper). rewrite Hp in Hper.
  unfold expiries. rewrite (proj2 (Z.leb_le (compare t) count) Hdue), Hp. cbn [period bump].
  destruct (Z.leb_spec (compare (bump t p)) count) as [Hle|Hgt].
  - rewrite Hq. rewrite bump_compare in Hle.
    assert (1 ≤ (count - compare t) / p) by (apply Z.div_le_lower_bound; lia). lia.
  - rewrite bump_compare in Hgt. rewrite (Z.div_small (count - compare t)) by lia. done.
Qed.
End bump.

Lemma sum_list_perm (l l' : list nat) : l ≡ₚ l' → sum_list l = sum_list l'.
Proof. induction 1; simpl; lia. Qed.

Section pass.
Context {D : Type} `{!TimerDevice D}.
Implicit Types (s : Server D).

(** The queue after one turn on timer [t]. *)
Definition requeue (t : Timer) (rest : list Timer) : list Timer :=
  match period t with None => rest | Some p => timers_insert rest (bump t p) end.

Lemma expire_run s t rest x :
  (client t < clients s)%nat → completed s !! client t = Some x →
  expire t rest s = (Ok tt,
    {| clients := clients s; signals := signals s ++ [client t];
       timers_per_client := timers_per_client s;
       completed := <[client t := {[timer t]} ∪ x]> (completed s);
       outstanding := requeue t rest; device := device s; freq := freq s |}).
Proof.
  intros Hc Hx. unfold expire, requeue. erewrite bind_eq_ok by reflexivity.
  erewrite bind_eq_ok; last first.
  { unfold on_completed. erewrite bind_eq_ok by reflexivity. simpl. rewrite Hx. reflexivity. }
  unfold signal. destruct (period t); (erewrite bind_eq_ok by reflexivity);
  (erewrite bind_eq_ok by reflexivity); simpl; by rewrite (proj2 (Nat.ltb_lt _ _) Hc).
Qed.

Lemma requeue_perm count n t rest :
  timer_ok n t → compare t ≤ count → count < 2 ^ 62 → sorted rest → Forall (timer_ok n) rest →
  sorted (requeue t rest) ∧ Forall (timer_ok n) (requeue t rest) ∧
  omap (next count) (requeue t rest) ≡ₚ omap (next count) (t :: rest) ∧
  sum_list (expiries count <$> t :: rest) = S (sum_list (expiries count <$> requeue t rest)) ∧
  (∀ u, u ∈ requeue t rest → u ∈ rest ∨ key u = key t).
Proof.
  intros Ht Hdue Hc Hs Hall. unfold requeue. destruct (period t) as [p|] eqn:Hp.
  - split_and!.
    + by apply timers_insert_sorted.
    + rewrite timers_insert_perm. constructor; [by eapply bump_ok|done].
    + rewrite timers_insert_perm. simpl. by rewrite (bump_next n count t p).
    + rewrite (sum_list_perm _ _ (fmap_Permutation _ _ _ (timers_insert_perm rest (bump t p)))).
      rewrite !fmap_cons. simpl. rewrite (bump_expiries n count t p) by done. lia.
    + intros u. rewrite timers_insert_perm. intros [->|Hu]%elem_of_cons; [by right|by left].
  - split_and!; try done.
    + simpl. unfold next at 2. by rewrite (proj2 (Z.leb_le _ _) Hdue), Hp.
    + rewrite fmap_cons. simpl. unfold expiries at 1. by rewrite (proj2 (Z.leb_le _ _) Hdue), Hp.
    + intros u Hu. by left.
Qed.

Lemma requeue_due count t rest c tid :
  compare t ≤ count →
  (c = client t ∧ tid = timer t) ∨ due count (requeue t rest) c tid ↔ due count (t :: rest) c tid.
Proof.
  intros Hdue. unfold due, requeue. split.
  - intros [[-> ->]|(u & Hu & Hle & <- & <-)].
    { exists t. split_and!; [by constructor|done..]. }
    destruct (period t) as [p|].
    + rewrite timers_insert_perm in Hu. apply elem_of_cons in Hu as [->|Hu].
      * exists t. split_and!; [by constructor|done..].
      * exists u. split_and!; [by constructor|done..].
    + exists u. split_and!; [by constructor|done..].
  - intros (u & Hu & Hle & <- & <-). apply elem_of_cons in Hu as [->|Hu]; [by left|right].
    exists u. split_and!; try done. destruct (period t); [|done].
    rewrite timers_insert_perm. by constructor.
Qed.

(** The result of the pass. *)
Definition pass_result (count : Z) (s s' : Server D) : Prop :=
  clients s' = clients s ∧ device s' = device s ∧ freq s' = freq s ∧
  timers_per_client s' = timers_per_client s ∧
  sorted (outstanding s') ∧ Forall (timer_ok (clients s)) (outstanding s') ∧
  outstanding s' ≡ₚ omap (next count) (outstanding s) ∧
  (∀ c x, completed s !! c = Some x → ∃ x', completed s' !! c = Some x' ∧
     ∀ tid, tid ∈ x' ↔ tid ∈ x ∨ due count (outstanding s) c tid) ∧
  (∃ sent, signals s' = signals s ++ sent ∧
     length sent = sum_list (expiries count <$> outstanding s) ∧
     ∀ c, c ∈ sent ↔ ∃ tid, due count (outstanding s) c tid).

Lemma none_due count l :
  sorted l → (∀ t rest, l = t :: rest → count < compare t) → Forall (λ t, count < compare t) l.
Proof.
  intros Hs Hhd. destruct l as [|t l]; [constructor|]. specialize (Hhd t l eq_refl).
  inversion Hs as [|?? _ Hall]; subst. constructor; [done|].
  eapply Forall_impl; [done|]. intros u. unfold timer_le. lia.
Qed.

Lemma pass_done count s :
  Forall (λ t, count < compare t) (outstanding s) → sorted (outstanding s) →
  Forall (timer_ok (clients s)) (outstanding s) → pass_result count s s.
Proof.
  intros Hno Hs Hok. unfold pass_result.
  assert (∀ c tid, ¬ due count (outstanding s) c tid) as Hnd.
  { intros c tid (t & Ht & Hle & _). rewrite Forall_forall in Hno. specialize (Hno t Ht). simpl in Hno. lia. }
  split_and!; try done.
  - clear Hs Hok Hnd. induction Hno as [|t l Ht Hno IH]; [done|]. simpl.
    unfold next at 1. rewrite (proj2 (Z.leb_gt _ _) Ht). by constructor.
  - intros c x Hx. exists x. split; [done|]. intros tid. pose proof (Hnd c tid). tauto.
  - exists []. rewrite app_nil_r. split_and!; [done| |].
    + simpl. clear Hs Hok Hnd. induction Hno as [|t l Ht Hno IH]; [done|]. rewrite fmap_cons. simpl.
      unfold expiries at 1. by rewrite (proj2 (Z.leb_gt _ _) Ht).
    + intros c. split; [by intros ?%elem_of_nil|]. intros [tid Hd]. by destruct (Hnd c tid).
Qed.

Lemma update_loop_spec count s :
  count < 2 ^ 62 → sorted (outstanding s) → Forall (timer_ok (clients s)) (outstanding s) →
  (∀ c, (c < clients s)%nat → is_Some (completed s !! c)) →
  ∃ s', update_loop (sum_list (expiries count <$> outstanding s)) count s = (Ok tt, s') ∧
    pass_result count s s'.
Proof.
  intros Hc. remember (sum_list (expiries count <$> outstanding s)) as fuel eqn:Hfuel.
  revert s Hfuel. induction fuel as [|fuel IH]; intros s Hfuel Hs Hok Hcomp; simpl;
    (erewrite bind_eq_ok by reflexivity); destruct (outstanding s) as [|t rest] eqn:Hout.
  1, 3: exists s; split; [done|]; apply pass_done; rewrite Hout; (done || constructor).
  all: destruct (Z.leb_spec (compare t) count) as [Hdue|Hnot].
  2, 4: exists s; split; [done|]; apply pass_done; rewrite Hout;
    [apply none_due; [done|]; intros ?? [= <- <-]; done|done|done].
  { exfalso. rewrite fmap_cons in Hfuel. simpl in Hfuel. unfold expiries at 1 in Hfuel.
    rewrite (proj2 (Z.leb_le _ _) Hdue) in Hfuel. destruct (period t); lia. }
  apply Forall_cons in Hok as [Ht Hok]. apply StronglySorted_inv in Hs as Hs'. destruct Hs' as [Hs' _].
  destruct (Hcomp (client t)) as [x Hx]; [apply Ht|].
  destruct (requeue_perm count (clients s) t rest) as (Hs1 & Hok1 & Hperm & Hsum & _); [done..|].
  erewrite bind_eq_ok by (apply expire_run; [apply Ht|exact Hx]).
  set (s1 := {| clients := _ |}).
  destruct (IH s1) as (s' & Hrun & Hres); simpl; [lia|done|done| |].
  { intros c Hlt. destruct (decide (c = client t)) as [->|]; [rewrite lookup_insert_eq; eauto|].
    rewrite lookup_insert_ne by done. by apply Hcomp. }
  exists s'. split; [exact Hrun|].
  destruct Hres as (Hr1 & Hr2 & Hr3 & Hr4 & Hr5 & Hr6 & Hr7 & Hr8 & (sent & Hsig & Hlen & Hin)).
  simpl in *. unfold pass_result. rewrite Hout. split_and!; try done.
  - by rewrite Hr7, Hperm.
  - intros c y Hy. destruct (decide (c = client t)) as [->|Hne].
    + destruct (Hr8 (client t) ({[timer t]} ∪ x)) as (x' & Hx' & Hmem); [by rewrite lookup_insert_eq|].
      exists x'. split; [done|]. intros tid. rewrite Hmem, <-requeue_due by done.
      rewrite elem_of_union, elem_of_singleton. simplify_eq. tauto.
    + destruct (Hr8 c y) as (x' & Hx' & Hmem); [by rewrite lookup_insert_ne|].
      exists x'. split; [done|]. intros tid. rewrite Hmem, <-(requeue_due count t rest) by done. tauto.
  - exists (client t :: sent). rewrite Hsig, <-app_assoc. split_and!; [done|simpl; lia|].
    intros c. rewrite elem_of_cons, Hin. setoid_rewrite <-(requeue_due count t rest); [|done].
    split; [intros [->|[tid ?]]; eauto|]. intros [tid [[-> ->]|?]]; eauto.
Qed.
End pass.

(** C31: a pass over the due timers ends and does exactly what it should: every due timer
    is completed and its client signalled, once per deadline passed, no other timer is
    completed and no other client signalled; due one-shot timers leave the queue, due
    periodic timers move to their first deadline after the current count, and the queue
    stays sorted. *)
Theorem update_timers_spec {D} `{!TimerDevice D} (s : Server D) count :
  server_ok s → count < 2 ^ 62 →
  ∃ s', update_timers count s = (Ok tt, s') ∧ pass_result count s s' ∧
    Forall (λ t, count < compare t) (outstanding s').
Proof.
  intros [Hs Hok _ Hcomp] Hc. unfold update_timers. erewrite bind_eq_ok by reflexivity.
  destruct (update_loop_spec count s Hc Hs Hok Hcomp) as (s' & Hrun & Hres).
  exists s'. split_and!; [exact Hrun|done|].
  destruct Hres as (_ & _ & _ & _ & _ & _ & Hperm & _). rewrite Hperm.
  apply Forall_forall. intros t' (t & Ht & Hn)%list_elem_of_omap.
  rewrite Forall_forall in Hok. specialize (Hok t Ht) as (_ & _ & Hper). unfold next in Hn.
  destruct (Z.leb_spec (compare t) count) as [Hle|Hgt]; [|by simplify_eq].
  destruct (period t) as [p|]; [|done]. injection Hn as <-. simpl.
  pose proof (Z.mul_succ_div_gt (count - compare t) p). lia.
Qed.

Section operations.
Context {D : Type} `{!TimerDevice D}.
Implicit Types (s : Server D).

Lemma next_key count t t' : next count t = Some t' → key t' = key t.
Proof.
  unfold next. destruct (Z.leb _ _); [|by intros [= <-]].
  destruct (period t); [|done]. by intros [= <-].
Qed.

Lemma omap_next_keys count l : NoDup (key <$> l) → NoDup (key <$> omap (next count) l).
Proof.
  induction l as [|t l IH]; [done|]. rewrite fmap_cons. intros [Hnot Hnd]%NoDup_cons. simpl.
  destruct (next count t) as [t'|] eqn:Ht; [|by apply IH].
  rewrite fmap_cons, (next_key _ _ _ Ht). apply NoDup_cons. split; [|by apply IH].
  intros (u' & Hk & Hu)%list_elem_of_fmap. apply list_elem_of_omap in Hu as (u & Hu & Hn).
  apply Hnot, list_elem_of_fmap. exists u. by rewrite <-(next_key _ _ _ Hn).
Qed.

Lemma pass_ok count s s' : server_ok s → pass_result count s s' → server_ok s'.
Proof.
  intros [Hs Hok Hk Hcomp] (Hc & _ & _ & _ & Hs' & Hok' & Hperm & Hcomp' & _). split.
  - done.
  - by rewrite Hc.
  - rewrite (fmap_Permutation key _ _ Hperm). by apply omap_next_keys.
  - rewrite Hc. intros c Hlt. destruct (Hcomp c Hlt) as [x Hx].
    destruct (Hcomp' c x Hx) as (x' & Hx' & _). eauto.
Qed.

(** ** Removal and insertion *)

Lemma is_timer_key cid tid t : is_timer cid tid t = true ↔ key t = (cid, tid).
Proof.
  unfold is_timer, key. rewrite andb_true_iff, Nat.eqb_eq, Z.eqb_eq. naive_solver.
Qed.

(** [remove_timer] ends the timer and keeps everything else; a completion already
    recorded for it is dropped if the timer was still outstanding (a periodic one). *)
Lemma remove_timer_run s cid tid :
  server_ok s → (cid < clients s)%nat →
  ∃ m, remove_timer cid tid s = (Ok tt,
      {| clients := clients s; signals := signals s; timers_per_client := timers_per_client s;
         completed := m;
         outstanding := base.filter (λ t, is_timer cid tid t = false) (outstanding s);
         device := device s; freq := freq s |}) ∧
    (∀ c, c ≠ cid → m !! c = completed s !! c) ∧ is_Some (m !! cid) ∧
    (∀ x tid', completed s !! cid = Some x → tid' ≠ tid → ∀ x', m !! cid = Some x' → tid' ∈ x' ↔ tid' ∈ x).
Proof.
  intros [_ _ _ Hcomp] Hcid. unfold remove_timer. do 2 (erewrite bind_eq_ok by reflexivity). simpl.
  generalize (base.filter (λ t, is_timer cid tid t = true) (outstanding s)).
  set (o := base.filter _ _). intros drained. destruct (Hcomp cid Hcid) as [x Hx].
  assert (∀ m x1, m !! cid = Some x1 → ∃ m', for_each (λ _, on_completed cid (λ y, y ∖ {[tid]})) drained
     {| clients := clients s; signals := signals s; timers_per_client := timers_per_client s;
        completed := m; outstanding := o; device := device s; freq := freq s |} = (Ok tt,
     {| clients := clients s; signals := signals s; timers_per_client := timers_per_client s;
        completed := m'; outstanding := o; device := device s; freq := freq s |}) ∧
     (∀ c, c ≠ cid → m' !! c = m !! c) ∧ ∃ x', m' !! cid = Some x' ∧
     ∀ tid', tid' ≠ tid → tid' ∈ x' ↔ tid' ∈ x1) as Hloop.
  { induction drained as [|t drained IH]; intros m x1 Hm; simpl; [by eauto 10|].
    erewrite bind_eq_ok; last first.
    { unfold on_completed. erewrite bind_eq_ok by reflexivity. simpl. rewrite Hm. reflexivity. }
    destruct (IH (<[cid := x1 ∖ {[tid]}]> m) (x1 ∖ {[tid]})) as (m' & Hrun & Hother & x' & Hx' & Hmem).
    { by rewrite lookup_insert_eq. }
    exists m'. split_and!; [exact Hrun| |].
    - intros c Hc. rewrite Hother, lookup_insert_ne by done. done.
    - exists x'. split; [done|]. intros tid' Hne. rewrite Hmem by done. set_solver. }
  destruct (Hloop (completed s) x Hx) as (m' & Hrun & Hother & x' & Hx' & Hmem).
  exists m'. split_and!; [exact Hrun|done|by eauto|].
  intros x0 tid' Hx0 Hne x1 Hx1. simplify_eq. by apply Hmem.
Qed.

Lemma filter_keys cid tid l :
  NoDup (key <$> l) → NoDup (key <$> base.filter (λ t, is_timer cid tid t = false) l) ∧
  (cid, tid) ∉ key <$> base.filter (λ t, is_timer cid tid t = false) l.
Proof.
  intros Hnd. split.
  - eapply sublist_NoDup; [done|]. apply fmap_sublist, sublist_filter.
  - intros (t & Hk & Ht)%list_elem_of_fmap. apply list_elem_of_filter in Ht as [Hf _].
    symmetry in Hk. apply is_timer_key in Hk. congruence.
Qed.

Lemma filter_forall (Q : Timer → Prop) (f : Timer → bool) l :
  Forall Q l → Forall Q (base.filter (λ t, f t = false) l).
Proof.
  rewrite !Forall_forall. intros HQ t Ht. apply list_elem_of_filter in Ht as [_ Ht]. by apply HQ.
Qed.

Lemma filter_sorted (f : Timer → bool) l : sorted l → sorted (base.filter (λ t, f t = false) l).
Proof.
  unfold sorted. induction 1 as [|t l Hs IH Hall]; [constructor|].
  rewrite filter_cons. case_decide; [|done]. constructor; [done|]. by apply filter_forall.
Qed.

Lemma remove_timer_ok s cid tid s' :
  server_ok s → (cid < clients s)%nat → remove_timer cid tid s = (Ok tt, s') →
  server_ok s' ∧ clients s' = clients s ∧ device s' = device s ∧ freq s' = freq s ∧
  timers_per_client s' = timers_per_client s ∧
  (cid, tid) ∉ key <$> outstanding s'.
Proof.
  intros Hok Hcid Hrun. destruct (remove_timer_run s cid tid Hok Hcid) as (m & Hrun' & Hother & Hsome & _).
  rewrite Hrun' in Hrun. injection Hrun as <-. destruct Hok as [Hs Ht Hk Hcomp].
  destruct (filter_keys cid tid _ Hk) as [Hk' Hnot]. split_and!; try done. split; simpl.
  - by apply filter_sorted.
  - by apply filter_forall.
  - done.
  - intros c Hc. destruct (decide (c = cid)) as [->|]; [done|]. rewrite Hother by done. by apply Hcomp.
Qed.

Lemma set_timer_ok s t :
  server_ok s → timer_ok (clients s) t →
  ∃ s', set_timer t s = (Ok tt, s') ∧ server_ok s' ∧ t ∈ outstanding s' ∧
    clients s' = clients s ∧ device s' = device s ∧ freq s' = freq s ∧
    timers_per_client s' = timers_per_client s.
Proof.
  intros Hok Ht. unfold set_timer.
  destruct (remove_timer_run s (client t) (timer t) Hok) as (m & Hrun & _); [apply Ht|].
  destruct (remove_timer_ok s (client t) (timer t) _ Hok (proj1 Ht) Hrun) as (Hok1 & _ & _ & _ & _ & Hnot).
  rewrite (bind_eq_ok _ _ _ _ _ Hrun). eexists. split; [reflexivity|].
  destruct Hok1 as [Hs1 Ht1 Hk1 Hc1]. simpl in *. split_and!; try done; [split; simpl|].
  - by apply timers_insert_sorted.
  - rewrite timers_insert_perm. by constructor.
  - rewrite (fmap_Permutation key _ _ (timers_insert_perm _ t)), fmap_cons. by apply NoDup_cons.
  - done.
  - rewrite timers_insert_perm. by constructor.
Qed.
End operations.

(** ** Requests keep the invariant and never panic *)

(** What is asked of a device: counts that fit, with room, in an [i64]. *)
Class CountsOk (D : Type) `{!TimerDevice D} : Prop :=
  counts_ok (d : D) : 0 ≤ (get_count d).1 < 2 ^ 62.

Section requests.
Context {D : Type} `{!TimerDevice D} `{!CountsOk D} (n : nat) (f : Z) (Hf : f ≠ 0).
Implicit Types (s : Server D).

(** The invariant, with the parts of the state that never change. *)
Definition inv s : Prop := server_ok s ∧ clients s = n ∧ freq s = f.

Lemma inv_device s d : inv s → inv (with_device s d).
Proof. intros ([] & ? & ?). by repeat split. Qed.

Lemma safe_device (g : D → D) : safe inv (modify (λ s, with_device s (g (device s))) : M _ TimerError unit).
Proof. intros s Hs. split; [done|]. by apply inv_device. Qed.

Lemma now_tick_safe s : inv s → ∃ c d, now_tick s = (Ok c, with_device s d) ∧ 0 ≤ c < 2 ^ 62.
Proof.
  intros Hs. unfold now_tick. pose proof (counts_ok (device s)) as Hc.
  destruct (get_count (device s)) as [c d]. simpl in Hc. exists c, d.
  by rewrite as_i64_small by lia.
Qed.

(** A computation that starts by reading the count. *)
Lemma now_tick_bind_safe {A} (m : Z → M (Server D) TimerError A) :
  (∀ c, 0 ≤ c < 2 ^ 62 → safe inv (m c)) → safe inv (now_tick ≫= m).
Proof.
  intros Hm s Hs. destruct (now_tick_safe s Hs) as (c & d & Hnow & Hc).
  rewrite (bind_eq_ok _ _ _ _ _ Hnow). apply Hm; [done|]. by apply inv_device.
Qed.

Lemma update_safe fuel count : count < 2 ^ 62 → safe inv (update fuel count).
Proof.
  revert count. induction fuel as [|fuel IH]; intros count Hc; simpl; [auto with safe|].
  apply safe_bind; [|intros _].
  { intros s (Hok & Hn & Hfr). unfold update_timers. erewrite bind_eq_ok by reflexivity.
    destruct Hok as [Hs Ht Hk Hcomp] eqn:Heq. clear Heq.
    destruct (update_loop_spec count s Hc Hs Ht Hcomp) as (s' & Hrun & Hres).
    rewrite Hrun. split; [done|]. split; [by eapply pass_ok|]. simpl.
    destruct Hres as (-> & _ & -> & _). done. }
  apply safe_bind; [auto with safe|]. intros l. destruct (timers_compare l); [|apply safe_device].
  apply safe_bind.
  { intros s Hs. destruct (set_compare _ (device s)). split; [done|]. by apply inv_device. }
  intros ok. apply safe_if; intros; [apply safe_device|].
  apply now_tick_bind_safe. intros c Hc'. apply IH. lia.
Qed.

Lemma set_timer_safe t : timer_ok n t → safe inv (set_timer t : M (Server D) TimerError unit).
Proof.
  intros Ht s (Hok & Hn & Hfr). rewrite <-Hn in Ht.
  destruct (set_timer_ok s t Hok Ht) as (s' & Hrun & Hok' & _ & Hn' & _ & Hf' & _).
  rewrite Hrun. split; [done|]. simpl. split_and!; [done|simpl; congruence..].
Qed.

Lemma remove_timer_safe cid tid :
  (cid < n)%nat → safe inv (remove_timer cid tid : M (Server D) TimerError unit).
Proof.
  intros Hcid s (Hok & Hn & Hfr). rewrite <-Hn in Hcid.
  destruct (remove_timer_run s cid tid Hok Hcid) as (m & Hrun & _).
  destruct (remove_timer_ok s cid tid _ Hok Hcid Hrun) as (Hok' & Hn' & _ & Hf' & _ & _).
  rewrite Hrun. split; [done|]. simpl. split_and!; [done|simpl; congruence..].
Qed.

Lemma guard_tid_safe tid : safe inv (guard_tid tid : M (Server D) TimerError unit).
Proof. unfold guard_tid. auto with safe. Qed.

Lemma as_i64_range z : - 2 ^ 63 ≤ as_i64 z < 2 ^ 63.
Proof. unfold as_i64. pose proof (Z.mod_pos_bound (z + 2 ^ 63) (2 ^ 64)). lia. Qed.

(** The ticks of a request depend on the frequency only. *)
Definition ticks (ns : Z) : Z := as_i64 (Z.quot (ns * f) NS_IN_S).

Lemma ticks_bind_safe {A} ns (m : Z → M (Server D) TimerError A) :
  safe inv (m (ticks ns)) → safe inv (gets (λ s, ns_to_tick s ns) ≫= m).
Proof.
  intros Hm s Hs. unfold mbind, M_bind, gets, ns_to_tick. destruct Hs as (? & ? & Hfr) eqn:Heq.
  rewrite Hfr. by apply Hm.
Qed.

Definition request_ok (r : Request) : Prop :=
  match r with
  | ReqCompleted => False
  | ReqPeriodic _ ns => 0 < ticks (as_i64 ns) < 2 ^ 62
  | _ => True
  end.

Lemma serve_client_safe fuel cid r :
  (n ≤ 64)%nat → (cid < n)%nat → request_ok r →
  safe inv (serve fuel (CLIENT_BADGE_START + Z.of_nat cid) r : M (Server D) TimerError _).
Proof.
  intros Hn Hcid Hr.
  unfold serve, CLIENT_BADGE_START, INTERRUPT_BADGE in *.
  rewrite (proj2 (Z.eqb_neq _ 1)) by lia.
  replace (Z.to_nat (as_u64 (1 + 1 + Z.of_nat cid - (1 + 1)))) with cid.
  2: { unfold as_u64. rewrite Z.mod_small by lia. lia. }
  destruct r as [|tid ns|tid ns|tid ns|tid|]; cbn zeta; [done| | | | |];
    apply safe_bind; auto with safe.
  - apply safe_bind; [apply guard_tid_safe|intros _]. apply now_tick_bind_safe. intros c Hc.
    apply ticks_bind_safe. apply safe_bind; [|intros _; apply update_safe; lia].
    apply set_timer_safe. split; [done|]. split; [apply as_i64_range|exact Hr].
  - apply safe_bind; [apply guard_tid_safe|intros _]. apply now_tick_bind_safe. intros c Hc.
    apply ticks_bind_safe. apply safe_bind; [|intros _; apply update_safe; lia].
    apply set_timer_safe. split; [done|]. split; [apply as_i64_range|done].
  - apply safe_bind; [apply guard_tid_safe|intros _]. apply now_tick_bind_safe. intros c Hc.
    apply ticks_bind_safe. apply safe_bind; [|intros _; apply update_safe; lia].
    apply set_timer_safe. split; [done|]. split; [apply as_i64_range|done].
  - apply safe_bind; [apply guard_tid_safe|intros _]. by apply remove_timer_safe.
  - unfold time, now_ns. apply now_tick_bind_safe. intros c Hc. apply safe_reads.
    intros s (_ & _ & Hfr). unfold tick_to_ns. rewrite Hfr. by rewrite (proj2 (Z.eqb_neq f 0) Hf).
Qed.

Lemma serve_interrupt_safe fuel r :
  safe inv (serve fuel INTERRUPT_BADGE r : M (Server D) TimerError _).
Proof.
  unfold serve. cbn. apply safe_bind; [|auto with safe].
  apply safe_bind; [apply safe_device|intros _]. apply now_tick_bind_safe. intros c Hc.
  apply update_safe. lia.
Qed.
End requests.

(** Serve a sequence of messages (badge and request) with the given fuel each; the
    results of all of them and the final state. *)
Fixpoint serve_all {D} `{!TimerDevice D} (fuel : nat) (l : list (Z * Request)) (s : Server D) :
    list (outcome TimerError (option Z)) * Server D :=
  match l with
  | [] => ([], s)
  | (badge, r) :: l' =>
      let '(o, s1) := serve fuel badge r s in
      let '(os, s') := serve_all fuel l' s1 in (o :: os, s')
  end.

(** A message the server is meant to get: an interrupt, or from client [cid] of [n] any
    request but [Completed] with a period, if any, that is positive in ticks. *)
Definition message_ok (n : nat) (f : Z) (m : Z * Request) : Prop :=
  m.1 = INTERRUPT_BADGE ∨
  ∃ cid, (cid < n)%nat ∧ m.1 = CLIENT_BADGE_START + Z.of_nat cid ∧ request_ok f m.2.

Lemma server_new_ok {D} `{!TimerDevice D} n tpc (d : D) s :
  server_new n tpc d = Ok s → server_ok s ∧ clients s = n ∧ freq s = get_freq d ∧ (n ≤ 64)%nat.
Proof.
  unfold server_new. destruct (Nat.leb_spec n 64); [|done]. destruct (Z.leb tpc 64); [|done].
  intros [= <-]. split_and!; try done. split; simpl; [constructor..|].
  intros c Hc. exists ∅. apply elem_of_list_to_map_1.
  - rewrite <-list_fmap_compose. rewrite (list_fmap_ext _ id); [|done]. rewrite list_fmap_id.
    apply NoDup_seq.
  - apply list_elem_of_fmap. exists c. split; [done|]. apply elem_of_seq. lia.
Qed.

(** C32: a timer server for at most 64 clients never panics and never loses its invariant
    (a sorted queue, one timer per client and identifier, a completion set for every
    client), whatever interrupts and requests it gets from its clients, provided no
    client asks for a period of zero ticks or uses the [Completed] request. *)
Theorem timer_server_safe {D} `{!TimerDevice D} `{!CountsOk D} n tpc (d : D) s fuel l :
  server_new n tpc d = Ok s → get_freq d ≠ 0 → Forall (message_ok n (get_freq d)) l →
  (Panic ∉ (serve_all fuel l s).1) ∧ server_ok (serve_all fuel l s).2.
Proof.
  intros (Hok & Hn & Hfr & H64)%server_new_ok Hf Hl.
  assert (inv n (get_freq d) s) as Hinv by done. clear Hok Hn Hfr. revert s Hinv.
  induction Hl as [|[badge r] l Hm Hl IH]; intros s Hinv; simpl; [split; [set_solver|apply Hinv]|].
  assert (safe (inv n (get_freq d)) (serve fuel badge r : M (Server D) _ _)) as Hsafe.
  { destruct Hm as [Hb|(cid & Hcid & Hb & Hr)]; simpl in *; subst badge.
    - apply serve_interrupt_safe.
    - by apply serve_client_safe. }
  destruct (Hsafe s Hinv) as [Hp Hinv']. destruct (serve fuel badge r s) as [o s1]. simpl in *.
  destruct (IH s1 Hinv') as [Hp' Hok']. destruct (serve_all fuel l s1) as [os s']. simpl in *.
  split; [|done]. apply not_elem_of_cons. split; [congruence|done].
Qed.

(** ** Interrupts *)

(** The interrupt handler fires exactly the timers due at the count it reads and then
    arms the device for the earliest remaining deadline, or disables it if there is none,
    for a device that accepts every deadline later than the last count read. *)
Lemma handle_interrupt_fires {D} `{!TimerDevice D} (s : Server D) fuel count d1 :
  server_ok s → get_count (clear_interrupt (device s)) = (count, d1) → 0 ≤ count < 2 ^ 62 →
  (∀ t, count < t → ∃ d2, set_compare t d1 = (true, d2)) →
  ∃ s' s1, handle_interrupt (S fuel) s = (Ok tt, s') ∧ pass_result count (with_device s d1) s1 ∧
    outstanding s' = outstanding s1 ∧ completed s' = completed s1 ∧ signals s' = signals s1 ∧
    device s' =
      match head (outstanding s1) with
      | None => set_enable false d1
      | Some t => set_enable true (set_compare (compare t) d1).2
      end.
Proof.
  intros [Hs Hok Hk Hcomp] Hnow Hc Hdev. unfold handle_interrupt.
  erewrite bind_eq_ok by reflexivity. unfold now_tick.
  erewrite bind_eq_ok; last first.
  { simpl. rewrite Hnow. rewrite as_i64_small by lia. reflexivity. }
  change (with_device (with_device s (clear_interrupt (device s))) d1) with (with_device s d1).
  simpl update. unfold update_timers.
  destruct (update_loop_spec count (with_device s d1)) as (s1 & Hrun & Hres); [lia|done..|].
  erewrite bind_eq_ok; last first.
  { erewrite bind_eq_ok by reflexivity. exact Hrun. }
  erewrite bind_eq_ok by reflexivity. unfold timers_compare.
  pose proof Hres as (_ & Hd & _ & _ & Hs1 & Hok1 & Hperm & _). simpl in Hd, Hperm.
  destruct (outstanding s1) as [|t rest] eqn:Hout.
  { simpl. eexists _, s1. split; [reflexivity|]. simpl. rewrite Hout, Hd. done. }
  simpl. assert (count < compare t) as Hlt.
  { assert (t ∈ omap (next count) (outstanding s)) as (u & Hu & Hn)%list_elem_of_omap.
    { rewrite <-Hperm. by constructor. }
    rewrite Forall_forall in Hok. specialize (Hok u Hu) as (_ & _ & Hper). unfold next in Hn.
    destruct (Z.leb_spec (compare u) count) as [Hle|Hgt]; [|by simplify_eq].
    destruct (period u) as [p|]; [|done]. injection Hn as <-. simpl.
    pose proof (Z.mul_succ_div_gt (count - compare u) p). lia. }
  destruct (Hdev (compare t) Hlt) as [d2 Hd2].
  apply Forall_cons in Hok1 as [(_ & Hrange & _) _].
  erewrite bind_eq_ok; last first.
  { rewrite Hd. unfold as_u64. rewrite Z.mod_small by lia. rewrite Hd2. reflexivity. }
  eexists _, s1. split; [reflexivity|]. simpl. rewrite Hout. simpl. by rewrite Hd2.
Qed.

(** ** Stopping and setting a timer *)

(** Stopping a timer removes it from the queue and no other timer, keeps the order, and
    forgets no completion of another timer or client; an identifier above the limit is
    refused without effect. *)
Lemma stop_spec {D} `{!TimerDevice D} (s : Server D) cid tid :
  server_ok s → (cid < clients s)%nat →
  if decide (tid ≤ timers_per_client s)
  then ∃ s', stop cid tid s = (Ok tt, s') ∧ server_ok s' ∧
    outstanding s' = base.filter (λ t, is_timer cid tid t = false) (outstanding s) ∧
    (∀ c, c ≠ cid → completed s' !! c = completed s !! c) ∧
    (∀ x x' tid', completed s !! cid = Some x → completed s' !! cid = Some x' → tid' ≠ tid →
       tid' ∈ x' ↔ tid' ∈ x)
  else stop cid tid s = (Err TimerErr, s).
Proof.
  intros Hok Hcid. unfold stop, guard_tid. case_decide as Ht.
  - erewrite bind_eq_ok; last first.
    { erewrite bind_eq_ok by reflexivity. destruct (Z.gtb_spec tid (timers_per_client s)); [lia|].
      reflexivity. }
    destruct (remove_timer_run s cid tid Hok Hcid) as (m & Hrun & Hother & _ & Hmem).
    destruct (remove_timer_ok s cid tid _ Hok Hcid Hrun) as (Hok' & _).
    eexists. split; [exact Hrun|]. simpl. split_and!; try done. intros x x' tid' Hx Hx' Hne.
    by eapply Hmem.
  - unfold mbind, M_bind, gets. destruct (Z.gtb_spec tid (timers_per_client s)); [done|lia].
Qed.

(** ** A period of zero ticks *)

Definition stuck (count : Z) (t : Timer) : Prop := period t = Some 0 ∧ compare t ≤ count.

Lemma requeue_stuck count t u rest :
  - 2 ^ 63 ≤ compare t < 2 ^ 63 → stuck count t → t ∈ u :: rest → ∃ t', t' ∈ requeue u rest ∧ stuck count t' ∧
    - 2 ^ 63 ≤ compare t' < 2 ^ 63.
Proof.
  intros Hr [Hp Hc] [->|Hin]%elem_of_cons; unfold requeue.
  - rewrite Hp. exists (bump u 0). assert (compare (bump u 0) = compare u) as Hb.
    { simpl. rewrite Z.add_0_r. by apply as_i64_small. }
    split_and!; [|split; [done|by rewrite Hb]|rewrite Hb; lia..].
    rewrite timers_insert_perm. by constructor.
  - exists t. split_and!; try done; try lia. destruct (period u); [|done].
    rewrite timers_insert_perm. by constructor.
Qed.

(** A periodic timer whose period is zero ticks (a client asks for zero nanoseconds, or
    for less than a tick) hangs the server once it is due: the pass over the due timers
    does not end, with any amount of fuel. *)
Lemma zero_period_never_ends {D} `{!TimerDevice D} (s : Server D) count t fuel :
  sorted (outstanding s) → Forall (λ u, (client u < clients s)%nat) (outstanding s) →
  (∀ c, (c < clients s)%nat → is_Some (completed s !! c)) →
  t ∈ outstanding s → period t = Some 0 → - 2 ^ 63 ≤ compare t < 2 ^ 63 → compare t ≤ count →
  (update_loop fuel count s).1 = Err OutOfFuel.
Proof.
  intros Hs Hcl Hcomp Hin Hper Hr Hle. assert (stuck count t) as Hst by done. clear Hper Hle.
  revert s t Hs Hcl Hcomp Hin Hr Hst. induction fuel as [|fuel IH]; intros s t Hs Hcl Hcomp Hin Hr Hst;
    simpl; (erewrite bind_eq_ok by reflexivity); destruct (outstanding s) as [|u rest] eqn:Hout;
    try (by apply elem_of_nil in Hin);
    (assert (compare u ≤ count) as Hu;
      [apply elem_of_cons in Hin as [->|Hin']; [apply Hst|];
       apply StronglySorted_inv in Hs as [_ Hall]; rewrite Forall_forall in Hall;
       specialize (Hall t Hin'); unfold timer_le in Hall; destruct Hst; lia|]);
    rewrite (proj2 (Z.leb_le _ _) Hu); [done|].
  apply Forall_cons in Hcl as [Hcu Hcl]. destruct (Hcomp (client u) Hcu) as [x Hx].
  erewrite bind_eq_ok by (apply expire_run; [exact Hcu|exact Hx]).
  destruct (requeue_stuck count t u rest) as (t' & Hin' & Hst' & Hr'); [done..|].
  apply StronglySorted_inv in Hs as [Hs _].
  eapply (IH _ t'); simpl; [| | |done|done|done].
  - unfold requeue. destruct (period u); [by apply timers_insert_sorted|done].
  - unfold requeue. destruct (period u); [rewrite timers_insert_perm; by constructor|done].
  - intros c Hc. destruct (decide (c = client u)) as [->|]; [rewrite lookup_insert_eq; eauto|].
    rewrite lookup_insert_ne by done. by apply Hcomp.
Qed.

(** ** Examples *)

(** A clock of 1 GHz that stands still. *)
Record clock := { ck_count : Z; ck_enabled : bool; ck_compare : Z }.

#[global] Instance clock_device : TimerDevice clock := {|
  get_freq _ := 1000000000;
  set_enable b d := {| ck_count := ck_count d; ck_enabled := b; ck_compare := ck_compare d |};
  get_count d := (ck_count d mod 2 ^ 62, d);
  set_compare t d := (Z.ltb (ck_count d mod 2 ^ 62) t,
    {| ck_count := ck_count d; ck_enabled := ck_enabled d; ck_compare := t |});
  clear_interrupt d := d;
|}.

#[global] Instance clock_counts_ok : CountsOk clock.
Proof. intros d. simpl. pose proof (Z.mod_pos_bound (ck_count d) (2 ^ 62)). lia. Qed.

Definition clock0 : clock := {| ck_count := 100; ck_enabled := false; ck_compare := 0 |}.

(** Two clients; a one-shot timer at 60 and a periodic one of period 30, both due at 100. *)
Definition timers2 : list Timer :=
  [{| client := 0; timer := 0; compare := 60; period := None |};
   {| client := 1; timer := 1; compare := 70; period := Some 30 |}].
Definition server2 (l : list Timer) : Server clock :=
  {| clients := 2; signals := []; timers_per_client := 1;
     completed := {[0%nat := ∅; 1%nat := ∅]}; outstanding := l; device := clock0; freq := 1000000000 |}.

Lemma server2_ok : server_ok (server2 timers2).
Proof.
  split; simpl.
  - repeat constructor. unfold timer_le. simpl. lia.
  - repeat constructor; simpl; lia.
  - repeat constructor; set_solver.
  - intros c Hc. destruct c as [|[|c]]; [by eexists..|lia].
Qed.

Lemma update_timers_spec_witness :
  server_ok (server2 timers2) ∧ ∃ s', update_timers 100 (server2 timers2) = (Ok tt, s') ∧
    outstanding s' ≡ₚ [{| client := 1; timer := 1; compare := 130; period := Some 30 |}].
Proof.
  split; [exact server2_ok|].
  destruct (update_timers_spec (server2 timers2) 100 server2_ok ltac:(lia)) as (s' & Hrun & Hres & _).
  exists s'. split; [exact Hrun|]. destruct Hres as (_ & _ & _ & _ & _ & _ & Hperm & _). exact Hperm.
Defined.

Lemma timer_server_safe_witness :
  ∃ s, server_new 2 1 clock0 = Ok s ∧
    (Panic ∉ (serve_all 5 [(2, ReqPeriodic 1 20); (1, ReqTime); (3, ReqStop 0)] s).1).
Proof.
  eexists. split; [reflexivity|].
  apply (timer_server_safe 2 1 clock0); [reflexivity|discriminate|].
  constructor; [|constructor; [|constructor; [|constructor]]].
  - right. exists 0%nat. split; [lia|]. split; [reflexivity|]. split; reflexivity.
  - left. reflexivity.
  - right. exists 1%nat. split; [lia|]. split; [reflexivity|]. exact I.
Defined.

