(* ===== verification/Drivers.v ===== *)
(** * Drivers: the timers and the serial lines

    Model of [framework/drivers/devices]: the BCM system timer and the virtual timer as instances
    of [TimerDevice], the BCM2835 auxiliary serial line as an instance of [SerialDevice], and the
    operations of the PL011, whose output waits for the device.  Device registers are the class [Mmio]: a read or a write, of a register at an
    offset, of a device whose state changes with every access.

    The counter of the BCM timer runs between the reads of its two halves.  [RunningCounter] says what
    such a device shows; [bcm_count_between] shows that the driver puts the halves together
    correctly. *)

From S2P Require Import Prelude.
From S2P Require Import TimerServer.
From S2P Require Import TimerServerSpec.
From S2P Require Import SerialServer.

Class Mmio (K : Type) := {
  mmio_get : Z → K → Z * K;
  mmio_set : Z → Z → K → K;
  mmio_debug_put_char : Z → K → K;
}.

(** ** [bcm-system-timer] *)
Definition MATCH_COUNT : nat := 4.
Definition MHZ : Z := 1000 * 1000.
Definition BCM_FREQ : Z := 1 * MHZ.

(** The offsets of the register block. *)
Definition BCM_CTRL : Z := 0x000.
Definition BCM_COUNTER_LO : Z := 0x004.
Definition BCM_COUNTER_HI : Z := 0x008.
Definition bcm_compare (i : nat) : Z := 0x00c + 4 * Z.of_nat i.

Record BcmSystemTimerDevice (K : Type) := { match_ix : nat; bcm_mmio : K }.
Arguments match_ix {K} _.
Arguments bcm_mmio {K} _.

Definition split_reg (whole : Z) : Z * Z :=
  (word_cast 32 (Z.shiftr whole 32), word_cast 32 (Z.land whole (Z.shiftl 1 32 - 1))).
Definition join_reg (hi lo : Z) : Z := Z.lor (Z.shiftl hi 32) lo.

Section bcm.
Context {K : Type} `{!Mmio K}.
Abbreviation D := (BcmSystemTimerDevice K).

Definition bcm_new (k : K) : D := {| match_ix := 1; bcm_mmio := k |}.
Definition bcm_get (offset : Z) (d : D) : Z * D :=
  let '(v, k) := mmio_get offset (bcm_mmio d) in (v, {| match_ix := match_ix d; bcm_mmio := k |}).
Definition bcm_set (offset v : Z) (d : D) : D :=
  {| match_ix := match_ix d; bcm_mmio := mmio_set offset v (bcm_mmio d) |}.

Definition get_count_split (d : D) : Z * Z * D :=
  let '(hi_0, d) := bcm_get BCM_COUNTER_HI d in
  let '(lo_0, d) := bcm_get BCM_COUNTER_LO d in
  let '(hi, d) := bcm_get BCM_COUNTER_HI d in
  if decide (hi_0 = hi) then (hi, lo_0, d)
  else let '(lo, d) := bcm_get BCM_COUNTER_LO d in (hi, lo, d).

Definition bcm_get_count (d : D) : Z * D :=
  let '(hi, lo, d) := get_count_split d in (join_reg hi lo, d).

(** The first reading of the counter only decides whether a message is printed. *)
Definition bcm_set_compare (compare : Z) (d : D) : bool * D :=
  let '(compare_hi, compare_lo) := split_reg compare in
  let '(_, d) := get_count_split d in
  let d := bcm_set (bcm_compare (match_ix d)) compare_lo d in
  let '(count, d) := bcm_get_count d in
  (bool_decide (count ≤ compare)%Z, d).

#[global] Instance bcm_timer_device : TimerDevice D := {|
  get_freq _ := word_cast 32 BCM_FREQ;
  set_enable _ d := d;
  get_count := bcm_get_count;
  set_compare := bcm_set_compare;
  clear_interrupt d := bcm_set BCM_CTRL (Z.shiftl 1 (Z.of_nat (match_ix d))) d;
|}.
End bcm.

(** ** [virt-timer] *)
Definition VIRT_FREQ : Z := 0x000.
Definition VIRT_ENABLE : Z := 0x004.
Definition VIRT_COUNT : Z := 0x008.
Definition VIRT_COMPARE : Z := 0x010.

Record VirtTimerDevice (K : Type) := { virt_mmio : K }.
Arguments virt_mmio {K} _.

#[global] Instance virt_timer_device {K} `{!Mmio K} : TimerDevice (VirtTimerDevice K) := {|
  get_freq d := (mmio_get VIRT_FREQ (virt_mmio d)).1;
  set_enable enabled d :=
    {| virt_mmio := mmio_set VIRT_ENABLE (if (enabled : bool) then 1 else 0)%Z (virt_mmio d) |};
  get_count d := let '(c, k) := mmio_get VIRT_COUNT (virt_mmio d) in (c, {| virt_mmio := k |});
  set_compare compare d := (true, {| virt_mmio := mmio_set VIRT_COMPARE compare (virt_mmio d) |});
  clear_interrupt d := d;
|}.

(** ** [pl011] *)
Definition PL011_UARTFR_TXFF : Z := Z.shiftl 1 5.
Definition PL011_UARTFR_RXFE : Z := Z.shiftl 1 4.
Definition PL011_DR : Z := 0x000.
Definition PL011_FR : Z := 0x018.
Definition PL011_IMSC : Z := 0x038.
Definition PL011_ICR : Z := 0x044.

Section pl011.
Context {K : Type} `{!Mmio K}.

(** The wait for room in the queue of the line, at most [fuel] rounds of it: [None] when there
    was no room in any. *)
Fixpoint pl011_wait (fuel : nat) (k : K) : option K :=
  match fuel with
  | 0 => None
  | S fuel' =>
    let '(fr, k') := mmio_get PL011_FR k in
    if decide (Z.land fr PL011_UARTFR_TXFF = 0)%Z then Some k' else pl011_wait fuel' k'
  end.
Definition pl011_put_char (fuel : nat) (c : Z) (k : K) : option K :=
  k' ← pl011_wait fuel k; Some (mmio_set PL011_DR c k').

Definition pl011_get_char (k : K) : option Z * K :=
  let '(fr, k) := mmio_get PL011_FR k in
  if decide (Z.land fr PL011_UARTFR_RXFE = 0)%Z then
    let '(c, k) := mmio_get PL011_DR k in (Some c, k)
  else (None, k).

Definition pl011_handle_interrupt (k : K) : K := mmio_set PL011_ICR 0x7f0 k.
Definition pl011_init (k : K) : K := mmio_set PL011_IMSC 0x50 k.
End pl011.

(** ** [bcm2835-aux-uart] *)
Definition MU_LSR_DATAREADY : Z := Z.shiftl 1 0.
Definition AUX_IO : Z := 0x040.
Definition AUX_IER : Z := 0x044.
Definition AUX_LSR : Z := 0x054.

Record Bcm2835AuxUartDevice (K : Type) := { aux_mmio : K }.
Arguments aux_mmio {K} _.

#[global] Instance bcm2835_aux_uart_device {K} `{!Mmio K} : SerialDevice (Bcm2835AuxUartDevice K) := {|
  put_char c d := {| aux_mmio := mmio_debug_put_char c (aux_mmio d) |};
  get_char d :=
    let '(lsr, k) := mmio_get AUX_LSR (aux_mmio d) in
    if decide (Z.land lsr MU_LSR_DATAREADY = 0)%Z then (None, {| aux_mmio := k |})
    else let '(c, k) := mmio_get AUX_IO k in (Some c, {| aux_mmio := k |});
  dev_handle_interrupt d := {| aux_mmio := mmio_set AUX_IER 5 (aux_mmio d) |};
|}.

(** ** The BCM counter

    A counter that runs: [count_of] is what it shows at the next access; an access takes less than
    a quarter of the time in which the low half wraps around (18 minutes at 1 MHz), and the
    64-bit counter does not reach its last quarter. *)
Class RunningCounter (K : Type) `{!Mmio K} := {
  count_of : K → Z;
  rc_range k : (0 ≤ count_of k < 2 ^ 62)%Z;
  rc_hi k : (mmio_get BCM_COUNTER_HI k).1 = (count_of k / 2 ^ 32)%Z;
  rc_lo k : (mmio_get BCM_COUNTER_LO k).1 = (count_of k mod 2 ^ 32)%Z;
  rc_get o k : (count_of k ≤ count_of (mmio_get o k).2 < count_of k + 2 ^ 30)%Z;
  rc_set o v k : (count_of k ≤ count_of (mmio_set o v k) < count_of k + 2 ^ 30)%Z;
}.

Lemma join_reg_eq hi lo : (0 ≤ hi)%Z → (0 ≤ lo < 2 ^ 32)%Z → join_reg hi lo = (hi * 2 ^ 32 + lo)%Z.
Proof.
  intros Hhi Hlo. unfold join_reg. rewrite <-Z.add_nocarry_lor by (
    apply Z.bits_inj'; intros i Hi; rewrite Z.land_spec, Z.bits_0;
    destruct (decide (i < 32)%Z); [by rewrite Z.shiftl_spec_low|];
    rewrite (is_word_testbit 32 lo) by (done || lia); apply andb_false_r).
  by rewrite Z.shiftl_mul_pow2 by lia.
Qed.

(** The reading of the two halves, from the counts at its accesses. *)
Lemma join_count c : (0 ≤ c)%Z → join_reg (c / 2 ^ 32) (c mod 2 ^ 32) = c.
Proof.
  intros Hc. rewrite join_reg_eq; [|by apply Z.div_pos; lia|by apply Z.mod_pos_bound].
  pose proof (Z.div_mod c (2 ^ 32) ltac:(lia)). lia.
Qed.

Section counter.
Context {K : Type} `{!Mmio K} `{!RunningCounter K}.
Abbreviation D := (BcmSystemTimerDevice K).
Definition count_now (d : D) : Z := count_of (bcm_mmio d).

(** When the high half was the same before and after, it was the same between; when it was not,
    it is the same at the second reading of the low half. *)
Lemma count_torn c0 c1 c2 c3 :
  (0 ≤ c0)%Z → (c0 ≤ c1 ≤ c2)%Z → (c2 ≤ c3)%Z → (c3 < c0 + 2 ^ 32)%Z →
  if decide (c0 / 2 ^ 32 = c2 / 2 ^ 32)%Z then (c2 / 2 ^ 32 = c1 / 2 ^ 32)%Z
  else (c2 / 2 ^ 32 = c3 / 2 ^ 32)%Z.
Proof.
  intros H0 H01 H23 Hle.
  pose proof (Z.div_le_mono c0 c1 (2 ^ 32) ltac:(lia) ltac:(lia)).
  pose proof (Z.div_le_mono c1 c2 (2 ^ 32) ltac:(lia) ltac:(lia)).
  pose proof (Z.div_le_mono c2 c3 (2 ^ 32) ltac:(lia) ltac:(lia)).
  case_decide as Heq; [lia|].
  assert (c3 / 2 ^ 32 < c0 / 2 ^ 32 + 2)%Z; [|lia].
  apply Z.div_lt_upper_bound; [lia|]. pose proof (Z.div_mod c0 (2 ^ 32) ltac:(lia)).
  pose proof (Z.mod_pos_bound c0 (2 ^ 32) ltac:(lia)). lia.
Qed.

Lemma bcm_get_eq o d : bcm_get o d =
  ((mmio_get o (bcm_mmio d)).1, {| match_ix := match_ix d; bcm_mmio := (mmio_get o (bcm_mmio d)).2 |}).
Proof. unfold bcm_get. by destruct (mmio_get _ _). Qed.

Lemma bcm_get_count_spec d :
  (count_now d ≤ (bcm_get_count d).1 ≤ count_now (bcm_get_count d).2)%Z ∧
  match_ix (bcm_get_count d).2 = match_ix d.
Proof.
  unfold bcm_get_count, get_count_split. rewrite !bcm_get_eq. cbn [bcm_mmio match_ix].
  set (k0 := bcm_mmio d). set (k1 := (mmio_get BCM_COUNTER_HI k0).2).
  set (k2 := (mmio_get BCM_COUNTER_LO k1).2). set (k3 := (mmio_get BCM_COUNTER_HI k2).2).
  pose proof (rc_get BCM_COUNTER_HI k0) as H0. pose proof (rc_get BCM_COUNTER_LO k1) as H1.
  pose proof (rc_get BCM_COUNTER_HI k2) as H2. fold k1 in H0. fold k2 in H1. fold k3 in H2.
  pose proof (rc_get BCM_COUNTER_LO k3) as H3. pose proof (rc_range k0) as Hr0.
  assert (count_of k3 < count_of k0 + 2 ^ 32)%Z as Hlt.
  { change (2 ^ 32)%Z with 4294967296%Z. change (2 ^ 30)%Z with 1073741824%Z in *. lia. }
  assert (0 ≤ count_of k1 ∧ 0 ≤ count_of k3)%Z as [? ?] by lia.
  pose proof (count_torn (count_of k0) (count_of k1) (count_of k2) (count_of k3)) as Ht.
  do 4 (specialize (Ht ltac:(lia))).
  rewrite !rc_hi, rc_lo. unfold count_now. fold k0. case_decide.
  - cbn [fst snd bcm_mmio match_ix]. rewrite Ht, join_count by lia. split; [lia|done].
  - cbn [fst snd bcm_mmio match_ix].
    rewrite rc_lo, Ht, join_count by lia. split; [lia|done].
Qed.

(** C40: the driver of the BCM timer.  Although the two halves of the 64-bit counter are read one
    after the other while it runs, the value that is returned is one that the counter had
    between the first access and the last.  Setting a deadline arms the comparator with its low
    half, and says whether it was in time: if so, the counter had not passed the deadline
    when the comparator was armed; if not, it has passed it. *)
Theorem bcm_timer_correct (d : D) (deadline : Z) :
  (count_now d ≤ (get_count d).1 ≤ count_now (get_count d).2)%Z ∧
  ∃ d1, let armed := bcm_set (bcm_compare (match_ix d)) (split_reg deadline).2 d1 in
    (count_now d ≤ count_now d1)%Z ∧ (set_compare deadline d).2 = (get_count armed).2 ∧
    if (set_compare deadline d).1 then (count_now armed ≤ deadline)%Z
    else (deadline < count_now (set_compare deadline d).2)%Z.
Proof.
  split; [apply bcm_get_count_spec|]. exists (bcm_get_count d).2.
  destruct (bcm_get_count_spec d) as [H1 Hm]. cbv zeta. split; [lia|].
  assert (Hs : set_compare deadline d =
    let '(count, d') := bcm_get_count (bcm_set (bcm_compare (match_ix d)) (split_reg deadline).2 (bcm_get_count d).2)
    in (bool_decide (count ≤ deadline)%Z, d')).
  { assert ((bcm_get_count d).2 = (get_count_split d).2) as E.
    { unfold bcm_get_count. by destruct (get_count_split d) as [[? ?] ?]. }
    rewrite E in *. unfold set_compare, bcm_timer_device, bcm_set_compare. destruct (split_reg deadline) as [hi lo].
    destruct (get_count_split d) as [[? ?] d1]. cbn [snd] in *. by rewrite Hm. }
  rewrite Hs. destruct (bcm_get_count_spec (bcm_set (bcm_compare (match_ix d)) (split_reg deadline).2
    (bcm_get_count d).2)) as [H2 _]. cbn [get_count bcm_timer_device].
  destruct (bcm_get_count (bcm_set _ _ _)) as [count d'] eqn:Hc. cbn [fst snd] in *.
  split; [done|]. case_bool_decide; lia.
Qed.

(** A device whose counter runs is one the timer server relies on. *)
#[export] Instance bcm_counts_ok : CountsOk D.
Proof.
  intros d. destruct (bcm_get_count_spec d) as [H _]. pose proof (rc_range (bcm_mmio d)) as H0.
  pose proof (rc_range (bcm_mmio (bcm_get_count d).2)) as H1. unfold count_now in H. simpl. lia.
Qed.
End counter.

(** A counter that ticks at every access. *)
Module CounterDemo.
#[export] Instance ticking : Mmio nat := {|
  mmio_get o k :=
    ((if decide (o = BCM_COUNTER_HI) then Z.min (Z.of_nat k) (2 ^ 61) / 2 ^ 32
      else Z.min (Z.of_nat k) (2 ^ 61) mod 2 ^ 32)%Z, S k);
  mmio_set _ _ k := S k;
  mmio_debug_put_char _ k := k;
|}.
#[export] Instance ticking_counter : RunningCounter nat.
Proof.
  refine {| count_of (k : nat) := Z.min (Z.of_nat k) (2 ^ 61) |}; intros; simpl; try done; try lia.
Defined.
End CounterDemo.

(** A device that has counted to seven. *)
Lemma bcm_timer_correct_witness :
  let d := @bcm_new nat 7 in
  (@count_now nat CounterDemo.ticking CounterDemo.ticking_counter d = 7)%Z ∧
  (7 ≤ (@get_count _ (@bcm_timer_device nat CounterDemo.ticking) d).1)%Z.
Proof.
  intros d. split; [reflexivity|].
  exact (proj1 (proj1 (@bcm_timer_correct nat CounterDemo.ticking CounterDemo.ticking_counter d 0))).
Defined.
