(* ===== verification/Mutex.v ===== *)
(** * Mutex: the lock built on an atomic counter and a seL4 notification

    Model of [framework/base/icecap-sync/src/mutex.rs].  Any number of threads run [lock]
    and [unlock]; each atomic operation and each system call is a step, so they interleave
    freely.  The notification is seL4's: a flag that [signal] sets and [wait] waits for and
    clears; two signals before a wait are one, which is what makes the protocol delicate.

    Where the notification comes from and the data that the lock protects are in [GenericMutex]. *)

From S2P Require Import Prelude.

Local Open Scope Z_scope.

(** Where a thread is. *)
Inductive thread_pc :=
| Idle        (* outside *)
| Waiting     (* [lock], after [fetch_sub] gave a value of at most 0, in [wait] *)
| Holding     (* [lock] has returned, the guard is not dropped *)
| Signalling. (* [unlock], after [fetch_add] gave a negative value, before [signal] *)

Record mutex := {
  value : Z;
  notified : bool;
  threads : list thread_pc;
}.

(** [RawGenericMutex::new], with [n] threads. *)
Definition mutex_new (n : nat) : mutex :=
  {| value := 1; notified := false; threads := replicate n Idle |}.

(** [self.value.fetch_sub(1)], then the test of the old value. *)
Definition after_lock (old_value : Z) : thread_pc :=
  if Z.leb old_value 0 then Waiting else Holding.
(** [self.value.fetch_add(1)], then the test of the old value. *)
Definition after_unlock (old_value : Z) : thread_pc :=
  if Z.ltb old_value 0 then Signalling else Idle.

Inductive mutex_step : mutex → mutex → Prop :=
| step_lock v p ts i :
    ts !! i = Some Idle →
    mutex_step {| value := v; notified := p; threads := ts |}
      {| value := v - 1; notified := p; threads := <[i := after_lock v]> ts |}
| step_wait v ts i :
    ts !! i = Some Waiting →
    mutex_step {| value := v; notified := true; threads := ts |}
      {| value := v; notified := false; threads := <[i := Holding]> ts |}
| step_unlock v p ts i :
    ts !! i = Some Holding →
    mutex_step {| value := v; notified := p; threads := ts |}
      {| value := v + 1; notified := p; threads := <[i := after_unlock v]> ts |}
| step_signal v p ts i :
    ts !! i = Some Signalling →
    mutex_step {| value := v; notified := p; threads := ts |}
      {| value := v; notified := true; threads := <[i := Idle]> ts |}.

Definition mutex_reachable (n : nat) (m : mutex) : Prop := rtc mutex_step (mutex_new n) m.

(** ** Counting threads *)

#[global] Instance thread_pc_eq_dec : EqDecision thread_pc.
Proof. solve_decision. Defined.

(** How many threads are at [pc]. *)
Definition at_pc (pc : thread_pc) (ts : list thread_pc) : Z :=
  Z.of_nat (length (base.filter (λ x, x = pc) ts)).

Definition b2z (b : bool) : Z := if b then 1 else 0.

Lemma at_pc_insert pc ts i a b :
  ts !! i = Some a →
  at_pc pc (<[i := b]> ts) = at_pc pc ts - b2z (bool_decide (a = pc)) + b2z (bool_decide (b = pc)).
Proof.
  intros Hi. pose proof (lookup_lt_Some _ _ _ Hi) as Hlt. unfold at_pc.
  rewrite insert_take_drop by done. rewrite <-(take_drop_middle ts i a Hi) at 3.
  rewrite !filter_app, !filter_cons, !length_app. unfold b2z.
  repeat case_decide; repeat case_bool_decide; try done; simpl; lia.
Qed.

Lemma at_pc_nonneg pc ts : 0 ≤ at_pc pc ts.
Proof. unfold at_pc. lia. Qed.

Lemma at_pc_lookup pc ts i : ts !! i = Some pc → 1 ≤ at_pc pc ts.
Proof.
  intros Hi. unfold at_pc. assert (pc ∈ base.filter (λ x, x = pc) ts) as Hin.
  { apply list_elem_of_filter. split; [done|]. by eapply list_elem_of_lookup_2. }
  destruct (base.filter (λ x, x = pc) ts); [by apply elem_of_nil in Hin|]. simpl. lia.
Qed.

Lemma at_pc_exists pc ts : 1 ≤ at_pc pc ts → ∃ i, ts !! i = Some pc.
Proof.
  unfold at_pc. destruct (base.filter (λ x, x = pc) ts) as [|x l] eqn:Hf; [simpl; lia|].
  intros _. assert (x ∈ base.filter (λ x, x = pc) ts) as Hin by (rewrite Hf; by constructor).
  apply list_elem_of_filter in Hin as [-> Hin]. by apply list_elem_of_lookup in Hin.
Qed.

(** ** The invariant *)

(** The value counts the threads that hold the lock or wait for it; and exactly one
    permission exists while there is any: with the holder, with a thread about to signal,
    or in the notification. *)
Record mutex_inv (m : mutex) : Prop := {
  mi_value : value m = 1 - at_pc Holding (threads m) - at_pc Waiting (threads m);
  mi_token : at_pc Holding (threads m) + at_pc Signalling (threads m) + b2z (notified m) =
    b2z (bool_decide (0 < at_pc Holding (threads m) + at_pc Waiting (threads m)));
}.

Lemma mutex_new_inv n : mutex_inv (mutex_new n).
Proof.
  assert (∀ pc, pc ≠ Idle → at_pc pc (replicate n Idle) = 0) as Hz.
  { intros pc Hne. unfold at_pc. rewrite filter_none; [done|]. intros x Hx.
    apply elem_of_replicate in Hx as [-> _]. congruence. }
  split; simpl; by rewrite !Hz.
Qed.

Lemma mutex_step_inv m m' : mutex_step m m' → mutex_inv m → mutex_inv m'.
Proof.
  intros Hstep [Hv Ht]. destruct Hstep as [v p ts i Hi|v ts i Hi|v p ts i Hi|v p ts i Hi]; simpl in *;
    pose proof (at_pc_lookup _ _ _ Hi); pose proof (at_pc_nonneg Holding ts);
    pose proof (at_pc_nonneg Waiting ts); pose proof (at_pc_nonneg Signalling ts);
    split; simpl; rewrite !(at_pc_insert _ _ _ _ _ Hi); unfold after_lock, after_unlock, b2z in *;
    repeat match goal with
    | |- context [Z.leb ?a ?b] => destruct (Z.leb_spec a b)
    | |- context [Z.ltb ?a ?b] => destruct (Z.ltb_spec a b)
    end; repeat case_bool_decide; try done; try destruct p; lia.
Qed.

Lemma mutex_reachable_inv n m : mutex_reachable n m → mutex_inv m.
Proof.
  unfold mutex_reachable. intros Hr. pose proof (mutex_new_inv n) as Hinv.
  induction Hr as [|m1 m2 m3 Hs Hr IH]; [done|]. apply IH. by eapply mutex_step_inv.
Qed.

(** Mutual exclusion: whatever the interleaving of any number of threads, at most one
    of them holds the lock; and a signal is never sent while an earlier one is still
    pending, so none is lost although notifications do not count. *)
Lemma mutex_exclusion n m :
  mutex_reachable n m →
  (∀ i j, threads m !! i = Some Holding → threads m !! j = Some Holding → i = j) ∧
  (∀ i, threads m !! i = Some Signalling → notified m = false).
Proof.
  intros [Hv Ht]%mutex_reachable_inv.
  pose proof (at_pc_nonneg Holding (threads m)). pose proof (at_pc_nonneg Signalling (threads m)).
  split.
  - intros i j Hi Hj. destruct (decide (i = j)) as [|Hne]; [done|exfalso].
    pose proof (at_pc_insert Holding _ _ _ Idle Hi) as Hins. unfold b2z in Hins.
    rewrite bool_decide_true, bool_decide_false in Hins by done.
    assert (<[i := Idle]> (threads m) !! j = Some Holding) as Hj'%at_pc_lookup
      by (by rewrite list_lookup_insert_ne).
    unfold b2z in Ht. destruct (notified m); case_bool_decide; lia.
  - intros i Hi%at_pc_lookup. unfold b2z in Ht. destruct (notified m); [|done].
    case_bool_decide; lia.
Qed.

Lemma waiting_progress m i :
  mutex_inv m → threads m !! i = Some Waiting →
  (∃ j, threads m !! j = Some Holding) ∨ (∃ j, threads m !! j = Some Signalling) ∨
  mutex_step m {| value := value m; notified := false; threads := <[i := Holding]> (threads m) |}.
Proof.
  intros [Hv Ht] Hi. pose proof (at_pc_lookup _ _ _ Hi).
  pose proof (at_pc_nonneg Holding (threads m)). pose proof (at_pc_nonneg Signalling (threads m)).
  unfold b2z in Ht. rewrite (bool_decide_true (0 < _)) in Ht by lia.
  destruct m as [v [] ts]; simpl in *.
  - right. right. by apply step_wait.
  - destruct (decide (1 ≤ at_pc Holding ts)); [left; by apply at_pc_exists|].
    right. left. apply at_pc_exists. lia.
Qed.

(** ** Draining *)

(** A step of a thread that is at work on the lock already: a waiting thread takes it, its
    holder drops the guard, a signal is sent.  No thread that is outside asks for it. *)
Definition drain_step (m m' : mutex) : Prop :=
  mutex_step m m' ∧ ∀ i, threads m !! i = Some Idle → threads m' !! i = Some Idle.

(** Everybody is outside and the lock is as [mutex_new] makes it. *)
Definition at_rest (m : mutex) : Prop :=
  value m = 1 ∧ notified m = false ∧ Forall (λ pc, pc = Idle) (threads m).

Lemma drain_intro m v p i a b :
  threads m !! i = Some a → a ≠ Idle →
  mutex_step m {| value := v; notified := p; threads := <[i := b]> (threads m) |} → red drain_step m.
Proof.
  intros Hi Ha Hs. eexists. split; [exact Hs|]. intros j Hj; simpl.
  rewrite list_lookup_insert_ne; [done|]. congruence.
Qed.

Lemma after_lock_busy v : after_lock v ≠ Idle.
Proof. unfold after_lock. by destruct (Z.leb v 0). Qed.

(** What is left to do: take the lock, drop it, signal. *)
Definition work (m : mutex) : Z :=
  3 * at_pc Waiting (threads m) + 2 * at_pc Holding (threads m) + at_pc Signalling (threads m).

Lemma drain_work m m' : drain_step m m' → (Z.to_nat (work m') < Z.to_nat (work m))%nat.
Proof.
  intros [Hstep Hidle]. unfold work.
  destruct Hstep as [v p ts i Hi|v ts i Hi|v p ts i Hi|v p ts i Hi]; simpl in *;
    [exfalso; specialize (Hidle i Hi); rewrite list_lookup_insert_eq in Hidle by (by eapply lookup_lt_Some);
     by apply (after_lock_busy v); simplify_eq|..];
    pose proof (at_pc_lookup _ _ _ Hi); pose proof (at_pc_nonneg Holding ts);
    pose proof (at_pc_nonneg Waiting ts); pose proof (at_pc_nonneg Signalling ts);
    rewrite !(at_pc_insert _ _ _ _ _ Hi); unfold after_unlock, b2z;
    try destruct (Z.ltb_spec v 0); repeat case_bool_decide; try done; lia.
Qed.

Lemma drain_inv m m' : rtc drain_step m m' → mutex_inv m → mutex_inv m'.
Proof. apply rtc_keeps. intros a b [Hs _]. by apply mutex_step_inv. Qed.

(** Nothing is left to do only when everybody is outside: a waiting thread is served first. *)
Lemma drain_nf m : mutex_inv m → nf drain_step m → at_rest m.
Proof.
  intros Hinv Hnf.
  assert (∀ i pc, threads m !! i = Some pc → pc ≠ Holding ∧ pc ≠ Signalling) as Hno.
  { intros i pc Hi. destruct m as [v p ts]; simpl in *. split; intros ->; apply Hnf.
    - by eapply drain_intro; [exact Hi| |by apply step_unlock].
    - by eapply drain_intro; [exact Hi| |by apply step_signal]. }
  assert (Forall (λ pc, pc = Idle) (threads m)) as Hall.
  { apply Forall_lookup. intros i pc Hi. destruct (Hno i pc Hi). destruct pc; [done| |done..]. exfalso.
    destruct (waiting_progress m i Hinv Hi) as [[j Hj]|[[j Hj]|Hs]];
      [by destruct (Hno _ _ Hj)..|apply Hnf; by eapply drain_intro]. }
  assert (∀ pc, pc ≠ Idle → at_pc pc (threads m) = 0) as Hz.
  { intros pc Hne. unfold at_pc. rewrite filter_none; [done|]. rewrite Forall_forall in Hall.
    intros x ->%Hall. congruence. }
  destruct Hinv as [Hv Ht]. rewrite (Hz Holding), (Hz Waiting) in Hv by done.
  rewrite !(Hz Holding), (Hz Waiting), (Hz Signalling) in Ht by done. split; [done|]. split; [|done].
  unfold b2z in Ht. destruct (notified m); [case_bool_decide; lia|done].
Qed.

(** A thread that no longer waits has held the lock on the way. *)
Lemma drain_takes m m' i :
  rtc drain_step m m' → threads m !! i = Some Waiting → threads m' !! i ≠ Some Waiting →
  ∃ m1, rtc drain_step m m1 ∧ threads m1 !! i = Some Holding ∧ rtc drain_step m1 m'.
Proof.
  induction 1 as [m|m m2 m' Hs Hr IH]; intros Hi Hn; [done|].
  assert (threads m2 !! i = Some Waiting ∨ threads m2 !! i = Some Holding) as [Hi2|Hi2].
  { destruct Hs as [Hs _]. destruct Hs as [v p ts k Hk|v ts k Hk|v p ts k Hk|v p ts k Hk]; simpl in *;
      (destruct (decide (k = i)) as [->|]; [|left; by rewrite list_lookup_insert_ne]); simplify_eq.
    right. apply list_lookup_insert_eq. by eapply lookup_lt_Some. }
  - destruct (IH Hi2 Hn) as (m1 & H1 & H2 & H3). exists m1. split; [by eapply rtc_l|done].
  - exists m2. split; [by apply rtc_once|done].
Qed.

(** C29: no wake-up is lost.  While a thread waits for the lock, either some thread holds it, or
    some thread is about to signal, or the notification is set and the waiting thread can
    take the lock at once.  And once no further thread asks for the lock and each holder drops its
    guard, whatever the order of the steps: every run ends; it ends only with
    every thread outside and the lock free; and the waiting thread has held the lock on the way. *)
Theorem mutex_no_lost_wakeup n m i :
  mutex_reachable n m → threads m !! i = Some Waiting →
  ((∃ j, threads m !! j = Some Holding) ∨ (∃ j, threads m !! j = Some Signalling) ∨
   mutex_step m {| value := value m; notified := false; threads := <[i := Holding]> (threads m) |}) ∧
  sn drain_step m ∧
  (∀ m', rtc drain_step m m' → nf drain_step m' →
    at_rest m' ∧
    ∃ m1, rtc drain_step m m1 ∧ threads m1 !! i = Some Holding ∧ rtc drain_step m1 m').
Proof.
  intros Hinv%mutex_reachable_inv Hi. split; [by apply waiting_progress|].
  split; [apply (measure_sn _ (λ m, Z.to_nat (work m))), drain_work|].
  intros m' Hr Hnf. assert (at_rest m') as Hrest by (apply drain_nf; [by eapply drain_inv|done]).
  split; [done|]. apply drain_takes; [done..|]. destruct Hrest as (_ & _ & Hall). rewrite Forall_lookup in Hall.
  intros H. by specialize (Hall _ _ H).
Qed.

(** Two threads: the second waits while the first holds the lock. *)
Definition mutex_contended : mutex :=
  {| value := -1; notified := false; threads := [Holding; Waiting] |}.

Lemma mutex_contended_reachable : mutex_reachable 2 mutex_contended.
Proof.
  eapply rtc_l; [by apply (step_lock 1 false [Idle; Idle] 0)|].
  eapply rtc_l; [by apply (step_lock 0 false [Holding; Idle] 1)|]. apply rtc_refl.
Qed.

Lemma mutex_no_lost_wakeup_witness :
  mutex_reachable 2 mutex_contended ∧ sn drain_step mutex_contended ∧
  (∀ m', rtc drain_step mutex_contended m' → nf drain_step m' →
    at_rest m' ∧
    ∃ m1, rtc drain_step mutex_contended m1 ∧ threads m1 !! 1%nat = Some Holding ∧ rtc drain_step m1 m').
Proof.
  split; [exact mutex_contended_reachable|].
  exact (proj2 (mutex_no_lost_wakeup 2 mutex_contended 1 mutex_contended_reachable eq_refl)).
Defined.
