(* ===== verification/GenericMutex.v ===== *)
(** * GenericMutex: data behind the lock

    The rest of [framework/base/icecap-sync/src/mutex.rs]: where a mutex finds its notification, and the
    data that is reached through a guard.  The theorem is what the models of the servers rely on: however
    their threads interleave, operations under the lock run as if they were atomic, in
    the order in which the lock was taken.

    A critical section is a program ([section]) that reads and writes the data through the guard, one
    access at a time; accesses, the atomic operations of the lock and its system calls all
    interleave.  All capabilities that a mutex is given denote the same notification. *)

From S2P Require Import Prelude.
From S2P Require Import Mutex.

Local Open Scope Z_scope.

(** ** Notifications *)
Class MutexNotification (N SetInput : Type) := {
  notification_get : N → outcome Empty_set Z;
  notification_set : SetInput → N → N;
}.

Record ExplicitMutexNotification := { explicit_cap : Z }.
#[global] Instance explicit_notification : MutexNotification ExplicitMutexNotification Empty_set := {|
  notification_get n := Ok (explicit_cap n);
  notification_set (input : Empty_set) n := match input with end;
|}.

Record DeferredMutexNotification := { deferred_cap : Z }.
Definition deferred_new : DeferredMutexNotification := {| deferred_cap := 0 |}.
#[global] Instance deferred_notification : MutexNotification DeferredMutexNotification Z := {|
  notification_get n := let cap := deferred_cap n in if cap =? 0 then Panic else Ok cap;
  notification_set input n := {| deferred_cap := input |};
|}.

(** [unsafe_static_mutex!]: the capability is in a static variable of the runtime. *)
Record StaticMutexNotification := { static_cap : Z }.
#[global] Instance static_notification : MutexNotification StaticMutexNotification Empty_set := {|
  notification_get n := let raw := static_cap n in if raw =? 0 then Panic else Ok raw;
  notification_set (input : Empty_set) n := match input with end;
|}.

(** ** Critical sections *)

(** What a thread does with the guard: it ends with a value, or accesses the data, which [f] changes, and
    goes on with what it read. *)
Inductive section (T A : Type) :=
| Done (a : A)
| Access (f : T → T) (k : T → section T A).
Arguments Done {T A} a.
Arguments Access {T A} f k.

(** The section at once. *)
Fixpoint run_section {T A} (p : section T A) (d : T) : A * T :=
  match p with
  | Done a => (a, d)
  | Access f k => run_section (k d) (f d)
  end.
(** Sections at once, one after the other. *)
Fixpoint run_sections {T A} (ps : list (section T A)) (d : T) : list A * T :=
  match ps with
  | [] => ([], d)
  | p :: ps' => let '(a, d1) := run_section p d in let '(answers, d2) := run_sections ps' d1 in (a :: answers, d2)
  end.

(** ** The mutex *)

(** [sections] are those of the threads in [lock], with the guard, and in the [unlock] that drops it. *)
Record GenericMutex (N T A : Type) := {
  notification : N;
  raw : mutex;
  data : T;
  sections : gmap nat (section T A);
}.
Arguments notification {N T A}.
Arguments raw {N T A}.
Arguments data {N T A}.
Arguments sections {N T A}.

Section generic.
Context {N SetInput T A : Type} `{!MutexNotification N SetInput}.
Abbreviation GM := (GenericMutex N T A).
Implicit Types (g : GM) (p : section T A).

Definition generic_new (n : nat) (notification : N) (val : T) : GM :=
  {| notification := notification; raw := mutex_new n; data := val; sections := ∅ |}.
Definition into_inner (g : GM) : T := data g.
Definition generic_set (input : SetInput) (g : GM) : GM :=
  {| notification := notification_set input (notification g); raw := raw g; data := data g; sections := sections g |}.

Definition with_raw (g : GM) (m : mutex) (ss : gmap nat (section T A)) : GM :=
  {| notification := notification g; raw := m; data := data g; sections := ss |}.
(** [*guard = ...]. *)
Definition with_data (g : GM) (d : T) (ss : gmap nat (section T A)) : GM :=
  {| notification := notification g; raw := raw g; data := d; sections := ss |}.

Inductive event := Acquired (p : section T A) | Released (a : A).

(** [lock] with its atomic operation ([generic_lock]) and its system call ([generic_wait]), accesses through
    the guard, and its drop ([generic_unlock], [generic_signal]). *)
Inductive generic_step : GM → list event → GM → Prop :=
| generic_lock g i p :
    threads (raw g) !! i = Some Idle →
    let pc := after_lock (value (raw g)) in
    generic_step g (if decide (pc = Holding) then [Acquired p] else [])
      (with_raw g {| value := value (raw g) - 1; notified := notified (raw g); threads := <[i := pc]> (threads (raw g)) |}
        (<[i := p]> (sections g)))
| generic_wait g i p cap :
    threads (raw g) !! i = Some Waiting → notified (raw g) = true →
    notification_get (notification g) = Ok cap → sections g !! i = Some p →
    generic_step g [Acquired p]
      (with_raw g {| value := value (raw g); notified := false; threads := <[i := Holding]> (threads (raw g)) |} (sections g))
| generic_access g i f k :
    threads (raw g) !! i = Some Holding → sections g !! i = Some (Access f k) →
    generic_step g [] (with_data g (f (data g)) (<[i := k (data g)]> (sections g)))
| generic_unlock g i a :
    threads (raw g) !! i = Some Holding → sections g !! i = Some (Done a) →
    generic_step g [Released a]
      (with_raw g {| value := value (raw g) + 1; notified := notified (raw g);
         threads := <[i := after_unlock (value (raw g))]> (threads (raw g)) |} (delete i (sections g)))
| generic_signal g i cap :
    threads (raw g) !! i = Some Signalling → notification_get (notification g) = Ok cap →
    generic_step g []
      (with_raw g {| value := value (raw g); notified := true; threads := <[i := Idle]> (threads (raw g)) |} (sections g))
| generic_set_step g input : generic_step g [] (generic_set input g).

(** Runs, with what happened. *)
Inductive generic_run (g0 : GM) : list event → GM → Prop :=
| run_start : generic_run g0 [] g0
| run_step tr g es g' : generic_run g0 tr g → generic_step g es g' → generic_run g0 (tr ++ es) g'.

Definition acquired (tr : list event) : list (section T A) :=
  omap (λ e, match e with Acquired p => Some p | Released _ => None end) tr.
Definition released (tr : list event) : list A :=
  omap (λ e, match e with Acquired _ => None | Released a => Some a end) tr.

(** ** Atomicity *)

(** The lock is the raw mutex. *)
Lemma generic_step_raw g es g' : generic_step g es g' → rtc mutex_step (raw g) (raw g').
Proof.
  destruct 1 as [g i p Hi pc|g i p cap Hi Hn _ _|g i f k _ _|g i a Hi _|g i cap Hi _|g input];
    destruct g as [n [v b ts] d ss]; cbn in *; subst; try apply rtc_refl; apply rtc_once; by constructor.
Qed.
Lemma generic_run_raw n nt val tr g : generic_run (generic_new n nt val) tr g → mutex_reachable n (raw g).
Proof.
  induction 1 as [|tr g es g' _ IH Hs]; [apply rtc_refl|].
  unfold mutex_reachable in *. etrans; [exact IH|by eapply generic_step_raw].
Qed.

Lemma run_sections_snoc (ps : list (section T A)) p d :
  run_sections (ps ++ [p]) d =
  ((run_sections ps d).1 ++ [(run_section p (run_sections ps d).2).1], (run_section p (run_sections ps d).2).2).
Proof.
  revert d. induction ps as [|q ps IH]; intros d; cbn [app run_sections].
  - cbn. by destruct (run_section p d).
  - destruct (run_section q d) as [a d1]. rewrite IH. by destruct (run_sections ps d1).
Qed.

Definition unheld (g : GM) : Prop := ∀ i, threads (raw g) !! i ≠ Some Holding.

(** Free, the data is what the sections so far make of it at once; held, what is left of the section of the
    holder leads to what the whole section makes of it. *)
Definition atomic_inv (val : T) (tr : list event) (g : GM) : Prop :=
  (unheld g ∧ run_sections (acquired tr) val = (released tr, data g)) ∨
  (∃ i p ps q, threads (raw g) !! i = Some Holding ∧ sections g !! i = Some q ∧ acquired tr = ps ++ [p] ∧
    released tr = (run_sections ps val).1 ∧ run_section q (data g) = run_section p (run_sections ps val).2).

Lemma taken_free n m m' i pc :
  mutex_reachable n m' → threads m !! i = Some pc → pc ≠ Holding → threads m' = <[i := Holding]> (threads m) →
  ∀ j, threads m !! j ≠ Some Holding.
Proof.
  intros [He _]%mutex_exclusion Hi Hne Hm j Hj. assert (j ≠ i) as Hji by (intros ->; congruence).
  apply Hji, He; rewrite Hm; [by rewrite list_lookup_insert_ne|]. apply list_lookup_insert_eq. by eapply lookup_lt_Some.
Qed.

(** Steps that change a thread which neither held the lock nor takes it. *)
Lemma aside_inv val tr g g' i pc pc' :
  threads (raw g) !! i = Some pc → pc ≠ Holding → pc' ≠ Holding → threads (raw g') = <[i := pc']> (threads (raw g)) →
  data g' = data g → (∀ j, j ≠ i → sections g' !! j = sections g !! j) →
  atomic_inv val tr g → atomic_inv val tr g'.
Proof.
  intros Hi Hpc Hpc' Ht Hd Hss [[Hf Hr]|(j & p & ps & q & Hj & Hq & Hrest)]; unfold atomic_inv, unheld; rewrite Ht, Hd.
  - left. split; [|done]. intros j. destruct (decide (i = j)) as [<-|]; [|rewrite list_lookup_insert_ne by done; apply Hf].
    rewrite list_lookup_insert_eq by by eapply lookup_lt_Some. congruence.
  - right. exists j, p, ps, q. assert (j ≠ i) by (intros ->; congruence).
    rewrite list_lookup_insert_ne, Hss by done. done.
Qed.

(** The lock is taken when it is free. *)
Lemma acquire_inv n val tr g g' i pc p :
  mutex_reachable n (raw g') → threads (raw g) !! i = Some pc → pc ≠ Holding →
  threads (raw g') = <[i := Holding]> (threads (raw g)) → data g' = data g → sections g' !! i = Some p →
  atomic_inv val tr g → atomic_inv val (tr ++ [Acquired p]) g'.
Proof.
  intros Hm Hi Hpc Ht Hd Hp [[Hf Hr]|(j & q & ps & q' & Hj & _)].
  2:{ by destruct (taken_free n (raw g) (raw g') i pc Hm Hi Hpc Ht j). }
  right. exists i, p, (acquired tr), p. rewrite Ht, Hd, list_lookup_insert_eq by by eapply lookup_lt_Some.
  unfold acquired, released in *. rewrite !omap_app, Hr. cbn. by rewrite app_nil_r.
Qed.

Lemma generic_step_inv n val tr g es g' :
  mutex_reachable n (raw g) → mutex_reachable n (raw g') → generic_step g es g' →
  atomic_inv val tr g → atomic_inv val (tr ++ es) g'.
Proof.
  intros Hm Hm' Hs Hinv. destruct Hs as [g i p Hi pc|g i p cap Hi Hn _ Hp|g i f k Hi Hs|g i a Hi Hs|g i cap Hi _|g input].
  - destruct (decide (pc = Holding)) as [Hpc|Hpc].
    + eapply (acquire_inv n _ _ g); [done|done|done|by rewrite <- Hpc|done|apply lookup_insert_eq|done].
    + rewrite app_nil_r. eapply (aside_inv _ _ g); [done|done|exact Hpc|done|done| |done].
      intros j Hj. cbn [sections with_raw]. by rewrite lookup_insert_ne.
  - by eapply (acquire_inv n _ _ g).
  - rewrite app_nil_r. destruct Hinv as [[Hf _]|(j & p & ps & q & Hj & Hq & Ha & Hr & Hrun)]; [by destruct (Hf i)|].
    assert (j = i) as -> by by apply (mutex_exclusion n (raw g) Hm). simplify_eq.
    right. exists i, p, ps, (k (data g)). split_and!; [done|apply lookup_insert_eq|done..].
  - destruct Hinv as [[Hf _]|(j & p & ps & q & Hj & Hq & Ha & Hr & Hrun)]; [by destruct (Hf i)|].
    assert (j = i) as -> by by apply (mutex_exclusion n (raw g) Hm). simplify_eq.
    left. split.
    + intros j Hj'. cbn [raw with_raw threads] in Hj'. destruct (decide (i = j)) as [<-|Hne].
      * rewrite list_lookup_insert_eq in Hj' by by eapply lookup_lt_Some. unfold after_unlock in Hj'. by destruct (_ <? _).
      * rewrite list_lookup_insert_ne in Hj' by done. by apply Hne, (mutex_exclusion n (raw g) Hm).
    + unfold acquired, released in *. rewrite !omap_app. cbn. rewrite app_nil_r, Ha, Hr, run_sections_snoc, <- Hrun. done.
  - rewrite app_nil_r. by apply (aside_inv _ _ g _ i Signalling Idle).
  - by rewrite app_nil_r.
Qed.

(** C22: Operations under the lock are atomic.  Whatever any number of threads do, with their accesses to the
    data, the atomic operations of the lock and its system calls interleaved in any way: while no thread has
    the guard, the data and the answers are those of the critical sections run at once, one after
    the other, in the order in which the lock was taken; and while a thread has it, what remains of
    its section gives what the section gives when it is run at once, after all that came before. *)
Theorem critical_sections_atomic n nt val tr g :
  generic_run (generic_new n nt val) tr g →
  ((∀ i, threads (raw g) !! i ≠ Some Holding) → run_sections (acquired tr) val = (released tr, data g)) ∧
  (∀ i, threads (raw g) !! i = Some Holding → ∃ p ps q,
    sections g !! i = Some q ∧ acquired tr = ps ++ [p] ∧ released tr = (run_sections ps val).1 ∧
    run_section q (data g) = run_section p (run_sections ps val).2).
Proof.
  intros Hrun. pose proof (generic_run_raw _ _ _ _ _ Hrun) as Hm.
  assert (atomic_inv val tr g) as Hinv.
  { clear Hm. induction Hrun as [|tr g es g' Hrun IH Hs].
    - left. split; [|done]. intros i [Hi _]%lookup_replicate. done.
    - eapply generic_step_inv; [by eapply generic_run_raw|eapply generic_run_raw; by econstructor|done|done]. }
  destruct Hinv as [[Hf Hr]|(j & p & ps & q & Hj & Hq & Ha & Hr & Hq')].
  - split; [done|]. intros i Hi. by destruct (Hf i).
  - split; [intros Hf; by destruct (Hf j)|]. intros i Hi.
    assert (i = j) as -> by by apply (mutex_exclusion n (raw g) Hm). by exists p, ps, q.
Qed.

(** [get] is only called by threads that wait or signal: with a single thread, a deferred notification need
    not have been set. *)
Definition alone (m : mutex) : Prop :=
  m = {| value := 1; notified := false; threads := [Idle] |} ∨ m = {| value := 0; notified := false; threads := [Holding] |}.
Lemma alone_step m m' : mutex_step m m' → alone m → alone m'.
Proof.
  intros Hs [-> | ->]; inversion Hs as [v p ts j Hj|v ts j Hj|v p ts j Hj|v p ts j Hj]; subst; destruct j; simplify_eq/=;
    [right|left]; done.
Qed.
Lemma alone_never_waits nt val tr g i :
  generic_run (generic_new 1 nt val) tr g →
  threads (raw g) !! i ≠ Some Waiting ∧ threads (raw g) !! i ≠ Some Signalling.
Proof.
  intros Hm%generic_run_raw. assert (alone (raw g)) as [-> | ->]; [|by destruct i..].
  assert (alone (mutex_new 1)) as H0 by by left. unfold mutex_reachable in Hm.
  induction Hm; eauto using alone_step.
Qed.
End generic.

(** ** Two threads that count

    Each reads the counter and, in another access, writes what it read plus one; the second comes
    while the first is between the two. *)
Module CounterDemo.
Definition increment : section Z Z := Access id (λ old, Access (λ _, old + 1) (λ _, Done old)).
Abbreviation GM := (GenericMutex DeferredMutexNotification Z Z).
Abbreviation state v ts d ss := ({| notification := {| deferred_cap := 3 |}; raw := {| value := v; notified := false;
  threads := ts |}; data := d; sections := ss |} : GM).
Definition middle : GM :=
  state (-1) [Holding; Waiting] 5 (<[1%nat := increment]> (<[0%nat := Access (λ _, 5 + 1) (λ _, Done 5)]> (<[0%nat := increment]> ∅))).
Lemma middle_run : generic_run (generic_new 2 {| deferred_cap := 3 |} 5) [Acquired increment] middle.
Proof.
  apply (run_step _ [Acquired increment]
    (state 0 [Holding; Idle] 5 (<[0%nat := Access (λ _, 5 + 1) (λ _, Done 5)]> (<[0%nat := increment]> ∅))) []).
  - apply (run_step _ [Acquired increment] (state 0 [Holding; Idle] 5 (<[0%nat := increment]> ∅)) []).
    + apply (run_step _ [] (generic_new 2 {| deferred_cap := 3 |} 5) [Acquired increment]); [constructor|].
      exact (generic_lock (generic_new 2 {| deferred_cap := 3 |} 5) 0%nat increment eq_refl).
    + exact (generic_access (state 0 [Holding; Idle] 5 (<[0%nat := increment]> ∅)) 0%nat id
        (λ old, Access (λ _, old + 1) (λ _, Done old)) eq_refl eq_refl).
  - exact (generic_lock (state 0 [Holding; Idle] 5
      (<[0%nat := Access (λ _, 5 + 1) (λ _, Done 5)]> (<[0%nat := increment]> ∅))) 1%nat increment eq_refl).
Qed.
End CounterDemo.

Lemma critical_sections_atomic_witness :
  ∃ p ps q, sections CounterDemo.middle !! 0%nat = Some q ∧ [CounterDemo.increment] = ps ++ [p] ∧
    [] = (run_sections ps 5).1 ∧ run_section q 5 = run_section p (run_sections ps 5).2.
Proof.
  exact (proj2 (critical_sections_atomic 2 {| deferred_cap := 3 |} 5 [Acquired CounterDemo.increment] CounterDemo.middle
    CounterDemo.middle_run) 0%nat eq_refl).
Defined.
