(* ===== verification/ResourceServer.v ===== *)
(** * ResourceServer: realms and the cores they run on

    Model of [hypervisor/components/resource-server]: the server ([core/src/lib.rs] with
    [cpu.rs]), the messages of [types/src/lib.rs], and the dispatch of [src/main.rs].

    The server owns the realms.  The realizer (the dynamic loader, which builds and tears
    down the kernel objects of a realm) is the class [Realizer], with the decoder of the
    serialized model ([postcard]) in it; the kernel, the event server, the timer server and
    the suspended host threads are one class [Platform] with one operation per effect and,
    for the specification, the observation of where a thread runs.

    [TCB]s are numbers.  [NUM_ACTIVE_CORES] comes from the platform and is a parameter. *)

From S2P Require Import Prelude.

Abbreviation RealmId := nat.
Abbreviation TCB := nat.

Definition RESUME_HOST_CONDITION_TAG_TIMEOUT : Z := 1.
Definition RESUME_HOST_CONDITION_TAG_HOST_EVENT : Z := 2.

Inductive YieldBackCondition := WFE (timeout : Z).
Inductive ResumeHostCondition :=
| ResumeTimeout
| ResumeHostEvent
| RealmYieldedBack (condition : YieldBackCondition).

(** What the server asks of its environment. *)
Inductive Effect :=
| Schedule (tcb : TCB) (node : option nat)
| Resume (tcb : TCB)
| SaveCaller (node : nat)
| CreateRealm (node : nat) (realm_id : RealmId) (num_nodes : nat)
| DestroyRealm (node : nat) (realm_id : RealmId)
| Subscribe (node host_nid : nat)
| Unsubscribe (node host_nid : nat)
| OneshotRelative (node : nat) (tid ns : Z)
| StopTimer (node : nat) (tid : Z)
| Reply (node : nat) (value : Z)
| ReplyControl.

(** [runs_on k tcb] is where the kernel runs [tcb]: a core, or [None] for the inactive
    core; an effect that succeeds changes it only for the thread it schedules. *)
Class Platform (K E : Type) := {
  effect : Effect → M K E unit;
  runs_on : K → TCB → option nat;
  effect_runs_on e k k' tcb :
    effect e k = (Ok tt, k') →
    runs_on k' tcb =
      match e with
      | Schedule t node => if decide (t = tcb) then node else runs_on k tcb
      | _ => runs_on k tcb
      end;
}.

(** The requests of the host. *)
Inductive Request :=
| DeclareRealm (realm_id : RealmId) (spec_size : nat)
| SpecChunk (realm_id : RealmId) (bulk_data_offset bulk_data_size offset : nat)
| FillChunks (realm_id : RealmId) (bulk_data_offset bulk_data_size : nat)
| RealizeStart (realm_id : RealmId)
| RealizeFinish (realm_id : RealmId)
| Destroy (realm_id : RealmId)
| HackRun (realm_id : RealmId).

(** The realizer: [R] its state, [P] a partial subsystem, [S] a subsystem, whose virtual
    cores are lists of threads with their [resume] flag.  The decoders are [postcard]'s:
    of a model, of a request, and of a chunk header from the front of a buffer, of which it
    takes at least a byte. *)
Record FillChunkHeader := { object_index : nat; fill_entry_index : nat; size : nat }.

Class Realizer (R P S Model E : Type) := {
  from_bytes : list Z → option Model;
  recv_request : list Z → option Request;
  take_from_bytes : list Z → option (FillChunkHeader * list Z);
  take_from_bytes_shorter bs h rest :
    take_from_bytes bs = Some (h, rest) → length rest < length bs;
  realizer_start : Model → M R E P;
  realizer_continue : P → nat → nat → list Z → M R E P;
  realizer_finish : P → M R E S;
  realizer_destroy : S → M R E unit;
  virtual_cores : S → list (list (TCB * bool));
}.

Record VirtualNode := { tcbs : list TCB; physical_node : option nat }.

Record Realm (S : Type) := { virtual_nodes : list VirtualNode; subsystem : S }.
Arguments virtual_nodes {S} _.
Arguments subsystem {S} _.

Record ResourceServer (K R P S : Type) := {
  platform : K;
  realizer : R;
  realms : gmap RealmId (Realm S);
  partial_specs : gmap RealmId (list Z);
  partial_realms : gmap RealmId P;
  physical_nodes : list (option (RealmId * nat));
  node_local : nat;
}.
Arguments platform {K R P S} _.
Arguments realizer {K R P S} _.
Arguments realms {K R P S} _.
Arguments partial_specs {K R P S} _.
Arguments partial_realms {K R P S} _.
Arguments physical_nodes {K R P S} _.
Arguments node_local {K R P S} _.

Section resource_server.
Context {K R P S Model E : Type} `{!Platform K E} `{!Realizer R P S Model E}.
Abbreviation RS := (ResourceServer K R P S).
Abbreviation RM := (M RS E).

Definition rs_new (r : R) (k : K) (num_active_cores nodes : nat) : RS :=
  {| platform := k; realizer := r; realms := ∅; partial_specs := ∅; partial_realms := ∅;
     physical_nodes := replicate num_active_cores None; node_local := nodes |}.

Definition with_platform (s : RS) (k : K) : RS :=
  {| platform := k; realizer := realizer s; realms := realms s; partial_specs := partial_specs s;
     partial_realms := partial_realms s; physical_nodes := physical_nodes s; node_local := node_local s |}.
Definition with_realizer (s : RS) (r : R) : RS :=
  {| platform := platform s; realizer := r; realms := realms s; partial_specs := partial_specs s;
     partial_realms := partial_realms s; physical_nodes := physical_nodes s; node_local := node_local s |}.
Definition with_realms (s : RS) (v : gmap RealmId (Realm S)) : RS :=
  {| platform := platform s; realizer := realizer s; realms := v; partial_specs := partial_specs s;
     partial_realms := partial_realms s; physical_nodes := physical_nodes s; node_local := node_local s |}.
Definition with_partial_specs (s : RS) (v : gmap RealmId (list Z)) : RS :=
  {| platform := platform s; realizer := realizer s; realms := realms s; partial_specs := v;
     partial_realms := partial_realms s; physical_nodes := physical_nodes s; node_local := node_local s |}.
Definition with_partial_realms (s : RS) (v : gmap RealmId P) : RS :=
  {| platform := platform s; realizer := realizer s; realms := realms s; partial_specs := partial_specs s;
     partial_realms := v; physical_nodes := physical_nodes s; node_local := node_local s |}.
Definition with_physical_nodes (s : RS) (v : list (option (RealmId * nat))) : RS :=
  {| platform := platform s; realizer := realizer s; realms := realms s; partial_specs := partial_specs s;
     partial_realms := partial_realms s; physical_nodes := v; node_local := node_local s |}.

(** An effect whose failure is returned ([?]), and one whose failure panics. *)
Definition try_effect (e : Effect) : RM unit := λ s,
  let '(r, k) := effect e (platform s) in (r, with_platform s k).
Definition must_effect (e : Effect) : RM unit := unwrap_result (try_effect e).
Definition on_realizer {A} (m : M R E A) : RM A := λ s,
  let '(r, x) := m (realizer s) in (r, with_realizer s x).

(** [self.node_local[node]]. *)
Definition local (node : nat) : RM unit := n ← gets node_local; assert_ (node <? n).

Definition schedule (tcb : TCB) (node : option nat) : RM unit := try_effect (Schedule tcb node).

(** ** Kernel object resources *)

Definition declare (realm_id : RealmId) (spec_size : nat) : RM unit :=
  ps ← gets partial_specs;
  rs ← gets realms;
  assert_ (bool_decide (ps !! realm_id = None));;
  assert_ (match rs !! realm_id with None => true | Some _ => false end);;
  modify (λ s, with_partial_specs s (<[realm_id := replicate spec_size 0%Z]> ps)).

Definition incorporate_spec_chunk (realm_id : RealmId) (offset : nat) (chunk : list Z) : RM unit :=
  ps ← gets partial_specs;
  partial ← lift (unwrap (ps !! realm_id));
  assert_ (offset + length chunk <=? length partial);;
  modify (λ s, with_partial_specs s (<[realm_id := list_inserts offset chunk partial]> ps)).

Definition realize_start (realm_id : RealmId) : RM unit :=
  ps ← gets partial_specs;
  raw ← lift (unwrap (ps !! realm_id));
  modify (λ s, with_partial_specs s (delete realm_id ps));;
  model ← lift (unwrap (from_bytes raw));
  partial_subsystem ← on_realizer (realizer_start model);
  modify (λ s, with_partial_realms s (<[realm_id := partial_subsystem]> (partial_realms s))).

Definition realize_continue (realm_id : RealmId) (object_index fill_entry_index : nat)
    (content : list Z) : RM unit :=
  prs ← gets partial_realms;
  partial ← lift (unwrap (prs !! realm_id));
  partial' ← on_realizer (realizer_continue partial object_index fill_entry_index content);
  modify (λ s, with_partial_realms s (<[realm_id := partial']> prs)).

(** The threads of one virtual core: each is parked, and resumed if it is to be. *)
Definition start_tcb (p : TCB * bool) : RM unit :=
  schedule p.1 None;; if p.2 then try_effect (Resume p.1) else mret tt.

Definition realize_finish (node_index : nat) (realm_id : RealmId) : RM unit :=
  prs ← gets partial_realms;
  partial ← lift (unwrap (prs !! realm_id));
  modify (λ s, with_partial_realms s (delete realm_id prs));;
  sub ← on_realizer (realizer_finish partial);
  for_each (for_each start_tcb) (virtual_cores sub);;
  modify (λ s, with_realms s (<[realm_id := {|
    virtual_nodes := (λ core, {| tcbs := core.*1; physical_node := None |}) <$> virtual_cores sub;
    subsystem := sub |}]> (realms s)));;
  local node_index;;
  must_effect (CreateRealm node_index realm_id 1).

Definition destroy (node_index : nat) (realm_id : RealmId) : RM unit :=
  rs ← gets realms;
  match rs !! realm_id with
  | None => mret tt
  | Some realm =>
      modify (λ s, with_realms s (delete realm_id rs));;
      for_each (λ vn : VirtualNode,
        assert_ (match physical_node vn with None => true | Some _ => false end);;
        for_each (λ vn' : VirtualNode, for_each (λ tcb, schedule tcb None) (tcbs vn'))
          (virtual_nodes realm)) (virtual_nodes realm);;
      on_realizer (realizer_destroy (subsystem realm));;
      local node_index;;
      must_effect (DestroyRealm node_index realm_id)
  end.

(** ** CPU resources *)

Definition set_timeout (node : nat) (ns : Z) : RM unit := local node;; must_effect (OneshotRelative node 0 ns).
Definition cancel_timeout (node : nat) : RM unit := local node;; must_effect (StopTimer node 0).
Definition set_notify_host_event (node : nat) : RM unit := local node;; must_effect (Subscribe node node).
Definition cancel_notify_host_event (node : nat) : RM unit := local node;; must_effect (Unsubscribe node node).

(** [RPC for ResumeHostCondition]: what is sent; [RealmYieldedBack] is a [todo!()]. *)
Definition resume_value (c : ResumeHostCondition) : outcome E Z :=
  match c with
  | ResumeTimeout => Ok RESUME_HOST_CONDITION_TAG_TIMEOUT
  | ResumeHostEvent => Ok RESUME_HOST_CONDITION_TAG_HOST_EVENT
  | RealmYieldedBack _ => Panic
  end.
Definition resume_host (node : nat) (c : ResumeHostCondition) : RM unit :=
  local node;; v ← lift (resume_value c); must_effect (Reply node v).

(** [self.physical_nodes[node]]. *)
Definition get_physical (node : nat) : RM (option (RealmId * nat)) :=
  reads (λ s, index (physical_nodes s) node).
Definition set_physical (node : nat) (v : option (RealmId * nat)) : RM unit :=
  modify (λ s, with_physical_nodes s (<[node := v]> (physical_nodes s))).

(** [&mut self.realms.get_mut(&realm_id).unwrap().virtual_nodes[virtual_node]]. *)
Definition get_virtual (realm_id : RealmId) (virtual_node : nat) : RM VirtualNode :=
  reads (λ s, realm ← unwrap (realms s !! realm_id); index (virtual_nodes realm) virtual_node).
Definition set_virtual (realm_id : RealmId) (virtual_node : nat) (v : option nat) : RM unit :=
  modify (λ s, with_realms s
    (alter (λ realm, {| virtual_nodes := alter (λ vn, {| tcbs := tcbs vn; physical_node := v |})
                                           virtual_node (virtual_nodes realm);
                        subsystem := subsystem realm |}) realm_id (realms s))).

Definition yield_to (node : nat) (realm_id : RealmId) (virtual_node : nat) (timeout : option Z) : RM unit :=
  local node;; try_effect (SaveCaller node);;
  cur ← get_physical node;
  assert_ (match cur with None => true | Some _ => false end);;
  set_physical node (Some (realm_id, virtual_node));;
  vn ← get_virtual realm_id virtual_node;
  assert_ (match physical_node vn with None => true | Some _ => false end);;
  set_virtual realm_id virtual_node (Some node);;
  for_each (λ tcb, schedule tcb (Some node)) (tcbs vn);;
  set_notify_host_event node;;
  match timeout with Some ns => set_timeout node ns | None => mret tt end.

Definition yield_back (realm_id : RealmId) (virtual_node : nat) (c : YieldBackCondition) : RM unit :=
  vn ← get_virtual realm_id virtual_node;
  set_virtual realm_id virtual_node None;;
  node ← lift (unwrap (physical_node vn));
  for_each (λ tcb, schedule tcb None) (tcbs vn);;
  cancel_notify_host_event node;;
  cancel_timeout node;;
  resume_host node (RealmYieldedBack c).

(** The part [host_event] and [timeout] share: stop what runs on the core. *)
Definition preempt (node : nat) (finish : RM unit) : RM unit :=
  cur ← get_physical node;
  set_physical node None;;
  match cur with
  | None => mret tt
  | Some (realm_id, virtual_node) =>
      vn ← get_virtual realm_id virtual_node;
      set_virtual realm_id virtual_node None;;
      for_each (λ tcb, schedule tcb None) (tcbs vn);;
      finish
  end.

Definition host_event (node : nat) : RM unit :=
  preempt node (cancel_notify_host_event node;; cancel_timeout node;; resume_host node ResumeHostEvent).
Definition timeout (node : nat) : RM unit :=
  preempt node (cancel_notify_host_event node;; resume_host node ResumeTimeout).

Fixpoint hack_run_nodes (i : nat) (l : list VirtualNode) : RM unit :=
  match l with
  | [] => mret tt
  | vn :: l' => for_each (λ tcb, schedule tcb (Some i)) (tcbs vn);; hack_run_nodes (i + 1) l'
  end.
Definition hack_run (realm_id : RealmId) : RM unit :=
  realm ← reads (λ s, unwrap (realms s !! realm_id)); hack_run_nodes 0 (virtual_nodes realm).

(** ** The server thread of a node *)

(** The two words of a [Yield] message: three 16-bit fields, and a timeout whose top bit
    says that it is there. *)
Definition get_field (reg : Z) (i : Z) : nat :=
  Z.to_nat (Z.land (Z.shiftr reg (i * 16)) (Z.shiftl 1 16 - 1)).
Definition decode_option (reg : Z) : option Z :=
  if Z.eqb reg 0 then None else Some (Z.land reg (word_not 64 (Z.shiftl 1 63))).

Record Yield := {
  yield_physical_node : nat;
  yield_realm_id : nat;
  yield_virtual_node : nat;
  yield_timeout : option Z;
}.
Definition yield_recv (parameters : list Z) : outcome E Yield :=
  swap ← index parameters 0;
  t ← index parameters 1;
  Ok {| yield_physical_node := get_field swap 0; yield_realm_id := get_field swap 1;
        yield_virtual_node := get_field swap 2; yield_timeout := decode_option t |}.

(** [from_raw_parts(bulk_region + offset, size)] under its assertion. *)
Definition bulk_slice (bulk : list Z) (offset size : nat) : outcome E (list Z) :=
  if offset + size <=? length bulk then Ok (take size (drop offset bulk)) else Panic.

(** The loop over the chunks of a [FillChunks]; a pass takes at least a byte, so the length
    of the buffer is enough fuel. *)
Fixpoint fill_chunks (fuel : nat) (realm_id : RealmId) (content : list Z) : RM unit :=
  match content, fuel with
  | [], _ => mret tt
  | _, 0 => panic
  | _, Datatypes.S fuel' =>
      p ← lift (unwrap (take_from_bytes content));
      assert_ (size p.1 <=? length p.2);;
      realize_continue realm_id (object_index p.1) (fill_entry_index p.1) (take (size p.1) p.2);;
      fill_chunks fuel' realm_id (drop (size p.1) p.2)
  end.

Definition handle_request (node_index : nat) (bulk : list Z) (r : Request) : RM unit :=
  match r with
  | DeclareRealm realm_id spec_size => declare realm_id spec_size;; must_effect ReplyControl
  | SpecChunk realm_id bulk_data_offset bulk_data_size offset =>
      content ← lift (bulk_slice bulk bulk_data_offset bulk_data_size);
      incorporate_spec_chunk realm_id offset content;; must_effect ReplyControl
  | FillChunks realm_id bulk_data_offset bulk_data_size =>
      content ← lift (bulk_slice bulk bulk_data_offset bulk_data_size);
      fill_chunks (length content) realm_id content;; must_effect ReplyControl
  | RealizeStart realm_id => realize_start realm_id;; must_effect ReplyControl
  | RealizeFinish realm_id => realize_finish node_index realm_id;; must_effect ReplyControl
  | Destroy realm_id => destroy node_index realm_id;; must_effect ReplyControl
  | HackRun realm_id => hack_run realm_id;; must_effect ReplyControl
  end.

(** One turn of [run]: a message with its badge and its parameters. *)
Definition serve_message (node_index : nat) (bulk : list Z) (badge : Z) (parameters : list Z) : RM unit :=
  if Z.eqb badge 0x0 then
    r ← lift (unwrap (recv_request parameters)); handle_request node_index bulk r
  else if Z.eqb badge 0x1 then
    y ← lift (yield_recv parameters);
    yield_to (yield_physical_node y) (yield_realm_id y) (yield_virtual_node y) (yield_timeout y)
  else if Z.eqb badge 0x101 then host_event node_index
  else if Z.eqb badge 0x100 then timeout node_index
  else panic.
End resource_server.
