(* ===== verification/ResourceServerSpec.v ===== *)
(** * ResourceServerSpec: what runs where

    The server keeps the placement of virtual nodes twice, in [physical_nodes] (per core)
    and in the realms (per virtual node), and the kernel keeps it a third time, in the
    affinity of every thread.  [placement_inv] says that the three agree; it holds after
    every sequence of messages that the server handles without an error, as long as the benchmarking
    request [HackRun] is not used and no realm is declared again while it is being built
    ([realm_placement]; [redeclared_realm_keeps_core] shows that the latter breaks it), so that a core
    runs at most one virtual node, and the messages that end a turn on a core free it
    ([host_event_frees_core]).

    What is asked of the realizer is that the threads of a subsystem are its own
    ([RealizerLaws]). *)

From S2P Require Import Prelude.
From S2P Require Import ResourceServer.

(** All the threads of a subsystem. *)
Definition threads_of (cores : list (list (TCB * bool))) : list TCB := concat ((λ core, core.*1) <$> cores).

(** Sets of threads that have none in common. *)
Fixpoint all_disjoint (l : list (gset TCB)) : Prop :=
  match l with [] => True | X :: l' => X ## ⋃ l' ∧ all_disjoint l' end.
#[export] Instance all_disjoint_perm : Proper ((≡ₚ) ==> iff) all_disjoint.
Proof.
  intros l l' Hp. induction Hp as [|X l l' Hp IH|X Y l|l1 l2 l3 _ IH1 _ IH2]; cbn [all_disjoint].
  - done.
  - by rewrite IH, Hp.
  - cbn [union_list fold_right]. set_solver.
  - by rewrite IH1.
Qed.

(** What the server relies on in a realizer.  [realizer_ok r l]: the subsystems that were started and not
    destroyed own [l], and no two of them own a thread together.  The threads of a subsystem
    that is finished are among those it owns. *)
Class RealizerLaws (R P S Model E : Type) `{!Realizer R P S Model E} := {
  Owner : Type;
  own_partial : P → Owner;
  own_subsystem : S → Owner;
  own_threads : Owner → gset TCB;
  realizer_ok : R → list Owner → Prop;
  realizer_ok_perm r l l' : l ≡ₚ l' → realizer_ok r l → realizer_ok r l';
  realizer_ok_disjoint r o o' l : realizer_ok r (o :: o' :: l) → own_threads o ## own_threads o';
  start_ok m r p r' l :
    realizer_ok r l → realizer_start m r = (Ok p, r') → realizer_ok r' (own_partial p :: l);
  continue_ok p i j c r p' r' l :
    realizer_ok r (own_partial p :: l) → realizer_continue p i j c r = (Ok p', r') →
    realizer_ok r' (own_partial p' :: l);
  finish_ok p r sub r' l :
    realizer_ok r (own_partial p :: l) → realizer_finish p r = (Ok sub, r') →
    NoDup (threads_of (virtual_cores sub)) ∧ realizer_ok r' (own_subsystem sub :: l);
  destroy_ok sub r r' l :
    realizer_ok r (own_subsystem sub :: l) → realizer_destroy sub r = (Ok tt, r') → realizer_ok r' l;
  own_subsystem_threads sub : own_threads (own_subsystem sub) = list_to_set (threads_of (virtual_cores sub));
}.

(** [realms[r].virtual_nodes[v]]. *)
Definition node_at {K R P S} (s : ResourceServer K R P S) (r : RealmId) (v : nat) : option VirtualNode :=
  realm ← realms s !! r; virtual_nodes realm !! v.

Section spec.
Context {K R P S Model E : Type} `{!Platform K E} `{!Realizer R P S Model E} `{!RealizerLaws R P S Model E}.
Abbreviation RS := (ResourceServer K R P S).
Abbreviation RM := (M RS E).
Implicit Types (s : RS) (k : K).

(** ** The invariant *)

(** What the realms own that are being built and that were built. *)
Definition owned_by (prs : gmap RealmId P) (rs : gmap RealmId S) : list Owner :=
  (map_to_list (own_partial <$> prs)).*2 ++ (map_to_list (own_subsystem <$> rs)).*2.
Definition owned s : list Owner := owned_by (partial_realms s) (subsystem <$> realms s).

Lemma values_insert {A B} (f : A → B) (m : gmap RealmId A) r x :
  m !! r = None → (map_to_list (f <$> <[r := x]> m)).*2 ≡ₚ f x :: (map_to_list (f <$> m)).*2.
Proof. intros Hr. rewrite fmap_insert, map_to_list_insert by (by rewrite lookup_fmap, Hr). done. Qed.
Lemma owned_insert_partial prs rs r p :
  prs !! r = None → owned_by (<[r := p]> prs) rs ≡ₚ own_partial p :: owned_by prs rs.
Proof. intros Hr. unfold owned_by. by rewrite values_insert. Qed.
Lemma owned_partial prs rs r p :
  prs !! r = Some p → owned_by prs rs ≡ₚ own_partial p :: owned_by (delete r prs) rs.
Proof.
  intros Hr. rewrite <-(owned_insert_partial _ _ r) by apply lookup_delete_eq. by rewrite insert_delete_id.
Qed.
Lemma owned_insert_realm prs rs r sub :
  rs !! r = None → owned_by prs (<[r := sub]> rs) ≡ₚ own_subsystem sub :: owned_by prs rs.
Proof. intros Hr. unfold owned_by. by rewrite values_insert, <-Permutation_middle. Qed.
Lemma owned_realm prs rs r sub :
  rs !! r = Some sub → owned_by prs rs ≡ₚ own_subsystem sub :: owned_by prs (delete r rs).
Proof.
  intros Hr. rewrite <-(owned_insert_realm _ _ r) by apply lookup_delete_eq. by rewrite insert_delete_id.
Qed.

Record placement_inv s : Prop := {
  (* the two tables of the server are inverse to each other *)
  inv_tables p r v :
    physical_nodes s !! p = Some (Some (r, v)) ↔
    ∃ vn, node_at s r v = Some vn ∧ physical_node vn = Some p;
  (* the kernel runs every thread of a realm where the tables say *)
  inv_threads r v vn t :
    node_at s r v = Some vn → t ∈ tcbs vn → runs_on (E:=E) (platform s) t = physical_node vn;
  (* no thread belongs to two virtual nodes *)
  inv_disjoint r v vn r' v' vn' t :
    node_at s r v = Some vn → node_at s r' v' = Some vn' → t ∈ tcbs vn → t ∈ tcbs vn' →
    r = r' ∧ v = v';
  (* the threads of a realm are those of its subsystem *)
  inv_subsystem r realm :
    realms s !! r = Some realm →
    tcbs <$> virtual_nodes realm = (λ core, core.*1) <$> virtual_cores (subsystem realm);
  (* realms that are being built and realms own what the realizer thinks they own *)
  inv_owned : realizer_ok (realizer s) (owned s);
  (* a realm that is being built has not been built *)
  inv_specs r : is_Some (partial_specs s !! r) → partial_realms s !! r = None ∧ realms s !! r = None;
  inv_partial r : is_Some (partial_realms s !! r) → realms s !! r = None;
}.

(** ** Results of the elementary operations *)

(** [quiet s s']: the tables are the same and no thread has moved. *)
Definition quiet s s' : Prop :=
  ∃ k', s' = with_platform s k' ∧ ∀ t, runs_on (E:=E) k' t = runs_on (E:=E) (platform s) t.

Lemma with_platform_id s : with_platform s (platform s) = s.
Proof. by destruct s. Qed.

Lemma quiet_refl s : quiet s s.
Proof. exists (platform s). by rewrite with_platform_id. Qed.
Lemma quiet_trans s1 s2 s3 : quiet s1 s2 → quiet s2 s3 → quiet s1 s3.
Proof.
  intros (k & -> & Hk) (k' & -> & Hk'). exists k'. split; [done|].
  intros t. by rewrite Hk', <-Hk.
Qed.

(** The invariant is about the tables and the places of threads only. *)
Lemma placement_inv_quiet s s' : quiet s s' → placement_inv s → placement_inv s'.
Proof.
  intros (k' & -> & Hk) [H1 H2 H3 H4 H5 H6 H7]. split; try done.
  intros r v vn t Hn Ht. simpl. rewrite Hk. by apply (H2 r v).
Qed.

Definition is_schedule (e : Effect) : bool := match e with Schedule _ _ => true | _ => false end.

Lemma try_effect_ok e s s' :
  try_effect e s = (Ok tt, s') → ∃ k', effect e (platform s) = (Ok tt, k') ∧ s' = with_platform s k'.
Proof. unfold try_effect. destruct (effect e (platform s)) as [o k']. naive_solver. Qed.

Lemma try_effect_quiet e s s' : is_schedule e = false → try_effect e s = (Ok tt, s') → quiet s s'.
Proof.
  intros He (k' & Hk & ->)%try_effect_ok. exists k'. split; [done|]. intros t.
  rewrite (effect_runs_on _ _ _ t Hk). by destruct e.
Qed.

Lemma must_effect_quiet e s s' : is_schedule e = false → must_effect e s = (Ok tt, s') → quiet s s'.
Proof.
  intros He Hm. apply (try_effect_quiet e); [done|]. unfold must_effect, unwrap_result in Hm.
  destruct (try_effect e s) as [[[]|?|] ?]; naive_solver.
Qed.

Lemma local_quiet node s s' : (local node : RM unit) s = (Ok tt, s') → quiet s s'.
Proof.
  intros (a & s1 & Hg & Ha)%bind_ok_inv. unfold gets in Hg. simplify_eq.
  apply assert_ok_inv in Ha as [_ ->]. apply quiet_refl.
Qed.

Lemma bind_quiet {A} (m : RM A) (f : A → RM unit) s s' :
  (∀ a s1, m s = (Ok a, s1) → quiet s s1) →
  (∀ a s1, f a s1 = (Ok tt, s') → quiet s1 s') →
  (m ≫= f) s = (Ok tt, s') → quiet s s'.
Proof. intros Hm Hf (a & s1 & H1 & H2)%bind_ok_inv. eauto using quiet_trans. Qed.

Lemma local_effect_quiet node e s s' :
  is_schedule e = false → (local node;; must_effect e) s = (Ok tt, s') → quiet s s'.
Proof.
  intros He. apply bind_quiet; [intros [] s1; apply local_quiet|].
  intros _ s1. by apply must_effect_quiet.
Qed.

Lemma resume_host_quiet node c s s' : resume_host node c s = (Ok tt, s') → quiet s s'.
Proof.
  apply bind_quiet; [intros [] s1; apply local_quiet|]. intros _ s1.
  apply bind_quiet; [intros a s2 [_ ->]%lift_ok_inv; apply quiet_refl|].
  intros v s2. by apply must_effect_quiet.
Qed.

(** A loop that schedules threads moves exactly them. *)
Lemma schedule_all_ok (l : list TCB) (n : option nat) s s' :
  for_each (λ t, schedule t n) l s = (Ok tt, s') →
  ∃ k', s' = with_platform s k' ∧
    ∀ t, runs_on (E:=E) k' t = if decide (t ∈ l) then n else runs_on (E:=E) (platform s) t.
Proof.
  revert s. induction l as [|x l IH]; intros s; simpl.
  - intros [= <-]. exists (platform s). by rewrite with_platform_id.
  - intros ([] & s1 & (k1 & Hk1 & ->)%try_effect_ok & (k' & -> & Hk')%IH)%bind_ok_inv.
    exists k'. split; [done|]. intros t. rewrite Hk'; simpl.
    rewrite (effect_runs_on _ _ _ t Hk1). repeat case_decide; set_solver.
Qed.

(** ** The tables *)

Lemma node_at_with_platform s k r v : node_at (with_platform s k) r v = node_at s r v.
Proof. done. Qed.

Lemma node_at_with_physical s l r v : node_at (with_physical_nodes s l) r v = node_at s r v.
Proof. done. Qed.

Lemma set_virtual_ok r v y s s' :
  set_virtual (E:=E) r v y s = (Ok tt, s') →
  platform s' = platform s ∧ realizer s' = realizer s ∧ physical_nodes s' = physical_nodes s ∧
  partial_specs s' = partial_specs s ∧ partial_realms s' = partial_realms s ∧
  (∀ r', realms s' !! r' = None ↔ realms s !! r' = None) ∧
  (∀ r' realm', realms s' !! r' = Some realm' → ∃ realm, realms s !! r' = Some realm ∧
    subsystem realm' = subsystem realm ∧ tcbs <$> virtual_nodes realm' = tcbs <$> virtual_nodes realm) ∧
  (∀ r' v', node_at s' r' v' =
    if decide (r' = r ∧ v' = v) then (λ vn, {| tcbs := tcbs vn; physical_node := y |}) <$> node_at s r v
    else node_at s r' v').
Proof.
  intros [= <-]. simpl. repeat split; try done.
  - rewrite lookup_alter_None. done.
  - rewrite lookup_alter_None. done.
  - intros r' realm'. destruct (decide (r' = r)) as [->|].
    + rewrite lookup_alter_eq. intros (realm & -> & ->)%fmap_Some_1. exists realm.
      split; [done|]. split; [done|]. simpl. apply list_eq. intros i. rewrite !list_lookup_fmap.
      destruct (decide (i = v)) as [->|];
        [rewrite list_lookup_alter_eq|by rewrite list_lookup_alter_ne].
      by destruct (virtual_nodes realm !! v).
    + rewrite lookup_alter_ne by done. eauto.
  - intros r' v'. unfold node_at; simpl. case_decide as Hd.
    + destruct Hd as [-> ->]. rewrite lookup_alter_eq.
      destruct (realms s !! r) as [realm|]; simpl; [|done]. apply list_lookup_alter_eq.
    + destruct (decide (r' = r)) as [->|]; [|by rewrite lookup_alter_ne].
      rewrite lookup_alter_eq. destruct (realms s !! r) as [realm|]; simpl; [|done].
      apply list_lookup_alter_ne. naive_solver.
Qed.

(** ** Moving a virtual node *)

(** [moved s s' p r v x y]: core [p] gets [x], virtual node [(r,v)] gets [y], and its
    threads go to [y]. *)
Record moved s s' (p : nat) (r : RealmId) (v : nat) (vn : VirtualNode)
    (x : option (RealmId * nat)) (y : option nat) : Prop := {
  moved_node : node_at s r v = Some vn;
  moved_core : is_Some (physical_nodes s !! p);
  moved_physical : physical_nodes s' = <[p := x]> (physical_nodes s);
  moved_realizer : realizer s' = realizer s;
  moved_specs : partial_specs s' = partial_specs s;
  moved_partial : partial_realms s' = partial_realms s;
  moved_none r' : realms s' !! r' = None ↔ realms s !! r' = None;
  moved_realms r' realm' : realms s' !! r' = Some realm' → ∃ realm, realms s !! r' = Some realm ∧
    subsystem realm' = subsystem realm ∧ tcbs <$> virtual_nodes realm' = tcbs <$> virtual_nodes realm;
  moved_nodes r' v' : node_at s' r' v' =
    if decide (r' = r ∧ v' = v) then Some {| tcbs := tcbs vn; physical_node := y |}
    else node_at s r' v';
  moved_threads t : runs_on (E:=E) (platform s') t =
    if decide (t ∈ tcbs vn) then y else runs_on (E:=E) (platform s) t;
}.

(** A node of the new state is the moved one or one of the old state. *)
Lemma moved_node_inv s s' p r v vn x y r' v' vn' :
  moved s s' p r v vn x y → node_at s' r' v' = Some vn' →
  (r' = r ∧ v' = v ∧ vn' = {| tcbs := tcbs vn; physical_node := y |}) ∨
  ((r' ≠ r ∨ v' ≠ v) ∧ node_at s r' v' = Some vn').
Proof.
  intros Hm. rewrite (moved_nodes _ _ _ _ _ _ _ _ Hm). case_decide as Hd; [naive_solver|].
  right. split; [|done]. destruct (decide (r' = r)); [right|left]; naive_solver.
Qed.

(** Whatever moves, the threads end where the tables say. *)
Lemma moved_keeps s s' p r v vn x y :
  moved s s' p r v vn x y → placement_inv s →
  (∀ p' r' v', physical_nodes s' !! p' = Some (Some (r', v')) ↔
    ∃ vn', node_at s' r' v' = Some vn' ∧ physical_node vn' = Some p') →
  placement_inv s'.
Proof.
  intros Hm [H1 H2 H3 H4 H5 H6 H7] Htab. pose proof (moved_node _ _ _ _ _ _ _ _ Hm) as Hvn.
  assert (Hold : ∀ r' v' vn', node_at s' r' v' = Some vn' →
    ∃ vn0, node_at s r' v' = Some vn0 ∧ tcbs vn0 = tcbs vn').
  { intros r' v' vn' [(-> & -> & ->)|[_ ?]]%(moved_node_inv _ _ _ _ _ _ _ _ _ _ _ Hm); eauto. }
  split.
  - exact Htab.
  - intros r' v' vn' t Hn Ht. rewrite (moved_threads _ _ _ _ _ _ _ _ Hm).
    destruct (moved_node_inv _ _ _ _ _ _ _ _ _ _ _ Hm Hn) as [(-> & -> & ->)|[Hne Hn']].
    + by rewrite decide_True.
    + rewrite decide_False; [by apply (H2 r' v')|]. intros Ht'.
      destruct (H3 r' v' vn' r v vn t) as [-> ->]; [done..|]. tauto.
  - intros r1 v1 vn1 r2 v2 vn2 t (vn1' & Hn1 & He1)%Hold (vn2' & Hn2 & He2)%Hold.
    rewrite <-He1, <-He2. by apply H3.
  - intros r' realm' (realm & Hr & -> & ->)%(moved_realms _ _ _ _ _ _ _ _ Hm). by apply (H4 r').
  - unfold owned. rewrite (moved_realizer _ _ _ _ _ _ _ _ Hm), (moved_partial _ _ _ _ _ _ _ _ Hm).
    replace (subsystem <$> realms s') with (subsystem <$> realms s); [done|].
    apply map_eq. intros r'. rewrite !lookup_fmap. destruct (realms s' !! r') as [realm'|] eqn:Hr'.
    + apply (moved_realms _ _ _ _ _ _ _ _ Hm) in Hr' as (realm & -> & Hsub & _). simpl. by rewrite Hsub.
    + by rewrite (proj1 (moved_none _ _ _ _ _ _ _ _ Hm r') Hr').
  - intros r'. rewrite (moved_specs _ _ _ _ _ _ _ _ Hm), (moved_partial _ _ _ _ _ _ _ _ Hm).
    rewrite (moved_none _ _ _ _ _ _ _ _ Hm). apply H6.
  - intros r'. rewrite (moved_partial _ _ _ _ _ _ _ _ Hm), (moved_none _ _ _ _ _ _ _ _ Hm). apply H7.
Qed.

Lemma moved_lookup s s' p r v vn x y p' :
  moved s s' p r v vn x y → physical_nodes s' !! p' = if decide (p' = p) then Some x else physical_nodes s !! p'.
Proof.
  intros Hm. rewrite (moved_physical _ _ _ _ _ _ _ _ Hm).
  destruct (moved_core _ _ _ _ _ _ _ _ Hm) as [c Hc]. case_decide as Hd; [subst p'|].
  - rewrite list_lookup_insert_eq; [done|]. by apply lookup_lt_Some in Hc.
  - by rewrite list_lookup_insert_ne by congruence.
Qed.

(** Placing an idle node on an idle core keeps the invariant. *)
Lemma placed_inv s s' p r v vn :
  moved s s' p r v vn (Some (r, v)) (Some p) → physical_nodes s !! p = Some None →
  physical_node vn = None → placement_inv s → placement_inv s'.
Proof.
  intros Hm Hidle Hnone Hinv. apply (moved_keeps _ _ _ _ _ _ _ _ Hm Hinv).
  pose proof (moved_node _ _ _ _ _ _ _ _ Hm) as Hvn.
  intros p' r' v'. rewrite (moved_lookup _ _ _ _ _ _ _ _ p' Hm), (moved_nodes _ _ _ _ _ _ _ _ Hm).
  pose proof (inv_tables s Hinv p' r' v') as Ht. repeat case_decide; naive_solver congruence.
Qed.

(** Taking a node off its core keeps the invariant. *)
Lemma removed_inv s s' p r v vn :
  moved s s' p r v vn None None → physical_nodes s !! p = Some (Some (r, v)) →
  placement_inv s → placement_inv s'.
Proof.
  intros Hm Hcur Hinv. apply (moved_keeps _ _ _ _ _ _ _ _ Hm Hinv).
  pose proof (moved_node _ _ _ _ _ _ _ _ Hm) as Hvn.
  destruct (proj1 (inv_tables s Hinv p r v) Hcur) as (vn0 & Hvn0 & Hp).
  intros p' r' v'. rewrite (moved_lookup _ _ _ _ _ _ _ _ p' Hm), (moved_nodes _ _ _ _ _ _ _ _ Hm).
  pose proof (inv_tables s Hinv p' r' v') as Ht. repeat case_decide; naive_solver congruence.
Qed.

(** ** The messages *)

Lemma get_virtual_ok_inv r v s vn s' :
  get_virtual (E:=E) r v s = (Ok vn, s') → node_at s r v = Some vn ∧ s' = s.
Proof.
  intros [Hf ->]%reads_ok_inv. split; [|done]. unfold node_at. unfold unwrap, index in Hf.
  destruct (realms s !! r) as [realm|]; simpl in *; [|done]. by apply unwrap_ok_inv in Hf.
Qed.
Ltac rs_inv :=
  repeat match goal with
  | H : get_virtual _ _ _ = (Ok _, _) |- _ => apply get_virtual_ok_inv in H as [H ->]
  | H : get_physical _ _ = (Ok _, _) |- _ => apply reads_ok_inv in H as [H ->]
  | H : set_physical _ _ _ = (Ok _, _) |- _ => apply modify_ok_inv in H as ->
  | _ => ok_inv_step
  end.

(** Writing the two tables and scheduling the threads is a move. *)
Lemma tables_moved p r v vn x y s s1 s2 :
  is_Some (physical_nodes s !! p) → node_at s r v = Some vn →
  set_virtual (E:=E) r v y (with_physical_nodes s (<[p := x]> (physical_nodes s))) = (Ok tt, s1) →
  for_each (λ t, schedule t y) (tcbs vn) s1 = (Ok tt, s2) →
  moved s s2 p r v vn x y.
Proof.
  intros Hp Hn (E1 & E2 & E3 & E4 & E5 & E6 & E7 & E8)%set_virtual_ok (k' & -> & Hk)%schedule_all_ok.
  split; simpl; try done.
  - intros r' v'. rewrite node_at_with_platform, E8, !node_at_with_physical. by rewrite Hn.
  - intros t. by rewrite Hk, E1.
Qed.

Lemma yield_to_moved p r v t s s' :
  yield_to p r v t s = (Ok tt, s') →
  ∃ s1 s2 vn, quiet s s1 ∧ physical_nodes s1 !! p = Some None ∧ physical_node vn = None ∧
    moved s1 s2 p r v vn (Some (r, v)) (Some p) ∧ quiet s2 s'.
Proof.
  unfold yield_to. intros H. rs_inv. simplify_eq.
  repeat match goal with H : local _ _ = _ |- _ => apply local_quiet in H
    | H : try_effect (SaveCaller _) _ = _ |- _ => apply try_effect_quiet in H; [|done]
    | H : set_notify_host_event _ _ = _ |- _ => apply local_effect_quiet in H; [|done] end.
  match goal with Hl : quiet s ?a, Hs : quiet ?a ?b, Hv : set_virtual _ _ _ _ = (_, ?c), Hf : for_each _ _ _ = (_, ?d) |- _ =>
    exists b, d; pose proof (quiet_trans _ _ _ Hl Hs) end.
  eexists. split; [done|]. split; [done|]. split; [done|]. split.
  - eapply tables_moved; [by eexists|done|done|done].
  - eapply quiet_trans; [done|]. destruct t as [ns|].
    + by eapply (local_effect_quiet p (OneshotRelative p 0 ns)).
    + rs_inv. apply quiet_refl.
Qed.

Lemma yield_to_inv p r v t s s' : yield_to p r v t s = (Ok tt, s') → placement_inv s → placement_inv s'.
Proof.
  intros (s1 & s2 & vn & Hq1 & Hc & Hn & Hm & Hq2)%yield_to_moved Hinv.
  apply (placement_inv_quiet s2); [done|]. eapply placed_inv; [done..|].
  by apply (placement_inv_quiet s).
Qed.

(** What a preemption does, when its last part changes no table. *)
Lemma preempt_moved p finish s s' :
  (∀ a b, finish a = (Ok tt, b) → quiet a b) → preempt p finish s = (Ok tt, s') →
  (physical_nodes s !! p = Some None ∧ s' = s) ∨
  ∃ r v vn s2, physical_nodes s !! p = Some (Some (r, v)) ∧ moved s s2 p r v vn None None ∧ quiet s2 s'.
Proof.
  unfold preempt. intros Hfin H. rs_inv.
  match goal with H : physical_nodes _ !! _ = Some ?c |- _ => destruct c as [[r v]|] end; rs_inv.
  - right. exists r, v. do 2 eexists. split; [done|]. split; [|by apply Hfin].
    eapply tables_moved; [by eexists|done|done|done].
  - left. split; [done|]. destruct s; unfold with_physical_nodes; simpl in *.
    by rewrite list_insert_id.
Qed.

Lemma host_event_finish_quiet p a b :
  (cancel_notify_host_event p;; cancel_timeout p;; resume_host p ResumeHostEvent) a = (Ok tt, b) → quiet a b.
Proof.
  apply bind_quiet; [intros [] s1; by apply local_effect_quiet|]. intros _ s1.
  apply bind_quiet; [intros [] s2; by apply local_effect_quiet|]. intros _ s2. apply resume_host_quiet.
Qed.
Lemma timeout_finish_quiet p a b :
  (cancel_notify_host_event p;; resume_host p ResumeTimeout) a = (Ok tt, b) → quiet a b.
Proof.
  apply bind_quiet; [intros [] s1; by apply local_effect_quiet|]. intros _ s1. apply resume_host_quiet.
Qed.

Lemma preempt_inv p finish s s' :
  (∀ a b, finish a = (Ok tt, b) → quiet a b) → preempt p finish s = (Ok tt, s') →
  placement_inv s → placement_inv s'.
Proof.
  intros Hfin [[_ ->]|(r & v & vn & s2 & Hc & Hm & Hq)]%(preempt_moved _ _ _ _ Hfin) Hinv; [done|].
  apply (placement_inv_quiet s2); [done|]. by eapply removed_inv.
Qed.

(** *** Building and destroying realms *)

(** Only the partial tables change. *)
Lemma partial_inv s s' :
  platform s' = platform s → realizer_ok (realizer s') (owned s') → realms s' = realms s →
  physical_nodes s' = physical_nodes s →
  (∀ r, is_Some (partial_specs s' !! r) → partial_realms s' !! r = None ∧ realms s !! r = None) →
  (∀ r, is_Some (partial_realms s' !! r) → realms s !! r = None) →
  placement_inv s → placement_inv s'.
Proof.
  intros E1 E2 E3 E4 H6' H7' [H1 H2 H3 H4 H5 H6 H7].
  split; unfold node_at in *; rewrite ?E1, ?E3, ?E4; done.
Qed.

Lemma declare_inv r n s s' :
  declare (E:=E) r n s = (Ok tt, s') → partial_realms s !! r = None → placement_inv s → placement_inv s'.
Proof.
  unfold declare. intros H Hp Hinv. rs_inv. simpl.
  eapply (partial_inv s); try done; simpl.
  - apply (inv_owned s Hinv).
  - intros r'. destruct (decide (r' = r)) as [->|]; [done|].
    rewrite lookup_insert_ne by done. apply (inv_specs s Hinv).
  - apply (inv_partial s Hinv).
Qed.

Lemma incorporate_spec_chunk_inv r o c s s' :
  incorporate_spec_chunk (E:=E) r o c s = (Ok tt, s') → placement_inv s → placement_inv s'.
Proof.
  unfold incorporate_spec_chunk. intros H Hinv. rs_inv. simpl.
  eapply (partial_inv s); try done; simpl.
  - apply (inv_owned s Hinv).
  - intros r'. destruct (decide (r' = r)) as [->|].
    + intros _. apply (inv_specs s Hinv). by eexists.
    + rewrite lookup_insert_ne by done. apply (inv_specs s Hinv).
  - apply (inv_partial s Hinv).
Qed.

Lemma on_realizer_ok_inv {A} (m : M R E A) s a s' :
  on_realizer m s = (Ok a, s') → ∃ x, m (realizer s) = (Ok a, x) ∧ s' = with_realizer s x.
Proof. unfold on_realizer. destruct (m (realizer s)) as [o x]. naive_solver. Qed.

Lemma realize_start_inv r s s' :
  realize_start r s = (Ok tt, s') → placement_inv s → placement_inv s'.
Proof.
  unfold realize_start. intros H Hinv. rs_inv.
  match goal with H : on_realizer _ _ = _ |- _ => apply on_realizer_ok_inv in H as (x' & Hx & ->) end. simpl in *.
  destruct (inv_specs s Hinv r) as [Hp Hr]; [by eexists|].
  eapply (partial_inv s); try done; simpl.
  - eapply realizer_ok_perm; [symmetry; by apply owned_insert_partial|]. eapply start_ok; [|done].
    apply (inv_owned s Hinv).
  - intros r'. destruct (decide (r' = r)) as [->|]; [rewrite lookup_delete_eq; by intros []|].
    rewrite lookup_delete_ne, lookup_insert_ne by done. apply (inv_specs s Hinv).
  - intros r'. destruct (decide (r' = r)) as [->|]; [done|].
    rewrite lookup_insert_ne by done. apply (inv_partial s Hinv).
Qed.

Lemma realize_continue_inv r i j c s s' :
  realize_continue r i j c s = (Ok tt, s') → placement_inv s → placement_inv s'.
Proof.
  unfold realize_continue. intros H Hinv. rs_inv.
  match goal with H : on_realizer _ _ = _ |- _ => apply on_realizer_ok_inv in H as (x' & Hx & ->) end. simpl in *.
  eapply (partial_inv s); try done; simpl.
  - match goal with Hp : partial_realms s !! r = Some _ |- _ => pose proof (owned_partial _ (subsystem <$> realms s) _ _ Hp) as Hperm end.
    eapply realizer_ok_perm; [symmetry; rewrite <-insert_delete_eq; apply owned_insert_partial, lookup_delete_eq|].
    eapply continue_ok; [|done]. eapply realizer_ok_perm; [apply Hperm|apply (inv_owned s Hinv)].
  - intros r' Hr'. destruct (inv_specs s Hinv r' Hr') as [Hp Hr]. split; [|done].
    destruct (decide (r' = r)) as [->|]; [congruence|]. by rewrite lookup_insert_ne.
  - intros r'. destruct (decide (r' = r)) as [->|]; [intros _; apply (inv_partial s Hinv); by eexists|].
    rewrite lookup_insert_ne by done. apply (inv_partial s Hinv).
Qed.

Lemma fill_chunks_inv fuel r content s s' :
  fill_chunks fuel r content s = (Ok tt, s') → placement_inv s → placement_inv s'.
Proof.
  revert content s. induction fuel as [|fuel IH]; intros [|b content] s H Hinv; cbn [fill_chunks] in H;
    rs_inv; try done. eauto using realize_continue_inv.
Qed.

(** [parked l s s']: only threads of [l] have moved, and none of them runs. *)
Definition parked (l : list TCB) s s' : Prop :=
  ∃ k', s' = with_platform s k' ∧
    ∀ t, runs_on (E:=E) k' t = if decide (t ∈ l) then None else runs_on (E:=E) (platform s) t.

Lemma parked_nil s : parked [] s s.
Proof. exists (platform s). rewrite with_platform_id. split; [done|]. intros t. by rewrite decide_False by set_solver. Qed.
Lemma parked_app l1 l2 s1 s2 s3 : parked l1 s1 s2 → parked l2 s2 s3 → parked (l1 ++ l2) s1 s3.
Proof.
  intros (k2 & -> & H2) (k3 & -> & H3). exists k3. split; [done|]. intros t.
  rewrite H3; simpl. rewrite H2. repeat case_decide; set_solver.
Qed.

Lemma start_tcb_parked p s s' : start_tcb p s = (Ok tt, s') → parked [p.1] s s'.
Proof.
  unfold start_tcb. intros H. rs_inv.
  match goal with H : schedule _ _ _ = _ |- _ => apply try_effect_ok in H as (k1 & Hk & ->) end.
  assert (Hp : ∀ t, runs_on (E:=E) k1 t = if decide (t ∈ [p.1]) then None else runs_on (E:=E) (platform s) t).
  { intros t. rewrite (effect_runs_on _ _ _ t Hk). repeat case_decide; set_solver. }
  destruct p as [t []]; simpl in *; [|rs_inv; by exists k1].
  match goal with H : try_effect _ _ = _ |- _ => apply try_effect_quiet in H as (k2 & -> & H2); [|done] end.
  exists k2. split; [done|]. intros t'. by rewrite H2, <-Hp.
Qed.

(** A loop of such steps. *)
Lemma for_each_parked {B} (f : B → RM unit) (g : B → list TCB) (l : list B) s s' :
  (∀ b a c, f b a = (Ok tt, c) → parked (g b) a c) →
  for_each f l s = (Ok tt, s') → parked (concat (g <$> l)) s s'.
Proof.
  intros Hf. revert s. induction l as [|b l IH]; intros s H; simpl in *; rs_inv; [apply parked_nil|].
  eauto using parked_app.
Qed.

Lemma concat_singletons (core : list (TCB * bool)) : concat ((λ p, [p.1]) <$> core) = core.*1.
Proof. induction core as [|p core IH]; [done|]. rewrite !fmap_cons. simpl. f_equal. apply IH. Qed.

Lemma start_cores_parked cores s s' :
  for_each (for_each start_tcb) cores s = (Ok tt, s') → parked (threads_of cores) s s'.
Proof.
  apply (for_each_parked _ (λ core, core.*1)). intros core a c H. cbv beta. rewrite <-concat_singletons.
  by apply (for_each_parked start_tcb); [apply start_tcb_parked|].
Qed.

Lemma elem_of_threads_of t cores :
  t ∈ threads_of cores ↔ ∃ v core, cores !! v = Some core ∧ t ∈ core.*1.
Proof.
  unfold threads_of. rewrite list_elem_of_In, in_concat. split.
  - intros (ts & Hts & Ht). apply list_elem_of_In, list_elem_of_fmap in Hts as (core & -> & [v Hv]%list_elem_of_lookup).
    exists v, core. split; [done|]. by apply list_elem_of_In.
  - intros (v & core & Hv & Ht). exists core.*1. rewrite <-!list_elem_of_In. split; [|done].
    apply list_elem_of_fmap. exists core. split; [done|]. by apply (list_elem_of_lookup_2 _ v).
Qed.

Lemma threads_of_inj t cores v v' core core' :
  NoDup (threads_of cores) → cores !! v = Some core → cores !! v' = Some core' →
  t ∈ core.*1 → t ∈ core'.*1 → v = v'.
Proof.
  unfold threads_of. revert v v'. induction cores as [|c cores IH]; intros v v' Hnd Hv Hv' Ht Ht'; [done|].
  simpl in Hnd. apply NoDup_app in Hnd as (_ & Hd & Hnd).
  assert (∀ i co, cores !! i = Some co → t ∈ co.*1 → t ∈ threads_of cores) as Hin.
  { intros i co Hi Hco. apply elem_of_threads_of. eauto. }
  destruct v as [|v], v' as [|v']; simpl in *; simplify_eq; [done| | |].
  - destruct (Hd t Ht). by apply (Hin v' core').
  - destruct (Hd t Ht'). by apply (Hin v core).
  - f_equal. by apply IH.
Qed.

(** The realm [realize_finish] adds. *)
Definition new_realm (sub : S) : Realm S :=
  {| virtual_nodes := (λ core, {| tcbs := core.*1; physical_node := None |}) <$> virtual_cores sub;
     subsystem := sub |}.

Lemma node_at_insert s s' r realm r' v :
  realms s' = <[r := realm]> (realms s) →
  node_at s' r' v = if decide (r' = r) then virtual_nodes realm !! v else node_at s r' v.
Proof.
  intros Hr. unfold node_at. rewrite Hr. case_decide; [subst; by rewrite lookup_insert_eq|].
  by rewrite lookup_insert_ne.
Qed.

Lemma new_realm_node sub v vn :
  virtual_nodes (new_realm sub) !! v = Some vn →
  ∃ core, virtual_cores sub !! v = Some core ∧ vn = {| tcbs := core.*1; physical_node := None |}.
Proof. simpl. rewrite list_lookup_fmap. intros (core & -> & ->)%fmap_Some_1. eauto. Qed.

(** The threads of a new realm are those of no other. *)
Lemma owned_threads_fresh s s' r sub r' v vn t :
  realms s !! r = None → realizer_ok (realizer s') (owned s') →
  realms s' = <[r := new_realm sub]> (realms s) → placement_inv s →
  node_at s r' v = Some vn → t ∈ tcbs vn → t ∉ threads_of (virtual_cores sub).
Proof.
  intros Hr Hok Hrs Hinv Hn Ht. unfold node_at in Hn. destruct (realms s !! r') as [realm|] eqn:Hr'; [|done].
  assert (t ∈ threads_of (virtual_cores (subsystem realm))) as Hin.
  { unfold threads_of. rewrite <-(inv_subsystem s Hinv r' realm Hr'). apply list_elem_of_In, in_concat. exists (tcbs vn).
    split; [|by apply list_elem_of_In]. apply list_elem_of_In, list_elem_of_fmap. exists vn. split; [done|]. by eapply list_elem_of_lookup_2. }
  assert (owned s' ≡ₚ own_subsystem sub :: own_subsystem (subsystem realm) ::
    owned_by (partial_realms s') (delete r' (subsystem <$> realms s))) as Hp.
  { unfold owned. rewrite Hrs, fmap_insert, owned_insert_realm by (by rewrite lookup_fmap, Hr).
    by rewrite (owned_realm _ (subsystem <$> realms s) r' (subsystem realm)) by (by rewrite lookup_fmap, Hr'). }
  eapply realizer_ok_perm in Hok; [|exact Hp]. apply realizer_ok_disjoint in Hok. rewrite !own_subsystem_threads in Hok. set_solver.
Qed.

Lemma add_realm_inv s s' r sub :
  realms s !! r = None →
  NoDup (threads_of (virtual_cores sub)) →
  realizer_ok (realizer s') (owned s') →
  (∀ t, runs_on (E:=E) (platform s') t =
    if decide (t ∈ threads_of (virtual_cores sub)) then None else runs_on (E:=E) (platform s) t) →
  realms s' = <[r := new_realm sub]> (realms s) → physical_nodes s' = physical_nodes s →
  partial_specs s' = partial_specs s → partial_realms s' = delete r (partial_realms s) →
  partial_specs s !! r = None → placement_inv s → placement_inv s'.
Proof.
  intros Hr Hnd Hal Hrun Hrs Hph Hsp Hpr Hps Hinv. pose proof Hinv as [H1 H2 H3 H4 H5 H6 H7].
  assert (Hin : ∀ v core t, virtual_cores sub !! v = Some core → t ∈ core.*1 →
    t ∈ threads_of (virtual_cores sub)) by (intros; apply elem_of_threads_of; eauto).
  assert (Hno : ∀ v, node_at s r v = None) by (intros v; unfold node_at; by rewrite Hr).
  assert (Hold : ∀ r' v vn t, node_at s r' v = Some vn → t ∈ tcbs vn → t ∉ threads_of (virtual_cores sub))
    by (intros; by eapply (owned_threads_fresh s s' r sub)).
  assert (Hnode : ∀ r' v vn, node_at s' r' v = Some vn →
    (r' = r ∧ ∃ core, virtual_cores sub !! v = Some core ∧ vn = {| tcbs := core.*1; physical_node := None |}) ∨
    (r' ≠ r ∧ node_at s r' v = Some vn)).
  { intros r' v vn. rewrite (node_at_insert s s' r _ r' v Hrs). case_decide; [|by right].
    intros ?%new_realm_node. by left. }
  split.
  - intros p r' v. rewrite Hph, H1. rewrite (node_at_insert s s' r _ r' v Hrs). case_decide; [subst r'|done].
    split; [intros (vn & Hn & _); by rewrite Hno in Hn|].
    intros (vn & (core & _ & ->)%new_realm_node & [=]).
  - intros r' v vn t [(-> & core & Hc & ->)|[Hne Hn]]%Hnode Ht; simpl in *; rewrite Hrun.
    + rewrite decide_True by eauto. done.
    + rewrite decide_False by eauto. by apply (H2 r' v).
  - intros r1 v1 vn1 r2 v2 vn2 t [(-> & c1 & Hc1 & ->)|[Hn1 Hd1]]%Hnode
      [(-> & c2 & Hc2 & ->)|[Hn2 Hd2]]%Hnode Ht1 Ht2; simpl in *.
    + split; [done|]. by eapply threads_of_inj.
    + destruct (Hold _ _ _ t Hd2 Ht2). by eapply Hin.
    + destruct (Hold _ _ _ t Hd1 Ht1). by eapply Hin.
    + by apply (H3 r1 v1 vn1 r2 v2 vn2 t).
  - intros r' realm. rewrite Hrs. destruct (decide (r' = r)) as [->|].
    + rewrite lookup_insert_eq. intros [= <-]. simpl. by rewrite <-list_fmap_compose.
    + rewrite lookup_insert_ne by done. apply H4.
  - done.
  - intros r'. rewrite Hsp, Hpr, Hrs. intros Hs. assert (r' ≠ r) by (intros ->; rewrite Hps in Hs; by destruct Hs).
    rewrite lookup_delete_ne, lookup_insert_ne by done. by apply H6.
  - intros r'. rewrite Hpr, Hrs. destruct (decide (r' = r)) as [->|]; [rewrite lookup_delete_eq; by intros []|].
    rewrite lookup_delete_ne, lookup_insert_ne by done. apply H7.
Qed.

Lemma realize_finish_inv n r s s' :
  realize_finish n r s = (Ok tt, s') → placement_inv s → placement_inv s'.
Proof.
  unfold realize_finish. intros H Hinv. rs_inv.
  repeat match goal with
  | H : on_realizer _ _ = _ |- _ => apply on_realizer_ok_inv in H as (x' & Hx & ->)
  | H : for_each _ _ _ = _ |- _ => apply start_cores_parked in H as (k' & -> & Hk)
  | H : local _ _ = _ |- _ => apply local_quiet in H
  | H : must_effect _ _ = _ |- _ => apply must_effect_quiet in H; [|done]
  end.
  match goal with Hp : partial_realms s !! r = _, H1 : quiet _ ?a, H2 : quiet ?a s' |- _ =>
    pose proof (quiet_trans _ _ _ H1 H2) as Hq; assert (is_Some (partial_realms s !! r)) as Hpart by (by rewrite Hp) end.
  apply (placement_inv_quiet _ _ Hq). simpl in *.
  match goal with Hp : partial_realms s !! r = Some _ |- _ => pose proof (owned_partial _ (subsystem <$> realms s) _ _ Hp) as Hperm end.
  destruct (finish_ok _ _ _ _ _ (realizer_ok_perm _ _ _ Hperm (inv_owned s Hinv)) Hx) as [Hnd Hok].
  pose proof (inv_partial s Hinv r Hpart) as Hnone.
  eapply (add_realm_inv s); try done.
  { eapply realizer_ok_perm; [|exact Hok]. unfold owned. simpl. rewrite fmap_insert. symmetry.
    apply owned_insert_realm. by rewrite lookup_fmap, Hnone. }
  destruct (partial_specs s !! r) eqn:Hs; [|done].
  destruct (inv_specs s Hinv r) as [Hn _]; [by rewrite Hs|]. rewrite Hn in Hpart. by destruct Hpart.
Qed.

(** The loop of [destroy]. *)
Lemma destroy_loop_ok (nodes l : list VirtualNode) s s' :
  for_each (λ vn : VirtualNode,
    assert_ (match physical_node vn with None => true | Some _ => false end);;
    for_each (λ vn' : VirtualNode, for_each (λ t, schedule t None) (tcbs vn')) nodes) l s = (Ok tt, s') →
  Forall (λ vn, physical_node vn = None) l ∧ ∃ k', s' = with_platform s k' ∧
    ∀ t, t ∉ concat (tcbs <$> nodes) → runs_on (E:=E) k' t = runs_on (E:=E) (platform s) t.
Proof.
  revert s. induction l as [|vn l IH]; intros s H; simpl in H; rs_inv.
  - split; [done|]. exists (platform s). by rewrite with_platform_id.
  - match goal with H : for_each _ l _ = _ |- _ => apply IH in H as (Hall & k' & -> & Hk') end.
    match goal with H : for_each _ nodes _ = _ |- _ =>
      apply (for_each_parked _ tcbs) in H as (k1 & -> & Hk1) end.
    + split; [by constructor|]. exists k'. split; [done|]. intros t Ht.
      rewrite Hk' by done. simpl. by rewrite Hk1, decide_False.
    + intros b a c Hb. by apply schedule_all_ok in Hb.
Qed.

Lemma remove_realm_inv s s' r realm :
  realms s !! r = Some realm → Forall (λ vn, physical_node vn = None) (virtual_nodes realm) →
  realizer_ok (realizer s') (owned s') →
  (∀ t, t ∉ concat (tcbs <$> virtual_nodes realm) →
    runs_on (E:=E) (platform s') t = runs_on (E:=E) (platform s) t) →
  realms s' = delete r (realms s) → physical_nodes s' = physical_nodes s →
  partial_specs s' = partial_specs s → partial_realms s' = partial_realms s →
  placement_inv s → placement_inv s'.
Proof.
  intros Hr Hall Hal Hrun Hrs Hph Hsp Hpr [H1 H2 H3 H4 H5 H6 H7].
  assert (Hnode : ∀ r' v, node_at s' r' v = if decide (r' = r) then None else node_at s r' v).
  { intros r' v. unfold node_at. rewrite Hrs. case_decide; [subst; by rewrite lookup_delete_eq|].
    by rewrite lookup_delete_ne. }
  assert (Hother : ∀ r' v vn t, r' ≠ r → node_at s r' v = Some vn → t ∈ tcbs vn →
    t ∉ concat (tcbs <$> virtual_nodes realm)).
  { intros r' v vn t Hne Hn Ht Hin. apply list_elem_of_In, in_concat in Hin as (ts & Hts & Hin).
    apply list_elem_of_In, list_elem_of_fmap in Hts as (vn' & -> & [v' Hv']%list_elem_of_lookup).
    apply list_elem_of_In in Hin. destruct (H3 r' v vn r v' vn' t) as [-> _]; try done.
    unfold node_at. by rewrite Hr. }
  split.
  - intros p r' v. rewrite Hph, H1, Hnode. case_decide; [subst r'|done]. split; [|naive_solver].
    intros (vn & Hn & Hp). unfold node_at in Hn. rewrite Hr in Hn. simpl in Hn.
    rewrite Forall_lookup in Hall. specialize (Hall v vn Hn). simpl in Hall. congruence.
  - intros r' v vn t. rewrite Hnode. case_decide; [done|]. intros Hn Ht.
    rewrite Hrun by eauto. by apply (H2 r' v).
  - intros r1 v1 vn1 r2 v2 vn2 t. rewrite !Hnode. repeat case_decide; try done. apply H3.
  - intros r' realm'. rewrite Hrs. intros [_ ?]%lookup_delete_Some. by apply (H4 r').
  - done.
  - intros r'. rewrite Hsp, Hpr, Hrs. intros [? ?]%H6. split; [done|]. by apply lookup_delete_None; right.
  - intros r'. rewrite Hpr, Hrs. intros ?%H7. by apply lookup_delete_None; right.
Qed.

Lemma destroy_inv n r s s' : destroy n r s = (Ok tt, s') → placement_inv s → placement_inv s'.
Proof.
  unfold destroy. intros H Hinv. rs_inv. destruct (realms s !! r) as [realm|] eqn:Hr; rs_inv; [|done].
  repeat match goal with
  | H : on_realizer _ _ = _ |- _ => apply on_realizer_ok_inv in H as (x' & Hx & ->)
  | H : for_each _ _ _ = _ |- _ => apply destroy_loop_ok in H as (Hall & k' & -> & Hk)
  | H : local _ _ = _ |- _ => apply local_quiet in H
  | H : must_effect _ _ = _ |- _ => apply must_effect_quiet in H; [|done]
  end.
  match goal with H1 : quiet _ ?a, H2 : quiet ?a s' |- _ => pose proof (quiet_trans _ _ _ H1 H2) as Hq end.
  apply (placement_inv_quiet _ _ Hq). simpl in *.
  eapply (remove_realm_inv s); try done. unfold owned. simpl. rewrite fmap_delete. eapply destroy_ok; [|done].
  eapply realizer_ok_perm; [apply (owned_realm _ _ r); by rewrite lookup_fmap, Hr|]. apply (inv_owned s Hinv).
Qed.

(** ** Runs of the server *)

(** The messages considered: a realm is not declared again while it is being built (the
    server asserts this of the two other tables only), and the benchmarking request [HackRun],
    which schedules threads behind the tables, is not used. *)
Definition admissible s (badge : Z) (parameters : list Z) : Prop :=
  badge = 0%Z →
  match recv_request parameters with
  | Some (DeclareRealm r _) => partial_realms s !! r = None
  | Some (HackRun _) => False
  | _ => True
  end.

(** A message whose handler returns without an error.  After an error or a panic the thread of the node
    is gone, and what the server does on its other nodes is not followed further. *)
Inductive rs_step s : RS → Prop :=
| rs_step_message node_index bulk badge parameters s' :
    admissible s badge parameters →
    serve_message node_index bulk badge parameters s = (Ok tt, s') → rs_step s s'.

Definition rs_reachable (r : R) (k : K) (cores nodes : nat) s : Prop :=
  realizer_ok r [] ∧ rtc rs_step (rs_new r k cores nodes) s.

Lemma handle_request_inv n bulk (req : Request) s s' :
  match req with DeclareRealm r _ => partial_realms s !! r = None | HackRun _ => False | _ => True end →
  handle_request n bulk req s = (Ok tt, s') → placement_inv s → placement_inv s'.
Proof.
  intros Had H Hinv. destruct req; [..|done]; cbn [handle_request] in H; rs_inv;
    (eapply placement_inv_quiet; [eapply (must_effect_quiet ReplyControl); done|]).
  - by eapply declare_inv.
  - by eapply incorporate_spec_chunk_inv.
  - by eapply fill_chunks_inv.
  - by eapply realize_start_inv.
  - by eapply realize_finish_inv.
  - by eapply destroy_inv.
Qed.

Lemma rs_step_inv s s' : rs_step s s' → placement_inv s → placement_inv s'.
Proof.
  intros [n bulk badge ps s2 Had H] Hinv. unfold serve_message, admissible in *.
  repeat match type of H with context [Z.eqb badge ?c] => destruct (Z.eqb_spec badge c) end; [..|done].
  - rs_inv. eapply handle_request_inv; [|done|done].
    match goal with H : recv_request _ = _ |- _ => rewrite H in Had end. by apply Had.
  - rs_inv. by eapply yield_to_inv.
  - eapply preempt_inv; [|done|done]. apply host_event_finish_quiet.
  - eapply preempt_inv; [|done|done]. apply timeout_finish_quiet.
Qed.

Lemma rs_new_inv r k cores nodes : realizer_ok r [] → placement_inv (rs_new r k cores nodes).
Proof.
  intros Hok. split; unfold node_at; simpl; try (intros *; rewrite lookup_empty; by intros []).
  - intros p r' v. rewrite lookup_empty. split; [|naive_solver].
    intros [Hx _]%lookup_replicate. done.
  - intros *. rewrite lookup_empty. done.
  - intros *. rewrite lookup_empty. done.
  - done.
Qed.

Lemma rs_reachable_inv r k cores nodes s : rs_reachable r k cores nodes s → placement_inv s.
Proof.
  intros [Hok Hs]. pose proof (rs_new_inv r k cores nodes Hok) as Hinv.
  induction Hs as [|s1 s2 s3 H12 H23 IH]; [done|]. apply IH. by eapply rs_step_inv.
Qed.

(** C4: Take a state that the resource server reaches from its start by messages that it handles without
    an error or a panic, among which there is no [HackRun] and no second declaration of a realm that
    is under construction ([admissible]; the server serves these too, and after them the statement can fail, see
    [redeclared_realm_keeps_core]).  There the table of cores and the placements
    recorded in the realms are inverse to each other, so that no two virtual nodes are on
    one core, and the kernel runs every thread of every realm exactly where the tables say:
    the threads of a virtual node on its core, and those of a node without one nowhere. *)
Theorem realm_placement r0 k0 cores nodes s :
  rs_reachable r0 k0 cores nodes s →
  (∀ p r v, physical_nodes s !! p = Some (Some (r, v)) ↔
    ∃ vn, node_at s r v = Some vn ∧ physical_node vn = Some p) ∧
  (∀ p r v vn r' v' vn', node_at s r v = Some vn → node_at s r' v' = Some vn' →
    physical_node vn = Some p → physical_node vn' = Some p → r = r' ∧ v = v') ∧
  (∀ r v vn t, node_at s r v = Some vn → t ∈ tcbs vn →
    runs_on (E:=E) (platform s) t = physical_node vn).
Proof.
  intros Hinv%rs_reachable_inv. split; [apply (inv_tables s Hinv)|]. split; [|apply (inv_threads s Hinv)].
  intros p r v vn r' v' vn' Hn Hn' Hp Hp'.
  assert (physical_nodes s !! p = Some (Some (r, v))) by (apply (inv_tables s Hinv); eauto).
  assert (physical_nodes s !! p = Some (Some (r', v'))) by (apply (inv_tables s Hinv); eauto).
  by simplify_eq.
Qed.

(** ** A turn on a core *)

(** The length of the buffer is enough fuel for the loop over chunks: more changes nothing. *)
Lemma fill_chunks_fuel f f' r content s :
  length content ≤ f → length content ≤ f' → fill_chunks f r content s = fill_chunks f' r content s.
Proof.
  revert f' content s. induction f as [|f IH]; intros [|f'] [|b content] s Hf Hf'; simpl in Hf, Hf'; try lia; try done.
  cbn [fill_chunks]. unfold mbind, M_bind, lift, unwrap.
  destruct (take_from_bytes (b :: content)) as [[h rest]|] eqn:Ht; simpl; [|done].
  apply take_from_bytes_shorter in Ht. simpl in Ht. unfold assert_. destruct (_ <=? _); simpl; [|done].
  destruct (realize_continue _ _ _ _ s) as [[[]|e|] s1]; [|done..]. apply IH; rewrite length_drop; lia.
Qed.

(** Both tables written, nothing scheduled yet. *)
Definition place s (p : nat) (r : RealmId) (v : nat) (x : option (RealmId * nat)) (y : option nat) : RS :=
  (set_virtual (E:=E) r v y (with_physical_nodes s (<[p := x]> (physical_nodes s)))).2.

Section total.
Hypothesis effects_succeed : ∀ e k, ∃ k', effect (K:=K) (E:=E) e k = (Ok tt, k').

Lemma must_effect_total e s : is_schedule e = false → ∃ s', must_effect e s = (Ok tt, s') ∧ quiet s s'.
Proof.
  intros He. destruct (effects_succeed e (platform s)) as [k' Hk]. exists (with_platform s k').
  assert (must_effect e s = (Ok tt, with_platform s k')) as Hm
    by (unfold must_effect, unwrap_result, try_effect; by rewrite Hk).
  split; [done|]. by apply (must_effect_quiet e).
Qed.

Lemma local_total node s : node < node_local s → (local node : RM unit) s = (Ok tt, s).
Proof. intros Hn. unfold local, gets, mbind, M_bind, assert_. by rewrite (proj2 (Nat.ltb_lt _ _)). Qed.

Lemma local_effect_total node e s :
  is_schedule e = false → node < node_local s →
  ∃ s', (local node;; must_effect e) s = (Ok tt, s') ∧ quiet s s'.
Proof. intros He Hn. rewrite (bind_eq_ok _ _ _ _ _ (local_total _ _ Hn)). by apply must_effect_total. Qed.

Lemma resume_host_total node c z s :
  resume_value (E:=E) c = Ok z → node < node_local s → ∃ s', resume_host node c s = (Ok tt, s') ∧ quiet s s'.
Proof.
  intros Hz Hn. unfold resume_host. rewrite (bind_eq_ok _ _ _ _ _ (local_total _ _ Hn)), Hz.
  by apply (must_effect_total (Reply node z)).
Qed.

(** A sequence of quiet steps. *)
Lemma quiet_seq (m1 m2 : RM unit) node s :
  (∀ s, node < node_local s → ∃ s', m1 s = (Ok tt, s') ∧ quiet s s') →
  (∀ s, node < node_local s → ∃ s', m2 s = (Ok tt, s') ∧ quiet s s') →
  node < node_local s → ∃ s', (m1;; m2) s = (Ok tt, s') ∧ quiet s s'.
Proof.
  intros H1 H2 Hn. destruct (H1 s Hn) as (s1 & E1 & Hq1). rewrite (bind_eq_ok _ _ _ _ _ E1).
  destruct (H2 s1) as (s2 & E2 & Hq2); [by destruct Hq1 as (? & -> & _)|]. eauto using quiet_trans.
Qed.

Lemma schedule_all_total l n s : ∃ s', for_each (λ t, schedule t n) l s = (Ok tt, s').
Proof.
  revert s. induction l as [|t l IH]; intros s; [by eexists|]. cbn [for_each].
  destruct (effects_succeed (Schedule t n) (platform s)) as [k' Hk].
  rewrite (bind_eq_ok _ _ _ tt (with_platform s k')); [apply IH|].
  unfold schedule, try_effect. by rewrite Hk.
Qed.

(** The threads of [vn] have gone to [y], the tables of [s] are those of [place]. *)
Definition placed s s' p r v vn x y : Prop :=
  ∃ k', s' = with_platform (place s p r v x y) k' ∧
    ∀ t, runs_on (E:=E) k' t = if decide (t ∈ tcbs vn) then y else runs_on (E:=E) (platform s) t.

Lemma place_total p r v vn x y (fin : RM unit) s :
  (∀ s, p < node_local s → ∃ s', fin s = (Ok tt, s') ∧ quiet s s') → p < node_local s →
  ∃ s', (set_virtual r v y;; for_each (λ t, schedule t y) (tcbs vn);; fin)
          (with_physical_nodes s (<[p := x]> (physical_nodes s))) = (Ok tt, s') ∧
    placed s s' p r v vn x y.
Proof.
  intros Hfin Hn. rewrite (bind_eq_ok _ _ _ tt (place s p r v x y)); [|done].
  destruct (schedule_all_total (tcbs vn) y (place s p r v x y)) as [s1 Hs1].
  rewrite (bind_eq_ok _ _ _ _ _ Hs1). apply schedule_all_ok in Hs1 as (k1 & -> & Hk1).
  destruct (Hfin (with_platform (place s p r v x y) k1)) as (s2 & Hs2 & k2 & -> & Hk2); [done|].
  eexists. split; [done|]. exists k2. split; [done|]. intros t. by rewrite Hk2, <-Hk1.
Qed.

Lemma get_virtual_total r v vn s : node_at s r v = Some vn → get_virtual (E:=E) r v s = (Ok vn, s).
Proof.
  unfold node_at, get_virtual, reads, index. destruct (realms s !! r) as [realm|]; simpl; [|done].
  by intros ->.
Qed.

Lemma yield_to_total p r v vn t s :
  p < node_local s → physical_nodes s !! p = Some None → node_at s r v = Some vn → physical_node vn = None →
  ∃ s', yield_to p r v t s = (Ok tt, s') ∧ placed s s' p r v vn (Some (r, v)) (Some p).
Proof.
  intros Hp Hidle Hn Hnone. unfold yield_to. rewrite (bind_eq_ok _ _ _ _ _ (local_total _ _ Hp)).
  destruct (effects_succeed (SaveCaller p) (platform s)) as [k0 Hk0].
  assert (try_effect (SaveCaller p) s = (Ok tt, with_platform s k0)) as E0 by (unfold try_effect; by rewrite Hk0).
  pose proof (λ t, effect_runs_on _ _ _ t Hk0) as Hq. simpl in Hq.
  rewrite (bind_eq_ok _ _ _ _ _ E0). set (s0 := with_platform s k0) in *.
  rewrite (bind_eq_ok _ _ _ None s0) by (unfold get_physical, reads, index; simpl; by rewrite Hidle).
  rewrite (bind_eq_ok _ _ _ tt s0) by done. rewrite (bind_eq_ok _ _ _ tt _) by done.
  erewrite (bind_eq_ok _ _ _ vn) by (by apply get_virtual_total).
  rewrite (bind_eq_ok _ _ _ tt _) by (unfold assert_; by rewrite Hnone).
  destruct (place_total p r v vn (Some (r, v)) (Some p)
    (set_notify_host_event p;; match t with Some ns => set_timeout p ns | None => mret tt end) s0)
    as (s' & -> & k' & -> & Hk'); [|done|].
  - intros s1. apply quiet_seq; [intros; by apply local_effect_total|]. intros s2 Hs2.
    destruct t; [by apply local_effect_total|]. exists s2. split; [done|apply quiet_refl].
  - eexists. split; [done|]. exists k'. split; [done|]. intros t'. by rewrite Hk', <-Hq.
Qed.

Lemma preempt_total p r v vn fin s :
  (∀ s, p < node_local s → ∃ s', fin s = (Ok tt, s') ∧ quiet s s') → p < node_local s →
  physical_nodes s !! p = Some (Some (r, v)) → node_at s r v = Some vn →
  ∃ s', preempt p fin s = (Ok tt, s') ∧ placed s s' p r v vn None None.
Proof.
  intros Hfin Hp Hc Hn. unfold preempt.
  rewrite (bind_eq_ok _ _ _ (Some (r, v)) s) by (unfold get_physical, reads, index; by rewrite Hc).
  rewrite (bind_eq_ok _ _ _ tt _) by done.
  erewrite (bind_eq_ok _ _ _ vn) by (by apply get_virtual_total). by apply place_total.
Qed.

Lemma host_event_total p r v vn s :
  p < node_local s → physical_nodes s !! p = Some (Some (r, v)) → node_at s r v = Some vn →
  ∃ s', host_event p s = (Ok tt, s') ∧ placed s s' p r v vn None None.
Proof.
  intros Hp Hc Hn. apply preempt_total; [|done..]. intros s1.
  apply quiet_seq; [intros; by apply local_effect_total|]. intros s2.
  apply quiet_seq; [intros; by apply local_effect_total|]. intros. by eapply resume_host_total.
Qed.

Lemma timeout_total p r v vn s :
  p < node_local s → physical_nodes s !! p = Some (Some (r, v)) → node_at s r v = Some vn →
  ∃ s', timeout p s = (Ok tt, s') ∧ placed s s' p r v vn None None.
Proof.
  intros Hp Hc Hn. apply preempt_total; [|done..]. intros s1.
  apply quiet_seq; [intros; by apply local_effect_total|]. intros. by eapply resume_host_total.
Qed.

(** Placing an idle node and taking it away again restores both tables. *)
Lemma place_undo s p r v vn k :
  physical_nodes s !! p = Some None → node_at s r v = Some vn → physical_node vn = None →
  place (with_platform (place s p r v (Some (r, v)) (Some p)) k) p r v None None = with_platform s k.
Proof.
  intros Hidle Hn Hnone. unfold place, set_virtual, modify, with_platform, with_realms, with_physical_nodes; simpl.
  f_equal; [|by rewrite list_insert_insert_eq, list_insert_id].
  apply map_eq. intros r'. destruct (decide (r' = r)) as [->|]; [|by rewrite !lookup_alter_ne].
  rewrite !lookup_alter_eq. unfold node_at in Hn. destruct (realms s !! r) as [realm|]; [|done]. simpl in *.
  f_equal. destruct realm as [nodes sub]; simpl in *. f_equal. apply list_eq. intros i.
  destruct (decide (i = v)) as [->|]; [|by rewrite !list_lookup_alter_ne].
  rewrite !list_lookup_alter_eq, Hn. simpl. f_equal. destruct vn; simpl in *. by subst.
Qed.

Lemma node_at_place s p r v vn x y k :
  node_at s r v = Some vn →
  node_at (with_platform (place s p r v x y) k) r v = Some {| tcbs := tcbs vn; physical_node := y |}.
Proof.
  intros Hn. rewrite node_at_with_platform. unfold place.
  destruct (set_virtual_ok r v y (with_physical_nodes s (<[p:=x]> (physical_nodes s))) _ eq_refl)
    as (_ & _ & _ & _ & _ & _ & _ & ->).
  rewrite decide_True, node_at_with_physical, Hn by done. done.
Qed.

Lemma placed_undo s s1 s2 p r v vn :
  physical_nodes s !! p = Some None → node_at s r v = Some vn → physical_node vn = None → placement_inv s →
  placed s s1 p r v vn (Some (r, v)) (Some p) →
  placed s1 s2 p r v {| tcbs := tcbs vn; physical_node := Some p |} None None → quiet s s2.
Proof.
  intros Hidle Hn Hnone Hinv (k1 & -> & Hk1) (k2 & -> & Hk2).
  rewrite (place_undo _ _ _ _ vn) by done. exists k2. split; [done|]. intros t.
  rewrite Hk2; simpl. rewrite Hk1. repeat case_decide; try done.
  rewrite <-Hnone. symmetry. by apply (inv_threads s Hinv r v).
Qed.

(** C30: A turn on a core works and leaves no trace.  In every reachable state, if the kernel
    and the other servers answer, yielding an idle core to an idle virtual node succeeds and
    puts exactly the threads of that node on the core; then both a host event and a timeout
    succeed, and the tables and the places of all threads are those from before the turn. *)
Theorem turn_roundtrip r0 k0 cores nodes s p r v vn t :
  rs_reachable r0 k0 cores nodes s →
  p < node_local s → physical_nodes s !! p = Some None →
  node_at s r v = Some vn → physical_node vn = None →
  ∃ s1, yield_to p r v t s = (Ok tt, s1) ∧
    physical_nodes s1 !! p = Some (Some (r, v)) ∧
    (∀ x, runs_on (E:=E) (platform s1) x =
      if decide (x ∈ tcbs vn) then Some p else runs_on (E:=E) (platform s) x) ∧
    (∃ s2, host_event p s1 = (Ok tt, s2) ∧ quiet s s2) ∧
    (∃ s2, timeout p s1 = (Ok tt, s2) ∧ quiet s s2).
Proof.
  intros Hinv%rs_reachable_inv Hp Hidle Hn Hnone.
  destruct (yield_to_total p r v vn t s) as (s1 & Hy & Hpl); [done..|].
  exists s1. split; [done|]. pose proof Hpl as (k1 & E1 & Hk1).
  assert (Hc : physical_nodes s1 !! p = Some (Some (r, v))).
  { subst s1. simpl. apply list_lookup_insert_eq. by apply lookup_lt_Some in Hidle. }
  assert (Hn1 := node_at_place s p r v vn (Some (r, v)) (Some p) k1 Hn). rewrite <-E1 in Hn1.
  assert (Hp1 : p < node_local s1) by (by subst s1).
  split; [done|]. split; [by subst s1|].
  destruct (host_event_total p r v _ s1 Hp1 Hc Hn1) as (s2 & H2 & Hpl2).
  destruct (timeout_total p r v _ s1 Hp1 Hc Hn1) as (s3 & H3 & Hpl3).
  split; eexists; (split; [done|by eapply placed_undo]).
Qed.
End total.
End spec.

(** ** A concrete environment

    A kernel that keeps affinities only and never fails, and a realizer whose models list
    the threads of a single virtual core. *)
Module Demo.

Definition demo_effect (e : Effect) : M (gmap TCB nat) unit unit := λ k,
  (Ok tt, match e with
          | Schedule t (Some n) => <[t := n]> k
          | Schedule t None => delete t k
          | _ => k
          end).

Lemma demo_effect_runs_on e (k k' : gmap TCB nat) t :
  demo_effect e k = (Ok tt, k') →
  k' !! t = match e with Schedule x node => if decide (x = t) then node else k !! t | _ => k !! t end.
Proof.
  intros [= <-]. destruct e as [x [n|]| | | | | | | | | |]; try done; case_decide; subst.
  - apply lookup_insert_eq.
  - by apply lookup_insert_ne.
  - apply lookup_delete_eq.
  - by apply lookup_delete_ne.
Qed.

#[export] Instance demo_platform : Platform (gmap TCB nat) unit :=
  {| effect := demo_effect; runs_on := λ k t, k !! t; effect_runs_on := demo_effect_runs_on |}.

Lemma demo_effects_succeed e (k : gmap TCB nat) : ∃ k', effect (E:=unit) e k = (Ok tt, k').
Proof. by eexists. Qed.

Definition demo_request (ps : list Z) : option Request :=
  match Z.to_nat <$> ps with
  | [0; r; n] => Some (DeclareRealm r n)
  | [1; r; a; b; c] => Some (SpecChunk r a b c)
  | [2; r; a; b] => Some (FillChunks r a b)
  | [3; r] => Some (RealizeStart r)
  | [4; r] => Some (RealizeFinish r)
  | [5; r] => Some (Destroy r)
  | _ => None
  end.

Definition demo_take (bs : list Z) : option (FillChunkHeader * list Z) :=
  match bs with
  | a :: b :: c :: rest =>
      Some ({| object_index := Z.to_nat a; fill_entry_index := Z.to_nat b; size := Z.to_nat c |}, rest)
  | _ => None
  end.

Lemma demo_take_shorter bs h rest : demo_take bs = Some (h, rest) → length rest < length bs.
Proof. destruct bs as [|? [|? [|? bs]]]; simpl; intros; simplify_eq/=; lia. Qed.

Abbreviation subsystem_t := (list (list (TCB * bool))).

Definition demo_finish (p : subsystem_t) : M (gset TCB) unit subsystem_t := λ r,
  if decide (NoDup (threads_of p) ∧ list_to_set (threads_of p) ## r)
  then (Ok p, r ∪ list_to_set (threads_of p)) else (Err tt, r).
Definition demo_destroy (p : subsystem_t) : M (gset TCB) unit unit := λ r,
  (Ok tt, r ∖ list_to_set (threads_of p)).

#[export] Instance demo_realizer : Realizer (gset TCB) subsystem_t subsystem_t (list Z) unit :=
  {| from_bytes := Some; recv_request := demo_request; take_from_bytes := demo_take;
     take_from_bytes_shorter := demo_take_shorter;
     realizer_start := λ m r, (Ok [(λ b, (Z.to_nat b, true)) <$> m], r);
     realizer_continue := λ p _ _ _ r, (Ok p, r);
     realizer_finish := demo_finish; realizer_destroy := demo_destroy; virtual_cores := id |}.

#[export] Instance demo_realizer_laws : RealizerLaws (gset TCB) subsystem_t subsystem_t (list Z) unit.
Proof.
  refine {| Owner := gset TCB; own_partial _ := ∅; own_subsystem sub := list_to_set (threads_of sub); own_threads o := o;
            realizer_ok r l := all_disjoint l ∧ ⋃ l ⊆ r |}; cbn [all_disjoint union_list foldr].
  - intros r l l' Hp. by rewrite Hp.
  - set_solver.
  - intros m r p r' l Hok [= _ <-]. set_solver.
  - intros p i j c r p' r' l Hok [= _ <-]. set_solver.
  - intros p r sub r' l Hok. cbn [realizer_finish demo_realizer virtual_cores]. unfold demo_finish.
    case_decide as Hd; [|done]. intros [= <- <-]. set_solver.
  - intros sub r r' l Hok [= <-]. set_solver.
  - done.
Defined.

Abbreviation DS := (ResourceServer (gmap TCB nat) (gset TCB) subsystem_t subsystem_t).

(** Running a list of messages, each with the thread that takes it and the bulk region. *)
Definition admissibleb (s : DS) (badge : Z) (parameters : list Z) : bool :=
  if Z.eqb badge 0 then
    match recv_request parameters with
    | Some (DeclareRealm r _) => match partial_realms s !! r with None => true | Some _ => false end
    | Some (HackRun _) => false
    | _ => true
    end
  else true.

Fixpoint run_messages (l : list (Z * list Z * Z * list Z)) (s : DS) : option DS :=
  match l with
  | [] => Some s
  | (n, bulk, badge, ps) :: l' =>
      if admissibleb s badge ps then
        match serve_message (Z.to_nat n) bulk badge ps s with (Ok tt, s') => run_messages l' s' | _ => None end
      else None
  end.

Lemma run_messages_steps l s s' : run_messages l s = Some s' → rtc rs_step s s'.
Proof.
  revert s. induction l as [|[[[n bulk] badge] ps] l IH]; intros s; cbn [run_messages].
  - intros [= <-]. constructor.
  - destruct (admissibleb s badge ps) eqn:Ha; [|done].
    destruct (serve_message (Z.to_nat n) bulk badge ps s) as [[[]|?|] s1] eqn:Hs; [|done..].
    intros ?%IH. apply rtc_l with s1; [|done]. apply (rs_step_message _ (Z.to_nat n) bulk badge ps); [|done].
    intros ->. revert Ha. unfold admissibleb. simpl.
    destruct (demo_request ps) as [[]|]; try done. by destruct (partial_realms s !! _).
Qed.

(** Realm 1 with threads 7 and 8 is built; then core 0 is yielded to its only node. *)
Definition build : list (Z * list Z * Z * list Z) :=
  [(0, [], 0, [0; 1; 2]); (0, [7; 8], 0, [1; 1; 0; 2; 0]); (1, [], 0, [3; 1]); (1, [], 0, [4; 1])]%Z.
Definition built : DS := default (rs_new ∅ ∅ 3 4) (run_messages build (rs_new ∅ ∅ 3 4)).
Definition yielded : DS := default built (run_messages [(0, [], 1, [65536; 0])%Z] built).

Lemma built_reachable : rs_reachable ∅ ∅ 3 4 built.
Proof. split; [done|]. apply (run_messages_steps build). vm_compute. reflexivity. Qed.
Lemma yielded_reachable : rs_reachable ∅ ∅ 3 4 yielded.
Proof.
  split; [done|]. etrans; [apply built_reachable|].
  apply (run_messages_steps [(0, [], 1, [65536; 0])%Z]). vm_compute. reflexivity.
Qed.

Lemma realm_placement_witness :
  node_at yielded 1 0 = Some {| tcbs := [7; 8]; physical_node := Some 0 |} ∧
  runs_on (E:=unit) (platform yielded) 8 = Some 0.
Proof.
  split; [vm_compute; reflexivity|].
  destruct (realm_placement ∅ ∅ 3 4 yielded yielded_reachable) as (_ & _ & H).
  apply (H 1 0 {| tcbs := [7; 8]; physical_node := Some 0 |} 8); [vm_compute; reflexivity|set_solver].
Defined.

Lemma turn_roundtrip_witness :
  ∃ s1, yield_to 2 1 0 (Some 100%Z) built = (Ok tt, s1) ∧
    runs_on (E:=unit) (platform s1) 7 = Some 2 ∧ ∃ s2, host_event 2 s1 = (Ok tt, s2) ∧ quiet built s2.
Proof.
  destruct (turn_roundtrip demo_effects_succeed ∅ ∅ 3 4 built 2 1 0
    {| tcbs := [7; 8]; physical_node := None |} (Some 100%Z) built_reachable)
    as (s1 & Hy & _ & Hr & Hh & _).
  - vm_compute. lia.
  - vm_compute. reflexivity.
  - vm_compute. reflexivity.
  - reflexivity.
  - exists s1. split; [exact Hy|]. split; [|exact Hh]. by rewrite (Hr 7).
Defined.

(** The assertion [declare] lacks: a realm declared again while it is being built is built
    twice; the second one replaces the first while that runs, and the end of the turn parks
    the threads of the second: thread 7 stays on the core, which the tables call free. *)
Definition twice : list (Z * list Z * Z * list Z) :=
  [(0, [], 0, [0; 1; 1]); (0, [7], 0, [1; 1; 0; 1; 0]); (0, [], 0, [3; 1]);
   (0, [], 0, [0; 1; 1]); (0, [8], 0, [1; 1; 0; 1; 0]); (0, [], 0, [4; 1]);
   (0, [], 1, [65536; 0]); (0, [], 0, [3; 1]); (0, [], 0, [4; 1]); (0, [], 257, [])]%Z.

Fixpoint run_all (l : list (Z * list Z * Z * list Z)) (s : DS) : outcome unit DS :=
  match l with
  | [] => Ok s
  | (n, bulk, badge, ps) :: l' =>
      match serve_message (Z.to_nat n) bulk badge ps s with (Ok tt, s') => run_all l' s' | _ => Panic end
  end.

Lemma redeclared_realm_keeps_core :
  ∃ s, run_all twice (rs_new ∅ ∅ 3 4) = Ok s ∧
    physical_nodes s !! 0 = Some None ∧ runs_on (E:=unit) (platform s) 7 = Some 0.
Proof. eexists. split; [vm_compute; reflexivity|]. split; reflexivity. Qed.
End Demo.
