(* ===== verification/FiniteSet.v ===== *)
(** * FiniteSet: enumerations as ranges of numbers

    Model of [framework/helpers/finite-set]: the trait [Finite] and the code its derive macro
    generates.  The event server numbers all its events with it.

    The macro sees the variants of an enumeration, each a list of field types; the generated
    code depends on the cardinalities of these only, so a shape is a [list (list nat)] and a
    value is the index of its variant with the numbers of its fields.  A [panic!] of
    [from_nat] is [None].  Cardinalities are constants far below [usize::MAX]. *)

From S2P Require Import Prelude.

(** The trait. *)
Class Finite (T : Type) := {
  CARDINALITY : nat;
  to_nat : T → nat;
  from_nat : nat → option T;
}.
#[global] Arguments CARDINALITY T {_}.

(** What it promises, for the values in use: it is a bijection with [[0, CARDINALITY)]. *)
Class FiniteLaws (T : Type) `{!Finite T} (valid : T → Prop) := {
  to_nat_lt x : valid x → to_nat x < CARDINALITY T;
  from_to_nat x : valid x → from_nat (to_nat x) = Some x;
  to_from_nat n : n < CARDINALITY T → ∃ x, from_nat n = Some x ∧ valid x ∧ to_nat x = n;
}.

(** ** The generated code *)

Abbreviation shape_t := (list (list nat)).

Definition cardinality_of_variant (fields : list nat) : nat := foldl Nat.mul 1 fields.
Definition cardinality_of_structure (variants : shape_t) : nat :=
  foldl (λ sum v, sum + cardinality_of_variant v) 0 variants.

(** The sum over the fields, the weight of a field being the product of the cardinalities
    of those before it. *)
Fixpoint fields_to_nat (n_past_fields : nat) (fields ns : list nat) : nat :=
  match fields, ns with
  | c :: fields', n :: ns' => n_past_fields * n + fields_to_nat (n_past_fields * c) fields' ns'
  | _, _ => 0
  end.
Fixpoint fields_from_nat (n_past_fields : nat) (fields : list nat) (m : nat) : list nat :=
  match fields with
  | [] => []
  | c :: fields' => (m / n_past_fields) mod c :: fields_from_nat (n_past_fields * c) fields' m
  end.

(** The match of [to_nat] and the chain of conditionals of [from_nat]. *)
Fixpoint derive_to_nat (n_past_variants : nat) (variants : shape_t) (i : nat) (ns : list nat) : nat :=
  match variants, i with
  | v :: _, 0 => n_past_variants + fields_to_nat 1 v ns
  | v :: variants', S i' => derive_to_nat (n_past_variants + cardinality_of_variant v) variants' i' ns
  | [], _ => 0
  end.
Fixpoint derive_from_nat (n_past_variants : nat) (variants : shape_t) (n : nat) : option (nat * list nat) :=
  match variants with
  | [] => None
  | v :: variants' =>
      if n <? n_past_variants + cardinality_of_variant v
      then Some (0, fields_from_nat 1 v (n - n_past_variants))
      else p ← derive_from_nat (n_past_variants + cardinality_of_variant v) variants' n; Some (S p.1, p.2)
  end.

(** ** Mixed radix *)

Lemma foldl_mul a l : foldl Nat.mul a l = a * foldl Nat.mul 1 l.
Proof. revert a. induction l as [|x l IH]; intros a; simpl; [lia|]. rewrite IH, (IH (x + 0)). lia. Qed.

Lemma cardinality_of_variant_cons c fields :
  cardinality_of_variant (c :: fields) = c * cardinality_of_variant fields.
Proof. unfold cardinality_of_variant. simpl. rewrite foldl_mul. lia. Qed.

Lemma foldl_add a (l : shape_t) :
  foldl (λ sum v, sum + cardinality_of_variant v) a l = a + cardinality_of_structure l.
Proof.
  unfold cardinality_of_structure. revert a. induction l as [|x l IH]; intros a; simpl; [lia|].
  rewrite IH, (IH (cardinality_of_variant x)). lia.
Qed.

Lemma cardinality_of_structure_cons v variants :
  cardinality_of_structure (v :: variants) = cardinality_of_variant v + cardinality_of_structure variants.
Proof. unfold cardinality_of_structure at 1. simpl. by rewrite foldl_add. Qed.

(** Fields in range. *)
Abbreviation in_range := (Forall2 (λ n c, n < c)).

Lemma fields_to_nat_scale p fields ns : fields_to_nat p fields ns = p * fields_to_nat 1 fields ns.
Proof.
  revert p ns. induction fields as [|c fields IH]; intros p [|n ns]; simpl; try lia.
  rewrite IH, (IH (c + 0)). lia.
Qed.

Lemma fields_to_nat_cons c fields n ns :
  fields_to_nat 1 (c :: fields) (n :: ns) = n + c * fields_to_nat 1 fields ns.
Proof. simpl. rewrite fields_to_nat_scale. lia. Qed.

Lemma fields_to_nat_lt fields ns :
  in_range ns fields → fields_to_nat 1 fields ns < cardinality_of_variant fields.
Proof.
  induction 1 as [|n c ns fields Hn H IH]; [simpl; unfold cardinality_of_variant; simpl; lia|].
  rewrite fields_to_nat_cons, cardinality_of_variant_cons. nia.
Qed.

(** A digit of weight [p] of [m] is a digit of weight 1 of [m / p]. *)
Lemma fields_from_nat_scale p fields m :
  p ≠ 0 → Forall (λ c, c ≠ 0) fields →
  fields_from_nat p fields m = fields_from_nat 1 fields (m / p).
Proof.
  revert p m. induction fields as [|c fields IH]; intros p m Hp Hc; simpl; [done|].
  apply Forall_cons in Hc as [Hc Hcs].
  rewrite Nat.div_1_r, (IH (p * c)), (IH (c + 0)) by (lia || done). f_equal.
  rewrite Nat.add_0_r, Nat.Div0.div_div. done.
Qed.

Lemma fields_from_nat_cons c fields m :
  c ≠ 0 → Forall (λ c, c ≠ 0) fields →
  fields_from_nat 1 (c :: fields) m = m mod c :: fields_from_nat 1 fields (m / c).
Proof.
  intros Hc Hcs. simpl. rewrite Nat.div_1_r. f_equal.
  rewrite Nat.add_0_r. by apply fields_from_nat_scale.
Qed.

Lemma in_range_nonzero ns fields : in_range ns fields → Forall (λ c, c ≠ 0) fields.
Proof. induction 1; constructor; [lia|done]. Qed.

Lemma fields_from_to_nat fields ns :
  in_range ns fields → fields_from_nat 1 fields (fields_to_nat 1 fields ns) = ns.
Proof.
  induction 1 as [|n c ns fields Hn H IH]; [done|].
  rewrite fields_to_nat_cons, fields_from_nat_cons by (lia || by eapply in_range_nonzero).
  f_equal.
  - rewrite Nat.mul_comm, Nat.Div0.mod_add. by apply Nat.mod_small.
  - rewrite Nat.mul_comm, Nat.div_add, (Nat.div_small n) by lia. simpl. by rewrite IH.
Qed.

Lemma cardinality_of_variant_nonzero fields :
  cardinality_of_variant fields ≠ 0 → Forall (λ c, c ≠ 0) fields.
Proof.
  induction fields as [|c fields IH]; [done|]. rewrite cardinality_of_variant_cons.
  intros H. constructor; [nia|]. apply IH. nia.
Qed.

Lemma fields_to_from_nat fields m :
  m < cardinality_of_variant fields →
  in_range (fields_from_nat 1 fields m) fields ∧ fields_to_nat 1 fields (fields_from_nat 1 fields m) = m.
Proof.
  intros Hm. assert (Hc : Forall (λ c, c ≠ 0) fields) by (apply cardinality_of_variant_nonzero; lia).
  revert m Hm. induction Hc as [|c fields Hc Hcs IH]; intros m Hm.
  - unfold cardinality_of_variant in Hm. simpl in *. split; [done|lia].
  - rewrite cardinality_of_variant_cons in Hm.
    destruct (IH (m / c)) as [IH1 IH2]; [by apply Nat.Div0.div_lt_upper_bound|].
    rewrite fields_from_nat_cons by done. split.
    + constructor; [by apply Nat.mod_upper_bound|done].
    + rewrite fields_to_nat_cons, IH2. pose proof (Nat.div_mod m c Hc). lia.
Qed.

(** ** Variants *)

Lemma derive_to_nat_past p variants i ns v :
  variants !! i = Some v → derive_to_nat p variants i ns = p + derive_to_nat 0 variants i ns.
Proof.
  revert p i. induction variants as [|w variants IH]; intros p [|i] Hi; simpl in *; [done..| |]; [lia|].
  rewrite (IH _ _ Hi), (IH (cardinality_of_variant w) _ Hi). lia.
Qed.

Lemma derive_from_nat_past p variants n :
  derive_from_nat p variants (p + n) = derive_from_nat 0 variants n.
Proof.
  revert p n. induction variants as [|v variants IH]; intros p n; [done|]. simpl.
  replace (p + n - p) with n by lia. rewrite Nat.sub_0_r.
  destruct (Nat.ltb_spec n (cardinality_of_variant v)) as [Hn|Hn].
  - by rewrite (proj2 (Nat.ltb_lt (p + n) (p + cardinality_of_variant v))) by lia.
  - rewrite (proj2 (Nat.ltb_ge (p + n) (p + cardinality_of_variant v))) by lia.
    replace (p + n) with (p + cardinality_of_variant v + (n - cardinality_of_variant v)) by lia.
    rewrite IH. replace n with (cardinality_of_variant v + (n - cardinality_of_variant v)) at 2 by lia.
    by rewrite IH.
Qed.

Lemma derive_to_nat_lt variants i v ns :
  variants !! i = Some v → in_range ns v →
  derive_to_nat 0 variants i ns < cardinality_of_structure variants.
Proof.
  revert i. induction variants as [|w variants IH]; intros [|i] Hi Hr; simplify_eq/=;
    rewrite cardinality_of_structure_cons.
  - pose proof (fields_to_nat_lt _ _ Hr). lia.
  - rewrite (derive_to_nat_past _ _ _ _ _ Hi). pose proof (IH i Hi Hr). lia.
Qed.

Lemma derive_from_to_nat variants i v ns :
  variants !! i = Some v → in_range ns v →
  derive_from_nat 0 variants (derive_to_nat 0 variants i ns) = Some (i, ns).
Proof.
  revert i. induction variants as [|w variants IH]; intros [|i] Hi Hr; simplify_eq/=.
  - pose proof (fields_to_nat_lt _ _ Hr). rewrite (proj2 (Nat.ltb_lt _ _)) by done.
    by rewrite Nat.sub_0_r, fields_from_to_nat.
  - rewrite (derive_to_nat_past _ _ _ _ _ Hi), (proj2 (Nat.ltb_ge _ _)) by lia.
    rewrite derive_from_nat_past, (IH i) by done. done.
Qed.

Lemma derive_to_from_nat variants n :
  n < cardinality_of_structure variants →
  ∃ i v ns, derive_from_nat 0 variants n = Some (i, ns) ∧ variants !! i = Some v ∧ in_range ns v ∧
    derive_to_nat 0 variants i ns = n.
Proof.
  revert n. induction variants as [|w variants IH]; intros n Hn.
  - unfold cardinality_of_structure in Hn. simpl in Hn. lia.
  - rewrite cardinality_of_structure_cons in Hn. simpl. rewrite Nat.sub_0_r.
    destruct (Nat.ltb_spec n (cardinality_of_variant w)) as [Hlt|Hge].
    + destruct (fields_to_from_nat w n Hlt) as [Hr He]. by exists 0, w, (fields_from_nat 1 w n).
    + destruct (IH (n - cardinality_of_variant w)) as (i & v & ns & Hf & Hv & Hr & He); [lia|].
      exists (S i), v, ns. split; [|split; [done|split; [done|]]].
      * replace n with (cardinality_of_variant w + (n - cardinality_of_variant w)) by lia.
        by rewrite derive_from_nat_past, Hf.
      * rewrite (derive_to_nat_past _ _ _ _ _ Hv), He. lia.
Qed.

Lemma derive_from_nat_out variants n :
  cardinality_of_structure variants ≤ n → derive_from_nat 0 variants n = None.
Proof.
  revert n. induction variants as [|w variants IH]; intros n Hn; [done|].
  rewrite cardinality_of_structure_cons in Hn. simpl. rewrite (proj2 (Nat.ltb_ge _ _)) by lia.
  replace n with (cardinality_of_variant w + (n - cardinality_of_variant w)) by lia.
  rewrite derive_from_nat_past, IH by lia. done.
Qed.

(** The derived numbering is a bijection: for every enumeration, whatever its variants
    and fields, [to_nat] of a value with fields in range is below [CARDINALITY] and
    [from_nat] gives the value back; every number below [CARDINALITY] is the number of the
    value [from_nat] gives; and [from_nat] panics on every other number. *)
Lemma derive_bijection (variants : shape_t) :
  (∀ i v ns, variants !! i = Some v → in_range ns v →
    derive_to_nat 0 variants i ns < cardinality_of_structure variants ∧
    derive_from_nat 0 variants (derive_to_nat 0 variants i ns) = Some (i, ns)) ∧
  (∀ n, n < cardinality_of_structure variants →
    ∃ i v ns, derive_from_nat 0 variants n = Some (i, ns) ∧ variants !! i = Some v ∧ in_range ns v ∧
      derive_to_nat 0 variants i ns = n) ∧
  (∀ n, cardinality_of_structure variants ≤ n → derive_from_nat 0 variants n = None).
Proof.
  split; [|split].
  - intros. split; [by eapply derive_to_nat_lt|by eapply derive_from_to_nat].
  - apply derive_to_from_nat.
  - apply derive_from_nat_out.
Qed.

(** ** Derived instances *)

(** An enumeration with [#[derive(Finite)]]: its shape, and its values as variants with
    the numbers of their fields. *)
Class Derived (T : Type) := {
  shape : shape_t;
  encode : T → nat * list nat;
  decode : nat → list nat → option T;
}.
#[global] Arguments shape T {_}.

#[global] Instance derived_finite (T : Type) `{!Derived T} : Finite T :=
  {| CARDINALITY := cardinality_of_structure (shape T);
     to_nat x := derive_to_nat 0 (shape T) (encode x).1 (encode x).2;
     from_nat n := p ← derive_from_nat 0 (shape T) n; decode p.1 p.2 |}.

(** The derived numbering is lawful when that of every field is. *)
Lemma derived_finite_laws T `{!Derived T} (valid : T → Prop) :
  (∀ x, valid x → ∃ v, shape T !! (encode x).1 = Some v ∧ in_range (encode x).2 v) →
  (∀ x, valid x → decode (encode x).1 (encode x).2 = Some x) →
  (∀ i v ns, shape T !! i = Some v → in_range ns v → ∃ x, decode i ns = Some x ∧ valid x ∧ encode x = (i, ns)) →
  FiniteLaws T valid.
Proof.
  intros H1 H2 H3. split.
  - intros x (v & Hv & Hr)%H1. by eapply derive_to_nat_lt.
  - intros x Hx. destruct (H1 x Hx) as (v & Hv & Hr). simpl.
    rewrite (derive_from_to_nat _ _ _ _ Hv Hr). simpl. by apply H2.
  - intros n Hn. simpl. destruct (derive_to_from_nat _ _ Hn) as (i & v & ns & -> & Hv & Hr & He).
    destruct (H3 i v ns Hv Hr) as (x & Hd & Hx & Hex). exists x. by rewrite Hex.
Qed.

(** A lawful numbering is injective. *)
Lemma to_nat_inj T `{!Finite T} valid `{!FiniteLaws T valid} x y :
  valid x → valid y → to_nat x = to_nat y → x = y.
Proof. intros Hx Hy He. apply (inj Some). by rewrite <-(from_to_nat x Hx), He, from_to_nat. Qed.
