(* ===== verification/EventTypes.v ===== *)
(** * EventTypes: the events of the event server

    Model of [hypervisor/components/event-server/types/src/lib.rs]: the enumerations that name
    the events of each client, numbered with [Finite].  The [Bitfield] of the same file is
    in [Bitfield].

    [RealmId] and [SPI] have instances of their own.  Every enumeration is lawful
    ([FiniteLaws]) but [HostIn], because [SPI] adds its first number where it should
    subtract it and conversely ([spi_event_collision]). *)

From S2P Require Import Prelude.
From S2P Require Import FiniteSet.

Definition NUM_REALMS : nat := 2.

Inductive RealmRingBufferId := Net | Channel.
Inductive EventRealmId := MkRealmId (n : nat).
Inductive SPI := MkSPI (n : nat).
Definition SPI_START : nat := 32.
Definition SPI_END : nat := 1020.

Inductive HostRingBufferIn :=
| HRBI_ResourceServer
| HRBI_SerialServer
| HRBI_Realm (r : EventRealmId) (b : RealmRingBufferId).
Inductive HostRingBufferOut := HRBO_Realm (r : EventRealmId) (b : RealmRingBufferId).
Inductive HostIn :=
| HI_RealmEvent
| HI_SPI (s : SPI)
| HI_RingBuffer (b : HostRingBufferIn).
Inductive HostOut := HO_RingBuffer (b : HostRingBufferOut).
Inductive RealmRingBufferIn := RRBI_Host (b : RealmRingBufferId) | RRBI_SerialServer.
Inductive RealmRingBufferOut := RRBO_Host (b : RealmRingBufferId).
Inductive RealmIn := RI_RingBuffer (b : RealmRingBufferIn).
Inductive RealmOut := RO_RingBuffer (b : RealmRingBufferOut).
Inductive SerialServerRingBuffer := SSRB_Host | SSRB_Realm (r : EventRealmId).
Inductive SerialServerOut := SSO_RingBuffer (b : SerialServerRingBuffer).
Inductive ResourceServerOut := RSO_HostRingBuffer.

(** ** Hand-written instances *)

#[global] Instance realm_id_finite : Finite EventRealmId :=
  {| CARDINALITY := NUM_REALMS; to_nat '(MkRealmId n) := n; from_nat n := Some (MkRealmId n) |}.

(** [n - START] underflows, and panics, for numbers below [START]. *)
#[global] Instance spi_finite : Finite SPI :=
  {| CARDINALITY := SPI_END - SPI_START;
     to_nat '(MkSPI n) := n + SPI_START;
     from_nat n := if n <? SPI_START then None else Some (MkSPI (n - SPI_START)) |}.

(** ** Derived instances *)

#[global] Instance realm_ring_buffer_id_derived : Derived RealmRingBufferId :=
  {| shape := [[]; []];
     encode x := match x with Net => (0, []) | Channel => (1, []) end;
     decode i _ := match i with 0 => Some Net | 1 => Some Channel | _ => None end |}.

#[global] Instance host_ring_buffer_in_derived : Derived HostRingBufferIn :=
  {| shape := [[]; []; [CARDINALITY EventRealmId; CARDINALITY RealmRingBufferId]];
     encode x := match x with
       | HRBI_ResourceServer => (0, []) | HRBI_SerialServer => (1, [])
       | HRBI_Realm r b => (2, [to_nat r; to_nat b]) end;
     decode i ns := match i, ns with
       | 0, _ => Some HRBI_ResourceServer | 1, _ => Some HRBI_SerialServer
       | 2, [m; n] => r ← from_nat m; b ← from_nat n; Some (HRBI_Realm r b)
       | _, _ => None end |}.

#[global] Instance host_ring_buffer_out_derived : Derived HostRingBufferOut :=
  {| shape := [[CARDINALITY EventRealmId; CARDINALITY RealmRingBufferId]];
     encode '(HRBO_Realm r b) := (0, [to_nat r; to_nat b]);
     decode i ns := match i, ns with
       | 0, [m; n] => r ← from_nat m; b ← from_nat n; Some (HRBO_Realm r b)
       | _, _ => None end |}.

#[global] Instance host_in_derived : Derived HostIn :=
  {| shape := [[]; [CARDINALITY SPI]; [CARDINALITY HostRingBufferIn]];
     encode x := match x with
       | HI_RealmEvent => (0, []) | HI_SPI s => (1, [to_nat s]) | HI_RingBuffer b => (2, [to_nat b]) end;
     decode i ns := match i, ns with
       | 0, _ => Some HI_RealmEvent
       | 1, [n] => HI_SPI <$> from_nat n
       | 2, [n] => HI_RingBuffer <$> from_nat n
       | _, _ => None end |}.

#[global] Instance host_out_derived : Derived HostOut :=
  {| shape := [[CARDINALITY HostRingBufferOut]];
     encode '(HO_RingBuffer b) := (0, [to_nat b]);
     decode i ns := match i, ns with 0, [n] => HO_RingBuffer <$> from_nat n | _, _ => None end |}.

#[global] Instance realm_ring_buffer_in_derived : Derived RealmRingBufferIn :=
  {| shape := [[CARDINALITY RealmRingBufferId]; []];
     encode x := match x with RRBI_Host b => (0, [to_nat b]) | RRBI_SerialServer => (1, []) end;
     decode i ns := match i, ns with
       | 0, [n] => RRBI_Host <$> from_nat n
       | 1, _ => Some RRBI_SerialServer
       | _, _ => None end |}.

#[global] Instance realm_ring_buffer_out_derived : Derived RealmRingBufferOut :=
  {| shape := [[CARDINALITY RealmRingBufferId]];
     encode '(RRBO_Host b) := (0, [to_nat b]);
     decode i ns := match i, ns with 0, [n] => RRBO_Host <$> from_nat n | _, _ => None end |}.

#[global] Instance realm_in_derived : Derived RealmIn :=
  {| shape := [[CARDINALITY RealmRingBufferIn]];
     encode '(RI_RingBuffer b) := (0, [to_nat b]);
     decode i ns := match i, ns with 0, [n] => RI_RingBuffer <$> from_nat n | _, _ => None end |}.

#[global] Instance realm_out_derived : Derived RealmOut :=
  {| shape := [[CARDINALITY RealmRingBufferOut]];
     encode '(RO_RingBuffer b) := (0, [to_nat b]);
     decode i ns := match i, ns with 0, [n] => RO_RingBuffer <$> from_nat n | _, _ => None end |}.

#[global] Instance serial_server_ring_buffer_derived : Derived SerialServerRingBuffer :=
  {| shape := [[]; [CARDINALITY EventRealmId]];
     encode x := match x with SSRB_Host => (0, []) | SSRB_Realm r => (1, [to_nat r]) end;
     decode i ns := match i, ns with
       | 0, _ => Some SSRB_Host
       | 1, [n] => SSRB_Realm <$> from_nat n
       | _, _ => None end |}.

#[global] Instance serial_server_out_derived : Derived SerialServerOut :=
  {| shape := [[CARDINALITY SerialServerRingBuffer]];
     encode '(SSO_RingBuffer b) := (0, [to_nat b]);
     decode i ns := match i, ns with 0, [n] => SSO_RingBuffer <$> from_nat n | _, _ => None end |}.

#[global] Instance resource_server_out_derived : Derived ResourceServerOut :=
  {| shape := [[]]; encode _ := (0, []);
     decode i _ := match i with 0 => Some RSO_HostRingBuffer | _ => None end |}.

(** ** Laws *)

(** A [RealmId] is valid below [NUM_REALMS]; validity of the rest follows the fields. *)
Definition valid_realm_id (r : EventRealmId) : Prop := let 'MkRealmId n := r in n < NUM_REALMS.
Definition valid_all {T} (_ : T) : Prop := True.
Definition valid_hrbi (x : HostRingBufferIn) : Prop :=
  match x with HRBI_Realm r _ => valid_realm_id r | _ => True end.
Definition valid_hrbo (x : HostRingBufferOut) : Prop := let 'HRBO_Realm r _ := x in valid_realm_id r.
Definition valid_host_out (x : HostOut) : Prop := let 'HO_RingBuffer b := x in valid_hrbo b.
Definition valid_ssrb (x : SerialServerRingBuffer) : Prop :=
  match x with SSRB_Realm r => valid_realm_id r | _ => True end.
Definition valid_sso (x : SerialServerOut) : Prop := let 'SSO_RingBuffer b := x in valid_ssrb b.

#[global] Instance realm_id_laws : FiniteLaws EventRealmId valid_realm_id.
Proof. split; [by intros []|by intros []|]. intros n Hn. by exists (MkRealmId n). Qed.

(** An enumeration all of whose fields are lawful. *)
Tactic Notation "derive_laws" reference(inst) :=
  apply derived_finite_laws;
  [ intros [] Hx; eexists; (split; [reflexivity|]); 
    repeat (apply Forall2_cons_2; [eapply to_nat_lt; first [exact Hx | exact I]|]); apply Forall2_nil_2
  | intros [] Hx; unfold inst; cbn [encode decode fst snd]; try reflexivity;
    repeat (erewrite from_to_nat; [cbn [mbind option_bind fmap option_fmap option_map]|first [exact Hx | exact I]]); reflexivity
  | intros i v ns Hv Hr; unfold inst in Hv; cbn [shape] in Hv;
    repeat match type of Hv with _ !! ?j = _ => destruct j as [|i]; cbn [lookup list_lookup] in Hv; try discriminate Hv end;
    apply (inj Some) in Hv as <-;
    repeat match goal with
    | H : Forall2 _ _ (_ :: _) |- _ => apply Forall2_cons_inv_r in H as (? & ? & ? & ? & ->); cbv beta in *
    | H : Forall2 _ _ [] |- _ => apply Forall2_nil_inv_r in H as ->
    end;
    repeat match goal with
    | H : ?m < CARDINALITY _ |- _ => apply to_from_nat in H as (? & ? & ? & <-)
    end; unfold inst; cbn [decode encode];
    repeat match goal with H : from_nat _ = _ |- _ => rewrite H; clear H end; cbn;
    eexists; (split; [reflexivity|]); (split; [first [exact I | assumption]|]); reflexivity ].

#[global] Instance realm_ring_buffer_id_laws : FiniteLaws RealmRingBufferId valid_all.
Proof. derive_laws realm_ring_buffer_id_derived. Qed.
#[global] Instance host_ring_buffer_in_laws : FiniteLaws HostRingBufferIn valid_hrbi.
Proof. derive_laws host_ring_buffer_in_derived. Qed.
#[global] Instance host_ring_buffer_out_laws : FiniteLaws HostRingBufferOut valid_hrbo.
Proof. derive_laws host_ring_buffer_out_derived. Qed.
#[global] Instance host_out_laws : FiniteLaws HostOut valid_host_out.
Proof. derive_laws host_out_derived. Qed.
#[global] Instance realm_ring_buffer_in_laws : FiniteLaws RealmRingBufferIn valid_all.
Proof. derive_laws realm_ring_buffer_in_derived. Qed.
#[global] Instance realm_ring_buffer_out_laws : FiniteLaws RealmRingBufferOut valid_all.
Proof. derive_laws realm_ring_buffer_out_derived. Qed.
#[global] Instance realm_in_laws : FiniteLaws RealmIn valid_all.
Proof. derive_laws realm_in_derived. Qed.
#[global] Instance realm_out_laws : FiniteLaws RealmOut valid_all.
Proof. derive_laws realm_out_derived. Qed.
#[global] Instance serial_server_ring_buffer_laws : FiniteLaws SerialServerRingBuffer valid_ssrb.
Proof. derive_laws serial_server_ring_buffer_derived. Qed.
#[global] Instance serial_server_out_laws : FiniteLaws SerialServerOut valid_sso.
Proof. derive_laws serial_server_out_derived. Qed.
#[global] Instance resource_server_out_laws : FiniteLaws ResourceServerOut valid_all.
Proof. derive_laws resource_server_out_derived. Qed.

(** ** Interrupts *)

(** The number of the event of interrupt 956 is that of the resource server's ring buffer,
    and those of the last 58 interrupts are not below [CARDINALITY]. *)
Lemma spi_event_collision :
  to_nat (HI_SPI (MkSPI 956)) = to_nat (HI_RingBuffer HRBI_ResourceServer) ∧
  ∀ n, 962 ≤ n → CARDINALITY HostIn ≤ to_nat (HI_SPI (MkSPI n)).
Proof.
  split; [vm_compute; reflexivity|]. intros n Hn.
  change (995 ≤ 1 + fields_to_nat 1 [988] [n + 32]). rewrite fields_to_nat_cons. simpl. lia.
Qed.

(** Interrupts below 956 have events of their own. *)
Definition valid_host_in (x : HostIn) : Prop :=
  match x with
  | HI_RealmEvent => True
  | HI_SPI (MkSPI n) => n < SPI_END - SPI_START - SPI_START
  | HI_RingBuffer b => valid_hrbi b
  end.

Lemma host_in_spi_to_nat n : to_nat (HI_SPI (MkSPI n)) = 33 + n.
Proof.
  change (to_nat (HI_SPI (MkSPI n))) with (1 + fields_to_nat 1 [988] [n + 32]).
  rewrite fields_to_nat_cons. simpl. lia.
Qed.
Lemma host_in_ring_buffer_to_nat b : to_nat (HI_RingBuffer b) = 989 + to_nat b.
Proof.
  change (to_nat (HI_RingBuffer b)) with (989 + fields_to_nat 1 [CARDINALITY HostRingBufferIn] [to_nat b]).
  rewrite fields_to_nat_cons. simpl fields_to_nat. lia.
Qed.

Lemma host_in_to_nat_lt x : valid_host_in x → to_nat x < CARDINALITY HostIn.
Proof.
  destruct x as [|[n]|b]; intros Hx.
  - vm_compute. lia.
  - rewrite host_in_spi_to_nat. simpl in Hx. unfold SPI_END, SPI_START in Hx. change (CARDINALITY HostIn) with 995. lia.
  - rewrite host_in_ring_buffer_to_nat. pose proof (to_nat_lt (valid:=valid_hrbi) b Hx) as Hb. change (CARDINALITY HostRingBufferIn) with 6 in Hb.
    change (CARDINALITY HostIn) with 995. lia.
Qed.

Lemma host_in_to_nat_inj x y : valid_host_in x → valid_host_in y → to_nat x = to_nat y → x = y.
Proof.
  assert (H0 : to_nat HI_RealmEvent = 0) by (vm_compute; reflexivity).
  destruct x as [|[n]|b], y as [|[m]|c]; intros Hx Hy;
    rewrite ?H0, ?host_in_spi_to_nat, ?host_in_ring_buffer_to_nat; try lia; try done;
    cbn [valid_host_in] in Hx, Hy; unfold SPI_END, SPI_START in *; try lia.
  - intros He. do 2 f_equal. lia.
  - intros He. f_equal. apply (to_nat_inj _ valid_hrbi); [done..|lia].
Qed.
