(* ===== verification/Startup.v ===== *)
(** * Startup: how the servers start

    Models of the functions [main] of the resource server, the event server, the timer server
    ([hypervisor/components/resource-server], [event-server], [framework/generic-components/timer-server])
    and the serial server ([hypervisor/components/serial-server]): which threads they start, what each of
    them serves, and which events the serial server's ring buffers raise.  Capabilities are numbers.

    With a thread for every further core, each core of the resource server is served by one thread
    with its own number ([rs_cores_served]), and so are the cores of the others ([es_cores_served],
    [ts_cores_served]); with too few threads, or too few handlers of interrupts, the cores that are left
    over are not served and nothing reports it ([cores_left_over]).  The events of the serial server's clients are
    different, the event server reads each of them as the ring buffer of that client, and the thread
    that waits for a client names the same client ([serial_clients_wired]). *)

From S2P Require Import Prelude.
From S2P Require Import FiniteSet.
From S2P Require Import EventTypes.
From S2P Require Import SerialServer.

Abbreviation Thread := Z (only parsing).
Abbreviation Endpoint := Z (only parsing).
Abbreviation Cap := Z (only parsing).

(** What a thread runs; [None] is the initial thread. *)
Abbreviation Runs A := (list (option Thread * A)) (only parsing).

(** [xs.iter().skip(1).zip(threads)] started one after the other, then the first on the initial
    thread; [xs[0]] panics when there is none. *)
Definition spawn_secondary {A} (xs : list A) (threads : list Thread) : Runs A :=
  (λ '(x, t), (Some t, x)) <$> zip (drop 1 xs) threads.
Definition serve_all {A} (xs : list A) (threads : list Thread) : outcome Empty_set (Runs A) :=
  let secondary := spawn_secondary xs threads in
  first ← index xs 0;
  Ok (secondary ++ [(None, first)]).

(** ** The resource server: [run] with a node and its endpoint *)
Definition rs_main (endpoints : list Endpoint) (secondary_threads : list Thread) : outcome Empty_set (Runs (nat * Endpoint)) :=
  let secondary := (λ '(x, t), (Some t, x)) <$> zip (drop 1 (imap pair endpoints)) secondary_threads in
  ep ← index endpoints 0;
  Ok (secondary ++ [(None, (0, ep))]).

(** ** The event server: threads for interrupts, and [run] with an endpoint *)
Record IRQThreadConfig := { irq_thread_thread : Thread; irq_thread_notification : Cap; irq_thread_irqs : list nat }.
Inductive EsRun := RunIRQThread (notification : Cap) (irqs : list nat) | RunEndpoint (ep : Endpoint).
Definition es_main (irq_threads : list IRQThreadConfig) (endpoints : list Endpoint) (secondary_threads : list Thread) :
    outcome Empty_set (Runs EsRun) :=
  let irqs := (λ c, (Some (irq_thread_thread c), RunIRQThread (irq_thread_notification c) (irq_thread_irqs c))) <$> irq_threads in
  runs ← serve_all (RunEndpoint <$> endpoints) secondary_threads;
  Ok (irqs ++ runs).

(** ** The timer server: [run] with an endpoint and a handler of interrupts *)
Definition ts_main (endpoints : list Endpoint) (irq_handlers : list Cap) (secondary_threads : list Thread) :
    outcome Empty_set (Runs (Endpoint * Cap)) :=
  let secondary := spawn_secondary (zip endpoints irq_handlers) secondary_threads in
  ep ← index endpoints 0;
  handler ← index irq_handlers 0;
  Ok (secondary ++ [(None, (ep, handler))]).

(** ** The serial server *)
Record ClientConfig (R : Type) := { client_thread : Thread; client_wait : Cap; client_ring_buffer : R }.
Arguments client_thread {R} _.
Arguments client_wait {R} _.
Arguments client_ring_buffer {R} _.

Section serial.
Context {R : Type}.
(** [mk_signal] and [mk_kicks]: the number of the event that both kicks of a ring buffer raise. *)
Definition mk_signal (index : SerialServerOut) : nat := to_nat index.
Definition mk_kicks (rb : SerialServerRingBuffer) : nat * nat := (mk_signal (SSO_RingBuffer rb), mk_signal (SSO_RingBuffer rb)).
(** The ring buffers of the clients with their kicks. *)
Definition serial_clients (host_client : ClientConfig R) (realm_clients : list (ClientConfig R)) : list (R * (nat * nat)) :=
  (client_ring_buffer host_client, mk_kicks SSRB_Host)
  :: imap (λ i realm, (client_ring_buffer realm, mk_kicks (SSRB_Realm (MkRealmId i)))) realm_clients.
(** Each thread waits for a notification and then sends an event to the server. *)
Definition serial_threads (irq_thread : Thread) (irq_nfn : Cap) (timer_thread : Thread) (timer_wait : Cap)
    (host_client : ClientConfig R) (realm_clients : list (ClientConfig R)) : list (Thread * (Cap * SerialEvent)) :=
  [(irq_thread, (irq_nfn, Interrupt)); (timer_thread, (timer_wait, Timeout))] ++
  imap (λ i client, (client_thread client, (client_wait client, Con i))) (host_client :: realm_clients).
End serial.

(** ** Every core is served *)
Lemma snd_secondary {A} (xs : list A) threads : (length xs ≤ S (length threads)) → snd <$> spawn_secondary xs threads = drop 1 xs.
Proof.
  intros Hl. unfold spawn_secondary. rewrite <-list_fmap_compose.
  rewrite (list_fmap_ext _ fst) by (by intros ? [? ?] ?). apply fst_zip. rewrite length_drop. lia.
Qed.
Lemma serve_all_eq {A} (x : A) xs threads : length xs ≤ length threads →
  ∃ runs, serve_all (x :: xs) threads = Ok runs ∧ snd <$> runs ≡ₚ x :: xs.
Proof.
  intros Hl. eexists. split; [reflexivity|]. rewrite fmap_app, snd_secondary by (simpl; lia). simpl. rewrite Permutation_app_comm. done.
Qed.

(** What is served is the list of all nodes with their endpoints, each once. *)
Lemma rs_cores_served ep eps threads : length eps ≤ length threads →
  ∃ runs, rs_main (ep :: eps) threads = Ok runs ∧ snd <$> runs ≡ₚ imap pair (ep :: eps).
Proof.
  intros Hl. destruct (serve_all_eq (0, ep) (imap (pair ∘ S) eps) threads) as (runs & Hr & Hp); [by rewrite length_imap|].
  exists runs. split; [|exact Hp]. rewrite <-Hr. reflexivity.
Qed.
Lemma es_cores_served irqs ep eps threads : length eps ≤ length threads →
  ∃ runs, es_main irqs (ep :: eps) threads = Ok runs ∧
    snd <$> runs ≡ₚ ((λ c, RunIRQThread (irq_thread_notification c) (irq_thread_irqs c)) <$> irqs) ++ (RunEndpoint <$> ep :: eps).
Proof.
  intros Hl. destruct (serve_all_eq (RunEndpoint ep) (RunEndpoint <$> eps) threads) as (runs & Hr & Hp); [by rewrite length_fmap|].
  unfold es_main. rewrite fmap_cons, Hr. eexists. split; [reflexivity|].
  rewrite fmap_app, <-list_fmap_compose. apply Permutation_app; [by apply reflexive_eq, list_fmap_ext|exact Hp].
Qed.
Lemma ts_cores_served ep eps h hs threads : length eps = length hs → length eps ≤ length threads →
  ∃ runs, ts_main (ep :: eps) (h :: hs) threads = Ok runs ∧ snd <$> runs ≡ₚ zip (ep :: eps) (h :: hs).
Proof.
  intros Hh Hl. eexists. split; [reflexivity|]. rewrite fmap_app, snd_secondary.
  - simpl. rewrite Permutation_app_comm. done.
  - simpl. rewrite length_zip_with. lia.
Qed.
(** [zip] stops with the shorter list: without threads, only the first core is served. *)
Lemma cores_left_over ep eps h hs :
  rs_main (ep :: eps) [] = Ok [(None, (0, ep))] ∧ ts_main (ep :: eps) (h :: hs) [] = Ok [(None, (ep, h))] ∧
  ts_main (ep :: eps) [h] [7%Z] = Ok [(None, (ep, h))].
Proof.
  unfold rs_main, ts_main, spawn_secondary. simpl. rewrite !drop_0. split_and!; [by destruct (imap _ eps)|by destruct (zip eps hs)|by destruct eps].
Qed.

(** ** The clients of the serial server *)

(** The ring buffer of a client, by its number. *)
Definition serial_client (i : nat) : SerialServerRingBuffer := match i with 0 => SSRB_Host | S i' => SSRB_Realm (MkRealmId i') end.

Lemma serial_clients_wired {R} it ic tt' tc (h : ClientConfig R) rs : length rs ≤ NUM_REALMS →
  length (serial_clients h rs) = S (length rs) ∧
  (∀ i, i < S (length rs) → ∃ c,
    serial_clients h rs !! i = Some (client_ring_buffer c, mk_kicks (serial_client i)) ∧
    from_nat (mk_kicks (serial_client i)).1 = Some (SSO_RingBuffer (serial_client i)) ∧
    (client_thread c, (client_wait c, Con i)) ∈ serial_threads it ic tt' tc h rs) ∧
  NoDup (snd <$> serial_clients h rs).
Proof.
  intros Hl. assert (∀ i, i < S (length rs) → valid_sso (SSO_RingBuffer (serial_client i))) as Hval.
  { intros [|i] Hi; simpl; [done|]. unfold valid_realm_id. lia. }
  assert (∀ i c, (h :: rs) !! i = Some c → serial_clients h rs !! i = Some (client_ring_buffer c, mk_kicks (serial_client i))) as Hlook.
  { intros [|i] c; simpl; [by intros [= ->]|]. intros Hc. by rewrite list_lookup_imap, Hc. }
  assert (length (serial_clients h rs) = S (length rs)) as Hlen by (simpl; by rewrite length_imap).
  split_and!; [done| |].
  - intros i Hi. destruct (lookup_lt_is_Some_2 (h :: rs) i Hi) as [c Hc]. exists c. split_and!.
    + by apply Hlook.
    + apply (from_to_nat (T := SerialServerOut) (valid := valid_sso)). by apply Hval.
    + apply elem_of_app. right. apply list_elem_of_lookup. exists i. by rewrite list_lookup_imap, Hc.
  - apply NoDup_alt. intros i j x. rewrite !list_lookup_fmap. intros Hi Hj.
    destruct (serial_clients h rs !! i) as [ci|] eqn:Hci; [|done]. destruct (serial_clients h rs !! j) as [cj|] eqn:Hcj; [|done].
    pose proof (lookup_lt_Some _ _ _ Hci) as Hli. pose proof (lookup_lt_Some _ _ _ Hcj) as Hlj. rewrite Hlen in Hli, Hlj.
    destruct (lookup_lt_is_Some_2 (h :: rs) i Hli) as [c1 Hc1]. destruct (lookup_lt_is_Some_2 (h :: rs) j Hlj) as [c2 Hc2].
    rewrite (Hlook i c1 Hc1) in Hci. rewrite (Hlook j c2 Hc2) in Hcj. simplify_eq. simpl in Hi, Hj. rewrite <-Hj in Hi.
    injection Hi as Hk. unfold mk_signal in Hk. apply (f_equal (from_nat (T := SerialServerOut))) in Hk.
    rewrite !(from_to_nat (T := SerialServerOut) (valid := valid_sso)) in Hk by by apply Hval. injection Hk as Hk.
    destruct i, j; simpl in Hk; congruence.
Qed.
