(* ===== verification/Bitfield.v ===== *)
(** * Bitfield: how the event server tells a client what has happened

    Model of [Bitfield] of [hypervisor/components/event-server/types/src/lib.rs] and of the
    two sides that use it: [InSpace::signal] of [event-server/src/server/impls.rs], which sets
    a bit of the shared memory and signals the notification of its group, and the event loop of
    the client ([vmm/core/src/vmm.rs]), which waits for the notification and clears the groups its badge
    names.  Notification [g] of a client has badge [1 << g] and seL4 accumulates the badges
    of signals not yet received.

    The two sides run concurrently: each atomic operation and each system call is a step.
    The log of a state is ghost: what has been raised and handled so far, latest first. *)

From S2P Require Import Prelude.
From S2P Require Import Biterate.

Definition GROUP_BITS : nat := 64.

(** [Bitfield::set]: the new memory, and whether the bit was clear.  [None] is an access
    outside the shared region. *)
Definition bitfield_set (groups : list Z) (bit : nat) : option (bool * list Z) :=
  let group_index := bit / GROUP_BITS in
  let member_index := bit mod GROUP_BITS in
  let member := Z.shiftl 1 (Z.of_nat member_index) in
  old ← groups !! group_index;
  Some (Z.eqb (Z.land old member) 0, <[group_index := Z.lor old member]> groups).

(** [swap(0)] on a group, with the bits the loop over its members visits. *)
Definition bitfield_swap (groups : list Z) (group_index : nat) : option (list nat * list Z) :=
  members ← groups !! group_index;
  Some ((λ m, group_index * GROUP_BITS + m) <$> biterate members, <[group_index := 0%Z]> groups).

(** [Bitfield::clear], without interleaving. *)
Fixpoint bitfield_clear_groups (groups : list Z) (l : list nat) : option (list nat * list Z) :=
  match l with
  | [] => Some ([], groups)
  | g :: l' =>
      p ← bitfield_swap groups g;
      q ← bitfield_clear_groups p.2 l';
      Some (p.1 ++ q.1, q.2)
  end.
Definition bitfield_clear (groups : list Z) (badge : Z) : option (list nat * list Z) :=
  bitfield_clear_groups groups (biterate badge).

(** ** The two sides *)

Inductive log_entry := Raised (bit : nat) | Handled (bit : nat).

Inductive server_pc :=
| ServerIdle
| ServerSignalling (group : nat). (* the bit was clear; [nfn[index / 64].signal()] is next *)

Inductive client_pc :=
| ClientWaiting
| ClientClearing (groups : list nat) (bits : list nat). (* groups to swap, bits to handle *)

Record event_channel := {
  groups : list Z;
  badge : Z;                    (* of the notification, 0 when none is pending *)
  server : server_pc;
  client : client_pc;
  log : list log_entry;
}.

Definition event_channel_new (n : nat) : event_channel :=
  {| groups := replicate n 0%Z; badge := 0; server := ServerIdle; client := ClientWaiting; log := [] |}.

(** [InSpace::signal], up to the system call. *)
Definition raise (c : event_channel) (bit : nat) : option event_channel :=
  '(b, gs) ← bitfield_set (groups c) bit;
  Some {| groups := gs; badge := badge c;
          server := if (b : bool) then ServerSignalling (bit / 64) else ServerIdle;
          client := client c; log := Raised bit :: log c |}.

(** The steps that finish what has been raised. *)
Inductive channel_run : event_channel → event_channel → Prop :=
| run_signal gs b g c l :
    channel_run {| groups := gs; badge := b; server := ServerSignalling g; client := c; log := l |}
      {| groups := gs; badge := Z.lor b (Z.shiftl 1 (Z.of_nat g)); server := ServerIdle; client := c; log := l |}
| run_recv gs b s l :
    b ≠ 0%Z →
    channel_run {| groups := gs; badge := b; server := s; client := ClientWaiting; log := l |}
      {| groups := gs; badge := 0; server := s; client := ClientClearing (biterate b) []; log := l |}
| run_swap gs b s g todo l bits gs' :
    bitfield_swap gs g = Some (bits, gs') →
    channel_run {| groups := gs; badge := b; server := s; client := ClientClearing (g :: todo) []; log := l |}
      {| groups := gs'; badge := b; server := s; client := ClientClearing todo bits; log := l |}
| run_handle gs b s todo bit bits l :
    channel_run {| groups := gs; badge := b; server := s; client := ClientClearing todo (bit :: bits); log := l |}
      {| groups := gs; badge := b; server := s; client := ClientClearing todo bits; log := Handled bit :: l |}
| run_done gs b s l :
    channel_run {| groups := gs; badge := b; server := s; client := ClientClearing [] []; log := l |}
      {| groups := gs; badge := b; server := s; client := ClientWaiting; log := l |}.

(** Or the server raises an event, under its lock: when it is idle. *)
Inductive channel_step c : event_channel → Prop :=
| step_run c' : channel_run c c' → channel_step c c'
| step_raise bit c' : server c = ServerIdle → raise c bit = Some c' → channel_step c c'.

Definition channel_reachable (n : nat) (c : event_channel) : Prop := rtc channel_step (event_channel_new n) c.

(** ** The invariant *)

(** The latest entry about a bit says that it was raised. *)
Fixpoint awaits (bit : nat) (l : list log_entry) : bool :=
  match l with
  | [] => false
  | Raised b :: l' => if decide (b = bit) then true else awaits bit l'
  | Handled b :: l' => if decide (b = bit) then false else awaits bit l'
  end.

Definition is_set (gs : list Z) (bit : nat) : Prop :=
  ∃ w, gs !! (bit / 64) = Some w ∧ Z.testbit w (Z.of_nat (bit mod 64)) = true.
Definition to_handle (c : client_pc) : list nat := match c with ClientClearing _ bits => bits | _ => [] end.
Definition to_swap (c : client_pc) : list nat := match c with ClientClearing gs _ => gs | _ => [] end.

Record channel_inv (n : nat) (c : event_channel) : Prop := {
  ci_length : length (groups c) = n;
  ci_words w : w ∈ groups c → is_u64 w;
  ci_badge : is_word (Z.of_nat n) (badge c);
  ci_server g : server c = ServerSignalling g → g < n;
  ci_swap g : g ∈ to_swap (client c) → g < n;
  (* what was raised last is still in memory or about to be handled *)
  ci_awaits bit : awaits bit (log c) = true → is_set (groups c) bit ∨ bit ∈ to_handle (client c);
  (* a group with a bit set will be looked at *)
  ci_groups g w : groups c !! g = Some w → w ≠ 0%Z →
    Z.testbit (badge c) (Z.of_nat g) = true ∨ server c = ServerSignalling g ∨ g ∈ to_swap (client c);
}.

Lemma bitfield_set_ok gs bit b gs' :
  (∀ w, w ∈ gs → is_u64 w) → bitfield_set gs bit = Some (b, gs') →
  ∃ old, gs !! (bit / 64) = Some old ∧
    gs' = <[bit / 64 := Z.lor old (Z.shiftl 1 (Z.of_nat (bit mod 64)))]> gs ∧
    (b = false → old ≠ 0%Z) ∧ is_u64 (Z.lor old (Z.shiftl 1 (Z.of_nat (bit mod 64)))).
Proof.
  unfold bitfield_set, GROUP_BITS. intros Hw. destruct (gs !! (bit / 64)) as [old|] eqn:Ho; simpl; [|done].
  intros [= <- <-]. exists old. split; [done|]. split; [done|]. split.
  - intros Hb ->. by rewrite Z.land_0_l in Hb.
  - apply is_word_lor; [lia| |].
    + apply Hw. by eapply list_elem_of_lookup_2.
    + pose proof (Nat.mod_upper_bound bit 64 ltac:(lia)). rewrite Z.shiftl_1_l. split; [apply Z.pow_nonneg; lia|].
      apply Z.pow_lt_mono_r; lia.
Qed.

Lemma testbit_shiftl_1 (m : nat) : Z.testbit (Z.shiftl 1 (Z.of_nat m)) (Z.of_nat m) = true.
Proof. rewrite Z.shiftl_spec by lia. by rewrite Z.sub_diag. Qed.

Lemma is_set_insert gs bit old g w :
  gs !! g = Some old → (∀ i, Z.testbit old i = true → Z.testbit w i = true) →
  is_set gs bit → is_set (<[g := w]> gs) bit.
Proof.
  intros Hg Hw (x & Hx & Hb). destruct (decide (bit / 64 = g)) as [<-|].
  - exists w. rewrite list_lookup_insert_eq by (by apply lookup_lt_Some in Hx).
    split; [done|]. apply Hw. congruence.
  - exists x. by rewrite list_lookup_insert_ne.
Qed.

Lemma raise_inv n c bit c' :
  server c = ServerIdle → raise c bit = Some c' → channel_inv n c → channel_inv n c'.
Proof.
  unfold raise. destruct (bitfield_set (groups c) bit) as [[b gs']|] eqn:Hs; simpl; [|done].
  intros Hidle [= <-] [H1 H2 H3 H4 H5 H6 H7].
  destruct (bitfield_set_ok _ _ _ _ H2 Hs) as (old & Ho & -> & Hb & Hw).
  pose proof (lookup_lt_Some _ _ _ Ho) as Hlt.
  split; simpl.
  - by rewrite length_insert.
  - intros w [i Hi]%list_elem_of_lookup. destruct (decide (i = bit / 64)) as [->|].
    + rewrite list_lookup_insert_eq in Hi by done. by simplify_eq.
    + rewrite list_lookup_insert_ne in Hi by done. apply H2. by eapply list_elem_of_lookup_2.
  - done.
  - intros g. destruct b; [|done]. intros [= <-]. lia.
  - done.
  - intros b'. case_decide as Hd; [subst b'|].
    + intros _. left. exists (Z.lor old (Z.shiftl 1 (Z.of_nat (bit mod 64)))).
      rewrite list_lookup_insert_eq by done. split; [done|]. rewrite Z.lor_spec, testbit_shiftl_1. apply orb_true_r.
    + intros [Hi|Hi]%H6; [left|by right]. eapply is_set_insert; [done| |done].
      intros i Hi'. by rewrite Z.lor_spec, Hi'.
  - intros g w Hg Hnz. destruct (decide (g = bit / 64)) as [->|].
    + destruct b; [by auto|]. destruct (H7 _ _ Ho (Hb eq_refl)) as [?|[?|?]]; [by auto|congruence|by auto].
    + rewrite list_lookup_insert_ne in Hg by done.
      destruct (H7 _ _ Hg Hnz) as [?|[?|?]]; [by auto|congruence|by auto].
Qed.

Lemma bitfield_swap_ok gs g bits gs' :
  (∀ w, w ∈ gs → is_u64 w) → bitfield_swap gs g = Some (bits, gs') →
  gs' = <[g := 0%Z]> gs ∧ g < length gs ∧ ∀ bit, bit / 64 = g → is_set gs bit → bit ∈ bits.
Proof.
  unfold bitfield_swap, GROUP_BITS. intros Hw. destruct (gs !! g) as [w|] eqn:Hg; simpl; [|done].
  intros [= <- <-]. split; [done|]. split; [by apply lookup_lt_Some in Hg|].
  intros bit <- (w' & Hw' & Hb). simplify_eq. apply list_elem_of_fmap. exists (bit mod 64).
  split; [pose proof (Nat.div_mod bit 64); lia|].
  apply (elem_of_biterate 64); [lia| |done]. apply Hw. by eapply list_elem_of_lookup_2.
Qed.

Lemma is_set_other gs bit g : bit / 64 ≠ g → is_set gs bit → is_set (<[g := 0%Z]> gs) bit.
Proof. intros Hne (w & Hw & Hb). exists w. by rewrite list_lookup_insert_ne. Qed.

Lemma run_inv n c c' : n ≤ 64 → channel_run c c' → channel_inv n c → channel_inv n c'.
Proof.
  intros Hn Hrun [H1 H2 H3 H4 H5 H6 H7].
  destruct Hrun as [gs b g c l|gs b s l Hb|gs b s g todo l bits gs' Hs|gs b s todo bit bits l|gs b s l];
    simpl in *.
  - assert (Hg : g < n) by auto. split; simpl; try done.
    + apply is_word_lor; [lia|done|]. rewrite Z.shiftl_1_l.
      split; [apply Z.pow_nonneg; lia|apply Z.pow_lt_mono_r; lia].
    + intros g' w Hw Hnz. rewrite Z.lor_spec.
      destruct (H7 g' w Hw Hnz) as [->|[[= <-]|?]]; [by auto|by rewrite testbit_shiftl_1, orb_true_r; auto|by auto].
  - split; simpl; try done.
    + unfold is_word. lia.
    + intros g Hg. apply (elem_of_biterate n) in Hg; [|done|done]. by eapply set_bit_below.
    + intros g w Hw Hnz. destruct (H7 g w Hw Hnz) as [?|[?|?%elem_of_nil]]; [right; right|by auto|done].
      by apply (elem_of_biterate n).
  - destruct (bitfield_swap_ok _ _ _ _ H2 Hs) as (-> & Hlt & Hbits). split; simpl; try done.
    + by rewrite length_insert.
    + intros w [i Hi]%list_elem_of_lookup. destruct (decide (i = g)) as [->|].
      * rewrite list_lookup_insert_eq in Hi by done. simplify_eq. unfold is_word. lia.
      * rewrite list_lookup_insert_ne in Hi by done. apply H2. by eapply list_elem_of_lookup_2.
    + intros g' Hg'. apply H5. by constructor.
    + intros bit' [Hi|?%elem_of_nil]%H6; [|done]. destruct (decide (bit' / 64 = g)) as [|Hne]; [by auto|].
      left. by apply is_set_other.
    + intros g' w Hw Hnz. destruct (decide (g' = g)) as [->|].
      * rewrite list_lookup_insert_eq in Hw by done. by simplify_eq.
      * rewrite list_lookup_insert_ne in Hw by done.
        destruct (H7 g' w Hw Hnz) as [?|[?|[?|?]%elem_of_cons]]; auto.
  - split; simpl; try done. intros bit'. case_decide as Hd; [done|].
    intros [?|[?|?]%elem_of_cons]%H6; [by auto|congruence|by auto].
  - by split.
Qed.

Lemma channel_new_inv n : channel_inv n (event_channel_new n).
Proof.
  split; simpl; try done.
  - apply length_replicate.
  - intros w [-> _]%elem_of_replicate. unfold is_word. lia.
  - unfold is_word. split; [lia|]. apply Z.pow_pos_nonneg; lia.
  - by intros g ?%elem_of_nil.
  - intros g w [-> _]%lookup_replicate. done.
Qed.

Lemma channel_reachable_inv n c : n ≤ 64 → channel_reachable n c → channel_inv n c.
Proof.
  intros Hn Hr. pose proof (channel_new_inv n) as Hinv. unfold channel_reachable in Hr.
  induction Hr as [|c1 c2 c3 Hs _ IH]; [done|]. apply IH. destruct Hs as [c' Hrun|bit c' Hi Hrs].
  - by eapply run_inv.
  - by eapply raise_inv.
Qed.

(** ** Draining *)

Definition quiescent (c : event_channel) : Prop :=
  server c = ServerIdle ∧ client c = ClientWaiting ∧ badge c = 0%Z.

Lemma quiescent_handled n c bit : channel_inv n c → quiescent c → awaits bit (log c) = false.
Proof.
  intros Hinv (Hs & Hc & Hb). destruct (awaits bit (log c)) eqn:Ha; [|done].
  destruct (ci_awaits n c Hinv bit Ha) as [(w & Hw & Ht)|Hin]; [|rewrite Hc in Hin; by apply elem_of_nil in Hin].
  destruct (ci_groups n c Hinv _ _ Hw) as [Hg|[Hg|Hg]].
  - intros ->. by rewrite Z.testbit_0_l in Ht.
  - by rewrite Hb, Z.testbit_0_l in Hg.
  - congruence.
  - rewrite Hc in Hg. by apply elem_of_nil in Hg.
Qed.

Lemma run_steps_inv n c c' : n ≤ 64 → rtc channel_run c c' → channel_inv n c → channel_inv n c'.
Proof. intros Hn. induction 1; [done|]. eauto using run_inv. Qed.

Lemma biterate_length z : length (biterate z) ≤ 64.
Proof.
  unfold biterate. generalize 64 as fuel. intros fuel. revert z.
  induction fuel as [|fuel IH]; intros z; simpl; [lia|].
  unfold biterator_next. destruct (Z.eqb z 0); simpl; [lia|]. specialize (IH (Z.lxor z (Z.shiftl 1 (Z.of_nat (trailing_zeros z))))). lia.
Qed.

(** What is left to do, at most: a notification names 64 groups, and a group holds 64 bits. *)
Definition client_work (c : client_pc) : nat :=
  match c with ClientWaiting => 0 | ClientClearing todo bits => 1 + 65 * length todo + length bits end.
Definition badge_work (b : Z) : nat := if decide (b = 0%Z) then 0 else 2 + 65 * 64.
Definition server_work (s : server_pc) : nat :=
  match s with ServerIdle => 0 | ServerSignalling _ => 3 + 65 * 64 end.
Definition channel_work (c : event_channel) : nat :=
  client_work (client c) + badge_work (badge c) + server_work (server c).

Lemma badge_work_le b : badge_work b ≤ 2 + 65 * 64.
Proof. unfold badge_work. case_decide; lia. Qed.

Lemma run_work c c' : channel_run c c' → channel_work c' < channel_work c.
Proof.
  unfold channel_work. destruct 1 as [gs b g c l|gs b s l Hb|gs b s g todo l bits gs' Hs|gs b s todo bit bits l|gs b s l];
    cbn [client badge server client_work server_work length].
  - pose proof (badge_work_le (Z.lor b (Z.shiftl 1 (Z.of_nat g)))). lia.
  - pose proof (biterate_length b). unfold badge_work. rewrite decide_True, decide_False by done. lia.
  - unfold bitfield_swap in Hs. destruct (gs !! g) as [w|]; simplify_eq/=.
    rewrite length_fmap. pose proof (biterate_length w). lia.
  - lia.
  - lia.
Qed.

(** A step can be made unless the channel is at rest: a group that the client was told of can
    be swapped. *)
Lemma run_progress n c : channel_inv n c → red channel_run c ∨ quiescent c.
Proof.
  intros Hinv. destruct c as [gs b [|g] [|todo bits] l]; try (left; eexists; by apply run_signal).
  - destruct (decide (b = 0%Z)) as [->|Hb]; [by right|]. left. eexists. by apply run_recv.
  - left. destruct bits as [|bit bits]; [|eexists; by apply run_handle].
    destruct todo as [|g todo]; [eexists; by apply run_done|].
    destruct (lookup_lt_is_Some_2 gs g) as [w Hw].
    { pose proof (ci_length n _ Hinv) as Hlen. simpl in Hlen. rewrite Hlen. apply (ci_swap n _ Hinv). by constructor. }
    eexists. apply run_swap. unfold bitfield_swap. by rewrite Hw.
Qed.

(** So the steps, which end, lead to rest. *)
Lemma drain n c :
  n ≤ 64 → channel_inv n c → ∃ c', rtc channel_run c c' ∧ quiescent c'.
Proof.
  intros Hn. induction (measure_sn _ channel_work run_work c) as [c _ IH]. intros Hinv.
  assert (red channel_run c ∨ quiescent c) as [[c1 Hs]|Hq] by (by eapply run_progress).
  - destruct (IH c1 Hs) as (c' & Hr & Hq); [by eapply run_inv|]. exists c'. split; [by eapply rtc_l|done].
  - by exists c.
Qed.

(** C21: No event is lost between the server and a client, whatever the interleaving.  From
    every reachable state, every run of the steps already under way ends, in whatever order they
    are made; it stops only in a state at rest (no signal to
    make, the client waiting, no notification pending), in which each event that was raised
    has been handled since it was last raised.  Such a state is reached; and in every reachable
    state at rest, also one in between, each event has been handled.  [n] is the number
    of groups, of which a badge can name 64. *)
Theorem bitfield_no_lost_event n c :
  n ≤ 64 → channel_reachable n c →
  sn channel_run c ∧
  (∀ c', rtc channel_run c c' → nf channel_run c' →
    quiescent c' ∧ ∀ bit, awaits bit (log c') = false) ∧
  (∃ c', rtc channel_run c c' ∧ quiescent c') ∧
  (quiescent c → ∀ bit, awaits bit (log c) = false).
Proof.
  intros Hn Hinv%channel_reachable_inv; [|done].
  split; [apply (measure_sn _ channel_work), run_work|]. split.
  { intros c' Hr Hnf. assert (channel_inv n c') as Hinv' by (by eapply run_steps_inv).
    assert (quiescent c') by (by destruct (run_progress n c')). split; [done|]. intros bit. by apply (quiescent_handled n). }
  split; [by apply (drain n)|]. intros Hq bit. by apply (quiescent_handled n).
Qed.

Lemma bitfield_no_lost_event_witness :
  ∃ c, channel_reachable 2 c ∧ awaits 65 (log c) = true ∧ sn channel_run c ∧
    (∃ c', rtc channel_run c c' ∧ quiescent c').
Proof.
  exists {| groups := [0; 2]%Z; badge := 0; server := ServerSignalling 1; client := ClientWaiting; log := [Raised 65] |}.
  assert (channel_reachable 2 {| groups := [0; 2]%Z; badge := 0; server := ServerSignalling 1; client := ClientWaiting; log := [Raised 65] |}) as H.
  { apply rtc_once. apply (step_raise _ 65); vm_compute; reflexivity. }
  split; [exact H|]. split; [reflexivity|].
  destruct (bitfield_no_lost_event 2 _ ltac:(lia) H) as (H1 & _ & H2 & _). by split.
Defined.
