(* ===== verification/EventServer.v ===== *)
(** * EventServer: routing of events between the host, the realms and the servers

    Model of [hypervisor/components/event-server/src]: [server/mod.rs] (data), [server/impls.rs]
    (operations), [server/init.rs] (the wiring at start) and [main.rs] (dispatch).

    The program shares events, input spaces and subscription slots through
    [Arc<RefCell<_>>]; here they live in two heaps and are named by their position in it.
    A slot belongs to one input space, so a reference to a slot is that space.  A
    [borrow_mut] of a space that is borrowed already panics: signalling carries the list of
    spaces it has borrowed.

    Notifications, interrupt handlers and the addresses of bitfields are numbers.  What the
    server asks of the kernel goes to a log; [kernel] says which of the calls that can
    fail do not. *)

From S2P Require Import Prelude.
From S2P Require Import FiniteSet.
From S2P Require Import EventTypes.
From S2P Require Import Biterate.
From S2P Require Import Bitfield.

Abbreviation EventRef := nat.
Abbreviation InSpaceRef := nat.
Abbreviation Notification := nat.
Abbreviation IRQHandler := nat.

Record EventIRQ := { handler : IRQHandler; irq_notifications : list Notification }.
Record Event := { target : option (InSpaceRef * nat); irq : option EventIRQ }.
Record InSpaceEntry := { event : EventRef; enabled : bool }.
Record ClientNode := { nfn : list Notification; bitfield : nat }.
Inductive Subscriber := SubEvent (e : EventRef) | SubNotification (n : Notification).
Record InSpace := {
  entries : list (option InSpaceEntry);
  notification : ClientNode;
  subscription_slot : option Subscriber;
}.
Record Client := { out_space : list EventRef; in_spaces : list InSpaceRef }.
Record SubscriptionEntry := { subscriber : Subscriber; slot : option InSpaceRef }.
Record InactiveRealm := {
  realm_out_space : list EventRef;
  in_notifications : list ClientNode;
  in_entries : list (option EventRef);
}.

(** System calls. *)
Inductive Action :=
| Signal (n : Notification)
| Ack (h : IRQHandler)
| SetNotification (h : IRQHandler) (n : Notification).
#[global] Instance action_eq_dec : EqDecision Action.
Proof. solve_decision. Defined.

Record EventServer := {
  events : list Event;
  spaces : list InSpace;
  memory : gmap nat (list Z);
  actions : list Action;
  resource_server : Client;
  serial_server : Client;
  host : Client;
  realms : gmap nat Client;
  inactive_realms : gmap nat InactiveRealm;
  resource_server_subscriptions : list SubscriptionEntry;
  host_subscriptions : list SubscriptionEntry;
  irq_events : gmap nat EventRef;
}.

(** ** Updates of the state *)

Definition set_events (f : list Event → list Event) (s : EventServer) : EventServer :=
  {| events := f (events s); spaces := spaces s; memory := memory s; actions := actions s;
     resource_server := resource_server s; serial_server := serial_server s; host := host s;
     realms := realms s; inactive_realms := inactive_realms s;
     resource_server_subscriptions := resource_server_subscriptions s;
     host_subscriptions := host_subscriptions s; irq_events := irq_events s |}.
Definition set_spaces (f : list InSpace → list InSpace) (s : EventServer) : EventServer :=
  {| events := events s; spaces := f (spaces s); memory := memory s; actions := actions s;
     resource_server := resource_server s; serial_server := serial_server s; host := host s;
     realms := realms s; inactive_realms := inactive_realms s;
     resource_server_subscriptions := resource_server_subscriptions s;
     host_subscriptions := host_subscriptions s; irq_events := irq_events s |}.
Definition set_memory (f : gmap nat (list Z) → gmap nat (list Z)) (s : EventServer) : EventServer :=
  {| events := events s; spaces := spaces s; memory := f (memory s); actions := actions s;
     resource_server := resource_server s; serial_server := serial_server s; host := host s;
     realms := realms s; inactive_realms := inactive_realms s;
     resource_server_subscriptions := resource_server_subscriptions s;
     host_subscriptions := host_subscriptions s; irq_events := irq_events s |}.
Definition set_actions (f : list Action → list Action) (s : EventServer) : EventServer :=
  {| events := events s; spaces := spaces s; memory := memory s; actions := f (actions s);
     resource_server := resource_server s; serial_server := serial_server s; host := host s;
     realms := realms s; inactive_realms := inactive_realms s;
     resource_server_subscriptions := resource_server_subscriptions s;
     host_subscriptions := host_subscriptions s; irq_events := irq_events s |}.
Definition set_realms (f : gmap nat Client → gmap nat Client) (s : EventServer) : EventServer :=
  {| events := events s; spaces := spaces s; memory := memory s; actions := actions s;
     resource_server := resource_server s; serial_server := serial_server s; host := host s;
     realms := f (realms s); inactive_realms := inactive_realms s;
     resource_server_subscriptions := resource_server_subscriptions s;
     host_subscriptions := host_subscriptions s; irq_events := irq_events s |}.
Definition set_rs_subscriptions (f : list SubscriptionEntry → list SubscriptionEntry) (s : EventServer) : EventServer :=
  {| events := events s; spaces := spaces s; memory := memory s; actions := actions s;
     resource_server := resource_server s; serial_server := serial_server s; host := host s;
     realms := realms s; inactive_realms := inactive_realms s;
     resource_server_subscriptions := f (resource_server_subscriptions s);
     host_subscriptions := host_subscriptions s; irq_events := irq_events s |}.
Definition set_host_subscriptions (f : list SubscriptionEntry → list SubscriptionEntry) (s : EventServer) : EventServer :=
  {| events := events s; spaces := spaces s; memory := memory s; actions := actions s;
     resource_server := resource_server s; serial_server := serial_server s; host := host s;
     realms := realms s; inactive_realms := inactive_realms s;
     resource_server_subscriptions := resource_server_subscriptions s;
     host_subscriptions := f (host_subscriptions s); irq_events := irq_events s |}.

Definition set_target (t : option (InSpaceRef * nat)) (e : Event) : Event :=
  {| target := t; irq := irq e |}.
Definition set_entries (f : list (option InSpaceEntry) → list (option InSpaceEntry)) (sp : InSpace) : InSpace :=
  {| entries := f (entries sp); notification := notification sp; subscription_slot := subscription_slot sp |}.
Definition set_slot (x : option Subscriber) (sp : InSpace) : InSpace :=
  {| entries := entries sp; notification := notification sp; subscription_slot := x |}.
Definition set_sub_slot (x : option InSpaceRef) (e : SubscriptionEntry) : SubscriptionEntry :=
  {| subscriber := subscriber e; slot := x |}.

Definition is_none {A} (o : option A) : bool := match o with None => true | Some _ => false end.

Section event_server.
Context (kernel : Action → bool).
Abbreviation ESM := (M EventServer unit).

Definition get_event (e : EventRef) : ESM Event := reads (λ s, index (events s) e).
Definition get_space (i : InSpaceRef) : ESM InSpace := reads (λ s, index (spaces s) i).
Definition act (a : Action) : ESM unit := modify (set_actions (λ l, l ++ [a])).
(** A call that returns a [Result]. *)
Definition try_act (a : Action) : ESM unit := act a;; if kernel a then mret tt else throw tt.

(** [bitfield.set(index)] on shared memory. *)
Definition set_bit (addr bit : nat) : ESM bool :=
  groups ← reads (λ s, unwrap (memory s !! addr));
  p ← lift (unwrap (bitfield_set groups bit));
  modify (set_memory (<[addr := p.2]>));;
  mret p.1.

(** ** Signals *)

(** [Event::signal], with the [InSpace::signal], [notify_subscriber] and [Subscriber::signal]
    it leads to.  Each round borrows another space, so one more than the number of spaces is
    enough fuel. *)
Fixpoint signal_event (fuel : nat) (borrowed : list InSpaceRef) (e : EventRef) : ESM unit :=
  match fuel with
  | 0 => panic
  | S fuel' =>
      ev ← get_event e;
      match target ev with
      | None => mret tt
      | Some (i, idx) =>
          assert_ (negb (bool_decide (i ∈ borrowed)));;
          sp ← get_space i;
          entry ← lift (index (entries sp) idx);
          assert_ (negb (is_none entry));;
          new ← set_bit (bitfield (notification sp)) idx;
          if (new : bool) then
            n ← lift (index (nfn (notification sp)) (idx / 64));
            act (Signal n);;
            modify (set_spaces (alter (set_slot None) i));;
            match subscription_slot sp with
            | None => mret tt
            | Some (SubEvent e') => signal_event fuel' (i :: borrowed) e'
            | Some (SubNotification n') => act (Signal n')
            end
          else mret tt
      end
  end.
Definition signal (e : EventRef) : ESM unit := λ s, signal_event (S (length (spaces s))) [] e s.

(** [Event::connect] and [disconnect]. *)
Definition connect (e : EventRef) (i : InSpaceRef) (in_index : nat) : ESM unit :=
  sp ← get_space i;
  entry ← lift (index (entries sp) in_index);
  assert_ (is_none entry);;
  ev ← get_event e;
  assert_ (is_none (target ev));;
  modify (set_spaces (alter (set_entries (<[in_index := Some {| event := e; enabled := true |}]>)) i));;
  modify (set_events (alter (set_target (Some (i, in_index))) e)).
Definition disconnect (e : EventRef) : ESM unit := modify (set_events (alter (set_target None) e)).

(** ** Clients *)

Definition client_sev (c : Client) (nid : nat) : ESM unit := panic.
Definition client_poll (c : Client) (nid : nat) : ESM unit := panic.
Definition client_signal (c : Client) (i : nat) : ESM unit := e ← lift (index (out_space c) i); signal e.

(** [self.in_spaces[nid]] and its entry [index], which is there. *)
Definition client_entry (c : Client) (nid idx : nat) : ESM (InSpaceRef * InSpaceEntry) :=
  i ← lift (index (in_spaces c) nid);
  sp ← get_space i;
  entry ← lift (index (entries sp) idx);
  x ← lift (unwrap entry);
  mret (i, x).

Definition client_end (c : Client) (nid idx : nat) : ESM unit :=
  p ← client_entry c nid idx;
  ev ← get_event (event p.2);
  match irq ev with
  | Some q => try_act (Ack (handler q))
  | None => panic
  end.

Inductive ConfigureAction := SetEnabled (b : bool) | SetPriority (p : nat).

Definition client_configure (c : Client) (nid idx : nat) (action : ConfigureAction) : ESM unit :=
  p ← client_entry c nid idx;
  match action with
  | SetPriority _ => panic
  | SetEnabled b =>
      modify (set_spaces (alter (set_entries
        (<[idx := Some {| event := event p.2; enabled := b |}]>)) p.1))
  end.

(** [core::mem::swap(&mut tmp, &mut in_spaces[nid].entries[index])]: returns the new [tmp]. *)
Definition swap_entry (c : Client) (nid idx : nat) (tmp : option InSpaceEntry) : ESM (option InSpaceEntry) :=
  i ← lift (index (in_spaces c) nid);
  sp ← get_space i;
  old ← lift (index (entries sp) idx);
  modify (set_spaces (alter (set_entries (<[idx := tmp]>)) i));;
  mret old.

Definition client_move (c : Client) (src_nid src_index dst_nid dst_index : nat) : ESM unit :=
  if decide ((src_nid, src_index) = (dst_nid, dst_index)) then mret tt else
  tmp1 ← swap_entry c src_nid src_index None;
  tmp2 ← swap_entry c dst_nid dst_index tmp1;
  swap_entry c src_nid src_index tmp2;;
  i ← lift (index (in_spaces c) dst_nid);
  sp ← get_space i;
  entry ← lift (index (entries sp) dst_index);
  match entry with
  | None => mret tt
  | Some x =>
      modify (set_events (alter (set_target (Some (i, dst_index))) (event x)));;
      ev ← get_event (event x);
      match irq ev with
      | None => mret tt
      | Some q =>
          n ← lift (index (irq_notifications q) dst_index);
          try_act (SetNotification (handler q) n)
      end
  end.

(** ** Realms *)

(** [(0..num_nodes).map(..)] of [create_client]: a new input space per node. *)
Definition new_space (node : ClientNode) (n : nat) : InSpace :=
  {| entries := replicate n None; notification := node; subscription_slot := None |}.

Fixpoint connect_entries (i : option InSpaceRef) (in_index : nat) (l : list (option EventRef)) : ESM unit :=
  match l with
  | [] => mret tt
  | None :: l' => connect_entries i (in_index + 1) l'
  | Some e :: l' =>
      sp ← lift (unwrap i);
      connect e sp in_index;; connect_entries i (in_index + 1) l'
  end.

Definition create_client (r : InactiveRealm) (num_nodes : nat) : ESM Client :=
  assert_ (num_nodes <=? length (in_notifications r));;
  n ← gets (λ s, length (spaces s));
  modify (set_spaces (λ l, l ++
    ((λ node, new_space node (CARDINALITY RealmIn)) <$> take num_nodes (in_notifications r))));;
  let client := {| out_space := realm_out_space r; in_spaces := seq n num_nodes |} in
  connect_entries (in_spaces client !! 0) 0 (in_entries r);;
  mret client.

Definition create_realm (rid num_nodes : nat) : ESM unit :=
  rs ← gets realms;
  assert_ (is_none (rs !! rid));;
  inactive ← reads (λ s, unwrap (inactive_realms s !! rid));
  client ← create_client inactive num_nodes;
  modify (set_realms (<[rid := client]>)).

Definition destroy_realm (rid : nat) : ESM unit :=
  rs ← gets realms;
  assert_ (negb (is_none (rs !! rid)));;
  modify (set_realms (delete rid));;
  inactive ← reads (λ s, unwrap (inactive_realms s !! rid));
  for_each (λ o, match o with Some e => disconnect e | None => mret tt end) (in_entries inactive).

(** ** Subscriptions *)

Definition host_subscribe (nid rid realm_nid : nat) : ESM unit :=
  client ← reads (λ s, unwrap (realms s !! rid));
  i ← lift (index (in_spaces client) realm_nid);
  sp ← get_space i;
  sub ← reads (λ s, index (host_subscriptions s) nid);
  modify (set_spaces (alter (set_slot (Some (subscriber sub))) i));;
  assert_ (is_none (subscription_slot sp));;
  assert_ (is_none (slot sub));;
  modify (set_host_subscriptions (alter (set_sub_slot (Some i)) nid)).

Definition resource_server_subscribe (nid host_nid : nat) : ESM unit :=
  client ← gets host;
  i ← lift (index (in_spaces client) host_nid);
  sp ← get_space i;
  sub ← reads (λ s, index (resource_server_subscriptions s) nid);
  modify (set_spaces (alter (set_slot (Some (subscriber sub))) i));;
  assert_ (is_none (subscription_slot sp));;
  assert_ (is_none (slot sub));;
  modify (set_rs_subscriptions (alter (set_sub_slot (Some i)) nid)).

Definition resource_server_unsubscribe (nid host_nid : nat) : ESM unit :=
  client ← gets host;
  i ← lift (index (in_spaces client) host_nid);
  sp ← get_space i;
  modify (set_spaces (alter (set_slot None) i));;
  sub ← reads (λ s, index (resource_server_subscriptions s) nid);
  modify (set_rs_subscriptions (alter (set_sub_slot None) nid)).

(** A round of [IRQThread::run]. *)
Definition irq_thread (irqs : list nat) (badge : Z) : ESM unit :=
  for_each (λ i,
    n ← lift (index irqs i);
    e ← reads (λ s, unwrap (irq_events s !! n));
    signal e) (biterate badge).

(** ** Dispatch *)

Inductive ClientId := IdResourceServer | IdSerialServer | IdHost | IdRealm (rid : nat).

Inductive ClientCall :=
| CallSignal (i : nat)
| CallSEV (nid : nat)
| CallPoll (nid : nat)
| CallEnd (nid i : nat)
| CallConfigure (nid i : nat) (action : ConfigureAction)
| CallMove (src_nid src_index dst_nid dst_index : nat).
Inductive ResourceServerCall :=
| RSSubscribe (nid host_nid : nat)
| RSUnsubscribe (nid host_nid : nat)
| RSCreateRealm (realm_id num_nodes : nat)
| RSDestroyRealm (realm_id : nat).
Inductive HostCall := HostSubscribe (nid realm_id realm_nid : nat).

(** A received message, by what the badge says it is; its payload is decoded by [postcard]. *)
Inductive Payload :=
| Register (mr0 : nat)
| OfClient (call : ClientCall)
| OfResourceServer (call : ResourceServerCall)
| OfHost (call : HostCall).

Record Badges := { client_badges : list ClientId; resource_server_badge : Z; host_badge : Z }.

Definition BADGE_TYPE_MASK : Z := Z.shiftl 3 11.
Definition BADGE_TYPE_CLIENT : Z := 3.
Definition BADGE_TYPE_CLIENT_OUT : Z := 2.
Definition BADGE_TYPE_CONTROL : Z := 1.

Definition client_of (id : ClientId) : ESM Client :=
  match id with
  | IdResourceServer => gets resource_server
  | IdSerialServer => gets serial_server
  | IdHost => gets host
  | IdRealm rid => reads (λ s, unwrap (realms s !! rid))
  end.

Definition handle_client (c : Client) (call : ClientCall) : ESM unit :=
  match call with
  | CallSignal i => client_signal c i
  | CallSEV nid => client_sev c nid
  | CallPoll nid => client_poll c nid
  | CallEnd nid i => client_end c nid i
  | CallConfigure nid i action => client_configure c nid i action
  | CallMove src_nid src_index dst_nid dst_index => client_move c src_nid src_index dst_nid dst_index
  end.

Definition handle_resource_server (call : ResourceServerCall) : ESM unit :=
  match call with
  | RSSubscribe nid host_nid => resource_server_subscribe nid host_nid
  | RSUnsubscribe nid host_nid => resource_server_unsubscribe nid host_nid
  | RSCreateRealm realm_id num_nodes => create_realm realm_id num_nodes
  | RSDestroyRealm realm_id => destroy_realm realm_id
  end.

(** One turn of [run].  A payload that is not what the badge announces does not decode. *)
Definition handle_message (badges : Badges) (badge : Z) (payload : Payload) : ESM unit :=
  let badge_type := Z.shiftr badge 11 in
  let badge_value := Z.land badge (word_not 64 BADGE_TYPE_MASK) in
  if Z.eqb badge_type BADGE_TYPE_CLIENT_OUT then
    match payload with
    | Register out_index =>
        id ← lift (index (client_badges badges) (Z.to_nat badge_value));
        client ← client_of id;
        client_signal client out_index
    | _ => panic
    end
  else if Z.eqb badge_type BADGE_TYPE_CLIENT then
    match payload with
    | OfClient call =>
        id ← lift (index (client_badges badges) (Z.to_nat badge_value));
        client ← client_of id;
        handle_client client call
    | _ => panic
    end
  else if Z.eqb badge_type BADGE_TYPE_CONTROL then
    if Z.eqb badge_value (resource_server_badge badges) then
      match payload with OfResourceServer call => handle_resource_server call | _ => panic end
    else if Z.eqb badge_value (host_badge badges) then
      match payload with OfHost (HostSubscribe nid rid realm_nid) => host_subscribe nid rid realm_nid | _ => panic end
    else panic
  else panic.

(** ** The wiring at start: [EventServerConfig::realize] *)

(** [irqs] is a map, in the order of its keys. *)
Record EventServerConfig := {
  host_notifications : list ClientNode;
  realm_notifications : list (list ClientNode);
  config_subscriptions : list Notification;
  irqs : list (nat * (IRQHandler * list Notification));
}.
Definition PRIMARY_HOST_NODE : nat := 0.

Definition set_inactive (f : gmap nat InactiveRealm → gmap nat InactiveRealm) (s : EventServer) : EventServer :=
  {| events := events s; spaces := spaces s; memory := memory s; actions := actions s;
     resource_server := resource_server s; serial_server := serial_server s; host := host s;
     realms := realms s; inactive_realms := f (inactive_realms s);
     resource_server_subscriptions := resource_server_subscriptions s;
     host_subscriptions := host_subscriptions s; irq_events := irq_events s |}.
Definition set_clients (rs ss h : Client) (s : EventServer) : EventServer :=
  {| events := events s; spaces := spaces s; memory := memory s; actions := actions s;
     resource_server := rs; serial_server := ss; host := h;
     realms := realms s; inactive_realms := inactive_realms s;
     resource_server_subscriptions := resource_server_subscriptions s;
     host_subscriptions := host_subscriptions s; irq_events := irq_events s |}.
Definition set_irq_events (f : gmap nat EventRef → gmap nat EventRef) (s : EventServer) : EventServer :=
  {| events := events s; spaces := spaces s; memory := memory s; actions := actions s;
     resource_server := resource_server s; serial_server := serial_server s; host := host s;
     realms := realms s; inactive_realms := inactive_realms s;
     resource_server_subscriptions := resource_server_subscriptions s;
     host_subscriptions := host_subscriptions s; irq_events := f (irq_events s) |}.

(** [for (i, x) in l.iter().enumerate()]. *)
Definition for_enumerate {B} (f : nat → B → ESM unit) (l : list B) : ESM unit :=
  for_each (λ p, f p.1 p.2) (imap pair l).

Definition alloc_event (ev : Event) : ESM EventRef :=
  n ← gets (λ s, length (events s)); modify (set_events (λ l, l ++ [ev]));; mret n.
Definition alloc_space (sp : InSpace) : ESM InSpaceRef :=
  n ← gets (λ s, length (spaces s)); modify (set_spaces (λ l, l ++ [sp]));; mret n.

Definition mk_out_space (n : nat) : ESM (list EventRef) :=
  k ← gets (λ s, length (events s));
  modify (set_events (λ l, l ++ replicate n {| target := None; irq := None |}));;
  mret (seq k n).

Fixpoint mk_host_spaces (nodes : list ClientNode) (node_index n : nat) : ESM (list InSpaceRef) :=
  match n with
  | 0 => mret []
  | S n' =>
      node ← lift (index nodes node_index);
      i ← alloc_space (new_space node (CARDINALITY HostIn));
      l ← mk_host_spaces nodes (node_index + 1) n';
      mret (i :: l)
  end.

(** [inactive_realms.get_mut(&realm_id).unwrap().in_entries[index] = Some(event)]. *)
Definition set_in_entry (rid idx : nat) (e : EventRef) : ESM unit :=
  r ← reads (λ s, unwrap (inactive_realms s !! rid));
  assert_ (idx <? length (in_entries r));;
  modify (set_inactive (<[rid := {| realm_out_space := realm_out_space r; in_notifications := in_notifications r;
    in_entries := <[idx := Some e]> (in_entries r) |}]>)).

Definition mk_inactive_realm (config : EventServerConfig) (rid : nat) : ESM unit :=
  out ← mk_out_space (CARDINALITY RealmOut);
  nodes ← lift (index (realm_notifications config) rid);
  modify (set_inactive (<[rid := {| realm_out_space := out; in_notifications := nodes;
    in_entries := replicate (CARDINALITY RealmIn) None |}]>)).

Definition wire_resource_server (primary : InSpaceRef) (out_index : nat) (e : EventRef) : ESM unit :=
  o ← lift (unwrap (from_nat out_index));
  match o with
  | RSO_HostRingBuffer => connect e primary (to_nat (HI_RingBuffer HRBI_ResourceServer))
  end.

Definition wire_serial_server (primary : InSpaceRef) (out_index : nat) (e : EventRef) : ESM unit :=
  o ← lift (unwrap (from_nat out_index));
  match o with
  | SSO_RingBuffer SSRB_Host => connect e primary (to_nat (HI_RingBuffer HRBI_SerialServer))
  | SSO_RingBuffer (SSRB_Realm (MkRealmId rid)) =>
      set_in_entry rid (to_nat (RI_RingBuffer RRBI_SerialServer)) e
  end.

Definition wire_host (out_index : nat) (e : EventRef) : ESM unit :=
  o ← lift (unwrap (from_nat out_index));
  match o with
  | HO_RingBuffer (HRBO_Realm (MkRealmId rid) b) => set_in_entry rid (to_nat (RI_RingBuffer (RRBI_Host b))) e
  end.

Definition wire_realm (primary : InSpaceRef) (rid : nat) (out_index : nat) (e : EventRef) : ESM unit :=
  o ← lift (unwrap (from_nat out_index));
  match o with
  | RO_RingBuffer (RRBO_Host b) =>
      r ← lift (unwrap (from_nat rid));
      connect e primary (to_nat (HI_RingBuffer (HRBI_Realm r b)))
  end.

Definition mk_host_subscription (i : InSpaceRef) : ESM unit :=
  e ← alloc_event {| target := None; irq := None |};
  connect e i (to_nat HI_RealmEvent);;
  modify (set_host_subscriptions (λ l, l ++ [{| subscriber := SubEvent e; slot := None |}])).

Definition mk_irq (primary : InSpaceRef) (p : nat * (IRQHandler * list Notification)) : ESM unit :=
  unwrap_result (try_act (Ack p.2.1));;
  e ← alloc_event {| target := None; irq := Some {| handler := p.2.1; irq_notifications := p.2.2 |} |};
  connect e primary (to_nat (HI_SPI (MkSPI p.1)));;
  modify (set_irq_events (<[p.1 := e]>)).

Definition realize (config : EventServerConfig) (num_active_cores : nat) : ESM unit :=
  rs ← mk_out_space (CARDINALITY ResourceServerOut);
  ss ← mk_out_space (CARDINALITY SerialServerOut);
  ho ← mk_out_space (CARDINALITY HostOut);
  hs ← mk_host_spaces (host_notifications config) 0 num_active_cores;
  modify (set_clients {| out_space := rs; in_spaces := [] |} {| out_space := ss; in_spaces := [] |}
    {| out_space := ho; in_spaces := hs |});;
  for_each (mk_inactive_realm config) (seq 0 NUM_REALMS);;
  for_enumerate (λ i e, p ← lift (index hs PRIMARY_HOST_NODE); wire_resource_server p i e) rs;;
  for_enumerate (λ i e, p ← lift (index hs PRIMARY_HOST_NODE); wire_serial_server p i e) ss;;
  for_enumerate wire_host ho;;
  for_each (λ rid,
    r ← reads (λ s, unwrap (inactive_realms s !! rid));
    for_enumerate (λ i e, p ← lift (index hs PRIMARY_HOST_NODE); wire_realm p rid i e) (realm_out_space r))
    (seq 0 NUM_REALMS);;
  modify (set_rs_subscriptions (λ _,
    (λ n, {| subscriber := SubNotification n; slot := None |}) <$> config_subscriptions config));;
  for_each mk_host_subscription hs;;
  for_each (λ q, p ← lift (index hs PRIMARY_HOST_NODE); mk_irq p q) (irqs config).
End event_server.

(** Before the start: nothing but the shared memory. *)
Definition event_server_empty (mem : gmap nat (list Z)) : EventServer :=
  {| events := []; spaces := []; memory := mem; actions := [];
     resource_server := {| out_space := []; in_spaces := [] |};
     serial_server := {| out_space := []; in_spaces := [] |};
     host := {| out_space := []; in_spaces := [] |}; realms := ∅; inactive_realms := ∅;
     resource_server_subscriptions := []; host_subscriptions := []; irq_events := ∅ |}.
