(* ===== verification/EventServerSpec.v ===== *)
(** * EventServerSpec: the wiring of the event server

    [wired] is the invariant of the event server.  Its heart is that an event with a target
    is the one the targeted entry holds, so that a signal finds its entry; and that the events
    the host subscribes with sit in spaces of the host, whose own subscribers are plain
    notifications, so that a chain of subscriptions ends and never comes back to a space
    that is borrowed.

    [realize] establishes it and every message that is handled without an error preserves it
    ([event_server_wired]), provided that events are only moved to free entries, or in place: [move_stale_target] shows what happens
    otherwise.  In a wired state signals are delivered ([signal_delivers]). *)

From S2P Require Import Prelude.
From S2P Require Import FiniteSet.
From S2P Require Import EventTypes.
From S2P Require Import Biterate.
From S2P Require Import Bitfield.
From S2P Require Import EventServer.

Abbreviation ESM := (M EventServer unit).

(** ** The invariant *)

(** A client node can signal the first [n] events. *)
Definition node_ok (mem : gmap nat (list Z)) (node : ClientNode) (n : nat) : Prop :=
  (∀ idx, idx < n → idx / 64 < length (nfn node)) ∧
  ∃ gs, mem !! bitfield node = Some gs ∧ ∀ idx, idx < n → idx / 64 < length gs.

(** Entry [idx] of space [i] holds [en]. *)
Definition entry_at (sps : list InSpace) (i idx : nat) : option InSpaceEntry :=
  sp ← sps !! i; mjoin (entries sp !! idx).

(** The heaps, given the spaces [H] of the host and the events [sub] it subscribes with. *)
Record heap_ok (evs : list Event) (sps : list InSpace) (mem : gmap nat (list Z))
    (H : list nat) (sub : EventRef → Prop) : Prop := {
  h_target e ev i idx : evs !! e = Some ev → target ev = Some (i, idx) →
    ∃ en, entry_at sps i idx = Some en ∧ event en = e;
  h_space i sp : sps !! i = Some sp → node_ok mem (notification sp) (length (entries sp));
  h_entry i idx en : entry_at sps i idx = Some en → event en < length evs;
  h_slot i sp e : sps !! i = Some sp → subscription_slot sp = Some (SubEvent e) → sub e ∧ i ∉ H;
  h_sub e : sub e → e < length evs;
  h_sub_entry i idx en : entry_at sps i idx = Some en → sub (event en) → i ∈ H;
}.

(** The events the host subscribes with. *)
Definition is_sub (s : EventServer) (e : EventRef) : Prop :=
  ∃ x, x ∈ host_subscriptions s ∧ subscriber x = SubEvent e.

Record refs_ok (s : EventServer) : Prop := {
  r_host i : i ∈ in_spaces (host s) → i < length (spaces s);
  r_realm r c i : realms s !! r = Some c → i ∈ in_spaces c → i < length (spaces s) ∧ i ∉ in_spaces (host s);
  r_servers : in_spaces (resource_server s) = [] ∧ in_spaces (serial_server s) = [];
  r_out e : e ∈ out_space (resource_server s) ++ out_space (serial_server s) ++ out_space (host s) →
    e < length (events s);
  r_realm_out r c e : realms s !! r = Some c → e ∈ out_space c → e < length (events s);
  r_inactive_out r x e : inactive_realms s !! r = Some x → e ∈ realm_out_space x → e < length (events s);
  r_inactive_in r x e : inactive_realms s !! r = Some x → Some e ∈ in_entries x →
    e < length (events s) ∧ ¬ is_sub s e;
  r_inactive_node r x node : inactive_realms s !! r = Some x → node ∈ in_notifications x →
    node_ok (memory s) node (CARDINALITY RealmIn);
  r_irq n e : irq_events s !! n = Some e → e < length (events s);
  r_rs_subs x : x ∈ resource_server_subscriptions s → ∃ n, subscriber x = SubNotification n;
}.

Record wired (s : EventServer) : Prop := {
  w_heap : heap_ok (events s) (spaces s) (memory s) (in_spaces (host s)) (is_sub s);
  w_refs : refs_ok s;
}.

(** ** Steps that keep the wiring *)

(** Memory keeps its shape. *)
Definition same_shape (m m' : gmap nat (list Z)) : Prop := ∀ a, length <$> m' !! a = length <$> m !! a.

Lemma node_ok_shape m m' node n : same_shape m m' → node_ok m node n → node_ok m' node n.
Proof.
  intros Hm [H1 (gs & Hg & H2)]. split; [done|]. specialize (Hm (bitfield node)). rewrite Hg in Hm.
  destruct (m' !! bitfield node) as [gs'|] eqn:Hg'; simpl in Hm; [|done]. injection Hm as Hm.
  exists gs'. split; [done|]. by rewrite Hm.
Qed.

Lemma same_shape_insert m a gs gs' :
  m !! a = Some gs → length gs' = length gs → same_shape m (<[a := gs']> m).
Proof.
  intros Ha Hl b. destruct (decide (b = a)) as [->|]; [|by rewrite lookup_insert_ne].
  rewrite lookup_insert_eq, Ha. simpl. by rewrite Hl.
Qed.

(** [calm s s']: nothing changes but the memory, the log and slots that become empty. *)
Record calm (s s' : EventServer) : Prop := {
  calm_events : events s' = events s;
  calm_length : length (spaces s') = length (spaces s);
  calm_spaces i sp' : spaces s' !! i = Some sp' → ∃ sp, spaces s !! i = Some sp ∧
    entries sp' = entries sp ∧ notification sp' = notification sp ∧
    (subscription_slot sp' = subscription_slot sp ∨ subscription_slot sp' = None);
  calm_memory : same_shape (memory s) (memory s');
  calm_rs : resource_server s' = resource_server s;
  calm_ss : serial_server s' = serial_server s;
  calm_host : host s' = host s;
  calm_realms : realms s' = realms s;
  calm_inactive : inactive_realms s' = inactive_realms s;
  calm_rs_subs : resource_server_subscriptions s' = resource_server_subscriptions s;
  calm_host_subs : host_subscriptions s' = host_subscriptions s;
  calm_irq : irq_events s' = irq_events s;
}.

Lemma calm_refl s : calm s s.
Proof. split; try done. naive_solver. Qed.
Lemma calm_trans s1 s2 s3 : calm s1 s2 → calm s2 s3 → calm s1 s3.
Proof.
  intros [A1 A2 A3 A4 A5 A6 A7 A8 A9 A10 A11 A12] [B1 B2 B3 B4 B5 B6 B7 B8 B9 B10 B11 B12].
  split; try congruence.
  intros i sp'' (sp' & Hsp' & ? & ? & ?)%B3. destruct (A3 i sp' Hsp') as (sp & ? & ? & ? & ?).
  exists sp. intuition congruence.
Qed.

Lemma calm_entry s s' i idx : calm s s' → entry_at (spaces s') i idx = entry_at (spaces s) i idx.
Proof.
  intros Hc. unfold entry_at. destruct (spaces s' !! i) as [sp'|] eqn:Hi; simpl.
  - destruct (calm_spaces _ _ Hc _ _ Hi) as (sp & -> & -> & _). done.
  - rewrite lookup_ge_None, (calm_length _ _ Hc), <-lookup_ge_None in Hi. by rewrite Hi.
Qed.

Lemma calm_wired s s' : calm s s' → wired s → wired s'.
Proof.
  intros Hc [[H1 H2 H3 H4 H5 H6] [R1 R2 R3 R4 R5 R6 R7 R8 R9 R10]].
  pose proof (λ i idx, calm_entry _ _ i idx Hc) as He.
  destruct Hc as [A1 A2 A3 A4 A5 A6 A7 A8 A9 A10 A11 A12].
  assert (Hsub : ∀ e, is_sub s' e ↔ is_sub s e) by (intros e; unfold is_sub; by rewrite A11).
  split; split; rewrite ?A1, ?A2, ?A5, ?A6, ?A7, ?A8, ?A9, ?A10, ?A12; try done.
  - intros e ev i idx Hev Ht. rewrite He. eauto.
  - intros i sp' (sp & Hsp & -> & -> & _)%A3. eapply node_ok_shape; [done|]. eauto.
  - intros i idx en. rewrite He. apply H3.
  - intros i sp' e (sp & Hsp & _ & _ & Hs)%A3 Hs'. rewrite Hsub. destruct Hs; [|congruence].
    apply (H4 i sp e); [done|congruence].
  - intros e. rewrite Hsub. apply H5.
  - intros i idx en. rewrite He, Hsub. apply H6.
  - intros r x e Hr Hx. rewrite Hsub. eauto.
  - intros r x node Hr Hx. eapply node_ok_shape; [done|]. eauto.
Qed.

(** ** Changes of the heaps *)

Lemma entry_at_Some sps i idx en :
  entry_at sps i idx = Some en ↔ ∃ sp, sps !! i = Some sp ∧ entries sp !! idx = Some (Some en).
Proof.
  unfold entry_at. destruct (sps !! i) as [sp|]; simpl.
  - destruct (entries sp !! idx) as [[en'|]|] eqn:He; simpl;
      (split; [intros ?; simplify_eq; eauto|intros (sp' & ? & ?); congruence]).
  - split; [done|]. intros (sp' & ? & ?). done.
Qed.

(** Writing one entry. *)
Definition write_entry (i idx : nat) (x : option InSpaceEntry) : list InSpace → list InSpace :=
  alter (set_entries (<[idx := x]>)) i.

Lemma entry_at_write sps i sp idx o x j k :
  sps !! i = Some sp → entries sp !! idx = Some o →
  entry_at (write_entry i idx x sps) j k = if decide (j = i ∧ k = idx) then x else entry_at sps j k.
Proof.
  intros Hi Ho. unfold entry_at, write_entry. destruct (decide (j = i)) as [->|].
  - rewrite list_lookup_alter_eq, Hi. simpl. case_decide as Hd.
    + destruct Hd as [_ ->]. rewrite list_lookup_insert_eq by (by eapply lookup_lt_Some). by destruct x.
    + rewrite list_lookup_insert_ne by naive_solver. done.
  - rewrite list_lookup_alter_ne by done. rewrite decide_False by naive_solver. done.
Qed.

(** What writing an entry leaves alone. *)
Lemma write_entry_frame sps i idx x j sp' :
  write_entry i idx x sps !! j = Some sp' →
  ∃ sp, sps !! j = Some sp ∧ notification sp' = notification sp ∧ subscription_slot sp' = subscription_slot sp ∧
    length (entries sp') = length (entries sp).
Proof.
  unfold write_entry. destruct (decide (j = i)) as [->|].
  - rewrite list_lookup_alter_eq. intros (sp & -> & ->)%fmap_Some_1. exists sp. simpl.
    by rewrite length_insert.
  - rewrite list_lookup_alter_ne by done. eauto.
Qed.

Lemma length_write_entry sps i idx x : length (write_entry i idx x sps) = length sps.
Proof. apply length_alter. Qed.

Section heap.
Context (mem : gmap nat (list Z)) (H : list nat) (sub : EventRef → Prop).
Abbreviation ok evs sps := (heap_ok evs sps mem H sub).

(** Writing an entry and retargeting events is fine when the targets still find theirs. *)
Lemma heap_write evs evs' sps i idx x :
  ok evs sps → length evs' = length evs →
  (∀ e ev j k, evs' !! e = Some ev → target ev = Some (j, k) →
    ∃ en, entry_at (write_entry i idx x sps) j k = Some en ∧ event en = e) →
  (∀ j k en, entry_at (write_entry i idx x sps) j k = Some en →
    event en < length evs ∧ (sub (event en) → j ∈ H)) →
  ok evs' (write_entry i idx x sps).
Proof.
  intros [H1 H2 H3 H4 H5 H6] Hlen Ht He. split.
  - done.
  - intros j sp' (sp & Hsp & -> & _ & ->)%write_entry_frame. eauto.
  - intros j k en Hen. rewrite Hlen. by eapply He.
  - intros j sp' e (sp & Hsp & _ & -> & _)%write_entry_frame. eauto.
  - intros e. rewrite Hlen. apply H5.
  - intros j k en Hen. by eapply He.
Qed.

Lemma lookup_set_target (evs : list Event) e t e' ev' :
  alter (set_target t) e evs !! e' = Some ev' →
  (e' = e ∧ target ev' = t) ∨ (e' ≠ e ∧ evs !! e' = Some ev').
Proof.
  destruct (decide (e' = e)) as [->|]; [|rewrite list_lookup_alter_ne by done; auto].
  rewrite list_lookup_alter_eq. intros (ev & _ & ->)%fmap_Some_1. auto.
Qed.

(** [connect]: a free entry, an event without a target. *)
Lemma heap_connect evs sps i sp idx e b :
  ok evs sps → sps !! i = Some sp → entries sp !! idx = Some None → e < length evs →
  (sub e → i ∈ H) →
  ok (alter (set_target (Some (i, idx))) e evs)
     (write_entry i idx (Some {| event := e; enabled := b |}) sps).
Proof.
  intros Hok Hi Hfree He Hsub. pose proof (entry_at_write sps i sp idx None (Some {| event := e; enabled := b |})) as Hw.
  assert (Hnone : entry_at sps i idx = None) by (unfold entry_at; by rewrite Hi; simpl; rewrite Hfree).
  apply (heap_write evs); [done|by rewrite length_alter| |].
  - intros e' ev' j k [[-> ->]|[Hne Hev]]%lookup_set_target Ht; rewrite Hw by done.
    + injection Ht as <- <-. rewrite decide_True by done. by eexists.
    + destruct (h_target _ _ _ _ _ Hok _ _ _ _ Hev Ht) as (en & Hen & Hee).
      rewrite decide_False; [eauto|]. intros [-> ->]. congruence.
  - intros j k en. rewrite Hw by done. case_decide as Hd.
    + intros [= <-]. destruct Hd as [-> ->]. done.
    + intros Hen. split; [by eapply h_entry|by eapply h_sub_entry].
Qed.

Lemma heap_disconnect evs sps e : ok evs sps → ok (alter (set_target None) e evs) sps.
Proof.
  intros [H1 H2 H3 H4 H5 H6]. split; try done.
  - intros e' ev' j k [[_ ->]|[_ Hev]]%lookup_set_target Ht; [done|]. eauto.
  - intros j k en. rewrite length_alter. apply H3.
  - intros e'. rewrite length_alter. apply H5.
Qed.

(** Changing only the flag of an entry. *)
Lemma heap_configure evs sps i idx en b :
  ok evs sps → entry_at sps i idx = Some en →
  ok evs (write_entry i idx (Some {| event := event en; enabled := b |}) sps).
Proof.
  intros Hok Hen. destruct (proj1 (entry_at_Some _ _ _ _) Hen) as (sp & Hi & Ho).
  pose proof (entry_at_write sps i sp idx (Some en) (Some {| event := event en; enabled := b |})) as Hw.
  apply (heap_write evs); [done|done| |].
  - intros e ev j k Hev Ht. rewrite Hw by done.
    destruct (h_target _ _ _ _ _ Hok _ _ _ _ Hev Ht) as (en' & Hen' & He). case_decide as Hd; [|eauto].
    destruct Hd as [-> ->]. eexists. split; [done|]. simpl. congruence.
  - intros j k en'. rewrite Hw by done. case_decide as Hd.
    + intros [= <-]. destruct Hd as [-> ->]. simpl. split; [by eapply h_entry|by eapply h_sub_entry].
    + intros He. split; [by eapply h_entry|by eapply h_sub_entry].
Qed.

(** Moving an entry to a free one, with its event. *)
Lemma heap_move evs sps i idx en j sp k :
  ok evs sps → entry_at sps i idx = Some en → sps !! j = Some sp → entries sp !! k = Some None →
  (i ∈ H → j ∈ H) →
  ok (alter (set_target (Some (j, k))) (event en) evs)
     (write_entry i idx None (write_entry j k (Some en) sps)).
Proof.
  intros Hok Hen Hj Hfree Hij. destruct (proj1 (entry_at_Some _ _ _ _) Hen) as (spi & Hi & Ho).
  assert (Hne : ¬ (i = j ∧ idx = k)) by (intros [-> ->]; congruence).
  assert (Hw : ∀ a b, entry_at (write_entry i idx None (write_entry j k (Some en) sps)) a b =
    if decide (a = i ∧ b = idx) then None else if decide (a = j ∧ b = k) then Some en else entry_at sps a b).
  { intros a b. destruct (proj1 (entry_at_Some (write_entry j k (Some en) sps) i idx en)) as (spi' & Hi' & Ho').
    - rewrite (entry_at_write sps j sp k None) by done. by rewrite decide_False.
    - rewrite (entry_at_write _ i spi' idx (Some en)) by done. case_decide; [done|].
      by rewrite (entry_at_write sps j sp k None) by done. }
  assert (Hnone : entry_at sps j k = None) by (unfold entry_at; by rewrite Hj; simpl; rewrite Hfree).
  assert (Hbase : ok evs sps) by done. destruct Hbase as [H1 H2 H3 H4 H5 H6]. split.
  - intros e ev a b [[-> ->]|[Hne' Hev]]%lookup_set_target Ht; rewrite Hw.
    + injection Ht as <- <-. rewrite decide_False by naive_solver. rewrite decide_True by done. eauto.
    + destruct (H1 _ _ _ _ Hev Ht) as (en' & Hen' & He').
      rewrite !decide_False; [eauto| |]; intros [-> ->]; congruence.
  - intros a sp' (sp1 & (sp2 & Hsp2 & E1 & _ & E2)%write_entry_frame & -> & _ & ->)%write_entry_frame.
    rewrite E1, E2. eauto.
  - intros a b en'. rewrite length_alter, Hw. repeat case_decide; [done| |apply H3]. intros [= <-]. by eapply H3.
  - intros a sp' e (sp1 & (sp2 & Hsp2 & _ & E1 & _)%write_entry_frame & _ & -> & _)%write_entry_frame. rewrite E1. eauto.
  - intros e. rewrite length_alter. apply H5.
  - intros a b en'. rewrite Hw. case_decide; [done|]. case_decide as Hd; [|apply H6].
    intros [= <-] Hs. destruct Hd as [-> ->]. eauto.
Qed.

(** New events and new spaces. *)
Lemma heap_alloc_events evs sps n q :
  ok evs sps → ok (evs ++ replicate n {| target := None; irq := q |}) sps.
Proof.
  intros [H1 H2 H3 H4 H5 H6]. split; try done.
  - intros e ev i idx [He|[_ He]]%lookup_app_Some Ht; [eauto|].
    apply lookup_replicate in He as [-> _]. done.
  - intros i idx en ?%H3. rewrite length_app. lia.
  - intros e ?%H5. rewrite length_app. lia.
Qed.

Lemma entry_at_alloc sps nodes n i idx :
  entry_at (sps ++ ((λ node, new_space node n) <$> nodes)) i idx = entry_at sps i idx.
Proof.
  unfold entry_at. destruct (decide (i < length sps)) as [Hi|Hi]; [by rewrite lookup_app_l|].
  rewrite (lookup_ge_None_2 sps) by lia. simpl. rewrite lookup_app_r, list_lookup_fmap by lia.
  destruct (nodes !! _) as [node|]; simpl; [|done].
  destruct (replicate n (None : option InSpaceEntry) !! idx) as [o|] eqn:Ho; [|done].
  apply lookup_replicate in Ho as [-> _]. done.
Qed.

Lemma heap_alloc_spaces evs sps nodes n :
  ok evs sps → (∀ node, node ∈ nodes → node_ok mem node n) →
  ok evs (sps ++ ((λ node, new_space node n) <$> nodes)).
Proof.
  intros [H1 H2 H3 H4 H5 H6] Hn.
  assert (Hnew : ∀ i sp, (sps ++ ((λ node, new_space node n) <$> nodes)) !! i = Some sp →
    sps !! i = Some sp ∨ ∃ node, node ∈ nodes ∧ sp = new_space node n).
  { intros i sp [?|[_ Hi]]%lookup_app_Some; [by left|]. right. rewrite list_lookup_fmap in Hi.
    apply fmap_Some_1 in Hi as (node & Hnode & ->). exists node. split; [|done]. by eapply list_elem_of_lookup_2. }
  split; try done.
  - intros e ev i idx Hev Ht. rewrite entry_at_alloc. eauto.
  - intros i sp [?|(node & Hnode & ->)]%Hnew; [eauto|]. simpl. rewrite length_replicate. by apply Hn.
  - intros i idx en. rewrite entry_at_alloc. apply H3.
  - intros i sp e [?|(node & Hnode & ->)]%Hnew; [eauto|done].
  - intros i idx en. rewrite entry_at_alloc. apply H6.
Qed.

(** Subscribing. *)
Lemma heap_set_slot evs sps i x :
  ok evs sps → (∀ e, x = Some (SubEvent e) → sub e ∧ i ∉ H) → ok evs (alter (set_slot x) i sps).
Proof.
  intros [H1 H2 H3 H4 H5 H6] Hx.
  assert (He : ∀ j k, entry_at (alter (set_slot x) i sps) j k = entry_at sps j k).
  { intros j k. unfold entry_at. destruct (decide (j = i)) as [->|]; [|by rewrite list_lookup_alter_ne].
    rewrite list_lookup_alter_eq. by destruct (sps !! i). }
  assert (Hsp : ∀ j sp', alter (set_slot x) i sps !! j = Some sp' → ∃ sp, sps !! j = Some sp ∧
    entries sp' = entries sp ∧ notification sp' = notification sp ∧
    (subscription_slot sp' = subscription_slot sp ∨ (j = i ∧ subscription_slot sp' = x))).
  { intros j sp'. destruct (decide (j = i)) as [->|]; [|rewrite list_lookup_alter_ne by done; naive_solver].
    rewrite list_lookup_alter_eq. intros (sp & -> & ->)%fmap_Some_1. exists sp. simpl. auto 10. }
  split; try done.
  - intros e ev j k Hev Ht. rewrite He. eauto.
  - intros j sp' (sp & Hs & -> & -> & _)%Hsp. eauto.
  - intros j k en. rewrite He. apply H3.
  - intros j sp' e (sp & Hs & _ & _ & [Ho|[-> Ho]])%Hsp Hs'; [apply (H4 j sp e); [done|congruence]|].
    apply Hx. congruence.
  - intros j k en. rewrite He. apply H6.
Qed.
End heap.

Section event_server_spec.
Context (kernel : Action → bool).

(** *** Elementary operations *)

Lemma act_calm a s s' : act a s = (Ok tt, s') → calm s s'.
Proof. intros [= <-]. split; try done. naive_solver. Qed.
Lemma try_act_calm a s s' : try_act kernel a s = (Ok tt, s') → calm s s'.
Proof.
  unfold try_act. intros H. ok_inv.
  match goal with H : act _ _ = _ |- _ => apply act_calm in H end. by destruct (kernel a); ok_inv.
Qed.

Lemma bitfield_set_length gs bit p : bitfield_set gs bit = Some p → length p.2 = length gs.
Proof.
  unfold bitfield_set. destruct (gs !! _); simpl; [|done]. intros [= <-]. apply length_insert.
Qed.

Lemma set_bit_calm addr bit s b s' : set_bit addr bit s = (Ok b, s') → calm s s'.
Proof.
  unfold set_bit. intros H. ok_inv. subst.
  split; try done; [naive_solver|]. simpl. eapply same_shape_insert; [done|]. by eapply bitfield_set_length.
Qed.

Lemma clear_slot_calm i s s' : modify (E:=unit) (set_spaces (alter (set_slot None) i)) s = (Ok tt, s') → calm s s'.
Proof.
  intros [= <-]. split; try done; simpl; [by rewrite length_alter|].
  intros j sp'. destruct (decide (j = i)) as [->|]; [|rewrite list_lookup_alter_ne by done; naive_solver].
  rewrite list_lookup_alter_eq. intros (sp & -> & ->)%fmap_Some_1. exists sp. simpl. auto.
Qed.

Lemma signal_event_calm fuel borrowed e s s' : signal_event fuel borrowed e s = (Ok tt, s') → calm s s'.
Proof.
  revert borrowed e s. induction fuel as [|fuel IH]; intros borrowed e s H; cbn [signal_event] in H; [done|].
  unfold get_event in H. ok_inv. destruct (target x) as [[i idx]|]; ok_inv; [|apply calm_refl].
  unfold get_space in *. ok_inv.
  match goal with H : set_bit _ _ _ = (Ok ?b, _) |- _ => apply set_bit_calm in H; destruct b end; ok_inv; [|done].
  eapply calm_trans; [done|].
  match goal with H : act _ _ = _ |- _ => apply act_calm in H end.
  eapply calm_trans; [done|]. eapply calm_trans; [by apply (clear_slot_calm i)|].
  match goal with H : match subscription_slot ?sp with _ => _ end _ = _ |- _ => destruct (subscription_slot sp) as [[e'|n']|] end.
  - by eapply IH.
  - by eapply act_calm.
  - ok_inv. apply calm_refl.
Qed.

Lemma signal_calm e s s' : signal e s = (Ok tt, s') → calm s s'.
Proof. apply signal_event_calm. Qed.

(** *** What operations on the heaps leave alone *)

Record frame (s s' : EventServer) : Prop := {
  f_events : length (events s) ≤ length (events s');
  f_spaces : length (spaces s) ≤ length (spaces s');
  f_memory : same_shape (memory s) (memory s');
  f_rs : resource_server s' = resource_server s;
  f_ss : serial_server s' = serial_server s;
  f_host : host s' = host s;
  f_realms : realms s' = realms s;
  f_inactive : inactive_realms s' = inactive_realms s;
  f_irq : irq_events s' = irq_events s;
  f_host_subs : subscriber <$> host_subscriptions s' = subscriber <$> host_subscriptions s;
  f_rs_subs : subscriber <$> resource_server_subscriptions s' = subscriber <$> resource_server_subscriptions s;
}.

Lemma frame_refl s : frame s s.
Proof. by split. Qed.
Lemma frame_trans s1 s2 s3 : frame s1 s2 → frame s2 s3 → frame s1 s3.
Proof.
  intros [A1 A2 A3 A4 A5 A6 A7 A8 A9 A10 A11] [B1 B2 B3 B4 B5 B6 B7 B8 B9 B10 B11].
  split; try congruence; lia.
Qed.

Lemma is_sub_fmap s e : is_sub s e ↔ SubEvent e ∈ subscriber <$> host_subscriptions s.
Proof. rewrite list_elem_of_fmap. unfold is_sub. naive_solver. Qed.
Lemma frame_sub s s' e : frame s s' → is_sub s' e ↔ is_sub s e.
Proof. intros Hf. by rewrite !is_sub_fmap, (f_host_subs _ _ Hf). Qed.

Lemma frame_refs s s' : frame s s' → refs_ok s → refs_ok s'.
Proof.
  intros Hf [R1 R2 R3 R4 R5 R6 R7 R8 R9 R10]. pose proof (λ e, frame_sub _ _ e Hf) as Hsub.
  destruct Hf as [F1 F2 F3 F4 F5 F6 F7 F8 F9 F10 F11].
  split; rewrite ?F4, ?F5, ?F6, ?F7, ?F8, ?F9; try done.
  - intros i ?%R1. lia.
  - intros r c i Hr Hi. destruct (R2 r c i Hr Hi). split; [lia|done].
  - intros e ?%R4. lia.
  - intros r c e Hr He. pose proof (R5 r c e Hr He). lia.
  - intros r x e Hr He. pose proof (R6 r x e Hr He). lia.
  - intros r x e Hr He. rewrite Hsub. destruct (R7 r x e Hr He). split; [lia|done].
  - intros r x node Hr He. eapply node_ok_shape; [done|]. eauto.
  - intros n e He. pose proof (R9 n e He). lia.
  - intros x Hx. assert (subscriber x ∈ subscriber <$> resource_server_subscriptions s) as Hin
      by (rewrite <-F11; by apply list_elem_of_fmap_2).
    apply list_elem_of_fmap in Hin as (y & -> & Hy). eauto.
Qed.

(** A heap that fits, and references that stay. *)
Lemma frame_wired s s' :
  frame s s' → heap_ok (events s') (spaces s') (memory s) (in_spaces (host s)) (is_sub s) →
  wired s → wired s'.
Proof.
  intros Hf [H1 H2 H3 H4 H5 H6] [_ Hr]. split; [|by eapply frame_refs].
  pose proof (λ e, frame_sub _ _ e Hf) as Hsub. rewrite (f_host _ _ Hf).
  split; try done.
  - intros i sp Hi. eapply node_ok_shape; [by apply (f_memory _ _ Hf)|]. eauto.
  - intros i sp e Hi Hs. rewrite Hsub. eauto.
  - intros e. rewrite Hsub. apply H5.
  - intros i idx en. rewrite Hsub. apply H6.
Qed.

Lemma calm_frame s s' : calm s s' → frame s s'.
Proof. intros [A1 A2 A3 A4 A5 A6 A7 A8 A9 A10 A11 A12]. split; try congruence; by rewrite ?A1, ?A2. Qed.

Ltac es_inv := unfold get_event, get_space in *; ok_inv.

Lemma negb_is_none_true {A} (o : option A) : negb (is_none o) = true → ∃ x, o = Some x.
Proof. destruct o; naive_solver. Qed.
Lemma is_none_None {A} (o : option A) : is_none o = true → o = None.
Proof. by destruct o. Qed.

(** *** Operations *)

Lemma connect_frame e i idx s s' : connect e i idx s = (Ok tt, s') → frame s s'.
Proof.
  unfold connect. intros Hr. es_inv. split; simpl; rewrite ?length_alter; done.
Qed.
Lemma connect_length e i idx s s' :
  connect e i idx s = (Ok tt, s') → length (events s') = length (events s) ∧ length (spaces s') = length (spaces s).
Proof. unfold connect. intros Hr. es_inv. simpl. by rewrite !length_alter. Qed.

Lemma connect_wired e i idx s s' :
  connect e i idx s = (Ok tt, s') → (is_sub s e → i ∈ in_spaces (host s)) → wired s → wired s'.
Proof.
  intros Hr Hsub Hw. pose proof (connect_frame _ _ _ _ _ Hr) as Hf. unfold connect in Hr. es_inv.
  repeat match goal with H : is_none _ = true |- _ => apply is_none_None in H; subst end.
  apply (frame_wired s); [done| |done]. simpl.
  eapply heap_connect; [by apply w_heap|done|done| |done]. by eapply lookup_lt_Some.
Qed.

Lemma disconnect_wired e s s' : disconnect e s = (Ok tt, s') → wired s → wired s' ∧ frame s s'.
Proof.
  intros Hr Hw. unfold disconnect in Hr. es_inv.
  assert (frame s (set_events (alter (set_target None) e) s)) as Hf by (split; simpl; rewrite ?length_alter; done).
  split; [|done]. apply (frame_wired s); [done| |done]. simpl. by apply heap_disconnect, w_heap.
Qed.

Lemma client_end_calm c nid idx s s' : client_end kernel c nid idx s = (Ok tt, s') → calm s s'.
Proof.
  unfold client_end, client_entry. intros Hr. es_inv.
  match goal with H : match irq ?e with _ => _ end _ = _ |- _ => destruct (irq e) end; [|done].
  by eapply try_act_calm.
Qed.

Lemma client_configure_wired c nid idx a s s' :
  client_configure c nid idx a s = (Ok tt, s') → wired s → wired s'.
Proof.
  unfold client_configure, client_entry. intros Hr Hw. es_inv. destruct a as [b|]; [|done]. es_inv. simplify_eq/=.
  match goal with Hs : spaces s !! ?i = Some ?sp, He : entries ?sp !! idx = Some (Some ?en) |- _ =>
    assert (Hen : entry_at (spaces s) i idx = Some en) by (apply entry_at_Some; eauto) end.
  apply (frame_wired s); [|simpl; by apply (heap_configure _ _ _ _ _ _ _ _ b (w_heap s Hw)) in Hen|done].
  split; simpl; rewrite ?length_alter; done.
Qed.

(** The destination of a move is free. *)
Definition move_free (s : EventServer) (c : Client) (nid idx : nat) : Prop :=
  ∀ i, in_spaces c !! nid = Some i → entry_at (spaces s) i idx = None.

(** The spaces of a client are all the host's or none is. *)
Definition uniform (s : EventServer) (c : Client) : Prop :=
  ∀ i j, i ∈ in_spaces c → j ∈ in_spaces c → i ∈ in_spaces (host s) → j ∈ in_spaces (host s).

Lemma swap_entry_ok c nid idx tmp s old s' :
  swap_entry c nid idx tmp s = (Ok old, s') →
  ∃ i sp, in_spaces c !! nid = Some i ∧ spaces s !! i = Some sp ∧ entries sp !! idx = Some old ∧
    s' = set_spaces (write_entry i idx tmp) s.
Proof. unfold swap_entry. intros Hr. es_inv. subst. eauto 10. Qed.

(** Writing what is there changes nothing; a write is lost when it is overwritten. *)
Lemma write_entry_id sps i sp idx o :
  sps !! i = Some sp → entries sp !! idx = Some o → write_entry i idx o sps = sps.
Proof.
  intros Hi Ho. apply list_eq. intros j. unfold write_entry.
  destruct (decide (j = i)) as [->|]; [|by rewrite list_lookup_alter_ne].
  rewrite list_lookup_alter_eq, Hi. simpl. f_equal. destruct sp; unfold set_entries; simpl in *.
  by rewrite list_insert_id.
Qed.

Lemma write_entry_absorb sps i idx j k x y z :
  write_entry i idx z (write_entry j k x (write_entry i idx y sps)) = write_entry i idx z (write_entry j k x sps).
Proof.
  apply list_eq. intros a. unfold write_entry.
  destruct (decide (a = i)) as [->|].
  - destruct (decide (j = i)) as [->|].
    + rewrite !list_lookup_alter_eq. destruct (sps !! i) as [[l nd sl]|]; simpl; [|done].
      unfold set_entries; simpl. do 2 f_equal.
      destruct (decide (idx = k)) as [<-|]; [by rewrite !list_insert_insert_eq|].
      rewrite (list_insert_insert_ne l k idx) by done. by rewrite list_insert_insert_eq.
    + rewrite !list_lookup_alter_eq, !(list_lookup_alter_ne _ _ j i), !list_lookup_alter_eq by done.
      destruct (sps !! i) as [[l nd sl]|]; simpl; [|done]. unfold set_entries; simpl. by rewrite list_insert_insert_eq.
  - rewrite !(list_lookup_alter_ne _ _ i a) by done. destruct (decide (j = a)) as [->|].
    + rewrite !list_lookup_alter_eq. by rewrite (list_lookup_alter_ne _ _ i a).
    + by rewrite !list_lookup_alter_ne.
Qed.

(** The state after the three swaps, when the destination was free. *)
Lemma swaps_ok c sn si dn di s a b d s1 s2 s3 :
  swap_entry c sn si None s = (Ok a, s1) → swap_entry c dn di a s1 = (Ok b, s2) →
  swap_entry c sn si b s2 = (Ok d, s3) → move_free s c dn di →
  ∃ i j sp, in_spaces c !! sn = Some i ∧ in_spaces c !! dn = Some j ∧ spaces s !! j = Some sp ∧
    entries sp !! di = Some None ∧ entry_at (spaces s) i si = a ∧ entry_at (spaces s3) j di = a ∧
    s3 = match a with
         | None => s
         | Some _ => set_spaces (λ l, write_entry i si None (write_entry j di a l)) s
         end.
Proof.
  intros (i & spi & Hi & Hspi & Ha & ->)%swap_entry_ok (j & spj & Hj & Hspj & Hb & ->)%swap_entry_ok
    (i' & spi' & Hi' & Hspi' & Hd & ->)%swap_entry_ok Hfree. simplify_eq/=.
  assert (Hea : entry_at (spaces s) i si = a) by (unfold entry_at; rewrite Hspi; simpl; by rewrite Ha; destruct a).
  assert (b = None) as ->.
  { destruct b as [en|]; [|done]. assert (entry_at (write_entry i si None (spaces s)) j di = Some en) as He
      by (apply entry_at_Some; eauto).
    rewrite (entry_at_write _ _ _ _ _ _ _ _ Hspi Ha) in He. case_decide; [done|]. by rewrite (Hfree j) in He. }
  destruct (write_entry_frame _ _ _ _ _ _ Hspj) as (sp & Hsp & _ & _ & Hlen).
  assert (entries sp !! di = Some None) as Hdi.
  { destruct (lookup_lt_is_Some_2 (entries sp) di) as [o Ho]; [rewrite <-Hlen; by eapply lookup_lt_Some|].
    rewrite Ho. f_equal. specialize (Hfree j Hj). unfold entry_at in Hfree. rewrite Hsp in Hfree. simpl in Hfree.
    rewrite Ho in Hfree. by destruct o. }
  assert (E : write_entry i si None (write_entry j di a (write_entry i si None (spaces s))) =
    match a with None => spaces s | Some _ => write_entry i si None (write_entry j di a (spaces s)) end).
  { rewrite write_entry_absorb. destruct a; [done|].
    rewrite (write_entry_id _ j sp) by done. by rewrite (write_entry_id _ i spi). }
  exists i, j, sp. split_and!; try done; simpl; rewrite ?E.
  - destruct a as [en|]; [|by apply Hfree]. rewrite <-E.
    rewrite (entry_at_write _ _ _ _ _ _ _ _ Hspi' Hd), (entry_at_write _ _ _ _ _ _ _ _ Hspj Hb).
    rewrite decide_False, decide_True; [done..|]. intros [-> ->]. by rewrite (Hfree _ Hj) in Hea.
  - unfold set_spaces; simpl. rewrite E. by destruct s, a.
Qed.

Lemma client_move_wired c sn si dn di s s' :
  client_move kernel c sn si dn di s = (Ok tt, s') →
  (sn, si) = (dn, di) ∨ move_free s c dn di → uniform s c → wired s → wired s'.
Proof.
  unfold client_move. intros Hr Hfree Huni Hw. case_decide as Hd; [by ok_inv; subst|].
  destruct Hfree as [?|Hfree]; [done|]. ok_inv.
  match goal with H1 : swap_entry c sn si None s = _, H2 : swap_entry c dn di _ _ = _, H3 : swap_entry c sn si _ _ = (_, ?s3) |- _ =>
    destruct (swaps_ok _ _ _ _ _ _ _ _ _ _ _ _ H1 H2 H3 Hfree) as (i & j & sp & Hi & Hj & Hsp & Hdi & Ha & Ha3 & E3); clear H1 H2 H3 end.
  es_inv.
  match goal with Hdn : in_spaces c !! dn = Some ?j', Hs : spaces ?s3 !! ?j' = Some ?q, He : entries ?q !! di = Some ?o |- _ =>
    assert (j' = j) by congruence; subst j'; assert (o = entry_at (spaces s) i si) as ->
      by (rewrite Ha, <-Ha3; unfold entry_at; rewrite Hs; simpl; rewrite He; by destruct o) end.
  destruct (entry_at (spaces s) i si) as [en|] eqn:Hen; [|subst; by es_inv; subst]. subst. es_inv.
  assert (Hm : heap_ok (alter (set_target (Some (j, di))) (event en) (events s))
    (write_entry i si None (write_entry j di (Some en) (spaces s))) (memory s) (in_spaces (host s)) (is_sub s)).
  { eapply heap_move; [by apply w_heap|done|done|done|]. apply Huni; by eapply list_elem_of_lookup_2. }
  match goal with H : _ ?st = (Ok tt, s') |- _ => assert (Hw1 : wired st) end.
  { apply (frame_wired s); [|exact Hm|done]. split; simpl; rewrite ?length_alter, ?length_write_entry; done. }
  match goal with H : match irq ?e with _ => _ end _ = _ |- _ => destruct (irq e) end; es_inv; [|done].
  eapply calm_wired; [by eapply try_act_calm|done].
Qed.

(** *** Realms *)

Lemma connect_entries_wired i k l s s' :
  connect_entries i k l s = (Ok tt, s') → (∀ e, Some e ∈ l → ¬ is_sub s e) → wired s →
  wired s' ∧ frame s s'.
Proof.
  revert k s. induction l as [|[e|] l IH]; intros k s Hr Hsub Hw; cbn [connect_entries] in Hr; ok_inv.
  - split; [done|apply frame_refl].
  - match goal with H : connect _ _ _ _ = _ |- _ => rename H into Hc end.
    pose proof (connect_frame _ _ _ _ _ Hc) as Hf.
    apply connect_wired in Hc; [|intros He; exfalso; by eapply Hsub; [by constructor|]|done].
    match goal with H : connect_entries _ _ _ _ = _ |- _ => apply IH in H as [? ?] end; [|..|done].
    + split; [done|by eapply frame_trans].
    + intros e' He'. rewrite (frame_sub _ _ _ Hf). apply Hsub. by constructor.
  - eapply IH; [done| |done]. intros e He. apply Hsub. by constructor.
Qed.

Lemma alloc_spaces_wired nodes n s :
  (∀ node, node ∈ nodes → node_ok (memory s) node n) → wired s →
  wired (set_spaces (λ l, l ++ ((λ node, new_space node n) <$> nodes)) s) ∧
  frame s (set_spaces (λ l, l ++ ((λ node, new_space node n) <$> nodes)) s).
Proof.
  intros Hn Hw. assert (frame s (set_spaces (λ l, l ++ ((λ node, new_space node n) <$> nodes)) s)) as Hf
    by (split; simpl; rewrite ?length_app; done || lia).
  split; [|done]. apply (frame_wired s); [done| |done]. simpl. by apply heap_alloc_spaces; [apply w_heap|].
Qed.

Lemma create_client_wired r x n s c s' :
  create_client x n s = (Ok c, s') → inactive_realms s !! r = Some x → wired s →
  wired s' ∧ frame s s' ∧ out_space c = realm_out_space x ∧
  ∀ i, i ∈ in_spaces c → length (spaces s) ≤ i < length (spaces s').
Proof.
  unfold create_client. intros Hr Hx Hw. ok_inv. subst.
  destruct (alloc_spaces_wired (take n (in_notifications x)) (CARDINALITY RealmIn) s) as [Hw1 Hf1]; [|done|].
  { intros node Hnode. eapply r_inactive_node; [by apply w_refs|done|]. apply elem_of_take in Hnode as (k & Hk & _). by eapply list_elem_of_lookup_2. }
  match goal with H : connect_entries _ _ _ _ = _ |- _ => apply connect_entries_wired in H as [Hw2 Hf2]; [|..|done] end.
  - split_and!; [done|by eapply frame_trans|done|]. simpl. intros i [Hi1 Hi2]%elem_of_seq. split; [done|].
    eapply Nat.lt_le_trans; [|by apply (f_spaces _ _ Hf2)]. simpl.
    rewrite length_app, length_fmap, length_take.
    match goal with H : (n <=? _) = true |- _ => apply Nat.leb_le in H end. lia.
  - intros e He Hsub. apply (frame_sub _ _ _ Hf1) in Hsub.
    by destruct (r_inactive_in _ (w_refs s Hw) r x e Hx He).
Qed.

Lemma set_realms_wired f s :
  (∀ r c, f (realms s) !! r = Some c →
    (∀ i, i ∈ in_spaces c → i < length (spaces s) ∧ i ∉ in_spaces (host s)) ∧
    ∀ e, e ∈ out_space c → e < length (events s)) →
  wired s → wired (set_realms f s).
Proof.
  intros Hf [Hh [R1 R2 R3 R4 R5 R6 R7 R8 R9 R10]]. split; [done|]. split; try done; simpl.
  - intros r c i Hr Hi. by apply (Hf r c Hr).
  - intros r c e Hr He. by apply (Hf r c Hr).
Qed.

Lemma create_realm_wired rid n s s' : create_realm rid n s = (Ok tt, s') → wired s → wired s'.
Proof.
  unfold create_realm. intros Hr Hw. ok_inv.
  match goal with H : create_client ?x _ _ = (Ok ?c, _), Hx : inactive_realms s !! rid = Some ?x |- _ =>
    destruct (create_client_wired _ _ _ _ _ _ H Hx Hw) as (Hw1 & Hf & Ho & Hi) end.
  apply set_realms_wired; [|done]. intros r c' [[<- <-]|[_ Hr]]%lookup_insert_Some.
  - split.
    + intros i Hin. pose proof (Hi i Hin) as [Hi1 Hi2]. split; [done|]. rewrite (f_host _ _ Hf).
      intros Hh%(r_host _ (w_refs s Hw)). lia.
    + intros e He. rewrite Ho in He. eapply (r_inactive_out _ (w_refs _ Hw1)); [|done].
      rewrite (f_inactive _ _ Hf). done.
  - split; [intros i; by apply (r_realm _ (w_refs _ Hw1) r)|intros e; by apply (r_realm_out _ (w_refs _ Hw1) r)].
Qed.

Lemma destroy_realm_wired rid s s' : destroy_realm rid s = (Ok tt, s') → wired s → wired s'.
Proof.
  unfold destroy_realm. intros Hr Hw. ok_inv.
  assert (Hw1 : wired (set_realms (delete rid) s)).
  { apply set_realms_wired; [|done]. intros r c [_ Hr]%lookup_delete_Some.
    split; [intros i; by apply (r_realm _ (w_refs _ Hw) r)|intros e; by apply (r_realm_out _ (w_refs _ Hw) r)]. }
  revert Hw1. match goal with H : for_each _ (in_entries ?x) ?st = _ |- _ => revert H; generalize (in_entries x) st end.
  intros l. induction l as [|[e|] l IH]; intros st Hl Hst; cbn [for_each] in Hl; ok_inv; [done| |eauto].
  match goal with H : disconnect _ _ = _ |- _ => apply disconnect_wired in H as [? _]; [|done] end. eauto.
Qed.

(** *** Subscriptions *)

Lemma set_slot_wired i x s :
  (∀ e, x = Some (SubEvent e) → is_sub s e ∧ i ∉ in_spaces (host s)) → wired s →
  wired (set_spaces (alter (set_slot x) i) s).
Proof.
  intros Hx Hw. apply (frame_wired s); [|simpl; by apply heap_set_slot; [apply w_heap|]|done].
  split; simpl; rewrite ?length_alter; done.
Qed.

Lemma fmap_subscriber_alter (l : list SubscriptionEntry) nid x : subscriber <$> alter (set_sub_slot x) nid l = subscriber <$> l.
Proof.
  apply list_eq. intros j. rewrite !list_lookup_fmap. destruct (decide (j = nid)) as [->|].
  - rewrite list_lookup_alter_eq. by destruct (l !! nid).
  - by rewrite list_lookup_alter_ne.
Qed.

Lemma set_host_sub_wired nid x s : wired s → wired (set_host_subscriptions (alter (set_sub_slot x) nid) s).
Proof.
  intros Hw. apply (frame_wired s); [|exact (w_heap s Hw)|done]. split; simpl; try done. apply fmap_subscriber_alter.
Qed.
Lemma set_rs_sub_wired nid x s : wired s → wired (set_rs_subscriptions (alter (set_sub_slot x) nid) s).
Proof.
  intros Hw. apply (frame_wired s); [|exact (w_heap s Hw)|done]. split; simpl; try done. apply fmap_subscriber_alter.
Qed.

Lemma host_subscribe_wired nid rid realm_nid s s' :
  host_subscribe nid rid realm_nid s = (Ok tt, s') → wired s → wired s'.
Proof.
  unfold host_subscribe. intros Hr Hw. es_inv. apply set_host_sub_wired, set_slot_wired; [|done].
  intros e [= Hx]. split.
  - eexists. split; [|done]. by eapply list_elem_of_lookup_2.
  - eapply r_realm; [by apply w_refs|done|]. by eapply list_elem_of_lookup_2.
Qed.

Lemma resource_server_subscribe_wired nid host_nid s s' :
  resource_server_subscribe nid host_nid s = (Ok tt, s') → wired s → wired s'.
Proof.
  unfold resource_server_subscribe. intros Hr Hw. es_inv. apply set_rs_sub_wired, set_slot_wired; [|done].
  intros e [= Hx]. exfalso.
  match goal with H : resource_server_subscriptions s !! nid = Some ?sub |- _ =>
    destruct (r_rs_subs _ (w_refs s Hw) sub) as [n Hn]; [by eapply list_elem_of_lookup_2|] end. congruence.
Qed.

Lemma resource_server_unsubscribe_wired nid host_nid s s' :
  resource_server_unsubscribe nid host_nid s = (Ok tt, s') → wired s → wired s'.
Proof.
  unfold resource_server_unsubscribe. intros Hr Hw. es_inv. by apply set_rs_sub_wired, set_slot_wired.
Qed.

Lemma irq_thread_wired irqs badge s s' : irq_thread irqs badge s = (Ok tt, s') → wired s → wired s'.
Proof.
  unfold irq_thread. generalize (biterate badge). intros l. revert s.
  induction l as [|i l IH]; intros s Hr Hw; cbn [for_each] in Hr; ok_inv; [done|].
  eapply IH; [done|]. eapply calm_wired; [by eapply signal_calm|done].
Qed.

(** *** Messages *)

Lemma client_of_ok id s c s' : client_of id s = (Ok c, s') → wired s → s' = s ∧ uniform s c.
Proof.
  intros Hr Hw. destruct (r_servers _ (w_refs s Hw)) as [E1 E2].
  destruct id; simpl in Hr; ok_inv; subst; (split; [done|]); intros i j Hi Hj Hh.
  - rewrite E1 in Hj. by apply elem_of_nil in Hj.
  - rewrite E2 in Hj. by apply elem_of_nil in Hj.
  - done.
  - by destruct (r_realm _ (w_refs s Hw) _ _ _ Hr Hi).
Qed.

(** Moves go to free entries. *)
Definition admissible_call (s : EventServer) (c : Client) (call : ClientCall) : Prop :=
  match call with
  | CallMove sn si dn di => (sn, si) = (dn, di) ∨ move_free s c dn di
  | _ => True
  end.
Definition admissible_message (s : EventServer) (badges : Badges) (badge : Z) (payload : Payload) : Prop :=
  match payload with
  | OfClient call => ∀ id c,
      client_badges badges !! Z.to_nat (Z.land badge (word_not 64 BADGE_TYPE_MASK)) = Some id →
      client_of id s = (Ok c, s) → admissible_call s c call
  | _ => True
  end.

Lemma handle_client_wired c call s s' :
  handle_client kernel c call s = (Ok tt, s') → admissible_call s c call → uniform s c → wired s → wired s'.
Proof.
  destruct call; cbn [handle_client admissible_call]; intros Hr Had Huni Hw.
  - unfold client_signal in Hr. ok_inv. eapply calm_wired; [by eapply signal_calm|done].
  - done.
  - done.
  - eapply calm_wired; [by eapply client_end_calm|done].
  - by eapply client_configure_wired.
  - by eapply client_move_wired.
Qed.

Lemma handle_message_wired badges badge payload s s' :
  handle_message kernel badges badge payload s = (Ok tt, s') →
  admissible_message s badges badge payload → wired s → wired s'.
Proof.
  unfold handle_message. intros Hr Had Hw.
  repeat match type of Hr with context [Z.eqb ?a ?b] => destruct (Z.eqb a b) end; [..|done];
    destruct payload as [out_index|call|call|[nid rid rnid]]; try done; ok_inv.
  - match goal with H : client_of _ _ = _ |- _ => apply client_of_ok in H as [-> _]; [|done] end.
    unfold client_signal in *. ok_inv. eapply calm_wired; [by eapply signal_calm|done].
  - match goal with H : client_of _ _ = _ |- _ => pose proof H as Hc; apply client_of_ok in H as [-> Hu]; [|done] end.
    eapply handle_client_wired; [done|by eapply Had|done|done].
  - destruct call; simpl in Hr; eauto using resource_server_subscribe_wired,
      resource_server_unsubscribe_wired, create_realm_wired, destroy_realm_wired.
  - by eapply host_subscribe_wired.
Qed.

Lemma bitfield_clear_length gs l p : bitfield_clear_groups gs l = Some p → length p.2 = length gs.
Proof.
  revert gs p. induction l as [|g l IH]; intros gs p; simpl; [by intros [= <-]|].
  unfold bitfield_swap. destruct (gs !! g); simpl; [|done].
  destruct (bitfield_clear_groups _ l) as [q|] eqn:Hq; simpl; [|done]. intros [= <-]. simpl.
  rewrite (IH _ _ Hq). apply length_insert.
Qed.

(** What happens to the server: messages and interrupts that it handles to the end (an
    error or a panic ends it), and clients that clear bits. *)
Inductive es_step (badges : Badges) (s : EventServer) : EventServer → Prop :=
| es_message badge payload s' :
    admissible_message s badges badge payload →
    handle_message kernel badges badge payload s = (Ok tt, s') → es_step badges s s'
| es_irq irqs badge s' : irq_thread irqs badge s = (Ok tt, s') → es_step badges s s'
| es_clear addr gs badge bits gs' :
    memory s !! addr = Some gs → bitfield_clear gs badge = Some (bits, gs') →
    es_step badges s (set_memory (<[addr := gs']>) s).

Lemma es_step_wired badges s s' : es_step badges s s' → wired s → wired s'.
Proof.
  intros [badge payload s2 Had Hr|irqs badge s2 Hr|addr gs badge bits gs' Hm Hc] Hw.
  - by eapply handle_message_wired.
  - by eapply irq_thread_wired.
  - eapply calm_wired; [|done]. split; try done; [naive_solver|]. simpl.
    eapply same_shape_insert; [done|]. by apply (bitfield_clear_length _ _ (bits, gs')) in Hc.
Qed.

(** *** The wiring at start *)

Definition keeps {A} (I : EventServer → Prop) (m : ESM A) : Prop :=
  ∀ s a s', m s = (Ok a, s') → I s → I s'.

Lemma keeps_for_each {B} I (f : B → ESM unit) l : (∀ x, x ∈ l → keeps I (f x)) → keeps I (for_each f l).
Proof.
  induction l as [|x l IH]; intros Hf s [] s' Hr HI; cbn [for_each] in Hr; ok_inv; [done|].
  eapply IH; [|done|]; [intros y Hy; apply Hf; by constructor|]. eapply Hf; [by constructor|done|done].
Qed.

Lemma keeps_for_enumerate {B} I (f : nat → B → ESM unit) l :
  (∀ i x, x ∈ l → keeps I (f i x)) → keeps I (for_enumerate f l).
Proof.
  intros Hf. apply keeps_for_each. intros [i x] Hx. apply Hf.
  apply list_elem_of_lookup in Hx as [k Hk]. rewrite list_lookup_imap in Hk.
  apply fmap_Some_1 in Hk as (y & Hy & [= -> ->]). by eapply list_elem_of_lookup_2.
Qed.

(** While nothing subscribes. *)
Record starting (mem : gmap nat (list Z)) (h : Client) (k : nat) (s : EventServer) : Prop := {
  st_wired : wired s;
  st_host : host s = h;
  st_subs : host_subscriptions s = [];
  st_realms : realms s = ∅;
  st_memory : memory s = mem;
  st_events : k ≤ length (events s);
}.

Lemma starting_no_sub mem h k s e : starting mem h k s → ¬ is_sub s e.
Proof. intros Hs (x & Hx & _). rewrite (st_subs _ _ _ _ Hs) in Hx. by apply elem_of_nil in Hx. Qed.

Lemma connect_starting mem h k e i idx : keeps (starting mem h k) (connect e i idx).
Proof.
  intros s [] s' Hr Hs. pose proof (connect_length _ _ _ _ _ Hr) as [Hl _].
  assert (wired s') by (eapply connect_wired; [done| |by eapply st_wired];
    intros Hsub; by destruct (starting_no_sub _ _ _ _ _ Hs Hsub)).
  destruct Hs as [S1 S2 S3 S4 S5 S6]. unfold connect in Hr. es_inv. by split; simpl; rewrite ?length_alter.
Qed.

Lemma set_inactive_wired f s :
  (∀ r x, f (inactive_realms s) !! r = Some x →
    (∀ e, e ∈ realm_out_space x → e < length (events s)) ∧
    (∀ e, Some e ∈ in_entries x → e < length (events s) ∧ ¬ is_sub s e) ∧
    ∀ node, node ∈ in_notifications x → node_ok (memory s) node (CARDINALITY RealmIn)) →
  wired s → wired (set_inactive f s).
Proof.
  intros Hf [Hh [R1 R2 R3 R4 R5 R6 R7 R8 R9 R10]]. split; [done|]. split; try done; simpl.
  - intros r x e Hr. by destruct (Hf r x Hr) as (F1 & F2 & F3); apply F1.
  - intros r x e Hr. by destruct (Hf r x Hr) as (F1 & F2 & F3); apply F2.
  - intros r x node Hr. by destruct (Hf r x Hr) as (F1 & F2 & F3); apply F3.
Qed.

(** The inactive realms of a wired state are as they should be. *)
Lemma wired_inactive s r x :
  wired s → inactive_realms s !! r = Some x →
  (∀ e, e ∈ realm_out_space x → e < length (events s)) ∧
  (∀ e, Some e ∈ in_entries x → e < length (events s) ∧ ¬ is_sub s e) ∧
  ∀ node, node ∈ in_notifications x → node_ok (memory s) node (CARDINALITY RealmIn).
Proof.
  intros Hw Hx. pose proof (w_refs s Hw) as [R1 R2 R3 R4 R5 R6 R7 R8 R9 R10]. split_and!; eauto.
Qed.

Lemma set_in_entry_starting mem h k rid idx e : e < k → keeps (starting mem h k) (set_in_entry rid idx e).
Proof.
  intros He s [] s' Hr Hs. pose proof Hs as [S1 S2 S3 S4 S5 S6]. unfold set_in_entry in Hr. ok_inv.
  match goal with H : inactive_realms s !! rid = Some ?r |- _ => destruct (wired_inactive _ _ _ S1 H) as (I1 & I2 & I3) end.
  split; try done; simpl. apply set_inactive_wired; [|done].
  intros r' x' [[<- <-]|[_ Hx]]%lookup_insert_Some; [|by eapply wired_inactive]. simpl. split_and!; [done| |done].
  intros e' Hin. apply list_elem_of_lookup in Hin as [j Hj].
  destruct (decide (j = idx)) as [->|].
  - rewrite list_lookup_insert_eq in Hj by (by apply Nat.ltb_lt). simplify_eq.
    split; [lia|]. by eapply starting_no_sub.
  - rewrite list_lookup_insert_ne in Hj by done. apply I2. by eapply list_elem_of_lookup_2.
Qed.

Lemma mk_out_space_ok n s l s' :
  mk_out_space n s = (Ok l, s') → wired s →
  wired s' ∧ frame s s' ∧ host_subscriptions s' = host_subscriptions s ∧ memory s' = memory s ∧
  ∀ e, e ∈ l → e < length (events s').
Proof.
  unfold mk_out_space. intros Hr Hw. ok_inv. subst.
  match goal with |- wired ?s' ∧ _ => assert (frame s s') as Hf by (split; simpl; rewrite ?length_app; done || lia) end.
  split_and!; try done.
  - apply (frame_wired s); [done| |done]. simpl. apply heap_alloc_events, w_heap, Hw.
  - intros e [_ He]%elem_of_seq. simpl. by rewrite length_app, length_replicate.
Qed.

Lemma mk_inactive_starting mem h k config rid :
  (∀ nodes node, nodes ∈ realm_notifications config → node ∈ nodes → node_ok mem node (CARDINALITY RealmIn)) →
  keeps (starting mem h k) (mk_inactive_realm config rid).
Proof.
  intros Hn s [] s' Hr [S1 S2 S3 S4 S5 S6]. unfold mk_inactive_realm in Hr. ok_inv.
  match goal with H : mk_out_space _ _ = _ |- _ => apply mk_out_space_ok in H as (Hw & Hf & Hs & Hm & Hl); [|done] end.
  pose proof Hf as [F1 F2 F3 F4 F5 F6 F7 F8 F9 F10 F11].
  split; simpl; try congruence; [|lia]. apply set_inactive_wired; [|done].
  intros r x' [[<- <-]|[_ Hx]]%lookup_insert_Some; [|by eapply wired_inactive]. simpl. split_and!; [done| |].
  - intros e He. set_solver.
  - intros node Hnode. rewrite Hm, S5. eapply Hn; [|done]. by eapply list_elem_of_lookup_2.
Qed.

Lemma wire_resource_server_starting mem h k p i e : keeps (starting mem h k) (wire_resource_server p i e).
Proof.
  intros s [] s' Hr Hs. unfold wire_resource_server in Hr. ok_inv.
  match goal with H : from_nat _ = Some ?o |- _ => destruct o end. by eapply connect_starting.
Qed.
Lemma wire_serial_server_starting mem h k p i e : e < k → keeps (starting mem h k) (wire_serial_server p i e).
Proof.
  intros He s [] s' Hr Hs. unfold wire_serial_server in Hr. ok_inv.
  match goal with H : from_nat _ = Some ?o |- _ => destruct o as [[|[rid]]] end.
  - by eapply connect_starting.
  - by eapply set_in_entry_starting.
Qed.
Lemma wire_host_starting mem h k i e : e < k → keeps (starting mem h k) (wire_host i e).
Proof.
  intros He s [] s' Hr Hs. unfold wire_host in Hr. ok_inv.
  match goal with H : from_nat _ = Some ?o |- _ => destruct o as [[[rid] b]] end. by eapply set_in_entry_starting.
Qed.
Lemma wire_realm_starting mem h k p rid i e : keeps (starting mem h k) (wire_realm p rid i e).
Proof.
  intros s [] s' Hr Hs. unfold wire_realm in Hr. ok_inv.
  match goal with H : from_nat i = Some ?o |- _ => destruct o as [[b]] end. ok_inv. by eapply connect_starting.
Qed.
Lemma mk_host_spaces_ok nodes j n s l s' :
  mk_host_spaces nodes j n s = (Ok l, s') →
  (∀ node, node ∈ nodes → node_ok (memory s) node (CARDINALITY HostIn)) → wired s →
  wired s' ∧ frame s s' ∧ host_subscriptions s' = host_subscriptions s ∧ memory s' = memory s ∧
  ∀ i, i ∈ l → i < length (spaces s').
Proof.
  revert j l s. induction n as [|n IH]; intros j l s Hr Hn Hw; cbn [mk_host_spaces] in Hr; ok_inv.
  - subst. split_and!; [done|apply frame_refl|done|done|]. by intros i ?%elem_of_nil.
  - unfold alloc_space in *. ok_inv. subst.
    match goal with H : nodes !! j = Some ?node, Hm : mk_host_spaces _ _ _ ?s1 = _ |- _ =>
      destruct (alloc_spaces_wired [node] (CARDINALITY HostIn) s) as [Hw1 Hf1];
        [intros node' ->%list_elem_of_singleton; apply Hn; by eapply list_elem_of_lookup_2|done|];
      apply IH in Hm as (Hw2 & Hf2 & E1 & E2 & Hi); [|done|done] end.
    split_and!; [done|by eapply frame_trans|done|done|].
    intros i [->|Hin]%elem_of_cons; [|by apply Hi].
    pose proof (f_spaces _ _ Hf2) as Hl. simpl in Hl. rewrite length_app in Hl. simpl in Hl. lia.
Qed.

Lemma set_clients_wired rs ss ho hs s :
  wired s → host_subscriptions s = [] → realms s = ∅ →
  (∀ i, i ∈ hs → i < length (spaces s)) → (∀ e, e ∈ rs ++ ss ++ ho → e < length (events s)) →
  wired (set_clients {| out_space := rs; in_spaces := [] |} {| out_space := ss; in_spaces := [] |}
    {| out_space := ho; in_spaces := hs |} s).
Proof.
  intros [[H1 H2 H3 H4 H5 H6] [R1 R2 R3 R4 R5 R6 R7 R8 R9 R10]] Hsub Hre Hhs Hout.
  assert (Hno : ∀ e, ¬ is_sub s e) by (intros e (x & Hx & _); rewrite Hsub in Hx; by apply elem_of_nil in Hx).
  split; split; simpl; try done.
  - intros i sp e Hi Hs. destruct (H4 i sp e Hi Hs) as [Hs' _]. by destruct (Hno e).
  - intros i idx en _ Hs. by destruct (Hno _ Hs).
  - intros r c i Hr. rewrite Hre in Hr. by rewrite lookup_empty in Hr.
Qed.

(** After the subscriptions have been made. *)
Definition running (mem : gmap nat (list Z)) (h : Client) (s : EventServer) : Prop :=
  wired s ∧ host s = h ∧ memory s = mem.

Lemma alloc_event_ok q s e s' :
  alloc_event {| target := None; irq := q |} s = (Ok e, s') → wired s →
  wired s' ∧ e = length (events s) ∧ s' = set_events (λ l, l ++ [{| target := None; irq := q |}]) s.
Proof.
  unfold alloc_event. intros Hr Hw. ok_inv. subst. split_and!; [|done|done].
  apply (frame_wired s); [|simpl; by apply (heap_alloc_events _ _ _ _ _ 1), w_heap|done].
  split; simpl; rewrite ?length_app; done || lia.
Qed.

(** A new subscriber whose only entry is a host's. *)
Lemma add_sub_wired e s :
  wired s → e < length (events s) →
  (∀ i idx en, entry_at (spaces s) i idx = Some en → event en = e → i ∈ in_spaces (host s)) →
  (∀ r x, inactive_realms s !! r = Some x → Some e ∉ in_entries x) →
  wired (set_host_subscriptions (λ l, l ++ [{| subscriber := SubEvent e; slot := None |}]) s).
Proof.
  intros [[H1 H2 H3 H4 H5 H6] [R1 R2 R3 R4 R5 R6 R7 R8 R9 R10]] He Hent Hin.
  assert (Hs : ∀ x, is_sub (set_host_subscriptions (λ l, l ++ [{| subscriber := SubEvent e; slot := None |}]) s) x ↔
    is_sub s x ∨ x = e).
  { intros x. unfold is_sub. simpl. setoid_rewrite elem_of_app. setoid_rewrite list_elem_of_singleton. naive_solver. }
  split; split; simpl; try done.
  - intros i sp x Hi Hx. rewrite Hs. destruct (H4 i sp x Hi Hx). auto.
  - intros x. rewrite Hs. intros [?| ->]; auto.
  - intros i idx en Hen. rewrite Hs. intros [?|?]; eauto.
  - intros r x x' Hr Hx. rewrite Hs. destruct (R7 r x x' Hr Hx). split; [done|].
    intros [?| ->]; [done|]. by eapply Hin.
Qed.

Lemma connect_entry_at e i idx s s' j k en :
  connect e i idx s = (Ok tt, s') → entry_at (spaces s') j k = Some en →
  j = i ∨ entry_at (spaces s) j k = Some en.
Proof.
  unfold connect. intros Hr. es_inv. simpl. change (alter (set_entries <[idx := Some {| event := e; enabled := true |}]>) i (spaces s))
    with (write_entry i idx (Some {| event := e; enabled := true |}) (spaces s)).
  erewrite entry_at_write by done. case_decide; [by left; naive_solver|by right].
Qed.

Lemma mk_host_subscription_running mem h i :
  i ∈ in_spaces h → keeps (running mem h) (mk_host_subscription i).
Proof.
  intros Hi s [] s' Hr (Hw & Hh & Hm). unfold mk_host_subscription in Hr. ok_inv.
  match goal with H : alloc_event _ _ = (Ok ?e, ?s1) |- _ => apply alloc_event_ok in H as (Hw1 & -> & ->); [|done] end.
  match goal with H : connect _ _ _ _ = (_, ?st) |- _ => rename H into Hc, st into s2 end.
  pose proof (connect_frame _ _ _ _ _ Hc) as Hf. pose proof (connect_length _ _ _ _ _ Hc) as [Hl _].
  assert (Hw2 : wired s2) by (eapply connect_wired; [done|intros _; simpl; by rewrite Hh|done]).
  assert (Hm2 : memory s2 = memory s) by (unfold connect in Hc; es_inv; done).
  split_and!; simpl; [|by rewrite (f_host _ _ Hf)|congruence].
  apply add_sub_wired; [done|rewrite Hl; simpl; rewrite length_app; simpl; lia| |].
  - intros j k en [->|Hen]%(connect_entry_at _ _ _ _ _ _ _ _ Hc) He; rewrite (f_host _ _ Hf); [simpl; by rewrite Hh|].
    simpl in Hen. pose proof (h_entry _ _ _ _ _ (w_heap s Hw) _ _ _ Hen). lia.
  - intros r x' Hx Hin. rewrite (f_inactive _ _ Hf) in Hx. simpl in Hx.
    destruct (r_inactive_in _ (w_refs s Hw) r x' _ Hx Hin). lia.
Qed.

Lemma mk_irq_running mem h p q : keeps (running mem h) (mk_irq kernel p q).
Proof.
  intros s [] s' Hr (Hw & Hh & Hm). unfold mk_irq in Hr. ok_inv.
  match goal with H : unwrap_result _ _ = (Ok tt, ?s1) |- _ =>
    assert (calm s s1 ∧ memory s1 = memory s) as [Hcalm Hm1] end.
  { match goal with H : unwrap_result ?m s = (Ok tt, ?s1) |- _ =>
      assert (m s = (Ok tt, s1)) as Hact by (unfold unwrap_result in H; destruct (m s) as [[[]|?|] ?]; naive_solver) end.
    split; [by eapply try_act_calm|]. unfold try_act, act in Hact. ok_inv. by destruct (kernel _); ok_inv. }
  match goal with H : alloc_event _ ?s1 = (Ok ?e, ?s2) |- _ =>
    pose proof (calm_wired _ _ Hcalm Hw) as Hw1; apply alloc_event_ok in H as (Hw2 & -> & ->); [|done] end.
  match goal with H : connect _ _ _ _ = (_, ?st) |- _ => rename H into Hc, st into s3 end.
  assert (Hw3 : wired s3).
  { eapply connect_wired; [done| |done]. intros Hsub%(h_sub _ _ _ _ _ (w_heap _ Hw1)). exfalso. lia. }
  pose proof (connect_frame _ _ _ _ _ Hc) as Hf. pose proof (connect_length _ _ _ _ _ Hc) as [Hl _].
  assert (Hm3 : memory s3 = mem) by (unfold connect in Hc; es_inv; simpl; congruence).
  split_and!; simpl; [|rewrite (f_host _ _ Hf); simpl; by rewrite (calm_host _ _ Hcalm)|done].
  destruct Hw3 as [Hh3 [R1 R2 R3 R4 R5 R6 R7 R8 R9 R10]]. split; [done|]. split; try done. simpl.
  intros n e [[<- <-]|[_ He]]%lookup_insert_Some; [|eauto]. rewrite Hl. simpl. rewrite length_app. simpl. lia.
Qed.
(** The configuration gives every node enough notifications and memory. *)
Definition config_ok (config : EventServerConfig) (mem : gmap nat (list Z)) : Prop :=
  (∀ node, node ∈ host_notifications config → node_ok mem node (CARDINALITY HostIn)) ∧
  (∀ nodes node, nodes ∈ realm_notifications config → node ∈ nodes → node_ok mem node (CARDINALITY RealmIn)).

Lemma event_server_empty_wired mem : wired (event_server_empty mem).
Proof.
  split; split; simpl; try done; intros *; rewrite ?lookup_empty, ?elem_of_nil; try done.
  by intros (x & Hx%elem_of_nil & _).
Qed.

Lemma set_rs_subscriptions_wired l s :
  wired s → wired (set_rs_subscriptions (λ _, (λ n, {| subscriber := SubNotification n; slot := None |}) <$> l) s).
Proof.
  intros [Hh [R1 R2 R3 R4 R5 R6 R7 R8 R9 R10]]. split; [done|]. split; try done. simpl.
  intros x (n & -> & _)%list_elem_of_fmap. eauto.
Qed.

(** The first part of [realize]: the clients. *)
Lemma realize_clients mem rs ss ho hs s0 s1 s2 s3 n config :
  s0 = event_server_empty mem → config_ok config mem →
  mk_out_space (CARDINALITY ResourceServerOut) s0 = (Ok rs, s1) →
  mk_out_space (CARDINALITY SerialServerOut) s1 = (Ok ss, s2) →
  mk_out_space (CARDINALITY HostOut) s2 = (Ok ho, s3) →
  ∀ s4, mk_host_spaces (host_notifications config) 0 n s3 = (Ok hs, s4) →
  starting mem {| out_space := ho; in_spaces := hs |} (length (events s4))
    (set_clients {| out_space := rs; in_spaces := [] |} {| out_space := ss; in_spaces := [] |}
      {| out_space := ho; in_spaces := hs |} s4) ∧
  ∀ e, e ∈ rs ++ ss ++ ho → e < length (events s4).
Proof.
  intros -> [Hc _] (W1 & F1 & S1 & M1 & L1)%mk_out_space_ok (W2 & F2 & S2 & M2 & L2)%mk_out_space_ok
    (W3 & F3 & S3 & M3 & L3)%mk_out_space_ok s4 (W4 & F4 & S4 & M4 & L4)%mk_host_spaces_ok;
    try done; [|by rewrite M3, M2, M1|apply event_server_empty_wired].
  assert (Hout : ∀ e, e ∈ rs ++ ss ++ ho → e < length (events s4)).
  { pose proof (f_events _ _ F2). pose proof (f_events _ _ F3). pose proof (f_events _ _ F4).
    intros e [?%L1|[?%L2|?%L3]%elem_of_app]%elem_of_app; lia. }
  assert (Hre : realms s4 = ∅) by (by rewrite (f_realms _ _ F4), (f_realms _ _ F3), (f_realms _ _ F2), (f_realms _ _ F1)).
  assert (Hsubs : host_subscriptions s4 = []) by (by rewrite S4, S3, S2, S1).
  split; [|done]. split; simpl; try done; [by apply set_clients_wired|by rewrite M4, M3, M2, M1].
Qed.

(** [advance keep old new tac]: the loop of [new] keeps the invariant that [old] states. *)
Ltac advance keep old new tac := apply keep in new; [|tac|exact old]; clear old; rename new into old.

Lemma realize_wired config n mem s :
  config_ok config mem → realize kernel config n (event_server_empty mem) = (Ok tt, s) → wired s.
Proof.
  intros Hc Hr. unfold realize in Hr. ok_inv.
  match goal with
  | H1 : mk_out_space (CARDINALITY ResourceServerOut) _ = (Ok ?rs', _), H2 : mk_out_space (CARDINALITY SerialServerOut) _ = (Ok ?ss', _),
    H3 : mk_out_space (CARDINALITY HostOut) _ = (Ok ?ho', _), H4 : mk_host_spaces _ _ _ _ = (Ok ?hs', ?s4) |- _ =>
    destruct (realize_clients mem rs' ss' ho' hs' _ _ _ _ n config eq_refl Hc H1 H2 H3 s4 H4) as [Hst Hout];
    rename rs' into rs, ss' into ss, ho' into ho, hs' into hs; clear H1 H2 H3 H4 end.
  match type of Hst with starting _ _ ?k _ =>
    assert (Hss : ∀ e, e ∈ ss → e < k) by (intros; apply Hout; rewrite !elem_of_app; auto);
    assert (Hho : ∀ e, e ∈ ho → e < k) by (intros; apply Hout; rewrite !elem_of_app; auto) end.
  match type of Hst with starting _ ?h ?k _ => set (I := starting mem h k) in * end.
  assert (Hstart : ∀ {m : ESM unit} {s1 s2}, m s1 = (Ok tt, s2) → keeps I m → I s1 → I s2) by (intros; eauto).
  match goal with H : for_each (mk_inactive_realm config) _ _ = _ |- _ => advance Hstart Hst H
    ltac:(apply keeps_for_each; intros; apply mk_inactive_starting, Hc) end.
  match goal with H : for_enumerate _ rs _ = _ |- _ => advance Hstart Hst H ltac:(apply keeps_for_enumerate;
    intros i e He s0 [] s1 Hr0 Hs0; ok_inv; by eapply wire_resource_server_starting) end.
  match goal with H : for_enumerate _ ss _ = _ |- _ => advance Hstart Hst H ltac:(apply keeps_for_enumerate;
    intros i e He s0 [] s1 Hr0 Hs0; ok_inv; eapply wire_serial_server_starting; [by apply Hss|done|done]) end.
  match goal with H : for_enumerate _ ho _ = _ |- _ => advance Hstart Hst H ltac:(apply keeps_for_enumerate;
    intros i e He s0 [] s1 Hr0 Hs0; eapply wire_host_starting; [by apply Hho|done|done]) end.
  match goal with H : for_each _ (seq 0 NUM_REALMS) _ = _ |- _ => advance Hstart Hst H ltac:(apply keeps_for_each;
    intros rid Hrid s0 [] s1 Hr0 Hs0; ok_inv; revert Hs0; eapply keeps_for_enumerate; [|done];
    intros i e He s2 [] s3 Hr2 Hs2; ok_inv; by eapply wire_realm_starting) end.
  match type of Hst with I ?st => assert (Hrun : running mem {| out_space := ho; in_spaces := hs |}
    (set_rs_subscriptions (λ _, (λ n, {| subscriber := SubNotification n; slot := None |}) <$> config_subscriptions config) st)) end.
  { destruct Hst as [S1 S2 S3 S4 S5 S6]. split_and!; [by apply set_rs_subscriptions_wired|done|done]. }
  match type of Hrun with running _ ?h _ => set (J := running mem h) in * end.
  assert (Hkeep : ∀ {m : ESM unit} {s1 s2}, m s1 = (Ok tt, s2) → keeps J m → J s1 → J s2) by (intros; eauto).
  match goal with H : for_each mk_host_subscription _ _ = _ |- _ => advance Hkeep Hrun H
    ltac:(apply keeps_for_each; intros i Hi; by apply mk_host_subscription_running) end.
  match goal with H : for_each _ (irqs config) _ = _ |- _ => advance Hkeep Hrun H ltac:(apply keeps_for_each;
    intros q Hq s0 [] s1 Hr0 Hs0; ok_inv; by eapply mk_irq_running) end.
  by destruct Hrun.
Qed.

(** ** Signals in a wired state *)

(** Event [idx] of space [i] is set in the memory its client reads. *)
Definition event_pending (s : EventServer) (i idx : nat) : Prop :=
  ∃ sp gs, spaces s !! i = Some sp ∧ memory s !! bitfield (notification sp) = Some gs ∧ is_set gs idx.

(** The state after the bit has been set, the notification signalled and the slot emptied. *)
Definition raised (s : EventServer) (i : nat) (sp : InSpace) (gs : list Z) (n : Notification) : EventServer :=
  set_spaces (alter (set_slot None) i) (set_actions (λ l, l ++ [Signal n])
    (set_memory (<[bitfield (notification sp) := gs]>) s)).

(** What is there when an event has a target. *)
Lemma wired_target s e ev i idx :
  wired s → events s !! e = Some ev → target ev = Some (i, idx) →
  ∃ sp en gs w n, spaces s !! i = Some sp ∧ entries sp !! idx = Some (Some en) ∧ event en = e ∧
    memory s !! bitfield (notification sp) = Some gs ∧ gs !! (idx / 64) = Some w ∧
    nfn (notification sp) !! (idx / 64) = Some n.
Proof.
  intros Hw Hev Ht. destruct (h_target _ _ _ _ _ (w_heap s Hw) _ _ _ _ Hev Ht) as (en & (sp & Hsp & Hen)%entry_at_Some & He).
  destruct (h_space _ _ _ _ _ (w_heap s Hw) _ _ Hsp) as [Hn (gs & Hgs & Hg)].
  apply lookup_lt_Some in Hen as Hlt.
  destruct (lookup_lt_is_Some_2 gs _ (Hg _ Hlt)) as [w Hw']. destruct (lookup_lt_is_Some_2 _ _ (Hn _ Hlt)) as [n Hn'].
  by exists sp, en, gs, w, n.
Qed.

Definition member (idx : nat) : Z := Z.shiftl 1 (Z.of_nat (idx mod 64)).

Lemma land_member_0 w idx :
  (Z.land w (member idx) =? 0)%Z = negb (Z.testbit w (Z.of_nat (idx mod 64))).
Proof.
  unfold member. set (m := Z.of_nat (idx mod 64)). assert (Hm : (0 ≤ m)%Z) by lia.
  assert (Z.land w (Z.shiftl 1 m) = Z.shiftl (Z.b2z (Z.testbit w m)) m) as ->.
  { apply Z.bits_inj'. intros i Hi. rewrite Z.land_spec, !Z.shiftl_spec by done.
    destruct (decide (i = m)) as [->|].
    - rewrite Z.sub_diag, Z.b2z_bit0. simpl. apply andb_true_r.
    - destruct (decide (i < m)%Z); [rewrite !(Z.testbit_neg_r _ (i - m)) by lia; apply andb_false_r|].
      rewrite testbit_one, bool_decide_false, andb_false_r by lia. destruct (Z.testbit w m); [|by rewrite Z.bits_0].
      change (Z.b2z true) with 1%Z. by rewrite testbit_one, bool_decide_false by lia. }
  destruct (Z.testbit w m); simpl; [|by rewrite Z.shiftl_0_l]. apply Z.eqb_neq.
  rewrite Z.shiftl_1_l. apply Z.pow_nonzero; lia.
Qed.

(** One round of a signal. *)
Lemma signal_event_round fuel borrowed s e ev i idx sp en gs w n :
  events s !! e = Some ev → target ev = Some (i, idx) → i ∉ borrowed →
  spaces s !! i = Some sp → entries sp !! idx = Some (Some en) →
  memory s !! bitfield (notification sp) = Some gs → gs !! (idx / 64) = Some w →
  nfn (notification sp) !! (idx / 64) = Some n →
  signal_event (S fuel) borrowed e s =
    if Z.testbit w (Z.of_nat (idx mod 64)) then
      (Ok tt, set_memory (<[bitfield (notification sp) := <[idx / 64 := Z.lor w (member idx)]> gs]>) s)
    else
      match subscription_slot sp with
      | None => mret tt
      | Some (SubEvent e') => signal_event fuel (i :: borrowed) e'
      | Some (SubNotification n') => act (Signal n')
      end (raised s i sp (<[idx / 64 := Z.lor w (member idx)]> gs) n).
Proof.
  intros Hev Ht Hb Hsp Hen Hgs Hw Hn. cbn [signal_event].
  erewrite (bind_eq_ok _ _ _ ev) by (unfold get_event, reads, index; by rewrite Hev).
  rewrite Ht. erewrite (bind_eq_ok _ _ _ tt) by (by rewrite bool_decide_false).
  erewrite (bind_eq_ok _ _ _ sp) by (unfold get_space, reads, index; by rewrite Hsp).
  erewrite (bind_eq_ok _ _ _ (Some en)) by (unfold lift, index; by rewrite Hen).
  erewrite (bind_eq_ok _ _ _ tt) by done.
  erewrite (bind_eq_ok _ _ _ (negb (Z.testbit w (Z.of_nat (idx mod 64))))).
  2:{ unfold set_bit. erewrite (bind_eq_ok _ _ _ gs) by (unfold reads; by rewrite Hgs).
      unfold bitfield_set, GROUP_BITS. rewrite Hw. simpl. fold (member idx). rewrite land_member_0. reflexivity. }
  destruct (Z.testbit w _); simpl; [done|].
  erewrite (bind_eq_ok _ _ _ n) by (unfold lift, index; by rewrite Hn).
  erewrite (bind_eq_ok _ _ _ tt) by done. erewrite (bind_eq_ok _ _ _ tt) by done. done.
Qed.

Lemma raised_calm s i sp gs gs' n :
  memory s !! bitfield (notification sp) = Some gs → length gs' = length gs → calm s (raised s i sp gs' n).
Proof.
  intros Hm Hl. eapply calm_trans; [|by eapply clear_slot_calm].
  split; try done; [naive_solver|]. simpl. by eapply same_shape_insert.
Qed.

(** Memory only gains bits. *)
Definition gains (m m' : gmap nat (list Z)) : Prop :=
  ∀ a gs, m !! a = Some gs → ∃ gs', m' !! a = Some gs' ∧ ∀ b, is_set gs b → is_set gs' b.

Lemma gains_refl m : gains m m.
Proof. intros a gs Ha. eauto. Qed.
Lemma gains_trans m1 m2 m3 : gains m1 m2 → gains m2 m3 → gains m1 m3.
Proof. intros H12 H23 a gs (gs2 & H2 & Hb2)%H12. destruct (H23 a gs2 H2) as (gs3 & H3 & Hb3). eauto. Qed.
Lemma gains_set m a gs idx w :
  m !! a = Some gs → gs !! (idx / 64) = Some w →
  gains m (<[a := <[idx / 64 := Z.lor w (member idx)]> gs]> m).
Proof.
  intros Ha Hw b gs' Hb. destruct (decide (b = a)) as [->|]; [|rewrite lookup_insert_ne by done; eauto].
  simplify_eq. rewrite lookup_insert_eq. eexists. split; [done|]. intros k. eapply is_set_insert; [done|].
  intros i Hi. by rewrite Z.lor_spec, Hi.
Qed.

Lemma is_set_lor gs idx w :
  gs !! (idx / 64) = Some w → is_set (<[idx / 64 := Z.lor w (member idx)]> gs) idx.
Proof.
  intros Hw. exists (Z.lor w (member idx)). rewrite list_lookup_insert_eq by (by eapply lookup_lt_Some).
  split; [done|]. unfold member. rewrite Z.lor_spec, testbit_shiftl_1. apply orb_true_r.
Qed.

(** Pending events stay so. *)
Lemma pending_gains s s' i idx :
  calm s s' → gains (memory s) (memory s') → event_pending s i idx → event_pending s' i idx.
Proof.
  intros Hc Hg (sp & gs & Hsp & Hgs & Hset). destruct (Hg _ _ Hgs) as (gs' & Hgs' & Hb).
  destruct (lookup_lt_is_Some_2 (spaces s') i) as [sp' Hsp'].
  { rewrite (calm_length _ _ Hc). by eapply lookup_lt_Some. }
  destruct (calm_spaces _ _ Hc _ _ Hsp') as (sp0 & ? & _ & Hn & _). simplify_eq.
  exists sp', gs'. rewrite Hn. split_and!; eauto.
Qed.

(** The outcome of a signal to [(i, idx)], whatever the subscriber does. *)
Record signalled (s s' : EventServer) (i idx : nat) (sp : InSpace) : Prop := {
  sg_calm : calm s s';
  sg_gains : gains (memory s) (memory s');
  sg_pending : event_pending s' i idx;
  sg_again : event_pending s i idx → actions s' = actions s;
  sg_first : ¬ event_pending s i idx → ∃ n tail,
    nfn (notification sp) !! (idx / 64) = Some n ∧ actions s' = actions s ++ Signal n :: tail ∧
    match subscription_slot sp with
    | None => tail = []
    | Some (SubNotification n') => tail = [Signal n']
    | Some (SubEvent e') => ∀ ev' j k, events s !! e' = Some ev' → target ev' = Some (j, k) → event_pending s' j k
    end;
}.

(** The subscriber of a space is woken by [m]. *)
Definition wakes (s s' : EventServer) (x : option Subscriber) : Prop :=
  calm s s' ∧ gains (memory s) (memory s') ∧ ∃ tail, actions s' = actions s ++ tail ∧
  match x with
  | None => tail = []
  | Some (SubNotification n') => tail = [Signal n']
  | Some (SubEvent e') => ∀ ev' j k, events s !! e' = Some ev' → target ev' = Some (j, k) → event_pending s' j k
  end.

Lemma signal_event_signalled fuel borrowed s e ev i idx :
  wired s → events s !! e = Some ev → target ev = Some (i, idx) → i ∉ borrowed →
  (∀ sp s1, spaces s !! i = Some sp → wired s1 → events s1 = events s → host s1 = host s → host_subscriptions s1 = host_subscriptions s →
    ∃ s2, match subscription_slot sp with
      | None => mret tt
      | Some (SubEvent e') => signal_event fuel (i :: borrowed) e'
      | Some (SubNotification n') => act (Signal n')
      end s1 = (Ok tt, s2) ∧ wakes s1 s2 (subscription_slot sp)) →
  ∃ sp s', spaces s !! i = Some sp ∧ signal_event (S fuel) borrowed e s = (Ok tt, s') ∧ signalled s s' i idx sp.
Proof.
  intros Hw Hev Ht Hb Hsub.
  destruct (wired_target s e ev i idx Hw Hev Ht) as (sp & en & gs & w & n & Hsp & Hen & _ & Hgs & Hgw & Hn).
  pose proof (signal_event_round fuel borrowed s e ev i idx sp en gs w n Hev Ht Hb Hsp Hen Hgs Hgw Hn) as Hround.
  exists sp. assert (Hset := is_set_lor gs idx w Hgw). set (gs' := <[idx / 64 := Z.lor w (member idx)]> gs) in *.
  assert (Hpend : event_pending s i idx ↔ Z.testbit w (Z.of_nat (idx mod 64)) = true).
  { unfold event_pending, is_set. split; [intros (sp' & gs0 & ? & ? & w' & ? & ?); simplify_eq; congruence|].
    intros. exists sp, gs. eauto. }
  assert (Hgain : gains (memory s) (<[bitfield (notification sp) := gs']> (memory s))) by (by apply gains_set).
  destruct (Z.testbit w _) eqn:Hbit.
  - eexists. split; [done|]. split; [exact Hround|]. split.
    + split; try done; [naive_solver|]. simpl. eapply same_shape_insert; [done|apply length_insert].
    + done.
    + exists sp, gs'. split_and!; [done|apply lookup_insert_eq|done].
    + done.
    + intros Hno. by destruct Hno; apply Hpend.
  - assert (Hc : calm s (raised s i sp gs' n)) by (eapply raised_calm; [done|apply length_insert]).
    destruct (Hsub sp (raised s i sp gs' n) Hsp) as (s2 & Hs2 & Hc2 & Hg2 & tail & Htail & Hmatch); [by eapply calm_wired|done..|].
    exists s2. split; [done|]. split; [by rewrite Hround|].
    assert (Hp1 : event_pending (raised s i sp gs' n) i idx).
    { destruct (lookup_lt_is_Some_2 (spaces (raised s i sp gs' n)) i) as [sp1 Hsp1].
      { rewrite (calm_length _ _ Hc). by eapply lookup_lt_Some. }
      destruct (calm_spaces _ _ Hc _ _ Hsp1) as (sp0 & ? & _ & Hnot & _). simplify_eq.
      exists sp1, gs'. rewrite Hnot. split_and!; [done|apply lookup_insert_eq|done]. }
    split.
    + by eapply calm_trans.
    + by eapply gains_trans.
    + by eapply pending_gains.
    + intros Hp%Hpend. congruence.
    + intros _. exists n, tail. split; [done|]. split; [by rewrite Htail; simpl; rewrite <-app_assoc|].
      destruct (subscription_slot sp) as [[]|]; done.
Qed.

(** A host's space is left without a subscriber that is an event, so its signals end there. *)
Lemma signal_host_total fuel borrowed s e ev i idx :
  wired s → events s !! e = Some ev → target ev = Some (i, idx) → i ∈ in_spaces (host s) → i ∉ borrowed →
  ∃ sp s', spaces s !! i = Some sp ∧ signal_event (S fuel) borrowed e s = (Ok tt, s') ∧ signalled s s' i idx sp.
Proof.
  intros Hw Hev Ht Hi Hb. eapply signal_event_signalled; [done..|].
  intros sp s1 Hsp Hw1 _ _ _. destruct (subscription_slot sp) as [[e'|n']|] eqn:Hslot.
  - by destruct (h_slot _ _ _ _ _ (w_heap s Hw) _ _ _ Hsp Hslot).
  - eexists. split; [done|]. split_and!; [by eapply act_calm|apply gains_refl|]. eauto.
  - eexists. split; [done|]. split_and!; [apply calm_refl|apply gains_refl|]. exists []. by rewrite app_nil_r.
Qed.

(** The event of a subscription ends in a space of the host. *)
Lemma signal_sub_wakes fuel i s e :
  wired s → is_sub s e → i ∉ in_spaces (host s) →
  ∃ s', signal_event (S fuel) [i] e s = (Ok tt, s') ∧ wakes s s' (Some (SubEvent e)).
Proof.
  intros Hw Hsub Hi. destruct (lookup_lt_is_Some_2 (events s) e) as [ev Hev]; [by apply (h_sub _ _ _ _ _ (w_heap s Hw))|].
  destruct (target ev) as [[j k]|] eqn:Ht.
  - assert (Hj : j ∈ in_spaces (host s)).
    { destruct (h_target _ _ _ _ _ (w_heap s Hw) _ _ _ _ Hev Ht) as (en & Hen & <-).
      by apply (h_sub_entry _ _ _ _ _ (w_heap s Hw) _ _ _ Hen). }
    destruct (signal_host_total fuel [i] s e ev j k) as (sp & s' & Hsp & Hs' & Hsg); [done..| |].
    { intros ->%list_elem_of_singleton. done. }
    exists s'. split; [done|]. destruct (decide (actions s' = actions s)) as [Ha|Ha].
    + split_and!; [by eapply sg_calm|by eapply sg_gains|]. exists []. rewrite app_nil_r. split; [done|].
      intros ev' j' k' Hev' Ht'. simplify_eq. by eapply sg_pending.
    + split_and!; [by eapply sg_calm|by eapply sg_gains|].
      destruct (sg_first _ _ _ _ _ Hsg) as (n & tail & _ & Hact & _).
      { intros Hp. by apply Ha, (sg_again _ _ _ _ _ Hsg). }
      exists (Signal n :: tail). split; [done|]. intros ev' j' k' Hev' Ht'. simplify_eq. by eapply sg_pending.
  - exists s. split.
    + cbn [signal_event]. erewrite (bind_eq_ok _ _ _ ev) by (unfold get_event, reads, index; by rewrite Hev). by rewrite Ht.
    + split_and!; [apply calm_refl|apply gains_refl|]. exists []. rewrite app_nil_r. split; [done|]. intros. simplify_eq.
Qed.

Lemma signal_total s e ev i idx :
  wired s → events s !! e = Some ev → target ev = Some (i, idx) →
  ∃ sp s', spaces s !! i = Some sp ∧ signal e s = (Ok tt, s') ∧ signalled s s' i idx sp.
Proof.
  intros Hw Hev Ht. unfold signal.
  destruct (wired_target s e ev i idx Hw Hev Ht) as (sp0 & _ & _ & _ & _ & Hsp0 & _).
  destruct (length (spaces s)) as [|fuel] eqn:Hl; [apply lookup_lt_Some in Hsp0; lia|].
  eapply signal_event_signalled; [done..|by apply not_elem_of_nil|].
  intros sp s1 Hsp Hw1 He1 Hh1 Hs1. destruct (subscription_slot sp) as [[e'|n']|] eqn:Hslot.
  - destruct (h_slot _ _ _ _ _ (w_heap s Hw) _ _ _ Hsp Hslot) as [Hsub Hi].
    apply signal_sub_wakes; [done| |by rewrite Hh1]. unfold is_sub in *. by rewrite Hs1.
  - eexists. split; [done|]. split_and!; [by eapply act_calm|apply gains_refl|]. eauto.
  - eexists. split; [done|]. split_and!; [apply calm_refl|apply gains_refl|]. exists []. by rewrite app_nil_r.
Qed.

Lemma signal_ok s e : wired s → e < length (events s) → ∃ s', signal e s = (Ok tt, s').
Proof.
  intros Hw He. destruct (lookup_lt_is_Some_2 _ _ He) as [ev Hev].
  destruct (target ev) as [[i idx]|] eqn:Ht.
  - destruct (signal_total s e ev i idx Hw Hev Ht) as (sp & s' & _ & Hs & _). eauto.
  - exists s. unfold signal. cbn [signal_event].
    erewrite (bind_eq_ok _ _ _ ev) by (unfold get_event, reads, index; by rewrite Hev). by rewrite Ht.
Qed.

Lemma client_of_out id s c e :
  client_of id s = (Ok c, s) → wired s → e ∈ out_space c → e < length (events s).
Proof.
  intros Hc Hw He. destruct id; simpl in Hc.
  1-3: apply gets_ok_inv in Hc as [-> _]; apply (r_out _ (w_refs s Hw)); rewrite !elem_of_app; auto.
  apply reads_ok_inv in Hc as [Hc%unwrap_ok_inv _]. by eapply (r_realm_out _ (w_refs s Hw)).
Qed.

Lemma irq_thread_ok irqs badge s :
  wired s → (∀ i, i ∈ biterate badge → ∃ n, irqs !! i = Some n ∧ is_Some (irq_events s !! n)) →
  ∃ s', irq_thread irqs badge s = (Ok tt, s').
Proof.
  unfold irq_thread. generalize (biterate badge). intros l. revert s.
  induction l as [|i l IH]; intros s Hw Hl; [by eexists|]. cbn [for_each].
  destruct (Hl i) as (n & Hn & e & He); [by constructor|].
  destruct (signal_ok s e Hw (r_irq _ (w_refs s Hw) _ _ He)) as [s1 Hs1].
  erewrite (bind_eq_ok _ _ _ tt s1).
  2:{ erewrite (bind_eq_ok _ _ _ n) by (unfold lift, index; by rewrite Hn).
      erewrite (bind_eq_ok _ _ _ e) by (unfold reads; by rewrite He). done. }
  pose proof (signal_calm _ _ _ Hs1) as Hc. apply IH; [by eapply calm_wired|].
  intros j Hj. rewrite (calm_irq _ _ Hc). apply Hl. by constructor.
Qed.

(** ** The server in operation *)

Definition es_reachable (config : EventServerConfig) (n : nat) (mem : gmap nat (list Z)) (badges : Badges)
    (s : EventServer) : Prop :=
  ∃ s0, realize kernel config n (event_server_empty mem) = (Ok tt, s0) ∧ rtc (es_step badges) s0 s.

Lemma es_reachable_wired config n mem badges s :
  config_ok config mem → es_reachable config n mem badges s → wired s.
Proof.
  intros Hc (s0 & H0 & Hs). pose proof (realize_wired _ _ _ _ Hc H0) as Hw. clear H0.
  induction Hs as [|s1 s2 s3 Hstep _ IH]; [done|]. by eapply IH, es_step_wired.
Qed.

(** C15: The event server keeps its events wired, as long as clients move events to free entries, or
    in place, only ([admissible_message]).  From its start, through every such message and every
    interrupt that it handles without an error or a panic, and whatever its clients do to their
    bitfields, an event with a
    target is the one that the targeted entry holds.  (The server also serves a move onto an
    entry that is taken: after it a signal can panic, see [move_stale_target].)  So a client that signals any of its events, and an interrupt thread that passes on
    interrupts the server knows, always succeed: there is no panic and no borrow conflict. *)
Theorem event_server_wired config n mem badges s :
  config_ok config mem → es_reachable config n mem badges s →
  (∀ e ev i idx, events s !! e = Some ev → target ev = Some (i, idx) →
    ∃ en, entry_at (spaces s) i idx = Some en ∧ event en = e) ∧
  (∀ id c k, client_of id s = (Ok c, s) → k < length (out_space c) →
    ∃ s', client_signal c k s = (Ok tt, s')) ∧
  (∀ irqs badge, (∀ i, i ∈ biterate badge → ∃ m, irqs !! i = Some m ∧ is_Some (irq_events s !! m)) →
    ∃ s', irq_thread irqs badge s = (Ok tt, s')).
Proof.
  intros Hc Hw%es_reachable_wired; [|done]. split_and!.
  - apply (h_target _ _ _ _ _ (w_heap s Hw)).
  - intros id c k Hid Hk. destruct (lookup_lt_is_Some_2 _ _ Hk) as [e He]. unfold client_signal.
    erewrite (bind_eq_ok _ _ _ e) by (unfold lift, index; by rewrite He).
    apply signal_ok; [done|]. eapply client_of_out; [done..|]. by eapply list_elem_of_lookup_2.
  - intros irqs badge. by apply irq_thread_ok.
Qed.

(** C23: Signals are delivered.  In every reachable state, signalling an event with a target
    sets the event's bit in the memory of the target's client and loses no other bit.  If the
    bit was set already nothing else happens; otherwise the notification of the bit's group
    is signalled, and after it the subscriber of the space: a notification is signalled, and
    an event is raised in turn in its own target. *)
Theorem signal_delivers config n mem badges s e ev i idx :
  config_ok config mem → es_reachable config n mem badges s →
  events s !! e = Some ev → target ev = Some (i, idx) →
  ∃ sp s', spaces s !! i = Some sp ∧ signal e s = (Ok tt, s') ∧
    event_pending s' i idx ∧
    (∀ j k, event_pending s j k → event_pending s' j k) ∧
    (event_pending s i idx → actions s' = actions s) ∧
    (¬ event_pending s i idx → ∃ nf tail,
      nfn (notification sp) !! (idx / 64) = Some nf ∧ actions s' = actions s ++ Signal nf :: tail ∧
      match subscription_slot sp with
      | None => tail = []
      | Some (SubNotification n') => tail = [Signal n']
      | Some (SubEvent e') => ∀ ev' j k, events s !! e' = Some ev' → target ev' = Some (j, k) → event_pending s' j k
      end).
Proof.
  intros Hc Hw%es_reachable_wired Hev Ht; [|done].
  destruct (signal_total s e ev i idx Hw Hev Ht) as (sp & s' & Hsp & Hs & Hsg).
  exists sp, s'. split_and!; try done.
  - by eapply sg_pending.
  - intros j k. by apply pending_gains; [eapply sg_calm|eapply sg_gains].
  - by eapply sg_again.
  - by eapply sg_first.
Qed.
End event_server_spec.

(** ** A concrete server

    Two cores, two realms with a node each, and interrupt 48.  Host nodes have 16 groups of
    events, realm nodes one; the kernel never fails. *)
Module Demo.
Definition all_good (a : Action) : bool := true.
Definition demo_config : EventServerConfig :=
  {| host_notifications := [{| nfn := seq 100 16; bitfield := 0 |}; {| nfn := seq 200 16; bitfield := 1 |}];
     realm_notifications := [[{| nfn := [300]; bitfield := 2 |}]; [{| nfn := [400]; bitfield := 3 |}]];
     config_subscriptions := [500; 501];
     irqs := [(48, (7, seq 600 16))] |}.
Definition demo_mem : gmap nat (list Z) :=
  list_to_map [(0, replicate 16 0%Z); (1, replicate 16 0%Z); (2, [0%Z]); (3, [0%Z])].
Definition demo_badges : Badges :=
  {| client_badges := [IdHost; IdRealm 0]; resource_server_badge := 2; host_badge := 1 |}.

(** After the start; after realm 0 was created and the host subscribed to its events. *)
Definition demo_server : EventServer := (realize all_good demo_config 2 (event_server_empty demo_mem)).2.
Definition demo_created : EventServer :=
  (handle_message all_good demo_badges 2050 (OfResourceServer (RSCreateRealm 0 1)) demo_server).2.
Definition demo_subscribed : EventServer :=
  (handle_message all_good demo_badges 2049 (OfHost (HostSubscribe 1 0 0)) demo_created).2.

Lemma demo_config_ok : config_ok demo_config demo_mem.
Proof.
  split.
  - assert (Hdiv : ∀ idx, idx < CARDINALITY HostIn → idx / 64 < 16).
    { intros idx Hidx. apply Nat.Div0.div_lt_upper_bound. change (CARDINALITY HostIn) with 995 in Hidx. lia. }
    intros node Hnode. cbn [host_notifications demo_config] in Hnode.
    rewrite !elem_of_cons, elem_of_nil in Hnode. destruct Hnode as [->|[->|[]]];
      (split; [exact Hdiv|]); exists (replicate 16 0%Z); (split; [reflexivity|exact Hdiv]).
  - assert (Hdiv : ∀ idx, idx < CARDINALITY RealmIn → idx / 64 < 1).
    { intros idx Hidx. apply Nat.Div0.div_lt_upper_bound. change (CARDINALITY RealmIn) with 3 in Hidx. lia. }
    intros nodes node Hnodes Hnode. cbn [realm_notifications demo_config] in Hnodes.
    rewrite !elem_of_cons, elem_of_nil in Hnodes. destruct Hnodes as [->|[->|[]]];
      apply list_elem_of_singleton in Hnode as ->; (split; [exact Hdiv|]); exists [0%Z]; (split; [reflexivity|exact Hdiv]).
Qed.

Lemma run_ok {A} (m : ESM A) s a : (m s).1 = Ok a → m s = (Ok a, (m s).2).
Proof. intros <-. apply surjective_pairing. Qed.

Lemma demo_reachable : es_reachable all_good demo_config 2 demo_mem demo_badges demo_subscribed.
Proof.
  exists demo_server. split; [unfold demo_server; apply run_ok; vm_compute; reflexivity|].
  apply rtc_l with demo_created.
  - apply (es_message _ _ _ 2050 (OfResourceServer (RSCreateRealm 0 1))); [done|].
    unfold demo_created. apply run_ok. vm_compute. reflexivity.
  - apply rtc_once. apply (es_message _ _ _ 2049 (OfHost (HostSubscribe 1 0 0))); [done|].
    unfold demo_subscribed. apply run_ok. vm_compute. reflexivity.
Qed.

Lemma event_server_wired_witness :
  length (out_space (host demo_subscribed)) = 4 ∧
  ∃ s', client_signal (host demo_subscribed) 0 demo_subscribed = (Ok tt, s').
Proof.
  split; [vm_compute; reflexivity|].
  destruct (event_server_wired all_good demo_config 2 demo_mem demo_badges demo_subscribed
    demo_config_ok demo_reachable) as (_ & H & _).
  apply (H IdHost); [reflexivity|vm_compute; lia].
Defined.

(** The host signals realm 0; the realm's space has a subscriber, the event of core 1. *)
Lemma signal_delivers_witness :
  target <$> events demo_subscribed !! 4 = Some (Some (2, 0)) ∧
  ∃ s', signal 4 demo_subscribed = (Ok tt, s') ∧ event_pending s' 2 0.
Proof.
  split; [vm_compute; reflexivity|].
  destruct (signal_delivers all_good demo_config 2 demo_mem demo_badges demo_subscribed 4
    {| target := Some (2, 0); irq := None |} 2 0 demo_config_ok demo_reachable) as (sp & s' & _ & Hs & Hp & _).
  - vm_compute. reflexivity.
  - reflexivity.
  - exists s'. split; [exact Hs|exact Hp].
Defined.

(** What a move to an occupied entry does: the event that was there keeps its target, so
    when the entry is emptied later, signalling it panics.  Here the interrupt takes the
    place of the host's realm event of core 0 and is then moved on. *)
Lemma move_stale_target :
  ∃ s1 s2,
    client_move all_good (host demo_server) 0 81 0 0 demo_server = (Ok tt, s1) ∧
    client_move all_good (host s1) 0 0 0 5 s1 = (Ok tt, s2) ∧
    (∃ e, subscriber <$> host_subscriptions s2 !! 0 = Some (SubEvent e) ∧ (signal e s2).1 = Panic).
Proof.
  do 2 eexists. split; [apply run_ok; vm_compute; reflexivity|].
  split; [apply run_ok; vm_compute; reflexivity|]. eexists. split; vm_compute; reflexivity.
Qed.
End Demo.
