(* ===== verification/Rpc.v ===== *)
(** * Rpc: requests and answers in message registers

    Model of [framework/base/icecap-rpc] and its crate of types: the traits [Sending] and
    [Receiving], the marshalling of serializable types into words, and the proxy that passes
    messages on without decoding them.  The serializer ([postcard]) is the class [Postcard], with
    its law [PostcardLaws]; the message registers and the kernel's calls are the class [Ipc].

    Then: what is sent is received, through message registers, through a slice and through a
    proxy, when it fits in the registers. *)

From S2P Require Import Prelude.
From S2P Require Import RingBuffer.

(** [seL4_GetMR], [seL4_SetMR] and [seL4_Call]: the answer is its length, its content is in the
    message registers. *)
Class Ipc (K : Type) := {
  MSG_MAX_LENGTH : nat;
  seL4_GetMR : nat → K → Z;
  seL4_SetMR : nat → Z → K → K;
  ep_call : Z → nat → K → nat * K;
}.
#[global] Arguments MSG_MAX_LENGTH K {_}.

(** The message registers are memory. *)
Class IpcLaws (K : Type) `{!Ipc K} := {
  get_set_same i v (k : K) : seL4_GetMR i (seL4_SetMR i v k) = v;
  get_set_other i j v (k : K) : i ≠ j → seL4_GetMR i (seL4_SetMR j v k) = seL4_GetMR i k;
}.

(** The trait [Parameter] is the identity on words. *)
Class Receiving (S E : Type) := {
  read_value : M S E Z;
  remaining : S → nat;
}.
Class Sending (S E : Type) := write_value : Z → M S E unit.

(** [postcard::to_allocvec] and [postcard::from_bytes]. *)
Class Postcard (T : Type) := {
  to_allocvec : T → option (list Z);
  from_bytes : list Z → option T;
}.
(** A value that was serialized is read back, and bytes after it are ignored. *)
Class PostcardLaws (T : Type) `{!Postcard T} := {
  serialized_bytes (x : T) bs : to_allocvec x = Some bs → Forall (is_word 8) bs;
  serialized_back (x : T) bs pad : to_allocvec x = Some bs → from_bytes (bs ++ pad) = Some x;
}.

Definition size_of_ParameterValue : nat := 8.

Fixpoint to_le_bytes (n : nat) (v : Z) : list Z :=
  match n with 0 => [] | S n' => (v mod 256)%Z :: to_le_bytes n' (v / 256)%Z end.

(** [chunks_exact]: the first [n] chunks. *)
Fixpoint chunks_exact (n : nat) (bytes : list Z) : list (list Z) :=
  match n with
  | 0 => []
  | S n' => take size_of_ParameterValue bytes :: chunks_exact n' (drop size_of_ParameterValue bytes)
  end.

(** ** [RPC for T] *)
Section rpc.
Context {S E T : Type} `{!Postcard T}.

Definition num_parameters (bytes : list Z) : nat :=
  (length bytes + size_of_ParameterValue - 1) / size_of_ParameterValue.

Definition send `{!Sending S E} (x : T) : M S E unit :=
  bytes ← lift (unwrap (to_allocvec x));
  let n := num_parameters bytes in
  let bytes := resize (n * size_of_ParameterValue) 0%Z bytes in
  assert_ (bool_decide (length bytes mod size_of_ParameterValue = 0)) ;;
  for_each (λ chunk, write_value (from_le_bytes chunk))
    (chunks_exact (length bytes / size_of_ParameterValue) bytes).

Fixpoint read_bytes `{!Receiving S E} (n : nat) : M S E (list Z) :=
  match n with
  | 0 => mret []
  | Datatypes.S n' =>
    v ← read_value;
    bytes ← read_bytes n';
    mret (to_le_bytes size_of_ParameterValue v ++ bytes)
  end.

Definition recv `{!Receiving S E} : M S E T :=
  n ← gets remaining;
  bytes ← read_bytes n;
  lift (unwrap (from_bytes bytes)).
End rpc.

(** ** Vectors and slices *)
#[global] Instance vec_sending E : Sending (list Z) E := λ v, modify (λ l, l ++ [v]).
#[global] Instance slice_receiving E : Receiving (list Z) E := {|
  read_value := v ← reads (λ l, index l 0); modify (drop 1) ;; mret v;
  remaining := length;
|}.

Definition send_to_vec {E T} `{!Postcard T} (x : T) : outcome E (list Z) :=
  match send (E := E) x [] with (Ok _, l) => Ok l | (Err e, _) => Err e | (Panic, _) => Panic end.
Definition recv_from_slice {E T} `{!Postcard T} (l : list Z) : outcome E T := (recv l).1.

(** ** Message registers *)
Section registers.
Context {K E : Type} `{!Ipc K}.

(** [MessageRegister::new(i).get()] and [.set(v)]. *)
Definition mr_get (i : nat) : M K E Z :=
  assert_ (bool_decide (i < MSG_MAX_LENGTH K)) ;; gets (seL4_GetMR i).
Definition mr_set (i : nat) (v : Z) : M K E unit :=
  assert_ (bool_decide (i < MSG_MAX_LENGTH K)) ;; modify (seL4_SetMR i v).

Record ReceivingImpl := { r_length : nat; r_cursor : nat; r_kernel : K }.
Record SendingImpl := { s_cursor : nat; s_kernel : K }.

#[global] Instance ReceivingImpl_receiving : Receiving ReceivingImpl E := {|
  read_value := λ r,
    if decide (r_cursor r = r_length r) then (Panic, r)
    else match mr_get (r_cursor r) (r_kernel r) with
         | (Ok v, k) => (Ok v, {| r_length := r_length r; r_cursor := r_cursor r + 1; r_kernel := k |})
         | (Err e, k) => (Err e, r)
         | (Panic, k) => (Panic, r)
         end;
  remaining r := r_length r - r_cursor r;
|}.
#[global] Instance SendingImpl_sending : Sending SendingImpl E := λ v s,
  match mr_set (s_cursor s) v (s_kernel s) with
  | (Ok _, k) => (Ok tt, {| s_cursor := s_cursor s + 1; s_kernel := k |})
  | (Err e, k) => (Err e, s)
  | (Panic, k) => (Panic, s)
  end.

(** A program on [SendingImpl] from an empty message; it gives the length of the message. *)
Definition sending (m : M SendingImpl E unit) : M K E nat := λ k,
  let '(o, s) := m {| s_cursor := 0; s_kernel := k |} in ((_ ← o; Ok (s_cursor s)), s_kernel s).
Definition receiving {A} (length : nat) (m : M ReceivingImpl E A) : M K E A := λ k,
  let '(o, r) := m {| r_length := length; r_cursor := 0; r_kernel := k |} in (o, r_kernel r).

(** [SendingImpl::complete] and [ReceivingImpl::complete], a message being its length. *)
Definition sending_complete {T} `{!Postcard T} (x : T) : M K E nat := sending (send x).
Definition receiving_complete {T} `{!Postcard T} (length : nat) : M K E T := receiving length recv.

(** [Client::call]. *)
Definition call {In Out} `{!Postcard In} `{!Postcard Out} (ep : Z) (input : In) : M K E Out :=
  n ← sending_complete input;
  r ← (λ k, let '(r, k') := ep_call ep n k in (Ok r, k'));
  receiving_complete r.

(** The module [proxy]. *)
Fixpoint down_loop (n : nat) : M ReceivingImpl E (list Z) :=
  match n with
  | 0 => mret []
  | S n' => v ← read_value; vs ← down_loop n'; mret (v :: vs)
  end.
Definition down (length : nat) : M K E (list Z) := receiving length (down_loop length).

Definition up (parameters : list Z) : M K E nat :=
  sending (for_each write_value parameters) ;; mret (length parameters).
End registers.
Arguments ReceivingImpl : clear implicits.
Arguments SendingImpl : clear implicits.

(** ** Bytes and words *)

Lemma le_bytes_back c : Forall (is_word 8) c → to_le_bytes (length c) (from_le_bytes c) = c.
Proof.
  induction 1 as [|b c Hb Hc IH]; [done|]. cbn [length to_le_bytes]. unfold is_word in Hb.
  change (from_le_bytes (b :: c)) with (b + 256 * from_le_bytes c)%Z.
  assert (0 ≤ b < 256)%Z by (change (2 ^ 8)%Z with 256%Z in Hb; lia).
  rewrite (Z.mul_comm 256), Z.mod_add, Z.mod_small, Z.div_add, Z.div_small, Z.add_0_l, IH by lia. done.
Qed.

(** The words of a message: the bytes, padded with zeros. *)
Definition padded (bs : list Z) : list Z := resize (num_parameters bs * size_of_ParameterValue) 0%Z bs.
Definition words (bs : list Z) : list Z := from_le_bytes <$> chunks_exact (num_parameters bs) (padded bs).
Definition bytes_of (ws : list Z) : list Z := mjoin (to_le_bytes size_of_ParameterValue <$> ws).

Lemma padded_eq bs : ∃ n, padded bs = bs ++ replicate n 0%Z.
Proof.
  unfold padded. rewrite resize_ge; [by eexists|]. unfold num_parameters, size_of_ParameterValue.
  pose proof (Nat.div_mod (length bs + 8 - 1) 8). pose proof (Nat.mod_upper_bound (length bs + 8 - 1) 8). lia.
Qed.

Lemma length_chunks n l : length (chunks_exact n l) = n.
Proof. revert l. induction n; intros l; simpl; auto. Qed.

Lemma bytes_of_chunks n l :
  length l = n * size_of_ParameterValue → Forall (is_word 8) l →
  bytes_of (from_le_bytes <$> chunks_exact n l) = l.
Proof.
  revert l. induction n as [|n IH]; intros l Hl Hall; [by destruct l|].
  cbn [chunks_exact fmap list_fmap]. unfold bytes_of in *. cbn [fmap list_fmap mjoin list_join].
  unfold size_of_ParameterValue in *. rewrite IH; [|rewrite length_drop; lia|by apply Forall_drop].
  assert (length (take 8 l) = 8) as Hlen by (rewrite length_take; lia).
  pose proof (le_bytes_back (take 8 l) ltac:(by apply Forall_take)) as Hb. rewrite Hlen in Hb.
  rewrite Hb. apply take_drop.
Qed.

Lemma bytes_of_words bs : Forall (is_word 8) bs → bytes_of (words bs) = padded bs.
Proof.
  intros Hbs. apply bytes_of_chunks; [apply length_resize|].
  destruct (padded_eq bs) as [n ->]. apply Forall_app. split; [done|].
  apply Forall_replicate. split; [done|]. reflexivity.
Qed.

Lemma length_words bs : length (words bs) = num_parameters bs.
Proof. unfold words. by rewrite length_fmap, length_chunks. Qed.

(** ** Sending and receiving *)
Section lemmas.
Context {E T : Type} `{!Postcard T}.

Lemma for_each_fmap {S A B} (f : A → B) (g : B → M S E unit) l :
  for_each (λ x, g (f x)) l = for_each g (f <$> l).
Proof. induction l as [|x l IH]; simpl; [done|]. by rewrite IH. Qed.

(** [send] writes the words of the serialized value, whatever it writes to. *)
Lemma send_eq {S} `{!Sending S E} (x : T) bs s :
  to_allocvec x = Some bs → (send x : M S E unit) s = for_each write_value (words bs) s.
Proof.
  intros Hx. unfold send, lift. rewrite Hx. erewrite bind_eq_ok by done. cbv zeta.
  rewrite length_resize. unfold assert_.
  rewrite bool_decide_true by (by apply Nat.Div0.mod_mul).
  erewrite bind_eq_ok by done. rewrite Nat.div_mul by done. unfold words. fold (padded bs).
  by rewrite for_each_fmap.
Qed.

Lemma recv_eq {S} `{!Receiving S E} bs (x : T) s s' :
  to_allocvec x = Some bs → PostcardLaws T → remaining s = num_parameters bs →
  (read_bytes (num_parameters bs) : M S E _) s = (Ok (bytes_of (words bs)), s') →
  (recv : M S E T) s = (Ok x, s').
Proof.
  intros Hx Hlaw Hrem Hread. unfold recv. erewrite bind_eq_ok by done. rewrite Hrem.
  erewrite bind_eq_ok by done. rewrite bytes_of_words by (by eapply serialized_bytes).
  destruct (padded_eq bs) as [n ->]. unfold lift. by erewrite serialized_back.
Qed.

(** Vectors and slices. *)
Lemma vec_write ws l : for_each (write_value (E := E)) ws l = (Ok tt, l ++ ws).
Proof.
  revert l. induction ws as [|w ws IH]; intros l; simpl; [by rewrite app_nil_r|].
  erewrite bind_eq_ok by done. rewrite IH. by rewrite <-app_assoc.
Qed.

Lemma slice_read ws rest : (read_bytes (length ws) : M (list Z) E _) (ws ++ rest) = (Ok (bytes_of ws), rest).
Proof.
  induction ws as [|w ws IH]; [done|]. cbn [length read_bytes app].
  erewrite bind_eq_ok; [|reflexivity]. change (drop 1 (w :: ws ++ rest)) with (ws ++ rest).
  by erewrite bind_eq_ok.
Qed.
End lemmas.

(** Message registers. *)
Section kernel.
Context {K E T : Type} `{!Ipc K} `{!IpcLaws K} `{!Postcard T}.

Fixpoint set_mrs (i : nat) (ws : list Z) (k : K) : K :=
  match ws with [] => k | w :: ws' => set_mrs (S i) ws' (seL4_SetMR i w k) end.

Lemma get_set_mrs_before i j ws k : j < i → seL4_GetMR j (set_mrs i ws k) = seL4_GetMR j k.
Proof.
  revert i k. induction ws as [|w ws IH]; intros i k Hj; [done|]. simpl.
  rewrite IH by lia. apply get_set_other. lia.
Qed.
Lemma get_set_mrs i ws k j w : ws !! j = Some w → seL4_GetMR (i + j) (set_mrs i ws k) = w.
Proof.
  revert i k j. induction ws as [|w' ws IH]; intros i k [|j] Hj; simplify_eq/=.
  - rewrite Nat.add_0_r, get_set_mrs_before by lia. apply get_set_same.
  - replace (i + S j) with (S i + j) by lia. by apply IH.
Qed.

Lemma registers_write ws i (k : K) :
  i + length ws ≤ MSG_MAX_LENGTH K →
  for_each (write_value (E := E)) ws {| s_cursor := i; s_kernel := k |} =
    (Ok tt, {| s_cursor := i + length ws; s_kernel := set_mrs i ws k |}).
Proof.
  revert i k. induction ws as [|w ws IH]; intros i k Hle; simpl in *; [by rewrite Nat.add_0_r|].
  erewrite bind_eq_ok.
  2:{ unfold write_value, SendingImpl_sending, mr_set, assert_. simpl.
      rewrite bool_decide_true by lia. by erewrite bind_eq_ok. }
  replace (i + 1) with (S i) by lia. rewrite IH by lia. do 2 f_equal. lia.
Qed.

(** The registers of [k] hold [ws]. *)
Definition holds (k : K) (ws : list Z) : Prop := ∀ j w, ws !! j = Some w → seL4_GetMR j k = w.

Lemma register_read k n i w :
  i < n → i < MSG_MAX_LENGTH K → seL4_GetMR i k = w →
  (read_value : M (ReceivingImpl K) E Z) {| r_length := n; r_cursor := i; r_kernel := k |} =
    (Ok w, {| r_length := n; r_cursor := S i; r_kernel := k |}).
Proof.
  intros Hi Hm Hw. unfold read_value, ReceivingImpl_receiving, mr_get, assert_. simpl.
  rewrite decide_False, bool_decide_true by lia. erewrite bind_eq_ok by done. simpl.
  rewrite Hw. do 2 f_equal. lia.
Qed.

(** The two loops that read the registers from [i]. *)
Lemma registers_read (k : K) ws i n :
  n = i + length ws → n ≤ MSG_MAX_LENGTH K → (∀ j w, ws !! j = Some w → seL4_GetMR (i + j) k = w) →
  let s := {| r_length := n; r_cursor := i; r_kernel := k |} in
  let s' := {| r_length := n; r_cursor := n; r_kernel := k |} in
  (read_bytes (length ws) : M (ReceivingImpl K) E _) s = (Ok (bytes_of ws), s') ∧
  (down_loop (length ws) : M (ReceivingImpl K) E _) s = (Ok ws, s').
Proof.
  intros -> Hn Hk s s'. subst s s'. revert i Hn Hk.
  induction ws as [|w ws IH]; intros i Hn Hk; cbn [length read_bytes down_loop].
  { by rewrite Nat.add_0_r. }
  simpl in Hn. assert (seL4_GetMR i k = w) as Hw by (rewrite <-(Nat.add_0_r i); by apply (Hk 0)).
  destruct (IH (S i)) as [IH1 IH2]; [simpl; lia|intros j w' Hj; replace (S i + j) with (i + S j) by lia; by apply Hk|].
  replace (S i + length ws) with (i + S (length ws)) in IH1, IH2 by lia.
  split; (erewrite bind_eq_ok; [|apply register_read; [lia|lia|done]]);
    (erewrite bind_eq_ok; [|done]); done.
Qed.

Lemma sending_eq (x : T) bs (k : K) :
  to_allocvec x = Some bs → num_parameters bs ≤ MSG_MAX_LENGTH K →
  (sending_complete x : M K E nat) k = (Ok (num_parameters bs), set_mrs 0 (words bs) k).
Proof.
  intros Hx Hm. unfold sending_complete, sending. erewrite send_eq by done.
  rewrite registers_write by (rewrite length_words; lia). simpl. by rewrite length_words.
Qed.

Lemma receiving_eq `{!PostcardLaws T} (x : T) bs (k : K) :
  to_allocvec x = Some bs → num_parameters bs ≤ MSG_MAX_LENGTH K → holds k (words bs) →
  (receiving_complete (num_parameters bs) : M K E T) k = (Ok x, k).
Proof.
  intros Hx Hm Hk. unfold receiving_complete, receiving.
  destruct (registers_read k (words bs) 0 (num_parameters bs)) as [Hr _]; [by rewrite length_words|done|done|].
  rewrite length_words in Hr. erewrite recv_eq; [|done|done| |exact Hr]; [done|]. simpl. lia.
Qed.

Lemma set_mrs_holds ws (k : K) : holds (set_mrs 0 ws k) ws.
Proof. intros j w Hj. by apply (get_set_mrs 0). Qed.

Lemma down_eq ws (k : K) :
  length ws ≤ MSG_MAX_LENGTH K → holds k ws → (down (length ws) : M K E _) k = (Ok ws, k).
Proof.
  intros Hm Hk. unfold down, receiving.
  destruct (registers_read k ws 0 (length ws)) as [_ Hr]; [done..|]. by rewrite Hr.
Qed.
Lemma up_eq ws (k : K) :
  length ws ≤ MSG_MAX_LENGTH K → (up ws : M K E nat) k = (Ok (length ws), set_mrs 0 ws k).
Proof.
  intros Hm. unfold up, sending. erewrite bind_eq_ok; [done|]. by rewrite registers_write.
Qed.

(** What is sent is received.  A value whose serialization fits in the message registers is
    sent as a message of the number of words its bytes need; whoever receives a message of this
    length with these words in its registers decodes the same value, and so does the reader
    of a slice. *)
Lemma rpc_roundtrip `{!PostcardLaws T} (x : T) bs (k : K) :
  to_allocvec x = Some bs → num_parameters bs ≤ MSG_MAX_LENGTH K →
  ∃ k', (sending_complete x : M K E nat) k = (Ok (num_parameters bs), k') ∧ holds k' (words bs) ∧
    (∀ k2, holds k2 (words bs) → (receiving_complete (num_parameters bs) : M K E T) k2 = (Ok x, k2)) ∧
    send_to_vec (E := E) x = Ok (words bs) ∧ recv_from_slice (E := E) (words bs) = Ok x.
Proof.
  intros Hx Hm. exists (set_mrs 0 (words bs) k). split_and!.
  - by apply sending_eq.
  - apply set_mrs_holds.
  - intros k2 Hk2. by apply receiving_eq.
  - unfold send_to_vec. erewrite send_eq by done. by rewrite vec_write.
  - unfold recv_from_slice. pose proof (slice_read (E := E) (words bs) []) as Hr.
    rewrite app_nil_r, length_words in Hr.
    erewrite recv_eq; [done|done|done|apply length_words|exact Hr].
Qed.

(** A proxy passes requests and answers on unchanged.  Taking a message down to its
    words and putting these up again gives a message of the same length with the same words,
    so a value that a client sends through a proxy is the value that the server decodes. *)
Lemma proxy_transparent `{!PostcardLaws T} (x : T) bs (k k2 : K) :
  to_allocvec x = Some bs → num_parameters bs ≤ MSG_MAX_LENGTH K → holds k (words bs) →
  (down (num_parameters bs) : M K E _) k = (Ok (words bs), k) ∧
  ∃ k3, (up (words bs) : M K E nat) k2 = (Ok (num_parameters bs), k3) ∧
    (receiving_complete (num_parameters bs) : M K E T) k3 = (Ok x, k3).
Proof.
  intros Hx Hm Hk. split.
  - rewrite <-length_words. apply down_eq; [by rewrite length_words|done].
  - exists (set_mrs 0 (words bs) k2). rewrite up_eq, length_words by (by rewrite length_words).
    split; [done|]. apply receiving_eq; [done|done|apply set_mrs_holds].
Qed.
End kernel.

(** ** A closed example: a flag, in one byte, in the registers of a kernel *)
Module RpcDemo.
Definition kernel : Type := nat → Z.
#[export] Instance ipc : Ipc kernel := {|
  MSG_MAX_LENGTH := 120;
  seL4_GetMR i k := k i;
  seL4_SetMR i v k := λ j, if decide (j = i) then v else k j;
  ep_call _ n k := (n, k);
|}.
#[export] Instance ipc_laws : IpcLaws kernel.
Proof. split; intros; simpl; [by rewrite decide_True|by rewrite decide_False]. Qed.

#[export] Instance bool_postcard : Postcard bool := {|
  to_allocvec (b : bool) := Some [if b then 1%Z else 0%Z];
  from_bytes bs := match bs with 0%Z :: _ => Some false | 1%Z :: _ => Some true | _ => None end;
|}.
#[export] Instance bool_postcard_laws : PostcardLaws bool.
Proof.
  split.
  - intros [] bs [= <-]; (constructor; [split; done|constructor]).
  - intros [] bs pad [= <-]; done.
Qed.
End RpcDemo.

#[local] Existing Instances RpcDemo.ipc RpcDemo.ipc_laws RpcDemo.bool_postcard RpcDemo.bool_postcard_laws.

