(* ===== verification/FaultMessage.v ===== *)
(** * FaultMessage: faults as the kernel sends them

    Model of the part of [framework/base/icecap-sel4/src/fault.rs] that reads a fault from the
    message registers ([Fault::get]) and answers an unknown system call, and of
    [framework/vmm/psci]: the calls of the power interface.  The numbers of faults, the lengths of
    their messages and the registers of their fields are the constants of the kernel's headers,
    the class [FaultAbi]. *)

From S2P Require Import Prelude.
From S2P Require Import Fault.

Inductive FaultTag :=
| NullFaultTag | CapFaultTag | UnknownSyscallTag | UserExceptionTag | VMFaultTag
| VGICMaintenanceTag | VCPUFaultTag | VPPIEventTag.

(** [field t i] is the message register of the [i]-th field of the structure of [t]. *)
Class FaultAbi := {
  tag_raw : FaultTag → Z;
  msg_length : FaultTag → Z;
  field : FaultTag → nat → nat;
}.

Record CapFault := {
  cf_ip : Z;
  cf_addr : Z;
  in_recv_phase : Z;
  lookup_failure_type : Z;
  bits_left : Z;
  guard_mismatch_guard_found : Z;
  guard_mismatch_bits_found : Z;
}.

Record UnknownSyscall := {
  x0 : Z; x1 : Z; x2 : Z; x3 : Z; x4 : Z; x5 : Z; x6 : Z; x7 : Z;
  us_fault_ip : Z;
  us_sp : Z;
  us_lr : Z;
  us_spsr : Z;
  syscall_number : Z;
}.

Record UserException := { ue_fault_ip : Z; ue_sp : Z; ue_spsr : Z; ue_number : Z; ue_code : Z }.
Record VGICMaintenance := { idx : option Z }.
Record VCPUFault := { hsr : Z }.
Record VPPIEvent := { vppi_irq : Z }.

Inductive Fault :=
| NullFault
| FCapFault (f : CapFault)
| FUnknownSyscall (f : UnknownSyscall)
| FUserException (f : UserException)
| FVMFault (f : VMFault)
| FVGICMaintenance (f : VGICMaintenance)
| FVCPUFault (f : VCPUFault)
| FVPPIEvent (f : VPPIEvent).

(** The answer to an unknown system call: the general registers and the program counter that
    are written to the message, and its length. *)
Definition us_gpr {E} (f : UnknownSyscall) (ix : nat) : outcome E Z :=
  match ix with
  | 0 => Ok (x0 f) | 1 => Ok (x1 f) | 2 => Ok (x2 f) | 3 => Ok (x3 f)
  | 4 => Ok (x4 f) | 5 => Ok (x5 f) | 6 => Ok (x6 f) | 7 => Ok (x7 f)
  | _ => Panic
  end.

Section get.
Context `{!FaultAbi} (mrs : nat → Z).

Definition get_mr (t : FaultTag) (i : nat) : Z := mrs (field t i).

Definition CapFault_get : CapFault :=
  let g := get_mr CapFaultTag in
  {| cf_ip := g 0; cf_addr := g 1; in_recv_phase := g 2; lookup_failure_type := g 3;
     bits_left := g 4; guard_mismatch_guard_found := g 5; guard_mismatch_bits_found := g 6 |}.

Definition UnknownSyscall_get : UnknownSyscall :=
  let g := get_mr UnknownSyscallTag in
  {| x0 := g 0; x1 := g 1; x2 := g 2; x3 := g 3; x4 := g 4; x5 := g 5; x6 := g 6; x7 := g 7;
     us_fault_ip := g 8; us_sp := g 9; us_lr := g 10; us_spsr := g 11; syscall_number := g 12 |}.

Definition UserException_get : UserException :=
  let g := get_mr UserExceptionTag in
  {| ue_fault_ip := g 0; ue_sp := g 1; ue_spsr := g 2; ue_number := g 3; ue_code := g 4 |}.

Definition VMFault_get : VMFault :=
  let g := get_mr VMFaultTag in
  {| ip := g 0; addr := g 1; prefetch_fault := g 2; fsr := g 3 |}.

Definition VGICMaintenance_get : VGICMaintenance :=
  let i := get_mr VGICMaintenanceTag 0 in
  {| idx := if decide (i = 2 ^ 64 - 1)%Z then None else Some i |}.

Definition VCPUFault_get : VCPUFault := {| hsr := get_mr VCPUFaultTag 0 |}.
Definition VPPIEvent_get : VPPIEvent := {| vppi_irq := get_mr VPPIEventTag 0 |}.

(** [Fault::get]: the fault named by the label of a message of the given length. *)
Definition fault_get {E} (label length : Z) : outcome E Fault :=
  let label := word_cast 32 label in
  let has_length t (f : Fault) := if decide (length = msg_length t) then Ok f else Panic in
  if decide (label = tag_raw NullFaultTag) then Ok NullFault
  else if decide (label = tag_raw CapFaultTag) then Ok (FCapFault CapFault_get)
  else if decide (label = tag_raw UnknownSyscallTag) then
    has_length UnknownSyscallTag (FUnknownSyscall UnknownSyscall_get)
  else if decide (label = tag_raw UserExceptionTag) then
    has_length UserExceptionTag (FUserException UserException_get)
  else if decide (label = tag_raw VMFaultTag) then has_length VMFaultTag (FVMFault VMFault_get)
  else if decide (label = tag_raw VGICMaintenanceTag) then
    has_length VGICMaintenanceTag (FVGICMaintenance VGICMaintenance_get)
  else if decide (label = tag_raw VCPUFaultTag) then
    has_length VCPUFaultTag (FVCPUFault VCPUFault_get)
  else if decide (label = tag_raw VPPIEventTag) then Ok (FVPPIEvent VPPIEvent_get)
  else Panic.
End get.

(** The registers of the answer: [mr_gpr], [mr_pc] and [num_regs_for_gprs_and_pc]. *)
Section answer.
Context `{!FaultAbi}.

Definition mr_gpr {E} (ix : nat) : outcome E nat :=
  if decide (ix ≤ 7) then Ok (field UnknownSyscallTag 0 + ix) else Panic.
Definition mr_pc : nat := field UnknownSyscallTag 8.
Definition num_regs_for_gprs_and_pc : nat := field UnknownSyscallTag 8 + 1.
End answer.

(** ** [framework/vmm/psci] *)
Module psci.
Definition SYS_PSCI : Z := 0.
Definition VERSION : Z := 0x00010001.
Definition FID_PSCI_VERSION : Z := 0x84000000.
Definition FID_CPU_ON : Z := 0xC4000003.
Definition FID_MIGRATE_INFO_TYPE : Z := 0x84000006.
Definition FID_PSCI_FEATURES : Z := 0x8400000a.
Definition RET_SUCCESS : Z := 0.
Definition RET_NOT_SUPPORTED : Z := -1.

Inductive Call :=
| Version
| Features (qfid : Z)
| CpuOn (target : Z) (entry : Z) (ctx_id : Z)
| MigrateInfoType.

Inductive CallParseError := UnrecognizedFid (fid : Z).

Definition parse (f : UnknownSyscall) : outcome CallParseError Call :=
  let fid := word_cast 32 (x0 f) in
  if decide (fid = FID_PSCI_VERSION) then Ok Version
  else if decide (fid = FID_PSCI_FEATURES) then Ok (Features (word_cast 32 (x1 f)))
  else if decide (fid = FID_CPU_ON) then Ok (CpuOn (x1 f) (x2 f) (x3 f))
  else if decide (fid = FID_MIGRATE_INFO_TYPE) then Ok MigrateInfoType
  else Err (UnrecognizedFid fid).
End psci.
