(* ===== verification/Vmm.v ===== *)
(** * Vmm: the virtual machine monitor

    Model of [hypervisor/components/vmm]: the core ([core/src/vmm.rs]) with its callbacks of the
    interrupt controller, the extensions of the host ([host/src/main.rs]) and of realms
    ([realm/src/main.rs]), and of [framework/vmm/utils], which performs a guest's access to the
    distributor.

    A monitor has a thread per virtual node, which handles one message at a time; the interrupt
    controller and the table of nodes that were not started are shared under locks, so a message
    is one step on the shared state.  The environment [K] (the kernel, the clients of the event
    server, the message registers) is inside the callbacks of the interrupt controller, which use
    it.  A thread that is started runs its own first steps later ([boot]). *)

From S2P Require Import Prelude.
From S2P Require Import Biterate.
From S2P Require Import Fault.
From S2P Require Import FaultMessage.
From S2P Require Import Sel4.
From S2P Require Import CRegion.
From S2P Require Import Rpc.
From S2P Require Import Bitfield.
From S2P Require Import EventServer.
From S2P Require Import GicRegisters.
From S2P Require Import Distributor.
From S2P Require Import Gic.

(** What the monitor uses of its environment besides invocations of the kernel. *)
Class VmmEnv (K : Type) := {
  env_sel4 :: Sel4 K;
  env_abi :: FaultAbi;
  env_ipc :: Ipc K;
  CNTVOFF : Z;
  es_call : CPtr → ClientCall → K → K;
  sys_read_registers : CPtr → bool → Z → Z → K → Z * UserContext * K;
  reply : Z → K → K;
  debug_putchar : Z → K → K;
}.

(** [TCB::read_registers]: the context the kernel wrote, unless the kernel returned an error. *)
Definition read_registers {K} `{!VmmEnv K} (self : CPtr) (suspend : bool) (count : Z) :
    M K Error UserContext := λ k,
  let '(err, regs, k') := sys_read_registers self suspend 0 count k in
  ((_ ← wrap err; Ok regs), k').
Definition read_all_registers {K} `{!VmmEnv K} (self : CPtr) (suspend : bool) : M K Error UserContext :=
  read_registers self suspend user_context_words.

(** The message registers of an answer are constants, below the maximum. *)
Definition set_mr {K} `{!VmmEnv K} (i : nat) (v : Z) : K → K := seL4_SetMR i v.

Record IRQMap := {
  ppi : gmap nat (nat * bool);        (* in_index, must_ack *)
  spi : gmap nat (nat * nat * bool);  (* in_index, nid, must_ack *)
}.

Record VMMGICCallbacks := {
  vcpus : list CPtr;
  event_server_client : list CPtr;
  irq_map : IRQMap;
}.

(** [VMMNode], without what it shares with the other nodes. *)
Record VMMNode (X : Type) := {
  node_index : nat;
  node_tcb : CPtr;
  node_vcpu : CPtr;
  extension : X;
}.
Arguments node_index {X} _.
Arguments node_tcb {X} _.
Arguments node_vcpu {X} _.
Arguments extension {X} _.

(** The state of a monitor.  [nodes] are the nodes that were not started, [running] those that
    run, and [booting] those whose thread was started with an entry point and a context. *)
Record VMM (K X : Type) := {
  gic : GIC (VMMGICCallbacks * K);
  gic_dist_paddr : Z;
  bitfields : list (list Z);
  nodes : list (option (VMMNode X));
  booting : list (VMMNode X * Z * Z);
  running : list (VMMNode X);
}.
Arguments gic {K X} _.
Arguments gic_dist_paddr {K X} _.
Arguments bitfields {K X} _.
Arguments nodes {K X} _.
Arguments booting {K X} _.
Arguments running {K X} _.

(** ** The callbacks of the interrupt controller *)
Section callbacks.
Context {K : Type} `{!VmmEnv K}.
Abbreviation C := (M (VMMGICCallbacks * K) Error).

Definition cb_kernel {A} (m : M K Error A) : C A := λ s,
  let '(o, k) := m s.2 in (o, (s.1, k)).
Definition client_call (calling_node : nat) (call : ClientCall) : C unit :=
  ep ← reads (λ s, index (event_server_client s.1) calling_node);
  modify (λ s, (s.1, es_call ep call s.2)).
Definition vcpu_of (node : nat) : C CPtr := reads (λ s, index (vcpus s.1) node).

Definition vmm_ack (calling_node : nat) (irq : QualifiedIRQ) : C unit :=
  m ← gets (λ s, irq_map s.1);
  match irq with
  | QualifiedPPI node irq =>
    match ppi m !! irq with
    | Some (in_index, must_ack) =>
      if (must_ack : bool) then client_call calling_node (CallEnd calling_node in_index) else mret tt
    | None => vcpu ← vcpu_of node; cb_kernel (ack_vppi vcpu (Z.of_nat irq))
    end
  | SPI irq =>
    match spi m !! irq with
    | Some (in_index, nid, must_ack) =>
      if (must_ack : bool) then client_call calling_node (CallEnd nid in_index) else mret tt
    | None => mret tt
    end
  end.

(** [irq as u16, priority as u8, 0, index as u8]. *)
Definition vmm_vcpu_inject_irq (calling_node target_node index : nat) (irq : IRQ) (priority : Z) :
    C unit :=
  vcpu ← vcpu_of target_node;
  cb_kernel (vcpu_inject_irq vcpu (word_cast 16 (Z.of_nat irq)) (word_cast 8 priority) 0
    (word_cast 8 (Z.of_nat index))).

Definition vmm_set_affinity (calling_node : nat) (irq : IRQ) (affinity : nat) : C unit := mret tt.

Definition vmm_configure (calling_node : nat) (irq : QualifiedIRQ) (action : ConfigureAction) : C unit :=
  m ← gets (λ s, irq_map s.1);
  match irq with
  | QualifiedPPI node irq =>
    match ppi m !! irq with
    | Some (in_index, _) => client_call calling_node (CallConfigure calling_node in_index action)
    | None => vcpu ← vcpu_of node; cb_kernel (ack_vppi vcpu (Z.of_nat irq))
    end
  | SPI irq =>
    match spi m !! irq with
    | Some (in_index, nid, _) => client_call calling_node (CallConfigure nid in_index action)
    | None => panic
    end
  end.

Definition vmm_set_priority (calling_node : nat) (irq : QualifiedIRQ) (priority : Z) : C unit :=
  vmm_configure calling_node irq (SetPriority (Z.to_nat priority)).
Definition vmm_set_enabled (calling_node : nat) (irq : QualifiedIRQ) (enabled : bool) : C unit :=
  vmm_configure calling_node irq (SetEnabled enabled).

#[export] Instance VMMGICCallbacks_callbacks : GICCallbacks (VMMGICCallbacks * K) Error := {|
  cb_ack := vmm_ack;
  cb_vcpu_inject_irq := vmm_vcpu_inject_irq;
  cb_set_affinity := vmm_set_affinity;
  cb_set_priority := vmm_set_priority;
  cb_set_enabled := vmm_set_enabled;
|}.
End callbacks.

(** ** [framework/vmm/utils] *)
Definition SYS_PUTCHAR : Z := 1337.
Definition DISTRIBUTOR_SIZE : Z := 4096.

Definition offset_in_region (addr region_start region_size : Z) : option Z :=
  if decide (region_start ≤ addr ∧ addr < word_cast 64 (region_start + region_size))%Z
  then Some (addr - region_start)%Z else None.

Section vmm.
Context {K X : Type} `{!VmmEnv K}.
Abbreviation E := (GicError Error).
Abbreviation G := (M (GIC (VMMGICCallbacks * K)) E).
Abbreviation V := (M (VMM K X) E).

(** Programs on the environment, from the interrupt controller and from the monitor. *)
Definition g_env {A} (m : M K Error A) : G A := on_callbacks (cb_kernel m).

Definition handle_gic_distributor_fault (node : nat) (tcb : CPtr) (f : VMFault) (offset : Z) : G unit :=
  assert_ (is_valid f) ;;
  aligned ← lift (is_aligned f);
  assert_ aligned ;;
  w ← lift (is_write f);
  if (w : bool) then
    ctx ← unwrap_result (g_env (read_all_registers tcb false));
    d ← lift (data f ctx);
    gic_handle_write node offset d ;;
    unwrap_result (g_env (write_all_registers tcb false (advance ctx)))
  else
    r ← lift (is_read f);
    if (r : bool) then
      wd ← lift (width f);
      d ← gic_handle_read node offset wd;
      ctx ← unwrap_result (g_env (read_all_registers tcb false));
      ctx' ← lift (emulate_read f ctx d);
      unwrap_result (g_env (write_all_registers tcb false (advance ctx')))
    else panic.

(** ** The core *)
Definition with_gic (v : VMM K X) (g : GIC (VMMGICCallbacks * K)) : VMM K X :=
  {| gic := g; gic_dist_paddr := gic_dist_paddr v; bitfields := bitfields v; nodes := nodes v;
     booting := booting v; running := running v |}.
Definition with_bitfields (v : VMM K X) (b : list (list Z)) : VMM K X :=
  {| gic := gic v; gic_dist_paddr := gic_dist_paddr v; bitfields := b; nodes := nodes v;
     booting := booting v; running := running v |}.

Definition on_gic {A} (m : G A) : V A := λ v, let '(o, g) := m (gic v) in (o, with_gic v g).
Definition env_op (f : K → K) : V unit :=
  on_gic (modify (λ g, with_callbacks g ((callbacks g).1, f (callbacks g).2))).
Definition env {A} (m : M K Error A) : V A := on_gic (g_env m).

Definition handle_page_fault (node : VMMNode X) (f : VMFault) : V unit :=
  base ← gets gic_dist_paddr;
  match offset_in_region (addr f) base DISTRIBUTOR_SIZE with
  | Some offset => on_gic (handle_gic_distributor_fault (node_index node) (node_tcb node) f offset)
  | None => panic
  end.

(** [fault.advance_and_reply()]. *)
Definition advance_and_reply (f : UnknownSyscall) : V unit :=
  env_op (set_mr mr_pc (word_cast 64 (us_fault_ip f + 4))) ;;
  env_op (reply (Z.of_nat num_regs_for_gprs_and_pc)).
Definition set_gpr_mr (ix : nat) (v : Z) : V unit :=
  mr ← lift (mr_gpr ix); env_op (set_mr mr v).

(** [core::mem::swap(&mut this, &mut nodes[target]); this.unwrap()]. *)
Definition take_node (target : nat) : V (VMMNode X) :=
  this ← reads (λ v, index (nodes v) target);
  modify (λ v, {| gic := gic v; gic_dist_paddr := gic_dist_paddr v; bitfields := bitfields v;
                  nodes := <[target := None]> (nodes v); booting := booting v; running := running v |}) ;;
  lift (unwrap this).

Definition sys_psci (f : UnknownSyscall) : V unit :=
  call ← lift (match psci.parse f with Ok c => Ok c | _ => Panic end);
  ret ← (match call with
         | psci.Version => mret psci.VERSION
         | psci.Features qfid =>
           mret (if decide (qfid = psci.FID_CPU_ON) then 0%Z else psci.RET_NOT_SUPPORTED)
         | psci.CpuOn target entry ctx_id =>
           node ← take_node (Z.to_nat target);
           modify (λ v, {| gic := gic v; gic_dist_paddr := gic_dist_paddr v; bitfields := bitfields v;
                           nodes := nodes v; booting := booting v ++ [(node, entry, ctx_id)];
                           running := running v |}) ;;
           mret psci.RET_SUCCESS
         | psci.MigrateInfoType => mret psci.RET_NOT_SUPPORTED
         end : V Z);
  set_gpr_mr 0 (word_cast 64 ret) ;;
  advance_and_reply f.

(** The trait [VMMExtension]. *)
Class VMMExtension := {
  handle_wf : VMMNode X → V unit;
  ext_handle_syscall : VMMNode X → UnknownSyscall → V unit;
  handle_putchar : VMMNode X → Z → V unit;
}.

Context `{!VMMExtension}.

Definition sys_putchar (node : VMMNode X) (f : UnknownSyscall) : V unit :=
  handle_putchar node (word_cast 8 (x0 f)) ;;
  advance_and_reply f.

Definition handle_syscall (node : VMMNode X) (f : UnknownSyscall) : V unit :=
  if decide (syscall_number f = psci.SYS_PSCI) then sys_psci f
  else if decide (syscall_number f = SYS_PUTCHAR) then sys_putchar node f
  else ext_handle_syscall node f.

(** The loop over the SPIs, with its assertion. *)
Fixpoint find_spi (node in_index : nat) (entries : list (nat * (nat * nat * bool))) :
    outcome E (option QualifiedIRQ) :=
  match entries with
  | [] => Ok None
  | (irq, (spi_in_index, nid, _)) :: rest =>
    if decide (nid = node) then
      if decide (spi_in_index = in_index) then Ok (Some (SPI irq)) else find_spi node in_index rest
    else Panic
  end.

Fixpoint find_ppi (node in_index : nat) (entries : list (nat * (nat * bool))) : option QualifiedIRQ :=
  match entries with
  | [] => None
  | (irq, (ppi_in_index, _)) :: rest =>
    if decide (ppi_in_index = in_index) then Some (QualifiedPPI node irq)
    else find_ppi node in_index rest
  end.

(** The interrupt of an event: a PPI of the node, or else an SPI. *)
Definition irq_of_event (m : IRQMap) (node in_index : nat) : outcome E QualifiedIRQ :=
  match find_ppi node in_index (btree_iter (ppi m)) with
  | Some irq => Ok irq
  | None => o ← find_spi node in_index (btree_iter (spi m)); unwrap o
  end.

Definition handle_event (node : VMMNode X) (bit : nat) : V unit :=
  m ← gets (λ v, irq_map (callbacks (gic v)).1);
  irq ← lift (irq_of_event m (node_index node) bit);
  on_gic (handle_irq (node_index node) irq).

(** [event_server_bitfield.clear(groups, ..)]: group by group. *)
Definition handle_group (node : VMMNode X) (group : nat) : V unit :=
  bf ← reads (λ v, index (bitfields v) (node_index node));
  '(bits, bf') ← lift (unwrap (bitfield_swap bf group));
  modify (λ v, with_bitfields v (<[node_index node := bf']> (bitfields v))) ;;
  for_each (handle_event node) bits.
Definition handle_events (node : VMMNode X) (event_bit_groups : Z) : V unit :=
  for_each (handle_group node) (biterate event_bit_groups).

Definition reply_empty : V unit := env_op (reply 0).

(** A fault of the node's guest. *)
Definition handle_fault (node : VMMNode X) (f : FaultMessage.Fault) : V unit :=
  match f with
  | FVMFault f => handle_page_fault node f ;; reply_empty
  | FUnknownSyscall f => handle_syscall node f
  | FVGICMaintenance f =>
    i ← lift (unwrap (idx f));
    on_gic (handle_maintenance (node_index node) (Z.to_nat i)) ;; reply_empty
  | FVCPUFault f => if is_wf (hsr f) then handle_wf node else panic
  | FVPPIEvent f =>
    on_gic (handle_irq (node_index node) (QualifiedPPI (node_index node) (Z.to_nat (vppi_irq f)))) ;;
    reply_empty
  | _ => panic
  end.

(** One round of the loop of [run]: a message is its badge, its label, its length and the
    message registers. *)
Definition BADGE_FAULT : Z := 0.
Record Message := { m_badge : Z; m_label : Z; m_length : Z; m_mrs : nat → Z }.

Definition vmm_handle_message (node : VMMNode X) (m : Message) : V unit :=
  if decide (m_badge m = BADGE_FAULT) then
    f ← lift (fault_get (m_mrs m) (m_label m) (m_length m));
    handle_fault node f
  else handle_events node (m_badge m).

(** The start of [run]. *)
Definition run_start (node : VMMNode X) : V unit :=
  env (write_regs (node_vcpu node) CNTVOFF 0) ;;
  env (tcb_resume (node_tcb node)) ;;
  modify (λ v, {| gic := gic v; gic_dist_paddr := gic_dist_paddr v; bitfields := bitfields v;
                  nodes := nodes v; booting := booting v; running := running v ++ [node] |}).

(** The thread that [sys_psci] starts: the first thread that was started and has not run. *)
Definition boot : V unit :=
  b ← gets booting;
  match b with
  | [] => mret tt
  | (node, entry, ctx_id) :: rest =>
    modify (λ v, {| gic := gic v; gic_dist_paddr := gic_dist_paddr v; bitfields := bitfields v;
                    nodes := nodes v; booting := rest; running := running v |}) ;;
    ctx ← unwrap_result (env (read_all_registers (node_tcb node) false));
    let ctx := {| pc := entry; sp := sp ctx; spsr := spsr ctx; gprs := gprs ctx |} in
    ctx ← lift (set_gpr ctx 0 ctx_id);
    unwrap_result (env (write_all_registers (node_tcb node) false ctx)) ;;
    unwrap_result (run_start node)
  end.

(** [VMMConfig::run]: the state it builds, and the start of the first node. *)
Record VMMNodeConfig := {
  nc_tcb : CPtr;
  nc_vcpu : CPtr;
  nc_event_server_bitfield : list Z;  (* the words at the address *)
  nc_extension : X;
}.
Record VMMConfig := {
  c_event_server_client_ep : list CPtr;
  c_irq_map : IRQMap;
  c_gic_dist_paddr : Z;
  c_nodes : list VMMNodeConfig;
}.

Definition vmm_node (i : nat) (c : VMMNodeConfig) : VMMNode X :=
  {| node_index := i; node_tcb := nc_tcb c; node_vcpu := nc_vcpu c; extension := nc_extension c |}.

Definition vmm_init (c : VMMConfig) (k : K) : outcome IRQErrorType (VMM K X) :=
  g ← gic_new (length (c_nodes c))
    ({| vcpus := nc_vcpu <$> c_nodes c; event_server_client := c_event_server_client_ep c;
        irq_map := c_irq_map c |}, k);
  if bool_decide (length (c_nodes c) ≤ length (c_event_server_client_ep c)) then
  Ok {| gic := g; gic_dist_paddr := c_gic_dist_paddr c; bitfields := nc_event_server_bitfield <$> c_nodes c;
        nodes := imap (λ i n, Some (vmm_node i n)) (c_nodes c); booting := []; running := [] |}
  else Panic.

Definition vmm_run_start : V unit := node ← take_node 0; run_start node.
End vmm.

Arguments VMMNodeConfig : clear implicits.
Arguments VMMConfig : clear implicits.

(** The map of interrupts of a configuration, which names events by their type. *)
Definition numbered_irq_map {I} `{!FiniteSet.Finite I} (ppi_map : gmap nat (I * bool))
    (spi_map : gmap nat (I * nat * bool)) : IRQMap :=
  {| ppi := (λ p, (FiniteSet.to_nat p.1, p.2)) <$> ppi_map;
     spi := (λ p, (FiniteSet.to_nat p.1.1, p.1.2, p.2)) <$> spi_map |}.

(** A node of the configurations of both monitors. *)
Record Node := { n_tcb : CPtr; n_vcpu : CPtr; n_event_server_bitfield : list Z }.

(** ** The extension of the host: [host/src/main.rs] *)
Module host.
Definition RESOURCE_SERVER_PASSTHRU : Z := 1338.
Definition DIRECT : Z := 1538.

Record HostExtension := {
  resource_server_ep : CPtr;
  event_server_control_ep : CPtr;
  benchmark_server_ep : CPtr;
}.

Section host.
Context {K : Type} `{!VmmEnv K}.
Abbreviation V := (M (VMM K HostExtension) (GicError Error)).

(** The parameters of a call, from the registers of the guest: a register above [x7] panics. *)
Fixpoint parameters_from (f : UnknownSyscall) (i n : nat) : outcome (GicError Error) (list Z) :=
  match n with
  | 0 => Ok []
  | S n' => v ← us_gpr f (i + 1); vs ← parameters_from f (S i) n'; Ok (v :: vs)
  end.
Definition parameters (f : UnknownSyscall) : outcome (GicError Error) (list Z) :=
  if decide (0 ≤ x0 f ≤ 7)%Z then parameters_from f 0 (Z.to_nat (x0 f)) else Panic.

Fixpoint set_results (i : nat) (r : list Z) : V unit :=
  match r with [] => mret tt | v :: r' => set_gpr_mr (i + 1) v ;; set_results (S i) r' end.

Definition userspace_syscall (node : VMMNode HostExtension) (f : UnknownSyscall)
    (call : VMMNode HostExtension → list Z → V (list Z)) : V unit :=
  ps ← lift (parameters f);
  r ← call node ps;
  assert_ (bool_decide (length r ≤ 6)) ;;
  set_gpr_mr 0 (Z.of_nat (length r)) ;;
  set_results 0 (r ++ replicate (6 - length r) 0%Z) ;;
  advance_and_reply f.

Definition sys_resource_server_passthru (node : VMMNode HostExtension) (f : UnknownSyscall) : V unit :=
  userspace_syscall node f (λ node values,
    env (n ← up values;
         recv_info ← (λ k, let '(n', k') := ep_call (resource_server_ep (extension node)) n k in (Ok n', k'));
         down recv_info)).

(** [direct], in a build without benchmarking. *)
Definition sys_direct (node : VMMNode HostExtension) (f : UnknownSyscall) : V unit :=
  userspace_syscall node f (λ _ _, panic).

#[global] Instance host_extension : VMMExtension (K := K) (X := HostExtension) := {|
  handle_wf _ := panic;
  ext_handle_syscall node f :=
    if decide (syscall_number f = RESOURCE_SERVER_PASSTHRU) then sys_resource_server_passthru node f
    else if decide (syscall_number f = DIRECT) then sys_direct node f
    else panic;
  handle_putchar _ c := env_op (debug_putchar c);
|}.
End host.

Record HostConfig := {
  gic_dist_paddr : Z;
  nodes : list Node;
  event_server_client_ep : list CPtr;
  event_server_control_eps : list CPtr;
  resource_server_eps : list CPtr;
  config_benchmark_server_ep : CPtr;
  ppi_map : gmap nat (EventTypes.HostIn * bool);
  spi_map : gmap nat (EventTypes.HostIn * nat * bool);
}.

Fixpoint node_configs {E} (c : HostConfig) (i : nat) (ns : list Node) :
    outcome E (list (VMMNodeConfig HostExtension)) :=
  match ns with
  | [] => Ok []
  | n :: ns' =>
    rs ← index (resource_server_eps c) i;
    es ← index (event_server_control_eps c) i;
    rest ← node_configs c (S i) ns';
    Ok ({| nc_tcb := n_tcb n; nc_vcpu := n_vcpu n;
           nc_event_server_bitfield := n_event_server_bitfield n;
           nc_extension := {| resource_server_ep := rs; event_server_control_ep := es;
                              benchmark_server_ep := config_benchmark_server_ep c |} |} :: rest)
  end.

(** What [main] passes to [VMMConfig::run]. *)
Definition host_main {E} (c : HostConfig) : outcome E (VMMConfig HostExtension) :=
  ns ← node_configs c 0 (nodes c);
  Ok {| c_event_server_client_ep := event_server_client_ep c;
        c_irq_map := numbered_irq_map (ppi_map c) (spi_map c);
        c_gic_dist_paddr := gic_dist_paddr c; c_nodes := ns |}.
End host.

(** ** The extension of realms: [realm/src/main.rs] *)
Module realm.
Inductive RealmExtension := MkExtension.

Section realm.
Context {K : Type} `{!VmmEnv K}.

#[global] Instance realm_extension : VMMExtension (K := K) (X := RealmExtension) := {|
  handle_wf _ := panic;
  ext_handle_syscall _ _ := panic;
  handle_putchar _ c := env_op (debug_putchar c);
|}.
End realm.

Record RealmConfig := {
  gic_dist_paddr : Z;
  nodes : list Node;
  event_server_client_ep : list CPtr;
  ppi_map : gmap nat (EventTypes.RealmIn * bool);
  spi_map : gmap nat (EventTypes.RealmIn * nat * bool);
}.

Definition realm_main (c : RealmConfig) : VMMConfig RealmExtension :=
  {| c_event_server_client_ep := event_server_client_ep c;
     c_irq_map := numbered_irq_map (ppi_map c) (spi_map c);
     c_gic_dist_paddr := gic_dist_paddr c;
     c_nodes := (λ n, {| nc_tcb := n_tcb n; nc_vcpu := n_vcpu n;
                         nc_event_server_bitfield := n_event_server_bitfield n;
                         nc_extension := MkExtension |}) <$> nodes c |}.
End realm.
