(* ===== verification/VmmSpec.v ===== *)
(** * VmmSpec: correctness of the virtual machine monitor

    The invariant of a monitor, for any extension that keeps it and any behaviour of the kernel,
    the guests and the servers: the interrupt controller is well formed, the map of interrupts is
    the configured one, and no virtual node runs in two threads.  How a guest's load from the
    distributor, its calls of the power interface and the events of the event server are
    handled, and what makes a monitor panic. *)

From S2P Require Import Prelude.
From S2P Require Import Biterate.
From S2P Require Import Fault.
From S2P Require Import FaultMessage.
From S2P Require Import Sel4.
From S2P Require Import CRegion.
From S2P Require Import FiniteSet.
From S2P Require Import Rpc.
From S2P Require Import Bitfield.
From S2P Require Import EventServer.
From S2P Require Import GicRegisters.
From S2P Require Import Distributor.
From S2P Require Import DistributorSpec.
From S2P Require Import DistributorOps.
From S2P Require Import DistributorSafety.
From S2P Require Import Gic.
From S2P Require Import GicSpec.
From S2P Require Import Vmm.

#[local] Arguments Nat.leb : simpl never.

(** ** The parts of the interrupt controller that nothing changes *)

Section static.
Context {K : Type} `{!VmmEnv K} (n : nat) (c0 : VMMGICCallbacks).
Abbreviation T := (VMMGICCallbacks * K)%type.
Abbreviation GM := (M (GIC T) (GicError Error)).

Definition cb_static (c : T) : Prop := c.1 = c0.
Definition gic_static (g : GIC T) : Prop := g_num_nodes g = n ∧ cb_static (callbacks g).

Lemma cb_kernel_static {A} (m : M K Error A) : preserves cb_static (cb_kernel m).
Proof. intros [c k] Hc. unfold cb_kernel. simpl. by destruct (m k). Qed.
Lemma client_call_static node call : preserves cb_static (client_call node call).
Proof. apply preserves_bind; [auto with preserves|]. intros ep. by apply preserves_modify. Qed.
#[local] Hint Resolve cb_kernel_static client_call_static : preserves.

Lemma vmm_ack_static node q : preserves cb_static (cb_ack node q).
Proof.
  apply preserves_bind; [auto with preserves|]. intros m. destruct q as [t irq|irq].
  - destruct (ppi m !! irq) as [[? []]|]; auto with preserves. unfold vcpu_of. auto with preserves.
  - destruct (spi m !! irq) as [[[] []]|]; auto with preserves.
Qed.
Lemma vmm_inject_static node target i irq p : preserves cb_static (cb_vcpu_inject_irq node target i irq p).
Proof. simpl. unfold vmm_vcpu_inject_irq, vcpu_of. auto with preserves. Qed.

Lemma on_dist_static {A} (m : DM A) : preserves gic_static (on_dist m : GM A).
Proof. intros g Hg. unfold on_dist. by destruct (m (dist g)). Qed.
Lemma on_callbacks_static {A} (m : M T Error A) :
  preserves cb_static m → preserves gic_static (on_callbacks m : GM A).
Proof.
  intros Hm g [Hn Hc]. specialize (Hm _ Hc). unfold on_callbacks. by destruct (m (callbacks g)).
Qed.
Lemma set_lr_static node lr : preserves gic_static (set_lr node lr : GM unit).
Proof. by apply preserves_modify. Qed.
Lemma get_lr_static node : preserves gic_static (get_lr node : GM LR).
Proof. apply preserves_reads. Qed.
#[local] Hint Resolve on_dist_static on_callbacks_static set_lr_static get_lr_static
  vmm_ack_static vmm_inject_static : preserves.

Lemma inject_irq_static c t i irq : preserves gic_static (inject_irq c t i irq : GM unit).
Proof. unfold inject_irq. auto 20 with preserves. Qed.
Lemma forward_irq_static c t irq : preserves gic_static (forward_irq c t irq : GM unit).
Proof.
  unfold forward_irq. apply preserves_bind; [auto with preserves|]. intros lr.
  destruct (find_empty 0 (mirror lr)); [apply inject_irq_static|].
  unfold irq_in_lrs_overflow. auto 20 with preserves.
Qed.
#[local] Hint Resolve inject_irq_static forward_irq_static : preserves.

Lemma handle_irq_static c q : preserves gic_static (handle_irq c q : GM unit).
Proof.
  destruct q; simpl; [auto with preserves|].
  apply preserves_bind; [auto with preserves|intros b]. apply preserves_if; intros; [auto with preserves|].
  apply preserves_bind; [auto with preserves|intros t]. destruct (biterate t); auto with preserves.
Qed.
Lemma handle_maintenance_static node i : preserves gic_static (handle_maintenance node i : GM unit).
Proof.
  unfold handle_maintenance. do 6 (apply preserves_bind; [auto with preserves|intros ?]).
  apply preserves_bind; [auto with preserves|]. intros lr'. destruct (overflow lr'); auto with preserves.
Qed.
Lemma gic_handle_write_static c offset x : preserves gic_static (gic_handle_write c offset x : GM unit).
Proof.
  unfold gic_handle_write. apply preserves_bind; [auto with preserves|].
  intros [|li la]; [auto with preserves|]. apply preserves_bind; [|intros _];
    apply preserves_for_each; intros [irq node] _; cbv beta iota delta [ack_one]; auto 20 with preserves.
Qed.
End static.

Lemma preserves_and {S E A} (I J : S → Prop) (m : M S E A) :
  preserves I m → preserves J m → preserves (λ s, I s ∧ J s) m.
Proof. intros Hi Hj s [? ?]. split; [by apply Hi|by apply Hj]. Qed.

(** ** The invariant *)
Section invariant.
Context {K X : Type} `{!VmmEnv K}.
Abbreviation T := (VMMGICCallbacks * K)%type.
Abbreviation GM := (M (GIC T) (GicError Error)).
Abbreviation V := (M (VMM K X) (GicError Error)).

(** Where the virtual nodes are: not started, started and not yet running, or running. *)
Definition node_ids (v : VMM K X) : list nat :=
  (node_index <$> omap id (nodes v)) ++ ((λ b, node_index b.1.1) <$> booting v)
    ++ (node_index <$> running v).

Definition gic_inv (n : nat) (c0 : VMMGICCallbacks) (g : GIC T) : Prop := gic_wf g ∧ gic_static n c0 g.

Record vmm_wf (n : nat) (c0 : VMMGICCallbacks) (v : VMM K X) : Prop := {
  vw_gic : gic_inv n c0 (gic v);
  vw_nodes : length (nodes v) = n;
  vw_ids : ∀ i node, nodes v !! i = Some (Some node) → node_index node = i;
  vw_once : NoDup (node_ids v);
  vw_range : Forall (λ i, i < n) (node_ids v);
}.

(** What the core relies on in an extension. *)
Class ExtensionKeeps `{!VMMExtension (K := K) (X := X)} := {
  handle_wf_keeps n c0 node : preserves (vmm_wf n c0) (handle_wf node);
  handle_syscall_keeps n c0 node f : preserves (vmm_wf n c0) (ext_handle_syscall node f);
  handle_putchar_keeps n c0 node c : preserves (vmm_wf n c0) (handle_putchar node c);
}.

Context (n : nat) (c0 : VMMGICCallbacks).
Abbreviation WF := (vmm_wf n c0).

Lemma on_gic_wf {A} (m : GM A) : preserves (gic_inv n c0) m → preserves WF (on_gic m : V A).
Proof.
  intros Hm v [Hg Hn Hi Ho Hr]. specialize (Hm _ Hg). unfold on_gic.
  destruct (m (gic v)) as [o g]. by split.
Qed.

Lemma g_env_inv {A} (m : M K Error A) : preserves (gic_inv n c0) (g_env m : GM A).
Proof. apply preserves_and; [apply on_callbacks_wf|]. apply on_callbacks_static, cb_kernel_static. Qed.
Lemma env_wf {A} (m : M K Error A) : preserves WF (env m : V A).
Proof. apply on_gic_wf, g_env_inv. Qed.
Lemma env_op_wf f : preserves WF (env_op f : V unit).
Proof. apply on_gic_wf, preserves_modify. intros g [[] [? Hc]]. split; [by constructor|by split]. Qed.
Lemma handle_irq_inv c q : preserves (gic_inv n c0) (handle_irq c q : GM unit).
Proof. apply preserves_and; [apply handle_irq_wf|apply handle_irq_static]. Qed.
Lemma handle_maintenance_inv c i : preserves (gic_inv n c0) (handle_maintenance c i : GM unit).
Proof. apply preserves_and; [apply handle_maintenance_wf|apply handle_maintenance_static]. Qed.
Lemma gic_read_inv node off w : preserves (gic_inv n c0) (gic_handle_read node off w : GM VMFaultData).
Proof. apply preserves_and; [apply on_dist_reads_wf|apply on_dist_static]. Qed.
Lemma gic_write_inv c off x : data_ok x → preserves (gic_inv n c0) (gic_handle_write c off x : GM unit).
Proof. intros. apply preserves_and; [by apply gic_handle_write_wf|apply gic_handle_write_static]. Qed.
#[local] Hint Resolve g_env_inv env_wf env_op_wf on_gic_wf handle_irq_inv handle_maintenance_inv
  gic_read_inv gic_write_inv : preserves.

(** The data of a store fits its width. *)
Lemma data_is_ok {E} f ctx x : data (E := E) f ctx = Ok x → data_ok x.
Proof.
  unfold data. destruct (is_write f) as [[]| |]; simpl; try done.
  destruct (width f) as [w| |]; simpl; try done. destruct (gpr_index f); simpl; try done.
  destruct (read_gpr ctx _); simpl; try done. intros [= <-]. unfold data_ok.
  rewrite data_width_truncate. apply truncate_is_word.
Qed.

Lemma preserves_lift_bind {S E A B} (I : S → Prop) (o : outcome E A) (f : A → M S E B) :
  (∀ a, o = Ok a → preserves I (f a)) → preserves I (lift o ≫= f).
Proof. intros Hf s Hs. unfold lift, mbind, M_bind. destruct o; [by apply Hf|done|done]. Qed.

Lemma distributor_fault_inv node tcb f off :
  preserves (gic_inv n c0) (handle_gic_distributor_fault node tcb f off : GM unit).
Proof.
  unfold handle_gic_distributor_fault. do 4 (apply preserves_bind; [auto with preserves|intros ?]).
  apply preserves_if; intros.
  - apply preserves_bind; [auto with preserves|intros ctx]. apply preserves_lift_bind. intros x Hx.
    apply data_is_ok in Hx. auto with preserves.
  - auto 20 with preserves.
Qed.
#[local] Hint Resolve distributor_fault_inv : preserves.

Lemma handle_page_fault_wf node f : preserves WF (handle_page_fault node f : V unit).
Proof.
  apply preserves_bind; [auto with preserves|]. intros base.
  destruct (offset_in_region _ _ _); auto with preserves.
Qed.

Lemma advance_and_reply_wf f : preserves WF (advance_and_reply f : V unit).
Proof. unfold advance_and_reply. auto with preserves. Qed.
Lemma set_gpr_mr_wf i x : preserves WF (set_gpr_mr i x : V unit).
Proof. unfold set_gpr_mr. auto with preserves. Qed.
#[local] Hint Resolve handle_page_fault_wf advance_and_reply_wf set_gpr_mr_wf : preserves.

(** ** Nodes *)

Lemma omap_insert_none {A} (l : list (option A)) i x :
  l !! i = Some (Some x) → omap id l ≡ₚ x :: omap id (<[i := None]> l).
Proof.
  revert i. induction l as [|[y|] l IH]; intros [|i] Hi; simplify_eq/=; try done.
  - rewrite (IH i) by done. by rewrite Permutation_swap.
  - by apply IH.
Qed.

(** The state once a node was taken out of the table. *)
Definition taken (target : nat) (v : VMM K X) : VMM K X :=
  {| gic := gic v; gic_dist_paddr := gic_dist_paddr v; bitfields := bitfields v;
     nodes := <[target := None]> (nodes v); booting := booting v; running := running v |}.

Lemma take_node_eq target v :
  (take_node target : V (VMMNode X)) v =
    match nodes v !! target with
    | Some (Some node) => (Ok node, taken target v)
    | _ => (Panic, v)
    end.
Proof.
  unfold take_node, reads, index, modify, lift, mbind, M_bind. destruct (nodes v !! target) as [[node|]|] eqn:H;
    try done. simpl. f_equal. destruct v; simpl in *. f_equal. by apply list_insert_id.
Qed.

Lemma taken_ids target v node :
  nodes v !! target = Some (Some node) → node_ids v ≡ₚ node_index node :: node_ids (taken target v).
Proof. intros H. unfold node_ids, taken. simpl. by rewrite (omap_insert_none _ _ _ H). Qed.

Lemma taken_wf target v node : WF v → nodes v !! target = Some (Some node) → WF (taken target v).
Proof.
  intros [Hg Hn Hi Ho Hr] H. pose proof (taken_ids _ _ _ H) as Hp. rewrite Hp in Ho, Hr.
  apply NoDup_cons in Ho as [_ Ho]. inversion_clear Hr. split; simpl; try done.
  - by rewrite length_insert.
  - intros i nd Hl. apply list_lookup_insert_Some in Hl as [(-> & ? & ?)|[? Hl]]; [done|]. by apply Hi.
Qed.

(** The state once a node that is nowhere was added to those that run or will. *)
Lemma add_node_wf (v v' : VMM K X) (i : nat) :
  WF v → gic v' = gic v → nodes v' = nodes v → node_ids v' ≡ₚ i :: node_ids v →
  i ∉ node_ids v → i < n → WF v'.
Proof.
  intros [Hg Hn Hi Ho Hr] Eg En Hp Hni Hlt. split.
  - by rewrite Eg.
  - by rewrite En.
  - by rewrite En.
  - rewrite Hp. by constructor.
  - rewrite Hp. by constructor.
Qed.

Lemma taken_fresh target v node :
  WF v → nodes v !! target = Some (Some node) →
  node_index node = target ∧ (node_index node ∉ node_ids (taken target v)) ∧ node_index node < n.
Proof.
  intros [Hg Hn Hi Ho Hr] H. pose proof (taken_ids _ _ _ H) as Hp. rewrite Hp in Ho, Hr.
  apply NoDup_cons in Ho as [? _]. inversion_clear Hr. split_and!; [by apply Hi|done|done].
Qed.

(** Taking a node and starting its thread. *)
Definition started (target entry ctx_id : Z) (node : VMMNode X) (v : VMM K X) : VMM K X :=
  {| gic := gic v; gic_dist_paddr := gic_dist_paddr v; bitfields := bitfields v;
     nodes := <[Z.to_nat target := None]> (nodes v); booting := booting v ++ [(node, entry, ctx_id)];
     running := running v |}.

Lemma started_wf target entry ctx_id node v :
  WF v → nodes v !! Z.to_nat target = Some (Some node) → WF (started target entry ctx_id node v).
Proof.
  intros Hv H. destruct (taken_fresh _ _ _ Hv H) as (? & ? & ?).
  eapply (add_node_wf (taken (Z.to_nat target) v)); [by eapply taken_wf|done|done| |done|done].
  unfold node_ids, started. simpl. rewrite fmap_app. simpl. solve_Permutation.
Qed.

Lemma sys_psci_wf f : preserves WF (sys_psci f : V unit).
Proof.
  unfold sys_psci. apply preserves_bind; [auto with preserves|]. intros call.
  apply preserves_bind; [|auto with preserves].
  destruct call as [| |target entry ctx_id|]; try auto with preserves. intros v Hv.
  unfold mbind at 1, M_bind at 1. rewrite take_node_eq.
  destruct (nodes v !! Z.to_nat target) as [[node|]|] eqn:Hl; [|done|done].
  exact (started_wf target entry ctx_id node v Hv Hl).
Qed.
#[local] Hint Resolve sys_psci_wf : preserves.

(** ** Messages *)
Context `{!VMMExtension (K := K) (X := X)} `{!ExtensionKeeps}.

Lemma handle_group_wf node g : preserves WF (handle_group node g : V unit).
Proof.
  unfold handle_group. apply preserves_bind; [auto with preserves|]. intros bf.
  apply preserves_bind; [auto with preserves|]. intros [bits bf'].
  apply preserves_bind; [apply preserves_modify; by intros v []|]. intros _.
  apply preserves_for_each. intros bit _. unfold handle_event. auto with preserves.
Qed.

Lemma handle_fault_wf node f : preserves WF (handle_fault node f : V unit).
Proof.
  pose proof handle_wf_keeps. pose proof handle_syscall_keeps. pose proof handle_putchar_keeps.
  destruct f; unfold handle_fault; auto with preserves.
  - unfold handle_syscall, sys_putchar. case_decide; [auto with preserves|].
    case_decide; auto with preserves.
  - unfold reply_empty. auto with preserves.
  - unfold reply_empty. auto with preserves.
  - unfold reply_empty. auto with preserves.
Qed.

Lemma vmm_handle_message_wf node m : preserves WF (vmm_handle_message node m : V unit).
Proof.
  unfold vmm_handle_message. case_decide; [|apply preserves_for_each; intros; apply handle_group_wf].
  apply preserves_bind; [auto with preserves|apply handle_fault_wf].
Qed.

(** The first steps of a thread: its node was nowhere. *)
Definition nowhere (i : nat) (v : VMM K X) : Prop := WF v ∧ (i ∉ node_ids v) ∧ i < n.

Lemma env_nowhere {A} i (m : M K Error A) : preserves (nowhere i) (env m : V A).
Proof.
  intros v (Hv & Hi & Hlt). split; [by apply env_wf|]. unfold env, on_gic.
  by destruct (g_env m (gic v)).
Qed.

Lemma bind_to {S E A B} (I J : S → Prop) (m : M S E A) (f : A → M S E B) s :
  (∀ s, I s → J s) → preserves I m → (∀ a s, I s → J (f a s).2) → I s → J ((m ≫= f) s).2.
Proof.
  intros HIJ Hm Hf Hs. specialize (Hm s Hs). unfold mbind, M_bind.
  destruct (m s) as [[a|e|] s']; simpl in *; auto.
Qed.

Lemma run_start_wf node v : nowhere (node_index node) v → WF (run_start node v : _ * VMM K X).2.
Proof.
  assert (∀ v, nowhere (node_index node) v → WF v) as Hw by by intros ? [].
  apply (bind_to _ _ _ _ _ Hw); [apply env_nowhere|]. clear v. intros _ v.
  apply (bind_to _ _ _ _ _ Hw); [apply env_nowhere|]. clear v. intros _ v (Hv & Hi & Hlt).
  eapply (add_node_wf v _ (node_index node)); try done.
  unfold node_ids. simpl. rewrite fmap_app. simpl. solve_Permutation.
Qed.

Lemma boot_wf : preserves WF (boot : V unit).
Proof.
  intros v Hv. unfold boot, gets, mbind at 1, M_bind at 1. simpl.
  destruct (booting v) as [|[[node entry] ctx_id] rest] eqn:Hb; [done|].
  assert (∀ v, nowhere (node_index node) v → WF v) as Hw by by intros ? [].
  unfold modify, mbind at 1, M_bind at 1. simpl.
  apply (bind_to _ _ _ _ _ Hw); [apply preserves_unwrap_result, env_nowhere| |].
  - clear v Hv Hb. intros ctx v. apply (bind_to _ _ _ _ _ Hw); [auto with preserves|]. clear v. intros ctx' v.
    apply (bind_to _ _ _ _ _ Hw); [apply preserves_unwrap_result, env_nowhere|]. clear v. intros _ v Hv.
    apply run_start_wf in Hv. unfold unwrap_result. by destruct (run_start node v) as [[] ?].
  - assert (node_ids v ≡ₚ node_index node :: node_ids
      {| gic := gic v; gic_dist_paddr := gic_dist_paddr v; bitfields := bitfields v;
         nodes := nodes v; booting := rest; running := running v |}) as Hp.
    { unfold node_ids. simpl. rewrite Hb. simpl. solve_Permutation. }
    destruct Hv as [Hg Hn Hi Ho Hr]. rewrite Hp in Ho, Hr.
    apply NoDup_cons in Ho as [? ?]. inversion_clear Hr. split; [by split|by split].
Qed.

(** ** Reachable states *)

(** The steps of a monitor: a running node handles a message, or a thread that was started
    begins to run. *)
Inductive vmm_step (v : VMM K X) : VMM K X → Prop :=
| step_message node m : node ∈ running v → vmm_step v (vmm_handle_message node m v).2
| step_boot : vmm_step v (boot v).2.

Definition vmm_reachable (c : VMMConfig X) (v : VMM K X) : Prop :=
  ∃ k v0, vmm_init c k = Ok v0 ∧ rtc vmm_step (vmm_run_start v0).2 v.

Lemma vmm_step_wf v v' : WF v → vmm_step v v' → WF v'.
Proof. intros Hv [node m _|]; [by apply vmm_handle_message_wf|by apply boot_wf]. Qed.
Lemma take_run_wf target v :
  WF v → WF ((node ← take_node target; run_start node) v : _ * VMM K X).2.
Proof.
  intros Hv. unfold mbind, M_bind. rewrite take_node_eq.
  destruct (nodes v !! target) as [[node|]|] eqn:Hl; [|done|done].
  destruct (taken_fresh _ _ _ Hv Hl) as (? & ? & ?). apply run_start_wf.
  split; [by eapply taken_wf|by split].
Qed.
End invariant.

Section start.
Context {K X : Type} `{!VmmEnv K}.

Lemma imap_node_ids (l : list (VMMNodeConfig X)) k :
  node_index <$> omap id (imap (λ i c, Some (vmm_node (k + i) c)) l) = seq k (length l).
Proof.
  revert k. induction l as [|c l IH]; intros k; [done|]. cbn. f_equal; [lia|].
  rewrite <-IH. f_equal. f_equal. apply imap_ext. intros i ? _. simpl. do 2 f_equal. lia.
Qed.

(** What a configuration says of the callbacks. *)
Definition configured (c : VMMConfig X) : VMMGICCallbacks :=
  {| vcpus := nc_vcpu <$> c_nodes c; event_server_client := c_event_server_client_ep c;
     irq_map := c_irq_map c |}.

Lemma vmm_init_wf (c : VMMConfig X) (k : K) v :
  0 < length (c_nodes c) ≤ 8 → vmm_init c k = Ok v → vmm_wf (length (c_nodes c)) (configured c) v.
Proof.
  intros Hn. unfold vmm_init. destruct (gic_new _ _) as [g| |] eqn:Hg; simpl; try done.
  case_bool_decide; [|done]. intros [= <-].
  assert (Hids : node_index <$> omap id (imap (λ i n, Some (vmm_node i n)) (c_nodes c))
    = seq 0 (length (c_nodes c))) by apply (imap_node_ids _ 0).
  split; simpl.
  - split; [by eapply gic_new_wf|]. revert Hg. unfold gic_new. destruct (new _); simpl; [|done|done].
    by intros [= <-].
  - by rewrite length_imap.
  - intros i node Hl. rewrite list_lookup_imap in Hl. destruct (c_nodes c !! i); simplify_eq/=. done.
  - unfold node_ids. simpl. rewrite Hids, app_nil_r. apply NoDup_seq.
  - unfold node_ids. simpl. rewrite Hids, app_nil_r. apply Forall_forall. intros i Hi%elem_of_seq. lia.
Qed.

Context `{!VMMExtension (K := K) (X := X)} `{!ExtensionKeeps}.

(** C2: the invariant of a monitor.  Whatever the kernel, the guest and the servers do, and
    whether messages are handled, fail or panic, every state a monitor of 1 to 8 virtual nodes
    reaches has a well-formed interrupt controller for these nodes, the virtual CPUs and the map
    of interrupts of its configuration, and every virtual node in at most one place: not
    started, about to run or running; so a node is never started twice. *)
Theorem vmm_reachable_wf (c : VMMConfig X) (v : VMM K X) :
  0 < length (c_nodes c) ≤ 8 → vmm_reachable c v → vmm_wf (length (c_nodes c)) (configured c) v.
Proof.
  intros Hn (k & v0 & Hv0 & Hr).
  assert (vmm_wf (length (c_nodes c)) (configured c) (vmm_run_start v0).2) as Hw.
  { by eapply take_run_wf, vmm_init_wf. }
  clear Hv0. induction Hr as [|v1 v2 v3 Hs _ IH]; [done|]. by eapply IH, vmm_step_wf.
Qed.
End start.

(** ** The two extensions *)
#[export] Instance realm_extension_keeps {K} `{!VmmEnv K} : ExtensionKeeps (K := K) (X := realm.RealmExtension).
Proof. split; intros; simpl; [apply preserves_panic|apply preserves_panic|apply env_op_wf]. Qed.

Section host.
Context {K : Type} `{!VmmEnv K} (n : nat) (c0 : VMMGICCallbacks).
Abbreviation WF := (vmm_wf (K := K) (X := host.HostExtension) n c0).
#[local] Hint Resolve set_gpr_mr_wf advance_and_reply_wf : preserves.

Lemma set_results_wf r i : preserves WF (host.set_results i r).
Proof. revert i. induction r; intros i; simpl; auto with preserves. Qed.
#[local] Hint Resolve set_results_wf : preserves.

Lemma userspace_syscall_wf node f call :
  (∀ node ps, preserves WF (call node ps)) → preserves WF (host.userspace_syscall node f call).
Proof. intros Hc. unfold host.userspace_syscall. auto 20 with preserves. Qed.
#[local] Hint Resolve userspace_syscall_wf : preserves.

Lemma passthru_wf node f : preserves WF (host.sys_resource_server_passthru node f).
Proof. apply userspace_syscall_wf. intros nd ps. apply env_wf. Qed.
End host.

#[export] Instance host_extension_keeps {K} `{!VmmEnv K} : ExtensionKeeps (K := K) (X := host.HostExtension).
Proof.
  split; intros; simpl; [apply preserves_panic| |apply env_op_wf].
  case_decide; [apply passthru_wf|]. case_decide; [|apply preserves_panic].
  apply userspace_syscall_wf. intros; apply preserves_panic.
Qed.

(** ** A guest's load from the distributor *)

(** A fault of a word load into [x0]..[x30] from a register of the distributor at [base]. *)
Record load_fault (f : VMFault) (base : Z) (reg : GICDistRegWord) (ix : Z) : Prop := {
  lf_valid : is_valid f = true;
  lf_width : width (E := GicError Error) f = Ok WWord;
  lf_aligned : is_aligned (E := GicError Error) f = Ok true;
  lf_read : is_write (E := GicError Error) f = Ok false;
  lf_index : gpr_index (E := GicError Error) f = Ok ix;
  lf_range : (0 ≤ ix ≤ 30)%Z;
  lf_addr : addr f = (base + word_offset reg)%Z;
}.

Lemma word_offset_range reg : reg_exists reg → (0 ≤ word_offset reg < DISTRIBUTOR_SIZE)%Z.
Proof. unfold DISTRIBUTOR_SIZE. destruct reg; simpl; lia. Qed.

Lemma offset_in_region_some base size off :
  (0 ≤ off < size)%Z → (0 ≤ base)%Z → (base + size < 2 ^ 64)%Z →
  offset_in_region (base + off) base size = Some off.
Proof.
  intros Ho Hb Hs. unfold offset_in_region, word_cast.
  rewrite Z.land_ones, Z.mod_small by lia. rewrite decide_True by lia. f_equal. lia.
Qed.

Section guest.
Context {K X : Type} `{!VmmEnv K}.
Abbreviation T := (VMMGICCallbacks * K)%type.
Abbreviation GM := (M (GIC T) (GicError Error)).
Abbreviation V := (M (VMM K X) (GicError Error)).

(** The environment of a monitor, and a monitor with another one. *)
Definition kernel_of (v : VMM K X) : K := (callbacks (gic v)).2.
Definition with_kernel_g (g : GIC T) (k : K) : GIC T := with_callbacks g ((callbacks g).1, k).
Definition with_kernel (v : VMM K X) (k : K) : VMM K X := with_gic v (with_kernel_g (gic v) k).

Lemma g_env_eq {A} (m : M K Error A) g a k' :
  m (callbacks g).2 = (Ok a, k') → (g_env m : GM A) g = (Ok a, with_kernel_g g k').
Proof. intros Hm. unfold g_env, on_callbacks, cb_kernel. by rewrite Hm. Qed.
Lemma unwrap_result_eq {S E E' A} (m : M S E A) s a s' :
  m s = (Ok a, s') → (unwrap_result m : M S E' A) s = (Ok a, s').
Proof. unfold unwrap_result. by intros ->. Qed.
Lemma env_eq {A} (m : M K Error A) v a k' :
  m (kernel_of v) = (Ok a, k') → (env m : V A) v = (Ok a, with_kernel v k').
Proof. intros Hm. unfold env, on_gic. by rewrite (g_env_eq _ _ _ _ Hm). Qed.
Lemma env_op_eq f v : (env_op f : V unit) v = (Ok tt, with_kernel v (f (kernel_of v))).
Proof. done. Qed.

Lemma write_all_registers_eq tcb resume ctx (k : K) :
  accepts (K := K) → ∃ k', write_all_registers tcb resume ctx k = (Ok tt, k') ∧
    syscall (TCB_WriteRegisters tcb resume 0 user_context_words ctx) k = (seL4_NoError, k').
Proof.
  intros Ha. unfold write_all_registers, write_registers, invoke.
  destruct (Ha (TCB_WriteRegisters tcb resume 0 user_context_words ctx) k) as [k' Hk].
  exists k'. split; [|done]. rewrite Hk. unfold wrap, from_ret. by rewrite decide_True.
Qed.

(** The interrupt controller's part. *)
Lemma distributor_load g node tcb f base reg ix ctx k1 :
  gic_wf g → node < g_num_nodes g → load_fault f base reg ix → reg_exists reg → readable reg →
  read_all_registers tcb false (callbacks g).2 = (Ok ctx, k1) → length (gprs ctx) = 31 →
  Forall is_u64 (gprs ctx) → accepts (K := K) →
  ∃ val old ctx1 new k2,
    handle_read (dist g) (word_offset reg) node WWord = Ok (DWord val) ∧
    gpr (E := GicError Error) ctx ix = Ok old ∧
    syscall (TCB_WriteRegisters tcb false 0 user_context_words (advance ctx1)) k1 = (seL4_NoError, k2) ∧
    (handle_gic_distributor_fault node tcb f (word_offset reg) : GM unit) g =
      (Ok tt, with_kernel_g g k2) ∧
    gpr (E := GicError Error) ctx1 ix = Ok new ∧ truncate WWord new = DWord val ∧
    (∀ i, (32 ≤ i)%Z → Z.testbit new i = Z.testbit old i) ∧
    (∀ j, j ≠ ix → gpr (E := GicError Error) ctx1 j = gpr ctx j) ∧
    pc ctx1 = pc ctx ∧ sp ctx1 = sp ctx ∧ spsr ctx1 = spsr ctx.
Proof.
  intros Hg Hn [Hv Hw Ha Hrd Hix Hr Haddr] Hex Hread Hctx Hlen Hall Hacc.
  destruct (handle_read_ok (dist g) reg node) as (val & Hval & Hu); try done.
  { apply Hg. } { by rewrite gwf_nodes. }
  destruct (lookup_lt_is_Some_2 (gprs ctx) (Z.to_nat ix)) as [old Hold]; [lia|].
  assert (Hgpr : gpr (E := GicError Error) ctx ix = Ok old).
  { unfold gpr, index. by rewrite bool_decide_true, Hold. }
  assert (Hrd' : is_read (E := GicError Error) f = Ok true) by (unfold is_read; by rewrite Hrd).
  assert (Htr : truncate WWord val = DWord val).
  { unfold truncate, width_mask, word_cast. change 0xffffffff%Z with (Z.ones 32).
    by rewrite !Z.land_ones, !Z.mod_small by (done || (rewrite Z.mod_small; done)). }
  destruct (emulate_read_merges (E := GicError Error) f ctx WWord val ix old Hrd' Hw Hix Hgpr)
    as (ctx1 & new & Hem & Hnew & Htn & Hbits & Hoth & Hpc & Hsp & Hspsr).
  { by eapply Forall_lookup_1. }
  destruct (write_all_registers_eq tcb false (advance ctx1) k1 Hacc) as (k2 & Hk2 & Hsys).
  exists val, old, ctx1, new, k2. split_and!; try done; [|by rewrite Htn].
  unfold handle_gic_distributor_fault, assert_, lift. rewrite Hv, Ha, Hrd, Hrd', Hw.
  do 6 (erewrite bind_eq_ok; [|done]; cbv beta iota). unfold gic_handle_read. erewrite bind_eq_ok; [|by apply on_dist_reads_eq].
  erewrite bind_eq_ok; [|by apply unwrap_result_eq, g_env_eq].
  rewrite <-Htr, Hem. erewrite bind_eq_ok; [|done].
  by erewrite unwrap_result_eq; [|by apply g_env_eq].
Qed.

Context `{!VMMExtension (K := K) (X := X)}.

(** C14: a guest's load from the distributor.  For a word load of a readable register into one
    of [x0]..[x30], by the guest of an existing virtual node, the monitor reads the
    register of the emulated distributor, writes the guest's registers back with the value in
    the low half of the destination, the program counter past the load and everything
    else unchanged, and answers the fault; the interrupt controller and the monitor's tables
    are unchanged. *)
Theorem guest_load_emulated (v : VMM K X) node f reg ix ctx k1 :
  gic_wf (gic v) → node_index node < g_num_nodes (gic v) →
  (0 ≤ gic_dist_paddr v)%Z → (gic_dist_paddr v + DISTRIBUTOR_SIZE < 2 ^ 64)%Z →
  load_fault f (gic_dist_paddr v) reg ix → reg_exists reg → readable reg →
  read_all_registers (node_tcb node) false (kernel_of v) = (Ok ctx, k1) → length (gprs ctx) = 31 →
  Forall is_u64 (gprs ctx) → accepts (K := K) →
  ∃ val old new ctx' k2,
    handle_read (dist (gic v)) (word_offset reg) (node_index node) WWord = Ok (DWord val) ∧
    gpr (E := GicError Error) ctx ix = Ok old ∧
    syscall (TCB_WriteRegisters (node_tcb node) false 0 user_context_words ctx') k1 = (seL4_NoError, k2) ∧
    handle_fault node (FVMFault f) v = (Ok tt, with_kernel v (reply 0 k2)) ∧
    gpr (E := GicError Error) ctx' ix = Ok new ∧ truncate WWord new = DWord val ∧
    (∀ i, (32 ≤ i)%Z → Z.testbit new i = Z.testbit old i) ∧
    (∀ j, j ≠ ix → gpr (E := GicError Error) ctx' j = gpr ctx j) ∧
    pc ctx' = word_cast 64 (pc ctx + 4) ∧ sp ctx' = sp ctx ∧ spsr ctx' = spsr ctx.
Proof.
  intros Hg Hn Hb Hs Hf Hex Hr Hctx Hlen Hall Hacc.
  destruct (distributor_load (gic v) (node_index node) (node_tcb node) f (gic_dist_paddr v) reg ix ctx k1)
    as (val & old & ctx1 & new & k2 & ? & ? & ? & Hrun & ? & ? & ? & ? & Hpc & ? & ?); try done.
  exists val, old, new, (advance ctx1), k2. split_and!; try done; [|unfold advance; simpl; by rewrite Hpc].
  unfold handle_fault, handle_page_fault. erewrite bind_eq_ok; [|erewrite bind_eq_ok by done].
  2:{ rewrite (lf_addr _ _ _ _ Hf), offset_in_region_some by (done || by apply word_offset_range).
      unfold on_gic. by rewrite Hrun. }
  by unfold reply_empty.
Qed.

(** ** The power interface *)

Definition cpu_on_call (f : UnknownSyscall) : Prop :=
  syscall_number f = psci.SYS_PSCI ∧ word_cast 32 (x0 f) = psci.FID_CPU_ON.

Lemma cpu_on_parse f : cpu_on_call f → psci.parse f = Ok (psci.CpuOn (x1 f) (x2 f) (x3 f)).
Proof. intros [_ Hf]. unfold psci.parse. by rewrite Hf. Qed.

(** The answer to a system call: [x0], the program counter past the call. *)
Definition answered (f : UnknownSyscall) (ret : Z) (k : K) : K :=
  reply (Z.of_nat num_regs_for_gprs_and_pc)
    (set_mr mr_pc (word_cast 64 (us_fault_ip f + 4)) (set_mr (field UnknownSyscallTag 0 + 0) ret k)).

Lemma cpu_on_eq node f v t :
  cpu_on_call f → nodes v !! Z.to_nat (x1 f) = Some (Some t) →
  handle_fault node (FUnknownSyscall f) v =
    (Ok tt, with_kernel (started (x1 f) (x2 f) (x3 f) t v) (answered f 0 (kernel_of v))).
Proof.
  intros Hf Hl. unfold handle_fault, handle_syscall. rewrite decide_True by apply Hf.
  unfold sys_psci, lift. rewrite (cpu_on_parse f Hf). erewrite bind_eq_ok by done.
  erewrite bind_eq_ok; [|by erewrite bind_eq_ok; [|rewrite take_node_eq, Hl]].
  done.
Qed.

(** C26: powering on a virtual CPU.  When the guest calls [CPU_ON] for a node that was not
    started, the call succeeds and takes the node out of the table; the thread that it starts
    then writes the new guest CPU's registers, with the entry point as its program counter, the
    context in [x0] and the others as they were, and the node runs. *)
Theorem cpu_on_boots (v : VMM K X) node f t :
  cpu_on_call f → nodes v !! Z.to_nat (x1 f) = Some (Some t) → booting v = [] → accepts (K := K) →
  ∃ v1, handle_fault node (FUnknownSyscall f) v = (Ok tt, v1) ∧
    nodes v1 !! Z.to_nat (x1 f) = Some None ∧
    kernel_of v1 = answered f psci.RET_SUCCESS (kernel_of v) ∧
    ∀ ctx k1, read_all_registers (node_tcb t) false (kernel_of v1) = (Ok ctx, k1) →
      length (gprs ctx) = 31 →
      ∃ ctx' k2 v2,
        syscall (TCB_WriteRegisters (node_tcb t) false 0 user_context_words ctx') k1 = (seL4_NoError, k2) ∧
        pc ctx' = x2 f ∧ gpr (E := GicError Error) ctx' 0 = Ok (x3 f) ∧
        (∀ j, j ≠ 0%Z → gpr (E := GicError Error) ctx' j = gpr ctx j) ∧
        boot v1 = (Ok tt, v2) ∧ running v2 = running v ++ [t] ∧ booting v2 = [].
Proof.
  intros Hf Hl Hb Hacc. eexists. rewrite (cpu_on_eq node f v t Hf Hl). split; [done|]. simpl.
  split; [apply list_lookup_insert_eq; by eapply lookup_lt_Some|]. split; [done|].
  intros ctx k1 Hctx Hlen. destruct (gprs ctx) as [|g0 gs] eqn:Hgs; [done|].
  set (ctx1 := {| pc := x2 f; sp := sp ctx; spsr := spsr ctx; gprs := gprs ctx |}).
  set (ctx' := {| pc := x2 f; sp := sp ctx; spsr := spsr ctx; gprs := x3 f :: gs |}).
  assert (Hset : set_gpr (E := GicError Error) ctx1 0 (x3 f) = Ok ctx').
  { unfold set_gpr, ctx1. simpl. by rewrite Hgs. }
  destruct (gpr_insert _ _ _ _ Hset) as (Hnew & _ & _ & _ & Hoth).
  destruct (write_all_registers_eq (node_tcb t) false ctx' k1 Hacc) as (k2 & Hw & Hsys).
  destruct (invoke_accepts (VCPU_WriteRegs (node_vcpu t) CNTVOFF 0) k2 Hacc) as [k3 H3].
  destruct (invoke_accepts (TCB_Resume (node_tcb t)) k3 Hacc) as [k4 H4].
  eexists ctx', k2, _. split; [done|]. split; [done|]. split; [done|]. split; [done|].
  unfold boot. erewrite bind_eq_ok by done. simpl. rewrite Hb. simpl.
  erewrite bind_eq_ok by done. erewrite bind_eq_ok by (by apply unwrap_result_eq, env_eq).
  fold ctx1. unfold lift. rewrite Hset. erewrite bind_eq_ok by done.
  erewrite bind_eq_ok by (by apply unwrap_result_eq, env_eq).
  erewrite unwrap_result_eq.
  2:{ unfold run_start, write_regs, tcb_resume. erewrite bind_eq_ok by (by apply env_eq).
      by erewrite bind_eq_ok by (by apply env_eq). }
  done.
Qed.
End guest.

(** ** Requests of the host to the resource server *)
Section passthru.
Context {K : Type} `{!VmmEnv K} `{!IpcLaws K}.
Abbreviation X := host.HostExtension.
Abbreviation V := (M (VMM K X) (GicError Error)).

(** The guest passes words: their number in [x0], then the words. *)
Definition passes (f : UnknownSyscall) (ws : list Z) : Prop :=
  x0 f = Z.of_nat (length ws) ∧ length ws ≤ 7 ∧
  ∀ i w, ws !! i = Some w → us_gpr (E := GicError Error) f (i + 1) = Ok w.

Lemma parameters_from_eq f ws i :
  (∀ j w, ws !! j = Some w → us_gpr (E := GicError Error) f (i + j + 1) = Ok w) →
  host.parameters_from f i (length ws) = Ok ws.
Proof.
  revert i. induction ws as [|w ws IH]; intros i Hw; [done|]. cbn [length host.parameters_from].
  specialize (Hw 0 w eq_refl) as H0. rewrite Nat.add_0_r in H0. rewrite H0. cbn [mbind outcome_bind].
  rewrite (IH (S i)); [done|]. intros j w' Hj. replace (S i + j + 1) with (i + S j + 1) by lia. by apply Hw.
Qed.
Lemma parameters_eq f ws : passes f ws → host.parameters f = Ok ws.
Proof.
  intros (H0 & Hle & Hw). unfold host.parameters. rewrite H0, decide_True by lia.
  rewrite Nat2Z.id. by apply parameters_from_eq.
Qed.

Lemma with_kernel_id (v : VMM K X) : with_kernel v (kernel_of v) = v.
Proof. destruct v as [[? [] ? ?] ? ? ? ? ?]. done. Qed.

Lemma set_gpr_mr_eq i x (v : VMM K X) :
  i ≤ 7 → (set_gpr_mr i x : V unit) v =
    (Ok tt, with_kernel v (seL4_SetMR (field UnknownSyscallTag 0 + i) x (kernel_of v))).
Proof. intros Hi. unfold set_gpr_mr, mr_gpr, lift. rewrite decide_True by done. by erewrite bind_eq_ok. Qed.

Lemma set_results_eq r i (v : VMM K X) :
  i + length r ≤ 7 → host.set_results i r v =
    (Ok tt, with_kernel v (set_mrs (field UnknownSyscallTag 0 + S i) r (kernel_of v))).
Proof.
  revert i v. induction r as [|x r IH]; intros i v Hi; simpl in *.
  { by rewrite with_kernel_id. }
  erewrite bind_eq_ok by (apply set_gpr_mr_eq; lia). rewrite IH by lia.
  replace (i + 1) with (S i) by lia.
  replace (field UnknownSyscallTag 0 + S (S i)) with (S (field UnknownSyscallTag 0 + S i)) by lia. done.
Qed.

(** The answer that the guest sees: the number of words, six words, the next instruction. *)
Definition passed_back (f : UnknownSyscall) (ws : list Z) (k : K) : K :=
  reply (Z.of_nat num_regs_for_gprs_and_pc)
    (seL4_SetMR mr_pc (word_cast 64 (us_fault_ip f + 4))
      (set_mrs (field UnknownSyscallTag 0)
        (Z.of_nat (length ws) :: ws ++ replicate (6 - length ws) 0%Z) k)).

(** C25: the host reaches the resource server.  When the guest of the host passes the words of a
    request in its registers, the monitor calls the resource server's endpoint with a
    message in which the server decodes that request; and when the server answers with the words
    of a response of at most six words, the guest finds their number and the words in its
    registers and goes on after the call. *)
Theorem passthru_forwards {Req Resp} `{!Postcard Req} `{!PostcardLaws Req} `{!Postcard Resp}
    (v : VMM K X) node f (req : Req) (resp : Resp) bs ys k2 :
  syscall_number f = host.RESOURCE_SERVER_PASSTHRU → 7 ≤ MSG_MAX_LENGTH K →
  to_allocvec req = Some bs → passes f (words bs) →
  to_allocvec resp = Some ys → num_parameters ys ≤ 6 →
  let ep := host.resource_server_ep (extension node) in
  let k1 := set_mrs 0 (words bs) (kernel_of v) in
  ep_call ep (num_parameters bs) k1 = (num_parameters ys, k2) → holds k2 (words ys) →
  (receiving_complete (num_parameters bs) : M K Error Req) k1 = (Ok req, k1) ∧
  handle_fault node (FUnknownSyscall f) v = (Ok tt, with_kernel v (passed_back f (words ys) k2)).
Proof.
  intros Hsys Hmax Hreq Hp Hresp Hle ep k1 Hcall Hh.
  assert (length (words bs) ≤ 7) as Hlen by apply Hp. rewrite length_words in Hlen.
  split. { apply receiving_eq; [done|lia|apply set_mrs_holds]. }
  unfold handle_fault, handle_syscall. rewrite Hsys. rewrite !decide_False by done.
  unfold ext_handle_syscall, host.host_extension. rewrite Hsys. rewrite decide_True by done.
  unfold host.sys_resource_server_passthru, host.userspace_syscall, lift.
  rewrite (parameters_eq f (words bs) Hp). erewrite bind_eq_ok by done.
  erewrite bind_eq_ok.
  2:{ apply env_eq. erewrite bind_eq_ok by (apply up_eq; rewrite length_words; lia).
      erewrite bind_eq_ok by (by rewrite length_words; fold k1; fold ep; rewrite Hcall).
      rewrite <-(length_words ys). apply down_eq; [rewrite length_words; lia|done]. }
  unfold assert_. rewrite bool_decide_true by (rewrite length_words; lia). erewrite bind_eq_ok by done.
  erewrite bind_eq_ok by (apply set_gpr_mr_eq; lia).
  erewrite bind_eq_ok by (apply set_results_eq; rewrite length_app, length_replicate, length_words; lia).
  unfold passed_back, advance_and_reply. simpl.
  rewrite Nat.add_0_r, Nat.add_1_r. done.
Qed.
End passthru.

(** ** Events *)

(** The first entry that matches, when at most one interrupt does. *)
Lemma find_ppi_unique node i p b l :
  (p, (i, b)) ∈ l → (∀ p' b', (p', (i, b')) ∈ l → p' = p) → find_ppi node i l = Some (QualifiedPPI node p).
Proof.
  induction l as [|[p' [i' b']] l IH]; intros Hin Hu; [by apply elem_of_nil in Hin|]. simpl.
  destruct (decide (i' = i)) as [->|Hne]; [by rewrite (Hu p' b') by left|].
  apply IH; [|intros; eapply Hu; by right]. apply elem_of_cons in Hin as [?|?]; [by simplify_eq|done].
Qed.

Lemma find_ppi_none node i l : (∀ p b, (p, (i, b)) ∉ l) → find_ppi node i l = None.
Proof.
  induction l as [|[p' [i' b']] l IH]; intros Hn; [done|]. simpl.
  destruct (decide (i' = i)) as [->|Hne]; [by destruct (Hn p' b'); left|].
  apply IH. intros p b Hin. apply (Hn p b). by right.
Qed.

Lemma find_spi_unique node i p b l :
  (p, (i, node, b)) ∈ l → (∀ p' i' nid b', (p', (i', nid, b')) ∈ l → nid = node) →
  (∀ p' b', (p', (i, node, b')) ∈ l → p' = p) → find_spi node i l = Ok (Some (SPI p)).
Proof.
  induction l as [|[p' [[i' nid] b']] l IH]; intros Hin Hn Hu; [by apply elem_of_nil in Hin|]. simpl.
  assert (nid = node) as -> by (eapply Hn; by left). rewrite decide_True by done.
  destruct (decide (i' = i)) as [->|Hne]; [by rewrite (Hu p' b') by left|].
  apply IH; [|intros; eapply Hn; by right|intros; eapply Hu; by right].
  apply elem_of_cons in Hin as [?|?]; [by simplify_eq|done].
Qed.

Section resolve.
Context {I : Type} `{!Finite I} (valid : I → Prop) `{!FiniteLaws I valid}.
Context (ppi_map : gmap nat (I * bool)) (spi_map : gmap nat (I * nat * bool)).

Lemma to_nat_inj_valid x y : valid x → valid y → to_nat x = to_nat y → x = y.
Proof.
  intros Hx Hy Heq. apply (f_equal from_nat) in Heq. rewrite !from_to_nat in Heq by done. by simplify_eq.
Qed.

Lemma numbered_ppi p i b :
  (p, (i, b)) ∈ btree_iter (ppi (numbered_irq_map ppi_map spi_map)) ↔
  ∃ ev, ppi_map !! p = Some (ev, b) ∧ i = to_nat ev.
Proof.
  rewrite elem_of_btree_iter. simpl. rewrite lookup_fmap_Some. split.
  - intros ([ev b'] & ? & Hl). simplify_eq/=. by exists ev.
  - intros (ev & Hl & ->). by exists (ev, b).
Qed.
Lemma numbered_spi p i nid b :
  (p, (i, nid, b)) ∈ btree_iter (spi (numbered_irq_map ppi_map spi_map)) ↔
  ∃ ev, spi_map !! p = Some (ev, nid, b) ∧ i = to_nat ev.
Proof.
  rewrite elem_of_btree_iter. simpl. rewrite lookup_fmap_Some. split.
  - intros ([[ev nid'] b'] & ? & Hl). simplify_eq/=. by exists ev.
  - intros (ev & Hl & ->). by exists (ev, nid, b).
Qed.

(** What a configuration should be: its events are valid, and an event has one interrupt. *)
Record maps_ok : Prop := {
  mo_ppi_valid p ev b : ppi_map !! p = Some (ev, b) → valid ev;
  mo_spi_valid p ev nid b : spi_map !! p = Some (ev, nid, b) → valid ev;
  mo_ppi p p' ev b b' : ppi_map !! p = Some (ev, b) → ppi_map !! p' = Some (ev, b') → p' = p;
  mo_spi p p' ev nid nid' b b' :
    spi_map !! p = Some (ev, nid, b) → spi_map !! p' = Some (ev, nid', b') → p' = p;
  mo_disjoint p p' ev nid b b' : ppi_map !! p = Some (ev, b) → spi_map !! p' = Some (ev, nid, b') → False;
}.

Lemma ppi_resolves node p ev b :
  maps_ok → ppi_map !! p = Some (ev, b) →
  irq_of_event (numbered_irq_map ppi_map spi_map) node (to_nat ev) = Ok (QualifiedPPI node p).
Proof.
  intros Hok Hp. unfold irq_of_event. erewrite (find_ppi_unique node (to_nat ev) p b); [done| |].
  - apply numbered_ppi. by exists ev.
  - intros p' b' (ev' & Hp' & Heq)%numbered_ppi. apply to_nat_inj_valid in Heq as <-.
    + by eapply mo_ppi.
    + by eapply mo_ppi_valid.
    + by eapply mo_ppi_valid.
Qed.

Lemma spi_resolves node p ev b :
  maps_ok → spi_map !! p = Some (ev, node, b) →
  (∀ p' ev' nid b', spi_map !! p' = Some (ev', nid, b') → nid = node) →
  irq_of_event (numbered_irq_map ppi_map spi_map) node (to_nat ev) = Ok (SPI p).
Proof.
  intros Hok Hp Hn. unfold irq_of_event. rewrite find_ppi_none.
  - erewrite (find_spi_unique node (to_nat ev) p b); [done| | |].
    + apply numbered_spi. by exists ev.
    + intros p' i' nid b' (ev' & Hp' & _)%numbered_spi. by eapply Hn.
    + intros p' b' (ev' & Hp' & Heq)%numbered_spi. apply to_nat_inj_valid in Heq as <-.
      * by eapply mo_spi.
      * by eapply mo_spi_valid.
      * by eapply mo_spi_valid.
  - intros p' b' (ev' & Hp' & Heq)%numbered_ppi. apply to_nat_inj_valid in Heq as <-.
    + by eapply mo_disjoint.
    + by eapply mo_spi_valid.
    + by eapply mo_ppi_valid.
Qed.
End resolve.

Section events.
Context {K X : Type} `{!VmmEnv K}.
Abbreviation T := (VMMGICCallbacks * K)%type.
Abbreviation GM := (M (GIC T) (GicError Error)).
Abbreviation V := (M (VMM K X) (GicError Error)).
Context (node : VMMNode X) (m : IRQMap).

Definition resolves (bit : nat) (irq : QualifiedIRQ) : Prop := irq_of_event m (node_index node) bit = Ok irq.

(** Handling interrupts does not change the map. *)
Lemma handle_irq_map c q (g : GIC T) : irq_map (callbacks (handle_irq c q g).2).1 = irq_map (callbacks g).1.
Proof.
  pose proof (handle_irq_static (g_num_nodes g) (callbacks g).1 c q g) as H.
  destruct H as [_ H]; [done|]. unfold cb_static in H. by rewrite H.
Qed.

Lemma handle_bits bits irqs (v : VMM K X) g' :
  irq_map (callbacks (gic v)).1 = m → Forall2 resolves bits irqs →
  for_each (handle_irq (node_index node)) irqs (gic v) = (Ok tt, g') →
  for_each (handle_event node) bits v = (Ok tt, with_gic v g') ∧ irq_map (callbacks g').1 = m.
Proof.
  intros Hm Hall. revert v Hm. induction Hall as [|bit irq bits irqs Hr Hall IH]; intros v Hm; simpl.
  { intros [= <-]. split; [by destruct v|done]. }
  intros ([] & g1 & Hirq & Hrest)%bind_ok_inv. specialize (IH (with_gic v g1)).
  pose proof (handle_irq_map (node_index node) irq (gic v)) as Hmap. rewrite Hirq in Hmap. simpl in Hmap.
  destruct IH as [IH Hm']; [by simpl; rewrite Hmap|done|]. split; [|done].
  rewrite (bind_eq_ok _ _ _ tt (with_gic v g1)); [done|]. unfold handle_event.
  erewrite bind_eq_ok by done. rewrite Hm. unfold lift. rewrite Hr. erewrite bind_eq_ok by done.
  unfold on_gic. by rewrite Hirq.
Qed.

(** The state after events were taken from the bitfield and became interrupts. *)
Definition after_events (v : VMM K X) (bf : list Z) (g : GIC T) : VMM K X :=
  with_gic (with_bitfields v (<[node_index node := bf]> (bitfields v))) g.

Lemma after_events_twice v bf bf' g g' :
  after_events (after_events v bf g) bf' g' = after_events v bf' g'.
Proof. unfold after_events, with_gic, with_bitfields. simpl. by rewrite list_insert_insert_eq. Qed.

Lemma handle_groups groups (v : VMM K X) bf bits bf' irqs g' :
  irq_map (callbacks (gic v)).1 = m → bitfields v !! node_index node = Some bf →
  bitfield_clear_groups bf groups = Some (bits, bf') → Forall2 resolves bits irqs →
  for_each (handle_irq (node_index node)) irqs (gic v) = (Ok tt, g') →
  for_each (handle_group node) groups v = (Ok tt, after_events v bf' g').
Proof.
  revert v bf bits irqs. induction groups as [|gr groups IH]; intros v bf bits irqs Hm Hbf Hc Hall Hrun.
  { simpl in Hc. simplify_eq. inversion Hall; subst. injection Hrun as <-. unfold after_events.
    rewrite list_insert_id by done. by destruct v. }
  simpl in Hc. destruct (bitfield_swap bf gr) as [[bits1 bf1]|] eqn:Hs; simpl in Hc; [|done].
  destruct (bitfield_clear_groups bf1 groups) as [[bits2 bf2]|] eqn:Hc2; simpl in Hc; [|done].
  simplify_eq. apply Forall2_app_inv_l in Hall as (irqs1 & irqs2 & Hall1 & Hall2 & ->).
  rewrite for_each_app in Hrun. apply bind_ok_inv in Hrun as ([] & g1 & Hrun1 & Hrun2).
  destruct (handle_bits bits1 irqs1 (with_bitfields v (<[node_index node := bf1]> (bitfields v))) g1)
    as [Hb Hm1]; [done..|].
  cbn [for_each]. rewrite (bind_eq_ok _ _ _ tt (after_events v bf1 g1)).
  - rewrite (IH _ bf1 bits2 irqs2); [by rewrite after_events_twice|done| |done..].
    simpl. apply list_lookup_insert_eq. by eapply lookup_lt_Some.
  - unfold handle_group. erewrite bind_eq_ok; [|by unfold reads, index; rewrite Hbf].
    unfold lift. rewrite Hs. erewrite bind_eq_ok by done. cbv beta iota.
    by erewrite bind_eq_ok by done.
Qed.

Context `{!VMMExtension (K := K) (X := X)}.

(** C24: events become interrupts.  When a notification reports groups of events to a node, the
    monitor takes the events of these groups from the shared bitfield, which it clears, and
    hands each of them, in order, to the interrupt controller as the interrupt that the map gives
    it; nothing else changes. *)
Theorem events_become_interrupts (v : VMM K X) msg bf bits bf' irqs g' :
  m_badge msg ≠ BADGE_FAULT → irq_map (callbacks (gic v)).1 = m →
  bitfields v !! node_index node = Some bf → bitfield_clear bf (m_badge msg) = Some (bits, bf') →
  Forall2 resolves bits irqs →
  for_each (handle_irq (node_index node)) irqs (gic v) = (Ok tt, g') →
  vmm_handle_message node msg v = (Ok tt, after_events v bf' g').
Proof.
  intros Hbadge ? ? ? ? ?. unfold vmm_handle_message. rewrite decide_False by done.
  by eapply handle_groups.
Qed.
End events.

(** An event has the interrupt that the configuration gives it.  For a lawful numbering of
    events and a configuration in which every event has one interrupt and the shared interrupts
    are those of this node, the monitor finds for an event exactly the interrupt it is
    configured for: the node's private one, or the shared one. *)
Lemma configured_event_resolves {I} `{!Finite I} (valid : I → Prop) `{!FiniteLaws I valid}
    (ppi_map : gmap nat (I * bool)) (spi_map : gmap nat (I * nat * bool)) (node p : nat) (ev : I) (b : bool) :
  maps_ok valid ppi_map spi_map →
  (∀ p' ev' nid b', spi_map !! p' = Some (ev', nid, b') → nid = node) →
  (ppi_map !! p = Some (ev, b) →
    irq_of_event (numbered_irq_map ppi_map spi_map) node (to_nat ev) = Ok (QualifiedPPI node p)) ∧
  (spi_map !! p = Some (ev, node, b) →
    irq_of_event (numbered_irq_map ppi_map spi_map) node (to_nat ev) = Ok (SPI p)).
Proof. intros Hok Hn. split; intros; [by eapply ppi_resolves|by eapply spi_resolves]. Qed.

(** ** What makes a monitor panic *)
Section panics.
Context {K X : Type} `{!VmmEnv K} `{!VMMExtension (K := K) (X := X)}.

(** The node that an entry of the map of shared interrupts belongs to. *)
Lemma find_spi_foreign node i l p spi_index nid b :
  head l = Some (p, (spi_index, nid, b)) → nid ≠ node → find_spi node i l = Panic.
Proof. destruct l as [|[p' [[i' nid'] b']] l]; simpl; [done|]. intros [= -> -> -> ->] ?. by rewrite decide_False. Qed.

(** What a guest, or a configuration, can do to make its monitor panic: a call of the power
    interface with an unknown function identifier; [CPU_ON] for a CPU that does not exist or was
    started already; a fault of the virtual CPU other than a trapped wait; an access outside the
    distributor; and an event that is no private interrupt, on a node that does not
    own the first shared interrupt of the map. *)
Lemma monitor_panics (v : VMM K X) (node : VMMNode X) :
  (∀ f fid, syscall_number f = psci.SYS_PSCI → psci.parse f = Err (psci.UnrecognizedFid fid) →
    (handle_fault node (FUnknownSyscall f) v).1 = Panic) ∧
  (∀ f, cpu_on_call f → (∀ t, nodes v !! Z.to_nat (x1 f) ≠ Some (Some t)) →
    (handle_fault node (FUnknownSyscall f) v).1 = Panic) ∧
  (∀ f, is_wf (hsr f) = false → (handle_fault node (FVCPUFault f) v).1 = Panic) ∧
  (∀ f, offset_in_region (addr f) (gic_dist_paddr v) DISTRIBUTOR_SIZE = None →
    (handle_fault node (FVMFault f) v).1 = Panic) ∧
  (∀ i p spi_index nid b, let m := irq_map (callbacks (gic v)).1 in
    find_ppi (node_index node) i (btree_iter (ppi m)) = None →
    head (btree_iter (spi m)) = Some (p, (spi_index, nid, b)) → nid ≠ node_index node →
    (handle_event node i v).1 = Panic).
Proof.
  split_and!.
  - intros f fid Hf Hp. unfold handle_fault, handle_syscall. rewrite decide_True by done.
    unfold sys_psci, lift. by rewrite Hp.
  - intros f Hf Hn. unfold handle_fault, handle_syscall. rewrite decide_True by apply Hf.
    unfold sys_psci, lift. rewrite (cpu_on_parse f Hf). erewrite bind_eq_ok by done.
    unfold mbind, M_bind. rewrite take_node_eq. destruct (nodes v !! _) as [[t|]|] eqn:Hl; [|done..].
    by destruct (Hn t).
  - intros f Hf. unfold handle_fault. by rewrite Hf.
  - intros f Hf. unfold handle_fault, handle_page_fault, gets, mbind, M_bind. by rewrite Hf.
  - intros i p si nid b m Hp Hs Hne. unfold handle_event, gets, lift, mbind, M_bind, irq_of_event.
    fold m. rewrite Hp. by erewrite find_spi_foreign.
Qed.
End panics.

(** ** A closed example

    A realm of two virtual nodes, on a kernel that records what it is asked and gives every
    guest the same registers. *)
Module VmmDemo.
Inductive logged :=
| LSys (c : Syscall) | LCall (ep : CPtr) (call : ClientCall) | LMr (mr : nat) (v : Z) | LReply (n : Z) | LPut (c : Z).
Definition kernel : Type := list logged.

Definition abi : FaultAbi := {|
  tag_raw t :=
    match t with
    | NullFaultTag => 0 | CapFaultTag => 1 | UnknownSyscallTag => 2 | UserExceptionTag => 3
    | VMFaultTag => 5 | VGICMaintenanceTag => 6 | VCPUFaultTag => 7 | VPPIEventTag => 8
    end%Z;
  msg_length t :=
    match t with UnknownSyscallTag => 13 | UserExceptionTag => 5 | VMFaultTag => 4 | _ => 1 end%Z;
  field _ i := i;
|}.

Definition demo_registers : UserContext :=
  {| pc := 0x40080000; sp := 0; spsr := 0; gprs := replicate 31 0x1122334455667788%Z |}.

#[export] Instance demo_env : VmmEnv kernel := {|
  env_sel4 := {| sel4_sys := LogKernel.sys; syscall c k := (0%Z, k ++ [LSys c]) |};
  env_abi := abi;
  CNTVOFF := 20;
  es_call ep call k := k ++ [LCall ep call];
  sys_read_registers _ _ _ _ k := (0%Z, demo_registers, k);
  env_ipc := {| MSG_MAX_LENGTH := 120; seL4_GetMR _ _ := 0%Z; seL4_SetMR mr v k := k ++ [LMr mr v];
                ep_call _ n k := (n, k) |};
  reply n k := k ++ [LReply n];
  debug_putchar c k := k ++ [LPut c];
|}.

Lemma env_accepts : accepts (K := kernel).
Proof. intros c k. by eexists. Qed.

Definition config : VMMConfig realm.RealmExtension := {|
  c_event_server_client_ep := [100%Z; 101%Z];
  c_irq_map := {| ppi := {[ 20 := (0, false) ]}; spi := {[ 40 := (1, 0, true) ]} |};
  c_gic_dist_paddr := 0x8000000;
  c_nodes := [{| nc_tcb := 1; nc_vcpu := 2; nc_event_server_bitfield := [3%Z]; nc_extension := realm.MkExtension |};
              {| nc_tcb := 3; nc_vcpu := 4; nc_event_server_bitfield := [0%Z]; nc_extension := realm.MkExtension |}];
|}.

Definition node0 : VMMNode realm.RealmExtension :=
  {| node_index := 0; node_tcb := 1; node_vcpu := 2; extension := realm.MkExtension |}.
Definition node1 : VMMNode realm.RealmExtension :=
  {| node_index := 1; node_tcb := 3; node_vcpu := 4; extension := realm.MkExtension |}.

(** The state of the configuration, before and after the first node runs. *)
Definition v0 : VMM kernel realm.RealmExtension := {|
  gic := {| g_num_nodes := 2; callbacks := (configured config, []); dist := initial 2;
            lrs := replicate 2 {| mirror := replicate NUM_LRS None; overflow := [] |} |};
  gic_dist_paddr := 0x8000000; bitfields := [[3%Z]; [0%Z]]; nodes := [Some node0; Some node1];
  booting := []; running := [] |}.
Definition v1 : VMM kernel realm.RealmExtension := (vmm_run_start v0).2.

Lemma v0_init : vmm_init config ([] : kernel) = Ok v0.
Proof. unfold vmm_init, gic_new. rewrite new_eq. reflexivity. Qed.

(** [CPU_ON] for the second node. *)
Definition cpu_on : UnknownSyscall :=
  {| x0 := psci.FID_CPU_ON; x1 := 1; x2 := 0x40090000; x3 := 77; x4 := 0; x5 := 0; x6 := 0; x7 := 0;
     us_fault_ip := 0x40080000; us_sp := 0; us_lr := 0; us_spsr := 0; syscall_number := 0 |}.
Definition cpu_on_message : Message :=
  {| m_badge := 0; m_label := 2; m_length := 13;
     m_mrs i := default 0%Z ([psci.FID_CPU_ON; 1; 0x40090000; 77; 0; 0; 0; 0; 0x40080000]%Z !! i) |}.

(** A load of [GICD_TYPER] into [x2]. *)
Definition typer_load : VMFault :=
  {| ip := 0x40080000; addr := 0x8000004; prefetch_fault := 0; fsr := 0x01820000 |}.
End VmmDemo.
#[local] Existing Instance VmmDemo.demo_env.

Lemma v1_wf : vmm_wf 2 (configured VmmDemo.config) VmmDemo.v1.
Proof.
  apply take_run_wf. apply (vmm_init_wf VmmDemo.config []); [simpl; lia|]. exact VmmDemo.v0_init.
Qed.

Lemma v1_reachable : vmm_reachable VmmDemo.config VmmDemo.v1.
Proof. exists [], VmmDemo.v0. split; [exact VmmDemo.v0_init|]. apply rtc_refl. Qed.

Lemma vmm_reachable_wf_witness :
  let v := (boot (vmm_handle_message VmmDemo.node0 VmmDemo.cpu_on_message VmmDemo.v1).2).2 in
  node_ids v = [0; 1] ∧ vmm_wf 2 (configured VmmDemo.config) v.
Proof.
  intros v. split; [vm_compute; reflexivity|].
  apply (vmm_reachable_wf VmmDemo.config v); [simpl; lia|].
  destruct v1_reachable as (k & v' & Hi & Hr). exists k, v'. split; [exact Hi|].
  eapply rtc_r; [|apply step_boot]. eapply rtc_r; [exact Hr|]. apply step_message.
  vm_compute. left.
Defined.

Lemma guest_load_emulated_witness :
  ∃ new ctx' k2, handle_fault VmmDemo.node0 (FVMFault VmmDemo.typer_load) VmmDemo.v1 =
      (Ok tt, with_kernel VmmDemo.v1 (reply 0 k2)) ∧
    gpr (E := GicError Error) ctx' 2 = Ok new ∧ pc ctx' = 0x40080004%Z.
Proof.
  destruct (guest_load_emulated VmmDemo.v1 VmmDemo.node0 VmmDemo.typer_load GICD_TYPER 2 VmmDemo.demo_registers
    (kernel_of VmmDemo.v1)) as (val & old & new & ctx' & k2 & _ & _ & _ & Hrun & Hnew & _ & _ & _ & Hpc & _).
  - apply v1_wf.
  - vm_compute. lia.
  - vm_compute. discriminate.
  - vm_compute. reflexivity.
  - split; vm_compute; try reflexivity. split; discriminate.
  - exact I.
  - exact I.
  - vm_compute. reflexivity.
  - reflexivity.
  - apply Forall_replicate. split; [discriminate|reflexivity].
  - exact VmmDemo.env_accepts.
  - exists new, ctx', k2. split; [exact Hrun|]. split; [exact Hnew|]. rewrite Hpc. reflexivity.
Defined.

Lemma cpu_on_boots_witness :
  ∃ v2, handle_fault VmmDemo.node0 (FUnknownSyscall VmmDemo.cpu_on) VmmDemo.v1 = (Ok tt, v2) ∧
    ∃ v3, boot v2 = (Ok tt, v3) ∧ running v3 = [VmmDemo.node0; VmmDemo.node1].
Proof.
  destruct (cpu_on_boots VmmDemo.v1 VmmDemo.node0 VmmDemo.cpu_on VmmDemo.node1) as (v2 & Hrun & _ & Hk & Hboot).
  - split; vm_compute; reflexivity.
  - vm_compute. reflexivity.
  - vm_compute. reflexivity.
  - exact VmmDemo.env_accepts.
  - exists v2. split; [exact Hrun|].
    destruct (Hboot VmmDemo.demo_registers (kernel_of v2)) as (ctx' & k2 & v3 & _ & _ & _ & _ & Hb & Hr & _).
    + reflexivity.
    + reflexivity.
    + exists v3. split; [exact Hb|]. rewrite Hr. reflexivity.
Defined.

(** Events 0 and 1 of the first node: the private interrupt 20 and the shared interrupt 40. *)
Lemma events_become_interrupts_witness :
  let msg := {| m_badge := 1; m_label := 0; m_length := 0; m_mrs _ := 0%Z |} in
  ∃ g', vmm_handle_message VmmDemo.node0 msg VmmDemo.v1 = (Ok tt, after_events VmmDemo.node0 VmmDemo.v1 [0%Z] g').
Proof.
  intros msg. eexists.
  apply (events_become_interrupts VmmDemo.node0 (c_irq_map VmmDemo.config) VmmDemo.v1 msg [3%Z] [0; 1] [0%Z]
    [QualifiedPPI 0 20; SPI 40]).
  - discriminate.
  - reflexivity.
  - reflexivity.
  - vm_compute. reflexivity.
  - repeat constructor.
  - vm_compute. reflexivity.
Defined.

(** The host's guest sends a flag to a server that answers with the same flag; here the kernel is
    its message registers. *)
Module PassDemo.
#[export] Instance pass_env : VmmEnv RpcDemo.kernel := {|
  env_sel4 := {| sel4_sys := LogKernel.sys; syscall _ k := (0%Z, k) |};
  env_abi := VmmDemo.abi;
  env_ipc := RpcDemo.ipc;
  CNTVOFF := 20;
  es_call _ _ k := k;
  sys_read_registers _ _ _ _ k := (0%Z, VmmDemo.demo_registers, k);
  reply _ k := k;
  debug_putchar _ k := k;
|}.
Definition host_node : VMMNode host.HostExtension :=
  {| node_index := 0; node_tcb := 1; node_vcpu := 2;
     extension := {| host.resource_server_ep := 10; host.event_server_control_ep := 11;
                     host.benchmark_server_ep := 12 |} |}.
Definition request : UnknownSyscall :=
  {| x0 := 1; x1 := 1; x2 := 0; x3 := 0; x4 := 0; x5 := 0; x6 := 0; x7 := 0;
     us_fault_ip := 0x40080000; us_sp := 0; us_lr := 0; us_spsr := 0; syscall_number := 1338 |}.
Definition host_vmm : VMM RpcDemo.kernel host.HostExtension := {|
  gic := {| g_num_nodes := 1;
            callbacks := ({| vcpus := [2%Z]; event_server_client := [100%Z];
                             irq_map := {| ppi := ∅; spi := ∅ |} |}, λ _, 0%Z);
            dist := initial 1; lrs := [] |};
  gic_dist_paddr := 0x8000000; bitfields := [[]]; nodes := [None]; booting := []; running := [host_node] |}.
End PassDemo.

Lemma passthru_forwards_witness :
  ∃ k2, @handle_fault _ _ PassDemo.pass_env (host.host_extension (VmmEnv0 := PassDemo.pass_env)) PassDemo.host_node
      (FUnknownSyscall PassDemo.request) PassDemo.host_vmm =
    (Ok tt, with_kernel PassDemo.host_vmm (@passed_back _ PassDemo.pass_env PassDemo.request [1%Z] k2)).
Proof.
  eexists.
  refine (proj2 (@passthru_forwards RpcDemo.kernel PassDemo.pass_env RpcDemo.ipc_laws bool bool
    RpcDemo.bool_postcard RpcDemo.bool_postcard_laws RpcDemo.bool_postcard
    PassDemo.host_vmm PassDemo.host_node PassDemo.request true true [1%Z] [1%Z] _ _ _ _ _ _ _ _ _)).
  - reflexivity.
  - vm_compute. lia.
  - reflexivity.
  - split; [reflexivity|]. split; [vm_compute; lia|].
    intros [|j] w Hj; [|destruct j; discriminate Hj]. vm_compute in Hj. injection Hj as <-. reflexivity.
  - reflexivity.
  - vm_compute. lia.
  - reflexivity.
  - intros [|j] w Hj; [|destruct j; discriminate Hj]. vm_compute in Hj. injection Hj as <-. reflexivity.
Defined.
