(* ===== verification/MonitorSafety.v ===== *)
(** * MonitorSafety: a monitor whose guest keeps to what is handled never stops

    A monitor panics, or its loop ends with an error, on accesses and calls it does not handle.
    [message_ok] lists what it handles.  On a kernel that does what the monitor asks of it
    ([KernelOk]), a monitor that gets only such messages handles every one of them, in every order and
    on every node: it neither panics nor stops with an error. *)

From S2P Require Import Prelude.
From S2P Require Import Biterate.
From S2P Require Import Fault.
From S2P Require Import FaultMessage.
From S2P Require Import Sel4.
From S2P Require Import Bitfield.
From S2P Require Import EventServer.
From S2P Require Import GicRegisters.
From S2P Require Import Distributor.
From S2P Require Import DistributorSpec.
From S2P Require Import DistributorOps.
From S2P Require Import DistributorSafety.
From S2P Require Import DistributorRuns.
From S2P Require Import Gic.
From S2P Require Import GicSpec.
From S2P Require Import Vmm.
From S2P Require Import VmmSpec.

#[local] Arguments Nat.leb : simpl never.

(** ** Programs that return

    [runs I m]: from a state of [I], [m] returns a value and ends in a state of [I]. *)
Definition runs {S E A} (I : S → Prop) (m : M S E A) : Prop :=
  ∀ s, I s → ∃ a s', m s = (Ok a, s') ∧ I s'.
Create HintDb runs discriminated.

Section runs_rules.
Context {S E : Type} (I : S → Prop).
Lemma runs_ret {A} (a : A) : runs I (mret a : M S E A).
Proof. intros s Hs. by exists a, s. Qed.
Lemma runs_gets {A} (f : S → A) : runs I (gets f : M S E A).
Proof. intros s Hs. by eexists _, s. Qed.
Lemma runs_modify (f : S → S) : (∀ s, I s → I (f s)) → runs I (modify f : M S E unit).
Proof. intros Hf s Hs. exists tt, (f s). split; [done|by apply Hf]. Qed.
Lemma runs_lift {A} (o : outcome E A) a : o = Ok a → runs I (lift o : M S E A).
Proof. intros -> s Hs. by exists a, s. Qed.
Lemma runs_bind {A B} (m : M S E A) (f : A → M S E B) : runs I m → (∀ a, runs I (f a)) → runs I (m ≫= f).
Proof.
  intros Hm Hf s Hs. destruct (Hm s Hs) as (a & s1 & Hr & Hs1). destruct (Hf a s1 Hs1) as (b & s2 & Hr2 & Hs2).
  exists b, s2. split; [|done]. by rewrite (bind_eq_ok _ _ _ _ _ Hr).
Qed.
Lemma runs_for_each {B} (f : B → M S E unit) l : Forall (λ x, runs I (f x)) l → runs I (for_each f l).
Proof. induction 1; simpl; [apply runs_ret|]. by apply runs_bind. Qed.
Lemma runs_unwrap_result {E' A} (m : M S E A) : runs I m → runs I (unwrap_result m : M S E' A).
Proof. intros Hm s Hs. destruct (Hm s Hs) as (a & s' & Hr & Hs'). exists a, s'. unfold unwrap_result. by rewrite Hr. Qed.
End runs_rules.
#[export] Hint Resolve runs_ret runs_gets runs_unwrap_result : runs.
#[export] Hint Extern 1 (runs _ (_ ≫= _)) => (apply runs_bind; [|intros ?]) : runs.

(** ** The distributor *)
Section dist.
Context (n : nat).

(** What a change of pending and active bits leaves alone. *)
Definition same_frame (d d' : Distributor) : Prop :=
  enable d' = enable d ∧ num_nodes d' = num_nodes d ∧ targets d' = targets d.
Lemma good_frame d d' : good n d → wf d' → same_frame d d' → good n d'.
Proof.
  intros [(_ & Hres & <-) Ht] Hwf (He & Hn & Hts). unfold good, safe_state, reserved_clear, targets_exist in *.
  by rewrite He, Hn, Hts.
Qed.
Lemma pending_frame b irq cpu d d' : pending_written b irq cpu d d' → same_frame d d'.
Proof.
  intros [Hs _]. split_and!; [apply (f_equal enable) in Hs|apply (f_equal num_nodes) in Hs|apply (f_equal targets) in Hs];
    simpl in Hs; done.
Qed.
Lemma active_frame b irq cpu d d' : active_written b irq cpu d d' → same_frame d d'.
Proof.
  intros [Hs _]. split_and!; [apply (f_equal enable) in Hs|apply (f_equal num_nodes) in Hs|apply (f_equal targets) in Hs];
    simpl in Hs; done.
Qed.
Lemma same_frame_trans d d' d'' : same_frame d d' → same_frame d' d'' → same_frame d d''.
Proof. unfold same_frame. intros (-> & -> & ->) (-> & -> & ->). done. Qed.

Lemma ack_good irq cpu : irq < 1024 → cpu < n → runs (good n) (ack irq cpu).
Proof.
  intros Hirq Hcpu d Hd. pose proof Hd as [(Hwf & _ & Hn) _]. rewrite <- Hn in Hcpu. pose proof (wf_nodes d Hwf) as H0.
  assert (∃ d1, (if irq <? 16 then clear_sgi_pending irq 0 cpu else clear_pending irq cpu) d = (Ok tt, d1) ∧ good n d1)
    as (d1 & Hrun1 & Hd1).
  { destruct (Nat.ltb_spec irq 16).
    - destruct (clear_sgi_pending_spec d irq 0 cpu) as (d0 & d1 & Hrun & Hd0 & _ & Hif); [done|done|lia|done|].
      pose proof (clear_sgi_pending_preserves_wf irq 0 cpu d Hwf) as Hw1. rewrite Hrun in Hw1. simpl in Hw1.
      exists d1. split; [done|]. assert (same_frame d d0) by by rewrite Hd0.
      destruct (other_source _ _ _ _); [subst d1; by eapply good_frame|].
      eapply good_frame; [done..|]. by eapply same_frame_trans, pending_frame.
    - destruct (clear_pending_spec d irq cpu) as (d1 & Hrun & Hw); [done..|].
      pose proof (clear_pending_preserves_wf irq cpu d Hwf) as Hw1. rewrite Hrun in Hw1.
      exists d1. split; [done|]. by eapply good_frame, pending_frame. }
  pose proof Hd1 as [(Hwf1 & _ & Hn1) _].
  destruct (clear_active_spec d1 irq cpu) as (d2 & Hrun2 & Hw2); [done|done|lia|].
  pose proof (clear_active_preserves_wf irq cpu d1 Hwf1) as Hwf2. rewrite Hrun2 in Hwf2.
  exists tt, d2. split; [|by eapply good_frame, active_frame].
  unfold ack, gets. erewrite bind_eq_ok by done. rewrite (proj2 (Nat.leb_gt _ _)) by done.
  by erewrite bind_eq_ok.
Qed.
End dist.

(** ** What is relied on of the kernel *)

(** Invocations succeed, and the registers of a thread can be read. *)
Class KernelOk (K : Type) `{!VmmEnv K} := {
  kernel_accepts : accepts (K := K);
  registers_read tcb (k : K) : ∃ ctx k',
    sys_read_registers tcb false 0 user_context_words k = (seL4_NoError, ctx, k') ∧ length (gprs ctx) = 31;
}.

Section monitor.
Context {K X : Type} `{!VmmEnv K} `{!KernelOk K}.
Abbreviation T := (VMMGICCallbacks * K)%type.
Abbreviation C := (M T Error).
Abbreviation GM := (M (GIC T) (GicError Error)).
Abbreviation V := (M (VMM K X) (GicError Error)).
Context (n : nat) (c0 : VMMGICCallbacks).
Hypothesis n_range : 0 < n ≤ 8.
(** The configuration has a virtual CPU and a client of the event server for every node. *)
Hypothesis vcpus_there : n ≤ length (vcpus c0).
Hypothesis clients_there : n ≤ length (event_server_client c0).

(** *** Invocations *)
Lemma wrap_no_error : wrap seL4_NoError = Ok tt.
Proof. unfold wrap, from_ret. by rewrite decide_True. Qed.
Lemma invoke_runs c : runs (λ _ : K, True) (invoke c).
Proof.
  intros k _. destruct (kernel_accepts c k) as [k' Hk]. exists tt, k'. split; [|done].
  unfold invoke. by rewrite Hk, wrap_no_error.
Qed.
Lemma write_registers_run tcb ctx : runs (λ _ : K, True) (write_all_registers tcb false ctx).
Proof. apply invoke_runs. Qed.
Lemma read_registers_run tcb (k : K) :
  ∃ ctx k', read_all_registers tcb false k = (Ok ctx, k') ∧ length (gprs ctx) = 31.
Proof.
  destruct (registers_read tcb k) as (ctx & k' & Hr & Hl). exists ctx, k'. split; [|done].
  unfold read_all_registers, read_registers. by rewrite Hr, wrap_no_error.
Qed.

(** *** Callbacks *)
Definition static (c : T) : Prop := c.1 = c0.
Lemma cb_kernel_runs {A} (m : M K Error A) : runs (λ _, True) m → runs static (cb_kernel m : C A).
Proof.
  intros Hm [c k] Hc. destruct (Hm k I) as (a & k' & Hr & _). exists a, (c, k'). unfold cb_kernel. simpl. by rewrite Hr.
Qed.
Lemma vcpu_of_runs node : node < n → runs static (vcpu_of node : C CPtr).
Proof.
  intros Hn [c k] Hc. destruct (lookup_lt_is_Some_2 (vcpus c0) node) as [x Hx]; [lia|].
  exists x, (c, k). split; [|done]. unfold vcpu_of, reads, index. unfold static in Hc. simpl in *. by rewrite Hc, Hx.
Qed.
Lemma client_call_runs node call : node < n → runs static (client_call node call : C unit).
Proof.
  intros Hn [c k] Hc. destruct (lookup_lt_is_Some_2 (event_server_client c0) node) as [x Hx]; [lia|].
  unfold client_call. unfold static in Hc. simpl in Hc. subst c.
  exists tt, (c0, es_call x call k). split; [|done]. by erewrite bind_eq_ok by (unfold reads, index; simpl; by rewrite Hx).
Qed.

Definition qirq_ok (q : QualifiedIRQ) : Prop :=
  match q with QualifiedPPI node irq => node < n ∧ irq < 1020 | SPI irq => irq < 1020 end.
Lemma ack_runs node q : node < n → qirq_ok q → runs static (cb_ack node q : C unit).
Proof.
  intros Hn Hq. cbn [cb_ack VMMGICCallbacks_callbacks]. unfold vmm_ack. apply runs_bind; [apply runs_gets|]. intros m.
  destruct q as [target irq|irq]; [destruct (ppi m !! irq) as [[i []]|]|destruct (spi m !! irq) as [[[i nid] []]|]];
    auto using client_call_runs with runs.
  apply runs_bind; [apply vcpu_of_runs, Hq|]. intros vcpu. apply cb_kernel_runs, invoke_runs.
Qed.
Lemma inject_runs node target i irq p : target < n → runs static (cb_vcpu_inject_irq node target i irq p : C unit).
Proof.
  intros Hn. cbn [cb_vcpu_inject_irq VMMGICCallbacks_callbacks]. unfold vmm_vcpu_inject_irq.
  apply runs_bind; [by apply vcpu_of_runs|]. intros vcpu. apply cb_kernel_runs, invoke_runs.
Qed.

(** *** The interrupt controller *)
Definition lr_known (lr : LR) : Prop :=
  (∀ i irq, mirror lr !! i = Some (Some irq) → irq < 1020) ∧ Forall (λ irq, irq < 1020) (overflow lr).
Record calm (g : GIC T) : Prop := {
  calm_wf : gic_wf g;
  calm_nodes : g_num_nodes g = n;
  calm_static : static (callbacks g);
  calm_good : good n (dist g);
  calm_known : Forall lr_known (lrs g);
}.

Lemma calm_lr g node : calm g → node < n → ∃ lr, lrs g !! node = Some lr ∧ lr_ok lr ∧ lr_known lr.
Proof.
  intros Hg Hn. destruct (gic_lr g node) as (lr & Hlr & Hok); [apply Hg|by rewrite (calm_nodes g Hg)|].
  exists lr. split_and!; [done..|]. eapply Forall_lookup_1; [apply Hg|done].
Qed.
Lemma calm_lrs g node lr : calm g → lr_ok lr → lr_known lr → calm (with_lrs g (<[node := lr]> (lrs g))).
Proof.
  intros [Hw Hn Hs Hd Hk] Hok Hkn. split; try done; [|by apply Forall_insert].
  exact (set_lr_wf (CE := Error) node lr Hok g Hw).
Qed.

Lemma on_dist_runs {A} (m : DM A) (g : GIC T) a d' :
  m (dist g) = (Ok a, d') → (on_dist m : GM A) g = (Ok a, with_dist g d').
Proof. unfold on_dist. by intros ->. Qed.
Lemma calm_dist g d' : calm g → good n d' → calm (with_dist g d').
Proof.
  intros [[_ Hn' Hl Hr] Hn Hs _ Hk] Hd. split; try done. pose proof Hd as [(Hwf & _ & Hnum) _].
  split; try done. simpl. congruence.
Qed.
Lemma on_callbacks_runs {A} (m : C A) : runs static m → runs calm (on_callbacks m : GM A).
Proof.
  intros Hm g [[Hwf Hn' Hl Hr] Hn Hs Hd Hk]. destruct (Hm _ Hs) as (a & c & Hrun & Hc).
  exists a, (with_callbacks g c). unfold on_callbacks. rewrite Hrun. split; [done|]. by split.
Qed.

Lemma inject_irq_runs node target i irq : target < n → irq < 1020 → i < NUM_LRS →
  runs calm (inject_irq node target i irq : GM unit).
Proof.
  intros Ht Hirq Hi g Hg. destruct (calm_lr g target Hg Ht) as (lr & Hlr & Hok & Hkn).
  pose proof (calm_nodes g Hg) as Hn. pose proof (calm_wf g Hg) as Hwf.
  pose proof (inject_irq_wf node target i irq g Hwf) as Hwf'.
  destruct (inject_irq_spec g node target i irq lr) as (d' & p & Hw & _ & Hif); [done|lia|done|done|done|].
  assert (wf (dist (inject_irq node target i irq g : _ * GIC T).2)) as Hwd by apply Hwf'.
  destruct (deliverable _ _ _).
  - destruct Hif as (d'' & Hw2 & Hif).
    destruct (inject_runs node target i irq (Z.shiftr p 3) Ht (callbacks g) (calm_static g Hg)) as (u & c & Hcb & Hc).
    destruct u. rewrite Hcb in Hif. rewrite Hif in Hwf', Hwd |- *. simpl in Hwd, Hwf'. eexists tt, _. split; [done|].
    split; try done.
    + eapply good_frame; [apply Hg|done|]. eapply same_frame_trans; [by eapply pending_frame|by eapply active_frame].
    + apply Forall_insert; [apply Hg|]. destruct Hkn as [Hk1 Hk2]. split; [|done]. intros j irq'. simpl.
      destruct (decide (i = j)) as [<-|Hne]; [|rewrite list_lookup_insert_ne by done; apply Hk1].
      rewrite list_lookup_insert_eq by (rewrite (lr_mirror lr Hok); done). by intros [= <-].
  - rewrite Hif in Hwf', Hwd |- *. simpl in Hwd. eexists tt, _. split; [done|].
    apply calm_dist; [done|]. eapply good_frame; [apply Hg|done|by eapply pending_frame].
Qed.

Lemma forward_irq_runs node target irq : target < n → irq < 1020 → runs calm (forward_irq node target irq : GM unit).
Proof.
  intros Ht Hirq g Hg. destruct (calm_lr g target Hg Ht) as (lr & Hlr & Hok & Hkn).
  unfold forward_irq. rewrite (bind_eq_ok _ _ _ _ _ (get_lr_eq target lr g Hlr)).
  destruct (find_empty 0 (mirror lr)) as [i|] eqn:Hf.
  - apply inject_irq_runs; [done..| |done]. rewrite <- (lr_mirror lr Hok). by apply find_empty_lt.
  - rewrite (bind_eq_ok _ _ _ _ _ (overflow_eq target irq lr g Hlr)). case_bool_decide as Hin; [by exists tt, g|].
    eexists tt, _. split; [done|]. apply calm_lrs; [done| |].
    + destruct Hok as [Hm Ho]. split; [done|]. apply NoDup_app. split_and!; [done| |apply NoDup_singleton].
      intros x Hx ->%list_elem_of_singleton. done.
    + destruct Hkn as [H1 H2]. split; [done|]. apply Forall_app. by split; [|constructor].
Qed.

Lemma spi_destination_exists g irq node target : calm g → node < n → 32 ≤ irq < 1020 →
  spi_destination (dist g) irq node = Some target → target < n.
Proof.
  intros Hg Hn Hirq. unfold spi_destination. destruct (targeted _ _ _); [by intros [= <-]|].
  intros Hh%head_Some_elem_of. apply list_elem_of_filter in Hh as [Hb Hin%elem_of_seq].
  destruct (calm_good g Hg) as [(Hwf & _ & _) Ht]. unfold target_bit, reg_at in Hb.
  destruct (targets (dist g) !! (irq / 4 - 8)) as [r|] eqn:Hr; [|by rewrite Z.testbit_0_l in Hb].
  pose proof (Forall_lookup_1 _ _ _ _ Ht Hr) as Hbelow. apply (Hbelow (irq mod 4)); [apply mod4_lt|lia|done].
Qed.

Definition irq_known (q : QualifiedIRQ) : Prop :=
  match q with QualifiedPPI node irq => node < n ∧ irq < 1020 | SPI irq => 32 ≤ irq < 1020 end.
Lemma handle_irq_runs node q : node < n → irq_known q → runs calm (handle_irq node q : GM unit).
Proof.
  intros Hn Hq g Hg. destruct q as [target irq|irq]; [by apply forward_irq_runs; [apply Hq..|]|].
  rewrite (handle_irq_spi_eq g node irq) by (apply Hg || done).
  destruct (spi_destination (dist g) irq node) as [target|] eqn:Hd; [|by exists tt, g].
  apply forward_irq_runs; [|apply Hq|done]. by eapply spi_destination_exists.
Qed.

Lemma ack_known irq node : irq < 1020 → node < n →
  runs calm ((if (16 <=? irq) && (irq <? 32) then on_callbacks (cb_ack node (QualifiedPPI node irq))
              else on_callbacks (cb_ack node (SPI irq))) : GM unit).
Proof. intros Hirq Hn. destruct (_ && _); apply on_callbacks_runs, ack_runs; done. Qed.
Lemma on_dist_ack irq node : irq < 1020 → node < n → runs calm (on_dist (ack irq node) : GM unit).
Proof.
  intros Hirq Hn g Hg. destruct (ack_good n irq node ltac:(lia) Hn (dist g) (calm_good g Hg)) as (u & d' & Hrun & Hd').
  exists u, (with_dist g d'). split; [by apply on_dist_runs|by apply calm_dist].
Qed.

(** A list register that finished has an interrupt. *)
Definition occupied (g : GIC T) (node i : nat) : Prop :=
  ∃ lr irq, lrs g !! node = Some lr ∧ mirror lr !! i = Some (Some irq).
Lemma handle_maintenance_runs node i g : node < n → occupied g node i → calm g →
  ∃ g', (handle_maintenance node i : GM unit) g = (Ok tt, g') ∧ calm g'.
Proof.
  intros Hn (lr & irq & Hlr & Hm) Hg. destruct (calm_lr g node Hg Hn) as (lr' & Hlr' & Hok & Hkn). simplify_eq.
  assert (i < NUM_LRS) as Hi by (rewrite <- (lr_mirror lr Hok); by eapply lookup_lt_Some).
  pose proof (proj1 Hkn _ _ Hm) as Hirq. unfold handle_maintenance.
  rewrite (bind_eq_ok _ _ _ _ _ (get_lr_eq node lr g Hlr)).
  erewrite bind_eq_ok by (unfold reads, index; by rewrite Hm). erewrite bind_eq_ok by (unfold reads; done).
  erewrite bind_eq_ok by done.
  set (lr1 := {| mirror := <[i := None]> (mirror lr); overflow := overflow lr |}).
  assert (calm (with_lrs g (<[node := lr1]> (lrs g)))) as Hg1.
  { apply calm_lrs; [done| |].
    - destruct Hok. split; [subst lr1; simpl; by rewrite length_insert|done].
    - destruct Hkn as [H1 H2]. split; [|done]. intros j irq'. subst lr1. simpl.
      destruct (decide (i = j)) as [<-|Hne]; [|rewrite list_lookup_insert_ne by done; apply H1].
      by rewrite list_lookup_insert_eq by by eapply lookup_lt_Some. }
  enough (runs calm (on_dist (ack irq node) ≫= λ _,
    (if (16 <=? irq) && (irq <? 32) then on_callbacks (cb_ack node (QualifiedPPI node irq))
     else on_callbacks (cb_ack node (SPI irq))) ≫= λ _,
    get_lr node ≫= λ lr, match overflow lr with
      | [] => mret tt
      | irq :: rest => set_lr node {| mirror := mirror lr; overflow := rest |} ≫= λ _, inject_irq node node i irq
      end : GM unit)) as Hrest by (destruct (Hrest _ Hg1) as ([] & g' & ? & ?); by exists g').
  apply runs_bind; [by apply on_dist_ack|]. intros _. apply runs_bind; [by apply ack_known|]. intros _.
  clear -n_range vcpus_there clients_there Hn Hi KernelOk0. intros g Hg. destruct (calm_lr g node Hg Hn) as (lr & Hlr & Hok & Hkn).
  rewrite (bind_eq_ok _ _ _ _ _ (get_lr_eq node lr g Hlr)). destruct (overflow lr) as [|irq rest] eqn:Ho; [by exists tt, g|].
  destruct Hok as [Hm Hnd], Hkn as [H1 H2]. rewrite Ho in Hnd, H2. apply NoDup_cons in Hnd as [_ Hnd].
  apply Forall_cons in H2 as [Hirq H2].
  erewrite bind_eq_ok by done. apply inject_irq_runs; [done..|].
  apply calm_lrs; [done|by split|split; [exact H1|exact H2]].
Qed.

Lemma gic_write_runs node offset x : node < n → store_ok n offset x → runs calm (gic_handle_write node offset x : GM unit).
Proof.
  intros Hn Hs g Hg. destruct (handle_write_runs n node ltac:(lia) Hn offset x (dist g) Hs (calm_good g Hg))
    as (a & d' & Hrun & Hd' & Ha).
  unfold gic_handle_write. rewrite (bind_eq_ok _ _ _ _ _ (on_dist_runs _ g _ _ Hrun)).
  assert (calm (with_dist g d')) as Hg' by by apply calm_dist.
  destruct a as [|to_inject to_ack]; [by eexists tt, _|]. destruct Ha as [Hi Hk].
  refine (runs_bind _ _ _ _ _ _ Hg'); [|intros _]; apply runs_for_each; eapply Forall_impl; try eassumption;
    intros [irq target] [??]; simpl in *; [|by apply forward_irq_runs].
  apply runs_bind; [by apply on_dist_ack|]. intros _. destruct (16 <=? irq); [|apply runs_ret].
  apply on_callbacks_runs, ack_runs; [done|]. by destruct (irq <? 32).
Qed.

(** *** Accesses to the distributor *)

(** A fault that is handled, of a thread whose registers are read from [k]. *)
Record access_ok (k : K) (tcb : CPtr) (offset : Z) (f : VMFault) : Prop := {
  access_valid : is_valid f = true;
  access_aligned : is_aligned (E := GicError Error) f = Ok true;
  access_store : is_write (E := GicError Error) f = Ok true →
    ∀ ctx k' x, read_all_registers tcb false k = (Ok ctx, k') → data (E := GicError Error) f ctx = Ok x → store_ok n offset x;
  access_load : is_write (E := GicError Error) f = Ok false →
    width (E := GicError Error) f = Ok WWord ∧ gpr_index (E := GicError Error) f ≠ Ok 31%Z ∧
    ∃ reg, word_from_offset (E := IRQErrorType) offset = Ok reg ∧ readable reg;
}.

Lemma valid_index f : is_valid f = true → ∃ ix, gpr_index (E := GicError Error) f = Ok ix ∧ (0 ≤ ix ≤ 31)%Z.
Proof.
  intros Hv. unfold gpr_index, valid_hsr. rewrite Hv. eexists. split; [done|]. change SRT_MASK with (Z.ones 5).
  rewrite Z.land_ones by lia. change (2 ^ 5)%Z with 32%Z.
  match goal with |- context [(?x `mod` 32)%Z] => pose proof (Z.mod_pos_bound x 32 ltac:(lia)) end. lia.
Qed.
Lemma gpr_there ctx ix : length (gprs ctx) = 31 → (0 ≤ ix ≤ 30)%Z → ∃ v, gpr (E := GicError Error) ctx ix = Ok v.
Proof.
  intros Hl Hix. destruct (lookup_lt_is_Some_2 (gprs ctx) (Z.to_nat ix)) as [v Hv]; [lia|]. exists v.
  unfold gpr, index. by rewrite bool_decide_true, Hv.
Qed.
Lemma data_there f ctx w : is_valid f = true → is_write (E := GicError Error) f = Ok true →
  width (E := GicError Error) f = Ok w → length (gprs ctx) = 31 → ∃ x, data (E := GicError Error) f ctx = Ok x.
Proof.
  intros Hv Hw Hwd Hl. destruct (valid_index f Hv) as (ix & Hix & Hr). unfold data. rewrite Hw, Hwd, Hix. simpl.
  unfold read_gpr. destruct (Z.eqb_spec ix 31); [by eexists|].
  destruct (gpr_there ctx ix Hl ltac:(lia)) as [v ->]. by eexists.
Qed.
Lemma emulate_there f ctx x : is_valid f = true → is_read (E := GicError Error) f = Ok true →
  width (E := GicError Error) f = Ok (data_width x) → gpr_index (E := GicError Error) f ≠ Ok 31%Z → length (gprs ctx) = 31 →
  ∃ ctx', emulate_read (E := GicError Error) f ctx x = Ok ctx'.
Proof.
  intros Hv Hr Hwd Hne Hl. destruct (valid_index f Hv) as (ix & Hix & Hrange). assert (ix ≠ 31%Z) by congruence.
  destruct (gpr_there ctx ix Hl ltac:(lia)) as [v Hgpr]. unfold emulate_read. rewrite Hr, Hwd, Hix. simpl.
  rewrite decide_True by done. rewrite Hgpr. simpl. unfold set_gpr. unfold gpr in Hgpr.
  case_bool_decide; [|done]. rewrite Hgpr. by eexists.
Qed.

Lemma g_env_runs {A} (m : M K Error A) : runs (λ _, True) m → runs calm (g_env m : GM A).
Proof. intros Hm. by apply on_callbacks_runs, cb_kernel_runs. Qed.
Lemma g_env_read tcb g : calm g → ∃ ctx k', read_all_registers tcb false (callbacks g).2 = (Ok ctx, k') ∧
  length (gprs ctx) = 31 ∧ (unwrap_result (g_env (read_all_registers tcb false)) : GM UserContext) g = (Ok ctx, with_kernel_g g k') ∧
  calm (with_kernel_g g k').
Proof.
  intros Hg. destruct (read_registers_run tcb (callbacks g).2) as (ctx & k' & Hr & Hl). exists ctx, k'.
  split_and!; [done..|by apply unwrap_result_eq, g_env_eq|]. destruct Hg as [[] ???]. by split.
Qed.
Lemma write_registers_runs tcb ctx : runs calm (unwrap_result (g_env (write_all_registers tcb false ctx)) : GM unit).
Proof. apply runs_unwrap_result, g_env_runs, write_registers_run. Qed.

Lemma distributor_fault_runs g node tcb f offset : calm g → node < n → access_ok (callbacks g).2 tcb offset f →
  ∃ g', (handle_gic_distributor_fault node tcb f offset : GM unit) g = (Ok tt, g') ∧ calm g'.
Proof.
  intros Hg Hn [Hv Ha Hst Hld]. unfold handle_gic_distributor_fault, assert_, lift. rewrite Hv, Ha.
  do 3 (erewrite bind_eq_ok by done; cbv beta iota).
  assert (∃ w, width (E := GicError Error) f = Ok w) as [w Hwd].
  { unfold is_aligned in Ha. destruct (width f) as [w| |]; [by exists w|done|done]. }
  assert (∃ b, is_write (E := GicError Error) f = Ok b) as [b Hb] by (unfold is_write, valid_hsr; rewrite Hv; by eexists).
  rewrite Hb. erewrite bind_eq_ok by done. cbv beta iota. destruct b.
  - destruct (g_env_read tcb g Hg) as (ctx & k' & Hr & Hl & Hrun & Hg1). rewrite (bind_eq_ok _ _ _ _ _ Hrun).
    destruct (data_there f ctx w) as [x Hx]; [done..|]. rewrite Hx. erewrite bind_eq_ok by done.
    destruct (gic_write_runs node offset x Hn (Hst Hb ctx k' x Hr Hx) _ Hg1) as ([] & g2 & Hw & Hg2).
    rewrite (bind_eq_ok _ _ _ _ _ Hw). destruct (write_registers_runs tcb (advance ctx) g2 Hg2) as ([] & g3 & H3 & Hg3).
    by exists g3.
  - destruct (Hld Hb) as (Hw4 & Hne & reg & Hreg & Hread).
    assert (is_read (E := GicError Error) f = Ok true) as Hrd by (unfold is_read; by rewrite Hb).
    rewrite Hrd. erewrite bind_eq_ok by done. cbv beta iota. rewrite Hw4. erewrite bind_eq_ok by done.
    destruct (word_from_offset_sound _ _ Hreg) as [Hex _].
    destruct (handle_read_ok (dist g) reg node) as (val & Hval & _); [apply Hg|done|done| |].
    { destruct (calm_wf g Hg) as [_ -> _ _]. by rewrite (calm_nodes g Hg). }
    assert (handle_read (dist g) offset node WWord = Ok (DWord val)) as Hval'.
    { unfold handle_read in Hval |- *. by rewrite word_from_offset_offset, <- Hreg in Hval by done. }
    unfold gic_handle_read. erewrite bind_eq_ok by (by apply on_dist_reads_eq).
    destruct (g_env_read tcb g Hg) as (ctx & k' & Hr & Hl & Hrun & Hg1). rewrite (bind_eq_ok _ _ _ _ _ Hrun).
    destruct (emulate_there f ctx (DWord val)) as [ctx' Hem]; [done..|]. rewrite Hem. erewrite bind_eq_ok by done.
    destruct (write_registers_runs tcb (advance ctx') _ Hg1) as ([] & g3 & H3 & Hg3). by exists g3.
Qed.

(** *** The monitor *)
Definition quiet (v : VMM K X) : Prop := calm (gic v).
Lemma on_gic_runs {A} (m : GM A) : runs calm m → runs quiet (on_gic m : V A).
Proof. intros Hm v Hv. destruct (Hm _ Hv) as (a & g' & Hr & Hg). exists a, (with_gic v g'). unfold on_gic. by rewrite Hr. Qed.
Lemma env_op_runs f : runs quiet (env_op f : V unit).
Proof. apply on_gic_runs, runs_modify. intros g [[] ???]. by split. Qed.
Lemma env_runs {A} (m : M K Error A) : runs (λ _, True) m → runs quiet (env m : V A).
Proof. intros Hm. by apply on_gic_runs, g_env_runs. Qed.
Lemma advance_and_reply_runs f : runs quiet (advance_and_reply f : V unit).
Proof. apply runs_bind; [apply env_op_runs|intros _; apply env_op_runs]. Qed.
Lemma set_gpr_mr_runs ix v : ix ≤ 7 → runs quiet (set_gpr_mr ix v : V unit).
Proof.
  intros Hix. apply runs_bind; [|intros; apply env_op_runs]. eapply runs_lift. unfold mr_gpr. by rewrite decide_True.
Qed.

Context `{!VMMExtension (K := K) (X := X)}.
(** The extension prints characters. *)
Hypothesis putchar_runs : ∀ node c, runs quiet (handle_putchar node c).

(** The messages that are handled by a node in a state. *)
Definition syscall_ok (v : VMM K X) (f : UnknownSyscall) : Prop :=
  (syscall_number f = psci.SYS_PSCI ∧ ∃ call, psci.parse f = Ok call ∧
    match call with
    | psci.CpuOn target _ _ => ∃ node, nodes v !! Z.to_nat target = Some (Some node)
    | _ => True
    end) ∨ syscall_number f = SYS_PUTCHAR.
Definition fault_ok (v : VMM K X) (node : VMMNode X) (f : FaultMessage.Fault) : Prop :=
  match f with
  | FVMFault f => ∃ offset, offset_in_region (addr f) (gic_dist_paddr v) DISTRIBUTOR_SIZE = Some offset ∧
      access_ok (kernel_of v) (node_tcb node) offset f
  | FUnknownSyscall f => syscall_ok v f
  | FVGICMaintenance f => ∃ i, idx f = Some i ∧ occupied (gic v) (node_index node) (Z.to_nat i)
  | FVPPIEvent f => Z.to_nat (vppi_irq f) < 32
  | _ => False
  end.
Definition events_ok (v : VMM K X) (node : VMMNode X) (badge : Z) : Prop :=
  ∃ bf bits bf' irqs, bitfields v !! node_index node = Some bf ∧ bitfield_clear bf badge = Some (bits, bf') ∧
    Forall2 (resolves node (irq_map c0)) bits irqs ∧ Forall irq_known irqs.
Definition message_ok (v : VMM K X) (node : VMMNode X) (m : Message) : Prop :=
  (m_badge m = BADGE_FAULT ∧ ∃ f, fault_get (E := GicError Error) (m_mrs m) (m_label m) (m_length m) = Ok f ∧ fault_ok v node f) ∨
  (m_badge m ≠ BADGE_FAULT ∧ events_ok v node (m_badge m)).

(** *** Faults and events *)
Lemma sys_psci_ok f v call : quiet v → psci.parse f = Ok call →
  match call with psci.CpuOn target _ _ => ∃ node, nodes v !! Z.to_nat target = Some (Some node) | _ => True end →
  ∃ v', (sys_psci f : V unit) v = (Ok tt, v') ∧ quiet v'.
Proof.
  intros Hv Hp Hcall. unfold sys_psci, lift. rewrite Hp. erewrite bind_eq_ok by done.
  assert (∀ ret v', quiet v' → ∃ v'', (set_gpr_mr 0 (word_cast 64 ret) ≫= λ _, advance_and_reply f : V unit) v' = (Ok tt, v'') ∧ quiet v'')
    as Hrest.
  { intros ret v' Hv'. destruct (runs_bind quiet _ (λ _, advance_and_reply f) (set_gpr_mr_runs 0 (word_cast 64 ret) ltac:(lia))
      (λ _, advance_and_reply_runs f) v' Hv') as ([] & v'' & ? & ?). by exists v''. }
  destruct call as [|q|target entry ctx_id|]; try (erewrite bind_eq_ok by done; by apply Hrest).
  destruct Hcall as [node Hl]. erewrite bind_eq_ok; [|by erewrite bind_eq_ok; [|rewrite take_node_eq, Hl]].
  by apply Hrest.
Qed.

Lemma handle_fault_ok v node f : quiet v → node_index node < n → fault_ok v node f →
  ∃ v', handle_fault node f v = (Ok tt, v') ∧ quiet v'.
Proof.
  assert (∀ v, quiet v → ∃ v', (reply_empty : V unit) v = (Ok tt, v') ∧ quiet v') as Hreply.
  { intros v' Hv'. destruct (env_op_runs (reply 0) v' Hv') as ([] & v'' & ? & ?). by exists v''. }
  intros Hv Hn. destruct f as [|f|f|f|f|f|f|f]; try done; unfold handle_fault.
  - intros [Hs|Hs]; unfold handle_syscall.
    + destruct Hs as (Hs & call & Hp & Hc). rewrite decide_True by done. by eapply sys_psci_ok.
    + rewrite decide_False, decide_True by (rewrite Hs; done).
      destruct (runs_bind quiet _ (λ _, advance_and_reply f) (putchar_runs node (word_cast 8 (x0 f)))
        (λ _, advance_and_reply_runs f) v Hv) as ([] & v' & ? & ?). by exists v'.
  - intros (offset & Ho & Ha). unfold handle_page_fault.
    destruct (distributor_fault_runs (gic v) (node_index node) (node_tcb node) f offset Hv Hn Ha) as (g' & Hr & Hg').
    erewrite bind_eq_ok; [by apply (Hreply (with_gic v g'))|]. erewrite bind_eq_ok by done. rewrite Ho.
    unfold on_gic. by rewrite Hr.
  - intros (i & Hi & Hocc). rewrite Hi. unfold lift. erewrite bind_eq_ok by done.
    destruct (handle_maintenance_runs (node_index node) (Z.to_nat i) (gic v) Hn Hocc Hv) as (g' & Hr & Hg').
    erewrite bind_eq_ok; [by apply (Hreply (with_gic v g'))|]. unfold on_gic. by rewrite Hr.
  - intros Hirq. destruct (handle_irq_runs (node_index node) (QualifiedPPI (node_index node) (Z.to_nat (vppi_irq f))) Hn
      ltac:(split; [done|simpl in Hirq; lia]) (gic v) Hv) as ([] & g' & Hr & Hg').
    erewrite bind_eq_ok; [by apply (Hreply (with_gic v g'))|]. unfold on_gic. by rewrite Hr.
Qed.

Lemma handle_events_ok v node badge : quiet v → node_index node < n → events_ok v node badge →
  ∃ v', handle_events node badge v = (Ok tt, v') ∧ quiet v'.
Proof.
  intros Hv Hn (bf & bits & bf' & irqs & Hbf & Hc & Hres & Hirqs).
  destruct (runs_for_each calm (handle_irq (node_index node)) irqs ltac:(eapply Forall_impl; [done|];
    intros q Hq; by apply handle_irq_runs) (gic v) Hv) as ([] & g' & Hr & Hg').
  exists (after_events node v bf' g'). split; [|done].
  eapply (handle_groups node (irq_map c0)); [|done|done|done|done].
  by rewrite (calm_static _ Hv).
Qed.

Lemma handle_message_ok v node m : quiet v → node_index node < n → message_ok v node m →
  ∃ v', vmm_handle_message node m v = (Ok tt, v') ∧ quiet v'.
Proof.
  intros Hv Hn. unfold vmm_handle_message. intros [[Hb (f & Hf & Hok)]|[Hb He]].
  - rewrite decide_True by done. unfold lift. rewrite Hf. erewrite bind_eq_ok by done. by apply handle_fault_ok.
  - rewrite decide_False by done. by apply handle_events_ok.
Qed.

Lemma run_start_runs node : runs quiet (run_start node : V unit).
Proof.
  apply runs_bind; [apply env_runs, invoke_runs|intros _]. apply runs_bind; [apply env_runs, invoke_runs|intros _].
  by apply runs_modify.
Qed.
Lemma boot_runs : runs quiet (boot : V unit).
Proof.
  intros v Hv. unfold boot. erewrite bind_eq_ok by done. destruct (booting v) as [|[[node entry] ctx_id] rest]; [by exists tt, v|].
  erewrite bind_eq_ok by done.
  set (v1 := {| gic := gic v; gic_dist_paddr := gic_dist_paddr v; bitfields := bitfields v;
                nodes := nodes v; booting := rest; running := running v |}).
  destruct (read_registers_run (node_tcb node) (kernel_of v1)) as (ctx & k' & Hr & Hl).
  erewrite bind_eq_ok by (by apply unwrap_result_eq, env_eq).
  assert (∃ ctx', set_gpr (E := GicError Error) {| pc := entry; sp := sp ctx; spsr := spsr ctx; gprs := gprs ctx |} 0 ctx_id = Ok ctx')
    as [ctx' Hset] by (unfold set_gpr; simpl; destruct (gprs ctx); [done|by eexists]).
  cbv zeta. rewrite Hset. erewrite bind_eq_ok by done.
  refine (runs_bind quiet _ _ _ _ (with_kernel v1 k') _).
  - apply runs_unwrap_result, env_runs, invoke_runs.
  - intros _. apply runs_unwrap_result, run_start_runs.
  - destruct Hv as [[] ???]. by split.
Qed.
End monitor.

(** ** From the start *)

(** What the core relies on in an extension: it prints a character with an operation of the environment. *)
Class ExtensionPrints {K X} `{!VmmEnv K} (ext : VMMExtension (K := K) (X := X)) :=
  putchar_prints node c : ∃ f, handle_putchar node c = env_op f.
#[export] Instance realm_prints {K} `{!VmmEnv K} : ExtensionPrints (K := K) realm.realm_extension.
Proof. by eexists. Qed.
#[export] Instance host_prints {K} `{!VmmEnv K} : ExtensionPrints (K := K) host.host_extension.
Proof. by eexists. Qed.

Section start.
Context {K X : Type} `{!VmmEnv K} `{!KernelOk K}.
Context (c : VMMConfig X).
Abbreviation n := (length (c_nodes c)).
Hypothesis n_range : 0 < n ≤ 8.

Lemma initial_targets_exist m : 0 < m → targets_exist m (initial m).
Proof.
  intros Hm. apply Forall_replicate. intros k cpu Hk Hc. rewrite spi_target_bits by done.
  destruct (Nat.eqb_spec cpu 0) as [->|]; [done|discriminate].
Qed.
Lemma initial_lrs_known m :
  Forall lr_known ((λ _, {| mirror := replicate NUM_LRS None; overflow := [] |}) <$> seq 0 m).
Proof.
  apply Forall_fmap, Forall_true. intros j. split; [|constructor]. intros i irq.
  cbn [mirror]. by intros [? _]%lookup_replicate.
Qed.

(** A monitor that is built is quiet, and has a client of the event server for every node and a first node. *)
Lemma vmm_init_quiet (k : K) (v0 : VMM K X) : vmm_init c k = Ok v0 →
  quiet n (configured c) v0 ∧ n ≤ length (event_server_client (configured c)) ∧ ∃ node, nodes v0 !! 0 = Some (Some node).
Proof.
  unfold vmm_init. destruct (gic_new _ _) as [g| |] eqn:Hg; simpl; try done. case_bool_decide; [|done].
  intros [= <-]. split; [|split; [done|]].
  2:{ simpl. rewrite list_lookup_imap. destruct (c_nodes c); [simpl in *; lia|by eexists]. }
  pose proof (gic_new_wf _ _ _ n_range Hg) as Hwf. revert Hg. unfold gic_new. rewrite new_eq.
  intros [= <-]. split; try done; cbn [gic dist lrs].
  - split; [by apply initial_safe|]. apply initial_targets_exist; lia.
  - apply initial_lrs_known.
Qed.

Context {ext : VMMExtension (K := K) (X := X)} `{!ExtensionKeeps (VMMExtension0 := ext)} `{!ExtensionPrints ext}.

(** The steps of a monitor that gets only messages it handles. *)
Inductive handled_step (v : VMM K X) : VMM K X → Prop :=
| handled_message node m : node ∈ running v → message_ok n (configured c) v node m →
    handled_step v (vmm_handle_message node m v).2
| handled_boot : handled_step v (boot v).2.

Lemma putchar_quiet c0 node ch : runs (quiet n c0) (handle_putchar node ch).
Proof. destruct (putchar_prints node ch) as [f ->]. apply env_op_runs. Qed.

(** A running node is one of the configuration. *)
Lemma running_exists c0 (v : VMM K X) node : vmm_wf n c0 v → node ∈ running v → node_index node < n.
Proof.
  intros Hw Hin. pose proof (vw_range _ _ _ Hw) as Hr. rewrite Forall_forall in Hr. apply Hr.
  unfold node_ids. rewrite !elem_of_app. right. right. by apply list_elem_of_fmap_2.
Qed.

Lemma handled_step_quiet v v' : n ≤ length (event_server_client (configured c)) →
  vmm_wf n (configured c) v ∧ quiet n (configured c) v → handled_step v v' →
  vmm_wf n (configured c) v' ∧ quiet n (configured c) v'.
Proof.
  intros Hc [Hw Hq] Hs. assert (n ≤ length (vcpus (configured c))) as Hv by (simpl; by rewrite length_fmap).
  destruct Hs as [node m Hin Hok|]; split.
  - by apply vmm_handle_message_wf.
  - destruct (handle_message_ok n (configured c) n_range Hv Hc (putchar_quiet _) v node m Hq) as (v' & -> & ?); [|done|done].
    by eapply running_exists.
  - by apply boot_wf.
  - by destruct (boot_runs n (configured c) v Hq) as (a & v' & -> & ?).
Qed.

End start.

(** ** A closed example: the second node is started, and stores to an enable register. *)
Module SafetyDemo.
#[export] Existing Instance VmmDemo.demo_env.
#[export] Instance demo_ok : KernelOk VmmDemo.kernel.
Proof. split; [exact VmmDemo.env_accepts|]. intros tcb k. by exists VmmDemo.demo_registers, k. Defined.
(** A store of [x2] to [GICD_ISENABLER1]. *)
Definition enable_store : Message :=
  {| m_badge := 0; m_label := 5; m_length := 4;
     m_mrs i := default 0%Z ([0x40090000; 0x8000104; 0; 0x01820040]%Z !! i) |}.
(** Events of the first group. *)
Definition events : Message := {| m_badge := 1; m_label := 0; m_length := 0; m_mrs _ := 0%Z |}.
Definition v2 := (vmm_handle_message VmmDemo.node0 VmmDemo.cpu_on_message VmmDemo.v1).2.
Definition v3 := (boot v2).2.
Definition v4 := (vmm_handle_message VmmDemo.node1 enable_store v3).2.
Abbreviation ok := (message_ok 2 (configured VmmDemo.config)).

Lemma cpu_on_ok : ok VmmDemo.v1 VmmDemo.node0 VmmDemo.cpu_on_message.
Proof.
  left. split; [reflexivity|]. exists (FUnknownSyscall VmmDemo.cpu_on). split; [vm_compute; reflexivity|].
  left. split; [reflexivity|]. exists (psci.CpuOn 1 0x40090000 77). split; [reflexivity|]. exists VmmDemo.node1. vm_compute. reflexivity.
Qed.
Lemma store_handled : ok v3 VmmDemo.node1 enable_store.
Proof.
  left. split; [reflexivity|].
  exists (FVMFault {| ip := 0x40090000; addr := 0x8000104; prefetch_fault := 0; fsr := 0x01820040 |}).
  split; [vm_compute; reflexivity|]. exists 0x104%Z. split; [vm_compute; reflexivity|].
  split; [reflexivity|reflexivity| |vm_compute; discriminate].
  intros _ ctx k' x Hr Hx. assert (ctx = VmmDemo.demo_registers) as -> by (vm_compute in Hr; by injection Hr as <- _).
  vm_compute in Hx. injection Hx as <-. split; [by split|]. exists (GICD_ISENABLERn 1). by split.
Qed.
Lemma events_handled : ok v4 VmmDemo.node0 events.
Proof.
  right. split; [discriminate|]. exists [3%Z], [0; 1], [0%Z], [QualifiedPPI 0 20; SPI 40].
  split; [vm_compute; reflexivity|]. split; [vm_compute; reflexivity|]. split; [repeat constructor|].
  repeat constructor; simpl; lia.
Qed.
End SafetyDemo.
#[local] Existing Instance VmmDemo.demo_env.
#[local] Existing Instance SafetyDemo.demo_ok.

