(* ===== verification/P9Wire.v ===== *)
(** * P9Wire: the wire format of 9P

    Model of [framework/9p/crosvm-9p/src/wire_format.rs] and of the code its derive macro
    ([wire-format-derive]) generates.  A reader is the list of bytes that it still gives before its
    end, a writer the list of bytes that were written to it.

    The class [WireFormat] is the trait; [WireLaws] says what an implementation promises: a value
    that was written is read back, its size is announced correctly, and whatever bytes are read,
    the result is an error or a value of the type.  The instances of [WireLaws] compose like those of
    [WireFormat], the derived ones included. *)

From S2P Require Import Prelude.
From S2P Require Import Bytes.

(** ** [std::io] *)

Module ErrorKind.
(** [Uncategorized] stands for the kinds that the code does not name. *)
Inductive ErrorKind :=
| NotFound | PermissionDenied | ConnectionRefused | ConnectionReset | ConnectionAborted
| NotConnected | AddrInUse | AddrNotAvailable | BrokenPipe | AlreadyExists | WouldBlock
| InvalidInput | InvalidData | TimedOut | WriteZero | Interrupted | Other | UnexpectedEof
| Uncategorized.
End ErrorKind.

Inductive io_error :=
| from_raw_os_error (errno : Z)
| io_error_new (kind : ErrorKind.ErrorKind).

Abbreviation Reader := (M (list Z) io_error).
Abbreviation Writer := (M (list Z) io_error).

Definition write_all (bs : list Z) : Writer unit := modify (λ w, w ++ bs).

Definition read_exact (n : nat) : Reader (list Z) := λ r,
  if decide (n ≤ length r) then (Ok (take n r), drop n r)
  else (Err (io_error_new ErrorKind.UnexpectedEof), []).

(** [reader.take(n).read_to_end(..)]: what there is, up to [n] bytes. *)
Definition take_to_end (n : nat) : Reader (list Z) := λ r, (Ok (take n r), drop n r).

(** [reader.take(n)] used as a reader. *)
Definition with_take {A} (n : nat) (m : Reader A) : Reader A := λ r,
  let '(o, r') := m (take n r) in (o, r' ++ drop n r).

(** ** The trait *)

Class WireFormat (T : Type) := {
  byte_size : T → Z;
  encode : T → Writer unit;
  decode : Reader T;
}.

Definition u32_add (a b : Z) : Z := word_cast 32 (a + b).
Definition u32_sum (l : list Z) : Z := foldl u32_add 0%Z l.

(** *** Unsigned integers

    The types differ in their width only, which their names tell to the instances. *)
Definition u8 : Type := Z.
Definition u16 : Type := Z.
Definition u32 : Type := Z.
Definition u64 : Type := Z.
#[global] Instance u8_eq_dec : EqDecision u8 := Z.eq_dec.
#[global] Instance u16_eq_dec : EqDecision u16 := Z.eq_dec.
#[global] Instance u32_eq_dec : EqDecision u32 := Z.eq_dec.
#[global] Instance u64_eq_dec : EqDecision u64 := Z.eq_dec.
#[global] Typeclasses Opaque u8 u16 u32 u64.

(** [buf[idx] = (self >> (8 * idx)) as u8]. *)
Definition uint_encode (n : nat) (v : Z) : list Z :=
  (λ idx, word_cast 8 (Z.shiftr v (8 * Z.of_nat idx))) <$> seq 0 n.
(** [result |= (buf[idx] as $Ty) << (8 * idx)]. *)
Definition uint_decode (n : nat) (buf : list Z) : Z :=
  foldl (λ result '(idx, b), Z.lor result (word_shl (8 * Z.of_nat n) b (8 * Z.of_nat idx)))
    0%Z (zip (seq 0 n) buf).

Definition uint_wire_format (n : nat) : WireFormat Z := {|
  byte_size _ := word_cast 32 (Z.of_nat n);
  encode v := write_all (uint_encode n v);
  decode := buf ← read_exact n; mret (uint_decode n buf);
|}.
#[global] Instance u8_wire : WireFormat u8 := uint_wire_format 1.
#[global] Instance u16_wire : WireFormat u16 := uint_wire_format 2.
#[global] Instance u32_wire : WireFormat u32 := uint_wire_format 4.
#[global] Instance u64_wire : WireFormat u64 := uint_wire_format 8.

(** *** Strings *)
Definition U16_MAX : Z := 2 ^ 16 - 1.
Definition RString : Type := list Z.
#[global] Instance RString_eq_dec : EqDecision RString := list_eq_dec.
#[global] Typeclasses Opaque RString.

Definition string_decode : Reader RString :=
  len ← (decode : Reader u16);
  buf ← take_to_end (Z.to_nat len);
  if utf8_valid buf then mret buf else throw (io_error_new ErrorKind.InvalidData).

#[global] Instance string_wire : WireFormat RString := {|
  byte_size s := word_cast 32 (2 + Z.of_nat (length s));
  encode s :=
    if decide (U16_MAX < Z.of_nat (length s))%Z then throw (io_error_new ErrorKind.InvalidInput)
    else (encode (word_cast 16 (Z.of_nat (length s)) : u16);; write_all s);
  decode := string_decode;
|}.

(** *** Vectors *)
Section vec.
Context {T : Type} `{!WireFormat T}.

Fixpoint vec_encode (l : list T) : Writer unit :=
  match l with [] => mret tt | elem :: l' => encode elem;; vec_encode l' end.
Fixpoint vec_decode (n : nat) : Reader (list T) :=
  match n with
  | 0 => mret []
  | S n' => elem ← decode; l ← vec_decode n'; mret (elem :: l)
  end.

#[global] Instance vec_wire : WireFormat (list T) := {|
  byte_size l := u32_add 2 (u32_sum (byte_size <$> l));
  encode l :=
    if decide (U16_MAX < Z.of_nat (length l))%Z then throw (io_error_new ErrorKind.InvalidInput)
    else (encode (word_cast 16 (Z.of_nat (length l)) : u16);; vec_encode l);
  decode := (len ← (decode : Reader u16); vec_decode (Z.to_nat len));
|}.
End vec.

(** *** Data *)
Record Data := MkData { data : list Z }.
Definition MAX_DATA_LENGTH : Z := 32 * 1024 * 1024.
Definition U32_MAX : Z := 2 ^ 32 - 1.

#[global] Instance data_wire : WireFormat Data := {|
  byte_size d := u32_add 4 (u32_sum ((byte_size : u8 → Z) <$> data d));
  encode d :=
    if decide (U32_MAX < Z.of_nat (length (data d)))%Z then throw (io_error_new ErrorKind.InvalidInput)
    else (encode (word_cast 32 (Z.of_nat (length (data d))) : u32);; write_all (data d));
  decode :=
    (len ← (decode : Reader u32);
     if decide (MAX_DATA_LENGTH < len)%Z then throw (io_error_new ErrorKind.InvalidData)
     else
       buf ← take_to_end (Z.to_nat len);
       if decide (length buf = Z.to_nat len) then mret (MkData buf)
       else throw (io_error_new ErrorKind.UnexpectedEof));
|}.

(** ** The derive macro

    A struct is its fields in order, as a nested tuple. *)
Class Fields (F : Type) := {
  fields_byte_size : Z → F → Z;
  fields_encode : F → Writer unit;
  fields_decode : Reader F;
}.
#[global] Instance fields_nil : Fields () := {|
  fields_byte_size acc _ := acc;
  fields_encode _ := mret tt;
  fields_decode := mret tt;
|}.
#[global] Instance fields_cons {A F} `{!WireFormat A, !Fields F} : Fields (A * F) := {|
  fields_byte_size acc f := fields_byte_size (u32_add acc (byte_size f.1)) f.2;
  fields_encode f := encode f.1;; fields_encode f.2;
  fields_decode := (a ← decode; f ← fields_decode; mret (a, f));
|}.

Class Struct (T F : Type) := {
  to_fields : T → F;
  of_fields : F → T;
}.
#[global] Hint Mode Struct ! - : typeclass_instances.

#[global] Instance derived_wire {T F} `{!Struct T F, !Fields F} : WireFormat T := {|
  byte_size s := fields_byte_size 0 (to_fields s);
  encode s := fields_encode (to_fields s);
  decode := (f ← fields_decode; mret (of_fields f));
|}.

(** ** What an implementation promises *)

(** [bs] is what [x] is written as. *)
Definition encodes {T} `{!WireFormat T} (x : T) (bs : list Z) : Prop :=
  bytes_ok bs ∧ byte_size x = word_cast 32 (Z.of_nat (length bs)) ∧
  (∀ w, encode x w = (Ok tt, w ++ bs)) ∧ (∀ rest, decode (bs ++ rest) = (Ok x, rest)).

(** Whatever the bytes, reading them ends in a value that satisfies [P] or in an error, and takes
    bytes from the front only. *)
Definition reads_typed {A} (m : Reader A) (P : A → Prop) : Prop := ∀ r, bytes_ok r →
  wp m (λ a r', P a ∧ r' `suffix_of` r) (λ _ r', r' `suffix_of` r) r.

(** The values of a Rust type that the format can carry. *)
Class Valid (T : Type) := valid : T → Prop.

Class WireLaws (T : Type) `{!WireFormat T, !Valid T} := {
  written_back (x : T) : valid x → ∃ bs, encodes x bs;
  decode_typed : reads_typed (decode : Reader T) valid;
}.

Section reads_typed.
Context {A B : Type}.

Lemma suffix_bytes_ok (r r' : list Z) : bytes_ok r → r' `suffix_of` r → bytes_ok r'.
Proof. intros Hr [l ->]. by apply Forall_app in Hr as [_ ?]. Qed.

Lemma typed_ret (a : A) (P : A → Prop) : P a → reads_typed (mret a) P.
Proof. intros Ha r Hr. by apply wp_ret. Qed.
Lemma typed_throw e (P : A → Prop) : reads_typed (throw e) P.
Proof. intros r Hr. unfold wp, throw. done. Qed.
Lemma typed_mono (m : Reader A) (P Q : A → Prop) :
  reads_typed m P → (∀ a, P a → Q a) → reads_typed m Q.
Proof. intros Hm HPQ r Hr. eapply wp_mono; [by apply Hm|naive_solver|done]. Qed.

Lemma typed_bind (m : Reader A) (f : A → Reader B) (P : A → Prop) (Q : B → Prop) :
  reads_typed m P → (∀ a, P a → reads_typed (f a) Q) → reads_typed (m ≫= f) Q.
Proof.
  intros Hm Hf r Hr. apply wp_bind. eapply wp_mono; [by apply Hm| |done].
  intros a r' [HP Hr']. eapply wp_mono; [by apply Hf; [|eapply suffix_bytes_ok]| |].
  - intros b r'' [HQ Hs]. split; [done|]. by trans r'.
  - intros e r'' Hs. by trans r'.
Qed.

Lemma typed_read_exact n : reads_typed (read_exact n) (λ buf, bytes_ok buf ∧ length buf = n).
Proof.
  intros r Hr. unfold wp, read_exact. case_decide; [|apply suffix_nil].
  split; [split; [by apply Forall_take|rewrite length_take; lia]|apply suffix_drop].
Qed.
Lemma typed_take_to_end n : reads_typed (take_to_end n) (λ buf, bytes_ok buf ∧ length buf ≤ n).
Proof.
  intros r Hr. unfold wp, take_to_end.
  split; [split; [by apply Forall_take|rewrite length_take; lia]|apply suffix_drop].
Qed.
Lemma typed_with_take n (m : Reader A) (P : A → Prop) : reads_typed m P → reads_typed (with_take n m) P.
Proof.
  intros Hm r Hr. specialize (Hm (take n r) ltac:(by apply Forall_take)). unfold wp, with_take in *.
  assert (∀ r', r' `suffix_of` take n r → r' ++ drop n r `suffix_of` r) as Hs.
  { intros r' [l Hl]. exists l. by rewrite (assoc (++)), <- Hl, take_drop. }
  destruct (m (take n r)) as [[] ?]; naive_solver.
Qed.
End reads_typed.

(** Reading through a limit that is long enough. *)
Lemma with_take_long {A} (m : Reader A) a n bs rest :
  length bs = n → m bs = (Ok a, []) → with_take n m (bs ++ rest) = (Ok a, rest).
Proof. intros <- Hm. unfold with_take. by rewrite take_app_length, drop_app_length, Hm. Qed.

Lemma u32_add_cast a b : u32_add (word_cast 32 a) (word_cast 32 b) = word_cast 32 (a + b).
Proof. unfold u32_add, word_cast. rewrite !Z.land_ones, <- Zplus_mod by lia. done. Qed.

(** *** Unsigned integers *)
Lemma uint_fold_testbit w buf k r i :
  bytes_ok buf → (0 ≤ i)%Z → (8 * Z.of_nat (k + length buf) ≤ w)%Z →
  Z.testbit (foldl (λ result '(idx, b), Z.lor result (word_shl w b (8 * Z.of_nat idx))) r
    (zip (seq k (length buf)) buf)) i
  = Z.testbit r i || (bool_decide (Z.of_nat k ≤ i / 8)%Z
      && Z.testbit (default 0%Z (buf !! Z.to_nat (i / 8 - Z.of_nat k))) (i mod 8)).
Proof.
  revert k r. induction buf as [|b buf IH]; intros k r Hb Hi Hw; cbn [length seq zip_with foldl].
  { rewrite lookup_nil. simpl. by rewrite Z.bits_0, andb_false_r, orb_false_r. }
  apply Forall_cons in Hb as [Hb Hbs]. cbn [length] in Hw. rewrite IH by (done || lia).
  rewrite Z.lor_spec, testbit_word_shl, <- orb_assoc by lia. f_equal.
  pose proof (Z.div_mod i 8). pose proof (Z.mod_pos_bound i 8).
  destruct (decide (Z.of_nat k = i / 8)%Z) as [Hk|Hk].
  - rewrite (bool_decide_eq_true_2 (Z.of_nat k ≤ _)%Z), (bool_decide_eq_false_2 (Z.of_nat (S k) ≤ _)%Z),
      bool_decide_eq_true_2 by lia.
    rewrite Hk, Z.sub_diag. simpl. rewrite orb_false_r. f_equal. lia.
  - destruct (decide (i < 8 * Z.of_nat k)%Z).
    + rewrite (Z.testbit_neg_r b) by lia. rewrite andb_false_r.
      by rewrite !bool_decide_eq_false_2 by lia.
    + rewrite (is_word_testbit 8 b) by (done || lia). rewrite andb_false_r. simpl.
      rewrite !bool_decide_eq_true_2 by lia.
      replace (Z.to_nat (i / 8 - Z.of_nat k)) with (S (Z.to_nat (i / 8 - Z.of_nat (S k)))) by lia. done.
Qed.

Lemma uint_decode_testbit buf i : bytes_ok buf → (0 ≤ i)%Z →
  Z.testbit (uint_decode (length buf) buf) i = Z.testbit (default 0%Z (buf !! Z.to_nat (i / 8))) (i mod 8).
Proof.
  intros Hb Hi. unfold uint_decode. rewrite uint_fold_testbit by (done || lia).
  rewrite Z.bits_0, bool_decide_eq_true_2 by (apply Z.div_pos; lia). by rewrite Z.sub_0_r.
Qed.

Lemma uint_encode_ok n v : bytes_ok (uint_encode n v) ∧ length (uint_encode n v) = n.
Proof.
  unfold uint_encode. split; [|by rewrite length_fmap, length_seq].
  apply Forall_fmap, Forall_forall. intros idx _. simpl. auto with words.
Qed.

Lemma uint_back n v : is_word (8 * Z.of_nat n) v → uint_decode n (uint_encode n v) = v.
Proof.
  intros Hv. destruct (uint_encode_ok n v) as [Hok Hlen]. apply Z.bits_inj'. intros i Hi.
  rewrite <- Hlen at 1. rewrite uint_decode_testbit by done. unfold uint_encode.
  pose proof (Z.div_mod i 8). pose proof (Z.mod_pos_bound i 8).
  rewrite list_lookup_fmap. destruct (decide (Z.to_nat (i / 8) < n)) as [Hn|Hn].
  - rewrite lookup_seq_lt by done. simpl. unfold word_cast.
    rewrite Z.land_spec, Z.shiftr_spec, Z.testbit_ones_nonneg, (proj2 (Z.ltb_lt _ _)), andb_true_r by lia.
    f_equal. lia.
  - rewrite lookup_seq_ge by lia. simpl. rewrite Z.bits_0, (is_word_testbit (8 * Z.of_nat n) v) by (done || lia).
    done.
Qed.

Lemma uint_decode_range buf : bytes_ok buf → is_word (8 * Z.of_nat (length buf)) (uint_decode (length buf) buf).
Proof.
  intros Hb. apply is_word_bits; [lia| |].
  - apply Z.bits_iff_nonneg_ex. exists (8 * Z.of_nat (length buf))%Z. intros i Hi.
    rewrite uint_decode_testbit by (done || lia). rewrite lookup_ge_None_2; [apply Z.bits_0|].
    pose proof (Z.div_mod i 8). pose proof (Z.mod_pos_bound i 8). lia.
  - intros i Hi. rewrite uint_decode_testbit by (done || lia). rewrite lookup_ge_None_2; [apply Z.bits_0|].
    pose proof (Z.div_mod i 8). pose proof (Z.mod_pos_bound i 8). lia.
Qed.

Lemma uint_written n v : is_word (8 * Z.of_nat n) v →
  @encodes Z (uint_wire_format n) v (uint_encode n v).
Proof.
  intros Hv. destruct (uint_encode_ok n v) as [Hok Hlen]. split; [done|].
  cbn [byte_size encode decode uint_wire_format]. split; [by rewrite Hlen|]. split; [done|].
  intros rest. unfold mbind, M_bind, read_exact. rewrite length_app, Hlen, decide_True by lia.
  rewrite take_app_le, take_ge, drop_app_le, drop_ge by lia. by rewrite uint_back.
Qed.
Lemma uint_typed n : reads_typed (@decode Z (uint_wire_format n)) (is_word (8 * Z.of_nat n)).
Proof.
  eapply typed_bind; [apply typed_read_exact|]. intros buf [Hok Hlen].
  apply typed_ret. subst n. by apply uint_decode_range.
Qed.

#[global] Instance u8_valid : Valid u8 := is_word 8.
#[global] Instance u16_valid : Valid u16 := is_word 16.
#[global] Instance u32_valid : Valid u32 := is_word 32.
#[global] Instance u64_valid : Valid u64 := is_word 64.
#[global] Instance u8_laws : WireLaws u8.
Proof. split; [intros x Hx; eexists; by apply (uint_written 1)|apply (uint_typed 1)]. Qed.
#[global] Instance u16_laws : WireLaws u16.
Proof. split; [intros x Hx; eexists; by apply (uint_written 2)|apply (uint_typed 2)]. Qed.
#[global] Instance u32_laws : WireLaws u32.
Proof. split; [intros x Hx; eexists; by apply (uint_written 4)|apply (uint_typed 4)]. Qed.
#[global] Instance u64_laws : WireLaws u64.
Proof. split; [intros x Hx; eexists; by apply (uint_written 8)|apply (uint_typed 8)]. Qed.

(** *** A count followed by content

    The shape of strings, vectors and data. *)
Lemma encodes_size_nonneg {T} `{!WireFormat T} (x : T) bs : encodes x bs → is_word 32 (byte_size x).
Proof. intros (_ & -> & _). auto with words. Qed.

Lemma counted_decode {T A} `{!WireFormat T} (x : T) bs (f : T → Reader A) rest :
  encodes x bs → ((decode : Reader T) ≫= f) (bs ++ rest) = f x rest.
Proof. intros (_ & _ & _ & Hd). unfold mbind, M_bind. by rewrite Hd. Qed.

Lemma encodes_count n : (Z.of_nat n < 2 ^ 16)%Z →
  ∃ hd, encodes (word_cast 16 (Z.of_nat n) : u16) hd ∧ length hd = 2 ∧ word_cast 16 (Z.of_nat n) = Z.of_nat n.
Proof.
  intros Hn. rewrite word_cast_small by (auto with words).
  exists (uint_encode 2 (Z.of_nat n)). split; [|split; [apply uint_encode_ok|done]].
  apply (uint_written 2). unfold is_word. simpl. lia.
Qed.

#[global] Instance string_valid : Valid RString := λ s, is_string s ∧ (Z.of_nat (length s) ≤ U16_MAX)%Z.
#[global] Instance string_laws : WireLaws RString.
Proof.
  split.
  - intros s [[Hok Hu] Hlen]. unfold U16_MAX in *.
    destruct (encodes_count (length s)) as (hd & Hhd & Hl2 & Hc); [lia|].
    exists (hd ++ s). pose proof Hhd as (Hhok & _ & He & _). split; [by apply Forall_app|].
    cbn [byte_size encode decode string_wire]. split; [|split].
    + rewrite length_app, Hl2. f_equal. lia.
    + intros w. rewrite decide_False by (unfold U16_MAX; lia). unfold mbind, M_bind.
      rewrite He. unfold write_all, modify. by rewrite (assoc (++)).
    + intros rest. rewrite <- (assoc (++)). unfold string_decode. rewrite (counted_decode _ _ _ _ Hhd), Hc, Nat2Z.id.
      unfold mbind, M_bind, take_to_end. by rewrite take_app_length, drop_app_length, Hu.
  - eapply typed_bind; [apply (decode_typed (T := u16))|]. intros len Hl. unfold valid, u16_valid, is_word in Hl.
    eapply typed_bind; [apply typed_take_to_end|]. intros buf [Hb Hle].
    destruct (utf8_valid buf) eqn:Hu; [|apply typed_throw]. apply typed_ret.
    split; [by split|]. unfold U16_MAX. change (2 ^ 16)%Z with 65536%Z in Hl. lia.
Qed.

Section vec_laws.
Context {T : Type} `{!WireFormat T, !Valid T, !WireLaws T}.

#[global] Instance vec_valid : Valid (list T) := λ l, Forall valid l ∧ (Z.of_nat (length l) ≤ U16_MAX)%Z.

Lemma u32_sum_cast (acc : Z) (zs : list Z) :
  foldl u32_add (word_cast 32 acc) (word_cast 32 <$> zs) = word_cast 32 (acc + foldr Z.add 0 zs)%Z.
Proof.
  revert acc. induction zs as [|z zs IH]; intros acc; cbn [fmap list_fmap foldl foldr]; [by rewrite Z.add_0_r|].
  by rewrite u32_add_cast, IH, Z.add_assoc.
Qed.

Lemma sizes_sum (l : list T) bss : Forall2 encodes l bss →
  u32_sum (byte_size <$> l) = word_cast 32 (Z.of_nat (length (mjoin bss))).
Proof.
  intros Hl. unfold u32_sum. change 0%Z with (word_cast 32 0) at 1.
  replace (byte_size <$> l) with (word_cast 32 <$> ((λ bs, Z.of_nat (length bs)) <$> bss)).
  - rewrite u32_sum_cast. f_equal. rewrite Z.add_0_l. clear Hl.
    induction bss as [|bs bss IH]; [done|]. rewrite fmap_cons. cbn [foldr].
    change (mjoin (bs :: bss)) with (bs ++ mjoin bss).
    rewrite IH, length_app. lia.
  - induction Hl as [|x bs l bss (_ & Hs & _) _ IH]; [done|]. by rewrite !fmap_cons, Hs, IH.
Qed.

Lemma vec_encode_spec (l : list T) bss w : Forall2 encodes l bss → vec_encode l w = (Ok tt, w ++ mjoin bss).
Proof.
  intros Hl. revert w. induction Hl as [|x bs l bss (_ & _ & He & _) _ IH]; intros w; cbn [vec_encode].
  - by rewrite app_nil_r.
  - unfold mbind, M_bind. rewrite He, IH.
    change (mjoin (bs :: bss)) with (bs ++ mjoin bss). by rewrite (assoc (++)).
Qed.
Lemma vec_decode_spec (l : list T) bss rest :
  Forall2 encodes l bss → vec_decode (length l) (mjoin bss ++ rest) = (Ok l, rest).
Proof.
  induction 1 as [|x bs l bss Hx _ IH]; cbn [vec_decode length]; [done|].
  change (mjoin (bs :: bss)) with (bs ++ mjoin bss).
  rewrite <- (assoc (++)), (counted_decode _ _ _ _ Hx). unfold mbind, M_bind. by rewrite IH.
Qed.

#[global] Instance vec_laws : WireLaws (list T).
Proof.
  split.
  - intros l [Hv Hlen]. unfold U16_MAX in *.
    destruct (encodes_count (length l)) as (hd & Hhd & Hl2 & Hc); [lia|].
    assert (∃ bss, Forall2 encodes l bss) as [bss Hl].
    { clear Hlen Hhd Hc. induction Hv as [|x l Hx _ [bss IH]]; [by exists []|].
      destruct (written_back x Hx) as [bs Hbs]. exists (bs :: bss). by constructor. }
    exists (hd ++ mjoin bss). pose proof Hhd as (Hhok & _ & He & _). split; [|split; [|split]].
    + apply Forall_app. split; [done|]. clear -Hl. induction Hl as [|???? (Hb & _) _ IH]; [constructor|].
      change (mjoin (?bs :: ?bss)) with (bs ++ mjoin bss). by apply Forall_app.
    + cbn [byte_size vec_wire]. rewrite (sizes_sum _ _ Hl), length_app, Hl2, Nat2Z.inj_add.
      change 2%Z with (word_cast 32 2) at 1. by rewrite u32_add_cast.
    + intros w. cbn [encode vec_wire]. rewrite decide_False by (unfold U16_MAX; lia). unfold mbind, M_bind.
      by rewrite He, (vec_encode_spec _ _ _ Hl), (assoc (++)).
    + intros rest. cbn [decode vec_wire]. rewrite <- (assoc (++)), (counted_decode _ _ _ _ Hhd), Hc, Nat2Z.id.
      by apply vec_decode_spec.
  - eapply typed_bind; [apply (decode_typed (T := u16))|]. intros len Hl. unfold valid, u16_valid, is_word in Hl.
    assert (∀ n, reads_typed (vec_decode n) (λ l : list T, Forall valid l ∧ length l = n)) as Hn.
    { clear Hl. induction n as [|n IH]; [by apply typed_ret|]. cbn [vec_decode].
      eapply typed_bind; [apply decode_typed|]. intros x Hx. eapply typed_bind; [apply IH|].
      intros l [Hf <-]. apply typed_ret. by split; [constructor|]. }
    eapply typed_mono; [apply Hn|]. intros l [Hf Hle]. split; [done|].
    unfold U16_MAX. change (2 ^ 16)%Z with 65536%Z in Hl. lia.
Qed.
End vec_laws.

#[global] Instance data_valid : Valid Data := λ d,
  bytes_ok (data d) ∧ (Z.of_nat (length (data d)) ≤ MAX_DATA_LENGTH)%Z.

Lemma bytes_sum (l : list Z) : u32_sum ((byte_size : u8 → Z) <$> l) = word_cast 32 (Z.of_nat (length l)).
Proof.
  unfold u32_sum. change 0%Z with (word_cast 32 0) at 1.
  replace ((byte_size : u8 → Z) <$> l) with (word_cast 32 <$> replicate (length l) 1%Z).
  - rewrite u32_sum_cast. f_equal. induction l; cbn [length replicate foldr] in *; lia.
  - induction l; [done|]. cbn [length replicate]. rewrite !fmap_cons. by f_equal.
Qed.

#[global] Instance data_laws : WireLaws Data.
Proof.
  split.
  - intros [l] [Hok Hlen]. cbn [data] in *. unfold MAX_DATA_LENGTH in Hlen.
    assert (is_word 32 (Z.of_nat (length l))) as Hw by (unfold is_word; lia).
    pose proof (uint_written 4 _ Hw) as Hhd.
    exists (uint_encode 4 (Z.of_nat (length l)) ++ l). pose proof Hhd as (Hhok & _ & He & _).
    split; [by apply Forall_app|]. cbn [byte_size encode decode data_wire data]. split; [|split].
    + rewrite bytes_sum, length_app, (proj2 (uint_encode_ok _ _)), Nat2Z.inj_add.
      change 4%Z with (word_cast 32 4) at 1. by rewrite u32_add_cast.
    + intros w. rewrite decide_False by (unfold U32_MAX; lia). unfold mbind, M_bind.
      rewrite word_cast_small by (done || lia).
      unfold u32, u32_wire. rewrite He. unfold write_all, modify. by rewrite (assoc (++)).
    + intros rest. rewrite <- (assoc (++)). unfold u32, u32_wire. rewrite (counted_decode _ _ _ _ Hhd), Nat2Z.id.
      rewrite decide_False by (unfold MAX_DATA_LENGTH; lia).
      unfold mbind, M_bind, take_to_end. by rewrite take_app_length, drop_app_length, decide_True.
  - eapply typed_bind; [apply (decode_typed (T := u32))|]. intros len Hl. unfold valid, u32_valid, is_word in Hl.
    case_decide; [apply typed_throw|].
    eapply typed_bind; [apply typed_take_to_end|]. intros buf [Hb Hle].
    case_decide as Hlen; [|apply typed_throw]. apply typed_ret. split; [done|]. cbn [data].
    unfold MAX_DATA_LENGTH in *. lia.
Qed.

(** *** Derived implementations *)
Definition encodes_fields {F} `{!Fields F} (f : F) (bs : list Z) : Prop :=
  bytes_ok bs ∧
  (∀ acc, fields_byte_size (word_cast 32 acc) f = word_cast 32 (acc + Z.of_nat (length bs))) ∧
  (∀ w, fields_encode f w = (Ok tt, w ++ bs)) ∧ (∀ rest, fields_decode (bs ++ rest) = (Ok f, rest)).

Class FieldsValid (F : Type) := fields_valid : F → Prop.
Class FieldsLaws (F : Type) `{!Fields F, !FieldsValid F} := {
  fields_written (f : F) : fields_valid f → ∃ bs, encodes_fields f bs;
  fields_typed : reads_typed (fields_decode : Reader F) fields_valid;
}.

#[global] Instance fields_nil_valid : FieldsValid () := λ _, True.
#[global] Instance fields_cons_valid {A F} `{!Valid A, !FieldsValid F} : FieldsValid (A * F) :=
  λ f, valid f.1 ∧ fields_valid f.2.

#[global] Instance fields_nil_laws : FieldsLaws ().
Proof.
  split; [|by apply typed_ret]. intros [] _. exists []. split; [constructor|].
  split; [intros acc; simpl; by rewrite Z.add_0_r|]. split; [intros w; simpl; by rewrite app_nil_r|done].
Qed.
#[global] Instance fields_cons_laws {A F}
  `{!WireFormat A, !Valid A, !WireLaws A, !Fields F, !FieldsValid F, !FieldsLaws F} : FieldsLaws (A * F).
Proof.
  split.
  - intros [a f] [Ha Hf]. cbn [fst snd] in *. destruct (written_back a Ha) as [bs Hbs].
    destruct (fields_written f Hf) as (bs' & Hok' & Hs' & He' & Hd').
    pose proof Hbs as (Hok & Hs & He & _). exists (bs ++ bs'). split; [by apply Forall_app|].
    split; [|split].
    + intros acc. cbn [fields_byte_size fields_cons fst snd].
      rewrite Hs, u32_add_cast, Hs', length_app, Nat2Z.inj_add. f_equal. lia.
    + intros w. cbn [fields_encode fields_cons fst snd]. unfold mbind, M_bind.
      by rewrite He, He', (assoc (++)).
    + intros rest. cbn [fields_decode fields_cons]. rewrite <- (assoc (++)), (counted_decode _ _ _ _ Hbs).
      unfold mbind, M_bind. by rewrite Hd'.
  - cbn [fields_decode fields_cons]. eapply typed_bind; [apply decode_typed|]. intros a Ha.
    eapply typed_bind; [apply fields_typed|]. intros f Hf. by apply typed_ret.
Qed.

(** The conversions between a struct and its fields are inverse. *)
Class StructLaws (T F : Type) `{!Struct T F} := {
  of_to_fields (s : T) : of_fields (to_fields s) = s;
  to_of_fields (f : F) : to_fields (of_fields f : T) = f;
}.
#[global] Instance derived_valid {T F} `{!Struct T F, !FieldsValid F} : Valid T :=
  λ s, fields_valid (to_fields s).

#[global] Instance derived_laws {T F}
  `{!Struct T F, !StructLaws T F, !Fields F, !FieldsValid F, !FieldsLaws F} : WireLaws T.
Proof.
  split.
  - intros s Hs. destruct (fields_written (to_fields s) Hs) as (bs & Hok & Hsize & He & Hd).
    exists bs. split; [done|]. cbn [byte_size encode decode derived_wire]. split; [|split; [done|]].
    + change 0%Z with (word_cast 32 0) at 1. by rewrite Hsize.
    + intros rest. unfold mbind, M_bind. by rewrite Hd, of_to_fields.
  - cbn [decode derived_wire]. eapply typed_bind; [apply fields_typed|]. intros f Hf.
    apply typed_ret. unfold valid, derived_valid. by rewrite to_of_fields.
Qed.

Ltac struct_laws :=
  split;
  [by intros []
  |intros; repeat match goal with f : _ * _ |- _ => destruct f | u : () |- _ => destruct u end; done].
