(* ===== verification/P9Messages.v ===== *)
(** * P9Messages: the messages of 9P

    Model of [framework/9p/crosvm-9p/src/messages.rs]: the requests ([T...]) and answers ([R...]) of
    the protocol, whose formats are derived from their fields, and the frames that carry them.

    Then: frames are read back as they were written, and any bytes are read as a frame of values of
    their types or as an error. *)

From S2P Require Import Prelude.
From S2P Require Import Bytes.
From S2P Require Import P9Wire.

(** ** Message types *)
Definition TLERROR : Z := 6.
Definition RLERROR : Z := TLERROR + 1.
Definition TSTATFS : Z := 8.
Definition RSTATFS : Z := TSTATFS + 1.
Definition TLOPEN : Z := 12.
Definition RLOPEN : Z := TLOPEN + 1.
Definition TLCREATE : Z := 14.
Definition RLCREATE : Z := TLCREATE + 1.
Definition TSYMLINK : Z := 16.
Definition RSYMLINK : Z := TSYMLINK + 1.
Definition TMKNOD : Z := 18.
Definition RMKNOD : Z := TMKNOD + 1.
Definition TRENAME : Z := 20.
Definition RRENAME : Z := TRENAME + 1.
Definition TREADLINK : Z := 22.
Definition RREADLINK : Z := TREADLINK + 1.
Definition TGETATTR : Z := 24.
Definition RGETATTR : Z := TGETATTR + 1.
Definition TSETATTR : Z := 26.
Definition RSETATTR : Z := TSETATTR + 1.
Definition TXATTRWALK : Z := 30.
Definition RXATTRWALK : Z := TXATTRWALK + 1.
Definition TXATTRCREATE : Z := 32.
Definition RXATTRCREATE : Z := TXATTRCREATE + 1.
Definition TREADDIR : Z := 40.
Definition RREADDIR : Z := TREADDIR + 1.
Definition TFSYNC : Z := 50.
Definition RFSYNC : Z := TFSYNC + 1.
Definition TLOCK : Z := 52.
Definition RLOCK : Z := TLOCK + 1.
Definition TGETLOCK : Z := 54.
Definition RGETLOCK : Z := TGETLOCK + 1.
Definition TLINK : Z := 70.
Definition RLINK : Z := TLINK + 1.
Definition TMKDIR : Z := 72.
Definition RMKDIR : Z := TMKDIR + 1.
Definition TRENAMEAT : Z := 74.
Definition RRENAMEAT : Z := TRENAMEAT + 1.
Definition TUNLINKAT : Z := 76.
Definition RUNLINKAT : Z := TUNLINKAT + 1.
Definition TVERSION : Z := 100.
Definition RVERSION : Z := TVERSION + 1.
Definition TAUTH : Z := 102.
Definition RAUTH : Z := TAUTH + 1.
Definition TATTACH : Z := 104.
Definition RATTACH : Z := TATTACH + 1.
Definition TERROR_ : Z := 106.
Definition RERROR_ : Z := TERROR_ + 1.
Definition TFLUSH : Z := 108.
Definition RFLUSH : Z := TFLUSH + 1.
Definition TWALK : Z := 110.
Definition RWALK : Z := TWALK + 1.
Definition TOPEN_ : Z := 112.
Definition ROPEN_ : Z := TOPEN_ + 1.
Definition TCREATE_ : Z := 114.
Definition RCREATE_ : Z := TCREATE_ + 1.
Definition TREAD : Z := 116.
Definition RREAD : Z := TREAD + 1.
Definition TWRITE : Z := 118.
Definition RWRITE : Z := TWRITE + 1.
Definition TCLUNK : Z := 120.
Definition RCLUNK : Z := TCLUNK + 1.
Definition TREMOVE : Z := 122.
Definition RREMOVE : Z := TREMOVE + 1.
Definition TSTAT_ : Z := 124.
Definition RSTAT_ : Z := TSTAT_ + 1.
Definition TWSTAT_ : Z := 126.
Definition RWSTAT_ : Z := TWSTAT_ + 1.

(** ** Requests, answers and their parts *)

Record Qid := {
  Qid_ty : u8;
  Qid_version : u32;
  Qid_path : u64;
}.
#[global] Instance Qid_struct : Struct Qid (u8 * (u32 * (u64 * ()))) := {|
  to_fields s := (Qid_ty s, (Qid_version s, (Qid_path s, tt)));
  of_fields '(ty, (version, (path, _))) := Build_Qid ty version path;
|}.
#[global] Instance Qid_laws : StructLaws Qid _.
Proof. struct_laws. Qed.

Record Dirent := {
  Dirent_qid : Qid;
  Dirent_offset : u64;
  Dirent_ty : u8;
  Dirent_name : RString;
}.
#[global] Instance Dirent_struct : Struct Dirent (Qid * (u64 * (u8 * (RString * ())))) := {|
  to_fields s := (Dirent_qid s, (Dirent_offset s, (Dirent_ty s, (Dirent_name s, tt))));
  of_fields '(qid, (offset, (ty, (name, _)))) := Build_Dirent qid offset ty name;
|}.
#[global] Instance Dirent_laws : StructLaws Dirent _.
Proof. struct_laws. Qed.

Record Tversion := {
  Tversion_msize : u32;
  Tversion_version : RString;
}.
#[global] Instance Tversion_struct : Struct Tversion (u32 * (RString * ())) := {|
  to_fields s := (Tversion_msize s, (Tversion_version s, tt));
  of_fields '(msize, (version, _)) := Build_Tversion msize version;
|}.
#[global] Instance Tversion_laws : StructLaws Tversion _.
Proof. struct_laws. Qed.

Record Tflush := {
  Tflush_oldtag : u16;
}.
#[global] Instance Tflush_struct : Struct Tflush (u16 * ()) := {|
  to_fields s := (Tflush_oldtag s, tt);
  of_fields '(oldtag, _) := Build_Tflush oldtag;
|}.
#[global] Instance Tflush_laws : StructLaws Tflush _.
Proof. struct_laws. Qed.

Record Twalk := {
  Twalk_fid : u32;
  Twalk_newfid : u32;
  Twalk_wnames : list RString;
}.
#[global] Instance Twalk_struct : Struct Twalk (u32 * (u32 * (list RString * ()))) := {|
  to_fields s := (Twalk_fid s, (Twalk_newfid s, (Twalk_wnames s, tt)));
  of_fields '(fid, (newfid, (wnames, _))) := Build_Twalk fid newfid wnames;
|}.
#[global] Instance Twalk_laws : StructLaws Twalk _.
Proof. struct_laws. Qed.

Record Tread := {
  Tread_fid : u32;
  Tread_offset : u64;
  Tread_count : u32;
}.
#[global] Instance Tread_struct : Struct Tread (u32 * (u64 * (u32 * ()))) := {|
  to_fields s := (Tread_fid s, (Tread_offset s, (Tread_count s, tt)));
  of_fields '(fid, (offset, (count, _))) := Build_Tread fid offset count;
|}.
#[global] Instance Tread_laws : StructLaws Tread _.
Proof. struct_laws. Qed.

Record Twrite := {
  Twrite_fid : u32;
  Twrite_offset : u64;
  Twrite_data : Data;
}.
#[global] Instance Twrite_struct : Struct Twrite (u32 * (u64 * (Data * ()))) := {|
  to_fields s := (Twrite_fid s, (Twrite_offset s, (Twrite_data s, tt)));
  of_fields '(fid, (offset, (data, _))) := Build_Twrite fid offset data;
|}.
#[global] Instance Twrite_laws : StructLaws Twrite _.
Proof. struct_laws. Qed.

Record Tclunk := {
  Tclunk_fid : u32;
}.
#[global] Instance Tclunk_struct : Struct Tclunk (u32 * ()) := {|
  to_fields s := (Tclunk_fid s, tt);
  of_fields '(fid, _) := Build_Tclunk fid;
|}.
#[global] Instance Tclunk_laws : StructLaws Tclunk _.
Proof. struct_laws. Qed.

Record Tremove := {
  Tremove_fid : u32;
}.
#[global] Instance Tremove_struct : Struct Tremove (u32 * ()) := {|
  to_fields s := (Tremove_fid s, tt);
  of_fields '(fid, _) := Build_Tremove fid;
|}.
#[global] Instance Tremove_laws : StructLaws Tremove _.
Proof. struct_laws. Qed.

Record Tauth := {
  Tauth_afid : u32;
  Tauth_uname : RString;
  Tauth_aname : RString;
  Tauth_n_uname : u32;
}.
#[global] Instance Tauth_struct : Struct Tauth (u32 * (RString * (RString * (u32 * ())))) := {|
  to_fields s := (Tauth_afid s, (Tauth_uname s, (Tauth_aname s, (Tauth_n_uname s, tt))));
  of_fields '(afid, (uname, (aname, (n_uname, _)))) := Build_Tauth afid uname aname n_uname;
|}.
#[global] Instance Tauth_laws : StructLaws Tauth _.
Proof. struct_laws. Qed.

Record Tattach := {
  Tattach_fid : u32;
  Tattach_afid : u32;
  Tattach_uname : RString;
  Tattach_aname : RString;
  Tattach_n_uname : u32;
}.
#[global] Instance Tattach_struct : Struct Tattach (u32 * (u32 * (RString * (RString * (u32 *
  ()))))) := {|
  to_fields s := (Tattach_fid s, (Tattach_afid s, (Tattach_uname s, (Tattach_aname s,
  (Tattach_n_uname s, tt)))));
  of_fields '(fid, (afid, (uname, (aname, (n_uname, _))))) := Build_Tattach fid afid uname aname
  n_uname;
|}.
#[global] Instance Tattach_laws : StructLaws Tattach _.
Proof. struct_laws. Qed.

Record Tstatfs := {
  Tstatfs_fid : u32;
}.
#[global] Instance Tstatfs_struct : Struct Tstatfs (u32 * ()) := {|
  to_fields s := (Tstatfs_fid s, tt);
  of_fields '(fid, _) := Build_Tstatfs fid;
|}.
#[global] Instance Tstatfs_laws : StructLaws Tstatfs _.
Proof. struct_laws. Qed.

Record Tlopen := {
  Tlopen_fid : u32;
  Tlopen_flags : u32;
}.
#[global] Instance Tlopen_struct : Struct Tlopen (u32 * (u32 * ())) := {|
  to_fields s := (Tlopen_fid s, (Tlopen_flags s, tt));
  of_fields '(fid, (flags, _)) := Build_Tlopen fid flags;
|}.
#[global] Instance Tlopen_laws : StructLaws Tlopen _.
Proof. struct_laws. Qed.

Record Tlcreate := {
  Tlcreate_fid : u32;
  Tlcreate_name : RString;
  Tlcreate_flags : u32;
  Tlcreate_mode : u32;
  Tlcreate_gid : u32;
}.
#[global] Instance Tlcreate_struct : Struct Tlcreate (u32 * (RString * (u32 * (u32 * (u32 *
  ()))))) := {|
  to_fields s := (Tlcreate_fid s, (Tlcreate_name s, (Tlcreate_flags s, (Tlcreate_mode s,
  (Tlcreate_gid s, tt)))));
  of_fields '(fid, (name, (flags, (mode, (gid, _))))) := Build_Tlcreate fid name flags mode gid;
|}.
#[global] Instance Tlcreate_laws : StructLaws Tlcreate _.
Proof. struct_laws. Qed.

Record Tsymlink := {
  Tsymlink_fid : u32;
  Tsymlink_name : RString;
  Tsymlink_symtgt : RString;
  Tsymlink_gid : u32;
}.
#[global] Instance Tsymlink_struct : Struct Tsymlink (u32 * (RString * (RString * (u32 * ())))) :=
  {|
  to_fields s := (Tsymlink_fid s, (Tsymlink_name s, (Tsymlink_symtgt s, (Tsymlink_gid s, tt))));
  of_fields '(fid, (name, (symtgt, (gid, _)))) := Build_Tsymlink fid name symtgt gid;
|}.
#[global] Instance Tsymlink_laws : StructLaws Tsymlink _.
Proof. struct_laws. Qed.

Record Tmknod := {
  Tmknod_dfid : u32;
  Tmknod_name : RString;
  Tmknod_mode : u32;
  Tmknod_major : u32;
  Tmknod_minor : u32;
  Tmknod_gid : u32;
}.
#[global] Instance Tmknod_struct : Struct Tmknod (u32 * (RString * (u32 * (u32 * (u32 * (u32 *
  ())))))) := {|
  to_fields s := (Tmknod_dfid s, (Tmknod_name s, (Tmknod_mode s, (Tmknod_major s, (Tmknod_minor s,
  (Tmknod_gid s, tt))))));
  of_fields '(dfid, (name, (mode, (major, (minor, (gid, _)))))) := Build_Tmknod dfid name mode
  major minor gid;
|}.
#[global] Instance Tmknod_laws : StructLaws Tmknod _.
Proof. struct_laws. Qed.

Record Trename := {
  Trename_fid : u32;
  Trename_dfid : u32;
  Trename_name : RString;
}.
#[global] Instance Trename_struct : Struct Trename (u32 * (u32 * (RString * ()))) := {|
  to_fields s := (Trename_fid s, (Trename_dfid s, (Trename_name s, tt)));
  of_fields '(fid, (dfid, (name, _))) := Build_Trename fid dfid name;
|}.
#[global] Instance Trename_laws : StructLaws Trename _.
Proof. struct_laws. Qed.

Record Treadlink := {
  Treadlink_fid : u32;
}.
#[global] Instance Treadlink_struct : Struct Treadlink (u32 * ()) := {|
  to_fields s := (Treadlink_fid s, tt);
  of_fields '(fid, _) := Build_Treadlink fid;
|}.
#[global] Instance Treadlink_laws : StructLaws Treadlink _.
Proof. struct_laws. Qed.

Record Tgetattr := {
  Tgetattr_fid : u32;
  Tgetattr_request_mask : u64;
}.
#[global] Instance Tgetattr_struct : Struct Tgetattr (u32 * (u64 * ())) := {|
  to_fields s := (Tgetattr_fid s, (Tgetattr_request_mask s, tt));
  of_fields '(fid, (request_mask, _)) := Build_Tgetattr fid request_mask;
|}.
#[global] Instance Tgetattr_laws : StructLaws Tgetattr _.
Proof. struct_laws. Qed.

Record Tsetattr := {
  Tsetattr_fid : u32;
  Tsetattr_valid : u32;
  Tsetattr_mode : u32;
  Tsetattr_uid : u32;
  Tsetattr_gid : u32;
  Tsetattr_size : u64;
  Tsetattr_atime_sec : u64;
  Tsetattr_atime_nsec : u64;
  Tsetattr_mtime_sec : u64;
  Tsetattr_mtime_nsec : u64;
}.
#[global] Instance Tsetattr_struct : Struct Tsetattr (u32 * (u32 * (u32 * (u32 * (u32 * (u64 *
  (u64 * (u64 * (u64 * (u64 * ())))))))))) := {|
  to_fields s := (Tsetattr_fid s, (Tsetattr_valid s, (Tsetattr_mode s, (Tsetattr_uid s,
  (Tsetattr_gid s, (Tsetattr_size s, (Tsetattr_atime_sec s, (Tsetattr_atime_nsec s,
  (Tsetattr_mtime_sec s, (Tsetattr_mtime_nsec s, tt))))))))));
  of_fields '(fid, (valid, (mode, (uid, (gid, (size, (atime_sec, (atime_nsec, (mtime_sec,
  (mtime_nsec, _)))))))))) := Build_Tsetattr fid valid mode uid gid size atime_sec atime_nsec
  mtime_sec mtime_nsec;
|}.
#[global] Instance Tsetattr_laws : StructLaws Tsetattr _.
Proof. struct_laws. Qed.

Record Txattrwalk := {
  Txattrwalk_fid : u32;
  Txattrwalk_newfid : u32;
  Txattrwalk_name : RString;
}.
#[global] Instance Txattrwalk_struct : Struct Txattrwalk (u32 * (u32 * (RString * ()))) := {|
  to_fields s := (Txattrwalk_fid s, (Txattrwalk_newfid s, (Txattrwalk_name s, tt)));
  of_fields '(fid, (newfid, (name, _))) := Build_Txattrwalk fid newfid name;
|}.
#[global] Instance Txattrwalk_laws : StructLaws Txattrwalk _.
Proof. struct_laws. Qed.

Record Txattrcreate := {
  Txattrcreate_fid : u32;
  Txattrcreate_name : RString;
  Txattrcreate_attr_size : u64;
  Txattrcreate_flags : u32;
}.
#[global] Instance Txattrcreate_struct : Struct Txattrcreate (u32 * (RString * (u64 * (u32 *
  ())))) := {|
  to_fields s := (Txattrcreate_fid s, (Txattrcreate_name s, (Txattrcreate_attr_size s,
  (Txattrcreate_flags s, tt))));
  of_fields '(fid, (name, (attr_size, (flags, _)))) := Build_Txattrcreate fid name attr_size
  flags;
|}.
#[global] Instance Txattrcreate_laws : StructLaws Txattrcreate _.
Proof. struct_laws. Qed.

Record Treaddir := {
  Treaddir_fid : u32;
  Treaddir_offset : u64;
  Treaddir_count : u32;
}.
#[global] Instance Treaddir_struct : Struct Treaddir (u32 * (u64 * (u32 * ()))) := {|
  to_fields s := (Treaddir_fid s, (Treaddir_offset s, (Treaddir_count s, tt)));
  of_fields '(fid, (offset, (count, _))) := Build_Treaddir fid offset count;
|}.
#[global] Instance Treaddir_laws : StructLaws Treaddir _.
Proof. struct_laws. Qed.

Record Tfsync := {
  Tfsync_fid : u32;
  Tfsync_datasync : u32;
}.
#[global] Instance Tfsync_struct : Struct Tfsync (u32 * (u32 * ())) := {|
  to_fields s := (Tfsync_fid s, (Tfsync_datasync s, tt));
  of_fields '(fid, (datasync, _)) := Build_Tfsync fid datasync;
|}.
#[global] Instance Tfsync_laws : StructLaws Tfsync _.
Proof. struct_laws. Qed.

Record Tlock := {
  Tlock_fid : u32;
  Tlock_type_ : u8;
  Tlock_flags : u32;
  Tlock_start : u64;
  Tlock_length : u64;
  Tlock_proc_id : u32;
  Tlock_client_id : RString;
}.
#[global] Instance Tlock_struct : Struct Tlock (u32 * (u8 * (u32 * (u64 * (u64 * (u32 * (RString *
  ()))))))) := {|
  to_fields s := (Tlock_fid s, (Tlock_type_ s, (Tlock_flags s, (Tlock_start s, (Tlock_length s,
  (Tlock_proc_id s, (Tlock_client_id s, tt)))))));
  of_fields '(fid, (ty_, (flags, (start, (length, (proc_id, (client_id, _))))))) := Build_Tlock
  fid ty_ flags start length proc_id client_id;
|}.
#[global] Instance Tlock_laws : StructLaws Tlock _.
Proof. struct_laws. Qed.

Record Tgetlock := {
  Tgetlock_fid : u32;
  Tgetlock_type_ : u8;
  Tgetlock_start : u64;
  Tgetlock_length : u64;
  Tgetlock_proc_id : u32;
  Tgetlock_client_id : RString;
}.
#[global] Instance Tgetlock_struct : Struct Tgetlock (u32 * (u8 * (u64 * (u64 * (u32 * (RString *
  ())))))) := {|
  to_fields s := (Tgetlock_fid s, (Tgetlock_type_ s, (Tgetlock_start s, (Tgetlock_length s,
  (Tgetlock_proc_id s, (Tgetlock_client_id s, tt))))));
  of_fields '(fid, (ty_, (start, (length, (proc_id, (client_id, _)))))) := Build_Tgetlock fid ty_
  start length proc_id client_id;
|}.
#[global] Instance Tgetlock_laws : StructLaws Tgetlock _.
Proof. struct_laws. Qed.

Record Tlink := {
  Tlink_dfid : u32;
  Tlink_fid : u32;
  Tlink_name : RString;
}.
#[global] Instance Tlink_struct : Struct Tlink (u32 * (u32 * (RString * ()))) := {|
  to_fields s := (Tlink_dfid s, (Tlink_fid s, (Tlink_name s, tt)));
  of_fields '(dfid, (fid, (name, _))) := Build_Tlink dfid fid name;
|}.
#[global] Instance Tlink_laws : StructLaws Tlink _.
Proof. struct_laws. Qed.

Record Tmkdir := {
  Tmkdir_dfid : u32;
  Tmkdir_name : RString;
  Tmkdir_mode : u32;
  Tmkdir_gid : u32;
}.
#[global] Instance Tmkdir_struct : Struct Tmkdir (u32 * (RString * (u32 * (u32 * ())))) := {|
  to_fields s := (Tmkdir_dfid s, (Tmkdir_name s, (Tmkdir_mode s, (Tmkdir_gid s, tt))));
  of_fields '(dfid, (name, (mode, (gid, _)))) := Build_Tmkdir dfid name mode gid;
|}.
#[global] Instance Tmkdir_laws : StructLaws Tmkdir _.
Proof. struct_laws. Qed.

Record Trenameat := {
  Trenameat_olddirfid : u32;
  Trenameat_oldname : RString;
  Trenameat_newdirfid : u32;
  Trenameat_newname : RString;
}.
#[global] Instance Trenameat_struct : Struct Trenameat (u32 * (RString * (u32 * (RString * ()))))
  := {|
  to_fields s := (Trenameat_olddirfid s, (Trenameat_oldname s, (Trenameat_newdirfid s,
  (Trenameat_newname s, tt))));
  of_fields '(olddirfid, (oldname, (newdirfid, (newname, _)))) := Build_Trenameat olddirfid
  oldname newdirfid newname;
|}.
#[global] Instance Trenameat_laws : StructLaws Trenameat _.
Proof. struct_laws. Qed.

Record Tunlinkat := {
  Tunlinkat_dirfd : u32;
  Tunlinkat_name : RString;
  Tunlinkat_flags : u32;
}.
#[global] Instance Tunlinkat_struct : Struct Tunlinkat (u32 * (RString * (u32 * ()))) := {|
  to_fields s := (Tunlinkat_dirfd s, (Tunlinkat_name s, (Tunlinkat_flags s, tt)));
  of_fields '(dirfd, (name, (flags, _))) := Build_Tunlinkat dirfd name flags;
|}.
#[global] Instance Tunlinkat_laws : StructLaws Tunlinkat _.
Proof. struct_laws. Qed.

Record Rversion := {
  Rversion_msize : u32;
  Rversion_version : RString;
}.
#[global] Instance Rversion_struct : Struct Rversion (u32 * (RString * ())) := {|
  to_fields s := (Rversion_msize s, (Rversion_version s, tt));
  of_fields '(msize, (version, _)) := Build_Rversion msize version;
|}.
#[global] Instance Rversion_laws : StructLaws Rversion _.
Proof. struct_laws. Qed.

Record Rwalk := {
  Rwalk_wqids : list Qid;
}.
#[global] Instance Rwalk_struct : Struct Rwalk (list Qid * ()) := {|
  to_fields s := (Rwalk_wqids s, tt);
  of_fields '(wqids, _) := Build_Rwalk wqids;
|}.
#[global] Instance Rwalk_laws : StructLaws Rwalk _.
Proof. struct_laws. Qed.

Record Rread := {
  Rread_data : Data;
}.
#[global] Instance Rread_struct : Struct Rread (Data * ()) := {|
  to_fields s := (Rread_data s, tt);
  of_fields '(data, _) := Build_Rread data;
|}.
#[global] Instance Rread_laws : StructLaws Rread _.
Proof. struct_laws. Qed.

Record Rwrite := {
  Rwrite_count : u32;
}.
#[global] Instance Rwrite_struct : Struct Rwrite (u32 * ()) := {|
  to_fields s := (Rwrite_count s, tt);
  of_fields '(count, _) := Build_Rwrite count;
|}.
#[global] Instance Rwrite_laws : StructLaws Rwrite _.
Proof. struct_laws. Qed.

Record Rauth := {
  Rauth_aqid : Qid;
}.
#[global] Instance Rauth_struct : Struct Rauth (Qid * ()) := {|
  to_fields s := (Rauth_aqid s, tt);
  of_fields '(aqid, _) := Build_Rauth aqid;
|}.
#[global] Instance Rauth_laws : StructLaws Rauth _.
Proof. struct_laws. Qed.

Record Rattach := {
  Rattach_qid : Qid;
}.
#[global] Instance Rattach_struct : Struct Rattach (Qid * ()) := {|
  to_fields s := (Rattach_qid s, tt);
  of_fields '(qid, _) := Build_Rattach qid;
|}.
#[global] Instance Rattach_laws : StructLaws Rattach _.
Proof. struct_laws. Qed.

Record Rlerror := {
  Rlerror_ecode : u32;
}.
#[global] Instance Rlerror_struct : Struct Rlerror (u32 * ()) := {|
  to_fields s := (Rlerror_ecode s, tt);
  of_fields '(ecode, _) := Build_Rlerror ecode;
|}.
#[global] Instance Rlerror_laws : StructLaws Rlerror _.
Proof. struct_laws. Qed.

Record Rstatfs := {
  Rstatfs_ty : u32;
  Rstatfs_bsize : u32;
  Rstatfs_blocks : u64;
  Rstatfs_bfree : u64;
  Rstatfs_bavail : u64;
  Rstatfs_files : u64;
  Rstatfs_ffree : u64;
  Rstatfs_fsid : u64;
  Rstatfs_namelen : u32;
}.
#[global] Instance Rstatfs_struct : Struct Rstatfs (u32 * (u32 * (u64 * (u64 * (u64 * (u64 * (u64
  * (u64 * (u32 * ()))))))))) := {|
  to_fields s := (Rstatfs_ty s, (Rstatfs_bsize s, (Rstatfs_blocks s, (Rstatfs_bfree s,
  (Rstatfs_bavail s, (Rstatfs_files s, (Rstatfs_ffree s, (Rstatfs_fsid s, (Rstatfs_namelen s,
  tt)))))))));
  of_fields '(ty, (bsize, (blocks, (bfree, (bavail, (files, (ffree, (fsid, (namelen, _))))))))) :=
  Build_Rstatfs ty bsize blocks bfree bavail files ffree fsid namelen;
|}.
#[global] Instance Rstatfs_laws : StructLaws Rstatfs _.
Proof. struct_laws. Qed.

Record Rlopen := {
  Rlopen_qid : Qid;
  Rlopen_iounit : u32;
}.
#[global] Instance Rlopen_struct : Struct Rlopen (Qid * (u32 * ())) := {|
  to_fields s := (Rlopen_qid s, (Rlopen_iounit s, tt));
  of_fields '(qid, (iounit, _)) := Build_Rlopen qid iounit;
|}.
#[global] Instance Rlopen_laws : StructLaws Rlopen _.
Proof. struct_laws. Qed.

Record Rlcreate := {
  Rlcreate_qid : Qid;
  Rlcreate_iounit : u32;
}.
#[global] Instance Rlcreate_struct : Struct Rlcreate (Qid * (u32 * ())) := {|
  to_fields s := (Rlcreate_qid s, (Rlcreate_iounit s, tt));
  of_fields '(qid, (iounit, _)) := Build_Rlcreate qid iounit;
|}.
#[global] Instance Rlcreate_laws : StructLaws Rlcreate _.
Proof. struct_laws. Qed.

Record Rsymlink := {
  Rsymlink_qid : Qid;
}.
#[global] Instance Rsymlink_struct : Struct Rsymlink (Qid * ()) := {|
  to_fields s := (Rsymlink_qid s, tt);
  of_fields '(qid, _) := Build_Rsymlink qid;
|}.
#[global] Instance Rsymlink_laws : StructLaws Rsymlink _.
Proof. struct_laws. Qed.

Record Rmknod := {
  Rmknod_qid : Qid;
}.
#[global] Instance Rmknod_struct : Struct Rmknod (Qid * ()) := {|
  to_fields s := (Rmknod_qid s, tt);
  of_fields '(qid, _) := Build_Rmknod qid;
|}.
#[global] Instance Rmknod_laws : StructLaws Rmknod _.
Proof. struct_laws. Qed.

Record Rreadlink := {
  Rreadlink_target : RString;
}.
#[global] Instance Rreadlink_struct : Struct Rreadlink (RString * ()) := {|
  to_fields s := (Rreadlink_target s, tt);
  of_fields '(target, _) := Build_Rreadlink target;
|}.
#[global] Instance Rreadlink_laws : StructLaws Rreadlink _.
Proof. struct_laws. Qed.

Record Rgetattr := {
  Rgetattr_valid : u64;
  Rgetattr_qid : Qid;
  Rgetattr_mode : u32;
  Rgetattr_uid : u32;
  Rgetattr_gid : u32;
  Rgetattr_nlink : u64;
  Rgetattr_rdev : u64;
  Rgetattr_size : u64;
  Rgetattr_blksize : u64;
  Rgetattr_blocks : u64;
  Rgetattr_atime_sec : u64;
  Rgetattr_atime_nsec : u64;
  Rgetattr_mtime_sec : u64;
  Rgetattr_mtime_nsec : u64;
  Rgetattr_ctime_sec : u64;
  Rgetattr_ctime_nsec : u64;
  Rgetattr_btime_sec : u64;
  Rgetattr_btime_nsec : u64;
  Rgetattr_gen : u64;
  Rgetattr_data_version : u64;
}.
#[global] Instance Rgetattr_struct : Struct Rgetattr (u64 * (Qid * (u32 * (u32 * (u32 * (u64 *
  (u64 * (u64 * (u64 * (u64 * (u64 * (u64 * (u64 * (u64 * (u64 * (u64 * (u64 * (u64 * (u64 * (u64 *
  ())))))))))))))))))))) := {|
  to_fields s := (Rgetattr_valid s, (Rgetattr_qid s, (Rgetattr_mode s, (Rgetattr_uid s,
  (Rgetattr_gid s, (Rgetattr_nlink s, (Rgetattr_rdev s, (Rgetattr_size s, (Rgetattr_blksize s,
  (Rgetattr_blocks s, (Rgetattr_atime_sec s, (Rgetattr_atime_nsec s, (Rgetattr_mtime_sec s,
  (Rgetattr_mtime_nsec s, (Rgetattr_ctime_sec s, (Rgetattr_ctime_nsec s, (Rgetattr_btime_sec s,
  (Rgetattr_btime_nsec s, (Rgetattr_gen s, (Rgetattr_data_version s, tt))))))))))))))))))));
  of_fields '(valid, (qid, (mode, (uid, (gid, (nlink, (rdev, (size, (blksize, (blocks, (atime_sec,
  (atime_nsec, (mtime_sec, (mtime_nsec, (ctime_sec, (ctime_nsec, (btime_sec, (btime_nsec, (gen,
  (data_version, _)))))))))))))))))))) := Build_Rgetattr valid qid mode uid gid nlink rdev size
  blksize blocks atime_sec atime_nsec mtime_sec mtime_nsec ctime_sec ctime_nsec btime_sec
  btime_nsec gen data_version;
|}.
#[global] Instance Rgetattr_laws : StructLaws Rgetattr _.
Proof. struct_laws. Qed.

Record Rxattrwalk := {
  Rxattrwalk_size : u64;
}.
#[global] Instance Rxattrwalk_struct : Struct Rxattrwalk (u64 * ()) := {|
  to_fields s := (Rxattrwalk_size s, tt);
  of_fields '(size, _) := Build_Rxattrwalk size;
|}.
#[global] Instance Rxattrwalk_laws : StructLaws Rxattrwalk _.
Proof. struct_laws. Qed.

Record Rreaddir := {
  Rreaddir_data : Data;
}.
#[global] Instance Rreaddir_struct : Struct Rreaddir (Data * ()) := {|
  to_fields s := (Rreaddir_data s, tt);
  of_fields '(data, _) := Build_Rreaddir data;
|}.
#[global] Instance Rreaddir_laws : StructLaws Rreaddir _.
Proof. struct_laws. Qed.

Record Rlock := {
  Rlock_status : u8;
}.
#[global] Instance Rlock_struct : Struct Rlock (u8 * ()) := {|
  to_fields s := (Rlock_status s, tt);
  of_fields '(status, _) := Build_Rlock status;
|}.
#[global] Instance Rlock_laws : StructLaws Rlock _.
Proof. struct_laws. Qed.

Record Rgetlock := {
  Rgetlock_ty : u8;
  Rgetlock_start : u64;
  Rgetlock_length : u64;
  Rgetlock_proc_id : u32;
  Rgetlock_client_id : RString;
}.
#[global] Instance Rgetlock_struct : Struct Rgetlock (u8 * (u64 * (u64 * (u32 * (RString * ())))))
  := {|
  to_fields s := (Rgetlock_ty s, (Rgetlock_start s, (Rgetlock_length s, (Rgetlock_proc_id s,
  (Rgetlock_client_id s, tt)))));
  of_fields '(ty, (start, (length, (proc_id, (client_id, _))))) := Build_Rgetlock ty start length
  proc_id client_id;
|}.
#[global] Instance Rgetlock_laws : StructLaws Rgetlock _.
Proof. struct_laws. Qed.

Record Rmkdir := {
  Rmkdir_qid : Qid;
}.
#[global] Instance Rmkdir_struct : Struct Rmkdir (Qid * ()) := {|
  to_fields s := (Rmkdir_qid s, tt);
  of_fields '(qid, _) := Build_Rmkdir qid;
|}.
#[global] Instance Rmkdir_laws : StructLaws Rmkdir _.
Proof. struct_laws. Qed.

(** ** Frames *)

Module Tm.
Inductive Tmessage :=
| Version (m : Tversion)
| Flush (m : Tflush)
| Walk (m : Twalk)
| Read (m : Tread)
| Write (m : Twrite)
| Clunk (m : Tclunk)
| Remove (m : Tremove)
| Attach (m : Tattach)
| Auth (m : Tauth)
| Statfs (m : Tstatfs)
| Lopen (m : Tlopen)
| Lcreate (m : Tlcreate)
| Symlink (m : Tsymlink)
| Mknod (m : Tmknod)
| Rename (m : Trename)
| Readlink (m : Treadlink)
| GetAttr (m : Tgetattr)
| SetAttr (m : Tsetattr)
| XattrWalk (m : Txattrwalk)
| XattrCreate (m : Txattrcreate)
| Readdir (m : Treaddir)
| Fsync (m : Tfsync)
| Lock (m : Tlock)
| GetLock (m : Tgetlock)
| Link (m : Tlink)
| Mkdir (m : Tmkdir)
| RenameAt (m : Trenameat)
| UnlinkAt (m : Tunlinkat).
End Tm.
Abbreviation Tmessage := Tm.Tmessage.

Module Rm.
Inductive Rmessage :=
| Version (m : Rversion)
| Flush
| Walk (m : Rwalk)
| Read (m : Rread)
| Write (m : Rwrite)
| Clunk
| Remove
| Attach (m : Rattach)
| Auth (m : Rauth)
| Statfs (m : Rstatfs)
| Lopen (m : Rlopen)
| Lcreate (m : Rlcreate)
| Symlink (m : Rsymlink)
| Mknod (m : Rmknod)
| Rename
| Readlink (m : Rreadlink)
| GetAttr (m : Rgetattr)
| SetAttr
| XattrWalk (m : Rxattrwalk)
| XattrCreate
| Readdir (m : Rreaddir)
| Fsync
| Lock (m : Rlock)
| GetLock (m : Rgetlock)
| Link
| Mkdir (m : Rmkdir)
| RenameAt
| UnlinkAt
| Lerror (m : Rlerror).
End Rm.
Abbreviation Rmessage := Rm.Rmessage.

Class Message (Msg : Type) := {
  msg_size : Msg → Z;
  msg_type : Msg → Z;
  msg_encode : Msg → Writer unit;
  msg_decode : Z → Reader Msg;
}.

Definition Tmessage_size (m : Tmessage) : Z :=
  match m with
  | Tm.Version m => byte_size m
  | Tm.Flush m => byte_size m
  | Tm.Walk m => byte_size m
  | Tm.Read m => byte_size m
  | Tm.Write m => byte_size m
  | Tm.Clunk m => byte_size m
  | Tm.Remove m => byte_size m
  | Tm.Attach m => byte_size m
  | Tm.Auth m => byte_size m
  | Tm.Statfs m => byte_size m
  | Tm.Lopen m => byte_size m
  | Tm.Lcreate m => byte_size m
  | Tm.Symlink m => byte_size m
  | Tm.Mknod m => byte_size m
  | Tm.Rename m => byte_size m
  | Tm.Readlink m => byte_size m
  | Tm.GetAttr m => byte_size m
  | Tm.SetAttr m => byte_size m
  | Tm.XattrWalk m => byte_size m
  | Tm.XattrCreate m => byte_size m
  | Tm.Readdir m => byte_size m
  | Tm.Fsync m => byte_size m
  | Tm.Lock m => byte_size m
  | Tm.GetLock m => byte_size m
  | Tm.Link m => byte_size m
  | Tm.Mkdir m => byte_size m
  | Tm.RenameAt m => byte_size m
  | Tm.UnlinkAt m => byte_size m
  end.
Definition Tmessage_type (m : Tmessage) : Z :=
  match m with
  | Tm.Version _ => TVERSION
  | Tm.Flush _ => TFLUSH
  | Tm.Walk _ => TWALK
  | Tm.Read _ => TREAD
  | Tm.Write _ => TWRITE
  | Tm.Clunk _ => TCLUNK
  | Tm.Remove _ => TREMOVE
  | Tm.Attach _ => TATTACH
  | Tm.Auth _ => TAUTH
  | Tm.Statfs _ => TSTATFS
  | Tm.Lopen _ => TLOPEN
  | Tm.Lcreate _ => TLCREATE
  | Tm.Symlink _ => TSYMLINK
  | Tm.Mknod _ => TMKNOD
  | Tm.Rename _ => TRENAME
  | Tm.Readlink _ => TREADLINK
  | Tm.GetAttr _ => TGETATTR
  | Tm.SetAttr _ => TSETATTR
  | Tm.XattrWalk _ => TXATTRWALK
  | Tm.XattrCreate _ => TXATTRCREATE
  | Tm.Readdir _ => TREADDIR
  | Tm.Fsync _ => TFSYNC
  | Tm.Lock _ => TLOCK
  | Tm.GetLock _ => TGETLOCK
  | Tm.Link _ => TLINK
  | Tm.Mkdir _ => TMKDIR
  | Tm.RenameAt _ => TRENAMEAT
  | Tm.UnlinkAt _ => TUNLINKAT
  end.
Definition Tmessage_encode (m : Tmessage) : Writer unit :=
  match m with
  | Tm.Version m => encode m
  | Tm.Flush m => encode m
  | Tm.Walk m => encode m
  | Tm.Read m => encode m
  | Tm.Write m => encode m
  | Tm.Clunk m => encode m
  | Tm.Remove m => encode m
  | Tm.Attach m => encode m
  | Tm.Auth m => encode m
  | Tm.Statfs m => encode m
  | Tm.Lopen m => encode m
  | Tm.Lcreate m => encode m
  | Tm.Symlink m => encode m
  | Tm.Mknod m => encode m
  | Tm.Rename m => encode m
  | Tm.Readlink m => encode m
  | Tm.GetAttr m => encode m
  | Tm.SetAttr m => encode m
  | Tm.XattrWalk m => encode m
  | Tm.XattrCreate m => encode m
  | Tm.Readdir m => encode m
  | Tm.Fsync m => encode m
  | Tm.Lock m => encode m
  | Tm.GetLock m => encode m
  | Tm.Link m => encode m
  | Tm.Mkdir m => encode m
  | Tm.RenameAt m => encode m
  | Tm.UnlinkAt m => encode m
  end.
Definition Tmessage_decode (ty : Z) : Reader Tmessage :=
  if decide (ty = TVERSION) then m ← decode; mret (Tm.Version m)
  else if decide (ty = TFLUSH) then m ← decode; mret (Tm.Flush m)
  else if decide (ty = TWALK) then m ← decode; mret (Tm.Walk m)
  else if decide (ty = TREAD) then m ← decode; mret (Tm.Read m)
  else if decide (ty = TWRITE) then m ← decode; mret (Tm.Write m)
  else if decide (ty = TCLUNK) then m ← decode; mret (Tm.Clunk m)
  else if decide (ty = TREMOVE) then m ← decode; mret (Tm.Remove m)
  else if decide (ty = TATTACH) then m ← decode; mret (Tm.Attach m)
  else if decide (ty = TAUTH) then m ← decode; mret (Tm.Auth m)
  else if decide (ty = TSTATFS) then m ← decode; mret (Tm.Statfs m)
  else if decide (ty = TLOPEN) then m ← decode; mret (Tm.Lopen m)
  else if decide (ty = TLCREATE) then m ← decode; mret (Tm.Lcreate m)
  else if decide (ty = TSYMLINK) then m ← decode; mret (Tm.Symlink m)
  else if decide (ty = TMKNOD) then m ← decode; mret (Tm.Mknod m)
  else if decide (ty = TRENAME) then m ← decode; mret (Tm.Rename m)
  else if decide (ty = TREADLINK) then m ← decode; mret (Tm.Readlink m)
  else if decide (ty = TGETATTR) then m ← decode; mret (Tm.GetAttr m)
  else if decide (ty = TSETATTR) then m ← decode; mret (Tm.SetAttr m)
  else if decide (ty = TXATTRWALK) then m ← decode; mret (Tm.XattrWalk m)
  else if decide (ty = TXATTRCREATE) then m ← decode; mret (Tm.XattrCreate m)
  else if decide (ty = TREADDIR) then m ← decode; mret (Tm.Readdir m)
  else if decide (ty = TFSYNC) then m ← decode; mret (Tm.Fsync m)
  else if decide (ty = TLOCK) then m ← decode; mret (Tm.Lock m)
  else if decide (ty = TGETLOCK) then m ← decode; mret (Tm.GetLock m)
  else if decide (ty = TLINK) then m ← decode; mret (Tm.Link m)
  else if decide (ty = TMKDIR) then m ← decode; mret (Tm.Mkdir m)
  else if decide (ty = TRENAMEAT) then m ← decode; mret (Tm.RenameAt m)
  else if decide (ty = TUNLINKAT) then m ← decode; mret (Tm.UnlinkAt m)
  else throw (io_error_new ErrorKind.InvalidData).
#[global] Instance Tmessage_message : Message Tmessage := {|
  msg_size := Tmessage_size; msg_type := Tmessage_type;
  msg_encode := Tmessage_encode; msg_decode := Tmessage_decode;
|}.

Definition Rmessage_size (m : Rmessage) : Z :=
  match m with
  | Rm.Version m => byte_size m
  | Rm.Flush => 0
  | Rm.Walk m => byte_size m
  | Rm.Read m => byte_size m
  | Rm.Write m => byte_size m
  | Rm.Clunk => 0
  | Rm.Remove => 0
  | Rm.Attach m => byte_size m
  | Rm.Auth m => byte_size m
  | Rm.Statfs m => byte_size m
  | Rm.Lopen m => byte_size m
  | Rm.Lcreate m => byte_size m
  | Rm.Symlink m => byte_size m
  | Rm.Mknod m => byte_size m
  | Rm.Rename => 0
  | Rm.Readlink m => byte_size m
  | Rm.GetAttr m => byte_size m
  | Rm.SetAttr => 0
  | Rm.XattrWalk m => byte_size m
  | Rm.XattrCreate => 0
  | Rm.Readdir m => byte_size m
  | Rm.Fsync => 0
  | Rm.Lock m => byte_size m
  | Rm.GetLock m => byte_size m
  | Rm.Link => 0
  | Rm.Mkdir m => byte_size m
  | Rm.RenameAt => 0
  | Rm.UnlinkAt => 0
  | Rm.Lerror m => byte_size m
  end.
Definition Rmessage_type (m : Rmessage) : Z :=
  match m with
  | Rm.Version _ => RVERSION
  | Rm.Flush => RFLUSH
  | Rm.Walk _ => RWALK
  | Rm.Read _ => RREAD
  | Rm.Write _ => RWRITE
  | Rm.Clunk => RCLUNK
  | Rm.Remove => RREMOVE
  | Rm.Attach _ => RATTACH
  | Rm.Auth _ => RAUTH
  | Rm.Statfs _ => RSTATFS
  | Rm.Lopen _ => RLOPEN
  | Rm.Lcreate _ => RLCREATE
  | Rm.Symlink _ => RSYMLINK
  | Rm.Mknod _ => RMKNOD
  | Rm.Rename => RRENAME
  | Rm.Readlink _ => RREADLINK
  | Rm.GetAttr _ => RGETATTR
  | Rm.SetAttr => RSETATTR
  | Rm.XattrWalk _ => RXATTRWALK
  | Rm.XattrCreate => RXATTRCREATE
  | Rm.Readdir _ => RREADDIR
  | Rm.Fsync => RFSYNC
  | Rm.Lock _ => RLOCK
  | Rm.GetLock _ => RGETLOCK
  | Rm.Link => RLINK
  | Rm.Mkdir _ => RMKDIR
  | Rm.RenameAt => RRENAMEAT
  | Rm.UnlinkAt => RUNLINKAT
  | Rm.Lerror _ => RLERROR
  end.
Definition Rmessage_encode (m : Rmessage) : Writer unit :=
  match m with
  | Rm.Version m => encode m
  | Rm.Flush => mret tt
  | Rm.Walk m => encode m
  | Rm.Read m => encode m
  | Rm.Write m => encode m
  | Rm.Clunk => mret tt
  | Rm.Remove => mret tt
  | Rm.Attach m => encode m
  | Rm.Auth m => encode m
  | Rm.Statfs m => encode m
  | Rm.Lopen m => encode m
  | Rm.Lcreate m => encode m
  | Rm.Symlink m => encode m
  | Rm.Mknod m => encode m
  | Rm.Rename => mret tt
  | Rm.Readlink m => encode m
  | Rm.GetAttr m => encode m
  | Rm.SetAttr => mret tt
  | Rm.XattrWalk m => encode m
  | Rm.XattrCreate => mret tt
  | Rm.Readdir m => encode m
  | Rm.Fsync => mret tt
  | Rm.Lock m => encode m
  | Rm.GetLock m => encode m
  | Rm.Link => mret tt
  | Rm.Mkdir m => encode m
  | Rm.RenameAt => mret tt
  | Rm.UnlinkAt => mret tt
  | Rm.Lerror m => encode m
  end.
Definition Rmessage_decode (ty : Z) : Reader Rmessage :=
  if decide (ty = RVERSION) then m ← decode; mret (Rm.Version m)
  else if decide (ty = RFLUSH) then mret Rm.Flush
  else if decide (ty = RWALK) then m ← decode; mret (Rm.Walk m)
  else if decide (ty = RREAD) then m ← decode; mret (Rm.Read m)
  else if decide (ty = RWRITE) then m ← decode; mret (Rm.Write m)
  else if decide (ty = RCLUNK) then mret Rm.Clunk
  else if decide (ty = RREMOVE) then mret Rm.Remove
  else if decide (ty = RATTACH) then m ← decode; mret (Rm.Attach m)
  else if decide (ty = RAUTH) then m ← decode; mret (Rm.Auth m)
  else if decide (ty = RSTATFS) then m ← decode; mret (Rm.Statfs m)
  else if decide (ty = RLOPEN) then m ← decode; mret (Rm.Lopen m)
  else if decide (ty = RLCREATE) then m ← decode; mret (Rm.Lcreate m)
  else if decide (ty = RSYMLINK) then m ← decode; mret (Rm.Symlink m)
  else if decide (ty = RMKNOD) then m ← decode; mret (Rm.Mknod m)
  else if decide (ty = RRENAME) then mret Rm.Rename
  else if decide (ty = RREADLINK) then m ← decode; mret (Rm.Readlink m)
  else if decide (ty = RGETATTR) then m ← decode; mret (Rm.GetAttr m)
  else if decide (ty = RSETATTR) then mret Rm.SetAttr
  else if decide (ty = RXATTRWALK) then m ← decode; mret (Rm.XattrWalk m)
  else if decide (ty = RXATTRCREATE) then mret Rm.XattrCreate
  else if decide (ty = RREADDIR) then m ← decode; mret (Rm.Readdir m)
  else if decide (ty = RFSYNC) then mret Rm.Fsync
  else if decide (ty = RLOCK) then m ← decode; mret (Rm.Lock m)
  else if decide (ty = RGETLOCK) then m ← decode; mret (Rm.GetLock m)
  else if decide (ty = RLINK) then mret Rm.Link
  else if decide (ty = RMKDIR) then m ← decode; mret (Rm.Mkdir m)
  else if decide (ty = RRENAMEAT) then mret Rm.RenameAt
  else if decide (ty = RUNLINKAT) then mret Rm.UnlinkAt
  else if decide (ty = RLERROR) then m ← decode; mret (Rm.Lerror m)
  else throw (io_error_new ErrorKind.InvalidData).
#[global] Instance Rmessage_message : Message Rmessage := {|
  msg_size := Rmessage_size; msg_type := Rmessage_type;
  msg_encode := Rmessage_encode; msg_decode := Rmessage_decode;
|}.

(** The header of a frame: its size, its type and its tag. *)
Definition FRAME_HEADER_SIZE : Z := 4 + 1 + 2.

Record Tframe := { Tframe_tag : u16; Tframe_msg : Tmessage }.
Record Rframe := { Rframe_tag : u16; Rframe_msg : Rmessage }.

(** What the two frames have in common. *)
Definition frame_byte_size {Msg} `{!Message Msg} (m : Msg) : Z := u32_add FRAME_HEADER_SIZE (msg_size m).
Definition frame_encode {Msg} `{!Message Msg} (tag : u16) (m : Msg) : Writer unit :=
  encode (frame_byte_size m : u32);;
  encode (msg_type m : u8);;
  encode tag;;
  msg_encode m.
Definition frame_body {Msg} `{!Message Msg} : Reader (u16 * Msg) :=
  buf ← read_exact 1;
  ty ← lift (index buf 0);
  tag ← (decode : Reader u16);
  msg ← msg_decode ty;
  mret (tag, msg).

#[global] Instance Tframe_wire : WireFormat Tframe := {|
  byte_size f := frame_byte_size (Tframe_msg f);
  encode f := frame_encode (Tframe_tag f) (Tframe_msg f);
  decode :=
    (byte_size ← (decode : Reader u32);
     if decide (byte_size < 4)%Z then throw (io_error_new ErrorKind.InvalidData)
     else
       r ← with_take (Z.to_nat (byte_size - 4)) frame_body;
       mret {| Tframe_tag := r.1; Tframe_msg := r.2 |});
|}.
#[global] Instance Rframe_wire : WireFormat Rframe := {|
  byte_size f := frame_byte_size (Rframe_msg f);
  encode f := frame_encode (Rframe_tag f) (Rframe_msg f);
  decode :=
    (byte_size ← (decode : Reader u32);
     r ← with_take (Z.to_nat (word_cast 32 (byte_size - 4))) frame_body;
     mret {| Rframe_tag := r.1; Rframe_msg := r.2 |});
|}.

(** ** Theorems *)

Class MessageLaws (Msg : Type) `{!Message Msg, !Valid Msg} := {
  message_type (m : Msg) : is_word 8 (msg_type m);
  message_written (m : Msg) : valid m → ∃ bs,
    bytes_ok bs ∧ msg_size m = word_cast 32 (Z.of_nat (length bs)) ∧
    (∀ w, msg_encode m w = (Ok tt, w ++ bs)) ∧
    (∀ rest, msg_decode (msg_type m) (bs ++ rest) = (Ok m, rest));
  message_typed ty : reads_typed (msg_decode ty : Reader Msg) valid;
}.

#[global] Instance Tmessage_valid : Valid Tmessage := λ m,
  match m with
  | Tm.Version m => valid m
  | Tm.Flush m => valid m
  | Tm.Walk m => valid m
  | Tm.Read m => valid m
  | Tm.Write m => valid m
  | Tm.Clunk m => valid m
  | Tm.Remove m => valid m
  | Tm.Attach m => valid m
  | Tm.Auth m => valid m
  | Tm.Statfs m => valid m
  | Tm.Lopen m => valid m
  | Tm.Lcreate m => valid m
  | Tm.Symlink m => valid m
  | Tm.Mknod m => valid m
  | Tm.Rename m => valid m
  | Tm.Readlink m => valid m
  | Tm.GetAttr m => valid m
  | Tm.SetAttr m => valid m
  | Tm.XattrWalk m => valid m
  | Tm.XattrCreate m => valid m
  | Tm.Readdir m => valid m
  | Tm.Fsync m => valid m
  | Tm.Lock m => valid m
  | Tm.GetLock m => valid m
  | Tm.Link m => valid m
  | Tm.Mkdir m => valid m
  | Tm.RenameAt m => valid m
  | Tm.UnlinkAt m => valid m
  end.
#[global] Instance Rmessage_valid : Valid Rmessage := λ m,
  match m with
  | Rm.Version m => valid m
  | Rm.Flush => True
  | Rm.Walk m => valid m
  | Rm.Read m => valid m
  | Rm.Write m => valid m
  | Rm.Clunk => True
  | Rm.Remove => True
  | Rm.Attach m => valid m
  | Rm.Auth m => valid m
  | Rm.Statfs m => valid m
  | Rm.Lopen m => valid m
  | Rm.Lcreate m => valid m
  | Rm.Symlink m => valid m
  | Rm.Mknod m => valid m
  | Rm.Rename => True
  | Rm.Readlink m => valid m
  | Rm.GetAttr m => valid m
  | Rm.SetAttr => True
  | Rm.XattrWalk m => valid m
  | Rm.XattrCreate => True
  | Rm.Readdir m => valid m
  | Rm.Fsync => True
  | Rm.Lock m => valid m
  | Rm.GetLock m => valid m
  | Rm.Link => True
  | Rm.Mkdir m => valid m
  | Rm.RenameAt => True
  | Rm.UnlinkAt => True
  | Rm.Lerror m => valid m
  end.

(** The choice of a message type, for a type that is known. *)
Ltac known_type := repeat (rewrite decide_False by (vm_compute; discriminate)); rewrite decide_True by reflexivity.
Ltac message_written_tac :=
  match goal with
  | Hm : valid (_ ?m) |- _ =>
    let bs := fresh in
    destruct (written_back m Hm) as (bs & Hbs); exists bs; pose proof Hbs as (? & ? & ? & _);
    split; [done|split; [done|split; [done|]]];
    intros rest; known_type; by rewrite (counted_decode _ _ _ _ Hbs)
  | |- _ => exists []; split; [constructor|split; [done|split; [intros w; by rewrite app_nil_r|]]];
      intros rest; by known_type
  end.
Ltac message_typed_tac :=
  repeat (case_decide; [first [by apply typed_ret|eapply typed_bind; [apply decode_typed|]; intros m Hm; by apply typed_ret]|]);
  apply typed_throw.

#[global] Instance Tmessage_laws : MessageLaws Tmessage.
Proof.
  split.
  - intros m. split; destruct m; vm_compute; congruence.
  - intros m Hm. destruct m; cbv [msg_decode msg_type msg_size msg_encode Tmessage_message Tmessage_type Tmessage_size Tmessage_encode Tmessage_decode];
      message_written_tac.
  - intros ty. cbv [msg_decode Tmessage_message Tmessage_decode]. message_typed_tac.
Qed.
#[global] Instance Rmessage_laws : MessageLaws Rmessage.
Proof.
  split.
  - intros m. split; destruct m; vm_compute; congruence.
  - intros m Hm. destruct m; cbv [msg_decode msg_type msg_size msg_encode Rmessage_message Rmessage_type Rmessage_size Rmessage_encode Rmessage_decode];
      message_written_tac.
  - intros ty. cbv [msg_decode Rmessage_message Rmessage_decode]. message_typed_tac.
Qed.

#[global] Instance Tframe_valid : Valid Tframe := λ f, valid (Tframe_tag f) ∧ valid (Tframe_msg f).
#[global] Instance Rframe_valid : Valid Rframe := λ f, valid (Rframe_tag f) ∧ valid (Rframe_msg f).

Section frames.
Context {Msg : Type} `{!Message Msg, !Valid Msg, !MessageLaws Msg}.

Lemma frame_size_word (m : Msg) : is_word 32 (frame_byte_size m).
Proof. unfold frame_byte_size, u32_add. auto with words. Qed.

(** A frame is its size, written in four bytes, and a body; the body is read back. *)
Lemma frame_written (tag : u16) (m : Msg) : valid tag → valid m → ∃ body,
  bytes_ok body ∧ frame_byte_size m = word_cast 32 (4 + Z.of_nat (length body)) ∧
  (∀ w, frame_encode tag m w = (Ok tt, w ++ uint_encode 4 (frame_byte_size m) ++ body)) ∧
  frame_body body = (Ok (tag, m), []).
Proof.
  intros Ht Hm. destruct (message_written m Hm) as (bs & Hok & Hs & He & Hd).
  pose proof (uint_written 4 _ (frame_size_word m)) as (_ & _ & Hes & _).
  pose proof (uint_written 1 _ (message_type m)) as (Hok1 & _ & He1 & _).
  assert (encodes tag (uint_encode 2 tag)) as Htag by apply (uint_written 2 tag Ht).
  pose proof Htag as (Hok2 & _ & He2 & _).
  exists (uint_encode 1 (msg_type m) ++ uint_encode 2 tag ++ bs). split; [by rewrite !Forall_app|].
  split; [|split].
  - unfold frame_byte_size, FRAME_HEADER_SIZE. rewrite Hs. change (4 + 1 + 2)%Z with (word_cast 32 7).
    rewrite u32_add_cast, !length_app, !(proj2 (uint_encode_ok _ _)). f_equal. lia.
  - intros w. unfold frame_encode, mbind, M_bind. unfold u32_wire, u8_wire.
    rewrite Hes, He1, He2, He. by rewrite <- !(assoc (++)).
  - assert (uint_encode 1 (msg_type m) = [msg_type m]) as ->.
    { unfold uint_encode. cbn [seq fmap list_fmap]. rewrite Z.shiftr_0_r, word_cast_small; [done|done|].
      apply message_type. }
    unfold frame_body. rewrite <- (app_nil_r bs). unfold mbind at 1, M_bind at 1.
    unfold read_exact. cbn [app length]. rewrite decide_True by lia. cbn [take drop]. unfold mbind at 1, M_bind at 1. unfold lift, index.
    rewrite take_0, drop_0. cbn [lookup list_lookup unwrap]. rewrite (counted_decode _ _ _ _ Htag). unfold mbind, M_bind. by rewrite Hd.
Qed.

Lemma frame_body_typed : reads_typed frame_body (λ r : u16 * Msg, valid r.1 ∧ valid r.2).
Proof.
  eapply typed_bind; [apply typed_read_exact|]. intros buf [Hok Hlen].
  destruct buf as [|ty [|]]; try done. eapply (typed_bind _ _ (λ _, True)).
  { intros r Hr. unfold wp, lift, index. simpl. done. }
  intros t _. eapply typed_bind; [apply (decode_typed (T := u16))|]. intros tag Htag.
  eapply typed_bind; [apply message_typed|]. intros m Hm. by apply typed_ret.
Qed.
End frames.

(** What a format promises of a value that may be too large for its size: it is written, and when
    the bytes can be counted in 32 bits, the size is announced and the value is read back. *)
Definition carried {T} `{!WireFormat T} (x : T) : Prop := ∃ bs,
  bytes_ok bs ∧ (∀ w, encode x w = (Ok tt, w ++ bs)) ∧
  ((Z.of_nat (length bs) < 2 ^ 32)%Z →
   byte_size x = Z.of_nat (length bs) ∧ (∀ rest, decode (bs ++ rest) = (Ok x, rest))).

(** The reading of a frame that was written, the same for both kinds. *)
Lemma frame_read_back {Msg} `{!Message Msg} (m : Msg) (tag : u16) body rest :
  frame_byte_size m = (4 + Z.of_nat (length body))%Z →
  frame_body body = (Ok (tag, m), []) →
  (decode : Reader u32) ((uint_encode 4 (frame_byte_size m) ++ body) ++ rest)
    = (Ok (frame_byte_size m), body ++ rest) ∧
  with_take (Z.to_nat (frame_byte_size m - 4)) frame_body (body ++ rest) = (Ok (tag, m), rest).
Proof.
  intros Hs Hb. split.
  - rewrite <- app_assoc. pose proof (uint_written 4 _ (frame_size_word m)) as (_ & _ & _ & Hd). apply Hd.
  - apply with_take_long; [lia|done].
Qed.

(** A frame that was written is read back, whatever the format does with the size that it read. *)
Lemma frame_carried {Msg} `{!Message Msg, !Valid Msg, !MessageLaws Msg} (tag : u16) (m : Msg) : valid tag → valid m →
  ∃ bs, bytes_ok bs ∧ (∀ w, frame_encode tag m w = (Ok tt, w ++ bs)) ∧
    ((Z.of_nat (length bs) < 2 ^ 32)%Z → frame_byte_size m = Z.of_nat (length bs) ∧ (4 ≤ Z.of_nat (length bs))%Z ∧
      ∀ rest, ∃ r, (decode : Reader u32) (bs ++ rest) = (Ok (frame_byte_size m), r) ∧
        with_take (Z.to_nat (frame_byte_size m - 4)) frame_body r = (Ok (tag, m), rest)).
Proof.
  intros Ht Hm. destruct (frame_written tag m Ht Hm) as (body & Hok & Hs & He & Hd).
  exists (uint_encode 4 (frame_byte_size m) ++ body). split; [apply Forall_app; split; [apply uint_encode_ok|done]|split; [apply He|]].
  rewrite length_app, (proj2 (uint_encode_ok _ _)). intros Hlt. rewrite word_cast_small in Hs by (unfold is_word; lia).
  split; [etrans; [exact Hs|lia]|]. split; [lia|]. intros rest. exists (body ++ rest). by apply frame_read_back.
Qed.
Lemma Tframe_carried (f : Tframe) : valid f → carried f.
Proof.
  destruct f as [tag m]. intros [Ht Hm]. destruct (frame_carried tag m Ht Hm) as (bs & Hok & He & Hd).
  exists bs. split; [done|]. split; [exact He|]. intros Hlt. destruct (Hd Hlt) as (Hs & H4 & Hr). split; [exact Hs|].
  intros rest. destruct (Hr rest) as (r & Hr1 & Hr2). cbn [decode Tframe_wire]. unfold mbind, M_bind. rewrite Hr1.
  rewrite decide_False by (cbn [Tframe_msg] in *; lia). by rewrite Hr2.
Qed.
Lemma Rframe_carried (f : Rframe) : valid f → carried f.
Proof.
  destruct f as [tag m]. intros [Ht Hm]. destruct (frame_carried tag m Ht Hm) as (bs & Hok & He & Hd).
  exists bs. split; [done|]. split; [exact He|]. intros Hlt. destruct (Hd Hlt) as (Hs & H4 & Hr). split; [exact Hs|].
  intros rest. destruct (Hr rest) as (r & Hr1 & Hr2). cbn [decode Rframe_wire]. unfold mbind, M_bind. rewrite Hr1.
  rewrite word_cast_small by (unfold is_word; lia). by rewrite Hr2.
Qed.

(** C19: Frames survive the wire.  A request or an answer whose fields are values of their types
    (words, strings of at most 65535 bytes, vectors of at most 65535 elements, data of at most 32
    MiB) is written without an error; when the frame is shorter than 4 GiB, the size it announces
    is the number of bytes written, and reading them, whatever follows, gives back the same tag and
    message and leaves what follows. *)
Theorem frames_roundtrip :
  (∀ f : Tframe, valid f → carried f) ∧ (∀ f : Rframe, valid f → carried f).
Proof. split; [exact Tframe_carried|exact Rframe_carried]. Qed.

Definition example_walk : Tframe := {|
  Tframe_tag := 7; Tframe_msg := Tm.Walk {| Twalk_fid := 1; Twalk_newfid := 2; Twalk_wnames := [[101; 116; 99]; [104]] |}
|}%Z.
Lemma frames_roundtrip_witness : carried example_walk.
Proof.
  apply (proj1 frames_roundtrip). repeat split; try (vm_compute; congruence).
  all: repeat constructor; vm_compute; congruence.
Defined.

Lemma Tframe_typed : reads_typed (decode : Reader Tframe) valid.
Proof.
  eapply typed_bind; [apply (decode_typed (T := u32))|]. intros size Hsize.
  case_decide; [apply typed_throw|].
  eapply typed_bind; [apply typed_with_take, frame_body_typed|]. intros r Hr. by apply typed_ret.
Qed.
Lemma Rframe_typed : reads_typed (decode : Reader Rframe) valid.
Proof.
  eapply typed_bind; [apply (decode_typed (T := u32))|]. intros size Hsize.
  eapply typed_bind; [apply typed_with_take, frame_body_typed|]. intros r Hr. by apply typed_ret.
Qed.

(** Reading a request takes no byte beyond the size that it announces. *)
Lemma Tframe_within r : bytes_ok r → 4 ≤ length r →
  drop (Z.to_nat (Z.max 4 (uint_decode 4 (take 4 r)))) r `suffix_of` ((decode : Reader Tframe) r).2.
Proof.
  intros Hr Hlen. set (size := uint_decode 4 (take 4 r)).
  assert ((decode : Reader u32) r = (Ok size, drop 4 r)) as Hd.
  { unfold decode, u32_wire, uint_wire_format, mbind, M_bind, read_exact. by rewrite decide_True. }
  cbn [decode Tframe_wire]. unfold mbind, M_bind. rewrite Hd. case_decide as Hs.
  - unfold throw. simpl. rewrite Z.max_l by lia. done.
  - rewrite Z.max_r by lia. unfold with_take.
    replace (Z.to_nat size) with (4 + Z.to_nat (size - 4)) by lia. rewrite <- drop_drop.
    destruct (frame_body _) as [[] ?]; apply suffix_app_r; exists []; done.
Qed.

(** C38: Reading is typed.  Whatever bytes arrive, reading a request or an answer does not panic: it
    gives a frame whose fields are all values of their types (UTF-8 strings, bounded data, words),
    or an error, and it takes bytes from the front of the stream only; of a request, none beyond the
    size that it announces. *)
Theorem frames_typed :
  reads_typed (decode : Reader Tframe) valid ∧ reads_typed (decode : Reader Rframe) valid ∧
  ∀ r, bytes_ok r → 4 ≤ length r →
    drop (Z.to_nat (Z.max 4 (uint_decode 4 (take 4 r)))) r `suffix_of` ((decode : Reader Tframe) r).2.
Proof. split; [apply Tframe_typed|]. split; [apply Rframe_typed|apply Tframe_within]. Qed.

(** A frame of eight bytes, whose type is unknown: the error is found after seven of them. *)
Definition unknown_frame : list Z := [8; 0; 0; 0; 255; 1; 0; 9]%Z.
Lemma frames_typed_witness :
  (decode : Reader Tframe) unknown_frame = (Err (io_error_new ErrorKind.InvalidData), [9%Z]) ∧
  drop 8 unknown_frame `suffix_of` ((decode : Reader Tframe) unknown_frame).2.
Proof.
  split; [reflexivity|]. apply (proj2 (proj2 frames_typed) unknown_frame); [|simpl; lia].
  repeat constructor; vm_compute; congruence.
Defined.
