(* ===== verification/P9Path.v ===== *)
(** * P9Path: paths

    What the 9P server uses of [std::path] on Unix: a path is a string of bytes, seen as a list of
    components; [Path::components], [PathBuf::push] and [PathBuf::pop], and [join_path] of
    [framework/9p/crosvm-9p-server/src/lib.rs], which the server uses to follow a name that a
    client gives.

    Then: [join_path] never leaves the root: a path that is the root followed by ordinary names stays
    one. *)

From S2P Require Import Prelude.
From S2P Require Import P9Wire.

Abbreviation Path := (list Z).
Definition SLASH : Z := 47.
Definition DOT : Z := 46.

Inductive Component := Prefix (s : list Z) | RootDir | CurDir | ParentDir | Normal (s : list Z).
#[global] Instance Component_eq_dec : EqDecision Component.
Proof. solve_decision. Defined.

(** ** [Path::components]

    The pieces between separators: empty ones and those that are a dot are no components, except
    for a leading dot; a leading separator is the root. *)
Fixpoint pieces (p : Path) : list (list Z) :=
  match p with
  | [] => [[]]
  | b :: p' =>
    if decide (b = SLASH) then [] :: pieces p'
    else match pieces p' with [] => [[b]] | q :: qs => (b :: q) :: qs end
  end.

Definition piece_component (q : list Z) : option Component :=
  if decide (q = []) then None
  else if decide (q = [DOT]) then None
  else if decide (q = [DOT; DOT]) then Some ParentDir
  else Some (Normal q).

Definition head_component (q : list Z) (qs : list (list Z)) : list Component :=
  if decide (q = []) then (if decide (qs = []) then [] else [RootDir])
  else if decide (q = [DOT]) then [CurDir]
  else omap piece_component [q].

Definition components (p : Path) : list Component :=
  match pieces p with
  | [] => []
  | q :: qs => head_component q qs ++ omap piece_component qs
  end.

(** Equality of paths, and [Path::starts_with]. *)
Definition path_eqb (p q : Path) : bool := bool_decide (components p = components q).
Definition path_starts_with (p q : Path) : Prop := components q `prefix_of` components p.

(** ** [PathBuf::push] and [PathBuf::pop] *)
Definition has_root (p : Path) : bool :=
  match p with b :: _ => bool_decide (b = SLASH) | [] => false end.

Definition push (buf p : Path) : Path :=
  if has_root p then p
  else match last buf with
       | Some b => if decide (b = SLASH) then buf ++ p else buf ++ [SLASH] ++ p
       | None => p
       end.

Fixpoint path_join (qs : list (list Z)) : Path :=
  match qs with
  | [] => []
  | [q] => q
  | q :: qs' => q ++ [SLASH] ++ path_join qs'
  end.

(** The pieces at the front that are no components. *)
Fixpoint drop_empty (qs : list (list Z)) : list (list Z) :=
  match qs with
  | [] => []
  | q :: qs' => match piece_component q with None => drop_empty qs' | Some _ => qs end
  end.

(** The last component is cut off, with the separators before it. *)
Definition parent (p : Path) : option Path :=
  match pieces p with
  | [] => None
  | q :: qs =>
    if has_root p then
      match drop_empty (reverse qs) with
      | [] => None
      | _ :: rest => Some (SLASH :: path_join (reverse (drop_empty rest)))
      end
    else if decide (q = [DOT]) then
      match drop_empty (reverse qs) with
      | [] => Some []
      | _ :: rest => Some (path_join (q :: reverse (drop_empty rest)))
      end
    else
      match drop_empty (reverse (q :: qs)) with
      | [] => None
      | _ :: rest => Some (path_join (reverse (drop_empty rest)))
      end
  end.
Definition pop (p : Path) : Path := default p (parent p).

(** ** [join_path]

    The assertion that the path starts with the root is checked in debug builds only;
    [join_path_under] shows that it holds. *)
Definition join_component (EINVAL : Z) (root buf : Path) (c : Component) : outcome io_error Path :=
  match c with
  | Prefix _ | RootDir | CurDir => Err (from_raw_os_error EINVAL)
  | ParentDir => Ok (if path_eqb buf root then buf else pop buf)
  | Normal element => Ok (push buf element)
  end.
Fixpoint join_components (EINVAL : Z) (root buf : Path) (cs : list Component) : outcome io_error Path :=
  match cs with
  | [] => Ok buf
  | c :: cs' => buf' ← join_component EINVAL root buf c; join_components EINVAL root buf' cs'
  end.
Definition join_path (EINVAL : Z) (buf path root : Path) : outcome io_error Path :=
  if decide (1 < length (components path)) then Err (from_raw_os_error EINVAL)
  else join_components EINVAL root buf (components path).

Example components_ex : components [47; 97; 47; 47; 46; 47; 98; 47; 46; 46]%Z
  = [RootDir; Normal [97]; Normal [98]; ParentDir]%Z.
Proof. reflexivity. Qed.
Example pop_ex : pop [47; 97; 47; 47; 98; 47]%Z = [47; 97]%Z ∧ pop [47; 97]%Z = [47]%Z ∧ pop [97]%Z = [].
Proof. done. Qed.

(** ** Lemmas *)

Definition no_slash (q : list Z) : Prop := SLASH ∉ q.

(** An ordinary name. *)
Definition normal_name (q : list Z) : Prop := no_slash q ∧ piece_component q = Some (Normal q).

Lemma pieces_cons p : ∃ q qs, pieces p = q :: qs.
Proof. induction p as [|b p IH]; simpl; [eauto|]. case_decide; [eauto|]. destruct (pieces p); eauto. Qed.

Lemma pieces_no_slash p : Forall no_slash (pieces p).
Proof.
  induction p as [|b p IH]; simpl.
  - repeat constructor. unfold no_slash. set_solver.
  - case_decide as Hb.
    + constructor; [unfold no_slash; set_solver|done].
    + destruct (pieces p) as [|q qs]; [repeat constructor; unfold no_slash; set_solver|].
      apply Forall_cons in IH as [Hq Hqs]. constructor; [unfold no_slash in *; set_solver|done].
Qed.

Lemma pieces_single q : no_slash q → pieces q = [q].
Proof.
  unfold no_slash. induction q as [|b q IH]; intros Hq; [done|]. simpl.
  rewrite decide_False by set_solver. by rewrite IH by set_solver.
Qed.
Lemma pieces_app p q : pieces (p ++ SLASH :: q) = pieces p ++ pieces q.
Proof.
  induction p as [|b p IH]; simpl; [done|]. case_decide; [by rewrite IH|].
  rewrite IH. destruct (pieces_cons p) as (q' & qs & ->). done.
Qed.
Lemma pieces_join qs : qs ≠ [] → Forall no_slash qs → pieces (path_join qs) = qs.
Proof.
  induction qs as [|q [|q' qs] IH]; intros Hne Hf; [done| |].
  - apply Forall_cons in Hf as [Hq _]. by apply pieces_single.
  - apply Forall_cons in Hf as [Hq Hqs]. change (path_join (q :: q' :: qs)) with (q ++ SLASH :: path_join (q' :: qs)).
    rewrite pieces_app, pieces_single, IH by done. done.
Qed.

Lemma has_root_pieces p q qs : pieces p = q :: qs → has_root p = bool_decide (q = [] ∧ qs ≠ []).
Proof.
  destruct p as [|b p]; simpl.
  - intros [= <- <-]. by rewrite bool_decide_eq_false_2 by naive_solver.
  - destruct (pieces_cons p) as (q' & qs' & Hp). rewrite Hp. case_decide as Hb; intros [= <- <-].
    + rewrite !bool_decide_eq_true_2; done.
    + rewrite !bool_decide_eq_false_2; naive_solver.
Qed.

Lemma components_eq p q qs : pieces p = q :: qs → components p = head_component q qs ++ omap piece_component qs.
Proof. unfold components. by intros ->. Qed.
Lemma head_plain q qs : q ≠ [] → q ≠ [DOT] → head_component q qs = omap piece_component [q].
Proof. intros. unfold head_component. by rewrite !decide_False. Qed.

Lemma head_nonempty q qs qs' : qs ≠ [] → qs' ≠ [] → head_component q qs = head_component q qs'.
Proof. intros. unfold head_component. by rewrite (decide_False (P := qs = [])), (decide_False (P := qs' = [])). Qed.

Lemma normal_name_not_root q : normal_name q → has_root q = false ∧ q ≠ [] ∧ q ≠ [DOT].
Proof.
  intros [Hs Hc]. unfold piece_component in Hc. repeat case_decide; try done.
  destruct q as [|b q]; [done|]. simpl. rewrite bool_decide_eq_false_2; [done|].
  intros ->. apply Hs. by constructor.
Qed.

Lemma components_push buf q : normal_name q → components (push buf q) = components buf ++ [Normal q].
Proof.
  intros Hn. destruct (normal_name_not_root q Hn) as (Hr & Hne & Hd). destruct Hn as [Hs Hc].
  unfold push. rewrite Hr.
  assert (∀ p, components (p ++ SLASH :: q) = components (p ++ [SLASH]) ++ [Normal q]) as Hsl.
  { intros p. destruct (pieces_cons p) as (q' & qs & Hp). unfold components.
    rewrite !pieces_app, Hp, (pieces_single q) by done. cbn [app pieces].
    rewrite !omap_app, (head_nonempty q' (qs ++ [q]) (qs ++ [[]])) by (by destruct qs).
    rewrite <- !(assoc (++)). do 2 f_equal. simpl. by rewrite Hc. }
  destruct (last buf) as [b|] eqn:Hb.
  - apply last_Some in Hb as [p ->]. case_decide as Hsb.
    + subst b. rewrite <- (assoc (++)). apply Hsl.
    + change ([SLASH] ++ q) with (SLASH :: q). rewrite Hsl. f_equal. unfold components.
      change [SLASH] with (SLASH :: []). rewrite pieces_app. simpl.
      destruct (pieces_cons (p ++ [b])) as (q' & qs & Hp). rewrite Hp. simpl.
      rewrite omap_app. simpl. rewrite app_nil_r. f_equal. unfold head_component.
      case_decide as Hq'; [|done]. subst q'. rewrite decide_False by by destruct qs.
      rewrite decide_False; [done|]. intros ->.
      destruct p as [|c p]; simpl in Hp; [by rewrite decide_False in Hp|].
      case_decide; [destruct (pieces_cons (p ++ [b])) as (?&?&?); congruence|].
      destruct (pieces_cons (p ++ [b])) as (?&?&Hp'). rewrite Hp' in Hp. congruence.
  - apply last_None in Hb as ->. unfold components. rewrite (pieces_single q) by done. simpl.
    rewrite head_plain by done. simpl. by rewrite Hc.
Qed.

(** What is left when the pieces at the end that are no components are dropped. *)
Lemma drop_empty_omap qs : omap piece_component (reverse (drop_empty qs)) = omap piece_component (reverse qs).
Proof.
  induction qs as [|q qs IH]; [done|]. simpl. destruct (piece_component q) eqn:Hq; [done|].
  rewrite IH, reverse_cons, omap_app. simpl. by rewrite Hq, app_nil_r.
Qed.
Lemma drop_empty_Forall (P : list Z → Prop) qs : Forall P qs → Forall P (drop_empty qs).
Proof. induction 1 as [|q qs Hq Hqs IH]; simpl; [done|]. destruct (piece_component q); [by constructor|done]. Qed.
Lemma drop_empty_prefix qs : reverse (drop_empty qs) `prefix_of` reverse qs.
Proof.
  induction qs as [|q qs IH]; simpl; [done|]. destruct (piece_component q); [done|].
  rewrite reverse_cons. by apply prefix_app_r.
Qed.

(** The last component, as a piece. *)
Lemma drop_empty_last qs cs c : omap piece_component qs = cs ++ [c] →
  ∃ q rest, drop_empty (reverse qs) = q :: rest ∧ omap piece_component (reverse (drop_empty rest)) = cs.
Proof.
  intros Ho. rewrite <- (reverse_involutive qs) in Ho. generalize dependent (reverse qs). clear qs.
  induction l as [|q qs IH]; simpl; [by destruct cs|]. intros Ho.
  rewrite reverse_cons, omap_app in Ho. simpl in Ho. destruct (piece_component q) as [c'|] eqn:Hq.
  - exists q, qs. rewrite drop_empty_omap. split; [done|]. by apply app_inj_tail in Ho as [-> _].
  - rewrite app_nil_r in Ho. by apply IH.
Qed.

Lemma components_join_tail q rest : no_slash q → Forall no_slash rest → q ≠ [] →
  components (path_join (q :: rest)) = head_component q rest ++ omap piece_component rest.
Proof. intros Hq Hr Hne. apply components_eq, pieces_join; [done|by constructor]. Qed.

Lemma components_pop_root rest : Forall no_slash rest →
  components (SLASH :: path_join rest) = RootDir :: omap piece_component rest.
Proof.
  intros Hr. unfold components. cbn [pieces]. rewrite decide_True by done.
  destruct rest as [|q rest]; [done|]. by rewrite pieces_join.
Qed.

Lemma components_pop p cs c : components p = cs ++ [c] → c ≠ RootDir → c ≠ CurDir → components (pop p) = cs.
Proof.
  intros Hp Hroot Hcur. destruct (pieces_cons p) as (q & qs & Hq).
  pose proof (pieces_no_slash p) as Hns. rewrite Hq in Hns. pose proof Hns as [Hnq Hnqs]%Forall_cons.
  rewrite (components_eq _ _ _ Hq) in Hp. unfold pop, parent. rewrite Hq, (has_root_pieces _ _ _ Hq).
  assert (∀ l q' rest, Forall no_slash l → drop_empty (reverse l) = q' :: rest →
    Forall no_slash (reverse (drop_empty rest))) as Hrest.
  { intros l q' rest Hl Hd. apply Forall_reverse, drop_empty_Forall.
    apply (Forall_inv_tail (a := q')). rewrite <- Hd. by apply drop_empty_Forall, Forall_reverse. }
  unfold head_component in Hp. case_bool_decide as Hr.
  { destruct Hr as [-> Hqs]. rewrite decide_True, decide_False in Hp by done.
    destruct cs as [|? cs]; [by injection Hp as ?; congruence|].
    injection Hp as <- Hp. destruct (drop_empty_last _ _ _ Hp) as (q' & rest & Hd & Ho).
    rewrite Hd. simpl. rewrite components_pop_root by (by eapply Hrest, Hd). by rewrite Ho. }
  destruct (decide (q = [])) as [->|Hne].
  { assert (qs = []) as -> by (destruct qs; naive_solver). by destruct cs. }
  case_decide as Hdot.
  - destruct cs as [|? cs]; [by injection Hp as ?; congruence|].
    injection Hp as <- Hp. destruct (drop_empty_last _ _ _ Hp) as (q' & rest & Hd & Ho).
    rewrite Hd. cbn [from_option]. unfold id. rewrite components_join_tail by (done || by eapply Hrest, Hd).
    rewrite Ho. unfold head_component. by rewrite decide_False, decide_True by done.
  - rewrite <- omap_app in Hp. change ([q] ++ qs) with (q :: qs) in Hp.
    destruct (drop_empty_last _ _ _ Hp) as (q' & rest & Hd & Ho). rewrite Hd. cbn [from_option]. unfold id.
    pose proof (Hrest _ _ _ Hns Hd) as Hns'.
    assert (reverse (drop_empty rest) `prefix_of` q :: qs) as [k Hk].
    { etrans; [apply drop_empty_prefix|]. rewrite <- (reverse_involutive (q :: qs)).
      etrans; [|apply drop_empty_prefix]. rewrite Hd, reverse_cons. by apply prefix_app_r. }
    destruct (reverse (drop_empty rest)) as [|q0 r0]; [by rewrite <- Ho|].
    injection Hk as <- _. apply Forall_cons in Hns' as [? ?].
    rewrite components_join_tail by done. rewrite head_plain by done. by rewrite <- omap_app.
Qed.

(** ** Staying under the root *)

(** The root followed by ordinary names. *)
Definition under (root p : Path) : Prop :=
  ∃ names, Forall normal_name names ∧ components p = components root ++ (Normal <$> names).

Lemma under_root root : under root root.
Proof. exists []. split; [done|]. by rewrite app_nil_r. Qed.
Lemma under_starts_with root p : under root p → path_starts_with p root.
Proof. unfold path_starts_with. intros (names & _ & ->). by apply prefix_app_r. Qed.

Lemma components_normal p q : Normal q ∈ components p → normal_name q.
Proof.
  destruct (pieces_cons p) as (q0 & qs & Hq). pose proof (pieces_no_slash p) as Hns.
  rewrite (components_eq _ _ _ Hq). rewrite Hq in Hns. intros Hin.
  assert (Normal q ∈ omap piece_component (q0 :: qs)) as Hin'.
  { apply elem_of_app in Hin as [Hin|Hin]; [|change (q0 :: qs) with ([q0] ++ qs); rewrite omap_app; set_solver].
    change (q0 :: qs) with ([q0] ++ qs). rewrite omap_app. apply elem_of_app. left.
    unfold head_component in Hin. repeat case_decide; set_solver. }
  apply list_elem_of_omap in Hin' as (q' & Hin' & Hc).
  rewrite Forall_forall in Hns. specialize (Hns q' Hin').
  assert (q' = q) as -> by (unfold piece_component in Hc; repeat case_decide; naive_solver). by split.
Qed.

Lemma under_pop root p : under root p → path_eqb p root = false → under root (pop p).
Proof.
  unfold path_eqb. intros (names & Hn & Hp) Hne%bool_decide_eq_false.
  destruct names as [|q names _] using rev_ind; [by rewrite app_nil_r in Hp|].
  rewrite fmap_app, (assoc (++)) in Hp. apply Forall_app in Hn as [Hn _].
  exists names. split; [done|]. by apply components_pop in Hp.
Qed.

Lemma join_path_under EINVAL root buf path buf' :
  under root buf → join_path EINVAL buf path root = Ok buf' → under root buf'.
Proof.
  unfold join_path. intros Hb. case_decide; [done|].
  assert (∀ q, Normal q ∈ components path → normal_name q) as Hn by (intros q; apply components_normal).
  revert Hb Hn. generalize (components path). intros cs. clear. revert buf.
  induction cs as [|c cs IH]; intros buf Hb Hn; [by intros [= <-]|].
  cbn [join_components]. unfold mbind, outcome_bind.
  destruct c as [| | | |q]; try done; cbn [join_component].
  - destruct (path_eqb buf root) eqn:He; intros Hj; (eapply IH; [|set_solver|done]); [done|by apply under_pop].
  - intros Hj. eapply IH; [|set_solver|done]. destruct Hb as (names & Hns & Hp).
    specialize (Hn q ltac:(set_solver)). exists (names ++ [q]).
    split; [by apply Forall_app; split; [|constructor]|].
    rewrite components_push by done. by rewrite Hp, fmap_app, (assoc (++)).
Qed.

Lemma join_path_no_panic EINVAL root buf path : join_path EINVAL buf path root ≠ Panic.
Proof.
  unfold join_path. case_decide; [done|]. generalize (components path). intros cs. revert buf.
  induction cs as [|c cs IH]; intros buf; [done|]. by destruct c; simpl.
Qed.
