(* ===== verification/P9Server.v ===== *)
(** * P9Server: the 9P server

    Model of [framework/9p/crosvm-9p-server/src/lib.rs]: a server that gives a client access to a
    directory tree of the host.  Its state is the root, the largest size of a message, and what the
    client's [Fid]s stand for.  The host's file system is the class [Fs], of which the operations of
    [std::fs] and [libc] that the server uses are the calls; the constants of [libc] are the class
    [Libc].  Dropping a file closes it; that is not represented. *)

From stdpp Require Import strings.
From S2P Require Import Prelude.
From S2P Require Import Bytes.
From S2P Require Import P9Wire.
From S2P Require Import P9Messages.
From S2P Require Import P9Path.

(** ** [libc] *)
Class Libc := {
  ENOENT : Z; EPERM : Z; ECONNREFUSED : Z; ECONNRESET : Z; ECONNABORTED : Z; ENOTCONN : Z;
  EADDRINUSE : Z; EADDRNOTAVAIL : Z; EPIPE : Z; EEXIST : Z; EWOULDBLOCK : Z; EINVAL : Z;
  ETIMEDOUT : Z; EIO : Z; EINTR : Z; EBADF : Z; EOPNOTSUPP : Z; EACCES : Z; ENOTDIR : Z; EISDIR : Z;
  O_NOCTTY : Z; O_NONBLOCK : Z; O_DSYNC : Z; O_DIRECT : Z; O_LARGEFILE : Z; O_DIRECTORY : Z;
  O_NOFOLLOW : Z; O_NOATIME : Z; O_SYNC : Z; O_CLOEXEC : Z;
  UTIME_OMIT : Z; UTIME_NOW : Z; AT_REMOVEDIR : Z; DT_DIR : Z; DT_REG : Z; DT_UNKNOWN : Z;
}.

(** ** The host's file system *)

Record Metadata := {
  is_dir : bool; is_file : bool;
  st_ino : Z; st_mode : Z; st_uid : Z; st_gid : Z; st_nlink : Z; st_rdev : Z; st_size : Z;
  st_blksize : Z; st_blocks : Z; st_atime : Z; st_atime_nsec : Z; st_mtime : Z; st_mtime_nsec : Z;
  st_ctime : Z; st_ctime_nsec : Z;
}.
Record Statfs64 := {
  f_type : Z; f_bsize : Z; f_blocks : Z; f_bfree : Z; f_bavail : Z; f_files : Z; f_ffree : Z;
  f_namelen : Z;
}.
Record OpenOptions := {
  oo_read : bool; oo_write : bool; oo_append : bool; oo_truncate : bool; oo_create : bool;
  oo_create_new : bool; oo_custom_flags : Z; oo_mode : Z;
}.
Record timespec := { tv_sec : Z; tv_nsec : Z }.
(** An open file, and an entry of a directory: the path of the directory and the name. *)
Abbreviation File := Z.
Record DirEntry := { de_dir : Path; de_name : list Z }.

Inductive FsOp : Type → Type :=
| Fs_metadata (p : Path) : FsOp Metadata
| Fs_open (o : OpenOptions) (p : Path) : FsOp File
| Fs_remove_dir (p : Path) : FsOp unit
| Fs_remove_file (p : Path) : FsOp unit
| Fs_rename (p q : Path) : FsOp unit
| Fs_hard_link (p q : Path) : FsOp unit
| Fs_create_dir (mode : Z) (p : Path) : FsOp unit
| Fs_read_dir (p : Path) : FsOp (list (DirEntry + io_error))
| Entry_metadata (e : DirEntry) : FsOp Metadata
| Libc_statfs64 (p : Path) : FsOp Statfs64
| File_metadata (f : File) : FsOp Metadata
| File_read_at (f : File) (len offset : Z) : FsOp (list Z)
| File_write_at (f : File) (bs : list Z) (offset : Z) : FsOp Z
| File_set_len (f : File) (size : Z) : FsOp unit
| File_sync_all (f : File) : FsOp unit
| File_sync_data (f : File) : FsOp unit
| Libc_futimens (f : File) (atime mtime : timespec) : FsOp unit
| Libc_fchown (f : File) (uid gid : Z) : FsOp unit.

Class Fs (K : Type) := fs_call : ∀ A, FsOp A → K → (A + io_error) * K.

(** ** Flags *)

Definition P9_WRONLY : Z := 0x1.
Definition P9_RDWR : Z := 0x2.
Definition P9_NOACCESS : Z := 0x3.
Definition P9_CREATE : Z := 0x40.
Definition P9_EXCL : Z := 0x80.
Definition P9_NOCTTY : Z := 0x100.
Definition P9_TRUNC : Z := 0x200.
Definition P9_APPEND : Z := 0x400.
Definition P9_NONBLOCK : Z := 0x800.
Definition P9_DSYNC : Z := 0x1000.
Definition P9_FASYNC : Z := 0x2000.
Definition P9_DIRECT : Z := 0x4000.
Definition P9_LARGEFILE : Z := 0x8000.
Definition P9_DIRECTORY : Z := 0x10000.
Definition P9_NOFOLLOW : Z := 0x20000.
Definition P9_NOATIME : Z := 0x40000.
Definition P9_SYNC : Z := 0x100000.

Definition MAPPED_FLAGS `{!Libc} : list (Z * Z) :=
  [(P9_NOCTTY, O_NOCTTY); (P9_NONBLOCK, O_NONBLOCK); (P9_DSYNC, O_DSYNC); (P9_FASYNC, 0%Z);
   (P9_DIRECT, O_DIRECT); (P9_LARGEFILE, O_LARGEFILE); (P9_DIRECTORY, O_DIRECTORY);
   (P9_NOFOLLOW, O_NOFOLLOW); (P9_NOATIME, O_NOATIME); (P9_SYNC, O_SYNC)].

Definition P9_QTDIR : Z := 0x80.
Definition P9_QTFILE : Z := 0x00.
Definition P9_GETATTR_BASIC : Z := 0x7ff.

Definition P9_SETATTR_MODE : Z := 0x1.
Definition P9_SETATTR_UID : Z := 0x2.
Definition P9_SETATTR_GID : Z := 0x4.
Definition P9_SETATTR_SIZE : Z := 0x8.
Definition P9_SETATTR_ATIME : Z := 0x10.
Definition P9_SETATTR_MTIME : Z := 0x20.
Definition P9_SETATTR_CTIME : Z := 0x40.
Definition P9_SETATTR_ATIME_SET : Z := 0x80.
Definition P9_SETATTR_MTIME_SET : Z := 0x100.

Definition MIN_MESSAGE_SIZE : Z := 256.
Definition MAX_MESSAGE_SIZE : Z := 65535.

(** [x & m != 0]. *)
Definition has_flag (x m : Z) : bool := negb (Z.land x m =? 0)%Z.
(** [x as i64]. *)
Definition i64_cast (z : Z) : Z := let z := word_cast 64 z in if (z <? 2 ^ 63)%Z then z else (z - 2 ^ 64)%Z.

(** ** State *)

Record Fid := {
  fid_path : Path;
  fid_metadata : Metadata;
  fid_file : option File;
  fid_dirents : option (list Dirent);
}.
Record Server (K : Type) := {
  root : Path;
  msize : Z;
  fids : gmap Z Fid;
  fs : K;
}.
Arguments root {K} _.
Arguments msize {K} _.
Arguments fids {K} _.
Arguments fs {K} _.

Definition metadata_to_qid (md : Metadata) : Qid := {|
  Qid_ty := if is_dir md then P9_QTDIR else if is_file md then P9_QTFILE else 0%Z;
  Qid_version := word_cast 32 (st_mtime md);
  Qid_path := st_ino md;
|}.

Section server.
Context `{!Libc} {K : Type} `{!Fs K}.
Abbreviation SM := (M (Server K) io_error).

Definition error_to_errno (e : io_error) : Z :=
  match e with
  | from_raw_os_error errno => errno
  | io_error_new kind =>
    match kind with
    | ErrorKind.NotFound => ENOENT
    | ErrorKind.PermissionDenied => EPERM
    | ErrorKind.ConnectionRefused => ECONNREFUSED
    | ErrorKind.ConnectionReset => ECONNRESET
    | ErrorKind.ConnectionAborted => ECONNABORTED
    | ErrorKind.NotConnected => ENOTCONN
    | ErrorKind.AddrInUse => EADDRINUSE
    | ErrorKind.AddrNotAvailable => EADDRNOTAVAIL
    | ErrorKind.BrokenPipe => EPIPE
    | ErrorKind.AlreadyExists => EEXIST
    | ErrorKind.WouldBlock => EWOULDBLOCK
    | ErrorKind.InvalidInput => EINVAL
    | ErrorKind.InvalidData => EINVAL
    | ErrorKind.TimedOut => ETIMEDOUT
    | ErrorKind.WriteZero => EIO
    | ErrorKind.Interrupted => EINTR
    | ErrorKind.Other => EIO
    | ErrorKind.UnexpectedEof => EIO
    | ErrorKind.Uncategorized => EIO
    end
  end.
Definition error_to_rmessage (e : io_error) : Rmessage :=
  Rm.Lerror {| Rlerror_ecode := word_cast 32 (error_to_errno e) |}.

(** ** Helpers *)

Definition with_fids (f : gmap Z Fid → gmap Z Fid) (s : Server K) : Server K :=
  {| root := root s; msize := msize s; fids := f (fids s); fs := fs s |}.
Definition with_msize (n : Z) (s : Server K) : Server K :=
  {| root := root s; msize := n; fids := fids s; fs := fs s |}.
Definition with_fs (k : K) (s : Server K) : Server K :=
  {| root := root s; msize := msize s; fids := fids s; fs := k |}.

Definition of_sum {A} (r : A + io_error) : outcome io_error A :=
  match r with inl a => Ok a | inr e => Err e end.
Definition fs_do {A} (op : FsOp A) : SM A := λ s,
  let '(r, k) := fs_call A op (fs s) in (of_sum r, with_fs k s).

(** [Err(e)?] with a number, and [o.ok_or_else(..)?]. *)
Definition os_error {A} (errno : Z) : SM A := throw (from_raw_os_error errno).
Definition ok_or {A} (errno : Z) (o : option A) : SM A :=
  match o with Some a => mret a | None => os_error errno end.
(** [self.fids.get(&n).ok_or_else(..)?]. *)
Definition get_fid (errno n : Z) : SM Fid := o ← gets (λ s, fids s !! n); ok_or errno o.
Definition get_file (n : Z) : SM File :=
  o ← gets (λ s, fids s !! n ≫= fid_file); ok_or EBADF o.
Definition put_fid (n : Z) (f : Fid) : SM unit := modify (with_fids (insert n f)).
Definition do_join_path (buf path : Path) : SM Path :=
  r ← gets root; lift (join_path EINVAL buf path r).

(** An error as a value. *)
Definition attempt {A} (m : SM A) : SM (outcome io_error A) := λ s,
  match m s with
  | (Panic, s') => (Panic, s')
  | (o, s') => (Ok o, s')
  end.

Definition new (r : Path) (k : K) : Server K :=
  {| root := r; msize := MAX_MESSAGE_SIZE; fids := ∅; fs := k |}.

(** ** Requests *)

Definition auth (_ : Tauth) : SM Rauth := os_error EOPNOTSUPP.

Definition attach (t : Tattach) : SM Rattach :=
  o ← gets (λ s, fids s !! (Tattach_fid t : Z));
  match o with
  | None =>
    r ← gets root;
    md ← fs_do (Fs_metadata r);
    put_fid (Tattach_fid t)
      {| fid_path := r; fid_metadata := md; fid_file := None; fid_dirents := None |};;
    mret {| Rattach_qid := metadata_to_qid md |}
  | Some _ => os_error EBADF
  end.

Definition VERSION_9P2000_L : RString := bytes_of_string "9P2000.L".

Definition version (t : Tversion) : SM Rversion :=
  if (Tversion_msize t <? MIN_MESSAGE_SIZE)%Z then os_error EINVAL
  else
    modify (with_fids (λ _, ∅));;
    modify (with_msize (Z.min MAX_MESSAGE_SIZE (Tversion_msize t)));;
    n ← gets msize;
    mret {| Rversion_msize := n;
            Rversion_version :=
              if decide (Tversion_version t = VERSION_9P2000_L) then VERSION_9P2000_L
              else bytes_of_string "unknown" |}.

Definition flush (_ : Tflush) : SM unit := mret tt.

(** The metadata collected so far is kept when the walk stops. *)
Fixpoint do_walk (wnames : list (list Z)) (buf : Path) (mds : list Metadata)
  : SM (outcome io_error Path * list Metadata) :=
  match wnames with
  | [] => mret (Ok buf, mds)
  | wname :: wnames' =>
    res ← attempt (buf' ← do_join_path buf wname; md ← fs_do (Fs_metadata buf'); mret (buf', md));
    match res with
    | Ok (buf', md) => do_walk wnames' buf' (mds ++ [md])
    | Err e => mret (Err e, mds)
    | Panic => panic
    end
  end.

Definition walk (t : Twalk) : SM Rwalk :=
  used ← gets (λ s, bool_decide (Twalk_fid t ≠ Twalk_newfid t ∧ is_Some (fids s !! (Twalk_newfid t : Z))));
  if (used : bool) then os_error EBADF
  else
    fid ← get_fid EBADF (Twalk_fid t);
    r ← do_walk (Twalk_wnames t) (fid_path fid) [];
    let '(res, mds) := r in
    match res with
    | Ok buf =>
      if decide (length mds = length (Twalk_wnames t)) then
        put_fid (Twalk_newfid t)
          {| fid_path := buf;
             fid_metadata := match last mds with Some md => md | None => fid_metadata fid end;
             fid_file := None; fid_dirents := None |}
      else mret tt
    | Err e => if decide (mds = []) then throw e else mret tt
    | Panic => panic
    end;;
    mret {| Rwalk_wqids := metadata_to_qid <$> mds |}.

(** The bytes that a frame with empty data takes. *)
Definition READ_HEADER_SIZE : Z :=
  byte_size {| Rframe_tag := 0%Z; Rframe_msg := Rm.Read {| Rread_data := MkData [] |} |}.
Definition READDIR_HEADER_SIZE : Z :=
  byte_size {| Rframe_tag := 0%Z; Rframe_msg := Rm.Readdir {| Rreaddir_data := MkData [] |} |}.

Definition read (t : Tread) : SM Rread :=
  file ← get_file (Tread_fid t);
  n ← gets msize;
  let capacity := Z.min (word_cast 32 (n - READ_HEADER_SIZE)) (Tread_count t) in
  buf ← fs_do (File_read_at file capacity (Tread_offset t));
  mret {| Rread_data := MkData buf |}.

Definition write (t : Twrite) : SM Rwrite :=
  file ← get_file (Twrite_fid t);
  count ← fs_do (File_write_at file (data (Twrite_data t)) (Twrite_offset t));
  mret {| Rwrite_count := word_cast 32 count |}.

Definition clunk (t : Tclunk) : SM unit :=
  _ ← get_fid EBADF (Tclunk_fid t);
  modify (with_fids (delete (Tclunk_fid t : Z))).

Definition remove_path (dir : bool) (p : Path) : SM unit :=
  if dir then fs_do (Fs_remove_dir p) else fs_do (Fs_remove_file p).

(** The fid is gone even when the file stays. *)
Definition remove (t : Tremove) : SM unit :=
  fid ← get_fid EBADF (Tremove_fid t);
  modify (with_fids (delete (Tremove_fid t : Z)));;
  remove_path (is_dir (fid_metadata fid)) (fid_path fid).

(** A path that is a string without a null byte. *)
Definition path_cstring (p : Path) : option Path :=
  if utf8_valid p && bool_decide (0%Z ∉ p) then Some p else None.

Definition statfs (t : Tstatfs) : SM Rstatfs :=
  fid ← get_fid EBADF (Tstatfs_fid t);
  path ← ok_or EINVAL (path_cstring (fid_path fid));
  out ← fs_do (Libc_statfs64 path);
  mret {| Rstatfs_ty := word_cast 32 (f_type out); Rstatfs_bsize := word_cast 32 (f_bsize out);
          Rstatfs_blocks := f_blocks out; Rstatfs_bfree := f_bfree out;
          Rstatfs_bavail := f_bavail out; Rstatfs_files := f_files out;
          Rstatfs_ffree := f_ffree out; Rstatfs_fsid := 0%Z;
          Rstatfs_namelen := word_cast 32 (f_namelen out) |}.

Definition custom_flags (flags : Z) : Z :=
  foldl (λ acc '(p9f, lf), if has_flag flags p9f then Z.lor acc lf else acc) O_CLOEXEC MAPPED_FLAGS.
Definition reads_flag (flags : Z) : bool := negb (has_flag flags P9_NOACCESS) || has_flag flags P9_RDWR.
Definition writes_flag (flags : Z) : bool := has_flag flags P9_WRONLY || has_flag flags P9_RDWR.

Definition lopen_options (flags : Z) : OpenOptions := {|
  oo_read := reads_flag flags; oo_write := writes_flag flags;
  oo_append := has_flag flags P9_APPEND; oo_truncate := has_flag flags P9_TRUNC;
  oo_create := has_flag flags P9_CREATE;
  oo_create_new := has_flag flags P9_CREATE && has_flag flags P9_EXCL;
  oo_custom_flags := custom_flags flags; oo_mode := 0x1b6;
|}.
Definition lcreate_options (flags mode : Z) : OpenOptions := {|
  oo_read := reads_flag flags; oo_write := writes_flag flags;
  oo_append := has_flag flags P9_APPEND; oo_truncate := false;
  oo_create := false; oo_create_new := true;
  oo_custom_flags := custom_flags flags; oo_mode := Z.land mode 0x1ed;
|}.

Definition lopen (t : Tlopen) : SM Rlopen :=
  fid ← get_fid EBADF (Tlopen_fid t);
  file ← fs_do (Fs_open (lopen_options (Tlopen_flags t)) (fid_path fid));
  md ← fs_do (File_metadata file);
  put_fid (Tlopen_fid t)
    {| fid_path := fid_path fid; fid_metadata := md; fid_file := Some file;
       fid_dirents := fid_dirents fid |};;
  mret {| Rlopen_qid := metadata_to_qid md; Rlopen_iounit := 0%Z |}.

Definition lcreate (t : Tlcreate) : SM Rlcreate :=
  fid ← get_fid EBADF (Tlcreate_fid t);
  if negb (is_dir (fid_metadata fid)) then os_error ENOTDIR
  else
    path ← do_join_path (fid_path fid) (Tlcreate_name t);
    file ← fs_do (Fs_open (lcreate_options (Tlcreate_flags t) (Tlcreate_mode t)) path);
    md ← fs_do (File_metadata file);
    put_fid (Tlcreate_fid t)
      {| fid_path := path; fid_metadata := md; fid_file := Some file;
         fid_dirents := fid_dirents fid |};;
    mret {| Rlcreate_qid := metadata_to_qid md; Rlcreate_iounit := 0%Z |}.

Definition symlink (_ : Tsymlink) : SM Rsymlink := os_error EACCES.
Definition mknod (_ : Tmknod) : SM Rmknod := os_error EACCES.

Definition rename (t : Trename) : SM unit :=
  dfid ← get_fid EBADF (Trename_dfid t);
  newpath ← do_join_path (fid_path dfid) (Trename_name t);
  fid ← get_fid EINVAL (Trename_fid t);
  fs_do (Fs_rename (fid_path fid) newpath);;
  put_fid (Trename_fid t)
    {| fid_path := newpath; fid_metadata := fid_metadata fid; fid_file := fid_file fid;
       fid_dirents := fid_dirents fid |}.

Definition readlink (_ : Treadlink) : SM Rreadlink := os_error EACCES.

Definition get_attr (t : Tgetattr) : SM Rgetattr :=
  fid ← get_fid EBADF (Tgetattr_fid t);
  md ← fs_do (Fs_metadata (fid_path fid));
  put_fid (Tgetattr_fid t)
    {| fid_path := fid_path fid; fid_metadata := md; fid_file := fid_file fid;
       fid_dirents := fid_dirents fid |};;
  mret {| Rgetattr_valid := P9_GETATTR_BASIC; Rgetattr_qid := metadata_to_qid md;
          Rgetattr_mode := st_mode md; Rgetattr_uid := st_uid md; Rgetattr_gid := st_gid md;
          Rgetattr_nlink := st_nlink md; Rgetattr_rdev := st_rdev md; Rgetattr_size := st_size md;
          Rgetattr_blksize := st_blksize md; Rgetattr_blocks := st_blocks md;
          Rgetattr_atime_sec := word_cast 64 (st_atime md);
          Rgetattr_atime_nsec := word_cast 64 (st_atime_nsec md);
          Rgetattr_mtime_sec := word_cast 64 (st_mtime md);
          Rgetattr_mtime_nsec := word_cast 64 (st_mtime_nsec md);
          Rgetattr_ctime_sec := word_cast 64 (st_ctime md);
          Rgetattr_ctime_nsec := word_cast 64 (st_ctime_nsec md);
          Rgetattr_btime_sec := 0%Z; Rgetattr_btime_nsec := 0%Z; Rgetattr_gen := 0%Z;
          Rgetattr_data_version := 0%Z |}.

(** [tv_nsec]: leave the time, take the current one, or the one that is given. *)
Definition time_nsec (valid time_flag set_flag nsec : Z) : Z :=
  if negb (has_flag valid time_flag) then UTIME_OMIT
  else if negb (has_flag valid set_flag) then UTIME_NOW
  else i64_cast nsec.

Definition set_attr (t : Tsetattr) : SM unit :=
  let valid := Tsetattr_valid t in
  if has_flag valid (Z.lor (Z.lor P9_SETATTR_MODE P9_SETATTR_UID) P9_SETATTR_GID) then os_error EPERM
  else
    fid ← get_fid EBADF (Tsetattr_fid t);
    file ← fs_do (Fs_open {| oo_read := false; oo_write := true; oo_append := false;
                             oo_truncate := false; oo_create := false; oo_create_new := false;
                             oo_custom_flags := 0; oo_mode := 0x1b6 |}
                    (fid_path fid));
    (if has_flag valid P9_SETATTR_SIZE then fs_do (File_set_len file (Tsetattr_size t)) else mret tt);;
    (if has_flag valid (Z.lor P9_SETATTR_ATIME P9_SETATTR_MTIME) then
       fs_do (Libc_futimens file
         {| tv_sec := i64_cast (Tsetattr_atime_sec t);
            tv_nsec := time_nsec valid P9_SETATTR_ATIME P9_SETATTR_ATIME_SET (Tsetattr_atime_nsec t) |}
         {| tv_sec := i64_cast (Tsetattr_mtime_sec t);
            tv_nsec := time_nsec valid P9_SETATTR_MTIME P9_SETATTR_MTIME_SET (Tsetattr_mtime_nsec t) |})
     else mret tt);;
    (if has_flag valid P9_SETATTR_CTIME && negb (has_flag valid (word_not 32 P9_SETATTR_CTIME)) then
       fs_do (Libc_fchown file (2 ^ 32 - 1) (2 ^ 32 - 1))
     else mret tt).

Definition xattr_walk (_ : Txattrwalk) : SM Rxattrwalk := os_error EOPNOTSUPP.
Definition xattr_create (_ : Txattrcreate) : SM unit := os_error EOPNOTSUPP.

(** *** Directories *)

Definition dirent_of (md : Metadata) (name : list Z) (offset : Z) : Dirent := {|
  Dirent_qid := metadata_to_qid md; Dirent_offset := offset;
  Dirent_ty := if is_dir md then DT_DIR else if is_file md then DT_REG else DT_UNKNOWN;
  Dirent_name := name;
|}.

(** The offset of an entry is that of the end of its encoding. *)
Fixpoint read_dirents (offset : Z) (items : list (DirEntry + io_error)) : SM (list Dirent) :=
  match items with
  | [] => mret []
  | item :: items' =>
    entry ← lift (of_sum item);
    md ← fs_do (Entry_metadata entry);
    if utf8_valid (de_name entry) then
      let offset' := word_cast 64 (offset + byte_size (dirent_of md (de_name entry) 0)) in
      rest ← read_dirents offset' items';
      mret (dirent_of md (de_name entry) offset' :: rest)
    else os_error EINVAL
  end.

(** [skip_while(|entry| entry.offset <= offset)]. *)
Fixpoint skip_dirents (offset : Z) (l : list Dirent) : list Dirent :=
  match l with
  | [] => []
  | e :: l' => if (Dirent_offset e <=? offset)%Z then skip_dirents offset l' else l
  end.

(** The entries that fit into the buffer are written to it.  A vector that is created with a capacity
    has that capacity, and what fits does not make it grow. *)
Fixpoint write_dirents (capacity : Z) (l : list Dirent) : Writer unit :=
  match l with
  | [] => mret tt
  | e :: l' =>
    len ← gets (λ buf, Z.of_nat (length buf));
    if (capacity - len <? byte_size e)%Z then mret tt
    else encode e;; write_dirents capacity l'
  end.

Definition with_dirents (fid : Fid) (dirents : list Dirent) : Fid :=
  {| fid_path := fid_path fid; fid_metadata := fid_metadata fid; fid_file := fid_file fid;
     fid_dirents := Some dirents |}.

Definition readdir (t : Treaddir) : SM Rreaddir :=
  fid ← get_fid EBADF (Treaddir_fid t);
  if negb (is_dir (fid_metadata fid)) then os_error ENOTDIR
  else
    dirents ←
      (if (Treaddir_offset t =? 0)%Z then
         items ← fs_do (Fs_read_dir (fid_path fid));
         dirents ← read_dirents 0 items;
         put_fid (Treaddir_fid t) (with_dirents fid dirents);;
         mret (Some dirents)
       else mret (fid_dirents fid));
    entries ← ok_or EBADF dirents;
    n ← gets msize;
    let count := Z.min (word_cast 32 (n - READDIR_HEADER_SIZE)) (Treaddir_count t) in
    let '(res, buf) := write_dirents count (skip_dirents (Treaddir_offset t) entries) [] in
    lift res;;
    mret {| Rreaddir_data := MkData buf |}.

Definition fsync (t : Tfsync) : SM unit :=
  file ← get_file (Tfsync_fid t);
  if (Tfsync_datasync t =? 0)%Z then fs_do (File_sync_all file) else fs_do (File_sync_data file).

Definition lock (_ : Tlock) : SM Rlock := os_error EOPNOTSUPP.
Definition get_lock (_ : Tgetlock) : SM Rgetlock := os_error EOPNOTSUPP.

Definition link (t : Tlink) : SM unit :=
  dfid ← get_fid EBADF (Tlink_dfid t);
  newpath ← do_join_path (fid_path dfid) (Tlink_name t);
  fid ← get_fid EBADF (Tlink_fid t);
  fs_do (Fs_hard_link (fid_path fid) newpath).

Definition mkdir (t : Tmkdir) : SM Rmkdir :=
  fid ← get_fid EBADF (Tmkdir_dfid t);
  newpath ← do_join_path (fid_path fid) (Tmkdir_name t);
  fs_do (Fs_create_dir (Z.land (Tmkdir_mode t) 0x1ed) newpath);;
  md ← fs_do (Fs_metadata newpath);
  mret {| Rmkdir_qid := metadata_to_qid md |}.

Definition rename_at (t : Trenameat) : SM unit :=
  olddir ← get_fid EBADF (Trenameat_olddirfid t);
  oldpath ← do_join_path (fid_path olddir) (Trenameat_oldname t);
  newdir ← get_fid EBADF (Trenameat_newdirfid t);
  newpath ← do_join_path (fid_path newdir) (Trenameat_newname t);
  fs_do (Fs_rename oldpath newpath).

Definition unlink_at (t : Tunlinkat) : SM unit :=
  dir ← get_fid EBADF (Tunlinkat_dirfd t);
  path ← do_join_path (fid_path dir) (Tunlinkat_name t);
  md ← fs_do (Fs_metadata path);
  if is_dir md && negb (has_flag (Tunlinkat_flags t) (word_cast 32 AT_REMOVEDIR)) then os_error EISDIR
  else remove_path (is_dir md) path.

(** ** The handling of a message *)

Definition dispatch (m : Tmessage) : SM Rmessage :=
  match m with
  | Tm.Version m => r ← version m; mret (Rm.Version r)
  | Tm.Flush m => flush m;; mret Rm.Flush
  | Tm.Walk m => r ← walk m; mret (Rm.Walk r)
  | Tm.Read m => r ← read m; mret (Rm.Read r)
  | Tm.Write m => r ← write m; mret (Rm.Write r)
  | Tm.Clunk m => clunk m;; mret Rm.Clunk
  | Tm.Remove m => remove m;; mret Rm.Remove
  | Tm.Attach m => r ← attach m; mret (Rm.Attach r)
  | Tm.Auth m => r ← auth m; mret (Rm.Auth r)
  | Tm.Statfs m => r ← statfs m; mret (Rm.Statfs r)
  | Tm.Lopen m => r ← lopen m; mret (Rm.Lopen r)
  | Tm.Lcreate m => r ← lcreate m; mret (Rm.Lcreate r)
  | Tm.Symlink m => r ← symlink m; mret (Rm.Symlink r)
  | Tm.Mknod m => r ← mknod m; mret (Rm.Mknod r)
  | Tm.Rename m => rename m;; mret Rm.Rename
  | Tm.Readlink m => r ← readlink m; mret (Rm.Readlink r)
  | Tm.GetAttr m => r ← get_attr m; mret (Rm.GetAttr r)
  | Tm.SetAttr m => set_attr m;; mret Rm.SetAttr
  | Tm.XattrWalk m => r ← xattr_walk m; mret (Rm.XattrWalk r)
  | Tm.XattrCreate m => xattr_create m;; mret Rm.XattrCreate
  | Tm.Readdir m => r ← readdir m; mret (Rm.Readdir r)
  | Tm.Fsync m => fsync m;; mret Rm.Fsync
  | Tm.Lock m => r ← lock m; mret (Rm.Lock r)
  | Tm.GetLock m => r ← get_lock m; mret (Rm.GetLock r)
  | Tm.Link m => link m;; mret Rm.Link
  | Tm.Mkdir m => r ← mkdir m; mret (Rm.Mkdir r)
  | Tm.RenameAt m => rename_at m;; mret Rm.RenameAt
  | Tm.UnlinkAt m => unlink_at m;; mret Rm.UnlinkAt
  end.

(** [rmsg.unwrap_or_else(error_to_rmessage)]. *)
Definition answer (m : Tmessage) : SM Rmessage := λ s,
  match dispatch m s with
  | (Ok r, s') => (Ok r, s')
  | (Err e, s') => (Ok (error_to_rmessage e), s')
  | (Panic, s') => (Panic, s')
  end.

(** A connection: the server, the bytes from the client and those to the client. *)
Record Conn := { conn_server : Server K; conn_in : list Z; conn_out : list Z }.

Definition handle_message : M Conn io_error unit := λ c,
  match with_take (Z.to_nat (msize (conn_server c))) (decode : Reader Tframe) (conn_in c) with
  | (Ok request, rest) =>
    match answer (Tframe_msg request) (conn_server c) with
    | (Ok rmsg, s) =>
      let '(res, out) := encode {| Rframe_tag := Tframe_tag request; Rframe_msg := rmsg |} (conn_out c) in
      (res, {| conn_server := s; conn_in := rest; conn_out := out |})
    | (Err e, s) => (Err e, {| conn_server := s; conn_in := rest; conn_out := conn_out c |})
    | (Panic, s) => (Panic, {| conn_server := s; conn_in := rest; conn_out := conn_out c |})
    end
  | (Err e, rest) => (Err e, {| conn_server := conn_server c; conn_in := rest; conn_out := conn_out c |})
  | (Panic, rest) => (Panic, {| conn_server := conn_server c; conn_in := rest; conn_out := conn_out c |})
  end.

End server.
