(* ===== verification/P9ServerSpec.v ===== *)
(** * P9ServerSpec: theorems about the 9P server

    Confinement: the server gives no path to the host's file system that is not its root followed by
    ordinary names, whatever the client sends.  Answers: every request that is read is answered by
    one frame with its tag, which fits into the message size that was agreed on.  Directories: a
    listing is handed out page by page, without gaps or repetitions. *)

From stdpp Require Import strings.
From S2P Require Import Prelude.
From S2P Require Import Bytes.
From S2P Require Import P9Wire.
From S2P Require Import P9Messages.
From S2P Require Import P9Path.
From S2P Require Import P9Server.

(** ** The calls of the file system, in a log *)

Definition any_op : Type := {A & FsOp A}.
Definition op_paths (op : any_op) : list Path :=
  match projT2 op with
  | Fs_metadata p | Fs_open _ p | Fs_remove_dir p | Fs_remove_file p | Fs_create_dir _ p
  | Fs_read_dir p | Libc_statfs64 p => [p]
  | Fs_rename p q | Fs_hard_link p q => [p; q]
  | Entry_metadata e => [de_dir e]
  | _ => []
  end.

#[export] Instance log_fs {K} `{!Fs K} : Fs (K * list any_op) := λ A op kl,
  let '(r, k) := fs_call A op kl.1 in (r, (k, kl.2 ++ [existT A op])).

(** What [std] documents: no more is read than was asked for, and the entries of a directory are
    entries of that directory. *)
Class FsLaws (K : Type) `{!Fs K} := {
  read_at_bounded f len offset (k k' : K) bs :
    fs_call _ (File_read_at f len offset) k = (inl bs, k') → (0 ≤ len)%Z → (Z.of_nat (length bs) ≤ len)%Z;
  read_dir_entries p (k k' : K) items e :
    fs_call _ (Fs_read_dir p) k = (inl items, k') → inl e ∈ items → de_dir e = p;
}.

Section confined.
Context `{!Libc} {K : Type} `{!Fs K, !FsLaws K}.
Abbreviation S' := (Server (K * list any_op)).
Implicit Types (s : S').

(** All paths are under the root: those of the client's fids, and those that were used. *)
Definition log_ok (r : Path) (l : list any_op) : Prop := Forall (λ op, Forall (under r) (op_paths op)) l.
Record inv (r : Path) (n : Z) (s : S') : Prop := {
  inv_root : root s = r;
  inv_msize : msize s = n;
  inv_fids : map_Forall (λ _ f, under r (fid_path f)) (fids s);
  inv_log : log_ok r (fs s).2;
}.

Context (r : Path) (n : Z).

(** [m] keeps the invariant on every path, does not panic, and its values satisfy [Q]. *)
Definition keeps {A} (m : M S' io_error A) (Q : A → Prop) : Prop := ∀ s, inv r n s →
  wp m (λ a s', inv r n s' ∧ Q a) (λ _ s', inv r n s') s.

Lemma keeps_ret {A} (a : A) (Q : A → Prop) : Q a → keeps (mret a) Q.
Proof. intros Ha s Hs. by apply wp_ret. Qed.
Lemma keeps_bind {A B} (m : M S' io_error A) (f : A → M S' io_error B) (P : A → Prop) (Q : B → Prop) :
  keeps m P → (∀ a, P a → keeps (f a) Q) → keeps (m ≫= f) Q.
Proof.
  intros Hm Hf s Hs. apply wp_bind. eapply wp_mono; [by apply Hm| |done].
  intros a s' [Hs' Ha]. by apply Hf.
Qed.
Lemma keeps_mono {A} (m : M S' io_error A) (P Q : A → Prop) : keeps m P → (∀ a, P a → Q a) → keeps m Q.
Proof. intros Hm HPQ s Hs. eapply wp_mono; [by apply Hm|naive_solver|done]. Qed.
Lemma keeps_throw {A} e (Q : A → Prop) : keeps (throw e) Q.
Proof. by intros s Hs. Qed.
Lemma keeps_os_error {A} e (Q : A → Prop) : keeps (os_error e) Q.
Proof. by intros s Hs. Qed.
Lemma keeps_if {A} (b : bool) (m1 m2 : M S' io_error A) Q :
  (b = true → keeps m1 Q) → (b = false → keeps m2 Q) → keeps (if b then m1 else m2) Q.
Proof. destruct b; auto. Qed.
Lemma keeps_ok_or {A} e (o : option A) (Q : A → Prop) : (∀ a, o = Some a → Q a) → keeps (ok_or e o) Q.
Proof. intros Ho. destruct o; [by apply keeps_ret, Ho|apply keeps_os_error]. Qed.
Lemma keeps_gets {A} (f : S' → A) (Q : A → Prop) : (∀ s, inv r n s → Q (f s)) → keeps (gets f) Q.
Proof. intros Hf s Hs. split; [done|]. by apply Hf. Qed.
Lemma keeps_lift {A} (o : outcome io_error A) (Q : A → Prop) :
  o ≠ Panic → (∀ a, o = Ok a → Q a) → keeps (lift o) Q.
Proof. intros Hp Ho s Hs. unfold wp, lift. destruct o; naive_solver. Qed.

Lemma keeps_get_fid e k : keeps (get_fid e k) (λ f, under r (fid_path f)).
Proof.
  eapply keeps_bind; [apply (keeps_gets _ (λ o, ∀ f, o = Some f → under r (fid_path f)))|].
  - intros s Hs f Hf. by eapply (inv_fids _ _ _ Hs).
  - intros o Ho. by apply keeps_ok_or.
Qed.
Lemma keeps_get_file k : keeps (get_file k) (λ _, True).
Proof. eapply keeps_bind; [by apply (keeps_gets _ (λ _, True))|]. intros o _. by apply keeps_ok_or. Qed.
Lemma keeps_put_fid k f : under r (fid_path f) → keeps (put_fid k f) (λ _, True).
Proof.
  intros Hf s [Hr Hm Hfs Hl]. split; [|done]. split; try done. simpl. by apply map_Forall_insert_2.
Qed.
Lemma keeps_delete_fid (k : Z) : keeps (modify (with_fids (delete k))) (λ _, True).
Proof. intros s [Hr Hm Hfs Hl]. split; [|done]. split; try done. simpl. by apply map_Forall_delete. Qed.
Lemma keeps_join_path buf p : under r buf → keeps (do_join_path buf p) (under r).
Proof.
  intros Hb. eapply keeps_bind; [apply (keeps_gets _ (eq r)); by intros s [-> _ _ _]|].
  intros ? <-. apply keeps_lift; [apply join_path_no_panic|]. intros buf' Hj. by eapply join_path_under.
Qed.

Lemma keeps_fs_do_post {A} (op : FsOp A) (Q : A → Prop) :
  Forall (under r) (op_paths (existT A op)) →
  (∀ k k' a, fs_call A op k = (inl a, k') → Q a) →
  keeps (fs_do op) Q.
Proof.
  intros Hp HQ s [Hr Hm Hfs Hl]. unfold wp, fs_do, fs_call, log_fs.
  destruct (fs_call A op (fs s).1) as [[a|e] k] eqn:Hc; simpl;
    [split; [|by eapply HQ]|]; (split; try done); simpl; apply Forall_app; (split; [done|by constructor]).
Qed.
Lemma keeps_fs_do {A} (op : FsOp A) : Forall (under r) (op_paths (existT A op)) → keeps (fs_do op) (λ _, True).
Proof. intros Hp. by apply keeps_fs_do_post. Qed.

Lemma keeps_remove_path dir p : under r p → keeps (remove_path dir p) (λ _, True).
Proof. intros Hp. unfold remove_path. destruct dir; apply keeps_fs_do; by repeat constructor. Qed.
Lemma keeps_attempt {A} (m : M S' io_error A) (Q : A → Prop) :
  keeps m Q → keeps (attempt m) (λ o, match o with Ok a => Q a | Err _ => True | Panic => False end).
Proof. intros Hm s Hs. specialize (Hm s Hs). unfold wp, attempt in *. by destruct (m s) as [[] ?]. Qed.
End confined.

Create HintDb keeps discriminated.
#[export] Hint Resolve keeps_ret keeps_throw keeps_os_error keeps_get_fid keeps_get_file keeps_put_fid
  keeps_delete_fid keeps_join_path keeps_fs_do keeps_remove_path : keeps.

(** A program that follows a path of fids and names: each step by its rule. *)
Ltac keeps_step :=
  match goal with
  | |- keeps _ _ (_ ≫= _) _ => eapply keeps_bind; [solve [eauto with keeps]|intros ??]
  | |- keeps _ _ (if _ then _ else _) _ => apply keeps_if; intros ?
  | |- keeps _ _ (if decide _ then _ else _) _ => case_decide
  | |- keeps _ _ (mret _) _ => apply keeps_ret
  | |- keeps _ _ (os_error _) _ => apply keeps_os_error
  | |- keeps _ _ (throw _) _ => apply keeps_throw
  end.
#[export] Hint Extern 1 (Forall (under _) _) => (repeat constructor; assumption) : keeps.
#[export] Hint Extern 1 (under _ (fid_path _)) => assumption : keeps.
#[export] Hint Extern 1 (under _ _) => assumption : keeps.

(** ** The length of what is written *)

Definition appends (m : Writer unit) (k : Z) : Prop := ∃ bs,
  (∀ w, m w = (Ok tt, w ++ bs)) ∧ Z.of_nat (length bs) = k.

Lemma appends_eq m k k' : appends m k → k = k' → appends m k'.
Proof. by intros ? <-. Qed.
Lemma appends_nil : appends (mret tt) 0.
Proof. exists []. split; [|done]. intros w. by rewrite app_nil_r. Qed.
Lemma appends_write_all bs : appends (write_all bs) (Z.of_nat (length bs)).
Proof. by exists bs. Qed.
Lemma appends_seq (m1 m2 : Writer unit) k1 k2 : appends m1 k1 → appends m2 k2 → appends (m1;; m2) (k1 + k2).
Proof.
  intros (bs1 & He1 & Hl1) (bs2 & He2 & Hl2). exists (bs1 ++ bs2). rewrite length_app. split; [|lia].
  intros w. by rewrite (bind_eq_ok _ _ _ _ _ (He1 w)), He2, (assoc (++)).
Qed.

Lemma appends_uint k v : appends (@encode Z (uint_wire_format k) v) (Z.of_nat k).
Proof. exists (uint_encode k v). by rewrite (proj2 (uint_encode_ok k v)). Qed.
Lemma appends_u8 (v : u8) : appends (encode v) 1. Proof. apply (appends_uint 1). Qed.
Lemma appends_u16 (v : u16) : appends (encode v) 2. Proof. apply (appends_uint 2). Qed.
Lemma appends_u32 (v : u32) : appends (encode v) 4. Proof. apply (appends_uint 4). Qed.
Lemma appends_u64 (v : u64) : appends (encode v) 8. Proof. apply (appends_uint 8). Qed.
Lemma appends_string (s : RString) :
  (Z.of_nat (length s) ≤ U16_MAX)%Z → appends (encode s) (2 + Z.of_nat (length s)).
Proof.
  intros Hs. cbn [encode string_wire]. rewrite decide_False by lia.
  apply appends_seq; [apply (appends_u16 _)|apply appends_write_all].
Qed.
Lemma appends_data (d : Data) :
  (Z.of_nat (length (data d)) ≤ U32_MAX)%Z → appends (encode d) (4 + Z.of_nat (length (data d))).
Proof.
  intros Hs. cbn [encode data_wire]. rewrite decide_False by lia.
  apply appends_seq; [apply (appends_u32 _)|apply appends_write_all].
Qed.
Lemma appends_vec {T} `{!WireFormat T} (l : list T) k :
  (∀ x : T, appends (encode x) k) → (Z.of_nat (length l) ≤ U16_MAX)%Z →
  appends (encode l) (2 + k * Z.of_nat (length l)).
Proof.
  intros Hx Hl. cbn [encode vec_wire]. rewrite decide_False by lia. apply appends_seq; [apply (appends_u16 _)|].
  clear Hl. induction l as [|x l IH]; cbn [vec_encode length].
  - rewrite Z.mul_0_r. apply appends_nil.
  - replace (k * Z.of_nat (S (length l)))%Z with (k + k * Z.of_nat (length l))%Z by lia. by apply appends_seq.
Qed.
Lemma appends_fields_cons {A F} `{!WireFormat A, !Fields F} (a : A) (f : F) k1 k2 :
  appends (encode a) k1 → appends (fields_encode f) k2 → appends (fields_encode (a, f)) (k1 + k2).
Proof. apply appends_seq. Qed.
Lemma appends_struct {T F} `{!Struct T F, !Fields F} (s : T) k :
  appends (fields_encode (to_fields s)) k → appends (encode s) k.
Proof. done. Qed.

Create HintDb appends discriminated.
#[export] Hint Resolve appends_nil appends_u8 appends_u16 appends_u32 appends_u64 : appends.

(** A struct, field by field. *)
Ltac appends_struct :=
  eapply appends_eq;
  [eapply appends_struct;
   match goal with |- appends (fields_encode (to_fields ?s)) _ =>
     let f := eval hnf in (to_fields s) in change (to_fields s) with f end;
   repeat (eapply appends_fields_cons; [solve [eauto with appends]|]); apply appends_nil
  |reflexivity].

Lemma appends_Qid (q : Qid) : appends (encode q) 13. Proof. appends_struct. Qed.
#[export] Hint Resolve appends_Qid : appends.
Lemma appends_Rattach (q : Rattach) : appends (encode q) 13. Proof. appends_struct. Qed.
Lemma appends_Rauth (q : Rauth) : appends (encode q) 13. Proof. appends_struct. Qed.
Lemma appends_Rmkdir (q : Rmkdir) : appends (encode q) 13. Proof. appends_struct. Qed.
Lemma appends_Rlopen (q : Rlopen) : appends (encode q) 17. Proof. appends_struct. Qed.
Lemma appends_Rlcreate (q : Rlcreate) : appends (encode q) 17. Proof. appends_struct. Qed.
Lemma appends_Rwrite (q : Rwrite) : appends (encode q) 4. Proof. appends_struct. Qed.
Lemma appends_Rlerror (q : Rlerror) : appends (encode q) 4. Proof. appends_struct. Qed.
Lemma appends_Rstatfs (q : Rstatfs) : appends (encode q) 60. Proof. appends_struct. Qed.
Lemma appends_Rgetattr (q : Rgetattr) : appends (encode q) 153. Proof. appends_struct. Qed.

(** An answer and its header take at most [n] bytes, whatever the tag. *)
Definition fits (n : Z) (m : Rmessage) : Prop := ∀ tag, ∃ bs,
  (∀ w, encode {| Rframe_tag := tag; Rframe_msg := m |} w = (Ok tt, w ++ bs)) ∧ (Z.of_nat (length bs) ≤ n)%Z.

Lemma fits_body n m k : appends (msg_encode m) k → (FRAME_HEADER_SIZE + k ≤ n)%Z → fits n m.
Proof.
  intros Hm Hn tag. unfold FRAME_HEADER_SIZE in Hn.
  destruct (appends_seq _ _ _ _ (appends_u32 (frame_byte_size m))
    (appends_seq _ _ _ _ (appends_u8 (msg_type m)) (appends_seq _ _ _ _ (appends_u16 tag) Hm)))
    as (bs & He & Hl).
  exists bs. split; [exact He|lia].
Qed.

(** ** Every request keeps the invariant, and its answer fits *)

(** A walk of at most sixteen names, which is what the protocol allows. *)
Definition MAXWELEM : nat := 16.
Definition walk_short (m : Tmessage) : Prop :=
  match m with Tm.Walk t => length (Twalk_wnames t) ≤ MAXWELEM | _ => True end.

Section requests.
Context `{!Libc} {K : Type} `{!Fs K, !FsLaws K}.
Context (r : Path) (n : Z) (Hn : (MIN_MESSAGE_SIZE ≤ n ≤ MAX_MESSAGE_SIZE)%Z).
Abbreviation keeps := (keeps (K := K) r n).

Lemma fits_small m k : appends (msg_encode m) k → (k ≤ 249)%Z → fits n m.
Proof using Hn. intros Hm Hk. eapply fits_body; [exact Hm|]. unfold MIN_MESSAGE_SIZE, FRAME_HEADER_SIZE in *. lia. Qed.
Lemma fits_empty m : msg_encode m = mret tt → fits n m.
Proof using Hn. intros Hm. apply (fits_small m 0); [rewrite Hm; apply appends_nil|lia]. Qed.
Lemma fits_error e : fits n (error_to_rmessage e).
Proof using Hn. eapply fits_small; [apply appends_Rlerror|lia]. Qed.

Lemma keeps_attach t : keeps (attach t) (λ x, fits n (Rm.Attach x)).
Proof using Hn.
  unfold attach. eapply keeps_bind; [by apply (keeps_gets _ _ _ (λ _, True))|]. intros [f|] _; [apply keeps_os_error|].
  eapply keeps_bind; [apply (keeps_gets _ _ _ (eq r)); by intros s [-> _ _ _]|]. intros ? <-.
  eapply keeps_bind; [apply keeps_fs_do; repeat constructor; apply under_root|]. intros md _.
  eapply keeps_bind; [apply keeps_put_fid, under_root|]. intros _ _.
  apply keeps_ret. eapply fits_small; [apply appends_Rattach|lia].
Qed.

Lemma keeps_do_walk wnames buf mds : under r buf →
  keeps (do_walk wnames buf mds) (λ x, x.1 ≠ Panic ∧ (∀ p, x.1 = Ok p → under r p) ∧
    length x.2 ≤ length mds + length wnames).
Proof.
  revert buf mds. induction wnames as [|wname wnames IH]; intros buf mds Hb; cbn [do_walk].
  { apply keeps_ret. simpl. split; [done|]. split; [by intros ? [= <-]|lia]. }
  eapply keeps_bind; [eapply (keeps_attempt _ _ _ (λ x, under r x.1))|].
  - eapply keeps_bind; [by apply keeps_join_path|]. intros buf' Hb'.
    eapply keeps_bind; [apply keeps_fs_do; by repeat constructor|]. intros md _. by apply keeps_ret.
  - intros [[buf' md]|e|] Hres; [|apply keeps_ret; simpl; split; [done|split; [done|lia]]|done].
    eapply keeps_mono; [by apply IH|]. intros x (Hp & Hu & Hl). split; [done|]. split; [done|].
    rewrite length_app in Hl. simpl in *. lia.
Qed.

(** An answer can be written, and it fits when a walk is not too long. *)
Definition answers (m : Tmessage) (x : Rmessage) : Prop := (∃ n', fits n' x) ∧ (walk_short m → fits n x).
Lemma fits_answers m x : fits n x → answers m x.
Proof. intros Hx. split; [by exists n|done]. Qed.

Lemma keeps_walk t : valid t → keeps (walk t) (λ x, answers (Tm.Walk t) (Rm.Walk x)).
Proof using Hn.
  intros (_ & _ & [_ Hnames] & _). unfold RString in Hnames. cbn in Hnames. unfold walk.
  eapply keeps_bind; [by apply (keeps_gets _ _ _ (λ _, True))|]. intros [] _; [apply keeps_os_error|].
  eapply keeps_bind; [apply keeps_get_fid|]. intros fid Hfid.
  eapply keeps_bind; [by apply keeps_do_walk|]. intros [res mds] (Hp & Hu & Hl). cbn [fst snd length] in *.
  eapply (keeps_bind _ _ _ _ (λ _, True)).
  - destruct res as [buf|e|]; [| |done].
    + case_decide; [|by apply keeps_ret]. apply keeps_put_fid. by apply Hu.
    + case_decide; [apply keeps_throw|by apply keeps_ret].
  - intros _ _. apply keeps_ret.
    assert (appends (msg_encode (Rm.Walk {| Rwalk_wqids := metadata_to_qid <$> mds |}))
      (2 + 13 * Z.of_nat (length mds) + 0)) as Ha.
    { rewrite <- (length_fmap metadata_to_qid mds). eapply appends_struct, appends_fields_cons; [|apply appends_nil].
      apply (appends_vec (metadata_to_qid <$> mds) 13); [apply appends_Qid|]. rewrite length_fmap. lia. }
    split; [eexists; by eapply fits_body|]. unfold walk_short, MAXWELEM, RString. intros Hshort.
    eapply fits_small; [exact Ha|]. lia.
Qed.

(** The room for data, in a message with the given header. *)
Lemma room_for_data count : (0 ≤ count)%Z →
  (0 ≤ Z.min (word_cast 32 (n - 11)) count ≤ n - 11)%Z.
Proof using Hn.
  intros Hc. unfold MIN_MESSAGE_SIZE, MAX_MESSAGE_SIZE in Hn.
  rewrite word_cast_small by (unfold is_word; lia). lia.
Qed.
Lemma fits_data (c : Data → Rmessage) d :
  (∀ d, appends (encode d) (4 + Z.of_nat (length (data d))) →
        appends (msg_encode (c d)) (4 + Z.of_nat (length (data d)))) →
  (Z.of_nat (length (data d)) ≤ n - 11)%Z → fits n (c d).
Proof using Hn.
  intros Hc Hl. unfold MAX_MESSAGE_SIZE in Hn. eapply fits_body.
  - apply Hc, appends_data. unfold U32_MAX. lia.
  - unfold FRAME_HEADER_SIZE. lia.
Qed.

Lemma keeps_read t : (0 ≤ Tread_count t)%Z → keeps (read t) (λ x, fits n (Rm.Read x)).
Proof using Hn FsLaws0.
  intros Hc. unfold read. eapply keeps_bind; [apply keeps_get_file|]. intros file _.
  eapply keeps_bind; [apply (keeps_gets _ _ _ (eq n)); by intros s [_ -> _ _]|]. intros ? <-.
  change READ_HEADER_SIZE with 11%Z. pose proof (room_for_data _ Hc) as [Hr1 Hr2].
  eapply keeps_bind.
  - apply (keeps_fs_do_post _ _ _ (λ bs, (Z.of_nat (length bs) ≤ n - 11)%Z)); [by repeat constructor|].
    intros k k' bs Hcall. apply read_at_bounded in Hcall; lia.
  - intros bs Hl. apply keeps_ret. apply (fits_data (λ d, Rm.Read (Build_Rread d))); [|done].
    intros d Hd. eapply appends_eq; [eapply appends_struct, appends_fields_cons; [exact Hd|apply appends_nil]|lia].
Qed.

Lemma keeps_read_dirents off items p : under r p → (∀ e, inl e ∈ items → de_dir e = p) →
  keeps (read_dirents off items) (λ _, True).
Proof.
  intros Hp. revert off. induction items as [|item items IH]; intros off Hd; cbn [read_dirents]; [by apply keeps_ret|].
  eapply (keeps_bind _ _ _ _ (λ e, de_dir e = p)).
  { apply keeps_lift; [by destruct item|]. intros e. destruct item as [e'|]; [|done]. intros [= ->]. apply Hd. by left. }
  intros e He. eapply keeps_bind; [apply keeps_fs_do; repeat constructor; by rewrite He|]. intros md _.
  apply keeps_if; intros _; [|apply keeps_os_error].
  eapply keeps_bind; [apply IH; intros e' He'; apply Hd; by right|]. intros rest _. by apply keeps_ret.
Qed.

(** The size of an entry. *)
Lemma dirent_size (e : Dirent) : byte_size e = word_cast 32 (24 + Z.of_nat (length (Dirent_name e))).
Proof.
  unfold byte_size, derived_wire, fields_byte_size, fields_cons, fields_nil. cbn -[word_cast u32_add Z.add].
  change 0%Z with (word_cast 32 0). change 1%Z with (word_cast 32 1). change 4%Z with (word_cast 32 4).
  change 8%Z with (word_cast 32 8). rewrite !u32_add_cast. f_equal. lia.
Qed.
Lemma appends_Dirent (e : Dirent) : (Z.of_nat (length (Dirent_name e)) ≤ U16_MAX)%Z →
  appends (encode e) (byte_size e).
Proof.
  intros Hl. unfold U16_MAX in Hl. eapply appends_eq.
  - eapply appends_struct. repeat (eapply appends_fields_cons; [solve [eauto with appends]|]).
    eapply appends_fields_cons; [apply appends_string; unfold U16_MAX; exact Hl|apply appends_nil].
  - rewrite dirent_size, word_cast_small; [|done|unfold is_word]; cbn [Dirent_name]; lia.
Qed.

(** What is written to a buffer stays within its capacity. *)
Lemma write_dirents_bounded cap l buf : (Z.of_nat (length buf) ≤ cap)%Z →
  wp (write_dirents cap l) (λ _ buf', (Z.of_nat (length buf') ≤ cap)%Z) (λ _ _, True) buf.
Proof.
  revert buf. induction l as [|e l IH]; intros buf Hb; cbn [write_dirents]; [by apply wp_ret|].
  apply wp_bind. unfold wp at 1, gets. destruct (_ <? _)%Z eqn:Hlt; [by apply wp_ret|]. apply Z.ltb_ge in Hlt.
  destruct (decide (Z.of_nat (length (Dirent_name e)) ≤ U16_MAX)%Z) as [He|He].
  - destruct (appends_Dirent e He) as (bs & Henc & Hlen).
    unfold wp. rewrite (bind_eq_ok _ _ _ _ _ (Henc buf)). apply IH. rewrite length_app. lia.
  - destruct e as [q off ty name]. cbn in He.
    unfold wp, mbind, M_bind. cbn -[U16_MAX decide]. unfold mbind, M_bind. cbn -[U16_MAX decide].
    by rewrite decide_True by lia.
Qed.

Lemma keeps_readdir t : (0 ≤ Treaddir_count t)%Z → keeps (readdir t) (λ x, fits n (Rm.Readdir x)).
Proof using Hn FsLaws0.
  intros Hc. unfold readdir. eapply keeps_bind; [apply keeps_get_fid|]. intros fid Hfid.
  apply keeps_if; intros _; [apply keeps_os_error|]. eapply (keeps_bind _ _ _ _ (λ _, True)).
  { apply keeps_if; intros _; [|by apply keeps_ret].
    eapply keeps_bind; [apply (keeps_fs_do_post _ _ _ (λ items, ∀ e, inl e ∈ items → de_dir e = fid_path fid));
      [by repeat constructor|intros k k' items Hcall e He; by eapply read_dir_entries]|].
    intros items Hi. eapply keeps_bind; [apply (keeps_read_dirents _ _ (fid_path fid) Hfid Hi)|]. intros l _.
    eapply keeps_bind; [by apply keeps_put_fid|]. intros _ _. by apply keeps_ret. }
  intros dirents _. eapply keeps_bind; [by apply (keeps_ok_or _ _ _ _ (λ _, True))|]. intros entries _.
  eapply keeps_bind; [apply (keeps_gets _ _ _ (eq n)); by intros s [_ -> _ _]|]. intros ? <-.
  change READDIR_HEADER_SIZE with 11%Z. pose proof (room_for_data _ Hc) as [Hr1 Hr2].
  set (cap := Z.min _ _) in *. set (l := skip_dirents _ _).
  pose proof (write_dirents_bounded cap l [] ltac:(simpl; lia)) as Hw. unfold wp in Hw.
  destruct (write_dirents cap l []) as [res buf].
  eapply (keeps_bind _ _ _ _ (λ _, (Z.of_nat (length buf) ≤ cap)%Z)).
  - apply keeps_lift; [by destruct res|]. by intros [] ->.
  - intros _ Hl. apply keeps_ret. apply (fits_data (λ d, Rm.Readdir (Build_Rreaddir d))); [|simpl; lia].
    intros d Hd. eapply appends_eq; [eapply appends_struct, appends_fields_cons; [exact Hd|apply appends_nil]|lia].
Qed.

(** The requests that follow fids and names, call the file system and answer with little. *)
Ltac keeps_small := 
  repeat keeps_step; try exact I; try (solve [eauto with keeps]);
  try (eapply fits_small;
    [match goal with
     | |- appends (msg_encode (Rm.Mkdir _)) _ => apply appends_Rmkdir
     | |- appends (msg_encode (Rm.Lopen _)) _ => apply appends_Rlopen
     | |- appends (msg_encode (Rm.Lcreate _)) _ => apply appends_Rlcreate
     | |- appends (msg_encode (Rm.Write _)) _ => apply appends_Rwrite
     | |- appends (msg_encode (Rm.Statfs _)) _ => apply appends_Rstatfs
     | |- appends (msg_encode (Rm.GetAttr _)) _ => apply appends_Rgetattr
     end|lia]).

Lemma keeps_small_requests :
  (∀ t, keeps (write t) (λ x, fits n (Rm.Write x))) ∧ (∀ t, keeps (clunk t) (λ _, True)) ∧
  (∀ t, keeps (remove t) (λ _, True)) ∧ (∀ t, keeps (lopen t) (λ x, fits n (Rm.Lopen x))) ∧
  (∀ t, keeps (lcreate t) (λ x, fits n (Rm.Lcreate x))) ∧ (∀ t, keeps (rename t) (λ _, True)) ∧
  (∀ t, keeps (get_attr t) (λ x, fits n (Rm.GetAttr x))) ∧ (∀ t, keeps (fsync t) (λ _, True)) ∧
  (∀ t, keeps (link t) (λ _, True)) ∧ (∀ t, keeps (mkdir t) (λ x, fits n (Rm.Mkdir x))) ∧
  (∀ t, keeps (rename_at t) (λ _, True)) ∧ (∀ t, keeps (unlink_at t) (λ _, True)).
Proof using Hn.
  repeat split; intros t;
    unfold write, clunk, remove, lopen, lcreate, rename, get_attr, fsync, link, mkdir, rename_at, unlink_at;
    keeps_small.
Qed.

Lemma keeps_statfs t : keeps (statfs t) (λ x, fits n (Rm.Statfs x)).
Proof using Hn.
  unfold statfs. eapply keeps_bind; [apply keeps_get_fid|]. intros fid Hfid.
  eapply keeps_bind; [apply (keeps_ok_or _ _ _ _ (under r))|].
  { intros p. unfold path_cstring. case_match; [|done]. by intros [= <-]. }
  intros p Hp. keeps_small.
Qed.
Lemma keeps_set_attr t : keeps (set_attr t) (λ _, True).
Proof using Hn.
  unfold set_attr. apply keeps_if; intros _; [apply keeps_os_error|].
  eapply keeps_bind; [apply keeps_get_fid|]. intros fid Hfid.
  eapply keeps_bind; [apply keeps_fs_do; by repeat constructor|]. intros file _.
  repeat (eapply (keeps_bind _ _ _ _ (λ _, True)); [|intros _ _]);
    (apply keeps_if; intros _; [apply keeps_fs_do; repeat constructor|by apply keeps_ret]).
Qed.

(** Every request but the one that agrees on the version and the size. *)
Lemma keeps_dispatch m : (∀ t, m ≠ Tm.Version t) → valid m → keeps (dispatch m) (answers m).
Proof using Hn FsLaws0.
  intros Hv Hvalid.
  destruct keeps_small_requests as (Hwrite & Hclunk & Hremove & Hlopen & Hlcreate & Hrename & Hget_attr &
    Hfsync & Hlink & Hmkdir & Hrename_at & Hunlink_at).
  assert (∀ t : Tread, valid t → (0 ≤ Tread_count t)%Z) as Hread by (intros t (_ & _ & [? _] & _); done).
  assert (∀ t : Treaddir, valid t → (0 ≤ Treaddir_count t)%Z) as Hreaddir by (intros t (_ & _ & [? _] & _); done).
  destruct m; try (by edestruct Hv); cbn [dispatch];
    (eapply keeps_bind;
     [first [by apply keeps_walk|by apply keeps_read, Hread|by apply keeps_readdir, Hreaddir
            |apply keeps_attach|apply keeps_statfs|apply keeps_set_attr|solve [eauto 2]
            |by apply (keeps_ret _ _ _ (λ _, True))|apply (keeps_os_error _ _ _ (λ _, False))]|]);
    intros x Hx; try done; apply keeps_ret; first [exact Hx|apply fits_answers; first [exact Hx|by apply fits_empty]].
Qed.

Lemma version_answers t s : inv r n s → valid t → ∃ rmsg s' n',
  answer (Tm.Version t) s = (Ok rmsg, s') ∧ inv r n' s' ∧ (MIN_MESSAGE_SIZE ≤ n' ≤ MAX_MESSAGE_SIZE)%Z ∧
  fits n' rmsg.
Proof using Hn.
  intros [Hr Hm Hf Hl] _. unfold answer. cbn [dispatch]. unfold version.
  destruct (_ <? _)%Z eqn:Hlt.
  { eexists _, _, n. split; [reflexivity|]. split; [by split|]. split; [done|]. apply fits_error. }
  apply Z.ltb_ge in Hlt. set (n' := Z.min MAX_MESSAGE_SIZE (Tversion_msize t)).
  eexists _, _, n'. split; [reflexivity|]. split; [by split|].
  assert (MIN_MESSAGE_SIZE ≤ n' ≤ MAX_MESSAGE_SIZE)%Z as Hn'.
  { unfold n', MIN_MESSAGE_SIZE, MAX_MESSAGE_SIZE in *. lia. }
  split; [done|]. eapply fits_body.
  - eapply appends_struct, appends_fields_cons; [apply appends_u32|].
    eapply appends_fields_cons; [apply appends_string|apply appends_nil]. simpl. case_decide; by vm_compute.
  - unfold MIN_MESSAGE_SIZE, FRAME_HEADER_SIZE in *. simpl. case_decide; simpl; lia.
Qed.

Lemma answer_spec m s : inv r n s → valid m → ∃ rmsg s' n',
  answer m s = (Ok rmsg, s') ∧ inv r n' s' ∧ (MIN_MESSAGE_SIZE ≤ n' ≤ MAX_MESSAGE_SIZE)%Z ∧
  (∃ n'', fits n'' rmsg) ∧ (walk_short m → fits n' rmsg).
Proof using Hn FsLaws0.
  intros Hs Hv. assert ((∃ t, m = Tm.Version t) ∨ ∀ t, m ≠ Tm.Version t) as [[t ->]|Hnv]
    by (destruct m; first [left; by eexists|right; done]).
  { destruct (version_answers t s Hs Hv) as (rmsg & s' & n' & Ha & Hi & Hb & Hfit). naive_solver. }
  pose proof (keeps_dispatch m Hnv Hv s Hs) as Hd. unfold wp, answer in *.
  destruct (dispatch m s) as [[rmsg|e|] s']; [| |done].
  - destruct Hd as [Hi [He Hw]]. by exists rmsg, s', n.
  - exists (error_to_rmessage e), s', n. split; [done|]. split; [done|]. split; [done|].
    split; [exists n|intros _]; apply fits_error.
Qed.
End requests.

(** ** Connections *)

Section connections.
Context `{!Libc} {K : Type} `{!Fs K, !FsLaws K}.
Abbreviation Conn' := (Conn (K := K * list any_op)).

Definition start (r : Path) (k : K) : Conn' :=
  {| conn_server := new r (k, []); conn_in := []; conn_out := [] |}.

(** Bytes arrive, and messages are handled as long as that succeeds. *)
Inductive conn_step : Conn' → Conn' → Prop :=
| step_receive c bs : bytes_ok bs →
    conn_step c {| conn_server := conn_server c; conn_in := conn_in c ++ bs; conn_out := conn_out c |}
| step_handle c c' : handle_message c = (Ok tt, c') → conn_step c c'.

Definition conn_ok (r : Path) (c : Conn') : Prop :=
  bytes_ok (conn_in c) ∧ ∃ n, inv r n (conn_server c) ∧ (MIN_MESSAGE_SIZE ≤ n ≤ MAX_MESSAGE_SIZE)%Z.

(** All paths that were given to the file system are under the root. *)
Definition confined (r : Path) (c : Conn') : Prop := log_ok r (fs (conn_server c)).2.

Lemma conn_ok_confined r c : conn_ok r c → confined r c.
Proof. intros (_ & n & Hi & _). by eapply inv_log. Qed.

Lemma server_start_ok r k : conn_ok r (start r k).
Proof. split; [by constructor|]. exists MAX_MESSAGE_SIZE. split; [|by vm_compute]. by split; [| |apply map_Forall_empty|constructor]. Qed.

(** One message, in every case. *)
Lemma handle_message_spec r c : conn_ok r c →
  conn_ok r (handle_message c).2 ∧ (handle_message c).1 ≠ Panic ∧
  ∀ f rest, with_take (Z.to_nat (msize (conn_server c))) decode (conn_in c) = (Ok f, rest) →
    ∃ rmsg bs c', handle_message c = (Ok tt, c') ∧ conn_in c' = rest ∧ conn_out c' = conn_out c ++ bs ∧
      encode {| Rframe_tag := Tframe_tag f; Rframe_msg := rmsg |} [] = (Ok tt, bs) ∧
      (walk_short (Tframe_msg f) → (Z.of_nat (length bs) ≤ msize (conn_server c'))%Z).
Proof.
  intros [Hin (n & Hi & Hn)]. set (lim := Z.to_nat (msize (conn_server c))).
  pose proof (typed_with_take lim _ _ Tframe_typed (conn_in c) Hin) as Ht. unfold wp in Ht. unfold handle_message.
  fold lim. destruct (with_take lim decode (conn_in c)) as [[f|e|] rest] eqn:Hd; cbn [fst snd]; [| |done].
  - destruct Ht as [[_ Hv] Hrest]. apply (suffix_bytes_ok _ _ Hin) in Hrest as Hrok.
    destruct (answer_spec r n Hn (Tframe_msg f) (conn_server c) Hi Hv)
      as (rmsg & s' & n' & Ha & Hi' & Hn' & [n'' Hw] & Hfit).
    rewrite Ha. destruct (Hw (Tframe_tag f)) as (bs & He & _). rewrite He. cbn [fst snd].
    split; [split; [done|]; by exists n'|]. split; [done|]. intros ? ? [= <- <-].
    exists rmsg, bs, {| conn_server := s'; conn_in := rest; conn_out := conn_out c ++ bs |}.
    split; [done|]. split; [done|]. split; [done|]. split; [apply (He [])|].
    intros Hshort. cbn [conn_server]. rewrite (inv_msize _ _ _ Hi').
    destruct (Hfit Hshort (Tframe_tag f)) as (bs2 & He2 & Hl2).
    assert (bs = bs2) as -> by (pose proof (He []); pose proof (He2 []); simpl in *; congruence). done.
  - split; [|done]. split; [by eapply suffix_bytes_ok|]. by exists n.
Qed.

Lemma reachable_ok r k c : rtc conn_step (start r k) c → conn_ok r c.
Proof.
  intros Hc. remember (start r k) as c0 eqn:Hc0. assert (conn_ok r c0) as H0 by (subst; apply server_start_ok). clear Hc0.
  induction Hc as [c|c1 c2 c3 Hstep _ IH]; [done|]. apply IH. clear IH.
  destruct Hstep as [c bs Hbs|c c' Hh].
  - destruct H0 as [Hin Hn]. split; [by apply Forall_app|done].
  - pose proof (handle_message_spec r c H0) as [Hok _]. by rewrite Hh in Hok.
Qed.

(** C17: Confinement.  Whatever bytes a client sends, and however the host's file system answers, every
    path that the server gives to the file system (to open, read, list, create, rename, link or
    remove) is its root followed by ordinary names: no name is empty, a dot, two dots, or contains a
    separator.  Handling a message does not panic, and this holds of the paths that it uses too. *)
Theorem server_confined r k c : rtc conn_step (start r k) c →
  confined r c ∧ (handle_message c).1 ≠ Panic ∧ confined r (handle_message c).2.
Proof.
  intros Hc. apply reachable_ok in Hc as Hok. split; [by apply conn_ok_confined|].
  destruct (handle_message_spec r c Hok) as (Hok' & Hp & _). split; [done|]. by apply conn_ok_confined.
Qed.

(** C34: Requests are answered.  A request that can be read within the message size is answered by
    exactly one frame, with its tag; what follows it in the stream is left.  The frame is no longer
    than the message size that is then agreed on, when a walk has at most the sixteen names that
    the protocol allows. *)
Theorem requests_answered r k c f rest : rtc conn_step (start r k) c →
  with_take (Z.to_nat (msize (conn_server c))) decode (conn_in c) = (Ok f, rest) →
  ∃ rmsg bs c', handle_message c = (Ok tt, c') ∧ conn_in c' = rest ∧ conn_out c' = conn_out c ++ bs ∧
    encode {| Rframe_tag := Tframe_tag f; Rframe_msg := rmsg |} [] = (Ok tt, bs) ∧
    (walk_short (Tframe_msg f) → (Z.of_nat (length bs) ≤ msize (conn_server c'))%Z).
Proof. intros Hc Hd. apply reachable_ok in Hc. by eapply handle_message_spec. Qed.
End connections.

(** ** An example *)

#[local] Instance linux_libc : Libc := {|
  ENOENT := 2; EPERM := 1; ECONNREFUSED := 111; ECONNRESET := 104; ECONNABORTED := 103;
  ENOTCONN := 107; EADDRINUSE := 98; EADDRNOTAVAIL := 99; EPIPE := 32; EEXIST := 17;
  EWOULDBLOCK := 11; EINVAL := 22; ETIMEDOUT := 110; EIO := 5; EINTR := 4; EBADF := 9;
  EOPNOTSUPP := 95; EACCES := 13; ENOTDIR := 20; EISDIR := 21;
  O_NOCTTY := 0x100; O_NONBLOCK := 0x800; O_DSYNC := 0x1000; O_DIRECT := 0x10000; O_LARGEFILE := 0;
  O_DIRECTORY := 0x4000; O_NOFOLLOW := 0x8000; O_NOATIME := 0x40000; O_SYNC := 0x101000;
  O_CLOEXEC := 0x80000; UTIME_OMIT := 0x3ffffffe; UTIME_NOW := 0x3fffffff; AT_REMOVEDIR := 0x200;
  DT_DIR := 4; DT_REG := 8; DT_UNKNOWN := 0;
|}.

Definition dir_metadata : Metadata := {|
  is_dir := true; is_file := false; st_ino := 5; st_mode := 0x41ed; st_uid := 0; st_gid := 0;
  st_nlink := 2; st_rdev := 0; st_size := 0; st_blksize := 4096; st_blocks := 0; st_atime := 1;
  st_atime_nsec := 0; st_mtime := 2; st_mtime_nsec := 0; st_ctime := 3; st_ctime_nsec := 0;
|}.
(** A file system in which every path is a directory with two entries. *)
#[local] Instance dirs_fs : Fs () := λ A op _,
  (match op in FsOp B return B + io_error with
   | Fs_metadata _ | Entry_metadata _ | File_metadata _ => inl dir_metadata
   | Fs_open _ _ => inl 3%Z
   | Fs_read_dir p => inl [inl {| de_dir := p; de_name := [97%Z] |}; inl {| de_dir := p; de_name := [98; 99]%Z |}]
   | Libc_statfs64 _ => inr (from_raw_os_error 38)
   | File_read_at _ len _ => inl (replicate (Z.to_nat (Z.min len 4)) 0%Z)
   | File_write_at _ bs _ => inl (Z.of_nat (length bs))
   | Fs_remove_dir _ | Fs_remove_file _ | Fs_rename _ _ | Fs_hard_link _ _ | Fs_create_dir _ _
   | File_set_len _ _ | File_sync_all _ | File_sync_data _ | Libc_futimens _ _ _ | Libc_fchown _ _ _ => inl tt
   end, tt).
#[local] Instance dirs_fs_laws : FsLaws ().
Proof.
  split.
  - intros f len offset k k' bs [= <-] Hl. rewrite length_replicate. lia.
  - intros p k k' items e [= <-] He. set_solver.
Qed.

Definition frame_of (tag : Z) (m : Tmessage) : list Z := (encode {| Tframe_tag := tag; Tframe_msg := m |} []).2.
Definition srv : Path := bytes_of_string "/srv".
(** The client agrees on a message size of 256, attaches, and walks through the given names. *)
Definition session (names : list (list Z)) : list Z :=
  frame_of 1 (Tm.Version {| Tversion_msize := 256%Z; Tversion_version := VERSION_9P2000_L |})
  ++ frame_of 2 (Tm.Attach {| Tattach_fid := 0%Z; Tattach_afid := 0%Z; Tattach_uname := []; Tattach_aname := [];
                              Tattach_n_uname := 0%Z |})
  ++ frame_of 3 (Tm.Walk {| Twalk_fid := 0%Z; Twalk_newfid := 1%Z; Twalk_wnames := names |}).
Definition received (names : list (list Z)) : Conn (K := () * list any_op) :=
  {| conn_server := new srv (tt, []); conn_in := session names; conn_out := [] |}.
Definition handled {K} `{!Libc, !Fs K} (c : Conn (K := K)) : Conn := (handle_message c).2.

Lemma session_reachable names : bytes_ok (session names) →
  (handle_message (received names)).1 = Ok tt → (handle_message (handled (received names))).1 = Ok tt →
  rtc conn_step (start srv tt) (handled (handled (received names))).
Proof.
  intros Hb H1 H2. apply (rtc_l _ _ (received names)); [by apply (step_receive (start srv tt) (session names))|].
  apply (rtc_l _ _ (handled (received names))); [|apply rtc_once]; apply step_handle;
    [rewrite <- H1|rewrite <- H2]; apply surjective_pairing.
Qed.

(** [/srv/a/../b]: a name, two dots and another name. *)
Definition some_names : list (list Z) := [[97]; [46; 46]; [98]]%Z.
Lemma session_ok names : forallb (λ b, (0 <=? b) && (b <? 256))%Z (session names) = true → bytes_ok (session names).
Proof.
  intros Hb. apply Forall_forall. intros b Hin. rewrite forallb_forall in Hb.
  apply list_elem_of_In, Hb, andb_true_iff in Hin as [?%Z.leb_le ?%Z.ltb_lt]. done.
Qed.

Lemma server_confined_witness :
  (fs (conn_server (handled (handled (handled (received some_names)))))).2
    = [existT _ (Fs_metadata srv); existT _ (Fs_metadata (srv ++ [47; 97]%Z)); existT _ (Fs_metadata srv);
       existT _ (Fs_metadata (srv ++ [47; 98]%Z))] ∧
  confined srv (handled (handled (handled (received some_names)))).
Proof.
  split; [vm_compute; reflexivity|].
  apply (server_confined srv tt (handled (handled (received some_names)))).
  apply session_reachable; [apply session_ok|..]; vm_compute; reflexivity.
Defined.

Lemma requests_answered_witness : ∃ rmsg bs c',
  handle_message (handled (handled (received some_names))) = (Ok tt, c') ∧
  conn_in c' = [] ∧ conn_out c' = conn_out (handled (handled (received some_names))) ++ bs ∧
  encode {| Rframe_tag := 3%Z; Rframe_msg := rmsg |} [] = (Ok tt, bs) ∧
  (Z.of_nat (length bs) ≤ msize (conn_server c'))%Z.
Proof.
  edestruct (requests_answered srv tt (handled (handled (received some_names)))) as (rmsg & bs & c' & H1 & H2 & H3 & H4 & H5).
  - apply session_reachable; [apply session_ok|..]; vm_compute; reflexivity.
  - vm_compute. reflexivity.
  - exists rmsg, bs, c'. split; [exact H1|]. split; [exact H2|]. split; [exact H3|]. split; [exact H4|].
    apply H5. unfold walk_short, MAXWELEM. simpl. lia.
Defined.

(** A walk of a hundred empty names fits into a message of 256 bytes; its answer does not. *)
Lemma long_walk_exceeds_msize :
  let c := handled (handled (received (replicate 100 []))) in
  let c' := handled c in
  handle_message c = (Ok tt, c') ∧ msize (conn_server c') = 256%Z ∧
  length (conn_in c) = 217 ∧ length (conn_out c') = length (conn_out c) + 1309.
Proof. vm_compute. auto. Qed.

(** ** Directories, page by page *)

#[local] Arguments byte_size : simpl never.
#[local] Arguments encode : simpl never.

(** A listing from an offset on: the offset of an entry is that of the end of its encoding, as if
    the entries were written one after the other. *)
Fixpoint listing (off : Z) (l : list Dirent) : Prop :=
  match l with
  | [] => True
  | e :: l' => Dirent_offset e = (off + byte_size e)%Z ∧ listing (Dirent_offset e) l'
  end.
Definition end_offset (off : Z) (l : list Dirent) : Z :=
  match last l with Some e => Dirent_offset e | None => off end.
Definition short_name (e : Dirent) : Prop := (Z.of_nat (length (Dirent_name e)) ≤ U16_MAX)%Z.
Definition total_size (l : list Dirent) : Z := foldr Z.add 0%Z (byte_size <$> l).
Definition dirent_bytes (e : Dirent) : list Z := (encode e []).2.

(** [page] is what [l] gives for a buffer: as many entries as fit. *)
Definition page_of (cap : Z) (l page : list Dirent) : Prop := ∃ rest,
  l = page ++ rest ∧ (total_size page ≤ cap)%Z ∧
  match rest with [] => True | e :: _ => (cap < total_size page + byte_size e)%Z end.

Lemma short_size e : short_name e → byte_size e = (24 + Z.of_nat (length (Dirent_name e)))%Z.
Proof. unfold short_name, U16_MAX. intros He. rewrite dirent_size, word_cast_small; [done|done|unfold is_word; lia]. Qed.
Lemma dirent_bytes_spec e : short_name e →
  (∀ w, encode e w = (Ok tt, w ++ dirent_bytes e)) ∧ Z.of_nat (length (dirent_bytes e)) = byte_size e.
Proof.
  intros He. destruct (appends_Dirent e He) as (bs & Henc & Hlen).
  assert (dirent_bytes e = bs) as -> by (unfold dirent_bytes; by rewrite Henc). done.
Qed.

Lemma end_offset_cons off e l : end_offset off (e :: l) = end_offset (Dirent_offset e) l.
Proof. unfold end_offset. rewrite last_cons. by destruct (last l). Qed.
Lemma listing_app off l1 l2 : listing off (l1 ++ l2) ↔ listing off l1 ∧ listing (end_offset off l1) l2.
Proof.
  revert off. induction l1 as [|e l1 IH]; intros off; simpl; [naive_solver|]. rewrite IH.
  rewrite end_offset_cons. tauto.
Qed.
Lemma listing_le off l : listing off l → Forall short_name l → (off ≤ end_offset off l)%Z.
Proof.
  revert off. induction l as [|e l IH]; intros off; simpl; [done|]. intros [Ho Hl] [He Hs]%Forall_cons.
  specialize (IH _ Hl Hs). rewrite (short_size e He) in Ho.
  rewrite end_offset_cons. lia.
Qed.

(** Skipping to the end of some entries leaves the others. *)
Lemma skip_listing off l1 l2 : listing off (l1 ++ l2) → Forall short_name (l1 ++ l2) →
  skip_dirents (end_offset off l1) (l1 ++ l2) = l2.
Proof.
  revert off. induction l1 as [|e l1 IH]; intros off; simpl.
  - destruct l2 as [|e l2]; [done|]. simpl. intros [Ho _] [He _]%Forall_cons.
    rewrite (short_size e He) in Ho. unfold end_offset. simpl.
    by rewrite (proj2 (Z.leb_gt _ _)) by (rewrite Ho; lia).
  - intros [Ho Hl] [He Hs]%Forall_cons.
    rewrite end_offset_cons.
    apply listing_app in Hl as Hl'. destruct Hl' as [Hl1 _]. apply Forall_app in Hs as Hs'. destruct Hs' as [Hs1 _].
    rewrite (proj2 (Z.leb_le _ _)) by (by apply listing_le). by apply IH.
Qed.

Lemma write_dirents_page cap l buf : Forall short_name l → (Z.of_nat (length buf) ≤ cap)%Z →
  ∃ page, page_of (cap - Z.of_nat (length buf)) l page ∧
    write_dirents cap l buf = (Ok tt, buf ++ mjoin (dirent_bytes <$> page)).
Proof.
  revert buf. induction l as [|e l IH]; intros buf Hs Hb; cbn [write_dirents].
  { exists []. split; [exists []; split; [done|]; unfold total_size; simpl; lia|]. by rewrite app_nil_r. }
  apply Forall_cons in Hs as [He Hs]. unfold mbind at 1, M_bind at 1, gets. destruct (_ <? _)%Z eqn:Hlt.
  - apply Z.ltb_lt in Hlt. exists []. split; [|by rewrite app_nil_r].
    exists (e :: l). split; [done|]. unfold total_size. simpl. lia.
  - apply Z.ltb_ge in Hlt. destruct (dirent_bytes_spec e He) as [Henc Hlen].
    rewrite (bind_eq_ok _ _ _ _ _ (Henc buf)).
    destruct (IH (buf ++ dirent_bytes e) Hs) as (page & (rest & -> & Ht & Hr) & Hw); [rewrite length_app; lia|].
    exists (e :: page). rewrite length_app, Nat2Z.inj_add, Hlen in *. split.
    + exists rest. split; [done|]. change (total_size (e :: page)) with (byte_size e + total_size page)%Z.
      split; [lia|]. destruct rest; [done|]. lia.
    + rewrite Hw, fmap_cons. change (mjoin (dirent_bytes e :: ?x)) with (dirent_bytes e ++ mjoin x).
      by rewrite <- app_assoc.
Qed.

Lemma total_size_nonneg l : Forall short_name l → (0 ≤ total_size l)%Z.
Proof.
  induction 1 as [|e l He _ IH]; [done|]. change (total_size (e :: l)) with (byte_size e + total_size l)%Z.
  rewrite (short_size e He). lia.
Qed.

Section directories.
Context `{!Libc} {K : Type} `{!Fs K}.
Implicit Types (s : Server K).

Lemma read_dirents_listing off items s l s' : (0 ≤ off)%Z →
  read_dirents off items s = (Ok l, s') → Forall short_name l → (off + total_size l < 2 ^ 64)%Z →
  listing off l ∧ (λ e, inl (Dirent_name e) : list Z + io_error) <$> l = (sum_map de_name id) <$> items.
Proof.
  revert off s l. induction items as [|item items IH]; intros off s l Hoff; cbn [read_dirents].
  { intros [= <- _]. done. }
  intros Hr Hs Ht. destruct item as [e|err]; [|done]. ok_inv. simplify_eq.
  match goal with H : of_sum _ = Ok ?x |- _ => injection H as <- end.
  match goal with H : fs_do (Entry_metadata _) _ = (Ok ?x, _) |- _ => rename x into md end.
  destruct (utf8_valid _); [|done]. ok_inv. subst l.
  match goal with H : read_dirents _ _ _ = (Ok ?x, _) |- _ => rename x into rest; rename H into Hrest end.
  apply Forall_cons in Hs as [He Hs]. change (total_size (?e :: ?l)) with (byte_size e + total_size l)%Z in Ht.
  pose proof (short_size _ He) as Hsize. rewrite (dirent_size (dirent_of _ _ 0)) in *. rewrite dirent_size in Hsize, Ht.
  cbn [dirent_of Dirent_name] in Hsize, Ht, Hrest |- *.
  set (off' := word_cast 64 _) in *. rewrite Hsize in *.
  pose proof (total_size_nonneg _ Hs).
  assert (off' = off + (24 + Z.of_nat (length (de_name e))))%Z as Hoff'.
  { unfold off'. rewrite Hsize. apply word_cast_small; [done|]. unfold is_word. cbn in *. lia. }
  destruct (IH off' _ _ ltac:(cbn in *; lia) Hrest Hs ltac:(cbn in *; lia)) as [Hl Hnames].
  split; [|rewrite !fmap_cons, Hnames; done].
  cbn [listing]. split; [|done]. rewrite dirent_size. cbn [dirent_of Dirent_name Dirent_offset]. by rewrite Hsize, Hoff'.
Qed.

Lemma fs_do_msize {A} (op : FsOp A) n : preserves (λ s, msize s = n) (fs_do op).
Proof. intros s Hs. unfold fs_do. by destruct (fs_call A op (fs s)). Qed.
Lemma read_dirents_msize off items n : preserves (λ s, msize s = n) (read_dirents off items).
Proof.
  revert off. induction items as [|item items IH]; intros off; cbn [read_dirents]; [apply preserves_ret|].
  apply preserves_bind; [apply preserves_lift|]. intros e. apply preserves_bind; [apply fs_do_msize|]. intros md.
  apply preserves_if; intros _; [|by intros s].
  apply preserves_bind; [apply IH|]. intros rest. apply preserves_ret.
Qed.
Lemma end_offset_pos l : l ≠ [] → listing 0 l → Forall short_name l → (0 < end_offset 0 l)%Z.
Proof.
  intros Hne. destruct l as [|e l _] using rev_ind; [done|]. rewrite listing_app, Forall_app.
  intros [Hl [Ho _]] [Hs [He _]%Forall_cons]. pose proof (listing_le 0 l Hl Hs).
  rewrite (short_size e He) in Ho. unfold end_offset at 1. rewrite last_snoc, Ho. lia.
Qed.

(** The buffer of an answer: what is left of a message, or less when the client asks for less. *)
Definition readdir_room (s : Server K) (t : Treaddir) : Z := Z.min (msize s - 11) (Treaddir_count t).

(** One request.  A listing that starts at offset zero reads the
    directory: the entries have the names the file system gave, in their order, and are kept with
    the fid; the answer is the encoding of as many of them as fit.  A request that goes on from the
    offset of an entry of the listing is answered from what is kept, with the entries that follow
    it, as many as fit, and changes nothing. *)
Lemma readdir_page (t : Treaddir) s fid :
  fids s !! (Treaddir_fid t : Z) = Some fid → is_dir (fid_metadata fid) = true →
  (MIN_MESSAGE_SIZE ≤ msize s ≤ MAX_MESSAGE_SIZE)%Z → (0 ≤ Treaddir_count t)%Z →
  (Treaddir_offset t = 0%Z → ∀ items s1 l s2,
     fs_do (Fs_read_dir (fid_path fid)) s = (Ok items, s1) → read_dirents 0 items s1 = (Ok l, s2) →
     Forall short_name l → (total_size l < 2 ^ 64)%Z →
     listing 0 l ∧ (λ e, inl (Dirent_name e) : list Z + io_error) <$> l = sum_map de_name id <$> items ∧
     ∃ page, page_of (readdir_room s t) l page ∧
       readdir t s = (Ok {| Rreaddir_data := MkData (mjoin (dirent_bytes <$> page)) |},
         with_fids (insert (Treaddir_fid t : Z) (with_dirents fid l)) s2)) ∧
  (∀ l1 l2, fid_dirents fid = Some (l1 ++ l2) → l1 ≠ [] → listing 0 (l1 ++ l2) →
     Forall short_name (l1 ++ l2) → Treaddir_offset t = end_offset 0 l1 →
     ∃ page, page_of (readdir_room s t) l2 page ∧
       readdir t s = (Ok {| Rreaddir_data := MkData (mjoin (dirent_bytes <$> page)) |}, s)).
Proof.
  intros Hfid Hdir Hm Hc. unfold MIN_MESSAGE_SIZE, MAX_MESSAGE_SIZE in Hm.
  assert (∀ l s', msize s' = msize s → Forall short_name l → ∃ page, page_of (readdir_room s t) l page ∧
    write_dirents (Z.min (word_cast 32 (msize s' - READDIR_HEADER_SIZE)) (Treaddir_count t)) l []
      = (Ok tt, mjoin (dirent_bytes <$> page))) as Hpage.
  { intros l s' Hs' Hl. change READDIR_HEADER_SIZE with 11%Z. rewrite Hs', word_cast_small by (unfold is_word; lia).
    destruct (write_dirents_page (readdir_room s t) l [] Hl) as (page & Hp & Hw); [unfold readdir_room; simpl; lia|].
    exists page. by rewrite Z.sub_0_r in Hp. }
  assert (∀ e, (get_fid e (Treaddir_fid t) : M (Server K) io_error _) s = (Ok fid, s)) as Hget.
  { intros e. unfold get_fid, gets, mbind, M_bind. by rewrite Hfid. }
  split.
  - intros Hoff items s1 l s2 Hitems Hread Hs Ht.
    destruct (read_dirents_listing 0 items s1 l s2 ltac:(lia) Hread Hs Ht) as [Hl Hnames].
    split; [done|]. split; [done|].
    assert (msize s2 = msize s) as Hms.
    { pose proof (fs_do_msize (Fs_read_dir (fid_path fid)) (msize s) s eq_refl) as H1. rewrite Hitems in H1.
      pose proof (read_dirents_msize 0 items (msize s) s1 H1) as H2. by rewrite Hread in H2. }
    set (s3 := with_fids (insert (Treaddir_fid t : Z) (with_dirents fid l)) s2). destruct (Hpage l s3 Hms Hs) as (page & Hp & Hw).
    exists page. split; [done|]. unfold readdir. rewrite (bind_eq_ok _ _ _ _ _ (Hget _)), Hdir, Hoff. cbn [negb Z.eqb].
    rewrite (bind_eq_ok _ _ s (Some l) s3) by (rewrite (bind_eq_ok _ _ _ _ _ Hitems), (bind_eq_ok _ _ _ _ _ Hread); done).
    unfold mbind, M_bind, ok_or, gets. cbn [mret M_ret].
    pose proof (skip_listing 0 [] l Hl Hs) as Hskip. change (end_offset 0 []) with 0%Z in Hskip.
    cbn [app] in Hskip. by rewrite Hskip, Hw.
  - intros l1 l2 Hd Hne Hl Hs Hoff.
    assert (Treaddir_offset t ≠ 0%Z) as Hoff0.
    { rewrite Hoff. apply listing_app in Hl as [Hl _]. apply Forall_app in Hs as [Hs _].
      pose proof (end_offset_pos l1 Hne Hl Hs). lia. }
    destruct (Hpage l2 s eq_refl) as (page & Hp & Hw); [by apply Forall_app in Hs as [_ ?]|].
    exists page. split; [done|]. unfold readdir. rewrite (bind_eq_ok _ _ _ _ _ (Hget _)), Hdir. cbn [negb].
    rewrite (proj2 (Z.eqb_neq _ _) Hoff0). unfold mbind, M_bind, ok_or, gets. rewrite Hd. cbn [mret M_ret].
    rewrite Hoff, skip_listing, Hw by done. done.
Qed.
(** *** A client that reads a directory to its end *)

(** The entries of a page, read back one after the other; fuel as for [parse_page]. *)
Fixpoint parse_dirents (fuel : nat) (bs : list Z) : option (list Dirent) :=
  match bs, fuel with
  | [], _ => Some []
  | _, O => None
  | _, S fuel' =>
    match (decode : Reader Dirent) bs with
    | (Ok e, rest) => cons e <$> parse_dirents fuel' rest
    | _ => None
    end
  end.
(** An entry takes at least a byte. *)
Definition parse_page (bs : list Z) : option (list Dirent) := parse_dirents (length bs) bs.

(** The client asks from an offset on, then from the offset of the last entry that it was given,
    until a page is empty.  [None] is a request that fails, a page that cannot be read, or no fuel. *)
Fixpoint list_directory (fuel : nat) (fid : u32) (count : u32) (offset : u64) (s : Server K) :
    option (list Dirent * Server K) :=
  match fuel with
  | O => None
  | S fuel' =>
    match readdir {| Treaddir_fid := fid; Treaddir_offset := offset; Treaddir_count := count |} s with
    | (Ok r, s') =>
      page ← parse_page (data (Rreaddir_data r));
      match last page with
      | None => Some ([], s')
      | Some e =>
        '(rest, s'') ← list_directory fuel' fid count (Dirent_offset e) s';
        Some (page ++ rest, s'')
      end
    | _ => None
    end
  end.

(** The entries before the first one that is larger than a page. *)
Fixpoint fitting (cap : Z) (l : list Dirent) : list Dirent :=
  match l with
  | [] => []
  | e :: l' => if (byte_size e <=? cap)%Z then e :: fitting cap l' else []
  end.

Lemma valid_short (e : Dirent) : valid e → short_name e.
Proof. intros (_ & _ & _ & (_ & He) & _). done. Qed.

Lemma parse_dirents_bytes fuel page : Forall valid page → length page ≤ fuel →
  parse_dirents fuel (mjoin (dirent_bytes <$> page)) = Some page.
Proof.
  revert fuel. induction page as [|e page IH]; intros fuel; [by destruct fuel|].
  intros [He Hp]%Forall_cons Hf. destruct fuel as [|fuel]; [simpl in Hf; lia|].
  destruct (written_back e He) as (bs & _ & _ & Henc & Hdec).
  destruct (dirent_bytes_spec e (valid_short e He)) as [_ Hlen].
  rewrite (short_size e (valid_short e He)) in Hlen.
  assert (dirent_bytes e = bs) as Hbs by (unfold dirent_bytes; by rewrite Henc).
  rewrite fmap_cons. change (mjoin (?a :: ?x)) with (a ++ mjoin x). rewrite Hbs in *.
  destruct bs as [|b bs]; [simpl in Hlen; lia|]. cbn [parse_dirents app].
  change (b :: bs ++ ?x) with ((b :: bs) ++ x). rewrite Hdec, IH; [done|done|simpl in Hf; lia].
Qed.
Lemma page_length page : Forall valid page → length page ≤ length (mjoin (dirent_bytes <$> page)).
Proof.
  induction 1 as [|e page He _ IH]; [done|].
  rewrite fmap_cons. change (mjoin (?a :: ?x)) with (a ++ mjoin x). rewrite length_app.
  destruct (dirent_bytes_spec e (valid_short e He)) as [_ Hlen].
  rewrite (short_size e (valid_short e He)) in Hlen. simpl. lia.
Qed.
Lemma parse_page_bytes page : Forall valid page → parse_page (mjoin (dirent_bytes <$> page)) = Some page.
Proof. intros Hp. by apply parse_dirents_bytes, page_length. Qed.

Lemma fitting_app cap page rest : Forall short_name page → (total_size page ≤ cap)%Z →
  fitting cap (page ++ rest) = page ++ fitting cap rest.
Proof.
  induction 1 as [|e page He Hp IH]; [done|]. change (total_size (e :: page)) with (byte_size e + total_size page)%Z.
  pose proof (total_size_nonneg page Hp). pose proof (short_size e He). intros Ht. cbn [app fitting].
  rewrite (proj2 (Z.leb_le _ _)) by lia. f_equal. apply IH. lia.
Qed.

(** A page is empty only before an entry that does not fit, or at the end. *)
Lemma page_of_empty cap l : page_of cap l [] → fitting cap l = [].
Proof.
  intros (rest & -> & _ & Hr). destruct rest as [|e rest]; [done|]. cbn [app fitting]. unfold total_size in Hr.
  simpl in Hr. by rewrite (proj2 (Z.leb_gt _ _)) by lia.
Qed.
Lemma fitting_all cap l : Forall (λ e, (byte_size e ≤ cap)%Z) l → fitting cap l = l.
Proof. induction 1 as [|e l He _ IH]; [done|]. cbn [fitting]. by rewrite (proj2 (Z.leb_le _ _)), IH. Qed.

Lemma end_offset_last off l1 page e : last page = Some e → end_offset off (l1 ++ page) = Dirent_offset e.
Proof. intros He. unfold end_offset. by rewrite last_app, He. Qed.

(** The rest of a listing that is kept with the fid. *)
Lemma list_directory_rest fuel (f count : u32) s fid l1 l2 :
  fids s !! (f : Z) = Some fid → is_dir (fid_metadata fid) = true →
  (MIN_MESSAGE_SIZE ≤ msize s ≤ MAX_MESSAGE_SIZE)%Z → (0 ≤ count)%Z →
  fid_dirents fid = Some (l1 ++ l2) → l1 ≠ [] → listing 0 (l1 ++ l2) → Forall valid (l1 ++ l2) →
  length l2 < fuel →
  list_directory fuel f count (end_offset 0 l1) s = Some (fitting (Z.min (msize s - 11) count) l2, s).
Proof.
  intros Hf Hd Hm Hc. revert l1 l2. induction fuel as [|fuel IH]; intros l1 l2 Hk Hne Hl Hv Hfuel; [lia|].
  assert (Forall short_name (l1 ++ l2)) as Hs by (eapply Forall_impl; [exact Hv|apply valid_short]).
  set (t := {| Treaddir_fid := f; Treaddir_offset := end_offset 0 l1; Treaddir_count := count |}).
  destruct (readdir_page t s fid Hf Hd Hm Hc) as [_ Hrest].
  destruct (Hrest l1 l2 Hk Hne Hl Hs eq_refl) as (page & Hp & Hr). cbn [list_directory]. fold t. rewrite Hr.
  change (readdir_room s t) with (Z.min (msize s - 11) count) in Hp.
  pose proof Hp as (rest & -> & Ht & _). rewrite !Forall_app in Hv, Hs. destruct Hv as (Hv1 & Hvp & Hvr).
  cbn [data Rreaddir_data]. rewrite parse_page_bytes by done. cbn [mbind option_bind].
  destruct (last page) as [e|] eqn:Hlast.
  - rewrite <- (end_offset_last 0 l1 page e Hlast), (IH (l1 ++ page) rest).
    + cbn [mbind option_bind]. by rewrite fitting_app by naive_solver.
    + by rewrite <- assoc_L by apply _.
    + by destruct l1.
    + by rewrite <- assoc_L by apply _.
    + by rewrite !Forall_app.
    + rewrite length_app in Hfuel. destruct page; [done|]. simpl in Hfuel. lia.
  - apply last_None in Hlast as ->. by rewrite (page_of_empty _ _ Hp).
Qed.

(** C37: Reading a directory page by page, each page from the offset of the last entry of the one before,
    until a page is empty, gives the entries of the directory as it was when the first page was asked for, once
    each, with the names and in the order that the file system gave: all of them when
    each fits into a page by itself, and otherwise exactly those before the first that does not,
    where the empty page is taken for the end.  It takes no more requests than there
    are entries and one. *)
Theorem readdir_pages (f count : u32) s fid items s1 l s2 :
  fids s !! (f : Z) = Some fid → is_dir (fid_metadata fid) = true →
  (MIN_MESSAGE_SIZE ≤ msize s ≤ MAX_MESSAGE_SIZE)%Z → (0 ≤ count)%Z →
  fs_do (Fs_read_dir (fid_path fid)) s = (Ok items, s1) → read_dirents 0 items s1 = (Ok l, s2) →
  Forall valid l → (total_size l < 2 ^ 64)%Z →
  let room := Z.min (msize s - 11) count in
  let s' := with_fids (insert (f : Z) (with_dirents fid l)) s2 in
  (λ e, inl (Dirent_name e) : list Z + io_error) <$> l = sum_map de_name id <$> items ∧
  (∀ fuel, length l < fuel → list_directory fuel f count 0%Z s = Some (fitting room l, s')) ∧
  (Forall (λ e, (byte_size e ≤ room)%Z) l →
    list_directory (S (length l)) f count 0%Z s = Some (l, s')).
Proof.
  intros Hf Hd Hm Hc Hitems Hread Hv Ht room s'.
  assert (Forall short_name l) as Hs by (eapply Forall_impl; [exact Hv|apply valid_short]).
  set (t := {| Treaddir_fid := f; Treaddir_offset := 0%Z; Treaddir_count := count |}).
  destruct (readdir_page t s fid Hf Hd Hm Hc) as [H0 _].
  destruct (H0 eq_refl items s1 l s2 Hitems Hread Hs Ht) as (Hl & Hnames & page & Hp & Hr).
  change (readdir_room s t) with room in Hp. split; [done|].
  assert (∀ fuel, length l < fuel → list_directory fuel f count 0%Z s = Some (fitting room l, s')) as Hall.
  { intros fuel Hfuel. destruct fuel as [|fuel]; [lia|]. cbn [list_directory]. fold t. rewrite Hr. cbn [t Treaddir_fid]. fold s'.
    pose proof Hp as (rest & -> & Htot & _). rewrite !Forall_app in Hv, Hs. destruct Hv as (Hvp & Hvr).
    cbn [data Rreaddir_data]. rewrite parse_page_bytes by done. cbn [mbind option_bind].
    destruct (last page) as [e|] eqn:Hlast; [|apply last_None in Hlast as ->; by rewrite (page_of_empty _ _ Hp)].
    rewrite <- (end_offset_last 0 [] page e Hlast). cbn [app].
    assert (msize s' = msize s) as Hms.
    { pose proof (fs_do_msize (Fs_read_dir (fid_path fid)) (msize s) s eq_refl) as H1. rewrite Hitems in H1.
      pose proof (read_dirents_msize 0 items (msize s) s1 H1) as H2. by rewrite Hread in H2. }
    rewrite (list_directory_rest fuel f count s' (with_dirents fid (page ++ rest)) page rest).
    - cbn [mbind option_bind]. rewrite Hms. fold room. by rewrite fitting_app by naive_solver.
    - apply lookup_insert_eq.
    - done.
    - by rewrite Hms.
    - done.
    - done.
    - by intros ->.
    - done.
    - by rewrite Forall_app.
    - rewrite length_app in Hfuel. destruct page; [done|]. simpl in Hfuel. lia. }
  split; [done|]. intros Hfit. rewrite Hall by lia. by rewrite fitting_all.
Qed.
End directories.

Definition dir_fid (dirents : option (list Dirent)) : Fid :=
  {| fid_path := srv; fid_metadata := dir_metadata; fid_file := None; fid_dirents := dirents |}.
Definition dir_server (dirents : option (list Dirent)) : Server () :=
  {| root := srv; msize := 256; fids := {[0%Z := dir_fid dirents]}; fs := tt |}.
Definition readdir_from (offset : Z) : Treaddir :=
  {| Treaddir_fid := 0%Z; Treaddir_offset := offset; Treaddir_count := 30%Z |}.
Definition entry_a : Dirent := dirent_of dir_metadata [97]%Z 25.
Definition entry_bc : Dirent := dirent_of dir_metadata [98; 99]%Z 51.

(** Thirty bytes hold one of the two entries: the first, and then the second. *)
Lemma readdir_pages_witness :
  list_directory 3 0%Z 30%Z 0%Z (dir_server None)
    = Some ([entry_a; entry_bc], dir_server (Some [entry_a; entry_bc])).
Proof.
  edestruct (readdir_pages 0%Z 30%Z (dir_server None) (dir_fid None)) as (_ & _ & H);
    [reflexivity|reflexivity|vm_compute; split; congruence|vm_compute; congruence|reflexivity
    |vm_compute; reflexivity| |vm_compute; reflexivity|].
  - repeat constructor; vm_compute; congruence.
  - apply H. repeat constructor; vm_compute; congruence.
Defined.

(** The smallest message has no room for an entry with a name of 230 bytes: the page before it is
    empty, although two entries are left. *)
Lemma long_name_hides :
  (readdir {| Treaddir_fid := 0%Z; Treaddir_offset := 25%Z; Treaddir_count := 8192%Z |}
     (dir_server (Some [entry_a; dirent_of dir_metadata (replicate 230 97%Z) 279; entry_bc]))).1
  = Ok {| Rreaddir_data := MkData [] |}.
Proof. vm_compute. reflexivity. Qed.

