(* ===== verification/P9Cli.v ===== *)
(** * P9Cli: the program around the 9P server

    Model of [framework/9p/crosvm-9p-server/cli/src/main.rs]: the address that the server listens
    on, the sockets that it takes over or makes, and the loop that serves a connection with
    [P9Server].  The operations of the system are the class [Os], with arbitrary behaviour; the parser of
    network addresses and the result of [getopts] are arguments.

    Then: addresses are read as they are written ([address_roundtrip]); a connection
    is served until its bytes end, each request answered in order, with every path in the exported
    directory ([connection_served]); a file
    that is not a socket is never removed ([other_files_kept]); a relative socket path is refused
    before the system is called ([relative_path_refused]). *)

From stdpp Require Import strings.
From S2P Require Import Prelude.
From S2P Require Import Bytes.
From S2P Require Import Numbers.
From S2P Require Import P9Wire.
From S2P Require Import P9Messages.
From S2P Require Import P9Path.
From S2P Require Import P9Server.
From S2P Require Import P9ServerSpec.

(** ** Addresses *)
Definition UNIX : list Z := bytes_of_string "unix:".
Definition UNIX_FD : list Z := bytes_of_string "unix-fd:".

Fixpoint starts_with (s pat : list Z) : bool :=
  match pat, s with
  | [], _ => true
  | p :: pat', c :: s' => (p =? c)%Z && starts_with s' pat'
  | _, _ => false
  end.

Section cli.
(** [net::SocketAddr] with its parser and the texts of foreign errors. *)
Context {SocketAddr AddrParseError GetoptsFail : Type}.
Context (parse_net : list Z → SocketAddr + AddrParseError).

Inductive ListenAddress := ANet (addr : SocketAddr) | AUnix (path : list Z) | AUnixFd (fd : Z).
Inductive ParseAddressError := MissingUnixPath | MissingUnixFd | ENet (e : AddrParseError) | EUnixFd (e : ParseIntError).

Definition from_str (s : list Z) : ListenAddress + ParseAddressError :=
  if starts_with s UNIX then
    if length UNIX <? length s then inl (AUnix (drop (length UNIX) s)) else inr MissingUnixPath
  else if starts_with s UNIX_FD then
    if length UNIX_FD <? length s then
      match parse_i32 (drop (length UNIX_FD) s) with inl fd => inl (AUnixFd fd) | inr e => inr (EUnixFd e) end
    else inr MissingUnixFd
  else match parse_net s with inl addr => inl (ANet addr) | inr e => inr (ENet e) end.

Lemma starts_with_app pat s : starts_with (pat ++ s) pat = true.
Proof. induction pat as [|p pat IH]; [by destruct s|]. simpl. by rewrite Z.eqb_refl. Qed.

(** Paths and descriptors are read as they are written; without one, the address is refused. *)
Lemma address_roundtrip path fd :
  from_str (UNIX ++ path) = (if decide (path = []) then inr MissingUnixPath else inl (AUnix path)) ∧
  from_str UNIX_FD = inr MissingUnixFd ∧
  ((0 ≤ fd < 2 ^ 31)%Z → from_str (UNIX_FD ++ decimal fd) = inl (AUnixFd fd)).
Proof.
  split_and!.
  - unfold from_str. rewrite starts_with_app, length_app, drop_app_length. case_decide as Hp; [by subst|].
    destruct (Nat.ltb_spec (length UNIX) (length UNIX + length path)); [done|]. destruct path; simpl in *; [done|lia].
  - done.
  - intros Hfd. unfold from_str. change (starts_with (UNIX_FD ++ decimal fd) UNIX) with false. cbv iota.
    rewrite starts_with_app, length_app, drop_app_length. unfold parse_i32. rewrite parse_int_decimal by lia.
    destruct (decimal_shape fd ltac:(lia)) as (c & s & -> & _).
    destruct (Nat.ltb_spec (length UNIX_FD) (length UNIX_FD + length (c :: s))); [done|]. simpl in *. lia.
Qed.

(** ** The system *)
Record FileType := { is_socket : bool }.
Inductive OsOp : Type → Type :=
| Path_exists (p : Path) : OsOp bool
| Path_metadata (p : Path) : OsOp FileType
| Remove_file (p : Path) : OsOp unit
| Unix_bind (p : Path) : OsOp Z
| Libc_chown (p : Path) (uid gid : Z) : OsOp unit
| Fd_metadata (fd : Z) : OsOp FileType
| Libc_listen (fd backlog : Z) : OsOp unit
| Libc_fcntl_dupfd_cloexec (fd : Z) : OsOp Z
| Tcp_bind (addr : SocketAddr) : OsOp Z
| Accept (listener : Z) : OsOp Z
| Try_clone (stream : Z) : OsOp Z
| Spawn_handle_client (root : Path) (reader writer : Z) : OsOp unit
| Print_usage : OsOp unit.
Context {K : Type} (os_call : ∀ A, OsOp A → K → (A + io_error) * K).
Definition os {A} (op : OsOp A) : M K io_error A := λ k,
  match os_call A op k with (inl a, k') => (Ok a, k') | (inr e, k') => (Err e, k') end.

(** ** Servers

    [spawn_server_thread] starts a thread that runs [handle_client] with the stream; what it
    does is in the next part.  The loops run until the system reports an error: the argument [n] bounds
    the connections that are accepted, and [Ok] after them says that the loop still runs. *)
Definition spawn_server_thread (root : Path) (reader writer : Z) : M K io_error unit :=
  os (Spawn_handle_client root reader writer).

Fixpoint accept_loop (n : nat) (root : Path) (listener : Z) : M K io_error unit :=
  match n with
  | 0 => mret tt
  | S n' =>
    stream ← os (Accept listener);
    clone ← os (Try_clone stream);
    spawn_server_thread root clone stream ;;
    accept_loop n' root listener
  end.
Definition run_tcp_server (n : nat) (root : Path) (addr : SocketAddr) : M K io_error unit :=
  listener ← os (Tcp_bind addr); accept_loop n root listener.
Definition run_unix_server (n : nat) (root : Path) (listener : Z) : M K io_error unit := accept_loop n root listener.

(** The mode is set in a copy of the permissions only, which is dropped. *)
Definition adjust_socket_ownership (path : Path) (gid : Z) : M K io_error unit :=
  assert_ (utf8_valid path) ;;
  assert_ (bool_decide (0%Z ∉ path)) ;;
  os (Libc_chown path (2 ^ 32 - 1) gid) ;;
  _ ← os (Path_metadata path);
  mret tt.

Definition run_unix_server_with_path (n : nat) (root : Path) (path : Path) (socket_gid : option Z) : M K io_error unit :=
  e ← os (Path_exists path);
  (if e : bool then
     metadata ← os (Path_metadata path);
     if negb (is_socket metadata) then throw (io_error_new ErrorKind.InvalidInput) else os (Remove_file path)
   else mret tt) ;;
  listener ← os (Unix_bind path);
  match socket_gid with Some gid => adjust_socket_ownership path gid | None => mret tt end ;;
  run_unix_server n root listener.

Definition run_unix_server_with_fd (n : nat) (root : Path) (fd : Z) : M K io_error unit :=
  metadata ← os (Fd_metadata fd);
  if negb (is_socket metadata) then throw (io_error_new ErrorKind.InvalidInput)
  else os (Libc_listen fd 128) ;; run_unix_server n root fd.

(** ** [main] *)

(** [getopts::Matches]: the options [-h], [-r] and [--socket_gid], and the free arguments. *)
Record Matches := { opt_h : bool; opt_r : option (list Z); opt_socket_gid : option (list Z); free : list (list Z) }.
Inductive Error :=
| EAddress (e : ParseAddressError)
| EArgument (e : GetoptsFail)
| EIO (e : io_error)
| ESocketGid (e : ParseIntError)
| ESocketPathNotAbsolute (p : Path).

Definition map_err {A E E'} (f : E → E') (m : M K E A) : M K E' A := λ k,
  match m k with (Ok a, k') => (Ok a, k') | (Err e, k') => (Err (f e), k') | (Panic, k') => (Panic, k') end.
Definition try {A E} (f : E → Error) (r : A + E) : M K Error A :=
  match r with inl a => mret a | inr e => throw (f e) end.

Definition main (n : nat) (parsed : Matches + GetoptsFail) : M K Error unit :=
  ms ← try EArgument parsed;
  match opt_h ms, free ms with
  | true, _ | _, [] => map_err EIO (os Print_usage)
  | false, arg :: _ =>
    let root := default [SLASH] (opt_r ms) in
    addr ← try EAddress (from_str arg);
    match addr with
    | ANet addr => map_err EIO (run_tcp_server n root addr)
    | AUnix path =>
      if negb (has_root path) then throw (ESocketPathNotAbsolute path)
      else
        gid ← match opt_socket_gid ms with
              | Some s => g ← try ESocketGid (parse_u32 s); mret (Some g)
              | None => mret None
              end;
        map_err EIO (run_unix_server_with_path n root path gid)
    | AUnixFd fd =>
      fd' ← map_err EIO (os (Libc_fcntl_dupfd_cloexec fd));
      map_err EIO (run_unix_server_with_fd n root fd')
    end
  end.

(** *** Properties *)
Lemma relative_path_refused n ms path rest k :
  opt_h ms = false → free ms = (UNIX ++ path) :: rest → path ≠ [] → has_root path = false →
  main n (inl ms) k = (Err (ESocketPathNotAbsolute path), k).
Proof.
  intros Hh Hf Hp Hr. unfold main. erewrite bind_eq_ok by reflexivity. rewrite Hh, Hf.
  rewrite (proj1 (address_roundtrip path 0)), decide_False by done. erewrite bind_eq_ok by reflexivity. cbv beta iota. by rewrite Hr.
Qed.

(** Where there is something else than a socket, the server stops with an error, having asked the
    system two questions only. *)
Lemma other_files_kept n root path gid k k1 k2 md :
  os_call _ (Path_exists path) k = (inl true, k1) → os_call _ (Path_metadata path) k1 = (inl md, k2) → is_socket md = false →
  run_unix_server_with_path n root path gid k = (Err (io_error_new ErrorKind.InvalidInput), k2).
Proof.
  intros H1 H2 Hs. unfold run_unix_server_with_path.
  erewrite bind_eq_ok by (unfold os; by rewrite H1). unfold mbind at 1, M_bind at 1.
  erewrite bind_eq_ok by (unfold os; by rewrite H2). by rewrite Hs.
Qed.
(** The same for a descriptor, which is asked about before it is used. *)
Lemma other_descriptors_refused n root fd k k1 md :
  os_call _ (Fd_metadata fd) k = (inl md, k1) → is_socket md = false →
  run_unix_server_with_fd n root fd k = (Err (io_error_new ErrorKind.InvalidInput), k1).
Proof.
  intros H1 Hs. unfold run_unix_server_with_fd. erewrite bind_eq_ok by (unfold os; by rewrite H1). by rewrite Hs.
Qed.
End cli.

(** ** A connection *)
Section client.
Context `{!Libc} {K : Type} `{!Fs K, !FsLaws K}.
Abbreviation Conn' := (Conn (K := K * list any_op)).

(** [handle_client]: messages are handled until one fails.  Every message takes at least its size
    field from the stream, so that as many rounds as there are bytes suffice; [None] when they do not. *)
Fixpoint handle_client_loop (fuel : nat) (c : Conn') : option (outcome io_error unit * Conn') :=
  match fuel with
  | 0 => None
  | S fuel' => match handle_message c with (Ok tt, c') => handle_client_loop fuel' c' | r => Some r end
  end.
Definition handle_client (root : Path) (k : K) (input : list Z) : option (outcome io_error unit * Conn') :=
  handle_client_loop (S (length input)) {| conn_server := new root (k, []); conn_in := input; conn_out := [] |}.

(** What is written for a frame, and a request that fits whatever message size was agreed on. *)
Definition encoded {T} `{!WireFormat T} (x : T) : list Z := (encode x []).2.
Definition small_request (f : Tframe) : Prop := valid f ∧ (Z.of_nat (length (encoded f)) ≤ MIN_MESSAGE_SIZE)%Z.

Lemma Tframe_consumes r f rest : bytes_ok r → (decode : Reader Tframe) r = (Ok f, rest) → length rest < length r.
Proof.
  intros Hr Hd. cbn [decode Tframe_wire] in Hd. apply bind_ok_inv in Hd as (size & r1 & Hsize & Hd).
  case_decide as Hs; [done|]. apply bind_ok_inv in Hsize as (buf & r2 & Hread & Hsize). unfold read_exact in Hread.
  case_decide as Hlen; [|done]. injection Hread as <- <-. injection Hsize as <- <-.
  apply bind_ok_inv in Hd as (p & r2 & Hbody & [= <- <-]).
  pose proof (typed_with_take (Z.to_nat (uint_decode 4 (take 4 r) - 4)) _ _ (frame_body_typed (Msg := Tmessage)) (drop 4 r)
    ltac:(by apply Forall_drop)) as Ht.
  unfold wp in Ht. rewrite Hbody in Ht. destruct Ht as [_ [l Hl]]. apply (f_equal length) in Hl.
  rewrite length_app, length_drop in Hl. lia.
Qed.
Lemma handle_message_consumes r (c c' : Conn') : conn_ok r c → handle_message c = (Ok tt, c') →
  length (conn_in c') < length (conn_in c).
Proof using Type*.
  intros [Hin _]. unfold handle_message, with_take. set (lim := Z.to_nat _).
  pose proof (Tframe_consumes (take lim (conn_in c))) as Hdec.
  destruct (decode (take lim (conn_in c))) as [[f|e|] rest] eqn:Hd; [|done..].
  specialize (Hdec f rest ltac:(by apply Forall_take) eq_refl).
  assert (length (rest ++ drop lim (conn_in c)) < length (conn_in c)) as Hlt.
  { rewrite <-(take_drop lim (conn_in c)) at 2. rewrite !length_app. lia. }
  destruct (answer (Tframe_msg f) (conn_server c)) as [[rmsg|e|] s]; [|done..].
  destruct (encode _ (conn_out c)) as [res out]. intros [= _ <-]. done.
Qed.

(** Serving ends when the bytes do, and uses paths in the exported directory only. *)
Lemma client_loop_ends root fuel : ∀ c, conn_ok root c → length (conn_in c) < fuel →
  ∃ e c', handle_client_loop fuel c = Some (Err e, c') ∧ confined root c'.
Proof using Type*.
  induction fuel as [|fuel IH]; intros c Hc Hf; [lia|]. cbn [handle_client_loop].
  destruct (handle_message_spec root c Hc) as (Hok & Hp & _).
  destruct (handle_message c) as [[[]|e|] c'] eqn:Hh; [| |done].
  - apply IH; [done|]. pose proof (handle_message_consumes root c c' Hc Hh). lia.
  - exists e, c'. split; [done|]. by apply conn_ok_confined.
Qed.

Lemma take_decode (f : Tframe) lim rest : valid f → length (encoded f) ≤ lim → (Z.of_nat (length (encoded f)) < 2 ^ 32)%Z →
  with_take lim decode (encoded f ++ rest) = (Ok f, rest) ∧ bytes_ok (encoded f) ∧ 0 < length (encoded f).
Proof.
  intros Hf Hlim Hlt. destruct (Tframe_carried f Hf) as (bs & Hok & He & Hd).
  assert (encoded f = bs) as Heq by (unfold encoded; by rewrite He). rewrite Heq in *. destruct (Hd Hlt) as [_ Hread].
  split; [|split; [done|]].
  - unfold with_take. rewrite take_app_ge, drop_app_ge by done. rewrite Hread. by rewrite take_drop.
  - pose proof (Tframe_consumes (bs ++ []) f [] ltac:(by rewrite app_nil_r) (Hread [])) as Hc. rewrite app_nil_r in Hc. simpl in Hc. lia.
Qed.

Lemma client_loop_answers root fs : Forall small_request fs → ∀ fuel c, conn_ok root c →
  conn_in c = concat (encoded <$> fs) → length (conn_in c) < fuel →
  ∃ (rs : list Rframe) c', handle_client_loop fuel c = Some (Err (io_error_new ErrorKind.UnexpectedEof), c') ∧
    conn_out c' = conn_out c ++ concat (encoded <$> rs) ∧ Rframe_tag <$> rs = Tframe_tag <$> fs ∧ conn_ok root c'.
Proof using Type*.
  induction 1 as [|f fs [Hf Hsmall] Hfs IH]; intros fuel c Hc Hin Hfuel; (destruct fuel as [|fuel]; [lia|]); cbn [handle_client_loop].
  - simpl in Hin. exists [], c. unfold handle_message, with_take. rewrite Hin, take_nil, drop_nil.
    assert ((decode : Reader Tframe) [] = (Err (io_error_new ErrorKind.UnexpectedEof), [])) as -> by reflexivity. cbn.
    split_and!; [|by rewrite app_nil_r|done|done]. do 3 f_equal. destruct c; simpl in *. by rewrite Hin.
  - rewrite fmap_cons in Hin. simpl in Hin.
    pose proof Hc as [Hb (n & Hi & Hn)].
    assert (msize (conn_server c) = n) as Hms by exact (inv_msize _ _ _ Hi). unfold MIN_MESSAGE_SIZE in *.
    destruct (take_decode f (Z.to_nat (msize (conn_server c))) (concat (encoded <$> fs))) as (Hdec & _ & Hpos); [done|lia|lia|].
    rewrite <-Hin in Hdec. destruct (handle_message_spec root c Hc) as (Hok & _ & Hans).
    destruct (Hans f _ Hdec) as (rmsg & bs & c1 & Hrun & Hin1 & Hout1 & Henc & _). rewrite Hrun in *. simpl in Hok.
    destruct (IH fuel c1 Hok Hin1) as (rs & c2 & Hrun2 & Hout2 & Htags & Hok2).
    { rewrite Hin1. rewrite Hin, length_app in Hfuel. lia. }
    exists ({| Rframe_tag := Tframe_tag f; Rframe_msg := rmsg |} :: rs), c2. split_and!; [done| |by rewrite !fmap_cons, Htags|done].
    rewrite Hout2, Hout1, fmap_cons. simpl. rewrite <-app_assoc. do 2 f_equal. unfold encoded. by rewrite Henc.
Qed.

(** C18: Serving a connection.  Whatever bytes a client sends before it closes the connection, and
    whatever the file system answers, serving it ends, with an error of the connection and never
    with a panic, and every path that was used lies in the exported directory.  When the bytes are
    well-formed requests, none longer than the smallest message size that can be agreed on, each of them is
    answered by one frame with its tag, in order, and the only error is the end of the stream. *)
Theorem connection_served root k :
  (∀ input, bytes_ok input → ∃ e c, handle_client root k input = Some (Err e, c) ∧ confined root c) ∧
  (∀ fs, Forall small_request fs →
    ∃ (rs : list Rframe) c, handle_client root k (concat (encoded <$> fs)) = Some (Err (io_error_new ErrorKind.UnexpectedEof), c) ∧
      conn_out c = concat (encoded <$> rs) ∧ Rframe_tag <$> rs = Tframe_tag <$> fs ∧ confined root c).
Proof using Type*.
  pose proof (server_start_ok root k) as [_ Hs]. unfold handle_client. split.
  - intros input Hin. apply client_loop_ends; [by split|simpl; lia].
  - intros fs Hfs. set (input := concat (encoded <$> fs)).
    assert (bytes_ok input) as Hin.
    { unfold input. clear -Hfs. induction Hfs as [|f fs [Hf Hsm] _ IH]; [constructor|]. rewrite fmap_cons. simpl. apply Forall_app. split; [|done].
      unfold MIN_MESSAGE_SIZE in Hsm. by apply (take_decode f (length (encoded f)) []); [|lia|lia]. }
    destruct (client_loop_answers root fs Hfs (S (length input)) {| conn_server := new root (k, []); conn_in := input; conn_out := [] |})
      as (rs & c & Hrun & Hout & Ht & Hok); [by split|done|simpl; lia|].
    exists rs, c. split_and!; [exact Hrun|exact Hout|exact Ht|by apply conn_ok_confined].
Qed.
End client.

(** A session: a size is agreed on, the client attaches, and walks through three names. *)
Definition session_frames : list Tframe := [
  {| Tframe_tag := 1; Tframe_msg := Tm.Version {| Tversion_msize := 256; Tversion_version := VERSION_9P2000_L |} |};
  {| Tframe_tag := 2; Tframe_msg := Tm.Attach {| Tattach_fid := 0; Tattach_afid := 0; Tattach_uname := []; Tattach_aname := [];
                                                 Tattach_n_uname := 0 |} |};
  {| Tframe_tag := 3; Tframe_msg := Tm.Walk {| Twalk_fid := 0; Twalk_newfid := 1; Twalk_wnames := some_names |} |}]%Z.
#[local] Existing Instance linux_libc.
#[local] Existing Instance dirs_fs.
#[local] Existing Instance dirs_fs_laws.
Lemma connection_served_witness :
  ∃ (rs : list Rframe) c, handle_client srv tt (concat (encoded <$> session_frames)) = Some (Err (io_error_new ErrorKind.UnexpectedEof), c) ∧
    conn_out c = concat (encoded <$> rs) ∧ Rframe_tag <$> rs = Tframe_tag <$> session_frames ∧ confined srv c.
Proof.
  apply (connection_served srv tt).
  repeat (constructor; [split; [repeat split; try (vm_compute; congruence); repeat constructor; vm_compute; congruence|by vm_compute]|]). constructor.
Defined.
