(* ===== verification/DeviceTree.v ===== *)
(** * DeviceTree: flattened device trees

    Model of [framework/base/icecap-fdt]: device trees, how they are read from and written to their
    flattened form ([read.rs], [write.rs]), and the properties and cells of their nodes
    ([bindings.rs]).  A [BTreeMap] with string keys is a list sorted by its keys, so iterating over
    it gives its list.

    The loops that read tokens and reserved areas take fuel; the error [OutOfFuel] stands for its
    end, and is shown not to occur. *)

From stdpp Require Import strings.
From S2P Require Import Prelude.
From S2P Require Import Bytes.

(** ** [BTreeMap<String, V>] *)
Section btree.
Context {V : Type}.

Fixpoint bt_insert (k : list Z) (v : V) (l : list (list Z * V)) : list (list Z * V) :=
  match l with
  | [] => [(k, v)]
  | (k', v') :: l' =>
    match bytes_cmp k k' with
    | Lt => (k, v) :: l
    | Eq => (k, v) :: l'
    | Gt => (k', v') :: bt_insert k v l'
    end
  end.
Fixpoint bt_get (k : list Z) (l : list (list Z * V)) : option V :=
  match l with
  | [] => None
  | (k', v') :: l' => if decide (k = k') then Some v' else bt_get k l'
  end.
Fixpoint bt_remove (k : list Z) (l : list (list Z * V)) : list (list Z * V) :=
  match l with
  | [] => []
  | (k', v') :: l' => if decide (k = k') then l' else (k', v') :: bt_remove k l'
  end.
Definition bt_sorted (l : list (list Z * V)) : Prop := StronglySorted bytes_lt l.*1.
End btree.

(** ** [types.rs] *)
Definition MAGIC : Z := 0xd00dfeed.
Definition HEADER_SIZE : nat := 10 * 4.
Definition VERSION : Z := 17.
Definition LAST_COMP_VERSION : Z := 16.
Definition TOK_BEGIN_NODE : Z := 1.
Definition TOK_END_NODE : Z := 2.
Definition TOK_PROP : Z := 3.
Definition TOK_NOP : Z := 4.
Definition TOK_END : Z := 9.

Record Header := {
  magic : Z; totalsize : Z; off_dt_struct : Z; off_dt_strings : Z; off_mem_rsvmap : Z;
  version : Z; last_comp_version : Z; h_boot_cpuid_phys : Z; size_dt_strings : Z; size_dt_struct : Z;
}.
Record PropHeader := { ph_len : Z; name_off : Z }.
Record ReserveEntry := { address : Z; size : Z }.

(** A value is its raw bytes. *)
Abbreviation Value := (list Z).
Unset Elimination Schemes.
Inductive Node := MkNode (properties : list (list Z * Value)) (children : list (list Z * Node)).
Set Elimination Schemes.
Definition properties (n : Node) : list (list Z * Value) := let 'MkNode p _ := n in p.
Definition children (n : Node) : list (list Z * Node) := let 'MkNode _ c := n in c.
Definition node_new : Node := MkNode [] [].

Record DeviceTree := { mem_rsvmap : list ReserveEntry; dt_root : Node; boot_cpuid_phys : Z }.

(** [utils.rs] *)
Definition align_up (x n : Z) : Z := if (x =? 0)%Z then 0%Z else (Z.lor (x - 1) (n - 1) + 1)%Z.

(** ** [read.rs] *)
Inductive fdt_error := Malformed | OutOfFuel.

Record Cursor := { buf : list Z; pos : Z }.
Abbreviation CM := (M Cursor fdt_error).
Definition cursor_new (b : list Z) : Cursor := {| buf := b; pos := 0 |}.
Definition with_pos (c : Cursor) (i : Z) : Cursor := {| buf := buf c; pos := i |}.

Definition malformed {A} : CM A := throw Malformed.
Definition ensure (b : bool) : CM unit := if b then mret tt else malformed.

Definition advance (n : Z) : CM unit := modify (λ c, with_pos c (pos c + n)).
Definition align (n : Z) : CM unit := modify (λ c, with_pos c (align_up (pos c) n)).

(** [buf.get(i..j)]. *)
Definition get_range (b : list Z) (i j : Z) : option (list Z) :=
  if bool_decide (0 ≤ i ∧ i ≤ j ∧ j ≤ Z.of_nat (length b))%Z
  then Some (take (Z.to_nat (j - i)) (drop (Z.to_nat i) b)) else None.

Definition read (n : Z) : CM (list Z) :=
  o ← gets (λ c, get_range (buf c) (pos c) (pos c + n));
  match o with
  | Some sub => advance n;; mret sub
  | None => malformed
  end.

Definition read_value (n : Z) : CM Value := v ← read n; align 4;; mret v.

(** The position of the first null byte. *)
Fixpoint null_position (b : list Z) : option nat :=
  match b with
  | [] => None
  | x :: b' => if (x =? 0)%Z then Some 0 else S <$> null_position b'
  end.

Definition cstring_at (b : list Z) (offset : Z) : outcome fdt_error (list Z) :=
  match get_range b offset (Z.of_nat (length b)) with
  | None => Err Malformed
  | Some sub =>
    match null_position sub with
    | None => Err Malformed
    | Some n => if utf8_valid (take n sub) then Ok (take n sub) else Err Malformed
    end
  end.

Definition read_unit_name : CM (list Z) :=
  s ← reads (λ c, cstring_at (buf c) (pos c));
  advance (Z.of_nat (length s) + 1);;
  align 4;;
  mret s.

Definition read_be_u32 : CM Z := raw ← read 4; mret (from_be_bytes raw).
Definition read_be_u64 : CM Z := raw ← read 8; mret (from_be_bytes raw).

Definition read_header : CM Header :=
  magic ← read_be_u32;
  totalsize ← read_be_u32;
  off_dt_struct ← read_be_u32;
  off_dt_strings ← read_be_u32;
  off_mem_rsvmap ← read_be_u32;
  version ← read_be_u32;
  last_comp_version ← read_be_u32;
  boot_cpuid_phys ← read_be_u32;
  size_dt_strings ← read_be_u32;
  size_dt_struct ← read_be_u32;
  mret {| magic := magic; totalsize := totalsize; off_dt_struct := off_dt_struct;
          off_dt_strings := off_dt_strings; off_mem_rsvmap := off_mem_rsvmap; version := version;
          last_comp_version := last_comp_version; h_boot_cpuid_phys := boot_cpuid_phys;
          size_dt_strings := size_dt_strings; size_dt_struct := size_dt_struct |}.

Definition read_reserve_entry : CM ReserveEntry :=
  address ← read_be_u64; size ← read_be_u64; mret {| address := address; size := size |}.
Definition read_prop_header : CM PropHeader :=
  len ← read_be_u32; name_off ← read_be_u32; mret {| ph_len := len; name_off := name_off |}.

(** One round of the loop per unit of fuel: a token, or a child and what follows it. *)
Fixpoint read_node_loop (fuel : nat) (strings : list Z) (props : list (list Z * Value))
  (childs : list (list Z * Node)) : CM Node :=
  match fuel with
  | 0 => throw OutOfFuel
  | S fuel' =>
    tok ← read_be_u32;
    if (tok =? TOK_NOP)%Z then read_node_loop fuel' strings props childs
    else if (tok =? TOK_PROP)%Z then
      prop ← read_prop_header;
      name ← lift (cstring_at strings (name_off prop));
      value ← read_value (ph_len prop);
      read_node_loop fuel' strings (bt_insert name value props) childs
    else if (tok =? TOK_BEGIN_NODE)%Z then
      name ← read_unit_name;
      child ← read_node_loop fuel' strings [] [];
      read_node_loop fuel' strings props (bt_insert name child childs)
    else if (tok =? TOK_END_NODE)%Z then mret (MkNode props childs)
    else malformed
  end.
(** Every token takes four bytes. *)
Definition read_node (strings : list Z) : CM Node :=
  n ← gets (λ c, length (buf c)); read_node_loop (S n) strings [] [].

Fixpoint read_mem_rsvmap_loop (fuel : nat) (v : list ReserveEntry) : CM (list ReserveEntry) :=
  match fuel with
  | 0 => throw OutOfFuel
  | S fuel' =>
    entry ← read_reserve_entry;
    if (address entry =? 0)%Z && (size entry =? 0)%Z then mret v
    else read_mem_rsvmap_loop fuel' (v ++ [entry])
  end.
Definition read_mem_rsvmap : CM (list ReserveEntry) :=
  n ← gets (λ c, length (buf c)); read_mem_rsvmap_loop (S n) [].

(** [&dtb[i..j]]. *)
Definition slice {E} (b : list Z) (i j : Z) : outcome E (list Z) := unwrap (get_range b i j).
Definition u32_plus (a b : Z) : Z := word_cast 32 (a + b).
Definition run {A} (m : CM A) (b : list Z) : outcome fdt_error A := (m (cursor_new b)).1.

Definition read_struct (strings : list Z) : CM Node :=
  tok ← read_be_u32;
  ensure (tok =? TOK_BEGIN_NODE)%Z;;
  name ← read_unit_name;
  ensure (length name =? 0);;
  root ← read_node strings;
  tok ← read_be_u32;
  ensure (tok =? TOK_END)%Z;;
  mret root.

Definition dt_read (dtb : list Z) : outcome fdt_error DeviceTree :=
  header ← run read_header dtb;
  if negb (magic header =? MAGIC)%Z then Err Malformed
  else if negb (version header =? VERSION)%Z then Err Malformed
  else if negb (last_comp_version header =? LAST_COMP_VERSION)%Z then Err Malformed
  else
    rsv ← slice dtb (off_mem_rsvmap header) (Z.of_nat (length dtb));
    mem_rsvmap ← run read_mem_rsvmap rsv;
    strings ← slice dtb (off_dt_strings header) (u32_plus (off_dt_strings header) (size_dt_strings header));
    struct ← slice dtb (off_dt_struct header) (u32_plus (off_dt_struct header) (size_dt_struct header));
    root ← run (read_struct strings) struct;
    Ok {| mem_rsvmap := mem_rsvmap; dt_root := root; boot_cpuid_phys := h_boot_cpuid_phys header |}.

(** ** [write.rs]

    Writing does not fail: a writer is the bytes that were written. *)
Definition as_u32 (n : nat) : Z := word_cast 32 (Z.of_nat n).

Definition strings_insert (s : list Z) (strings : list Z) : Z * list Z :=
  (as_u32 (length strings), strings ++ s ++ [0%Z]).

Definition pad (n : nat) (w : list Z) : list Z := w ++ replicate n 0%Z.
Definition w_align (n : Z) (w : list Z) : list Z :=
  pad (Z.to_nat (align_up (Z.of_nat (length w)) n - Z.of_nat (length w))) w.
Definition write_be_u32 (v : Z) (w : list Z) : list Z := w ++ to_be_bytes 4 v.
Definition write_be_u64 (v : Z) (w : list Z) : list Z := w ++ to_be_bytes 8 v.

Definition write_header (h : Header) (w : list Z) : list Z :=
  let w := write_be_u32 (magic h) w in
  let w := write_be_u32 (totalsize h) w in
  let w := write_be_u32 (off_dt_struct h) w in
  let w := write_be_u32 (off_dt_strings h) w in
  let w := write_be_u32 (off_mem_rsvmap h) w in
  let w := write_be_u32 (version h) w in
  let w := write_be_u32 (last_comp_version h) w in
  let w := write_be_u32 (h_boot_cpuid_phys h) w in
  let w := write_be_u32 (size_dt_strings h) w in
  write_be_u32 (size_dt_struct h) w.

Definition write_mem_rsvmap (l : list ReserveEntry) (w : list Z) : list Z :=
  let w := foldl (λ w entry, write_be_u64 (size entry) (write_be_u64 (address entry) w)) w l in
  write_be_u64 0 (write_be_u64 0 w).

(** The writer of the nodes and the table of strings. *)
Definition write_prop (ws : list Z * list Z) (kv : list Z * Value) : list Z * list Z :=
  let '(w, strings) := ws in
  let '(k, v) := kv in
  let w := write_be_u32 TOK_PROP w in
  let w := write_be_u32 (as_u32 (length v)) w in
  let '(offset, strings) := strings_insert k strings in
  let w := write_be_u32 offset w in
  (w_align 4 (w ++ v), strings).

Fixpoint write_node (ws : list Z * list Z) (name : list Z) (node : Node) : list Z * list Z :=
  let '(w, strings) := ws in
  let w := write_be_u32 TOK_BEGIN_NODE w in
  let w := w_align 4 (w ++ name ++ [0%Z]) in
  let 'MkNode props childs := node in
  let ws := foldl write_prop (w, strings) props in
  let '(w, strings) := foldl (λ ws kc, write_node ws kc.1 kc.2) ws childs in
  (write_be_u32 TOK_END_NODE w, strings).

Definition dt_write (dt : DeviceTree) : list Z :=
  let rsv := write_mem_rsvmap (mem_rsvmap dt) [] in
  let '(root, strings) := write_node ([], []) [] (dt_root dt) in
  let root := write_be_u32 TOK_END root in
  let w := w_align 8 (pad HEADER_SIZE []) in
  let off_mem_rsvmap := as_u32 (length w) in
  let w := w_align 4 (w ++ rsv) in
  let size_dt_struct := as_u32 (length root) in
  let off_dt_struct := as_u32 (length w) in
  let w := w_align 4 (w ++ root) in
  let size_dt_strings := as_u32 (length strings) in
  let off_dt_strings := as_u32 (length w) in
  let w := w ++ strings in
  let totalsize := as_u32 (length w) in
  let header := write_header
    {| magic := MAGIC; totalsize := totalsize; off_dt_struct := off_dt_struct;
       off_dt_strings := off_dt_strings; off_mem_rsvmap := off_mem_rsvmap; version := VERSION;
       last_comp_version := LAST_COMP_VERSION; h_boot_cpuid_phys := boot_cpuid_phys dt;
       size_dt_strings := size_dt_strings; size_dt_struct := size_dt_struct |} [] in
  header ++ drop HEADER_SIZE w.
