(* ===== verification/DeviceTreeSpec.v ===== *)
(** * DeviceTreeSpec: theorems about device trees

    What is written is read back; reading ends on every input, and panics exactly when the header
    points out of the blob. *)

From S2P Require Import Prelude.
From S2P Require Import Bytes.
From S2P Require Import DeviceTree.

(** ** Induction on nodes *)
Section node_ind.
Context (P : Node → Prop).
Hypothesis P_node : ∀ props childs, Forall (λ kc, P kc.2) childs → P (MkNode props childs).

Fixpoint Node_ind (n : Node) : P n :=
  let 'MkNode props childs := n in
  P_node props childs
    ((fix go (l : list (list Z * Node)) : Forall (λ kc, P kc.2) l :=
       match l with
       | [] => Forall_nil_2 _
       | kc :: l' => Forall_cons_2 _ _ _ (Node_ind kc.2) (go l')
       end) childs).
End node_ind.

(** ** Well-formed trees *)

(** A name: a string without null bytes. *)
Definition name_ok (s : list Z) : Prop := is_string s ∧ 0%Z ∉ s.

Fixpoint node_ok (n : Node) : Prop :=
  let 'MkNode props childs := n in
  bt_sorted props ∧ Forall (λ kv, name_ok kv.1 ∧ bytes_ok kv.2) props ∧
  bt_sorted childs ∧
  (fix go (l : list (list Z * Node)) : Prop :=
     match l with [] => True | kc :: l' => (name_ok kc.1 ∧ node_ok kc.2) ∧ go l' end) childs.

Record dt_ok (dt : DeviceTree) : Prop := {
  ok_rsvmap : Forall (λ e, is_u64 (address e) ∧ is_u64 (size e) ∧ ¬ (address e = 0 ∧ size e = 0)%Z) (mem_rsvmap dt);
  ok_root : node_ok (dt_root dt);
  ok_cpuid : is_u32 (boot_cpuid_phys dt);
}.

Lemma node_ok_eq props childs : node_ok (MkNode props childs) ↔
  bt_sorted props ∧ Forall (λ kv, name_ok kv.1 ∧ bytes_ok kv.2) props ∧
  bt_sorted childs ∧ Forall (λ kc, name_ok kc.1 ∧ node_ok kc.2) childs.
Proof.
  simpl. do 3 f_equiv. induction childs as [|kc l IH]; [split; constructor|].
  rewrite Forall_cons, IH. done.
Qed.

(** A check of well-formedness. *)
Fixpoint sorted_okb (ks : list (list Z)) : bool :=
  match ks with
  | k :: (k' :: _) as ks' => match bytes_cmp k k' with Lt => sorted_okb ks' | _ => false end
  | _ => true
  end.
Definition byte_okb (z : Z) : bool := ((0 <=? z) && (z <? 256))%Z.
Definition name_okb (s : list Z) : bool := forallb byte_okb s && utf8_valid s && forallb (λ z, negb (z =? 0)%Z) s.
Fixpoint node_okb (n : Node) : bool :=
  let 'MkNode props childs := n in
  sorted_okb props.*1 && forallb (λ kv, name_okb kv.1 && forallb byte_okb kv.2) props
  && sorted_okb childs.*1 && forallb (λ kc, name_okb kc.1 && node_okb kc.2) childs.

Lemma sorted_okb_sound ks : sorted_okb ks = true → StronglySorted bytes_lt ks.
Proof.
  intros Hs. apply Sorted_StronglySorted; [exact bytes_lt_trans|].
  induction ks as [|k [|k' ks] IH]; [constructor|repeat constructor|]. simpl in Hs.
  destruct (bytes_cmp k k') eqn:Hc; try done. constructor; [by apply IH|by constructor].
Qed.
Lemma byte_okb_sound l : forallb byte_okb l = true → bytes_ok l.
Proof.
  intros Hl. apply Forall_forall. intros z Hz. rewrite forallb_forall in Hl.
  apply list_elem_of_In, Hl, andb_true_iff in Hz as [?%Z.leb_le ?%Z.ltb_lt]. done.
Qed.
Lemma name_okb_sound s : name_okb s = true → name_ok s.
Proof.
  unfold name_okb. rewrite !andb_true_iff. intros [[Hb Hu] Hz]. split; [split; [by apply byte_okb_sound|done]|].
  intros Hin. rewrite forallb_forall in Hz. apply list_elem_of_In, Hz in Hin. done.
Qed.
Lemma node_okb_sound n : node_okb n = true → node_ok n.
Proof.
  induction n as [props childs IH] using Node_ind. cbn [node_okb]. rewrite !andb_true_iff, node_ok_eq.
  intros [[[Hp Hv] Hc] Hn]. split; [by apply sorted_okb_sound|]. rewrite !forallb_forall in *. split; [|split].
  - apply Forall_forall. intros kv Hkv%list_elem_of_In. apply Hv, andb_true_iff in Hkv as [??].
    split; [by apply name_okb_sound|by apply byte_okb_sound].
  - by apply sorted_okb_sound.
  - apply Forall_forall. intros kc Hkc. rewrite Forall_forall in IH. pose proof (IH kc Hkc) as IHkc.
    apply list_elem_of_In, Hn, andb_true_iff in Hkc as [??]. split; [by apply name_okb_sound|by apply IHkc].
Qed.

(** ** Alignment *)
Section alignment.
Local Open Scope Z_scope.

Lemma lor_low y k : 0 ≤ y → 0 ≤ k → Z.lor y (2 ^ k - 1) = y / 2 ^ k * 2 ^ k + (2 ^ k - 1).
Proof.
  intros Hy Hk. pose proof (Z.pow_pos_nonneg 2 k ltac:(lia) Hk).
  assert (Z.lor y (Z.ones k) = Z.lor (Z.shiftl (Z.shiftr y k) k) (Z.ones k)) as Hl.
  { apply Z.bits_inj'. intros i Hi. rewrite !Z.lor_spec, Z.shiftl_spec, Z.testbit_ones_nonneg by lia.
    destruct (Z.ltb_spec i k); [by rewrite !orb_true_r|].
    rewrite Z.shiftr_spec by lia. f_equal. f_equal. lia. }
  replace (2 ^ k - 1) with (Z.ones k) by (rewrite Z.ones_equiv; lia). rewrite Hl.
  rewrite <- Z.add_nocarry_lor.
  - by rewrite Z.shiftl_mul_pow2, Z.shiftr_div_pow2.
  - apply Z.bits_inj'. intros i Hi. rewrite Z.land_spec, Z.shiftl_spec, Z.testbit_ones_nonneg, Z.bits_0 by lia.
    destruct (Z.ltb_spec i k); [|by rewrite andb_false_r]. rewrite Z.testbit_neg_r by lia. done.
Qed.

(** [align_up] to four is what it says. *)
Lemma align_up_4 x : 0 ≤ x → align_up x 4 = (x + 3) / 4 * 4.
Proof.
  intros Hx. unfold align_up. destruct (Z.eqb_spec x 0) as [->|]; [done|].
  change (4 - 1) with (2 ^ 2 - 1). rewrite lor_low by lia. change (2 ^ 2) with 4.
  replace (x + 3) with ((x - 1) + 1 * 4) by lia. rewrite Z.div_add by lia. lia.
Qed.
Lemma align_up_4_add x y : 0 ≤ x → 0 ≤ y → x mod 4 = 0 → align_up (x + y) 4 = x + align_up y 4.
Proof.
  intros Hx Hy Hm. rewrite !align_up_4 by lia. pose proof (Z.div_mod x 4).
  replace (x + y + 3) with (y + 3 + x / 4 * 4) by lia. rewrite Z.div_add by lia. lia.
Qed.
Lemma align_up_4_bounds x : 0 ≤ x → x ≤ align_up x 4 < x + 4 ∧ align_up x 4 mod 4 = 0.
Proof.
  intros Hx. rewrite align_up_4 by done. pose proof (Z.div_mod (x + 3) 4). pose proof (Z.mod_pos_bound (x + 3) 4).
  split; [lia|]. apply Z.mod_mul. lia.
Qed.
End alignment.

(** ** The written form, as a function

    [off] is the length of the table of strings so far. *)
Definition pad4 (x : list Z) : list Z :=
  x ++ replicate (Z.to_nat (align_up (Z.of_nat (length x)) 4 - Z.of_nat (length x))) 0%Z.
Definition prop_bytes (off : nat) (kv : list Z * Value) : list Z :=
  to_be_bytes 4 TOK_PROP ++ to_be_bytes 4 (as_u32 (length kv.2)) ++ to_be_bytes 4 (as_u32 off) ++ pad4 kv.2.
Fixpoint props_bytes (off : nat) (props : list (list Z * Value)) : list Z :=
  match props with
  | [] => []
  | kv :: props' => prop_bytes off kv ++ props_bytes (off + length kv.1 + 1) props'
  end.
Definition props_strings (props : list (list Z * Value)) : list Z := mjoin ((λ kv, kv.1 ++ [0%Z]) <$> props).

Fixpoint node_strings (n : Node) : list Z :=
  let 'MkNode props childs := n in props_strings props ++ mjoin ((λ kc, node_strings kc.2) <$> childs).

(** After the name: the properties, the children and the end. *)
Fixpoint node_bytes (off : nat) (n : Node) : list Z :=
  let 'MkNode props childs := n in
  props_bytes off props
  ++ (fix go (off : nat) (l : list (list Z * Node)) : list Z :=
        match l with
        | [] => to_be_bytes 4 TOK_END_NODE
        | kc :: l' =>
          to_be_bytes 4 TOK_BEGIN_NODE ++ pad4 (kc.1 ++ [0%Z]) ++ node_bytes off kc.2
          ++ go (off + length (node_strings kc.2)) l'
        end) (off + length (props_strings props)) childs.
Fixpoint childs_bytes (off : nat) (l : list (list Z * Node)) : list Z :=
  match l with
  | [] => to_be_bytes 4 TOK_END_NODE
  | kc :: l' =>
    to_be_bytes 4 TOK_BEGIN_NODE ++ pad4 (kc.1 ++ [0%Z]) ++ node_bytes off kc.2
    ++ childs_bytes (off + length (node_strings kc.2)) l'
  end.
Lemma node_bytes_eq off props childs :
  node_bytes off (MkNode props childs)
  = props_bytes off props ++ childs_bytes (off + length (props_strings props)) childs.
Proof. reflexivity. Qed.

Definition aligned (w : list Z) : Prop := (Z.of_nat (length w) mod 4 = 0)%Z.

Lemma aligned_app w x : aligned w → aligned x → aligned (w ++ x).
Proof.
  unfold aligned. intros Hw Hx. rewrite length_app, Nat2Z.inj_add, Z.add_mod, Hw, Hx by lia. done.
Qed.
Lemma length_pad4 x : Z.of_nat (length (pad4 x)) = align_up (Z.of_nat (length x)) 4.
Proof.
  unfold pad4. rewrite length_app, length_replicate. pose proof (align_up_4_bounds (Z.of_nat (length x))). lia.
Qed.
Lemma aligned_pad4 x : aligned (pad4 x).
Proof. unfold aligned. rewrite length_pad4. apply align_up_4_bounds. lia. Qed.
Lemma aligned_be4 v : aligned (to_be_bytes 4 v).
Proof. unfold aligned. by rewrite length_to_be_bytes. Qed.

Lemma w_align_app w x : aligned w → w_align 4 (w ++ x) = w ++ pad4 x.
Proof.
  unfold aligned, w_align, pad, pad4. intros Hw. rewrite length_app, Nat2Z.inj_add, align_up_4_add by lia.
  rewrite <- app_assoc. do 3 f_equal. lia.
Qed.

Create HintDb fdt discriminated.
#[export] Hint Resolve aligned_app aligned_pad4 aligned_be4 : fdt.

Lemma write_prop_spec w s kv : aligned w →
  write_prop (w, s) kv = (w ++ prop_bytes (length s) kv, s ++ kv.1 ++ [0%Z]).
Proof.
  intros Hw. destruct kv as [k v]. unfold write_prop, strings_insert, write_be_u32, prop_bytes. cbn [fst snd].
  rewrite w_align_app by auto with fdt. by rewrite !app_assoc.
Qed.
Lemma aligned_prop_bytes off kv : aligned (prop_bytes off kv).
Proof. unfold prop_bytes. auto 10 with fdt. Qed.
Lemma aligned_props_bytes off props : aligned (props_bytes off props).
Proof.
  revert off. induction props as [|kv props IH]; intros off; [done|]. cbn [props_bytes].
  apply aligned_app; [apply aligned_prop_bytes|apply IH].
Qed.

Lemma write_props_spec w s props : aligned w →
  foldl write_prop (w, s) props = (w ++ props_bytes (length s) props, s ++ props_strings props).
Proof.
  revert w s. induction props as [|kv props IH]; intros w s Hw; cbn [foldl props_bytes].
  { unfold props_strings. simpl. by rewrite !app_nil_r. }
  rewrite write_prop_spec by done. rewrite IH by (apply aligned_app; [done|apply aligned_prop_bytes]).
  change (props_strings (kv :: props)) with ((kv.1 ++ [0%Z]) ++ props_strings props).
  rewrite !length_app, <- !app_assoc. cbn [length]. do 3 f_equal. f_equal. lia.
Qed.

Lemma node_bytes_aligned n : ∀ off, aligned (node_bytes off n).
Proof.
  induction n as [props childs IH] using Node_ind. intros off. rewrite node_bytes_eq.
  apply aligned_app; [apply aligned_props_bytes|]. generalize (off + length (props_strings props)).
  induction IH as [|kc l Hkc _ IHl]; intros off'; cbn [childs_bytes]; [apply aligned_be4|].
  auto 10 with fdt.
Qed.

Lemma dt_write_node_spec n : ∀ w s name, aligned w →
  write_node (w, s) name n
  = (w ++ to_be_bytes 4 TOK_BEGIN_NODE ++ pad4 (name ++ [0%Z]) ++ node_bytes (length s) n, s ++ node_strings n).
Proof.
  induction n as [props childs IH] using Node_ind. intros w s name Hw. cbn [write_node]. unfold write_be_u32.
  rewrite w_align_app, <- app_assoc by auto with fdt.
  rewrite write_props_spec by auto with fdt. rewrite node_bytes_eq. cbn [node_strings].
  set (w1 := (w ++ _ ++ _) ++ _). set (s1 := s ++ props_strings props).
  assert (∀ w1 s1, aligned w1 → ∃ w2, foldl (λ ws kc, write_node ws kc.1 kc.2) (w1, s1) childs
    = (w2, s1 ++ mjoin ((λ kc, node_strings kc.2) <$> childs)) ∧
    w2 ++ to_be_bytes 4 TOK_END_NODE = w1 ++ childs_bytes (length s1) childs) as Hc.
  { clear -IH. induction IH as [|[k c] l Hkc _ IHl]; intros w1 s1 Hw1; cbn [foldl childs_bytes fst snd].
    { exists w1. by rewrite app_nil_r. }
    rewrite Hkc by done. cbn [fst snd] in *.
    edestruct IHl as (w2 & -> & Hw2); [|exists w2; split].
    - apply aligned_app; [done|]. repeat (apply aligned_app; [by auto with fdt|]). apply node_bytes_aligned.
    - rewrite fmap_cons. change (mjoin (?x :: ?l)) with (x ++ mjoin l). by rewrite app_assoc.
    - rewrite Hw2, length_app. by rewrite <- !app_assoc. }
  destruct (Hc w1 s1) as (w2 & -> & Hw2).
  { apply aligned_app; [auto with fdt|apply aligned_props_bytes]. }
  rewrite Hw2. unfold w1, s1. rewrite length_app. by rewrite <- !app_assoc.
Qed.

(** ** Maps that are filled in order *)
Section btree.
Context {V : Type}.
Implicit Types (l : list (list Z * V)).

Lemma bt_insert_last l k v : Forall (λ k', bytes_lt k' k) l.*1 → bt_insert k v l = l ++ [(k, v)].
Proof.
  induction l as [|[k' v'] l IH]; [done|]. rewrite fmap_cons. intros [Hk Hl]%Forall_cons. cbn [bt_insert].
  unfold bytes_lt in Hk. rewrite (bytes_cmp_antisym k' k). cbn [fst] in Hk. rewrite Hk. simpl. by rewrite IH.
Qed.
Lemma sorted_before l1 k v l2 : bt_sorted (l1 ++ (k, v) :: l2) → Forall (λ k', bytes_lt k' k) l1.*1.
Proof.
  unfold bt_sorted. rewrite fmap_app, fmap_cons. cbn [fst]. induction (l1.*1) as [|k' ks IH]; [constructor|].
  intros [Hs Hf]%StronglySorted_inv. constructor; [|by apply IH].
  rewrite Forall_forall in Hf. apply Hf. set_solver.
Qed.
End btree.

(** ** Reading at a place of a buffer *)
Definition cur (b : list Z) (n : nat) : Cursor := {| buf := b; pos := Z.of_nat n |}.

Lemma drop_next (b x rest : list Z) n : drop n b = x ++ rest → drop (n + length x) b = rest.
Proof. intros Hb. by rewrite <- drop_drop, Hb, drop_app_length. Qed.
Lemma drop_room (b x rest : list Z) n : drop n b = x ++ rest → x ≠ [] → n + length x ≤ length b.
Proof. intros Hb Hx. apply (f_equal length) in Hb. rewrite length_drop, length_app in Hb. destruct x; [done|]. simpl in *. lia. Qed.

Lemma get_range_at b n x rest : n ≤ length b → drop n b = x ++ rest →
  get_range b (Z.of_nat n) (Z.of_nat n + Z.of_nat (length x)) = Some x.
Proof.
  intros Hn Hb. unfold get_range. apply (f_equal length) in Hb as Hl. rewrite length_drop, length_app in Hl.
  rewrite bool_decide_eq_true_2 by lia. replace (_ - _)%Z with (Z.of_nat (length x)) by lia.
  by rewrite !Nat2Z.id, Hb, take_app_length.
Qed.
Lemma read_at b n x rest : n ≤ length b → drop n b = x ++ rest →
  read (Z.of_nat (length x)) (cur b n) = (Ok x, cur b (n + length x)).
Proof.
  intros Hn Hb. unfold read, cur, mbind, M_bind, gets. cbn [buf pos]. rewrite (get_range_at b n x rest) by done.
  unfold advance, modify, with_pos. cbn. by rewrite Nat2Z.inj_add.
Qed.
Lemma read_be_u32_at b n v rest : is_u32 v → drop n b = to_be_bytes 4 v ++ rest →
  read_be_u32 (cur b n) = (Ok v, cur b (n + 4)).
Proof.
  intros Hv Hb. unfold read_be_u32. pose proof (drop_room _ _ _ _ Hb ltac:(done)) as Hr.
  pose proof (read_at b n _ _ ltac:(lia) Hb) as Hread. rewrite length_to_be_bytes in Hread.
  rewrite (bind_eq_ok _ _ _ _ _ Hread). by rewrite (be_word_back 4).
Qed.
Lemma read_be_u64_at b n v rest : is_u64 v → drop n b = to_be_bytes 8 v ++ rest →
  read_be_u64 (cur b n) = (Ok v, cur b (n + 8)).
Proof.
  intros Hv Hb. unfold read_be_u64. pose proof (drop_room _ _ _ _ Hb ltac:(done)) as Hr.
  pose proof (read_at b n _ _ ltac:(lia) Hb) as Hread. rewrite length_to_be_bytes in Hread.
  rewrite (bind_eq_ok _ _ _ _ _ Hread). by rewrite (be_word_back 8).
Qed.

Definition place_ok (n : nat) : Prop := (Z.of_nat n mod 4 = 0)%Z.
Lemma place_add n w : aligned w → place_ok n → place_ok (n + length w).
Proof. unfold place_ok, aligned. intros Hw Hn. by rewrite Nat2Z.inj_add, Z.add_mod, Hn, Hw by lia. Qed.

Lemma place_four n : place_ok n → place_ok (n + 4).
Proof. apply (place_add n (to_be_bytes 4 0)), aligned_be4. Qed.

Lemma align_at b n x : place_ok n → align 4 (cur b (n + length x)) = (Ok tt, cur b (n + length (pad4 x))).
Proof.
  intros Hn. unfold align, modify, with_pos, cur. cbn [buf pos].
  by rewrite !Nat2Z.inj_add, align_up_4_add, length_pad4 by (done || lia).
Qed.
Lemma read_value_at b n v rest : n ≤ length b → place_ok n → drop n b = pad4 v ++ rest →
  read_value (Z.of_nat (length v)) (cur b n) = (Ok v, cur b (n + length (pad4 v))).
Proof.
  intros Hl Hn Hb. unfold read_value. unfold pad4 at 1 in Hb. rewrite <- app_assoc in Hb.
  rewrite (bind_eq_ok _ _ _ _ _ (read_at _ _ _ _ Hl Hb)), (bind_eq_ok _ _ _ _ _ (align_at _ _ _ Hn)). done.
Qed.

Lemma null_position_at s rest : 0%Z ∉ s → null_position (s ++ 0%Z :: rest) = Some (length s).
Proof.
  induction s as [|x s IH]; intros Hs; [done|]. simpl.
  rewrite (proj2 (Z.eqb_neq x 0)) by set_solver. by rewrite IH by set_solver.
Qed.
Lemma cstring_at_spec b n name rest : name_ok name → drop n b = (name ++ [0%Z]) ++ rest →
  cstring_at b (Z.of_nat n) = Ok name.
Proof.
  intros [[_ Hu] Hz] Hb. unfold cstring_at. apply (f_equal length) in Hb as Hl.
  rewrite length_drop, !length_app in Hl. simpl in Hl.
  replace (Z.of_nat (length b)) with (Z.of_nat n + Z.of_nat (length (drop n b)))%Z by (rewrite length_drop; lia).
  rewrite (get_range_at b n (drop n b) []) by (by rewrite ?app_nil_r || lia).
  rewrite Hb, <- app_assoc. cbn [app]. by rewrite null_position_at, take_app_length, Hu.
Qed.
Lemma read_unit_name_at b n name rest : place_ok n → name_ok name → drop n b = pad4 (name ++ [0%Z]) ++ rest →
  read_unit_name (cur b n) = (Ok name, cur b (n + length (pad4 (name ++ [0%Z])))).
Proof.
  intros Hn Hname Hb. unfold read_unit_name. unfold pad4 at 1 in Hb. rewrite <- app_assoc in Hb.
  unfold mbind at 1, M_bind at 1, reads. cbn [cur buf pos]. rewrite (cstring_at_spec _ _ _ _ Hname Hb).
  rewrite (bind_eq_ok _ _ _ tt (cur b (n + length (name ++ [0%Z])))).
  - by rewrite (bind_eq_ok _ _ _ _ _ (align_at _ _ _ Hn)).
  - unfold advance, modify, with_pos, cur. cbn [buf pos]. rewrite length_app. cbn [length]. do 2 f_equal. lia.
Qed.

(** ** Reading nodes back *)

Lemma as_u32_small n : (Z.of_nat n < 2 ^ 32)%Z → as_u32 n = Z.of_nat n ∧ is_u32 (as_u32 n).
Proof.
  intros Hn. unfold as_u32, word_cast. rewrite Z.land_ones, Z.mod_small by lia. split; [done|]. unfold is_word. lia.
Qed.

Section read_back.
(** The buffer of the nodes and the table of strings, both small enough for 32-bit offsets. *)
Context (b strings : list Z).
Hypothesis b_small : (Z.of_nat (length b) < 2 ^ 32)%Z.
Hypothesis strings_small : (Z.of_nat (length strings) < 2 ^ 32)%Z.

(** One property. *)
Lemma read_prop_at fuel props n off k v rest srest :
  place_ok n → name_ok k →
  drop n b = prop_bytes off (k, v) ++ rest → drop off strings = (k ++ [0%Z]) ++ srest →
  Forall (λ k', bytes_lt k' k) props.*1 →
  read_node_loop (S fuel) strings props [] (cur b n)
  = read_node_loop fuel strings (props ++ [(k, v)]) [] (cur b (n + length (prop_bytes off (k, v)))).
Proof using b_small strings_small.
  intros Hn Hk Hb Hs Hlt. cbn [read_node_loop]. unfold prop_bytes in *. cbn [fst snd] in *.
  set (p1 := to_be_bytes 4 TOK_PROP) in *. set (p2 := to_be_bytes 4 (as_u32 (length v))) in *.
  set (p3 := to_be_bytes 4 (as_u32 off)) in *.
  assert (length p1 = 4 ∧ length p2 = 4 ∧ length p3 = 4) as (L1 & L2 & L3)
    by (split_and!; apply length_to_be_bytes).
  pose proof (drop_room _ _ _ _ Hb ltac:(done)) as Hroom. rewrite !length_app, L1, L2, L3 in Hroom.
  pose proof (drop_room _ _ _ _ Hs ltac:(by destruct k)) as Hroom'. rewrite length_app in Hroom'.
  assert (Z.of_nat (length v) ≤ Z.of_nat (length (pad4 v)))%Z as Hlv
    by (rewrite length_pad4; apply align_up_4_bounds; lia).
  destruct (as_u32_small (length v)) as [Ev Wv]; [lia|]. destruct (as_u32_small off) as [Eo Wo]; [lia|].
  rewrite <- !app_assoc in Hb.
  pose proof (drop_next _ _ _ _ Hb) as Hb2. rewrite L1 in Hb2.
  pose proof (drop_next _ _ _ _ Hb2) as Hb3. rewrite L2 in Hb3.
  pose proof (drop_next _ _ _ _ Hb3) as Hb4. rewrite L3 in Hb4.
  rewrite (bind_eq_ok _ _ _ _ _ (read_be_u32_at _ _ TOK_PROP _ ltac:(done) Hb)).
  cbn [Z.eqb TOK_PROP TOK_NOP Pos.eqb].
  rewrite (bind_eq_ok _ _ _ {| ph_len := as_u32 (length v); name_off := as_u32 off |} (cur b (n + 4 + 4 + 4))).
  2:{ unfold read_prop_header. rewrite (bind_eq_ok _ _ _ _ _ (read_be_u32_at _ _ _ _ Wv Hb2)).
      by rewrite (bind_eq_ok _ _ _ _ _ (read_be_u32_at _ _ _ _ Wo Hb3)). }
  cbn [name_off ph_len]. rewrite Eo, Ev, (cstring_at_spec _ _ _ _ Hk Hs).
  unfold mbind at 1, M_bind at 1, lift.
  rewrite (bind_eq_ok _ _ _ _ _ (read_value_at b (n + 4 + 4 + 4) v rest ltac:(lia)
    ltac:(by repeat apply place_four) Hb4)).
  rewrite bt_insert_last by done. do 2 f_equal. rewrite !length_app, L1, L2, L3. lia.
Qed.

(** All properties of a node. *)
Lemma read_props_at fuel ps2 : ∀ ps1 n off rest srest,
  place_ok n → bt_sorted (ps1 ++ ps2) → Forall (λ kv, name_ok kv.1 ∧ bytes_ok kv.2) ps2 →
  drop n b = props_bytes off ps2 ++ rest → drop off strings = props_strings ps2 ++ srest →
  read_node_loop (length ps2 + fuel) strings ps1 [] (cur b n)
  = read_node_loop fuel strings (ps1 ++ ps2) [] (cur b (n + length (props_bytes off ps2))).
Proof using b_small strings_small.
  induction ps2 as [|[k v] ps2 IH]; intros ps1 n off rest srest Hn Hsort Hok Hb Hs.
  { cbn [props_bytes length Nat.add]. by rewrite app_nil_r, Nat.add_0_r. }
  apply Forall_cons in Hok as [[Hk _] Hok]. cbn [props_bytes fst] in Hb. cbn [length Nat.add props_bytes fst].
  change (props_strings ((k, v) :: ps2)) with ((k ++ [0%Z]) ++ props_strings ps2) in Hs.
  rewrite <- app_assoc in Hb. rewrite <- (app_assoc (k ++ _)) in Hs.
  rewrite (read_prop_at _ _ _ _ _ _ _ _ Hn Hk Hb Hs) by (by eapply sorted_before).
  rewrite (IH _ _ (off + length k + 1) rest srest).
  - rewrite <- app_assoc. cbn [app]. rewrite length_app, Nat.add_assoc. done.
  - apply place_add; [apply aligned_prop_bytes|done].
  - by rewrite <- app_assoc.
  - done.
  - by apply drop_next in Hb.
  - apply drop_next in Hs. rewrite length_app in Hs. cbn [length] in Hs. by rewrite Nat.add_assoc in Hs.
Qed.

Lemma length_prop_bytes off kv : 12 ≤ length (prop_bytes off kv).
Proof. unfold prop_bytes. rewrite !length_app, !length_to_be_bytes. lia. Qed.
Lemma length_props_bytes off ps : length ps ≤ length (props_bytes off ps).
Proof.
  revert off. induction ps as [|kv ps IH]; intros off; cbn [props_bytes length]; [lia|].
  rewrite length_app. specialize (IH (off + length kv.1 + 1)). pose proof (length_prop_bytes off kv). lia.
Qed.

(** A node can be read back: from any place where it was written, with its strings in the table. *)
Definition reads_back (c : Node) : Prop := ∀ n off rest srest fuel,
  place_ok n → node_ok c → drop n b = node_bytes off c ++ rest → drop off strings = node_strings c ++ srest →
  length (node_bytes off c) ≤ fuel →
  read_node_loop fuel strings [] [] (cur b n) = (Ok c, cur b (n + length (node_bytes off c))).

(** The children of a node, and its end. *)
Lemma read_childs_at cs2 : Forall (λ kc, reads_back kc.2) cs2 → ∀ props cs1 n off rest srest fuel,
  place_ok n → bt_sorted (cs1 ++ cs2) → Forall (λ kc, name_ok kc.1 ∧ node_ok kc.2) cs2 →
  drop n b = childs_bytes off cs2 ++ rest →
  drop off strings = mjoin ((λ kc, node_strings kc.2) <$> cs2) ++ srest →
  length (childs_bytes off cs2) ≤ fuel →
  read_node_loop fuel strings props cs1 (cur b n)
  = (Ok (MkNode props (cs1 ++ cs2)), cur b (n + length (childs_bytes off cs2))).
Proof using b_small strings_small.
  induction 1 as [|[k c] cs2 Hc _ IH]; intros props cs1 n off rest srest fuel Hn Hsort Hok Hb Hs Hfuel;
    cbn [childs_bytes] in *; cbn [fst snd] in *.
  - rewrite length_to_be_bytes in *. destruct fuel as [|fuel]; [lia|]. cbn [read_node_loop].
    rewrite (bind_eq_ok _ _ _ _ _ (read_be_u32_at _ _ TOK_END_NODE _ ltac:(done) Hb)). by rewrite app_nil_r.
  - apply Forall_cons in Hok as [[Hk Hok1] Hok]. cbn [fst snd] in *.
    rewrite fmap_cons in Hs. change (mjoin (?x :: ?l)) with (x ++ mjoin l) in Hs. cbn [snd] in Hs.
    rewrite <- !app_assoc in Hb. rewrite <- app_assoc in Hs.
    rewrite !length_app, length_to_be_bytes in *. destruct fuel as [|fuel]; [lia|].
    pose proof (drop_next _ _ _ _ Hb) as Hb2. rewrite length_to_be_bytes in Hb2.
    pose proof (drop_next _ _ _ _ Hb2) as Hb3. pose proof (drop_next _ _ _ _ Hb3) as Hb4.
    pose proof (drop_next _ _ _ _ Hs) as Hs2.
    pose proof (place_add _ _ (aligned_pad4 (k ++ [0%Z])) (place_four _ Hn)) as Hn3.
    cbn [read_node_loop].
    rewrite (bind_eq_ok _ _ _ _ _ (read_be_u32_at _ _ TOK_BEGIN_NODE _ ltac:(done) Hb)).
    cbn [Z.eqb TOK_BEGIN_NODE TOK_PROP TOK_NOP Pos.eqb].
    rewrite (bind_eq_ok _ _ _ _ _ (read_unit_name_at _ _ _ _ (place_four _ Hn) Hk Hb2)).
    rewrite (bind_eq_ok _ _ _ _ _ (Hc _ off _ _ fuel Hn3 Hok1 Hb3 Hs ltac:(lia))).
    rewrite bt_insert_last by (by eapply sorted_before).
    rewrite (IH props (cs1 ++ [(k, c)]) _ (off + length (node_strings c)) rest srest fuel).
    + rewrite <- app_assoc. cbn [app]. do 2 f_equal. lia.
    + by apply place_add; [apply node_bytes_aligned|].
    + by rewrite <- app_assoc.
    + done.
    + done.
    + done.
    + lia.
Qed.

Lemma read_node_back n : reads_back n.
Proof using b_small strings_small.
  induction n as [props childs IH] using Node_ind.
  intros n off rest srest fuel Hn Hok Hb Hs Hfuel. apply node_ok_eq in Hok as (Hsp & Hp & Hsc & Hc).
  rewrite node_bytes_eq in *. cbn [node_strings] in Hs. rewrite <- app_assoc in Hb, Hs. rewrite length_app in *.
  pose proof (length_props_bytes off props).
  replace fuel with (length props + (fuel - length props)) by lia.
  rewrite (read_props_at _ props [] n off _ _ Hn Hsp Hp Hb Hs). cbn [app].
  rewrite (read_childs_at childs IH props [] _ (off + length (props_strings props)) rest srest).
  - cbn [app]. by rewrite Nat.add_assoc.
  - apply place_add; [apply aligned_props_bytes|done].
  - done.
  - done.
  - by apply drop_next in Hb.
  - by apply drop_next in Hs.
  - lia.
Qed.
End read_back.

(** ** The whole blob *)

Definition rsvmap_bytes (l : list ReserveEntry) : list Z :=
  mjoin ((λ e, to_be_bytes 8 (address e) ++ to_be_bytes 8 (size e)) <$> l) ++ to_be_bytes 8 0 ++ to_be_bytes 8 0.
Definition struct_bytes (n : Node) : list Z :=
  to_be_bytes 4 TOK_BEGIN_NODE ++ pad4 [0%Z] ++ node_bytes 0 n ++ to_be_bytes 4 TOK_END.
Definition header_of (dt : DeviceTree) : Header :=
  let rsv := length (rsvmap_bytes (mem_rsvmap dt)) in
  let struct := length (struct_bytes (dt_root dt)) in
  let strings := length (node_strings (dt_root dt)) in
  {| magic := MAGIC; totalsize := as_u32 (40 + rsv + struct + strings); off_dt_struct := as_u32 (40 + rsv);
     off_dt_strings := as_u32 (40 + rsv + struct); off_mem_rsvmap := as_u32 40; version := VERSION;
     last_comp_version := LAST_COMP_VERSION; h_boot_cpuid_phys := boot_cpuid_phys dt;
     size_dt_strings := as_u32 strings; size_dt_struct := as_u32 struct |}.

Lemma write_mem_rsvmap_spec l : write_mem_rsvmap l [] = rsvmap_bytes l.
Proof.
  unfold write_mem_rsvmap, rsvmap_bytes, write_be_u64.
  assert (∀ w, foldl (λ w entry, (w ++ to_be_bytes 8 (address entry)) ++ to_be_bytes 8 (size entry)) w l
    = w ++ mjoin ((λ e, to_be_bytes 8 (address e) ++ to_be_bytes 8 (size e)) <$> l)) as ->.
  { induction l as [|e l IH]; intros w; cbn [foldl]; [by rewrite app_nil_r|].
    rewrite IH, fmap_cons. change (mjoin (?x :: ?l)) with (x ++ mjoin l). by rewrite <- !app_assoc. }
  by rewrite <- !app_assoc.
Qed.
Lemma aligned_rsvmap l : aligned (rsvmap_bytes l).
Proof.
  unfold rsvmap_bytes. apply aligned_app; [|done]. induction l as [|e l IH]; [done|]. rewrite fmap_cons.
  change (mjoin (?x :: ?l)) with (x ++ mjoin l). apply aligned_app; [|done].
  unfold aligned. by rewrite length_app, !length_to_be_bytes.
Qed.
Lemma aligned_struct n : aligned (struct_bytes n).
Proof. unfold struct_bytes. repeat (apply aligned_app; [by auto using node_bytes_aligned with fdt|]). apply aligned_be4. Qed.

Lemma w_align_aligned w : aligned w → w_align 4 w = w.
Proof.
  intros Hw. pose proof (w_align_app w [] Hw) as H. rewrite app_nil_r in H. rewrite H.
  change (pad4 []) with (@nil Z). by rewrite app_nil_r.
Qed.

Lemma length_write_header h : length (write_header h []) = 40.
Proof. unfold write_header, write_be_u32. by rewrite !length_app, !length_to_be_bytes. Qed.

Lemma dt_write_eq dt : dt_write dt = write_header (header_of dt) []
  ++ rsvmap_bytes (mem_rsvmap dt) ++ struct_bytes (dt_root dt) ++ node_strings (dt_root dt).
Proof.
  unfold dt_write. rewrite write_mem_rsvmap_spec, dt_write_node_spec by done. cbn [app length].
  set (root := write_be_u32 _ _).
  assert (root = struct_bytes (dt_root dt)) as ->.
  { unfold root, write_be_u32, struct_bytes. by rewrite <- !app_assoc. }
  change (w_align 8 (pad HEADER_SIZE [])) with (replicate 40 0%Z).
  rewrite (w_align_aligned (replicate 40 0%Z ++ _)) by (apply aligned_app; [done|apply aligned_rsvmap]).
  rewrite w_align_aligned by (apply aligned_app; [apply aligned_app; [done|apply aligned_rsvmap]|apply aligned_struct]).
  rewrite <- !app_assoc, drop_app_length' by done. f_equal. unfold header_of.
  rewrite !length_app, !length_replicate, !Nat.add_assoc. done.
Qed.

Lemma read_header_spec h rest :
  Forall is_u32 [magic h; totalsize h; off_dt_struct h; off_dt_strings h; off_mem_rsvmap h; version h;
    last_comp_version h; h_boot_cpuid_phys h; size_dt_strings h; size_dt_struct h] →
  run read_header (write_header h [] ++ rest) = Ok h.
Proof.
  intros Hw. repeat (apply Forall_cons in Hw as [? Hw]). unfold run. change (cursor_new ?b) with (cur b 0).
  set (b := _ ++ rest).
  assert (drop 0 b = write_header h [] ++ rest) as Hb by done. clearbody b.
  unfold write_header, write_be_u32 in Hb. rewrite <- !app_assoc in Hb. cbn [app] in Hb. unfold read_header.
  repeat match goal with
  | Hb : drop ?n b = to_be_bytes 4 ?v ++ _ |- context [(read_be_u32 ≫= _) (cur b ?n)] =>
    rewrite (bind_eq_ok _ _ _ _ _ (read_be_u32_at b n v _ ltac:(assumption) Hb));
    apply drop_next in Hb; rewrite length_to_be_bytes in Hb
  end.
  by destruct h.
Qed.

Lemma read_rsvmap_spec l rest :
  Forall (λ e, is_u64 (address e) ∧ is_u64 (size e) ∧ ¬ (address e = 0 ∧ size e = 0)%Z) l →
  run read_mem_rsvmap (rsvmap_bytes l ++ rest) = Ok l.
Proof.
  intros Hl. unfold run, read_mem_rsvmap. change (cursor_new ?b) with (cur b 0).
  set (b := rsvmap_bytes l ++ rest). unfold mbind at 1, M_bind at 1, gets. cbn [buf cur].
  assert (length l < S (length b)) as Hfuel.
  { unfold b, rsvmap_bytes. rewrite !length_app. clear. induction l as [|e l IH]; [simpl; lia|]. rewrite fmap_cons.
    change (mjoin (?x :: ?l)) with (x ++ mjoin l). rewrite !length_app, !length_to_be_bytes in *. cbn [length]. lia. }
  assert (drop 0 b = rsvmap_bytes l ++ rest) as Hb by done. clearbody b. revert Hfuel.
  generalize (S (length b)). intros fuel Hfuel. change l with ([] ++ l) at 1. revert Hb Hfuel.
  generalize (@nil ReserveEntry) 0 fuel. clear fuel.
  induction Hl as [|e l (Ha & Hs & Hnz) _ IH]; intros v n fuel Hb Hfuel; (destruct fuel as [|fuel]; [lia|]);
    cbn [read_mem_rsvmap_loop]; unfold rsvmap_bytes in Hb.
  - cbn [fmap list_fmap mjoin list_join app] in Hb. rewrite <- app_assoc in Hb.
    pose proof (drop_next _ _ _ _ Hb) as Hb2. rewrite length_to_be_bytes in Hb2.
    rewrite (bind_eq_ok _ _ _ {| address := 0; size := 0 |} (cur b (n + 8 + 8))).
    + simpl. by rewrite app_nil_r.
    + unfold read_reserve_entry. rewrite (bind_eq_ok _ _ _ _ _ (read_be_u64_at _ _ 0 _ ltac:(done) Hb)).
      by rewrite (bind_eq_ok _ _ _ _ _ (read_be_u64_at _ _ 0 _ ltac:(done) Hb2)).
  - rewrite fmap_cons in Hb. change (mjoin (?x :: ?l)) with (x ++ mjoin l) in Hb. rewrite <- !app_assoc in Hb.
    pose proof (drop_next _ _ _ _ Hb) as Hb2. rewrite length_to_be_bytes in Hb2.
    pose proof (drop_next _ _ _ _ Hb2) as Hb3. rewrite length_to_be_bytes in Hb3.
    rewrite (bind_eq_ok _ _ _ e (cur b (n + 8 + 8))).
    + destruct (_ && _)%bool eqn:Hz.
      { apply andb_true_iff in Hz as [?%Z.eqb_eq ?%Z.eqb_eq]. tauto. }
      rewrite (IH (v ++ [e]) (n + 8 + 8) fuel).
      * by rewrite <- app_assoc.
      * unfold rsvmap_bytes. by rewrite <- !app_assoc.
      * simpl in Hfuel. lia.
    + unfold read_reserve_entry. rewrite (bind_eq_ok _ _ _ _ _ (read_be_u64_at _ _ _ _ Ha Hb)).
      rewrite (bind_eq_ok _ _ _ _ _ (read_be_u64_at _ _ _ _ Hs Hb2)). by destruct e.
Qed.

Lemma read_struct_spec n strings :
  node_ok n → strings = node_strings n → (Z.of_nat (length strings) < 2 ^ 32)%Z →
  (Z.of_nat (length (struct_bytes n)) < 2 ^ 32)%Z →
  run (read_struct strings) (struct_bytes n) = Ok n.
Proof.
  intros Hn Hs Hlen Hl. unfold run, read_struct. change (cursor_new ?b) with (cur b 0).
  set (b := struct_bytes n) in *.
  assert (drop 0 b = struct_bytes n) as Hb by done. unfold struct_bytes in Hb.
  pose proof (drop_next _ _ _ _ Hb) as Hb2. rewrite length_to_be_bytes in Hb2.
  pose proof (drop_next _ _ _ _ Hb2) as Hb3. pose proof (drop_next _ _ _ _ Hb3) as Hb4.
  change (0 + 4 + length (pad4 [0%Z])) with 8 in *.
  rewrite (bind_eq_ok _ _ _ _ _ (read_be_u32_at _ _ TOK_BEGIN_NODE _ ltac:(done) Hb)).
  rewrite (bind_eq_ok (ensure (TOK_BEGIN_NODE =? TOK_BEGIN_NODE)%Z) _ _ tt (cur b (0 + 4)) eq_refl).
  assert (name_ok []) as Hnil by (split; [split; [constructor|done]|set_solver]).
  change (pad4 [0%Z]) with (pad4 ([] ++ [0%Z])) in Hb2.
  rewrite (bind_eq_ok _ _ _ _ _ (read_unit_name_at b (0 + 4) [] _ ltac:(done) Hnil Hb2)).
  rewrite (bind_eq_ok (ensure (length [] =? 0)) _ _ tt (cur b 8) eq_refl).
  pose proof (drop_room _ _ _ _ Hb3 ltac:(destruct n as [[|[]] []]; done)) as Hroom.
  rewrite (bind_eq_ok _ _ _ n (cur b (8 + length (node_bytes 0 n)))).
  2:{ unfold read_node, mbind, M_bind, gets. cbn [buf cur].
      apply (read_node_back b strings Hl Hlen n 8 0 (to_be_bytes 4 TOK_END) []); [done|done|exact Hb3| |lia].
      by rewrite app_nil_r. }
  rewrite <- (app_nil_r (to_be_bytes 4 TOK_END)) in Hb4.
  by rewrite (bind_eq_ok _ _ _ _ _ (read_be_u32_at _ _ TOK_END _ ltac:(done) Hb4)).
Qed.

(** A slice of a concatenation, with offsets and sizes in 32 bits. *)
Lemma slice_at {E} (pre x rest : list Z) : (Z.of_nat (length (pre ++ x ++ rest)) < 2 ^ 32)%Z →
  slice (E := E) (pre ++ x ++ rest) (as_u32 (length pre)) (u32_plus (as_u32 (length pre)) (as_u32 (length x))) = Ok x.
Proof.
  intros Hl. rewrite !length_app in Hl. destruct (as_u32_small (length pre)) as [-> _]; [lia|].
  destruct (as_u32_small (length x)) as [-> _]; [lia|].
  unfold u32_plus, word_cast. rewrite Z.land_ones, Z.mod_small by lia. unfold slice.
  rewrite (get_range_at _ _ x rest); [done|rewrite length_app; lia|by rewrite drop_app_length].
Qed.
Lemma slice_rest {E} (pre x : list Z) : (Z.of_nat (length pre) < 2 ^ 32)%Z →
  slice (E := E) (pre ++ x) (as_u32 (length pre)) (Z.of_nat (length (pre ++ x))) = Ok x.
Proof.
  intros Hl. destruct (as_u32_small (length pre)) as [-> _]; [lia|]. rewrite length_app, Nat2Z.inj_add. unfold slice.
  rewrite (get_range_at _ _ x []); [done|rewrite length_app; lia|by rewrite drop_app_length, app_nil_r].
Qed.

Lemma header_words dt : is_u32 (boot_cpuid_phys dt) → let h := header_of dt in
  Forall is_u32 [magic h; totalsize h; off_dt_struct h; off_dt_strings h; off_mem_rsvmap h; version h;
    last_comp_version h; h_boot_cpuid_phys h; size_dt_strings h; size_dt_struct h].
Proof.
  intros Hc. cbn [header_of magic totalsize off_dt_struct off_dt_strings off_mem_rsvmap version last_comp_version
    h_boot_cpuid_phys size_dt_strings size_dt_struct].
  repeat constructor; try (unfold as_u32; apply is_word_cast; lia); try apply Hc; vm_compute; congruence.
Qed.

Lemma dt_read_write dt : dt_ok dt → (Z.of_nat (length (dt_write dt)) < 2 ^ 32)%Z → dt_read (dt_write dt) = Ok dt.
Proof.
  intros [Hr Hn Hc]. rewrite dt_write_eq. set (H := write_header _ _). set (rsv := rsvmap_bytes _).
  set (st := struct_bytes _). set (str := node_strings _). intros Hlen.
  assert (length H = 40) as HH by apply length_write_header.
  assert (run read_mem_rsvmap (rsv ++ st ++ str) = Ok (mem_rsvmap dt)) as Hrsv by (by apply read_rsvmap_spec).
  pose proof Hlen as Hlen'. rewrite !length_app in Hlen'.
  assert (run (read_struct str) st = Ok (dt_root dt)) as Hst by (apply read_struct_spec; [done|done|lia|fold st; lia]).
  unfold dt_read. rewrite (read_header_spec _ _ (header_words dt Hc)). cbn [mbind outcome_bind].
  change (negb (magic (header_of dt) =? MAGIC)%Z) with false.
  change (negb (version (header_of dt) =? VERSION)%Z) with false.
  change (negb (last_comp_version (header_of dt) =? LAST_COMP_VERSION)%Z) with false. cbn [negb].
  assert (off_mem_rsvmap (header_of dt) = as_u32 (length H)) as -> by (by rewrite HH).
  assert (off_dt_strings (header_of dt) = as_u32 (length (H ++ rsv ++ st))) as ->
    by (by rewrite !length_app, HH, Nat.add_assoc).
  assert (off_dt_struct (header_of dt) = as_u32 (length (H ++ rsv))) as -> by (by rewrite length_app, HH).
  change (size_dt_strings (header_of dt)) with (as_u32 (length str)).
  change (size_dt_struct (header_of dt)) with (as_u32 (length st)).
  rewrite slice_rest by lia. cbn [mbind outcome_bind]. rewrite Hrsv. cbn [mbind outcome_bind].
  replace (H ++ rsv ++ st ++ str) with ((H ++ rsv ++ st) ++ str ++ []) in * by (by rewrite app_nil_r, <- !app_assoc).
  rewrite slice_at by done. cbn [mbind outcome_bind].
  replace ((H ++ rsv ++ st) ++ str ++ []) with ((H ++ rsv) ++ st ++ str) in * by (by rewrite app_nil_r, <- !app_assoc).
  rewrite slice_at by done. cbn [mbind outcome_bind].
  rewrite Hst. by destruct dt.
Qed.

(** ** Reading ends, and when it panics *)

(** [m] moves forward by at least [k], or the tree is malformed. *)
Definition moves {A} (k : Z) (m : CM A) : Prop := ∀ c, (0 ≤ pos c)%Z →
  wp m (λ _ c', buf c' = buf c ∧ (pos c + k ≤ pos c')%Z) (λ e _, e = Malformed) c.

Lemma moves_ret {A} (a : A) : moves 0 (mret a).
Proof. intros c Hc. apply wp_ret. split; [done|lia]. Qed.
Lemma moves_bind {A B} k1 k2 (m : CM A) (f : A → CM B) : (0 ≤ k1)%Z →
  moves k1 m → (∀ a, moves k2 (f a)) → moves (k1 + k2) (m ≫= f).
Proof.
  intros Hk Hm Hf c Hc. apply wp_bind. eapply wp_mono; [by apply Hm| |done].
  intros a c' [Hb Hp]. eapply wp_mono; [apply Hf; lia| |done]. intros x c'' [Hb' Hp']. split; [congruence|lia].
Qed.
Lemma moves_read n : moves (Z.max 0 n) (read n).
Proof.
  intros c Hc. unfold wp, read, mbind, M_bind, gets, get_range. case_bool_decide; [|done].
  cbn. split; [done|]. lia.
Qed.
Lemma moves_be_u32 : moves 4 read_be_u32.
Proof. apply (moves_bind 4 0); [done|apply (moves_read 4)|intros; apply moves_ret]. Qed.
Lemma moves_be_u64 : moves 8 read_be_u64.
Proof. apply (moves_bind 8 0); [done|apply (moves_read 8)|intros; apply moves_ret]. Qed.
Lemma moves_weaken {A} k k' (m : CM A) : moves k m → (k' ≤ k)%Z → moves k' m.
Proof. intros Hm Hk c Hc. eapply wp_mono; [by apply Hm| |done]. intros a c' [? ?]. split; [done|lia]. Qed.
Lemma moves_align : moves 0 (align 4).
Proof. intros c Hc. split; [done|]. simpl. pose proof (align_up_4_bounds (pos c) Hc). lia. Qed.
Lemma moves_read_value n : moves 0 (read_value n).
Proof.
  apply (moves_bind 0 0); [done|eapply moves_weaken; [apply moves_read|lia]|intros v].
  apply (moves_bind 0 0); [done|apply moves_align|intros; apply moves_ret].
Qed.
Lemma cstring_outcome s off : cstring_at s off = Err Malformed ∨ ∃ x, cstring_at s off = Ok x.
Proof. unfold cstring_at. repeat case_match; eauto. Qed.
Lemma moves_cstring {A} s off (f : list Z → CM A) : (∀ x, moves 0 (f x)) → moves 0 (lift (cstring_at s off) ≫= f).
Proof.
  intros Hf c Hc. unfold wp, mbind, M_bind, lift.
  destruct (cstring_outcome s off) as [->|[x ->]]; [done|]. apply (Hf x c Hc).
Qed.
Lemma moves_unit_name : moves 0 read_unit_name.
Proof.
  intros c Hc. unfold read_unit_name.
  change ((reads (λ c, cstring_at (buf c) (pos c)) ≫= ?f) c) with ((lift (cstring_at (buf c) (pos c)) ≫= f) c).
  apply (moves_cstring (buf c) (pos c) (λ s, advance (Z.of_nat (length s) + 1);; align 4;; mret s)); [|done].
  intros s. apply (moves_bind 0 0); [done| |intros _; apply (moves_bind 0 0); [done|apply moves_align|intros; apply moves_ret]].
  intros c' Hc'. split; [done|]. simpl. lia.
Qed.
Lemma moves_prop_header : moves 8 read_prop_header.
Proof.
  apply (moves_bind 4 4); [done|apply moves_be_u32|intros]. apply (moves_bind 4 0); [done|apply moves_be_u32|intros].
  apply moves_ret.
Qed.
Lemma moves_reserve_entry : moves 16 read_reserve_entry.
Proof.
  apply (moves_bind 8 8); [done|apply moves_be_u64|intros]. apply (moves_bind 8 0); [done|apply moves_be_u64|intros].
  apply moves_ret.
Qed.
Lemma moves_header : moves 0 read_header.
Proof.
  unfold read_header. repeat (apply (moves_bind 0 0); [done|eapply moves_weaken; [apply moves_be_u32|lia]|intros]).
  apply moves_ret.
Qed.

(** A token that was read lies in the buffer. *)
Lemma read_token c : (0 ≤ pos c)%Z →
  wp read_be_u32 (λ _ c', buf c' = buf c ∧ pos c' = (pos c + 4)%Z ∧ (pos c' ≤ Z.of_nat (length (buf c)))%Z)
    (λ e _, e = Malformed) c.
Proof.
  intros Hc. unfold wp, read_be_u32, read, mbind, M_bind, gets, get_range. case_bool_decide; [|done]. cbn.
  split; [done|lia].
Qed.

(** With more fuel than bytes, reading a node does not run out of it. *)
Lemma read_node_loop_ends fuel : ∀ strings props childs c, (0 ≤ pos c)%Z →
  (0 < fuel)%nat → (Z.of_nat (length (buf c)) - pos c < Z.of_nat fuel)%Z →
  wp (read_node_loop fuel strings props childs)
    (λ _ c', buf c' = buf c ∧ (pos c ≤ pos c')%Z) (λ e _, e = Malformed) c.
Proof.
  induction fuel as [|fuel IH]; intros strings props childs c Hc Hpos Hfuel; [lia|]. cbn [read_node_loop].
  apply wp_bind. eapply wp_mono; [by apply read_token| |done]. cbv beta. intros tok c1 (Hb1 & Hp1 & Hl1).
  assert (∀ c2, buf c2 = buf c → (pos c1 ≤ pos c2)%Z → (0 ≤ pos c2)%Z ∧ (0 < fuel)%nat ∧
    (Z.of_nat (length (buf c2)) - pos c2 < Z.of_nat fuel)%Z) as Hnext.
  { intros c2 -> Hp2. lia. }
  assert (∀ props childs c2, buf c2 = buf c → (pos c1 ≤ pos c2)%Z →
    wp (read_node_loop fuel strings props childs) (λ _ c', buf c' = buf c ∧ (pos c ≤ pos c')%Z) (λ e _, e = Malformed) c2)
    as Hloop.
  { intros ps cs c2 Hb2 Hp2. destruct (Hnext c2 Hb2 Hp2) as (? & ? & ?).
    eapply wp_mono; [by apply IH| |done]. intros x c3 [Hb3 Hp3]. split; [congruence|lia]. }
  destruct (_ =? _)%Z; [by apply Hloop|]. destruct (_ =? _)%Z.
  - apply wp_bind. eapply wp_mono; [apply moves_prop_header; lia| |done]. intros ph c2 [Hb2 Hp2].
    destruct (cstring_outcome strings (name_off ph)) as [->|[name ->]]; [done|]. apply wp_bind. unfold wp at 1, lift.
    apply wp_bind. eapply wp_mono; [apply moves_read_value; lia| |done]. intros v c3 [Hb3 Hp3].
    apply Hloop; [congruence|lia].
  - destruct (_ =? _)%Z.
    + apply wp_bind. eapply wp_mono; [apply moves_unit_name; lia| |done]. intros name c2 [Hb2 Hp2].
      destruct (Hnext c2 ltac:(congruence) ltac:(lia)) as (? & ? & ?).
      apply wp_bind. eapply wp_mono; [by apply IH| |done]. intros child c3 [Hb3 Hp3].
      apply Hloop; [congruence|lia].
    + destruct (_ =? _)%Z; [|done]. apply wp_ret. split; [done|lia].
Qed.
Lemma read_rsvmap_loop_ends fuel : ∀ v c, (0 ≤ pos c)%Z → (Z.of_nat (length (buf c)) - pos c < Z.of_nat fuel)%Z →
  (0 < fuel)%nat → wp (read_mem_rsvmap_loop fuel v) (λ _ _, True) (λ e _, e = Malformed) c.
Proof.
  induction fuel as [|fuel IH]; intros v c Hc Hfuel Hpos; [lia|]. cbn [read_mem_rsvmap_loop].
  apply wp_bind. eapply (wp_mono _ (λ _ c', buf c' = buf c ∧ (pos c + 16 ≤ pos c' ≤ Z.of_nat (length (buf c)))%Z) _
    (λ e _, e = Malformed)); [| |done].
  { unfold wp, read_reserve_entry, read_be_u64, read, mbind, M_bind, gets, get_range.
    case_bool_decide; [|done]. cbn. case_bool_decide; [|done]. cbn. split; [done|]. cbn in *. lia. }
  intros e c' [Hb Hp]. destruct (_ && _)%bool; [by apply wp_ret|]. apply IH; rewrite ?Hb; lia.
Qed.

(** Any run of one of the readers on a fresh cursor. *)
Lemma run_outcome {A} (m : CM A) b Q : wp m Q (λ e _, e = Malformed) (cursor_new b) →
  run m b = Err Malformed ∨ ∃ a, run m b = Ok a.
Proof. unfold wp, run. destruct (m (cursor_new b)) as [[] ?]; naive_solver. Qed.

Lemma run_header dtb : run read_header dtb = Err Malformed ∨ ∃ h, run read_header dtb = Ok h.
Proof. eapply run_outcome. by apply moves_header. Qed.
Lemma run_rsvmap b : run read_mem_rsvmap b = Err Malformed ∨ ∃ l, run read_mem_rsvmap b = Ok l.
Proof.
  eapply run_outcome. unfold read_mem_rsvmap. apply wp_bind. unfold wp at 1, gets.
  apply read_rsvmap_loop_ends; cbn [cursor_new buf pos]; lia.
Qed.
Lemma run_struct strings b : run (read_struct strings) b = Err Malformed ∨ ∃ n, run (read_struct strings) b = Ok n.
Proof.
  assert (∀ b c, wp (ensure b) (λ _ c', c' = c) (λ e _, e = Malformed) c) as Hens by (by intros [] c).
  eapply run_outcome. unfold read_struct.
  apply wp_bind. eapply wp_mono; [by apply moves_be_u32| |done]. intros tok c1 [Hb1 Hp1]. cbn [cursor_new pos] in Hp1.
  apply wp_bind. eapply wp_mono; [apply Hens| |done]. intros _ ? ->.
  apply wp_bind. eapply wp_mono; [apply moves_unit_name; lia| |done]. intros name c2 [Hb2 Hp2].
  apply wp_bind. eapply wp_mono; [apply Hens| |done]. intros _ ? ->.
  apply wp_bind. unfold read_node. apply wp_bind. unfold wp at 1, gets.
  eapply wp_mono; [apply read_node_loop_ends; lia| |done]. intros n c3 [Hb3 Hp3].
  apply wp_bind. eapply wp_mono; [apply moves_be_u32; lia| |done]. intros tok' c4 _.
  apply wp_bind. eapply wp_mono; [apply Hens| |done]. intros _ c5 _. by apply (wp_ret _ (λ _ _, True)).
Qed.

Definition accepted (h : Header) : Prop :=
  magic h = MAGIC ∧ version h = VERSION ∧ last_comp_version h = LAST_COMP_VERSION.
(** The range from [i] to [j] does not lie in the blob. *)
Definition outside (dtb : list Z) (i j : Z) : Prop := ¬ (0 ≤ i ∧ i ≤ j ∧ j ≤ Z.of_nat (length dtb))%Z.

#[local] Instance accepted_dec h : Decision (accepted h).
Proof. unfold accepted. apply _. Defined.

Lemma slice_outcome {E} b i j :
  (outside b i j ∧ slice (E := E) b i j = Panic) ∨ (¬ outside b i j ∧ ∃ x, slice (E := E) b i j = Ok x).
Proof.
  unfold slice, get_range, outside. case_bool_decide as H; [right|left; done]. split; [tauto|]. by eexists.
Qed.

Lemma dt_read_cases dtb : dt_read dtb ≠ Err OutOfFuel ∧
  (dt_read dtb = Panic ↔ ∃ h, run read_header dtb = Ok h ∧ accepted h ∧
    (outside dtb (off_mem_rsvmap h) (Z.of_nat (length dtb)) ∨
     ∃ rsv l, slice (E := fdt_error) dtb (off_mem_rsvmap h) (Z.of_nat (length dtb)) = Ok rsv ∧ run read_mem_rsvmap rsv = Ok l ∧
       (outside dtb (off_dt_strings h) (u32_plus (off_dt_strings h) (size_dt_strings h)) ∨
        outside dtb (off_dt_struct h) (u32_plus (off_dt_struct h) (size_dt_struct h))))).
Proof.
  assert (∀ (P : Prop) e, e ≠ OutOfFuel → ¬ P → @Err fdt_error DeviceTree e ≠ Err OutOfFuel ∧ (@Err fdt_error DeviceTree e = Panic ↔ P))
    as Herr by (intros P e He HP; split; [congruence|by split]).
  assert (∀ (P : Prop), P → @Panic fdt_error DeviceTree ≠ Err OutOfFuel ∧ (@Panic fdt_error DeviceTree = Panic ↔ P))
    as Hpanic by (intros P HP; by split).
  unfold dt_read. destruct (run_header dtb) as [->|[h ->]]; cbn [mbind outcome_bind].
  { apply Herr; [done|]. by intros (? & ? & _). }
  destruct (decide (accepted h)) as [Hacc|Hacc].
  2:{ assert (∀ P, ¬ ∃ h0, Ok (E := fdt_error) h = Ok h0 ∧ accepted h0 ∧ P h0) as Hno by (intros P (? & [= <-] & ? & _); done).
      destruct (Z.eqb_spec (magic h) MAGIC) as [E1|]; cbn [negb]; [|by apply Herr].
      destruct (Z.eqb_spec (version h) VERSION) as [E2|]; cbn [negb]; [|by apply Herr].
      destruct (Z.eqb_spec (last_comp_version h) LAST_COMP_VERSION) as [E3|]; cbn [negb]; [|by apply Herr].
      by destruct Hacc. }
  assert (accepted h) as (-> & -> & ->) by done. cbn [negb Z.eqb MAGIC VERSION LAST_COMP_VERSION]. rewrite !Pos.eqb_refl. cbn [negb].
  destruct (slice_outcome (E := fdt_error) dtb (off_mem_rsvmap h) (Z.of_nat (length dtb)))
    as [[Ho ->]|[Ho [rsv Hrsv]]]; [|rewrite Hrsv]; cbn [mbind outcome_bind].
  { apply Hpanic. exists h. auto. }
  destruct (run_rsvmap rsv) as [Hr|[l Hr]]; rewrite Hr; cbn [mbind outcome_bind].
  { apply Herr; [done|]. intros (? & [= <-] & _ & [?|(? & ? & ? & ? & _)]); [done|congruence]. }
  destruct (slice_outcome (E := fdt_error) dtb (off_dt_strings h) (u32_plus (off_dt_strings h) (size_dt_strings h)))
    as [[Hs ->]|[Hs [strings ->]]]; cbn [mbind outcome_bind].
  { apply Hpanic. exists h. split; [done|]. split; [done|]. right. exists rsv, l. auto. }
  destruct (slice_outcome (E := fdt_error) dtb (off_dt_struct h) (u32_plus (off_dt_struct h) (size_dt_struct h)))
    as [[Ht ->]|[Ht [st ->]]]; cbn [mbind outcome_bind].
  { apply Hpanic. exists h. split; [done|]. split; [done|]. right. exists rsv, l. auto. }
  assert (¬ ∃ h0, Ok (E := fdt_error) h = Ok h0 ∧ accepted h0 ∧
    (outside dtb (off_mem_rsvmap h0) (Z.of_nat (length dtb)) ∨
     ∃ rsv l, slice (E := fdt_error) dtb (off_mem_rsvmap h0) (Z.of_nat (length dtb)) = Ok rsv ∧ run read_mem_rsvmap rsv = Ok l ∧
       (outside dtb (off_dt_strings h0) (u32_plus (off_dt_strings h0) (size_dt_strings h0)) ∨
        outside dtb (off_dt_struct h0) (u32_plus (off_dt_struct h0) (size_dt_struct h0))))) as Hin.
  { intros (? & [= <-] & _ & [?|(? & ? & _ & _ & [?|?])]); done. }
  destruct (run_struct strings st) as [->|[n ->]]; cbn [mbind outcome_bind]; [by apply Herr|].
  split; [done|]. by split.
Qed.

(** C20: Device trees survive flattening.  A device tree whose names are strings without null bytes,
    whose properties and children are maps, whose reserved areas are not all zero and whose
    flattened form is shorter than 4 GiB is read back as it was written. *)
Theorem device_tree_roundtrip dt :
  dt_ok dt → (Z.of_nat (length (dt_write dt)) < 2 ^ 32)%Z → dt_read (dt_write dt) = Ok dt.
Proof. apply dt_read_write. Qed.

(** Two CPUs, and a reserved area. *)
Definition small_tree : DeviceTree := {|
  mem_rsvmap := [{| address := 4096; size := 8192 |}];
  dt_root := MkNode [([97], [1; 2; 3; 4; 5]); ([98], [])]
    [([99; 112; 117; 48], MkNode [([114; 101; 103], [0; 0; 0; 0])] []); ([99; 112; 117; 49], MkNode [] [])];
  boot_cpuid_phys := 0;
|}%Z.
Lemma device_tree_roundtrip_witness : dt_ok small_tree ∧ dt_read (dt_write small_tree) = Ok small_tree.
Proof.
  assert (dt_ok small_tree) as Hok.
  { split.
    - repeat constructor; try (vm_compute; congruence). vm_compute. naive_solver.
    - apply node_okb_sound. vm_compute. reflexivity.
    - vm_compute. split; congruence. }
  split; [exact Hok|]. apply (device_tree_roundtrip small_tree Hok). vm_compute. reflexivity.
Defined.

(** C39: Reading a device tree ends on every input, in a tree, in an error or in a panic; and it
    panics exactly when the header is accepted but points out of the blob: to the reserved areas,
    or, when those can be read, to the strings or to the nodes. *)
Theorem device_tree_read_outcomes dtb : dt_read dtb ≠ Err OutOfFuel ∧
  (dt_read dtb = Panic ↔ ∃ h, run read_header dtb = Ok h ∧ accepted h ∧
    (outside dtb (off_mem_rsvmap h) (Z.of_nat (length dtb)) ∨
     ∃ rsv l, slice (E := fdt_error) dtb (off_mem_rsvmap h) (Z.of_nat (length dtb)) = Ok rsv ∧ run read_mem_rsvmap rsv = Ok l ∧
       (outside dtb (off_dt_strings h) (u32_plus (off_dt_strings h) (size_dt_strings h)) ∨
        outside dtb (off_dt_struct h) (u32_plus (off_dt_struct h) (size_dt_struct h))))).
Proof. apply dt_read_cases. Qed.
