(* ===== verification/DeviceTreeTyped.v ===== *)
(** * DeviceTreeTyped: the trees that are read

    The maps of a tree under insertion, and that every tree that [DeviceTree::read] gives is well
    formed. *)

From stdpp Require Import strings.
From S2P Require Import Prelude.
From S2P Require Import Bytes.
From S2P Require Import DeviceTree.
From S2P Require Import DeviceTreeSpec.

(** ** Insertion and lookup *)
Section btree.
Context {V : Type}.
Implicit Types (l : list (list Z * V)) (k : list Z).

Lemma bt_get_insert l k v : bt_get k (bt_insert k v l) = Some v.
Proof.
  induction l as [|[k' v'] l IH]; simpl; [by rewrite decide_True|].
  destruct (bytes_cmp k k') eqn:Hc; simpl; [by rewrite decide_True..|].
  rewrite decide_False; [done|]. intros ->. by rewrite (proj2 (bytes_cmp_eq k' k') eq_refl) in Hc.
Qed.
Lemma bt_get_insert_ne l k k' v : k ≠ k' → bt_get k (bt_insert k' v l) = bt_get k l.
Proof.
  intros Hk. induction l as [|[k2 v2] l IH]; simpl; [by rewrite decide_False|].
  destruct (bytes_cmp k' k2) eqn:Hc; simpl; [|by rewrite decide_False|by rewrite IH].
  apply bytes_cmp_eq in Hc as ->. by rewrite !decide_False.
Qed.
Lemma bt_get_elem l k v : bt_get k l = Some v → (k, v) ∈ l.
Proof.
  induction l as [|[k' v'] l IH]; simpl; [done|]. destruct (decide (k = k')) as [->|]; [|set_solver].
  intros [= ->]. by constructor.
Qed.

Lemma bt_insert_keys l k v k' : k' ∈ (bt_insert k v l).*1 ↔ k' = k ∨ k' ∈ l.*1.
Proof.
  induction l as [|[k2 v2] l IH]; simpl; [set_solver|].
  destruct (bytes_cmp k k2) eqn:Hc; simpl; [apply bytes_cmp_eq in Hc as ->; set_solver|set_solver|].
  rewrite !elem_of_cons, IH. tauto.
Qed.
Lemma bt_insert_sorted l k v : bt_sorted l → bt_sorted (bt_insert k v l).
Proof.
  unfold bt_sorted. induction l as [|[k' v'] l IH]; simpl; intros Hs; [repeat constructor|].
  apply StronglySorted_inv in Hs as Hs'. destruct Hs' as [Hs' Hf].
  destruct (bytes_cmp k k') eqn:Hc; simpl.
  - apply bytes_cmp_eq in Hc as ->. by constructor.
  - constructor; [done|]. constructor; [done|]. eapply Forall_impl; [exact Hf|].
    intros k2. by apply bytes_lt_trans.
  - constructor; [by apply IH|]. apply Forall_forall. intros k2 [->|Hk2]%bt_insert_keys.
    + unfold bytes_lt. by rewrite bytes_cmp_antisym, Hc.
    + by rewrite Forall_forall in Hf; apply Hf.
Qed.
Lemma bt_insert_Forall (P : list Z * V → Prop) l k v : P (k, v) → Forall P l → Forall P (bt_insert k v l).
Proof.
  intros Hk. induction 1 as [|[k' v'] l Hk' Hl IH]; simpl; [by repeat constructor|].
  destruct (bytes_cmp k k'); repeat constructor; done.
Qed.
End btree.

(** Edits of a well-formed node. *)
Lemma node_ok_property props childs k v : name_ok k → bytes_ok v →
  node_ok (MkNode props childs) → node_ok (MkNode (bt_insert k v props) childs).
Proof.
  rewrite !node_ok_eq. intros Hk Hv (? & ? & ? & ?). split_and!; auto using bt_insert_sorted.
  by apply bt_insert_Forall.
Qed.
Lemma node_ok_child props childs k c : name_ok k → node_ok c →
  node_ok (MkNode props childs) → node_ok (MkNode props (bt_insert k c childs)).
Proof.
  rewrite !node_ok_eq. intros Hk Hc (? & ? & ? & ?). split_and!; auto using bt_insert_sorted.
  by apply bt_insert_Forall.
Qed.
Lemma node_ok_get n k c : node_ok n → bt_get k (children n) = Some c → name_ok k ∧ node_ok c.
Proof.
  destruct n as [props childs]. rewrite node_ok_eq. intros (_ & _ & _ & Hc) Hg%bt_get_elem.
  rewrite Forall_forall in Hc. by apply (Hc _ Hg).
Qed.

(** ** What the readers give *)

(** A reader leaves the buffer alone, and of bytes it gives what satisfies [P]. *)
Definition gives {A} (P : A → Prop) (m : CM A) : Prop :=
  ∀ c a c', bytes_ok (buf c) → m c = (Ok a, c') → P a ∧ buf c' = buf c.

Lemma gives_bind {A B} (P : A → Prop) (Q : B → Prop) (m : CM A) (f : A → CM B) :
  gives P m → (∀ a, P a → gives Q (f a)) → gives Q (m ≫= f).
Proof.
  intros Hm Hf c b c' Hc (a & c1 & H1 & H2)%bind_ok_inv. apply Hm in H1 as [Ha Hb]; [|done].
  apply Hf in H2 as [Hq Hb2]; [|done|by rewrite Hb]. split; [done|congruence].
Qed.
Lemma gives_ret {A} (P : A → Prop) (a : A) : P a → gives P (mret a).
Proof. intros Ha c b c' _ [-> ->]%ret_ok_inv. done. Qed.
Lemma gives_throw {A} (P : A → Prop) e : gives P (throw e).
Proof. by intros c a c' _ [=]. Qed.
Lemma gives_weaken {A} (P Q : A → Prop) (m : CM A) : gives P m → (∀ a, P a → Q a) → gives Q m.
Proof. intros Hm HPQ c a c' Hc Hr. apply Hm in Hr as [? ?]; [|done]. auto. Qed.

Lemma get_range_ok b i j x : bytes_ok b → get_range b i j = Some x →
  bytes_ok x ∧ length x = Z.to_nat (j - i).
Proof.
  unfold get_range. intros Hb. case_bool_decide as Hr; [|done]. intros [= <-].
  split; [by apply Forall_take, Forall_drop|]. rewrite length_take, length_drop. lia.
Qed.
Lemma gives_read n : (0 ≤ n)%Z → gives (λ x, bytes_ok x ∧ length x = Z.to_nat n) (read n).
Proof.
  intros Hn c a c' Hc. unfold read, mbind, M_bind, gets. destruct (get_range _ _ _) as [x|] eqn:Hx; [|done].
  apply get_range_ok in Hx as [Hx Hl]; [|done]. intros [= <- <-]. split; [|done]. split; [done|].
  rewrite Hl. f_equal. lia.
Qed.
Lemma gives_word n : gives (is_word (8 * Z.of_nat n)) (raw ← read (Z.of_nat n); mret (from_be_bytes raw)).
Proof.
  eapply gives_bind; [apply gives_read; lia|]. intros raw [Hb Hl]. rewrite Nat2Z.id in Hl. subst n.
  by apply gives_ret, from_be_range.
Qed.
Lemma gives_u32 : gives is_u32 read_be_u32.
Proof. apply (gives_word 4). Qed.
Lemma gives_u64 : gives is_u64 read_be_u64.
Proof. apply (gives_word 8). Qed.
Lemma gives_align n : gives (λ _, True) (align n).
Proof. intros c a c' _ [= <- <-]. done. Qed.
Lemma gives_value n : (0 ≤ n)%Z → gives bytes_ok (read_value n).
Proof.
  intros Hn. eapply gives_bind; [by apply gives_read|]. intros v [Hv _].
  eapply gives_bind; [apply gives_align|]. intros. by apply gives_ret.
Qed.

Lemma null_position_spec b n : null_position b = Some n → 0%Z ∉ take n b.
Proof.
  revert n. induction b as [|x b IH]; simpl; intros n; [done|].
  destruct (Z.eqb_spec x 0); [intros [= <-]; set_solver|].
  destruct (null_position b) as [m|]; [|done]. intros [= <-]. simpl. specialize (IH m eq_refl). set_solver.
Qed.
Lemma cstring_ok b off s : bytes_ok b → cstring_at b off = Ok s → name_ok s.
Proof.
  unfold cstring_at. intros Hb. destruct (get_range _ _ _) as [sub|] eqn:Hs; [|done].
  apply get_range_ok in Hs as [Hs _]; [|done]. destruct (null_position sub) as [n|] eqn:Hn; [|done].
  destruct (utf8_valid _) eqn:Hu; [|done]. intros [= <-].
  split; [split; [by apply Forall_take|done]|by apply null_position_spec].
Qed.
Lemma gives_unit_name : gives name_ok read_unit_name.
Proof.
  apply (gives_bind name_ok).
  { intros c a c' Hc [Hr ->]%reads_ok_inv. split; [by eapply cstring_ok|done]. }
  intros s Hs. apply (gives_bind (λ _, True)); [by intros c a c' _ [= <- <-]|]. intros _ _.
  eapply gives_bind; [apply gives_align|]. intros. by apply gives_ret.
Qed.
Lemma gives_ensure b : gives (λ _, True) (ensure b).
Proof. destruct b; [by apply gives_ret|apply gives_throw]. Qed.

Definition entry_ok (e : ReserveEntry) : Prop := is_u64 (address e) ∧ is_u64 (size e).
Lemma gives_reserve_entry : gives entry_ok read_reserve_entry.
Proof.
  eapply gives_bind; [apply gives_u64|]. intros. eapply gives_bind; [apply gives_u64|]. intros.
  by apply gives_ret.
Qed.
Lemma gives_prop_header : gives (λ p, 0 ≤ ph_len p)%Z read_prop_header.
Proof.
  eapply gives_bind; [apply gives_u32|]. intros l [Hl _]. eapply gives_bind; [apply gives_u32|]. intros.
  by apply gives_ret.
Qed.

Lemma gives_node fuel : ∀ strings props childs, bytes_ok strings → node_ok (MkNode props childs) →
  gives node_ok (read_node_loop fuel strings props childs).
Proof.
  induction fuel as [|fuel IH]; intros strings props childs Hs Hn; cbn [read_node_loop]; [apply gives_throw|].
  eapply gives_bind; [apply gives_u32|]. intros tok _. case_match; [by apply IH|]. case_match; [|case_match].
  - eapply gives_bind; [apply gives_prop_header|]. intros p Hp. apply (gives_bind name_ok).
    { intros c a c' _ [Hr ->]%lift_ok_inv. split; [by eapply cstring_ok|done]. }
    intros name Hname. eapply gives_bind; [by apply gives_value|]. intros v Hv.
    by apply IH, node_ok_property.
  - eapply gives_bind; [apply gives_unit_name|]. intros name Hname.
    eapply gives_bind; [apply IH; [done|]|]; [repeat constructor|]. intros child Hc.
    by apply IH, node_ok_child.
  - case_match; [by apply gives_ret|apply gives_throw].
Qed.
Lemma gives_rsvmap fuel : ∀ v,
  Forall (λ e, is_u64 (address e) ∧ is_u64 (size e) ∧ ¬ (address e = 0 ∧ size e = 0)%Z) v →
  gives (Forall (λ e, is_u64 (address e) ∧ is_u64 (size e) ∧ ¬ (address e = 0 ∧ size e = 0)%Z))
    (read_mem_rsvmap_loop fuel v).
Proof.
  induction fuel as [|fuel IH]; intros v Hv; cbn [read_mem_rsvmap_loop]; [apply gives_throw|].
  eapply gives_bind; [apply gives_reserve_entry|]. intros e [Ha Hs].
  destruct (_ && _)%bool eqn:He; [by apply gives_ret|]. apply IH, Forall_app. split; [done|].
  constructor; [|done]. split_and!; [done..|]. intros [Ha0 Hs0]. by rewrite Ha0, Hs0 in He.
Qed.

Lemma gives_struct strings : bytes_ok strings → gives node_ok (read_struct strings).
Proof.
  intros Hs. unfold read_struct.
  eapply gives_bind; [apply gives_u32|]. intros tok _. eapply gives_bind; [apply gives_ensure|]. intros _ _.
  eapply gives_bind; [apply gives_unit_name|]. intros name _. eapply gives_bind; [apply gives_ensure|]. intros _ _.
  apply (gives_bind node_ok).
  { apply (gives_bind (λ _, True)); [by intros c a c' _ [= <- <-]|]. intros n _. apply gives_node; [done|repeat constructor]. }
  intros root Hroot.
  eapply gives_bind; [apply gives_u32|]. intros tok' _. eapply gives_bind; [apply gives_ensure|]. intros _ _.
  by apply gives_ret.
Qed.
Lemma gives_header : gives (λ h, is_u32 (h_boot_cpuid_phys h)) read_header.
Proof. unfold read_header. repeat (eapply gives_bind; [apply gives_u32|intros ??]). by apply gives_ret. Qed.

Lemma run_gives {A} (P : A → Prop) (m : CM A) b a : gives P m → bytes_ok b → run m b = Ok a → P a.
Proof.
  intros Hm Hb. unfold run. destruct (m (cursor_new b)) as [o c'] eqn:Hr. cbn [fst]. intros ->.
  by apply Hm in Hr as [? _].
Qed.
Lemma slice_ok {E} b i j x : bytes_ok b → slice (E := E) b i j = Ok x → bytes_ok x.
Proof. intros Hb Hx%unwrap_ok_inv. by apply get_range_ok in Hx as [? _]. Qed.

(** A tree that is read is well formed. *)
Lemma dt_read_ok dtb dt : bytes_ok dtb → dt_read dtb = Ok dt → dt_ok dt.
Proof.
  intros Hb (h & Hh & H)%outcome_bind_ok. apply (run_gives _ _ _ _ gives_header) in Hh as Hcpu; [|done].
  case_match; [done|]. case_match; [done|]. case_match; [done|].
  apply outcome_bind_ok in H as (rsv & Hrsv%slice_ok & H); [|done].
  apply outcome_bind_ok in H as (l & Hl & H).
  apply outcome_bind_ok in H as (strings & Hstr%slice_ok & H); [|done].
  apply outcome_bind_ok in H as (st & Hst%slice_ok & H); [|done].
  apply outcome_bind_ok in H as (root & Hroot & [= <-]). split; [|by eapply run_gives; [apply gives_struct, Hstr|exact Hst|exact Hroot]|done].
  eapply run_gives; [|exact Hrsv|exact Hl]. apply (gives_bind (λ _, True)); [by intros c a c' _ [= <- <-]|].
  intros n _. by apply gives_rsvmap.
Qed.
