(* ===== verification/DeviceTreePrint.v ===== *)
(** * DeviceTreePrint: device trees as text

    Model of [framework/base/icecap-fdt/src/debug.rs], which prints a device tree, a node or a value.
    The text is the list of its bytes.  A value is printed in lines of as many bytes as fit, in
    hexadecimal and as characters.

    The bytes of the lines are those of the value ([value_lines_bytes]), and the lines fit in 100
    columns ([value_lines_fit]), down to nodes at depth 15; deeper the lines are longer, and from depth 24 on the
    number of columns wraps around and a value is one line ([value_one_line]). *)

From stdpp Require Import strings.
From S2P Require Import Prelude.
From S2P Require Import Bytes.
From S2P Require Import DeviceTree.

Definition INDENT_WIDTH : Z := 4.
Definition UGLY : Z := 46.
Definition newline : list Z := [10%Z].

Definition pretty (b : Z) : Z := if (b <? 128)%Z && negb ((b <? 32)%Z || (b =? 127)%Z) then b else UGLY.
Definition indent (level : nat) : list Z := replicate (level * Z.to_nat INDENT_WIDTH) 32%Z.
(** [{:02x}]. *)
Definition hex2 (b : Z) : list Z := [digit (b / 16); digit (b mod 16)].

(** The number of bytes of a line: [usize] subtractions, which wrap around. *)
Definition char_width_hint (level : nat) : Z := word_cast 64 (100 - (Z.of_nat level + 1) * INDENT_WIDTH).
Definition width (level : nat) : Z := Z.max 8 (word_cast 64 (char_width_hint level - 3) / 4).

(** [chunks(w)]. *)
Fixpoint chunks_fuel (fuel : nat) (w : Z) (l : list Z) : list (list Z) :=
  match fuel, l with
  | S fuel', _ :: _ =>
    let n := Z.to_nat (Z.min w (Z.of_nat (length l))) in take n l :: chunks_fuel fuel' w (drop n l)
  | _, _ => []
  end.
Definition chunks (w : Z) (l : list Z) : list (list Z) := chunks_fuel (length l) w l.

(** A line of a value, the [i]-th. *)
Definition value_line (level i : nat) (chunk : list Z) : list Z :=
  indent (level + 1) ++ mjoin ((λ b, hex2 b ++ [32%Z]) <$> chunk) ++
  (if 0 <? i then mjoin (replicate (Z.to_nat (width level - Z.of_nat (length chunk))) [32; 32; 32]%Z) else []) ++
  bytes_of_string "// " ++ (pretty <$> chunk).
Definition value_lines (v : Value) (level : nat) : list (list Z) := imap (value_line level) (chunks (width level) v).
Definition fmt_value (v : Value) (level : nat) : list Z :=
  bytes_of_string "[" ++ newline ++ mjoin ((λ l, l ++ newline) <$> value_lines v level) ++ indent level ++ bytes_of_string "]".

Definition fmt_property (level : nat) (p : list Z * Value) : list Z :=
  indent (level + 1) ++ p.1 ++ (if 0 <? length p.2 then bytes_of_string " = " ++ fmt_value p.2 (level + 1) else []) ++
  bytes_of_string ";" ++ newline.
Fixpoint fmt_node (n : Node) (level : nat) : list Z :=
  let 'MkNode props children := n in
  bytes_of_string "{" ++ newline ++ mjoin (fmt_property level <$> props) ++
  (fix go (cs : list (list Z * Node)) : list Z :=
    match cs with
    | [] => []
    | (k, child) :: cs' =>
      indent (level + 1) ++ k ++ bytes_of_string " " ++ fmt_node child (level + 1) ++ newline ++ go cs'
    end) children ++
  indent level ++ bytes_of_string "}".
Definition fmt_reserve (e : ReserveEntry) : list Z :=
  bytes_of_string "/memreserve/ 0x" ++ hex (address e) ++ bytes_of_string " 0x" ++ hex (size e) ++ newline.
Definition fmt_device_tree (dt : DeviceTree) : list Z :=
  mjoin (fmt_reserve <$> mem_rsvmap dt) ++ bytes_of_string "/ " ++ fmt_node (dt_root dt) 0.

(** ** The lines of a value *)
Lemma width_pos level : (8 ≤ width level)%Z.
Proof. unfold width. lia. Qed.

Lemma chunks_fuel_spec fuel w l : (0 < w)%Z → length l ≤ fuel →
  mjoin (chunks_fuel fuel w l) = l ∧ Forall (λ c, 0 < length c ∧ (Z.of_nat (length c) ≤ w)%Z) (chunks_fuel fuel w l).
Proof.
  revert l. induction fuel as [|fuel IH]; intros l Hw Hl; [destruct l; [by split|simpl in Hl; lia]|].
  destruct l as [|x l]; [by split|]. cbn [chunks_fuel]. set (n := Z.to_nat _). assert (0 < n ≤ length (x :: l)) as Hn.
  { subst n. simpl length. lia. }
  destruct (IH (drop n (x :: l)) Hw) as [IH1 IH2]; [rewrite length_drop; lia|]. split.
  - change (mjoin (take n (x :: l) :: ?r)) with (take n (x :: l) ++ mjoin r). rewrite IH1. apply take_drop.
  - constructor; [|done]. rewrite length_take. subst n. lia.
Qed.

(** The lines show the bytes of the value, in order, and none is empty. *)
Lemma value_lines_bytes v level : ∃ cs, value_lines v level = imap (value_line level) cs ∧ mjoin cs = v ∧
  Forall (λ c, 0 < length c ∧ (Z.of_nat (length c) ≤ width level)%Z) cs.
Proof.
  exists (chunks (width level) v). split; [done|]. apply chunks_fuel_spec; [|done]. pose proof (width_pos level). lia.
Qed.

Lemma length_join_const {A} (f : A → list Z) n (l : list A) : (∀ x, length (f x) = n) → length (mjoin (f <$> l)) = n * length l.
Proof.
  intros Hf. induction l as [|x l IH]; [simpl; lia|]. rewrite fmap_cons. change (mjoin (?a :: ?r)) with (a ++ mjoin r).
  rewrite length_app, IH, Hf. simpl. lia.
Qed.
Lemma length_join_replicate n (x : list Z) : length (mjoin (replicate n x)) = n * length x.
Proof.
  induction n as [|n IH]; [done|]. cbn [replicate]. change (mjoin (?a :: ?r)) with (a ++ mjoin r). rewrite length_app, IH. lia.
Qed.

Lemma length_value_line level i chunk : (Z.of_nat (length chunk) ≤ width level)%Z →
  (Z.of_nat (length (value_line level i chunk)) ≤ 4 * (Z.of_nat level + 1) + 3 + 4 * width level)%Z.
Proof.
  intros Hc. unfold value_line. rewrite !length_app, length_fmap, (length_join_const _ 3) by done.
  unfold indent. rewrite length_replicate. change (Z.to_nat INDENT_WIDTH) with 4. change (length (bytes_of_string "// ")) with 3.
  destruct (0 <? i); [rewrite length_join_replicate|]; simpl length; lia.
Qed.

Lemma width_fits level : level ≤ 15 → (4 * (Z.of_nat level + 1) + 3 + 4 * width level ≤ 100)%Z.
Proof.
  intros Hl. unfold width, char_width_hint, INDENT_WIDTH. assert (level < 16) as Hlt by lia. clear Hl.
  do 16 (destruct level as [|level]; [vm_compute; discriminate|]). lia.
Qed.

(** Down to depth 15 no line of a value has more than 100 columns. *)
Lemma value_lines_fit v level : level ≤ 15 → Forall (λ l, length l ≤ 100) (value_lines v level).
Proof.
  intros Hl. destruct (value_lines_bytes v level) as (cs & -> & _ & Hcs). apply Forall_lookup. intros i l Hi.
  rewrite list_lookup_imap in Hi. destruct (cs !! i) as [c|] eqn:Hc; simplify_eq/=.
  pose proof (Forall_lookup_1 _ _ _ _ Hcs Hc) as [_ Hw]. pose proof (length_value_line level i c Hw). pose proof (width_fits level Hl). lia.
Qed.

Lemma width_wraps level : 24 ≤ level → (Z.of_nat level < 2 ^ 60)%Z → (2 ^ 61 ≤ width level)%Z.
Proof.
  intros Hl Hb. unfold width, char_width_hint, INDENT_WIDTH, word_cast. rewrite !Z.land_ones by lia.
  destruct (decide (level = 24)) as [->|Hne]; [vm_compute; discriminate|].
  rewrite <-(Z_mod_plus_full (100 - (Z.of_nat level + 1) * 4) 1), (Z.mod_small (_ + _)) by lia.
  rewrite Z.mod_small by lia.
  assert (2 ^ 61 ≤ (100 - (Z.of_nat level + 1) * 4 + 1 * 2 ^ 64 - 3) / 4)%Z; [|lia]. apply Z.div_le_lower_bound; lia.
Qed.

(** From depth 24 on the subtraction wraps around, and a value is printed in one line. *)
Lemma value_one_line v level : 24 ≤ level → (Z.of_nat level < 2 ^ 60)%Z → v ≠ [] → (Z.of_nat (length v) < 2 ^ 61)%Z →
  value_lines v level = [value_line level 0 v].
Proof.
  intros Hl Hb Hv Hlen. unfold value_lines, chunks. pose proof (width_wraps level Hl Hb).
  destruct v as [|x v]; [done|]. cbn [length chunks_fuel].
  rewrite Z.min_r by (simpl in *; lia). rewrite Nat2Z.id. rewrite take_ge, drop_ge by (simpl; lia).
  by destruct (length v).
Qed.
