(* ===== verification/FdtBindings.v ===== *)
(** * FdtBindings: device trees for guests

    Model of the typed access to the nodes of a device tree ([icecap-fdt/src/bindings.rs]), of the
    nodes that describe the devices of IceCap and its guests ([icecap-fdt/bindings]), and of the tool
    that adds them to the device tree of the host ([hypervisor-fdt-append-devices]).

    A method that takes [&mut Node] or [&mut DeviceTree] runs in the state monad of the prelude; it
    panics where a number of cells is not supported. *)

From stdpp Require Import strings.
From S2P Require Import Prelude.
From S2P Require Import Bytes.
From S2P Require Import DeviceTree.

Abbreviation NM := (M Node Empty_set).
Abbreviation DM := (M DeviceTree Empty_set).
Abbreviation str := bytes_of_string.

(** [Range<usize>] and its length. *)
Record range := { r_start : Z; r_end : Z }.
Definition r_len (r : range) : Z := Z.max 0 (r_end r - r_start r).
Definition usize_add (a b : Z) : Z := word_cast 64 (a + b).
Definition mk_range (start size : Z) : range := {| r_start := start; r_end := usize_add start size |}.

(** ** Values *)
Definition value_u32 (v : Z) : Value := to_be_bytes 4 v.
Definition value_u64 (v : Z) : Value := to_be_bytes 8 v.
Definition value_usize (v : Z) : Value := to_be_bytes 8 v.
Definition value_str (v : list Z) : Value := v ++ [0%Z].
Definition value_from_iter (vs : list Value) : Value := foldl (λ raw v, raw ++ v) [] vs.
Definition value_try_u32 (v : Value) : option Z :=
  if negb (length v =? 4) then None else Some (from_be_bytes v).
Definition value_try_u64 (v : Value) : option Z :=
  if negb (length v =? 8) then None else Some (from_be_bytes v).

(** ** Cells *)
Definition DEFAULT_ADDRESS_CELLS : Z := 2.
Definition DEFAULT_SIZE_CELLS : Z := 1.

Record SizeSpec := { address_cells : Z; size_cells : Z }.
Inductive Cells := Address (v : Z) | Size (v : Z) | Raw32 (v : Z) | Raw64 (v : Z).

Definition spec_render (num_cells v : Z) : outcome Empty_set Value :=
  if (num_cells =? 1)%Z then Ok (value_u32 (word_cast 32 v))
  else if (num_cells =? 2)%Z then Ok (value_u64 v)
  else Panic.
Definition spec_address (spec : SizeSpec) (v : Z) : outcome Empty_set Value := spec_render (address_cells spec) v.
Definition spec_size (spec : SizeSpec) (v : Z) : outcome Empty_set Value := spec_render (size_cells spec) v.
Definition spec_cell (spec : SizeSpec) (c : Cells) : outcome Empty_set Value :=
  match c with
  | Address v => spec_address spec v
  | Size v => spec_size spec v
  | Raw32 v => Ok (value_u32 v)
  | Raw64 v => Ok (value_u64 v)
  end.

(** ** Nodes *)
Definition get_property {V} (try : Value → option V) (name : list Z) (n : Node) : option V :=
  bt_get name (properties n) ≫= try.
Definition remove_property (name : list Z) : NM (option Value) :=
  old ← gets (λ n, bt_get name (properties n));
  modify (λ n, MkNode (bt_remove name (properties n)) (children n));;
  mret old.
Definition set_property (name : list Z) (value : Value) : NM (option Value) :=
  old ← gets (λ n, bt_get name (properties n));
  modify (λ n, MkNode (bt_insert name value (properties n)) (children n));;
  mret old.
Definition set_property_iter (name : list Z) (value : list Value) : NM (option Value) :=
  set_property name (value_from_iter value).
Definition set_property_cell (name : list Z) (spec : SizeSpec) (value : Cells) : NM (option Value) :=
  v ← lift (spec_cell spec value); set_property name v.
Definition set_property_cells (name : list Z) (spec : SizeSpec) (value : list Cells) : NM (option Value) :=
  vs ← lift (mapM (spec_cell spec) value); set_property_iter name vs.
Definition set_empty_property (name : list Z) : NM (option Value) := set_property name [].
Definition set_str_property (name value : list Z) : NM (option Value) := set_property name (value_str value).

Definition get_child (name : list Z) (n : Node) : option Node := bt_get name (children n).
(** [m] is what is done with the reference to the child. *)
Definition get_child_mut {A} (name : list Z) (m : NM A) : NM (option A) := λ n,
  match bt_get name (children n) with
  | None => (Ok None, n)
  | Some c => let '(o, c) := m c in (Some <$> o, MkNode (properties n) (bt_insert name c (children n)))
  end.
Definition set_child (name : list Z) (child : Node) : NM (option Node) :=
  old ← gets (λ n, bt_get name (children n));
  modify (λ n, MkNode (properties n) (bt_insert name child (children n)));;
  mret old.

Definition set_compatible (value : list Z) : NM (option Value) := set_property (str "compatible") (value_str value).
Definition set_compatible_iter (value : list Value) : NM (option Value) := set_property_iter (str "compatible") value.
Definition set_address_cells (value : Z) : NM unit := set_property (str "#address-cells") (value_u32 value);; mret tt.
Definition set_size_cells (value : Z) : NM unit := set_property (str "#size-cells") (value_u32 value);; mret tt.
Definition set_size_spec (spec : SizeSpec) : NM unit :=
  set_address_cells (address_cells spec);; set_size_cells (size_cells spec).
Definition get_address_cells (n : Node) : Z :=
  default DEFAULT_ADDRESS_CELLS (get_property value_try_u32 (str "#address-cells") n).
Definition get_size_cells (n : Node) : Z :=
  default DEFAULT_SIZE_CELLS (get_property value_try_u32 (str "#size-cells") n).
Definition get_size_spec (n : Node) : SizeSpec :=
  {| address_cells := get_address_cells n; size_cells := get_size_cells n |}.
Definition set_interrupt_cells (value : Z) : NM (option Value) := set_property (str "#interrupt-cells") (value_u32 value).
Definition set_phandle (value : Z) : NM (option Value) := set_property (str "phandle") (value_u32 value).

(** What a block that edits a node leaves of it. *)
Definition edit {A} (m : NM A) (n : Node) : outcome Empty_set Node := let '(o, n) := m n in _ ← o; Ok n.

(** ** [chosen.rs] *)
Record Chosen := {
  bootargs : option (list (list Z)); initrd : option range;
  stdout_path : option (list Z); kaslr_seed : option Z;
}.
Definition chosen_default : Chosen :=
  {| bootargs := None; initrd := None; stdout_path := None; kaslr_seed := None |}.
Definition set_bootargs (v : list (list Z)) (c : Chosen) : Chosen :=
  {| bootargs := Some v; initrd := initrd c; stdout_path := stdout_path c; kaslr_seed := kaslr_seed c |}.
Definition set_initrd (v : range) (c : Chosen) : Chosen :=
  {| bootargs := bootargs c; initrd := Some v; stdout_path := stdout_path c; kaslr_seed := kaslr_seed c |}.
Definition set_stdout_path (v : list Z) (c : Chosen) : Chosen :=
  {| bootargs := bootargs c; initrd := initrd c; stdout_path := Some v; kaslr_seed := kaslr_seed c |}.
Definition set_kaslr_seed (v : Z) (c : Chosen) : Chosen :=
  {| bootargs := bootargs c; initrd := initrd c; stdout_path := stdout_path c; kaslr_seed := Some v |}.

(** [join(" ")]. *)
Fixpoint join_space (l : list (list Z)) : list Z :=
  match l with
  | [] => []
  | [s] => s
  | s :: l' => s ++ [32%Z] ++ join_space l'
  end.

(** [if let Some(x) = o { f(x) }]. *)
Definition if_some {S A} (o : option A) (f : A → M S Empty_set unit) : M S Empty_set unit :=
  match o with Some a => f a | None => mret tt end.

Definition chosen_node (spec : SizeSpec) (c : Chosen) : NM unit :=
  if_some (bootargs c) (λ args, set_property (str "bootargs") (value_str (join_space args));; mret tt);;
  if_some (initrd c) (λ r,
    start ← lift (spec_address spec (r_start r));
    set_property (str "linux,initrd-start") start;;
    end_ ← lift (spec_address spec (r_end r));
    set_property (str "linux,initrd-end") end_;;
    mret tt);;
  if_some (stdout_path c) (λ path, set_property (str "stdout-path") (value_str path);; mret tt);;
  if_some (kaslr_seed c) (λ seed, set_property (str "kaslr-seed") (value_u64 seed);; mret tt).

(** [let mut node = Node::new(); ... dt.root.set_child(name, node)], where the block in between is
    given the cells of the root. *)
Definition apply_node (name : list Z) (m : SizeSpec → NM unit) : DM unit := λ dt,
  let spec := get_size_spec (dt_root dt) in
  match edit (m spec) node_new with
  | Ok node =>
    (Ok tt, {| mem_rsvmap := mem_rsvmap dt; dt_root := (set_child name node (dt_root dt)).2;
               boot_cpuid_phys := boot_cpuid_phys dt |})
  | Err e => (Err e, dt)
  | Panic => (Panic, dt)
  end.

Definition chosen_apply (c : Chosen) : DM unit := apply_node (str "chosen") (λ spec, chosen_node spec c).

(** ** [icecap.rs] *)
Record RingBufferSide := { ctrl : range; data : range }.
Inductive Kick := Raw (notification : Z) | Managed (endpoints : list Z) (message : Z).
Record RingBuffer := { rb_read : RingBufferSide; rb_write : RingBufferSide; kick : Kick }.
Record Channel T := { ch_ring_buffer : T; ch_irq : Z; ch_name : list Z; ch_id : Z }.
Record Con T := { con_ring_buffer : T; con_irq : Z }.
Record Net T := { net_ring_buffer : T; mtu : Z; mac_address : list Z; net_irq : Z }.
Arguments ch_ring_buffer {T} _.
Arguments ch_irq {T} _.
Arguments ch_name {T} _.
Arguments ch_id {T} _.
Arguments con_ring_buffer {T} _.
Arguments con_irq {T} _.
Arguments net_ring_buffer {T} _.
Arguments mtu {T} _.
Arguments mac_address {T} _.
Arguments net_irq {T} _.

Definition set_reg (rb : RingBuffer) (spec : SizeSpec) : NM unit :=
  set_property_cells (str "reg") spec [
    Address (r_start (ctrl (rb_read rb))); Size (r_len (ctrl (rb_read rb)));
    Address (r_start (ctrl (rb_write rb))); Size (r_len (ctrl (rb_write rb)));
    Address (r_start (data (rb_read rb))); Size (r_len (data (rb_read rb)));
    Address (r_start (data (rb_write rb))); Size (r_len (data (rb_write rb)))];;
  match kick rb with
  | Raw notification =>
    set_property (str "kick-type") (value_str (str "unmanaged"));;
    set_property (str "kick-notification") (value_u64 notification);;
    mret tt
  | Managed endpoints message =>
    set_property (str "kick-type") (value_str (str "managed"));;
    set_property (str "kick-message") (value_u64 message);;
    set_property_cells (str "kick-endpoints") spec (Raw64 <$> endpoints);;
    mret tt
  end.

Definition interrupts (irq : Z) : list Value := value_u32 <$> [0%Z; irq; 1%Z].

Definition net_node (dev : Net RingBuffer) (spec : SizeSpec) : NM unit :=
  set_compatible (str "icecap,net");;
  set_property (str "mtu") (value_u32 (mtu dev));;
  set_property (str "local-mac-address") (mac_address dev);;
  set_property_iter (str "interrupts") (interrupts (net_irq dev));;
  set_reg (net_ring_buffer dev) spec.
Definition con_node (dev : Con RingBuffer) (spec : SizeSpec) : NM unit :=
  set_compatible (str "icecap,con");;
  set_property_iter (str "interrupts") (interrupts (con_irq dev));;
  set_reg (con_ring_buffer dev) spec.
Definition channel_node (dev : Channel RingBuffer) (spec : SizeSpec) : NM unit :=
  set_compatible (str "icecap,channel");;
  set_property (str "channel-name") (value_str (ch_name dev));;
  set_property (str "id") (value_u32 (ch_id dev));;
  set_property_iter (str "interrupts") (interrupts (ch_irq dev));;
  set_reg (ch_ring_buffer dev) spec.

Definition net_apply (dev : Net RingBuffer) (name : list Z) : DM unit := apply_node name (net_node dev).
Definition con_apply (dev : Con RingBuffer) (name : list Z) : DM unit := apply_node name (con_node dev).
Definition channel_apply (dev : Channel RingBuffer) (name : list Z) : DM unit := apply_node name (channel_node dev).

Inductive Device T := DChannel (dev : Channel T) | DNet (dev : Net T) | DCon (dev : Con T).
Arguments DChannel {T} _.
Arguments DNet {T} _.
Arguments DCon {T} _.

Definition ctrl_start (rb : RingBuffer) : Z := r_start (ctrl (rb_read rb)).
Definition device_apply (d : Device RingBuffer) : DM unit :=
  match d with
  | DChannel dev => channel_apply dev (str "icecap_channel@" ++ hex (ctrl_start (ch_ring_buffer dev)))
  | DCon dev => con_apply dev (str "icecap_con@" ++ hex (ctrl_start (con_ring_buffer dev)))
  | DNet dev => net_apply dev (str "icecap_net@" ++ hex (ctrl_start (net_ring_buffer dev)))
  end.

Definition device_traverse {S E T T'} (f : T → M S E T') (d : Device T) : M S E (Device T') :=
  match d with
  | DChannel dev =>
    rb ← f (ch_ring_buffer dev);
    mret (DChannel {| ch_ring_buffer := rb; ch_irq := ch_irq dev; ch_name := ch_name dev; ch_id := ch_id dev |})
  | DCon dev =>
    rb ← f (con_ring_buffer dev); mret (DCon {| con_ring_buffer := rb; con_irq := con_irq dev |})
  | DNet dev =>
    rb ← f (net_ring_buffer dev);
    mret (DNet {| net_ring_buffer := rb; mtu := mtu dev; mac_address := mac_address dev; net_irq := net_irq dev |})
  end.

(** ** [guest.rs] *)
Record GuestConfig := { cpu_compatible : list Z; memory : range; gic_paddr_start : Z }.

Definition guest_spec : SizeSpec := {| address_cells := 2; size_cells := 2 |}.
Definition memory_node (cfg : GuestConfig) : NM unit :=
  set_property (str "device_type") (value_str (str "memory"));;
  set_property_cells (str "reg") guest_spec [Address (r_start (memory cfg)); Size (r_len (memory cfg))];;
  mret tt.
Definition cpu_node (cfg : GuestConfig) : NM unit :=
  set_compatible (cpu_compatible cfg);;
  set_property (str "device_type") (value_str (str "cpu"));;
  set_property (str "reg") (value_u32 0);;
  mret tt.
Definition cpus_node (cfg : GuestConfig) : NM unit :=
  set_address_cells 1;;
  set_size_cells 0;;
  cpu ← lift (edit (cpu_node cfg) node_new);
  set_child (str "cpu@0") cpu;;
  mret tt.
Definition timer_node : NM unit :=
  set_compatible_iter [value_str (str "arm,armv8-timer"); value_str (str "arm,armv7-timer")];;
  set_empty_property (str "always-on");;
  set_property_iter (str "interrupts")
    (value_u32 <$> [0x1; 0xd; 0x104; 0x1; 0xe; 0x104; 0x1; 0xb; 0x104; 0x1; 0xa; 0x104]%Z);;
  mret tt.
Definition gic_node (cfg : GuestConfig) : NM unit :=
  let gic := gic_paddr_start cfg in
  set_compatible (str "arm,gic-400");;
  set_phandle 1;;
  set_empty_property (str "interrupt-controller");;
  set_interrupt_cells 3;;
  set_property_iter (str "interrupts") (value_u32 <$> [0x1; 0x9; 0xf04]%Z);;
  set_property_cells (str "reg") guest_spec [
    Address gic; Size 0x1000; Address (usize_add gic 0x1000); Size 0x2000;
    Address (usize_add gic 0x3000); Size 0x2000; Address (usize_add gic 0x5000); Size 0x2000];;
  mret tt.
Definition guest_root (cfg : GuestConfig) : NM unit :=
  set_compatible (str "linux,dummy-virt");;
  set_size_spec guest_spec;;
  set_property (str "interrupt-parent") (value_u32 1);;
  memory ← lift (edit (memory_node cfg) node_new);
  set_child (str "memory@" ++ hex (r_start (FdtBindings.memory cfg))) memory;;
  cpus ← lift (edit (cpus_node cfg) node_new);
  set_child (str "cpus") cpus;;
  timer ← lift (edit timer_node node_new);
  set_child (str "timer") timer;;
  gic ← lift (edit (gic_node cfg) node_new);
  set_child (str "gic400@" ++ hex (gic_paddr_start cfg)) gic;;
  mret tt.
Definition guest_render (cfg : GuestConfig) : outcome Empty_set DeviceTree :=
  root ← edit (guest_root cfg) node_new;
  Ok {| mem_rsvmap := []; dt_root := root; boot_cpuid_phys := 0 |}.

(** ** [hypervisor-fdt-append-devices] *)
Record ResourceServer := { bulk_region : range; rs_endpoints : list Z }.
Definition resource_server_node (rs : ResourceServer) (spec : SizeSpec) : NM unit :=
  set_compatible (str "icecap,resource-server");;
  set_property_cells (str "reg") spec [Address (r_start (bulk_region rs)); Size (r_len (bulk_region rs))];;
  set_property_cells (str "endpoints") spec (Raw64 <$> rs_endpoints rs);;
  mret tt.
Definition resource_server_apply (rs : ResourceServer) (name : list Z) : DM unit :=
  apply_node name (resource_server_node rs).
Definition apply_with_default_name (rs : ResourceServer) : DM unit :=
  resource_server_apply rs (str "icecap_resource_server@" ++ hex (r_start (bulk_region rs))).

Record Input := {
  chosen : option Chosen; devices : list (Device RingBuffer);
  resource_server : option ResourceServer; num_cpus : Z;
}.

(** The nodes of the other cores, copies of the node of the first. *)
Definition add_cpu (cpu_0 : Node) (i : Z) : NM unit :=
  cpu_n ← lift (edit (set_property (str "reg") (value_u32 (word_cast 32 i))) cpu_0);
  set_child (str "cpu@" ++ decimal i) cpu_n;;
  mret tt.
Definition add_cpus (n : Z) : NM unit :=
  cpu_0 ← reads (λ cpus, unwrap (get_child (str "cpu@0") cpus));
  for_each (add_cpu cpu_0) (seqZ 1 (n - 1)).

Definition on_root {A} (m : NM A) : DM A := λ dt,
  let '(o, root) := m (dt_root dt) in
  (o, {| mem_rsvmap := mem_rsvmap dt; dt_root := root; boot_cpuid_phys := boot_cpuid_phys dt |}).

Definition add_nodes (input : Input) : DM unit :=
  if_some (chosen input) chosen_apply;;
  for_each device_apply (devices input);;
  if_some (resource_server input) apply_with_default_name;;
  o ← on_root (get_child_mut (str "cpus") (add_cpus (num_cpus input)));
  lift (unwrap o).

(** [main], from the description and the tree it reads to the tree it writes. *)
Definition append_devices (input : Input) (dtb : list Z) : outcome Empty_set (list Z) :=
  match dt_read dtb with
  | Ok dt => let '(o, dt) := add_nodes input dt in _ ← o; Ok (dt_write dt)
  | _ => Panic
  end.
