(* ===== verification/FdtBindingsSpec.v ===== *)
(** * FdtBindingsSpec: what the device trees for guests say

    Readers of the nodes that the bindings write, written as a guest's driver reads them, and the
    theorems that the devices are read back as they were configured, and that the tool that adds
    them keeps the rest of the tree. *)

From stdpp Require Import strings.
From S2P Require Import Prelude.
From S2P Require Import Bytes.
From S2P Require Import DeviceTree.
From S2P Require Import DeviceTreeSpec.
From S2P Require Import DeviceTreeTyped.
From S2P Require Import FdtBindings.

(** ** Reading nodes *)

(** Consecutive big-endian numbers, of the given numbers of bytes. *)
Fixpoint take_words (ns : list nat) (v : Value) : option (list Z) :=
  match ns with
  | [] => match v with [] => Some [] | _ => None end
  | n :: ns' =>
    if n <=? length v then cons (from_be_bytes (take n v)) <$> take_words ns' (drop n v) else None
  end.
Definition cell_bytes (cells : Z) : nat := 4 * Z.to_nat cells.

(** Pairs of an address and a size. *)
Definition reg_of_node (spec : SizeSpec) (n : nat) (node : Node) : option (list Z) :=
  v ← bt_get (str "reg") (properties node);
  take_words (mjoin (replicate n [cell_bytes (address_cells spec); cell_bytes (size_cells spec)])) v.
Definition range_at (start len : Z) : range := {| r_start := start; r_end := start + len |}.
Definition string_of_value (v : Value) : option (list Z) :=
  match last v with Some 0%Z => Some (take (pred (length v)) v) | _ => None end.
Definition u64s_of_value (v : Value) : option (list Z) := take_words (replicate (length v / 8) 8) v.
Definition irq_of_node (node : Node) : option Z :=
  v ← bt_get (str "interrupts") (properties node);
  match take_words [4; 4; 4] v with Some [0; irq; 1]%Z => Some irq | _ => None end.

Definition kick_of_node (node : Node) : option Kick :=
  type ← get_property string_of_value (str "kick-type") node;
  if decide (type = str "unmanaged") then
    Raw <$> get_property value_try_u64 (str "kick-notification") node
  else if decide (type = str "managed") then
    message ← get_property value_try_u64 (str "kick-message") node;
    endpoints ← get_property u64s_of_value (str "kick-endpoints") node;
    Some (Managed endpoints message)
  else None.
Definition ring_buffer_of_node (spec : SizeSpec) (node : Node) : option RingBuffer :=
  reg ← reg_of_node spec 4 node;
  k ← kick_of_node node;
  match reg with
  | [rc; rcn; wc; wcn; rd; rdn; wd; wdn] => Some {|
      rb_read := {| ctrl := range_at rc rcn; data := range_at rd rdn |};
      rb_write := {| ctrl := range_at wc wcn; data := range_at wd wdn |};
      kick := k |}
  | _ => None
  end.
Definition device_of_node (spec : SizeSpec) (node : Node) : option (Device RingBuffer) :=
  compatible ← get_property string_of_value (str "compatible") node;
  irq ← irq_of_node node;
  rb ← ring_buffer_of_node spec node;
  if decide (compatible = str "icecap,con") then
    Some (DCon {| con_ring_buffer := rb; con_irq := irq |})
  else if decide (compatible = str "icecap,net") then
    m ← get_property value_try_u32 (str "mtu") node;
    mac ← bt_get (str "local-mac-address") (properties node);
    Some (DNet {| net_ring_buffer := rb; mtu := m; mac_address := mac; net_irq := irq |})
  else if decide (compatible = str "icecap,channel") then
    name ← get_property string_of_value (str "channel-name") node;
    id ← get_property value_try_u32 (str "id") node;
    Some (DChannel {| ch_ring_buffer := rb; ch_irq := irq; ch_name := name; ch_id := id |})
  else None.
Definition resource_server_of_node (spec : SizeSpec) (node : Node) : option ResourceServer :=
  reg ← reg_of_node spec 1 node;
  endpoints ← get_property u64s_of_value (str "endpoints") node;
  match reg with
  | [start; len] => Some {| bulk_region := range_at start len; rs_endpoints := endpoints |}
  | _ => None
  end.

(** What a node says about the start of the system: its arguments as one string, and the rest of the
    configuration. *)
Definition address_of_value (spec : SizeSpec) (v : Value) : option Z :=
  match take_words [cell_bytes (address_cells spec)] v with Some [a] => Some a | _ => None end.
Definition chosen_says (spec : SizeSpec) (node : Node) (c : Chosen) : Prop :=
  get_property string_of_value (str "bootargs") node = join_space <$> bootargs c ∧
  get_property (address_of_value spec) (str "linux,initrd-start") node = r_start <$> initrd c ∧
  get_property (address_of_value spec) (str "linux,initrd-end") node = r_end <$> initrd c ∧
  get_property string_of_value (str "stdout-path") node = stdout_path c ∧
  get_property value_try_u64 (str "kaslr-seed") node = kaslr_seed c.

(** ** Configurations that fit *)
Definition cells_ok (n : Z) : Prop := n = 1%Z ∨ n = 2%Z.
Definition spec_ok (spec : SizeSpec) : Prop := cells_ok (address_cells spec) ∧ cells_ok (size_cells spec).

Section configs.
Context (spec : SizeSpec).

Definition range_fits (r : range) : Prop :=
  is_word (32 * address_cells spec) (r_start r) ∧ (r_start r ≤ r_end r)%Z ∧
  is_word (32 * size_cells spec) (r_end r - r_start r).
Definition kick_fits (k : Kick) : Prop :=
  match k with Raw n => is_u64 n | Managed es m => Forall is_u64 es ∧ is_u64 m end.
Definition ring_buffer_fits (rb : RingBuffer) : Prop :=
  range_fits (ctrl (rb_read rb)) ∧ range_fits (data (rb_read rb)) ∧
  range_fits (ctrl (rb_write rb)) ∧ range_fits (data (rb_write rb)) ∧ kick_fits (kick rb).
Definition device_fits (d : Device RingBuffer) : Prop :=
  match d with
  | DChannel dev => ring_buffer_fits (ch_ring_buffer dev) ∧ is_u32 (ch_irq dev) ∧ is_string (ch_name dev) ∧ is_u32 (ch_id dev)
  | DNet dev => ring_buffer_fits (net_ring_buffer dev) ∧ is_u32 (mtu dev) ∧ bytes_ok (mac_address dev) ∧ is_u32 (net_irq dev)
  | DCon dev => ring_buffer_fits (con_ring_buffer dev) ∧ is_u32 (con_irq dev)
  end.
Definition resource_server_fits (rs : ResourceServer) : Prop :=
  range_fits (bulk_region rs) ∧ Forall is_u64 (rs_endpoints rs).
Definition option_all {A} (P : A → Prop) (o : option A) : Prop := match o with Some a => P a | None => True end.
Definition chosen_fits (c : Chosen) : Prop :=
  option_all (Forall is_string) (bootargs c) ∧
  option_all (λ r, is_word (32 * address_cells spec) (r_start r) ∧ is_word (32 * address_cells spec) (r_end r)) (initrd c) ∧
  option_all is_string (stdout_path c) ∧ option_all is_u64 (kaslr_seed c).
End configs.

(** ** Numbers and strings *)
Lemma take_words_app n ns (x v : Value) : length x = n →
  take_words (n :: ns) (x ++ v) = cons (from_be_bytes x) <$> take_words ns v.
Proof.
  intros <-. cbn [take_words]. rewrite (proj2 (Nat.leb_le _ _)) by (rewrite length_app; lia).
  by rewrite take_app_length, drop_app_length.
Qed.
Lemma take_words_be ns vs : Forall2 (λ n v, is_word (8 * Z.of_nat n) v) ns vs →
  take_words ns (mjoin (zip_with to_be_bytes ns vs)) = Some vs.
Proof.
  induction 1 as [|n v ns vs Hv _ IH]; [done|]. cbn [zip_with]. change (mjoin (?x :: ?l)) with (x ++ mjoin l).
  rewrite take_words_app by apply length_to_be_bytes. by rewrite IH, be_word_back.
Qed.
Lemma from_iter_join vs : value_from_iter vs = mjoin vs.
Proof.
  unfold value_from_iter. assert (∀ acc, foldl (λ raw v, raw ++ v) acc vs = acc ++ mjoin vs) as H; [|by rewrite H].
  induction vs as [|v vs IH]; intros acc; simpl; [by rewrite app_nil_r|]. by rewrite IH, <- app_assoc.
Qed.

Lemma string_back s : string_of_value (value_str s) = Some s.
Proof.
  unfold string_of_value, value_str. rewrite last_snoc, length_app. cbn [length].
  replace (pred (length s + 1)) with (length s) by lia. by rewrite take_app_length.
Qed.
Lemma u32_back v : is_u32 v → value_try_u32 (value_u32 v) = Some v.
Proof. intros Hv. unfold value_try_u32, value_u32. rewrite length_to_be_bytes. cbn. f_equal. by apply (be_word_back 4). Qed.
Lemma u64_back v : is_u64 v → value_try_u64 (value_u64 v) = Some v.
Proof. intros Hv. unfold value_try_u64, value_u64. rewrite length_to_be_bytes. cbn. f_equal. by apply (be_word_back 8). Qed.

Lemma length_join_be n vs : length (mjoin (to_be_bytes n <$> vs)) = n * length vs.
Proof.
  induction vs as [|v vs IH]; [simpl; lia|]. rewrite fmap_cons. change (mjoin (?x :: ?l)) with (x ++ mjoin l).
  rewrite length_app, IH, length_to_be_bytes. simpl. lia.
Qed.
Lemma zip_replicate n vs : zip_with to_be_bytes (replicate (length vs) n) vs = to_be_bytes n <$> vs.
Proof. induction vs; simpl; [done|]. by f_equal. Qed.
Lemma u64s_back vs : Forall is_u64 vs → u64s_of_value (value_from_iter (value_u64 <$> vs)) = Some vs.
Proof.
  intros Hvs. rewrite from_iter_join. unfold u64s_of_value, value_u64. rewrite length_join_be.
  replace (8 * length vs / 8) with (length vs) by (rewrite Nat.mul_comm, Nat.div_mul; lia).
  rewrite <- zip_replicate. apply take_words_be. induction Hvs; simpl; by constructor.
Qed.

(** ** Cells *)
Lemma shiftr_cast w k v : (0 ≤ k)%Z → (k + 8 ≤ w)%Z →
  (Z.shiftr (word_cast w v) k mod 256 = Z.shiftr v k mod 256)%Z.
Proof.
  intros Hk Hw. change 256%Z with (2 ^ 8)%Z. unfold word_cast. rewrite <- !Z.land_ones by lia.
  apply Z.bits_inj_iff'. intros i Hi. rewrite !Z.land_spec, !Z.shiftr_spec, Z.land_spec by lia.
  rewrite !Z.testbit_ones_nonneg by lia. destruct (Z.ltb_spec i 8); [|by rewrite !andb_false_r].
  by rewrite (proj2 (Z.ltb_lt (i + k) w)), !andb_true_r by lia.
Qed.
Lemma to_be_cast v : to_be_bytes 4 (word_cast 32 v) = to_be_bytes 4 v.
Proof. cbn [to_be_bytes]. by rewrite !shiftr_cast by lia. Qed.

Lemma spec_render_run n v : cells_ok n → spec_render n v = Ok (to_be_bytes (cell_bytes n) v).
Proof. intros [-> | ->]; [|done]. unfold spec_render, value_u32. cbn -[to_be_bytes]. by rewrite to_be_cast. Qed.

(** The bytes and the number of a cell. *)
Definition cell_width (spec : SizeSpec) (c : Cells) : nat :=
  match c with
  | Address _ => cell_bytes (address_cells spec)
  | Size _ => cell_bytes (size_cells spec)
  | Raw32 _ => 4
  | Raw64 _ => 8
  end.
Definition cell_value (c : Cells) : Z := match c with Address v | Size v | Raw32 v | Raw64 v => v end.
Definition cells_bytes (spec : SizeSpec) (cs : list Cells) : Value :=
  value_from_iter ((λ c, to_be_bytes (cell_width spec c) (cell_value c)) <$> cs).

Lemma spec_cells_run spec cs : spec_ok spec →
  mapM (spec_cell spec) cs = Ok ((λ c, to_be_bytes (cell_width spec c) (cell_value c)) <$> cs).
Proof.
  intros [Ha Hs]. induction cs as [|c cs IH]; [done|].
  change (mapM ?f (c :: cs)) with (y ← f c; k ← mapM f cs; mret (y :: k)). rewrite IH.
  assert (spec_cell spec c = Ok (to_be_bytes (cell_width spec c) (cell_value c))) as ->.
  { destruct c; [by apply spec_render_run..|done|done]. }
  done.
Qed.

Lemma cells_back spec cs : Forall (λ c, is_word (8 * Z.of_nat (cell_width spec c)) (cell_value c)) cs →
  take_words (cell_width spec <$> cs) (cells_bytes spec cs) = Some (cell_value <$> cs).
Proof.
  intros Hcs. unfold cells_bytes. rewrite from_iter_join.
  assert ((λ c, to_be_bytes (cell_width spec c) (cell_value c)) <$> cs
    = zip_with to_be_bytes (cell_width spec <$> cs) (cell_value <$> cs)) as ->.
  { clear. induction cs; simpl; [done|]. by f_equal. }
  apply take_words_be. induction Hcs; simpl; by constructor.
Qed.
Lemma cells_raw64 spec es : cells_bytes spec (Raw64 <$> es) = value_from_iter (value_u64 <$> es).
Proof. unfold cells_bytes. by rewrite <- list_fmap_compose. Qed.

(** ** Runs of the editors *)

(** A node with properties set, in order. *)
Definition put_props (ps : list (list Z * Value)) (n : Node) : Node :=
  foldl (λ n kv, MkNode (bt_insert kv.1 kv.2 (properties n)) (children n)) n ps.
(** The last value that is given to a name. *)
Fixpoint assoc_last (k : list Z) (ps : list (list Z * Value)) : option Value :=
  match ps with
  | [] => None
  | (k', v) :: ps' =>
    match assoc_last k ps' with Some v' => Some v' | None => if decide (k = k') then Some v else None end
  end.

Lemma put_props_app ps qs n : put_props (ps ++ qs) n = put_props qs (put_props ps n).
Proof. apply foldl_app. Qed.
Lemma children_put ps n : children (put_props ps n) = children n.
Proof. revert n. induction ps as [|[k v] ps IH]; intros n; [done|]. apply (IH (MkNode _ _)). Qed.
Lemma get_put k ps n : bt_get k (properties (put_props ps n)) =
  match assoc_last k ps with Some v => Some v | None => bt_get k (properties n) end.
Proof.
  revert n. induction ps as [|[k' v] ps IH]; intros n; [done|].
  change (put_props ((k', v) :: ps) n) with (put_props ps (MkNode (bt_insert k' v (properties n)) (children n))).
  rewrite IH. cbn [assoc_last properties]. destruct (assoc_last k ps); [done|].
  destruct (decide (k = k')) as [->|]; [apply bt_get_insert|by apply bt_get_insert_ne].
Qed.
Lemma put_props_ok ps n : Forall (λ kv, name_ok kv.1 ∧ bytes_ok kv.2) ps → node_ok n → node_ok (put_props ps n).
Proof.
  intros Hps. revert n. induction Hps as [|[k v] ps [Hk Hv] _ IH]; intros n Hn; [done|].
  change (put_props ((k, v) :: ps) n) with (put_props ps (MkNode (bt_insert k v (properties n)) (children n))).
  apply IH. destruct n. by apply node_ok_property.
Qed.

(** [m] sets the properties [ps]. *)
Definition puts {A} (ps : list (list Z * Value)) (m : NM A) : Prop := ∀ n, ∃ a, m n = (Ok a, put_props ps n).

Lemma puts_bind {A B} ps qs (m : NM A) (f : A → NM B) :
  puts ps m → (∀ a, puts qs (f a)) → puts (ps ++ qs) (m ≫= f).
Proof.
  intros Hm Hf n. destruct (Hm n) as [a Ha]. rewrite (bind_eq_ok _ _ _ _ _ Ha), put_props_app. apply Hf.
Qed.
Lemma puts_ret {A} (a : A) : puts [] (mret a).
Proof. intros n. by exists a. Qed.
Lemma puts_set k v : puts [(k, v)] (set_property k v).
Proof. intros n. by eexists. Qed.
Lemma puts_iter k vs : puts [(k, value_from_iter vs)] (set_property_iter k vs).
Proof. apply puts_set. Qed.
Lemma puts_cells k spec cs : spec_ok spec → puts [(k, cells_bytes spec cs)] (set_property_cells k spec cs).
Proof.
  intros Hs n. unfold set_property_cells. rewrite (spec_cells_run spec cs Hs).
  destruct (puts_iter k ((λ c, to_be_bytes (cell_width spec c) (cell_value c)) <$> cs) n) as [a Ha].
  by exists a.
Qed.
Lemma puts_lift {A} (v : Value) ps (f : Value → NM A) : puts ps (f v) → puts ps (lift (Ok v) ≫= f).
Proof. done. Qed.
Lemma puts_last k v : puts [(k, v)] (set_property k v ≫= λ _, mret tt).
Proof. apply (puts_bind [_] []); [apply puts_set|intros; apply puts_ret]. Qed.
Lemma puts_edit ps (m : NM unit) n : puts ps m → edit m n = Ok (put_props ps n).
Proof. intros Hm. unfold edit. by destruct (Hm n) as [a ->]. Qed.

(** ** The nodes of the devices *)
Section nodes.
Context (spec : SizeSpec).
Hypothesis spec_good : spec_ok spec.

Definition range_cells (r : range) : list Cells := [Address (r_start r); Size (r_len r)].
Definition reg_cells (rb : RingBuffer) : list Cells :=
  range_cells (ctrl (rb_read rb)) ++ range_cells (ctrl (rb_write rb)) ++
  range_cells (data (rb_read rb)) ++ range_cells (data (rb_write rb)).
Definition kick_props (k : Kick) : list (list Z * Value) :=
  match k with
  | Raw n => [(str "kick-type", value_str (str "unmanaged")); (str "kick-notification", value_u64 n)]
  | Managed es m => [(str "kick-type", value_str (str "managed")); (str "kick-message", value_u64 m);
                     (str "kick-endpoints", cells_bytes spec (Raw64 <$> es))]
  end.
Definition rb_props (rb : RingBuffer) : list (list Z * Value) :=
  (str "reg", cells_bytes spec (reg_cells rb)) :: kick_props (kick rb).
Definition irq_prop (irq : Z) : list Z * Value := (str "interrupts", value_from_iter (interrupts irq)).

Definition device_props (d : Device RingBuffer) : list (list Z * Value) :=
  match d with
  | DNet dev => [(str "compatible", value_str (str "icecap,net")); (str "mtu", value_u32 (mtu dev));
      (str "local-mac-address", mac_address dev); irq_prop (net_irq dev)] ++ rb_props (net_ring_buffer dev)
  | DCon dev => [(str "compatible", value_str (str "icecap,con")); irq_prop (con_irq dev)] ++ rb_props (con_ring_buffer dev)
  | DChannel dev => [(str "compatible", value_str (str "icecap,channel")); (str "channel-name", value_str (ch_name dev));
      (str "id", value_u32 (ch_id dev)); irq_prop (ch_irq dev)] ++ rb_props (ch_ring_buffer dev)
  end.
Definition resource_server_props (rs : ResourceServer) : list (list Z * Value) :=
  [(str "compatible", value_str (str "icecap,resource-server"));
   (str "reg", cells_bytes spec (range_cells (bulk_region rs)));
   (str "endpoints", cells_bytes spec (Raw64 <$> rs_endpoints rs))].
Definition chosen_props (c : Chosen) : list (list Z * Value) :=
  match bootargs c with Some args => [(str "bootargs", value_str (join_space args))] | None => [] end ++
  match initrd c with
  | Some r => [(str "linux,initrd-start", cells_bytes spec [Address (r_start r)]);
               (str "linux,initrd-end", cells_bytes spec [Address (r_end r)])]
  | None => []
  end ++
  match stdout_path c with Some p => [(str "stdout-path", value_str p)] | None => [] end ++
  match kaslr_seed c with Some s => [(str "kaslr-seed", value_u64 s)] | None => [] end.

Lemma puts_reg rb : puts (rb_props rb) (set_reg rb spec).
Proof using spec_good.
  unfold rb_props. apply (puts_bind [_]); [by apply puts_cells|]. intros _. destruct (kick rb); cbn [kick_props].
  - apply (puts_bind [_] [_]); [apply puts_set|]. intros _. by apply puts_last.
  - apply (puts_bind [_] [_; _]); [apply puts_set|]. intros _. apply (puts_bind [_] [_]); [apply puts_set|]. intros _.
    apply (puts_bind [_] []); [by apply puts_cells|]. intros. apply puts_ret.
Qed.

Definition device_node (d : Device RingBuffer) : NM unit :=
  match d with DNet dev => net_node dev spec | DCon dev => con_node dev spec | DChannel dev => channel_node dev spec end.
Lemma puts_device d : puts (device_props d) (device_node d).
Proof using spec_good.
  destruct d; unfold device_props, irq_prop; cbn [app device_node];
    repeat (eapply (puts_bind [_]); [apply puts_set|intros _]); apply puts_reg.
Qed.
Lemma puts_resource_server rs : puts (resource_server_props rs) (resource_server_node rs spec).
Proof using spec_good.
  apply (puts_bind [_] [_; _]); [apply puts_set|intros _].
  repeat (eapply (puts_bind [_]); [by apply puts_cells|intros _]). apply puts_ret.
Qed.
Lemma puts_chosen c : puts (chosen_props c) (chosen_node spec c).
Proof using spec_good.
  assert (∀ v, spec_address spec v = Ok (cells_bytes spec [Address v])) as Ha.
  { intros v. by apply spec_render_run, spec_good. }
  unfold chosen_props, chosen_node. apply puts_bind; [|intros _; apply puts_bind; [|intros _; apply puts_bind; [|intros _]]].
  - destruct (bootargs c); [|apply puts_ret]. by apply puts_last.
  - destruct (initrd c); [|apply puts_ret]. cbn [if_some]. rewrite !Ha.
    apply puts_lift, (puts_bind [_] [_]); [apply puts_set|intros _].
    apply puts_lift, (puts_bind [_] []); [apply puts_set|intros; apply puts_ret].
  - destruct (stdout_path c); [|apply puts_ret]. by apply puts_last.
  - destruct (kaslr_seed c); [|apply puts_ret]. by apply puts_last.
Qed.

(** *** What they say *)
Lemma cell_bits n : cells_ok n → (8 * Z.of_nat (cell_bytes n) = 32 * n)%Z.
Proof. intros [-> | ->]; done. Qed.
Lemma range_cells_fit r : range_fits spec r →
  Forall (λ c, is_word (8 * Z.of_nat (cell_width spec c)) (cell_value c)) (range_cells r).
Proof using spec_good.
  destruct spec_good as [Ha Hs]. intros (Hst & Hle & Hl). constructor; [|constructor; [|constructor]]; cbn [cell_width cell_value];
    rewrite cell_bits by done; [done|]. unfold r_len, is_word in *. lia.
Qed.
Lemma range_back r : range_fits spec r → range_at (r_start r) (r_len r) = r.
Proof. intros (_ & Hle & _). destruct r as [st en]. unfold range_at, r_len. cbn in *. f_equal. lia. Qed.

(** The value of a property that was set. *)
Lemma prop_at k ps v : assoc_last k ps = Some v → bt_get k (properties (put_props ps node_new)) = Some v.
Proof. intros H. by rewrite get_put, H. Qed.
Lemma prop_typed {V} (try : Value → option V) k ps v : assoc_last k ps = Some v →
  get_property try k (put_props ps node_new) = try v.
Proof. intros H. unfold get_property. by rewrite (prop_at _ _ _ H). Qed.

Lemma irq_back ps irq : is_u32 irq → assoc_last (str "interrupts") ps = Some (value_from_iter (interrupts irq)) →
  irq_of_node (put_props ps node_new) = Some irq.
Proof.
  intros Hi Hp. unfold irq_of_node. rewrite (prop_at _ _ _ Hp), from_iter_join. cbn [mbind option_bind].
  change (mjoin (interrupts irq)) with (mjoin (zip_with to_be_bytes [4; 4; 4] [0%Z; irq; 1%Z])).
  rewrite take_words_be; [done|]. by repeat constructor; try apply Hi.
Qed.
Lemma assoc_last_app k ps qs :
  assoc_last k (ps ++ qs) = match assoc_last k qs with Some v => Some v | None => assoc_last k ps end.
Proof.
  induction ps as [|[k' v] ps IH]; simpl; [by destruct (assoc_last k qs)|]. rewrite IH. by destruct (assoc_last k qs).
Qed.
Lemma assoc_app k ps qs v : assoc_last k qs = Some v → assoc_last k (ps ++ qs) = Some v.
Proof. intros H. by rewrite assoc_last_app, H. Qed.

(** Reads the property [k] of a node whose last properties are listed. *)
Ltac read_prop k :=
  erewrite (prop_typed _ (str k)); [|first [reflexivity|apply assoc_app; reflexivity]]; cbn [mbind option_bind].

Lemma kick_back ps rb : kick_fits (kick rb) → kick_of_node (put_props (ps ++ rb_props rb) node_new) = Some (kick rb).
Proof.
  unfold kick_of_node, rb_props. destruct (kick rb) as [n|es m]; cbn [kick_props kick_fits].
  - intros Hn. read_prop "kick-type"%string. rewrite string_back. cbn [mbind option_bind]. rewrite decide_True by done.
    read_prop "kick-notification"%string. by rewrite u64_back.
  - intros [Hes Hm]. read_prop "kick-type"%string. rewrite string_back. cbn [mbind option_bind].
    rewrite decide_False, decide_True by done. read_prop "kick-message"%string. rewrite u64_back by done. cbn [mbind option_bind].
    read_prop "kick-endpoints"%string. by rewrite cells_raw64, u64s_back.
Qed.
Lemma ring_buffer_back ps rb : ring_buffer_fits spec rb →
  ring_buffer_of_node spec (put_props (ps ++ rb_props rb) node_new) = Some rb.
Proof using spec_good.
  intros (H1 & H2 & H3 & H4 & Hk). unfold ring_buffer_of_node, reg_of_node. rewrite kick_back by done.
  assert (assoc_last (str "reg") (rb_props rb) = Some (cells_bytes spec (reg_cells rb))) as Hreg
    by (unfold rb_props; by destruct (kick rb)).
  rewrite (prop_at _ _ _ (assoc_app _ _ _ _ Hreg)). cbn [mbind option_bind].
  change (mjoin _) with (cell_width spec <$> reg_cells rb). rewrite cells_back.
  - cbn -[range_at]. rewrite !range_back by done. by destruct rb as [[] [] ?].
  - unfold reg_cells. rewrite !Forall_app. auto using range_cells_fit.
Qed.

(** The properties of the ring buffer leave the others alone. *)
Lemma assoc_not_rb k ps rb v : k ∉ [str "reg"; str "kick-type"; str "kick-notification"; str "kick-message"; str "kick-endpoints"] →
  assoc_last k ps = Some v → assoc_last k (ps ++ rb_props rb) = Some v.
Proof.
  intros Hk Hv. rewrite assoc_last_app, Hv. assert (assoc_last k (rb_props rb) = None) as ->; [|done].
  rewrite !not_elem_of_cons in Hk. destruct Hk as (? & ? & ? & ? & ? & _). unfold rb_props.
  destruct (kick rb); cbn [kick_props assoc_last]; by rewrite !decide_False.
Qed.
Ltac read_own k :=
  erewrite (prop_typed _ (str k)); [|apply assoc_not_rb; [by apply (bool_decide_unpack _)|reflexivity]]; cbn [mbind option_bind].

Lemma device_back d : device_fits spec d → device_of_node spec (put_props (device_props d) node_new) = Some d.
Proof using spec_good.
  unfold device_of_node. destruct d as [dev|dev|dev]; cbn [device_fits device_props]; [intros (Hrb & Hi & Hn & Hid)|intros (Hrb & Hm & Hmac & Hi)|intros (Hrb & Hi)].
  all: read_own "compatible"%string; rewrite string_back; cbn [mbind option_bind].
  all: erewrite irq_back; [|exact Hi|apply assoc_not_rb; [by apply (bool_decide_unpack _)|reflexivity]]; cbn [mbind option_bind].
  all: rewrite ring_buffer_back by done; cbn [mbind option_bind].
  - rewrite !decide_False, decide_True by done. read_own "channel-name"%string. rewrite string_back. cbn [mbind option_bind].
    read_own "id"%string. rewrite u32_back by done. by destruct dev.
  - rewrite decide_False, decide_True by done. read_own "mtu"%string. rewrite u32_back by done. cbn [mbind option_bind].
    erewrite prop_at; [|apply assoc_not_rb; [by apply (bool_decide_unpack _)|reflexivity]]. by destruct dev.
  - rewrite decide_True by done. by destruct dev.
Qed.
Lemma resource_server_back rs : resource_server_fits spec rs →
  resource_server_of_node spec (put_props (resource_server_props rs) node_new) = Some rs.
Proof using spec_good.
  intros [Hr He]. unfold resource_server_of_node, reg_of_node.
  erewrite prop_at by reflexivity. cbn [mbind option_bind].
  change (mjoin _) with (cell_width spec <$> range_cells (bulk_region rs)). rewrite cells_back by by apply range_cells_fit.
  cbn [mbind option_bind]. read_prop "endpoints"%string. rewrite cells_raw64, u64s_back by done.
  cbn -[range_at]. rewrite range_back by done. by destruct rs.
Qed.
Lemma address_back v : is_word (32 * address_cells spec) v → address_of_value spec (cells_bytes spec [Address v]) = Some v.
Proof using spec_good.
  intros Hv. unfold address_of_value. change [cell_bytes (address_cells spec)] with (cell_width spec <$> [Address v]).
  rewrite cells_back; [done|]. constructor; [|constructor]. cbn [cell_width cell_value]. by rewrite cell_bits by apply spec_good.
Qed.
Lemma chosen_back c : chosen_fits spec c → chosen_says spec (put_props (chosen_props c) node_new) c.
Proof using spec_good.
  intros (Hb & Hi & Hs & Hk). unfold chosen_says, chosen_props, get_property. rewrite !get_put.
  destruct c as [b i s k]; cbn [bootargs initrd stdout_path kaslr_seed] in *.
  split_and!.
  - destruct b; [|by destruct i, s, k]. transitivity (string_of_value (value_str (join_space l))); [by destruct i, s, k|apply string_back].
  - destruct i as [r|]; [|by destruct b, s, k].
    transitivity (address_of_value spec (cells_bytes spec [Address (r_start r)])); [by destruct b, s, k|by apply address_back, Hi].
  - destruct i as [r|]; [|by destruct b, s, k].
    transitivity (address_of_value spec (cells_bytes spec [Address (r_end r)])); [by destruct b, s, k|by apply address_back, Hi].
  - destruct s as [p|]; [|by destruct b, i, k]. transitivity (string_of_value (value_str p)); [by destruct b, i, k|apply string_back].
  - destruct k as [v|]; [|by destruct b, i, s]. transitivity (value_try_u64 (value_u64 v)); [by destruct b, i, s|by apply u64_back].
Qed.
End nodes.

(** ** Well-formed nodes *)
Lemma bytes_ok_str s : bytes_ok (str s).
Proof.
  induction s as [|a s IH]; simpl; constructor; [|done]. unfold is_word. change (2 ^ 8)%Z with 256%Z.
  pose proof (Ascii.nat_ascii_bounded a). lia.
Qed.
Lemma bytes_ok_value_str s : bytes_ok s → bytes_ok (value_str s).
Proof. intros Hs. apply Forall_app. split; [done|]. by repeat constructor. Qed.
Lemma bytes_ok_join vs : Forall bytes_ok vs → bytes_ok (value_from_iter vs).
Proof. intros Hvs. rewrite from_iter_join. by apply Forall_join. Qed.
Lemma bytes_ok_cells spec cs : bytes_ok (cells_bytes spec cs).
Proof. apply bytes_ok_join, Forall_fmap, Forall_forall. intros c _. apply bytes_ok_to_be. Qed.
Lemma bytes_ok_u32 v : bytes_ok (value_u32 v).
Proof. apply bytes_ok_to_be. Qed.
Lemma bytes_ok_u64 v : bytes_ok (value_u64 v).
Proof. apply bytes_ok_to_be. Qed.
Lemma bytes_ok_u32s vs : bytes_ok (value_from_iter (value_u32 <$> vs)).
Proof. apply bytes_ok_join, Forall_fmap, Forall_forall. intros v _. apply bytes_ok_u32. Qed.
Lemma bytes_ok_join_space l : Forall is_string l → bytes_ok (join_space l).
Proof.
  induction 1 as [|s l [Hs _] _ IH]; [constructor|]. destruct l as [|s' l]; [done|].
  change (join_space (s :: s' :: l)) with (s ++ [32%Z] ++ join_space (s' :: l)).
  rewrite !Forall_app. split; [done|]. split; [|done]. by repeat constructor.
Qed.
Lemma bytes_ok_string s : is_string s → bytes_ok s.
Proof. by intros [? _]. Qed.

Create HintDb fdt_bytes discriminated.
#[export] Hint Resolve bytes_ok_str bytes_ok_value_str bytes_ok_cells bytes_ok_u32 bytes_ok_u64 bytes_ok_u32s
  bytes_ok_join_space bytes_ok_string : fdt_bytes.

Abbreviation props_ok := (Forall (λ kv : list Z * Value, name_ok kv.1 ∧ bytes_ok kv.2)).
Lemma props_ok_cons k v ps : name_okb k = true → bytes_ok v → props_ok ps → props_ok ((k, v) :: ps).
Proof. intros ?%name_okb_sound ??. by constructor. Qed.
Ltac props_tac := repeat first [ apply Forall_nil_2 | apply props_ok_cons; [reflexivity|solve [auto with fdt_bytes]|] ].

Lemma name_ok_app a b : name_ok a → name_ok b → name_ok (a ++ b).
Proof. intros [Ha Ha0] [Hb Hb0]. split; [by apply is_string_app|]. rewrite elem_of_app. tauto. Qed.
Lemma name_ok_digits base fuel v : (2 ≤ base ≤ 16)%Z → (0 ≤ v)%Z → name_ok (digits base fuel v []).
Proof.
  intros Hb Hv. pose proof (digits_ascii base Hb fuel v [] Hv ltac:(done)) as Hd. split.
  - apply ascii_string. eapply Forall_impl; [exact Hd|]. simpl. lia.
  - intros H0. rewrite Forall_forall in Hd. apply Hd in H0. lia.
Qed.

Section wf.
Context (spec : SizeSpec).

Lemma rb_props_ok rb : props_ok (rb_props spec rb).
Proof. unfold rb_props. destruct (kick rb); cbn [kick_props]; props_tac. Qed.
Lemma device_props_ok d : device_fits spec d → props_ok (device_props spec d).
Proof.
  destruct d as [dev|dev|dev]; cbn [device_fits device_props]; [intros (_ & _ & Hn & _)|intros (_ & _ & Hmac & _)|intros _];
    (apply Forall_app; split; [|apply rb_props_ok]); unfold irq_prop, interrupts; props_tac.
Qed.
Lemma resource_server_props_ok rs : props_ok (resource_server_props spec rs).
Proof. unfold resource_server_props. props_tac. Qed.
Lemma chosen_props_ok c : chosen_fits spec c → props_ok (chosen_props spec c).
Proof.
  intros (Hb & _ & Hs & _). unfold chosen_props. rewrite !Forall_app. split_and!; case_match; cbn [option_all] in *; props_tac.
Qed.
End wf.
Lemma node_new_ok : node_ok node_new.
Proof. repeat constructor. Qed.

(** ** Adding children *)
Definition put_child (n : Node) (kc : list Z * Node) : Node := MkNode (properties n) (bt_insert kc.1 kc.2 (children n)).
Definition put_children (kcs : list (list Z * Node)) (n : Node) : Node := foldl put_child n kcs.

Lemma properties_put_children kcs n : properties (put_children kcs n) = properties n.
Proof. revert n. induction kcs as [|kc kcs IH]; intros n; [done|]. apply (IH (put_child n kc)). Qed.
Lemma get_put_children_ne k kcs n : k ∉ kcs.*1 → get_child k (put_children kcs n) = get_child k n.
Proof.
  revert n. induction kcs as [|[k' c] kcs IH]; intros n; [done|]. rewrite fmap_cons, not_elem_of_cons. intros [Hk Hkcs].
  change (put_children ((k', c) :: kcs) n) with (put_children kcs (put_child n (k', c))).
  rewrite IH by done. by apply bt_get_insert_ne.
Qed.
Lemma get_put_children k c kcs n : NoDup kcs.*1 → (k, c) ∈ kcs → get_child k (put_children kcs n) = Some c.
Proof.
  revert n. induction kcs as [|[k' c'] kcs IH]; intros n; [set_solver|].
  rewrite fmap_cons, NoDup_cons, elem_of_cons. cbn [fst]. intros [Hk Hnd] [[= -> ->]|Hin].
  - change (put_children ((k', c') :: kcs) n) with (put_children kcs (put_child n (k', c'))).
    rewrite get_put_children_ne by done. apply bt_get_insert.
  - by apply (IH (put_child n (k', c'))).
Qed.
Lemma put_children_ok kcs n : Forall (λ kc, name_ok kc.1 ∧ node_ok kc.2) kcs → node_ok n → node_ok (put_children kcs n).
Proof.
  intros Hk. revert n. induction Hk as [|[k c] kcs [Hk Hc] _ IH]; intros n Hn; [done|].
  apply (IH (put_child n (k, c))). destruct n. by apply node_ok_child.
Qed.
Lemma size_spec_put kcs n : get_size_spec (put_children kcs n) = get_size_spec n.
Proof.
  unfold get_size_spec, get_address_cells, get_size_cells, get_property. by rewrite properties_put_children.
Qed.

(** ** The nodes that the tool adds *)
Definition device_name (d : Device RingBuffer) : list Z :=
  match d with
  | DChannel dev => str "icecap_channel@" ++ hex (ctrl_start (ch_ring_buffer dev))
  | DCon dev => str "icecap_con@" ++ hex (ctrl_start (con_ring_buffer dev))
  | DNet dev => str "icecap_net@" ++ hex (ctrl_start (net_ring_buffer dev))
  end.
Definition resource_server_name (rs : ResourceServer) : list Z :=
  str "icecap_resource_server@" ++ hex (r_start (bulk_region rs)).
Definition cpu_name (i : Z) : list Z := str "cpu@" ++ decimal i.

Section append.
Context (spec : SizeSpec).
Hypothesis spec_good : spec_ok spec.

Definition chosen_added (o : option Chosen) : list (list Z * Node) :=
  match o with Some c => [(str "chosen", put_props (chosen_props spec c) node_new)] | None => [] end.
Definition device_added (d : Device RingBuffer) : list Z * Node :=
  (device_name d, put_props (device_props spec d) node_new).
Definition resource_server_added (o : option ResourceServer) : list (list Z * Node) :=
  match o with
  | Some rs => [(resource_server_name rs, put_props (resource_server_props spec rs) node_new)]
  | None => []
  end.
Definition added (input : Input) : list (list Z * Node) :=
  chosen_added (chosen input) ++ (device_added <$> devices input) ++ resource_server_added (resource_server input).
Definition cpus_added (cpu_0 : Node) (n : Z) : list (list Z * Node) :=
  (λ i, (cpu_name i, put_props [(str "reg", value_u32 (word_cast 32 i))] cpu_0)) <$> seqZ 1 (n - 1).

(** A tree with another root. *)
Definition with_root (dt : DeviceTree) (root : Node) : DeviceTree :=
  {| mem_rsvmap := mem_rsvmap dt; dt_root := root; boot_cpuid_phys := boot_cpuid_phys dt |}.
(** [m] adds children to the root of a tree with these cells. *)
Definition adds (kcs : list (list Z * Node)) (m : DM unit) : Prop := ∀ dt,
  get_size_spec (dt_root dt) = spec → m dt = (Ok tt, with_root dt (put_children kcs (dt_root dt))).

Lemma adds_nil : adds [] (mret tt).
Proof. by intros [] _. Qed.
Lemma adds_bind kcs kcs' (m m' : DM unit) : adds kcs m → adds kcs' m' → adds (kcs ++ kcs') (m ≫= λ _, m').
Proof.
  intros Hm Hm' dt Hs. rewrite (bind_eq_ok _ _ _ _ _ (Hm dt Hs)), Hm' by (cbn [dt_root with_root]; by rewrite size_spec_put).
  unfold put_children. by rewrite foldl_app.
Qed.
Lemma adds_node name m ps : puts ps (m spec) → adds [(name, put_props ps node_new)] (apply_node name m).
Proof. intros Hm dt Hs. unfold apply_node. by rewrite Hs, (puts_edit ps). Qed.
Lemma adds_device d : adds [device_added d] (device_apply d).
Proof using spec_good. pose proof (puts_device spec spec_good d). destruct d; by apply adds_node. Qed.
Lemma adds_devices ds : adds (device_added <$> ds) (for_each device_apply ds).
Proof using spec_good.
  induction ds as [|d ds IH]; [apply adds_nil|]. rewrite fmap_cons. apply (adds_bind [_]); [apply adds_device|done].
Qed.
Lemma adds_chosen o : adds (chosen_added o) (if_some o chosen_apply).
Proof using spec_good. destruct o; [by apply adds_node, puts_chosen|apply adds_nil]. Qed.
Lemma adds_resource_server o : adds (resource_server_added o) (if_some o apply_with_default_name).
Proof using spec_good. destruct o; [by apply adds_node, puts_resource_server|apply adds_nil]. Qed.

Lemma add_cpus_run n cpus cpu_0 : get_child (str "cpu@0") cpus = Some cpu_0 →
  add_cpus n cpus = (Ok tt, put_children (cpus_added cpu_0 n) cpus).
Proof.
  intros H0. unfold add_cpus. unfold mbind, M_bind, reads. rewrite H0. cbn [unwrap]. unfold cpus_added. clear H0.
  generalize (seqZ 1 (n - 1)) as l. intros l. revert cpus. induction l as [|i l IH]; intros cpus; [done|].
  cbn [for_each]. rewrite fmap_cons.
  apply (IH (put_child cpus (cpu_name i, put_props [(str "reg", value_u32 (word_cast 32 i))] cpu_0))).
Qed.

Lemma add_nodes_run input dt cpus cpu_0 : get_size_spec (dt_root dt) = spec →
  str "cpus" ∉ (added input).*1 →
  get_child (str "cpus") (dt_root dt) = Some cpus → get_child (str "cpu@0") cpus = Some cpu_0 →
  add_nodes input dt = (Ok tt, with_root dt
    (put_children (added input ++ [(str "cpus", put_children (cpus_added cpu_0 (num_cpus input)) cpus)]) (dt_root dt))).
Proof using spec_good.
  intros Hs Hn Hc H0. unfold add_nodes.
  assert (∀ (k : DM unit), (if_some (chosen input) chosen_apply ≫= λ _, for_each device_apply (devices input) ≫= λ _,
    if_some (resource_server input) apply_with_default_name ≫= λ _, k) dt
    = k (with_root dt (put_children (added input) (dt_root dt)))) as ->.
  { intros k. rewrite (bind_eq_ok _ _ _ _ _ (adds_chosen _ dt Hs)).
    set (dt1 := with_root dt _). assert (get_size_spec (dt_root dt1) = spec) as Hs1 by (by subst dt1; cbn; rewrite size_spec_put).
    rewrite (bind_eq_ok _ _ _ _ _ (adds_devices _ dt1 Hs1)). subst dt1.
    set (dt2 := with_root _ _). assert (get_size_spec (dt_root dt2) = spec) as Hs2 by (by subst dt2; cbn; rewrite !size_spec_put).
    rewrite (bind_eq_ok _ _ _ _ _ (adds_resource_server _ dt2 Hs2)). subst dt2. unfold added, put_children.
    by rewrite !foldl_app. }
  rewrite <- (get_put_children_ne _ (added input)) in Hc by done.
  unfold on_root, get_child_mut, mbind at 1, M_bind. cbn [dt_root with_root]. unfold get_child in Hc. rewrite Hc.
  rewrite (add_cpus_run _ _ cpu_0 H0). unfold put_children. by rewrite foldl_app.
Qed.
End append.

Record input_fits (spec : SizeSpec) (input : Input) : Prop := {
  fits_chosen : option_all (chosen_fits spec) (chosen input);
  fits_devices : Forall (device_fits spec) (devices input);
  fits_names : NoDup (device_name <$> devices input);
  fits_resource_server : option_all (resource_server_fits spec) (resource_server input);
  fits_cpus : (num_cpus input ≤ 2 ^ 32)%Z;
}.
(** The names of the nodes that are described. *)
Definition names_of (input : Input) : list (list Z) :=
  match chosen input with Some _ => [str "chosen"] | None => [] end ++ (device_name <$> devices input) ++
  match resource_server input with Some rs => [resource_server_name rs] | None => [] end.

(** The tree [dt'] is [dt] with the nodes that [input] describes; [cpus] is the node of the cores of
    [dt] and [cpu_0] its first core. *)
Record appended (spec : SizeSpec) (input : Input) (dt dt' : DeviceTree) (cpus cpu_0 : Node) : Prop := {
  app_rsvmap : mem_rsvmap dt' = mem_rsvmap dt;
  app_cpuid : boot_cpuid_phys dt' = boot_cpuid_phys dt;
  app_props : properties (dt_root dt') = properties (dt_root dt);
  app_chosen : ∀ c, chosen input = Some c → ∃ node,
    get_child (str "chosen") (dt_root dt') = Some node ∧ chosen_says spec node c;
  app_devices : ∀ d, d ∈ devices input → ∃ node,
    get_child (device_name d) (dt_root dt') = Some node ∧ device_of_node spec node = Some d;
  app_resource_server : ∀ rs, resource_server input = Some rs → ∃ node,
    get_child (resource_server_name rs) (dt_root dt') = Some node ∧ resource_server_of_node spec node = Some rs;
  app_cpus : ∃ cpus', get_child (str "cpus") (dt_root dt') = Some cpus' ∧ properties cpus' = properties cpus ∧
    (∀ i, (1 ≤ i < num_cpus input)%Z → ∃ cpu, get_child (cpu_name i) cpus' = Some cpu ∧
      get_property value_try_u32 (str "reg") cpu = Some i ∧ children cpu = children cpu_0 ∧
      ∀ k, k ≠ str "reg" → bt_get k (properties cpu) = bt_get k (properties cpu_0)) ∧
    (∀ k, (∀ i, (1 ≤ i < num_cpus input)%Z → k ≠ cpu_name i) → get_child k cpus' = get_child k cpus);
  app_rest : ∀ k, k ≠ str "cpus" → k ∉ names_of input → get_child k (dt_root dt') = get_child k (dt_root dt);
}.

Section append.
Context (spec : SizeSpec) (input : Input).
Hypothesis spec_good : spec_ok spec.
Hypothesis input_good : input_fits spec input.

Lemma added_names : (added spec input).*1 = names_of input.
Proof.
  unfold added, names_of, chosen_added, resource_server_added. rewrite !fmap_app, <- list_fmap_compose.
  by destruct (chosen input), (resource_server input).
Qed.
Lemma names_nodup : NoDup (names_of input ++ [str "cpus"]).
Proof using input_good spec.
  clear spec_good. unfold names_of. rewrite <- !app_assoc.
  assert (∀ d, str "chosen" ≠ device_name d ∧ str "cpus" ≠ device_name d ∧ ∀ rs, resource_server_name rs ≠ device_name d) as Hd.
  { intros [dev|dev|dev]; split_and!; intros; discriminate. }
  rewrite !NoDup_app. destruct input_good as [_ _ Hn _ _].
  split_and!; [destruct (chosen input); auto using NoDup_nil_2, NoDup_singleton| |done| |
    destruct (resource_server input); auto using NoDup_nil_2, NoDup_singleton| |apply NoDup_singleton].
  - destruct (chosen input); [|set_solver]. intros k ->%list_elem_of_singleton.
    rewrite !elem_of_app, list_elem_of_fmap. intros [(d & Hk & _)|[Hk|Hk]].
    + by apply Hd in Hk.
    + by destruct (resource_server input); [apply list_elem_of_singleton in Hk|apply not_elem_of_nil in Hk].
    + by apply list_elem_of_singleton in Hk.
  - intros k (d & -> & _)%list_elem_of_fmap. rewrite elem_of_app. destruct (Hd d) as (_ & Hc & Hr). intros [Hk|Hk].
    + by destruct (resource_server input); [apply list_elem_of_singleton in Hk as ?%symmetry%Hr|apply not_elem_of_nil in Hk].
    + apply list_elem_of_singleton in Hk. by apply Hc.
  - destruct (resource_server input); [|set_solver]. by intros k ->%list_elem_of_singleton ?%list_elem_of_singleton.
Qed.
Lemma added_ok : Forall (λ kc, name_ok kc.1 ∧ node_ok kc.2) (added spec input).
Proof using input_good spec_good.
  destruct input_good as [Hc Hd _ Hr _]. unfold added. rewrite !Forall_app. split_and!.
  - unfold chosen_added. destruct (chosen input); [|constructor]. constructor; [|constructor].
    split; [by apply name_okb_sound|]. by apply put_props_ok, node_new_ok; apply chosen_props_ok.
  - apply Forall_fmap. eapply Forall_impl; [exact Hd|]. intros d Hf. split.
    + assert (∀ p rb, name_okb (str p) = true → ring_buffer_fits spec rb → name_ok (str p ++ hex (ctrl_start rb))) as Hh.
      { intros p rb Hp ([[??] _] & _). apply name_ok_app; [by apply name_okb_sound|by apply name_ok_digits]. }
      destruct d; by apply Hh, Hf.
    + by apply put_props_ok, node_new_ok; apply device_props_ok.
  - unfold resource_server_added. destruct (resource_server input) as [rs|]; [|constructor]. constructor; [|constructor].
    destruct Hr as [[[??] _] _]. split; [|by apply put_props_ok, node_new_ok; apply resource_server_props_ok].
    apply name_ok_app; [by apply name_okb_sound|by apply name_ok_digits].
Qed.
Lemma cpus_added_ok cpu_0 n : node_ok cpu_0 → Forall (λ kc, name_ok kc.1 ∧ node_ok kc.2) (cpus_added cpu_0 n).
Proof.
  intros H0. apply Forall_fmap, Forall_forall. intros i Hi%elem_of_seqZ. split.
  - apply name_ok_app; [by apply name_okb_sound|apply name_ok_digits; lia].
  - apply put_props_ok; [|done]. props_tac.
Qed.
Lemma cpu_names_nodup cpu_0 : NoDup (cpus_added cpu_0 (num_cpus input)).*1.
Proof using input_good spec.
  destruct input_good as [_ _ _ _ Hn]. unfold cpus_added. rewrite <- list_fmap_compose. apply NoDup_fmap_2_strong; [|apply NoDup_seqZ].
  intros i j Hi%elem_of_seqZ Hj%elem_of_seqZ [= He%decimal_inj]; lia.
Qed.
Lemma cpus_appended cpus cpu_0 : let cpus' := put_children (cpus_added cpu_0 (num_cpus input)) cpus in
  (∀ i, (1 ≤ i < num_cpus input)%Z → ∃ cpu, get_child (cpu_name i) cpus' = Some cpu ∧
    get_property value_try_u32 (str "reg") cpu = Some i ∧ children cpu = children cpu_0 ∧
    ∀ k, k ≠ str "reg" → bt_get k (properties cpu) = bt_get k (properties cpu_0)) ∧
  (∀ k, (∀ i, (1 ≤ i < num_cpus input)%Z → k ≠ cpu_name i) → get_child k cpus' = get_child k cpus).
Proof using input_good spec.
  pose proof (fits_cpus _ _ input_good) as Hn. split.
  - intros i Hi. exists (put_props [(str "reg", value_u32 (word_cast 32 i))] cpu_0). split_and!.
    + apply get_put_children; [apply cpu_names_nodup|]. apply list_elem_of_fmap. exists i.
      split; [done|]. apply elem_of_seqZ. lia.
    + unfold get_property. rewrite get_put. cbn [assoc_last]. rewrite decide_True by done. cbn [mbind option_bind].
      assert (word_cast 32 i = i) as -> by (unfold word_cast; rewrite Z.land_ones, Z.mod_small; lia).
      apply u32_back. unfold is_word. lia.
    + apply children_put.
    + intros k Hk. rewrite get_put. cbn [assoc_last]. by rewrite decide_False.
  - intros k Hk. apply get_put_children_ne. intros ([? ?] & -> & (i & [= -> ->] & Hi%elem_of_seqZ)%list_elem_of_fmap)%list_elem_of_fmap.
    apply (Hk i); [lia|done].
Qed.

Lemma append_result dt cpus cpu_0 : dt_ok dt → get_size_spec (dt_root dt) = spec →
  get_child (str "cpus") (dt_root dt) = Some cpus → get_child (str "cpu@0") cpus = Some cpu_0 →
  ∃ dt', add_nodes input dt = (Ok tt, dt') ∧ dt_ok dt' ∧ appended spec input dt dt' cpus cpu_0.
Proof using input_good spec_good.
  intros [Hrsv Hroot Hcpu] Hs Hc H0. pose proof names_nodup as Hnd. rewrite <- added_names in Hnd.
  destruct (node_ok_get _ _ _ Hroot Hc) as [Hcn Hcok]. destruct (node_ok_get _ _ _ Hcok H0) as [_ H0ok].
  set (cpus' := put_children (cpus_added cpu_0 (num_cpus input)) cpus).
  set (kcs := added spec input ++ [(str "cpus", cpus')]).
  assert (NoDup kcs.*1) as Hnd' by (by subst kcs; rewrite fmap_app).
  eexists. split; [|split].
  - apply (add_nodes_run spec); [done..| |exact Hc|exact H0]. apply NoDup_app in Hnd as (_ & Hnd & _).
    intros Hin. apply Hnd in Hin. by destruct Hin; constructor.
  - split; cbn [with_root mem_rsvmap dt_root boot_cpuid_phys]; [done| |done].
    apply put_children_ok; [|done]. apply Forall_app. split; [by apply added_ok|]. constructor; [|constructor].
    split; [done|]. apply put_children_ok; [by apply cpus_added_ok|done].
  - fold cpus'. fold kcs.
    assert (∀ k c, (k, c) ∈ added spec input → get_child k (put_children kcs (dt_root dt)) = Some c) as Hget.
    { intros k c Hin. apply get_put_children; [done|]. apply elem_of_app. by left. }
    destruct input_good as [Gc Gd _ Gr Gn]. rewrite Forall_forall in Gd.
    split; cbn [with_root mem_rsvmap dt_root boot_cpuid_phys]; [done|done|apply properties_put_children| | | | |].
    + intros c Hch. eexists. split; [apply Hget|].
      * unfold added. rewrite elem_of_app, Hch. left. by constructor.
      * apply chosen_back; [done|]. by rewrite Hch in Gc.
    + intros d Hd. eexists. split; [apply Hget|by apply device_back, Gd].
      unfold added. rewrite !elem_of_app. right. left. by apply (list_elem_of_fmap_2 (device_added spec)).
    + intros rs Hr. eexists. split; [apply Hget|].
      * unfold added. rewrite !elem_of_app, Hr. right. right. by constructor.
      * apply resource_server_back; [done|]. by rewrite Hr in Gr.
    + exists cpus'. split; [apply get_put_children; [done|]; apply elem_of_app; right; by constructor|].
      split; [apply properties_put_children|]. by apply cpus_appended.
    + intros k Hk Hn. apply get_put_children_ne. subst kcs. rewrite fmap_app, added_names, elem_of_app. set_solver.
Qed.
End append.

(** ** The tree of a guest *)
Definition guest_fits (cfg : GuestConfig) : Prop :=
  is_string (cpu_compatible cfg) ∧ range_fits guest_spec (memory cfg) ∧
  (0 ≤ gic_paddr_start cfg ∧ gic_paddr_start cfg + 0x7000 ≤ 2 ^ 64)%Z.

Section guest.
Context (cfg : GuestConfig).
Hypothesis cfg_fits : guest_fits cfg.

Lemma guest_spec_ok : spec_ok guest_spec.
Proof. split; by right. Qed.

Definition memory_props : list (list Z * Value) :=
  [(str "device_type", value_str (str "memory")); (str "reg", cells_bytes guest_spec (range_cells (memory cfg)))].
Definition cpu_props : list (list Z * Value) :=
  [(str "compatible", value_str (cpu_compatible cfg)); (str "device_type", value_str (str "cpu")); (str "reg", value_u32 0)].
Definition gic_cells : list Cells :=
  let gic := gic_paddr_start cfg in
  [Address gic; Size 0x1000; Address (gic + 0x1000); Size 0x2000;
   Address (gic + 0x3000); Size 0x2000; Address (gic + 0x5000); Size 0x2000].
Definition gic_props : list (list Z * Value) :=
  [(str "compatible", value_str (str "arm,gic-400")); (str "phandle", value_u32 1); (str "interrupt-controller", []);
   (str "#interrupt-cells", value_u32 3); (str "interrupts", value_from_iter (value_u32 <$> [0x1; 0x9; 0xf04]%Z));
   (str "reg", cells_bytes guest_spec gic_cells)].
Definition timer_props : list (list Z * Value) :=
  [(str "compatible", value_from_iter [value_str (str "arm,armv8-timer"); value_str (str "arm,armv7-timer")]);
   (str "always-on", []);
   (str "interrupts", value_from_iter
     (value_u32 <$> [0x1; 0xd; 0x104; 0x1; 0xe; 0x104; 0x1; 0xb; 0x104; 0x1; 0xa; 0x104]%Z))].
Definition guest_cpus : Node :=
  put_children [(str "cpu@0", put_props cpu_props node_new)]
    (put_props [(str "#address-cells", value_u32 1); (str "#size-cells", value_u32 0)] node_new).
Definition guest_children : list (list Z * Node) :=
  [(str "memory@" ++ hex (r_start (memory cfg)), put_props memory_props node_new);
   (str "cpus", guest_cpus); (str "timer", put_props timer_props node_new);
   (str "gic400@" ++ hex (gic_paddr_start cfg), put_props gic_props node_new)].
Definition guest_props : list (list Z * Value) :=
  [(str "compatible", value_str (str "linux,dummy-virt")); (str "#address-cells", value_u32 2);
   (str "#size-cells", value_u32 2); (str "interrupt-parent", value_u32 1)].
Definition guest_tree : DeviceTree :=
  {| mem_rsvmap := []; dt_root := put_children guest_children (put_props guest_props node_new); boot_cpuid_phys := 0 |}.

Lemma usize_add_small a b : (0 ≤ a + b < 2 ^ 64)%Z → usize_add a b = (a + b)%Z.
Proof. intros H. unfold usize_add, word_cast. by rewrite Z.land_ones, Z.mod_small. Qed.
Lemma puts_memory : puts memory_props (memory_node cfg).
Proof.
  apply (puts_bind [_] [_]); [apply puts_set|intros _].
  apply (puts_bind [_] []); [apply puts_cells, guest_spec_ok|intros; apply puts_ret].
Qed.
Lemma puts_gic : puts gic_props (gic_node cfg).
Proof using cfg_fits.
  destruct cfg_fits as (_ & _ & Hg). unfold gic_node. rewrite !usize_add_small by lia.
  do 5 (apply (puts_bind [_]); [apply puts_set|intros _]).
  apply (puts_bind [_] []); [apply puts_cells, guest_spec_ok|intros; apply puts_ret].
Qed.
Lemma guest_render_run : guest_render cfg = Ok guest_tree.
Proof using cfg_fits.
  unfold guest_render. assert (edit (guest_root cfg) node_new = Ok (dt_root guest_tree)) as ->; [|done].
  unfold guest_root. by rewrite (puts_edit _ _ _ puts_memory), (puts_edit _ _ _ puts_gic).
Qed.

Lemma guest_tree_ok : dt_ok guest_tree.
Proof using cfg_fits.
  destruct cfg_fits as ([Hcpu _] & ([Hm _] & _) & Hg & _). split; [constructor| |done]. apply put_children_ok.
  - assert (∀ p v, name_okb (str p) = true → (0 ≤ v)%Z → name_ok (str p ++ hex v)) as Hh.
    { intros p v Hp Hv. apply name_ok_app; [by apply name_okb_sound|by apply name_ok_digits]. }
    assert (∀ ps, props_ok ps → node_ok (put_props ps node_new)) as Hp by (intros; by apply put_props_ok, node_new_ok).
    constructor; [|constructor; [|constructor; [|constructor; [|constructor]]]]; (split; cbn [fst snd]).
    1,7: by apply Hh. 2,4: by apply name_okb_sound.
    + apply Hp. unfold memory_props. props_tac.
    + apply put_children_ok; [|apply Hp; props_tac]. constructor; [|constructor].
      split; [by apply name_okb_sound|]. apply Hp. unfold cpu_props. props_tac.
    + apply Hp. unfold timer_props. apply props_ok_cons; [done| |props_tac].
      apply bytes_ok_join. constructor; [|constructor; [|constructor]]; auto with fdt_bytes.
    + apply Hp. unfold gic_props. props_tac.
  - apply put_props_ok, node_new_ok. props_tac.
Qed.
End guest.

(** C36: The tool that adds devices to the device tree of the host succeeds and adds exactly them.  Of a
    blob that is read as a tree whose root has one or two cells per address and size and which has
    a first core, and of a description that fits these cells, the tool writes a well-formed
    tree; if the tree is smaller than 4 GiB it is read back as such.  In it, reading the node of each
    device gives the device's configuration back, as reading those of the resource server and of
    the start of the system does; there is a node for each further core, a copy of the node of the
    first with its own number; and everything else is as it was. *)
Theorem append_devices_spec input dtb dt cpus cpu_0 : let spec := get_size_spec (dt_root dt) in
  bytes_ok dtb → dt_read dtb = Ok dt → spec_ok spec → input_fits spec input →
  get_child (str "cpus") (dt_root dt) = Some cpus → get_child (str "cpu@0") cpus = Some cpu_0 →
  ∃ dt', append_devices input dtb = Ok (dt_write dt') ∧ dt_ok dt' ∧ appended spec input dt dt' cpus cpu_0 ∧
    ((Z.of_nat (length (dt_write dt')) < 2 ^ 32)%Z → dt_read (dt_write dt') = Ok dt').
Proof.
  intros spec Hb Hr Hs Hi Hc H0. destruct (append_result spec input Hs Hi dt cpus cpu_0) as (dt' & Hrun & Hok & Happ);
    [by eapply dt_read_ok|done..|].
  exists dt'. split_and!; [|done..|intros; by apply dt_read_write]. unfold append_devices. by rewrite Hr, Hrun.
Qed.

(** A guest with a device of each kind. *)
Definition sample_guest : GuestConfig := {|
  cpu_compatible := str "arm,cortex-a57"; memory := {| r_start := 0x80000000; r_end := 0x90000000 |};
  gic_paddr_start := 0x8000000 |}.
Definition sample_side (base : Z) : RingBufferSide :=
  {| ctrl := {| r_start := base; r_end := base + 0x1000 |};
     data := {| r_start := base + 0x1000; r_end := base + 0x3000 |} |}.
Definition sample_rb (base : Z) : RingBuffer :=
  {| rb_read := sample_side base; rb_write := sample_side (base + 0x10000); kick := Managed [5; 6]%Z 7 |}.
Definition sample_input : Input := {|
  chosen := Some {| bootargs := Some [str "quiet"; str "ro"]; initrd := Some {| r_start := 0x88000000; r_end := 0x89000000 |};
                    stdout_path := None; kaslr_seed := Some 99%Z |};
  devices := [DCon {| con_ring_buffer := sample_rb 0x10000000; con_irq := 170 |};
              DNet {| net_ring_buffer := sample_rb 0x11000000; mtu := 65536; mac_address := [2; 0; 0; 0; 0; 1]%Z; net_irq := 171 |};
              DChannel {| ch_ring_buffer := sample_rb 0x12000000; ch_irq := 172; ch_name := str "host"; ch_id := 3 |}];
  resource_server := Some {| bulk_region := {| r_start := 0x20000000; r_end := 0x20200000 |}; rs_endpoints := [1; 2; 3]%Z |};
  num_cpus := 4 |}.

Ltac words := repeat first [ split | constructor ]; vm_compute; congruence.

Lemma append_devices_spec_witness :
  let dt := guest_tree sample_guest in
  ∃ dt', append_devices sample_input (dt_write dt) = Ok (dt_write dt') ∧
    appended guest_spec sample_input dt dt' (guest_cpus sample_guest) (put_props (cpu_props sample_guest) node_new).
Proof.
  intros dt. destruct (append_devices_spec sample_input (dt_write dt) dt (guest_cpus sample_guest)
    (put_props (cpu_props sample_guest) node_new)) as (dt' & H1 & _ & H2 & _).
  - apply byte_okb_sound. vm_compute. reflexivity.
  - vm_compute. reflexivity.
  - apply guest_spec_ok.
  - split; [words|words| |words|done]. by apply (bool_decide_unpack _).
  - vm_compute. reflexivity.
  - vm_compute. reflexivity.
  - exists dt'. split; [exact H1|exact H2].
Defined.

(** The device tree of a guest says what was configured.  For every configuration with a string for
    the model of the core, a range of memory and an interrupt controller within the address space,
    the tree is rendered and well formed, so it survives flattening if it is smaller than 4 GiB; it
    uses two cells for addresses and sizes, the node of the memory gives the range, that of the interrupt
    controller the four areas that start at the configured address, and there is a first core of
    the model that was asked for. *)
Lemma guest_tree_described cfg : guest_fits cfg →
  ∃ dt mem gic cpus cpu, guest_render cfg = Ok dt ∧ dt_ok dt ∧
    ((Z.of_nat (length (dt_write dt)) < 2 ^ 32)%Z → dt_read (dt_write dt) = Ok dt) ∧
    get_size_spec (dt_root dt) = guest_spec ∧
    get_child (str "memory@" ++ hex (r_start (memory cfg))) (dt_root dt) = Some mem ∧
    reg_of_node guest_spec 1 mem = Some [r_start (memory cfg); (r_end (memory cfg) - r_start (memory cfg))%Z] ∧
    get_child (str "gic400@" ++ hex (gic_paddr_start cfg)) (dt_root dt) = Some gic ∧
    reg_of_node guest_spec 4 gic = Some (let g := gic_paddr_start cfg in
      [g; 0x1000; g + 0x1000; 0x2000; g + 0x3000; 0x2000; g + 0x5000; 0x2000]%Z) ∧
    get_child (str "cpus") (dt_root dt) = Some cpus ∧ get_child (str "cpu@0") cpus = Some cpu ∧
    get_property string_of_value (str "compatible") cpu = Some (cpu_compatible cfg) ∧
    get_property value_try_u32 (str "reg") cpu = Some 0%Z.
Proof.
  intros Hf. pose proof (guest_tree_ok cfg Hf) as Hok. pose proof Hf as (Hc & Hm & Hg).
  assert (NoDup (guest_children cfg).*1) as Hnd.
  { unfold guest_children. rewrite !fmap_cons. cbn [fst]. repeat (apply NoDup_cons; split; [|]); [..|apply NoDup_nil_2].
    all: rewrite ?not_elem_of_cons; split_and?; try discriminate; apply not_elem_of_nil. }
  assert (∀ k c, (k, c) ∈ guest_children cfg → get_child k (dt_root (guest_tree cfg)) = Some c) as Hget
    by (intros k c Hin; by apply get_put_children).
  exists (guest_tree cfg), (put_props (memory_props cfg) node_new), (put_props (gic_props cfg) node_new),
    (guest_cpus cfg), (put_props (cpu_props cfg) node_new). split_and!.
  - by apply guest_render_run.
  - done.
  - by apply dt_read_write.
  - unfold get_size_spec, get_address_cells, get_size_cells, get_property, guest_tree. cbn [dt_root].
    by rewrite !properties_put_children, !get_put.
  - apply Hget. unfold guest_children. set_solver.
  - unfold reg_of_node. erewrite prop_at by reflexivity. cbn [mbind option_bind].
    change (mjoin _) with (cell_width guest_spec <$> range_cells (memory cfg)).
    rewrite cells_back by (apply range_cells_fit; [apply guest_spec_ok|done]). destruct Hm as (_ & Hle & _).
    cbn -[Z.max]. unfold r_len. by rewrite Z.max_r by lia.
  - apply Hget. unfold guest_children. set_solver.
  - unfold reg_of_node. erewrite prop_at by reflexivity. cbn [mbind option_bind].
    change (mjoin _) with (cell_width guest_spec <$> gic_cells cfg). rewrite cells_back; [done|].
    unfold gic_cells. repeat (apply Forall_cons_2; [change (is_word (8 * _) ?v) with (is_word 64 v); unfold is_word; cbn [cell_value]; lia|]).
    constructor.
  - apply Hget. unfold guest_children. set_solver.
  - apply get_put_children; [apply NoDup_singleton|by constructor].
  - erewrite prop_typed by reflexivity. apply string_back.
  - erewrite prop_typed by reflexivity. by apply u32_back.
Qed.

