(* ===== verification/HostTool.v ===== *)
(** * HostTool: how the host creates realms

    Model of [hypervisor/host-tools/icecap-host]: the requests that the tool passes to the resource
    server through the kernel of the host ([core/src/syscall.rs]), the transport of bulk data
    ([core/src/bulk_transport.rs]), and what it does to create a realm ([core/src/lib.rs]).

    The kernel of the host, with its two device files, is the class [HostEnv]; the serializer is
    that of [Rpc], and [take_from_bytes] of a model an argument.  The endless loop of
    [run_realm_node] is given a number of turns. *)

From stdpp Require Import strings.
From S2P Require Import Prelude.
From S2P Require Import Vmm.
From S2P Require Import Rpc.
From S2P Require Import Dyndl.
From S2P Require Import Realize.
From S2P Require Import ResourceServer.

Record Passthru := { sys_id : Z; regs : list Z }.
Record YieldTo := { yt_realm_id : Z; yt_virtual_node : Z }.

(** The calls [ioctl] on the files of the monitor and of the resource server, which change the
    structure they are given, and the file that bulk data is written to. *)
Class HostEnv (W E : Type) := {
  vmm_ioctl : Passthru → M W E Passthru;
  yield_ioctl : YieldTo → M W E YieldTo;
  bulk_open : M W E unit;
  bulk_write : list Z → M W E unit;
}.

Inductive DirectRequest := BenchmarkUtilisationStart | BenchmarkUtilisationFinish.
Inductive DirectResponse := MkDirectResponse.

Section tool.
Context {W E : Type} `{!HostEnv W E}.
Context `{!Postcard Request} `{!Postcard unit} `{!Postcard FillChunkHeader}.
Context `{!Postcard DirectRequest} `{!Postcard DirectResponse}.
Abbreviation HM := (M W E).

(** ** [syscall.rs] *)

(** A failure of [ioctl] is a failed assertion. *)
Definition ioctl_passthru (p : Passthru) : HM Passthru := unwrap_result (vmm_ioctl p).
Definition ioctl_yield_to (y : YieldTo) : HM YieldTo := unwrap_result (yield_ioctl y).

Definition call_passthru {In Out} `{!Postcard In} `{!Postcard Out} (sys_id : Z) (input : In) : HM Out :=
  v_in ← lift (send_to_vec input);
  assert_ (length v_in <=? 6);;
  p ← ioctl_passthru {| sys_id := sys_id; regs := Z.of_nat (length v_in) :: v_in ++ replicate (6 - length v_in) 0%Z |};
  n ← lift (index (regs p) 0);
  answer ← lift (Realize.slice (drop 1 (regs p)) 0 (Z.to_nat n));
  lift (recv_from_slice answer).

Definition direct (request : DirectRequest) : HM DirectResponse := call_passthru host.DIRECT request.
Definition resource_server_passthru (request : Request) : HM unit := call_passthru host.RESOURCE_SERVER_PASSTHRU request.

Definition sys_declare (realm_id spec_size : nat) : HM unit :=
  resource_server_passthru (DeclareRealm realm_id spec_size).
Definition sys_spec_chunk (realm_id bulk_data_offset bulk_data_size offset : nat) : HM unit :=
  resource_server_passthru (SpecChunk realm_id bulk_data_offset bulk_data_size offset).
Definition sys_fill_chunks (realm_id bulk_data_offset bulk_data_size : nat) : HM unit :=
  resource_server_passthru (FillChunks realm_id bulk_data_offset bulk_data_size).
Definition sys_realize_start (realm_id : nat) : HM unit := resource_server_passthru (RealizeStart realm_id).
Definition sys_realize_finish (realm_id : nat) : HM unit := resource_server_passthru (RealizeFinish realm_id).
Definition sys_destroy (realm_id : nat) : HM unit := resource_server_passthru (Destroy realm_id).
Definition sys_hack_run (realm_id : nat) : HM unit := resource_server_passthru (HackRun realm_id).
Definition sys_yield_to (realm_id virtual_node : nat) : HM unit :=
  ioctl_yield_to {| yt_realm_id := Z.of_nat realm_id; yt_virtual_node := Z.of_nat virtual_node |};; mret tt.

(** ** [bulk_transport.rs] *)

(** [l.chunks(n)]: a chunk takes at least a byte, so the length is enough fuel. *)
Fixpoint chunks (fuel n : nat) (l : list Z) : list (list Z) :=
  match l, fuel with
  | [], _ | _, 0 => []
  | _, S fuel' => take n l :: chunks fuel' n (drop n l)
  end.

Fixpoint send_spec_loop (realm_id chunk_size i : nat) (cs : list (list Z)) : HM unit :=
  match cs with
  | [] => mret tt
  | chunk :: cs' =>
    let offset := i * chunk_size in
    bulk_write chunk;;
    sys_spec_chunk realm_id 0 (length chunk) offset;;
    send_spec_loop realm_id chunk_size (S i) cs'
  end.
Definition send_spec (realm_id : nat) (spec : list Z) (chunk_size : nat) : HM unit :=
  assert_ (negb (chunk_size =? 0));;
  send_spec_loop realm_id chunk_size 0 (chunks (length spec) chunk_size spec).

Definition send_fill (realm_id : nat) (content : list Z) : HM unit :=
  bulk_write content;; sys_fill_chunks realm_id 0 (length content).

(** ** [lib.rs] *)

(** The loop over the fill entries of the model; it gives what is left to send. *)
Fixpoint send_fills (realm_id chunk_size : nat) (fill_content : list Z) (es : list (nat * nat * FillEntry))
    (acc : list Z) (offset : nat) : HM (list Z) :=
  match es with
  | [] => mret acc
  | (i, j, entry) :: es' =>
    content ← lift (Realize.slice fill_content offset (offset + fill_length entry));
    header ← lift (unwrap (to_allocvec {| object_index := i; fill_entry_index := j; size := length content |}));
    let size := length header + length content in
    acc ← (if chunk_size <? length acc + size then send_fill realm_id acc;; mret [] else mret acc);
    send_fills realm_id chunk_size fill_content es' (acc ++ header ++ content) (offset + fill_length entry)
  end.

Definition create_realm (take_model : list Z → option (Model * list Z)) (realm_id : nat) (spec : list Z)
    (bulk_transport_chunk_size : nat) : HM unit :=
  '(model, fill_content) ← lift (unwrap (take_model spec));
  let model_size := length spec - length fill_content in
  sys_declare realm_id model_size;;
  bulk_open;;
  send_spec realm_id (take model_size spec) bulk_transport_chunk_size;;
  sys_realize_start realm_id;;
  acc ← send_fills realm_id bulk_transport_chunk_size fill_content (fill_entries model) [] 0;
  assert_ (length acc <=? bulk_transport_chunk_size);;
  send_fill realm_id acc;;
  sys_realize_finish realm_id.

Definition destroy_realm (realm_id : nat) : HM unit := sys_destroy realm_id.
Definition hack_run_realm (realm_id : nat) : HM unit := sys_hack_run realm_id.
Fixpoint run_realm_node (turns realm_id virtual_node : nat) : HM unit :=
  match turns with
  | 0 => mret tt
  | S turns' => sys_yield_to realm_id virtual_node;; run_realm_node turns' realm_id virtual_node
  end.
Definition host_direct (request : DirectRequest) : HM DirectResponse := direct request.
End tool.
