(* ===== verification/HostToolSpec.v ===== *)
(** * HostToolSpec: creating a realm from the host

    The tool cuts the description of a realm into chunks, packs the contents of its frames with
    headers into batches, and passes both to the resource server in many requests.  The theorem is
    that this is the same as handing the server the description and the contents at once
    ([upload]).

    What is between the tool and the server is the class [HostLink]: a request that is passed
    is served by the resource server, on the region that bulk data is written to. *)

From stdpp Require Import strings.
From S2P Require Import Prelude.
From S2P Require Import Bytes.
From S2P Require Import Sel4.
From S2P Require Import Vmm.
From S2P Require Import Rpc.
From S2P Require Import Dyndl.
From S2P Require Import Realize.
From S2P Require Import RealizeSpec.
From S2P Require Import ResourceServer.
From S2P Require Import HostTool.

(** ** The way to the server *)

(** The registers of a call with the words of [bs], and those of the empty answer. *)
Definition request_regs (bs : list Z) : list Z :=
  Z.of_nat (num_parameters bs) :: words bs ++ replicate (6 - num_parameters bs) 0%Z.
Definition unit_answer : list Z := 0%Z :: replicate 6 0%Z.

(** Bulk data is found at the start of the region, and a request is answered exactly when the server
    serves it. *)
Class HostLink (K R P S E W He : Type) `{!ResourceServer.Platform K E} `{!ResourceServer.Realizer R P S Model E}
    `{!HostEnv W He} `{!Postcard Request} (node : nat) := {
  link_server : W → ResourceServer K R P S;
  link_region : W → list Z;
  link_size : nat;
  link_length w : length (link_region w) = link_size;
  link_open w : ∃ w', bulk_open w = (Ok tt, w') ∧ link_server w' = link_server w;
  link_write bytes w : length bytes ≤ link_size → ∃ w', bulk_write bytes w = (Ok tt, w') ∧
    link_server w' = link_server w ∧ take (length bytes) (link_region w') = bytes;
  link_request r bs w : to_allocvec r = Some bs → num_parameters bs ≤ 6 →
    let call := vmm_ioctl {| sys_id := host.RESOURCE_SERVER_PASSTHRU; regs := request_regs bs |} w in
    match handle_request (E := E) node (link_region w) r (link_server w) with
    | (Ok _, s') => ∃ w', call = (Ok {| sys_id := host.RESOURCE_SERVER_PASSTHRU; regs := unit_answer |}, w') ∧
        link_server w' = s'
    | _ => ∀ p w', call ≠ (Ok p, w')
    end;
}.

(** A [usize]. *)
Definition sized (n : nat) : Prop := (Z.of_nat n < 2 ^ 64)%Z.
Definition request_sized (r : Request) : Prop :=
  match r with
  | DeclareRealm a b => sized a ∧ sized b
  | SpecChunk a b c d => sized a ∧ sized b ∧ sized c ∧ sized d
  | FillChunks a b c => sized a ∧ sized b ∧ sized c
  | RealizeStart a | RealizeFinish a | Destroy a | HackRun a => sized a
  end.
Definition header_of (c : nat * nat * list Z) : FillChunkHeader :=
  {| object_index := c.1.1; fill_entry_index := c.1.2; size := length c.2 |}.
Definition header_sized (c : nat * nat * list Z) : Prop := sized c.1.1 ∧ sized c.1.2 ∧ sized (length c.2).

(** What is relied on of the serializer, besides [PostcardLaws]: requests fit in the registers, nothing
    is written for [()], and a header is taken from the front of a buffer as it was written. *)
Class HostPostcard (R P S E : Type) `{!ResourceServer.Realizer R P S Model E}
    `{!Postcard Request} `{!Postcard unit} `{!Postcard FillChunkHeader} := {
  request_fits (r : Request) : request_sized r → ∃ bs, to_allocvec r = Some bs ∧ num_parameters bs ≤ 6;
  unit_nothing : to_allocvec tt = Some [];
  header_back c : header_sized c → ∃ bs, to_allocvec (header_of c) = Some bs ∧
    ∀ rest, take_from_bytes (bs ++ rest) = Some (header_of c, rest);
}.

(** ** The specification *)

(** The contents of the fill entries, one after the other from [offset] on. *)
Fixpoint contents (blob : list Z) (es : list (nat * nat * FillEntry)) (offset : nat) : list (nat * nat * list Z) :=
  match es with
  | [] => []
  | (i, j, entry) :: es' =>
    (i, j, take (fill_length entry) (drop offset blob)) :: contents blob es' (offset + fill_length entry)
  end.

Section upload.
Context {K R P S E : Type} `{!ResourceServer.Platform K E} `{!ResourceServer.Realizer R P S Model E}.
Abbreviation RS := (ResourceServer K R P S).
Abbreviation RM := (M RS E).

Definition continue_with (realm_id : nat) (c : nat * nat * list Z) : RM unit :=
  ResourceServer.realize_continue realm_id c.1.1 c.1.2 c.2.

(** The description at once, then the contents one by one. *)
Definition upload (node realm_id : nat) (raw : list Z) (fills : list (nat * nat * list Z)) : RM unit :=
  ResourceServer.declare realm_id (length raw);;
  incorporate_spec_chunk realm_id 0 raw;;
  ResourceServer.realize_start realm_id;;
  for_each (continue_with realm_id) fills;;
  ResourceServer.realize_finish node realm_id.
End upload.

(** ** Simulation *)
Section link.
Context {K R P S E W He : Type} `{!ResourceServer.Platform K E} `{!ResourceServer.Realizer R P S Model E} `{!HostEnv W He}.
Context `{!Postcard Request} `{!PostcardLaws Request} `{!Postcard unit} `{!PostcardLaws unit} `{!Postcard FillChunkHeader}.
Context (node : nat) `{!HostPostcard R P S E} {Hlink : HostLink K R P S E W He node}.
(** Answers of the server succeed and leave its environment as it is. *)
Hypothesis reply_ok : ∀ k, effect (K := K) (E := E) ReplyControl k = (Ok tt, k).
Abbreviation HM := (M W He).
Abbreviation RS := (ResourceServer K R P S).
Abbreviation RM := (M RS E).
Implicit Types (w : W) (s : RS).

(** From [w] the tool's [m] does to the server what [n] does: it succeeds exactly when [n] does,
    with its result. *)
Definition sim {A} (m : HM A) (n : RM A) w : Prop :=
  match n (link_server w) with
  | (Ok a, s') => ∃ w', m w = (Ok a, w') ∧ link_server w' = s'
  | _ => ∀ a w', m w ≠ (Ok a, w')
  end.

Lemma sim_ok (m : HM unit) (n : RM unit) w : sim m n w →
  (∀ s', n (link_server w) = (Ok tt, s') → ∃ w', m w = (Ok tt, w') ∧ link_server w' = s') ∧
  (∀ w', m w = (Ok tt, w') → n (link_server w) = (Ok tt, link_server w')).
Proof using Type*.
  unfold sim. destruct (n (link_server w)) as [[[]|e|] s1]; intros Hsim.
  - destruct Hsim as (w1 & Hw & <-). split; [intros s' [= <-]; by exists w1|].
    intros w' Hc. rewrite Hc in Hw. by injection Hw as ->.
  - split; [done|]. intros w' Hc. by destruct (Hsim tt w').
  - split; [done|]. intros w' Hc. by destruct (Hsim tt w').
Qed.

Lemma sim_bind {A B} (m : HM A) (n : RM A) (f : A → HM B) (g : A → RM B) w :
  sim m n w → (∀ a w', m w = (Ok a, w') → n (link_server w) = (Ok a, link_server w') → sim (f a) (g a) w') →
  sim (m ≫= f) (n ≫= g) w.
Proof.
  unfold sim. intros Hm Hf. destruct (n (link_server w)) as [[a|e|] s1] eqn:Hn.
  - rewrite (bind_eq_ok _ _ _ _ _ Hn). destruct Hm as (w1 & Hm & <-). specialize (Hf a w1 Hm eq_refl).
    destruct (g a (link_server w1)) as [[b|e|] s2]; rewrite (bind_eq_ok _ _ _ _ _ Hm); done.
  - assert ((n ≫= g) (link_server w) = (Err e, s1)) as -> by (unfold mbind, M_bind; by rewrite Hn).
    intros b w' (a & w1 & Ha & _)%bind_ok_inv. by apply (Hm a w1).
  - assert ((n ≫= g) (link_server w) = (Panic, s1)) as -> by (unfold mbind, M_bind; by rewrite Hn).
    intros b w' (a & w1 & Ha & _)%bind_ok_inv. by apply (Hm a w1).
Qed.
Lemma sim_ret {A} (a : A) w : sim (mret a) (mret a) w.
Proof. by exists w. Qed.
(** Steps of the tool that do not concern the server. *)
Lemma sim_skip {A B} (m : HM A) (f : A → HM B) (n : RM B) a w w' :
  m w = (Ok a, w') → link_server w' = link_server w → sim (f a) n w' → sim (m ≫= f) n w.
Proof.
  unfold sim. intros Hm <-. destruct (n (link_server w')) as [[b|e|] s']; rewrite (bind_eq_ok _ _ _ _ _ Hm); done.
Qed.
Lemma sim_assoc {A B C} (m : HM A) (f : A → HM B) (g : B → HM C) n w :
  sim (m ≫= λ a, f a ≫= g) n w → sim ((m ≫= f) ≫= g) n w.
Proof. unfold sim, mbind, M_bind. by destruct (m w) as [[] ?]. Qed.
Lemma sim_assoc_r {A B C} (m : HM A) (f : A → HM B) (g : B → HM C) n w :
  sim ((m ≫= f) ≫= g) n w → sim (m ≫= λ a, f a ≫= g) n w.
Proof. unfold sim, mbind, M_bind. by destruct (m w) as [[] ?]. Qed.
Lemma sim_equiv {A} (m : HM A) (n n' : RM A) w : n (link_server w) = n' (link_server w) → sim m n w → sim m n' w.
Proof. unfold sim. by intros ->. Qed.

(** ** Requests *)
Lemma reply_id (m : RM unit) s : (m ≫= λ _, must_effect ReplyControl) s = m s.
Proof using Type*.
  unfold mbind, M_bind. destruct (m s) as [[[]|e|] s'] eqn:Hm; [|done..].
  unfold must_effect, unwrap_result, try_effect. rewrite reply_ok. by destruct s'.
Qed.

Lemma send_to_vec_words (r : Request) bs : to_allocvec r = Some bs → send_to_vec (E := He) r = Ok (words bs).
Proof.
  intros Hr. unfold send_to_vec. rewrite (send_eq r bs _ Hr). by rewrite vec_write.
Qed.

Lemma sim_request (r : Request) (n : RM unit) w : request_sized r →
  handle_request node (link_region w) r (link_server w) = n (link_server w) →
  sim (resource_server_passthru r) n w.
Proof.
  intros Hsz Hn. destruct (request_fits r Hsz) as (bs & Hr & Hf). pose proof (link_request r bs w Hr Hf) as Hl.
  rewrite Hn in Hl. unfold request_regs in Hl.
  assert ((resource_server_passthru r : HM unit) w =
    (p ← ioctl_passthru {| sys_id := host.RESOURCE_SERVER_PASSTHRU; regs := request_regs bs |};
     n ← lift (index (regs p) 0);
     answer ← lift (Realize.slice (drop 1 (regs p)) 0 (Z.to_nat n));
     lift (recv_from_slice answer) : HM unit) w) as Hcall.
  { unfold resource_server_passthru, call_passthru. rewrite (send_to_vec_words r bs Hr).
    rewrite (bind_eq_ok _ _ w (words bs) w) by done. rewrite length_words.
    rewrite (bind_eq_ok _ _ w tt w) by (unfold assert_; by rewrite (proj2 (Nat.leb_le _ _) Hf)). done. }
  unfold sim. rewrite Hcall. clear Hcall. fold (request_regs bs) in Hl.
  destruct (n (link_server w)) as [[[]|e|] s'].
  - destruct Hl as (w' & Hl & <-). exists w'. split; [|done].
    assert (ioctl_passthru {| sys_id := host.RESOURCE_SERVER_PASSTHRU; regs := request_regs bs |} w
      = (Ok {| sys_id := host.RESOURCE_SERVER_PASSTHRU; regs := unit_answer |}, w')) as Hi
      by (unfold ioctl_passthru, unwrap_result; by rewrite Hl).
    rewrite (bind_eq_ok _ _ _ _ _ Hi), (bind_eq_ok _ _ w' 0%Z w'), (bind_eq_ok _ _ w' [] w') by done.
    unfold lift, recv_from_slice. by rewrite (recv_eq [] tt [] [] unit_nothing).
  - intros a w' (p & w1 & Hp & _)%bind_ok_inv. unfold ioctl_passthru, unwrap_result in Hp.
    destruct (vmm_ioctl _ w) as [[?|?|] ?] eqn:Hv; simplify_eq. by apply (Hl p w1).
  - intros a w' (p & w1 & Hp & _)%bind_ok_inv. unfold ioctl_passthru, unwrap_result in Hp.
    destruct (vmm_ioctl _ w) as [[?|?|] ?] eqn:Hv; simplify_eq. by apply (Hl p w1).
Qed.

(** Bulk data and the request that refers to it. *)
Lemma sim_bulk (bytes : list Z) (r : Request) (n : RM unit) w : request_sized r → length bytes ≤ link_size (HostLink := Hlink) →
  (∀ region, length region = link_size (HostLink := Hlink) → take (length bytes) region = bytes →
    handle_request node region r (link_server w) = n (link_server w)) →
  sim (bulk_write bytes ≫= λ _, resource_server_passthru r) n w.
Proof.
  intros Hsz Hl Hr. destruct (link_write bytes w Hl) as (w' & Hw & Hs & Ht).
  apply (sim_skip _ _ _ _ _ _ Hw Hs), sim_request; [done|]. rewrite Hs. apply Hr; [apply link_length|done].
Qed.
Lemma bulk_slice_start (bytes region : list Z) : length bytes ≤ length region → take (length bytes) region = bytes →
  bulk_slice (E := E) region 0 (length bytes) = Ok bytes.
Proof. intros Hl Ht. unfold bulk_slice. rewrite Nat.add_0_l, (proj2 (Nat.leb_le _ _) Hl), drop_0. by rewrite Ht. Qed.

Lemma sim_spec_chunk realm_id chunk offset w : sized realm_id → sized (length chunk) → sized offset → length chunk ≤ link_size (HostLink := Hlink) →
  sim (bulk_write chunk ≫= λ _, sys_spec_chunk realm_id 0 (length chunk) offset)
    (incorporate_spec_chunk realm_id offset chunk) w.
Proof using Type*.
  intros ??? Hl. apply sim_bulk; [done|done|]. intros region Hr Ht. cbn [handle_request]. unfold lift.
  rewrite bulk_slice_start by (done || lia). apply reply_id.
Qed.

(** *** The description *)
Fixpoint incorporate_chunks (realm_id chunk_size i : nat) (cs : list (list Z)) : RM unit :=
  match cs with
  | [] => mret tt
  | c :: cs' => incorporate_spec_chunk realm_id (i * chunk_size) c ≫= λ _, incorporate_chunks realm_id chunk_size (Datatypes.S i) cs'
  end.
Lemma sim_spec realm_id chunk_size cs : ∀ i w, sized realm_id →
  Forall (λ c, length c ≤ link_size (HostLink := Hlink) ∧ sized (length c)) cs →
  (∀ k, k < length cs → sized ((i + k) * chunk_size)) →
  sim (send_spec_loop realm_id chunk_size i cs) (incorporate_chunks realm_id chunk_size i cs) w.
Proof using Type*.
  induction cs as [|c cs IH]; intros i w Hid Hcs Hoff; cbn [send_spec_loop incorporate_chunks]; [apply sim_ret|].
  apply Forall_cons in Hcs as [[Hc Hcz] Hcs]. cbv zeta.
  apply sim_assoc_r, sim_bind.
  - apply sim_spec_chunk; [done..| |done]. specialize (Hoff 0). rewrite Nat.add_0_r in Hoff. apply Hoff. simpl. lia.
  - intros [] w' _ _. apply IH; [done..|]. intros k Hk. replace (Datatypes.S i + k) with (i + Datatypes.S k) by lia.
    apply Hoff. simpl. lia.
Qed.

Definition with_spec (realm_id : nat) (raw : list Z) s : RS :=
  with_partial_specs s (<[realm_id := raw]> (partial_specs s)).
Lemma incorporate_run realm_id offset c partial s : partial_specs s !! realm_id = Some partial →
  offset + length c ≤ length partial →
  (incorporate_spec_chunk realm_id offset c : RM unit) s = (Ok tt, with_spec realm_id (list_inserts offset c partial) s).
Proof.
  intros Hp Hl. unfold incorporate_spec_chunk. rewrite (bind_eq_ok _ _ s (partial_specs s) s) by done.
  rewrite (bind_eq_ok _ _ s partial s) by (unfold lift; by rewrite Hp). unfold assert_. by rewrite (proj2 (Nat.leb_le _ _) Hl).
Qed.

(** The chunks of a list have at most [n] elements, all but the last have [n], and give the list. *)
Lemma chunks_run realm_id n fuel : ∀ i raw partial s, n ≠ 0 → length raw ≤ fuel →
  partial_specs s !! realm_id = Some partial → i * n + length raw ≤ length partial →
  incorporate_chunks realm_id n i (chunks fuel n raw) s = (Ok tt, with_spec realm_id (list_inserts (i * n) raw partial) s).
Proof.
  induction fuel as [|fuel IH]; intros i raw partial s Hn Hf Hp Hl.
  - destruct raw; [|simpl in Hf; lia]. cbn [chunks incorporate_chunks list_inserts]. unfold with_spec.
    rewrite insert_id by done. by destruct s.
  - destruct raw as [|b raw].
    { cbn [chunks incorporate_chunks list_inserts]. unfold with_spec. rewrite insert_id by done. by destruct s. }
    change (chunks (Datatypes.S fuel) n (b :: raw)) with (take n (b :: raw) :: chunks fuel n (drop n (b :: raw))).
    set (l := b :: raw) in *. cbn [incorporate_chunks].
    assert (i * n + length (take n l) ≤ length partial) as Hfit by (rewrite length_take; lia).
    rewrite (bind_eq_ok _ _ _ _ _ (incorporate_run _ _ _ _ _ Hp Hfit)).
    destruct (decide (length l ≤ n)) as [Hle|Hgt].
    + rewrite (drop_ge l n), take_ge by lia. by destruct fuel.
    + assert (length (take n l) = n) as Ht by (rewrite length_take; lia).
      rewrite (IH _ _ (list_inserts (i * n) (take n l) partial)); [|done|rewrite length_drop; lia| |].
      * unfold with_spec. cbn [with_partial_specs partial_specs]. rewrite insert_insert_eq. do 3 f_equal.
        rewrite <- (take_drop n l) at 3. rewrite list_inserts_app_l, Ht. f_equal; lia.
      * cbn [with_spec with_partial_specs partial_specs]. by rewrite lookup_insert_eq.
      * rewrite length_inserts, length_drop. lia.
Qed.

(** *** The contents *)
Definition header_bytes (c : nat * nat * list Z) : list Z :=
  default [] (to_allocvec (header_of c)).
Definition entry_bytes (c : nat * nat * list Z) : list Z := header_bytes c ++ c.2.
Definition batch (pend : list (nat * nat * list Z)) : list Z := mjoin (entry_bytes <$> pend).

Lemma batch_app p q : batch (p ++ q) = batch p ++ batch q.
Proof. unfold batch. by rewrite fmap_app, join_app. Qed.
Lemma header_eq c : header_sized c → to_allocvec (header_of c) = Some (header_bytes c).
Proof using Type*. intros Hc. unfold header_bytes. by destruct (header_back c Hc) as (bs & -> & _). Qed.
Lemma header_taken c rest : header_sized c → take_from_bytes (header_bytes c ++ rest) = Some (header_of c, rest).
Proof using Type*. intros Hc. unfold header_bytes. destruct (header_back c Hc) as (bs & -> & Hb). apply Hb. Qed.

Lemma fill_batch realm_id pend : Forall header_sized pend → ∀ fuel s, length (batch pend) ≤ fuel →
  (fill_chunks fuel realm_id (batch pend) : RM unit) s = for_each (continue_with realm_id) pend s.
Proof using Type*.
  induction 1 as [|c pend Hsz _ IH]; intros fuel s Hf; [by destruct fuel|].
  change (batch (c :: pend)) with (entry_bytes c ++ batch pend) in *. unfold entry_bytes in *.
  rewrite <- app_assoc in *. pose proof (header_taken c (c.2 ++ batch pend) Hsz) as Ht.
  pose proof (take_from_bytes_shorter _ _ _ Ht) as Hlt.
  destruct (header_bytes c ++ c.2 ++ batch pend) as [|b l] eqn:Hb; [simpl in Hlt; lia|].
  destruct fuel as [|fuel]; [simpl in Hf; lia|]. cbn [fill_chunks for_each]. unfold lift. rewrite Ht.
  rewrite (bind_eq_ok _ _ s (header_of c, c.2 ++ batch pend) s) by done.
  cbn [header_of fst snd object_index fill_entry_index ResourceServer.size].
  rewrite (bind_eq_ok _ _ s tt s) by (unfold assert_; rewrite length_app; by rewrite (proj2 (Nat.leb_le _ _)) by lia).
  rewrite take_app_length, drop_app_length. unfold mbind, M_bind.
  change (continue_with realm_id c s) with (ResourceServer.realize_continue realm_id c.1.1 c.1.2 c.2 s).
  destruct (ResourceServer.realize_continue _ _ _ _ s) as [[[]|e|] s']; [|done..].
  apply IH. rewrite length_app in Hlt. simpl in Hlt, Hf. lia.
Qed.

Lemma sim_fill realm_id pend w : sized realm_id → Forall header_sized pend → sized (length (batch pend)) →
  length (batch pend) ≤ link_size (HostLink := Hlink) →
  sim (send_fill realm_id (batch pend)) (for_each (continue_with realm_id) pend) w.
Proof using Type*.
  intros ? Hp ? Hl. apply sim_bulk; [done|done|]. intros region Hr Ht. cbn [handle_request].
  rewrite (bind_eq_ok _ _ (link_server w) (batch pend) (link_server w))
    by (unfold lift; by rewrite bulk_slice_start by (done || lia)).
  rewrite reply_id. by apply fill_batch.
Qed.

Section fills.
Context (realm_id chunk_size : nat) (blob : list Z).
Hypothesis chunk_fits : chunk_size ≤ link_size (HostLink := Hlink).
Hypothesis id_sized : sized realm_id.
Hypothesis chunk_sized : sized chunk_size.

Lemma sim_fill_chunk pend w : Forall header_sized pend → length (batch pend) ≤ chunk_size →
  sim (send_fill realm_id (batch pend)) (for_each (continue_with realm_id) pend) w.
Proof using Type*. intros Hp Hl. apply sim_fill; [done|done| |lia]. unfold sized in *. lia. Qed.

(** The end of the upload of the contents: what is left to send. *)
Definition send_rest (acc : list Z) : HM unit :=
  assert_ (length acc <=? chunk_size) ≫= λ _, send_fill realm_id acc.

Lemma sim_fills es : ∀ pend offset w,
  length (batch pend) ≤ chunk_size → Forall header_sized pend →
  offset + sum_list ((λ x : nat * nat * FillEntry, fill_length x.2) <$> es) ≤ length blob →
  Forall (λ c, header_sized c ∧ length (entry_bytes c) ≤ chunk_size) (contents blob es offset) →
  sim (send_fills realm_id chunk_size blob es (batch pend) offset ≫= send_rest)
    (for_each (continue_with realm_id) (pend ++ contents blob es offset)) w.
Proof using Type*.
  induction es as [|[[i j] e] es IH]; intros pend offset w Hpend Hsz Hlen Hfit; cbn [send_fills contents].
  - rewrite app_nil_r. apply (sim_skip _ _ _ (batch pend) _ w); [done..|].
    apply (sim_skip _ _ _ tt _ w); [unfold assert_; by rewrite (proj2 (Nat.leb_le _ _) Hpend)|done|].
    by apply sim_fill_chunk.
  - rewrite fmap_cons in Hlen. simpl in Hlen. apply Forall_cons in Hfit as [[Hxz Hc] Hfit].
    set (c := take (fill_length e) (drop offset blob)).
    assert (length c = fill_length e) as Hcl by (subst c; rewrite length_take, length_drop; lia).
    assert (Realize.slice (E := He) blob offset (offset + fill_length e) = Ok c) as Hslice.
    { unfold Realize.slice. rewrite bool_decide_eq_true_2 by lia. by replace (offset + fill_length e - offset) with (fill_length e) by lia. }
    set (x := (i, j, c)). fold c in Hc, Hxz. fold x in Hc, Hxz.
    pose proof (header_eq x Hxz) as Hh. unfold header_of in Hh. cbn in Hh.
    apply sim_assoc, (sim_skip _ _ _ c _ w); [unfold lift; by rewrite Hslice|done|].
    apply sim_assoc, (sim_skip _ _ _ (header_bytes x) _ w); [unfold lift; by rewrite Hh|done|].
    cbv zeta. replace (length (header_bytes x) + length c) with (length (entry_bytes x)) by apply length_app.
    apply sim_assoc. destruct (Nat.ltb_spec chunk_size (length (batch pend) + length (entry_bytes x))) as [Hfull|Hroom].
    + (* the batch is sent, and the entry starts the next one *)
      eapply sim_equiv; [symmetry; apply (for_each_app _ pend ([x] ++ contents blob es (offset + fill_length e)))|].
      apply sim_assoc, sim_bind; [by apply sim_fill_chunk|]. intros [] w' _ _.
      apply (sim_skip _ _ _ [] _ w'); [done..|].
      replace ([] ++ header_bytes x ++ c) with (batch [x]) by apply app_nil_r.
      apply IH; [|by constructor|lia|done]. change (batch [x]) with (entry_bytes x ++ []). by rewrite app_nil_r.
    + (* the entry joins the batch *)
      apply (sim_skip _ _ _ (batch pend) _ w); [done..|].
      assert (batch pend ++ header_bytes x ++ c = batch (pend ++ [x])) as ->.
      { rewrite batch_app. f_equal. symmetry. apply app_nil_r. }
      rewrite (app_assoc pend [x] (contents blob es (offset + fill_length e)) : pend ++ x :: _ = _).
      apply IH; [|apply Forall_app; split; [done|by constructor]|lia|done].
      rewrite batch_app, length_app. change (batch [x]) with (entry_bytes x ++ []). rewrite app_nil_r. lia.
Qed.
End fills.

(** *** The whole *)
Lemma declare_ok realm_id n s s' : (ResourceServer.declare realm_id n : RM unit) s = (Ok tt, s') →
  partial_specs s' !! realm_id = Some (replicate n 0%Z).
Proof. unfold ResourceServer.declare. intros Hrun. ok_inv. subst. apply lookup_insert_eq. Qed.

Lemma chunks_sizes n fuel : ∀ raw : list Z, n ≠ 0 →
  Forall (λ c, length c ≤ n) (chunks fuel n raw) ∧ ∀ k, k < length (chunks fuel n raw) → k * n ≤ length raw.
Proof.
  induction fuel as [|fuel IH]; intros [|b raw] Hn; [split; [constructor|simpl; lia]..|].
  change (chunks (Datatypes.S fuel) n (b :: raw)) with (take n (b :: raw) :: chunks fuel n (drop n (b :: raw))).
  destruct (IH (drop n (b :: raw)) Hn) as [Hc Hk]. split; [constructor; [rewrite length_take; lia|done]|].
  intros [|k] Hlt; [simpl; lia|]. simpl in Hlt. specialize (Hk k ltac:(lia)). rewrite length_drop in Hk.
  assert (n < length (b :: raw) ∨ length (b :: raw) ≤ n) as [?|?] by lia; [simpl in *; lia|].
  exfalso. rewrite drop_ge in Hlt by done. destruct fuel; simpl in Hlt; lia.
Qed.
(** The description, uploaded in chunks. *)
Lemma sim_send_spec realm_id chunk_size raw w : sized realm_id → sized chunk_size → sized (length raw) →
  chunk_size ≠ 0 → chunk_size ≤ link_size (HostLink := Hlink) →
  partial_specs (link_server w) !! realm_id = Some (replicate (length raw) 0%Z) →
  sim (send_spec realm_id raw chunk_size) (incorporate_spec_chunk realm_id 0 raw) w.
Proof using Type*.
  intros Hid Hcz Hrz Hn Hl Hp. apply (sim_skip _ _ _ tt _ w); [|done|].
  { unfold assert_. by rewrite (proj2 (Nat.eqb_neq _ _) Hn). }
  assert (0 + length raw ≤ length (replicate (length raw) 0%Z)) as Hlen by (rewrite length_replicate; lia).
  destruct (chunks_sizes chunk_size (length raw) raw Hn) as [Hcs Hoff].
  eapply sim_equiv; [|apply (sim_spec realm_id chunk_size (chunks (length raw) chunk_size raw) 0); [done|..]].
  - rewrite (chunks_run realm_id chunk_size (length raw) 0 raw _ _ Hn ltac:(done) Hp Hlen). by rewrite (incorporate_run _ _ _ _ _ Hp Hlen).
  - eapply Forall_impl; [exact Hcs|]. unfold sized in *. simpl. lia.
  - intros k Hk%Hoff. unfold sized in *. simpl. lia.
Qed.

(** What the tool is given fits what carries it: numbers are words, chunks fit the region for bulk
    data, every entry of the fill fits a chunk, and the contents of all entries are there. *)
Record fits_link (realm_id chunk_size : nat) (m : Model) (raw fill : list Z) : Prop := {
  fit_id : sized realm_id;
  fit_raw : sized (length raw);
  fit_chunk : sized chunk_size;
  fit_pos : chunk_size ≠ 0;
  fit_region : chunk_size ≤ link_size (HostLink := Hlink);
  fit_fill : sum_list ((λ x : nat * nat * FillEntry, fill_length x.2) <$> fill_entries m) ≤ length fill;
  fit_entries : Forall (λ c, header_sized c ∧ length (entry_bytes c) ≤ chunk_size) (contents fill (fill_entries m) 0);
}.

Section create.
Context (take_model : list Z → option (Model * list Z)).
Context (realm_id chunk_size : nat) (m : Model) (raw fill : list Z).
Hypothesis model_taken : take_model (raw ++ fill) = Some (m, fill).
Hypothesis fits : fits_link realm_id chunk_size m raw fill.

Lemma create_realm_sim w :
  sim (create_realm take_model realm_id (raw ++ fill) chunk_size)
    (upload node realm_id raw (contents fill (fill_entries m) 0)) w.
Proof using Type*.
  destruct fits as [id_sized raw_sized chunk_sized chunk_pos chunk_fits fill_enough entries_fit].
  unfold create_realm, upload.
  apply (sim_skip _ _ _ (m, fill) _ w); [unfold lift; by rewrite model_taken|done|].
  assert (length (raw ++ fill) - length fill = length raw) as -> by (rewrite length_app; lia). cbv zeta beta.
  rewrite take_app_length.
  apply sim_bind; [by apply sim_request; [|apply reply_id]|]. intros [] w1 _ Hd%declare_ok.
  destruct (link_open w1) as (w2 & Hopen & Hs2). apply (sim_skip _ _ _ tt _ w2); [done|done|].
  rewrite <- Hs2 in Hd. apply sim_bind; [by apply sim_send_spec|]. intros [] w3 _ _.
  apply sim_bind; [by apply sim_request; [|apply reply_id]|]. intros [] w4 _ _.
  assert (∀ (k : HM unit) n, sim ((send_fills realm_id chunk_size fill (fill_entries m) [] 0 ≫= send_rest realm_id chunk_size) ≫= λ _, k) n w4 →
    sim (send_fills realm_id chunk_size fill (fill_entries m) [] 0 ≫= λ acc,
      assert_ (length acc <=? chunk_size) ≫= λ _, send_fill realm_id acc ≫= λ _, k) n w4) as Hassoc.
  { intros k n. unfold sim, send_rest, mbind, M_bind. destruct (send_fills _ _ _ _ _ _ w4) as [[acc|?|] ?]; [|done..].
    unfold assert_. by destruct (_ <=? _). }
  apply Hassoc, sim_bind; [by apply (sim_fills realm_id chunk_size fill chunk_fits id_sized chunk_sized (fill_entries m) [] 0); [apply Nat.le_0_l|constructor|..]|].
  intros [] w5 _ _. by apply sim_request; [|apply reply_id].
Qed.
End create.

(** C7: Creating a realm from the host is the same as giving the server everything at once.  For a
    description that is the serialized model followed by the contents of its frames, and that fits
    the link, the tool, which cuts the model into chunks and packs the contents with headers into
    batches, succeeds exactly when the server accepts the model in one piece and then each content
    in the order of the model; and it leaves the server in the same state. *)
Theorem host_creates_realm take_model realm_id chunk_size m raw fill w :
  take_model (raw ++ fill) = Some (m, fill) → fits_link realm_id chunk_size m raw fill →
  let created := create_realm take_model realm_id (raw ++ fill) chunk_size w in
  let uploaded := upload node realm_id raw (contents fill (fill_entries m) 0) (link_server w) in
  (∀ s', uploaded = (Ok tt, s') → ∃ w', created = (Ok tt, w') ∧ link_server w' = s') ∧
  (∀ w', created = (Ok tt, w') → uploaded = (Ok tt, link_server w')).
Proof using Type*.
  intros Ht Hf. by apply sim_ok, create_realm_sim.
Qed.
End link.

(** ** The dynamic loader as the realizer of the server *)

(** The decoders of the server's messages. *)
Class Decoders := {
  decode_model : list Z → option Model;
  decode_request : list Z → option Request;
  take_header : list Z → option (FillChunkHeader * list Z);
  take_header_shorter bs h rest : take_header bs = Some (h, rest) → length rest < length bs;
}.

Section loader.
Context {K : Type} `{!Sel4.Sel4 K} `{!Realize.Platform K} `{!Decoders}.

#[global] Instance dyndl_realizer :
    ResourceServer.Realizer (Realize.Realizer * K) PartialSubsystem Subsystem Model Failure := {|
  ResourceServer.from_bytes := decode_model;
  recv_request := decode_request;
  take_from_bytes := take_header;
  take_from_bytes_shorter := take_header_shorter;
  realizer_start := Realize.realize_start;
  realizer_continue p i j content := Realize.realize_continue p i j content ≫= λ _, mret p;
  realizer_finish := Realize.realize_finish;
  realizer_destroy := Realize.destroy;
  ResourceServer.virtual_cores sub :=
    (λ core, (λ t, (Z.to_nat (vc_cap t), vc_resume t)) <$> Realize.tcbs core) <$> Realize.virtual_cores sub;
|}.

Context {KP : Type} `{!ResourceServer.Platform KP Failure}.
Abbreviation RS := (ResourceServer KP (Realize.Realizer * K) PartialSubsystem Subsystem).
Implicit Types (s : RS).

Lemma on_realizer_ok {A} (x : M (Realize.Realizer * K) Failure A) s a s' :
  on_realizer x s = (Ok a, s') → ∃ r', x (realizer s) = (Ok a, r') ∧ s' = with_realizer s r'.
Proof. unfold on_realizer. destruct (x (realizer s)) as [[] r']; naive_solver. Qed.
End loader.

(** ** A concrete host

    Numbers take eight bytes; the world is the server and the last bulk data that was written. *)
Module HostDemo.
#[local] Existing Instance LogKernel.sel4.

(** The model has no threads, and so no cores. *)
Definition demo : Model := {| num_nodes := 0; objects := objects RealizeDemo.demo_model |}.

Definition put (n : nat) : list Z := to_be_bytes 8 (Z.of_nat n).
Fixpoint take_nats (k : nat) (bs : list Z) : option (list nat * list Z) :=
  match k with
  | 0 => Some ([], bs)
  | Datatypes.S k' =>
    if 8 <=? length bs then
      p ← take_nats k' (drop 8 bs); Some (Z.to_nat (from_be_bytes (take 8 bs)) :: p.1, p.2)
    else None
  end.
Lemma take_nats_put l rest : Forall sized l → take_nats (length l) (mjoin (put <$> l) ++ rest) = Some (l, rest).
Proof.
  induction 1 as [|n l Hn _ IH]; [done|]. rewrite fmap_cons. change (mjoin (?x :: ?y)) with (x ++ mjoin y).
  rewrite <- app_assoc. cbn [length take_nats].
  assert (length (put n) = 8) as Hl by apply length_to_be_bytes. rewrite length_app, Hl.
  change (8 <=? 8 + ?x) with true. cbv iota.
  replace (take 8 (put n ++ mjoin (put <$> l) ++ rest)) with (put n) by (by rewrite <- Hl, take_app_length).
  replace (drop 8 (put n ++ mjoin (put <$> l) ++ rest)) with (mjoin (put <$> l) ++ rest) by (by rewrite <- Hl, drop_app_length).
  rewrite IH. cbn [mbind option_bind fst snd]. do 3 f_equal. unfold put. rewrite (be_word_back 8); [apply Nat2Z.id|].
  unfold is_word, sized in *. lia.
Qed.
Lemma take_nats_length k bs l rest : take_nats k bs = Some (l, rest) → length bs = 8 * k + length rest.
Proof.
  revert bs l rest. induction k as [|k IH]; intros bs l rest; cbn [take_nats]; [intros [= _ ->]; lia|].
  destruct (Nat.leb_spec 8 (length bs)) as [Hb|]; [|done]. destruct (take_nats k (drop 8 bs)) as [[l' r']|] eqn:Ht; [|done].
  intros [= _ <-]. apply IH in Ht. rewrite length_drop in Ht. lia.
Qed.

(** Requests: a tag and the numbers. *)
Definition fields (r : Request) : Z * list nat :=
  match r with
  | DeclareRealm a b => (0%Z, [a; b]) | SpecChunk a b c d => (1%Z, [a; b; c; d]) | FillChunks a b c => (2%Z, [a; b; c])
  | RealizeStart a => (3%Z, [a]) | RealizeFinish a => (4%Z, [a]) | Destroy a => (5%Z, [a]) | HackRun a => (6%Z, [a])
  end.
Definition request_of (tag : Z) (l : list nat) : option Request :=
  match Z.to_nat tag, l with
  | 0, [a; b] => Some (DeclareRealm a b) | 1, [a; b; c; d] => Some (SpecChunk a b c d)
  | 2, [a; b; c] => Some (FillChunks a b c) | 3, [a] => Some (RealizeStart a)
  | 4, [a] => Some (RealizeFinish a) | 5, [a] => Some (Destroy a) | 6, [a] => Some (HackRun a)
  | _, _ => None
  end.
Definition arity (tag : Z) : nat :=
  match Z.to_nat tag with 0 => 2 | 1 => 4 | 2 => 3 | _ => 1 end.
Definition encode_request (r : Request) : list Z := (fields r).1 :: mjoin (put <$> (fields r).2).

#[local] Instance sized_dec n : Decision (sized n).
Proof. unfold sized. apply _. Defined.
Lemma fields_sized r : Forall sized (fields r).2 ↔ request_sized r.
Proof. destruct r; cbn [fields snd request_sized]; rewrite ?Forall_cons, ?Forall_nil; tauto. Qed.

#[global] Instance request_postcard : Postcard Request := {|
  to_allocvec r := if decide (Forall sized (fields r).2) then Some (encode_request r) else None;
  Rpc.from_bytes bs := match bs with
    | [] => None
    | tag :: rest => p ← take_nats (arity tag) rest; request_of tag p.1
    end;
|}.
#[global] Instance request_laws : PostcardLaws Request.
Proof.
  split; cbn [to_allocvec Rpc.from_bytes request_postcard]; intros r bs; case_decide as Hs; [|done|intros ?|done].
  - intros [= <-]. unfold encode_request. constructor; [destruct r; done|]. apply Forall_join, Forall_fmap, Forall_forall.
    intros n _. apply bytes_ok_to_be.
  - intros [= <-]. unfold encode_request. cbn [app].
    assert (arity (fields r).1 = length (fields r).2) as -> by by destruct r.
    rewrite take_nats_put by done. by destruct r.
Qed.
#[global] Instance unit_postcard : Postcard unit := {| to_allocvec _ := Some []; Rpc.from_bytes _ := Some tt |}.
#[global] Instance unit_laws : PostcardLaws unit.
Proof. split; [intros ?? [= <-]; constructor|by intros [] ???]. Qed.

Definition header_fields (h : FillChunkHeader) : list nat := [object_index h; fill_entry_index h; ResourceServer.size h].
Definition take_demo_header (bs : list Z) : option (FillChunkHeader * list Z) :=
  p ← take_nats 3 bs;
  match p.1 with
  | [a; b; c] => Some ({| object_index := a; fill_entry_index := b; ResourceServer.size := c |}, p.2)
  | _ => None
  end.
#[global] Instance header_postcard : Postcard FillChunkHeader := {|
  to_allocvec h := if decide (Forall sized (header_fields h)) then Some (mjoin (put <$> header_fields h)) else None;
  Rpc.from_bytes bs := fst <$> take_demo_header bs;
|}.
Lemma demo_header_shorter bs h rest : take_demo_header bs = Some (h, rest) → length rest < length bs.
Proof.
  unfold take_demo_header. destruct (take_nats 3 bs) as [[l r]|] eqn:Ht; [|done]. apply take_nats_length in Ht.
  cbn. repeat case_match; intros; simplify_eq; lia.
Qed.
#[global] Instance decoders : Decoders := {|
  decode_model bs := if decide (bs = [7; 7; 7]%Z) then Some demo else None;
  decode_request ws := Rpc.from_bytes (bytes_of ws);
  take_header := take_demo_header;
  take_header_shorter := demo_header_shorter;
|}.
#[global] Instance host_postcard :
  HostPostcard (Realize.Realizer * LogKernel.kernel) PartialSubsystem Subsystem Failure.
Proof.
  split.
  - intros r Hr%fields_sized. exists (encode_request r). cbn [to_allocvec request_postcard].
    rewrite decide_True by done. split; [done|]. destruct r; vm_compute; lia.
  - done.
  - intros c (H1 & H2 & H3). exists (mjoin (put <$> header_fields (header_of c))).
    assert (Forall sized (header_fields (header_of c))) as Hs by (by repeat constructor).
    cbn [to_allocvec header_postcard]. rewrite decide_True by done. split; [done|]. intros rest.
    cbn [take_from_bytes dyndl_realizer take_header decoders]. unfold take_demo_header.
    change 3 with (length (header_fields (header_of c))). by rewrite take_nats_put.
Qed.

(** Where threads run; everything else is accepted. *)
#[global] Instance platform : ResourceServer.Platform (TCB → option nat) Failure.
Proof.
  refine {| effect e k := (Ok tt, match e with Schedule t n => λ x, if decide (t = x) then n else k x | _ => k end);
            runs_on k t := k t |}.
  intros e k k' tcb [= <-]. by destruct e.
Defined.

Abbreviation world := (ResourceServer (TCB → option nat) (Realize.Realizer * LogKernel.kernel) PartialSubsystem Subsystem
  * list Z)%type.
Definition region (w : world) : list Z := resize 64 0%Z w.2.
Definition serve_passthru (p : Passthru) : M world unit Passthru := λ w,
  match regs p with
  | n :: ws =>
    match decode_request (take (Z.to_nat n) ws) with
    | Some r =>
      match handle_request (E := Failure) 0 (region w) r w.1 with
      | (Ok _, s') => (Ok {| sys_id := sys_id p; regs := unit_answer |}, (s', w.2))
      | (_, s') => (Err tt, (s', w.2))
      end
    | None => (Err tt, w)
    end
  | [] => (Err tt, w)
  end.
#[global] Instance env : HostEnv world unit := {|
  vmm_ioctl := serve_passthru;
  yield_ioctl y := mret y;
  bulk_open := mret tt;
  bulk_write bytes := modify (λ w, (w.1, bytes));
|}.
#[global] Instance link :
  HostLink (TCB → option nat) (Realize.Realizer * LogKernel.kernel) PartialSubsystem Subsystem Failure world unit 0.
Proof.
  refine {| link_server w := w.1; link_region := region; link_size := 64 |}.
  - intros w. apply length_resize.
  - intros w. by exists w.
  - intros bytes w Hb. exists (w.1, bytes). split_and!; [done..|]. unfold region. cbn [snd].
    rewrite resize_ge by done. by rewrite take_app_length.
  - intros r bs w Hr Hf. cbn [vmm_ioctl env]. unfold serve_passthru, request_regs. cbn [regs sys_id].
    assert (decode_request (take (Z.to_nat (Z.of_nat (num_parameters bs))) (words bs ++ replicate (6 - num_parameters bs) 0%Z))
      = Some r) as ->.
    { rewrite Nat2Z.id, <- length_words, take_app_length. cbn [decode_request decoders].
      rewrite bytes_of_words by exact (serialized_bytes r bs Hr).
      destruct (padded_eq bs) as [n ->]. exact (serialized_back r bs _ Hr). }
    destruct (handle_request _ _ _ _) as [[[]|?|] s']; [by eexists|by intros ?? [=]..].
Defined.

Definition server : world := (rs_new (RealizeDemo.realizer, []) (λ _, None) 1 1, []).
Definition take_demo (spec : list Z) : option (Model * list Z) := Some (demo, drop 3 spec).
Lemma demo_fits : fits_link 0 (Hlink := link) 5 40 demo [7; 7; 7]%Z [1; 2; 3; 4]%Z.
Proof.
  split; [done|done|done|done| | |].
  - cbn [link_size link]. lia.
  - cbn. lia.
  - change (contents _ _ _) with [(0, 0, [1; 2; 3]%Z)]. constructor; [|constructor]. split; [done|].
    vm_compute. lia.
Qed.
Definition created : outcome unit unit * world := create_realm take_demo 5 [7; 7; 7; 1; 2; 3; 4]%Z 40 server.
Lemma created_ok : create_realm take_demo 5 [7; 7; 7; 1; 2; 3; 4]%Z 40 server = (Ok tt, created.2).
Proof. vm_compute. reflexivity. Qed.
End HostDemo.

#[local] Existing Instance LogKernel.sel4.
Lemma host_creates_realm_witness :
  fits_link 0 (E := Failure) (Hlink := HostDemo.link) 5 40 HostDemo.demo [7; 7; 7]%Z [1; 2; 3; 4]%Z ∧
  upload (E := Failure) 0 5 [7; 7; 7]%Z [(0, 0, [1; 2; 3]%Z)] HostDemo.server.1 = (Ok tt, HostDemo.created.2.1).
Proof.
  split; [exact HostDemo.demo_fits|].
  pose proof (host_creates_realm (E := Failure) (Hlink := HostDemo.link) 0 (fun k => eq_refl) HostDemo.take_demo 5 40
    HostDemo.demo [7; 7; 7]%Z [1; 2; 3; 4]%Z HostDemo.server eq_refl HostDemo.demo_fits) as [_ Hup].
  exact (Hup HostDemo.created.2 HostDemo.created_ok).
Defined.
