(* ===== verification/HostCli.v ===== *)
(** * HostCli: the commands of the host tool

    Model of [hypervisor/host-tools/icecap-host/src/main.rs]: the commands [create], [destroy], [run],
    [hack-run] and [benchmark], on the operations of [HostTool].  The arguments come parsed by [clap], with
    the required ones present; files of the host are read with an argument.

    Each command with well-formed numbers does what [HostTool] does with those numbers
    ([commands_run]); a number that cannot be read is an error, and an unknown command a panic, before
    anything is done ([bad_number], [unknown_command]). *)

From stdpp Require Import strings.
From S2P Require Import Prelude.
From S2P Require Import Bytes.
From S2P Require Import Numbers.
From S2P Require Import Rpc.
From S2P Require Import Dyndl.
From S2P Require Import ResourceServer.
From S2P Require Import HostTool.

(** [clap]: the name of a subcommand and the values of its arguments. *)
Record SubCommand := { name : list Z; value_of : string → option (list Z) }.

(** [(1 << 21) + (1 << 12)]. *)
Definition bulk_transport_chunk_size : nat := Z.to_nat (Z.shiftl 1 21 + Z.shiftl 1 12).

Section commands.
Context {W E : Type} `{!HostEnv W E}.
Context `{!Postcard Request} `{!Postcard unit} `{!Postcard FillChunkHeader}.
Context `{!Postcard DirectRequest} `{!Postcard DirectResponse}.
Context (take_model : list Z → option (Model * list Z)) (fs_read : list Z → M W E (list Z)).

(** [Box<dyn Error>]: an error of the system or of a number. *)
Abbreviation CM := (M W (E + ParseIntError)).
Definition sys {A} (m : M W E A) : CM A := λ w,
  match m w with (Ok a, w') => (Ok a, w') | (Err e, w') => (Err (inl e), w') | (Panic, w') => (Panic, w') end.

Definition create (realm_id : nat) (spec_path : list Z) : CM unit :=
  spec ← sys (fs_read spec_path);
  sys (create_realm take_model realm_id spec bulk_transport_chunk_size).
Definition destroy (realm_id : nat) : CM unit := sys (destroy_realm realm_id).
(** The loop of [run_realm_node] is given a number of turns. *)
Definition run (turns realm_id virtual_node : nat) : CM unit := sys (run_realm_node turns realm_id virtual_node).
Definition hack_run (realm_id : nat) : CM unit := sys (hack_run_realm realm_id).
Definition benchmark_start : CM unit := _ ← sys (host_direct BenchmarkUtilisationStart); mret tt.
Definition benchmark_finish : CM unit := _ ← sys (host_direct BenchmarkUtilisationFinish); mret tt.

(** [value_of(..).unwrap()], and [.parse()?] of a [usize]. *)
Definition value (sc : SubCommand) (arg : string) : CM (list Z) := lift (unwrap (value_of sc arg)).
Definition number (sc : SubCommand) (arg : string) : CM nat :=
  s ← value sc arg;
  match parse_usize s with inl v => mret (Z.to_nat v) | inr e => throw (inr e) end.
Definition is_name (s : list Z) (lit : string) : bool := bool_decide (s = bytes_of_string lit).

Definition main (turns : nat) (subcommand : option SubCommand) : CM unit :=
  match subcommand with
  | None => panic
  | Some sc =>
    if is_name (name sc) "create" then
      realm_id ← number sc "REALM_ID"; spec ← value sc "SPEC"; create realm_id spec
    else if is_name (name sc) "destroy" then
      realm_id ← number sc "REALM_ID"; destroy realm_id
    else if is_name (name sc) "run" then
      realm_id ← number sc "REALM_ID"; virtual_node ← number sc "VIRTUAL_NODE"; run turns realm_id virtual_node
    else if is_name (name sc) "hack-run" then
      realm_id ← number sc "REALM_ID"; hack_run realm_id
    else if is_name (name sc) "benchmark" then
      c ← value sc "BENCHMARK_COMMAND";
      if is_name c "start" then benchmark_start
      else if is_name c "finish" then benchmark_finish
      else panic
    else panic
  end.

Lemma number_eq sc arg n w : value_of sc arg = Some (decimal (Z.of_nat n)) → (Z.of_nat n < 2 ^ 64)%Z → number sc arg w = (Ok n, w).
Proof.
  intros Hv Hn. unfold number, value. erewrite bind_eq_ok by (unfold lift; by rewrite Hv).
  unfold parse_usize. rewrite parse_int_decimal by lia. by rewrite Nat2Z.id.
Qed.

Ltac pick_command := repeat
  match goal with
  | |- context [is_name (bytes_of_string ?s) ?l] =>
    let b := eval vm_compute in (is_name (bytes_of_string s) l) in change (is_name (bytes_of_string s) l) with b; cbv iota
  end.

(** With numbers as they are printed, a command does what the tool does with them. *)
Lemma commands_run turns sc realm_id w : value_of sc "REALM_ID" = Some (decimal (Z.of_nat realm_id)) → (Z.of_nat realm_id < 2 ^ 64)%Z →
  (name sc = bytes_of_string "create" → ∀ path spec w', value_of sc "SPEC" = Some path → fs_read path w = (Ok spec, w') →
     main turns (Some sc) w = sys (create_realm take_model realm_id spec bulk_transport_chunk_size) w') ∧
  (name sc = bytes_of_string "destroy" → main turns (Some sc) w = sys (destroy_realm realm_id) w) ∧
  (name sc = bytes_of_string "run" → ∀ node, value_of sc "VIRTUAL_NODE" = Some (decimal (Z.of_nat node)) → (Z.of_nat node < 2 ^ 64)%Z →
     main turns (Some sc) w = sys (run_realm_node turns realm_id node) w) ∧
  (name sc = bytes_of_string "hack-run" → main turns (Some sc) w = sys (hack_run_realm realm_id) w).
Proof.
  intros Hv Hid. pose proof (number_eq sc "REALM_ID" realm_id w Hv Hid) as Hn.
  split_and!; intros Hname; unfold main; rewrite Hname; pick_command;
    try (by rewrite (bind_eq_ok _ _ _ _ _ Hn)).
  - intros path spec w' Hp Hf. rewrite (bind_eq_ok _ _ _ _ _ Hn).
    erewrite bind_eq_ok by (unfold value, lift; by rewrite Hp). unfold create.
    erewrite bind_eq_ok by (unfold sys; by rewrite Hf). done.
  - intros node Hvn Hnn. rewrite (bind_eq_ok _ _ _ _ _ Hn). by rewrite (bind_eq_ok _ _ _ _ _ (number_eq sc _ node w Hvn Hnn)).
Qed.

(** A realm that cannot be read as a number is refused before anything is done. *)
Lemma bad_number turns sc s e w : value_of sc "REALM_ID" = Some s → parse_usize s = inr e →
  name sc ∈ bytes_of_string <$> ["create"; "destroy"; "run"; "hack-run"] → main turns (Some sc) w = (Err (inr e), w).
Proof.
  intros Hv He Hname. assert (number sc "REALM_ID" w = (Err (inr e), w)) as Hn.
  { unfold number, value. erewrite bind_eq_ok by (unfold lift; by rewrite Hv). by rewrite He. }
  unfold main. apply list_elem_of_fmap in Hname as (cmd & -> & Hcmd). rewrite !elem_of_cons in Hcmd.
  destruct Hcmd as [->|[->|[->|[->|[]%elem_of_nil]]]]; pick_command;
    unfold mbind, M_bind; by rewrite Hn.
Qed.
Lemma unknown_command turns sc w :
  name sc ∉ bytes_of_string <$> ["create"; "destroy"; "run"; "hack-run"; "benchmark"] → main turns (Some sc) w = (Panic, w).
Proof.
  intros Hname. unfold main, is_name. rewrite !bool_decide_eq_false_2; [done|set_solver..].
Qed.
End commands.
