(* ===== verification/LoaderSpec.v ===== *)
(** * LoaderSpec: the dynamic loader behind the resource server

    The resource server is proved against the class [RealizerLaws]: the threads of a subsystem are its
    own.  Here the dynamic loader is shown to be such a realizer.  A thread of a realm is named
    by the pointer to its capability, which leads through the slot of the allocator's region that
    holds the realm's node, and no slot holds the nodes of two realms. *)

From stdpp Require Import strings.
From S2P Require Import Prelude.
From S2P Require Import Sel4.
From S2P Require Import CRegion.
From S2P Require Import Allocator.
From S2P Require Import AllocatorTree.
From S2P Require Import AllocatorSpec.
From S2P Require Import AllocatorProps.
From S2P Require Import Dyndl.
From S2P Require Import Realize.
From S2P Require Import RealizeSpec.
From S2P Require Import ResourceServer.
From S2P Require Import ResourceServerSpec.
From S2P Require Import HostToolSpec.

(** ** The allocator's region stays where it is *)
Section shape.
Context {K : Type} `{!Sel4 K} (sh : RelativeCPtr * Z * Z * nat).
Definition shaped (s : Allocator * K) : Prop := shape (cregion s.1) = sh.

Lemma kernel_op_shaped {X} (m : M K Error X) : preserves shaped (kernel_op m).
Proof. intros [a k] Hs. unfold kernel_op. simpl. by destruct (m k). Qed.
Lemma put_shaped f : (∀ a, cregion (f a) = cregion a) → preserves shaped (put f : M (Allocator * K) Error unit).
Proof. intros Hf [a k] Hs. unfold shaped. simpl. by rewrite Hf. Qed.
Lemma get_shaped {X} (f : Allocator → X) : preserves shaped (get f : M (Allocator * K) Error X).
Proof. apply preserves_gets. Qed.
Lemma alloc_slot_shaped : preserves shaped (alloc_slot : M (Allocator * K) Error Slot).
Proof.
  intros [a k] Hs. unfold alloc_slot, get, put, gets, modify, lift, mbind, M_bind. simpl.
  destruct (alloc (cregion a)) as [[o c']| |] eqn:Ha; [|done..]. simpl. apply alloc_shape in Ha.
  unfold shaped in *. simpl in *. rewrite <-Hs, <-Ha. done.
Qed.
Lemma free_slot_shaped slot : preserves shaped (free_slot slot : M (Allocator * K) Error unit).
Proof.
  intros [a k] Hs. unfold free_slot, get, put, gets, modify, lift, mbind, M_bind. simpl.
  destruct (free slot (cregion a)) as [c'| |] eqn:Ha; [|done..]. simpl. apply free_shape in Ha.
  unfold shaped in *. simpl in *. by rewrite <-Hs, <-Ha.
Qed.
#[local] Hint Resolve kernel_op_shaped get_shaped alloc_slot_shaped free_slot_shaped : preserves.
#[local] Hint Extern 1 (preserves shaped (put _)) => (apply put_shaped; done) : preserves.

Lemma take_leaf_shaped id : preserves shaped (take_leaf id : M (Allocator * K) Error unit).
Proof. unfold take_leaf. auto with preserves. Qed.
Lemma give_leaf_shaped id : preserves shaped (give_leaf id : M (Allocator * K) Error unit).
Proof. unfold give_leaf. auto with preserves. Qed.
Lemma write_node_shaped id new : preserves shaped (write_node id new : M (Allocator * K) Error unit).
Proof. unfold write_node. auto with preserves. Qed.
#[local] Hint Resolve take_leaf_shaped give_leaf_shaped write_node_shaped : preserves.

Lemma split_down_shaped n id : preserves shaped (split_down n id).
Proof.
  revert id. induction n as [|n IH]; intros id; cbn [split_down]; [auto with preserves|].
  apply preserves_bind; [unfold split_untyped; auto 30 with preserves|auto with preserves].
Qed.
#[local] Hint Resolve split_down_shaped : preserves.
Lemma create_object_shaped dst slot bp : preserves shaped (create_object dst slot bp).
Proof. unfold create_object. auto 30 with preserves. Qed.
#[local] Hint Resolve create_object_shaped : preserves.
Lemma create_cnode_shaped rx : preserves shaped (create_cnode rx).
Proof. unfold create_cnode. auto 30 with preserves. Qed.
Lemma create_objects_shaped cr bps : preserves shaped (create_objects cr bps).
Proof.
  revert cr. induction bps as [|bp bps IH]; intros cr; cbn [create_objects]; [auto with preserves|].
  do 3 (apply preserves_bind; [auto with preserves|intros ?]). apply preserves_bind; [apply IH|].
  intros [[c' slots] ids]. auto with preserves.
Qed.

Lemma clean_child_shaped o id : preserves shaped (clean_child o id).
Proof. destruct o; unfold clean_child; auto with preserves. Qed.
#[local] Hint Resolve clean_child_shaped : preserves.
Lemma merge_children_shaped node low high d : preserves shaped (merge_children node low high d).
Proof. destruct node as [t l r]. unfold merge_children. auto 30 with preserves. Qed.
#[local] Hint Resolve merge_children_shaped : preserves.
Lemma revoke_and_free_shaped id : preserves shaped (revoke_and_free id).
Proof.
  assert (∀ node low high d, preserves shaped (revoke_and_free_helper node low high d id)) as Hh.
  { fix IH 1. intros [t l r] low high d. cbn [revoke_and_free_helper].
    case_decide; [auto 30 with preserves|]. apply preserves_bind; [auto with preserves|intros _].
    apply preserves_bind; [|auto with preserves]. case_decide.
    - destruct l as [l'|]; [|auto with preserves]. apply preserves_bind; [apply IH|auto with preserves].
    - destruct r as [r'|]; [|auto with preserves]. apply preserves_bind; [apply IH|auto with preserves]. }
  unfold revoke_and_free. auto with preserves.
Qed.
End shape.

(** ** Pointers to the capabilities of a realm *)
Definition region_depth (c : CRegion) : nat := depth (path (cr_root c)) + Z.to_nat (guard_size c) + radix c.
(** The slot of the allocator's region that a pointer leads through. *)
Definition realm_slot (c : CRegion) (t : Z) : Z :=
  Z.land (Z.shiftr t (64 - Z.of_nat (region_depth c))) (Z.ones (Z.of_nat (radix c))).

Lemma slot_high_bit sl rx i : sl < 2 ^ rx → (Z.of_nat rx ≤ i)%Z → Z.testbit (Z.of_nat sl) i = false.
Proof.
  intros Hs Hi. rewrite <-(Z.mod_small (Z.of_nat sl) (2 ^ Z.of_nat rx)).
  - apply Z.mod_pow2_bits_high. lia.
  - split; [lia|]. rewrite <-(Nat2Z.inj_pow 2). lia.
Qed.
Lemma land_ones_bits t rx sl : sl < 2 ^ rx →
  (∀ i, (0 ≤ i < Z.of_nat rx)%Z → Z.testbit t i = Z.testbit (Z.of_nat sl) i) → Z.land t (Z.ones (Z.of_nat rx)) = Z.of_nat sl.
Proof.
  intros Hs Hb. apply Z.bits_inj'. intros i Hi. rewrite Z.land_spec, Z.testbit_ones by lia.
  destruct (Z.lt_ge_cases i (Z.of_nat rx)) as [Hlt|Hge].
  - rewrite Hb by lia. rewrite (proj2 (Z.leb_le 0 i)), (proj2 (Z.ltb_lt i (Z.of_nat rx))) by lia. by rewrite !andb_true_r.
  - rewrite (slot_high_bit sl rx) by done. rewrite (proj2 (Z.ltb_ge i (Z.of_nat rx))) by lia. by rewrite !andb_false_r.
Qed.

Lemma cptr_slot_bits c slot i : (0 ≤ i < Z.of_nat (radix c))%Z →
  Z.testbit (cptr (cptr_with_depth c slot)) i = Z.testbit (Z.of_nat slot) i.
Proof.
  intros Hi. unfold cptr_with_depth. cbn [cptr]. rewrite Z.lor_spec, testbit_word_shl by lia.
  rewrite (Z.testbit_neg_r _ (i - _)) by lia. by rewrite andb_false_r.
Qed.
Lemma cptr_high_bits c slot i : slot < 2 ^ radix c → (0 ≤ guard_size c)%Z → guard c = 0%Z →
  (0 ≤ i)%Z → (i + Z.of_nat (radix c) + guard_size c < 64)%Z →
  Z.testbit (cptr (cptr_with_depth c slot)) (i + Z.of_nat (radix c) + guard_size c) = Z.testbit (cptr (path (cr_root c))) i.
Proof.
  intros Hs Hg H0 Hi Hlt. unfold cptr_with_depth. cbn [cptr]. rewrite H0, Z.lor_0_r, Z.lor_spec, !testbit_word_shl by lia.
  rewrite (slot_high_bit slot (radix c)), orb_false_r by (done || lia). rewrite !bool_decide_true by lia. simpl. f_equal. lia.
Qed.

(** A pointer ends with its slot. *)
Lemma own_pointer cr sl t : sl < 2 ^ radix cr → local_cptr (E := Failure) (cptr_with_depth cr sl) = Ok t →
  Z.land t (Z.ones (Z.of_nat (radix cr))) = Z.of_nat sl ∧ (0 ≤ t)%Z.
Proof.
  intros Hsl Ht. unfold local_cptr in Ht. case_decide; [|done].
  assert (t = cptr (cptr_with_depth cr sl)) as -> by congruence. split.
  - apply land_ones_bits; [done|]. intros i Hi. by apply cptr_slot_bits.
  - unfold cptr_with_depth. cbn [cptr]. apply Z.lor_nonneg. split; [apply is_word_shl; lia|lia].
Qed.

(** A pointer to a capability of a realm leads through the realm's slot. *)
Lemma realm_pointer c rs cr sl t :
  realm_region c rs cr → rs < 2 ^ radix c → sl < 2 ^ radix cr →
  local_cptr (E := Failure) (cptr_with_depth cr sl) = Ok t → realm_slot c t = Z.of_nat rs.
Proof.
  unfold realm_region, shape. intros Hreg Hrs Hsl Ht. injection Hreg as Hroot Hg Hgs.
  unfold local_cptr in Ht. case_decide as Hd; [|done].
  assert (t = cptr (cptr_with_depth cr sl)) as -> by congruence. clear Ht.
  assert (0 ≤ guard_size cr)%Z as Hge by (rewrite Hgs; apply is_word_cast; lia).
  assert (depth (path (cr_root cr)) = region_depth c) as Hdep by by rewrite Hroot.
  unfold cptr_with_depth in Hd. cbn [depth] in Hd. rewrite Hdep in Hd. apply land_ones_bits; [done|]. intros i Hi.
  rewrite Z.shiftr_spec by lia.
  replace (i + (64 - Z.of_nat (region_depth c)))%Z with (i + Z.of_nat (radix cr) + guard_size cr)%Z by lia.
  rewrite cptr_high_bits by (done || (unfold region_depth in Hd; lia)). rewrite Hroot. unfold cr_relative_cptr. cbn [path].
  by apply cptr_slot_bits.
Qed.

(** ** The threads of a subsystem *)
Section threads.
Context {K : Type} `{!Sel4 K} `{!Realize.Platform K}.

(** The pointers to the objects of a subsystem that is being built. *)
Definition slot_pointer (cr : CRegion) (sl : Slot) : option CPtr :=
  match local_cptr (E := Failure) (cptr_with_depth cr sl) with Ok t => Some t | _ => None end.
Definition pointers (p : PartialSubsystem) : list CPtr := omap (slot_pointer (p_cregion p)) (local_object_slots p).

Record partial_ok (p : PartialSubsystem) : Prop := {
  po_view : model_view p = model_view_new (model p);
  po_nodup : NoDup (local_object_slots p);
  po_slots : Forall (λ sl, sl < 2 ^ radix (p_cregion p)) (local_object_slots p);
}.

Definition is_local_object (m : Model) (i : nat) : Prop := ∃ top o, objects m !! i = Some top ∧ object top = Local o.
(** The pointers of distinct objects are distinct, and among those of the subsystem. *)
Definition object_pointer (p : PartialSubsystem) (i : nat) : option CPtr :=
  j ← reverse (model_view p) !! i; sl ← local_object_slots p !! j; slot_pointer (p_cregion p) sl.

Lemma object_pointer_in p i t : object_pointer p i = Some t → t ∈ pointers p.
Proof.
  unfold object_pointer. destruct (reverse _ !! i) as [j|]; simpl; [|done]. destruct (_ !! j) as [sl|] eqn:Hsl; simpl; [|done].
  intros Ht. apply list_elem_of_omap. exists sl. split; [by eapply list_elem_of_lookup_2|done].
Qed.
Lemma object_pointer_inj p i i' t : partial_ok p → is_local_object (model p) i → is_local_object (model p) i' →
  object_pointer p i = Some t → object_pointer p i' = Some t → i = i'.
Proof.
  intros [Hv Hnd Hall] (top & o & Hi & Ho) (top' & o' & Hi' & Ho'). unfold object_pointer. rewrite Hv.
  destruct (model_view_inverse (model p) i top Hi) as (j & -> & Hj). destruct (model_view_inverse (model p) i' top' Hi') as (j' & -> & Hj').
  rewrite Ho in Hj. rewrite Ho' in Hj'. simpl.
  destruct (local_object_slots p !! j) as [sl|] eqn:Hsl; simpl; [|done].
  destruct (local_object_slots p !! j') as [sl'|] eqn:Hsl'; simpl; [|done].
  unfold slot_pointer. destruct (local_cptr (cptr_with_depth _ sl)) as [t1| |] eqn:Ht1; [|done..]. intros [= ->].
  destruct (local_cptr (cptr_with_depth _ sl')) as [t2| |] eqn:Ht2; [|done..]. intros [= ->].
  destruct (own_pointer _ _ _ (Forall_lookup_1 _ _ _ _ Hall Hsl) Ht1) as [E1 _].
  destruct (own_pointer _ _ _ (Forall_lookup_1 _ _ _ _ Hall Hsl') Ht2) as [E2 _].
  assert (sl = sl') as -> by lia. assert (j = j') as -> by by eapply NoDup_lookup. congruence.
Qed.

(** The threads of the cores, in the order of the cores. *)
Definition core_pointers (cores : list VirtualCore) : list CPtr := concat ((λ c, vc_cap <$> Realize.tcbs c) <$> cores).

Lemma core_pointers_add cores i core t : cores !! i = Some core →
  core_pointers (<[i := {| Realize.tcbs := Realize.tcbs core ++ [t] |}]> cores) ≡ₚ core_pointers cores ++ [vc_cap t].
Proof.
  intros Hi. rewrite <-(take_drop_middle _ _ _ Hi) at 2. rewrite insert_take_drop by by eapply lookup_lt_Some.
  unfold core_pointers. rewrite !fmap_app, !concat_app. simpl. rewrite fmap_app. simpl. solve_Permutation.
Qed.

Lemma init_tcbs_pointers res m caps ts cores s cores' s' :
  init_tcbs res m caps ts cores s = (Ok cores', s') →
  ∃ cs, Forall2 (λ (p : nat * ObjTCB_) t, caps !! p.1 = Some t) ts cs ∧ core_pointers cores' ≡ₚ core_pointers cores ++ cs.
Proof.
  revert cores s. induction ts as [|[i o] ts IH]; intros cores s; cbn [init_tcbs].
  { intros [= -> _]. exists []. by rewrite app_nil_r. }
  intros (tcb & s1 & Hcap & (top & s2 & Htop & ([] & s3 & _ & (core & s4 & Hcore & Hrun)%bind_ok_inv)%bind_ok_inv)%bind_ok_inv)%bind_ok_inv.
  apply lift_ok_inv in Hcap as [Hcap%unwrap_ok_inv _]. apply lift_ok_inv in Hcore as [Hcore%unwrap_ok_inv _].
  apply IH in Hrun as (cs & Hcs & Hp). exists (tcb :: cs). split; [by constructor|].
  rewrite Hp, core_pointers_add by done. by rewrite <-app_assoc.
Qed.
(** The objects of a kind are local, and each is there once. *)
Lemma it_i_local {X} m (as_kind : Obj → option X) i x : (i, x) ∈ it_i m as_kind → is_local_object m i.
Proof.
  unfold it_i. rewrite list_elem_of_omap. intros ([i' top] & Hin & Hk). simpl in Hk.
  apply elem_of_lookup_imap in Hin as (n & top' & Heq & Hn). simplify_eq.
  destruct (object top') as [o|] eqn:Ho; [|done]. destruct (as_kind o); simplify_eq/=. by exists top', o.
Qed.
Lemma it_i_once {X} m (as_kind : Obj → option X) : NoDup (it_i m as_kind).*1.
Proof.
  unfold it_i. assert (∀ (l : list TopObj) k, let r := omap (λ p : nat * TopObj,
    match object p.2 with Local o => pair p.1 <$> as_kind o | Extern_ _ => None end) (imap (λ i t, (k + i, t)) l) in
    NoDup r.*1 ∧ Forall (λ i, k ≤ i) r.*1) as Hgen.
  2:{ apply (Hgen (objects m) 0). }
  induction l as [|t l IH]; intros k; [by split; constructor|]. cbn [imap omap list_omap].
  specialize (IH (S k)). cbv zeta in IH.
  rewrite (imap_ext _ (λ i t, (S k + i, t))) by (intros; simpl; f_equal; lia). destruct IH as [IH1 IH2].
  assert (Forall (λ i, k ≤ i) (omap (λ p : nat * TopObj,
    match object p.2 with Local o => pair p.1 <$> as_kind o | Extern_ _ => None end) (imap (λ i t, (S k + i, t)) l)).*1) as IH3.
  { eapply Forall_impl; [exact IH2|]. intros; simpl in *; lia. }
  simpl. destruct (object t) as [o|]; [|by split]. destruct (as_kind o) as [x|]; [|by split]. simpl.
  rewrite Nat.add_0_r. split; [|by constructor]. constructor; [|done]. rewrite Forall_forall in IH2. intros Hin%IH2. lia.
Qed.

Lemma NoDup_pointers p ts cs : partial_ok p → NoDup ts →
  Forall2 (λ i t, is_local_object (model p) i ∧ object_pointer p i = Some t) ts cs → NoDup cs ∧ cs ⊆ pointers p.
Proof.
  intros Hok Hnd Hall. induction Hall as [|i t ts cs [Hl Ht] Hall IH]; [split; [constructor|set_solver]|].
  apply NoDup_cons in Hnd as [Hi Hnd]. destruct (IH Hnd) as [IH1 IH2]. apply object_pointer_in in Ht as Hin.
  split; [|set_solver]. constructor; [|done]. intros [n Hn]%list_elem_of_lookup.
  destruct (Forall2_lookup_r _ _ _ _ _ Hall Hn) as (i' & Hi' & Hl' & Ht').
  apply Hi. rewrite (object_pointer_inj p i i' t) by done. by eapply list_elem_of_lookup_2.
Qed.

(** The capabilities that [realize_finish] initializes with. *)
Lemma all_caps_pointer p (caps extern_caps : list CPtr) i :
  map_outcome (λ it : nat * TopObj, match object it.2 with
    | Local _ => c ← object_cptr p it.1; local_cptr c
    | Extern_ _ => r ← index (reverse (model_view p)) it.1; index extern_caps r
    end) (imap pair (objects (model p))) = Ok (E := Failure) caps →
  is_local_object (model p) i → object_pointer p i = caps !! i.
Proof.
  intros Hmap (top & o & Hi & Ho). destruct (map_outcome_lookup _ _ _ i (i, top) Hmap) as (t & -> & Ht).
  { by rewrite list_lookup_imap, Hi. }
  simpl in Ht. rewrite Ho in Ht. apply outcome_bind_ok in Ht as (c & Hc & Ht). unfold object_cptr in Hc.
  apply outcome_bind_ok in Hc as (j & Hj%unwrap_ok_inv & Hc). apply outcome_bind_ok in Hc as (sl & Hsl%unwrap_ok_inv & [= <-]).
  unfold object_pointer, slot_pointer. rewrite Hj. simpl. rewrite Hsl. simpl. by rewrite Ht.
Qed.

Lemma realize_finish_pointers p (s : Realize.Realizer * K) sub s' : partial_ok p → Realize.realize_finish p s = (Ok sub, s') →
  NoDup (core_pointers (Realize.virtual_cores sub)) ∧ core_pointers (Realize.virtual_cores sub) ⊆ pointers p.
Proof.
  intros Hok Hrun. unfold Realize.realize_finish in Hrun.
  apply bind_ok_inv in Hrun as ([taken ecaps] & s1 & _ & Hrun). apply bind_ok_inv in Hrun as (caps & s2 & Hcaps & Hrun).
  apply lift_ok_inv in Hcaps as [Hcaps ->]. apply bind_ok_inv in Hrun as (res & s3 & _ & Hrun).
  apply bind_ok_inv in Hrun as (cores & s4 & Hinit & Hrun). injection Hrun as <- _. cbn [Realize.virtual_cores].
  apply zoom_ok_inv in Hinit as (t & Hinit & _). unfold initialize in Hinit.
  apply bind_ok_inv in Hinit as ([] & t1 & _ & Hinit). apply bind_ok_inv in Hinit as ([] & t2 & _ & Hinit).
  apply init_tcbs_pointers in Hinit as (cs & Hcs & ->).
  assert (core_pointers (replicate (num_nodes (model p)) {| Realize.tcbs := [] |}) = []) as ->.
  { generalize (num_nodes (model p)). induction n as [|n IH]; [done|]. exact IH. }
  destruct (NoDup_pointers p (it_i (model p) as_TCB).*1 cs Hok (it_i_once _ _)) as [H1 H2]; [|by split].
  apply Forall2_fmap_l, Forall2_same_length_lookup. split; [by eapply Forall2_length|]. intros n [i o] ptr Hi Hp.
  pose proof (Forall2_lookup_lr _ _ _ _ _ _ Hcs Hi Hp) as Hcap. apply list_elem_of_lookup_2, it_i_local in Hi. simpl in *.
  split; [done|]. by rewrite (all_caps_pointer p caps ecaps).
Qed.
End threads.

(** ** The laws *)
Section laws.
Context {K : Type} `{!Sel4 K} `{!Realize.Platform K} `{!Decoders}.

(** What owns threads: a subsystem that is being built, or one that was. *)
Inductive LoaderOwner :=
| OwnPartial (p : PartialSubsystem)
| OwnSubsystem (sub : Subsystem).
Definition owner_ids (o : LoaderOwner) : list UntypedId :=
  match o with OwnPartial p => partial_ids p | OwnSubsystem sub => subsystem_ids sub end.
Definition owner_pointers (o : LoaderOwner) : list CPtr :=
  match o with OwnPartial p => pointers p | OwnSubsystem sub => core_pointers (Realize.virtual_cores sub) end.
Definition owner_threads (o : LoaderOwner) : gset TCB := list_to_set (Z.to_nat <$> owner_pointers o).
Definition owner_ok (o : LoaderOwner) : Prop := match o with OwnPartial p => partial_ok p | OwnSubsystem _ => True end.

(** A thread lies under a slot that is in use and that the tree does not know. *)
Definition thread_placed (a : Allocator) (t : TCB) : Prop :=
  let rs := Z.to_nat (realm_slot (cregion a) (Z.of_nat t)) in
  slot_used (cregion a) rs ∧ rs ∉ tree_slots (cap_derivation_tree a).

Record loader_ok (s : Realize.Realizer * K) (l : list LoaderOwner) : Prop := {
  lo_wf : wf (allocator s.1);
  lo_used : used_ids (cap_derivation_tree (allocator s.1)) ≡ₚ mjoin (owner_ids <$> l);
  lo_disjoint : all_disjoint (owner_threads <$> l);
  lo_owners : Forall owner_ok l;
  lo_placed : ∀ t, t ∈ ⋃ (owner_threads <$> l) → thread_placed (allocator s.1) t;
}.

Lemma loader_ok_perm s l l' : l ≡ₚ l' → loader_ok s l → loader_ok s l'.
Proof. intros Hp [Hwf Hu Hd Ho Ht]. split; [done|by rewrite <-Hp..|]. intros t. rewrite <-Hp. apply Ht. Qed.

Lemma realm_slot_shape c c' t : shape c' = shape c → realm_slot c' t = realm_slot c t.
Proof. unfold shape, realm_slot, region_depth. intros Hs. injection Hs as -> _ -> ->. done. Qed.

(** What keeps the slots that are in use outside of the tree keeps the threads where they are. *)
Lemma thread_placed_keeps a a' t : shape (cregion a') = shape (cregion a) →
  (∀ sl, slot_used (cregion a) sl → sl ∉ tree_slots (cap_derivation_tree a) →
    slot_used (cregion a') sl ∧ sl ∉ tree_slots (cap_derivation_tree a')) →
  thread_placed a t → thread_placed a' t.
Proof. intros Hs Hkeep [Hu Hn]. unfold thread_placed. rewrite (realm_slot_shape _ _ _ Hs). by apply Hkeep. Qed.

Lemma alloc_op_shape {X} (m : M (Allocator * K) Error X) (s : Realize.Realizer * K) :
  (∀ sh, preserves (shaped sh) m) → shape (cregion (allocator (alloc_op m s).2.1)) = shape (cregion (allocator s.1)).
Proof.
  intros Hm. specialize (Hm _ (allocator s.1, s.2) eq_refl). unfold alloc_op, zoom, shaped in *. simpl in *.
  by destruct (m (allocator s.1, s.2)) as [[] [a k]].
Qed.
Lemma alloc_op_shape_ok {X} (m : M (Allocator * K) Error X) (s s' : Realize.Realizer * K) x :
  (∀ sh, preserves (shaped sh) m) → alloc_op m s = (Ok x, s') → shape (cregion (allocator s'.1)) = shape (cregion (allocator s.1)).
Proof. intros Hm Hrun. pose proof (alloc_op_shape m s Hm) as Hs. by rewrite Hrun in Hs. Qed.

Lemma start_shape m (s s' : Realize.Realizer * K) p : Realize.realize_start m s = (Ok p, s') →
  shape (cregion (allocator s'.1)) = shape (cregion (allocator s.1)).
Proof.
  unfold Realize.realize_start. intros Hrun. do 3 (apply bind_ok_inv in Hrun as (? & ? & [_ ->]%lift_ok_inv & Hrun)).
  apply bind_ok_inv in Hrun as (b & s1 & Hg & Hrun). injection Hg as _ <-.
  apply bind_ok_inv in Hrun as ([] & s1 & Hb & Hrun). destruct b; [|done]. injection Hb as <-.
  apply bind_ok_inv in Hrun as ([[cr id] rs] & s1 & H1 & Hrun). apply bind_ok_inv in Hrun as ([[cr2 slots] ids] & s2 & H2 & Hrun).
  injection Hrun as _ <-. apply alloc_op_shape_ok in H1; [|intros; apply create_cnode_shaped].
  apply alloc_op_shape_ok in H2; [|intros; apply create_objects_shaped]. congruence.
Qed.
Lemma destroy_shape sub (s s' : Realize.Realizer * K) : Realize.destroy sub s = (Ok tt, s') →
  shape (cregion (allocator s'.1)) = shape (cregion (allocator s.1)).
Proof.
  assert (∀ ids (t t' : Realize.Realizer * K), for_each (λ id, alloc_op (revoke_and_free id)) ids t = (Ok tt, t') →
    shape (cregion (allocator t'.1)) = shape (cregion (allocator t.1))) as Hloop.
  { induction ids as [|id ids IH]; intros t t'; simpl; [by intros [= <-]|].
    intros ([] & t1 & H1 & H2)%bind_ok_inv. apply IH in H2. apply alloc_op_shape_ok in H1; [congruence|].
    intros; apply revoke_and_free_shaped. }
  unfold Realize.destroy. intros ([] & s1 & H1 & ([] & s2 & H2 & Hrun)%bind_ok_inv)%bind_ok_inv. injection Hrun as <-.
  apply Hloop in H2. apply alloc_op_shape_ok in H1; [|intros; apply revoke_and_free_shaped]. simpl. congruence.
Qed.

Lemma pointers_nonneg p : partial_ok p → Forall (λ t, 0 ≤ t)%Z (pointers p).
Proof.
  intros [_ _ Hall]. apply Forall_forall. intros t Ht. unfold pointers in Ht. apply list_elem_of_omap in Ht as (sl & Hsl & Ht).
  unfold slot_pointer in Ht. destruct (local_cptr _) as [t'| |] eqn:Hl; simplify_eq.
  rewrite Forall_forall in Hall. eapply own_pointer; [|exact Hl]. by apply Hall.
Qed.

(** *** Starting *)
Lemma started_threads_placed (a : Allocator) rs p t :
  realm_region (cregion a) rs (p_cregion p) → rs < 2 ^ radix (cregion a) → partial_ok p → t ∈ owner_threads (OwnPartial p) →
  Z.to_nat (realm_slot (cregion a) (Z.of_nat t)) = rs.
Proof.
  intros Hreg Hrs Hp Ht. unfold owner_threads in Ht. rewrite elem_of_list_to_set, list_elem_of_fmap in Ht.
  destruct Ht as (ptr & -> & Hptr). pose proof (pointers_nonneg p Hp) as Hnn. rewrite Forall_forall in Hnn.
  rewrite Z2Nat.id by by apply Hnn. apply list_elem_of_omap in Hptr as (sl & Hsl & Hptr). unfold slot_pointer in Hptr.
  destruct (local_cptr _) as [t'| |] eqn:Hl; simplify_eq.
  rewrite (realm_pointer (cregion a) rs (p_cregion p) sl ptr); [apply Nat2Z.id|done|done| |done].
  pose proof (po_slots p Hp) as Hall. rewrite Forall_forall in Hall. by apply Hall.
Qed.

Lemma loader_start m s p s' l : loader_ok s l → Realize.realize_start m s = (Ok p, s') → loader_ok s' (OwnPartial p :: l).
Proof.
  intros [Hwf Hu Hd Ho Ht] Hrun. pose proof (start_shape _ _ _ _ Hrun) as Hsh. destruct s as [r k]. cbn [fst] in *.
  apply (mspec_ok _ _ _ _ _ _ (realize_start_spec m r k Hwf)) in Hrun
    as (ids & new & rs & Hids & Hev & Hrs & Hm & Hview & _ & _ & _ & _ & Hreg & Hnd & Hslots).
  assert (partial_ok p) as Hp by (split; [by rewrite Hview, Hm|done|done]).
  assert (slot_free (cregion (allocator r)) rs) as Hfree.
  { pose proof (ev_free _ _ _ _ Hev) as Hf. rewrite Forall_forall in Hf. apply Hf, elem_of_app. right. constructor. }
  assert (rs < 2 ^ radix (cregion (allocator r))) as Hlt by (apply (proj1 Hwf); by eexists).
  simpl in Hsh. split.
  - apply Hev.
  - rewrite (ev_used _ _ _ _ Hev), Hids, Hu. done.
  - cbn [fmap list_fmap all_disjoint]. split; [|done]. intros t Hp' Hold. apply Ht in Hold as [Hused _].
    rewrite (started_threads_placed _ rs p t) in Hused by done. unfold slot_used, slot_free in *. congruence.
  - by constructor.
  - intros t. cbn [fmap list_fmap union_list foldr]. rewrite elem_of_union. intros [Hin|Hin].
    + unfold thread_placed. rewrite (realm_slot_shape _ _ _ Hsh), (started_threads_placed _ rs p t) by done.
      split; [|done]. unfold slot_used. rewrite (ev_region _ _ _ _ Hev), decide_True; [done|]. apply elem_of_app. right. constructor.
    + apply (thread_placed_keeps (allocator r)); [done| |by apply Ht]. intros sl Hsl Hnot.
      assert (sl ∉ new ++ [rs]) as Hnew.
      { pose proof (ev_free _ _ _ _ Hev) as Hf. rewrite Forall_forall in Hf. intros Hin'%Hf. unfold slot_used, slot_free in *. congruence. }
      split; [unfold slot_used; by rewrite (ev_region _ _ _ _ Hev), decide_False|].
      by intros [?|?]%(ev_slots _ _ _ _ Hev).
Qed.

(** *** Filling and finishing *)
Lemma loader_same s s' l : allocator s'.1 = allocator s.1 → loader_ok s l → loader_ok s' l.
Proof. intros Heq [Hwf Hu Hd Ho Ht]. split; rewrite ?Heq; done. Qed.

Lemma thread_list sub :
  threads_of (ResourceServer.virtual_cores sub) = Z.to_nat <$> core_pointers (Realize.virtual_cores sub).
Proof.
  unfold threads_of, core_pointers. cbn [ResourceServer.virtual_cores dyndl_realizer].
  induction (Realize.virtual_cores sub) as [|core cores IH]; [done|]. rewrite !fmap_cons. cbn [concat].
  rewrite IH, fmap_app. f_equal. by rewrite <-!list_fmap_compose.
Qed.

Lemma loader_finish p s sub s' l : loader_ok s (OwnPartial p :: l) → Realize.realize_finish p s = (Ok sub, s') →
  NoDup (threads_of (ResourceServer.virtual_cores sub)) ∧ loader_ok s' (OwnSubsystem sub :: l).
Proof.
  intros Hok Hrun. pose proof Hok as [Hwf Hu Hd Ho Ht]. apply Forall_cons in Ho as [Hp Ho].
  destruct (realize_finish_pointers p s sub s' Hp Hrun) as [Hnd Hsub]. destruct s as [r k].
  apply (mspec_ok _ _ _ _ _ _ (realize_finish_spec p r k)) in Hrun as (Hids & Ha & _).
  pose proof (pointers_nonneg p Hp) as Hnn. rewrite Forall_forall in Hnn.
  assert (owner_threads (OwnSubsystem sub) ⊆ owner_threads (OwnPartial p)) as Hincl.
  { unfold owner_threads. intros t. rewrite !elem_of_list_to_set, !list_elem_of_fmap. intros (x & -> & Hx). exists x.
    split; [done|]. by apply Hsub. }
  split.
  - rewrite thread_list. apply NoDup_fmap_2_strong; [|done]. intros x y Hx%Hsub%Hnn Hy%Hsub%Hnn Hxy. lia.
  - apply (loader_same (r, k)); [done|]. cbn [fmap list_fmap all_disjoint union_list foldr] in *. split; [done|..].
    + cbn [fmap list_fmap owner_ids]. by rewrite Hids.
    + cbn [fmap list_fmap all_disjoint]. set_solver.
    + by constructor.
    + cbn [fmap list_fmap union_list foldr]. intros t Hin. apply Ht. set_solver.
Qed.

(** *** Destroying *)
Lemma loader_destroy sub s s' l : loader_ok s (OwnSubsystem sub :: l) → Realize.destroy sub s = (Ok tt, s') → loader_ok s' l.
Proof.
  intros [Hwf Hu Hd Ho Ht] Hrun. pose proof (destroy_shape _ _ _ Hrun) as Hsh. destruct s as [r k]. cbn [fst] in *.
  assert (used_ids (cap_derivation_tree (allocator r)) ≡ₚ subsystem_ids sub ++ mjoin (owner_ids <$> l)) as Hu' by exact Hu.
  apply (mspec_ok _ _ _ _ _ _ (destroy_spec false ltac:(done) sub _ r k Hwf Hu')) in Hrun as (Hrel & _).
  apply Forall_cons in Ho as [_ Ho]. split; [apply Hrel|apply Hrel|apply Hd|done|]. intros t Hin.
  apply (thread_placed_keeps (allocator r)); [done| |apply Ht; cbn [fmap list_fmap union_list foldr]; set_solver].
  intros sl Hsl Hnot. split; [|by intros ?%(rl_slots _ _ _ Hrel)]. unfold slot_used. by rewrite (rl_region _ _ _ Hrel).
Qed.

(** The dynamic loader is a realizer as the resource server relies on. *)
#[global] Instance loader_laws : RealizerLaws (Realize.Realizer * K) PartialSubsystem Subsystem Model Failure.
Proof.
  refine {| own_partial := OwnPartial; own_subsystem := OwnSubsystem; own_threads := owner_threads; realizer_ok := loader_ok |}.
  - apply loader_ok_perm.
  - intros s o o' l [_ _ Hd _ _]. cbn [fmap list_fmap all_disjoint union_list foldr] in Hd. set_solver.
  - intros m s p s' l. apply loader_start.
  - intros p i j c s p' s' l Hok ([] & s1 & Hrun & [= <- <-])%bind_ok_inv. destruct s as [r k].
    apply (mspec_ok _ _ _ _ _ _ (realize_continue_frame p i j c r k)) in Hrun. apply (loader_same (r, k)); [by rewrite Hrun|done].
  - intros p s sub s' l. apply loader_finish.
  - intros sub s s' l. apply loader_destroy.
  - intros sub. unfold owner_threads. by rewrite thread_list.
Defined.

(** Nothing is owned at the start. *)
Lemma loader_new b r (k : K) : builder_ok b → build (E := Failure) b = Ok (allocator r) → loader_ok (r, k) [].
Proof.
  intros Hb Hr. destruct (realizer_inv b [] (r, k) Hb (rr_new b r k Hr)) as (Hwf & _ & Hu).
  split; [done|done|done|constructor|]. intros t Ht. cbn in Ht. by apply elem_of_empty in Ht.
Qed.

(** ** The resource server with the loader *)
Context {KP : Type} `{!ResourceServer.Platform KP Failure}.

(** C5: realms on cores, with the dynamic loader.  A resource server that starts with an allocator that was
    just built, and loads realms with the dynamic loader, keeps its tables inverse to each
    other and the threads of realms where the tables say, in every state that it reaches by messages
    handled without an error or a panic, other than [HackRun] and a second declaration of a realm that is
    under construction ([admissible]: as for [realm_placement], these are excluded); the pointers by
    which it names the threads of two realms, or of two virtual nodes of one, are different, and
    threads that run on the same core are those of one virtual node of one realm. *)
Theorem loaded_realms_placed b r0 (k0 : K) (kp : KP) cores nodes s :
  builder_ok b → build (E := Failure) b = Ok (allocator r0) → rtc rs_step (rs_new (r0, k0) kp cores nodes) s →
  (∀ p r v, physical_nodes s !! p = Some (Some (r, v)) ↔
    ∃ vn, node_at s r v = Some vn ∧ physical_node vn = Some p) ∧
  (∀ r v vn t, node_at s r v = Some vn → t ∈ tcbs vn → runs_on (E:=Failure) (platform s) t = physical_node vn) ∧
  (∀ r v vn r' v' vn' t, node_at s r v = Some vn → node_at s r' v' = Some vn' →
    t ∈ tcbs vn → t ∈ tcbs vn' → r = r' ∧ v = v') ∧
  (∀ r v vn t r' v' vn' t' p, node_at s r v = Some vn → node_at s r' v' = Some vn' → t ∈ tcbs vn → t' ∈ tcbs vn' →
    runs_on (E:=Failure) (platform s) t = Some p → runs_on (E:=Failure) (platform s) t' = Some p → r = r' ∧ v = v').
Proof.
  intros Hb Hr0 Hr. assert (rs_reachable (r0, k0) kp cores nodes s) as Hinv%rs_reachable_inv
    by (split; [by eapply loader_new|done]).
  split_and!; [apply (inv_tables s Hinv)|apply (inv_threads s Hinv)|apply (inv_disjoint s Hinv)|].
  intros r v vn t r' v' vn' t' p Hn Hn' Ht Ht'. rewrite (inv_threads s Hinv _ _ _ _ Hn Ht), (inv_threads s Hinv _ _ _ _ Hn' Ht').
  intros Hp Hp'. assert (physical_nodes s !! p = Some (Some (r, v))) by (apply (inv_tables s Hinv); eauto).
  assert (physical_nodes s !! p = Some (Some (r', v'))) by (apply (inv_tables s Hinv); eauto). by simplify_eq.
Qed.
End laws.

(** ** A closed example: two realms of a thread each, of which one runs *)
Module LoaderDemo.
#[export] Existing Instance LogKernel.sel4.
#[export] Existing Instance RealizeDemo.platform.

(** A thread with its capability space, address space and buffer. *)
Definition thread : ObjTCB_ := {|
  fault_ep := 0; cspace := {| cnode_obj := 0; cnode_guard := 0; cnode_guard_size := 0 |}; vspace := 1;
  ipc_buffer := {| page_obj := 2; page_rights := {| r_read := true; r_write := true; r_grant := false; r_grant_reply := false |};
                   page_cached := true |};
  ipc_buffer_addr := 0x10000; vcpu := None; bound_notification := None; affinity := 0; prio := 10; max_prio := 10;
  resume := true; tcb_ip := 0x400000; tcb_sp := 0; tcb_spsr := 0; tcb_gprs := [5%Z] |}.
Definition thread_model : Model := {| num_nodes := 1; objects :=
  [ {| object := Local (ObjCNode 1 ∅); name := "cspace" |}; {| object := Local (ObjPGD ∅); name := "vspace" |};
    {| object := Local (ObjSmallPage []); name := "ipc_buffer" |}; {| object := Local (ObjTCB thread); name := "thread" |} ] |}.

Definition request (ws : list Z) : option Request :=
  match ws with
  | [0; r; n]%Z => Some (DeclareRealm (Z.to_nat r) (Z.to_nat n))
  | [3; r]%Z => Some (RealizeStart (Z.to_nat r))
  | [4; r]%Z => Some (RealizeFinish (Z.to_nat r))
  | [5; r]%Z => Some (Destroy (Z.to_nat r))
  | _ => None
  end.
Lemma no_header_shorter (bs : list Z) (h : FillChunkHeader) (rest : list Z) : None = Some (h, rest) → length rest < length bs.
Proof. done. Qed.
#[export] Instance decoders : Decoders := {|
  decode_model _ := Some thread_model; decode_request := request; take_header _ := None; take_header_shorter := no_header_shorter |}.

Definition builder : AllocatorBuilder :=
  add_untyped {| eu_cptr := 9; untyped_id := {| paddr := 0x10000; size_bits := 16 |} |}
    (builder_new
      match cregion_new (E := Failure) (relative_cptr 2 0 50) 0 0 8 with
      | Ok c => c
      | _ => {| cr_root := relative 2 2; guard := 0; guard_size := 0; radix := 0; set := set_new |}
      end).
Lemma loader_builder_ok : builder_ok builder.
Proof.
  split.
  - cbn [builder add_untyped builder_new b_cregion].
    destruct (cregion_new_ok (E := Failure) (relative_cptr 2 0 50) 0 0 8) as (c & -> & _ & _ & _ & Hok & _). exact Hok.
  - repeat constructor; vm_compute; (done || intros [=]).
  - unfold builder_blocks. cbn. rewrite !pairwise_disjoint_cons. split.
    + intros j Hj. by apply elem_of_nil in Hj.
    + done.
Qed.
Definition loader : Realize.Realizer :=
  {| initialization_resources := RealizeDemo.resources;
     allocator := match build (E := Failure) builder with Ok a => a | _ => demo_alloc end; externs := ∅ |}.

#[export] Instance platform : ResourceServer.Platform (TCB → option nat) Failure.
Proof.
  refine {| effect e k := (Ok tt, match e with Schedule t n => λ x, if decide (t = x) then n else k x | _ => k end);
            runs_on k t := k t |}.
  intros e k k' tcb [= <-]. by destruct e.
Defined.

Abbreviation server := (ResourceServer (TCB → option nat) (Realize.Realizer * LogKernel.kernel) PartialSubsystem Subsystem).
Definition s0 : server := rs_new (loader, []) (λ _, None) 2 2.
Definition serve_one (m : Z * list Z) (s : server) : server := (serve_message (E := Failure) 0 [] m.1 m.2 s).2.
(** Realms 1 and 2 are built, and core 0 is yielded to realm 1. *)
Definition messages : list (Z * list Z) :=
  [(0, [0; 1; 0]); (0, [3; 1]); (0, [4; 1]); (0, [0; 2; 0]); (0, [3; 2]); (0, [4; 2]); (1, [65536; 0])]%Z.
Definition served : server := foldl (λ s m, serve_one m s) s0 messages.

(** Every message is one that is considered, and is served. *)
Definition considered (m : Z * list Z) (s : server) : bool :=
  match request m.2 with
  | Some (DeclareRealm r _) => match partial_realms s !! r with None => true | Some _ => false end
  | Some (HackRun _) => false
  | _ => true
  end.
Fixpoint all_served (l : list (Z * list Z)) (s : server) : bool :=
  match l with
  | [] => true
  | m :: l' => considered m s && match (serve_message (E := Failure) 0 [] m.1 m.2 s).1 with Ok _ => true | _ => false end &&
               all_served l' (serve_one m s)
  end.
Lemma served_steps l s : all_served l s = true → rtc rs_step s (foldl (λ s m, serve_one m s) s l).
Proof.
  revert s. induction l as [|m l IH]; intros s; cbn [all_served foldl]; [intros _; apply rtc_refl|].
  intros [[Hc Ho]%andb_prop Hl]%andb_prop. eapply rtc_l; [|by apply IH].
  apply (rs_step_message s 0 [] m.1 m.2).
  - intros _. unfold considered in Hc. cbn [recv_request dyndl_realizer decode_request decoders].
    destruct (request m.2) as [[]|]; try done. by destruct (partial_realms s !! _).
  - unfold serve_one. destruct (serve_message 0 [] m.1 m.2 s) as [[[]| |] s']; done.
Qed.
End LoaderDemo.
#[local] Existing Instance LogKernel.sel4.
#[local] Existing Instance RealizeDemo.platform.
#[local] Existing Instance LoaderDemo.decoders.
#[local] Existing Instance LoaderDemo.platform.

Lemma loaded_realms_placed_witness :
  node_at LoaderDemo.served 1 0 = Some {| tcbs := [1]; physical_node := Some 0 |} ∧
  node_at LoaderDemo.served 2 0 = Some {| tcbs := [1473]; physical_node := None |} ∧
  runs_on (Platform := LoaderDemo.platform) (platform LoaderDemo.served) 1473 = None.
Proof.
  assert (node_at LoaderDemo.served 2 0 = Some {| tcbs := [1473]; physical_node := None |}) as H2 by (vm_compute; reflexivity).
  split; [vm_compute; reflexivity|]. split; [exact H2|].
  destruct (loaded_realms_placed LoaderDemo.builder LoaderDemo.loader [] (λ _, None) 2 2 LoaderDemo.served) as (_ & Hthreads & _).
  - exact LoaderDemo.loader_builder_ok.
  - vm_compute. reflexivity.
  - apply (LoaderDemo.served_steps LoaderDemo.messages). vm_compute. reflexivity.
  - exact (Hthreads 2 0 _ 1473 H2 (list_elem_of_here _ _)).
Defined.
