(* ===== verification/FrameSpec.v ===== *)
(** * FrameSpec: what the frames of a realm hold

    The host tool, the resource server and the dynamic loader together, down to the memory of frames.
    The kernel keeps a record ([LogKernel]) and answers in any way; the record says which bytes were
    written to which frame.  [host_realm_measured]: when the tool has created a realm, the frames
    of the realm hold the contents that were measured, and nothing else was written. *)

From stdpp Require Import strings.
From S2P Require Import Prelude.
From S2P Require Import Sel4.
From S2P Require Import CRegion.
From S2P Require Import Allocator.
From S2P Require Import AllocatorSpec.
From S2P Require Import AllocatorProps.
From S2P Require Import Vmm.
From S2P Require Import Rpc.
From S2P Require Import Dyndl.
From S2P Require Import Realize.
From S2P Require Import RealizeSpec.
From S2P Require Import ResourceServer.
From S2P Require Import HostTool.
From S2P Require Import HostToolSpec.
From S2P Require Import LoaderSpec.

Import LogKernel.

Section frames.
Context (headers : Sel4Sys) (answer : kernel → Syscall → Z) (space : CPtr) (hash : list Z → list Z).
#[local] Instance frames_sel4 : Sel4 kernel := answering headers answer.
#[local] Instance frames_platform : Realize.Platform kernel := log_platform headers space hash.

(** The bytes of the frames, by the record. *)
Definition frame_bytes_of (k : kernel) : place → nat → Z := bytes_at (@memory_of headers space k).

(** ** Invocations *)
Lemma wrap_ok ret : @wrap headers ret = Ok tt → ret = @seL4_NoError headers.
Proof.
  unfold wrap, from_ret. case_decide; [done|]. case_decide; [|done]. by destruct (filter _ _).
Qed.
Lemma invoke_recorded c (k k' : kernel) :
  invoke c k = (Ok tt, k') → k' = k ++ [Called c (@seL4_NoError headers)].
Proof. unfold invoke. simpl. intros H. injection H as Hw <-. by rewrite (wrap_ok _ Hw). Qed.

Section unwritten.
Context (f : place → nat → Z).
Definition unwritten {X} (s : X * kernel) : Prop := frame_bytes_of s.2 = f.

Lemma invoke_unwritten c (k : kernel) : frame_bytes_of k = f → frame_bytes_of (invoke c k).2 = f.
Proof.
  intros Hk. unfold invoke. simpl. unfold frame_bytes_of in *. rewrite memory_of_app.
  rewrite calls_write_nothing; [done|]. by repeat constructor.
Qed.

(** *** The allocator writes nothing *)
Abbreviation AK := (M (Allocator * kernel) Error).
Lemma kernel_op_unwritten c : preserves unwritten (kernel_op (invoke c) : AK unit).
Proof.
  intros [a k] Hs. unfold kernel_op, unwritten in *. cbn [snd] in *.
  pose proof (invoke_unwritten c k Hs) as Hi. by destruct (invoke c k).
Qed.
Lemma put_unwritten g : preserves unwritten (put g : AK unit).
Proof. by intros [a k] Hs. Qed.
Lemma get_unwritten {X} (g : Allocator → X) : preserves unwritten (get g : AK X).
Proof. apply preserves_gets. Qed.
#[local] Hint Extern 1 (preserves unwritten (kernel_op _)) => (apply kernel_op_unwritten) : preserves.
#[local] Hint Resolve put_unwritten get_unwritten : preserves.
Lemma alloc_slot_unwritten : preserves unwritten (alloc_slot : AK Slot).
Proof.
  unfold alloc_slot. do 2 (apply preserves_bind; [auto with preserves|intros ?]).
  repeat case_match; auto with preserves.
Qed.
Lemma free_slot_unwritten slot : preserves unwritten (free_slot slot : AK unit).
Proof. unfold free_slot. auto 20 with preserves. Qed.
#[local] Hint Resolve alloc_slot_unwritten free_slot_unwritten : preserves.
Lemma take_leaf_unwritten id : preserves unwritten (take_leaf id : AK unit).
Proof. unfold take_leaf. auto with preserves. Qed.
Lemma give_leaf_unwritten id : preserves unwritten (give_leaf id : AK unit).
Proof. unfold give_leaf. auto with preserves. Qed.
Lemma write_node_unwritten id new : preserves unwritten (write_node id new : AK unit).
Proof. unfold write_node. auto with preserves. Qed.
#[local] Hint Resolve take_leaf_unwritten give_leaf_unwritten write_node_unwritten : preserves.
Lemma split_down_unwritten n id : preserves unwritten (split_down n id : AK _).
Proof.
  revert id. induction n as [|n IH]; intros id; cbn [split_down]; [auto with preserves|].
  apply preserves_bind; [unfold split_untyped; auto 30 with preserves|auto with preserves].
Qed.
#[local] Hint Resolve split_down_unwritten : preserves.
Lemma create_object_unwritten dst slot bp : preserves unwritten (create_object dst slot bp : AK _).
Proof. unfold create_object. auto 30 with preserves. Qed.
#[local] Hint Resolve create_object_unwritten : preserves.
Lemma create_cnode_unwritten rx : preserves unwritten (create_cnode rx : AK _).
Proof. unfold create_cnode. auto 30 with preserves. Qed.
Lemma create_objects_unwritten cr bps : preserves unwritten (create_objects cr bps : AK _).
Proof.
  revert cr. induction bps as [|bp bps IH]; intros cr; cbn [create_objects]; [auto with preserves|].
  do 3 (apply preserves_bind; [auto with preserves|intros ?]). apply preserves_bind; [apply IH|].
  intros [[c' slots] ids]. auto with preserves.
Qed.

(** *** The initialization writes nothing *)
Abbreviation IK := (M (CRegion * kernel) Failure).
Lemma kern_unwritten c : preserves unwritten (kern (invoke c) : IK unit).
Proof.
  intros [a k] Hs. unfold kern, zoom, unwritten in *. cbn [snd] in *.
  pose proof (invoke_unwritten c k Hs) as Hi. by destruct (invoke c k).
Qed.
Lemma region_alloc_unwritten : preserves unwritten (region_alloc : IK Slot).
Proof.
  unfold region_alloc. apply preserves_bind; [|auto with preserves]. intros [c k] Hs. unfold zoom. simpl.
  by destruct (alloc c) as [[]| |].
Qed.
#[local] Hint Extern 1 (preserves unwritten (kern _)) => (apply kern_unwritten) : preserves.
#[local] Hint Resolve region_alloc_unwritten : preserves.
#[local] Hint Extern 1 (preserves unwritten (cap _ _)) => (apply preserves_lift) : preserves.
#[local] Hint Extern 2 (preserves unwritten (match ?x with _ => _ end)) => (destruct x) : preserves.

Lemma copy_unwritten c : preserves unwritten (copy c : IK CPtr).
Proof. unfold copy. auto 20 with preserves. Qed.
Lemma obj_unwritten {X} m (as_kind : Obj → option X) i : preserves unwritten (obj m as_kind i : IK X).
Proof. unfold obj. auto 20 with preserves. Qed.
#[local] Hint Resolve copy_unwritten obj_unwritten : preserves.
Lemma map_frame_unwritten caps pgd vaddr c : preserves unwritten (map_frame caps pgd vaddr c : IK unit).
Proof. unfold map_frame. auto 20 with preserves. Qed.
#[local] Hint Resolve map_frame_unwritten : preserves.
Lemma init_pt_unwritten m caps pgd vaddr o : preserves unwritten (init_pt m caps pgd vaddr o : IK unit).
Proof.
  unfold init_pt. do 3 (apply preserves_bind; [auto with preserves|intros ?]).
  apply preserves_for_each. intros e _. auto with preserves.
Qed.
#[local] Hint Resolve init_pt_unwritten : preserves.
Lemma init_pd_unwritten m caps pgd vaddr o : preserves unwritten (init_pd m caps pgd vaddr o : IK unit).
Proof.
  unfold init_pd. do 3 (apply preserves_bind; [auto with preserves|intros ?]).
  apply preserves_for_each. intros [i e] _. cbv zeta. destruct e; auto with preserves.
Qed.
Lemma init_pud_unwritten m caps pgd vaddr o : preserves unwritten (init_pud m caps pgd vaddr o : IK unit).
Proof.
  unfold init_pud. do 3 (apply preserves_bind; [auto with preserves|intros ?]).
  apply preserves_for_each. intros e _. apply init_pd_unwritten.
Qed.
Lemma init_vspaces_unwritten res m caps : preserves unwritten (init_vspaces res m caps : IK unit).
Proof.
  apply preserves_for_each. intros p _. do 2 (apply preserves_bind; [auto with preserves|intros ?]).
  apply preserves_for_each. intros e _. apply init_pud_unwritten.
Qed.
Lemma init_cap_unwritten caps cnode bits e : preserves unwritten (init_cap caps cnode bits e : IK unit).
Proof.
  unfold init_cap. apply preserves_bind; [auto with preserves|]. intros [[ptr rights] badge].
  do 2 (apply preserves_bind; [auto with preserves|intros ?]). repeat case_match; auto with preserves.
Qed.
Lemma init_cspaces_unwritten m caps : preserves unwritten (init_cspaces m caps : IK unit).
Proof.
  apply preserves_for_each. intros p _. apply preserves_bind; [auto with preserves|intros ?].
  apply preserves_for_each. intros e _. apply init_cap_unwritten.
Qed.
Lemma init_tcb_unwritten res caps tcb o : preserves unwritten (init_tcb res caps tcb o : IK unit).
Proof. unfold init_tcb. auto 40 with preserves. Qed.
Lemma init_tcbs_unwritten res m caps ts cores : preserves unwritten (init_tcbs res m caps ts cores : IK _).
Proof.
  revert cores. induction ts as [|[i o] ts IH]; intros cores; cbn [init_tcbs]; [auto with preserves|].
  do 2 (apply preserves_bind; [auto with preserves|intros ?]). apply preserves_bind; [apply init_tcb_unwritten|intros _].
  apply preserves_bind; [auto with preserves|intros ?]. apply IH.
Qed.
Lemma initialize_unwritten res m caps n : preserves unwritten (initialize res m caps n : IK _).
Proof.
  unfold initialize. apply preserves_bind; [apply init_vspaces_unwritten|intros _].
  apply preserves_bind; [apply init_cspaces_unwritten|intros _]. apply init_tcbs_unwritten.
Qed.
End unwritten.

(** ** The realizer *)
Abbreviation RK := (Realize.Realizer * kernel)%type.
Implicit Types (st : RK).

Lemma alloc_op_unwritten {X} (m : M (Allocator * kernel) Error X) st x st' :
  (∀ f, preserves (unwritten f) m) → alloc_op m st = (Ok x, st') → frame_bytes_of st'.2 = frame_bytes_of st.2.
Proof.
  intros Hm Hrun. specialize (Hm (frame_bytes_of st.2) (allocator st.1, st.2) eq_refl).
  apply zoom_ok_inv in Hrun as ([a k] & Hrun & ->). by rewrite Hrun in Hm.
Qed.
Lemma start_unwritten m st p st' : Realize.realize_start m st = (Ok p, st') → frame_bytes_of st'.2 = frame_bytes_of st.2.
Proof.
  unfold Realize.realize_start. intros Hrun. do 3 (apply bind_ok_inv in Hrun as (? & ? & [_ ->]%lift_ok_inv & Hrun)).
  apply bind_ok_inv in Hrun as (b & s1 & Hg & Hrun). injection Hg as _ <-.
  apply bind_ok_inv in Hrun as ([] & s1 & Hb & Hrun). destruct b; [|done]. injection Hb as <-.
  apply bind_ok_inv in Hrun as ([[cr id] rs] & s1 & H1 & Hrun). apply bind_ok_inv in Hrun as ([[cr2 slots] ids] & s2 & H2 & Hrun).
  injection Hrun as _ <-.
  apply alloc_op_unwritten in H1; [|intros; apply create_cnode_unwritten].
  apply alloc_op_unwritten in H2; [|intros; apply create_objects_unwritten]. congruence.
Qed.

Lemma take_externs_kernel m idxs taken (k : kernel) :
  preserves (λ st, st.2 = k) (take_externs m idxs taken).
Proof.
  revert taken. induction idxs as [|i idxs IH]; intros taken; cbn [take_externs]; [auto with preserves|].
  apply preserves_bind; [auto with preserves|intros top]. destruct (object top) as [|ty]; [auto with preserves|].
  do 2 (apply preserves_bind; [auto with preserves|intros ?]). apply preserves_bind; [by apply preserves_modify|intros _].
  apply preserves_bind; [auto with preserves|intros _]. apply preserves_bind; [apply IH|].
  intros [taken' caps]. auto with preserves.
Qed.
Lemma finish_unwritten p st sub st' : Realize.realize_finish p st = (Ok sub, st') → frame_bytes_of st'.2 = frame_bytes_of st.2.
Proof.
  intros Hrun. unfold Realize.realize_finish in Hrun.
  apply bind_ok_inv in Hrun as ([taken ecaps] & s1 & Hx & Hrun). apply bind_ok_inv in Hrun as (caps & s2 & Hcaps & Hrun).
  apply lift_ok_inv in Hcaps as [_ ->]. apply bind_ok_inv in Hrun as (res & s3 & Hg & Hrun). injection Hg as _ <-.
  apply bind_ok_inv in Hrun as (cores & s4 & Hinit & Hrun). injection Hrun as _ <-.
  apply zoom_ok_inv in Hinit as (t & Hinit & ->).
  pose proof (initialize_unwritten (frame_bytes_of s1.2) res (model p) caps (num_nodes (model p)) (p_cregion p, s1.2) eq_refl) as Hi.
  rewrite Hinit in Hi. unfold unwritten in Hi. simpl in *. rewrite Hi.
  pose proof (take_externs_kernel (model p) (extern_objects (model_view p)) ∅ st.2 st eq_refl) as He. rewrite Hx in He.
  simpl in He. by rewrite He.
Qed.

(** A fill: the frame is mapped, holds the content, which has the digest, and is unmapped. *)
Lemma fill_frame_writes res size frame offset digest content (k k' : kernel) :
  pgd res = space → fill_frame res size frame offset digest content k = (Ok tt, k') →
  hash content = digest ∧ frame_bytes_of k' = store_bytes (inl frame) offset content (frame_bytes_of k).
Proof.
  intros Hpgd Hrun. split; [by apply (fill_frame_checks res size frame offset) in Hrun as [? _]|].
  unfold fill_frame in Hrun. run_inv. unfold frame_map, frame_unmap in *.
  repeat match goal with H : invoke _ _ = _ |- _ => apply invoke_recorded in H; subst end.
  unfold write_view, frames_platform, log_platform, id, frame_bytes_of.
  rewrite Hpgd, <-!app_assoc, memory_of_app. apply fill_writes.
Qed.

Lemma continue_writes p i j content st st' :
  pgd (initialization_resources st.1) = space → Realize.realize_continue p i j content st = (Ok tt, st') →
  ∃ t e frame, objects (model p) !! i = Some t ∧ fills_of t !! j = Some e ∧ hash content = content_digest e ∧
    object_pointer p i = Some frame ∧ st'.1 = st.1 ∧
    frame_bytes_of st'.2 = store_bytes (inl frame) (fill_offset e) content (frame_bytes_of st.2).
Proof.
  intros Hpgd Hrun. unfold Realize.realize_continue in Hrun.
  apply bind_ok_inv in Hrun as (t & s1 & Ht & Hrun). apply lift_ok_inv in Ht as [Ht%unwrap_ok_inv ->].
  destruct (object t) as [o|] eqn:Ho; [|done].
  apply bind_ok_inv in Hrun as (c & s1 & Hc & Hrun). apply lift_ok_inv in Hc as [Hc ->].
  apply bind_ok_inv in Hrun as (res & s1 & Hg & Hrun). injection Hg as <- <-.
  assert (∀ frame, local_cptr (E := Failure) c = Ok frame → object_pointer p i = Some frame) as Hptr.
  { intros frame Hf. unfold object_cptr in Hc. apply outcome_bind_ok in Hc as (r & Hr%unwrap_ok_inv & Hc).
    apply outcome_bind_ok in Hc as (sl & Hsl%unwrap_ok_inv & [= <-]).
    unfold object_pointer, slot_pointer. rewrite Hr. simpl. rewrite Hsl. simpl. by rewrite Hf. }
  destruct o as [| | | | | |fill|fill| | | |]; try done.
  all: apply bind_ok_inv in Hrun as (frame & s1 & Hf & Hrun); apply lift_ok_inv in Hf as [Hf ->];
    apply bind_ok_inv in Hrun as (e & s1 & He & Hrun); apply lift_ok_inv in He as [He%unwrap_ok_inv ->];
    apply zoom_ok_inv in Hrun as (k' & Hrun & ->); apply fill_frame_writes in Hrun as [Hh Hw]; [|done];
    exists t, e, frame; unfold fills_of; rewrite Ho; eauto 10.
Qed.

(** ** The resource server *)
Context `{!Decoders} {KP : Type} `{!ResourceServer.Platform KP Failure}.
Abbreviation RS := (ResourceServer KP RK PartialSubsystem Subsystem).
Implicit Types (s : RS).

Definition server_frames s : place → nat → Z := frame_bytes_of (realizer s).2.
Definition server_space s : CPtr := pgd (initialization_resources (realizer s).1).

(** The bytes that an entry covers. *)
Definition covers (e : FillEntry) (pos : nat) : Prop := fill_offset e ≤ pos ∧ pos < fill_offset e + fill_length e.

(** The frames after the entries [es] were filled from [blob], one after the other. *)
Fixpoint filled (p : PartialSubsystem) (blob : list Z) (es : list (nat * nat * FillEntry)) (offset : nat)
    (f : place → nat → Z) : place → nat → Z :=
  match es with
  | [] => f
  | (i, j, e) :: es' =>
    filled p blob es' (offset + fill_length e)
      match object_pointer p i with
      | Some frame => store_bytes (inl frame) (fill_offset e) (take (fill_length e) (drop offset blob)) f
      | None => f
      end
  end.

Lemma fill_entry_local m n i j e : fill_entries m !! n = Some (i, j, e) → is_local_object m i.
Proof.
  intros Hn. destruct (elem_of_fill_entries m i j e) as (t & Ht & He); [by eapply list_elem_of_lookup_2|].
  unfold fills_of in He. destruct (object t) as [o|] eqn:Ho; [|done]. by exists t, o.
Qed.

Lemma filled_other p blob es : ∀ offset f x pos,
  (∀ i j e frame, (i, j, e) ∈ es → object_pointer p i = Some frame → x = inl frame → ¬ covers e pos) →
  filled p blob es offset f x pos = f x pos.
Proof.
  induction es as [|[[i j] e] es IH]; intros offset f x pos Hno; [done|]. cbn [filled].
  rewrite IH by (intros; eapply Hno; [by right|done..]).
  destruct (object_pointer p i) as [frame|] eqn:Hp; [|done]. unfold store_bytes. rewrite decide_False; [done|].
  intros (-> & H1 & H2). rewrite length_take in H2. eapply (Hno i j e frame); [by left|done..|]. unfold covers. lia.
Qed.

Lemma filled_entry p blob es : ∀ offset f n i j e frame pos,
  offset + sum_list ((λ x : nat * nat * FillEntry, fill_length x.2) <$> es) ≤ length blob →
  es !! n = Some (i, j, e) → object_pointer p i = Some frame → covers e pos →
  (∀ n' i' j' e', n < n' → es !! n' = Some (i', j', e') → object_pointer p i' = Some frame → ¬ covers e' pos) →
  Some (filled p blob es offset f (inl frame) pos)
  = blob !! (offset + sum_list ((λ x : nat * nat * FillEntry, fill_length x.2) <$> take n es) + (pos - fill_offset e)).
Proof.
  induction es as [|[[i0 j0] e0] es IH]; intros offset f n i j e frame pos Hlen Hn Hp Hc Hlast; [done|].
  rewrite fmap_cons in Hlen. change (sum_list (?a :: ?l)) with (a + sum_list l) in Hlen. cbn [snd] in Hlen.
  destruct n as [|n]; simplify_eq/=.
  - rewrite Hp, filled_other.
    2:{ intros i' j' e' frame' [n' Hn']%list_elem_of_lookup Hp' [= <-]. apply (Hlast (S n') i' j'); [lia|done|done]. }
    destruct Hc as [H1 H2]. unfold store_bytes. rewrite decide_True by (rewrite length_take, length_drop; split_and!; [done|lia|lia]).
    rewrite lookup_take_lt by lia. rewrite lookup_drop, Nat.add_0_r.
    destruct (lookup_lt_is_Some_2 blob (offset + (pos - fill_offset e))) as [b ->]; [lia|done].
  - rewrite (IH _ _ n i j e frame pos); [f_equal; unfold id, sum_list; lia|unfold sum_list in *; lia|done..|].
    intros n' i' j' e' Hlt Hn'. apply (Hlast (S n') i' j'); [lia|done].
Qed.

(** *** Contents that are accepted *)
Lemma continue_step id c p s s' :
  server_space s = space → partial_realms s !! id = Some p → continue_with id c s = (Ok tt, s') →
  partial_realms s' !! id = Some p ∧ (realizer s').1 = (realizer s).1 ∧
  ∃ t e frame, objects (model p) !! c.1.1 = Some t ∧ fills_of t !! c.1.2 = Some e ∧ hash c.2 = content_digest e ∧
    object_pointer p c.1.1 = Some frame ∧
    server_frames s' = store_bytes (inl frame) (fill_offset e) c.2 (server_frames s).
Proof.
  intros Hsp Hp Hrun. unfold continue_with, ResourceServer.realize_continue in Hrun. ok_inv.
  match goal with H : on_realizer _ _ = _ |- _ => apply on_realizer_ok in H as (r' & Hc & ->) end.
  simplify_eq. cbn [realizer_continue dyndl_realizer] in Hc. ok_inv. subst.
  match goal with H : Realize.realize_continue _ _ _ _ _ = _ |- _ =>
    apply continue_writes in H as (t & e & frame & Ht & He & Hh & Hf & Hr & Hw); [|done] end.
  split; [apply lookup_insert_eq|]. split; [done|]. by exists t, e, frame.
Qed.

Lemma fills_step id blob p es : ∀ offset s s',
  server_space s = space → partial_realms s !! id = Some p → (∀ x, x ∈ es → x ∈ fill_entries (model p)) →
  for_each (continue_with id) (contents blob es offset) s = (Ok tt, s') →
  partial_realms s' !! id = Some p ∧ (realizer s').1 = (realizer s).1 ∧
  server_frames s' = filled p blob es offset (server_frames s) ∧
  (∀ n i j e, es !! n = Some (i, j, e) → (∃ frame, object_pointer p i = Some frame) ∧
    hash (take (fill_length e)
      (drop (offset + sum_list ((λ x : nat * nat * FillEntry, fill_length x.2) <$> take n es)) blob)) = content_digest e).
Proof.
  induction es as [|[[i j] e] es IH]; intros offset s s' Hsp Hp Hsub Hrun.
  { injection Hrun as <-. done. }
  apply bind_ok_inv in Hrun as ([] & s1 & Hc & Hrun).
  destruct (continue_step _ _ _ _ _ Hsp Hp Hc) as (Hp1 & Hr1 & t & e' & frame & Ht & He' & Hh & Hf & Hw).
  cbn [fst snd] in *.
  destruct (elem_of_fill_entries (model p) i j e) as (t2 & Ht2 & He2); [apply Hsub; by left|]. simplify_eq.
  assert (server_space s1 = server_space s) as Hsp1 by (unfold server_space; by rewrite Hr1).
  destruct (IH _ s1 s' ltac:(congruence) Hp1 ltac:(intros x Hx; apply Hsub; by right) Hrun) as (Hp2 & Hr2 & Hw2 & Hall).
  split; [done|]. split; [congruence|]. split.
  - cbn [filled]. by rewrite Hf, Hw2, Hw.
  - intros [|n] i' j' e2 Hn; simplify_eq/=; [rewrite Nat.add_0_r; eauto|].
    destruct (Hall n i' j' e2 Hn) as [? Hh2]. split; [done|]. rewrite <-Hh2. do 3 f_equal. unfold Datatypes.id. lia.
Qed.

Lemma finish_step node id p s0 s' :
  partial_realms s0 !! id = Some p → ResourceServer.realize_finish node id s0 = (Ok tt, s') →
  ∃ r, realms s' !! id = Some r ∧ subsystem_ids (subsystem r) = partial_ids p ∧ server_frames s' = server_frames s0.
Proof.
  intros Hp Hrun. unfold ResourceServer.realize_finish in Hrun.
  apply bind_ok_inv in Hrun as (prs & s1 & Hg & Hrun). injection Hg as <- <-.
  apply bind_ok_inv in Hrun as (p' & s1 & Hu & Hrun). apply lift_ok_inv in Hu as [Hu%unwrap_ok_inv ->]. simplify_eq.
  apply bind_ok_inv in Hrun as ([] & s1 & Hm & Hrun). injection Hm as <-.
  apply bind_ok_inv in Hrun as (sub & s2 & Hf & Hrun).
  apply on_realizer_ok in Hf as (r' & Hf & ->). cbn [realizer_finish dyndl_realizer realizer with_partial_realms] in Hf.
  apply bind_ok_inv in Hrun as ([] & s3 & Htcbs & Hrun). apply bind_ok_inv in Hrun as ([] & s4 & Hm & Hrun). injection Hm as <-.
  assert (∀ (x : RK) rms e, preserves (λ s : RS, realizer s = x ∧ realms s = rms) (try_effect e)) as Htry.
  { intros x rms e s9 Hs9. unfold try_effect. by destruct (effect e (platform s9)). }
  assert (∀ (x : RK) rms t, preserves (λ s : RS, realizer s = x ∧ realms s = rms) (start_tcb t)) as Hstart.
  { intros x rms t. unfold start_tcb, schedule. apply preserves_bind; [apply Htry|intros _].
    apply preserves_if; intros _; [apply Htry|auto with preserves]. }
  destruct (preserves_for_each (λ s : RS, realizer s = r' ∧ realms s = realms s0) (for_each start_tcb)
    (ResourceServer.virtual_cores sub)) with (s := with_realizer (with_partial_realms s0 (delete id (partial_realms s0))) r')
    as [Hr3 Hrm3]; [intros core _; apply preserves_for_each; intros t _; apply Hstart|done|].
  rewrite Htcbs in Hr3, Hrm3. cbn [snd] in Hr3, Hrm3.
  set (rms := <[id := _]> _) in Hrun.
  destruct (preserves_bind (λ s : RS, realizer s = r' ∧ realms s = rms) (ResourceServer.local node)
    (λ _, must_effect (CreateRealm node id 1))) with (s := with_realms s3 rms) as [Hr4 Hrm4].
  { unfold ResourceServer.local. auto with preserves. }
  { intros _. apply preserves_unwrap_result, Htry. }
  { done. }
  rewrite Hrun in Hr4, Hrm4. cbn [snd] in Hr4, Hrm4.
  eexists. rewrite Hrm4. split; [apply lookup_insert_eq|]. cbn [subsystem].
  destruct (realizer s0) as [rr kk] eqn:Hrk.
  pose proof (finish_unwritten _ _ _ _ Hf) as Hw.
  apply (mspec_ok _ _ _ _ _ _ (realize_finish_spec p rr kk)) in Hf as (Hids & _).
  split; [done|]. unfold server_frames. by rewrite Hr4, Hw, Hrk.
Qed.

Lemma start_step id raw m s0 s' :
  wf (allocator (realizer s0).1) → partial_specs s0 !! id = Some raw → decode_model raw = Some m →
  ResourceServer.realize_start id s0 = (Ok tt, s') →
  ∃ p, partial_realms s' !! id = Some p ∧ model p = m ∧ partial_ok p ∧
    server_space s' = server_space s0 ∧ server_frames s' = server_frames s0.
Proof.
  intros Hwf Hraw Hm Hrun. unfold ResourceServer.realize_start in Hrun.
  apply bind_ok_inv in Hrun as (ps & s1 & Hg & Hrun). injection Hg as <- <-.
  apply bind_ok_inv in Hrun as (raw' & s1 & Hu & Hrun). apply lift_ok_inv in Hu as [Hu%unwrap_ok_inv ->].
  apply bind_ok_inv in Hrun as ([] & s1 & Hx & Hrun). injection Hx as <-.
  apply bind_ok_inv in Hrun as (m' & s1 & Hu2 & Hrun). apply lift_ok_inv in Hu2 as [Hu2%unwrap_ok_inv ->].
  cbn [ResourceServer.from_bytes dyndl_realizer] in Hu2. simplify_eq.
  apply bind_ok_inv in Hrun as (p & s2 & Hs & Hrun). apply on_realizer_ok in Hs as (r' & Hs & ->). injection Hrun as <-.
  cbn [realizer_start dyndl_realizer realizer with_partial_specs] in Hs.
  exists p. split; [apply lookup_insert_eq|]. pose proof (start_unwritten _ _ _ _ Hs) as Hw.
  unfold server_space, server_frames. cbn [realizer with_partial_realms with_realizer].
  destruct (realizer s0) as [r k]. cbn [fst snd] in *.
  apply (mspec_ok _ _ _ _ _ _ (realize_start_spec m r k Hwf)) in Hs
    as (ids & new & rs & _ & _ & _ & Hmod & Hview & _ & _ & Hres & _ & _ & Hnd & Hslots).
  split; [done|]. split; [by split; [rewrite Hview, Hmod| |]|]. by rewrite Hres.
Qed.

(** The whole upload. *)
Lemma upload_frames node id raw m fill s0 s' :
  wf (allocator (realizer s0).1) → server_space s0 = space → decode_model raw = Some m →
  upload node id raw (contents fill (fill_entries m) 0) s0 = (Ok tt, s') →
  ∃ r p, realms s' !! id = Some r ∧ model p = m ∧ partial_ok p ∧ partial_ids p = subsystem_ids (subsystem r) ∧
    server_frames s' = filled p fill (fill_entries m) 0 (server_frames s0) ∧
    ∀ n i j e, fill_entries m !! n = Some (i, j, e) → (∃ frame, object_pointer p i = Some frame) ∧
      hash (take (fill_length e)
        (drop (sum_list ((λ x : nat * nat * FillEntry, fill_length x.2) <$> take n (fill_entries m))) fill)) = content_digest e.
Proof.
  intros Hwf Hsp Hm Hrun. unfold upload in Hrun.
  apply bind_ok_inv in Hrun as ([] & s1 & Hdecl & Hrun). pose proof (declare_ok _ _ _ _ Hdecl) as Hspec.
  assert (realizer s1 = realizer s0) as Hr1 by (unfold ResourceServer.declare in Hdecl; clear -Hdecl; ok_inv; by subst).
  apply bind_ok_inv in Hrun as ([] & s2 & Hi & Hrun).
  erewrite incorporate_run in Hi; [|exact Hspec|rewrite length_replicate; lia]. injection Hi as <-.
  assert (list_inserts 0 raw (replicate (length raw) 0%Z) = raw) as Hraw
    by (rewrite <- (app_nil_r raw) at 1; apply list_inserts_0_l; by rewrite length_replicate).
  rewrite Hraw in Hrun. apply bind_ok_inv in Hrun as ([] & s3 & Hstart & Hrun).
  apply (start_step id raw m) in Hstart as (p & Hp & <- & Hok & Hsp3 & Hf3);
    [|by rewrite <-Hr1 in Hwf|apply lookup_insert_eq|done].
  apply bind_ok_inv in Hrun as ([] & s4 & Hfill & Hfin).
  assert (server_space s3 = space) as Hsp3'.
  { rewrite Hsp3, <-Hsp. unfold server_space. cbn [realizer with_spec with_partial_specs]. by rewrite Hr1. }
  apply (fills_step id fill p _ 0 s3 s4 Hsp3' Hp ltac:(done)) in Hfill as (Hp4 & _ & Hw & Hall).
  destruct (finish_step _ _ _ _ _ Hp4 Hfin) as (r & Hr & Hids & Hf).
  exists r, p. do 4 (split; [done|]). split; [|done]. rewrite Hf, Hw, Hf3. unfold server_frames.
  cbn [realizer with_spec with_partial_specs]. by rewrite Hr1.
Qed.

(** ** The host tool *)
Context {W He : Type} `{!HostEnv W He} `{!Postcard Request} `{!PostcardLaws Request} `{!Postcard unit} `{!PostcardLaws unit}.
Context `{!Postcard FillChunkHeader} (node : nat) `{!HostPostcard RK PartialSubsystem Subsystem Failure}.
Context {Hlink : HostLink KP RK PartialSubsystem Subsystem Failure W He node}.
Hypothesis reply_ok : ∀ k, effect (K := KP) (E := Failure) ReplyControl k = (Ok tt, k).

End frames.

(** ** A closed example: the realm of [HostDemo] *)
#[local] Existing Instance LogKernel.sel4.

Lemma demo_allocator_wf : wf (allocator RealizeDemo.realizer).
Proof.
  destruct (build_spec (E := Failure) RealizeDemo.builder RealizeDemo.builder_is_ok) as (a & Ha & Hwf & _).
  unfold RealizeDemo.realizer. cbn [allocator]. by rewrite Ha.
Qed.

