(* ===== verification/SpecTool.v ===== *)
(** * SpecTool: how the description of a realm is built

    Model of [framework/dyndl/cli/dyndl-serialize-spec]: the tool that takes the objects of a realm as
    the capability compiler gives them, measures the contents of their frames, and writes the
    serialized model with the contents after it.  This is what [HostTool] creates a realm from.

    Files are the class [Files], with the errors of reading them; the hash function, the serializer
    and the decoded input are arguments.  The tool is built in release mode, so that adding one to
    the highest core wraps around. *)

From stdpp Require Import strings.
From S2P Require Import Prelude.
From S2P Require Import Bytes.
From S2P Require Import Rpc.
From S2P Require Import P9Path.
From S2P Require Import Dyndl.
From S2P Require Import Realize.

(** What [File::open] gives, and the errors of [seek] and [read_exact]. *)
Class Files (E : Type) := {
  open_file : Path → outcome E (list Z);
  seek_invalid : E;
  unexpected_eof : E;
}.

Section tool.
Context {E : Type} `{!Files E} `{!Postcard Model} (sha : list Z → list Z) (dir : Path).

(** An offset is an [i64] for the system; a buffer has at most [isize::MAX] bytes; an empty buffer is
    filled wherever the file ends. *)
Definition read_entry (entry : FillEntry) : outcome E (list Z) :=
  data ← open_file (push dir (bytes_of_string (file entry)));
  if (2 ^ 63 <=? Z.of_nat (file_offset entry))%Z then Err seek_invalid
  else if (2 ^ 63 <=? Z.of_nat (fill_length entry))%Z then Panic
  else
    let content := take (fill_length entry) (drop (file_offset entry) data) in
    if length content <? fill_length entry then Err unexpected_eof else Ok content.

Definition with_digest (entry : FillEntry) (digest : list Z) : FillEntry :=
  {| fill_offset := fill_offset entry; fill_length := fill_length entry; file := file entry;
     file_offset := file_offset entry; content_digest := digest |}.

(** The loop over the entries of a frame, and that over the objects. *)
Fixpoint add_entries (fill : list FillEntry) (fill_blob : list Z) : outcome E (list FillEntry * list Z) :=
  match fill with
  | [] => mret ([], fill_blob)
  | entry :: rest =>
    content ← read_entry entry;
    '(rest', fill_blob') ← add_entries rest (fill_blob ++ content);
    mret (with_digest entry (sha content) :: rest', fill_blob')
  end.

Definition add_object (obj : TopObj) (fill_blob : list Z) : outcome E (TopObj * list Z) :=
  match object obj with
  | Local (ObjSmallPage fill) =>
    '(fill', fill_blob') ← add_entries fill fill_blob;
    mret ({| object := Local (ObjSmallPage fill'); name := name obj |}, fill_blob')
  | Local (ObjLargePage fill) =>
    '(fill', fill_blob') ← add_entries fill fill_blob;
    mret ({| object := Local (ObjLargePage fill'); name := name obj |}, fill_blob')
  | _ => mret (obj, fill_blob)
  end.

Fixpoint add_objects (objs : list TopObj) (fill_blob : list Z) : outcome E (list TopObj * list Z) :=
  match objs with
  | [] => mret ([], fill_blob)
  | obj :: rest =>
    '(obj', fill_blob') ← add_object obj fill_blob;
    '(rest', fill_blob'') ← add_objects rest fill_blob';
    mret (obj' :: rest', fill_blob'')
  end.

Definition add_fill (model : Model) : outcome E (Model * list Z) :=
  '(objs, fill_blob) ← add_objects (objects model) [];
  mret ({| num_nodes := num_nodes model; objects := objs |}, fill_blob).

Definition affinity_of (obj : TopObj) : option nat :=
  match object obj with Local (ObjTCB tcb) => Some (affinity tcb) | _ => None end.
(** [Iterator::max]. *)
Definition max_of (l : list nat) : option nat :=
  match l with [] => None | x :: l' => Some (foldl Nat.max x l') end.
Definition count_nodes (objs : list TopObj) : nat :=
  match max_of (omap affinity_of objs) with
  | None => 0
  | Some max_affinity => Z.to_nat (word_cast 64 (Z.of_nat max_affinity + 1))
  end.

(** [main], from the decoded input to what is written. *)
Definition serialize_spec (objs : list TopObj) : outcome E (list Z) :=
  '(model, fill_blob) ← add_fill {| num_nodes := count_nodes objs; objects := objs |};
  bytes ← unwrap (to_allocvec model);
  mret (bytes ++ fill_blob).
End tool.
