(* ===== verification/SpecToolSpec.v ===== *)
(** * SpecToolSpec: from files to the memory of a realm

    What [SpecTool] writes, exactly, and what becomes of it when [HostTool] creates a realm from it. *)

From stdpp Require Import strings.
From S2P Require Import Prelude.
From S2P Require Import Bytes.
From S2P Require Import Sel4.
From S2P Require Import Rpc.
From S2P Require Import P9Path.
From S2P Require Import Dyndl.
From S2P Require Import Realize.
From S2P Require Import RealizeSpec.
From S2P Require Import ResourceServer.
From S2P Require Import HostTool.
From S2P Require Import HostToolSpec.
From S2P Require Import SpecTool.

(** ** The fill entries of objects *)
Definition map_fills (f : FillEntry → FillEntry) (obj : TopObj) : TopObj :=
  match object obj with
  | Local (ObjSmallPage fill) => {| object := Local (ObjSmallPage (f <$> fill)); name := name obj |}
  | Local (ObjLargePage fill) => {| object := Local (ObjLargePage (f <$> fill)); name := name obj |}
  | _ => obj
  end.
Definition all_fills (objs : list TopObj) : list FillEntry := mjoin (fills_of <$> objs).

Lemma fills_of_map f obj : fills_of (map_fills f obj) = f <$> fills_of obj.
Proof. destruct obj as [[[]|] ?]; done. Qed.

Lemma fmap_mjoin {A B} (f : A → B) (ls : list (list A)) : f <$> mjoin ls = mjoin (fmap f <$> ls).
Proof.
  induction ls as [|l ls IH]; [done|]. change (f <$> (l ++ mjoin ls) = (f <$> l) ++ mjoin (fmap f <$> ls)).
  by rewrite fmap_app, IH.
Qed.

Lemma fill_entries_map f n n' objs :
  fill_entries {| num_nodes := n; objects := map_fills f <$> objs |} =
  (λ x, (x.1, f x.2)) <$> fill_entries {| num_nodes := n'; objects := objs |}.
Proof.
  unfold fill_entries. cbn [objects]. rewrite fmap_mjoin. f_equal. rewrite imap_fmap, fmap_imap.
  apply imap_ext. intros i obj _. cbn. by rewrite fills_of_map, imap_fmap, fmap_imap.
Qed.

Lemma fill_entries_fills n objs :
  snd <$> fill_entries {| num_nodes := n; objects := objs |} = all_fills objs.
Proof.
  unfold fill_entries, all_fills. cbn [objects]. rewrite fmap_mjoin. f_equal. rewrite fmap_imap.
  apply list_eq. intros i. rewrite list_lookup_imap, list_lookup_fmap. destruct (objs !! i) as [obj|]; [|done].
  cbn. f_equal. rewrite fmap_imap. apply list_eq. intros j. rewrite list_lookup_imap. by destruct (fills_of obj !! j).
Qed.

(** Contents of the right lengths that follow one another are found again. *)
Lemma contents_concat (f : FillEntry → list Z) (es : list (nat * nat * FillEntry)) : ∀ blob offset,
  Forall (λ x, length (f x.2) = fill_length x.2) es → drop offset blob = mjoin ((λ x, f x.2) <$> es) →
  contents blob es offset = (λ x, (x.1, f x.2)) <$> es.
Proof.
  induction es as [|[[i j] e] es IH]; intros blob offset Hl Hd; [done|]. apply Forall_cons in Hl as [He Hl].
  cbn [snd] in He. change (drop offset blob = f e ++ mjoin ((λ x, f x.2) <$> es)) in Hd.
  cbn [contents]. rewrite Hd, <- He, take_app_length. cbn [fmap list_fmap fst snd]. f_equal.
  apply IH; [done|]. rewrite <- drop_drop, Hd. by rewrite drop_app_length.
Qed.

Lemma sum_lengths (f : FillEntry → list Z) (es : list (nat * nat * FillEntry)) :
  Forall (λ x, length (f x.2) = fill_length x.2) es →
  sum_list ((λ x : nat * nat * FillEntry, fill_length x.2) <$> es) = length (mjoin ((λ x, f x.2) <$> es)).
Proof.
  induction 1 as [|x es He _ IH]; [done|]. rewrite !fmap_cons. cbn [sum_list sum_list_with].
  change (mjoin (?a :: ?b)) with (a ++ mjoin b). rewrite length_app. unfold id at 1. simpl in *. lia.
Qed.

(** ** What the tool writes *)
Section spec.
Context {E : Type} `{!Files E} `{!Postcard Model} (sha : list Z → list Z) (dir : Path).

(** An entry that can be read: its file is there, and reaches to its end. *)
Definition readable (e : FillEntry) : Prop := ∃ data,
  open_file (push dir (bytes_of_string (file e))) = Ok data ∧
  (Z.of_nat (file_offset e) < 2 ^ 63)%Z ∧ (Z.of_nat (fill_length e) < 2 ^ 63)%Z ∧
  (fill_length e = 0 ∨ file_offset e + fill_length e ≤ length data).
Definition content_of (e : FillEntry) : list Z :=
  match open_file (push dir (bytes_of_string (file e))) with
  | Ok data => take (fill_length e) (drop (file_offset e) data)
  | _ => []
  end.
Definition measure (e : FillEntry) : FillEntry := with_digest e (sha (content_of e)).
Definition measured (objs : list TopObj) : Model :=
  {| num_nodes := count_nodes objs; objects := map_fills measure <$> objs |}.

Lemma read_entry_ok e c : read_entry dir e = Ok c ↔ readable e ∧ c = content_of e.
Proof.
  unfold read_entry, readable, content_of. destruct (open_file _) as [data|?|]; cbn [mbind outcome_bind].
  2,3: split; [done|by intros [(? & ? & _) _]].
  destruct (Z.leb_spec (2 ^ 63) (Z.of_nat (file_offset e))); [split; [done|]; intros [(d & [= <-] & ? & ? & ?) _]; lia|].
  destruct (Z.leb_spec (2 ^ 63) (Z.of_nat (fill_length e))); [split; [done|]; intros [(d & [= <-] & ? & ? & ?) _]; lia|].
  cbv zeta. destruct (Nat.ltb_spec (length (take (fill_length e) (drop (file_offset e) data))) (fill_length e)) as [Hs|Hs];
    rewrite length_take, length_drop in Hs.
  - split; [done|]. intros [(d & [= <-] & _ & _ & Hl) _]. lia.
  - split; [intros [= <-]|by intros [_ ->]]. split; [|done]. exists data. repeat split; [done..|]. lia.
Qed.

Lemma readable_length e : readable e → length (content_of e) = fill_length e.
Proof.
  intros (data & Hd & _ & _ & Hl). unfold content_of. rewrite Hd, length_take, length_drop. lia.
Qed.

Lemma add_entries_ok fill : ∀ blob r, add_entries sha dir fill blob = Ok r ↔
  Forall readable fill ∧ r = (measure <$> fill, blob ++ mjoin (content_of <$> fill)).
Proof.
  induction fill as [|e fill IH]; intros blob r; cbn [add_entries].
  - rewrite app_nil_r. split; [intros [= <-]; done|by intros [_ ->]].
  - rewrite Forall_cons. change (mjoin (content_of <$> e :: fill)) with (content_of e ++ mjoin (content_of <$> fill)).
    rewrite app_assoc. split.
    + intros (c & [He ->]%read_entry_ok & ([es b] & [Hf [= -> ->]]%IH & [= <-])%outcome_bind_ok)%outcome_bind_ok. done.
    + intros [[He Hf] ->]. rewrite (outcome_bind_eq _ _ (content_of e)) by (by apply read_entry_ok).
      by erewrite outcome_bind_eq by (by apply IH).
Qed.

Lemma add_object_ok obj blob r : add_object sha dir obj blob = Ok r ↔
  Forall readable (fills_of obj) ∧ r = (map_fills measure obj, blob ++ mjoin (content_of <$> fills_of obj)).
Proof.
  unfold add_object, fills_of, map_fills. destruct (object obj) as [[]|].
  7,8: split;
    [intros ([es b] & [Hf [= -> ->]]%add_entries_ok & [= <-])%outcome_bind_ok; done
    |intros [Hf ->]; by erewrite outcome_bind_eq by (by apply add_entries_ok)].
  all: rewrite app_nil_r; (split; [intros [= <-]; done|by intros [_ ->]]).
Qed.

Lemma add_objects_ok objs : ∀ blob r, add_objects sha dir objs blob = Ok r ↔
  Forall readable (all_fills objs) ∧ r = (map_fills measure <$> objs, blob ++ mjoin (content_of <$> all_fills objs)).
Proof.
  induction objs as [|obj objs IH]; intros blob r; cbn [add_objects].
  - rewrite app_nil_r. split; [intros [= <-]; done|by intros [_ ->]].
  - change (all_fills (obj :: objs)) with (fills_of obj ++ all_fills objs).
    rewrite Forall_app, fmap_app, join_app, app_assoc. split.
    + intros ([o b] & [He [= -> ->]]%add_object_ok & ([os b'] & [Hf [= -> ->]]%IH & [= <-])%outcome_bind_ok)%outcome_bind_ok. done.
    + intros [[He Hf] ->]. erewrite outcome_bind_eq by (by apply add_object_ok). cbv beta iota.
      by erewrite outcome_bind_eq by (by apply IH).
Qed.

(** ** The number of cores *)
Lemma foldl_max_le l : ∀ x n, foldl Nat.max x l < n ↔ x < n ∧ Forall (λ a, a < n) l.
Proof.
  induction l as [|y l IH]; intros x n; cbn [foldl]; [rewrite Forall_nil; tauto|]. rewrite IH, Forall_cons, Nat.max_lub_lt_iff. tauto.
Qed.
Lemma foldl_max_elem l : ∀ x, foldl Nat.max x l ∈ x :: l.
Proof.
  induction l as [|y l IH]; intros x; cbn [foldl]; [set_solver|]. specialize (IH (x `max` y)).
  destruct (Nat.max_spec x y) as [[_ ->]|[_ ->]] in IH; set_solver.
Qed.

Lemma count_nodes_least objs n : Forall (λ a, sized (S a)) (omap affinity_of objs) →
  count_nodes objs ≤ n ↔ Forall (λ a, a < n) (omap affinity_of objs).
Proof.
  unfold count_nodes, max_of. destruct (omap affinity_of objs) as [|x l]; intros Hs; [split; [done|lia]|].
  rewrite Forall_cons, <- foldl_max_le. rewrite Forall_forall in Hs. specialize (Hs _ (foldl_max_elem l x)).
  unfold sized in Hs. rewrite word_cast_small by (unfold is_word; lia). lia.
Qed.

Lemma serialize_spec_ok objs out : serialize_spec sha dir objs = Ok out ↔
  Forall readable (all_fills objs) ∧
  ∃ raw, to_allocvec (measured objs) = Some raw ∧ out = raw ++ mjoin (content_of <$> all_fills objs).
Proof.
  unfold serialize_spec, add_fill. cbn [objects num_nodes]. split.
  - intros ([m b] & ([os b'] & [Hf [= -> ->]]%add_objects_ok & [= <- <-])%outcome_bind_ok
      & (raw & Hr%unwrap_ok_inv & [= <-])%outcome_bind_ok)%outcome_bind_ok. eauto.
  - intros [Hf (raw & Hr & ->)]. erewrite outcome_bind_eq by (by erewrite outcome_bind_eq by (by apply add_objects_ok)).
    cbv beta iota. fold (measured objs). by rewrite Hr.
Qed.

(** C35: The tool writes the measured model and the contents, and nothing else.  It succeeds exactly when every
    fill entry of the objects can be read from its file and the model can be serialized, and then its
    output is the serialized model, in which every entry has the digest of its content and
    nothing else is changed, followed by the contents in the order of the model.  The number of cores in the model
    is the least that is above the core of every thread. *)
Theorem built_spec_exact objs out :
  (serialize_spec sha dir objs = Ok out ↔
    Forall readable (all_fills objs) ∧
    ∃ raw, to_allocvec (measured objs) = Some raw ∧ out = raw ++ mjoin (content_of <$> all_fills objs)) ∧
  (Forall (λ a, sized (S a)) (omap affinity_of objs) →
    ∀ n, num_nodes (measured objs) ≤ n ↔ Forall (λ a, a < n) (omap affinity_of objs)).
Proof.
  split; [apply serialize_spec_ok|intros Hs n; by apply count_nodes_least].
Qed.
End spec.

(** ** From the files to the server *)
Section loads.
Context {E : Type} `{!Files E} `{!Postcard Model} (sha : list Z → list Z) (dir : Path).
Context {K R P S F W He : Type} `{!ResourceServer.Platform K F} `{!ResourceServer.Realizer R P S Model F} `{!HostEnv W He}.
Context `{!Postcard Request} `{!PostcardLaws Request} `{!Postcard unit} `{!PostcardLaws unit} `{!Postcard FillChunkHeader}.
Context (node : nat) `{!HostPostcard R P S F} {Hlink : HostLink K R P S F W He node}.
Hypothesis reply_ok : ∀ k, effect (K := K) (E := F) ReplyControl k = (Ok tt, k).

(** The contents of the files, with the numbers of their objects and entries. *)
Definition file_contents (objs : list TopObj) : list (nat * nat * list Z) :=
  (λ x, (x.1, content_of dir x.2)) <$> fill_entries {| num_nodes := 0; objects := objs |}.

(** What the link needs of the description and of the sizes. *)
Record fits_files (realm_id chunk_size : nat) (objs : list TopObj) (raw : list Z) : Prop := {
  files_id : sized realm_id;
  files_raw : sized (length raw);
  files_chunk : sized chunk_size;
  files_pos : chunk_size ≠ 0;
  files_region : chunk_size ≤ link_size (HostLink := Hlink);
  files_entries : Forall (λ c, header_sized c ∧ length (entry_bytes c) ≤ chunk_size) (file_contents objs);
}.

Lemma measured_entries objs :
  fill_entries (measured sha dir objs) =
  (λ x, (x.1, measure sha dir x.2)) <$> fill_entries {| num_nodes := 0; objects := objs |}.
Proof. apply fill_entries_map. Qed.

Lemma measured_lengths objs : Forall (readable dir) (all_fills objs) →
  Forall (λ x : nat * nat * FillEntry, length (content_of dir x.2) = fill_length x.2) (fill_entries (measured sha dir objs)).
Proof.
  intros Hf. rewrite <- (fill_entries_fills 0), Forall_fmap in Hf. rewrite measured_entries. apply Forall_fmap.
  eapply Forall_impl; [exact Hf|]. intros x Hx. exact (readable_length dir x.2 Hx).
Qed.

Lemma measured_blob objs :
  mjoin (content_of dir <$> all_fills objs) = mjoin ((λ x, content_of dir x.2) <$> fill_entries (measured sha dir objs)).
Proof. by rewrite measured_entries, <- list_fmap_compose, <- (fill_entries_fills 0), <- list_fmap_compose. Qed.

Lemma measured_contents objs : Forall (readable dir) (all_fills objs) →
  contents (mjoin (content_of dir <$> all_fills objs)) (fill_entries (measured sha dir objs)) 0 = file_contents objs.
Proof.
  intros Hf. rewrite (contents_concat (content_of dir)); [|by apply measured_lengths|by rewrite drop_0, measured_blob].
  unfold file_contents. by rewrite measured_entries, <- list_fmap_compose.
Qed.

Lemma fits_built realm_id chunk_size objs raw :
  Forall (readable dir) (all_fills objs) → fits_files realm_id chunk_size objs raw →
  fits_link node realm_id chunk_size (measured sha dir objs) raw (mjoin (content_of dir <$> all_fills objs)).
Proof using Type*.
  intros Hf [????? Hes]. split; [done..| |].
  - rewrite (sum_lengths (content_of dir)) by by apply measured_lengths. by rewrite measured_blob.
  - by rewrite measured_contents.
Qed.

(** C9: What is loaded into a realm is what was in the files.  From a description that the build tool has
    written, and that fits the link, the host tool creates a realm exactly when the resource server
    accepts the measured model and then, one by one, the contents that the fill entries have in their
    files, and the server is left in the same state. *)
Theorem built_realm_loads take_model realm_id chunk_size objs spec raw w :
  serialize_spec sha dir objs = Ok spec →
  to_allocvec (measured sha dir objs) = Some raw →
  (∀ rest, take_model (raw ++ rest) = Some (measured sha dir objs, rest)) →
  fits_files realm_id chunk_size objs raw →
  let created := create_realm take_model realm_id spec chunk_size w in
  let uploaded := upload node realm_id raw (file_contents objs) (link_server w) in
  (∀ s', uploaded = (Ok tt, s') → ∃ w', created = (Ok tt, w') ∧ link_server w' = s') ∧
  (∀ w', created = (Ok tt, w') → uploaded = (Ok tt, link_server w')).
Proof using Type*.
  intros [Hf (raw' & Hr & ->)]%serialize_spec_ok Hr' Ht Hfits. simplify_eq. cbv zeta.
  rewrite <- measured_contents by done. eapply sim_ok, create_realm_sim; [done..|by apply Ht|by apply fits_built].
Qed.
End loads.

(** ** A concrete build *)
Module SpecDemo.
#[global] Instance files : Files unit := {|
  open_file p := if decide (p = bytes_of_string "out/a") then Ok [1; 2; 3; 4]%Z else Err tt;
  seek_invalid := tt;
  unexpected_eof := tt;
|}.
#[global] Instance model_postcard : Postcard Model := {|
  to_allocvec _ := Some [7; 7; 7]%Z;
  Rpc.from_bytes bs := HostDemo.decoders.(decode_model) (take 3 bs);
|}.
Definition sha (content : list Z) : list Z := [Z.of_nat (length content)].
Definition dir : Path := bytes_of_string "out".
(** The objects as the capability compiler gives them, without digests. *)
Definition objs : list TopObj :=
  map_fills (λ e, with_digest e []) <$> objects HostDemo.demo.
Lemma measured_demo : measured sha dir objs = HostDemo.demo.
Proof. vm_compute. reflexivity. Qed.
Lemma built : serialize_spec sha dir objs = Ok [7; 7; 7; 1; 2; 3]%Z.
Proof. vm_compute. reflexivity. Qed.
Lemma files_fit : fits_files dir 0 (F := Failure) (Hlink := HostDemo.link) 5 40 objs [7; 7; 7]%Z.
Proof.
  split; [done|done|done|done| |].
  - cbn [link_size HostDemo.link]. lia.
  - change (file_contents dir objs) with [(0, 0, [1; 2; 3]%Z)]. constructor; [|constructor]. split; [done|].
    vm_compute. lia.
Qed.
Lemma take_built rest :
  HostDemo.take_demo ([7; 7; 7]%Z ++ rest) = Some (measured sha dir objs, rest).
Proof. by rewrite measured_demo. Qed.
Definition created : outcome unit unit * HostDemo.world :=
  create_realm HostDemo.take_demo 5 [7; 7; 7; 1; 2; 3]%Z 40 HostDemo.server.
Lemma created_built : create_realm HostDemo.take_demo 5 [7; 7; 7; 1; 2; 3]%Z 40 HostDemo.server = (Ok tt, created.2).
Proof. vm_compute. reflexivity. Qed.
End SpecDemo.

Lemma built_spec_exact_witness :
  ∃ raw, to_allocvec (measured SpecDemo.sha SpecDemo.dir SpecDemo.objs) = Some raw ∧
    [7; 7; 7; 1; 2; 3]%Z = raw ++ mjoin (content_of SpecDemo.dir <$> all_fills SpecDemo.objs).
Proof.
  pose proof (built_spec_exact SpecDemo.sha SpecDemo.dir SpecDemo.objs [7; 7; 7; 1; 2; 3]%Z) as [Hb _].
  exact (proj2 (proj1 Hb SpecDemo.built)).
Defined.

#[local] Existing Instance LogKernel.sel4.
Lemma built_realm_loads_witness :
  upload (E := Failure) 0 5 [7; 7; 7]%Z (file_contents SpecDemo.dir SpecDemo.objs) HostDemo.server.1 =
    (Ok tt, SpecDemo.created.2.1).
Proof.
  pose proof (built_realm_loads SpecDemo.sha SpecDemo.dir (F := Failure) (Hlink := HostDemo.link) 0 (fun k => eq_refl)
    HostDemo.take_demo 5 40 SpecDemo.objs [7; 7; 7; 1; 2; 3]%Z [7; 7; 7]%Z HostDemo.server
    SpecDemo.built eq_refl SpecDemo.take_built SpecDemo.files_fit) as [_ Hup].
  exact (Hup SpecDemo.created.2 SpecDemo.created_built).
Defined.
